(* ===== verification/_CoqProject ===== *)
-Q . S2P
Prelude.v
HeapOrder.v
MinHeap.v
TimerQueue.v
Clock.v
MhTimer.v
RteRing.v
LinkList.v
Wheel.v
TimeWheel.v
ClockTimer.v
SkipList.v
SklTimer.v
Hoare.v
RbTree.v
RbShape.v
RbRun.v
RbInsert.v
RbDelete.v
RbtTimer.v
MsgQueue.v
RingBuffer.v
MessageBuffer.v
TcpConn.v
PagePool.v
MemPool.v
BlockPool.v
TaskQueue.v
BlockingQueue.v
LockedQueue.v
PcQueue.v
ThreadPool.v
NetTimer.v
DbTimer.v
KeyList.v
ConcReader.v
Except.v
QueryCallback.v
AsyncProcessor.v
Bytes.v
PreparedStatement.v
Field.v
ResultSet.v
Tokenize.v
MySqlConn.v
DbTask.v
DbPool.v
DbLoader.v
MpscQueue.v
MpscIntrusive.v
SharedPtr.v
SpinLock.v
ConnPool.v
Reactor.v
SetTimer.v
MemoryOrders.v
FmtInt.v
FmtArgs.v
FmtWrite.v
FmtParse.v
FmtPrintf.v
FmtFormat.v
SqlText.v
