(* ===== verification/Prelude.v ===== *)
(** * cpp-infra: server components in C and C++

    The repository collects the building blocks of a network server: timers,
    queues, memory pools, synchronisation, buffers and connections of a reactor,
    a thread pool, and two pools of database connections.  This development
    translates them, directory by directory, into executable definitions and
    proves what they promise.  File names below are those under src/.

    ** The parts and their files

    Words, arrays and outcomes.  This file: machine words of 8, 32 and 64 bits
    with their wrap-around, arrays, the outcome of a run ([Done], or undefined
    behaviour, or no fuel) and the state monad [prog].  Except.v: the monad
    [comp] of the database layer, which also throws and ends the process.
    Hoare.v: triples for pointer programs on cells.  Bytes.v: the bytes of
    integers, and numbers read from text.

    timer/.  HeapOrder.v and MinHeap.v: minheap.h, minheap.c.  RbTree.v (the
    functions of rbtree.h and rbtree.c, on a heap of nodes), RbShape.v (the trees
    such a heap stands for), RbRun.v, RbInsert.v, RbDelete.v.  SkipList.v:
    skiplist.c.  TimerQueue.v is the interface [Class] of a priority structure;
    MhTimer.v (mh-timer.h), RbtTimer.v (rbt-timer.h) and SklTimer.v (skl-timer.c)
    are the front ends over it, with the clock of Clock.v.  LinkList.v and
    Wheel.v: what timewheel.c and clock-timer.c share; TimeWheel.v and
    ClockTimer.v: the two wheels.  SetTimer.v: timer.cc, timer_with_timerfd.cc.

    free_queue/.  MsgQueue.v: msgqueue.c.  RteRing.v: rte_ring.  RingBuffer.v:
    ringbuffer.h.  MpscQueue.v and MpscIntrusive.v: MPSCQueue.h.  LockedQueue.v,
    PcQueue.v: the queues under a mutex.

    atomic_lock/.  SpinLock.v: spinlock.h.  SharedPtr.v: shared_ptr.h.
    KeyList.v: skiplist.h, all its operations by one thread; ConcReader.v: its
    readers beside the writer.  MemoryOrders.v: the programs acquire_release.cc,
    relaxed.cc, relaxed2.cc and seq_cst.cc.

    threadpool/.  TaskQueue.v is the interface of a queue of tasks, which
    BlockingQueue.v (blockingqueue.h) and PcQueue.v implement; ThreadPool.v
    (threadpool.cc) is proved for every implementation.

    mempool/.  PagePool.v: mm_pool_.c.  BlockPool.v: mm_pool.c.  MemPool.v:
    mem_pool.c.

    network_buffer_design/ and network_timer/.  MessageBuffer.v, TcpConn.v
    (TcpConnection.cc with the registration of EventLoop.h), Reactor.v
    (TcpServer.cc and the loop of EventLoop.h), NetTimer.v (Timer.h).

    mysqlconnpool/.  ConnPool.v, over Tokenize.v and BlockingQueue.v.

    mysql-conn-pool/dbimpl/.  Bottom up: Tokenize.v and MySqlConn.v
    (MySQLConnection.cpp and Implementation/), PreparedStatement.v, Field.v and
    ResultSet.v (QueryResult.cpp), DbTimer.v (Timer.h), DbTask.v (Transaction.cpp,
    QueryHolder.cpp, AdhocStatement.cpp, DatabaseWorker.cpp), QueryCallback.v and
    AsyncProcessor.v (QueryCallback.cpp, AsyncCallbackProcessor.h), DbPool.v
    (DatabaseWorkerPool.cpp), DbLoader.v (DatabaseLoader.cpp), SqlText.v
    (StringFormat.h, what the pool and the transaction execute from a format,
    and the text of bound values).

    mysql-conn-pool/fmt/, the formatting that dbimpl calls.  FmtInt.v: digits
    (format.h, format-inl.h).  FmtArgs.v: arguments and their descriptor
    (core.h).  FmtWrite.v: padding and the formatters of values (format.h).
    FmtParse.v: numbers in formats.  FmtPrintf.v: [sprintf] (printf.h).
    FmtFormat.v: [format] (format.h).

    ** How the code is rendered

    A structure is a record, or a heap of numbered cells where pointers are
    shared and followed; a function is a Definition or a Fixpoint of the same
    name that threads the state.  Integers are kept at their width with [u8],
    [u32], [u64], [i32].  Reading a cell that does not exist, an index out of
    range, an uninitialised field, a failed division are undefined behaviour, an
    outcome of its own ([UB], [Undefined] or [None]), so a theorem that a run
    returns says that it has none.

    Code that other threads run beside is a step function or relation in which
    a step is one access to shared memory (SpinLock.v, MpscQueue.v,
    MpscIntrusive.v, RingBuffer.v, ConcReader.v) or one critical section
    (MsgQueue.v, ThreadPool.v), and the steps are interleaved in any way.
    Memory is sequentially consistent there, except
    that a slot of RingBuffer.v must not be touched by both sides and that a
    reader of ConcReader.v must not meet a link that was not written.
    MemoryOrders.v has a semantics of views for the weaker orders.

    What the repository does not contain is a parameter: malloc's and the
    kernel's answers, clock readings and random numbers are arguments; the MySQL
    client library is the class [MySqlApi] (MySqlConn.v), the cppconn driver the
    class [cppconn] (ConnPool.v), the user's callbacks are names with a program,
    or lists of the effects they have.

    ** Fuel

    A loop or recursion that is not structural takes fuel, and the theorems say
    how much is enough: the number of nodes for walks of lists and trees, the
    length of the text for [Tokenize], of the format for [sprintf] and [format],
    the number of elements for rounds over
    timers, connections, callbacks and queued operations, plus one.  The
    treatment of a lost connection takes the number of attempts, repeated
    statements the number of times the connection can still be lost, [Open] of
    mysqlconnpool the number of attempts that fail; where no number is enough an
    Example shows the endless run.  The number of counters bounds the nesting of
    [release].

    ** What the theorems show

    Refinement and equivalence: the operations of the red-black tree, the skip
    lists, the heap, the ring and the timers compute what they compute on a
    sorted sequence, a set or a queue; [Tokenize] gives the pieces between the
    separators; [sprintf] does what the pieces of its format say, and the two
    loops over a [format] agree; the spin locks answer as a mutex does; an asynchronous query of
    either pool reaches its callback once, on the result of its own statement.

    Safety under interleaving: the queues and rings neither lose, duplicate nor
    reorder; no node is used after it was freed; readers without locks see a
    state of the list; the lock of a connection is given back.

    Where the code can do something undefined or wrong, the theorem says when:
    [sprintf] on a format without terminator that ends in a percent sign, an
    assignment of shared pointers that deletes its own operand, an aligned
    address behind the end of a block (PagePool.v), an empty handler in a batch of
    events (Reactor.v), a round whose callbacks add more than there is room for
    (ConnPool.v).

    Liveness and termination: timers fire at their tick, or a round expires all
    that is due; a stuck message queue or thread pool has nothing left to do;
    the destructor of the thread pool ends; retries after a deadlock and
    reconnections are bounded; a free connection is found.

    Types, bounds, errors, round trips: a well-typed callback never touches the
    wrong member of its unions, and a chain of them runs in order; pending messages are bounded; opening a pool and
    treating an error leave precisely the connections stated; what is written to
    a buffer is read back, and so is a number in the text of a statement.

    Behaviour that is not what it should be is stated as a Lemma or an Example
    beside the definition it concerns.

    ** Not modelled

    The demonstration programs and tests (main functions that print); of the fmt
    directory what no format of dbimpl reaches: floating-point numbers (an
    argument of [ToString]), 128-bit integers, user-defined types and streams,
    named arguments, wide characters, dates, colours, compiled formats, files,
    and the fallbacks for compilers without 64-bit pointers; logging, the
    printing of errors, waiting times; Log.h, Errors.cpp and the headers of
    declarations and macros of dbimpl; timeouts inside the kernel;
    [mp_alloc_small], which mem_pool.c calls and the repository does not define
    (an argument of MemPool.v); atomic.h and the pthread variant of spinlock.h, which only
    rename library functions.  network_timer has copies of the connection, the
    server and the buffer, which differ in that [Close] leaves the handler as it
    is, and in the timers that the loop runs. *)
From stdpp Require Export base list gmap option numbers sorting.
From Stdlib Require Export ZArith Lia.

Open Scope Z_scope.

(** ** Machine integers *)

(** Unsigned wrap-around of a C integer of [w] bits. *)
Definition wrap (w x : Z) : Z := x mod 2 ^ w.
Definition u8 (x : Z) : Z := wrap 8 x.
Definition u32 (x : Z) : Z := wrap 32 x.
Definition u64 (x : Z) : Z := wrap 64 x.

(** Conversion to a signed two's-complement integer of 32 bits. *)
Definition i32 (x : Z) : Z :=
  let y := u32 x in if decide (y < 2 ^ 31) then y else y - 2 ^ 32.

Abbreviation U32_MAX := 4294967295 (only parsing).

Lemma wrap_range w x : 0 ≤ w → 0 ≤ wrap w x < 2 ^ w.
Proof. intros. apply Z.mod_pos_bound. lia. Qed.
Lemma wrap_small w x : 0 ≤ x < 2 ^ w → wrap w x = x.
Proof. apply Z.mod_small. Qed.
Lemma u32_range x : 0 ≤ u32 x < 4294967296.
Proof. apply (wrap_range 32); lia. Qed.
Lemma u32_small x : 0 ≤ x < 4294967296 → u32 x = x.
Proof. apply (wrap_small 32). Qed.
Lemma u64_small x : 0 ≤ x < 18446744073709551616 → u64 x = x.
Proof. apply (wrap_small 64). Qed.
Lemma i32_small x : 0 ≤ x < 2147483648 → i32 x = x.
Proof. intros. unfold i32. rewrite u32_small by lia. by rewrite decide_True by lia. Qed.
Lemma u32_idemp x : u32 (u32 x) = u32 x.
Proof. apply u32_small, u32_range. Qed.
Lemma u32_add_l x y : u32 (u32 x + y) = u32 (x + y).
Proof. apply Zplus_mod_idemp_l. Qed.
Lemma u32_add_r x y : u32 (x + u32 y) = u32 (x + y).
Proof. apply Zplus_mod_idemp_r. Qed.
Lemma u32_sub_l x y : u32 (u32 x - y) = u32 (x - y).
Proof. apply Zminus_mod_idemp_l. Qed.
Lemma u32_sub_r x y : u32 (x - u32 y) = u32 (x - y).
Proof. apply Zminus_mod_idemp_r. Qed.
Lemma u32_plus_mult x k : u32 (x + k * 4294967296) = u32 x.
Proof. apply Z_mod_plus_full. Qed.

(** Lengths that divide 2^32 see through the wrap. *)
Lemma u32_mod_pow2 x k : 0 ≤ k ≤ 32 → u32 x mod 2 ^ k = x mod 2 ^ k.
Proof.
  intros Hk. unfold u32, wrap. apply Z.mod_mod_divide.
  exists (2 ^ (32 - k)). rewrite <-Z.pow_add_r by lia. f_equal. lia.
Qed.

Create Rewrite HintDb words.
#[export] Hint Rewrite u32_idemp u32_add_l u32_add_r u32_sub_l u32_sub_r : words.

(** Closes goals about [u32]: unfolds the wrap to a remainder and calls [lia]
    after naming every quotient. *)
Ltac word_lia :=
  unfold u8, u32, u64, wrap in *;
  change (2 ^ 8) with 256 in *;
  change (2 ^ 32) with 4294967296 in *;
  change (2 ^ 64) with 18446744073709551616 in *;
  Z.to_euclidean_division_equations; lia.

(** ** Arrays indexed by C integers

    An array is a list of cells.  Reading or writing outside the list has no
    result ([None]): C leaves it undefined, and so do we. *)
Definition zlookup {A} (l : list A) (i : Z) : option A :=
  if decide (0 ≤ i) then l !! Z.to_nat i else None.
Definition zinsert {A} (i : Z) (x : A) (l : list A) : list A :=
  if decide (0 ≤ i) then <[Z.to_nat i := x]> l else l.
Definition zlength {A} (l : list A) : Z := Z.of_nat (length l).
Definition zupdate {A} (i : Z) (x : A) (l : list A) : option (list A) :=
  if decide (0 ≤ i < zlength l) then Some (zinsert i x l) else None.

Section arrays.
Context {A : Type}.
Implicit Types (l : list A) (x y : A) (i j : Z).

Lemma zlength_nonneg l : 0 ≤ zlength l.
Proof. unfold zlength. lia. Qed.

Lemma zlookup_lt_Some l i x : zlookup l i = Some x → 0 ≤ i < zlength l.
Proof.
  unfold zlookup, zlength. case_decide; [|done].
  intros ?%lookup_lt_Some. lia.
Qed.

Lemma zlookup_lt_is_Some l i : 0 ≤ i < zlength l → is_Some (zlookup l i).
Proof.
  unfold zlookup, zlength. intros. rewrite decide_True by lia.
  apply lookup_lt_is_Some. lia.
Qed.

Lemma zlookup_ge_None l i : zlength l ≤ i → zlookup l i = None.
Proof.
  unfold zlookup, zlength. intros. case_decide; [|done].
  apply lookup_ge_None. lia.
Qed.

Lemma zlookup_of_nat l (n : nat) : zlookup l (Z.of_nat n) = l !! n.
Proof. unfold zlookup. rewrite decide_True by lia. by rewrite Nat2Z.id. Qed.

Lemma zlength_insert i x l : zlength (zinsert i x l) = zlength l.
Proof. unfold zlength, zinsert. case_decide; [by rewrite length_insert|done]. Qed.

Lemma zlookup_insert_eq l i x :
  0 ≤ i < zlength l → zlookup (zinsert i x l) i = Some x.
Proof.
  unfold zlookup, zinsert, zlength. intros. rewrite !decide_True by lia.
  apply list_lookup_insert_eq. lia.
Qed.

Lemma zlookup_insert_ne l i j x :
  i ≠ j → zlookup (zinsert i x l) j = zlookup l j.
Proof.
  unfold zlookup, zinsert. intros. repeat case_decide; try done.
  apply list_lookup_insert_ne. lia.
Qed.

Lemma zupdate_Some i x l :
  0 ≤ i < zlength l → zupdate i x l = Some (zinsert i x l).
Proof. intros. unfold zupdate. by rewrite decide_True. Qed.

Lemma zlist_ext l1 l2 :
  zlength l1 = zlength l2 →
  (∀ i, 0 ≤ i < zlength l1 → zlookup l1 i = zlookup l2 i) →
  l1 = l2.
Proof.
  unfold zlength. intros Hlen H. apply (list_eq_same_length _ _ (length l2)); [done| |]; [apply Nat2Z.inj, Hlen|].
  intros i x y Hi Hx Hy. specialize (H (Z.of_nat i)).
  rewrite !zlookup_of_nat in H. rewrite H in Hx by lia. congruence.
Qed.

Lemma zlength_app l1 l2 : zlength (l1 ++ l2) = zlength l1 + zlength l2.
Proof. unfold zlength. rewrite length_app. lia. Qed.

Lemma zlength_take l n : 0 ≤ n ≤ zlength l → zlength (take (Z.to_nat n) l) = n.
Proof. unfold zlength. intros. rewrite length_take. lia. Qed.

Lemma zlength_drop l n : 0 ≤ n ≤ zlength l → zlength (drop (Z.to_nat n) l) = zlength l - n.
Proof. unfold zlength. intros. rewrite length_drop. lia. Qed.

Lemma zlookup_app l1 l2 i :
  zlookup (l1 ++ l2) i =
  if decide (i < zlength l1) then zlookup l1 i else zlookup l2 (i - zlength l1).
Proof.
  unfold zlookup, zlength. repeat case_decide; try lia; try done.
  - apply lookup_app_l. lia.
  - rewrite lookup_app_r by lia. f_equal. lia.
Qed.

Lemma zlookup_take l n i :
  zlookup (take (Z.to_nat n) l) i = if decide (i < n) then zlookup l i else None.
Proof.
  unfold zlookup. repeat case_decide; try done.
  - apply lookup_take_lt. lia.
  - apply lookup_take_ge. lia.
Qed.

Lemma zlookup_drop l n i :
  0 ≤ n → 0 ≤ i → zlookup (drop (Z.to_nat n) l) i = zlookup l (n + i).
Proof.
  intros. unfold zlookup. rewrite !decide_True by lia. rewrite lookup_drop. f_equal. lia.
Qed.

(** Swapping two cells permutes the array. *)
Lemma swap_Permutation l i j x y :
  zlookup l i = Some x → zlookup l j = Some y →
  zinsert i y (zinsert j x l) ≡ₚ l.
Proof.
  unfold zlookup, zinsert. repeat case_decide; try done.
  generalize (Z.to_nat i) (Z.to_nat j). clear. intros i j Hi Hj.
  destruct (decide (i = j)) as [->|Hne].
  { simplify_eq. by rewrite !(list_insert_id l). }
  apply Permutation_inj. split; [by rewrite !length_insert|].
  exists (λ k, if decide (k = i) then j else if decide (k = j) then i else k).
  split.
  - intros a b. repeat case_decide; naive_solver.
  - intros k. repeat case_decide; subst.
    + rewrite list_lookup_insert_eq; [done|].
      rewrite length_insert. by eapply lookup_lt_Some.
    + rewrite list_lookup_insert_ne by done.
      rewrite list_lookup_insert_eq; [done|]. by eapply lookup_lt_Some.
    + by rewrite !list_lookup_insert_ne by done.
Qed.
End arrays.

Lemma zlookup_fmap {A B} (f : A → B) (l : list A) i : zlookup (f <$> l) i = f <$> zlookup l i.
Proof. unfold zlookup. case_decide; [apply list_lookup_fmap|done]. Qed.

Lemma zlength_nil {A} : zlength (@nil A) = 0.
Proof. done. Qed.
Lemma zlength_cons {A} (x : A) l : zlength (x :: l) = zlength l + 1.
Proof. unfold zlength. cbn. lia. Qed.
Lemma zlength_fmap {A B} (f : A → B) (l : list A) : zlength (f <$> l) = zlength l.
Proof. unfold zlength. by rewrite length_fmap. Qed.

Create HintDb arrays.
Create Rewrite HintDb arrays.
#[export] Hint Rewrite @zlength_insert : arrays.

(** ** Computations

    A C function is a state transformer that returns a value, runs into
    undefined behaviour ([Undef]) or uses up the fuel that bounds its loops
    ([NoFuel]).  The two failures are kept apart: theorems of totality exclude
    both, and a finding that exhibits undefined behaviour reaches [Undef]. *)
Inductive outcome (A : Type) : Type :=
  | Done (a : A)
  | Undef
  | NoFuel.
Arguments Done {A} a.
Arguments Undef {A}.
Arguments NoFuel {A}.

Definition prog (S A : Type) : Type := S → outcome (A * S).

#[export] Instance prog_ret {S} : MRet (prog S) := λ A a s, Done (a, s).
#[export] Instance prog_bind {S} : MBind (prog S) := λ A B f m s,
  match m s with
  | Done (a, s') => f a s'
  | Undef => Undef
  | NoFuel => NoFuel
  end.

Definition getS {S} : prog S S := λ s, Done (s, s).
Definition gets {S A} (f : S → A) : prog S A := λ s, Done (f s, s).
Definition putS {S} (s' : S) : prog S unit := λ _, Done ((), s').
Definition modS {S} (f : S → S) : prog S unit := λ s, Done ((), f s).
Definition undef {S A} : prog S A := λ _, Undef.
Definition out_of_fuel {S A} : prog S A := λ _, NoFuel.
(** A read whose location may be missing. *)
Definition getsO {S A} (f : S → option A) : prog S A := λ s,
  match f s with Some a => Done (a, s) | None => Undef end.
(** A write whose location may be missing. *)
Definition modO {S} (f : S → option S) : prog S unit := λ s,
  match f s with Some s' => Done ((), s') | None => Undef end.
Definition assertS {S} (P : Prop) `{!Decision P} : prog S unit :=
  if decide P then mret () else undef.

Section prog.
Context {S : Type}.

Lemma bind_Done {A B} (m : prog S A) (f : A → prog S B) s a s' :
  m s = Done (a, s') → (m ≫= f) s = f a s'.
Proof. intros H. unfold mbind, prog_bind. by rewrite H. Qed.

Lemma bind_Undef {A B} (m : prog S A) (f : A → prog S B) s :
  m s = Undef → (m ≫= f) s = Undef.
Proof. intros H. unfold mbind, prog_bind. by rewrite H. Qed.

Lemma bind_inv {A B} (m : prog S A) (f : A → prog S B) s b s'' :
  (m ≫= f) s = Done (b, s'') → ∃ a s', m s = Done (a, s') ∧ f a s' = Done (b, s'').
Proof.
  unfold mbind, prog_bind. destruct (m s) as [[a s']| |] eqn:?; naive_solver.
Qed.

Lemma gets_bind {A B} (g : S → A) (f : A → prog S B) s :
  (gets g ≫= f) s = f (g s) s.
Proof. done. Qed.

Lemma getS_bind {B} (f : S → prog S B) s : (getS ≫= f) s = f s s.
Proof. done. Qed.

Lemma modS_bind {B} (g : S → S) (f : unit → prog S B) s :
  (modS g ≫= f) s = f () (g s).
Proof. done. Qed.

Lemma getsO_bind {A B} (g : S → option A) (f : A → prog S B) s a :
  g s = Some a → (getsO g ≫= f) s = f a s.
Proof. intros H. unfold mbind, prog_bind, getsO. by rewrite H. Qed.

Lemma modO_bind {B} (g : S → option S) (f : unit → prog S B) s s' :
  g s = Some s' → (modO g ≫= f) s = f () s'.
Proof. intros H. unfold mbind, prog_bind, modO. by rewrite H. Qed.

Lemma getsO_Done {A} (g : S → option A) s a :
  g s = Some a → getsO g s = Done (a, s).
Proof. intros H. unfold getsO. by rewrite H. Qed.

Lemma modO_Done (g : S → option S) s s' :
  g s = Some s' → modO g s = Done ((), s').
Proof. intros H. unfold modO. by rewrite H. Qed.
End prog.

(** Runs a computation on a part of the state. *)
Definition zoom {S T A} (get : S → T) (set : T → S → S) (m : prog T A) : prog S A := λ s,
  match m (get s) with
  | Done (a, t) => Done (a, set t s)
  | Undef => Undef
  | NoFuel => NoFuel
  end.

Lemma zoom_Done {S T A} (get : S → T) (set : T → S → S) (m : prog T A) s a t :
  m (get s) = Done (a, t) → zoom get set m s = Done (a, set t s).
Proof. intros H. unfold zoom. by rewrite H. Qed.

(** Computations that agree on every state are the same computation: [≡] is
    this equivalence, and [bind] respects it. *)
Record prog_eq {S A} (m1 m2 : prog S A) : Prop := ProgEq { prog_run s : m1 s = m2 s }.
#[export] Instance prog_equiv {S A} : Equiv (prog S A) := prog_eq.
#[export] Instance prog_equivalence {S A} : Equivalence (≡@{prog S A}).
Proof.
  split.
  - by intros m.
  - intros m1 m2 [H]. split. intros s. by rewrite H.
  - intros m1 m2 m3 [H1] [H2]. split. intros s. by rewrite H1, H2.
Qed.
#[export] Instance prog_bind_proper {S A B} :
  Proper (pointwise_relation A (≡) ==> (≡) ==> (≡)) (@mbind (prog S) _ A B).
Proof.
  intros f g Hfg m1 m2 [Hm]. split. intros s. unfold mbind, prog_bind. rewrite Hm.
  destruct (m2 s) as [[a s']| |]; [apply Hfg|done|done].
Qed.

Lemma prog_assoc {S A B C} (m : prog S A) (f : A → prog S B) (g : B → prog S C) :
  ((m ≫= f) ≫= g) ≡ (m ≫= λ a, f a ≫= g).
Proof. split. intros s. unfold mbind, prog_bind. by destruct (m s) as [[]| |]. Qed.

Lemma prog_ret_bind {S A B} (a : A) (f : A → prog S B) : (mret a ≫= f) ≡ f a.
Proof. by split. Qed.

(** A computation for its effect, then a known value. *)
Lemma prog_then_ret {S A B} (m : prog S unit) (a : A) (f : A → prog S B) :
  ((m;; mret a) ≫= f) ≡ (m;; f a).
Proof. apply prog_assoc. Qed.

(** Two runs that start with the same computation. *)
Lemma prog_bind_ext {S A B} (m : prog S A) (f g : A → prog S B) :
  (∀ a, f a ≡ g a) → (m ≫= f) ≡ (m ≫= g).
Proof. intros H. by apply prog_bind_proper. Qed.

(** Runs the head of a [prog] whose next step is determined. *)
Ltac prog_step :=
  first
    [ rewrite gets_bind | rewrite modS_bind
    | erewrite getsO_bind; [|solve [eauto with arrays]]
    | erewrite modO_bind; [|solve [eauto with arrays]]
    | erewrite bind_Done; [|solve [eauto with arrays]] ].

Lemma filter_iff_in {A} (P Q : A → Prop) `{∀ x, Decision (P x)} `{∀ x, Decision (Q x)} (l : list A) :
  (∀ x, x ∈ l → P x ↔ Q x) → filter P l = filter Q l.
Proof.
  induction l as [|x l IH]; intros Hl; [done|]. rewrite !filter_cons.
  rewrite IH by (intros y Hy; apply Hl; set_solver).
  assert (P x ↔ Q x) by (apply Hl; set_solver). repeat case_decide; tauto.
Qed.

Lemma filter_all {A} (P : A → Prop) `{∀ x, Decision (P x)} (l : list A) :
  (∀ x, x ∈ l → P x) → filter P l = l.
Proof.
  induction l as [|x l IH]; intros Hl; [done|]. rewrite filter_cons_True by (apply Hl; set_solver).
  f_equal. apply IH. intros y Hy. apply Hl. set_solver.
Qed.

Lemma filter_none {A} (P : A → Prop) `{∀ x, Decision (P x)} (l : list A) :
  (∀ x, x ∈ l → ¬ P x) → filter P l = [].
Proof.
  induction l as [|x l IH]; intros Hl; [done|]. rewrite filter_cons_False by (apply Hl; set_solver).
  apply IH. intros y Hy. apply Hl. set_solver.
Qed.

Lemma StronglySorted_prepend {A} (R : A → A → Prop) (l1 l2 : list A) :
  (∀ x y, x ∈ l1 → y ∈ l1 ++ l2 → R x y) → StronglySorted R l2 → StronglySorted R (l1 ++ l2).
Proof.
  intros HR Hs. induction l1 as [|x l1 IH]; [done|]. cbn. constructor.
  - apply IH. intros y z Hy Hz. apply HR; set_solver.
  - apply Forall_forall. intros y Hy. apply HR; set_solver.
Qed.

Lemma StronglySorted_impl {A} (R S : A → A → Prop) (l : list A) :
  (∀ x y, x ∈ l → y ∈ l → R x y → S x y) → StronglySorted R l → StronglySorted S l.
Proof.
  intros HR Hs. induction Hs as [|x l Hs IH Hall]; constructor.
  - apply IH. intros y z Hy Hz. apply HR; set_solver.
  - rewrite Forall_forall in *. intros y Hy. apply HR; set_solver.
Qed.

Lemma StronglySorted_insert {A} (R : A → A → Prop) (l1 l2 : list A) x :
  StronglySorted R (l1 ++ l2) → (∀ y, y ∈ l1 → R y x) → (∀ y, y ∈ l2 → R x y) →
  StronglySorted R (l1 ++ x :: l2).
Proof.
  induction l1 as [|y l1 IH]; cbn; intros Hs H1 H2.
  - constructor; [done|]. by apply Forall_forall.
  - inv Hs. constructor; [apply IH; [done| |done]; intros z Hz; apply H1; set_solver|].
    rewrite Forall_forall in *. intros z [Hz|[->|Hz]%elem_of_cons]%elem_of_app.
    + set_solver.
    + apply H1. set_solver.
    + set_solver.
Qed.

Lemma StronglySorted_delete {A} (R : A → A → Prop) (l1 l2 : list A) x :
  StronglySorted R (l1 ++ x :: l2) → StronglySorted R (l1 ++ l2).
Proof.
  induction l1 as [|y l1 IH]; cbn; intros Hs; inv Hs; [done|]. constructor; [by apply IH|].
  rewrite Forall_forall in *. set_solver.
Qed.

(** A sorted list is cut in two by a threshold. *)
Lemma StronglySorted_cut {A} (k : A → Z) (l : list A) (t : Z) :
  StronglySorted (λ x y, k x ≤ k y) l →
  l = filter (λ x, k x < t) l ++ filter (λ x, ¬ k x < t) l.
Proof.
  induction 1 as [|x l Hs IH Hall]; [done|]. rewrite !filter_cons.
  destruct (decide (k x < t)) as [Hx|Hx].
  - rewrite decide_False by tauto. cbn. by rewrite <-IH.
  - rewrite decide_True by done. rewrite Forall_forall in Hall.
    assert (filter (λ y, k y < t) l = []) as Hnone.
    { clear IH. induction l as [|y l IHl]; [done|].
      rewrite filter_cons_False; [apply IHl; [by inv Hs|]; intros z Hz; apply Hall; set_solver|].
      specialize (Hall y ltac:(set_solver)). cbn in Hall. lia. }
    rewrite Hnone in *. cbn in *. by rewrite <-IH.
Qed.

(** Pointers to heap objects; [option ptr] where the code also uses [NULL]. *)
Abbreviation ptr := positive.
