(* ===== verification/HeapOrder.v ===== *)
(** Heap order on a list of elements with integer keys, and the two
    restoring walks of a binary heap by swaps.  This is the reference that the
    hole-moving loops of MinHeap are proved to implement. *)
From S2P Require Import Prelude.
Local Open Scope nat_scope.

Definition parent (i : nat) : nat := (i - 1) / 2.

Lemma parent_lt i : 0 < i → parent i < i.
Proof. intros. unfold parent. apply Nat.Div0.div_lt_upper_bound. lia. Qed.

Lemma parent_inv i h : 0 < i → parent i = h → i = 2 * h + 1 ∨ i = 2 * h + 2.
Proof.
  intros ? <-. unfold parent. pose proof (Nat.div_mod_eq (i - 1) 2).
  pose proof (Nat.mod_upper_bound (i - 1) 2). lia.
Qed.

Lemma parent_left h : parent (2 * h + 1) = h.
Proof. unfold parent. replace (2 * h + 1 - 1) with (h * 2) by lia. by apply Nat.div_mul. Qed.
Lemma parent_right h : parent (2 * h + 2) = h.
Proof.
  unfold parent. replace (2 * h + 2 - 1) with (1 + h * 2) by lia.
  by rewrite Nat.div_add.
Qed.

Definition swap {A} (L : list A) (i j : nat) : list A :=
  match L !! i, L !! j with
  | Some x, Some y => <[i := y]> (<[j := x]> L)
  | _, _ => L
  end.

Section swap.
Context {A : Type}.
Implicit Types (L : list A).

Lemma swap_length L i j : length (swap L i j) = length L.
Proof. unfold swap. repeat case_match; by rewrite ?length_insert. Qed.

Lemma swap_lookup L i j k :
  i < length L → j < length L →
  swap L i j !! k = if decide (k = i) then L !! j else if decide (k = j) then L !! i else L !! k.
Proof.
  intros [x Hx]%lookup_lt_is_Some [y Hy]%lookup_lt_is_Some. unfold swap. rewrite Hx, Hy.
  pose proof (lookup_lt_Some _ _ _ Hx). pose proof (lookup_lt_Some _ _ _ Hy).
  repeat case_decide; subst.
  - by rewrite list_lookup_insert_eq by (by rewrite length_insert).
  - by rewrite list_lookup_insert_ne, list_lookup_insert_eq by done.
  - by rewrite !list_lookup_insert_ne by done.
Qed.

Lemma swap_Permutation_nat L i j : swap L i j ≡ₚ L.
Proof.
  unfold swap. destruct (L !! i) as [x|] eqn:Hi; [|done].
  destruct (L !! j) as [y|] eqn:Hj; [|done].
  pose proof (swap_Permutation L (Z.of_nat i) (Z.of_nat j) x y) as H.
  unfold zinsert in H. rewrite !zlookup_of_nat, !decide_True, !Nat2Z.id in H by lia.
  by apply H.
Qed.
End swap.

Section order.
Context {A : Type} (key : A → Z).
Implicit Types (L : list A).

(** Every element is at least its parent. *)
Definition ordered L : Prop :=
  ∀ i x y, 0 < i → L !! i = Some x → L !! parent i = Some y → (key y ≤ key x)%Z.

(** The order holds away from slot [h], and across it. *)
Definition weak L (h : nat) : Prop :=
  (∀ i x y, 0 < i → i ≠ h → parent i ≠ h →
     L !! i = Some x → L !! parent i = Some y → (key y ≤ key x)%Z) ∧
  (∀ i x y, 0 < i → 0 < h → parent i = h →
     L !! i = Some x → L !! parent h = Some y → (key y ≤ key x)%Z).

Definition above_children L h : Prop :=
  ∀ i x y, 0 < i → parent i = h → L !! i = Some x → L !! h = Some y → (key y ≤ key x)%Z.
Definition below_parent L h : Prop :=
  ∀ x y, 0 < h → L !! h = Some x → L !! parent h = Some y → (key y ≤ key x)%Z.

Lemma ordered_weak L h : ordered L → weak L h.
Proof.
  intros H. split; [by eauto|]. intros i x y Hi Hh Hp Hx Hy.
  destruct (lookup_lt_is_Some_2 L h) as [z Hz].
  { apply lookup_lt_Some in Hx. pose proof (parent_lt i Hi). lia. }
  transitivity (key z); [by eauto|]. apply (H i x z); auto. by rewrite Hp.
Qed.

Lemma weak_ordered L h : weak L h → above_children L h → below_parent L h → ordered L.
Proof.
  intros [H1 _] Ha Hb i x y Hi Hx Hy.
  destruct (decide (i = h)) as [->|]; [by eauto|].
  destruct (decide (parent i = h)) as [Hp|]; [|by eauto].
  rewrite Hp in Hy. by eapply Ha.
Qed.

Lemma ordered_root_min L x :
  ordered L → L !! 0 = Some x → Forall (λ y, (key x ≤ key y)%Z) L.
Proof.
  intros H Hx. apply Forall_lookup. intros i.
  induction i as [i IH] using (well_founded_induction lt_wf). intros y Hy.
  destruct (decide (i = 0)) as [->|]; [by simplify_eq|].
  pose proof (parent_lt i ltac:(lia)).
  destruct (lookup_lt_is_Some_2 L (parent i)) as [z Hz].
  { apply lookup_lt_Some in Hy. lia. }
  transitivity (key z); [by eapply IH|]. apply (H i y z); auto; lia.
Qed.

Lemma ordered_take L k : ordered L → ordered (take k L).
Proof.
  intros H i x y Hi [Hx _]%lookup_take_Some [Hy _]%lookup_take_Some. by eapply H.
Qed.

Lemma ordered_prefix L x : ordered (L ++ [x]) → ordered L.
Proof. intros H%(ordered_take _ (length L)). by rewrite take_app_length in H. Qed.

(** Upwards walk: swap with the parent while the parent is greater. *)
Fixpoint swim (fuel : nat) L (h : nat) : list A :=
  match fuel with
  | O => L
  | S fuel =>
      if decide (h = 0) then L else
      match L !! parent h, L !! h with
      | Some q, Some e =>
          if decide (key q > key e)%Z then swim fuel (swap L h (parent h)) (parent h) else L
      | _, _ => L
      end
  end.

(** The child the downwards walk compares with, as the code picks it. *)
Definition min_child L (h : nat) : option nat :=
  if decide (2 * h + 2 < length L) then
    match L !! (2 * h + 2), L !! (2 * h + 1) with
    | Some x, Some y => Some (if decide (key x > key y)%Z then 2 * h + 1 else 2 * h + 2)
    | _, _ => None
    end
  else if decide (2 * h + 2 = length L) then Some (2 * h + 1) else None.

(** Downwards walk: swap with the lesser child while that is smaller. *)
Fixpoint sink (fuel : nat) L (h : nat) : list A :=
  match fuel with
  | O => L
  | S fuel =>
      match min_child L h with
      | Some c =>
          match L !! c, L !! h with
          | Some q, Some e =>
              if decide (key e > key q)%Z then sink fuel (swap L h c) c else L
          | _, _ => L
          end
      | None => L
      end
  end.

Lemma swim_Permutation fuel L h : swim fuel L h ≡ₚ L.
Proof.
  revert L h. induction fuel as [|f IH]; intros L h; [done|]. cbn.
  repeat case_match; try done. by rewrite IH, swap_Permutation_nat.
Qed.
Lemma sink_Permutation fuel L h : sink fuel L h ≡ₚ L.
Proof.
  revert L h. induction fuel as [|f IH]; intros L h; [done|]. cbn.
  repeat case_match; try done. by rewrite IH, swap_Permutation_nat.
Qed.

Lemma swap_up_weak L h q e :
  0 < h → h < length L → L !! parent h = Some q → L !! h = Some e → (key q > key e)%Z →
  weak L h → above_children L h →
  weak (swap L h (parent h)) (parent h) ∧ above_children (swap L h (parent h)) (parent h).
Proof.
  intros Hh Hlt Hq He Hk [W1 W2] Ha. pose proof (parent_lt h Hh).
  assert (parent h < length L) by lia. split; [split|].
  - intros i x y Hi Hih Hpi. rewrite !swap_lookup by lia.
    rewrite (decide_False (P := i = parent h)) by done.
    rewrite (decide_False (P := parent i = parent h)) by done.
    case_decide as E1; [subst i; done|]. case_decide as E2; [|by eauto].
    rewrite Hq. intros Hx [= <-]. eapply W2; eauto.
  - intros i x y Hi Hp0 Hpi. rewrite !swap_lookup by lia.
    pose proof (parent_lt _ Hp0).
    rewrite (decide_False (P := parent (parent h) = h)) by lia.
    rewrite (decide_False (P := parent (parent h) = parent h)) by lia.
    intros Hx Hy.
    assert (key y ≤ key q)%Z by (eapply W1; [exact Hp0| | |exact Hq|exact Hy]; lia).
    case_decide as E1; [rewrite Hq in Hx; by simplify_eq|].
    case_decide as E2; [subst i; pose proof (parent_lt _ Hp0); lia|].
    transitivity (key q); [done|].
    eapply (W1 i x q); eauto; [|congruence]. rewrite Hpi. lia.
  - intros i x y Hi Hpi. rewrite !swap_lookup by lia.
    rewrite (decide_False (P := parent h = h)) by lia. rewrite (decide_True (P := parent h = parent h)) by done.
    rewrite He. intros Hx [= <-].
    case_decide as E1; [rewrite Hq in Hx; simplify_eq; lia|].
    case_decide as E2; [subst i; pose proof (parent_lt (parent h)); lia|].
    transitivity (key q); [lia|]. eapply (W1 i x q); eauto; [|congruence]. rewrite Hpi. lia.
Qed.

Lemma swim_ordered fuel L h :
  h < fuel → h < length L → weak L h → above_children L h → ordered (swim fuel L h).
Proof.
  revert L h. induction fuel as [|f IH]; intros L h Hf Hlt W Ha; [lia|]. cbn [swim].
  case_decide; [subst; eapply weak_ordered; eauto; intros ???; lia|].
  pose proof (parent_lt h ltac:(lia)).
  destruct (lookup_lt_is_Some_2 L (parent h)) as [q Hq]; [lia|].
  destruct (lookup_lt_is_Some_2 L h) as [e He]; [lia|]. rewrite Hq, He.
  case_decide.
  - destruct (swap_up_weak L h q e) as [W' Ha']; auto; [lia|].
    apply IH; auto; [lia|]. rewrite swap_length. lia.
  - eapply weak_ordered; eauto. intros x y _ Hx Hy. simplify_eq. lia.
Qed.

Lemma min_child_spec L h c :
  min_child L h = Some c →
  (c = 2 * h + 1 ∨ c = 2 * h + 2) ∧ c < length L ∧
  ∀ i x y, 0 < i → parent i = h → L !! i = Some x → L !! c = Some y → (key y ≤ key x)%Z.
Proof.
  unfold min_child. case_decide as Hr.
  - destruct (lookup_lt_is_Some_2 L (2 * h + 2)) as [x Hx]; [lia|].
    destruct (lookup_lt_is_Some_2 L (2 * h + 1)) as [y Hy]; [lia|].
    rewrite Hx, Hy. intros <-%(inj Some).
    split; [case_decide; lia|]. split; [case_decide; lia|].
    intros i x' y' Hi Hp Hx' Hy'.
    destruct (parent_inv i h) as [->| ->]; auto; case_decide; simplify_eq; lia.
  - case_decide as Hr'; [|done]. intros <-%(inj Some).
    split; [lia|]. split; [lia|]. intros i x y Hi Hp Hx Hy.
    pose proof (lookup_lt_Some _ _ _ Hx).
    destruct (parent_inv i h Hi Hp) as [->| ->]; [|lia].
    by simplify_eq.
Qed.

Lemma min_child_None L h i : min_child L h = None → 0 < i → parent i = h → length L ≤ i.
Proof.
  unfold min_child. intros H Hi Hp. case_decide as Hr.
  - destruct (lookup_lt_is_Some_2 L (2 * h + 2)) as [x Hx]; [lia|].
    destruct (lookup_lt_is_Some_2 L (2 * h + 1)) as [y Hy]; [lia|].
    by rewrite Hx, Hy in H.
  - case_decide; [done|]. destruct (parent_inv i h); auto; lia.
Qed.

Lemma swap_down_weak L h c q e :
  min_child L h = Some c → h < length L → L !! c = Some q → L !! h = Some e → (key e > key q)%Z →
  weak L h → below_parent L h →
  weak (swap L h c) c ∧ below_parent (swap L h c) c.
Proof.
  intros Hc Hlt Hq He Hk [W1 W2] Hb.
  destruct (min_child_spec _ _ _ Hc) as (Hc' & Hclt & Hmin).
  assert (parent c = h) as Hpc.
  { destruct Hc' as [->| ->]; auto using parent_left, parent_right. }
  assert (0 < c ∧ h < c) as [Hc0 Hhc] by lia. split; [split|].
  - intros i x y Hi Hih Hpi. rewrite !swap_lookup by lia.
    rewrite (decide_False (P := i = c)), (decide_False (P := parent i = c)) by done.
    case_decide as E1.
    + subst i. rewrite (decide_False (P := parent h = h)) by (pose proof (parent_lt h); lia).
      rewrite Hq. intros [= <-] Hy.
      eapply (W2 c q); auto.
    + case_decide as E2; [|by eauto]. rewrite Hq. intros Hx [= <-]. eapply Hmin; eauto.
  - intros i x y Hi _ Hpi. rewrite Hpc. rewrite !swap_lookup by lia.
    rewrite (decide_True (P := h = h)) by done. rewrite Hq. intros Hx [= <-].
    pose proof (parent_lt i Hi).
    rewrite decide_False in Hx by lia. rewrite decide_False in Hx by lia.
    eapply (W1 i x q); auto; [lia|lia|]. by rewrite Hpi.
  - intros x y _. rewrite Hpc, !swap_lookup by lia.
    rewrite (decide_False (P := c = h)), !decide_True by (done || lia).
    intros Hx Hy. simplify_eq. lia.
Qed.

Lemma sink_ordered fuel L h :
  length L ≤ h + fuel → h < length L → weak L h → below_parent L h → ordered (sink fuel L h).
Proof.
  revert L h. induction fuel as [|f IH]; intros L h Hf Hlt W Hb; [lia|]. cbn [sink].
  destruct (min_child L h) as [c|] eqn:Hc.
  - destruct (min_child_spec _ _ _ Hc) as (Hc' & Hclt & Hmin).
    destruct (lookup_lt_is_Some_2 L c) as [q Hq]; [lia|].
    destruct (lookup_lt_is_Some_2 L h) as [e He]; [lia|]. rewrite Hq, He.
    case_decide.
    + destruct (swap_down_weak L h c q e) as [W' Hb']; auto.
      apply IH; auto; rewrite swap_length; lia.
    + eapply weak_ordered; eauto. intros i x y Hi Hp Hx Hy. simplify_eq.
      transitivity (key q); [lia|]. by eapply Hmin.
  - eapply weak_ordered; eauto. intros i x y Hi Hp Hx Hy.
    pose proof (min_child_None _ _ _ Hc Hi Hp). apply lookup_lt_Some in Hx. lia.
Qed.
End order.
