(* ===== verification/MinHeap.v ===== *)
(** Binary min-heap of timer entries: src/timer/minheap.h and minheap.c. *)
From S2P Require Import Prelude HeapOrder.

Module MinHeap.

(** struct timer_entry_s (the handler and the private data are opaque ids). *)
Record timer_entry := TimerEntry {
  time : Z;
  min_heap_idx : Z;
  handler : Z;
  privdata : Z;
}.

(** struct min_heap together with the entries its slots point to.  A slot of
    the array that [realloc] provided and nobody wrote is [None]. *)
Record min_heap := MkHeap {
  p : list (option ptr);
  n : Z;
  a : Z;
  entries : gmap ptr timer_entry;
}.

Definition set_p v s := MkHeap v (n s) (a s) (entries s).
Definition set_n v s := MkHeap (p s) v (a s) (entries s).
Definition set_entries v s := MkHeap (p s) (n s) (a s) v.

Definition with_idx (i : Z) (e : timer_entry) : timer_entry :=
  TimerEntry (time e) i (handler e) (privdata e).

(** Accesses to memory. *)
Definition read_slot (i : Z) : prog min_heap ptr :=
  getsO (λ s, mjoin (zlookup (p s) i)).
Definition write_slot (i : Z) (q : ptr) : prog min_heap unit :=
  modO (λ s, v ← zupdate i (Some q) (p s); Some (set_p v s)).
Definition read_entry (q : ptr) : prog min_heap timer_entry :=
  getsO (λ s, entries s !! q).
Definition write_idx (q : ptr) (i : Z) : prog min_heap unit :=
  modO (λ s, e ← entries s !! q; Some (set_entries (<[q := with_idx i e]> (entries s)) s)).

Definition min_heap_elem_greater (x y : ptr) : prog min_heap bool :=
  ex ← read_entry x;
  ey ← read_entry y;
  mret (bool_decide (time ex > time ey)).

Definition min_heap_ctor_ (es : gmap ptr timer_entry) : min_heap := MkHeap [] 0 0 es.
Definition min_heap_elem_init_ (e : ptr) : prog min_heap unit := write_idx e U32_MAX.
Definition min_heap_empty_ : prog min_heap bool := gets (λ s, bool_decide (n s = 0)).
Definition min_heap_size_ : prog min_heap Z := gets n.
Definition min_heap_top_ : prog min_heap (option ptr) :=
  k ← gets n;
  if decide (k = 0) then mret None else q ← read_slot 0; mret (Some q).

Definition min_heap_elt_is_top_ (e : ptr) : prog min_heap bool :=
  x ← read_entry e; mret (bool_decide (min_heap_idx x = 0)).

(** [realloc_ok] is the answer of [realloc]. *)
Definition min_heap_reserve_ (realloc_ok : bool) (k : Z) : prog min_heap Z :=
  s ← getS;
  if decide (a s < k) then
    let a1 := if decide (a s = 0) then 8 else u32 (a s * 2) in
    let a2 := if decide (a1 < k) then k else a1 in
    if realloc_ok then
      putS (MkHeap (p s ++ replicate (Z.to_nat (a2 - a s)) None) (n s) a2 (entries s));;
      mret 0
    else mret (-1)
  else mret 0.

Definition parent_of (hole : Z) : Z := u32 (hole - 1) / 2.

(** [(s->p[hole] = q)->min_heap_idx = hole] *)
Definition place (hole : Z) (q : ptr) : prog min_heap unit :=
  write_slot hole q;; write_idx q hole.

Fixpoint shift_up_loop (fuel : nat) (hole parent : Z) (e : ptr) : prog min_heap unit :=
  match fuel with
  | O => out_of_fuel
  | S fuel =>
      c ← (if decide (hole = 0) then mret false
           else q ← read_slot parent; min_heap_elem_greater q e);
      if (c : bool) then
        q ← read_slot parent;
        place hole q;;
        shift_up_loop fuel parent (parent_of parent) e
      else place hole e
  end.

Definition min_heap_shift_up_ (hole : Z) (e : ptr) : prog min_heap unit :=
  shift_up_loop (S (Z.to_nat hole)) hole (parent_of hole) e.

Definition min_heap_shift_up_unconditional_ (hole : Z) (e : ptr) : prog min_heap unit :=
  let parent := parent_of hole in
  q ← read_slot parent;
  place hole q;;
  shift_up_loop (S (Z.to_nat parent)) parent (parent_of parent) e.

Fixpoint shift_down_loop (fuel : nat) (hole min_child : Z) (e : ptr) : prog min_heap unit :=
  match fuel with
  | O => out_of_fuel
  | S fuel =>
      k ← gets n;
      if decide (min_child ≤ k) then
        less ← (if decide (min_child = k) then mret true
                else x ← read_slot min_child;
                     y ← read_slot (u32 (min_child - 1));
                     min_heap_elem_greater x y);
        let child := if (less : bool) then u32 (min_child - 1) else min_child in
        y ← read_slot child;
        c ← min_heap_elem_greater e y;
        if (c : bool) then
          q ← read_slot child;
          place hole q;;
          shift_down_loop fuel child (u32 (2 * (child + 1))) e
        else place hole e
      else place hole e
  end.

Definition min_heap_shift_down_ (hole : Z) (e : ptr) : prog min_heap unit :=
  k ← gets n;
  shift_down_loop (S (Z.to_nat k)) hole (u32 (2 * (hole + 1))) e.

Definition min_heap_push_ (realloc_ok : bool) (e : ptr) : prog min_heap Z :=
  k ← gets n;
  r ← min_heap_reserve_ realloc_ok (u32 (k + 1));
  if decide (r ≠ 0) then mret (-1) else
  modS (set_n (u32 (k + 1)));;
  min_heap_shift_up_ k e;;
  mret 0.

Definition min_heap_pop_ : prog min_heap (option ptr) :=
  k ← gets n;
  if decide (k ≠ 0) then
    e ← read_slot 0;
    modS (set_n (u32 (k - 1)));;
    last ← read_slot (u32 (k - 1));
    min_heap_shift_down_ 0 last;;
    write_idx e U32_MAX;;
    mret (Some e)
  else mret None.

(** The choice both [erase] and [adjust] make between the two directions. *)
Definition shift_from (idx : Z) (last : ptr) : prog min_heap unit :=
  c ← (if decide (idx > 0) then
         q ← read_slot (parent_of idx); min_heap_elem_greater q last
       else mret false);
  if (c : bool) then min_heap_shift_up_unconditional_ idx last
  else min_heap_shift_down_ idx last.

Definition min_heap_erase_ (e : ptr) : prog min_heap Z :=
  x ← read_entry e;
  if decide (min_heap_idx x ≠ U32_MAX) then
    k ← gets n;
    modS (set_n (u32 (k - 1)));;
    last ← read_slot (u32 (k - 1));
    shift_from (min_heap_idx x) last;;
    write_idx e U32_MAX;;
    mret 0
  else mret (-1).

Definition min_heap_adjust_ (realloc_ok : bool) (e : ptr) : prog min_heap Z :=
  x ← read_entry e;
  if decide (min_heap_idx x = U32_MAX) then min_heap_push_ realloc_ok e
  else shift_from (min_heap_idx x) e;; mret 0.

(** ** Representation

    [repr s L]: the first [n] slots hold the elements [L], and every one of
    them records its own position. *)
Definition key (s : min_heap) (q : ptr) : Z :=
  match entries s !! q with Some e => time e | None => 0 end.

Record repr (s : min_heap) (L : list ptr) : Prop := {
  repr_n : n s = zlength L;
  repr_len : zlength (p s) = a s;
  repr_cap : n s ≤ a s;
  repr_slot i q : L !! i = Some q → p s !! i = Some (Some q);
  repr_idx i q : L !! i = Some q →
    ∃ e, entries s !! q = Some e ∧ min_heap_idx e = Z.of_nat i;
}.

Definition heap (s : min_heap) (L : list ptr) : Prop := repr s L ∧ ordered (key s) L.

(** The state while slot [h] is a hole that [e] is meant for. *)
Record hview (s : min_heap) (L : list ptr) (h : nat) (e : ptr) : Prop := {
  hv_n : n s = zlength L;
  hv_len : zlength (p s) = a s;
  hv_cap : n s ≤ a s;
  hv_slot i q : i ≠ h → L !! i = Some q → p s !! i = Some (Some q);
  hv_idx i q : i ≠ h → L !! i = Some q →
    ∃ x, entries s !! q = Some x ∧ min_heap_idx x = Z.of_nat i;
  hv_hole : L !! h = Some e;
  hv_entry : is_Some (entries s !! e);
  hv_nodup : NoDup L;
}.

(** What the walks leave alone: the sizes, every entry but for its index, and
    the entries outside [D] altogether. *)
Record frame (D : list ptr) (s s' : min_heap) : Prop := {
  fr_n : n s' = n s;
  fr_a : a s' = a s;
  fr_fields q : with_idx 0 <$> entries s' !! q = with_idx 0 <$> entries s !! q;
  fr_out q : q ∉ D → entries s' !! q = entries s !! q;
}.

Lemma frame_refl D s : frame D s s.
Proof. by constructor. Qed.
Lemma frame_trans D s1 s2 s3 : frame D s1 s2 → frame D s2 s3 → frame D s1 s3.
Proof.
  intros F1 F2. constructor.
  - by rewrite (fr_n _ _ _ F2), (fr_n _ _ _ F1).
  - by rewrite (fr_a _ _ _ F2), (fr_a _ _ _ F1).
  - intros q. by rewrite (fr_fields _ _ _ F2), (fr_fields _ _ _ F1).
  - intros q Hq. by rewrite (fr_out _ _ _ F2), (fr_out _ _ _ F1).
Qed.
Lemma frame_sub D D' s s' : (∀ q, q ∈ D → q ∈ D') → frame D s s' → frame D' s s'.
Proof. intros H []. constructor; auto. Qed.
Lemma frame_key D s s' q : frame D s s' → key s' q = key s q.
Proof.
  intros F. pose proof (fr_fields _ _ _ F q) as H. unfold key.
  unfold with_idx in H.
  destruct (entries s' !! q), (entries s !! q); simplify_option_eq; congruence.
Qed.
Lemma frame_dom D s s' q :
  frame D s s' → is_Some (entries s' !! q) ↔ is_Some (entries s !! q).
Proof.
  intros F. pose proof (fr_fields _ _ _ F q) as H.
  destruct (entries s' !! q), (entries s !! q); simplify_option_eq; by rewrite ?is_Some_alt.
Qed.

Lemma repr_nodup s L : repr s L → NoDup L.
Proof.
  intros R. apply NoDup_alt. intros i j q Hi Hj.
  destruct (repr_idx _ _ R _ _ Hi) as (?&?&?), (repr_idx _ _ R _ _ Hj) as (?&?&?).
  simplify_eq. lia.
Qed.

Lemma repr_hview s L h e : repr s L → L !! h = Some e → hview s L h e.
Proof.
  intros R He. pose proof (repr_nodup _ _ R). destruct R. constructor; eauto.
  destruct (repr_idx0 _ _ He) as (?&?&?); eauto.
Qed.

Lemma ordered_ext {A} (k k' : A → Z) L : (∀ q, k q = k' q) → ordered k L → ordered k' L.
Proof. intros E H i x y ???. rewrite <-!E. by eapply H. Qed.

(** ** The steps of the walks *)
Lemma read_slot_spec s L i q :
  repr s L → L !! i = Some q → read_slot (Z.of_nat i) s = Done (q, s).
Proof.
  intros R Hq. apply getsO_Done. rewrite zlookup_of_nat. by rewrite (repr_slot _ _ R _ _ Hq).
Qed.
Lemma read_slot_hview s L h e i q :
  hview s L h e → i ≠ h → L !! i = Some q → read_slot (Z.of_nat i) s = Done (q, s).
Proof.
  intros R Hi Hq. apply getsO_Done. rewrite zlookup_of_nat. by rewrite (hv_slot _ _ _ _ R _ _ Hi Hq).
Qed.

Lemma hview_entry s L h e i q :
  hview s L h e → L !! i = Some q → is_Some (entries s !! q).
Proof.
  intros R Hq. destruct (decide (i = h)) as [->|Hi].
  - rewrite (hv_hole _ _ _ _ R) in Hq. simplify_eq. apply (hv_entry _ _ _ _ R).
  - destruct (hv_idx _ _ _ _ R _ _ Hi Hq) as (?&?&?); eauto.
Qed.

Lemma greater_spec s x y :
  is_Some (entries s !! x) → is_Some (entries s !! y) →
  min_heap_elem_greater x y s = Done (bool_decide (key s x > key s y), s).
Proof.
  intros [ex Hx] [ey Hy]. unfold min_heap_elem_greater, read_entry, key.
  erewrite getsO_bind by done. erewrite getsO_bind by done. by rewrite Hx, Hy.
Qed.

Lemma place_run s L h e j q :
  hview s L h e → L !! j = Some q →
  ∃ x, entries s !! q = Some x ∧
    place (Z.of_nat h) q s =
      Done ((), MkHeap (<[h := Some q]> (p s)) (n s) (a s)
                  (<[q := with_idx (Z.of_nat h) x]> (entries s))).
Proof.
  intros R Hq. destruct (hview_entry _ _ _ _ _ _ R Hq) as [x Hx]. exists x. split; [done|].
  pose proof (lookup_lt_Some _ _ _ (hv_hole _ _ _ _ R)) as Hh.
  pose proof (hv_n _ _ _ _ R). pose proof (hv_cap _ _ _ _ R). pose proof (hv_len _ _ _ _ R).
  unfold place, write_slot. erewrite modO_bind.
  2:{ rewrite zupdate_Some by (unfold zlength in *; lia). done. }
  unfold write_idx, modO. cbn. rewrite Hx. cbn. unfold set_entries, set_p. cbn.
  unfold zinsert. rewrite decide_True by lia. by rewrite Nat2Z.id.
Qed.

Lemma place_frame s D h q x P :
  entries s !! q = Some x → q ∈ D →
  frame D s (MkHeap P (n s) (a s) (<[q := with_idx h x]> (entries s))).
Proof.
  intros Hx HD. constructor; try done; cbn.
  - intros q'. destruct (decide (q = q')) as [<-|].
    + by rewrite lookup_insert_eq, Hx.
    + by rewrite lookup_insert_ne.
  - intros q' Hq'. rewrite lookup_insert_ne; [done|]. by intros ->.
Qed.
(** Filling the hole completes the heap array. *)
Lemma place_fill s L h e :
  hview s L h e →
  ∃ s', place (Z.of_nat h) e s = Done ((), s') ∧ repr s' L ∧ frame L s s'.
Proof.
  intros R. pose proof (hv_hole _ _ _ _ R) as He.
  destruct (place_run s L h e h e R He) as (x & Hx & ->).
  eexists; split_and!; [done| |by eapply place_frame, list_elem_of_lookup_2].
  pose proof (lookup_lt_Some _ _ _ He). pose proof (hv_cap _ _ _ _ R).
  pose proof (hv_len _ _ _ _ R) as Hlen. pose proof (hv_n _ _ _ _ R).
  constructor; cbn; try done.
  - unfold zlength in *. by rewrite length_insert.
  - intros i q Hq. destruct (decide (i = h)) as [->|].
    + simplify_eq. apply list_lookup_insert_eq. unfold zlength in *. lia.
    + rewrite list_lookup_insert_ne by done. by eapply (hv_slot _ _ _ _ R).
  - intros i q Hq. destruct (decide (i = h)) as [->|Hi].
    + simplify_eq. rewrite lookup_insert_eq. by eexists.
    + rewrite lookup_insert_ne; [by eapply (hv_idx _ _ _ _ R)|].
      intros <-. apply Hi. by eapply NoDup_lookup; [apply (hv_nodup _ _ _ _ R)| |].
Qed.

(** Moving an element into the hole moves the hole. *)
Lemma place_move s L h e j q :
  hview s L h e → L !! j = Some q → j ≠ h →
  ∃ s', place (Z.of_nat h) q s = Done ((), s') ∧ hview s' (swap L h j) j e ∧ frame L s s'.
Proof.
  intros R Hq Hjh. pose proof (hv_hole _ _ _ _ R) as He.
  destruct (place_run s L h e j q R Hq) as (x & Hx & ->).
  eexists; split_and!; [done| |by eapply place_frame, list_elem_of_lookup_2].
  pose proof (lookup_lt_Some _ _ _ He). pose proof (lookup_lt_Some _ _ _ Hq).
  pose proof (hv_cap _ _ _ _ R). pose proof (hv_len _ _ _ _ R). pose proof (hv_n _ _ _ _ R).
  assert (∀ i q', i ≠ j → swap L h j !! i = Some q' →
    (i = h ∧ q' = q) ∨ (i ≠ h ∧ q' ≠ q ∧ L !! i = Some q')) as Hsw.
  { intros i q' Hi. rewrite swap_lookup by done. case_decide; [naive_solver|].
    rewrite decide_False by done. intros Hq'. right. split_and!; [done| |done].
    intros ->. apply Hi. by eapply NoDup_lookup; [apply (hv_nodup _ _ _ _ R)| |]. }
  constructor; cbn.
  - unfold zlength in *. by rewrite swap_length.
  - unfold zlength in *. by rewrite length_insert.
  - done.
  - intros i q' Hi Hq'. destruct (Hsw i q' Hi Hq') as [[-> ->]|(?&?&?)].
    + apply list_lookup_insert_eq. unfold zlength in *. lia.
    + rewrite list_lookup_insert_ne by done. by eapply (hv_slot _ _ _ _ R).
  - intros i q' Hi Hq'. destruct (Hsw i q' Hi Hq') as [[-> ->]|(?&?&?)].
    + rewrite lookup_insert_eq. by eexists.
    + rewrite lookup_insert_ne by done. by eapply (hv_idx _ _ _ _ R).
  - rewrite swap_lookup, decide_False, decide_True by done. done.
  - rewrite lookup_insert. case_decide; [by eexists|]. apply (hv_entry _ _ _ _ R).
  - rewrite swap_Permutation_nat. apply (hv_nodup _ _ _ _ R).
Qed.

Lemma frame_swap L h j s1 s2 s3 :
  frame L s1 s2 → frame (swap L h j) s2 s3 → frame L s1 s3.
Proof.
  intros F1 F2. eapply frame_trans; [done|]. eapply frame_sub; [|done].
  intros q. by rewrite swap_Permutation_nat.
Qed.

Lemma parent_of_nat h :
  (0 < h)%nat → Z.of_nat h < 4294967296 → parent_of (Z.of_nat h) = Z.of_nat (HeapOrder.parent h).
Proof.
  intros. unfold parent_of, HeapOrder.parent. rewrite u32_small by lia.
  rewrite Nat2Z.inj_div. f_equal. lia.
Qed.

(** The largest heap whose child indices do not overflow. *)
Definition small (L : list ptr) : Prop := zlength L < 2147483648.

(** The upwards loop implements [swim]. *)
Lemma shift_up_loop_spec k fuel s L h e :
  hview s L h e → small L → (∀ q, key s q = k q) → (h < fuel)%nat →
  ∃ s', shift_up_loop fuel (Z.of_nat h) (parent_of (Z.of_nat h)) e s = Done ((), s') ∧
    repr s' (swim k fuel L h) ∧ frame L s s'.
Proof.
  revert s L h. induction fuel as [|f IH]; intros s L h R Hsm Hk Hf; [lia|].
  cbn [shift_up_loop swim]. pose proof (hv_hole _ _ _ _ R) as He.
  pose proof (lookup_lt_Some _ _ _ He) as Hlt. unfold small, zlength in Hsm.
  destruct (decide (h = 0)%nat) as [->|Hh0].
  { rewrite decide_True by done. by apply place_fill. }
  rewrite decide_False by lia. rewrite parent_of_nat by lia.
  pose proof (parent_lt h ltac:(lia)) as Hp.
  destruct (lookup_lt_is_Some_2 L (HeapOrder.parent h)) as [q Hq]; [lia|].
  rewrite Hq, He. erewrite bind_Done; last first.
  { erewrite bind_Done; [|eapply read_slot_hview; eauto; lia].
    apply greater_spec; eauto using hview_entry, hv_entry. }
  rewrite !Hk. case_bool_decide as Hgt; [rewrite decide_True by done|rewrite decide_False by done].
  - erewrite bind_Done; [|eapply read_slot_hview; eauto; lia].
    destruct (place_move s L h e (HeapOrder.parent h) q) as (s1 & Hrun & R1 & F1); auto; [lia|].
    erewrite bind_Done by done.
    destruct (IH s1 (swap L h (HeapOrder.parent h)) (HeapOrder.parent h)) as (s2 & Hrun2 & R2 & F2); auto.
    + unfold small, zlength. by rewrite swap_length.
    + intros q'. by rewrite (frame_key _ _ _ _ F1).
    + lia.
    + exists s2. split_and!; [done..|]. by eapply frame_swap.
  - by apply place_fill.
Qed.

(** The child the loop selects is [min_child]. *)
Lemma select_child k s L h e :
  hview s L h e → small L → (∀ q, key s q = k q) →
  let mc := u32 (2 * (Z.of_nat h + 1)) in
  match min_child k L h with
  | Some c => mc ≤ n s ∧ c ≠ h ∧
      ∃ b, (if decide (mc = n s) then mret true
            else x ← read_slot mc; y ← read_slot (u32 (mc - 1)); min_heap_elem_greater x y)
             s = Done (b, s) ∧ (if (b : bool) then u32 (mc - 1) else mc) = Z.of_nat c
  | None => n s < mc
  end.
Proof.
  intros R Hsm Hk mc. unfold small, zlength in Hsm.
  pose proof (lookup_lt_Some _ _ _ (hv_hole _ _ _ _ R)) as Hlt.
  pose proof (hv_n _ _ _ _ R) as Hn. unfold zlength in Hn.
  assert (mc = Z.of_nat (2 * h + 2)) as Hmc by (unfold mc; rewrite u32_small; lia).
  assert (u32 (mc - 1) = Z.of_nat (2 * h + 1)) as Hmc1 by (rewrite u32_small; lia).
  unfold min_child. case_decide as Hr.
  - destruct (lookup_lt_is_Some_2 L (2 * h + 2)%nat) as [x Hx]; [lia|].
    destruct (lookup_lt_is_Some_2 L (2 * h + 1)%nat) as [y Hy]; [lia|].
    rewrite Hx, Hy. split_and!; [lia|case_decide; lia|].
    exists (bool_decide (k x > k y)). split.
    + rewrite decide_False by lia. rewrite Hmc, <-Hmc, Hmc1, Hmc.
      erewrite bind_Done by (eapply read_slot_hview; eauto; lia).
      erewrite bind_Done by (eapply read_slot_hview; eauto; lia).
      rewrite <-!Hk. apply greater_spec; eauto using hview_entry.
    + case_bool_decide; [rewrite decide_True by done|rewrite decide_False by done]; lia.
  - case_decide; [|lia]. split_and!; [lia|lia|]. exists true.
    rewrite decide_True by lia. done.
Qed.

(** The downwards loop implements [sink]. *)
Lemma shift_down_loop_spec k fuel s L h e :
  hview s L h e → small L → (∀ q, key s q = k q) → (length L < h + fuel)%nat →
  ∃ s', shift_down_loop fuel (Z.of_nat h) (u32 (2 * (Z.of_nat h + 1))) e s = Done ((), s') ∧
    repr s' (sink k fuel L h) ∧ frame L s s'.
Proof.
  revert s L h. induction fuel as [|f IH]; intros s L h R Hsm Hk Hf.
  { pose proof (lookup_lt_Some _ _ _ (hv_hole _ _ _ _ R)). lia. }
  cbn [shift_down_loop sink]. pose proof (hv_hole _ _ _ _ R) as He.
  pose proof (select_child k s L h e R Hsm Hk) as Hsel. cbn zeta in Hsel.
  rewrite gets_bind. destruct (min_child k L h) as [c|] eqn:Hc; last first.
  { rewrite decide_False by lia. by apply place_fill. }
  destruct Hsel as (Hle & Hch & b & Hrun & Hb). rewrite decide_True by done.
  rewrite (bind_Done _ _ _ _ _ Hrun), Hb.
  destruct (min_child_spec _ _ _ _ Hc) as (Hc12 & Hclt & _).
  destruct (lookup_lt_is_Some_2 L c Hclt) as [q Hq]. rewrite Hq, He.
  erewrite bind_Done by (eapply read_slot_hview; eauto).
  erewrite bind_Done by (apply greater_spec; eauto using hview_entry, hv_entry).
  rewrite !Hk. case_bool_decide as Hgt; [rewrite decide_True by done|rewrite decide_False by done].
  - erewrite bind_Done by (eapply read_slot_hview; eauto).
    destruct (place_move s L h e c q) as (s1 & Hrun1 & R1 & F1); auto.
    erewrite bind_Done by done.
    destruct (IH s1 (swap L h c) c) as (s2 & Hrun2 & R2 & F2); auto.
    + unfold small, zlength. by rewrite swap_length.
    + intros q'. by rewrite (frame_key _ _ _ _ F1).
    + rewrite swap_length. lia.
    + exists s2. split_and!; [done..|]. by eapply frame_swap.
  - by apply place_fill.
Qed.
(** ** Operations *)

(** What every operation leaves alone: the entries but for their indices, and
    the entries outside [D] altogether. *)
Record keeps (D : list ptr) (s s' : min_heap) : Prop := {
  kp_fields q : with_idx 0 <$> entries s' !! q = with_idx 0 <$> entries s !! q;
  kp_out q : q ∉ D → entries s' !! q = entries s !! q;
}.

Lemma frame_keeps D s s' : frame D s s' → keeps D s s'.
Proof. intros []. by constructor. Qed.
Lemma keeps_entries D s1 s2 s : entries s1 = entries s2 → keeps D s1 s → keeps D s2 s.
Proof. intros E []. constructor; by rewrite <-E. Qed.
Lemma keeps_trans D s1 s2 s3 : keeps D s1 s2 → keeps D s2 s3 → keeps D s1 s3.
Proof.
  intros K1 K2. constructor.
  - intros q. by rewrite (kp_fields _ _ _ K2), (kp_fields _ _ _ K1).
  - intros q Hq. by rewrite (kp_out _ _ _ K2), (kp_out _ _ _ K1).
Qed.
Lemma keeps_sub D D' s s' : (∀ q, q ∈ D → q ∈ D') → keeps D s s' → keeps D' s s'.
Proof. intros H []. constructor; auto. Qed.
Lemma keeps_key D s s' q : keeps D s s' → key s' q = key s q.
Proof.
  intros K. pose proof (kp_fields _ _ _ K q) as H. unfold key.
  unfold with_idx in H.
  destruct (entries s' !! q), (entries s !! q); simplify_option_eq; congruence.
Qed.
Lemma keeps_dom D s s' q : keeps D s s' → is_Some (entries s !! q) → is_Some (entries s' !! q).
Proof.
  intros K [x Hx]. pose proof (kp_fields _ _ _ K q) as H. rewrite Hx in H.
  destruct (entries s' !! q); simplify_option_eq; eauto.
Qed.

Lemma write_idx_spec s D q i :
  is_Some (entries s !! q) → q ∈ D →
  ∃ s' x, write_idx q i s = Done ((), s') ∧ keeps D s s' ∧
    entries s' !! q = Some x ∧ min_heap_idx x = i ∧
    (∀ L, q ∉ L → repr s L → repr s' L).
Proof.
  intros [x Hx] HD. unfold write_idx, modO. rewrite Hx. cbn.
  eexists _, (with_idx i x); split_and!; [done| | |done|].
  - split; cbn; intros q'.
    + destruct (decide (q = q')) as [<-|]; [by rewrite lookup_insert_eq, Hx|by rewrite lookup_insert_ne].
    + intros ?. rewrite lookup_insert_ne; [done|]. by intros ->.
  - cbn. by rewrite lookup_insert_eq.
  - intros L HL [H1 H2 H3 H4 H5]. constructor; cbn; auto. intros j q' Hj.
    rewrite lookup_insert_ne; [by eapply H5|]. intros ->.
    by eapply HL, list_elem_of_lookup_2.
Qed.

Lemma reserve_spec ok k s :
  zlength (p s) = a s →
  if decide (a s < k ∧ ok = false) then min_heap_reserve_ ok k s = Done (-1, s)
  else ∃ s', min_heap_reserve_ ok k s = Done (0, s') ∧ k ≤ a s' ∧ a s ≤ a s' ∧
    zlength (p s') = a s' ∧ n s' = n s ∧ entries s' = entries s ∧
    ∃ t, p s' = p s ++ t.
Proof.
  intros Hlen. unfold min_heap_reserve_. rewrite getS_bind.
  destruct (decide (a s < k)) as [Hlt|Hge]; last first.
  { rewrite (decide_False (P := _ ∧ _)) by lia. exists s.
    split_and!; try done; try lia. exists []. by rewrite app_nil_r. }
  destruct ok; [|by rewrite decide_True by done].
  rewrite decide_False by (by intros []). cbv zeta.
  set (a1 := if decide (a s = 0) then 8 else u32 (a s * 2)).
  set (a2 := if decide (a1 < k) then k else a1).
  assert (k ≤ a2) by (unfold a2; case_decide; lia).
  eexists; split_and!; [done|done|cbn; lia| |done|done|by eexists].
  cbn. unfold zlength in *. rewrite length_app, length_replicate. lia.
Qed.

Lemma repr_grow s s' L :
  repr s L → a s ≤ a s' → zlength (p s') = a s' → n s' = n s → entries s' = entries s →
  (∃ t, p s' = p s ++ t) → repr s' L.
Proof.
  intros [] ? ? Hn He [t Ht]. constructor; try rewrite Hn; try rewrite He; eauto; [lia|].
  intros i q Hq. rewrite Ht. apply lookup_app_l_Some. eauto.
Qed.

(** The last [n]-th slot is pushed: the hole is just behind the heap. *)
Lemma repr_snoc_hview s L e :
  repr s L → e ∉ L → is_Some (entries s !! e) → n s + 1 ≤ a s →
  hview (set_n (n s + 1) s) (L ++ [e]) (length L) e.
Proof.
  intros R He Hs Ha. destruct R as [Hn Hlen Hcap Hslot Hidx]. constructor; cbn; try done.
  - unfold zlength in *. rewrite length_app. cbn. lia.
  - intros i q Hi Hq. rewrite lookup_app in Hq. destruct (L !! i) eqn:E; [simplify_eq; eauto|].
    apply list_lookup_singleton_Some in Hq as [? _]. apply lookup_ge_None in E. lia.
  - intros i q Hi Hq. rewrite lookup_app in Hq. destruct (L !! i) eqn:E; [simplify_eq; eauto|].
    apply list_lookup_singleton_Some in Hq as [? _]. apply lookup_ge_None in E. lia.
  - by rewrite lookup_app_r, Nat.sub_diag by done.
  - apply NoDup_app. split_and!; [by eapply repr_nodup|set_solver|apply NoDup_singleton].
Qed.

Lemma ordered_snoc_weak {A} (k : A → Z) L x :
  ordered k L → weak k (L ++ [x]) (length L) ∧ above_children k (L ++ [x]) (length L).
Proof.
  intros H. split; [split|].
  - intros i y z Hi Hne _ Hy Hz.
    pose proof (lookup_lt_Some _ _ _ Hy) as Hlt. rewrite length_app in Hlt. cbn in Hlt.
    pose proof (parent_lt i Hi).
    rewrite lookup_app_l in Hy by lia. rewrite lookup_app_l in Hz by lia. by eapply H.
  - intros i y z Hi Hl Hp Hy. apply lookup_lt_Some in Hy. rewrite length_app in Hy. cbn in Hy.
    pose proof (parent_lt i Hi). lia.
  - intros i y z Hi Hp Hy. apply lookup_lt_Some in Hy. rewrite length_app in Hy. cbn in Hy.
    pose proof (parent_lt i Hi). lia.
Qed.

Definition pushed (e : ptr) (s : min_heap) (L : list ptr) (s' : min_heap) : Prop :=
  ∃ L', heap s' L' ∧ L' ≡ₚ e :: L ∧ keeps (e :: L) s s'.

Lemma push_run ok e s L :
  heap s L → e ∉ L → is_Some (entries s !! e) → small (e :: L) →
  if decide (a s < zlength L + 1 ∧ ok = false) then min_heap_push_ ok e s = Done (-1, s)
  else ∃ s', min_heap_push_ ok e s = Done (0, s') ∧ pushed e s L s'.
Proof.
  intros [R O] He Hs Hsm. pose proof (repr_n _ _ R) as Hn.
  unfold small, zlength in Hsm. cbn in Hsm.
  unfold min_heap_push_. rewrite gets_bind.
  replace (u32 (n s + 1)) with (zlength L + 1) by (rewrite u32_small; unfold zlength in *; lia).
  pose proof (reserve_spec ok (zlength L + 1) s (repr_len _ _ R)) as Hres.
  case_decide.
  { erewrite bind_Done by done. by rewrite decide_True by done. }
  destruct Hres as (s1 & Hrun & Ha & Ha' & Hlen & Hn1 & He1 & Ht).
  erewrite bind_Done by done. rewrite decide_False by lia. rewrite modS_bind.
  assert (repr s1 L) as R1 by (by eapply repr_grow).
  pose proof (repr_snoc_hview s1 L e R1 He) as HV.
  rewrite Hn1, Hn in HV. specialize (HV ltac:(by rewrite He1) ltac:(lia)).
  assert (∀ q, key (set_n (zlength L + 1) s1) q = key s q) as Hk.
  { intros q. unfold key. cbn. by rewrite He1. }
  destruct (shift_up_loop_spec (key s) (S (length L)) _ _ _ _ HV) as (s2 & Hrun2 & R2 & F2); auto.
  { unfold small, zlength. rewrite length_app. cbn. lia. }
  assert (min_heap_shift_up_ (n s) e (set_n (zlength L + 1) s1) = Done ((), s2)) as Hup.
  { unfold min_heap_shift_up_. rewrite Hn. unfold zlength at 1 2 3. by rewrite Nat2Z.id. }
  rewrite (bind_Done _ _ _ _ _ Hup). exists s2. split; [done|].
  eexists. split_and!; [split; [done|]| |].
  - eapply ordered_ext; [|apply swim_ordered].
    + intros q. rewrite (frame_key _ _ _ _ F2). by rewrite Hk.
    + lia.
    + rewrite length_app. cbn. lia.
    + by apply ordered_snoc_weak.
    + by apply ordered_snoc_weak.
  - rewrite swim_Permutation. by rewrite (Permutation_app_comm L [e]).
  - eapply (keeps_entries _ (set_n (zlength L + 1) s1)); [exact He1|].
    eapply keeps_sub; [|by apply frame_keeps]. set_solver.
Qed.
(** The last element taken off the array, put into the hole at [i]. *)
Lemma insert_last_Permutation {A} (L : list A) x i e :
  L !! i = Some e → e :: <[i := x]> L ≡ₚ L ++ [x].
Proof.
  intros He. rewrite insert_take_drop by (by eapply lookup_lt_Some).
  rewrite <-(take_drop_middle L i e He) at 3. solve_Permutation.
Qed.

Lemma repr_take_hview s L x i e :
  repr s (L ++ [x]) → L !! i = Some e →
  hview (set_n (zlength L) s) (<[i := x]> L) i x.
Proof.
  intros R He. pose proof (repr_nodup _ _ R) as Hnd.
  pose proof (lookup_lt_Some _ _ _ He). destruct R as [Hn Hlen Hcap Hslot Hidx].
  assert (∀ j q, j ≠ i → <[i:=x]> L !! j = Some q → (L ++ [x]) !! j = Some q) as Hsub.
  { intros j q Hj. rewrite list_lookup_insert_ne by done. intros. by apply lookup_app_l_Some. }
  assert ((L ++ [x]) !! length L = Some x) as Hx by (by rewrite lookup_app_r, Nat.sub_diag by done).
  constructor; cbn.
  - unfold zlength. by rewrite length_insert.
  - done.
  - unfold zlength in *. rewrite length_app in Hn. cbn in Hn. lia.
  - eauto.
  - eauto.
  - by apply list_lookup_insert_eq.
  - destruct (Hidx _ _ Hx) as (?&?&?); eauto.
  - rewrite <-(insert_last_Permutation _ _ _ _ He) in Hnd. by inv Hnd.
Qed.

Lemma repr_prefix s L x : repr s (L ++ [x]) → repr (set_n (zlength L) s) L.
Proof.
  intros [Hn Hlen Hcap Hslot Hidx]. constructor; cbn; auto.
  - unfold zlength in *. rewrite length_app in Hn. cbn in Hn. lia.
  - intros i q Hq. by apply Hslot, lookup_app_l_Some.
  - intros i q Hq. by apply Hidx, lookup_app_l_Some.
Qed.

Lemma weak_insert {A} (k : A → Z) L i x : ordered k L → weak k (<[i := x]> L) i.
Proof.
  intros O. destruct (ordered_weak k L i O) as [W1 W2]. split.
  - intros j y z Hj Hji Hp. rewrite !list_lookup_insert_ne by done. eauto.
  - intros j y z Hj Hi Hp. pose proof (parent_lt i Hi). pose proof (parent_lt j Hj).
    rewrite !list_lookup_insert_ne by lia. eauto.
Qed.

(** [shift_from] restores the order from any single misplaced element. *)
Lemma shift_from_spec s V i e :
  hview s V i e → small V → weak (key s) V i →
  ∃ s' V', shift_from (Z.of_nat i) e s = Done ((), s') ∧
    heap s' V' ∧ V' ≡ₚ V ∧ frame V s s'.
Proof.
  intros R Hsm W. pose proof (hv_hole _ _ _ _ R) as He.
  pose proof (lookup_lt_Some _ _ _ He) as Hlt. unfold shift_from.
  assert (below_parent (key s) V i →
    ∃ s' V', min_heap_shift_down_ (Z.of_nat i) e s = Done ((), s') ∧
      heap s' V' ∧ V' ≡ₚ V ∧ frame V s s') as Hdown.
  { intros Hb. unfold min_heap_shift_down_. rewrite gets_bind, (hv_n _ _ _ _ R).
    unfold zlength. rewrite Nat2Z.id.
    destruct (shift_down_loop_spec (key s) (S (length V)) s V i e) as (s' & -> & R' & F'); auto; [lia|].
    eexists _, _. split_and!; [done| |apply sink_Permutation|done]. split; [done|].
    eapply ordered_ext; [intros; symmetry; by eapply frame_key|]. apply sink_ordered; auto. lia. }
  destruct (decide (i = 0)%nat) as [->|Hi0].
  { rewrite decide_False by lia. rewrite (bind_Done _ _ _ false s) by done.
    apply Hdown. intros ???; lia. }
  rewrite decide_True by lia.
  unfold small, zlength in Hsm. rewrite parent_of_nat by lia.
  pose proof (parent_lt i ltac:(lia)) as Hp.
  destruct (lookup_lt_is_Some_2 V (HeapOrder.parent i)) as [q Hq]; [lia|].
  erewrite bind_Done; last first.
  { erewrite bind_Done; [|eapply read_slot_hview; eauto; lia].
    apply greater_spec; eauto using hview_entry, hv_entry. }
  case_bool_decide as Hgt; last first.
  { apply Hdown. intros y z _ Hy Hz. simplify_eq. lia. }
  unfold min_heap_shift_up_unconditional_. rewrite parent_of_nat by lia.
  erewrite bind_Done; [|eapply read_slot_hview; eauto; lia].
  destruct (place_move s V i e (HeapOrder.parent i) q) as (s1 & Hrun & R1 & F1); auto; [lia|].
  erewrite bind_Done by done. rewrite Nat2Z.id.
  destruct (swap_up_weak (key s) V i q e) as [W' Ha']; auto; [lia| |].
  { intros j x y Hj Hpj Hx Hy. simplify_eq. transitivity (key s q); [lia|].
    eapply (proj2 W j x q); eauto. lia. }
  destruct (shift_up_loop_spec (key s) (S (HeapOrder.parent i)) s1
    (swap V i (HeapOrder.parent i)) (HeapOrder.parent i) e) as (s2 & -> & R2 & F2); auto.
  { unfold small, zlength. by rewrite swap_length. }
  { intros. by eapply frame_key. }
  exists s2, (swim (key s) (S (HeapOrder.parent i)) (swap V i (HeapOrder.parent i)) (HeapOrder.parent i)).
  split_and!; [done| |by rewrite swim_Permutation, swap_Permutation_nat|by eapply frame_swap].
  split; [done|]. eapply ordered_ext; [|apply swim_ordered; auto].
  - intros q'. symmetry. etrans; [by eapply frame_key|]. by eapply frame_key.
  - rewrite swap_length. lia.
Qed.
Lemma place_id s i q x :
  p s !! i = Some (Some q) → entries s !! q = Some x → min_heap_idx x = Z.of_nat i →
  place (Z.of_nat i) q s = Done ((), s).
Proof.
  intros Hp Hx Hi. pose proof (lookup_lt_Some _ _ _ Hp). destruct s as [P N C E]; cbn in *.
  unfold place, write_slot. erewrite modO_bind.
  2:{ cbn. rewrite zupdate_Some by (unfold zlength; lia). done. }
  unfold zinsert. rewrite decide_True, Nat2Z.id, list_insert_id by (done || lia).
  unfold write_idx, modO, set_p. cbn. rewrite Hx. cbn. unfold set_entries. cbn.
  rewrite insert_id; [done|]. rewrite Hx. destruct x; cbn in *. by subst.
Qed.

(** Shifting from the slot just behind the heap changes nothing. *)
Lemma shift_from_last s L x :
  repr s (L ++ [x]) → ordered (key s) (L ++ [x]) → small (L ++ [x]) →
  shift_from (zlength L) x (set_n (zlength L) s) = Done ((), set_n (zlength L) s).
Proof.
  intros R O Hsm. pose proof (repr_prefix _ _ _ R) as R'.
  unfold small, zlength in Hsm. rewrite length_app in Hsm. cbn in Hsm.
  assert ((L ++ [x]) !! length L = Some x) as Hx by (by rewrite lookup_app_r, Nat.sub_diag by done).
  destruct (repr_idx _ _ R _ _ Hx) as (ex & Hex & Hidx).
  assert (min_heap_shift_down_ (zlength L) x (set_n (zlength L) s) = Done ((), set_n (zlength L) s)) as Hd.
  { unfold min_heap_shift_down_. rewrite gets_bind. cbn [shift_down_loop].
    rewrite gets_bind, decide_False.
    - eapply place_id; [|exact Hex|done]. by apply (repr_slot _ _ R).
    - cbn. unfold zlength. rewrite u32_small by lia. lia. }
  unfold shift_from. case_decide as Hi; [|done].
  unfold zlength in Hi |- *. rewrite parent_of_nat by lia.
  pose proof (parent_lt (length L) ltac:(lia)) as Hp.
  destruct (lookup_lt_is_Some_2 L (HeapOrder.parent (length L))) as [q Hq]; [lia|].
  destruct (repr_idx _ _ R' _ _ Hq) as (eq & Heq & _).
  erewrite bind_Done; last first.
  { erewrite bind_Done; [|eapply read_slot_spec; [exact R'|exact Hq]].
    apply greater_spec; cbn; eauto. }
  rewrite bool_decide_false; [done|]. intros Hgt.
  assert (key s q ≤ key s x); [|unfold key in *; cbn in *; lia].
  eapply (O (length L)); eauto; [lia|]. by apply lookup_app_l_Some.
Qed.

Definition removed (e : ptr) (s : min_heap) (L : list ptr) (s' : min_heap) : Prop :=
  ∃ L' x, heap s' L' ∧ e :: L' ≡ₚ L ∧ keeps L s s' ∧
    entries s' !! e = Some x ∧ min_heap_idx x = U32_MAX.

Definition remove_at (i : Z) (e : ptr) : prog min_heap unit :=
  k ← gets n;
  modS (set_n (u32 (k - 1)));;
  last ← read_slot (u32 (k - 1));
  shift_from i last;;
  write_idx e U32_MAX.

Lemma remove_at_spec s L i e :
  heap s L → small L → L !! i = Some e →
  ∃ s', remove_at (Z.of_nat i) e s = Done ((), s') ∧ removed e s L s'.
Proof.
  intros [R O] Hsm He. pose proof (lookup_lt_Some _ _ _ He) as Hi.
  destruct L as [|x L _] using rev_ind; [done|].
  unfold small, zlength in Hsm. rewrite length_app in Hsm, Hi. cbn in Hsm, Hi.
  unfold remove_at. rewrite gets_bind, modS_bind.
  replace (u32 (n s - 1)) with (zlength L); last first.
  { rewrite (repr_n _ _ R). unfold zlength. rewrite length_app. cbn. rewrite u32_small; lia. }
  assert ((L ++ [x]) !! length L = Some x) as Hx by (by rewrite lookup_app_r, Nat.sub_diag by done).
  erewrite (bind_Done (read_slot _)); last first.
  { apply getsO_Done. cbn [p set_n]. unfold zlength. rewrite zlookup_of_nat.
    by rewrite (repr_slot _ _ R _ _ Hx). }
  assert (∃ s1 V, shift_from (Z.of_nat i) x (set_n (zlength L) s) = Done ((), s1) ∧
    heap s1 V ∧ e :: V ≡ₚ L ++ [x] ∧ keeps (L ++ [x]) s s1) as (s1 & V & Hrun & [R1 O1] & HV & K1).
  { destruct (decide (i = length L)) as [->|Hne].
    - assert (e = x) as -> by congruence. exists (set_n (zlength L) s), L. split_and!.
      + apply shift_from_last; [done..|]. unfold small, zlength. rewrite length_app. cbn. lia.
      + split; [by eapply repr_prefix|]. by apply (ordered_prefix (key s) L x).
      + by rewrite (Permutation_app_comm L [x]).
      + by constructor.
    - rewrite lookup_app_l in He by lia.
      destruct (shift_from_spec (set_n (zlength L) s) (<[i:=x]> L) i x) as (s1 & V & ? & ? & HP & F).
      + by eapply repr_take_hview.
      + unfold small, zlength. rewrite length_insert. lia.
      + apply weak_insert. by apply (ordered_prefix (key s) L x).
      + exists s1, V. split_and!; [done..|rewrite HP; by apply insert_last_Permutation|].
        eapply (keeps_entries _ (set_n (zlength L) s)); [done|].
        eapply keeps_sub; [|by apply frame_keeps].
        intros q Hq. rewrite <-(insert_last_Permutation _ _ _ _ He). by right. }
  erewrite bind_Done by done.
  assert (is_Some (entries s !! e)) as Hs.
  { destruct (repr_idx _ _ R _ _ He) as (?&?&?); eauto. }
  assert (e ∈ L ++ [x]) as Hin by (by eapply list_elem_of_lookup_2).
  destruct (write_idx_spec s1 (L ++ [x]) e U32_MAX) as (s2 & y & Hw & K2 & Hy & Hidx & HR);
    [by eapply keeps_dom|done|].
  rewrite Hw. exists s2. split; [done|]. exists V, y. split_and!; try done.
  - split; [|eapply ordered_ext; [|exact O1]; intros; symmetry; by eapply keeps_key].
    apply HR; [|done]. assert (NoDup (e :: V)) as Hnd by (rewrite HV; by eapply repr_nodup).
    by inv Hnd.
  - by eapply keeps_trans.
Qed.

Lemma pop_run s L :
  heap s L → small L →
  match L with
  | [] => min_heap_pop_ s = Done (None, s)
  | e :: _ => ∃ s', min_heap_pop_ s = Done (Some e, s') ∧ removed e s L s' ∧
      Forall (λ q, key s e ≤ key s q) L
  end.
Proof.
  intros H Hsm. destruct H as [R O]. pose proof (repr_n _ _ R) as Hn.
  unfold min_heap_pop_. rewrite gets_bind. destruct L as [|e L].
  { by rewrite decide_False by (rewrite Hn; unfold zlength; cbn; lia). }
  rewrite decide_True by (rewrite Hn; unfold zlength; cbn; lia).
  erewrite (bind_Done (read_slot 0)) by (by apply (read_slot_spec s (e :: L) 0 e)).
  destruct (remove_at_spec s (e :: L) 0 e) as (s' & Hrun & Hrem); [done..|].
  exists s'. split_and!; [|done|by eapply ordered_root_min].
  unfold remove_at in Hrun. rewrite gets_bind, modS_bind in Hrun. rewrite modS_bind.
  apply bind_inv in Hrun as (last & s1 & Hlast & Hrun).
  rewrite (bind_Done _ _ _ _ _ Hlast).
  apply bind_inv in Hrun as ([] & s2 & Hsh & Hrun).
  assert (min_heap_shift_down_ 0 last s1 = Done ((), s2)) as Hsd by exact Hsh.
  rewrite (bind_Done _ _ _ _ _ Hsd). by rewrite (bind_Done _ _ _ _ _ Hrun).
Qed.

Lemma erase_run s L i e :
  heap s L → small L → L !! i = Some e →
  ∃ s', min_heap_erase_ e s = Done (0, s') ∧ removed e s L s'.
Proof.
  intros H Hsm He. destruct (remove_at_spec s L i e) as (s' & Hrun & Hrem); [done..|].
  exists s'. split; [|done]. destruct (repr_idx _ _ (proj1 H) _ _ He) as (x & Hx & Hi).
  unfold min_heap_erase_, read_entry. erewrite getsO_bind by done.
  pose proof (lookup_lt_Some _ _ _ He). unfold small, zlength in Hsm.
  rewrite decide_True by lia. rewrite Hi.
  unfold remove_at in Hrun. rewrite gets_bind, modS_bind in Hrun. rewrite gets_bind, modS_bind.
  apply bind_inv in Hrun as (last & s1 & Hlast & Hrun).
  rewrite (bind_Done _ _ _ _ _ Hlast).
  apply bind_inv in Hrun as ([] & s2 & Hsh & Hrun).
  rewrite (bind_Done _ _ _ _ _ Hsh). by rewrite (bind_Done _ _ _ _ _ Hrun).
Qed.
Lemma adjust_run ok s L i e :
  repr s L → small L → L !! i = Some e → weak (key s) L i →
  ∃ s' L', min_heap_adjust_ ok e s = Done (0, s') ∧ heap s' L' ∧ L' ≡ₚ L ∧ keeps L s s'.
Proof.
  intros R Hsm He W. destruct (repr_idx _ _ R _ _ He) as (x & Hx & Hi).
  unfold min_heap_adjust_, read_entry. erewrite getsO_bind by done.
  pose proof (lookup_lt_Some _ _ _ He). pose proof Hsm as Hsm'. unfold small, zlength in Hsm'.
  rewrite decide_False by lia. rewrite Hi.
  destruct (shift_from_spec s L i e) as (s' & L' & Hrun & ? & ? & F); [by apply repr_hview|done..|].
  exists s', L'. erewrite bind_Done by done. split_and!; try done. by apply frame_keeps.
Qed.

(** A heap of two entries, for the witnesses. *)
Definition demo : min_heap :=
  MkHeap [Some 1%positive; Some 2%positive] 2 2
    {[1%positive := TimerEntry 5 0 0 0; 2%positive := TimerEntry 7 1 0 0;
      3%positive := TimerEntry 4 0 0 0]}.

Lemma demo_heap : heap demo [1%positive; 2%positive].
Proof.
  split.
  - constructor; try done.
    + intros [|[|i]] q Hq; by simplify_eq/=.
    + intros [|[|i]] q Hq; simplify_eq/=; by eexists.
  - intros [|[|i]] x y; try lia; intros _ ? ?; by simplify_eq/=.
Qed.

(** [min_heap_push_] fails, changing nothing, exactly when the array is
    full and [realloc] fails; otherwise it returns 0 without undefined
    behaviour and the heap then holds the new entry and the old ones, in heap
    order, every entry knowing its position. *)
Theorem min_heap_push_spec ok e s L :
  heap s L → e ∉ L → is_Some (entries s !! e) → small (e :: L) →
  if decide (a s < zlength L + 1 ∧ ok = false) then min_heap_push_ ok e s = Done (-1, s)
  else ∃ s', min_heap_push_ ok e s = Done (0, s') ∧ pushed e s L s'.
Proof. apply push_run. Qed.

Lemma min_heap_push_spec_witness :
  ∃ s', min_heap_push_ true 3%positive demo = Done (0, s') ∧
    pushed 3%positive demo [1%positive; 2%positive] s'.
Proof.
  refine (min_heap_push_spec true 3%positive demo _ demo_heap _ _ _).
  - by apply (bool_decide_unpack _).
  - by eexists.
  - done.
Defined.

(** [min_heap_pop_] on an empty heap returns [NULL]; on any other it
    returns an entry of least time, removes exactly that entry, marks it as
    out of the heap, and leaves a heap. *)
Theorem min_heap_pop_spec s L :
  heap s L → small L →
  match L with
  | [] => min_heap_pop_ s = Done (None, s)
  | e :: _ => ∃ s', min_heap_pop_ s = Done (Some e, s') ∧ removed e s L s' ∧
      Forall (λ q, key s e ≤ key s q) L
  end.
Proof. apply pop_run. Qed.

Lemma min_heap_pop_spec_witness :
  ∃ s', min_heap_pop_ demo = Done (Some 1%positive, s') ∧
    removed 1%positive demo [1%positive; 2%positive] s' ∧
    Forall (λ q, key demo 1%positive ≤ key demo q) [1%positive; 2%positive].
Proof. exact (min_heap_pop_spec demo [1%positive; 2%positive] demo_heap eq_refl). Defined.

(** [min_heap_erase_] of any entry of the heap, wherever it sits, returns
    0, removes exactly it and restores the order with one of the two walks;
    of an entry marked as outside the heap it returns -1 and does nothing. *)
Theorem min_heap_erase_spec s L e x :
  heap s L → small L → entries s !! e = Some x → (e ∈ L ∨ min_heap_idx x = U32_MAX) →
  if decide (min_heap_idx x = U32_MAX) then min_heap_erase_ e s = Done (-1, s)
  else ∃ s', min_heap_erase_ e s = Done (0, s') ∧ removed e s L s'.
Proof.
  intros H Hsm Hx Hin. case_decide as Hi.
  - unfold min_heap_erase_, read_entry. erewrite getsO_bind by done.
    by rewrite decide_False by (by intros []).
  - destruct Hin as [[i He]%list_elem_of_lookup|]; [|done]. by eapply erase_run.
Qed.

Lemma min_heap_erase_spec_witness :
  ∃ s', min_heap_erase_ 2%positive demo = Done (0, s') ∧
    removed 2%positive demo [1%positive; 2%positive] s'.
Proof.
  refine (min_heap_erase_spec demo _ 2%positive (TimerEntry 7 1 0 0) demo_heap eq_refl eq_refl _).
  left. right. left.
Defined.

(** After the time of one entry of a heap has been changed,
    [min_heap_adjust_] returns 0 and the same entries are in heap order again. *)
Theorem min_heap_adjust_spec ok s L i e :
  repr s L → small L → L !! i = Some e → weak (key s) L i →
  ∃ s' L', min_heap_adjust_ ok e s = Done (0, s') ∧ heap s' L' ∧ L' ≡ₚ L ∧ keeps L s s'.
Proof. apply adjust_run. Qed.

Definition demo_late : min_heap :=
  set_entries (<[1%positive := TimerEntry 9 0 0 0]> (entries demo)) demo.

Lemma min_heap_adjust_spec_witness :
  ∃ s' L', min_heap_adjust_ true 1%positive demo_late = Done (0, s') ∧ heap s' L' ∧
    L' ≡ₚ [1%positive; 2%positive] ∧ keeps [1%positive; 2%positive] demo_late s'.
Proof.
  apply (min_heap_adjust_spec true demo_late [1%positive; 2%positive] 0 1%positive).
  - constructor; try done.
    + intros [|[|i]] q Hq; by simplify_eq/=.
    + intros [|[|i]] q Hq; simplify_eq/=; by eexists.
  - done.
  - done.
  - split; intros [|[|i]] x y; try lia; intros; by simplify_eq/=.
Defined.

End MinHeap.

