(* ===== verification/TimerQueue.v ===== *)
(** The interface between the timer front ends (mh-timer.h, rbt-timer.h,
    skl-timer.c) and the priority structures under them, and the expiry loop
    the three front ends share, proved once against the interface. *)
From S2P Require Import Prelude.

(** A pending timer: its node and its expiry time. *)
Abbreviation pending := (ptr * Z)%type.

Definition due (now : Z) (e : pending) : Prop := e.2 ≤ now.
#[export] Instance due_dec now e : Decision (due now e).
Proof. unfold due. apply _. Defined.

Definition earlier (e1 e2 : pending) : Prop := e1.2 ≤ e2.2.
#[export] Instance earlier_trans : Transitive earlier.
Proof. intros ???. unfold earlier. lia. Qed.

(** What a priority structure promises: [tq_inv s L] says that the state [s]
    holds the timers [L]; [tq_first] finds one of least time, [tq_time] reads
    its time, [tq_remove] takes the first one out (and frees it). *)
Class TimerQueue (Q : Type) := {
  tq_inv : Q → list pending → Prop;
  tq_first : prog Q (option ptr);
  tq_time : ptr → prog Q Z;
  tq_remove : ptr → prog Q unit;
  tq_inv_perm s L L' : L ≡ₚ L' → tq_inv s L → tq_inv s L';
  tq_first_nil s : tq_inv s [] → tq_first s = Done (None, s);
  tq_first_cons s L : tq_inv s L → L ≠ [] →
    ∃ q t, tq_first s = Done (Some q, s) ∧ (q, t) ∈ L ∧ Forall (earlier (q, t)) L;
  tq_time_spec s L q t : tq_inv s L → (q, t) ∈ L → tq_time q s = Done (t, s);
  tq_remove_spec s q t L : tq_inv s ((q, t) :: L) → tq_first s = Done (Some q, s) →
    ∃ s', tq_remove q s = Done ((), s') ∧ tq_inv s' L;
}.

Section expiry.
Context {Q : Type} `{TQ : TimerQueue Q}.
(** The handler of a timer, as a transformer of the state. *)
Context (call : ptr → prog Q unit).

(** [for (;;)] { find the first timer; stop when there is none or it is not
    due; call its handler; take it out }.  Returns the timers fired, in
    order. *)
Fixpoint expire_loop (fuel : nat) (now : Z) : prog Q (list ptr) :=
  match fuel with
  | O => out_of_fuel
  | S fuel =>
      x ← tq_first;
      match x with
      | None => mret []
      | Some te =>
          t ← tq_time te;
          if decide (t > now) then mret [] else
          call te;;
          tq_remove te;;
          fired ← expire_loop fuel now;
          mret (te :: fired)
      end
  end.

(** A handler may add timers that are not due yet, as long as the timer being
    handled stays the first one. *)
Definition well_behaved (now : Z) : Prop := ∀ s L q,
  tq_inv s L → tq_first s = Done (Some q, s) →
  ∃ s' N, call q s = Done ((), s') ∧ tq_inv s' (N ++ L) ∧
    Forall (λ e, ¬ due now e) N ∧ tq_first s' = Done (Some q, s').

Lemma filter_not_due now L : Forall (λ e, ¬ due now e) L → filter (due now) L = [].
Proof. induction 1; [done|]. by rewrite filter_cons_False. Qed.
Lemma filter_all_not_due now L : Forall (λ e, ¬ due now e) L → filter (λ e, ¬ due now e) L = L.
Proof. induction 1; [done|]. rewrite filter_cons_True by done. by f_equal. Qed.

(** One expiry run fires exactly the due timers, in order of time, and keeps
    the others together with those the handlers added. *)
Lemma expire_loop_correct now fuel s L :
  well_behaved now → tq_inv s L → (length (filter (due now) L) < fuel)%nat →
  ∃ s' F N, expire_loop fuel now s = Done (F.*1, s') ∧
    F ≡ₚ filter (due now) L ∧ StronglySorted earlier F ∧
    tq_inv s' (N ++ filter (λ e, ¬ due now e) L) ∧ Forall (λ e, ¬ due now e) N.
Proof.
  intros Hc. revert s L. induction fuel as [|fuel IH]; intros s L HI Hf; [lia|].
  cbn [expire_loop]. destruct (decide (L = [])) as [->|HL].
  { erewrite bind_Done by (by apply tq_first_nil). exists s, [], [].
    split_and!; try done. constructor. }
  destruct (tq_first_cons s L HI HL) as (q & t & Hfirst & Hin & Hmin).
  rewrite (bind_Done _ _ _ _ _ Hfirst).
  rewrite (bind_Done _ _ _ _ _ (tq_time_spec _ _ _ _ HI Hin)).
  case_decide as Ht.
  { assert (Forall (λ e, ¬ due now e) L) as Hnone.
    { eapply Forall_impl; [exact Hmin|]. unfold due, earlier. cbn. lia. }
    exists s, [], []. rewrite filter_not_due, filter_all_not_due by done.
    split_and!; try done. constructor. }
  apply elem_of_Permutation in Hin as [L0 HL0].
  destruct (Hc s L q HI Hfirst) as (s1 & N1 & Hcall & HI1 & HN1 & Hfirst1).
  rewrite (bind_Done _ _ _ _ _ Hcall).
  destruct (tq_remove_spec s1 q t (N1 ++ L0)) as (s2 & Hrem & HI2); [|done|].
  { eapply tq_inv_perm; [|exact HI1]. rewrite HL0. by rewrite Permutation_middle. }
  rewrite (bind_Done _ _ _ _ _ Hrem).
  assert (due now (q, t)) as Hdue by (unfold due; cbn; lia).
  assert (filter (due now) L ≡ₚ (q, t) :: filter (due now) L0) as HF.
  { rewrite HL0. by rewrite filter_cons_True. }
  assert (filter (λ e, ¬ due now e) L ≡ₚ filter (λ e, ¬ due now e) L0) as HN.
  { rewrite HL0. rewrite filter_cons_False; [done|]. naive_solver. }
  destruct (IH s2 (N1 ++ L0) HI2) as (s3 & F & N & Hrun & HF2 & Hsort & HI3 & HN3).
  { rewrite filter_app, filter_not_due by done. cbn.
    rewrite HF in Hf. cbn in Hf. lia. }
  rewrite filter_app, filter_not_due in HF2 by done. cbn in HF2.
  rewrite filter_app, filter_all_not_due in HI3 by done.
  rewrite (bind_Done _ _ _ _ _ Hrun). exists s3, ((q, t) :: F), (N ++ N1). split_and!.
  - done.
  - by rewrite HF, HF2.
  - constructor; [done|]. rewrite HF2. rewrite HL0 in Hmin. inv Hmin.
    apply Forall_forall. intros e [_ He]%list_elem_of_filter.
    by eapply Forall_forall in He.
  - eapply tq_inv_perm; [|exact HI3]. by rewrite HN, app_assoc.
  - by apply Forall_app.
Qed.
End expiry.

(** Handlers that only print, such as the [hello_world] of the examples. *)
Lemma silent_well_behaved {Q} `{TQ : TimerQueue Q} now :
  well_behaved (λ _ : ptr, (mret () : prog Q unit)) now.
Proof. intros s L q HI Hf. by exists s, []. Qed.
