(* ===== verification/Clock.v ===== *)
(** The millisecond clock of the timers: [current_time] of mh-timer.h,
    rbt-timer.h and skl-timer.c (the three copies are identical), and the
    signed difference of two of its values. *)
From S2P Require Import Prelude.

Module Clock.

(** struct timespec, as [clock_gettime(CLOCK_MONOTONIC)] fills it in. *)
Record timespec := Timespec { tv_sec : Z; tv_nsec : Z }.

Definition current_time (ti : timespec) : Z :=
  let t := u32 (u32 (tv_sec ti) * 1000) in
  u32 (t + tv_nsec ti / 1000000).

(** Milliseconds since the epoch of the clock, unbounded. *)
Definition millis (ti : timespec) : Z := tv_sec ti * 1000 + tv_nsec ti / 1000000.

(** The clock value is the millisecond count modulo 2^32: it wraps every 49.7
    days. *)
Lemma current_time_millis ti : current_time ti = u32 (millis ti).
Proof.
  unfold current_time, millis. rewrite u32_add_l. unfold u32, wrap.
  rewrite <-Zplus_mod_idemp_l, Zmult_mod_idemp_l. by rewrite Zplus_mod_idemp_l.
Qed.

Lemma current_time_range ti : 0 ≤ current_time ti < 4294967296.
Proof. apply u32_range. Qed.

(** [(int)x - (int)y]: a difference outside the range of [int] is undefined. *)
Definition int_diff {S} (x y : Z) : prog S Z :=
  let d := i32 x - i32 y in
  if decide (- 2147483648 ≤ d < 2147483648) then mret d else undef.

(** The [find_nearest_expire_timer] of the front ends, given the first timer. *)
Definition nearest {S} (time now : Z) : prog S Z :=
  diff ← int_diff time now;
  mret (if decide (diff > 0) then diff else 0).

(** While neither value has reached 2^31 the result is the time left. *)
Lemma nearest_small {S} time now (s : S) :
  0 ≤ time < 2147483648 → 0 ≤ now < 2147483648 →
  nearest time now s = Done (Z.max 0 (time - now), s).
Proof.
  intros. unfold nearest, int_diff. rewrite !i32_small by lia.
  rewrite decide_True by lia. rewrite (bind_Done _ _ _ (time - now) s) by done.
  unfold mret, prog_ret. f_equal. f_equal. case_decide; lia.
Qed.

End Clock.
