(* ===== verification/MhTimer.v ===== *)
(** The timer front end on the min-heap: src/timer/mh-timer.h. *)
From S2P Require Import Prelude HeapOrder MinHeap TimerQueue Clock.
Import MinHeap.

Module MhTimer.

Definition current_time := Clock.current_time.

(** [static min_heap_t min_heap] is the state; [es] are the live entries. *)
Definition init_timer : prog min_heap unit := modS (λ s, min_heap_ctor_ (entries s)).

Definition free (te : ptr) : prog min_heap unit :=
  modO (λ s, _ ← entries s !! te; Some (set_entries (delete te (entries s)) s)).

(** [te] is what [malloc] returns, [realloc_ok] whether [realloc] succeeds. *)
Definition add_timer (te : option ptr) (realloc_ok : bool) (now msec callback : Z) :
    prog min_heap (option ptr) :=
  match te with
  | None => mret None
  | Some te =>
      modS (λ s, set_entries (<[te := TimerEntry (u32 (now + msec)) 0 callback 0]> (entries s)) s);;
      r ← min_heap_push_ realloc_ok te;
      if decide (0 ≠ r) then (free te;; mret None) else mret (Some te)
  end.

Definition del_timer (e : ptr) : prog min_heap bool :=
  r ← min_heap_erase_ e; mret (bool_decide (0 = r)).

Definition find_nearest_expire_timer (now : Z) : prog min_heap Z :=
  te ← min_heap_top_;
  match te with
  | None => mret (-1)
  | Some te => x ← read_entry te; Clock.nearest (time x) now
  end.

(** Returns the timers whose handlers ran, in order; [call] is the effect of a
    handler on the heap. *)
Fixpoint expire_timer (call : ptr → prog min_heap unit) (fuel : nat) (cur : Z) :
    prog min_heap (list ptr) :=
  match fuel with
  | O => out_of_fuel
  | S fuel =>
      te ← min_heap_top_;
      match te with
      | None => mret []
      | Some te =>
          x ← read_entry te;
          if decide (time x > cur) then mret [] else
          call te;;
          (min_heap_pop_;; free te);;
          fired ← expire_timer call fuel cur;
          mret (te :: fired)
      end
  end.

(** ** The heap is a timer queue *)
Definition timers (s : min_heap) (H : list ptr) : list pending := (λ q, (q, key s q)) <$> H.

(** The entries that are allocated are those in the heap and those that the
    program holds besides, [held]. *)
Definition memory (held : list ptr) (s : min_heap) (H : list ptr) : Prop :=
  (∀ q, q ∈ held → q ∉ H) ∧ ∀ q, is_Some (entries s !! q) ↔ q ∈ H ∨ q ∈ held.

Definition mh_inv (held : list ptr) (s : min_heap) (L : list pending) : Prop :=
  ∃ H, heap s H ∧ small H ∧ memory held s H ∧ timers s H ≡ₚ L.

Lemma timers_ext s s' H :
  (∀ q, q ∈ H → key s' q = key s q) → timers s' H = timers s H.
Proof. intros E. apply list_fmap_ext. intros i q Hq. by rewrite E by (by eapply list_elem_of_lookup_2). Qed.

Lemma heap_top s e H : heap s (e :: H) → min_heap_top_ s = Done (Some e, s).
Proof.
  intros [R O]. unfold min_heap_top_. rewrite gets_bind.
  rewrite decide_False by (rewrite (repr_n _ _ R); unfold zlength; cbn; lia).
  by erewrite bind_Done by (by apply (read_slot_spec s (e :: H) 0 e)).
Qed.
Lemma heap_top_nil s : heap s [] → min_heap_top_ s = Done (None, s).
Proof.
  intros [R O]. unfold min_heap_top_. rewrite gets_bind.
  by rewrite decide_True by (by rewrite (repr_n _ _ R)).
Qed.

(** Freeing an entry that is not in the heap. *)
Lemma free_spec s e H :
  heap s H → e ∉ H → is_Some (entries s !! e) →
  ∃ s', free e s = Done ((), s') ∧ heap s' H ∧ (∀ q, q ≠ e → key s' q = key s q) ∧
    entries s' = delete e (entries s).
Proof.
  intros [[H1 H2 H3 H4 H5] O] He [x Hx]. unfold free, modO. rewrite Hx. cbn.
  eexists. split; [done|].
  assert (∀ q, q ≠ e → key (set_entries (delete e (entries s)) s) q = key s q) as Hk.
  { intros q Hq. unfold key. cbn. by rewrite lookup_delete_ne. }
  split_and!; [split| |done]; [constructor; cbn; auto| |exact Hk].
  - intros i q Hq. rewrite lookup_delete_ne; [eauto|]. intros ->.
    by eapply He, list_elem_of_lookup_2.
  - intros i a b Hi Ha Hb. rewrite !Hk; [by eapply O| |];
      intros ->; by eapply He, list_elem_of_lookup_2.
Qed.

Lemma small_perm H H' : H' ≡ₚ H → small H → small H'.
Proof. unfold small, zlength. by intros ->. Qed.

(** [min_heap_pop_(&min_heap); free(te);] on the top entry. *)
Lemma pop_free_spec s e H :
  heap s (e :: H) → small (e :: H) →
  ∃ s' H', (min_heap_pop_;; free e) s = Done ((), s') ∧ heap s' H' ∧ H' ≡ₚ H ∧
    (∀ q, q ≠ e → key s' q = key s q) ∧ ∀ q, is_Some (entries s' !! q) ↔ q ≠ e ∧ is_Some (entries s !! q).
Proof.
  intros Hh Hsm. pose proof (repr_nodup _ _ (proj1 Hh)) as Hnd.
  destruct (pop_run s (e :: H) Hh Hsm) as (s1 & Hrun & (H' & x & Hh1 & HP & K & Hx & _) & _).
  rewrite (bind_Done _ _ _ _ _ Hrun). apply Permutation.Permutation_cons_inv in HP.
  destruct (free_spec s1 e H') as (s2 & Hf & Hh2 & Hk & He); [done| |by eexists|].
  { rewrite HP. by inv Hnd. }
  exists s2, H'. split_and!; [done..| |].
  - intros q Hq. rewrite Hk by done. by eapply keeps_key.
  - intros q. rewrite He. destruct (decide (q = e)) as [->|Hq]; [rewrite lookup_delete_eq; split; [by intros []|by intros []]|].
    rewrite lookup_delete_ne by done. pose proof (kp_fields _ _ _ K q) as Hq'. rewrite !is_Some_alt.
    destruct (entries s1 !! q), (entries s !! q); try done; split; intros; tauto.
Qed.

(** [held] stays the same while the timers run out. *)
#[export, program] Instance mh_queue (held : list ptr) : TimerQueue min_heap := {|
  tq_inv := mh_inv held;
  tq_first := min_heap_top_;
  tq_time q := x ← read_entry q; mret (time x);
  tq_remove te := min_heap_pop_;; free te;
|}.
Next Obligation. intros held s L L' HL (H & ? & ? & ? & ?). exists H. split; [done|]. split; [done|]. split; [done|]. by etrans. Qed.
Next Obligation.
  intros held s (H & Hh & _ & _ & HP). apply heap_top_nil. symmetry in HP.
  apply Permutation_nil in HP. apply fmap_nil_inv in HP. by subst.
Qed.
Next Obligation.
  intros held s L (H & Hh & Hsm & _ & HP) HL. destruct H as [|e H].
  { apply Permutation_nil in HP. done. }
  exists e, (key s e). split_and!.
  - by eapply heap_top.
  - rewrite <-HP. left.
  - rewrite <-HP. apply Forall_fmap.
    eapply Forall_impl; [by eapply ordered_root_min; [apply Hh|]|]. done.
Qed.
Next Obligation.
  intros held s L q t (H & Hh & Hsm & _ & HP) Hin. rewrite <-HP in Hin.
  apply list_elem_of_fmap in Hin as (q' & [= <- ->] & [i Hq]%list_elem_of_lookup).
  destruct (repr_idx _ _ (proj1 Hh) _ _ Hq) as (x & Hx & _).
  unfold read_entry, key. erewrite getsO_bind by done. by rewrite Hx.
Qed.
Next Obligation.
  intros held s q t L (H & Hh & Hsm & [Hheld Hmem] & HP) Hfirst. destruct H as [|e H].
  { by rewrite heap_top_nil in Hfirst. }
  rewrite (heap_top _ _ _ Hh) in Hfirst. simplify_eq.
  pose proof (repr_nodup _ _ (proj1 Hh)) as Hnd. inv Hnd.
  destruct (pop_free_spec s q H Hh Hsm) as (s' & H' & Hrun & Hh' & HP' & Hk & He).
  exists s'. split; [done|]. exists H'. split; [done|]. split; [|split].
  - eapply small_perm; [exact HP'|]. unfold small, zlength in *. cbn in *. lia.
  - split; [intros p Hp; rewrite HP'; specialize (Hheld p Hp); set_solver|]. intros p. rewrite He, Hmem, HP'.
    assert (q ∉ held) by (intros Hq; apply (Hheld q Hq); left). set_solver.
  - assert (key s q = t) as Ht.
    { assert ((q, t) ∈ timers s (q :: H)) as Hin by (rewrite HP; left).
      apply list_elem_of_fmap in Hin as (q' & [= <- ->] & _). done. }
    subst t. apply Permutation.Permutation_cons_inv in HP. rewrite <-HP.
    transitivity (timers s' H); [unfold timers; by rewrite HP'|].
    rewrite (timers_ext s s' H); [done|]. intros q' Hq'. apply Hk. by intros ->.
Qed.
(** The front end's loop is the shared one. *)
Lemma expire_timer_loop held call fuel cur s :
  expire_timer call fuel cur s = expire_loop (TQ := mh_queue held) call fuel cur s.
Proof.
  revert s. induction fuel as [|fuel IH]; intros s; [done|].
  cbn [expire_timer expire_loop tq_first tq_time tq_remove mh_queue].
  unfold mbind, prog_bind. destruct (min_heap_top_ s) as [[[te|] s1]| |]; try done.
  destruct (read_entry te s1) as [[x s2]| |]; try done. cbn.
  case_decide; [done|]. destruct (call te s2) as [[? s3]| |]; try done.
  destruct (min_heap_pop_ s3) as [[? s4]| |]; try done.
  destruct (free te s4) as [[? s5]| |]; try done. by rewrite IH.
Qed.

(** Filling in a fresh entry leaves a heap alone. *)
Lemma fresh_entry_heap s H te x :
  heap s H → entries s !! te = None →
  heap (set_entries (<[te := x]> (entries s)) s) H ∧ te ∉ H ∧
  ∀ q, q ≠ te → key (set_entries (<[te := x]> (entries s)) s) q = key s q.
Proof.
  intros [[H1 H2 H3 H4 H5] O] Hte.
  assert (te ∉ H) as Hnin.
  { intros [i Hi]%list_elem_of_lookup. destruct (H5 _ _ Hi) as (?&?&_). congruence. }
  assert (∀ q, q ≠ te → key (set_entries (<[te := x]> (entries s)) s) q = key s q) as Hk.
  { intros q Hq. unfold key. cbn. by rewrite lookup_insert_ne. }
  split_and!; [split; [constructor; cbn; auto|]|done|done].
  - intros i q Hq. rewrite lookup_insert_ne; [eauto|]. intros ->.
    by eapply Hnin, list_elem_of_lookup_2.
  - intros i a b Hi Ha Hb. rewrite !Hk; [by eapply O| |];
      intros ->; by eapply Hnin, list_elem_of_lookup_2.
Qed.

Lemma mh_add_timer_run te ok now msec cb s H :
  heap s H → small (te :: H) → entries s !! te = None →
  if decide (a s < zlength H + 1 ∧ ok = false) then
    add_timer (Some te) ok now msec cb s = Done (None, s)
  else ∃ s' H', add_timer (Some te) ok now msec cb s = Done (Some te, s') ∧ heap s' H' ∧
    timers s' H' ≡ₚ (te, u32 (now + msec)) :: timers s H.
Proof.
  intros Hh Hsm Hte. cbn [add_timer]. rewrite modS_bind.
  set (x := TimerEntry (u32 (now + msec)) 0 cb 0).
  destruct (fresh_entry_heap s H te x Hh Hte) as (Hh1 & Hnin & Hk).
  set (s1 := set_entries (<[te:=x]> (entries s)) s) in *.
  assert (is_Some (entries s1 !! te)) as Hs1 by (cbn; rewrite lookup_insert_eq; eauto).
  pose proof (push_run ok te s1 H Hh1 Hnin Hs1 Hsm) as Hpush. cbn [a s1 set_entries] in Hpush.
  case_decide as Hfull.
  - rewrite (bind_Done _ _ _ _ _ Hpush), decide_True by done.
    unfold free. erewrite modO_bind; last first.
    { cbn. rewrite lookup_insert_eq. cbn. done. }
    unfold mret, prog_ret, set_entries, s1. cbn.
    rewrite delete_insert_id by done. by destruct s.
  - destruct Hpush as (s2 & Hrun & H' & Hh2 & HP & K).
    rewrite (bind_Done _ _ _ _ _ Hrun), decide_False by (by intros []).
    exists s2, H'. split_and!; [done..|].
    transitivity (timers s2 (te :: H)); [by apply (fmap_Permutation (λ q, (q, key s2 q)))|].
    unfold timers at 1. cbn. f_equiv.
    + f_equal. rewrite (keeps_key _ _ _ _ K). unfold key. cbn. by rewrite lookup_insert_eq.
    + fold (timers s2 H). rewrite (timers_ext s s2 H); [done|]. intros q Hq.
      rewrite (keeps_key _ _ _ _ K). apply Hk. by intros ->.
Qed.

(** [add_timer] of the heap front end returns [NULL] and changes nothing
    when [malloc] or [realloc] fails; otherwise the pending timers gain exactly
    the new node, with expiry [now + msec] modulo 2^32. *)
Theorem mh_add_timer_spec te ok now msec cb s H :
  heap s H → zlength H + 1 < 2147483648 →
  (∀ q, te = Some q → entries s !! q = None) →
  match te with
  | Some q =>
      if decide (a s < zlength H + 1 ∧ ok = false) then
        add_timer te ok now msec cb s = Done (None, s)
      else ∃ s' H', add_timer te ok now msec cb s = Done (Some q, s') ∧ heap s' H' ∧
        timers s' H' ≡ₚ (q, u32 (now + msec)) :: timers s H
  | None => add_timer te ok now msec cb s = Done (None, s)
  end.
Proof.
  intros Hh Hsm Hte. destruct te as [te|]; [|done]. apply mh_add_timer_run; auto.
  unfold small, zlength in *. cbn. lia.
Qed.

Lemma mh_add_timer_spec_witness :
  ∃ s' H', add_timer (Some 9%positive) true 100 3000 1 demo = Done (Some 9%positive, s') ∧
    heap s' H' ∧ timers s' H' ≡ₚ (9%positive, 3100) :: timers demo [1%positive; 2%positive].
Proof.
  apply (mh_add_timer_spec (Some 9%positive) true 100 3000 1 demo _ demo_heap eq_refl).
  by intros ? [= <-].
Defined.

(** C29: one run of [expire_timer] calls the handlers of exactly the timers
    whose time has come, in the order of their times, takes exactly those out
    of the heap and frees them, and returns: what is allocated afterwards is
    what the heap holds and what the program held besides.  The others stay
    pending.  The handlers may add timers that are not due yet ([N]); they
    return, and neither take timers out nor allocate or free other entries
    ([well_behaved]). *)
Theorem mh_expire_timer_spec held call cur fuel s H :
  heap s H → small H → memory held s H → well_behaved (TQ := mh_queue held) call cur → (length H < fuel)%nat →
  ∃ s' F N H', expire_timer call fuel cur s = Done (F.*1, s') ∧
    F ≡ₚ filter (due cur) (timers s H) ∧ StronglySorted earlier F ∧
    heap s' H' ∧ timers s' H' ≡ₚ N ++ filter (λ e, ¬ due cur e) (timers s H) ∧
    Forall (λ e, ¬ due cur e) N ∧ memory held s' H'.
Proof.
  intros Hh Hsm Hmem Hc Hf.
  destruct (expire_loop_correct (TQ := mh_queue held) call cur fuel s (timers s H)) as (s' & F & N & Hrun & ? & ? & (H' & ? & _ & ? & ?) & ?);
    [done|by exists H| |].
  { eapply Nat.le_lt_trans; [apply length_filter|]. by unfold timers; rewrite length_fmap. }
  exists s', F, N, H'. by rewrite (expire_timer_loop held).
Qed.

Lemma demo_memory : memory [3%positive] demo [1%positive; 2%positive].
Proof.
  split; [set_solver|]. intros q. cbn. rewrite !lookup_insert_is_Some, lookup_singleton_is_Some.
  destruct (decide (q = 1%positive)), (decide (q = 2%positive)); set_solver.
Qed.
Lemma mh_expire_timer_spec_witness :
  ∃ s' F N H', expire_timer (λ _, mret ()) 3 6 demo = Done (F.*1, s') ∧
    F ≡ₚ filter (due 6) (timers demo [1%positive; 2%positive]) ∧ StronglySorted earlier F ∧
    heap s' H' ∧ timers s' H' ≡ₚ N ++ filter (λ e, ¬ due 6 e) (timers demo [1%positive; 2%positive]) ∧
    Forall (λ e, ¬ due 6 e) N ∧ memory [3%positive] s' H'.
Proof.
  apply (mh_expire_timer_spec [3%positive] (λ _, mret ()) 6 3 demo _ demo_heap eq_refl demo_memory); [|cbn; lia].
  apply silent_well_behaved.
Defined.

(** The entry of the timer that fired is gone. *)
Example expire_demo : ∃ s', expire_timer (λ _, mret ()) 3 6 demo = Done ([1%positive], s') ∧ entries s' !! 1%positive = None.
Proof. eexists. split; vm_compute; reflexivity. Qed.

End MhTimer.

