(* ===== verification/RteRing.v ===== *)
(** The DPDK ring: src/free_queue/rte_ring/rte_ring.h and rte_ring.c.

    Head and tail indices are 32-bit counters that run over the whole range of
    [uint32_t]; they are masked when the table is accessed.  The debug
    statistics ([RTE_LIBRTE_RING_DEBUG]) are compiled out, as in the sources'
    Makefile. *)
From S2P Require Import Prelude.

Module RteRing.

(** errno values. *)
Definition ENOENT : Z := 2.
Definition EINVAL : Z := 22.
Definition ENOBUFS : Z := 105.
Definition EDQUOT : Z := 122.

Inductive rte_ring_queue_behavior :=
  | RTE_RING_QUEUE_FIXED
  | RTE_RING_QUEUE_VARIABLE.

Definition RING_F_SP_ENQ : Z := 1.
Definition RING_F_SC_DEQ : Z := 2.
Definition RTE_RING_QUOT_EXCEED : Z := 2147483648.
Definition RTE_RING_SZ_MASK : Z := 268435455.

(** struct rte_ring, with its two inner structs flattened into [p_] and [c_]
    fields; [ring] is the table behind the header. *)
Record rte_ring := MkRing {
  flags : Z;
  p_watermark : Z;
  p_sp_enqueue : Z;
  p_size : Z;
  p_mask : Z;
  p_head : Z;
  p_tail : Z;
  c_sc_dequeue : Z;
  c_size : Z;
  c_mask : Z;
  c_head : Z;
  c_tail : Z;
  ring : list (option Z);
}.

Definition set_prod (h t : Z) (r : rte_ring) : rte_ring :=
  MkRing (flags r) (p_watermark r) (p_sp_enqueue r) (p_size r) (p_mask r) h t
    (c_sc_dequeue r) (c_size r) (c_mask r) (c_head r) (c_tail r) (ring r).
Definition set_cons (h t : Z) (r : rte_ring) : rte_ring :=
  MkRing (flags r) (p_watermark r) (p_sp_enqueue r) (p_size r) (p_mask r) (p_head r) (p_tail r)
    (c_sc_dequeue r) (c_size r) (c_mask r) h t (ring r).
Definition set_ring (l : list (option Z)) (r : rte_ring) : rte_ring :=
  MkRing (flags r) (p_watermark r) (p_sp_enqueue r) (p_size r) (p_mask r) (p_head r) (p_tail r)
    (c_sc_dequeue r) (c_size r) (c_mask r) (c_head r) (c_tail r) l.
Definition set_watermark (w : Z) (r : rte_ring) : rte_ring :=
  MkRing (flags r) w (p_sp_enqueue r) (p_size r) (p_mask r) (p_head r) (p_tail r)
    (c_sc_dequeue r) (c_size r) (c_mask r) (c_head r) (c_tail r) (ring r).

(** [(((x)-1) & (x)) == 0] on an unsigned. *)
Definition POWEROF2 (x : Z) : bool := bool_decide (Z.land (u32 (x - 1)) x = 0).

Definition truthy (b : bool) : Z := if b then 1 else 0.

(** Returns the ring or the [errno] it sets; [malloc_ok] is whether [malloc]
    succeeds.  The table is not initialised. *)
Definition rte_ring_create (malloc_ok : bool) (count flags : Z) : rte_ring + Z :=
  if negb (POWEROF2 count) || bool_decide (count > RTE_RING_SZ_MASK) then inr EINVAL
  else if malloc_ok then
    inl (MkRing flags count (truthy (negb (bool_decide (Z.land flags RING_F_SP_ENQ = 0))))
           count (u32 (count - 1)) 0 0
           (truthy (negb (bool_decide (Z.land flags RING_F_SC_DEQ = 0))))
           count (u32 (count - 1)) 0 0
           (replicate (Z.to_nat count) None))
  else inr ENOBUFS.

Definition rte_ring_set_water_mark (count : Z) : prog rte_ring Z :=
  size ← gets p_size;
  if decide (size ≤ count) then mret (- EINVAL) else
  modS (set_watermark (if decide (count = 0) then size else count));;
  mret 0.

(** Compare and swap of the head of the producer and of the consumer. *)
Definition rte_atomic32_cmpset_prod (exp src : Z) : prog rte_ring bool :=
  h ← gets p_head;
  if decide (h = exp) then (modS (λ r, set_prod src (p_tail r) r);; mret true) else mret false.
Definition rte_atomic32_cmpset_cons (exp src : Z) : prog rte_ring bool :=
  h ← gets c_head;
  if decide (h = exp) then (modS (λ r, set_cons src (c_tail r) r);; mret true) else mret false.

(** The body that the macros [ENQUEUE_PTRS] and [DEQUEUE_PTRS] share, over the
    assignment [cp idx i] that copies between [r->ring[idx]] and
    [obj_table[i]]. *)
Section copy.
Context {S : Type} (cp : Z → Z → prog S unit).

(** The loop unrolled four times. *)
Fixpoint copy_block (fuel : nat) (lim i idx : Z) : prog S (Z * Z) :=
  match fuel with
  | O => out_of_fuel
  | Datatypes.S fuel =>
      if decide (i < lim) then
        cp idx i;; cp (u32 (idx + 1)) (u32 (i + 1));;
        cp (u32 (idx + 2)) (u32 (i + 2));; cp (u32 (idx + 3)) (u32 (i + 3));;
        copy_block fuel lim (u32 (i + 4)) (u32 (idx + 4))
      else mret (i, idx)
  end.

(** The [switch (n & 0x3)]: its cases fall through, so case [k] copies [k]
    objects. *)
Fixpoint copy_switch (k : nat) (i idx : Z) : prog S unit :=
  match k with
  | O => mret ()
  | Datatypes.S k => cp idx i;; copy_switch k (u32 (i + 1)) (u32 (idx + 1))
  end.

(** [for (i = 0; idx < size; i++, idx++)], returning [i]. *)
Fixpoint copy_to_end (fuel : nat) (size i idx : Z) : prog S Z :=
  match fuel with
  | O => out_of_fuel
  | Datatypes.S fuel =>
      if decide (idx < size) then
        cp idx i;; copy_to_end fuel size (u32 (i + 1)) (u32 (idx + 1))
      else mret i
  end.

(** [for (idx = 0; i < n; i++, idx++)] *)
Fixpoint copy_rest (fuel : nat) (n i idx : Z) : prog S unit :=
  match fuel with
  | O => out_of_fuel
  | Datatypes.S fuel =>
      if decide (i < n) then
        cp idx i;; copy_rest fuel n (u32 (i + 1)) (u32 (idx + 1))
      else mret ()
  end.

Definition copy_ptrs (size head mask n : Z) : prog S unit :=
  let idx := Z.land head mask in
  if decide (u32 (idx + n) < size) then
    x ← copy_block (Datatypes.S (Z.to_nat n)) (Z.land n (Z.lxor 3 U32_MAX)) 0 idx;
    copy_switch (Z.to_nat (Z.land n 3)) x.1 x.2
  else
    i ← copy_to_end (Datatypes.S (Z.to_nat size)) size 0 idx;
    copy_rest (Datatypes.S (Z.to_nat n)) n i 0.
End copy.

Section enqueue.
(** The caller's table of objects. *)
Context (obj_table : list Z).

(** [r->ring[idx] = obj_table[i]] *)
Definition put (idx i : Z) : prog rte_ring unit :=
  modO (λ r, o ← zlookup obj_table i; l ← zupdate idx (Some o) (ring r); Some (set_ring l r)).

Definition ENQUEUE_PTRS (prod_head mask n : Z) : prog rte_ring unit :=
  size ← gets p_size;
  copy_ptrs put size prod_head mask n.

(** What the room check decides: an early return, or how many to move. *)
Definition clip (n room : Z) (behavior : rte_ring_queue_behavior) (err : Z) : Z + Z :=
  if decide (n > room) then
    match behavior with
    | RTE_RING_QUEUE_FIXED => inl (- err)
    | RTE_RING_QUEUE_VARIABLE => if decide (room = 0) then inl 0 else inr room
    end
  else inr n.

Definition enqueue_result (n free_entries mask : Z) (behavior : rte_ring_queue_behavior)
    (watermark : Z) : Z :=
  if decide (u32 (mask + 1 - free_entries + n) > watermark) then
    match behavior with
    | RTE_RING_QUEUE_FIXED => - EDQUOT
    | RTE_RING_QUEUE_VARIABLE => i32 (Z.lor n RTE_RING_QUOT_EXCEED)
    end
  else
    match behavior with
    | RTE_RING_QUEUE_FIXED => 0
    | RTE_RING_QUEUE_VARIABLE => i32 n
    end.

Definition __rte_ring_sp_do_enqueue (n : Z) (behavior : rte_ring_queue_behavior) :
    prog rte_ring Z :=
  mask ← gets p_mask;
  prod_head ← gets p_head;
  cons_tail ← gets c_tail;
  let free_entries := u32 (mask + cons_tail - prod_head) in
  match clip n free_entries behavior ENOBUFS with
  | inl ret => mret ret
  | inr n =>
      let prod_next := u32 (prod_head + n) in
      modS (λ r, set_prod prod_next (p_tail r) r);;
      ENQUEUE_PTRS prod_head mask n;;
      watermark ← gets p_watermark;
      modS (λ r, set_prod (p_head r) prod_next r);;
      mret (enqueue_result n free_entries mask behavior watermark)
  end.

(** The [do ... while (success == 0)] that moves the producer's head: the
    early return, or the head taken, the free entries seen and the count. *)
Fixpoint move_prod_head (fuel : nat) (mask max : Z) (behavior : rte_ring_queue_behavior) :
    prog rte_ring (Z + Z * Z * Z) :=
  match fuel with
  | O => out_of_fuel
  | S fuel =>
      prod_head ← gets p_head;
      cons_tail ← gets c_tail;
      let free_entries := u32 (mask + cons_tail - prod_head) in
      match clip max free_entries behavior ENOBUFS with
      | inl ret => mret (inl ret)
      | inr n =>
          success ← rte_atomic32_cmpset_prod prod_head (u32 (prod_head + n));
          if (success : bool) then mret (inr (prod_head, free_entries, n))
          else move_prod_head fuel mask max behavior
      end
  end.

(** [while (r->prod.tail != prod_head) rte_pause();] *)
Fixpoint wait_prod_tail (fuel : nat) (prod_head : Z) : prog rte_ring unit :=
  match fuel with
  | O => out_of_fuel
  | S fuel =>
      t ← gets p_tail;
      if decide (t ≠ prod_head) then wait_prod_tail fuel prod_head else mret ()
  end.

Definition __rte_ring_mp_do_enqueue (fuel : nat) (n : Z) (behavior : rte_ring_queue_behavior) :
    prog rte_ring Z :=
  mask ← gets p_mask;
  m ← move_prod_head fuel mask n behavior;
  match m with
  | inl ret => mret ret
  | inr (prod_head, free_entries, n) =>
      ENQUEUE_PTRS prod_head mask n;;
      watermark ← gets p_watermark;
      wait_prod_tail fuel prod_head;;
      modS (λ r, set_prod (p_head r) (u32 (prod_head + n)) r);;
      mret (enqueue_result n free_entries mask behavior watermark)
  end.
End enqueue.

Section dequeue.
(** The caller's table is written: it is a second component of the state. *)
Abbreviation dstate := (rte_ring * list (option Z))%type.

Definition on_ring {A} (m : prog rte_ring A) : prog dstate A := λ s,
  match m s.1 with
  | Done (a, r) => Done (a, (r, s.2))
  | Undef => Undef
  | NoFuel => NoFuel
  end.

(** [obj_table[i] = r->ring[idx]] *)
Definition take_out (idx i : Z) : prog dstate unit :=
  modO (λ s, o ← zlookup (ring s.1) idx; t ← zupdate i o s.2; Some (s.1, t)).

Definition DEQUEUE_PTRS (cons_head mask n : Z) : prog dstate unit :=
  size ← on_ring (gets c_size);
  copy_ptrs take_out size cons_head mask n.

Definition dequeue_result (n : Z) (behavior : rte_ring_queue_behavior) : Z :=
  match behavior with
  | RTE_RING_QUEUE_FIXED => 0
  | RTE_RING_QUEUE_VARIABLE => i32 n
  end.

Definition __rte_ring_sc_do_dequeue (n : Z) (behavior : rte_ring_queue_behavior) :
    prog dstate Z :=
  mask ← on_ring (gets p_mask);
  cons_head ← on_ring (gets c_head);
  prod_tail ← on_ring (gets p_tail);
  let entries := u32 (prod_tail - cons_head) in
  match clip n entries behavior ENOENT with
  | inl ret => mret ret
  | inr n =>
      let cons_next := u32 (cons_head + n) in
      on_ring (modS (λ r, set_cons cons_next (c_tail r) r));;
      DEQUEUE_PTRS cons_head mask n;;
      on_ring (modS (λ r, set_cons (c_head r) cons_next r));;
      mret (dequeue_result n behavior)
  end.

Fixpoint move_cons_head (fuel : nat) (max : Z) (behavior : rte_ring_queue_behavior) :
    prog rte_ring (Z + Z * Z) :=
  match fuel with
  | O => out_of_fuel
  | S fuel =>
      cons_head ← gets c_head;
      prod_tail ← gets p_tail;
      let entries := u32 (prod_tail - cons_head) in
      match clip max entries behavior ENOENT with
      | inl ret => mret (inl ret)
      | inr n =>
          success ← rte_atomic32_cmpset_cons cons_head (u32 (cons_head + n));
          if (success : bool) then mret (inr (cons_head, n))
          else move_cons_head fuel max behavior
      end
  end.

Fixpoint wait_cons_tail (fuel : nat) (cons_head : Z) : prog rte_ring unit :=
  match fuel with
  | O => out_of_fuel
  | S fuel =>
      t ← gets c_tail;
      if decide (t ≠ cons_head) then wait_cons_tail fuel cons_head else mret ()
  end.

Definition __rte_ring_mc_do_dequeue (fuel : nat) (n : Z) (behavior : rte_ring_queue_behavior) :
    prog dstate Z :=
  mask ← on_ring (gets p_mask);
  m ← on_ring (move_cons_head fuel n behavior);
  match m with
  | inl ret => mret ret
  | inr (cons_head, n) =>
      DEQUEUE_PTRS cons_head mask n;;
      on_ring (wait_cons_tail fuel cons_head);;
      on_ring (modS (λ r, set_cons (c_head r) (u32 (cons_head + n)) r));;
      mret (dequeue_result n behavior)
  end.
End dequeue.

(** ** The public entry points *)

Definition rte_ring_mp_enqueue_bulk fuel (t : list Z) (n : Z) :=
  __rte_ring_mp_do_enqueue t fuel n RTE_RING_QUEUE_FIXED.
Definition rte_ring_sp_enqueue_bulk (t : list Z) (n : Z) :=
  __rte_ring_sp_do_enqueue t n RTE_RING_QUEUE_FIXED.
Definition rte_ring_enqueue_bulk fuel (t : list Z) (n : Z) : prog rte_ring Z :=
  sp ← gets p_sp_enqueue;
  if decide (sp ≠ 0) then rte_ring_sp_enqueue_bulk t n else rte_ring_mp_enqueue_bulk fuel t n.
Definition rte_ring_mp_enqueue fuel (obj : Z) := rte_ring_mp_enqueue_bulk fuel [obj] 1.
Definition rte_ring_sp_enqueue (obj : Z) := rte_ring_sp_enqueue_bulk [obj] 1.
Definition rte_ring_enqueue fuel (obj : Z) : prog rte_ring Z :=
  sp ← gets p_sp_enqueue;
  if decide (sp ≠ 0) then rte_ring_sp_enqueue obj else rte_ring_mp_enqueue fuel obj.

Definition rte_ring_mc_dequeue_bulk fuel (n : Z) :=
  __rte_ring_mc_do_dequeue fuel n RTE_RING_QUEUE_FIXED.
Definition rte_ring_sc_dequeue_bulk (n : Z) :=
  __rte_ring_sc_do_dequeue n RTE_RING_QUEUE_FIXED.
Definition rte_ring_dequeue_bulk fuel (n : Z) :=
  sc ← on_ring (gets c_sc_dequeue);
  if decide (sc ≠ 0) then rte_ring_sc_dequeue_bulk n else rte_ring_mc_dequeue_bulk fuel n.
Definition rte_ring_mc_dequeue fuel := rte_ring_mc_dequeue_bulk fuel 1.
Definition rte_ring_sc_dequeue := rte_ring_sc_dequeue_bulk 1.
Definition rte_ring_dequeue fuel :=
  sc ← on_ring (gets c_sc_dequeue);
  if decide (sc ≠ 0) then rte_ring_sc_dequeue else rte_ring_mc_dequeue fuel.

Definition rte_ring_mp_enqueue_burst fuel (t : list Z) (n : Z) :=
  __rte_ring_mp_do_enqueue t fuel n RTE_RING_QUEUE_VARIABLE.
Definition rte_ring_sp_enqueue_burst (t : list Z) (n : Z) :=
  __rte_ring_sp_do_enqueue t n RTE_RING_QUEUE_VARIABLE.
Definition rte_ring_enqueue_burst fuel (t : list Z) (n : Z) : prog rte_ring Z :=
  sp ← gets p_sp_enqueue;
  if decide (sp ≠ 0) then rte_ring_sp_enqueue_burst t n else rte_ring_mp_enqueue_burst fuel t n.
Definition rte_ring_mc_dequeue_burst fuel (n : Z) :=
  __rte_ring_mc_do_dequeue fuel n RTE_RING_QUEUE_VARIABLE.
Definition rte_ring_sc_dequeue_burst (n : Z) :=
  __rte_ring_sc_do_dequeue n RTE_RING_QUEUE_VARIABLE.
Definition rte_ring_dequeue_burst fuel (n : Z) :=
  sc ← on_ring (gets c_sc_dequeue);
  if decide (sc ≠ 0) then rte_ring_sc_dequeue_burst n else rte_ring_mc_dequeue_burst fuel n.

Definition rte_ring_full (r : rte_ring) : bool :=
  bool_decide (Z.land (u32 (c_tail r - p_tail r - 1)) (p_mask r) = 0).
Definition rte_ring_empty (r : rte_ring) : bool := bool_decide (c_tail r = p_tail r).
Definition rte_ring_count (r : rte_ring) : Z := Z.land (u32 (p_tail r - c_tail r)) (p_mask r).
Definition rte_ring_free_count (r : rte_ring) : Z :=
  Z.land (u32 (c_tail r - p_tail r - 1)) (p_mask r).

(** ** What the ring represents

    [Rep k r q]: a ring of [2^k] slots with no operation in progress holds the
    objects [q], oldest first, from the consumer's tail on. *)
Record Rep (k : Z) (r : rte_ring) (q : list Z) : Prop := {
  rep_k : 0 ≤ k ≤ 28;
  rep_psize : p_size r = 2 ^ k;
  rep_csize : c_size r = 2 ^ k;
  rep_pmask : p_mask r = 2 ^ k - 1;
  rep_slots : zlength (ring r) = 2 ^ k;
  rep_ptail : p_tail r = p_head r;
  rep_ctail : c_tail r = c_head r;
  rep_chead : 0 ≤ c_head r < 4294967296;
  rep_phead : p_head r = u32 (c_head r + zlength q);
  rep_cap : zlength q < 2 ^ k;
  rep_obj i o : zlookup q i = Some o →
    zlookup (ring r) ((c_head r + i) mod 2 ^ k) = Some (Some o);
}.

(** The objects moved and the result, given the room or the entries there are. *)
Definition moved (n room : Z) (behavior : rte_ring_queue_behavior) : Z :=
  if decide (n ≤ room) then n else
  match behavior with RTE_RING_QUEUE_FIXED => 0 | RTE_RING_QUEUE_VARIABLE => room end.

(** ** The copy loops *)

Section copy_facts.
Context {S : Type} (cp : Z → Z → prog S unit).

(** The reference: one object at a time, the slot taken modulo the size. *)
Fixpoint ring_copy (size head : Z) (m : nat) (i : Z) : prog S unit :=
  match m with
  | O => mret ()
  | Datatypes.S m => cp ((head + i) mod size) i;; ring_copy size head m (i + 1)
  end.

(** A run over consecutive slots. *)
Fixpoint line_copy (m : nat) (i idx : Z) : prog S unit :=
  match m with
  | O => mret ()
  | Datatypes.S m => cp idx i;; line_copy m (i + 1) (idx + 1)
  end.

Lemma line_copy_app a b i idx :
  line_copy (a + b) i idx ≡ (line_copy a i idx;; line_copy b (i + Z.of_nat a) (idx + Z.of_nat a)).
Proof.
  revert i idx. induction a as [|a IH]; intros i idx; cbn [line_copy Nat.add].
  - rewrite prog_ret_bind. by rewrite !Z.add_0_r.
  - rewrite prog_assoc. apply prog_bind_ext; intros _. rewrite IH.
    by replace (i + 1 + Z.of_nat a) with (i + Z.of_nat (Datatypes.S a)) by lia;
      replace (idx + 1 + Z.of_nat a) with (idx + Z.of_nat (Datatypes.S a)) by lia.
Qed.

Lemma ring_copy_app size head a b i :
  ring_copy size head (a + b) i ≡
  (ring_copy size head a i;; ring_copy size head b (i + Z.of_nat a)).
Proof.
  revert i. induction a as [|a IH]; intros i; cbn [ring_copy Nat.add].
  - rewrite prog_ret_bind. by rewrite Z.add_0_r.
  - rewrite prog_assoc. apply prog_bind_ext; intros _. rewrite IH.
    by replace (i + 1 + Z.of_nat a) with (i + Z.of_nat (Datatypes.S a)) by lia.
Qed.

(** Within one lap of the ring a run is consecutive. *)
Lemma ring_copy_line size head m i idx :
  0 ≤ idx → idx + Z.of_nat m ≤ size → (head + i) mod size = idx mod size →
  ring_copy size head m i ≡ line_copy m i idx.
Proof.
  revert i idx. induction m as [|m IH]; intros i idx H0 Hm Heq; [done|].
  cbn [ring_copy line_copy]. rewrite Heq, (Z.mod_small idx) by lia.
  apply prog_bind_ext; intros _. apply IH; [lia..|].
  rewrite Z.add_assoc, <-Zplus_mod_idemp_l, Heq. apply Zplus_mod_idemp_l.
Qed.

Lemma copy_block_line m fuel i idx :
  (m < fuel)%nat → 0 ≤ i → 0 ≤ idx →
  i + 4 * Z.of_nat m < 4294967296 → idx + 4 * Z.of_nat m < 4294967296 →
  copy_block cp fuel (i + 4 * Z.of_nat m) i idx ≡
  (line_copy (4 * m) i idx;; mret (i + 4 * Z.of_nat m, idx + 4 * Z.of_nat m)).
Proof.
  revert fuel i idx. induction m as [|m IH]; intros [|fuel] i idx Hf Hi Hidx Hi' Hidx'; try lia.
  - cbn. rewrite decide_False by lia. by rewrite prog_ret_bind, !Z.add_0_r.
  - cbn [copy_block]. rewrite decide_True by lia. rewrite !u32_small by lia.
    replace (4 * Datatypes.S m)%nat with (4 + 4 * m)%nat by lia.
    rewrite line_copy_app. cbn [line_copy]. rewrite !prog_assoc.
    do 4 (apply prog_bind_ext; intros _;
          rewrite ?prog_assoc, <-?Z.add_assoc; cbn [Z.add Pos.add Pos.succ]).
    rewrite prog_ret_bind.
    replace (i + 4 * Z.of_nat (Datatypes.S m)) with (i + 4 + 4 * Z.of_nat m) by lia.
    replace (idx + 4 * Z.of_nat (Datatypes.S m)) with (idx + 4 + 4 * Z.of_nat m) by lia.
    apply IH; lia.
Qed.

Lemma copy_switch_line m i idx :
  0 ≤ i → 0 ≤ idx → i + Z.of_nat m < 4294967296 → idx + Z.of_nat m < 4294967296 →
  copy_switch cp m i idx ≡ line_copy m i idx.
Proof.
  revert i idx. induction m as [|m IH]; intros i idx ????; [done|].
  cbn [copy_switch line_copy]. rewrite !u32_small by lia.
  apply prog_bind_ext; intros _. apply IH; lia.
Qed.

Lemma copy_to_end_line m fuel i idx :
  (m < fuel)%nat → 0 ≤ i → 0 ≤ idx →
  i + Z.of_nat m < 4294967296 → idx + Z.of_nat m < 4294967296 →
  copy_to_end cp fuel (idx + Z.of_nat m) i idx ≡ (line_copy m i idx;; mret (i + Z.of_nat m)).
Proof.
  revert fuel i idx. induction m as [|m IH]; intros [|fuel] i idx Hf Hi Hidx Hi' Hidx'; try lia.
  - cbn. rewrite decide_False by lia. by rewrite prog_ret_bind, Z.add_0_r.
  - cbn [copy_to_end line_copy]. rewrite decide_True by lia. rewrite !u32_small by lia.
    rewrite prog_assoc. apply prog_bind_ext; intros _.
    replace (idx + Z.of_nat (Datatypes.S m)) with (idx + 1 + Z.of_nat m) by lia.
    replace (i + Z.of_nat (Datatypes.S m)) with (i + 1 + Z.of_nat m) by lia.
    apply IH; lia.
Qed.

Lemma copy_rest_line m fuel i idx :
  (m < fuel)%nat → 0 ≤ i → 0 ≤ idx →
  i + Z.of_nat m < 4294967296 → idx + Z.of_nat m < 4294967296 →
  copy_rest cp fuel (i + Z.of_nat m) i idx ≡ line_copy m i idx.
Proof.
  revert fuel i idx. induction m as [|m IH]; intros [|fuel] i idx Hf Hi Hidx Hi' Hidx'; try lia.
  - cbn. by rewrite decide_False by lia.
  - cbn [copy_rest line_copy]. rewrite decide_True by lia. rewrite !u32_small by lia.
    apply prog_bind_ext; intros _.
    replace (i + Z.of_nat (Datatypes.S m)) with (i + 1 + Z.of_nat m) by lia.
    apply IH; lia.
Qed.
End copy_facts.

Lemma land_3 n : Z.land n 3 = n mod 4.
Proof. apply (Z.land_ones n 2). lia. Qed.

(** [n & ~3] rounds down to a multiple of four. *)
Lemma land_not_3 n : 0 ≤ n < 4294967296 → Z.land n (Z.lxor 3 U32_MAX) = 4 * (n / 4).
Proof.
  intros Hn. change (Z.lxor 3 U32_MAX) with (Z.shiftl (Z.ones 30) 2).
  transitivity (Z.shiftl (Z.shiftr n 2) 2).
  - apply Z.bits_inj'. intros b Hb. rewrite Z.land_spec.
    rewrite !Z.shiftl_spec, Z.testbit_ones by lia.
    destruct (decide (b < 2)) as [|].
    { rewrite (Z.testbit_neg_r _ (b - 2)) by lia.
      rewrite bool_decide_eq_false_2 || idtac.
      replace (0 <=? b - 2) with false by (symmetry; apply Z.leb_gt; lia).
      by rewrite andb_false_r. }
    rewrite Z.shiftr_spec by lia. replace (b - 2 + 2) with b by lia.
    replace (0 <=? b - 2) with true by (symmetry; apply Z.leb_le; lia).
    destruct (decide (b < 32)).
    + replace (b - 2 <? 30) with true by (symmetry; apply Z.ltb_lt; lia). by rewrite andb_true_r.
    + rewrite <-(Z.mod_small n (2 ^ 32)) by (change (2 ^ 32) with 4294967296; lia). by rewrite Z.mod_pow2_bits_high by lia.
  - rewrite Z.shiftl_mul_pow2, Z.shiftr_div_pow2 by lia. change (2 ^ 2) with 4. lia.
Qed.

Lemma land_mask x k : 0 ≤ k → Z.land x (2 ^ k - 1) = x mod 2 ^ k.
Proof. intros. rewrite <-Z.land_ones by done. by rewrite Z.ones_equiv, Z.sub_1_r. Qed.

Lemma pow2_bound k : 0 ≤ k ≤ 28 → 1 ≤ 2 ^ k ≤ 268435456.
Proof.
  intros. split; [apply (Z.pow_le_mono_r 2 0 k); lia|].
  apply (Z.pow_le_mono_r 2 k 28); lia.
Qed.

Section copy_correct.
Context {S : Type} (cp : Z → Z → prog S unit).

(** The macro with its unrolled loop, its fall-through switch and its split at
    the end of the table copies objects [0 .. n-1] to or from consecutive
    slots modulo the size, whatever the assignment does. *)
Lemma copy_ptrs_ring k head n :
  0 ≤ k ≤ 28 → 0 ≤ n < 2 ^ k →
  copy_ptrs cp (2 ^ k) head (2 ^ k - 1) n ≡ ring_copy cp (2 ^ k) head (Z.to_nat n) 0.
Proof.
  intros Hk Hn. pose proof (pow2_bound k Hk). unfold copy_ptrs.
  rewrite land_mask by lia. set (idx := head mod 2 ^ k).
  assert (0 ≤ idx < 2 ^ k) by (apply Z.mod_pos_bound; lia).
  rewrite u32_small by lia. case_decide.
  - rewrite land_3, land_not_3 by lia.
    pose proof (Z.div_mod n 4 ltac:(lia)). pose proof (Z.mod_pos_bound n 4 ltac:(lia)).
    set (m := Z.to_nat (n / 4)).
    assert (Z.of_nat m = n / 4) as Hm by (apply Z2Nat.id, Z.div_pos; lia).
    assert (4 * (n / 4) = 0 + 4 * Z.of_nat m) as -> by lia.
    rewrite copy_block_line by lia. rewrite prog_then_ret. cbn [fst snd].
    replace (Z.to_nat n) with (4 * m + Z.to_nat (n mod 4))%nat by
      lia.
    rewrite (ring_copy_line cp _ _ _ 0 idx); [|lia|lia|].
    + rewrite line_copy_app. apply prog_bind_ext; intros _.
      rewrite copy_switch_line by lia.
      by replace (Z.of_nat (4 * m)) with (4 * Z.of_nat m) by lia.
    + subst idx. by rewrite Z.add_0_r, Z.mod_mod by lia.
  - set (m := Z.to_nat (2 ^ k - idx)).
    assert (2 ^ k = idx + Z.of_nat m) as Hsz by (subst m; lia).
    rewrite Hsz at 2. rewrite copy_to_end_line by lia.
    rewrite prog_then_ret. replace (Z.to_nat n) with (m + (Z.to_nat n - m))%nat by lia.
    rewrite ring_copy_app.
    rewrite (ring_copy_line cp _ _ m 0 idx); [|lia|lia|].
    2: { subst idx. by rewrite Z.add_0_r, Z.mod_mod by lia. }
    apply prog_bind_ext; intros _.
    replace n with (0 + Z.of_nat m + Z.of_nat (Z.to_nat n - m)) at 2 by lia.
    rewrite copy_rest_line by lia.
    rewrite (ring_copy_line cp _ _ _ _ 0); [done|lia|lia|].
    subst idx. rewrite Z.mod_0_l by lia.
    rewrite <-Zplus_mod_idemp_l.
    replace (head mod 2 ^ k + (0 + Z.of_nat m)) with (1 * 2 ^ k) by lia.
    rewrite Z.mod_mul; lia.
Qed.
End copy_correct.

(** The slot that holds the [d]-th object from [head] on, and back. *)
Lemma slot_dist size head j d :
  0 < size → 0 ≤ j < size → 0 ≤ d < size →
  (head + d) mod size = j ↔ (j - head) mod size = d.
Proof.
  intros Hs Hj Hd. split; intros <-.
  - rewrite Zminus_mod_idemp_l. replace (head + d - head) with d by lia. by apply Z.mod_small.
  - rewrite Zplus_mod_idemp_r. replace (head + (j - head)) with j by lia. by apply Z.mod_small.
Qed.

Lemma put_run tbl idx i r :
  0 ≤ i < zlength tbl → 0 ≤ idx < zlength (ring r) →
  put tbl idx i r = Done ((), set_ring (zinsert idx (zlookup tbl i) (ring r)) r).
Proof.
  intros Hi Hidx. destruct (zlookup_lt_is_Some tbl i Hi) as [o Ho].
  unfold put, modO. rewrite Ho. cbn. by rewrite zupdate_Some.
Qed.

(** What enqueuing writes: the slots at distance [i .. i+m-1] from the head
    receive objects [i .. i+m-1], the others keep their value. *)
Lemma ring_copy_put tbl size head m i r :
  0 < size → zlength (ring r) = size → 0 ≤ i → i + Z.of_nat m ≤ size →
  i + Z.of_nat m ≤ zlength tbl →
  ∃ l, ring_copy (put tbl) size head m i r = Done ((), set_ring l r) ∧ zlength l = size ∧
    ∀ j, 0 ≤ j < size → let d := (j - head) mod size in
      zlookup l j = if decide (i ≤ d < i + Z.of_nat m) then Some (zlookup tbl d)
                    else zlookup (ring r) j.
Proof.
  intros Hs. revert i r. induction m as [|m IH]; intros i r Hr Hi Him Htbl.
  { exists (ring r). split; [by destruct r|]. split; [done|].
    intros j Hj d. by rewrite decide_False by lia. }
  cbn [ring_copy]. pose proof (Z.mod_pos_bound (head + i) size Hs).
  erewrite bind_Done by (apply put_run; lia).
  set (l1 := zinsert _ _ _).
  destruct (IH (i + 1) (set_ring l1 r)) as (l & Hrun & Hlen & Hl); [|lia..|].
  { cbn. unfold l1. by rewrite zlength_insert. }
  exists l. split; [rewrite Hrun; by destruct r|]. split; [done|].
  intros j Hj. set (d := (j - head) mod size). rewrite Hl by done. fold d. cbn [ring set_ring].
  assert (0 ≤ d < size) by (apply Z.mod_pos_bound; lia).
  pose proof (slot_dist size head j i Hs Hj ltac:(lia)) as Hslot. fold d in Hslot.
  destruct (decide (d = i)) as [Hdi|Hdi].
  - rewrite decide_False, decide_True by lia. unfold l1. apply Hslot in Hdi as Hj'.
    rewrite Hj'. rewrite zlookup_insert_eq by lia. by rewrite Hdi.
  - unfold l1. rewrite zlookup_insert_ne by (intros ?%Hslot; lia).
    destruct (decide (i + 1 ≤ d < i + 1 + Z.of_nat m)).
    + by rewrite decide_True by lia.
    + by rewrite decide_False by lia.
Qed.

(** What dequeuing reads: cells [i .. i+m-1] of the caller's table receive the
    slots at those distances from the head. *)
Lemma ring_copy_take size head m i r t :
  0 < size → zlength (ring r) = size → 0 ≤ i → i + Z.of_nat m ≤ zlength t →
  ∃ t', ring_copy take_out size head m i (r, t) = Done ((), (r, t')) ∧
    zlength t' = zlength t ∧
    ∀ j, zlookup t' j = if decide (i ≤ j < i + Z.of_nat m) then zlookup (ring r) ((head + j) mod size)
                        else zlookup t j.
Proof.
  intros Hs Hr. revert i t. induction m as [|m IH]; intros i t Hi Him.
  { exists t. split_and!; try done. intros j. by rewrite decide_False by lia. }
  cbn [ring_copy]. pose proof (Z.mod_pos_bound (head + i) size Hs).
  destruct (zlookup_lt_is_Some (ring r) ((head + i) mod size)) as [o Ho]; [lia|].
  erewrite bind_Done.
  2: { unfold take_out, modO. cbn [fst snd]. rewrite Ho. cbn. rewrite zupdate_Some by lia. done. }
  destruct (IH (i + 1) (zinsert i o t)) as (t' & Hrun & Hlen & Ht'); [lia|rewrite zlength_insert; lia|].
  exists t'. split; [done|]. rewrite zlength_insert in Hlen. split; [done|].
  intros j. rewrite Ht'. destruct (decide (j = i)) as [->|].
  - rewrite decide_False, decide_True by lia. rewrite zlookup_insert_eq by lia. by rewrite Ho.
  - rewrite zlookup_insert_ne by done.
    destruct (decide (i + 1 ≤ j < i + 1 + Z.of_nat m)).
    + by rewrite decide_True by lia.
    + by rewrite decide_False by lia.
Qed.

(** ** Sequential refinement: the ring is a bounded queue *)

Section rep.
Context (k : Z) (r : rte_ring) (q : list Z) (HR : Rep k r q).

Lemma ring_size : 1 ≤ 2 ^ k ≤ 268435456.
Proof. apply pow2_bound, HR. Qed.

Lemma ring_len : 0 ≤ zlength q < 2 ^ k.
Proof. split; [apply zlength_nonneg|apply HR]. Qed.

(** The slot of the [i]-th object counted from the consumer's tail, and the
    distance of a slot from the producer's head. *)
Lemma phead_mod i : (p_head r + i) mod 2 ^ k = (c_head r + (zlength q + i)) mod 2 ^ k.
Proof.
  destruct HR. rewrite rep_phead0, <-Zplus_mod_idemp_l, u32_mod_pow2, Zplus_mod_idemp_l by lia.
  f_equal. lia.
Qed.

Lemma free_entries_eq : u32 (p_mask r + c_tail r - p_head r) = 2 ^ k - 1 - zlength q.
Proof.
  pose proof ring_size. pose proof ring_len. destruct HR.
  rewrite rep_phead0, u32_sub_r, rep_pmask0, rep_ctail0.
  rewrite u32_small; lia.
Qed.

Lemma entries_eq : u32 (p_tail r - c_head r) = zlength q.
Proof.
  pose proof ring_size. pose proof ring_len. destruct HR.
  rewrite rep_ptail0, rep_phead0, u32_sub_l. rewrite u32_small; lia.
Qed.
End rep.

(** The two early returns of the room check, and the number it lets through. *)
Lemma clip_cases n room behavior err : 0 ≤ n → 0 ≤ room →
  let m := moved n room behavior in
  (clip n room behavior err = inr m ∧ 0 ≤ m ≤ room ∧
    (n ≤ room ∧ m = n ∨ room < n ∧ 0 < room ∧ m = room ∧ behavior = RTE_RING_QUEUE_VARIABLE)) ∨
  (room < n ∧ m = 0 ∧
    (behavior = RTE_RING_QUEUE_FIXED ∧ clip n room behavior err = inl (- err) ∨
     behavior = RTE_RING_QUEUE_VARIABLE ∧ room = 0 ∧ clip n room behavior err = inl 0)).
Proof.
  intros Hn Hroom m. unfold m, clip, moved.
  destruct behavior; repeat case_decide; try lia; intuition lia.
Qed.

(** The result of enqueuing [n] objects on a ring of capacity [cap] that holds
    [used]. *)
Definition enqueue_ret (used n cap wm : Z) (behavior : rte_ring_queue_behavior) : Z :=
  let room := cap - used in
  match behavior with
  | RTE_RING_QUEUE_FIXED =>
      if decide (room < n) then - ENOBUFS else if decide (used + n < wm) then 0 else - EDQUOT
  | RTE_RING_QUEUE_VARIABLE =>
      let m := Z.min n room in
      if decide (room = 0 ∧ 0 < n) then 0 else
      if decide (used + m < wm) then m else m - 2147483648
  end.

(** What the comments of rte_ring.h say that they return: -EDQUOT when the high
    water mark is exceeded; the number of objects enqueued. *)
Definition documented_ret (used n cap wm : Z) (behavior : rte_ring_queue_behavior) : Z :=
  let room := cap - used in
  match behavior with
  | RTE_RING_QUEUE_FIXED =>
      if decide (room < n) then - ENOBUFS else if decide (used + n ≤ wm) then 0 else - EDQUOT
  | RTE_RING_QUEUE_VARIABLE => Z.min n room
  end.
(** Where the code does what the comments say. *)
Definition as_documented (used n cap wm : Z) (behavior : rte_ring_queue_behavior) : Prop :=
  match behavior with
  | RTE_RING_QUEUE_FIXED => cap - used < n ∨ used + n ≠ wm
  | RTE_RING_QUEUE_VARIABLE => cap = used ∧ 0 < n ∨ used + Z.min n (cap - used) < wm
  end.
Lemma documented_iff used n cap wm behavior :
  used ≤ cap → 0 ≤ n → enqueue_ret used n cap wm behavior = documented_ret used n cap wm behavior ↔ as_documented used n cap wm behavior.
Proof.
  intros Hu Hn. unfold enqueue_ret, documented_ret, as_documented. cbv zeta. unfold ENOBUFS, EDQUOT.
  destruct behavior; repeat case_decide; lia.
Qed.

Definition dequeue_ret (used n : Z) (behavior : rte_ring_queue_behavior) : Z :=
  match behavior with
  | RTE_RING_QUEUE_FIXED => if decide (used < n) then - ENOENT else 0
  | RTE_RING_QUEUE_VARIABLE => Z.min n used
  end.

Lemma lor_quot m : 0 ≤ m < 2147483648 → i32 (Z.lor m RTE_RING_QUOT_EXCEED) = m - 2147483648.
Proof.
  intros Hm. rewrite <-Z.add_nocarry_lor.
  - unfold i32, RTE_RING_QUOT_EXCEED. rewrite u32_small by lia. rewrite decide_False; lia.
  - apply Z.bits_inj'. intros b Hb. rewrite Z.land_spec, Z.bits_0.
    change RTE_RING_QUOT_EXCEED with (2 ^ 31). rewrite Z.pow2_bits_eqb by lia.
    destruct (Z.eqb_spec 31 b) as [<-|]; [|apply andb_false_r].
    rewrite <-(Z.mod_small m (2 ^ 31)) by (change (2 ^ 31) with 2147483648; lia).
    by rewrite Z.mod_pow2_bits_high by lia.
Qed.

(** The fields that only creation and [rte_ring_set_water_mark] write. *)
Definition same_config (r r' : rte_ring) : Prop :=
  flags r' = flags r ∧ p_watermark r' = p_watermark r ∧
  p_sp_enqueue r' = p_sp_enqueue r ∧ c_sc_dequeue r' = c_sc_dequeue r.

(** The ring after [m] objects of the table have been written and published. *)
Lemma Rep_enqueue k r q tbl m l :
  Rep k r q → 0 ≤ m ≤ 2 ^ k - 1 - zlength q → m ≤ zlength tbl → zlength l = 2 ^ k →
  (∀ j, 0 ≤ j < 2 ^ k → let d := (j - p_head r) mod 2 ^ k in
    zlookup l j = if decide (0 ≤ d < m) then Some (zlookup tbl d) else zlookup (ring r) j) →
  Rep k (set_prod (u32 (p_head r + m)) (u32 (p_head r + m)) (set_ring l r))
    (q ++ take (Z.to_nat m) tbl).
Proof.
  intros HR Hm Htbl Hlen Hl. pose proof (ring_size k r q HR). pose proof (ring_len k r q HR).
  assert (zlength (q ++ take (Z.to_nat m) tbl) = zlength q + m) as Hlq.
  { rewrite zlength_app, zlength_take; lia. }
  pose proof (λ i, phead_mod k r q HR i) as Hph. destruct HR.
  split; cbn; rewrite ?Hlq; try done; try lia.
  - rewrite rep_phead0, u32_add_l. f_equal. lia.
  - intros i o Hi. pose proof (zlookup_lt_Some _ _ _ Hi) as Hilt. rewrite Hlq in Hilt.
    set (j := (c_head r + i) mod 2 ^ k).
    assert (0 ≤ j < 2 ^ k) by (apply Z.mod_pos_bound; lia).
    rewrite Hl by done. rewrite zlookup_app in Hi. case_decide.
    + assert ((j - p_head r) mod 2 ^ k = 2 ^ k + i - zlength q) as ->.
      { apply (slot_dist (2 ^ k) (p_head r)); [lia..|]. rewrite Hph.
        replace (c_head r + (zlength q + (2 ^ k + i - zlength q)))
          with (c_head r + i + 1 * 2 ^ k) by lia. apply Z_mod_plus_full. }
      rewrite decide_False by lia. by apply rep_obj0.
    + assert ((j - p_head r) mod 2 ^ k = i - zlength q) as ->.
      { apply (slot_dist (2 ^ k) (p_head r)); [lia..|]. rewrite Hph. subst j. f_equal. lia. }
      rewrite zlookup_take, decide_True in Hi by lia. rewrite decide_True by lia. by f_equal.
Qed.

Lemma enqueue_ptrs_run k r q tbl m :
  Rep k r q → 0 ≤ m ≤ 2 ^ k - 1 - zlength q → m ≤ zlength tbl →
  ∃ l, ENQUEUE_PTRS tbl (p_head r) (p_mask r) m (set_prod (u32 (p_head r + m)) (p_tail r) r)
       = Done ((), set_prod (u32 (p_head r + m)) (p_tail r) (set_ring l r)) ∧
    Rep k (set_prod (u32 (p_head r + m)) (u32 (p_head r + m)) (set_ring l r))
      (q ++ take (Z.to_nat m) tbl).
Proof.
  intros HR Hm Htbl. pose proof (ring_size k r q HR). pose proof (ring_len k r q HR).
  unfold ENQUEUE_PTRS. rewrite gets_bind. cbn [p_size set_prod].
  rewrite (rep_psize k r q HR), (rep_pmask k r q HR).
  rewrite (prog_run _ _ (copy_ptrs_ring _ k _ m (rep_k k r q HR) ltac:(lia))).
  destruct (ring_copy_put tbl (2 ^ k) (p_head r) (Z.to_nat m) 0
    (set_prod (u32 (p_head r + m)) (p_tail r) r)) as (l & Hrun & Hlen & Hl);
    [lia|apply HR|lia..|].
  exists l. split; [by rewrite Hrun; destruct r|].
  apply Rep_enqueue; [done..|]. intros j Hj. rewrite Hl by done.
  by rewrite Z.add_0_l, Z2Nat.id by lia.
Qed.

Lemma enqueue_result_ret k r q n m behavior :
  Rep k r q → 0 ≤ n →
  (n ≤ 2 ^ k - 1 - zlength q ∧ m = n ∨
   2 ^ k - 1 - zlength q < n ∧ 0 < 2 ^ k - 1 - zlength q ∧ m = 2 ^ k - 1 - zlength q ∧
   behavior = RTE_RING_QUEUE_VARIABLE) →
  enqueue_result m (2 ^ k - 1 - zlength q) (p_mask r) behavior (p_watermark r) =
  enqueue_ret (zlength q) n (2 ^ k - 1) (p_watermark r) behavior.
Proof.
  intros HR Hn Hm. pose proof (ring_size k r q HR). pose proof (ring_len k r q HR).
  rewrite (rep_pmask k r q HR). unfold enqueue_result, enqueue_ret.
  rewrite u32_small by lia.
  destruct behavior; [destruct Hm as [[]|(_ & _ & _ & [=])]; repeat case_decide; lia|].
  rewrite (decide_False (P := _ ∧ _)) by lia. replace (Z.min n _) with m by lia.
  rewrite lor_quot by lia. repeat case_decide; try lia. apply i32_small. lia.
Qed.

Definition enqueue_spec (tbl : list Z) (n : Z) (behavior : rte_ring_queue_behavior)
    (op : prog rte_ring Z) : Prop :=
  ∀ k r q, Rep k r q → 0 ≤ n < 4294967296 →
  let m := moved n (2 ^ k - 1 - zlength q) behavior in
  m ≤ zlength tbl →
  ∃ r', op r = Done (enqueue_ret (zlength q) n (2 ^ k - 1) (p_watermark r) behavior, r') ∧
    Rep k r' (q ++ take (Z.to_nat m) tbl) ∧ same_config r r'.

Lemma sp_do_enqueue_run tbl n behavior : enqueue_spec tbl n behavior (__rte_ring_sp_do_enqueue tbl n behavior).
Proof.
  intros k r q HR Hn m Htbl. pose proof (ring_size k r q HR). pose proof (ring_len k r q HR).
  unfold __rte_ring_sp_do_enqueue. rewrite !gets_bind, (free_entries_eq k r q HR).
  destruct (clip_cases n (2 ^ k - 1 - zlength q) behavior ENOBUFS) as
    [(-> & Hm & Hcase)|(Hlt & Hm & Hcase)]; [lia..| |]; fold m in Hm.
  - fold m in Hcase |- *. rewrite modS_bind. cbn [p_head set_prod].
    destruct (enqueue_ptrs_run k r q tbl m) as (l & Hrun & HR'); [done..|].
    rewrite (bind_Done _ _ _ _ _ Hrun), gets_bind, modS_bind. cbn.
    rewrite (enqueue_result_ret k r q n m) by (done || lia).
    eexists. split; [done|]. by split.
  - exists r. rewrite Hm, app_nil_r. split; [|by split].
    unfold enqueue_ret. destruct Hcase as [[-> ->]|(-> & Hroom & ->)].
    + by rewrite decide_True by lia.
    + by rewrite decide_True by lia.
Qed.

(** The first compare-and-swap succeeds when nobody interferes. *)
Lemma move_prod_head_first fuel mask max behavior r :
  let free_entries := u32 (mask + c_tail r - p_head r) in
  move_prod_head (S fuel) mask max behavior r =
  match clip max free_entries behavior ENOBUFS with
  | inl ret => Done (inl ret, r)
  | inr n => Done (inr (p_head r, free_entries, n),
                   set_prod (u32 (p_head r + n)) (p_tail r) r)
  end.
Proof.
  intros free. cbn [move_prod_head]. rewrite !gets_bind. fold free.
  destruct (clip _ _ _ _); [done|]. unfold rte_atomic32_cmpset_prod.
  unfold mbind, prog_bind, gets. rewrite decide_True by done. done.
Qed.

Lemma wait_prod_tail_first fuel h r :
  p_tail r = h → wait_prod_tail (S fuel) h r = Done ((), r).
Proof. intros H. cbn [wait_prod_tail]. rewrite gets_bind. by rewrite decide_False by (intros Hne; by apply Hne). Qed.

(** With no other producer in progress the compare-and-swap succeeds at once
    and the tail needs no waiting: the multi-producer path computes what the
    single-producer path does. *)
Lemma mp_do_enqueue_run fuel tbl n behavior : (0 < fuel)%nat →
  enqueue_spec tbl n behavior (__rte_ring_mp_do_enqueue tbl fuel n behavior).
Proof.
  intros Hf k r q HR Hn m Htbl. destruct fuel as [|fuel]; [lia|].
  destruct (sp_do_enqueue_run tbl n behavior k r q HR Hn Htbl) as (r' & Hrun & H').
  exists r'. split; [|done]. rewrite <-Hrun. clear Hrun r' H'.
  pose proof (ring_size k r q HR). pose proof (ring_len k r q HR).
  unfold __rte_ring_mp_do_enqueue, __rte_ring_sp_do_enqueue. rewrite !gets_bind.
  pose proof (move_prod_head_first fuel (p_mask r) n behavior r) as Hmove. cbn zeta in Hmove.
  rewrite (free_entries_eq k r q HR) in Hmove |- *.
  destruct (clip_cases n (2 ^ k - 1 - zlength q) behavior ENOBUFS) as
    [(Hclip & Hm & _)|(_ & _ & [[_ Hclip]|(_ & _ & Hclip)])]; [lia..| | |];
    rewrite Hclip in Hmove |- *; rewrite (bind_Done _ _ _ _ _ Hmove); [|done|done].
  fold m in Hm |- *. rewrite modS_bind.
  destruct (enqueue_ptrs_run k r q tbl m) as (l & Hrun & HR'); [done..|].
  rewrite !(bind_Done _ _ _ _ _ Hrun), !gets_bind.
  by erewrite bind_Done by (apply wait_prod_tail_first, HR).
Qed.

(** ** Dequeuing *)

Lemma Rep_dequeue k r q m :
  Rep k r q → 0 ≤ m ≤ zlength q →
  Rep k (set_cons (u32 (c_head r + m)) (u32 (c_head r + m)) r) (drop (Z.to_nat m) q).
Proof.
  intros HR Hm. pose proof (ring_size k r q HR). destruct HR.
  split; cbn; rewrite ?zlength_drop by lia; try done; try lia.
  - apply u32_range.
  - rewrite rep_phead0, u32_add_l. f_equal. lia.
  - intros i o Hi. pose proof (zlookup_lt_Some _ _ _ Hi) as Hilt.
    rewrite zlookup_drop in Hi by lia.
    rewrite <-Zplus_mod_idemp_l, u32_mod_pow2, Zplus_mod_idemp_l, <-Z.add_assoc by lia.
    by apply rep_obj0.
Qed.

Lemma dequeue_ptrs_run k r q t m h :
  Rep k r q → 0 ≤ m ≤ zlength q → m ≤ zlength t →
  DEQUEUE_PTRS (c_head r) (p_mask r) m (set_cons h (c_tail r) r, t) =
  Done ((), (set_cons h (c_tail r) r,
             (Some <$> take (Z.to_nat m) q) ++ drop (Z.to_nat m) t)).
Proof.
  intros HR Hm Ht. pose proof (ring_size k r q HR). pose proof (ring_len k r q HR).
  unfold DEQUEUE_PTRS. erewrite bind_Done by done. cbn [c_size set_cons fst snd].
  rewrite (rep_csize k r q HR), (rep_pmask k r q HR).
  rewrite (prog_run _ _ (copy_ptrs_ring _ k _ m (rep_k k r q HR) ltac:(lia))).
  destruct (ring_copy_take (2 ^ k) (c_head r) (Z.to_nat m) 0
    (set_cons h (c_tail r) r) t) as (t' & Hrun & Hlen & Hl); [lia|apply HR|lia..|].
  rewrite Hrun. do 3 f_equal.
  assert (zlength (Some <$> take (Z.to_nat m) q) = m) as Hlq.
  { rewrite zlength_fmap, zlength_take; lia. }
  apply zlist_ext.
  { rewrite Hlen, zlength_app, Hlq, zlength_drop; lia. }
  intros j Hj. rewrite Hl, zlookup_app, Hlq, Z.add_0_l, Z2Nat.id by lia.
  destruct (decide (j < m)).
  - rewrite decide_True, zlookup_fmap, zlookup_take, decide_True by lia.
    destruct (zlookup_lt_is_Some q j ltac:(lia)) as [o Ho]. rewrite Ho.
    by apply (rep_obj k r q HR).
  - rewrite decide_False, zlookup_drop by lia. f_equal. lia.
Qed.

(** What dequeuing promises: the oldest [m] objects go to the front of the
    caller's table and leave the ring. *)
Definition dequeue_spec (n : Z) (behavior : rte_ring_queue_behavior)
    (op : prog (rte_ring * list (option Z)) Z) : Prop :=
  ∀ k r q t, Rep k r q → 0 ≤ n < 4294967296 →
  let m := moved n (zlength q) behavior in
  m ≤ zlength t →
  ∃ r', op (r, t) = Done (dequeue_ret (zlength q) n behavior,
              (r', (Some <$> take (Z.to_nat m) q) ++ drop (Z.to_nat m) t)) ∧
    Rep k r' (drop (Z.to_nat m) q) ∧ same_config r r'.

Lemma dequeue_result_ret used n m behavior :
  0 ≤ n → 0 ≤ used < 268435456 →
  (n ≤ used ∧ m = n ∨
   used < n ∧ 0 < used ∧ m = used ∧ behavior = RTE_RING_QUEUE_VARIABLE) →
  dequeue_result m behavior = dequeue_ret used n behavior.
Proof.
  intros Hn Hused Hm. unfold dequeue_result, dequeue_ret.
  destruct behavior; [destruct Hm as [[]|(_ & _ & _ & [=])]; repeat case_decide; lia|].
  rewrite i32_small by lia. lia.
Qed.

Lemma on_ring_Done {A} (m : prog rte_ring A) r t a r' :
  m r = Done (a, r') → on_ring m (r, t) = Done (a, (r', t)).
Proof. intros H. unfold on_ring. cbn. by rewrite H. Qed.

Lemma sc_do_dequeue_run n behavior : dequeue_spec n behavior (__rte_ring_sc_do_dequeue n behavior).
Proof.
  intros k r q t HR Hn m Ht. pose proof (ring_size k r q HR). pose proof (ring_len k r q HR).
  unfold __rte_ring_sc_do_dequeue.
  do 3 (erewrite bind_Done by (by apply on_ring_Done)). rewrite (entries_eq k r q HR).
  destruct (clip_cases n (zlength q) behavior ENOENT) as
    [(-> & Hm & Hcase)|(Hlt & Hm & Hcase)]; [lia..| |]; fold m in Hm.
  - fold m in Hcase |- *. erewrite bind_Done by (by apply on_ring_Done).
    rewrite (bind_Done _ _ _ _ _ (dequeue_ptrs_run k r q t m _ HR Hm Ht)).
    erewrite bind_Done by (by apply on_ring_Done).
    rewrite (dequeue_result_ret (zlength q) n m behavior) by (done || lia).
    exists (set_cons (u32 (c_head r + m)) (u32 (c_head r + m)) r).
    split; [done|]. split; [|by split]. by apply Rep_dequeue.
  - exists r. rewrite Hm. split; [|by split].
    unfold dequeue_ret. destruct Hcase as [[-> ->]|(-> & Hroom & ->)].
    + by rewrite decide_True by lia.
    + by rewrite Z.min_r, Hroom by lia.
Qed.

Lemma move_cons_head_first fuel max behavior r :
  let entries := u32 (p_tail r - c_head r) in
  move_cons_head (S fuel) max behavior r =
  match clip max entries behavior ENOENT with
  | inl ret => Done (inl ret, r)
  | inr n => Done (inr (c_head r, n), set_cons (u32 (c_head r + n)) (c_tail r) r)
  end.
Proof.
  intros entries. cbn [move_cons_head]. rewrite !gets_bind. fold entries.
  destruct (clip _ _ _ _); [done|]. unfold rte_atomic32_cmpset_cons.
  unfold mbind, prog_bind, gets. rewrite decide_True by done. done.
Qed.

Lemma wait_cons_tail_first fuel h r :
  c_tail r = h → wait_cons_tail (S fuel) h r = Done ((), r).
Proof. intros H. cbn [wait_cons_tail]. rewrite gets_bind. by rewrite decide_False by (intros Hne; by apply Hne). Qed.

Lemma mc_do_dequeue_run fuel n behavior : (0 < fuel)%nat →
  dequeue_spec n behavior (__rte_ring_mc_do_dequeue fuel n behavior).
Proof.
  intros Hf k r q t HR Hn m Ht. destruct fuel as [|fuel]; [lia|].
  destruct (sc_do_dequeue_run n behavior k r q t HR Hn Ht) as (r' & Hrun & H').
  exists r'. split; [|done]. fold m in Hrun. rewrite <-Hrun. clear Hrun r' H'.
  pose proof (ring_size k r q HR). pose proof (ring_len k r q HR).
  unfold __rte_ring_mc_do_dequeue, __rte_ring_sc_do_dequeue.
  do 4 (erewrite (bind_Done (on_ring (gets _))) by (by apply on_ring_Done)).
  pose proof (move_cons_head_first fuel n behavior r) as Hmove. cbn zeta in Hmove.
  rewrite (entries_eq k r q HR) in Hmove |- *.
  destruct (clip_cases n (zlength q) behavior ENOENT) as
    [(Hclip & Hm & _)|(_ & _ & [[_ Hclip]|(_ & _ & Hclip)])]; [lia..| | |];
    rewrite Hclip in Hmove |- *;
    rewrite (bind_Done _ _ _ _ _ (on_ring_Done _ _ t _ _ Hmove)); [|done|done].
  fold m in Hm |- *. erewrite (bind_Done (on_ring (modS _))) by (by apply on_ring_Done).
  rewrite !(bind_Done _ _ _ _ _ (dequeue_ptrs_run k r q t m _ HR Hm Ht)).
  by erewrite (bind_Done (on_ring (wait_cons_tail _ _)))
    by (apply on_ring_Done, wait_cons_tail_first, HR).
Qed.

(** ** Counters and creation *)

Lemma powerof2_iff x : 0 ≤ x < 4294967296 →
  POWEROF2 x = true ↔ x = 0 ∨ ∃ k, 0 ≤ k ∧ x = 2 ^ k.
Proof.
  intros Hx. unfold POWEROF2. rewrite bool_decide_eq_true.
  destruct (decide (x = 0)) as [->|Hne]; [naive_solver|].
  rewrite u32_small by lia. split.
  - intros Hland. right. exists (Z.log2 x). split; [apply Z.log2_nonneg|].
    pose proof (Z.log2_spec x ltac:(lia)) as [Hlo Hhi]. pose proof (Z.log2_nonneg x).
    destruct (decide (x = 2 ^ Z.log2 x)) as [|Hx2]; [done|]. exfalso.
    assert (Z.log2 (x - 1) = Z.log2 x) as Hlog by (apply Z.log2_unique; lia).
    apply (f_equal (λ y, Z.testbit y (Z.log2 x))) in Hland.
    rewrite Z.land_spec, Z.bits_0, Z.bit_log2 in Hland by lia.
    rewrite <-Hlog, Z.bit_log2 in Hland; [done|].
    assert (1 ≤ 2 ^ Z.log2 x) by (apply (Z.pow_le_mono_r 2 0); lia). lia.
  - intros [->|(k & Hk & ->)]; [done|]. rewrite Z.land_comm, land_mask by done.
    apply Z.mod_same. lia.
Qed.

Lemma rep_created k flags r :
  0 ≤ k → 2 ^ k ≤ RTE_RING_SZ_MASK → rte_ring_create true (2 ^ k) flags = inl r → Rep k r [].
Proof.
  intros Hk Hmax. unfold rte_ring_create. case_match; [done|]. intros [= <-].
  assert (1 ≤ 2 ^ k) by (apply (Z.pow_le_mono_r 2 0); lia).
  unfold RTE_RING_SZ_MASK in Hmax.
  assert (k < 28) by (apply (Z.pow_lt_mono_r_iff 2); [lia..|]; change (2 ^ 28) with 268435456; lia).
  split; cbn; try done; try lia.
  - apply u32_small. lia.
  - unfold zlength. rewrite length_replicate. lia.
  - unfold zlength. cbn. lia.
  - intros i o Hi%zlookup_lt_Some. unfold zlength in Hi. cbn in Hi. lia.
Qed.

Lemma count_land k r q x : Rep k r q → Z.land x (p_mask r) = x mod 2 ^ k.
Proof. intros HR. rewrite (rep_pmask k r q HR). apply land_mask. destruct HR. lia. Qed.

(** ** The public operations *)

(** The dispatching entry points, bulk for a fixed number of objects and burst
    for as many as possible. *)
Definition enqueue_any fuel (tbl : list Z) (n : Z) (behavior : rte_ring_queue_behavior) :=
  match behavior with
  | RTE_RING_QUEUE_FIXED => rte_ring_enqueue_bulk fuel tbl n
  | RTE_RING_QUEUE_VARIABLE => rte_ring_enqueue_burst fuel tbl n
  end.
Definition dequeue_any fuel (n : Z) (behavior : rte_ring_queue_behavior) :=
  match behavior with
  | RTE_RING_QUEUE_FIXED => rte_ring_dequeue_bulk fuel n
  | RTE_RING_QUEUE_VARIABLE => rte_ring_dequeue_burst fuel n
  end.

Lemma enqueue_any_run fuel tbl n behavior : (0 < fuel)%nat →
  enqueue_spec tbl n behavior (enqueue_any fuel tbl n behavior).
Proof.
  intros Hf k r q HR Hn m Htbl. unfold enqueue_any.
  destruct behavior; [unfold rte_ring_enqueue_bulk|unfold rte_ring_enqueue_burst];
    rewrite gets_bind; case_decide;
    (by apply sp_do_enqueue_run) || (by apply mp_do_enqueue_run).
Qed.

Lemma dequeue_any_run fuel n behavior : (0 < fuel)%nat →
  dequeue_spec n behavior (dequeue_any fuel n behavior).
Proof.
  intros Hf k r q t HR Hn m Ht. unfold dequeue_any.
  destruct behavior; [unfold rte_ring_dequeue_bulk|unfold rte_ring_dequeue_burst];
    erewrite bind_Done by (by apply on_ring_Done); case_decide;
    (by apply sc_do_dequeue_run) || (by apply mc_do_dequeue_run).
Qed.

(** A run of calls: what each enqueue is given and how many each dequeue asks
    for, all-or-nothing or best-effort.  Dequeued objects are collected in the
    order they come out, accepted ones in the order they go in. *)
Inductive call :=
  | Enqueue (behavior : rte_ring_queue_behavior) (objs : list Z)
  | Dequeue (behavior : rte_ring_queue_behavior) (n : Z).

(** The number of objects an entry point moved, from its return value. *)
Definition enqueued (behavior : rte_ring_queue_behavior) (n ret : Z) : Z :=
  match behavior with
  | RTE_RING_QUEUE_FIXED => if decide (ret = - ENOBUFS) then 0 else n
  | RTE_RING_QUEUE_VARIABLE => if decide (ret < 0) then ret + 2147483648 else ret
  end.
Definition dequeued (behavior : rte_ring_queue_behavior) (n ret : Z) : Z :=
  match behavior with
  | RTE_RING_QUEUE_FIXED => if decide (ret = - ENOENT) then 0 else n
  | RTE_RING_QUEUE_VARIABLE => ret
  end.

(** A client that runs the calls and keeps the objects accepted and received. *)
Fixpoint run_calls (cs : list call) : prog rte_ring (list Z * list (option Z)) :=
  match cs with
  | [] => mret ([], [])
  | Enqueue b objs :: cs =>
      ret ← enqueue_any 1 objs (zlength objs) b;
      x ← run_calls cs;
      mret (take (Z.to_nat (enqueued b (zlength objs) ret)) objs ++ x.1, x.2)
  | Dequeue b n :: cs =>
      r ← getS;
      match dequeue_any 1 n b (r, replicate (Z.to_nat n) None) with
      | Done (ret, (r', t)) =>
          putS r';;
          x ← run_calls cs;
          mret (x.1, take (Z.to_nat (dequeued b n ret)) t ++ x.2)
      | Undef => undef
      | NoFuel => out_of_fuel
      end
  end.

Definition call_ok (c : call) : Prop :=
  match c with
  | Enqueue _ objs => zlength objs < 4294967296
  | Dequeue _ n => 0 ≤ n < 4294967296
  end.

Lemma enqueued_moved used n cap wm b :
  0 ≤ n → 0 ≤ used ≤ cap → cap < 268435456 →
  enqueued b n (enqueue_ret used n cap wm b) = moved n (cap - used) b.
Proof.
  intros. unfold enqueued, enqueue_ret, moved, ENOBUFS, EDQUOT.
  destruct b; repeat case_decide; lia.
Qed.

Lemma dequeued_moved used n b :
  0 ≤ n → 0 ≤ used → dequeued b n (dequeue_ret used n b) = moved n used b.
Proof.
  intros. unfold dequeued, dequeue_ret, moved, ENOENT. destruct b; repeat case_decide; lia.
Qed.

Lemma moved_bounds n room b : 0 ≤ n → 0 ≤ room → 0 ≤ moved n room b ≤ n ∧ moved n room b ≤ room.
Proof. intros. unfold moved. destruct b; case_decide; lia. Qed.

Lemma run_calls_run k cs r q :
  Forall call_ok cs → Rep k r q →
  ∃ ins outs r' q', run_calls cs r = Done ((ins, Some <$> outs), r') ∧
    Rep k r' q' ∧ q ++ ins = outs ++ q'.
Proof.
  intros Hcs. revert r q. induction Hcs as [|c cs Hc Hcs IH]; intros r q HR.
  { exists [], [], r, q. split; [done|]. split; [done|]. by rewrite app_nil_r. }
  pose proof (ring_size k r q HR). pose proof (ring_len k r q HR).
  destruct c as [b objs|b n]; cbn [run_calls call_ok] in Hc |- *.
  - pose proof (zlength_nonneg objs).
    set (m := moved (zlength objs) (2 ^ k - 1 - zlength q) b).
    pose proof (moved_bounds (zlength objs) (2 ^ k - 1 - zlength q) b ltac:(lia) ltac:(lia)) as [Hm _].
    destruct (enqueue_any_run 1 objs (zlength objs) b ltac:(lia) k r q HR) as (r1 & Hrun & HR1 & _);
      [lia..|].
    destruct (IH r1 _ HR1) as (ins & outs & r' & q' & Hrest & HR' & Heq).
    rewrite (bind_Done _ _ _ _ _ Hrun), (bind_Done _ _ _ _ _ Hrest). cbn [fst snd].
    rewrite enqueued_moved by lia. fold m in Heq |- *.
    exists (take (Z.to_nat m) objs ++ ins), outs, r', q'. split; [done|]. split; [done|].
    by rewrite app_assoc.
  - rewrite getS_bind.
    set (m := moved n (zlength q) b).
    pose proof (moved_bounds n (zlength q) b ltac:(lia) ltac:(lia)) as [Hm Hmq].
    assert (zlength (replicate (Z.to_nat n) (None : option Z)) = n) as Hlen.
    { unfold zlength. rewrite length_replicate. lia. }
    destruct (dequeue_any_run 1 n b ltac:(lia) k r q (replicate (Z.to_nat n) None) HR)
      as (r1 & Hrun & HR1 & _); [lia..|].
    destruct (IH r1 _ HR1) as (ins & outs & r' & q' & Hrest & HR' & Heq).
    rewrite Hrun. rewrite (bind_Done (putS r1) _ _ () r1) by done.
    rewrite (bind_Done _ _ _ _ _ Hrest). cbn [fst snd].
    rewrite dequeued_moved by lia. fold m in Heq, Hm, Hmq |- *.
    exists ins, (take (Z.to_nat m) q ++ outs), r', q'.
    split; [|split; [done|]].
    + rewrite fmap_app. rewrite take_app_length'; [done|].
      rewrite length_fmap, length_take. unfold zlength in Hmq. lia.
    + rewrite <-app_assoc, <-Heq, app_assoc. by rewrite take_drop.
Qed.

(** A ring of four slots holding the objects 10 and 20, whose indices are about
    to wrap around 2^32. *)
Definition demo : rte_ring :=
  MkRing 3 4 1 4 3 0 0 1 4 3 4294967294 4294967294 [None; None; Some 10; Some 20].

Lemma demo_rep : Rep 2 demo [10; 20].
Proof.
  split; try done; try lia. cbn. intros i o Hi.
  pose proof (zlookup_lt_Some _ _ _ Hi) as Hr. change (zlength [10; 20]) with 2 in Hr.
  assert (i = 0 ∨ i = 1) as [-> | ->] by lia; injection Hi as <-; done.
Qed.

(** ** Properties *)

(** The macro [ENQUEUE_PTRS], with its loop unrolled four times, its
    fall-through switch and its split at the end of the table, does what the
    plain loop does that writes object [i] to slot [(prod_head + i) mod size]
    for [i] from 0 to [n - 1], on every ring and every table, out-of-range
    accesses included; and [DEQUEUE_PTRS] does what the plain reading loop
    does. *)
Theorem copy_macros_equivalent k head n tbl r t :
  0 ≤ k ≤ 28 → 0 ≤ n < 2 ^ k → p_size r = 2 ^ k → c_size r = 2 ^ k →
  ENQUEUE_PTRS tbl head (2 ^ k - 1) n r = ring_copy (put tbl) (2 ^ k) head (Z.to_nat n) 0 r ∧
  DEQUEUE_PTRS head (2 ^ k - 1) n (r, t) =
    ring_copy take_out (2 ^ k) head (Z.to_nat n) 0 (r, t).
Proof.
  intros Hk Hn Hp Hc. unfold ENQUEUE_PTRS, DEQUEUE_PTRS. rewrite gets_bind.
  erewrite bind_Done by (by apply on_ring_Done). rewrite Hp, Hc.
  split; apply copy_ptrs_ring; lia.
Qed.

Lemma copy_macros_equivalent_witness :
  ENQUEUE_PTRS [30; 40; 50] 4294967295 (2 ^ 2 - 1) 3 demo =
    ring_copy (put [30; 40; 50]) (2 ^ 2) 4294967295 (Z.to_nat 3) 0 demo ∧
  DEQUEUE_PTRS 4294967295 (2 ^ 2 - 1) 3 (demo, [None; None; None]) =
    ring_copy take_out (2 ^ 2) 4294967295 (Z.to_nat 3) 0 (demo, [None; None; None]).
Proof. apply copy_macros_equivalent; done. Defined.

(** C27: the dispatching enqueue operations, single- or multi-producer, on a
    ring that holds [q] and has no operation in progress: they return, append
    the first [m] objects of the caller's table to the queue, where [m] is [n]
    if there is room, and otherwise 0 (bulk) or the room there is (burst), and
    return -ENOBUFS when there is no room (bulk), -EDQUOT or the number moved
    with bit 31 set when the high water mark is reached, and else 0 or the
    number moved.  That is what the comments of the header say except in two
    cases, where they say that -EDQUOT means the mark is exceeded, and that a
    burst returns the number moved: a bulk call that reaches the mark exactly,
    and a burst that moves something and reaches the mark. *)
Theorem rte_ring_enqueue_spec fuel tbl n behavior k r q :
  (0 < fuel)%nat → Rep k r q → 0 ≤ n < 4294967296 →
  let m := moved n (2 ^ k - 1 - zlength q) behavior in
  m ≤ zlength tbl →
  ∃ r', enqueue_any fuel tbl n behavior r =
      Done (enqueue_ret (zlength q) n (2 ^ k - 1) (p_watermark r) behavior, r') ∧
    Rep k r' (q ++ take (Z.to_nat m) tbl) ∧ same_config r r' ∧
    (enqueue_ret (zlength q) n (2 ^ k - 1) (p_watermark r) behavior = documented_ret (zlength q) n (2 ^ k - 1) (p_watermark r) behavior ↔
     as_documented (zlength q) n (2 ^ k - 1) (p_watermark r) behavior).
Proof.
  intros Hf HR Hn m Hm. destruct (enqueue_any_run fuel tbl n behavior Hf k r q HR Hn Hm) as (r' & Hrun & HR' & Hc).
  exists r'. split; [exact Hrun|]. split; [exact HR'|]. split; [exact Hc|]. apply documented_iff; [|lia]. destruct HR. lia.
Qed.

Lemma rte_ring_enqueue_spec_witness :
  ∃ r', enqueue_any 1 [30; 40] 2 RTE_RING_QUEUE_VARIABLE demo = Done (1, r') ∧
    Rep 2 r' ([10; 20] ++ [30]) ∧ same_config demo r' ∧ (1 = 1 ↔ as_documented 2 2 3 4 RTE_RING_QUEUE_VARIABLE).
Proof.
  exact (rte_ring_enqueue_spec 1 [30; 40] 2 RTE_RING_QUEUE_VARIABLE 2 demo [10; 20]
    ltac:(lia) demo_rep ltac:(lia) ltac:(done)).
Defined.

(** The dispatching dequeue operations, single- or multi-consumer: they
    return, put the oldest [m] objects at the front of the caller's table in
    order, leave the rest of the table alone and the rest of the queue in the
    ring, and report -ENOENT or 0 (bulk), or the number moved (burst). *)
Theorem rte_ring_dequeue_spec fuel n behavior k r q t :
  (0 < fuel)%nat → Rep k r q → 0 ≤ n < 4294967296 →
  let m := moved n (zlength q) behavior in
  m ≤ zlength t →
  ∃ r', dequeue_any fuel n behavior (r, t) =
      Done (dequeue_ret (zlength q) n behavior,
            (r', (Some <$> take (Z.to_nat m) q) ++ drop (Z.to_nat m) t)) ∧
    Rep k r' (drop (Z.to_nat m) q) ∧ same_config r r'.
Proof. intros Hf HR. by apply dequeue_any_run. Qed.

Lemma rte_ring_dequeue_spec_witness :
  ∃ r', dequeue_any 1 5 RTE_RING_QUEUE_VARIABLE (demo, [None; None; Some 7]) =
      Done (2, (r', [Some 10; Some 20; Some 7])) ∧
    Rep 2 r' [] ∧ same_config demo r'.
Proof.
  exact (rte_ring_dequeue_spec 1 5 RTE_RING_QUEUE_VARIABLE 2 demo [10; 20]
    [None; None; Some 7] ltac:(lia) demo_rep ltac:(lia) ltac:(done)).
Defined.

(** C28: first in, first out over any sequence of bulk and burst calls on a ring
    fresh from [rte_ring_create]: every call returns, and the objects received
    so far followed by those still in the ring are the objects accepted so far,
    each once and in order. *)
Theorem rte_ring_fifo k flags r cs :
  0 ≤ k → 2 ^ k ≤ RTE_RING_SZ_MASK → rte_ring_create true (2 ^ k) flags = inl r →
  Forall call_ok cs →
  ∃ accepted received r' q, run_calls cs r = Done ((accepted, Some <$> received), r') ∧
    Rep k r' q ∧ accepted = received ++ q.
Proof.
  intros Hk Hmax Hr Hcs. pose proof (rep_created k flags r Hk Hmax Hr) as HR.
  apply (run_calls_run k cs r [] Hcs HR).
Qed.

Lemma rte_ring_fifo_witness :
  let cs := [Enqueue RTE_RING_QUEUE_VARIABLE [1; 2; 3; 4; 5]; Dequeue RTE_RING_QUEUE_FIXED 2;
             Enqueue RTE_RING_QUEUE_FIXED [6; 7]; Dequeue RTE_RING_QUEUE_VARIABLE 9] in
  ∃ r, rte_ring_create true (2 ^ 2) 0 = inl r ∧
  ∃ accepted received r' q, run_calls cs r = Done ((accepted, Some <$> received), r') ∧
    Rep 2 r' q ∧ accepted = received ++ q.
Proof.
  intros cs. eexists. split; [reflexivity|]. apply (rte_ring_fifo 2 0); try done.
  repeat constructor; done.
Defined.

(** [rte_ring_count], [rte_ring_free_count], [rte_ring_empty] and
    [rte_ring_full] report the length of the queue, the room left of the
    [size - 1] usable slots, and the two extremes. *)
Theorem rte_ring_count_spec k r q :
  Rep k r q →
  rte_ring_count r = zlength q ∧ rte_ring_free_count r = 2 ^ k - 1 - zlength q ∧
  (rte_ring_empty r = true ↔ q = []) ∧ (rte_ring_full r = true ↔ zlength q = 2 ^ k - 1).
Proof.
  intros HR. pose proof (ring_size k r q HR). pose proof (ring_len k r q HR).
  assert (u32 (p_tail r - c_tail r) = zlength q) as Hcount.
  { rewrite (rep_ctail k r q HR). by apply (entries_eq k). }
  assert (u32 (c_tail r - p_tail r - 1) mod 2 ^ k = 2 ^ k - 1 - zlength q) as Hfree.
  { rewrite (rep_ptail k r q HR). destruct HR.
    rewrite rep_phead0, rep_ctail0, u32_mod_pow2 by lia.
    replace (c_head r - u32 (c_head r + zlength q) - 1)
      with (c_head r - 1 - u32 (c_head r + zlength q)) by lia.
    rewrite <-Zminus_mod_idemp_r, u32_mod_pow2, Zminus_mod_idemp_r by lia.
    replace (c_head r - 1 - (c_head r + zlength q))
      with (2 ^ k - 1 - zlength q + (-1) * 2 ^ k) by lia.
    rewrite Z_mod_plus_full. apply Z.mod_small. lia. }
  unfold rte_ring_count, rte_ring_free_count, rte_ring_empty, rte_ring_full.
  rewrite !(count_land k r q) by done. rewrite Hcount, Hfree, !bool_decide_eq_true.
  split_and!; [apply Z.mod_small; lia|done| |lia].
  split.
  - intros Heq. rewrite Heq, Z.sub_diag in Hcount. destruct q; [done|].
    change (u32 0) with 0 in Hcount. unfold zlength in Hcount. cbn [length] in Hcount. lia.
  - intros ->. destruct HR. rewrite rep_ptail0, rep_ctail0, rep_phead0.
    change (zlength []) with 0. rewrite Z.add_0_r. by rewrite u32_small.
Qed.

Lemma rte_ring_count_spec_witness :
  rte_ring_count demo = 2 ∧ rte_ring_free_count demo = 2 ^ 2 - 1 - 2 ∧
  (rte_ring_empty demo = true ↔ [10; 20] = []) ∧ (rte_ring_full demo = true ↔ 2 = 2 ^ 2 - 1).
Proof. exact (rte_ring_count_spec 2 demo [10; 20] demo_rep). Defined.

(** [rte_ring_create] accepts exactly the powers of two up to the size mask
    and, because [POWEROF2(0)] holds, the count 0; for a power of two the ring
    is a well-formed empty queue; every other count is refused with EINVAL. *)
Theorem rte_ring_create_spec count flags :
  0 ≤ count < 4294967296 →
  ((∃ k, 0 ≤ k ∧ count = 2 ^ k ∧ count ≤ RTE_RING_SZ_MASK ∧
      ∃ r, rte_ring_create true count flags = inl r ∧ Rep k r [] ∧ p_watermark r = count) ∨
   (count = 0 ∧ ∃ r, rte_ring_create true count flags = inl r ∧ ring r = [] ∧
      p_mask r = U32_MAX) ∨
   (rte_ring_create true count flags = inr EINVAL ∧
      (RTE_RING_SZ_MASK < count ∨ ∀ k, 0 ≤ k → count ≠ 2 ^ k))).
Proof.
  intros Hc. pose proof (powerof2_iff count Hc) as Hp.
  destruct (decide (count > RTE_RING_SZ_MASK)) as [Hbig|Hbig].
  { right; right. unfold rte_ring_create. rewrite (bool_decide_eq_true_2 _ Hbig), orb_true_r.
    split; [done|left; lia]. }
  destruct (POWEROF2 count) eqn:HP.
  - destruct (proj1 Hp eq_refl) as [->|(k & Hk & ->)]; [right; left|left].
    + split; [done|]. by eexists.
    + exists k. split_and!; [done..|lia|]. unfold rte_ring_create in *.
      eassert (rte_ring_create true (2 ^ k) flags = inl _) as Hr.
      { unfold rte_ring_create. rewrite HP, (bool_decide_eq_false_2 _ Hbig). reflexivity. }
      pose proof (rep_created k flags _ Hk ltac:(lia) Hr) as HR.
      unfold rte_ring_create in Hr. eexists. split; [exact Hr|]. by split.
  - right; right. unfold rte_ring_create. rewrite HP. split; [done|]. right.
    intros k Hk ->. destruct Hp as [_ Hp]. discriminate Hp. right. by exists k.
Qed.

Lemma rte_ring_create_spec_witness :
  0 ≤ 6 < 4294967296 ∧
  ((∃ k, 0 ≤ k ∧ 6 = 2 ^ k ∧ 6 ≤ RTE_RING_SZ_MASK ∧
      ∃ r, rte_ring_create true 6 0 = inl r ∧ Rep k r [] ∧ p_watermark r = 6) ∨
   (6 = 0 ∧ ∃ r, rte_ring_create true 6 0 = inl r ∧ ring r = [] ∧ p_mask r = U32_MAX) ∨
   (rte_ring_create true 6 0 = inr EINVAL ∧
      (RTE_RING_SZ_MASK < 6 ∨ ∀ k, 0 ≤ k → 6 ≠ 2 ^ k))).
Proof. split; [lia|]. apply rte_ring_create_spec. lia. Defined.

(** A ring created with count 0 passes the check, and the first enqueue writes
    outside its (empty) table. *)
Lemma zero_count_overruns flags r :
  rte_ring_create true 0 flags = inl r → rte_ring_sp_enqueue 7 r = Undef.
Proof. intros [= <-]. done. Qed.

(** The water mark is reported when it is reached, not when it is exceeded:
    the second object on a ring with water mark 2 gives -EDQUOT. *)
Definition watermark_run : prog rte_ring (Z * Z * Z * Z) :=
  w ← rte_ring_set_water_mark 2;
  a ← rte_ring_sp_enqueue 10;
  b ← rte_ring_sp_enqueue 20;
  count ← gets rte_ring_count;
  mret (w, a, b, count).

Lemma watermark_reached :
  ∃ r r', rte_ring_create true 4 1 = inl r ∧ watermark_run r = Done ((0, 0, - EDQUOT, 2), r').
Proof. eexists _, _. split; [reflexivity|]. vm_compute. reflexivity. Qed.
End RteRing.
