(* ===== verification/LinkList.v ===== *)
(** The singly linked lists of timer nodes that timewheel.c and clock-timer.c
    hang in the slots of their wheels: [link_list_t] with its dummy head and
    its tail pointer, [link_clear] and [link] ([link_to] in clock-timer.c), over
    a heap of nodes shared by all the lists.

    The representation theorem states that several lists, one per slot, and one
    chain that has been taken off a list live in the heap without sharing. *)
From S2P Require Import Prelude.

(** struct timer_node; [extra] is what only one of the two programs has. *)
Record node (X : Type) := Node {
  next : option ptr;
  expire : Z;
  callback : Z;
  cancel : Z;
  extra : X;
}.
Arguments Node {X} next expire callback cancel extra.
Arguments next {X} n.
Arguments expire {X} n.
Arguments callback {X} n.
Arguments cancel {X} n.
Arguments extra {X} n.

Definition set_next {X} (q : option ptr) (n : node X) : node X :=
  Node q (expire n) (callback n) (cancel n) (extra n).
Definition set_cancel {X} (c : Z) (n : node X) : node X :=
  Node (next n) (expire n) (callback n) c (extra n).

(** link_list_t: [head_next] is [head.next], and a [tail] of [None] points at
    the dummy head. *)
Record link_list := LinkList { head_next : option ptr; tail : option ptr }.

(** The lists of all slots and the heap of nodes. *)
Record store (K : Type) `{Countable K} (X : Type) := Store {
  lists : gmap K link_list;
  nodes : gmap ptr (node X);
}.
Arguments Store {K _ _ X} lists nodes.
Arguments lists {K _ _ X} s.
Arguments nodes {K _ _ X} s.

Section operations.
Context {K : Type} `{Countable K} {X : Type}.
Implicit Types s : store K X.

Definition set_lists l s : store K X := Store l (nodes s).
Definition set_nodes m s : store K X := Store (lists s) m.

Definition read_node (p : ptr) : prog (store K X) (node X) := getsO (λ s, nodes s !! p).
Definition write_node (p : ptr) (f : node X → node X) : prog (store K X) unit :=
  modO (λ s, n ← nodes s !! p; Some (set_nodes (<[p := f n]> (nodes s)) s)).
Definition read_list (k : K) : prog (store K X) link_list := getsO (λ s, lists s !! k).
Definition write_list (k : K) (l : link_list) : prog (store K X) unit :=
  modS (λ s, set_lists (<[k := l]> (lists s)) s).
Definition free (p : ptr) : prog (store K X) unit :=
  read_node p;; modS (λ s, set_nodes (delete p (nodes s)) s).

Definition link_clear (k : K) : prog (store K X) (option ptr) :=
  list ← read_list k;
  write_list k (LinkList None None);;
  mret (head_next list).

Definition link (k : K) (node : ptr) : prog (store K X) unit :=
  list ← read_list k;
  match tail list with
  | None => write_list k (LinkList (Some node) (tail list))
  | Some t => write_node t (set_next (Some node))
  end;;
  list ← read_list k;
  write_list k (LinkList (head_next list) (Some node));;
  write_node node (set_next None).

(** ** Representation *)

(** A chain of nodes from [q] on, ended by [NULL]. *)
Fixpoint chain (m : gmap ptr (node X)) (q : option ptr) (l : list ptr) : Prop :=
  match l with
  | [] => q = None
  | p :: l => q = Some p ∧ ∃ n, m !! p = Some n ∧ chain m (next n) l
  end.

Definition list_rep (m : gmap ptr (node X)) (ll : link_list) (l : list ptr) : Prop :=
  chain m (head_next ll) l ∧ tail ll = last l.

(** The lists [L] hang in the slots; [R] is a chain taken off its list. *)
Record Rep s (L : K → list ptr) (R : list ptr) : Prop := {
  rep_list k ll : lists s !! k = Some ll → list_rep (nodes s) ll (L k);
  rep_none k : lists s !! k = None → L k = [];
  rep_chain : chain (nodes s) (head R) R;
  rep_nodup k : NoDup (L k);
  rep_nodup_R : NoDup R;
  rep_disj k k' p : p ∈ L k → p ∈ L k' → k = k';
  rep_disj_R k p : p ∈ L k → p ∉ R;
}.

(** [p] is in no list and not in the chain. *)
Definition unlinked (L : K → list ptr) (R : list ptr) (p : ptr) : Prop :=
  (∀ k, p ∉ L k) ∧ p ∉ R.

(** The heaps differ at most in the [next] fields. *)
Definition same_data (m m' : gmap ptr (node X)) : Prop :=
  ∀ p, set_next None <$> m !! p = set_next None <$> m' !! p.

Definition update (L : K → list ptr) (k : K) (l : list ptr) : K → list ptr :=
  λ k', if decide (k = k') then l else L k'.

Lemma update_eq L k l : update L k l k = l.
Proof. unfold update. by rewrite decide_True. Qed.
Lemma update_ne L k k' l : k ≠ k' → update L k l k' = L k'.
Proof. intros. unfold update. by rewrite decide_False. Qed.

#[export] Instance same_data_refl : Reflexive same_data.
Proof. by intros m p. Qed.
#[export] Instance same_data_trans : Transitive same_data.
Proof. intros m1 m2 m3 H1 H2 p. by rewrite H1, H2. Qed.

Lemma same_data_lookup m m' p n :
  same_data m m' → m !! p = Some n →
  ∃ n', m' !! p = Some n' ∧ set_next None n = set_next None n'.
Proof.
  intros Hd Hp. specialize (Hd p). rewrite Hp in Hd.
  destruct (m' !! p) as [n'|]; [|done]. exists n'. split; [done|]. by apply (inj Some).
Qed.

Lemma same_data_insert m p n q : m !! p = Some n → same_data m (<[p := set_next q n]> m).
Proof.
  intros Hp p'. destruct (decide (p = p')) as [<-|].
  - rewrite lookup_insert_eq, Hp. done.
  - by rewrite lookup_insert_ne.
Qed.

(** A chain does not see changes elsewhere. *)
Lemma chain_frame m m' q l :
  (∀ p, p ∈ l → m' !! p = m !! p) → chain m q l → chain m' q l.
Proof.
  revert q. induction l as [|p l IH]; intros q Heq; [done|]. intros [-> (n & Hn & Hc)].
  split; [done|]. exists n. rewrite Heq by set_solver. split; [done|].
  apply IH; [|done]. set_solver.
Qed.

Lemma chain_head m q l : chain m q l → q = head l.
Proof. destruct l; naive_solver. Qed.

Lemma chain_in m q l p : chain m q l → p ∈ l → is_Some (m !! p).
Proof.
  revert q. induction l as [|p' l IH]; intros q; [by intros _ ?%elem_of_nil|].
  intros [_ (n & Hn & Hc)] [->|Hin]%elem_of_cons; [by eexists|by eapply IH].
Qed.

(** Appending a node behind the last one. *)
Lemma chain_snoc m q l n e t nt :
  chain m q l → NoDup l → e ∉ l → m !! e = Some n → last l = Some t → m !! t = Some nt →
  chain (<[e := set_next None n]> (<[t := set_next (Some e) nt]> m)) q (l ++ [e]).
Proof.
  revert q. induction l as [|p l IH]; intros q Hc Hnd He Hn Hlast Ht; [done|].
  destruct Hc as [-> (np & Hnp & Hc)]. apply NoDup_cons in Hnd as [Hp Hnd].
  assert (e ≠ p ∧ e ∉ l) as [Hep Hel] by set_solver.
  cbn [app chain]. split; [done|]. destruct l as [|p' l].
  - injection Hlast as ->. rewrite Ht in Hnp. injection Hnp as <-. exists (set_next (Some e) nt).
    rewrite lookup_insert_ne, lookup_insert_eq by done. split; [done|].
    split; [done|]. eexists. by rewrite lookup_insert_eq.
  - rewrite last_cons_cons in Hlast. exists np.
    assert (t ≠ p). { intros ->. apply Hp. by eapply last_Some_elem_of. }
    rewrite !lookup_insert_ne by done. split; [done|]. by apply IH.
Qed.

Lemma same_data_sym m m' : same_data m m' → same_data m' m.
Proof. intros Hd p. by rewrite Hd. Qed.

(** ** What the operations do *)

Lemma link_clear_spec s L k :
  Rep s L [] → is_Some (lists s !! k) →
  ∃ s', link_clear k s = Done (head (L k), s') ∧ Rep s' (update L k []) (L k) ∧
    nodes s' = nodes s ∧ (∀ k', is_Some (lists s' !! k') ↔ is_Some (lists s !! k')).
Proof.
  intros HR [ll Hll]. pose proof (rep_list s L [] HR k ll Hll) as [Hc Ht].
  unfold link_clear, read_list, write_list.
  erewrite bind_Done by (by apply getsO_Done). rewrite modS_bind.
  eexists. split; [by rewrite (chain_head _ _ _ Hc)|]. split_and!; [|done|].
  - destruct HR. split; cbn.
    + intros k' ll'. destruct (decide (k = k')) as [<-|].
      * rewrite lookup_insert_eq, update_eq. by intros [= <-].
      * rewrite lookup_insert_ne, update_ne by done. apply rep_list0.
    + intros k'. destruct (decide (k = k')) as [<-|].
      * by rewrite lookup_insert_eq.
      * rewrite lookup_insert_ne, update_ne by done. apply rep_none0.
    + by rewrite <-(chain_head _ _ _ Hc).
    + intros k'. unfold update. case_decide; [constructor|done].
    + done.
    + intros k1 k2 p. unfold update. repeat case_decide; set_solver.
    + intros k' p. unfold update. case_decide; set_solver.
  - intros k'. cbn. destruct (decide (k = k')) as [<-|].
    + rewrite lookup_insert_eq, Hll. by split; eexists.
    + by rewrite lookup_insert_ne.
Qed.

(** What [link] writes: the list of [k] gets [e] at its end, other nodes and
    lists stay. *)
Lemma link_run s L R k e n :
  Rep s L R → is_Some (lists s !! k) → unlinked L R e → nodes s !! e = Some n →
  ∃ s', link k e s = Done ((), s') ∧
    list_rep (nodes s') (LinkList (head (L k ++ [e])) (Some e)) (L k ++ [e]) ∧
    lists s' = <[k := LinkList (head (L k ++ [e])) (Some e)]> (lists s) ∧
    same_data (nodes s) (nodes s') ∧
    (∀ p, p ∉ L k → p ≠ e → nodes s' !! p = nodes s !! p).
Proof.
  intros HR [ll Hll] [HeL HeR] Hn. pose proof (rep_list s L R HR k ll Hll) as [Hc Ht].
  unfold link, read_list, write_list, write_node.
  erewrite bind_Done by (by apply getsO_Done). destruct (tail ll) as [t|] eqn:Htail.
  - symmetry in Ht. pose proof (last_Some_elem_of _ _ Ht) as Hin.
    destruct (chain_in _ _ _ _ Hc Hin) as [nt Hnt].
    assert (e ≠ t) by (intros ->; by eapply HeL).
    erewrite modO_bind by (by rewrite Hnt).
    erewrite bind_Done by (by apply getsO_Done). rewrite modS_bind.
    eexists. split.
    { apply modO_Done. cbn. rewrite lookup_insert_ne by done. by rewrite Hn. }
    cbn. assert (head_next ll = head (L k ++ [e])) as Hhd.
    { rewrite (chain_head _ _ _ Hc). destruct (L k); done. }
    rewrite <-Hhd. split_and!; [|done| |].
    + split; [|by rewrite last_snoc]. cbn. apply chain_snoc; try done. apply HR.
    + etrans; [by apply (same_data_insert _ t nt (Some e))|].
      apply same_data_insert. by rewrite lookup_insert_ne.
    + intros p Hp Hpe. rewrite lookup_insert_ne by done. rewrite lookup_insert_ne; [done|].
      intros ->. done.
  - symmetry in Ht. apply last_None in Ht. rewrite Ht in *. rewrite modS_bind.
    erewrite bind_Done by (apply getsO_Done; apply lookup_insert_eq). rewrite modS_bind.
    eexists. split; [apply modO_Done; cbn; by rewrite Hn|]. cbn. split_and!.
    + split; [|done]. cbn. split; [done|]. eexists. by rewrite lookup_insert_eq.
    + by rewrite insert_insert_eq.
    + by apply same_data_insert.
    + intros p _ Hp. by rewrite lookup_insert_ne.
Qed.

Lemma link_spec s L R k e n :
  Rep s L R → is_Some (lists s !! k) → unlinked L R e → nodes s !! e = Some n →
  ∃ s', link k e s = Done ((), s') ∧ Rep s' (update L k (L k ++ [e])) R ∧
    same_data (nodes s) (nodes s') ∧ (∀ k', is_Some (lists s' !! k') ↔ is_Some (lists s !! k')).
Proof.
  intros HR Hk0 He Hn. destruct (link_run s L R k e n HR Hk0 He Hn) as (s' & Hrun & Hk & Hls & Hd & Hf).
  destruct Hk0 as [ll Hll]. destruct He as [HeL HeR].
  exists s'. split; [done|]. split_and!; [|done|].
  - destruct HR. split.
    + intros k' ll'. rewrite Hls. destruct (decide (k = k')) as [<-|Hkk].
      * rewrite lookup_insert_eq, update_eq. by intros [= <-].
      * rewrite lookup_insert_ne, update_ne by done. intros [Hc' Ht']%rep_list0.
        split; [|done]. eapply chain_frame; [|done]. intros p Hp. apply Hf.
        -- intros Hp'. apply Hkk. eauto.
        -- intros ->. by eapply HeL.
    + intros k'. rewrite Hls. destruct (decide (k = k')) as [<-|].
      * by rewrite lookup_insert_eq.
      * rewrite lookup_insert_ne, update_ne by done. apply rep_none0.
    + eapply chain_frame; [|done]. intros p Hp. apply Hf.
      * intros Hp'. by eapply rep_disj_R0.
      * intros ->. done.
    + intros k'. unfold update. case_decide as Hkk; [|done].
      apply NoDup_app. split_and!; [done| |apply NoDup_singleton].
      intros p Hp ->%list_elem_of_singleton. by eapply HeL.
    + done.
    + intros k1 k2 p. unfold update. repeat case_decide; subst; try done; set_solver.
    + intros k' p. unfold update. case_decide; set_solver.
  - intros k'. rewrite Hls. destruct (decide (k = k')) as [<-|].
    + rewrite lookup_insert_eq, Hll. by split; eexists.
    + by rewrite lookup_insert_ne.
Qed.

(** Taking the first node of the chain in hand. *)
Lemma Rep_uncons s L R p :
  Rep s L (p :: R) →
  ∃ n, nodes s !! p = Some n ∧ next n = head R ∧ Rep s L R ∧ unlinked L R p.
Proof.
  intros HR. pose proof (rep_chain _ _ _ HR) as [_ (n & Hn & Hc)].
  exists n. split; [done|]. split; [by eapply chain_head|]. destruct HR.
  apply NoDup_cons in rep_nodup_R0 as [Hp Hnd].
  split; [split; try done|split].
  - by rewrite <-(chain_head _ _ _ Hc).
  - set_solver.
  - intros k Hk. eapply rep_disj_R0; [done|]. set_solver.
  - done.
Qed.
End operations.
