(* ===== verification/Wheel.v ===== *)
(** What timewheel.c and clock-timer.c have in common: a timer ticks; at each
    tick the slot of the new time is executed and some coarser slot may be
    spread over the finer ones.  The two programs share the text of [add_timer],
    [del_timer], [dispatch_list], [timer_execute] and [timer_update]; they
    differ in the slots, in [add_node]'s choice of a slot and in [timer_shift].

    The section [laws] proves what a tick does from five laws of the slots; the
    two components discharge the laws. *)
From S2P Require Import Prelude LinkList.

(** struct timer: [mem] holds the lists of the slots and the heap of nodes. *)
Record timer (K : Type) `{Countable K} (X : Type) := MkTimer {
  mem : store K X;
  lock : Z;
  time : Z;
  current_point : Z;
}.
Arguments MkTimer {K _ _ X} mem lock time current_point.
Arguments mem {K _ _ X} t.
Arguments lock {K _ _ X} t.
Arguments time {K _ _ X} t.
Arguments current_point {K _ _ X} t.

Section operations.
Context {K : Type} `{Countable K} {X : Type}.
Abbreviation timer := (timer K X).

Definition set_mem m (s : timer) : timer := MkTimer m (lock s) (time s) (current_point s).
Definition set_lock l (s : timer) : timer := MkTimer (mem s) l (time s) (current_point s).
Definition set_time t (s : timer) : timer := MkTimer (mem s) (lock s) t (current_point s).
Definition set_point c (s : timer) : timer := MkTimer (mem s) (lock s) (time s) c.

Definition on_mem {A} (m : prog (store K X) A) : prog timer A := zoom mem set_mem m.

(** The lock of spinlock.h as one thread sees it: acquiring a lock that is held
    spins, and nobody is there to release it. *)
Definition spinlock_lock : prog timer unit :=
  l ← gets lock;
  if decide (l = 0) then modS (set_lock 1) else out_of_fuel.
Definition spinlock_unlock : prog timer unit := modS (set_lock 0).

(** The slot for a timer: the current time, then the time of expiry. *)
Context (place : Z → Z → K).
(** The slot that is executed at a time. *)
Context (near_slot : Z → K).
(** [node->callback(node)] *)
Context (call : Z → ptr → prog timer unit).

Definition add_node (p : ptr) : prog timer unit :=
  n ← on_mem (read_node p);
  current_time ← gets time;
  on_mem (link (place current_time (expire n)) p).

Fixpoint move_loop (fuel : nat) (current : option ptr) : prog timer unit :=
  match fuel with
  | O => out_of_fuel
  | S fuel =>
      match current with
      | None => mret ()
      | Some p =>
          n ← on_mem (read_node p);
          add_node p;;
          move_loop fuel (next n)
      end
  end.

Definition move_list (fuel : nat) (k : K) : prog timer unit :=
  current ← on_mem (link_clear k);
  move_loop fuel current.

(** The [do ... while (current)]; returns the nodes whose callback was called. *)
Fixpoint dispatch_list (fuel : nat) (current : ptr) : prog timer (list ptr) :=
  match fuel with
  | O => out_of_fuel
  | S fuel =>
      let temp := current in
      n ← on_mem (read_node temp);
      fired ← (if decide (cancel n = 0) then call (callback n) temp;; mret [temp] else mret []);
      on_mem (free temp);;
      rest ← match next n with
             | Some current => dispatch_list fuel current
             | None => mret []
             end;
      mret (fired ++ rest)
  end.

Fixpoint execute_loop (fuel : nat) (k : K) : prog timer (list ptr) :=
  match fuel with
  | O => out_of_fuel
  | S fuel' =>
      list ← on_mem (read_list k);
      match head_next list with
      | None => mret []
      | Some _ =>
          current ← on_mem (link_clear k);
          spinlock_unlock;;
          fired ← match current with Some p => dispatch_list fuel p | None => undef end;
          spinlock_lock;;
          rest ← execute_loop fuel' k;
          mret (fired ++ rest)
      end
  end.

Definition timer_execute (fuel : nat) : prog timer (list ptr) :=
  t ← gets time;
  execute_loop fuel (near_slot t).

Context (timer_shift : nat → prog timer unit).

Definition timer_update (fuel : nat) : prog timer (list ptr) :=
  spinlock_lock;;
  fired1 ← timer_execute fuel;
  timer_shift fuel;;
  fired2 ← timer_execute fuel;
  spinlock_unlock;;
  mret (fired1 ++ fired2).

(** [for (i=0; i<diff; i++)] *)
Fixpoint timer_updates (fuel : nat) (diff : nat) : prog timer (list ptr) :=
  match diff with
  | O => mret []
  | S diff =>
      fired ← timer_update fuel;
      rest ← timer_updates fuel diff;
      mret (fired ++ rest)
  end.

(** [p] is what [malloc] returns, [c] the byte of [cancel] after the function
    has initialised the node. *)
Definition add_timer (p : ptr) (c : Z) (t func : Z) (x : X) : prog timer (option ptr) :=
  spinlock_lock;;
  now ← gets time;
  on_mem (modS (λ m, set_nodes (<[p := Node None (u32 (t + now)) func c x]> (nodes m)) m));;
  if decide (t ≤ 0) then
    spinlock_unlock;;
    call func p;;
    on_mem (free p);;
    mret None
  else
    add_node p;;
    spinlock_unlock;;
    mret (Some p).

(** The [while (current)] of [clear_timer], and the body of its [for]. *)
Fixpoint free_loop (fuel : nat) (current : option ptr) : prog timer unit :=
  match fuel with
  | O => out_of_fuel
  | S fuel =>
      match current with
      | None => mret ()
      | Some temp =>
          n ← on_mem (read_node temp);
          on_mem (free temp);;
          free_loop fuel (next n)
      end
  end.

Definition clear_slot (fuel : nat) (k : K) : prog timer unit :=
  list ← on_mem (read_list k);
  free_loop fuel (head_next list);;
  on_mem (link_clear k);;
  mret ().

Fixpoint clear_slots (fuel : nat) (ks : list K) : prog timer unit :=
  match ks with
  | [] => mret ()
  | k :: ks => clear_slot fuel k;; clear_slots fuel ks
  end.

Definition del_timer (p : ptr) : prog timer unit := on_mem (write_node p (set_cancel 1)).
End operations.

(** ** The laws of the slots, and what a tick does *)

Section laws.
Context {K : Type} `{Countable K} {X : Type}.
Abbreviation timer := (timer K X).
Implicit Types s : timer.

Context (place : Z → Z → K) (near_slot : Z → K).
Context (call : Z → ptr → prog timer unit) (timer_shift : nat → prog timer unit).

(** [valid]: the slots there are.  [moved t]: the slot spread at time [t].
    [sound t e k]: at time [t], a timer of slot [k] that expires at [e] will be
    executed at [e].  [stuck k]: slot [k] is never spread nor executed.
    [tick_ok t]: the laws hold for the tick from [t] to [t + 1]. *)
Context (valid : K → Prop) (moved : Z → option K) (sound : Z → Z → K → Prop).
Context (stuck : K → Prop) (tick_ok : Z → Prop).
(** The nodes that callbacks may allocate. *)
Context (extra_node : ptr → Prop).

Class WheelLaws := {
  wl_near_valid t : valid (near_slot t);
  wl_place_valid t e : 0 ≤ t < 4294967296 → 0 ≤ e < 4294967296 → valid (place t e);
  wl_moved_valid t k : moved t = Some k → valid k;
  wl_not_now t e k : sound t e k → k ≠ near_slot t;
  wl_not_due t e k : sound t e k → e ≠ t;
  wl_not_stuck t e k : sound t e k → ¬ stuck k;
  wl_stuck_near t : ¬ stuck (near_slot t);
  wl_stuck_moved t k : moved t = Some k → ¬ stuck k;
  wl_moved_near t : moved t ≠ Some (near_slot t);
  wl_tick t e k :
    tick_ok t → 0 ≤ t < 4294967296 → 0 ≤ e < 4294967296 → sound t e k →
    let t' := u32 (t + 1) in
    (k = near_slot t' ∧ e = t') ∨
    (moved t' = Some k ∧
      (e = t' ∧ place t' e = near_slot t' ∨ e ≠ t' ∧ sound t' e (place t' e))) ∨
    (k ≠ near_slot t' ∧ moved t' ≠ Some k ∧ e ≠ t' ∧ sound t' e k);
  wl_shift fuel s :
    tick_ok (time s) →
    timer_shift fuel s =
      (let t' := u32 (time s + 1) in
       modS (set_time t');;
       match moved t' with Some k => move_list place fuel k | None => mret () end) s;
}.
Context `{WL : WheelLaws}.

(** Only links have changed. *)
Definition frame (s s' : timer) : Prop :=
  time s' = time s ∧ lock s' = lock s ∧ current_point s' = current_point s ∧
  same_data (nodes (mem s)) (nodes (mem s')) ∧
  (∀ k, is_Some (lists (mem s') !! k) ↔ is_Some (lists (mem s) !! k)).

#[export] Instance frame_refl : Reflexive frame.
Proof. by intros s. Qed.
#[export] Instance frame_trans : Transitive frame.
Proof.
  intros s1 s2 s3 (?&?&?&Hd1&Hl1) (?&?&?&Hd2&Hl2). split_and!; try congruence.
  intros k. by rewrite Hl2.
Qed.

Lemma frame_lookup s s' p n :
  frame s s' → nodes (mem s) !! p = Some n →
  ∃ n', nodes (mem s') !! p = Some n' ∧ set_next None n' = set_next None n.
Proof.
  intros (_ & _ & _ & Hd & _) Hp. destruct (same_data_lookup _ _ _ _ Hd Hp) as (n' & ? & ?). eauto.
Qed.

Lemma frame_lookup_inv s s' p n' :
  frame s s' → nodes (mem s') !! p = Some n' →
  ∃ n, nodes (mem s) !! p = Some n ∧ set_next None n' = set_next None n.
Proof.
  intros (_ & _ & _ & Hd & _) Hp.
  destruct (same_data_lookup _ _ _ _ (same_data_sym _ _ Hd) Hp) as (n & ? & ?). eauto.
Qed.

Lemma same_expire (n n' : node X) : set_next None n' = set_next None n → expire n' = expire n.
Proof. destruct n, n'. by intros [=]. Qed.
Lemma same_cancel (n n' : node X) : set_next None n' = set_next None n → cancel n' = cancel n.
Proof. destruct n, n'. by intros [=]. Qed.

Lemma Rep_ext (m : store K X) L L' R : (∀ k, L k = L' k) → Rep m L R → Rep m L' R.
Proof.
  intros Heq HR. destruct HR.
  split; try done; intros *; rewrite <-?Heq; eauto.
Qed.

(** The slot a timer in the heap goes to. *)
Definition goes s (k : K) (p : ptr) : Prop :=
  (λ n, place (time s) (expire n)) <$> nodes (mem s) !! p = Some k.
#[local] Instance goes_dec s k p : Decision (goes s k p).
Proof. unfold goes. apply _. Defined.

Lemma goes_frame s s' k p : frame s s' → goes s' k p ↔ goes s k p.
Proof.
  intros Hf. unfold goes. destruct Hf as (-> & _ & _ & Hd & _). specialize (Hd p).
  destruct (nodes (mem s) !! p) as [n|], (nodes (mem s') !! p) as [n'|]; try done.
  cbn in Hd |- *. apply (inj Some) in Hd. by rewrite (same_expire n n').
Qed.

Definition in_range s (p : ptr) : Prop :=
  ∃ n, nodes (mem s) !! p = Some n ∧ 0 ≤ expire n < 4294967296.

Lemma in_range_frame s s' p : frame s s' → in_range s p → in_range s' p.
Proof.
  intros Hf (n & Hn & Hr). destruct (frame_lookup _ _ _ _ Hf Hn) as (n' & Hn' & Heq).
  exists n'. split; [done|]. by rewrite (same_expire n n').
Qed.

Definition slots_valid s : Prop := ∀ k, is_Some (lists (mem s) !! k) ↔ valid k.

Lemma slots_valid_frame s s' : frame s s' → slots_valid s → slots_valid s'.
Proof. intros (_ & _ & _ & _ & Hl) Hv k. by rewrite Hl. Qed.

Lemma add_node_spec s L R p :
  Rep (mem s) L R → slots_valid s → 0 ≤ time s < 4294967296 → unlinked L R p → in_range s p →
  ∃ s' k, add_node place p s = Done ((), s') ∧ goes s k p ∧
    Rep (mem s') (update L k (L k ++ [p])) R ∧ frame s s'.
Proof.
  intros HR Hv Ht Hp (n & Hn & Hr). unfold add_node.
  erewrite bind_Done by (apply zoom_Done; by apply getsO_Done).
  assert (set_mem (mem s) s = s) as -> by by destruct s.
  rewrite gets_bind. set (k := place (time s) (expire n)).
  destruct (link_spec (mem s) L R k p n) as (m & Hrun & HR' & Hd & Hl); [done| |done..|].
  { apply Hv. by apply wl_place_valid. }
  exists (set_mem m s), k. split; [by apply zoom_Done|]. split; [|by split].
  unfold goes. by rewrite Hn.
Qed.

Lemma move_loop_spec fuel s L R :
  Rep (mem s) L R → slots_valid s → 0 ≤ time s < 4294967296 → (∀ p, p ∈ R → in_range s p) →
  (length R < fuel)%nat →
  ∃ s', move_loop place fuel (head R) s = Done ((), s') ∧
    Rep (mem s') (λ k, L k ++ filter (goes s k) R) [] ∧ frame s s'.
Proof.
  revert s L R. induction fuel as [|fuel IH]; intros s L R HR Hv Ht Hin Hf; [lia|].
  destruct R as [|p R]; cbn [move_loop head].
  { exists s. split; [done|]. split; [|done]. eapply Rep_ext; [|done].
    intros k. by rewrite filter_nil, app_nil_r. }
  destruct (Rep_uncons _ _ _ _ HR) as (n & Hn & Hnext & HR1 & Hun).
  erewrite bind_Done by (apply zoom_Done; by apply getsO_Done).
  assert (set_mem (mem s) s = s) as -> by by destruct s.
  destruct (add_node_spec s L R p) as (s1 & k & Hrun & Hk & HR2 & Hf1); [done..|apply Hin; set_solver|].
  rewrite (bind_Done _ _ _ _ _ Hrun), Hnext.
  destruct (IH s1 _ R HR2) as (s2 & Hrun2 & HR3 & Hf2).
  - by eapply slots_valid_frame.
  - destruct Hf1 as (-> & _). done.
  - intros q Hq. eapply in_range_frame; [done|]. apply Hin. set_solver.
  - cbn in Hf. lia.
  - exists s2. split; [done|]. split; [|etrans; eassumption]. eapply Rep_ext; [|done].
    intros k'. cbn beta. unfold update.
    rewrite (list_filter_iff (goes s1 k') (goes s k') R) by (intros q; by apply goes_frame).
    case_decide as Hkk.
    + subst k'. rewrite filter_cons_True by done. by rewrite <-app_assoc.
    + rewrite filter_cons_False; [done|]. unfold goes in *. congruence.
Qed.

(** ** Dispatching *)

(** Each linked timer is sound for its slot, or its slot is stuck. *)
Definition placed s (k : K) (p : ptr) : Prop :=
  ∃ n, nodes (mem s) !! p = Some n ∧ 0 ≤ expire n < 4294967296 ∧
    (sound (time s) (expire n) k ∨ stuck k).

(** The timer holds the lists [L]; [R] is a chain being dispatched. *)
Record Inv s (L : K → list ptr) (R : list ptr) : Prop := {
  inv_rep : Rep (mem s) L R;
  inv_valid : slots_valid s;
  inv_time : 0 ≤ time s < 4294967296;
  inv_placed k p : p ∈ L k → placed s k p;
}.

Definition joined (L N : K → list ptr) : K → list ptr := λ k, L k ++ N k.

(** The nodes of [m] keep their data in [m']. *)
Definition kept (m m' : gmap ptr (node X)) (P : ptr → Prop) : Prop :=
  ∀ q n, P q → m !! q = Some n → ∃ n', m' !! q = Some n' ∧ set_next None n' = set_next None n.

(** What is allocated in [m'] was allocated in [m], or by a callback. *)
Definition within (m m' : gmap ptr (node X)) : Prop :=
  ∀ q, is_Some (m' !! q) → is_Some (m !! q) ∨ extra_node q.
#[export] Instance within_refl : Reflexive within.
Proof. intros m q. by left. Qed.
#[export] Instance within_trans : Transitive within.
Proof. intros m1 m2 m3 H1 H2 q [Hq|]%H2; [by apply H1|by right]. Qed.

Definition allowed (N : K → list ptr) : Prop := ∀ k q, q ∈ N k → extra_node q.

(** What a callback may do when it is called at time [t], the lock being free:
    add timers, none of which falls due now.  The node being handled is still
    allocated, and the rest [R] of the list is in the hands of the caller. *)
Definition well_behaved (t : Z) : Prop := ∀ s L R c p,
  Inv s L R → time s = t → lock s = 0 → is_Some (nodes (mem s) !! p) → unlinked L R p →
  ∃ s' N, call c p s = Done ((), s') ∧ Inv s' (joined L N) R ∧
    time s' = t ∧ lock s' = 0 ∧ current_point s' = current_point s ∧
    N (near_slot t) = [] ∧ kept (nodes (mem s)) (nodes (mem s')) (λ _, True) ∧
    (∀ k q, q ∈ N k → nodes (mem s) !! q = None) ∧
    allowed N ∧ within (nodes (mem s)) (nodes (mem s')).

Definition uncancelled (m : gmap ptr (node X)) (p : ptr) : Prop := cancel <$> m !! p = Some 0.
#[local] Instance uncancelled_dec m p : Decision (uncancelled m p).
Proof. unfold uncancelled. apply _. Defined.

Lemma uncancelled_kept m m' P q :
  kept m m' P → P q → is_Some (m !! q) → uncancelled m' q ↔ uncancelled m q.
Proof.
  intros Hk HP [n Hn]. destruct (Hk q n HP Hn) as (n' & Hn' & Heq). unfold uncancelled.
  rewrite Hn, Hn'. cbn. by rewrite (same_cancel n n').
Qed.

Lemma kept_trans m1 m2 m3 (P : ptr → Prop) : kept m1 m2 P → kept m2 m3 P → kept m1 m3 P.
Proof.
  intros H1 H2 q n HP Hq. destruct (H1 q n HP Hq) as (n2 & Hq2 & He2).
  destruct (H2 q n2 HP Hq2) as (n3 & Hq3 & He3). exists n3. split; congruence.
Qed.

Lemma kept_sub m m' (P Q : ptr → Prop) : (∀ q, Q q → P q) → kept m m' P → kept m m' Q.
Proof. intros Hs Hk q n HQ. apply Hk; auto. Qed.

Lemma kept_delete m p (P : ptr → Prop) : ¬ P p → kept m (delete p m) P.
Proof.
  intros Hp q n HP Hq. exists n. rewrite lookup_delete_ne; [done|]. by intros ->.
Qed.

Lemma Inv_free s L R p n :
  Inv s L R → unlinked L R p → nodes (mem s) !! p = Some n →
  ∃ s', on_mem (free p) s = Done ((), s') ∧ Inv s' L R ∧
    s' = set_mem (set_nodes (delete p (nodes (mem s))) (mem s)) s.
Proof.
  intros HI [HpL HpR] Hn. eexists. split; [|split; [|done]].
  { unfold on_mem. apply zoom_Done. unfold free.
    erewrite bind_Done by (by apply getsO_Done). done. }
  destruct HI as [HR Hv Ht Hpl]. destruct HR as [Hlist Hnone Hchain Hnd HndR Hdisj HdisjR].
  assert (∀ l : list ptr, p ∉ l → ∀ q, q ∈ l → delete p (nodes (mem s)) !! q = nodes (mem s) !! q) as Hdel.
  { intros l Hl q Hq. apply lookup_delete_ne. by intros ->. }
  split; [split|..]; cbn; try done.
  - intros k ll Hll. destruct (Hlist k ll Hll). split; [|done].
    eapply chain_frame; [|done]. by apply Hdel.
  - eapply chain_frame; [|done]. by apply Hdel.
  - intros k q Hq. destruct (Hpl k q Hq) as (nq & Hnq & ?). exists nq. split; [|done].
    cbn. by rewrite (Hdel (L k)).
Qed.

Lemma Inv_uncons s L R p :
  Inv s L (p :: R) →
  ∃ n, nodes (mem s) !! p = Some n ∧ next n = head R ∧ Inv s L R ∧ unlinked L R p.
Proof.
  intros [HR Hv Ht Hpl]. destruct (Rep_uncons _ _ _ _ HR) as (n & Hn & Hnext & HR1 & Hun).
  exists n. split_and!; try done; apply Hun.
Qed.

Lemma chain_linked s L R p : Inv s L R → p ∈ R → is_Some (nodes (mem s) !! p).
Proof. intros HI Hp. eapply chain_in; [apply (rep_chain _ _ _ (inv_rep _ _ _ HI))|done]. Qed.

Lemma Inv_ext s L L' R : (∀ k, L k = L' k) → Inv s L R → Inv s L' R.
Proof.
  intros Heq [HR Hv Ht Hpl]. split; try done; [by eapply Rep_ext|].
  intros k p. rewrite <-Heq. apply Hpl.
Qed.

Lemma dispatch_one t s L R p n :
  well_behaved t → time s = t → Inv s L (p :: R) → lock s = 0 → nodes (mem s) !! p = Some n →
  ∃ s' N, (if decide (cancel n = 0) then call (callback n) p;; mret [p] else mret []) s =
      Done (filter (uncancelled (nodes (mem s))) [p], s') ∧
    Inv s' (joined L N) R ∧ unlinked (joined L N) R p ∧
    time s' = t ∧ lock s' = 0 ∧ current_point s' = current_point s ∧
    N (near_slot t) = [] ∧ kept (nodes (mem s)) (nodes (mem s')) (λ _, True) ∧
    allowed N ∧ within (nodes (mem s)) (nodes (mem s')).
Proof.
  intros Hwb Ht HI Hl Hn. destruct (Inv_uncons _ _ _ _ HI) as (n' & Hn' & _ & HI1 & Hun).
  simplify_eq. destruct (decide (cancel n = 0)) as [Hc|Hc].
  - destruct (Hwb s L R (callback n) p) as (s1 & N & Hrun & HI2 & Ht2 & Hl2 & Hp2 & HN & Hk & Hfr & Hal & Hwi);
      [done..|by eexists|done|].
    exists s1, N. rewrite (bind_Done _ _ _ _ _ Hrun). rewrite filter_cons_True, filter_nil.
    2: { unfold uncancelled. rewrite Hn. cbn. by rewrite Hc. }
    split_and!; try done.
    + split; [|apply (proj2 Hun)]. intros k [Hin|Hin]%elem_of_app; [by eapply (proj1 Hun)|].
      apply Hfr in Hin. congruence.
  - exists s, (λ _, []). rewrite filter_cons_False, filter_nil.
    2: { unfold uncancelled. rewrite Hn. cbn. congruence. }
    split_and!; try done.
    + eapply Inv_ext; [|done]. intros k. unfold joined. by rewrite app_nil_r.
    + split; [|apply (proj2 Hun)]. intros k. unfold joined. rewrite app_nil_r. apply (proj1 Hun).
    + by intros q nq; eauto.
    + by intros k q Hq%elem_of_nil.
Qed.

Lemma joined_assoc L N1 N2 k : joined (joined L N1) N2 k = joined L (joined N1 N2) k.
Proof. unfold joined. by rewrite app_assoc. Qed.

Lemma dispatch_spec fuel s L p R :
  well_behaved (time s) → Inv s L (p :: R) → lock s = 0 → (length (p :: R) ≤ fuel)%nat →
  ∃ s' N, dispatch_list call fuel p s = Done (filter (uncancelled (nodes (mem s))) (p :: R), s') ∧
    Inv s' (joined L N) [] ∧ time s' = time s ∧ lock s' = 0 ∧ current_point s' = current_point s ∧
    N (near_slot (time s)) = [] ∧ kept (nodes (mem s)) (nodes (mem s')) (λ q, q ∉ p :: R) ∧
    allowed N ∧ within (nodes (mem s)) (nodes (mem s')).
Proof.
  revert s L p R. induction fuel as [|fuel IH]; intros s L p R Hwb HI Hl Hf; [cbn in Hf; lia|].
  cbn [dispatch_list]. destruct (Inv_uncons _ _ _ _ HI) as (n & Hn & Hnext & HI0 & Hun).
  erewrite bind_Done by (apply zoom_Done; by apply getsO_Done).
  assert (set_mem (mem s) s = s) as -> by by destruct s.
  destruct (dispatch_one (time s) s L R p n) as
    (s1 & N1 & Hrun & HI1 & Hun1 & Ht1 & Hl1 & Hp1 & HN1 & Hk1 & Hal1 & Hwi1); [done..|].
  rewrite (bind_Done _ _ _ _ _ Hrun), Hnext.
  destruct (Hk1 p n I Hn) as (n1 & Hn1 & _).
  destruct (Inv_free s1 _ R p n1 HI1 Hun1 Hn1) as (s2 & Hfree & HI2 & Hs2).
  rewrite (bind_Done _ _ _ _ _ Hfree).
  assert (time s2 = time s ∧ lock s2 = 0 ∧ current_point s2 = current_point s) as (Ht2 & Hl2 & Hp2).
  { subst s2. done. }
  assert (kept (nodes (mem s)) (nodes (mem s2)) (λ q, q ≠ p)) as Hk2.
  { eapply kept_trans; [by eapply kept_sub; [|exact Hk1]|]. subst s2. cbn.
    apply kept_delete. naive_solver. }
  assert (within (nodes (mem s)) (nodes (mem s2))) as Hwi2.
  { etrans; [exact Hwi1|]. subst s2. intros q. cbn. destruct (decide (p = q)) as [->|].
    - by rewrite lookup_delete_eq; intros [].
    - rewrite lookup_delete_ne by done. by left. }
  destruct R as [|q R]; cbn [head].
  - exists s2, N1. rewrite (bind_Done _ _ _ [] s2) by done. rewrite app_nil_r.
    split_and!; try done. eapply kept_sub; [|done]. intros q' Hq' ->. set_solver.
  - destruct (IH s2 (joined L N1) q R) as (s3 & N2 & Hrun3 & HI3 & Ht3 & Hl3 & Hp3 & HN2 & Hk3 & Hal3 & Hwi3);
      [by rewrite Ht2|done|done|cbn in Hf |- *; lia|].
    exists s3, (joined N1 N2). rewrite (bind_Done _ _ _ _ _ Hrun3). split_and!.
    + unfold mret, prog_ret. do 2 f_equal.
      rewrite (filter_app _ [p] (q :: R)). f_equal. apply filter_iff_in.
      intros q' Hq'. eapply uncancelled_kept; [exact Hk2| |by eapply (chain_linked s)].
      intros ->. apply (proj2 Hun). done.
    + eapply Inv_ext; [|done]. apply joined_assoc.
    + congruence.
    + done.
    + congruence.
    + unfold joined. rewrite HN1. rewrite Ht2 in HN2. by rewrite HN2.
    + eapply kept_trans; [|eapply kept_sub; [|exact Hk3]].
      * eapply kept_sub; [|exact Hk2]. set_solver.
      * set_solver.
    + intros k q' [Hq|Hq]%elem_of_app; [by eapply Hal1|by eapply Hal3].
    + etrans; eassumption.
Qed.

(** ** Executing a slot *)

(** Every slot but the one executed now is in order. *)
Record Ready s (L : K → list ptr) : Prop := {
  ready_rep : Rep (mem s) L [];
  ready_valid : slots_valid s;
  ready_time : 0 ≤ time s < 4294967296;
  ready_placed k p : k ≠ near_slot (time s) → p ∈ L k → placed s k p;
}.

Lemma chain_size (m : gmap ptr (node X)) (l : list ptr) :
  NoDup l → (∀ p, p ∈ l → is_Some (m !! p)) → (length l ≤ size m)%nat.
Proof.
  intros Hnd Hin. rewrite <-(size_dom m), <-(size_list_to_set (C := gset ptr)) by done.
  apply subseteq_size. intros p Hp%elem_of_list_to_set. by apply elem_of_dom, Hin.
Qed.

Lemma Rep_size (m : store K X) L k : Rep m L [] → (length (L k) ≤ size (nodes m))%nat.
Proof.
  intros HR. apply chain_size; [apply HR|]. intros p Hp.
  destruct (lists m !! k) as [ll|] eqn:Hk.
  - eapply chain_in; [|done]. by apply (rep_list _ _ _ HR).
  - rewrite (rep_none _ _ _ HR k Hk) in Hp. set_solver.
Qed.

Lemma head_list s L R k :
  Rep (mem s) L R → slots_valid s → valid k →
  ∃ ll, on_mem (read_list k) s = Done (ll, s) ∧ head_next ll = head (L k).
Proof.
  intros HR Hv Hk. apply Hv in Hk as [ll Hll]. exists ll. split.
  - destruct s. unfold on_mem. erewrite zoom_Done by (by apply getsO_Done). done.
  - destruct (rep_list _ _ _ HR k ll Hll) as [Hc _]. by eapply chain_head.
Qed.

Lemma execute_empty fuel s L :
  Rep (mem s) L [] → slots_valid s → L (near_slot (time s)) = [] → (0 < fuel)%nat →
  timer_execute near_slot call fuel s = Done ([], s).
Proof.
  intros HR Hv HL Hf. unfold timer_execute. rewrite gets_bind.
  destruct fuel as [|fuel]; [lia|]. cbn [execute_loop].
  destruct (head_list s L [] (near_slot (time s)) HR Hv) as (ll & Hrun & Hh); [apply wl_near_valid|].
  rewrite (bind_Done _ _ _ _ _ Hrun), Hh, HL. done.
Qed.

(** The slot of the current time is emptied: its uncancelled timers are called
    in order, with the lock released, and all its timers are freed. *)
Lemma execute_spec fuel s L :
  Ready s L → well_behaved (time s) → lock s = 1 → (S (size (nodes (mem s))) < fuel)%nat →
  let k := near_slot (time s) in
  ∃ s' N, timer_execute near_slot call fuel s =
      Done (filter (uncancelled (nodes (mem s))) (L k), s') ∧
    Inv s' (joined (update L k []) N) [] ∧
    time s' = time s ∧ lock s' = 1 ∧ current_point s' = current_point s ∧
    N k = [] ∧ kept (nodes (mem s)) (nodes (mem s')) (λ q, q ∉ L k) ∧
    allowed N ∧ within (nodes (mem s)) (nodes (mem s')).
Proof.
  intros [HR Hv Ht Hpl] Hwb Hl Hf k.
  assert (∀ k' p, p ∈ update L k [] k' → placed s k' p) as Hpl'.
  { intros k' p. unfold update. case_decide as Hk; [set_solver|]. apply Hpl. by intros ->. }
  destruct (L k) as [|p R] eqn:HL.
  { exists s, (λ _, []). rewrite (execute_empty fuel s L) by (done || lia). split; [done|].
    assert (∀ k', L k' = joined (update L k []) (λ _, []) k') as HLe.
    { intros k'. unfold joined, update. rewrite app_nil_r. case_decide; congruence. }
    split; [|split_and!; try done; [intros q n; eauto|by intros k' q Hq%elem_of_nil]].
    split; [by eapply Rep_ext|done..|]. intros k' q. rewrite <-HLe. intros Hq.
    apply Hpl'. unfold update. case_decide; [congruence|done]. }
  unfold timer_execute. rewrite gets_bind. fold k.
  destruct fuel as [|fuel]; [lia|]. cbn [execute_loop].
  destruct (head_list s L [] k HR Hv) as (ll & Hread & Hh); [apply wl_near_valid|].
  rewrite (bind_Done _ _ _ _ _ Hread), Hh, HL. cbn [head].
  destruct (link_clear_spec (mem s) L k HR) as (m & Hclear & HRm & Hm & Hlm);
    [apply Hv, wl_near_valid|].
  rewrite HL in Hclear, HRm. cbn [head] in Hclear.
  rewrite (bind_Done _ _ s _ _ (zoom_Done mem set_mem _ s _ _ Hclear)).
  unfold spinlock_unlock at 1. rewrite modS_bind.
  set (s1 := set_lock 0 (set_mem m s)).
  assert (Inv s1 (update L k []) (p :: R)) as HI1.
  { split; [done| |done|].
    - intros k'. cbn. rewrite Hlm. apply Hv.
    - intros k' q Hq. destruct (Hpl' k' q Hq) as (n & Hn & ?). exists n. split; [|done].
      cbn. by rewrite Hm. }
  assert (length (p :: R) ≤ size (nodes (mem s)))%nat as Hlen by (rewrite <-HL; by apply Rep_size).
  destruct (dispatch_spec (S fuel) s1 _ p R Hwb HI1) as (s2 & N & Hrun & HI2 & Ht2 & Hl2 & Hp2 & HN & Hk2 & Hal2 & Hwi2);
    [done|lia|].
  rewrite (bind_Done _ _ _ _ _ Hrun).
  unfold spinlock_lock. rewrite (bind_Done _ _ s2 () (set_lock 1 s2)).
  2: { rewrite gets_bind. by rewrite Hl2. }
  assert (Inv (set_lock 1 s2) (joined (update L k []) N) []) as HI3 by by destruct HI2.
  pose proof (execute_empty fuel (set_lock 1 s2) _ (inv_rep _ _ _ HI3) (inv_valid _ _ _ HI3)) as Hempty.
  unfold timer_execute in Hempty. rewrite gets_bind in Hempty. cbn [time set_lock] in Hempty.
  rewrite Ht2 in Hempty. cbn [time s1 set_lock set_mem] in Hempty, HN. fold k in Hempty, HN.
  exists (set_lock 1 s2), N. split_and!.
  - erewrite bind_Done.
    2: { apply Hempty; [|lia]. unfold joined. by rewrite update_eq, HN. }
    unfold mret, prog_ret. rewrite app_nil_r. cbn [mem s1 set_lock set_mem nodes]. by rewrite Hm.
  - done.
  - done.
  - done.
  - done.
  - done.
  - cbn [mem s1 set_lock set_mem nodes] in Hk2. by rewrite Hm in Hk2.
  - done.
  - cbn [mem s1 set_lock set_mem nodes] in Hwi2. by rewrite Hm in Hwi2.
Qed.

(** ** One tick *)

Definition next_time s : Z := u32 (time s + 1).

Definition linked (L : K → list ptr) (p : ptr) : Prop := ∃ k, p ∈ L k.
(** Timers whose slot will be executed, and those whose slot never will. *)
Definition pending (L : K → list ptr) (p : ptr) : Prop := ∃ k, p ∈ L k ∧ ¬ stuck k.
Definition lost (L : K → list ptr) (p : ptr) : Prop := ∃ k, p ∈ L k ∧ stuck k.
Definition expires s (p : ptr) (e : Z) : Prop := ∃ n, nodes (mem s) !! p = Some n ∧ expire n = e.

(** The lists after [timer_shift] to time [t]. *)
Definition shifted s (t : Z) (L : K → list ptr) : K → list ptr :=
  match moved t with
  | Some k0 => joined (update L k0 []) (λ k, filter (goes (set_time t s) k) (L k0))
  | None => L
  end.

Lemma shift_spec fuel s L :
  Inv s L [] → tick_ok (time s) → (size (nodes (mem s)) < fuel)%nat →
  ∃ s', timer_shift fuel s = Done ((), s') ∧ Rep (mem s') (shifted s (next_time s) L) [] ∧
    frame (set_time (next_time s) s) s'.
Proof.
  intros [HR Hv Ht Hpl] Hok Hf. rewrite wl_shift by done. cbn zeta.
  fold (next_time s). set (t' := next_time s).
  rewrite modS_bind. unfold shifted. destruct (moved t') as [k0|] eqn:Hmv.
  - unfold move_list.
    destruct (link_clear_spec (mem s) L k0 HR) as (m & Hclear & HRm & Hm & Hlm).
    { by eapply Hv, wl_moved_valid. }
    rewrite (bind_Done _ _ (set_time t' s) _ _ (zoom_Done mem set_mem _ (set_time t' s) _ _ Hclear)).
    set (s1 := set_mem m (set_time t' s)).
    assert (frame (set_time t' s) s1) as Hf1.
    { split_and!; try done. cbn. by rewrite Hm. }
    destruct (move_loop_spec fuel s1 (update L k0 []) (L k0)) as (s2 & Hrun & HR2 & Hf2).
    + done.
    + eapply slots_valid_frame; [exact Hf1|]. done.
    + apply u32_range.
    + intros p Hp. destruct (Hpl k0 p Hp) as (n & Hn & Hr & _).
      eapply in_range_frame; [exact Hf1|]. by exists n.
    + pose proof (Rep_size (mem s) L k0 HR). lia.
    + exists s2. split; [done|]. split; [|etrans; eassumption].
      eapply Rep_ext; [|exact HR2]. intros k. unfold joined. f_equal.
      apply filter_iff_in. intros q _. by apply goes_frame.
  - exists (set_time t' s). split; [done|]. by split.
Qed.

Lemma placed_frame s s' k p : frame s s' → placed s k p → placed s' k p.
Proof.
  intros Hf (n & Hn & Hr & Hs). destruct (frame_lookup _ _ _ _ Hf Hn) as (n' & Hn' & Heq).
  apply same_expire in Heq. destruct Hf as (Ht & _). exists n'. rewrite Heq, Ht. done.
Qed.

(** Where the timers are after the shift. *)
Lemma shifted_in s t L k p :
  p ∈ shifted s t L k ↔
  (p ∈ L k ∧ moved t ≠ Some k) ∨
  (∃ k0 n, moved t = Some k0 ∧ p ∈ L k0 ∧ nodes (mem s) !! p = Some n ∧ k = place t (expire n)).
Proof.
  unfold shifted. destruct (moved t) as [k0|].
  - unfold joined. rewrite elem_of_app, list_elem_of_filter.
    unfold goes. cbn [mem set_time time]. unfold update. split.
    + intros [Hp|[Hg Hp]].
      * case_decide; [set_solver|]. left. split; [done|congruence].
      * right. destruct (nodes (mem s) !! p) as [n|] eqn:Hn; [|done]. injection Hg as <-.
        by exists k0, n.
    + intros [[Hp Hne]|(k1 & n & [= <-] & Hp & Hn & ->)].
      * left. by rewrite decide_False by congruence.
      * right. by rewrite Hn.
  - split; [|intros [[]|(? & ? & [=] & _)]; done]. intros Hp. by left.
Qed.

Section at_tick.
Context s (L : K → list ptr) (HI : Inv s L []) (Hok : tick_ok (time s)).
Let t' := next_time s.

(** The three fates of a timer that is not lost. *)
Lemma tick_cases k p :
  p ∈ L k → ¬ stuck k →
  ∃ n, nodes (mem s) !! p = Some n ∧ 0 ≤ expire n < 4294967296 ∧
  ((k = near_slot t' ∧ expire n = t') ∨
   (moved t' = Some k ∧ (expire n = t' ∧ place t' (expire n) = near_slot t' ∨
      expire n ≠ t' ∧ sound t' (expire n) (place t' (expire n)))) ∨
   (k ≠ near_slot t' ∧ moved t' ≠ Some k ∧ expire n ≠ t' ∧ sound t' (expire n) k)).
Proof.
  intros Hp Hst. destruct (inv_placed _ _ _ HI k p Hp) as (n & Hn & Hr & [Hso|]); [|done].
  exists n. split; [done|]. split; [done|]. by apply wl_tick; [..|apply HI| |].
Qed.

Lemma one_slot k k' p : p ∈ L k → p ∈ L k' → k = k'.
Proof. apply (rep_disj _ _ _ (inv_rep _ _ _ HI)). Qed.

(** The slot of the new time holds exactly what expires now. *)
Lemma shifted_now p : p ∈ shifted s t' L (near_slot t') ↔ pending L p ∧ expires s p t'.
Proof.
  rewrite shifted_in. split.
  - intros [[Hp Hne]|(k0 & n & Hmv & Hp & Hn & Hk)].
    + pose proof (wl_stuck_near t') as Hst.
      destruct (tick_cases _ p Hp Hst) as (n & Hn & _ & [[_ He]|[[Hm _]|[]]]); [|done..].
      split; [by eexists|by exists n].
    + pose proof (wl_stuck_moved _ _ Hmv) as Hst.
      destruct (tick_cases _ p Hp Hst) as (n' & Hn' & _ & Hcase). simplify_eq.
      destruct Hcase as [[-> _]|[[_ [[He _]|[_ Hso]]]|[_ [Hm _]]]].
      * by apply wl_moved_near in Hmv.
      * split; [by eexists|by exists n].
      * rewrite <-Hk in Hso. by apply wl_not_now in Hso.
      * done.
  - intros [(k & Hp & Hst) (n & Hn & He)].
    destruct (tick_cases _ p Hp Hst) as (n' & Hn' & _ & Hcase). simplify_eq.
    destruct Hcase as [[-> _]|[[Hm [[_ Hk]|[Hne _]]]|(_ & _ & Hne & _)]]; [left|right|done|done].
    + split; [done|]. apply wl_moved_near.
    + exists k, n. by rewrite Hk.
Qed.

(** All the other slots are in order at the new time. *)
Lemma shifted_placed k p :
  k ≠ near_slot t' → p ∈ shifted s t' L k →
  placed (set_time t' s) k p ∧ (¬ stuck k → ¬ expires s p t').
Proof.
  intros Hk. rewrite shifted_in. intros [[Hp Hne]|(k0 & n & Hmv & Hp & Hn & ->)].
  - destruct (inv_placed _ _ _ HI k p Hp) as (n & Hn & Hr & [Hso|Hst]).
    + destruct (tick_cases _ p Hp (wl_not_stuck _ _ _ Hso)) as (n' & Hn' & _ & Hcase). simplify_eq.
      destruct Hcase as [[]|[[]|(_ & _ & Hne' & ?)]]; try done. split.
      * exists n. split; [done|split; [done|by left]].
      * intros _ (n' & ? & ?). by simplify_eq.
    + split; [|done]. exists n. split; [done|split; [done|by right]].
  - destruct (tick_cases _ p Hp (wl_stuck_moved _ _ Hmv)) as (n' & Hn' & Hr & Hcase). simplify_eq.
    destruct Hcase as [[-> _]|[[_ [[_ ?]|[Hne' ?]]]|[_ [Hm _]]]];
      [by apply wl_moved_near in Hmv|done| |done].
    split; [exists n; split; [done|split; [done|by left]]|]. intros _ (n' & ? & ?). by simplify_eq.
Qed.

Lemma shifted_slot k p :
  k ≠ near_slot t' → p ∈ shifted s t' L k → ¬ stuck k → pending L p.
Proof.
  intros Hk Hp Hst. apply shifted_in in Hp as [[Hp _]|(k0 & n' & Hmv & Hp & _)].
  - by exists k.
  - exists k0. split; [done|]. by eapply wl_stuck_moved.
Qed.

(** What remains linked: everything that does not expire now. *)
Lemma shifted_pending p :
  pending (update (shifted s t' L) (near_slot t') []) p ↔ pending L p ∧ ¬ expires s p t'.
Proof.
  split.
  - intros (k & Hp & Hst). unfold update in Hp. case_decide as Hk; [set_solver|].
    apply not_eq_sym in Hk. split; [by eapply shifted_slot|]. by apply (shifted_placed k p Hk Hp).
  - intros [(k & Hp & Hst) Hne].
    destruct (tick_cases _ p Hp Hst) as (n & Hn & _ & [[_ He]|[[Hm [[He _]|[_ Hso]]]|(Hk & Hm & _ & _)]]).
    + destruct Hne. by exists n.
    + destruct Hne. by exists n.
    + exists (place t' (expire n)). split; [|by eapply wl_not_stuck].
      rewrite update_ne by (apply not_eq_sym; by eapply wl_not_now).
      apply shifted_in. right. by exists k, n.
    + exists k. split; [|done]. rewrite update_ne by done. apply shifted_in. by left.
Qed.

Lemma shifted_lost p : lost (update (shifted s t' L) (near_slot t') []) p ↔ lost L p.
Proof.
  split; intros (k & Hp & Hst).
  - unfold update in Hp. case_decide as Hk; [set_solver|].
    apply shifted_in in Hp as [[Hp _]|(k0 & n & Hmv & Hp & Hn & ->)]; [by exists k|].
    exfalso. destruct (tick_cases _ p Hp (wl_stuck_moved _ _ Hmv)) as (n' & Hn' & _ & Hcase). simplify_eq.
    destruct Hcase as [[-> _]|[[_ [[_ Hk']|[_ Hso]]]|[_ [Hm _]]]].
    + by apply wl_moved_near in Hmv.
    + done.
    + by apply wl_not_stuck in Hso.
    + done.
  - exists k. split; [|done]. rewrite update_ne.
    + apply shifted_in. left. split; [done|]. intros Hm. by apply wl_stuck_moved in Hm.
    + intros <-. by apply wl_stuck_near in Hst.
Qed.
End at_tick.

(** What one tick does: the result of [timer_update] at time [t]. *)
Record ticked s (L : K → list ptr) (fired : list ptr) s' (L' : K → list ptr) : Prop := {
  tk_inv : Inv s' L' [];
  tk_time : time s' = next_time s;
  tk_lock : lock s' = 0;
  tk_point : current_point s' = current_point s;
  tk_nodup : NoDup fired;
  tk_fired p : p ∈ fired ↔
    pending L p ∧ expires s p (next_time s) ∧ uncancelled (nodes (mem s)) p;
  tk_pending p : pending L' p → (pending L p ∧ ¬ expires s p (next_time s)) ∨ extra_node p;
  tk_stays p : pending L p → ¬ expires s p (next_time s) → pending L' p;
  tk_lost p : lost L p → lost L' p;
  tk_lost_inv p : lost L' p → lost L p ∨ extra_node p;
  tk_kept : kept (nodes (mem s)) (nodes (mem s'))
    (λ p, linked L p ∧ ¬ (pending L p ∧ expires s p (next_time s)));
  tk_within : within (nodes (mem s)) (nodes (mem s'));
}.

Lemma Inv_lock s L R l : Inv s L R → Inv (set_lock l s) L R.
Proof. by intros []. Qed.

Lemma size_frame s s' : frame s s' → size (nodes (mem s')) = size (nodes (mem s)).
Proof.
  intros (_ & _ & _ & Hd & _). rewrite <-!(size_dom (D := gset ptr)). f_equal.
  apply set_eq. intros p. rewrite !elem_of_dom. specialize (Hd p).
  destruct (nodes (mem s) !! p), (nodes (mem s') !! p); try done; by split; eexists.
Qed.

Lemma empty_now s L : Inv s L [] → L (near_slot (time s)) = [].
Proof.
  intros HI. destruct (L (near_slot (time s))) as [|p l] eqn:HL; [done|].
  destruct (inv_placed _ _ _ HI (near_slot (time s)) p) as (n & _ & _ & [Hs|Hs]).
  - rewrite HL. set_solver.
  - by apply wl_not_now in Hs.
  - by apply wl_stuck_near in Hs.
Qed.

Lemma pending_joined L N p : pending (joined L N) p ↔ pending L p ∨ pending N p.
Proof. unfold pending, joined. setoid_rewrite elem_of_app. naive_solver. Qed.
Lemma lost_joined L N p : lost (joined L N) p ↔ lost L p ∨ lost N p.
Proof. unfold lost, joined. setoid_rewrite elem_of_app. naive_solver. Qed.

Lemma allowed_pending N p : allowed N → pending N p ∨ lost N p → extra_node p.
Proof. intros Ha [(k & Hk & _)|(k & Hk & _)]; by eapply Ha. Qed.

(** The state in which the new slot is executed. *)
Lemma shift_ready fuel s L :
  Inv s L [] → tick_ok (time s) → (size (nodes (mem s)) < fuel)%nat →
  ∃ s', timer_shift fuel s = Done ((), s') ∧ Ready s' (shifted s (next_time s) L) ∧
    frame (set_time (next_time s) s) s'.
Proof.
  intros HI Hok Hf. destruct (shift_spec fuel s L HI Hok Hf) as (s' & Hrun & HR & Hfr).
  exists s'. split; [done|]. split; [|done]. destruct Hfr as (Ht & Hrest).
  split; [done|..|].
  - eapply slots_valid_frame; [by split|]. apply HI.
  - rewrite Ht. apply u32_range.
  - intros k p Hk Hp. rewrite Ht in Hk. eapply placed_frame; [by split|].
    by apply (shifted_placed s L).
Qed.

Lemma uncancelled_frame s s' p :
  frame s s' → uncancelled (nodes (mem s')) p ↔ uncancelled (nodes (mem s)) p.
Proof.
  intros (_ & _ & _ & Hd & _). specialize (Hd p). unfold uncancelled.
  destruct (nodes (mem s) !! p) as [n|], (nodes (mem s') !! p) as [n'|]; try done.
  cbn in Hd |- *. apply (inj Some) in Hd. by rewrite (same_cancel n n').
Qed.

Lemma frame_kept s s' P : frame s s' → kept (nodes (mem s)) (nodes (mem s')) P.
Proof. intros Hf q n _ Hq. by eapply frame_lookup. Qed.

Lemma frame_within s s' : frame s s' → within (nodes (mem s)) (nodes (mem s')).
Proof.
  intros Hf q [n' Hn']. left. destruct (frame_lookup_inv _ _ _ _ Hf Hn') as (n & ? & _). by exists n.
Qed.

Lemma update_run fuel s L :
  Inv s L [] → lock s = 0 → tick_ok (time s) → well_behaved (next_time s) →
  (S (size (nodes (mem s))) < fuel)%nat →
  ∃ fired s' L', timer_update near_slot call timer_shift fuel s = Done (fired, s') ∧
    ticked s L fired s' L'.
Proof.
  intros HI Hl Hok Hwb Hf. unfold timer_update, spinlock_lock.
  rewrite (bind_Done _ _ s () (set_lock 1 s)) by (rewrite gets_bind; by rewrite Hl).
  pose proof (Inv_lock s L [] 1 HI) as HI1. set (s1 := set_lock 1 s) in *.
  erewrite bind_Done.
  2: { apply (execute_empty fuel s1 L); [apply HI1..|by apply empty_now|lia]. }
  destruct (shift_ready fuel s1 L HI1 Hok) as (s2 & Hshift & Hready & Hfr); [cbn; lia|].
  rewrite (bind_Done _ _ _ _ _ Hshift).
  change (next_time s1) with (next_time s) in *. set (t' := next_time s) in *.
  pose proof Hfr as (Ht2 & Hl2 & Hp2 & _). cbn in Ht2, Hl2, Hp2.
  destruct (execute_spec fuel s2 _ Hready) as
    (s3 & N & Hrun & HI3 & Ht3 & Hl3 & Hp3 & HN & Hk3 & Hal & Hwi); [by rewrite Ht2|done| |].
  { rewrite (size_frame _ _ Hfr). done. }
  rewrite (bind_Done _ _ _ _ _ Hrun). unfold spinlock_unlock. rewrite modS_bind.
  rewrite Ht2 in *. change (shifted s1 t' L) with (shifted s t' L) in *.
  eexists _, (set_lock 0 s3), _. split; [done|].
  assert (∀ p, p ∈ filter (uncancelled (nodes (mem s2))) (shifted s t' L (near_slot t')) ↔
    pending L p ∧ expires s p t' ∧ uncancelled (nodes (mem s)) p) as Hfired.
  { intros p. rewrite list_elem_of_filter.
    pose proof (shifted_now s L HI Hok p) as Hnow. fold t' in Hnow. rewrite Hnow.
    rewrite (uncancelled_frame _ _ _ Hfr). cbn. tauto. }
  assert (∀ p, p ∈ shifted s t' L (near_slot t') ↔ pending L p ∧ expires s p t') as Hnow
    by apply (shifted_now s L HI Hok).
  split; cbn [time lock current_point mem set_lock].
  - by apply Inv_lock.
  - by rewrite Ht3.
  - done.
  - by rewrite Hp3, Hp2.
  - apply NoDup_filter. apply (rep_nodup _ _ _ (ready_rep _ _ Hready)).
  - apply Hfired.
  - intros p [Hp|Hp]%pending_joined; [left|right].
    + by apply (shifted_pending s L HI Hok).
    + apply (allowed_pending N); auto.
  - intros p Hp Hne. apply pending_joined. left. by apply (shifted_pending s L HI Hok).
  - intros p Hp. apply lost_joined. left. by apply (shifted_lost s L HI Hok).
  - intros p [Hp|Hp]%lost_joined; [left|right].
    + by apply (shifted_lost s L HI Hok).
    + apply (allowed_pending N); auto.
  - eapply (kept_trans _ (nodes (mem s2))).
    + apply (frame_kept _ _ _ Hfr).
    + eapply kept_sub; [|exact Hk3]. intros p [_ Hp]. by rewrite Hnow.
  - etrans; [apply (frame_within _ _ Hfr)|done].
Qed.

(** What [d] ticks do when the callbacks add no timer: exactly the pending
    timers that expire within the next [d] ticks are called, in the order of
    their expiry, unless they are cancelled; the others stay. *)
Definition expires_within s (p : ptr) (d : Z) : Prop :=
  ∃ e, expires s p e ∧ 1 ≤ u32 (e - time s) ≤ d.
Definition no_later s (p q : ptr) : Prop :=
  ∃ e1 e2, expires s p e1 ∧ expires s q e2 ∧ u32 (e1 - time s) ≤ u32 (e2 - time s).

Record ran s (L : K → list ptr) (d : Z) (fired : list ptr) s' (L' : K → list ptr) : Prop := {
  rn_inv : Inv s' L' [];
  rn_time : time s' = u32 (time s + d);
  rn_lock : lock s' = 0;
  rn_point : current_point s' = current_point s;
  rn_nodup : NoDup fired;
  rn_fired p : p ∈ fired ↔
    pending L p ∧ expires_within s p d ∧ uncancelled (nodes (mem s)) p;
  rn_order : StronglySorted (no_later s) fired;
  rn_pending p : pending L' p ↔ pending L p ∧ ¬ expires_within s p d;
  rn_lost p : lost L' p ↔ lost L p;
}.

Lemma expires_functional s p e1 e2 : expires s p e1 → expires s p e2 → e1 = e2.
Proof. intros (n & ? & ?) (n' & ? & ?). simplify_eq. congruence. Qed.

Lemma pending_expires s L p : Inv s L [] → pending L p → ∃ e, expires s p e ∧ 0 ≤ e < 4294967296.
Proof.
  intros HI (k & Hp & _). destruct (inv_placed _ _ _ HI k p Hp) as (n & ? & ? & _).
  exists (expire n). split; [by exists n|done].
Qed.

Lemma kept_expires s s' P p e :
  kept (nodes (mem s)) (nodes (mem s')) P → P p → expires s p e → expires s' p e.
Proof.
  intros Hk HP (n & Hn & <-). destruct (Hk p n HP Hn) as (n' & Hn' & Heq).
  exists n'. split; [done|]. by apply same_expire.
Qed.

Lemma u32_step t e : 0 ≤ e < 4294967296 → 0 ≤ t < 4294967296 →
  e ≠ u32 (t + 1) → 1 ≤ u32 (e - t) → u32 (e - u32 (t + 1)) = u32 (e - t) - 1 ∧ 2 ≤ u32 (e - t).
Proof. word_lia. Qed.

Lemma u32_next t e : 0 ≤ e < 4294967296 → 0 ≤ t < 4294967296 →
  e = u32 (t + 1) ↔ u32 (e - t) = 1.
Proof. word_lia. Qed.

Lemma u32_step_back t e : 0 ≤ e < 4294967296 → 0 ≤ t < 4294967296 →
  e ≠ t → u32 (e - t) = u32 (e - u32 (t + 1)) + 1.
Proof. word_lia. Qed.

Section silent.
(** The callbacks add nothing. *)
Context (Hsilent : ∀ p, ¬ extra_node p).

Section one_more.
Context s (L : K → list ptr) (fired1 : list ptr) s1 (L1 : K → list ptr).
Context (HI : Inv s L []) (Htk : ticked s L fired1 s1 L1).

Lemma step_pending p : pending L1 p ↔ pending L p ∧ ¬ expires s p (next_time s).
Proof.
  split.
  - intros [|Hx]%(tk_pending _ _ _ _ _ Htk); [done|by apply Hsilent in Hx].
  - intros []. by apply (tk_stays _ _ _ _ _ Htk).
Qed.

Lemma step_lost p : lost L1 p ↔ lost L p.
Proof.
  split; [|apply (tk_lost _ _ _ _ _ Htk)].
  intros [|Hx]%(tk_lost_inv _ _ _ _ _ Htk); [done|by apply Hsilent in Hx].
Qed.

(** A timer that stays keeps its data. *)
Lemma step_stays p : pending L1 p →
  linked L p ∧ ¬ (pending L p ∧ expires s p (next_time s)).
Proof. intros [(k & ? & ?) Hne]%step_pending. split; [by exists k|tauto]. Qed.

Lemma step_expires p e : pending L1 p → expires s1 p e ↔ expires s p e.
Proof.
  intros Hp. pose proof (step_stays p Hp) as Hst. pose proof (proj1 (step_pending p) Hp) as [HpL _].
  destruct (pending_expires s L p HI HpL) as (e' & He' & _).
  pose proof (kept_expires _ _ _ _ _ (tk_kept _ _ _ _ _ Htk) Hst He') as He1.
  split; intros He.
  - by rewrite (expires_functional _ _ _ _ He He1).
  - by rewrite (expires_functional _ _ _ _ He He').
Qed.

Lemma pending_not_due p e : pending L p → expires s p e → e ≠ time s.
Proof.
  intros (k & Hp & Hst) (n & Hn & <-).
  destruct (inv_placed _ _ _ HI k p Hp) as (n' & Hn' & _ & [Hso|]); [|done]. simplify_eq.
  by eapply wl_not_due.
Qed.

(** Expiring within [d + 1] ticks is expiring at the next one or within [d]
    ticks after it. *)
Lemma step_within p d : 0 ≤ d < 4294967295 → pending L p →
  expires_within s p (d + 1) ↔
  expires s p (next_time s) ∨ (pending L1 p ∧ expires_within s1 p d).
Proof.
  intros Hd Hp. destruct (pending_expires s L p HI Hp) as (e & He & Hr).
  pose proof (pending_not_due p e Hp He) as Hne. pose proof (inv_time _ _ _ HI) as Ht.
  pose proof (u32_next (time s) e Hr Ht) as Hnext.
  pose proof (u32_step_back (time s) e Hr Ht Hne) as Hback.
  pose proof (u32_range (e - u32 (time s + 1))).
  unfold expires_within. rewrite (tk_time _ _ _ _ _ Htk). split.
  - intros (e' & He' & Hw). assert (e' = e) as -> by by eapply expires_functional.
    destruct (decide (e = next_time s)) as [<-|Hnn]; [by left|right].
    assert (pending L1 p) as Hp1.
    { apply step_pending. split; [done|]. intros He2. by eapply Hnn, expires_functional. }
    split; [done|]. exists e. split; [by apply step_expires|]. unfold next_time in *. lia.
  - intros [He2|[Hp1 (e' & He' & Hw)]].
    + assert (e = next_time s) as -> by by eapply expires_functional.
      exists (next_time s). split; [done|]. unfold next_time in *. lia.
    + apply step_expires in He'; [|done]. assert (e' = e) as -> by by eapply expires_functional.
      exists e. split; [done|]. unfold next_time in *. lia.
Qed.

Lemma step_uncancelled p : pending L1 p →
  uncancelled (nodes (mem s1)) p ↔ uncancelled (nodes (mem s)) p.
Proof.
  intros Hp. eapply uncancelled_kept; [apply (tk_kept _ _ _ _ _ Htk)|by apply step_stays|].
  apply step_pending in Hp as [Hp _].
  destruct (pending_expires s L p HI Hp) as (e & (n & Hn & _) & _). by exists n.
Qed.

Lemma step_no_later p q : pending L1 p → pending L1 q → no_later s1 p q → no_later s p q.
Proof.
  intros Hp Hq (e1 & e2 & He1%step_expires & He2%step_expires & Hle); [|done..].
  apply step_pending in Hp as [Hp _], Hq as [Hq _].
  destruct (pending_expires s L p HI Hp) as (e1' & He1' & Hr1).
  destruct (pending_expires s L q HI Hq) as (e2' & He2' & Hr2).
  assert (e1' = e1) as -> by by eapply expires_functional.
  assert (e2' = e2) as -> by by eapply expires_functional.
  exists e1, e2. split; [done|]. split; [done|].
  pose proof (inv_time _ _ _ HI) as Ht. rewrite (tk_time _ _ _ _ _ Htk) in Hle.
  pose proof (u32_step_back (time s) e1 Hr1 Ht (pending_not_due _ _ Hp He1)).
  pose proof (u32_step_back (time s) e2 Hr2 Ht (pending_not_due _ _ Hq He2)).
  unfold next_time in *. lia.
Qed.

Lemma fired_first p q : p ∈ fired1 → pending L q → no_later s p q.
Proof.
  intros (Hp & He & _)%(tk_fired _ _ _ _ _ Htk) Hq.
  destruct (pending_expires s L q HI Hq) as (e & Heq & Hr).
  pose proof (pending_not_due q e Hq Heq). pose proof (inv_time _ _ _ HI).
  exists (next_time s), e. split; [done|]. split; [done|]. unfold next_time. word_lia.
Qed.
End one_more.

Lemma within_size m m' : within m m' → (size m' ≤ size m)%nat.
Proof.
  intros Hw. rewrite <-!(size_dom (D := gset ptr)). apply subseteq_size. intros q.
  rewrite !elem_of_dom. intros [|Hx]%Hw; [done|by apply Hsilent in Hx].
Qed.

Lemma updates_run fuel d s L :
  Inv s L [] → lock s = 0 → Z.of_nat d < 4294967296 →
  (∀ t, well_behaved t) → (∀ i, 0 ≤ i < Z.of_nat d → tick_ok (u32 (time s + i))) →
  (S (size (nodes (mem s))) < fuel)%nat →
  ∃ fired s' L', timer_updates near_slot call timer_shift fuel d s = Done (fired, s') ∧
    ran s L (Z.of_nat d) fired s' L'.
Proof.
  intros HI Hl Hd Hwb. revert s L HI Hl. induction d as [|d IH]; intros s L HI Hl Hok Hf.
  { exists [], s, L. split; [done|].
    assert (∀ p, ¬ expires_within s p (Z.of_nat 0)) as Hno by (intros p (e & _ & ?); lia).
    split; try done.
    - rewrite Z.add_0_r. symmetry. apply u32_small, HI.
    - constructor.
    - intros p. split; [by intros ?%elem_of_nil|intros (_ & ? & _); exfalso; by eapply Hno].
    - constructor.
    - intros p. naive_solver. }
  cbn [timer_updates]. pose proof (inv_time _ _ _ HI) as Htr.
  destruct (update_run fuel s L HI Hl) as (f1 & s1 & L1 & Hrun & Htk);
    [by rewrite <-(u32_small (time s)), <-(Z.add_0_r (time s)) by done; apply Hok; lia|done..|].
  rewrite (bind_Done _ _ _ _ _ Hrun). pose proof Htk as [HI1 Ht1 Hl1 Hp1 Hnd Hfi _ _ _ _ Hke Hwi].
  destruct (IH ltac:(lia) s1 L1 HI1 Hl1) as (f2 & s2 & L2 & Hrun2 & [HI2 Ht2 Hl2 Hp2 Hnd2 Hfi2 Ho2 Hpe2 Hlo2]).
  { intros i Hi. rewrite Ht1. unfold next_time. rewrite u32_add_l, <-Z.add_assoc. apply Hok. lia. }
  { pose proof (within_size _ _ Hwi). lia. }
  rewrite (bind_Done _ _ _ _ _ Hrun2). exists (f1 ++ f2), s2, L2. split; [done|].
  replace (Z.of_nat (S d)) with (Z.of_nat d + 1) by lia.
  assert (∀ p, p ∈ f2 → pending L1 p) as Hf2 by (intros p (? & _)%Hfi2; done).
  split; try done.
  - rewrite Ht2, Ht1. unfold next_time. rewrite u32_add_l. f_equal. lia.
  - congruence.
  - apply NoDup_app. split_and!; [done| |done]. intros p Hpf1 Hpf2.
    apply Hf2, (step_pending s L f1 s1 L1 Htk) in Hpf2. apply Hfi in Hpf1. tauto.
  - intros p. rewrite elem_of_app, Hfi, Hfi2. split.
    + intros [(Hp & He & Hu)|(Hp & Hw & Hu)].
      * split_and!; [done| |done]. apply (step_within s L f1 s1 L1); [done..|lia|done|by left].
      * pose proof (proj1 (step_pending s L f1 s1 L1 Htk p) Hp) as [HpL _].
        split_and!; [done| |by apply (step_uncancelled s L f1 s1 L1)].
        apply (step_within s L f1 s1 L1); [done..|lia|done|by right].
    + intros (Hp & Hw & Hu). apply (step_within s L f1 s1 L1) in Hw as [He|[Hp1' Hw]]; [by left| |done..|lia|done].
      right. split_and!; [done..|]. by apply (step_uncancelled s L f1 s1 L1).
  - assert (∀ p q, p ∈ f1 → q ∈ f1 ++ f2 → no_later s p q) as Hfirst.
    { intros p q Hpf Hq. apply (fired_first s L f1 s1 L1); [done..|].
      apply elem_of_app in Hq as [(? & _)%Hfi|Hq%Hf2]; [done|].
      by apply (step_pending s L f1 s1 L1 Htk) in Hq as []. }
    apply StronglySorted_prepend; [done|]. eapply StronglySorted_impl; [|exact Ho2].
    intros p q Hpf Hqf. apply (step_no_later s L f1 s1 L1); auto.
  - intros p. rewrite Hpe2. rewrite (step_pending s L f1 s1 L1 Htk p). split.
    + intros [[Hp He] Hw]. split; [done|]. intros Hx.
      apply (step_within s L f1 s1 L1) in Hx as [|[]]; try done; lia.
    + intros [Hp Hw]. assert (¬ expires s p (next_time s)).
      { intros He. apply Hw. apply (step_within s L f1 s1 L1); [done..|lia|done|by left]. }
      split; [done|]. intros Hx. apply Hw. apply (step_within s L f1 s1 L1); [done..|lia|done|].
      right. split; [|done]. by apply (step_pending s L f1 s1 L1 Htk).
  - intros p. rewrite Hlo2. apply (step_lost s L f1 s1 L1 Htk).
Qed.
End silent.

(** ** Adding and cancelling *)

(** One timer in slot [k]. *)
Definition only (k : K) (p : ptr) : K → list ptr := λ k', if decide (k = k') then [p] else [].

Lemma fresh_unlinked s L R p : Inv s L R → nodes (mem s) !! p = None → unlinked L R p.
Proof.
  intros HI Hp. split.
  - intros k Hk. destruct (inv_placed _ _ _ HI k p Hk) as (n & Hn & _). congruence.
  - intros Hk. destruct (chain_linked _ _ _ _ HI Hk) as [n Hn]. congruence.
Qed.

(** Writing a node that no list links. *)
Lemma Inv_write s L R p n :
  Inv s L R → unlinked L R p → Inv (set_mem (set_nodes (<[p := n]> (nodes (mem s))) (mem s)) s) L R.
Proof.
  intros [[Hlist Hnone Hchain Hnd HndR Hdisj HdisjR] Hv Ht Hpl] [HpL HpR].
  assert (∀ l : list ptr, p ∉ l → ∀ q, q ∈ l → <[p := n]> (nodes (mem s)) !! q = nodes (mem s) !! q) as Hins.
  { intros l Hl q Hq. apply lookup_insert_ne. by intros ->. }
  split; [split|..]; cbn; try done.
  - intros k ll Hll. destruct (Hlist k ll Hll). split; [|done].
    eapply chain_frame; [|done]. by apply Hins.
  - eapply chain_frame; [|done]. by apply Hins.
  - intros k q Hq. destruct (Hpl k q Hq) as (nq & Hnq & ?). exists nq. split; [|done].
    cbn. by rewrite (Hins (L k)).
Qed.

Lemma Inv_add s L R p k s' :
  Inv s L R → Rep (mem s') (update L k (L k ++ [p])) R → frame s s' → placed s k p →
  Inv s' (joined L (only k p)) R.
Proof.
  intros [HR Hv Ht Hpl] HR' Hf Hk. pose proof Hf as (Ht' & _).
  assert (∀ k', update L k (L k ++ [p]) k' = joined L (only k p) k') as Heq.
  { intros k'. unfold joined, only, update. case_decide; subst; [done|by rewrite app_nil_r]. }
  split.
  - by eapply Rep_ext.
  - by eapply slots_valid_frame.
  - by rewrite Ht'.
  - intros k' q [Hq|Hq]%elem_of_app; (eapply placed_frame; [done|]); [by apply Hpl|].
    unfold only in Hq. case_decide; [|set_solver]. subst k'. by apply list_elem_of_singleton in Hq as ->.
Qed.

Lemma add_timer_run s L R p c t func x :
  Inv s L R → lock s = 0 → nodes (mem s) !! p = None → 0 < t →
  let e := u32 (t + time s) in
  let k := place (time s) e in
  sound (time s) e k ∨ stuck k →
  ∃ s', add_timer place call p c t func x s = Done (Some p, s') ∧
    Inv s' (joined L (only k p)) R ∧
    time s' = time s ∧ lock s' = 0 ∧ current_point s' = current_point s ∧
    (∃ n, nodes (mem s') !! p = Some n ∧ set_next None n = Node None e func c x) ∧
    kept (nodes (mem s)) (nodes (mem s')) (λ _, True) ∧
    (∀ q, q ≠ p → is_Some (nodes (mem s') !! q) → is_Some (nodes (mem s) !! q)).
Proof.
  intros HI Hl Hp Ht e k Hk. pose proof (fresh_unlinked _ _ _ _ HI Hp) as Hun.
  unfold add_timer, spinlock_lock.
  rewrite (bind_Done _ _ s () (set_lock 1 s)) by (rewrite gets_bind; by rewrite Hl).
  rewrite gets_bind. erewrite bind_Done by (apply zoom_Done; reflexivity).
  rewrite decide_False by lia. cbn [time set_lock mem]. fold e.
  set (n0 := Node None e func c x).
  pose proof (Inv_write s L R p n0 HI Hun) as HI1.
  set (s1 := set_mem (set_nodes (<[p := n0]> (nodes (mem s))) (mem s)) s) in HI1.
  change (set_mem _ (set_lock 1 s)) with (set_lock 1 s1).
  assert (Inv (set_lock 1 s1) L R) as HI2 by by destruct HI1.
  assert (nodes (mem s1) !! p = Some n0) as Hp1 by apply lookup_insert_eq.
  destruct (add_node_spec (set_lock 1 s1) L R p) as (s2 & k' & Hrun & Hgo & HR2 & Hf2);
    [apply HI2..|done|exists n0; split; [done|apply u32_range]|].
  rewrite (bind_Done _ _ _ _ _ Hrun). unfold spinlock_unlock. rewrite modS_bind.
  assert (k' = k) as ->.
  { unfold goes in Hgo. cbn [mem set_lock] in Hgo. rewrite Hp1 in Hgo. by injection Hgo as <-. }
  pose proof Hf2 as (Ht2 & _ & Hpt2 & _).
  exists (set_lock 0 s2). split; [done|]. split_and!; try done.
  - apply Inv_lock. eapply Inv_add; [exact HI2|done..|]. exists n0.
    split; [done|]. split; [apply u32_range|done].
  - destruct (frame_lookup _ _ p n0 Hf2 Hp1) as (n & Hn & Heq). exists n. split; [done|]. by rewrite Heq.
  - intros q n _ Hq. assert (q ≠ p) as Hqp by (intros ->; congruence).
    apply (frame_lookup (set_lock 1 s1) s2); [done|]. cbn. by rewrite lookup_insert_ne by congruence.
  - intros q Hqp [n Hn]. destruct (frame_lookup_inv _ _ _ _ Hf2 Hn) as (n' & Hn' & _).
    cbn in Hn'. rewrite lookup_insert_ne in Hn' by congruence. by exists n'.
Qed.

Lemma del_timer_run s L R p n :
  Inv s L R → nodes (mem s) !! p = Some n →
  ∃ s', del_timer p s = Done ((), s') ∧ Inv s' L R ∧
    time s' = time s ∧ lock s' = lock s ∧ current_point s' = current_point s ∧
    nodes (mem s') = <[p := set_cancel 1 n]> (nodes (mem s)).
Proof.
  intros [[Hlist Hnone Hchain Hnd HndR Hdisj HdisjR] Hv Ht Hpl] Hn.
  unfold del_timer, on_mem, write_node.
  eexists. split; [apply zoom_Done, modO_Done; by rewrite Hn|]. split; [|done].
  assert (∀ q l, chain (nodes (mem s)) q l → chain (<[p := set_cancel 1 n]> (nodes (mem s))) q l) as Hc.
  { intros q l. revert q. induction l as [|q' l IH]; intros q; [done|]. intros [-> (n' & Hn' & Hl)].
    split; [done|]. destruct (decide (p = q')) as [->|].
    - exists (set_cancel 1 n). rewrite lookup_insert_eq. split; [done|]. apply IH. by simplify_eq.
    - exists n'. rewrite lookup_insert_ne by done. auto. }
  split; [split|..]; cbn; try done.
  - intros k ll Hll. destruct (Hlist k ll Hll). split; auto.
  - auto.
  - intros k q Hq. destruct (Hpl k q Hq) as (n' & Hn' & Hr). destruct (decide (p = q)) as [->|].
    + exists (set_cancel 1 n). cbn. rewrite lookup_insert_eq. split; [done|]. by simplify_eq.
    + exists n'. cbn. by rewrite lookup_insert_ne.
Qed.

(** ** Clearing *)

Lemma foldr_delete_delete (m : gmap ptr (node X)) l p :
  foldr delete (delete p m) l = delete p (foldr delete m l).
Proof. induction l as [|q l IH]; cbn; [done|]. by rewrite IH, delete_delete. Qed.

(** The freeing loop deletes exactly the nodes of the chain. *)
Lemma free_loop_run fuel s q l :
  chain (nodes (mem s)) q l → NoDup l → (length l < fuel)%nat →
  free_loop fuel q s =
    Done ((), set_mem (set_nodes (foldr delete (nodes (mem s)) l) (mem s)) s).
Proof.
  revert s q l. induction fuel as [|fuel IH]; intros s q l Hc Hnd Hf; [lia|].
  destruct l as [|p l]; cbn [free_loop].
  - cbn in Hc. subst q. cbn. by destruct s as [[]].
  - destruct Hc as [-> (n & Hn & Hc)]. apply NoDup_cons in Hnd as [Hp Hnd].
    erewrite bind_Done by (apply zoom_Done; by apply getsO_Done).
    assert (set_mem (mem s) s = s) as -> by by destruct s.
    erewrite bind_Done.
    2: { apply zoom_Done. unfold free. erewrite bind_Done by (by apply getsO_Done). done. }
    rewrite (IH _ _ l); [|cbn|done|cbn in Hf; lia].
    + cbn. unfold set_nodes, set_mem. cbn. by rewrite foldr_delete_delete.
    + eapply chain_frame; [|done]. intros q Hq. apply lookup_delete_ne. by intros ->.
Qed.

Lemma lookup_foldr_delete (m : gmap ptr (node X)) l p :
  foldr delete m l !! p = if decide (p ∈ l) then None else m !! p.
Proof.
  induction l as [|q l IH]; cbn; [by rewrite decide_False by set_solver|].
  destruct (decide (q = p)) as [->|Hne].
  - by rewrite lookup_delete_eq, decide_True by set_solver.
  - rewrite lookup_delete_ne, IH by done. repeat case_decide; set_solver.
Qed.

Lemma clear_slot_run fuel s L k :
  Inv s L [] → valid k → (size (nodes (mem s)) < fuel)%nat →
  ∃ s', clear_slot fuel k s = Done ((), s') ∧ Inv s' (update L k []) [] ∧
    time s' = time s ∧ lock s' = lock s ∧ current_point s' = current_point s ∧
    nodes (mem s') = foldr delete (nodes (mem s)) (L k).
Proof.
  intros HI Hk Hf. pose proof HI as [HR Hv Ht Hpl].
  destruct (head_list s L [] k HR Hv Hk) as (ll & Hread & Hh).
  pose proof (proj2 (Hv k) Hk) as [ll' Hll].
  assert (ll' = ll) as ->.
  { unfold on_mem in Hread. erewrite zoom_Done in Hread by (by apply getsO_Done). congruence. }
  unfold clear_slot. rewrite (bind_Done _ _ _ _ _ Hread).
  pose proof (Rep_size (mem s) L k HR).
  rewrite (bind_Done _ _ _ _ _ (free_loop_run fuel s _ (L k)
    (proj1 (rep_list _ _ _ HR k ll Hll)) (rep_nodup _ _ _ HR k) ltac:(lia))).
  set (m := foldr delete (nodes (mem s)) (L k)).
  erewrite bind_Done.
  2: { apply zoom_Done. unfold link_clear, read_list, write_list.
       erewrite bind_Done by (by apply getsO_Done). rewrite modS_bind. done. }
  eexists. split; [done|]. split_and!; try done.
  assert (∀ k' p, k' ≠ k → p ∈ L k' → m !! p = nodes (mem s) !! p) as Hm.
  { intros k' p Hne Hp. unfold m. rewrite lookup_foldr_delete, decide_False; [done|].
    intros Hp'. apply Hne. by apply (rep_disj _ _ _ HR k' k p). }
  destruct HR as [Hlist Hnone Hchain Hnd HndR Hdisj HdisjR].
  split; [split|..]; cbn; try done.
  - intros k' ll'. destruct (decide (k = k')) as [<-|].
    + rewrite lookup_insert_eq, update_eq. by intros [= <-].
    + rewrite lookup_insert_ne, update_ne by done. intros [Hc ?]%Hlist. split; [|done].
      eapply chain_frame; [|done]. intros p Hp. by apply (Hm k').
  - intros k'. destruct (decide (k = k')) as [<-|].
    + by rewrite lookup_insert_eq.
    + rewrite lookup_insert_ne, update_ne by done. apply Hnone.
  - intros k'. unfold update. case_decide; [constructor|done].
  - intros k1 k2 p. unfold update. repeat case_decide; set_solver.
  - intros k' p. unfold update. case_decide; set_solver.
  - intros k'. cbn. destruct (decide (k = k')) as [<-|].
    + rewrite lookup_insert_eq. split; [done|by eexists].
    + rewrite lookup_insert_ne by done. apply Hv.
  - intros k' p. unfold update. case_decide as Hkk; [set_solver|]. intros Hp.
    destruct (Hpl k' p Hp) as (n & Hn & Hr). exists n. split; [|done]. cbn. by rewrite (Hm k').
Qed.

(** [clear_timer] frees every linked node and no other. *)
Lemma clear_slots_run fuel s L ks :
  Inv s L [] → (∀ k, k ∈ ks → valid k) → (size (nodes (mem s)) < fuel)%nat →
  ∃ s', clear_slots fuel ks s = Done ((), s') ∧
    Inv s' (λ k, if decide (k ∈ ks) then [] else L k) [] ∧
    time s' = time s ∧ lock s' = lock s ∧ current_point s' = current_point s ∧
    ∀ p, nodes (mem s') !! p = None ↔ nodes (mem s) !! p = None ∨ ∃ k, k ∈ ks ∧ p ∈ L k.
Proof.
  revert s L. induction ks as [|k ks IH]; intros s L HI Hv Hf.
  { exists s. split; [done|]. split; [|split_and!; try done; intros p; set_solver].
    eapply Inv_ext; [|exact HI]. intros k. by rewrite decide_False by set_solver. }
  cbn [clear_slots].
  destruct (clear_slot_run fuel s L k HI) as (s1 & Hrun & HI1 & Ht1 & Hl1 & Hp1 & Hm1);
    [apply Hv; set_solver|done|].
  rewrite (bind_Done _ _ _ _ _ Hrun).
  assert (∀ p, nodes (mem s1) !! p = None ↔ nodes (mem s) !! p = None ∨ p ∈ L k) as Hdel.
  { intros p. rewrite Hm1, lookup_foldr_delete. case_decide; tauto. }
  destruct (IH s1 _ HI1) as (s2 & Hrun2 & HI2 & Ht2 & Hl2 & Hp2 & Hm2).
  - intros k' Hk'. apply Hv. set_solver.
  - eapply Nat.le_lt_trans; [|exact Hf]. rewrite <-!(size_dom (D := gset ptr)).
    apply subseteq_size. intros p. rewrite !elem_of_dom, <-!not_eq_None_Some, Hdel. tauto.
  - exists s2. split; [done|]. split_and!; try congruence.
    + eapply Inv_ext; [|done]. intros k'. unfold update. cbn beta.
      destruct (decide (k = k')) as [<-|].
      * rewrite (decide_True (P := k ∈ k :: ks)) by set_solver. by case_decide.
      * destruct (decide (k' ∈ ks)); [rewrite decide_True by set_solver|
          rewrite decide_False by set_solver]; done.
    + intros p. rewrite Hm2, Hdel. unfold update. split.
      * intros [[|]|(k' & Hk' & Hp)]; [by left|right; exists k; set_solver|].
        case_decide; [set_solver|]. right. exists k'. set_solver.
      * intros [|(k' & [->|Hk']%elem_of_cons & Hp)]; [by left; left|by left; right|].
        destruct (decide (k = k')) as [->|]; [by left; right|].
        right. exists k'. by rewrite decide_False.
Qed.

(** ** A timer from its creation to its expiry *)

Lemma add_size (m m' : gmap ptr (node X)) p :
  (∀ q, q ≠ p → is_Some (m' !! q) → is_Some (m !! q)) → (size m' ≤ S (size m))%nat.
Proof.
  intros Hsub. rewrite <-!(size_dom (D := gset ptr)).
  assert (dom m' ⊆ {[p]} ∪ dom m) as Hdom.
  { intros q. rewrite elem_of_union, elem_of_singleton, !elem_of_dom.
    destruct (decide (q = p)); auto. }
  apply subseteq_size in Hdom. rewrite size_union_alt, size_singleton in Hdom.
  assert (dom m ∖ {[p]} ⊆ dom m) as Hsub2%subseteq_size by set_solver. lia.
Qed.

Lemma add_then_ticks fuel s L p c delay func x d :
  (∀ q, ¬ extra_node q) → (∀ t, well_behaved t) →
  Inv s L [] → lock s = 0 → nodes (mem s) !! p = None → 0 < delay < 4294967296 →
  0 ≤ d < 4294967296 → (∀ i, 0 ≤ i < d → tick_ok (u32 (time s + i))) →
  (S (S (size (nodes (mem s)))) < fuel)%nat →
  let k := place (time s) (u32 (delay + time s)) in
  sound (time s) (u32 (delay + time s)) k ∨ stuck k →
  ∃ s1 fired s2, add_timer place call p c delay func x s = Done (Some p, s1) ∧
    timer_updates near_slot call timer_shift fuel (Z.to_nat d) s1 = Done (fired, s2) ∧
    (p ∈ fired ↔ delay ≤ d ∧ c = 0 ∧ ¬ stuck k).
Proof.
  intros Hsilent Hwb HI Hl Hp Hdl Hd Hok Hf k Hk. pose proof (inv_time _ _ _ HI) as Ht.
  set (e := u32 (delay + time s)) in *.
  assert (u32 (e - time s) = delay) as Hm by (unfold e; word_lia).
  destruct (add_timer_run s L [] p c delay func x HI Hl Hp) as
    (s1 & Hrun & HI1 & Ht1 & Hl1 & Hp1 & (n & Hn & Hdata) & _ & Hsub); [lia|done|].
  pose proof (add_size _ _ p Hsub).
  destruct (updates_run Hsilent fuel (Z.to_nat d) s1 _ HI1 Hl1) as (fired & s2 & L2 & Hrun2 & Hran);
    [lia|done|by rewrite Ht1, Z2Nat.id by lia|lia|].
  exists s1, fired, s2. split; [done|]. split; [done|].
  rewrite (rn_fired _ _ _ _ _ _ Hran), Z2Nat.id by lia. fold e k.
  assert (expire n = e) as Hex by exact (f_equal expire Hdata).
  assert (cancel n = c) as Hcc by exact (f_equal cancel Hdata).
  assert (expires s1 p e) as He by (by exists n).
  assert (uncancelled (nodes (mem s1)) p ↔ c = 0) as ->.
  { unfold uncancelled. rewrite Hn. cbn. rewrite Hcc.
    split; [by intros [=]|by intros ->]. }
  assert (expires_within s1 p d ↔ delay ≤ d) as ->.
  { unfold expires_within. rewrite Ht1. split.
    - intros (e' & He' & Hw). assert (e' = e) as Hee by by eapply expires_functional. rewrite Hee in Hw. lia.
    - intros Hw. exists e. split; [done|]. lia. }
  assert (pending (joined L (only k p)) p ↔ ¬ stuck k) as ->; [|tauto].
  destruct (fresh_unlinked s L [] p HI Hp) as [HpL _].
  unfold pending, joined, only. setoid_rewrite elem_of_app. split.
  - intros (k' & [Hk'|Hk'] & Hst); [by apply HpL in Hk'|]. case_decide as Hkk; [by rewrite Hkk|set_solver].
  - intros Hst. exists k. rewrite decide_True by done. set_solver.
Qed.
End laws.
