(* ===== verification/TimeWheel.v ===== *)
(** The millisecond timing wheel of timewheel.c: 256 near slots and four levels
    of 64 slots, each slot of a level covering 64 times as much as one of the
    level below. *)
From S2P Require Import Prelude LinkList Wheel Clock.

Module TimeWheel.

Definition TIME_NEAR_SHIFT : Z := 8.
Definition TIME_NEAR : Z := 256.
Definition TIME_LEVEL_SHIFT : Z := 6.
Definition TIME_LEVEL : Z := 64.
Definition TIME_NEAR_MASK : Z := 255.
Definition TIME_LEVEL_MASK : Z := 63.

(** The arrays [near[TIME_NEAR]] and [t[4][TIME_LEVEL]]. *)
Inductive slot :=
  | near (i : Z)
  | t (level i : Z).

#[export] Instance slot_eq_dec : EqDecision slot.
Proof. solve_decision. Defined.
#[export] Instance slot_countable : Countable slot.
Proof.
  apply (inj_countable' (λ k, match k with near i => inl i | t l i => inr (l, i) end)
    (λ x, match x with inl i => near i | inr (l, i) => t l i end)).
  by intros [].
Defined.

Definition slots : list slot :=
  (near ∘ Z.of_nat <$> seq 0 256) ++
  (l ← seq 0 4; (t (Z.of_nat l) ∘ Z.of_nat) <$> seq 0 64).

(** struct timer, the field [current], which is never used, left out; [id] is
    the extra field of a node. *)
Abbreviation s_timer_t := (timer slot Z).

(** The slot that [add_node] links a node to. *)
Definition place (current_time time : Z) : slot :=
  let msec := u32 (time - current_time) in
  if decide (msec < TIME_NEAR) then near (Z.land time TIME_NEAR_MASK)
  else if decide (msec < Z.shiftl 1 (TIME_NEAR_SHIFT + TIME_LEVEL_SHIFT)) then
    t 0 (Z.land (Z.shiftr time TIME_NEAR_SHIFT) TIME_LEVEL_MASK)
  else if decide (msec < Z.shiftl 1 (TIME_NEAR_SHIFT + 2 * TIME_LEVEL_SHIFT)) then
    t 1 (Z.land (Z.shiftr time (TIME_NEAR_SHIFT + TIME_LEVEL_SHIFT)) TIME_LEVEL_MASK)
  else if decide (msec < Z.shiftl 1 (TIME_NEAR_SHIFT + 3 * TIME_LEVEL_SHIFT)) then
    t 2 (Z.land (Z.shiftr time (TIME_NEAR_SHIFT + 2 * TIME_LEVEL_SHIFT)) TIME_LEVEL_MASK)
  else
    t 3 (Z.land (Z.shiftr time (TIME_NEAR_SHIFT + 3 * TIME_LEVEL_SHIFT)) TIME_LEVEL_MASK).

Definition near_slot (time : Z) : slot := near (Z.land time TIME_NEAR_MASK).

Definition link_clear : slot → prog (store slot Z) (option ptr) := LinkList.link_clear.
Definition link : slot → ptr → prog (store slot Z) unit := LinkList.link.
Definition add_node : ptr → prog s_timer_t unit := Wheel.add_node place.
Definition move_list : nat → slot → prog s_timer_t unit := Wheel.move_list place.

(** The [while ((ct & (mask-1))==0)]; the [mask] is an [int], and shifting it out
    of range is undefined. *)
Fixpoint shift_loop (fuel n : nat) (ct mask time i : Z) : prog s_timer_t unit :=
  match fuel with
  | O => out_of_fuel
  | S fuel =>
      if decide (Z.land ct (mask - 1) = 0) then
        let idx := Z.land time TIME_LEVEL_MASK in
        if decide (idx ≠ 0) then move_list n (t i idx)
        else
          let mask := Z.shiftl mask TIME_LEVEL_SHIFT in
          if decide (mask < 2147483648) then
            shift_loop fuel n ct mask (Z.shiftr time TIME_LEVEL_SHIFT) (i + 1)
          else undef
      else mret ()
  end.

Definition timer_shift (n : nat) : prog s_timer_t unit :=
  time ← gets time;
  let ct := u32 (time + 1) in
  modS (set_time ct);;
  if decide (ct = 0) then move_list n (t 3 0)
  else shift_loop 4 n ct TIME_NEAR (Z.shiftr ct TIME_NEAR_SHIFT) 0.

Section call.
Context (call : Z → ptr → prog s_timer_t unit).

Definition dispatch_list : nat → ptr → prog s_timer_t (list ptr) := Wheel.dispatch_list call.
Definition timer_execute : nat → prog s_timer_t (list ptr) := Wheel.timer_execute near_slot call.
Definition timer_update : nat → prog s_timer_t (list ptr) :=
  Wheel.timer_update near_slot call timer_shift.

(** [p] is what [malloc] returns.  The field [cancel] is not initialised: [junk]
    is the byte it holds. *)
Definition add_timer (p : ptr) (junk : Z) (time func threadid : Z) : prog s_timer_t (option ptr) :=
  Wheel.add_timer place call p junk time func threadid.

(** The body of [expire_timer] at the clock reading [cp]. *)
Definition expire_timer (fuel : nat) (cp : Z) : prog s_timer_t (list ptr) :=
  point ← gets current_point;
  if decide (cp ≠ point) then
    let diff := u32 (cp - point) in
    modS (set_point cp);;
    Wheel.timer_updates near_slot call timer_shift fuel (Z.to_nat diff)
  else mret [].
End call.

Definition del_timer : ptr → prog s_timer_t unit := Wheel.del_timer.

Definition timer_create_timer : s_timer_t :=
  MkTimer (Store (list_to_map ((λ k, (k, LinkList None None)) <$> slots)) ∅) 0 0 0.

Definition gettime (ti : Clock.timespec) : Z :=
  u64 (u64 (Clock.tv_sec ti) * 1000 + Clock.tv_nsec ti / 1000000).

Definition init_timer (ti : Clock.timespec) : s_timer_t :=
  set_point (gettime ti) timer_create_timer.

(** ** The slots obey the laws of a wheel *)

(** The width of a slot of a level. *)
Definition width (l : Z) : Z := 2 ^ (8 + 6 * l).

Definition valid (k : slot) : Prop :=
  match k with
  | near i => 0 ≤ i < 256
  | t l i => 0 ≤ l < 4 ∧ 0 ≤ i < 64
  end.

(** The slot spread when the time becomes [ct]. *)
Definition moved (ct : Z) : option slot :=
  if decide (ct = 0) then Some (t 3 0)
  else if decide (ct mod 256 ≠ 0) then None
  else if decide ((ct / 256) mod 64 ≠ 0) then Some (t 0 ((ct / 256) mod 64))
  else if decide ((ct / 16384) mod 64 ≠ 0) then Some (t 1 ((ct / 16384) mod 64))
  else if decide ((ct / 1048576) mod 64 ≠ 0) then Some (t 2 ((ct / 1048576) mod 64))
  else Some (t 3 ((ct / 67108864) mod 64)).

Definition sound (now e : Z) (k : slot) : Prop :=
  match k with
  | near i => i = e mod 256 ∧ 0 < u32 (e - now) < 256
  | t l i => 0 ≤ l < 4 ∧ i = (e / width l) mod 64 ∧
      e mod width l < u32 (e - now) < 64 * width l ∧ (i ≠ 0 ∨ l = 3)
  end.

(** The slots 0 of the three lower levels. *)
Definition stuck (k : slot) : Prop :=
  match k with
  | near _ => False
  | t l i => 0 ≤ l < 3 ∧ i = 0
  end.

Lemma level_cases (P : Z → Prop) l : P 0 → P 1 → P 2 → P 3 → 0 ≤ l < 4 → P l.
Proof. intros. assert (l = 0 ∨ l = 1 ∨ l = 2 ∨ l = 3) as [-> | [-> | [-> | ->]]] by lia; done. Qed.

Lemma width_pos l : 0 ≤ l → 0 < width l.
Proof. intros. unfold width. lia. Qed.

Lemma width_word l : 0 ≤ l < 4 → 4294967296 = 64 * width l * 2 ^ (6 * (3 - l)).
Proof. intros Hl. pattern l. by apply level_cases. Qed.

Lemma land_255 x : Z.land x 255 = x mod 256.
Proof. apply (Z.land_ones x 8). lia. Qed.
Lemma land_63 x : Z.land x 63 = x mod 64.
Proof. apply (Z.land_ones x 6). lia. Qed.

Lemma near_slot_mod now : near_slot now = near (now mod 256).
Proof. unfold near_slot, TIME_NEAR_MASK. by rewrite land_255. Qed.

(** The slot chosen, by the time left. *)
Lemma place_cases now e :
  let m := u32 (e - now) in
  (m < 256 ∧ place now e = near (e mod 256)) ∨
  ∃ l, 0 ≤ l < 4 ∧ width l ≤ m < 64 * width l ∧ place now e = t l ((e / width l) mod 64).
Proof.
  intros m. pose proof (u32_range (e - now)). unfold place. fold m.
  unfold TIME_NEAR, TIME_NEAR_SHIFT, TIME_LEVEL_SHIFT, TIME_LEVEL_MASK, TIME_NEAR_MASK.
  rewrite land_255, !land_63, !Z.shiftr_div_pow2 by lia.
  change (Z.shiftl 1 (8 + 6)) with 16384. change (Z.shiftl 1 (8 + 2 * 6)) with 1048576.
  change (Z.shiftl 1 (8 + 3 * 6)) with 67108864.
  repeat case_decide; [left; done|right..].
  - exists 0. change (width 0) with 256. change (2 ^ 8) with 256. split_and!; try lia. done.
  - exists 1. change (width 1) with 16384. split_and!; try lia. done.
  - exists 2. change (width 2) with 1048576. split_and!; try lia. done.
  - exists 3. change (width 3) with 67108864. split_and!; try lia. done.
Qed.

Lemma width_word' l : 0 ≤ l < 4 → ∃ M, 0 < M ∧ 4294967296 = 64 * width l * M.
Proof. intros Hl. exists (2 ^ (6 * (3 - l))). split; [lia|]. by apply width_word. Qed.

(** One step of the clock, seen from a slot of width [B]: either the time has
    reached the start of the slot, and what is left is the remainder, or it
    has not. *)
Lemma slot_step B M now e :
  0 < B → 0 < M → 4294967296 = 64 * B * M → 0 ≤ now < 4294967296 → 0 ≤ e < 4294967296 →
  e mod B < u32 (e - now) < 64 * B →
  let now' := u32 (now + 1) in
  (now' mod B = 0 ∧ (now' / B) mod 64 = (e / B) mod 64 ∧ u32 (e - now') = e mod B) ∨
  (¬ (now' mod B = 0 ∧ (now' / B) mod 64 = (e / B) mod 64) ∧
   e mod B < u32 (e - now') < 64 * B).
Proof.
  intros HB HM Hw Hn He Hm now'. pose proof (Z.mod_pos_bound e B HB) as HeB.
  assert (u32 (e - now') = u32 (e - now) - 1) as Hstep.
  { unfold now'. word_lia. }
  assert (u32 (now' + u32 (e - now')) = e) as Hback.
  { unfold now'. word_lia. }
  set (m := u32 (e - now')) in *.
  pose proof (u32_range (now + 1)) as Hn'. fold now' in Hn'.
  destruct (decide (m = e mod B)) as [Hme|Hme]; [left|right].
  - assert (now' = B * (e / B)) as Hq.
    { pose proof (Z.div_mod e B ltac:(lia)).
      assert (u32 (now' + m) = now' + m ∨ u32 (now' + m) = now' + m - 4294967296) as [|] by word_lia; [lia|].
      exfalso. pose proof (Z.div_pos e B). nia. }
    rewrite Hq. split_and!; [|f_equal|done].
    + rewrite Z.mul_comm. apply Z_mod_mult.
    + rewrite Z.mul_comm. apply Z.div_mul. lia.
  - split; [|lia]. intros [H0 Hidx]. apply Hme.
    (* both [m] and the remainder of [e] are [e - now'] modulo [64 * B] *)
    assert ((e - now') mod (64 * B) = m) as Hm1.
    { rewrite <-(Z.mod_small m (64 * B)) by lia. unfold m, u32, wrap.
      change (2 ^ 32) with 4294967296. symmetry. apply Z.mod_mod_divide. exists M. lia. }
    assert ((e - now') mod (64 * B) = e mod B) as Hm2.
    { pose proof (Z.div_mod e B ltac:(lia)) as Hde. pose proof (Z.div_mod now' B ltac:(lia)) as Hdn.
      pose proof (Z.div_mod (e / B) 64 ltac:(lia)). pose proof (Z.div_mod (now' / B) 64 ltac:(lia)).
      symmetry. apply (Z.mod_unique _ _ (e / B / 64 - now' / B / 64)); [left; lia|]. nia. }
    congruence.
Qed.

Lemma idx_range e l : 0 ≤ (e / width l) mod 64 < 64.
Proof. apply Z.mod_pos_bound. lia. Qed.

Lemma moved_t ct l i : 0 ≤ ct < 4294967296 →
  moved ct = Some (t l i) ↔
  0 ≤ l < 4 ∧ ct mod width l = 0 ∧ i = (ct / width l) mod 64 ∧ (i ≠ 0 ∨ l = 3).
Proof.
  intros Hct. unfold moved. split.
  - intros Hmv. repeat case_decide; try done; injection Hmv as <- <-;
      repeat match goal with |- context [width ?l] => let w := eval vm_compute in (width l) in change (width l) with w end;
      split_and!; try lia; Z.to_euclidean_division_equations; lia.
  - intros (Hl & H0 & Hi & Hor). revert H0 Hi Hor. pattern l. apply level_cases; [..|exact Hl];
      repeat match goal with |- context [width ?l] => let w := eval vm_compute in (width l) in change (width l) with w end;
      intros H0 -> Hor.
    all: repeat case_decide; try done; try (exfalso; Z.to_euclidean_division_equations; lia).
    all: f_equal; f_equal; Z.to_euclidean_division_equations; lia.
Qed.

Lemma moved_near ct i : moved ct ≠ Some (near i).
Proof. unfold moved. by repeat case_decide. Qed.

Lemma width_step l : 0 ≤ l → width (l + 1) = 64 * width l.
Proof.
  intros. unfold width. replace (8 + 6 * (l + 1)) with (6 + (8 + 6 * l)) by lia.
  rewrite Z.pow_add_r by lia. done.
Qed.

Lemma width_divide l l' : 0 ≤ l → l < l' → (64 * width l | width l').
Proof.
  intros Hl Hll. exists (2 ^ (6 * (l' - l - 1))). unfold width.
  replace (8 + 6 * l') with (6 * (l' - l - 1) + (6 + (8 + 6 * l))) by lia.
  rewrite !Z.pow_add_r by lia. change (2 ^ 6) with 64. ring.
Qed.

(** The finer slot a timer is moved to when its slot starts is one of a nonzero
    index, or the slot executed now. *)
Lemma respread l now e :
  0 ≤ l < 4 → 0 ≤ now < 4294967296 → 0 ≤ e < 4294967296 →
  now mod width l = 0 → u32 (e - now) = e mod width l →
  (e = now ∧ place now e = near_slot now) ∨ (e ≠ now ∧ sound now e (place now e)).
Proof.
  intros Hl Hn He H0 Hm. pose proof (width_pos l ltac:(lia)) as Hw.
  pose proof (Z.mod_pos_bound e (width l) Hw). rewrite near_slot_mod.
  destruct (place_cases now e) as [[Hm256 ->]|(l' & Hl' & Hm' & ->)].
  - destruct (decide (e = now)) as [->|Hne]; [by left|right]. split; [done|].
    split; [done|]. split; [|done]. word_lia.
  - right. pose proof (width_pos l' ltac:(lia)).
    assert (e ≠ now). { intros ->. rewrite Z.sub_diag in Hm'. change (u32 0) with 0 in Hm'. lia. }
    split; [done|]. pose proof (Z.mod_pos_bound e (width l') ltac:(done)).
    assert (l' < l) as Hll.
    { destruct (decide (l' < l)); [done|]. exfalso.
      assert (width l ≤ width l') by (apply Z.pow_le_mono_r; lia). lia. }
    split; [lia|]. split; [done|]. split; [lia|left].
    destruct (width_divide l' l ltac:(lia) Hll) as [c Hc].
    assert (e = now + e mod width l) as Hen.
    { pose proof (Z.div_mod e (width l) ltac:(lia)) as Hde.
      assert (u32 (now + u32 (e - now)) = e) as Hback by word_lia. rewrite Hm in Hback.
      assert (now + e mod width l < 4294967296) as Hlt.
      { destruct (width_word' l Hl) as (M & HM & HwM).
        pose proof (Z.div_mod now (width l) ltac:(lia)) as Hdn. rewrite H0 in Hdn.
        assert (now / width l < 64 * M) by nia. nia. }
      rewrite u32_small in Hback by lia. lia. }
    intros Hzero. pose proof (Z.div_mod now (width l) ltac:(lia)) as Hdn. rewrite H0 in Hdn.
    assert (e / width l' = now / width l * c * 64 + e mod width l / width l') as Hq.
    { set (r := e mod width l) in *. set (q := now / width l) in *.
      replace e with (r + q * c * 64 * width l') by nia.
      rewrite Z.div_add by lia. lia. }
    rewrite Hq, Z.add_comm, Z_mod_plus_full in Hzero.
    assert (1 ≤ e mod width l / width l' < 64).
    { split; [apply Z.div_le_lower_bound; lia|apply Z.div_lt_upper_bound; lia]. }
    rewrite Z.mod_small in Hzero by lia. lia.
Qed.

Lemma tick_cases_slot now e k :
  0 ≤ now < 4294967296 → 0 ≤ e < 4294967296 → sound now e k →
  let t' := u32 (now + 1) in
  (k = near_slot t' ∧ e = t') ∨
  (moved t' = Some k ∧
    (e = t' ∧ place t' e = near_slot t' ∨ e ≠ t' ∧ sound t' e (place t' e))) ∨
  (k ≠ near_slot t' ∧ moved t' ≠ Some k ∧ e ≠ t' ∧ sound t' e k).
Proof.
  intros Hn He Hk t'. pose proof (u32_range (now + 1)) as Ht'. fold t' in Ht'.
  rewrite near_slot_mod. destruct k as [i|l i].
  - destruct Hk as [-> Hm]. destruct (decide (e = t')) as [->|Hne]; [by left|right; right].
    split; [|split; [apply moved_near|split; [done|split; [done|unfold t' in *; word_lia]]]].
    intros [= Heq]. apply Hne. unfold t' in *. word_lia.
  - right. destruct Hk as (Hl & Hi & Hm & Hor). pose proof (width_pos l ltac:(lia)) as Hw.
    destruct (width_word' l Hl) as (M & HM & HwM).
    destruct (slot_step (width l) M now e Hw HM HwM Hn He Hm) as
      [(H0 & Hidx & Hrem)|(Hno & Hm')]; [left|right].
    + fold t' in H0, Hidx, Hrem. split; [|rewrite <-near_slot_mod; by eapply respread].
      apply moved_t; [done|]. split_and!; [lia..|done|by rewrite Hidx|done].
    + fold t' in Hno, Hm'. split; [done|]. split.
      { rewrite moved_t by done. intros (_ & H0 & Hi' & _). apply Hno. split; [done|]. congruence. }
      split; [|by repeat split; try lia].
      intros ->. rewrite Z.sub_diag in Hm'. change (u32 0) with 0 in Hm'.
      pose proof (Z.mod_pos_bound t' (width l) Hw). lia.
Qed.

Lemma place_valid now e : valid (place now e).
Proof.
  destruct (place_cases now e) as [[_ ->]|(l & Hl & _ & ->)].
  - apply Z.mod_pos_bound. lia.
  - split; [lia|apply idx_range].
Qed.

Lemma moved_valid ct k : 0 ≤ ct < 4294967296 → moved ct = Some k → valid k.
Proof.
  intros Hct Hm. destruct k as [i|l i]; [by apply moved_near in Hm|].
  apply moved_t in Hm as (Hl & _ & -> & _); [|done]. split; [lia|apply idx_range].
Qed.

(** The loop of [timer_shift] finds the slot to spread. *)
Lemma shift_loop_moved n ct s :
  0 < ct < 4294967296 →
  shift_loop 4 n ct TIME_NEAR (Z.shiftr ct TIME_NEAR_SHIFT) 0 s =
  match moved ct with Some k => move_list n k | None => mret () end s.
Proof.
  intros Hct. unfold TIME_NEAR, TIME_NEAR_SHIFT, moved. rewrite decide_False by lia.
  rewrite Z.shiftr_div_pow2 by lia. change (2 ^ 8) with 256.
  assert (∀ x, x / 64 = Z.shiftr x TIME_LEVEL_SHIFT) as Hshift
    by (intros x; by rewrite Z.shiftr_div_pow2).
  assert (∀ x k, 0 ≤ k → Z.land x (2 ^ k - 1) = x mod 2 ^ k) as Hmask.
  { intros x k Hk. rewrite Z.sub_1_r, <-Z.ones_equiv. by apply Z.land_ones. }
  cbn [shift_loop]. unfold TIME_LEVEL_MASK. rewrite !land_63, <-!Hshift, !Z.div_div by lia.
  change (Z.shiftl (Z.shiftl (Z.shiftl (Z.shiftl 256 TIME_LEVEL_SHIFT) TIME_LEVEL_SHIFT)
    TIME_LEVEL_SHIFT) TIME_LEVEL_SHIFT) with (2 ^ 32).
  change (Z.shiftl (Z.shiftl (Z.shiftl 256 TIME_LEVEL_SHIFT) TIME_LEVEL_SHIFT) TIME_LEVEL_SHIFT)
    with (2 ^ 26).
  change (Z.shiftl (Z.shiftl 256 TIME_LEVEL_SHIFT) TIME_LEVEL_SHIFT) with (2 ^ 20).
  change (Z.shiftl 256 TIME_LEVEL_SHIFT) with (2 ^ 14). change (256 - 1) with (2 ^ 8 - 1).
  rewrite !Hmask by lia.
  change (2 ^ 8) with 256. change (2 ^ 14) with 16384. change (2 ^ 20) with 1048576.
  change (2 ^ 26) with 67108864. change (2 ^ 32) with 4294967296.
  change (256 * 64) with 16384. change (16384 * 64) with 1048576. change (1048576 * 64) with 67108864.
  repeat case_decide; first [done|exfalso; Z.to_euclidean_division_equations; lia].
Qed.

Lemma wheel_shift fuel s :
  timer_shift fuel s =
  (let t' := u32 (time s + 1) in
   modS (set_time t');;
   match moved t' with Some k => Wheel.move_list place fuel k | None => mret () end) s.
Proof.
  unfold timer_shift. rewrite gets_bind. cbn zeta. rewrite !modS_bind.
  pose proof (u32_range (time s + 1)) as Hr. set (ct := u32 (time s + 1)) in *.
  case_decide as H0; [by rewrite H0|]. apply shift_loop_moved. lia.
Qed.

#[export] Instance time_wheel :
  WheelLaws (X := Z) place near_slot timer_shift valid moved sound stuck (λ _, True).
Proof.
  split.
  - intros now. rewrite near_slot_mod. apply Z.mod_pos_bound. lia.
  - intros now e _ _. apply place_valid.
  - intros ct k. unfold moved. repeat case_decide; intros [= <-]; split;
      try lia; apply Z.mod_pos_bound; lia.
  - intros now e k Hk ->. rewrite near_slot_mod in Hk. destruct Hk as [Heq Hm]. word_lia.
  - intros now e k Hk ->. destruct k as [i|l i]; [destruct Hk as [_ Hk]|destruct Hk as (_ & _ & Hk & _)];
      rewrite Z.sub_diag in Hk; change (u32 0) with 0 in Hk; [lia|].
    pose proof (Z.mod_pos_bound now (width l)). unfold width in *. lia.
  - intros now e [i|l i]; cbn; [naive_solver|]. intros (_ & _ & _ & Hor) [Hl ->]. lia.
  - intros now. rewrite near_slot_mod. by intros [].
  - intros ct k. unfold moved. repeat case_decide; intros [= <-]; cbn; lia.
  - intros ct. rewrite near_slot_mod. apply moved_near.
  - intros now e k _ Hn He Hk. by apply tick_cases_slot.
  - intros fuel s _. apply wheel_shift.
Qed.

(** ** Properties *)

(** The wheel holds the timers of the lists [L]. *)
Definition wheel (s : s_timer_t) (L : slot → list ptr) : Prop :=
  Inv valid sound stuck s L [] ∧ lock s = 0.

Definition no_call (_ : Z) (_ : ptr) : prog s_timer_t unit := mret ().

(** Callbacks that leave the timers alone, such as [do_quit]. *)
Lemma no_call_behaved now :
  well_behaved near_slot no_call valid sound stuck (λ _, False) now.
Proof.
  intros s L R c p HI Ht Hl Hp Hun. exists s, (λ _, []). split; [done|].
  split. { eapply Inv_ext; [|exact HI]. intros k. unfold joined. by rewrite app_nil_r. }
  split_and!; try done.
  - intros q n _ Hq. by exists n.
  - by intros k q ?%elem_of_nil.
  - by intros k q ?%elem_of_nil.
Qed.

(** A periodic callback, such as [do_timer] and [do_clock] of tw-timer.c: it
    adds a timer for itself.  [malloc] returns a node that is not in use. *)
Section periodic.
Context (malloc : gmap ptr (node Z) → ptr) (junk delay : Z).

Definition periodic (c : Z) (p : ptr) : prog s_timer_t unit :=
  n ← on_mem (read_node p);
  q ← gets (λ s, malloc (nodes (mem s)));
  add_timer no_call q junk delay c (extra n);;
  mret ().

Lemma place_sound now e :
  0 < u32 (e - now) → sound now e (place now e) ∨ stuck (place now e).
Proof.
  intros Hm. destruct (place_cases now e) as [[Hlt ->]|(l & Hl & Hr & ->)]; [by left|].
  pose proof (Z.mod_pos_bound e (width l) (width_pos l ltac:(lia))).
  destruct (decide ((e / width l) mod 64 = 0 ∧ l < 3)) as [[H0 Hl3]|Hno]; [right|left].
  - by split; [lia|].
  - split; [lia|]. split; [done|]. split; [lia|]. lia.
Qed.

Lemma periodic_behaved now :
  (∀ m, m !! malloc m = None) → 0 < delay < 2147483648 →
  well_behaved near_slot periodic valid sound stuck (λ _, True) now.
Proof.
  intros Hmalloc Hd s L R c p HI Ht Hl [n Hn] Hun. unfold periodic.
  erewrite bind_Done by (apply zoom_Done; by apply getsO_Done).
  assert (set_mem (mem s) s = s) as -> by by destruct s.
  rewrite gets_bind. set (q := malloc (nodes (mem s))).
  pose proof (inv_time _ _ _ _ _ _ HI) as Htr.
  set (e := u32 (delay + time s)). set (k := place (time s) e).
  destruct (add_timer_run place near_slot no_call timer_shift valid moved sound stuck (λ _, True)
    s L R q junk delay c (extra n) HI Hl) as (s' & Hrun & HI' & Ht' & Hl' & Hp' & _ & Hk & Hsub);
    [apply Hmalloc|lia|apply place_sound; word_lia|].
  exists s', (only k q). rewrite (bind_Done _ _ _ _ _ Hrun). split; [done|]. split; [done|].
  split_and!; try congruence; try done.
  - unfold only. rewrite decide_False; [done|]. rewrite <-Ht, near_slot_mod. unfold k.
    destruct (place_cases (time s) e) as [[Hm ->]|(l & _ & _ & ->)]; [|done].
    intros [= Heq]. unfold e in *. word_lia.
  - intros k' q' Hq'. unfold only in Hq'. case_decide; [|set_solver].
    apply list_elem_of_singleton in Hq' as ->. apply Hmalloc.
  - intros q' _. by right.
Qed.
End periodic.

(** The slots, as an index. *)
Lemma elem_of_slots k : k ∈ slots ↔ valid k.
Proof.
  unfold slots. rewrite elem_of_app. destruct k as [i|l i]; cbn [valid].
  - rewrite list_elem_of_fmap. split.
    + intros [(j & [= ->] & Hj%elem_of_seq)|(l & Hl & _)%list_elem_of_bind]; [lia|].
      apply list_elem_of_fmap in Hl as (j & [=] & _).
    + intros Hi. left. exists (Z.to_nat i). split; [cbn; by rewrite Z2Nat.id by lia|].
      apply elem_of_seq. lia.
  - split.
    + intros [(j & [=] & _)%list_elem_of_fmap|(l' & Hl & Hl')%list_elem_of_bind].
      apply list_elem_of_fmap in Hl as (j & [= -> ->] & Hj%elem_of_seq).
      apply elem_of_seq in Hl'. lia.
    + intros [Hl Hi]. right. apply list_elem_of_bind. exists (Z.to_nat l). split.
      * apply list_elem_of_fmap. exists (Z.to_nat i).
        split; [cbn; by rewrite !Z2Nat.id by lia|]. apply elem_of_seq. lia.
      * apply elem_of_seq. lia.
Qed.

Lemma create_lists k :
  lists (mem timer_create_timer) !! k = if decide (k ∈ slots) then Some (LinkList None None) else None.
Proof.
  cbn [mem timer_create_timer lists]. generalize slots. intros l.
  induction l as [|k' l IH]; cbn; [by rewrite lookup_empty, decide_False by set_solver|].
  destruct (decide (k' = k)) as [->|Hne].
  - by rewrite lookup_insert_eq, decide_True by set_solver.
  - rewrite lookup_insert_ne, IH by done. repeat case_decide; set_solver.
Qed.

Lemma init_wheel ti : wheel (init_timer ti) (λ _, []).
Proof.
  split; [|done]. split; [split|..]; cbn [time mem set_point init_timer].
  - intros k ll. rewrite create_lists. case_decide; [|done]. by intros [= <-].
  - done.
  - done.
  - intros k. constructor.
  - constructor.
  - intros k k' p ?%elem_of_nil. done.
  - intros k p ?%elem_of_nil. done.
  - intros k. rewrite create_lists, <-elem_of_slots. case_decide; [by split; [|eexists]|].
    by split; [intros []|].
  - cbn. lia.
  - intros k p ?%elem_of_nil. done.
Qed.

(** [clear_timer] *)
Definition clear_timer (fuel : nat) : prog s_timer_t unit := Wheel.clear_slots fuel slots.

(** The delays that put a timer into a slot 0 of a lower level. *)
Definition loses (now delay : Z) : Prop :=
  ∃ l, 0 ≤ l < 3 ∧ width l ≤ delay < 64 * width l ∧
    (u32 (delay + now) / width l) mod 64 = 0.

Lemma loses_stuck now delay : 0 ≤ now < 4294967296 → 0 < delay < 2147483648 →
  stuck (place now (u32 (delay + now))) ↔ loses now delay.
Proof.
  intros Hn Hd. set (e := u32 (delay + now)).
  assert (u32 (e - now) = delay) as Hm by (unfold e; word_lia).
  unfold loses. fold e. destruct (place_cases now e) as [[Hlt ->]|(l & Hl & Hr & ->)]; rewrite Hm in *.
  - split; [done|]. intros (l & Hl & Hr & _).
    assert (width 0 ≤ width l) by (apply Z.pow_le_mono_r; lia). change (width 0) with 256 in *. lia.
  - cbn [stuck]. split; [by intros [? ?]; exists l|]. intros (l' & Hl' & Hr' & H0).
    assert (l' = l) as ->; [|done].
    destruct (Z.lt_trichotomy l' l) as [Hlt|[?|Hlt]]; [|done|].
    + assert (64 * width l' ≤ width l); [|lia]. rewrite <-width_step by lia.
      apply Z.pow_le_mono_r; lia.
    + assert (64 * width l ≤ width l'); [|lia]. rewrite <-width_step by lia.
      apply Z.pow_le_mono_r; lia.
Qed.

Lemma updates_wheel fuel d s L :
  wheel s L → Z.of_nat d < 4294967296 → (S (size (nodes (mem s))) < fuel)%nat →
  ∃ fired s' L', timer_updates near_slot no_call timer_shift fuel d s = Done (fired, s') ∧
    ran valid sound stuck s L (Z.of_nat d) fired s' L'.
Proof.
  intros [HI Hl] Hd Hf. eapply (updates_run place near_slot no_call timer_shift valid moved sound
    stuck (λ _, True) (λ _, False)); try done; [by intros q []|apply no_call_behaved].
Qed.

(** C30: [add_timer] with a positive delay, followed by any number [d] of ticks:
    the timer is called exactly when [d] has reached the delay, provided the
    byte [malloc] left in [cancel] is zero and the delay is not one that puts
    the timer into slot 0 of a lower level; such a timer is never called. *)
Theorem tw_add_timer_fires s L p junk delay func id d fuel :
  wheel s L → nodes (mem s) !! p = None → 0 < delay < 2147483648 → 0 ≤ d < 4294967296 →
  (S (S (size (nodes (mem s)))) < fuel)%nat →
  ∃ s1 fired s2, add_timer no_call p junk delay func id s = Done (Some p, s1) ∧
    timer_updates near_slot no_call timer_shift fuel (Z.to_nat d) s1 = Done (fired, s2) ∧
    (p ∈ fired ↔ delay ≤ d ∧ junk = 0 ∧ ¬ loses (time s) delay).
Proof.
  intros [HI Hl] Hp Hdl Hd Hf. pose proof (inv_time _ _ _ _ _ _ HI) as Ht.
  destruct (add_then_ticks place near_slot no_call timer_shift valid moved sound stuck
    (λ _, True) (λ _, False) fuel s L p junk delay func id d) as (s1 & fired & s2 & Hadd & Hrun & Hp');
    try done; try lia.
  - apply no_call_behaved.
  - apply place_sound. word_lia.
  - exists s1, fired, s2. split; [done|]. split; [done|].
    rewrite Hp', (loses_stuck (time s) delay) by done. done.
Qed.

#[local] Opaque slots.

Lemma tw_add_timer_fires_witness : ∃ s1 fired s2,
  add_timer no_call 7 0 300 1 2 (init_timer (Clock.Timespec 5 0)) = Done (Some 7%positive, s1) ∧
  timer_updates near_slot no_call timer_shift 10 (Z.to_nat 300) s1 = Done (fired, s2) ∧
  (7%positive ∈ fired ↔ 300 ≤ 300 ∧ 0 = 0 ∧ ¬ loses 0 300).
Proof.
  apply (tw_add_timer_fires (init_timer (Clock.Timespec 5 0)) (λ _, []));
    [apply init_wheel|vm_compute; reflexivity|lia|lia|vm_compute; lia].
Defined.

(** [expire_timer] at a clock reading [diff] milliseconds after the last
    one, the callbacks adding no timers: it returns, having called exactly the
    uncancelled timers that expire within the next [diff] ticks and are not
    lost, each once, in the order of their expiry; the clock of the wheel has
    advanced by [diff], and the other timers are still linked and in order. *)
Theorem tw_expire_timer_spec fuel cp s L :
  wheel s L → u32 (cp - current_point s) < 2147483648 →
  (S (size (nodes (mem s))) < fuel)%nat →
  ∃ fired s' L', expire_timer no_call fuel cp s = Done (fired, s') ∧
    ran valid sound stuck (set_point cp s) L (if decide (cp = current_point s) then 0 else u32 (cp - current_point s))
      fired s' L'.
Proof.
  intros HW Hd Hf. unfold expire_timer. rewrite gets_bind.
  pose proof (u32_range (cp - current_point s)).
  destruct (decide (cp = current_point s)) as [Heq|Hne].
  - rewrite decide_False by (intros Hc; by apply Hc).
    destruct (updates_wheel fuel 0 s L HW) as (fired & s' & L' & Hrun & Hran); [lia|done|].
    injection Hrun as <- <-. exists [], s, L'. split; [done|]. by rewrite Heq; destruct s.
  - rewrite decide_True by done. rewrite modS_bind.
    destruct HW as [HI Hl]. assert (wheel (set_point cp s) L) as HW' by by destruct HI.
    destruct (updates_wheel fuel (Z.to_nat (u32 (cp - current_point s))) _ L HW') as
      (fired & s' & L' & Hrun & Hran); [lia|done|].
    exists fired, s', L'. split; [done|]. by rewrite Z2Nat.id in Hran by lia.
Qed.

(** A wheel with one timer, added by [tw-timer.c]'s [add_timer(100, ...)]. *)
Definition demo : s_timer_t :=
  match add_timer no_call 5 0 100 1 2 (init_timer (Clock.Timespec 5 0)) with
  | Done (_, s) => s
  | _ => init_timer (Clock.Timespec 5 0)
  end.

Lemma demo_wheel : wheel demo (joined (λ _, []) (only (near 100) 5%positive)).
Proof.
  unfold demo.
  destruct (init_wheel (Clock.Timespec 5 0)) as [HI Hl].
  destruct (add_timer_run place near_slot no_call timer_shift valid moved sound stuck (λ _, True)
    _ _ [] 5%positive 0 100 1 2 HI Hl) as (s & Hrun & HI' & _ & Hl' & _); [done|lia| |].
  { apply place_sound. vm_compute. done. }
  unfold add_timer. rewrite Hrun. by split.
Qed.

Lemma tw_expire_timer_spec_witness : ∃ fired s' L',
  expire_timer no_call 10 5100 demo = Done (fired, s') ∧
  ran valid sound stuck (set_point 5100 demo) (joined (λ _, []) (only (near 100) 5%positive))
    (if decide (5100 = current_point demo) then 0 else u32 (5100 - current_point demo)) fired s' L'.
Proof. apply tw_expire_timer_spec; [apply demo_wheel|vm_compute; done|vm_compute; lia]. Defined.

(** One tick with callbacks that may add timers (the periodic callbacks of
    tw-timer.c are such): [timer_update] returns with the lock free, the
    uncancelled timers that expire at the new time have been called, each once,
    all other timers are kept, and the wheel is in order again. *)
Theorem tw_timer_update_spec call extra fuel s L :
  wheel s L → well_behaved near_slot call valid sound stuck extra (next_time s) →
  (S (size (nodes (mem s))) < fuel)%nat →
  ∃ fired s' L', timer_update call fuel s = Done (fired, s') ∧
    wheel s' L' ∧ time s' = u32 (time s + 1) ∧ NoDup fired ∧
    (∀ p, p ∈ fired ↔
      pending stuck L p ∧ expires s p (u32 (time s + 1)) ∧ uncancelled (nodes (mem s)) p) ∧
    (∀ p, pending stuck L p → ¬ expires s p (u32 (time s + 1)) → pending stuck L' p) ∧
    (∀ p, pending stuck L' p →
      (pending stuck L p ∧ ¬ expires s p (u32 (time s + 1))) ∨ extra p).
Proof.
  intros [HI Hl] Hwb Hf.
  destruct (update_run place near_slot call timer_shift valid moved sound stuck (λ _, True) extra
    fuel s L HI Hl I Hwb Hf) as (fired & s' & L' & Hrun & []).
  exists fired, s', L'. split; [done|]. split; [done|]. split; [done|]. done.
Qed.

Lemma wheel_set_time now s L : 0 ≤ now < 4294967296 → wheel s L →
  (∀ k p, p ∈ L k → ∃ n, nodes (mem s) !! p = Some n ∧ 0 ≤ expire n < 4294967296 ∧ (sound now (expire n) k ∨ stuck k)) →
  wheel (set_time now s) L.
Proof. intros Ht [[HR Hv _ _] Hl] Hp. split; [by split|done]. Qed.
Lemma only_elem (k : slot) q (k' : slot) p : p ∈ joined (λ _, []) (only k q) k' → k' = k ∧ p = q.
Proof.
  unfold joined, only. cbn. case_decide as Hk; [|by intros ?%elem_of_nil]. subst k'. by intros ->%list_elem_of_singleton.
Qed.

Lemma tw_timer_update_spec_witness :
  let call := periodic (λ m, fresh (dom m)) 0 100 in
  ∃ fired s' L', timer_update call 10 (set_time 99 demo) = Done (fired, s') ∧
    wheel s' L' ∧ time s' = u32 (99 + 1) ∧ NoDup fired ∧
    (∀ p, p ∈ fired ↔ pending stuck (joined (λ _, []) (only (near 100) 5%positive)) p ∧
      expires (set_time 99 demo) p (u32 (99 + 1)) ∧
      uncancelled (nodes (mem (set_time 99 demo))) p) ∧
    (∀ p, pending stuck (joined (λ _, []) (only (near 100) 5%positive)) p →
      ¬ expires (set_time 99 demo) p (u32 (99 + 1)) → pending stuck L' p) ∧
    (∀ p, pending stuck L' p →
      (pending stuck (joined (λ _, []) (only (near 100) 5%positive)) p ∧
       ¬ expires (set_time 99 demo) p (u32 (99 + 1))) ∨ True).
Proof.
  apply (tw_timer_update_spec _ (λ _, True)).
  - apply wheel_set_time; [lia|apply demo_wheel|]. intros k p [-> ->]%only_elem.
    eexists. split; [vm_compute; reflexivity|]. cbn [expire]. split; [lia|]. left. split; [done|]. by vm_compute.
  - apply periodic_behaved; [|lia]. intros m. apply not_elem_of_dom, is_fresh.
  - vm_compute. lia.
Defined.

(** [clear_timer] returns, leaves every list of the wheel empty, and frees
    every node linked in it, lost timers included, and no other. *)
Theorem tw_clear_timer_spec fuel s L :
  wheel s L → (size (nodes (mem s)) < fuel)%nat →
  ∃ s', clear_timer fuel s = Done ((), s') ∧ wheel s' (λ _, []) ∧ time s' = time s ∧
    ∀ p, nodes (mem s') !! p = None ↔ nodes (mem s) !! p = None ∨ ∃ k, p ∈ L k.
Proof.
  intros [HI Hl] Hf.
  assert (∀ k, L k ≠ [] → valid k) as Hdom.
  { intros k Hk. apply (inv_valid _ _ _ _ _ _ HI). apply not_eq_None_Some. intros Hno.
    by apply Hk, (rep_none _ _ _ (inv_rep _ _ _ _ _ _ HI)). }
  destruct (clear_slots_run place near_slot timer_shift valid moved sound stuck (λ _, True)
    (λ _, False) fuel s L slots HI) as (s' & Hrun & HI' & Ht & Hl' & _ & Hm);
    [intros k; apply elem_of_slots|done|].
  exists s'. split; [done|]. split; [split; [|congruence]|split; [done|]].
  - eapply Inv_ext; [|exact HI']. intros k. cbn beta. case_decide as Hk; [done|].
    destruct (decide (L k = [])) as [|HL%Hdom%elem_of_slots]; [done|by destruct Hk].
  - intros p. rewrite Hm. split; [naive_solver|]. intros [|[k Hk]]; [by left|right].
    exists k. split; [|done]. apply elem_of_slots, Hdom. intros HL. rewrite HL in Hk.
    by apply elem_of_nil in Hk.
Qed.

Lemma tw_clear_timer_spec_witness :
  ∃ s', clear_timer 5 demo = Done ((), s') ∧ wheel s' (λ _, []) ∧ time s' = time demo ∧
    ∀ p, nodes (mem s') !! p = None ↔
      nodes (mem demo) !! p = None ∨
      ∃ k, p ∈ joined (λ _, []) (only (near 100) 5%positive) k.
Proof. apply tw_clear_timer_spec; [apply demo_wheel|vm_compute; lia]. Defined.

(** A timer that [add_timer(6400, ...)] of tw-timer.c's kind loses: added at
    time 10000, it goes to slot 0 of level 0, which [timer_shift] skips. *)
Lemma lost_example : place 10000 16400 = t 0 0 ∧ loses 10000 6400.
Proof. split; [done|]. exists 0. by vm_compute. Qed.
End TimeWheel.
