(* ===== verification/ClockTimer.v ===== *)
(** The clock-face timer of clock-timer.c: 60 second slots, 60 minute slots and
    12 hour slots.  Times are seconds. *)
From S2P Require Import Prelude LinkList Wheel Clock.

Module ClockTimer.

Definition SECONDS : Z := 60.
Definition MINUTES : Z := 60.
Definition HOURS : Z := 12.
Definition ONE_HOUR : Z := 3600.
Definition ONE_MINUTE : Z := 60.
Definition HALF_DAY : Z := 43200.

(** The arrays [second[SECONDS]], [minute[MINUTES]] and [hour[HOURS]]. *)
Inductive slot :=
  | second (i : Z)
  | minute (i : Z)
  | hour (i : Z).

#[export] Instance slot_eq_dec : EqDecision slot.
Proof. solve_decision. Defined.
#[export] Instance slot_countable : Countable slot.
Proof.
  apply (inj_countable'
    (λ k, match k with second i => inl i | minute i => inr (inl i) | hour i => inr (inr i) end)
    (λ x, match x with inl i => second i | inr (inl i) => minute i | inr (inr i) => hour i end)).
  by intros [].
Defined.

Definition slots : list slot :=
  (second ∘ Z.of_nat <$> seq 0 60) ++ (minute ∘ Z.of_nat <$> seq 0 60) ++
  (hour ∘ Z.of_nat <$> seq 0 12).

Abbreviation timer_st := (timer slot unit).

(** The slot that [add_node] links a node to. *)
Definition place (current_time time : Z) : slot :=
  let msec := u32 (time - current_time) in
  if decide (msec < ONE_MINUTE) then second (time mod SECONDS)
  else if decide (msec < ONE_HOUR) then minute ((time / ONE_MINUTE) mod MINUTES)
  else hour ((time / ONE_HOUR) mod HOURS).

Definition second_slot (time : Z) : slot := second (time mod SECONDS).

Definition link_clear : slot → prog (store slot unit) (option ptr) := LinkList.link_clear.
Definition link_to : slot → ptr → prog (store slot unit) unit := LinkList.link.
Definition add_node : ptr → prog timer_st unit := Wheel.add_node place.
Definition remap : nat → slot → prog timer_st unit := Wheel.move_list place.

Definition timer_shift (n : nat) : prog timer_st unit :=
  time ← gets time;
  modS (set_time (u32 (time + 1)));;
  let ct := u32 (time + 1) mod HALF_DAY in
  if decide (ct = 0) then remap n (hour 0)
  else if decide (ct mod SECONDS = 0) then
    let idx := (ct / ONE_MINUTE) mod MINUTES in
    if decide (idx ≠ 0) then remap n (minute idx)
    else
      let idx := (ct / ONE_HOUR) mod HOURS in
      if decide (idx ≠ 0) then remap n (hour idx) else mret ()
  else mret ().

Section call.
Context (call : Z → ptr → prog timer_st unit).

Definition dispatch_list : nat → ptr → prog timer_st (list ptr) := Wheel.dispatch_list call.
Definition timer_execute : nat → prog timer_st (list ptr) := Wheel.timer_execute second_slot call.
Definition timer_update : nat → prog timer_st (list ptr) :=
  Wheel.timer_update second_slot call timer_shift.

(** [p] is what [malloc] returns. *)
Definition add_timer (p : ptr) (time func : Z) : prog timer_st (option ptr) :=
  Wheel.add_timer place call p 0 time func ().

(** The body of the loop of [check_timer], at the clock reading [cp]. *)
Definition check_once (fuel : nat) (cp : Z) : prog timer_st (list ptr) :=
  point ← gets current_point;
  if decide (cp ≠ point) then
    let diff := u32 (cp - point) in
    modS (set_point cp);;
    Wheel.timer_updates second_slot call timer_shift fuel (Z.to_nat diff)
  else mret [].

(** [check_timer] runs until it reads a [*stop] other than 0; [obs] lists what
    each round reads from [*stop] and from the clock. *)
Fixpoint check_timer (fuel : nat) (obs : list (Z * Z)) : prog timer_st (list ptr) :=
  match obs with
  | [] => out_of_fuel
  | (stop, cp) :: obs =>
      if decide (stop = 0) then
        fired ← check_once fuel cp;
        rest ← check_timer fuel obs;
        mret (fired ++ rest)
      else mret []
  end.
End call.

Definition del_timer : ptr → prog timer_st unit := Wheel.del_timer.
Definition clear_timer (fuel : nat) : prog timer_st unit := Wheel.clear_slots fuel slots.

Definition create_timer : timer_st :=
  MkTimer (Store (list_to_map ((λ k, (k, LinkList None None)) <$> slots)) ∅) 0 0 0.

Definition now_time (ti : Clock.timespec) : Z := Clock.tv_sec ti.
Definition init_timer (ti : Clock.timespec) : timer_st := set_point (now_time ti) create_timer.

(** ** The slots obey the laws of a wheel *)

Definition valid (k : slot) : Prop :=
  match k with
  | second i => 0 ≤ i < 60
  | minute i => 0 ≤ i < 60
  | hour i => 0 ≤ i < 12
  end.

(** The slot spread when the time becomes [t]. *)
Definition moved (t : Z) : option slot :=
  if decide (t mod 60 ≠ 0) then None
  else if decide ((t / 60) mod 60 ≠ 0) then Some (minute ((t / 60) mod 60))
  else Some (hour ((t / 3600) mod 12)).

(** Up to the wrap of the 32-bit second counter after 136 years. *)
Definition sound (now e : Z) (k : slot) : Prop :=
  match k with
  | second i => i = e mod 60 ∧ 0 < e - now < 60
  | minute i => i = (e / 60) mod 60 ∧ i ≠ 0 ∧ e mod 60 < e - now < 3600
  | hour i => i = (e / 3600) mod 12 ∧ e mod 3600 < e - now
  end.

Definition stuck (k : slot) : Prop := k = minute 0.

Definition tick_ok (now : Z) : Prop := now + 1 < 4294967296.

Lemma clock_place_sound now e :
  0 ≤ now < e → e < 4294967296 →
  (place now e = minute 0 ∧ 60 ≤ e - now < 3600 ∧ (e / 60) mod 60 = 0) ∨
  sound now e (place now e).
Proof.
  intros Hn He. unfold place, ONE_MINUTE, ONE_HOUR, SECONDS, MINUTES, HOURS.
  rewrite u32_small by lia.
  repeat case_decide; cbn [sound].
  - right. lia.
  - destruct (decide ((e / 60) mod 60 = 0)) as [Hz|]; [left|right].
    + rewrite Hz. split_and!; (done || lia).
    + pose proof (Z.mod_pos_bound e 60). split_and!; (done || lia).
  - right. pose proof (Z.mod_pos_bound e 3600). split; [done|lia].
Qed.

Lemma half_day_minute t : (t mod 43200 / 60) mod 60 = (t / 60) mod 60.
Proof.
  assert (t / 60 = t mod 43200 / 60 + 12 * (t / 43200) * 60) as ->; [|by rewrite Z_mod_plus_full].
  rewrite <-(Z.div_add _ _ 60) by lia. f_equal. pose proof (Z.div_mod t 43200). lia.
Qed.

Lemma half_day_hour t : (t mod 43200 / 3600) mod 12 = (t / 3600) mod 12.
Proof.
  assert (t / 3600 = t mod 43200 / 3600 + (t / 43200) * 12) as ->; [|by rewrite Z_mod_plus_full].
  rewrite <-(Z.div_add _ _ 3600) by lia. f_equal. pose proof (Z.div_mod t 43200). lia.
Qed.

Lemma clock_shift n s :
  timer_shift n s =
  (let t' := u32 (time s + 1) in
   modS (set_time t');;
   match moved t' with Some k => Wheel.move_list place n k | None => mret () end) s.
Proof.
  unfold timer_shift. rewrite gets_bind. cbn zeta. rewrite !modS_bind.
  pose proof (u32_range (time s + 1)) as Hr. generalize dependent (u32 (time s + 1)). intros t Hr.
  unfold moved, remap, HALF_DAY, SECONDS, MINUTES, HOURS, ONE_MINUTE, ONE_HOUR.
  assert (t mod 43200 mod 60 = t mod 60) as -> by (apply Z.mod_mod_divide; by exists 720).
  rewrite half_day_minute, half_day_hour.
  destruct (decide (t mod 43200 = 0)) as [Hz|Hz].
  - pose proof (half_day_minute t) as Hm. pose proof (half_day_hour t) as Hh.
    rewrite Hz in Hm, Hh. rewrite <-Hm, <-Hh.
    assert (t mod 60 = 0) as ->; [|done]. apply Z.mod_divide; [done|].
    apply (Z.divide_trans _ 43200); [by exists 720|]. by apply Z.mod_divide.
  - destruct (decide (t mod 60 = 0)) as [Hs|H1]; [|by rewrite (decide_True (P := t mod 60 ≠ 0))].
    rewrite (decide_False (P := t mod 60 ≠ 0)) by lia. case_decide; [done|].
    case_decide; [done|]. exfalso. apply Hz. apply Z.mod_divide; [done|].
    exists (t / 60 / 60 / 12). pose proof (Z.div_div t 60 60 ltac:(lia) ltac:(lia)) as Hdd.
    change (60 * 60) with 3600 in Hdd. rewrite <-Hdd in *.
    pose proof (Z.div_mod t 60). pose proof (Z.div_mod (t / 60) 60).
    pose proof (Z.div_mod (t / 60 / 60) 12). lia.
Qed.

(** The three fates of a timer when the clock ticks. *)
Lemma clock_tick now e k :
  now + 1 < 4294967296 → 0 ≤ now < 4294967296 → 0 ≤ e < 4294967296 → sound now e k →
  let t' := now + 1 in
  (k = second_slot t' ∧ e = t') ∨
  (moved t' = Some k ∧
    (e = t' ∧ place t' e = second_slot t' ∨ e ≠ t' ∧ sound t' e (place t' e))) ∨
  (k ≠ second_slot t' ∧ moved t' ≠ Some k ∧ e ≠ t' ∧ sound t' e k).
Proof.
  intros Hok Hn He Hk t'. unfold second_slot, SECONDS.
  assert (t' mod 60 = 0 → (t' / 60) mod 60 = 0 → t' mod 3600 = 0) as Hhour.
  { intros. Z.to_euclidean_division_equations; lia. }
  destruct k as [i|i|i]; cbn [sound] in Hk.
  - destruct Hk as [-> Hm]. destruct (decide (e = t')) as [->|Hne]; [by left|right; right].
    split; [|split; [unfold moved; by repeat case_decide|split; [done|split; [done|lia]]]].
    intros [= Heq]. Z.to_euclidean_division_equations; lia.
  - right. destruct Hk as (-> & Hi & Hm).
    destruct (decide (e - t' = e mod 60)) as [Hrem|Hrem]; [left|right].
    + assert (t' mod 60 = 0 ∧ t' / 60 = e / 60) as [H0 Hq] by (Z.to_euclidean_division_equations; lia).
      assert (e < 4294967296 ∧ t' ≤ e < t' + 60) as [_ He'] by (pose proof (Z.mod_pos_bound e 60); lia).
      split.
      * unfold moved. rewrite decide_False by lia. rewrite Hq. by rewrite decide_True.
      * unfold place, ONE_MINUTE, SECONDS. rewrite u32_small by lia. rewrite decide_True by lia.
        destruct (decide (e = t')) as [->|]; [by left|right]. split; [done|]. cbn. lia.
    + pose proof (Z.mod_pos_bound e 60). split; [done|]. split; [|split; [lia|split; [done|lia]]].
      unfold moved. repeat case_decide; try done. intros [= Heq]. Z.to_euclidean_division_equations; lia.
  - right. destruct Hk as (-> & Hm). pose proof (Z.mod_pos_bound e 3600).
    destruct (decide (t' mod 3600 = 0 ∧ (t' / 3600) mod 12 = (e / 3600) mod 12)) as [[H0 Hq]|Hno]; [left|right].
    + assert (t' mod 60 = 0 ∧ (t' / 60) mod 60 = 0) as [Hm0 Hm1] by (Z.to_euclidean_division_equations; lia).
      split; [unfold moved; rewrite Hm0, Hm1, Hq; done|].
      destruct (decide (e = t')) as [->|Hne].
      * left. split; [done|]. unfold place, SECONDS. by rewrite Z.sub_diag.
      * right. split; [done|].
        destruct (clock_place_sound t' e) as [(_ & Hr & Hz)|]; [lia|lia| |done].
        exfalso. Z.to_euclidean_division_equations; lia.
    + split; [done|]. split; [|split; [intros Heq; apply Hno; rewrite Heq in *; split; [lia|done]|split; [done|]]].
      * unfold moved. repeat case_decide; try done. intros [= Heq]. apply Hno. split; [|done].
        apply Hhour; lia.
      * destruct (decide (e - t' = e mod 3600)) as [Hrem|]; [|lia].
        exfalso. apply Hno. assert (t' mod 3600 = 0 ∧ t' / 3600 = e / 3600) as [? ->]; [|done].
        assert (t' = e / 3600 * 3600) as -> by (pose proof (Z.div_mod e 3600); lia).
        split; [apply Z_mod_mult|by apply Z.div_mul].
Qed.

#[export] Instance clock_wheel :
  WheelLaws (X := unit) place second_slot timer_shift valid moved sound stuck tick_ok.
Proof.
  split.
  - intros now. apply Z.mod_pos_bound. lia.
  - intros now e _ _. unfold place. repeat case_decide; apply Z.mod_pos_bound; done.
  - intros t k. unfold moved. repeat case_decide; intros [= <-]; apply Z.mod_pos_bound; lia.
  - intros now e k Hk ->. destruct Hk as [Heq Hm]. unfold SECONDS in Heq. Z.to_euclidean_division_equations; lia.
  - intros now e k Hk ->. pose proof (Z.mod_pos_bound now 60). pose proof (Z.mod_pos_bound now 3600).
    destruct k; cbn in Hk; lia.
  - intros now e k Hk ->. by destruct Hk as (_ & ? & _).
  - by intros now.
  - intros t k. unfold moved. repeat case_decide; intros [= <-]; [by intros [=]|done].
  - intros t. unfold moved. by repeat case_decide.
  - intros now e k Hok Hn He Hk t'. unfold tick_ok in Hok.
    assert (t' = now + 1) as Ht' by (apply u32_small; lia). rewrite Ht'. by apply clock_tick.
  - intros n s _. apply clock_shift.
Qed.

(** ** Properties *)

Definition clock (s : timer_st) (L : slot → list ptr) : Prop :=
  Inv valid sound stuck s L [] ∧ lock s = 0.

Definition no_call (_ : Z) (_ : ptr) : prog timer_st unit := mret ().

(** Callbacks that leave the timers alone, such as [do_timer] of clock-main.c. *)
Lemma clock_no_call_behaved now :
  well_behaved second_slot no_call valid sound stuck (λ _, False) now.
Proof.
  intros s L R c p HI Ht Hl Hp Hun. exists s, (λ _, []). split; [done|].
  split. { eapply Inv_ext; [|exact HI]. intros k. unfold joined. by rewrite app_nil_r. }
  split_and!; try done.
  - intros q n _ Hq. by exists n.
  - by intros k q ?%elem_of_nil.
  - by intros k q ?%elem_of_nil.
Qed.

Lemma clock_elem_of_slots k : k ∈ slots ↔ valid k.
Proof.
  unfold slots. rewrite !elem_of_app, !list_elem_of_fmap. split.
  - intros [(j & -> & Hj%elem_of_seq)|[(j & -> & Hj%elem_of_seq)|(j & -> & Hj%elem_of_seq)]]; cbn; lia.
  - destruct k as [i|i|i]; cbn [valid]; intros Hi; [left|right; left|right; right];
      (exists (Z.to_nat i); split; [cbn; by rewrite Z2Nat.id by lia|apply elem_of_seq; lia]).
Qed.

Lemma clock_create_lists k :
  lists (mem create_timer) !! k = if decide (k ∈ slots) then Some (LinkList None None) else None.
Proof.
  cbn [mem create_timer lists]. generalize slots. intros l.
  induction l as [|k' l IH]; cbn; [by rewrite lookup_empty, decide_False by set_solver|].
  destruct (decide (k' = k)) as [->|Hne].
  - by rewrite lookup_insert_eq, decide_True by set_solver.
  - rewrite lookup_insert_ne, IH by done. repeat case_decide; set_solver.
Qed.

Lemma init_clock ti : clock (init_timer ti) (λ _, []).
Proof.
  split; [|done]. split; [split|..]; cbn [time mem set_point init_timer].
  - intros k ll. rewrite clock_create_lists. case_decide; [|done]. by intros [= <-].
  - done.
  - done.
  - intros k. constructor.
  - constructor.
  - intros k k' p ?%elem_of_nil. done.
  - intros k p ?%elem_of_nil. done.
  - intros k. rewrite clock_create_lists, <-clock_elem_of_slots. case_decide; [by split; [|eexists]|].
    by split; [intros []|].
  - cbn. lia.
  - intros k p ?%elem_of_nil. done.
Qed.

#[local] Opaque slots.

(** The delays, at a given time, that [timer_shift] never spreads. *)
Definition loses (now delay : Z) : Prop := 60 ≤ delay < 3600 ∧ ((now + delay) / 60) mod 60 = 0.

(** C34: [add_timer] with a positive delay, followed by any number [d] of ticks,
    while the second counter does not wrap: the timer is called exactly when
    [d] has reached the delay, unless it was put into [minute[0]], whose timers
    are never called. *)
Theorem clock_add_timer_fires s L p delay func d fuel :
  clock s L → nodes (mem s) !! p = None → 0 < delay → 0 ≤ d →
  time s + delay < 4294967296 → time s + d < 4294967296 →
  (S (S (size (nodes (mem s)))) < fuel)%nat →
  ∃ s1 fired s2, add_timer no_call p delay func s = Done (Some p, s1) ∧
    timer_updates second_slot no_call timer_shift fuel (Z.to_nat d) s1 = Done (fired, s2) ∧
    (p ∈ fired ↔ delay ≤ d ∧ ¬ loses (time s) delay).
Proof.
  intros [HI Hl] Hp Hdl Hd Hw Hwd Hf. pose proof (inv_time _ _ _ _ _ _ HI) as Ht.
  assert (u32 (delay + time s) = time s + delay) as He by (rewrite u32_small; lia).
  pose proof (clock_place_sound (time s) (time s + delay) ltac:(lia) ltac:(lia)) as Hplace.
  assert (stuck (place (time s) (time s + delay)) ↔ loses (time s) delay) as Hst.
  { unfold stuck, loses. destruct Hplace as [(-> & Hr & Hz)|Hso].
    - split; [split; [lia|done]|done].
    - split; [intros Heq; rewrite Heq in Hso; by destruct Hso as (_ & ? & _)|].
      intros [Hr Hz]. unfold place, ONE_MINUTE, ONE_HOUR, MINUTES.
      rewrite u32_small by lia. rewrite decide_False, decide_True by lia. by rewrite Hz. }
  destruct (add_then_ticks place second_slot no_call timer_shift valid moved sound stuck
    tick_ok (λ _, False) fuel s L p 0 delay func () d) as (s1 & fired & s2 & Hadd & Hrun & Hp');
    try done; try lia.
  - apply clock_no_call_behaved.
  - intros i Hi. unfold tick_ok. rewrite u32_small; lia.
  - rewrite He. destruct Hplace as [(-> & _)|]; [by right|by left].
  - exists s1, fired, s2. split; [done|]. split; [done|].
    rewrite Hp', He, Hst. tauto.
Qed.

Lemma clock_add_timer_fires_witness : ∃ s1 fired s2,
  add_timer no_call 7 3 1 (init_timer (Clock.Timespec 5 0)) = Done (Some 7%positive, s1) ∧
  timer_updates second_slot no_call timer_shift 10 (Z.to_nat 3) s1 = Done (fired, s2) ∧
  (7%positive ∈ fired ↔ 3 ≤ 3 ∧ ¬ loses 0 3).
Proof.
  apply (clock_add_timer_fires (init_timer (Clock.Timespec 5 0)) (λ _, [])); try done.
  - apply init_clock.
  - vm_compute. lia.
Defined.

(** A round of [check_timer] at a clock reading [diff] seconds after the
    last one, the callbacks adding no timers: it returns, having called exactly
    the uncancelled timers that expire within [diff] seconds and are not lost,
    each once and in the order of their expiry; the others stay. *)
Theorem clock_check_timer_spec fuel cp s L :
  clock s L → cp ≠ current_point s →
  let diff := u32 (cp - current_point s) in
  time s + diff < 4294967296 → (S (size (nodes (mem s))) < fuel)%nat →
  ∃ fired s' L', check_timer no_call fuel [(0, cp); (1, cp)] s = Done (fired, s') ∧
    ran valid sound stuck (set_point cp s) L diff fired s' L'.
Proof.
  intros [HI Hl] Hne diff Hw Hf. pose proof (u32_range (cp - current_point s)) as Hd. fold diff in Hd.
  pose proof (inv_time _ _ _ _ _ _ HI) as Ht.
  assert (Inv valid sound stuck (set_point cp s) L []) as HI' by by destruct HI.
  destruct (updates_run place second_slot no_call timer_shift valid moved sound stuck tick_ok
    (λ _, False) ltac:(by intros q []) fuel (Z.to_nat diff) (set_point cp s) L HI' Hl)
    as (fired & s' & L' & Hrun & Hran); [lia|apply clock_no_call_behaved| |done|].
  { intros i Hi. unfold tick_ok. cbn. rewrite u32_small; lia. }
  rewrite Z2Nat.id in Hran by lia.
  exists fired, s', L'. split; [|done]. cbn [check_timer].
  rewrite decide_True by done. erewrite bind_Done.
  2: { unfold check_once. rewrite gets_bind. rewrite decide_True by done. rewrite modS_bind. exact Hrun. }
  rewrite decide_False by done. unfold mbind, prog_bind, mret, prog_ret. by rewrite app_nil_r.
Qed.

(** The timer of clock-main.c: a delay of 3 seconds from the start. *)
Definition demo : timer_st :=
  match add_timer no_call 5 3 1 (init_timer (Clock.Timespec 5 0)) with
  | Done (_, s) => s
  | _ => init_timer (Clock.Timespec 5 0)
  end.

Lemma demo_clock : clock demo (joined (λ _, []) (only (second 3) 5%positive)).
Proof.
  unfold demo. destruct (init_clock (Clock.Timespec 5 0)) as [HI Hl].
  destruct (add_timer_run place second_slot no_call timer_shift valid moved sound stuck tick_ok
    _ _ [] 5%positive 0 3 1 () HI Hl) as (s & Hrun & HI' & _ & Hl' & _); [done|lia| |].
  { left. vm_compute. done. }
  unfold add_timer. rewrite Hrun. by split.
Qed.

Lemma clock_check_timer_spec_witness : ∃ fired s' L',
  check_timer no_call 10 [(0, 9); (1, 9)] demo = Done (fired, s') ∧
  ran valid sound stuck (set_point 9 demo) (joined (λ _, []) (only (second 3) 5%positive)) (u32 (9 - 5))
    fired s' L'.
Proof.
  apply (clock_check_timer_spec 10 9 demo); [apply demo_clock|vm_compute; done|vm_compute; done|].
  vm_compute. lia.
Defined.

(** A timer lost: at second 1, a delay of 3599 leads to [minute[0]]. *)
Lemma clock_lost_example : place 1 3600 = minute 0 ∧ loses 1 3599.
Proof. by vm_compute. Qed.

End ClockTimer.
