(* ===== verification/SkipList.v ===== *)
(** The skip list of skiplist.c, node by node: every level is a linked list
    through the [forward] pointers, the list of level [i] running through the
    nodes that are taller than [i]. *)
From S2P Require Import Prelude.

Module SkipList.

Definition ZSKIPLIST_MAXLEVEL : nat := 32.

(** struct zskiplistNode.  [level] holds the [forward] pointers; [malloc] leaves
    them uninitialised, which is the outer [None]. *)
Record zskiplistNode := Node {
  score : Z;
  handler : Z;
  level : list (option (option ptr));
}.

(** struct zskiplist with the heap of nodes it points into. *)
Record zskiplist := MkList {
  header : ptr;
  length : Z;
  levels : nat;
  nodes : gmap ptr zskiplistNode;
}.

Definition set_nodes m (s : zskiplist) := MkList (header s) (length s) (levels s) m.
Definition set_levels l (s : zskiplist) := MkList (header s) (length s) l (nodes s).
Definition set_length n (s : zskiplist) := MkList (header s) n (levels s) (nodes s).
Definition set_level (l : list (option (option ptr))) (n : zskiplistNode) :=
  Node (score n) (handler n) l.

Definition read_node (x : ptr) : prog zskiplist zskiplistNode := getsO (λ s, nodes s !! x).

(** [x->level[i].forward], and its assignment. *)
Definition forward (m : gmap ptr zskiplistNode) (x : ptr) (i : nat) : option (option ptr) :=
  n ← m !! x; mjoin (level n !! i).
Definition read_forward (x : ptr) (i : nat) : prog zskiplist (option ptr) :=
  getsO (λ s, forward (nodes s) x i).
Definition set_forward (x : ptr) (i : nat) (f : option ptr) (m : gmap ptr zskiplistNode) :
    option (gmap ptr zskiplistNode) :=
  n ← m !! x;
  if decide (i < List.length (level n))%nat
  then Some (<[x := set_level (<[i := Some f]> (level n)) n]> m) else None.
Definition write_forward (x : ptr) (i : nat) (f : option ptr) : prog zskiplist unit :=
  modO (λ s, m ← set_forward x i f (nodes s); Some (set_nodes m s)).

(** [zsl->length++] and [zsl->length--] on an [int]. *)
Definition add_length (d : Z) : prog zskiplist unit :=
  modO (λ s, let n := length s + d in
    if decide (- 2147483648 ≤ n < 2147483648) then Some (set_length n s) else None).

Definition free (x : ptr) : prog zskiplist unit :=
  read_node x;; modS (λ s, set_nodes (delete x (nodes s)) s).

(** [p] is what [malloc] returns. *)
Definition zslCreateNode (p : ptr) (lvl : nat) (sc func : Z) : prog zskiplist unit :=
  modS (λ s, set_nodes (<[p := Node sc func (replicate lvl None)]> (nodes s)) s).

Definition defaultHandler : Z := 0.

Definition zslCreate (p : ptr) : zskiplist :=
  MkList p 0 1 {[p := Node 0 defaultHandler (replicate ZSKIPLIST_MAXLEVEL (Some None))]}.

(** [rand()&0xFFFF) < (ZSKIPLIST_P * 0xFFFF)] for [ZSKIPLIST_P] = 0.25; the
    argument lists what [rand] returns. *)
Fixpoint random_level (rands : list Z) (lvl : nat) : option nat :=
  match rands with
  | [] => None
  | r :: rands =>
      if decide (4 * Z.land r 65535 < 65535) then random_level rands (S lvl) else Some lvl
  end.
Definition zslRandomLevel (rands : list Z) : option nat :=
  lvl ← random_level rands 1; Some (lvl `min` ZSKIPLIST_MAXLEVEL)%nat.

(** The [while] that walks level [i] from [x]. *)
Fixpoint walk (fuel : nat) (i : nat) (sc : Z) (x : ptr) : prog zskiplist ptr :=
  match fuel with
  | O => out_of_fuel
  | S fuel =>
      fwd ← read_forward x i;
      match fwd with
      | None => mret x
      | Some f =>
          n ← read_node f;
          if decide (score n < sc) then walk fuel i sc f else mret x
      end
  end.

(** The [for (i = zsl->level-1; i >= 0; i--)] that fills [update]; returns
    [update[0..i-1]]. *)
Fixpoint find_update (fuel : nat) (i : nat) (sc : Z) (x : ptr) : prog zskiplist (list ptr) :=
  match i with
  | O => mret []
  | S i =>
      x ← walk fuel i sc x;
      update ← find_update fuel i sc x;
      mret (update ++ [x])
  end.

Definition read_update (update : list ptr) (i : nat) : prog zskiplist ptr :=
  getsO (λ _, update !! i).

(** [for (i = 0; i < level; i++)] of [zslInsert], [k] rounds from [i] on. *)
Fixpoint link_levels (k i : nat) (update : list ptr) (x : ptr) : prog zskiplist unit :=
  match k with
  | O => mret ()
  | S k =>
      u ← read_update update i;
      f ← read_forward u i;
      write_forward x i f;;
      write_forward u i (Some x);;
      link_levels k (S i) update x
  end.

(** [p] is what [malloc] returns, [rands] what [rand] returns. *)
Definition zslInsert (fuel : nat) (p : ptr) (rands : list Z) (sc func : Z) : prog zskiplist ptr :=
  h ← gets header;
  l ← gets levels;
  update ← find_update fuel l sc h;
  lvl ← getsO (λ _, zslRandomLevel rands);
  update ← (if decide (l < lvl)%nat then
              modS (set_levels lvl);;
              mret (update ++ replicate (lvl - l) h)
            else mret update);
  zslCreateNode p lvl sc func;;
  link_levels lvl 0 update p;;
  add_length 1;;
  mret p.

Definition zslMin : prog zskiplist (option ptr) :=
  h ← gets header;
  read_forward h 0.

(** [while(zsl->level > 1 && header->level[zsl->level-1].forward == NULL)] *)
Fixpoint lower (fuel : nat) : prog zskiplist unit :=
  match fuel with
  | O => out_of_fuel
  | S fuel =>
      h ← gets header;
      l ← gets levels;
      if decide (1 < l)%nat then
        f ← read_forward h (l - 1);
        match f with
        | None => modS (set_levels (l - 1));; lower fuel
        | Some _ => mret ()
        end
      else mret ()
  end.

(** The [for] of [zslDeleteHead]. *)
Fixpoint unlink_head (i : nat) (h x : ptr) : prog zskiplist unit :=
  match i with
  | O => mret ()
  | S i =>
      f ← read_forward h i;
      (if decide (f = Some x) then g ← read_forward x i; write_forward h i g else mret ());;
      unlink_head i h x
  end.

Definition zslDeleteHead : prog zskiplist unit :=
  x ← zslMin;
  match x with
  | None => mret ()
  | Some x =>
      h ← gets header;
      l ← gets levels;
      unlink_head l h x;;
      lower (S l);;
      add_length (-1)
  end.

(** [for (i = 0; i < zsl->level; i++)] of [zslDeleteNode], [k] rounds from [i]. *)
Fixpoint unlink_levels (k i : nat) (update : list ptr) (x : ptr) : prog zskiplist unit :=
  match k with
  | O => mret ()
  | S k =>
      u ← read_update update i;
      f ← read_forward u i;
      (if decide (f = Some x) then g ← read_forward x i; write_forward u i g else mret ());;
      unlink_levels k (S i) update x
  end.

Definition zslDeleteNode (x : ptr) (update : list ptr) : prog zskiplist unit :=
  l ← gets levels;
  unlink_levels l 0 update x;;
  lower (S l);;
  add_length (-1).

Definition zslDelete (fuel : nat) (zn : ptr) : prog zskiplist unit :=
  h ← gets header;
  l ← gets levels;
  nz ← read_node zn;
  update ← find_update fuel l (score nz) h;
  u ← read_update update 0;
  x ← read_forward u 0;
  match x with
  | None => mret ()
  | Some x =>
      n ← read_node x;
      nz ← read_node zn;
      if decide (score nz = score n) then
        zslDeleteNode x update;;
        free x
      else mret ()
  end.

(** [zslFree]: the header, then the nodes of level 0; the list itself goes. *)
Fixpoint free_chain (fuel : nat) (node : option ptr) : prog zskiplist unit :=
  match fuel with
  | O => out_of_fuel
  | S fuel =>
      match node with
      | None => mret ()
      | Some x =>
          next ← read_forward x 0;
          free x;;
          free_chain fuel next
      end
  end.
Definition zslFree (fuel : nat) : prog zskiplist unit :=
  h ← gets header;
  node ← read_forward h 0;
  free h;;
  free_chain fuel node.

(** ** What a skip list represents *)

Definition hgt (m : gmap ptr zskiplistNode) (x : ptr) : nat :=
  match m !! x with Some n => List.length (level n) | None => 0 end.
Definition score_of (m : gmap ptr zskiplistNode) (x : ptr) : Z :=
  match m !! x with Some n => score n | None => 0 end.

(** The nodes of a list that are on level [i]. *)
Definition on_level (m : gmap ptr zskiplistNode) (i : nat) (l : list ptr) : list ptr :=
  filter (λ x, i < hgt m x)%nat l.

(** The [forward] pointers of level [i] run through [l]. *)
Fixpoint links (m : gmap ptr zskiplistNode) (i : nat) (l : list ptr) : Prop :=
  match l with
  | [] => True
  | x :: l => forward m x i = Some (head l) ∧ links m i l
  end.

(** [m] and [m'] differ at most in [forward] pointers. *)
Definition same_shape (m m' : gmap ptr zskiplistNode) : Prop :=
  ∀ x, (λ n, (score n, handler n, List.length (level n))) <$> m' !! x =
       (λ n, (score n, handler n, List.length (level n))) <$> m !! x.

(** [s] holds the nodes [L], in the order of their scores. *)
Record Rep (s : zskiplist) (L : list ptr) : Prop := {
  rep_levels : (1 ≤ levels s ≤ 32)%nat;
  rep_header : hgt (nodes s) (header s) = 32%nat ∧ header s ∉ L;
  rep_nodup : NoDup L;
  rep_in x : x ∈ L → (1 ≤ hgt (nodes s) x ≤ levels s)%nat;
  rep_links i : (i < 32)%nat → links (nodes s) i (header s :: on_level (nodes s) i L);
  rep_sorted : StronglySorted (λ x y, score_of (nodes s) x ≤ score_of (nodes s) y) L;
  rep_length : length s = Z.of_nat (List.length L);
}.

#[export] Instance same_shape_refl : Reflexive same_shape.
Proof. by intros m x. Qed.
#[export] Instance same_shape_trans : Transitive same_shape.
Proof. intros m1 m2 m3 H1 H2 x. by rewrite H2, H1. Qed.

Lemma same_shape_hgt m m' x : same_shape m m' → hgt m' x = hgt m x.
Proof.
  intros Hs. specialize (Hs x). unfold hgt.
  destruct (m !! x), (m' !! x); simplify_eq/=; congruence.
Qed.

Lemma same_shape_score m m' x : same_shape m m' → score_of m' x = score_of m x.
Proof.
  intros Hs. specialize (Hs x). unfold score_of.
  destruct (m !! x), (m' !! x); simplify_eq/=; congruence.
Qed.

Lemma on_level_shape m m' i l : same_shape m m' → on_level m' i l = on_level m i l.
Proof. intros Hs. apply list_filter_iff. intros x. by rewrite (same_shape_hgt m m'). Qed.

Lemma hgt_Some m x : (0 < hgt m x)%nat → is_Some (m !! x).
Proof. unfold hgt. destruct (m !! x); [by eexists|lia]. Qed.

(** Writing one pointer. *)
Lemma set_forward_spec m x i f :
  (i < hgt m x)%nat →
  ∃ m', set_forward x i f m = Some m' ∧ same_shape m m' ∧ forward m' x i = Some f ∧
    (∀ y j, y ≠ x ∨ j ≠ i → forward m' y j = forward m y j).
Proof.
  intros Hi. destruct (hgt_Some m x) as [n Hn]; [lia|]. unfold hgt in Hi. rewrite Hn in Hi.
  unfold set_forward. rewrite Hn. cbn [mbind option_bind]. rewrite decide_True by done.
  eexists. split; [done|]. split_and!.
  - intros y. destruct (decide (x = y)) as [<-|].
    + rewrite lookup_insert_eq, Hn. cbn. by rewrite length_insert.
    + by rewrite lookup_insert_ne.
  - unfold forward. rewrite lookup_insert_eq. cbn. by rewrite list_lookup_insert_eq.
  - intros y j Hyj. unfold forward. destruct (decide (x = y)) as [<-|].
    + rewrite lookup_insert_eq, Hn. cbn. rewrite list_lookup_insert_ne; [done|]. naive_solver.
    + by rewrite lookup_insert_ne.
Qed.

Lemma write_forward_spec s x i f :
  (i < hgt (nodes s) x)%nat →
  ∃ m, write_forward x i f s = Done ((), set_nodes m s) ∧ same_shape (nodes s) m ∧
    forward m x i = Some f ∧ (∀ y j, y ≠ x ∨ j ≠ i → forward m y j = forward (nodes s) y j).
Proof.
  intros Hi. destruct (set_forward_spec (nodes s) x i f Hi) as (m & Hm & ?).
  exists m. split; [|done]. apply modO_Done. by rewrite Hm.
Qed.

(** Chains are insensitive to changes elsewhere. *)
Lemma links_ext m m' i l :
  (∀ x, x ∈ l → forward m' x i = forward m x i) → links m i l → links m' i l.
Proof.
  induction l as [|x l IH]; [done|]. intros Heq [Hf Hl]. split.
  - by rewrite Heq by set_solver.
  - apply IH; [|done]. set_solver.
Qed.

Lemma links_app m i l1 l2 : links m i (l1 ++ l2) → links m i l2.
Proof. induction l1 as [|x l1 IH]; [done|]. intros [_ Hl]. by apply IH. Qed.

Lemma links_at m i P u B : links m i (P ++ u :: B) → forward m u i = Some (head B).
Proof. intros [Hf _]%links_app. done. Qed.

(** Splicing a node in behind [u], and out again. *)
Lemma links_insert m m' i P u B x :
  links m i (P ++ u :: B) →
  forward m' u i = Some (Some x) → forward m' x i = Some (head B) →
  (∀ y, y ∈ P ++ B → forward m' y i = forward m y i) →
  links m' i (P ++ u :: x :: B).
Proof.
  intros Hl Hu Hx Heq. induction P as [|y P IH]; cbn [app] in *.
  - destruct Hl as [_ Hl]. split; [done|]. split; [done|]. by eapply links_ext.
  - destruct Hl as [Hy Hl]. split.
    + rewrite Heq by set_solver. rewrite Hy. by destruct P.
    + apply IH; [done|]. intros z Hz. apply Heq. set_solver.
Qed.

Lemma links_delete m m' i P u x B :
  links m i (P ++ u :: x :: B) →
  forward m' u i = Some (head B) →
  (∀ y, y ∈ P ++ B → forward m' y i = forward m y i) →
  links m' i (P ++ u :: B).
Proof.
  intros Hl Hu Heq. induction P as [|y P IH]; cbn [app] in *.
  - destruct Hl as [_ [_ Hl]]. split; [done|]. by eapply links_ext.
  - destruct Hl as [Hy Hl]. split.
    + rewrite Heq by set_solver. rewrite Hy. by destruct P.
    + apply IH; [done|]. intros z Hz. apply Heq. set_solver.
Qed.

(** The last node of a path that starts at [h]. *)
Definition final (h : ptr) (A : list ptr) : ptr := default h (last A).

Lemma final_split (h : ptr) (A : list ptr) : ∃ P, h :: A = P ++ [final h A].
Proof.
  unfold final. destruct A as [|a A _] using rev_ind; [by exists []|].
  exists (h :: A). by rewrite last_snoc.
Qed.

Lemma final_in h A : final h A = h ∨ final h A ∈ A.
Proof.
  unfold final. destruct (last A) eqn:Hl; [right|by left]. by apply last_Some_elem_of.
Qed.

Lemma final_cons h a A : final h (a :: A) = final a A.
Proof. unfold final. destruct A as [|b A]; [done|]. rewrite last_cons_cons. by destruct (last (b :: A)) eqn:Hl; [|apply last_None in Hl]. Qed.

(** ** Searching *)

Lemma walk_spec fuel i sc x s A B :
  links (nodes s) i (x :: A ++ B) →
  (∀ y, y ∈ A ++ B → is_Some (nodes s !! y)) →
  (∀ y, y ∈ A → score_of (nodes s) y < sc) →
  (∀ y, head B = Some y → sc ≤ score_of (nodes s) y) →
  (List.length A < fuel)%nat →
  walk fuel i sc x s = Done (final x A, s).
Proof.
  revert fuel x. induction A as [|a A IH]; intros [|fuel] x Hl Hin HA HB Hf; cbn in Hf; try lia;
    cbn [walk]; destruct Hl as [Hfw Hl].
  - rewrite (bind_Done _ _ s (head B) s) by (by apply getsO_Done).
    destruct B as [|b B]; [done|]. cbn [head].
    destruct (Hin b) as [n Hn]; [set_solver|].
    rewrite (bind_Done _ _ s n s) by (by apply getsO_Done).
    specialize (HB b eq_refl). unfold score_of in HB. rewrite Hn in HB.
    by rewrite decide_False by lia.
  - rewrite (bind_Done _ _ s (Some a) s) by (by apply getsO_Done).
    destruct (Hin a) as [n Hn]; [set_solver|].
    rewrite (bind_Done _ _ s n s) by (by apply getsO_Done).
    assert (score n < sc) by (specialize (HA a ltac:(set_solver)); unfold score_of in HA; by rewrite Hn in HA).
    rewrite decide_True by done. rewrite final_cons. apply IH; try done; [set_solver|set_solver|lia].
Qed.

(** The scores before and after the place of [sc] in [L]. *)
Record split_at (m : gmap ptr zskiplistNode) (sc : Z) (A B : list ptr) : Prop := {
  split_lt y : y ∈ A → score_of m y < sc;
  split_ge y : y ∈ B → sc ≤ score_of m y;
}.

(** [update[j]] after the search. *)
Definition update_of (m : gmap ptr zskiplistNode) (h : ptr) (A : list ptr) (j : nat) : ptr :=
  final h (on_level m j A).

Lemma on_level_app m i l1 l2 : on_level m i (l1 ++ l2) = on_level m i l1 ++ on_level m i l2.
Proof. apply filter_app. Qed.

Lemma elem_of_on_level m i l x : x ∈ on_level m i l ↔ (i < hgt m x)%nat ∧ x ∈ l.
Proof. unfold on_level. by rewrite list_elem_of_filter. Qed.

Lemma find_update_spec fuel s A B sc i x :
  Rep s (A ++ B) → split_at (nodes s) sc A B → (i ≤ 32)%nat →
  x = header s ∨ (x ∈ A ∧ (i ≤ hgt (nodes s) x)%nat) →
  (List.length (A ++ B) < fuel)%nat →
  find_update fuel i sc x s = Done (update_of (nodes s) (header s) A <$> seq 0 i, s).
Proof.
  intros HR [Hlt Hge]. revert x. induction i as [|i IH]; intros x Hi Hx Hf; [done|].
  cbn [find_update]. pose proof (rep_links _ _ HR i ltac:(lia)) as Hl.
  rewrite on_level_app in Hl. set (Ai := on_level (nodes s) i A) in *.
  assert (∃ P Q, header s :: Ai = P ++ x :: Q ∧ final (header s) Ai = final x Q) as (P & Q & HPQ & Hfin).
  { destruct Hx as [->|[HxA Hxi]]; [by exists [], Ai|].
    assert (x ∈ Ai) as Hin by (apply elem_of_on_level; split; [lia|done]).
    apply list_elem_of_split in Hin as (P & Q & Heq). exists (header s :: P), Q. split; [by rewrite Heq|].
    rewrite Heq. clear. unfold final. rewrite last_app, last_cons.
    by destruct (last Q). }
  rewrite app_comm_cons, HPQ, <-app_assoc in Hl. apply links_app in Hl. cbn [app] in Hl.
  assert (Q ⊆ Ai) as HQ.
  { destruct P as [|p P]; cbn [app] in HPQ; injection HPQ as _ HPQ; [by rewrite HPQ|].
    rewrite HPQ. set_solver. }
  assert (∀ y, y ∈ Ai → y ∈ A ∧ (i < hgt (nodes s) y)%nat) as HAi by (intros y ?%elem_of_on_level; naive_solver).
  rewrite (bind_Done _ _ s (final x Q) s).
  2: { eapply walk_spec; [exact Hl|..].
    - intros y [Hy|Hy]%elem_of_app.
      + apply hgt_Some. apply HQ, HAi in Hy. lia.
      + apply hgt_Some. apply elem_of_on_level in Hy. lia.
    - intros y Hy. apply Hlt. by apply HAi, HQ.
    - intros y Hy. apply Hge. apply head_Some_elem_of in Hy. by apply elem_of_on_level in Hy as [_ Hy].
    - assert (List.length Q ≤ List.length Ai)%nat.
      { apply (f_equal List.length) in HPQ. rewrite length_app in HPQ. cbn in HPQ. lia. }
      assert (List.length Ai ≤ List.length A)%nat by apply length_filter.
      rewrite length_app in Hf. lia. }
  rewrite <-Hfin.
  assert (final (header s) Ai = header s ∨
    final (header s) Ai ∈ A ∧ (i ≤ hgt (nodes s) (final (header s) Ai))%nat) as Hnext.
  { destruct (final_in (header s) Ai) as [->|Hin]; [by left|right].
    apply HAi in Hin. split; [apply Hin|lia]. }
  rewrite (bind_Done _ _ s _ s (IH _ ltac:(lia) Hnext Hf)).
  unfold mret, prog_ret. by rewrite seq_S, fmap_app.
Qed.

(** ** Splicing a node in and out of all its levels *)

Lemma read_forward_run s x i f :
  forward (nodes s) x i = Some f → read_forward x i s = Done (f, s).
Proof. intros H. by apply getsO_Done. Qed.

Section splice.
Context (h : ptr) (A B : list ptr) (p : ptr).
Context (Hnd : NoDup (h :: A ++ p :: B)).

(** The lists of a level without and with [p]. *)
Definition without (m : gmap ptr zskiplistNode) (j : nat) : Prop :=
  links m j (h :: on_level m j (A ++ B)).
Definition including (m : gmap ptr zskiplistNode) (j : nat) : Prop :=
  links m j (h :: on_level m j (A ++ p :: B)).

Lemma splice_nodup j m P u :
  h :: on_level m j A = P ++ [u] → ∀ y, y ∈ P ++ on_level m j B → y ≠ u ∧ y ≠ p.
Proof.
  intros HP y Hy. rewrite app_comm_cons, NoDup_app in Hnd. destruct Hnd as (Hnd1 & Hdisj & Hnd2).
  apply NoDup_cons in Hnd2 as [HpB HndB].
  assert (NoDup (P ++ [u])) as Hnd3.
  { rewrite <-HP. apply NoDup_cons in Hnd1 as [Hh HA]. apply NoDup_cons.
    split; [by intros [_ ?]%elem_of_on_level|by apply NoDup_filter]. }
  assert (∀ z, z ∈ P ++ [u] → z ∈ h :: A) as Hsub.
  { intros z. rewrite <-HP, !elem_of_cons, elem_of_on_level. naive_solver. }
  apply NoDup_app in Hnd3 as (_ & Hd & _).
  apply elem_of_app in Hy as [Hy|[_ Hy]%elem_of_on_level].
  - split; [intros ->; apply (Hd u); set_solver|]. intros ->. apply (Hdisj p); [|set_solver].
    apply Hsub. set_solver.
  - split; [intros ->; apply (Hdisj u); [apply Hsub|]; set_solver|]. by intros ->.
Qed.

Lemma on_level_p m j : (j < hgt m p)%nat → on_level m j (A ++ p :: B) = on_level m j A ++ p :: on_level m j B.
Proof. intros Hj. rewrite on_level_app. unfold on_level at 2. by rewrite filter_cons_True. Qed.

Lemma on_level_not_p m j : ¬ (j < hgt m p)%nat → on_level m j (A ++ p :: B) = on_level m j (A ++ B).
Proof.
  intros Hj. rewrite !on_level_app. f_equal. unfold on_level. by rewrite filter_cons_False.
Qed.

Lemma u_height m j : (j < hgt m h)%nat → (j < hgt m (update_of m h A j))%nat.
Proof.
  intros Hh. unfold update_of. destruct (final_in h (on_level m j A)) as [->|Hin]; [done|].
  by apply elem_of_on_level in Hin as [? _].
Qed.

Lemma update_of_shape m m' j : same_shape m m' → update_of m' h A j = update_of m h A j.
Proof. intros Hs. unfold update_of. by rewrite (on_level_shape m m'). Qed.

Lemma without_shape m m' j :
  same_shape m m' → (∀ x, forward m' x j = forward m x j) → without m j → without m' j.
Proof.
  unfold without. intros Hs Hf Hl. rewrite (on_level_shape m m') by done.
  eapply links_ext; [|exact Hl]. auto.
Qed.
Lemma including_shape m m' j :
  same_shape m m' → (∀ x, forward m' x j = forward m x j) → including m j → including m' j.
Proof.
  unfold including. intros Hs Hf Hl. rewrite (on_level_shape m m') by done.
  eapply links_ext; [|exact Hl]. auto.
Qed.

(** One round of the linking loop. *)
Lemma link_round s i :
  (i < hgt (nodes s) h)%nat → (i < hgt (nodes s) p)%nat → without (nodes s) i →
  let u := update_of (nodes s) h A i in
  ∃ m, (f ← read_forward u i; write_forward p i f;; write_forward u i (Some p)) s =
      Done ((), set_nodes m s) ∧
    same_shape (nodes s) m ∧ including m i ∧
    (∀ x j, j ≠ i → forward m x j = forward (nodes s) x j).
Proof.
  intros Hh Hp Hw u. unfold without in Hw. rewrite on_level_app in Hw.
  destruct (final_split h (on_level (nodes s) i A)) as [P HP]. fold (update_of (nodes s) h A i) in HP.
  fold u in HP. rewrite app_comm_cons, HP, <-app_assoc in Hw. cbn [app] in Hw.
  rewrite (bind_Done _ _ s _ s (read_forward_run _ _ _ _ (links_at _ _ _ _ _ Hw))).
  destruct (write_forward_spec s p i (head (on_level (nodes s) i B)) Hp) as (m1 & Hrun1 & Hs1 & Hf1 & Ho1).
  rewrite (bind_Done _ _ _ _ _ Hrun1).
  destruct (write_forward_spec (set_nodes m1 s) u i (Some p)) as (m2 & Hrun2 & Hs2 & Hf2 & Ho2).
  { cbn [nodes set_nodes]. rewrite (same_shape_hgt _ _ _ Hs1). by apply u_height. }
  cbn [nodes set_nodes] in *. exists m2. split; [exact Hrun2|].
  assert (same_shape (nodes s) m2) as Hs by (etrans; eassumption).
  split; [done|]. pose proof (splice_nodup i (nodes s) P u HP) as Hne.
  assert (p ≠ u) as Hpu.
  { intros ->. assert (u ∈ h :: A) as Hu.
    { assert (u ∈ P ++ [u]) as Hin by set_solver. rewrite <-HP in Hin.
      apply elem_of_cons in Hin as [->|[_ ?]%elem_of_on_level]; set_solver. }
    rewrite app_comm_cons, NoDup_app in Hnd. destruct Hnd as (_ & Hd & _). apply (Hd u Hu). set_solver. }
  split.
  - unfold including. rewrite (on_level_shape _ _ _ _ Hs), on_level_p by done.
    rewrite app_comm_cons, HP, <-app_assoc. cbn [app].
    apply (links_insert (nodes s)); [done|done| |].
    + by rewrite Ho2, Hf1 by auto.
    + intros y [Hyu Hyp]%Hne. rewrite Ho2, Ho1 by auto. done.
  - intros x j Hj. rewrite Ho2, Ho1 by auto. done.
Qed.

Lemma link_levels_spec k i us s :
  (∀ j, (j < i + k)%nat → us !! j = Some (update_of (nodes s) h A j)) →
  (i + k ≤ 32)%nat → hgt (nodes s) h = 32%nat → hgt (nodes s) p = (i + k)%nat →
  (∀ j, (j < i)%nat → including (nodes s) j) →
  (∀ j, (i ≤ j < 32)%nat → without (nodes s) j) →
  ∃ m, link_levels k i us p s = Done ((), set_nodes m s) ∧ same_shape (nodes s) m ∧
    ∀ j, (j < 32)%nat → including m j.
Proof.
  revert i s. induction k as [|k IH]; intros i s Hus Hik Hh Hp Hdone Htodo.
  { exists (nodes s). split; [by destruct s|]. split; [done|]. intros j Hj.
    destruct (decide (j < i)%nat); [by apply Hdone|]. unfold including.
    rewrite on_level_not_p by lia. apply Htodo. lia. }
  cbn [link_levels].
  rewrite (bind_Done _ _ s _ s (getsO_Done (λ _, us !! i) s _ (Hus i ltac:(lia)))).
  destruct (link_round s i) as (m1 & Hrun & Hs1 & Hinc & Ho); [lia|lia|apply Htodo; lia|].
  set (u := update_of (nodes s) h A i) in *.
  assert ((f ← read_forward u i; write_forward p i f;; write_forward u i (Some p);;
    link_levels k (S i) us p) s = link_levels k (S i) us p (set_nodes m1 s)) as ->.
  { revert Hrun. unfold mbind, prog_bind. destruct (read_forward u i s) as [[f s0]| |]; try done.
    destruct (write_forward p i f s0) as [[[] s1]| |]; try done.
    destruct (write_forward u i (Some p) s1) as [[[] s2]| |]; try done. by intros [= ->]. }
  destruct (IH (S i) (set_nodes m1 s)) as (m2 & Hrun2 & Hs2 & Hinc2); cbn [nodes set_nodes].
  - intros j Hj. rewrite (update_of_shape _ _ _ Hs1). apply Hus. lia.
  - lia.
  - by rewrite (same_shape_hgt _ _ _ Hs1).
  - rewrite (same_shape_hgt _ _ _ Hs1). lia.
  - intros j Hj. destruct (decide (j = i)) as [->|]; [done|].
    apply (including_shape (nodes s)); [done|auto|apply Hdone; lia].
  - intros j Hj. apply (without_shape (nodes s)); [done|intros x; apply Ho; lia|apply Htodo; lia].
  - exists m2. split; [by rewrite Hrun2; destruct s|]. split; [etrans; eassumption|done].
Qed.

(** One round of the unlinking loops: if [p] is on the level it is taken out. *)
Lemma unlink_round s i :
  (i < hgt (nodes s) h)%nat → including (nodes s) i →
  let u := update_of (nodes s) h A i in
  ∃ m, (f ← read_forward u i;
        if decide (f = Some p) then g ← read_forward p i; write_forward u i g else mret ()) s =
      Done ((), set_nodes m s) ∧
    same_shape (nodes s) m ∧ without m i ∧
    (∀ x j, j ≠ i → forward m x j = forward (nodes s) x j).
Proof.
  intros Hh Hinc u. unfold including in Hinc.
  destruct (final_split h (on_level (nodes s) i A)) as [P HP]. fold (update_of (nodes s) h A i) in HP.
  fold u in HP. pose proof (splice_nodup i (nodes s) P u HP) as Hne.
  destruct (decide (i < hgt (nodes s) p)%nat) as [Hp|Hp].
  - rewrite on_level_p, app_comm_cons, HP, <-app_assoc in Hinc by done. cbn [app] in Hinc.
    rewrite (bind_Done _ _ s _ s (read_forward_run _ _ _ _ (links_at _ _ _ _ _ Hinc))).
    cbn [head]. rewrite decide_True by done.
    assert (forward (nodes s) p i = Some (head (on_level (nodes s) i B))) as Hfp.
    { apply (links_at _ _ (P ++ [u])). by rewrite <-app_assoc. }
    rewrite (bind_Done _ _ s _ s (read_forward_run _ _ _ _ Hfp)).
    destruct (write_forward_spec s u i (head (on_level (nodes s) i B))) as (m & Hrun & Hs & Hf & Ho);
      [by apply u_height|].
    exists m. split; [done|]. split; [done|]. split; [|intros x j Hj; apply Ho; auto].
    unfold without. rewrite (on_level_shape _ _ _ _ Hs), on_level_app, app_comm_cons, HP, <-app_assoc.
    cbn [app]. eapply links_delete; [exact Hinc|done|].
    intros y [Hyu _]%Hne. apply Ho. by left.
  - rewrite on_level_not_p in Hinc by done. exists (nodes s).
    split; [|split; [done|split; [done|done]]].
    pose proof Hinc as Hl. rewrite on_level_app, app_comm_cons, HP, <-app_assoc in Hl. cbn [app] in Hl.
    rewrite (bind_Done _ _ s _ s (read_forward_run _ _ _ _ (links_at _ _ _ _ _ Hl))).
    rewrite decide_False; [by destruct s|].
    intros Heq. apply head_Some_elem_of in Heq. destruct (Hne p) as [_ Hpp]; [set_solver|done].
Qed.

Lemma unlink_levels_spec k i us s :
  (∀ j, (j < i + k)%nat → us !! j = Some (update_of (nodes s) h A j)) →
  (i + k ≤ 32)%nat → hgt (nodes s) h = 32%nat → (hgt (nodes s) p ≤ i + k)%nat →
  (∀ j, (j < i)%nat → without (nodes s) j) →
  (∀ j, (i ≤ j < 32)%nat → including (nodes s) j) →
  ∃ m, unlink_levels k i us p s = Done ((), set_nodes m s) ∧ same_shape (nodes s) m ∧
    ∀ j, (j < 32)%nat → without m j.
Proof.
  revert i s. induction k as [|k IH]; intros i s Hus Hik Hh Hp Hdone Htodo.
  { exists (nodes s). split; [by destruct s|]. split; [done|]. intros j Hj.
    destruct (decide (j < i)%nat); [by apply Hdone|]. unfold without.
    rewrite <-on_level_not_p by lia. apply Htodo. lia. }
  cbn [unlink_levels].
  rewrite (bind_Done _ _ s _ s (getsO_Done (λ _, us !! i) s _ (Hus i ltac:(lia)))).
  destruct (unlink_round s i) as (m1 & Hrun & Hs1 & Hinc & Ho); [lia|apply Htodo; lia|].
  set (u := update_of (nodes s) h A i) in *.
  rewrite <-(prog_run _ _ (prog_assoc _ _ _)), (bind_Done _ _ _ _ _ Hrun).
  destruct (IH (S i) (set_nodes m1 s)) as (m2 & Hrun2 & Hs2 & Hinc2); cbn [nodes set_nodes].
  - intros j Hj. rewrite (update_of_shape _ _ _ Hs1). apply Hus. lia.
  - lia.
  - by rewrite (same_shape_hgt _ _ _ Hs1).
  - rewrite (same_shape_hgt _ _ _ Hs1). lia.
  - intros j Hj. destruct (decide (j = i)) as [->|]; [done|].
    apply (without_shape (nodes s)); [done|auto|apply Hdone; lia].
  - intros j Hj. apply (including_shape (nodes s)); [done|intros x; apply Ho; lia|apply Htodo; lia].
  - exists m2. split; [by rewrite Hrun2; destruct s|]. split; [etrans; eassumption|done].
Qed.
End splice.

(** ** The operations *)

Lemma lower_spec fuel s L :
  (1 ≤ levels s ≤ 32)%nat → (levels s ≤ fuel)%nat →
  (∀ i, (i < 32)%nat → links (nodes s) i (header s :: on_level (nodes s) i L)) →
  (∀ x, x ∈ L → (hgt (nodes s) x ≤ levels s)%nat) →
  ∃ l, lower fuel s = Done ((), set_levels l s) ∧ (1 ≤ l ≤ levels s)%nat ∧
    ∀ x, x ∈ L → (hgt (nodes s) x ≤ l)%nat.
Proof.
  revert s. induction fuel as [|fuel IH]; intros s Hl Hf Hlinks Hh; [lia|].
  cbn [lower]. rewrite !gets_bind.
  destruct (decide (1 < levels s)%nat) as [Hgt|]; [|exists (levels s); split; [by destruct s|split; [lia|done]]].
  destruct (Hlinks (levels s - 1)%nat ltac:(lia)) as [Hfw _].
  rewrite (bind_Done _ _ s _ s (read_forward_run _ _ _ _ Hfw)).
  destruct (on_level (nodes s) (levels s - 1) L) as [|x L'] eqn:Hon; cbn [head].
  - rewrite modS_bind. destruct (IH (set_levels (levels s - 1) s)) as (l & Hrun & Hle & Hh'); cbn.
    + lia.
    + lia.
    + done.
    + intros x Hx. specialize (Hh x Hx).
      destruct (decide (levels s - 1 < hgt (nodes s) x)%nat) as [Hlt|]; [|lia].
      assert (x ∈ on_level (nodes s) (levels s - 1) L) as Hin by by apply elem_of_on_level.
      rewrite Hon in Hin. by apply elem_of_nil in Hin.
    + exists l. split; [by rewrite Hrun|]. cbn in Hle. split; [lia|done].
  - exists (levels s). split; [by destruct s|]. split; [lia|done].
Qed.

Lemma random_level_bounds rands lvl : zslRandomLevel rands = Some lvl → (1 ≤ lvl ≤ 32)%nat.
Proof.
  unfold zslRandomLevel, ZSKIPLIST_MAXLEVEL. intros H.
  destruct (random_level rands 1) as [l|] eqn:Hl; [|done]. injection H as <-.
  assert (∀ l0, (1 ≤ l0)%nat → random_level rands l0 = Some l → (1 ≤ l)%nat) as Hge.
  { clear Hl. induction rands as [|r rands IH]; intros l0 Hl0; [done|]. cbn.
    case_decide; [apply IH; lia|]. by intros [= <-]. }
  specialize (Hge 1%nat ltac:(lia) Hl). lia.
Qed.

Definition before (m : gmap ptr zskiplistNode) (sc : Z) (L : list ptr) : list ptr :=
  filter (λ x, score_of m x < sc) L.
Definition after (m : gmap ptr zskiplistNode) (sc : Z) (L : list ptr) : list ptr :=
  filter (λ x, ¬ score_of m x < sc) L.

Lemma before_after s sc L :
  Rep s L → L = before (nodes s) sc L ++ after (nodes s) sc L ∧
    split_at (nodes s) sc (before (nodes s) sc L) (after (nodes s) sc L).
Proof.
  intros HR. split; [by apply StronglySorted_cut, HR|]. split.
  - intros y Hy. unfold before in Hy. by apply list_elem_of_filter in Hy as [? _].
  - intros y Hy. unfold after in Hy. apply list_elem_of_filter in Hy as [? _]. lia.
Qed.

Lemma Rep_header_nodup s L : Rep s L → NoDup (header s :: L).
Proof. intros HR. apply NoDup_cons. split; apply HR. Qed.

Lemma Rep_dom s L x : Rep s L → x = header s ∨ x ∈ L → is_Some (nodes s !! x).
Proof.
  intros HR Hx. apply hgt_Some. destruct Hx as [->|Hx].
  - rewrite (proj1 (rep_header _ _ HR)). lia.
  - pose proof (rep_in _ _ HR x Hx). lia.
Qed.

(** The state after the node has been created: the chains do not see it. *)
Lemma create_spec s L p lvl sc func :
  Rep s L → nodes s !! p = None →
  let m := <[p := Node sc func (replicate lvl None)]> (nodes s) in
  (∀ x, x ≠ p → m !! x = nodes s !! x) ∧ hgt m p = lvl ∧ score_of m p = sc ∧
  (∀ x, x = header s ∨ x ∈ L → hgt m x = hgt (nodes s) x ∧ score_of m x = score_of (nodes s) x) ∧
  (∀ i, (i < 32)%nat → links m i (header s :: on_level m i L)) ∧
  (∀ A j, (∀ x, x ∈ A → x ∈ L) → update_of m (header s) A j = update_of (nodes s) (header s) A j).
Proof.
  intros HR Hp m.
  assert (∀ x, x ≠ p → m !! x = nodes s !! x) as Hne by (intros x Hx; by apply lookup_insert_ne).
  assert (∀ x, x = header s ∨ x ∈ L → x ≠ p) as HLp.
  { intros x Hx ->. destruct (Rep_dom s L p HR Hx) as [n Hn]. congruence. }
  assert (∀ x, x = header s ∨ x ∈ L → hgt m x = hgt (nodes s) x ∧ score_of m x = score_of (nodes s) x) as Hsame.
  { intros x Hx%HLp. unfold hgt, score_of. by rewrite Hne. }
  assert (∀ A i, (∀ x, x ∈ A → x ∈ L) → on_level m i A = on_level (nodes s) i A) as Hon.
  { intros A i HA. apply filter_iff_in. intros x Hx. destruct (Hsame x) as [-> _]; auto. }
  split_and!; try done.
  - unfold hgt, m. rewrite lookup_insert_eq. cbn. by rewrite length_replicate.
  - unfold score_of, m. by rewrite lookup_insert_eq.
  - intros i Hi. rewrite Hon by done. eapply links_ext; [|by apply (rep_links _ _ HR)].
    intros x Hx. unfold forward. rewrite Hne; [done|]. apply HLp.
    apply elem_of_cons in Hx as [->|[_ ?]%elem_of_on_level]; auto.
  - intros A j HA. unfold update_of. by rewrite Hon.
Qed.

(** What changes in the heap: node [p] is new, the others keep their shape. *)
Definition others_kept (P : ptr → Prop) (m m' : gmap ptr zskiplistNode) : Prop :=
  ∀ x, P x → (λ n, (score n, handler n, List.length (level n))) <$> m' !! x =
             (λ n, (score n, handler n, List.length (level n))) <$> m !! x.

Lemma update_extended s L A l lvl :
  Rep s L → l = levels s → (∀ x, x ∈ A → x ∈ L) → (lvl ≤ 32)%nat →
  ∀ j, (j < lvl)%nat →
  ((update_of (nodes s) (header s) A <$> seq 0 l) ++
    (if decide (l < lvl)%nat then replicate (lvl - l) (header s) else [])) !! j =
  Some (update_of (nodes s) (header s) A j).
Proof.
  intros HR -> HA Hlvl j Hj. destruct (decide (j < levels s)%nat).
  - rewrite lookup_app_l by (rewrite length_fmap, length_seq; lia).
    rewrite list_lookup_fmap, lookup_seq_lt by done. done.
  - rewrite lookup_app_r by (rewrite length_fmap, length_seq; lia).
    rewrite length_fmap, length_seq, decide_True by lia. rewrite lookup_replicate_2 by lia.
    f_equal. unfold update_of.
    assert (on_level (nodes s) j A = []) as ->; [|done].
    destruct (on_level (nodes s) j A) as [|x l] eqn:Hon; [done|].
    assert (x ∈ on_level (nodes s) j A) as Hx by (rewrite Hon; set_solver).
    apply elem_of_on_level in Hx as [Hx HxA]. pose proof (rep_in _ _ HR x (HA x HxA)). lia.
Qed.

(** A list with [p] linked in on its levels, between what is before it and what
    is after it. *)
Lemma insert_rep s L A B p sc lvl m' :
  Rep s L → L = A ++ B → split_at (nodes s) sc A B → NoDup (header s :: A ++ p :: B) → (1 ≤ lvl ≤ 32)%nat →
  (∀ x, x = header s ∨ x ∈ L → hgt m' x = hgt (nodes s) x ∧ score_of m' x = score_of (nodes s) x) →
  hgt m' p = lvl → score_of m' p = sc →
  (∀ i, (i < 32)%nat → links m' i (header s :: on_level m' i (A ++ p :: B))) →
  Rep (set_length (length s + 1) (set_nodes m' (set_levels (Nat.max (levels s) lvl) s))) (A ++ p :: B).
Proof.
  intros HR HL Hsplit Hnd Hlb Hsame' Hhp' Hsp' Hinc. pose proof (rep_levels _ _ HR) as Hlv.
  assert (∀ x, x ∈ A → x ∈ L) as HAL by (intros x Hx; rewrite HL; set_solver).
  assert (length s = Z.of_nat (List.length L)) as Hlength by apply HR.
  apply NoDup_cons in Hnd as [Hh Hnd].
  split; cbn [nodes header levels length set_nodes set_length set_levels].
  - lia.
  - split; [|done]. rewrite (proj1 (Hsame' (header s) (or_introl eq_refl))). apply HR.
  - done.
  - intros x Hx. assert (x = p ∨ x ∈ L) as [->|Hx'].
    { rewrite HL. apply elem_of_app in Hx as [?|[?|?]%elem_of_cons]; set_solver. }
    + lia.
    + rewrite (proj1 (Hsame' x (or_intror Hx'))). pose proof (rep_in _ _ HR x Hx'). lia.
  - intros i Hi. by apply Hinc.
  - apply StronglySorted_insert.
    + rewrite <-HL. eapply StronglySorted_impl; [|apply (rep_sorted _ _ HR)].
      intros x y Hx Hy. destruct (Hsame' x), (Hsame' y); auto. lia.
    + intros y Hy. rewrite Hsp', (proj2 (Hsame' y (or_intror (HAL y Hy)))).
      pose proof (split_lt _ _ _ _ Hsplit y Hy). lia.
    + intros y Hy. assert (y ∈ L) as HyL by (rewrite HL; set_solver).
      rewrite Hsp', (proj2 (Hsame' y (or_intror HyL))). by apply (split_ge _ _ _ _ Hsplit).
  - rewrite Hlength, HL, !length_app. cbn [List.length]. lia.
Qed.

Lemma insert_run fuel s L p rands sc func lvl :
  Rep s L → nodes s !! p = None → zslRandomLevel rands = Some lvl →
  (List.length L < fuel)%nat → Z.of_nat (List.length L) + 1 < 2147483648 →
  ∃ s', zslInsert fuel p rands sc func s = Done (p, s') ∧
    Rep s' (before (nodes s) sc L ++ p :: after (nodes s) sc L) ∧
    score_of (nodes s') p = sc ∧ others_kept (λ x, x ≠ p) (nodes s) (nodes s').
Proof.
  intros HR Hp Hlvl Hf Hlen. destruct (before_after s sc L HR) as [HL Hsplit].
  set (A := before (nodes s) sc L) in *. set (B := after (nodes s) sc L) in *.
  pose proof (random_level_bounds _ _ Hlvl) as Hlb. pose proof (rep_levels _ _ HR) as Hlv.
  unfold zslInsert. rewrite !gets_bind.
  rewrite (bind_Done _ _ s _ s (find_update_spec fuel s A B sc (levels s) (header s)
    ltac:(by rewrite <-HL) Hsplit ltac:(lia) (or_introl eq_refl) ltac:(by rewrite <-HL))).
  rewrite (bind_Done _ _ s lvl s) by (by apply getsO_Done).
  set (us := (update_of (nodes s) (header s) A <$> seq 0 (levels s)) ++
    (if decide (levels s < lvl)%nat then replicate (lvl - levels s) (header s) else [])).
  set (s1 := set_levels (Nat.max (levels s) lvl) s).
  rewrite (bind_Done _ _ s us s1).
  2: { unfold us, s1. destruct (decide (levels s < lvl)%nat).
       - rewrite modS_bind. by rewrite Nat.max_r by lia.
       - rewrite app_nil_r, Nat.max_l by lia. by destruct s. }
  unfold zslCreateNode. rewrite modS_bind.
  destruct (create_spec s L p lvl sc func HR Hp) as (Hne & Hhp & Hsp & Hsame & Hlinks & Hupd).
  set (m := <[p := Node sc func (replicate lvl None)]> (nodes s)) in *.
  change (set_nodes _ s1) with (set_nodes m s1).
  assert (NoDup (header s :: A ++ p :: B)) as Hnd.
  { pose proof (Rep_header_nodup s L HR) as Hnd. rewrite HL in Hnd.
    assert (header s :: A ++ p :: B ≡ₚ p :: header s :: A ++ B) as -> by solve_Permutation.
    apply NoDup_cons. split; [|done]. rewrite <-HL. intros Hin.
    destruct (Rep_dom s L p HR) as [n Hn]; [by apply elem_of_cons in Hin|congruence]. }
  assert (∀ x, x ∈ A → x ∈ L) as HAL by (intros x Hx; rewrite HL; set_solver).
  destruct (link_levels_spec (header s) A B p Hnd lvl 0 us (set_nodes m s1)) as (m' & Hrun & Hs' & Hinc).
  - intros j Hj. cbn [nodes set_nodes]. rewrite Hupd by done.
    unfold us. apply (update_extended s L); (done || lia).
  - lia.
  - cbn. rewrite (proj1 (Hsame (header s) (or_introl eq_refl))). apply HR.
  - done.
  - lia.
  - intros j Hj. unfold without. cbn [nodes set_nodes]. rewrite <-HL. apply Hlinks. lia.
  - rewrite (bind_Done _ _ _ _ _ Hrun). cbn [nodes set_nodes] in Hs'.
    assert (length s = Z.of_nat (List.length L)) as Hlength by apply HR.
    exists (set_length (length s + 1) (set_nodes m' s1)). split; [|split; [|split]].
    + unfold add_length. erewrite modO_bind; [done|]. cbn. by rewrite decide_True by lia.
    + apply (insert_rep s L A B p sc lvl m'); [done..| | | |].
      * intros x Hx. destruct (Hsame x Hx) as [Hh Hsc].
        by rewrite (same_shape_hgt _ _ _ Hs'), (same_shape_score _ _ _ Hs').
      * by rewrite (same_shape_hgt _ _ _ Hs').
      * by rewrite (same_shape_score _ _ _ Hs').
      * intros i Hi. by apply Hinc.
    + cbn. by rewrite (same_shape_score _ _ _ Hs').
    + intros x Hx. cbn. rewrite (Hs' x). by rewrite Hne.
Qed.

(** Taking [p] out of the chains, lowering the list and counting. *)
Lemma Rep_unlinked s A p B m l :
  Rep s (A ++ p :: B) → same_shape (nodes s) m → (1 ≤ l ≤ levels s)%nat →
  (∀ j, (j < 32)%nat → links m j (header s :: on_level m j (A ++ B))) →
  (∀ x, x ∈ A ++ B → (hgt m x ≤ l)%nat) →
  Rep (set_length (length s + -1) (set_levels l (set_nodes m s))) (A ++ B).
Proof.
  intros HR Hs Hl Hlinks Hh. pose proof (rep_levels _ _ HR) as Hlv.
  assert (∀ x, x ∈ A ++ B → x ∈ A ++ p :: B) as Hsub by (intros x; set_solver).
  split; cbn [nodes header levels length set_nodes set_length set_levels].
  - lia.
  - split; [by rewrite (same_shape_hgt _ _ _ Hs); apply HR|].
    intros Hin. by apply (proj2 (rep_header _ _ HR)), Hsub.
  - assert (p :: A ++ B ≡ₚ A ++ p :: B) as HP by solve_Permutation.
    pose proof (rep_nodup _ _ HR) as Hnd. rewrite <-HP in Hnd. by inv Hnd.
  - intros x Hx. split; [|by apply Hh]. rewrite (same_shape_hgt _ _ _ Hs).
    by apply (rep_in _ _ HR), Hsub.
  - done.
  - eapply StronglySorted_impl; [|eapply StronglySorted_delete, (rep_sorted _ _ HR)].
    intros x y _ _. by rewrite !(same_shape_score _ _ _ Hs).
  - rewrite (rep_length _ _ HR), !length_app. cbn. lia.
Qed.

(** Freeing a node that is out of the chains. *)
Lemma Rep_free s L p :
  Rep s L → p ≠ header s → p ∉ L → Rep (set_nodes (delete p (nodes s)) s) L.
Proof.
  intros HR Hph HpL. destruct s as [h len lv m]. cbn in Hph.
  assert (∀ x, x ≠ p → delete p m !! x = m !! x) as Hne by (intros x Hx; by apply lookup_delete_ne).
  assert (∀ x, x = h ∨ x ∈ L → x ≠ p) as HLp by (intros x [->|Hx] ->; [done|by apply HpL]).
  assert (∀ x, x = h ∨ x ∈ L → hgt (delete p m) x = hgt m x ∧ score_of (delete p m) x = score_of m x) as Hsame.
  { intros x Hx%HLp. unfold hgt, score_of. by rewrite Hne. }
  destruct HR as [R1 [R2 R2'] R3 R4 R5 R6 R7].
  cbn [nodes header levels length] in *. split; cbn [nodes header levels length set_nodes]; try done.
  - split; [|done]. by rewrite (proj1 (Hsame h (or_introl eq_refl))).
  - intros x Hx. rewrite (proj1 (Hsame x (or_intror Hx))). by apply R4.
  - intros i Hi. replace (on_level (delete p m) i L) with (on_level m i L).
    + eapply links_ext; [|by apply R5]. intros x Hx. unfold forward. rewrite Hne; [done|].
      apply HLp. apply elem_of_cons in Hx as [->|[_ ?]%elem_of_on_level]; auto.
    + apply filter_iff_in. intros x Hx. by rewrite (proj1 (Hsame x (or_intror Hx))).
  - eapply StronglySorted_impl; [|exact R6]. intros x y Hx Hy.
    by rewrite (proj2 (Hsame x (or_intror Hx))), (proj2 (Hsame y (or_intror Hy))).
Qed.

Lemma lower_count s A p B m :
  Rep s (A ++ p :: B) → same_shape (nodes s) m →
  Z.of_nat (List.length (A ++ p :: B)) < 2147483648 →
  (∀ j, (j < 32)%nat → links m j (header s :: on_level m j (A ++ B))) →
  ∃ l, (lower (S (levels s));; add_length (-1)) (set_nodes m s) =
      Done ((), set_length (length s + -1) (set_levels l (set_nodes m s))) ∧
    Rep (set_length (length s + -1) (set_levels l (set_nodes m s))) (A ++ B).
Proof.
  intros HR Hs Hlen Hlinks. pose proof (rep_levels _ _ HR) as Hlv.
  destruct (lower_spec (S (levels s)) (set_nodes m s) (A ++ B)) as (l & Hrun & Hl & Hh); cbn [levels nodes header set_nodes].
  - done.
  - lia.
  - done.
  - intros x Hx. rewrite (same_shape_hgt _ _ _ Hs). apply (rep_in _ _ HR). set_solver.
  - exists l. split; [|by apply Rep_unlinked with p].
    rewrite (bind_Done _ _ _ _ _ Hrun). apply modO_Done. cbn. rewrite decide_True; [done|].
    rewrite (rep_length _ _ HR). rewrite length_app in *. cbn in *. lia.
Qed.

Lemma update_seq s A i :
  (i < levels s)%nat →
  (update_of (nodes s) (header s) A <$> seq 0 (levels s)) !! i = Some (update_of (nodes s) (header s) A i).
Proof. intros Hi. rewrite list_lookup_fmap, lookup_seq_lt by done. done. Qed.

(** [zslDeleteNode] with the [update] of the search. *)
Lemma delete_node_run s A p B :
  Rep s (A ++ p :: B) → Z.of_nat (List.length (A ++ p :: B)) < 2147483648 →
  ∃ s', zslDeleteNode p (update_of (nodes s) (header s) A <$> seq 0 (levels s)) s = Done ((), s') ∧
    Rep s' (A ++ B) ∧ same_shape (nodes s) (nodes s') ∧ header s' = header s.
Proof.
  intros HR Hlen. pose proof (rep_levels _ _ HR) as Hlv. unfold zslDeleteNode. rewrite gets_bind.
  destruct (unlink_levels_spec (header s) A B p (Rep_header_nodup _ _ HR) (levels s) 0
    (update_of (nodes s) (header s) A <$> seq 0 (levels s)) s) as (m & Hrun & Hs & Hout).
  - intros j Hj. by apply update_seq.
  - lia.
  - apply HR.
  - cbn. apply (rep_in _ _ HR). set_solver.
  - lia.
  - intros j Hj. apply (rep_links _ _ HR). lia.
  - rewrite (bind_Done _ _ _ _ _ Hrun).
    destruct (lower_count s A p B m HR Hs Hlen Hout) as (l & Hrun2 & HR2).
    eexists. split; [exact Hrun2|]. by split; [|split].
Qed.

Lemma Rep_p_apart s A p B : Rep s (A ++ p :: B) → p ≠ header s ∧ p ∉ A ++ B.
Proof.
  intros HR. pose proof (Rep_header_nodup _ _ HR) as Hnd.
  assert (header s :: A ++ p :: B ≡ₚ p :: header s :: A ++ B) as HP by solve_Permutation.
  rewrite HP in Hnd. apply NoDup_cons in Hnd as [Hin _]. by apply not_elem_of_cons in Hin.
Qed.

Lemma read_node_run s x n : nodes s !! x = Some n → read_node x s = Done (n, s).
Proof. intros H. by apply getsO_Done. Qed.

(** [after] starts with a node of the score asked for, if there is one. *)
Lemma after_first s L z :
  Rep s L → z ∈ L →
  let sc := score_of (nodes s) z in
  ∃ p B, after (nodes s) sc L = p :: B ∧ score_of (nodes s) p = sc.
Proof.
  intros HR Hz sc. destruct (before_after s sc L HR) as [HL Hsplit].
  assert (z ∈ after (nodes s) sc L) as Hin.
  { apply list_elem_of_filter. split; [unfold sc; lia|done]. }
  pose proof (rep_sorted _ _ HR) as Hsort. rewrite HL in Hsort.
  destruct (after (nodes s) sc L) as [|p B] eqn:Hafter; [by apply elem_of_nil in Hin|].
  exists p, B. split; [done|]. pose proof (split_ge _ _ _ _ Hsplit p ltac:(set_solver)) as Hge.
  assert (score_of (nodes s) p ≤ sc); [|lia]. apply elem_of_cons in Hin as [->|Hin]; [done|].
  apply StronglySorted_app_1_r in Hsort. inv Hsort. rewrite Forall_forall in *. unfold sc. auto.
Qed.

Lemma delete_run fuel s L z A p B :
  Rep s L → z ∈ L → (List.length L < fuel)%nat → Z.of_nat (List.length L) < 2147483648 →
  before (nodes s) (score_of (nodes s) z) L = A → after (nodes s) (score_of (nodes s) z) L = p :: B →
  ∃ s', zslDelete fuel z s = Done ((), s') ∧ Rep s' (A ++ B) ∧
    nodes s' !! p = None ∧ others_kept (λ x, x ≠ p) (nodes s) (nodes s').
Proof.
  intros HR Hz Hf Hlen HA HB. set (sc := score_of (nodes s) z) in *.
  destruct (before_after s sc L HR) as [HL Hsplit]. rewrite HA, HB in *.
  pose proof (after_first s L z HR Hz) as (p' & B' & HB' & Hsc). fold sc in HB', Hsc.
  rewrite HB in HB'. injection HB' as <- <-. rewrite HL in HR, Hf, Hlen.
  pose proof (rep_levels _ _ HR) as Hlv.
  destruct (Rep_dom s _ z HR) as [nz Hnz]; [right; by rewrite <-HL|].
  destruct (Rep_dom s _ p HR) as [np Hnp]; [right; set_solver|].
  assert (score nz = sc) as Hnzs by (unfold sc, score_of; by rewrite Hnz).
  assert (score np = sc) as Hnps by (rewrite <-Hsc; unfold score_of; by rewrite Hnp).
  unfold zslDelete. rewrite !gets_bind. rewrite (bind_Done _ _ s _ s (read_node_run s z nz Hnz)), Hnzs.
  rewrite (bind_Done _ _ s _ s (find_update_spec fuel s A (p :: B) sc (levels s) (header s)
    HR Hsplit ltac:(lia) (or_introl eq_refl) Hf)).
  rewrite (bind_Done _ _ s (update_of (nodes s) (header s) A 0) s).
  2: { apply getsO_Done. apply update_seq. lia. }
  rewrite (bind_Done _ _ s (Some p) s).
  2: { apply read_forward_run. unfold update_of.
       pose proof (rep_links _ _ HR 0%nat ltac:(lia)) as Hl0.
       destruct (final_split (header s) (on_level (nodes s) 0 A)) as [P HP].
       rewrite on_level_app, app_comm_cons, HP, <-app_assoc in Hl0. cbn [app] in Hl0.
       rewrite (links_at _ _ _ _ _ Hl0). unfold on_level.
       rewrite filter_cons_True; [done|]. apply (rep_in _ _ HR). set_solver. }
  rewrite (bind_Done _ _ s _ s (read_node_run s p np Hnp)).
  rewrite (bind_Done _ _ s _ s (read_node_run s z nz Hnz)). rewrite decide_True by congruence.
  destruct (delete_node_run s A p B HR Hlen) as (s1 & Hrun & HR1 & Hs1 & Hh1).
  rewrite (bind_Done _ _ _ _ _ Hrun). destruct (Rep_p_apart _ _ _ _ HR) as [Hph HpAB].
  assert (is_Some (nodes s1 !! p)) as [n1 Hn1].
  { apply hgt_Some. rewrite (same_shape_hgt _ _ _ Hs1). pose proof (rep_in _ _ HR p ltac:(set_solver)). lia. }
  exists (set_nodes (delete p (nodes s1)) s1). split; [|split; [|split]].
  - unfold free. by rewrite (bind_Done _ _ s1 _ s1 (read_node_run s1 p n1 Hn1)).
  - apply Rep_free; [done|by rewrite Hh1|done].
  - cbn. by rewrite lookup_delete_eq.
  - intros x Hx. cbn. rewrite lookup_delete_ne by done. apply Hs1.
Qed.

(** ** The head of the list *)

Lemma min_run s L : Rep s L → zslMin s = Done (head L, s).
Proof.
  intros HR. unfold zslMin. rewrite gets_bind. apply read_forward_run.
  pose proof (rep_links _ _ HR 0%nat ltac:(lia)) as [Hl _].
  rewrite Hl. f_equal. unfold on_level. clear Hl. pose proof (rep_in _ _ HR) as Hin.
  destruct L as [|x L]; [done|]. rewrite filter_cons_True; [done|].
  pose proof (Hin x ltac:(set_solver)). lia.
Qed.

Lemma unlink_head_spec h p B (Hnd : NoDup (h :: [] ++ p :: B)) i s :
  (i ≤ 32)%nat → hgt (nodes s) h = 32%nat →
  (∀ j, (j < i)%nat → including h [] B p (nodes s) j) →
  (∀ j, (i ≤ j < 32)%nat → without h [] B (nodes s) j) →
  ∃ m, unlink_head i h p s = Done ((), set_nodes m s) ∧ same_shape (nodes s) m ∧
    ∀ j, (j < 32)%nat → without h [] B m j.
Proof.
  revert s. induction i as [|i IH]; intros s Hi Hh Htodo Hdone.
  { exists (nodes s). split; [by destruct s|]. split; [done|]. intros j Hj. apply Hdone. lia. }
  cbn [unlink_head].
  destruct (unlink_round h [] B p Hnd s i) as (m1 & Hrun & Hs1 & Hinc & Ho); [lia|apply Htodo; lia|].
  change (update_of (nodes s) h [] i) with h in Hrun.
  rewrite <-(prog_run _ _ (prog_assoc _ _ _)), (bind_Done _ _ _ _ _ Hrun).
  destruct (IH (set_nodes m1 s)) as (m2 & Hrun2 & Hs2 & Hinc2); cbn [nodes set_nodes].
  - lia.
  - by rewrite (same_shape_hgt _ _ _ Hs1).
  - intros j Hj. apply (including_shape h [] B p (nodes s)); [done|intros x; apply Ho; lia|apply Htodo; lia].
  - intros j Hj. destruct (decide (j = i)) as [->|]; [done|].
    apply (without_shape h [] B (nodes s)); [done|intros x; apply Ho; lia|apply Hdone; lia].
  - exists m2. split; [by rewrite Hrun2; destruct s|]. split; [etrans; eassumption|done].
Qed.

Lemma delete_head_run s p B :
  Rep s (p :: B) → Z.of_nat (List.length (p :: B)) < 2147483648 →
  ∃ s', zslDeleteHead s = Done ((), s') ∧ Rep s' B ∧ same_shape (nodes s) (nodes s').
Proof.
  intros HR Hlen. pose proof (rep_levels _ _ HR) as Hlv.
  unfold zslDeleteHead. rewrite (bind_Done _ _ _ _ _ (min_run _ _ HR)). cbn [head].
  rewrite !gets_bind.
  destruct (unlink_head_spec (header s) p B (Rep_header_nodup _ _ HR) (levels s) s) as (m & Hrun & Hs & Hout).
  - lia.
  - apply HR.
  - intros j Hj. apply (rep_links _ _ HR). lia.
  - intros j Hj. unfold without. rewrite <-(on_level_not_p [] B p).
    + apply (rep_links _ _ HR). lia.
    + pose proof (rep_in _ _ HR p ltac:(set_solver)). lia.
  - rewrite (bind_Done _ _ _ _ _ Hrun).
    destruct (lower_count s [] p B m HR Hs Hlen Hout) as (l & Hrun2 & HR2).
    eexists. split; [exact Hrun2|]. by split.
Qed.

Lemma delete_head_nil s : Rep s [] → zslDeleteHead s = Done ((), s).
Proof. intros HR. unfold zslDeleteHead. by rewrite (bind_Done _ _ _ _ _ (min_run _ _ HR)). Qed.

(** ** Creation and destruction *)

Lemma create_Rep p : Rep (zslCreate p) [].
Proof.
  split; cbn [zslCreate levels header nodes length]; try done; try lia.
  - split; [|by apply not_elem_of_nil]. unfold hgt. by rewrite lookup_singleton_eq.
  - constructor.
  - by intros x ?%elem_of_nil.
  - intros i Hi. split; [|done]. unfold forward. rewrite lookup_singleton_eq.
    cbn [mbind option_bind level]. by rewrite lookup_replicate_2.
  - constructor.
Qed.

(** The chain of level 0 is freed node by node. *)
Lemma free_chain_run fuel L s :
  links (nodes s) 0 L → NoDup L → (List.length L < fuel)%nat →
  free_chain fuel (head L) s = Done ((), set_nodes (filter (λ '(x, _), x ∉ L) (nodes s)) s).
Proof.
  revert L s. induction fuel as [|fuel IH]; intros L s Hl Hnd Hf; [lia|].
  cbn [free_chain]. destruct L as [|x L]; cbn [head].
  - unfold mret, prog_ret. f_equal. f_equal. destruct s as [h n l m]. unfold set_nodes. cbn. f_equal.
    symmetry. apply map_filter_id. intros i y _ Hi. by apply elem_of_nil in Hi.
  - destruct Hl as [Hfw Hl]. apply NoDup_cons in Hnd as [Hx Hnd].
    rewrite (bind_Done _ _ s _ s (read_forward_run _ _ _ _ Hfw)).
    assert (is_Some (nodes s !! x)) as [n Hn].
    { unfold forward in Hfw. destruct (nodes s !! x); [by eexists|done]. }
    rewrite (bind_Done _ _ s () (set_nodes (delete x (nodes s)) s)).
    2: { unfold free. by rewrite (bind_Done _ _ s _ s (read_node_run s x n Hn)). }
    rewrite IH; [|..|cbn in Hf; lia]; [|clear Hf|done].
    + f_equal. f_equal. unfold set_nodes. cbn. f_equal. apply map_eq. intros i.
      destruct (decide (i = x)) as [->|Hix].
      * rewrite !map_lookup_filter, lookup_delete_eq. cbn.
        rewrite Hn. cbn. by rewrite option_guard_False by set_solver.
      * rewrite !map_lookup_filter, lookup_delete_ne by done.
        destruct (nodes s !! i); [|done]. cbn.
        destruct (decide (i ∈ L)); [rewrite !option_guard_False by set_solver; done|].
        rewrite !option_guard_True by set_solver. done.
    + eapply links_ext; [|exact Hl]. intros y Hy. unfold forward. cbn.
      rewrite lookup_delete_ne; [done|]. by intros ->.
Qed.

(** ** A concrete list: two nodes of the same score *)

Definition state_of (r : outcome (ptr * zskiplist)) : zskiplist :=
  match r with Done (_, s) => s | _ => zslCreate 1 end.
Definition demo1 : zskiplist := state_of (zslInsert 5 2 [0; 65535] 10 7 (zslCreate 1)).
Definition demo2 : zskiplist := state_of (zslInsert 5 3 [65535] 10 8 demo1).

Lemma demo1_Rep : Rep demo1 [2%positive].
Proof.
  destruct (insert_run 5 (zslCreate 1) [] 2 [0; 65535] 10 7 2 (create_Rep 1)) as (s' & H & HR & _);
    [done|done|cbn; lia|cbn; lia|].
  unfold demo1. rewrite H. exact HR.
Qed.
Lemma demo2_Rep : Rep demo2 [3%positive; 2%positive].
Proof.
  destruct (insert_run 5 demo1 [2%positive] 3 [65535] 10 8 1 demo1_Rep) as (s' & H & HR & _);
    [vm_compute; done|done|cbn; lia|cbn; lia|].
  unfold demo2. rewrite H. exact HR.
Qed.

(** ** The functions of the library *)

(** C33: [zslInsert] puts the new node in its place by score, before the nodes of
    the same score, whatever height [rand] gives it: every level stays a chain
    of exactly the nodes that reach it, and no other node changes its score or
    height. *)
Theorem zslInsert_spec fuel s L p rands sc func lvl :
  Rep s L → nodes s !! p = None → zslRandomLevel rands = Some lvl →
  (List.length L < fuel)%nat → Z.of_nat (List.length L) + 1 < 2147483648 →
  ∃ s', zslInsert fuel p rands sc func s = Done (p, s') ∧
    Rep s' (before (nodes s) sc L ++ p :: after (nodes s) sc L) ∧
    score_of (nodes s') p = sc ∧ others_kept (λ x, x ≠ p) (nodes s) (nodes s').
Proof. apply insert_run. Qed.

Lemma zslInsert_spec_witness :
  ∃ s', zslInsert 5 4 [3; 65535] 10 9 demo2 = Done (4%positive, s') ∧
    Rep s' (before (nodes demo2) 10 [3%positive; 2%positive] ++
      4%positive :: after (nodes demo2) 10 [3%positive; 2%positive]) ∧
    score_of (nodes s') 4 = 10 ∧ others_kept (λ x, x ≠ 4%positive) (nodes demo2) (nodes s').
Proof.
  apply (zslInsert_spec 5 demo2 _ 4 [3; 65535] 10 9 2 demo2_Rep); [vm_compute; done|vm_compute; done|cbn; lia|cbn; lia].
Defined.

(** [zslDelete] on a node [z] of the list takes out and frees the first node
    with the score of [z], and nothing else.  That node is [z] when no node
    before it has its score. *)
Theorem zslDelete_spec fuel s L z A p B :
  Rep s L → z ∈ L → (List.length L < fuel)%nat → Z.of_nat (List.length L) < 2147483648 →
  before (nodes s) (score_of (nodes s) z) L = A → after (nodes s) (score_of (nodes s) z) L = p :: B →
  L = A ++ p :: B ∧ score_of (nodes s) p = score_of (nodes s) z ∧
  ((∀ x, x ∈ L → score_of (nodes s) x = score_of (nodes s) z → x = z) → p = z) ∧
  ∃ s', zslDelete fuel z s = Done ((), s') ∧ Rep s' (A ++ B) ∧
    nodes s' !! p = None ∧ others_kept (λ x, x ≠ p) (nodes s) (nodes s').
Proof.
  intros HR Hz Hf Hlen HA HB.
  pose proof (proj1 (before_after s (score_of (nodes s) z) L HR)) as HL. rewrite HA, HB in HL.
  destruct (after_first s L z HR Hz) as (p' & B' & HB' & Hp). rewrite HB in HB'. injection HB' as <- <-.
  split_and!; [done|done| |by apply (delete_run _ _ L)].
  intros Huniq. apply Huniq; [|done]. rewrite HL. set_solver.
Qed.

(** Deleting the second of two nodes of equal score frees the first. *)
Lemma zslDelete_spec_witness :
  [3%positive; 2%positive] = [] ++ 3%positive :: [2%positive] ∧
  score_of (nodes demo2) 3 = score_of (nodes demo2) 2 ∧
  ((∀ x, x ∈ [3%positive; 2%positive] → score_of (nodes demo2) x = score_of (nodes demo2) 2 → x = 2%positive) → 3%positive = 2%positive) ∧
  ∃ s', zslDelete 5 2 demo2 = Done ((), s') ∧ Rep s' ([] ++ [2%positive]) ∧
    nodes s' !! 3%positive = None ∧ others_kept (λ x, x ≠ 3%positive) (nodes demo2) (nodes s').
Proof.
  apply (zslDelete_spec 5 demo2 [3%positive; 2%positive] 2 [] 3 [2%positive] demo2_Rep);
    [right; left|cbn; lia|cbn; lia|vm_compute; done|vm_compute; done].
Defined.

Example zslDelete_frees_another :
  match zslDelete 5 2 demo2 with
  | Done (_, s') => nodes s' !! 3%positive = None ∧ is_Some (nodes s' !! 2%positive)
  | _ => False
  end.
Proof. vm_compute. split; [done|by eexists]. Qed.

(** [zslDeleteHead] takes the node that [zslMin] returns off every level it
    is on, and only that node; on an empty list it does nothing.  The node is
    not freed. *)
Theorem zslDeleteHead_spec s L :
  Rep s L → Z.of_nat (List.length L) < 2147483648 →
  zslMin s = Done (head L, s) ∧
  ∃ s', zslDeleteHead s = Done ((), s') ∧ Rep s' (tail L) ∧ same_shape (nodes s) (nodes s').
Proof.
  intros HR Hlen. split; [by apply min_run|]. destruct L as [|p B].
  - exists s. split; [by apply delete_head_nil|]. by split.
  - by apply (delete_head_run s p B).
Qed.

Lemma zslDeleteHead_spec_witness :
  zslMin demo2 = Done (Some 3%positive, demo2) ∧
  ∃ s', zslDeleteHead demo2 = Done ((), s') ∧ Rep s' [2%positive] ∧ same_shape (nodes demo2) (nodes s').
Proof. apply (zslDeleteHead_spec demo2 [3%positive; 2%positive] demo2_Rep). cbn. lia. Defined.

(** [zslFree] frees the header and the nodes of the list, each once, and no
    other node. *)
Theorem zslFree_spec fuel s L :
  Rep s L → (List.length L < fuel)%nat →
  ∃ s', zslFree fuel s = Done ((), s') ∧
    ∀ x, nodes s' !! x = if decide (x ∈ header s :: L) then None else nodes s !! x.
Proof.
  intros HR Hf. unfold zslFree. rewrite gets_bind.
  pose proof (min_run s L HR) as Hmin. unfold zslMin in Hmin. rewrite gets_bind in Hmin.
  rewrite (bind_Done _ _ _ _ _ Hmin).
  destruct (Rep_dom s L (header s) HR (or_introl eq_refl)) as [n Hn].
  rewrite (bind_Done _ _ s () (set_nodes (delete (header s) (nodes s)) s)).
  2: { unfold free. by rewrite (bind_Done _ _ s _ s (read_node_run s _ n Hn)). }
  rewrite free_chain_run; [|..|done]; [| |apply HR].
  2: { pose proof (proj2 (rep_links _ _ HR 0%nat ltac:(lia))) as Hl.
       assert (on_level (nodes s) 0 L = L) as Hon.
       { unfold on_level. apply filter_all. intros x Hx%(rep_in _ _ HR). lia. }
       cbn [nodes set_nodes]. rewrite Hon in Hl. eapply links_ext; [|exact Hl]. intros x Hx.
       unfold forward. rewrite lookup_delete_ne; [done|].
       intros <-. by apply (proj2 (rep_header _ _ HR)). }
  eexists. split; [done|]. intros x. cbn [nodes set_nodes]. rewrite map_lookup_filter.
  destruct (decide (x = header s)) as [->|Hne].
  - rewrite lookup_delete_eq, decide_True by set_solver. done.
  - rewrite lookup_delete_ne by done. destruct (decide (x ∈ header s :: L)) as [[->|Hx]%elem_of_cons|Hx].
    + done.
    + destruct (nodes s !! x); [|done]. cbn. by rewrite option_guard_False by set_solver.
    + destruct (nodes s !! x); [|done]. cbn. by rewrite option_guard_True by set_solver.
Qed.

Lemma zslFree_spec_witness :
  ∃ s', zslFree 5 demo2 = Done ((), s') ∧
    ∀ x, nodes s' !! x = if decide (x ∈ header demo2 :: [3%positive; 2%positive]) then None else nodes demo2 !! x.
Proof. apply (zslFree_spec 5 demo2 _ demo2_Rep). cbn. lia. Defined.
End SkipList.
