(* ===== verification/SklTimer.v ===== *)
(** The timer front end on the skip list: src/timer/skl-timer.c. *)
From S2P Require Import Prelude TimerQueue Clock SkipList.
Import SkipList.

Module SklTimer.

Definition current_time := Clock.current_time.

Definition init_timer (p : ptr) : zskiplist := zslCreate p.

(** [now] is what [current_time] returns; [fuel], [p] and [rands] as in
    [zslInsert].  The score is the 32-bit sum, widened to [unsigned long]. *)
Definition add_timer (fuel : nat) (p : ptr) (rands : list Z) (now msec func : Z) :
    prog zskiplist ptr :=
  let msec := u32 (msec + now) in
  zslInsert fuel p rands msec func.

Definition del_timer (fuel : nat) (zn : ptr) : prog zskiplist unit := zslDelete fuel zn.

(** Returns the nodes whose handlers ran, in order; [call] is the effect of a
    handler on the list. *)
Fixpoint expire_timer (call : ptr → prog zskiplist unit) (fuel : nat) (now : Z) :
    prog zskiplist (list ptr) :=
  match fuel with
  | O => out_of_fuel
  | S fuel =>
      x ← zslMin;
      match x with
      | None => mret []
      | Some x =>
          n ← read_node x;
          if decide (score n > now) then mret [] else
          call x;;
          zslDeleteHead;;
          fired ← expire_timer call fuel now;
          mret (x :: fired)
      end
  end.

(** ** The skip list is a timer queue *)

Definition timers (s : zskiplist) (L : list ptr) : list pending := (λ q, (q, score_of (nodes s) q)) <$> L.
Definition small (L : list ptr) : Prop := Z.of_nat (List.length L) < 2147483648.
Definition skl_inv (s : zskiplist) (P : list pending) : Prop :=
  ∃ L, Rep s L ∧ small L ∧ timers s L ≡ₚ P.

Lemma skl_timers_ext s s' L :
  (∀ x, x ∈ L → score_of (nodes s') x = score_of (nodes s) x) → timers s' L = timers s L.
Proof. intros H. apply list_fmap_ext. intros i x Hx. by rewrite H by (by eapply list_elem_of_lookup_2). Qed.

Lemma timers_shape s s' L : same_shape (nodes s) (nodes s') → timers s' L = timers s L.
Proof. intros Hs. apply skl_timers_ext. intros x _. by apply same_shape_score. Qed.

#[export, program] Instance skl_queue : TimerQueue zskiplist := {|
  tq_inv := skl_inv;
  tq_first := zslMin;
  tq_time q := n ← read_node q; mret (score n);
  tq_remove _ := zslDeleteHead;
|}.
Next Obligation. intros s L L' HL (K & ? & ? & ?). exists K. split_and!; [done..|]. by etrans. Qed.
Next Obligation.
  intros s (L & HR & _ & HP). symmetry in HP. apply Permutation_nil in HP.
  apply fmap_nil_inv in HP. subst L. by apply (min_run s []).
Qed.
Next Obligation.
  intros s P (L & HR & Hsm & HP) HP0. destruct L as [|p L].
  { apply Permutation_nil in HP. done. }
  exists p, (score_of (nodes s) p). split; [by apply (min_run s (p :: L))|]. rewrite <-HP. split; [left|].
  apply Forall_forall. intros [q t] Hq. apply list_elem_of_fmap in Hq as (x & [= -> ->] & Hx).
  unfold earlier. cbn. pose proof (rep_sorted _ _ HR) as Hs. inv Hs.
  apply elem_of_cons in Hx as [->|Hx]; [done|]. rewrite Forall_forall in *. auto.
Qed.
Next Obligation.
  intros s P q t (L & HR & Hsm & HP) Hin. rewrite <-HP in Hin.
  apply list_elem_of_fmap in Hin as (x & [= <- ->] & Hx).
  destruct (Rep_dom s L q HR (or_intror Hx)) as [n Hn].
  rewrite (bind_Done _ _ _ _ _ (read_node_run s q n Hn)). unfold score_of. by rewrite Hn.
Qed.
Next Obligation.
  intros s q t P (L & HR & Hsm & HP) Hfirst. rewrite (min_run s L HR) in Hfirst.
  destruct L as [|p L]; [done|]. injection Hfirst as ->.
  destruct (delete_head_run s q L HR Hsm) as (s' & Hrun & HR' & Hs').
  exists s'. split; [done|]. exists L. split; [done|]. split.
  { unfold small in *. cbn in Hsm. lia. }
  rewrite (timers_shape s s' L Hs'). cbn in HP.
  assert (score_of (nodes s) q = t) as Ht.
  { assert ((q, t) ∈ (q, score_of (nodes s) q) :: timers s L) as Hin by (rewrite HP; left).
    apply elem_of_cons in Hin as [Hin|Hin]; [congruence|].
    apply list_elem_of_fmap in Hin as (x & Hx & Hxl). congruence. }
  rewrite Ht in HP. by apply Permutation.Permutation_cons_inv in HP.
Qed.

(** The front end's loop is the shared one. *)
Lemma skl_expire_timer_loop call fuel now s :
  expire_timer call fuel now s = expire_loop call fuel now s.
Proof.
  revert s. induction fuel as [|fuel IH]; intros s; [done|].
  cbn [expire_timer expire_loop tq_first tq_time tq_remove skl_queue].
  unfold mbind, prog_bind. destruct (zslMin s) as [[[x|] s1]| |]; try done.
  destruct (read_node x s1) as [[n s2]| |]; try done. cbn.
  case_decide; [done|]. destruct (call x s2) as [[? s3]| |]; try done.
  destruct (zslDeleteHead s3) as [[? s4]| |]; try done. by rewrite IH.
Qed.

Lemma demo_small : small [3%positive; 2%positive].
Proof. done. Qed.

(** [add_timer] of the skip-list front end adds exactly one pending timer, the
    node it returns, with expiry [msec + now] modulo 2^32. *)
Theorem skl_add_timer_spec fuel s L p rands now msec func lvl :
  Rep s L → nodes s !! p = None → zslRandomLevel rands = Some lvl →
  (List.length L < fuel)%nat → small (p :: L) →
  ∃ s' L', add_timer fuel p rands now msec func s = Done (p, s') ∧ Rep s' L' ∧
    timers s' L' ≡ₚ (p, u32 (now + msec)) :: timers s L.
Proof.
  intros HR Hp Hlvl Hf Hsm. unfold small in Hsm. cbn in Hsm.
  destruct (insert_run fuel s L p rands (u32 (msec + now)) func lvl HR Hp Hlvl Hf) as (s' & Hrun & HR' & Hsc & Hk);
    [lia|].
  pose proof (proj1 (before_after s (u32 (msec + now)) L HR)) as HL.
  set (A := before _ _ L) in *. set (B := after _ _ L) in *.
  exists s', (A ++ p :: B). split; [exact Hrun|]. split; [done|].
  transitivity (timers s' (p :: A ++ B)).
  { apply fmap_Permutation. by rewrite Permutation_middle. }
  rewrite <-HL. unfold timers at 1. cbn [fmap list_fmap]. rewrite Hsc.
  rewrite (Z.add_comm msec now). f_equiv. fold (timers s' L). rewrite (skl_timers_ext s s'); [done|].
  intros x Hx. assert (x ≠ p) as Hne.
  { intros ->. destruct (Rep_dom s L p HR (or_intror Hx)). congruence. }
  specialize (Hk x Hne). unfold score_of.
  destruct (nodes s !! x), (nodes s' !! x); simplify_eq/=; congruence.
Qed.

Lemma skl_add_timer_spec_witness :
  ∃ s' L', add_timer 5 4 [65535] 100 3000 1 demo2 = Done (4%positive, s') ∧ Rep s' L' ∧
    timers s' L' ≡ₚ (4%positive, 3100) :: timers demo2 [3%positive; 2%positive].
Proof.
  apply (skl_add_timer_spec 5 demo2 _ 4 [65535] 100 3000 1 1 demo2_Rep);
    [vm_compute; done|vm_compute; done|cbn; lia|done].
Defined.

(** One run of [expire_timer] of the skip-list front end calls the handlers
    of exactly the timers whose time has come, in the order of their times,
    takes exactly those off the list, and returns; the others stay pending. *)
Theorem skl_expire_timer_spec call now fuel s L :
  Rep s L → small L → well_behaved call now → (List.length L < fuel)%nat →
  ∃ s' F N L', expire_timer call fuel now s = Done (F.*1, s') ∧
    F ≡ₚ filter (due now) (timers s L) ∧ StronglySorted earlier F ∧
    Rep s' L' ∧ timers s' L' ≡ₚ N ++ filter (λ e, ¬ due now e) (timers s L) ∧
    Forall (λ e, ¬ due now e) N.
Proof.
  intros HR Hsm Hc Hf.
  destruct (expire_loop_correct call now fuel s (timers s L)) as (s' & F & N & Hrun & ? & ? & (L' & ? & _ & ?) & ?);
    [done|by exists L| |].
  { eapply Nat.le_lt_trans; [apply length_filter|]. by unfold timers; rewrite length_fmap. }
  exists s', F, N, L'. by rewrite skl_expire_timer_loop.
Qed.

Lemma skl_expire_timer_spec_witness :
  ∃ s' F N L', expire_timer (λ _, mret ()) 3 11 demo2 = Done (F.*1, s') ∧
    F ≡ₚ filter (due 11) (timers demo2 [3%positive; 2%positive]) ∧ StronglySorted earlier F ∧
    Rep s' L' ∧ timers s' L' ≡ₚ N ++ filter (λ e, ¬ due 11 e) (timers demo2 [3%positive; 2%positive]) ∧
    Forall (λ e, ¬ due 11 e) N.
Proof.
  apply (skl_expire_timer_spec (λ _, mret ()) 11 3 demo2 _ demo2_Rep demo_small); [|cbn; lia].
  apply silent_well_behaved.
Defined.

(** A node that has fired is off the list and still allocated. *)
Example expire_leaks :
  match expire_timer (λ _, mret ()) 3 11 demo2 with
  | Done (F, s') => F = [3%positive; 2%positive] ∧ zslMin s' = Done (None, s') ∧
      is_Some (nodes s' !! 3%positive) ∧ is_Some (nodes s' !! 2%positive)
  | _ => False
  end.
Proof. vm_compute. split_and!; try done; by eexists. Qed.

End SklTimer.
