(* ===== verification/Hoare.v ===== *)
(** Total-correctness triples for [prog], and heaps described cell by cell: the
    rules that run a pointer program on an explicit list of cells. *)
From S2P Require Import Prelude.

(** From every state of [P] the program returns, in a state of [Q]. *)
Definition triple {S A} (P : S → Prop) (m : prog S A) (Q : A → S → Prop) : Prop :=
  ∀ s, P s → ∃ a s', m s = Done (a, s') ∧ Q a s'.

Section triple.
Context {S : Type}.
Implicit Types P : S → Prop.

Lemma triple_ret {A} P (a : A) (Q : A → S → Prop) :
  (∀ s, P s → Q a s) → triple P (mret a) Q.
Proof. intros H s Hs. exists a, s. split; [done|auto]. Qed.

Lemma triple_bind {A B} P (m : prog S A) (f : A → prog S B) R Q :
  triple P m R → (∀ a, triple (R a) (f a) Q) → triple P (m ≫= f) Q.
Proof.
  intros Hm Hf s Hs. destruct (Hm s Hs) as (a & s1 & Hrun & HR). rewrite (bind_Done _ _ _ _ _ Hrun). by apply (Hf a).
Qed.

(** The first part of a program, for its effect. *)
Lemma triple_seq {A} P R (m : prog S unit) (f : prog S A) Q :
  triple P m (λ _, R) → triple R f Q → triple P (m;; f) Q.
Proof. intros Hm Hf. eapply triple_bind; [exact Hm|]. intros a. exact Hf. Qed.

Lemma triple_conseq {A} P P' (m : prog S A) (Q Q' : A → S → Prop) :
  triple P' m Q' → (∀ s, P s → P' s) → (∀ a s, Q' a s → Q a s) → triple P m Q.
Proof. intros Hm HP HQ s Hs. destruct (Hm s (HP s Hs)) as (a & s1 & Hrun & HR). exists a, s1. auto. Qed.

Lemma triple_post {A} P (m : prog S A) (Q Q' : A → S → Prop) :
  triple P m Q' → (∀ a s, Q' a s → Q a s) → triple P m Q.
Proof. intros Hm HQ. by eapply triple_conseq. Qed.

Lemma triple_pre {A} P P' (m : prog S A) (Q : A → S → Prop) :
  (∀ s, P s → P' s) → triple P' m Q → triple P m Q.
Proof. intros HP Hm. by eapply triple_conseq. Qed.

Lemma triple_pure {A} P (φ : Prop) (m : prog S A) (Q : A → S → Prop) :
  (∀ s, P s → φ) → (φ → triple P m Q) → triple P m Q.
Proof. intros Hφ Hm s Hs. exact (Hm (Hφ s Hs) s Hs). Qed.

(** Programs that are the same up to associativity. *)
Lemma triple_equiv {A} P (m m' : prog S A) Q : m ≡ m' → triple P m' Q → triple P m Q.
Proof. intros [Heq] Hm s Hs. rewrite Heq. by apply Hm. Qed.

Lemma triple_bind_ret {A} P (m : prog S A) Q : triple P (m ≫= mret) Q → triple P m Q.
Proof.
  apply triple_equiv. split. intros s. unfold mbind, prog_bind, mret, prog_ret. by destruct (m s) as [[]| |].
Qed.
End triple.

(** The heap [m] has exactly the cells [L]. *)
Definition heap_is {N} (m : gmap ptr N) (L : list (ptr * N)) : Prop :=
  NoDup L.*1 ∧ m = list_to_map L.

Section cells.
Context {N : Type}.
Implicit Types (m : gmap ptr N) (L : list (ptr * N)) (x : ptr) (n : N).

Lemma heap_perm m L L' : L ≡ₚ L' → heap_is m L → heap_is m L'.
Proof.
  intros HP [Hnd ->]. split; [by rewrite <-HP|]. by apply list_to_map_proper.
Qed.

Lemma heap_lookup m L k x n : heap_is m L → L !! k = Some (x, n) → m !! x = Some n.
Proof.
  intros [Hnd ->] Hk. apply elem_of_list_to_map; [done|]. by eapply list_elem_of_lookup_2.
Qed.

Lemma fst_insert L k x n : L.*1 !! k = Some x → (<[k := (x, n)]> L).*1 = L.*1.
Proof.
  intros Hk. apply list_eq. intros i. rewrite !list_lookup_fmap.
  rewrite list_lookup_fmap in Hk. destruct (decide (i = k)) as [->|Hne].
  - destruct (L !! k) as [[y n']|] eqn:HL; simplify_eq/=.
    rewrite list_lookup_insert_eq; [done|]. by eapply lookup_lt_Some.
  - by rewrite list_lookup_insert_ne.
Qed.

Lemma heap_insert m L k x n n' :
  heap_is m L → L !! k = Some (x, n) → heap_is (<[x := n']> m) (<[k := (x, n')]> L).
Proof.
  intros [Hnd ->] Hk. split; [rewrite fst_insert; [done|by rewrite list_lookup_fmap, Hk]|].
  pose proof (take_drop_middle L k _ Hk) as HL.
  rewrite (insert_take_drop L k) by (by eapply lookup_lt_Some).
  rewrite <-HL at 1. rewrite <-HL in Hnd. rewrite fmap_app, fmap_cons in Hnd.
  rewrite !list_to_map_app. cbn.
  apply NoDup_app in Hnd as (_ & Hdisj & _).
  rewrite <-!insert_union_r; [by rewrite insert_insert_eq|..];
    apply not_elem_of_list_to_map_1; intros Hin; apply (Hdisj x Hin); cbn; left.
Qed.

(** Distinct cells have distinct addresses. *)
Lemma heap_ne m x n L y : heap_is m ((x, n) :: L) → y ∈ L.*1 → x ≠ y.
Proof. intros [Hnd _] Hy ->. cbn in Hnd. by apply NoDup_cons in Hnd as [? _]. Qed.

(** A new cell, and a cell given back. *)
Lemma heap_new m L x n : m !! x = None → heap_is m L → heap_is (<[x := n]> m) ((x, n) :: L).
Proof.
  intros Hx [Hnd ->]. split; [|done]. cbn. apply NoDup_cons. split; [|done].
  intros Hin. apply not_elem_of_list_to_map_2 in Hx. done.
Qed.

Lemma heap_delete m L x n : heap_is m ((x, n) :: L) → heap_is (delete x m) L.
Proof.
  intros [Hnd ->]. cbn in *. apply NoDup_cons in Hnd as [Hx Hnd]. split; [done|].
  rewrite delete_insert_id; [done|]. by apply not_elem_of_list_to_map_1.
Qed.
End cells.
