(* ===== verification/RbTree.v ===== *)
(** The red-black tree of rbtree.c and rbtree.h, pointer by pointer.

    The blocks of the source that are mirror images of each other are one
    definition with the side as an argument: [rotate L] is
    [ngx_rbtree_left_rotate], [rotate R] is [ngx_rbtree_right_rotate]. *)
From S2P Require Import Prelude.

Module RbTree.

Inductive side := L | R.
#[export] Instance side_eq_dec : EqDecision side.
Proof. solve_decision. Defined.
Definition opp (d : side) : side := match d with L => R | R => L end.

(** A pointer, possibly [NULL]. *)
Abbreviation link := (option ptr).

(** struct ngx_rbtree_node_s *)
Record ngx_rbtree_node := Node {
  key : Z;
  left : link;
  right : link;
  parent : link;
  color : Z;
  data : Z;
}.

(** The values [tree->insert] takes in this program. *)
Inductive ngx_rbtree_insert_pt := insert_value | insert_timer_value.

(** struct ngx_rbtree_s with the memory its nodes are in. *)
Record ngx_rbtree := Tree {
  root : link;
  sentinel : link;
  insert : ngx_rbtree_insert_pt;
  nodes : gmap ptr ngx_rbtree_node;
}.

Abbreviation rbt A := (prog ngx_rbtree A).

Definition set_nodes m (t : ngx_rbtree) := Tree (root t) (sentinel t) (insert t) m.
Definition set_root r : rbt unit := modS (λ t, Tree r (sentinel t) (insert t) (nodes t)).

Definition with_child (d : side) (c : link) (n : ngx_rbtree_node) :=
  match d with
  | L => Node (key n) c (right n) (parent n) (color n) (data n)
  | R => Node (key n) (left n) c (parent n) (color n) (data n)
  end.
Definition with_parent (p : link) (n : ngx_rbtree_node) :=
  Node (key n) (left n) (right n) p (color n) (data n).
Definition with_color (c : Z) (n : ngx_rbtree_node) :=
  Node (key n) (left n) (right n) (parent n) c (data n).
Definition with_key (k : Z) (n : ngx_rbtree_node) :=
  Node k (left n) (right n) (parent n) (color n) (data n).
Definition child (d : side) (n : ngx_rbtree_node) : link :=
  match d with L => left n | R => right n end.

(** Reading and writing through a pointer: [NULL] and freed memory have no
    result. *)
Definition rd (x : link) : rbt ngx_rbtree_node :=
  match x with Some p => getsO (λ t, nodes t !! p) | None => undef end.
Definition wr (x : link) (f : ngx_rbtree_node → ngx_rbtree_node) : rbt unit :=
  match x with
  | Some p => modO (λ t, n ← nodes t !! p; Some (set_nodes (<[p := f n]> (nodes t)) t))
  | None => undef
  end.

Definition child_of (d : side) (x : link) : rbt link := n ← rd x; mret (child d n).
Definition parent_of (x : link) : rbt link := n ← rd x; mret (parent n).
Definition key_of (x : link) : rbt Z := n ← rd x; mret (key n).
Definition set_child (d : side) (x c : link) : rbt unit := wr x (with_child d c).
Definition set_parent (x p : link) : rbt unit := wr x (with_parent p).

Definition ngx_rbt_red (x : link) : rbt unit := wr x (with_color 1).
Definition ngx_rbt_black (x : link) : rbt unit := wr x (with_color 0).
Definition ngx_rbt_is_red (x : link) : rbt bool := n ← rd x; mret (bool_decide (color n ≠ 0)).
Definition ngx_rbt_is_black (x : link) : rbt bool := r ← ngx_rbt_is_red x; mret (negb r).
Definition ngx_rbt_copy_color (n1 n2 : link) : rbt unit := n ← rd n2; wr n1 (with_color (color n)).

(** [ngx_rbtree_init]: the sentinel [s] is allocated, and black. *)
Definition ngx_rbtree_init (s : link) (i : ngx_rbtree_insert_pt) : rbt unit :=
  ngx_rbt_black s;;
  modS (λ t, Tree s s i (nodes t)).

(** The [while] of [ngx_rbtree_min]. *)
Fixpoint ngx_rbtree_min (fuel : nat) (node : link) : rbt link :=
  match fuel with
  | O => out_of_fuel
  | S fuel =>
      sen ← gets sentinel;
      l ← child_of L node;
      if decide (l = sen) then mret node else ngx_rbtree_min fuel l
  end.

(** ** Rotations *)

(** [if (node == parent->d) parent->d = x; else parent->opp d = x]; the parent
    is not looked at when [node] is the root. *)
Definition replace_child (d : side) (node x : link) : rbt unit :=
  r ← gets root;
  if decide (node = r) then set_root x
  else
    p ← parent_of node;
    c ← child_of d p;
    if decide (node = c) then set_child d p x else set_child (opp d) p x.

(** [if (x != sentinel) x->parent = p;] *)
Definition reparent (x p : link) : rbt unit :=
  sen ← gets sentinel;
  if decide (x = sen) then mret () else set_parent x p.

(** [rotate L]: [temp = node->right; node->right = temp->left; ...] *)
Definition rotate (d : side) (node : link) : rbt unit :=
  temp ← child_of (opp d) node;
  c ← child_of d temp;
  set_child (opp d) node c;;
  reparent c node;;
  p ← parent_of node;
  set_parent temp p;;
  replace_child d node temp;;
  set_child d temp node;;
  set_parent node temp.

Definition ngx_rbtree_left_rotate : link → rbt unit := rotate L.
Definition ngx_rbtree_right_rotate : link → rbt unit := rotate R.

(** ** Insertion *)

(** The [for (;;)] that goes down from [temp]; [less] compares the key of
    [node] with that of the current node.  Returns the place [*p]. *)
Fixpoint descend (less : Z → Z → bool) (fuel : nat) (temp node : link) : rbt (link * side) :=
  match fuel with
  | O => out_of_fuel
  | S fuel =>
      sen ← gets sentinel;
      kn ← key_of node;
      kt ← key_of temp;
      let d := if less kn kt then L else R in
      p ← child_of d temp;
      if decide (p = sen) then mret (temp, d) else descend less fuel p node
  end.

Definition insert_by (less : Z → Z → bool) (fuel : nat) (temp node : link) : rbt unit :=
  place ← descend less fuel temp node;
  sen ← gets sentinel;
  set_child place.2 place.1 node;;
  set_parent node place.1;;
  set_child L node sen;;
  set_child R node sen;;
  ngx_rbt_red node.

(** [node->key < temp->key] *)
Definition ngx_rbtree_insert_value : nat → link → link → rbt unit := insert_by Z.ltb.

(** [(ngx_rbtree_key_int_t) (node->key - temp->key) < 0] *)
Definition key_before (a b : Z) : bool := i32 (u32 (a - b)) <? 0.
Definition ngx_rbtree_insert_timer_value : nat → link → link → rbt unit := insert_by key_before.

Definition call_insert (fuel : nat) (temp node : link) : rbt unit :=
  i ← gets insert;
  match i with
  | insert_value => ngx_rbtree_insert_value fuel temp node
  | insert_timer_value => ngx_rbtree_insert_timer_value fuel temp node
  end.

(** The body of the re-balancing loop of [ngx_rbtree_insert] when the parent is
    the [d] child of the grandparent; returns the new [node]. *)
Definition rebalance_side (d : side) (node : link) : rbt link :=
  p ← parent_of node;
  gp ← parent_of p;
  temp ← child_of (opp d) gp;
  red ← ngx_rbt_is_red temp;
  if (red : bool) then
    ngx_rbt_black p;;
    ngx_rbt_black temp;;
    ngx_rbt_red gp;;
    mret gp
  else
    c ← child_of (opp d) p;
    node ← (if decide (node = c) then (rotate d p;; mret p) else mret node);
    p ← parent_of node;
    ngx_rbt_black p;;
    gp ← parent_of p;
    ngx_rbt_red gp;;
    rotate (opp d) gp;;
    mret node.

(** [while (node != *root && ngx_rbt_is_red(node->parent))] *)
Fixpoint rebalance (fuel : nat) (node : link) : rbt unit :=
  match fuel with
  | O => out_of_fuel
  | S fuel =>
      r ← gets root;
      if decide (node = r) then mret () else
      p ← parent_of node;
      red ← ngx_rbt_is_red p;
      if (red : bool) then
        gp ← parent_of p;
        l ← child_of L gp;
        node ← rebalance_side (if decide (p = l) then L else R) node;
        rebalance fuel node
      else mret ()
  end.

Definition ngx_rbtree_insert (fuel : nat) (node : link) : rbt unit :=
  r ← gets root;
  sen ← gets sentinel;
  if decide (r = sen) then
    set_parent node None;;
    set_child L node sen;;
    set_child R node sen;;
    ngx_rbt_black node;;
    set_root node
  else
    call_insert fuel r node;;
    rebalance fuel node;;
    r ← gets root;
    ngx_rbt_black r.

(** ** Deletion *)

(** The nodes [temp] and [subst] that [ngx_rbtree_delete] starts with. *)
Definition find_subst (fuel : nat) (node : link) : rbt (link * link) :=
  sen ← gets sentinel;
  l ← child_of L node;
  if decide (l = sen) then (temp ← child_of R node; mret (temp, node))
  else
    r ← child_of R node;
    if decide (r = sen) then mret (l, node)
    else
      subst ← ngx_rbtree_min fuel r;
      sl ← child_of L subst;
      if decide (sl ≠ sen) then mret (sl, subst)
      else (sr ← child_of R subst; mret (sr, subst)).

(** The assignments under "DEBUG stuff". *)
Definition scrub (node : link) : rbt unit :=
  set_child L node None;;
  set_child R node None;;
  set_parent node None;;
  wr node (with_key 0).

(** [if (x == x->parent->left) x->parent->left = y; else x->parent->right = y;] *)
Definition unlink (x y : link) : rbt unit :=
  p ← parent_of x;
  c ← child_of L p;
  if decide (x = c) then set_child L p y else set_child R p y.

(** [subst] takes the place of [node]. *)
Definition take_place (subst node : link) : rbt unit :=
  n ← rd node;
  set_child L subst (left n);;
  set_child R subst (right n);;
  set_parent subst (parent n);;
  ngx_rbt_copy_color subst node;;
  replace_child L node subst;;
  sl ← child_of L subst;
  reparent sl subst;;
  sr ← child_of R subst;
  reparent sr subst.

(** The body of the fix-up loop when [temp] is the [d] child; returns the new
    [temp]. *)
Definition fixup_side (d : side) (temp : link) : rbt link :=
  p ← parent_of temp;
  w ← child_of (opp d) p;
  red ← ngx_rbt_is_red w;
  w ← (if (red : bool) then
         ngx_rbt_black w;;
         ngx_rbt_red p;;
         rotate d p;;
         p ← parent_of temp;
         child_of (opp d) p
       else mret w);
  near ← child_of d w;
  far ← child_of (opp d) w;
  near_black ← ngx_rbt_is_black near;
  far_black ← ngx_rbt_is_black far;
  if near_black && far_black then
    ngx_rbt_red w;;
    parent_of temp
  else
    w ← (if (far_black : bool) then
           near ← child_of d w;
           ngx_rbt_black near;;
           ngx_rbt_red w;;
           rotate (opp d) w;;
           p ← parent_of temp;
           child_of (opp d) p
         else mret w);
    p ← parent_of temp;
    ngx_rbt_copy_color w p;;
    ngx_rbt_black p;;
    far ← child_of (opp d) w;
    ngx_rbt_black far;;
    rotate d p;;
    gets root.

(** [while (temp != *root && ngx_rbt_is_black(temp))], and the last line. *)
Fixpoint fixup (fuel : nat) (temp : link) : rbt unit :=
  match fuel with
  | O => out_of_fuel
  | S fuel =>
      r ← gets root;
      if decide (temp = r) then ngx_rbt_black temp else
      black ← ngx_rbt_is_black temp;
      if (black : bool) then
        p ← parent_of temp;
        l ← child_of L p;
        temp ← fixup_side (if decide (temp = l) then L else R) temp;
        fixup fuel temp
      else ngx_rbt_black temp
  end.

Definition ngx_rbtree_delete (fuel : nat) (node : link) : rbt unit :=
  ts ← find_subst fuel node;
  let temp := ts.1 in
  let subst := ts.2 in
  r ← gets root;
  if decide (subst = r) then
    set_root temp;;
    ngx_rbt_black temp;;
    scrub node
  else
    red ← ngx_rbt_is_red subst;
    unlink subst temp;;
    (if decide (subst = node) then
       sp ← parent_of subst;
       set_parent temp sp
     else
       sp ← parent_of subst;
       (if decide (sp = node) then set_parent temp subst else set_parent temp sp);;
       take_place subst node);;
    scrub node;;
    if (red : bool) then mret () else fixup fuel temp.

(** ** Traversal *)

(** The [for (;;)] that climbs. *)
Fixpoint climb (fuel : nat) (node : link) : rbt link :=
  match fuel with
  | O => out_of_fuel
  | S fuel =>
      r ← gets root;
      p ← parent_of node;
      if decide (node = r) then mret None
      else
        l ← child_of L p;
        if decide (node = l) then mret p else climb fuel p
  end.

Definition ngx_rbtree_next (fuel : nat) (node : link) : rbt link :=
  sen ← gets sentinel;
  r ← child_of R node;
  if decide (r ≠ sen) then ngx_rbtree_min fuel r else climb fuel node.

End RbTree.
