(* ===== verification/RbShape.v ===== *)
(** Red-black trees as data: the tree a heap of nodes stands for, the context of
    a subtree, the red-black conditions, and the cells of both. *)
From S2P Require Import Prelude Hoare RbTree.
Import RbTree.

Module RbShape.

Inductive hue := Red | Black.
#[export] Instance hue_eq_dec : EqDecision hue.
Proof. solve_decision. Defined.
Definition code (c : hue) : Z := match c with Red => 1 | Black => 0 end.

Definition is_red (c : hue) : bool := match c with Red => true | Black => false end.
Lemma code_is_red c : bool_decide (code c ≠ 0) = is_red c.
Proof. by destruct c. Qed.

(** A node without its links: its address, its key and its [data] byte. *)
Record entry := Entry { addr : ptr; ekey : Z; edata : Z }.

Inductive tree :=
  | E
  | T (c : hue) (l : tree) (e : entry) (r : tree).

(** A tree with [t] on side [d] of its root and [u] on the other side. *)
Definition fork (d : side) (c : hue) (t : tree) (e : entry) (u : tree) : tree :=
  match d with L => T c t e u | R => T c u e t end.

Definition hue_of (t : tree) : hue := match t with E => Black | T c _ _ _ => c end.
Definition paint (c : hue) (t : tree) : tree :=
  match t with E => E | T _ l e r => T c l e r end.

Fixpoint inorder (t : tree) : list entry :=
  match t with E => [] | T _ l e r => inorder l ++ e :: inorder r end.

(** The path from a subtree to the root, innermost step first: the side the
    subtree is on, and the colour, entry and other subtree of its parent. *)
Record frame := Frame { fside : side; fhue : hue; fentry : entry; fother : tree }.
Abbreviation ctx := (list frame).

Fixpoint plug (C : ctx) (t : tree) : tree :=
  match C with
  | [] => t
  | f :: C => plug C (fork (fside f) (fhue f) t (fentry f) (fother f))
  end.

Definition around (d : side) (l1 l2 : list entry) (e : entry) : list entry :=
  match d with L => l1 ++ e :: l2 | R => l2 ++ e :: l1 end.

(** What comes before and after the hole in the inorder sequence. *)
Fixpoint lefts (C : ctx) : list entry :=
  match C with
  | [] => []
  | f :: C => lefts C ++ match fside f with L => [] | R => inorder (fother f) ++ [fentry f] end
  end.
Fixpoint rights (C : ctx) : list entry :=
  match C with
  | [] => []
  | f :: C => match fside f with L => fentry f :: inorder (fother f) | R => [] end ++ rights C
  end.

Lemma inorder_plug C t : inorder (plug C t) = lefts C ++ inorder t ++ rights C.
Proof.
  revert t. induction C as [|[d c e u] C IH]; intros t; cbn; [by rewrite app_nil_r|].
  rewrite IH. destruct d; cbn; by rewrite <-!app_assoc.
Qed.

Lemma inorder_plug_ext C t t' : inorder t = inorder t' → inorder (plug C t) = inorder (plug C t').
Proof. intros H. by rewrite !inorder_plug, H. Qed.

Lemma plug_app C1 C2 t : plug (C1 ++ C2) t = plug C2 (plug C1 t).
Proof. revert t. induction C1 as [|f C1 IH]; intros t; cbn; auto. Qed.

Lemma inorder_paint c t : inorder (paint c t) = inorder t.
Proof. by destruct t. Qed.

Lemma paint_black t : hue_of t = Black → paint Black t = t.
Proof. by destruct t as [|[] ???]. Qed.

(** ** The red-black conditions *)

(** Every path of [t] has [n] black nodes, and no red node has a red child. *)
Fixpoint rb (n : nat) (t : tree) : Prop :=
  match t with
  | E => n = 0%nat
  | T Black l _ r => ∃ m, n = S m ∧ rb m l ∧ rb m r
  | T Red l _ r => hue_of l = Black ∧ hue_of r = Black ∧ rb n l ∧ rb n r
  end.

(** The colour the hole sees above it. *)
Definition hue_above (C : ctx) : hue := match C with [] => Black | f :: _ => fhue f end.

(** [C] becomes such a tree with a black root when its hole is filled with a
    tree of [n] black nodes. *)
Fixpoint rb_ctx (n : nat) (C : ctx) : Prop :=
  match C with
  | [] => True
  | f :: C =>
      rb n (fother f) ∧
      match fhue f with
      | Black => rb_ctx (S n) C
      | Red => hue_of (fother f) = Black ∧ C ≠ [] ∧ hue_above C = Black ∧ rb_ctx n C
      end
  end.

Definition red_black (t : tree) : Prop := hue_of t = Black ∧ ∃ n, rb n t.

Lemma rb_fork_black n d t e u : rb n t → rb n u → rb (S n) (fork d Black t e u).
Proof. intros. destruct d; cbn; eauto. Qed.

Lemma rb_fork_red n d t e u :
  hue_of t = Black → hue_of u = Black → rb n t → rb n u → rb n (fork d Red t e u).
Proof. intros. destruct d; cbn; auto. Qed.

Lemma rb_fork_black_inv n d t e u :
  rb n (fork d Black t e u) → ∃ m, n = S m ∧ rb m t ∧ rb m u.
Proof. destruct d; cbn; naive_solver. Qed.

Lemma rb_fork_red_inv n d t e u :
  rb n (fork d Red t e u) → hue_of t = Black ∧ hue_of u = Black ∧ rb n t ∧ rb n u.
Proof. destruct d; cbn; naive_solver. Qed.

Lemma hue_fork d c t e u : hue_of (fork d c t e u) = c.
Proof. by destruct d. Qed.

Lemma fork_opp d c t e u : fork (opp d) c t e u = fork d c u e t.
Proof. by destruct d. Qed.

(** A nonempty tree seen from either side. *)
Lemma tree_fork d t : t = E ∨ ∃ c l e r, t = fork d c l e r.
Proof. destruct t as [|c l e r]; [by left|right]. destruct d; cbn; eauto 6. Qed.

Lemma rb_paint_black n t : rb n t → hue_of t = Red → rb (S n) (paint Black t).
Proof. destruct t as [|[] l e r]; cbn; try done. intros (_ & _ & ? & ?) _. eauto. Qed.

(** A subtree may go into a hole: a red one only below a black node. *)
Definition fits (C : ctx) (t : tree) : Prop :=
  hue_of t = Red → hue_above C = Black ∧ C ≠ [].

Lemma rb_plug n C t : rb_ctx n C → rb n t → fits C t → red_black (plug C t).
Proof.
  revert n t. induction C as [|[d c e u] C IH]; intros n t HC Ht Hfit.
  - split; [|by eauto]. cbn. destruct (hue_of t) eqn:Ht'; [|done]. by destruct Hfit.
  - cbn in HC. destruct HC as [Hu HC]. cbn [plug fside fhue fentry fother]. destruct c.
    + destruct HC as (Hub & HC0 & Hab & HC). apply (IH n); [done| |by intros _].
      apply rb_fork_red; [|done..]. destruct (hue_of t) eqn:Ht'; [|done]. by destruct Hfit.
    + apply (IH (S n)); [done|by apply rb_fork_black|]. intros Hred. by rewrite hue_fork in Hred.
Qed.

Lemma rb_unplug C t : red_black (plug C t) → ∃ n, rb_ctx n C ∧ rb n t ∧ fits C t.
Proof.
  revert t. induction C as [|[d c e u] C IH]; intros t Hrb.
  - destruct Hrb as [Hb [n Hn]]. exists n. split_and!; [done|done|]. cbn in *. by intros Hr; rewrite Hr in Hb.
  - cbn [plug fside fhue fentry fother] in Hrb. apply IH in Hrb as (n & HC & Ht & Hfit). destruct c.
    + apply rb_fork_red_inv in Ht as (Hbt & Hbu & Ht & Hu).
      destruct Hfit as [Hab HC0]; [apply hue_fork|].
      exists n. split_and!; [done|done|]. intros Hr. by rewrite Hr in Hbt.
    + apply rb_fork_black_inv in Ht as (m & -> & Ht & Hu).
      exists m. split_and!; [done|done|]. by intros _.
Qed.

(** The entries do not matter. *)
Lemma rb_ctx_entry n D d c e e' u C :
  rb_ctx n (D ++ Frame d c e u :: C) → rb_ctx n (D ++ Frame d c e' u :: C).
Proof.
  revert n. induction D as [|[d1 c1 e1 u1] D IH]; intros n; [done|].
  cbn [app rb_ctx fhue fother]. intros [Hu HC]. split; [done|]. destruct c1; [|by apply IH].
  destruct HC as (? & _ & Hab & ?). split_and!; [done| | |by apply IH]; [by destruct D|].
  by destruct D.
Qed.

(** Every entry of a tree is the root of a subtree. *)
Lemma plug_in e t : e ∈ inorder t → ∃ C c l r, t = plug C (T c l e r).
Proof.
  induction t as [|c l IHl e' r IHr]; cbn; [by intros ?%elem_of_nil|].
  intros [Hl|[->|Hr]%elem_of_cons]%elem_of_app.
  - destruct (IHl Hl) as (C & c' & l' & r' & ->). exists (C ++ [Frame L c e' r]), c', l', r'.
    by rewrite plug_app.
  - by exists [], c, l, r.
  - destruct (IHr Hr) as (C & c' & l' & r' & ->). exists (C ++ [Frame R c e' l]), c', l', r'.
    by rewrite plug_app.
Qed.

(** ** How deep a red-black tree is *)

Fixpoint depth (t : tree) : nat :=
  match t with E => 0 | T _ l _ r => Datatypes.S (depth l `max` depth r) end.
Lemma depth_plug C t : (length C + depth t ≤ depth (plug C t))%nat.
Proof.
  revert t. induction C as [|[d c e u] C IH]; intros t; [done|]. cbn [plug fside fhue fentry fother length].
  specialize (IH (fork d c t e u)). destruct d; cbn [fork depth] in *; lia.
Qed.

Definition size (t : tree) : nat := length (inorder t).

Lemma size_T c l e r : size (T c l e r) = Datatypes.S (size l + size r).
Proof. unfold size. cbn. rewrite length_app. cbn. lia. Qed.

Lemma rb_size n t : rb n t → (2 ^ n ≤ size t + 1)%nat.
Proof.
  revert n. induction t as [|[] l IHl e r IHr]; intros n; [cbn; intros ->; cbn; lia|..];
    rewrite size_T; cbn [rb].
  - intros (_ & _ & Hl & Hr). specialize (IHl n Hl). lia.
  - intros (m & -> & Hl & Hr). specialize (IHl m Hl). specialize (IHr m Hr). cbn. lia.
Qed.

Lemma rb_depth n t :
  rb n t → (depth t ≤ 2 * n + match hue_of t with Red => 1 | Black => 0 end)%nat.
Proof.
  revert n. induction t as [|[] l IHl e r IHr]; intros n; [cbn; lia|..]; cbn [rb hue_of depth].
  - intros (Hl0 & Hr0 & Hl & Hr). specialize (IHl n Hl). specialize (IHr n Hr).
    rewrite Hl0 in IHl. rewrite Hr0 in IHr. lia.
  - intros (m & -> & Hl & Hr). specialize (IHl m Hl). specialize (IHr m Hr).
    destruct (hue_of l), (hue_of r); lia.
Qed.

(** A red-black tree of [n] nodes is at most [2 log2 (n + 1)] deep. *)
Lemma red_black_depth t : red_black t → (depth t ≤ 2 * Nat.log2 (size t + 1))%nat.
Proof.
  intros [Hb [n Hn]]. pose proof (rb_depth n t Hn) as Hd. rewrite Hb in Hd.
  pose proof (rb_size n t Hn) as Hs.
  assert (n ≤ Nat.log2 (size t + 1))%nat; [|lia].
  apply Nat.log2_le_pow2; lia.
Qed.

(** ** The leaf a key goes to *)

Fixpoint leaf_ctx (less : Z → Z → bool) (k : Z) (t : tree) (C : ctx) : ctx :=
  match t with
  | E => C
  | T c l e r =>
      if less k (ekey e) then leaf_ctx less k l (Frame L c e r :: C)
      else leaf_ctx less k r (Frame R c e l :: C)
  end.

Lemma plug_leaf less k t C : plug (leaf_ctx less k t C) E = plug C t.
Proof.
  revert C. induction t as [|c l IHl e r IHr]; intros C; [done|]. cbn.
  destruct (less k (ekey e)); [apply IHl|apply IHr].
Qed.

Lemma leaf_ctx_length less k t C : (length (leaf_ctx less k t C) ≤ length C + depth t)%nat.
Proof.
  revert C. induction t as [|c l IHl e r IHr]; intros C; cbn; [lia|].
  destruct (less k (ekey e)).
  - specialize (IHl (Frame L c e r :: C)). cbn in IHl. lia.
  - specialize (IHr (Frame R c e l :: C)). cbn in IHr. lia.
Qed.

Section order.
Context (rk : Z → Z).
Definition ordered (l : list entry) : Prop := StronglySorted (λ x y, rk (ekey x) ≤ rk (ekey y)) l.

(** [less] compares [k] with the keys of [l] the way [rk] does. *)
Definition agrees (less : Z → Z → bool) (k : Z) (l : list entry) : Prop :=
  ∀ y, y ∈ l → less k (ekey y) = bool_decide (rk k < rk (ekey y)).

Lemma leaf_sides less k t C :
  ordered (inorder t) → agrees less k (inorder t) →
  (∀ y, y ∈ lefts C → ¬ rk k < rk (ekey y)) → (∀ y, y ∈ rights C → rk k < rk (ekey y)) →
  (∀ y, y ∈ lefts (leaf_ctx less k t C) → ¬ rk k < rk (ekey y)) ∧
  (∀ y, y ∈ rights (leaf_ctx less k t C) → rk k < rk (ekey y)).
Proof.
  revert C. induction t as [|c l IHl e r IHr]; intros C Ho Ha HL HR; [done|]. cbn in Ho, Ha |- *.
  pose proof (Ha e ltac:(set_solver)) as He. rewrite He.
  assert (ordered (inorder l)) as Hol by by eapply StronglySorted_app_1_l.
  pose proof (StronglySorted_app_1_r _ _ _ Ho) as Hor. inv Hor. rewrite Forall_forall in *.
  assert (∀ y, y ∈ inorder l → rk (ekey y) ≤ rk (ekey e)) as Hle.
  { intros y Hy. unfold ordered in Ho. rewrite StronglySorted_app in Ho.
    destruct Ho as (H & _ & _). apply H; [done|left]. }
  case_bool_decide.
  - apply IHl; [done|intros y Hy; apply Ha; set_solver|..]; cbn.
    + by rewrite app_nil_r.
    + intros y [->|[Hy|Hy]%elem_of_app]%elem_of_cons; [done| |auto].
      match goal with H : ∀ _, _ ∈ inorder r → _ |- _ => specialize (H y Hy) end. lia.
  - apply IHr; [done|intros y Hy; apply Ha; set_solver|..]; cbn; [|done].
    intros y [Hy|[Hy|Hy]%elem_of_app]%elem_of_app; [auto| |].
    + specialize (Hle y Hy). lia.
    + apply list_elem_of_singleton in Hy as ->. lia.
Qed.
End order.

(** ** The cells of trees and contexts *)

Definition ptr_of (S : ptr) (t : tree) : ptr := match t with E => S | T _ _ e _ => addr e end.

(** The cell of an entry whose child on side [d] is [a], on the other side [b]. *)
Definition cell (d : side) (c : hue) (e : entry) (a b : ptr) (p : link) : ngx_rbtree_node :=
  match d with
  | L => Node (ekey e) (Some a) (Some b) p (code c) (edata e)
  | R => Node (ekey e) (Some b) (Some a) p (code c) (edata e)
  end.

Lemma cell_opp d c e a b p : cell (opp d) c e a b p = cell d c e b a p.
Proof. by destruct d. Qed.
Lemma child_cell d c e a b p : child d (cell d c e a b p) = Some a.
Proof. by destruct d. Qed.
Lemma child_opp_cell d c e a b p : child (opp d) (cell d c e a b p) = Some b.
Proof. by destruct d. Qed.
Lemma with_child_cell d c e a b p x : with_child d (Some x) (cell d c e a b p) = cell d c e x b p.
Proof. by destruct d. Qed.
Lemma with_child_opp_cell d c e a b p x :
  with_child (opp d) (Some x) (cell d c e a b p) = cell d c e a x p.
Proof. by destruct d. Qed.
Lemma parent_cell d c e a b p : parent (cell d c e a b p) = p.
Proof. by destruct d. Qed.
Lemma with_parent_cell d c e a b p q : with_parent q (cell d c e a b p) = cell d c e a b q.
Proof. by destruct d. Qed.
Lemma color_cell d c e a b p : color (cell d c e a b p) = code c.
Proof. by destruct d. Qed.
Lemma with_black_cell d c e a b p : with_color 0 (cell d c e a b p) = cell d Black e a b p.
Proof. by destruct d. Qed.
Lemma with_red_cell d c e a b p : with_color 1 (cell d c e a b p) = cell d Red e a b p.
Proof. by destruct d. Qed.
Lemma with_code_cell d c c' e a b p : with_color (code c') (cell d c e a b p) = cell d c' e a b p.
Proof. by destruct d. Qed.
Lemma key_cell d c e a b p : key (cell d c e a b p) = ekey e.
Proof. by destruct d. Qed.

Section cells.
Context (S : ptr).

Fixpoint cells (p : link) (t : tree) : list (ptr * ngx_rbtree_node) :=
  match t with
  | E => []
  | T c l e r => (addr e, cell L c e (ptr_of S l) (ptr_of S r) p) ::
      cells (Some (addr e)) l ++ cells (Some (addr e)) r
  end.

Lemma cells_fork p d c t e u :
  cells p (fork d c t e u) ≡ₚ (addr e, cell d c e (ptr_of S t) (ptr_of S u) p) ::
    cells (Some (addr e)) t ++ cells (Some (addr e)) u.
Proof. destruct d; cbn; [done|]. solve_Permutation. Qed.

Lemma ptr_of_fork d c t e u : ptr_of S (fork d c t e u) = addr e.
Proof. by destruct d. Qed.

Lemma ptr_of_paint c t : ptr_of S (paint c t) = ptr_of S t.
Proof. by destruct t. Qed.

(** [pp] is the parent link of the whole tree's root, which no code reads
    through, and [h] the address of what fills the hole. *)
Definition hole_parent (pp : link) (C : ctx) : link :=
  match C with [] => pp | f :: _ => Some (addr (fentry f)) end.

Fixpoint ctx_cells (pp : link) (C : ctx) (h : ptr) : list (ptr * ngx_rbtree_node) :=
  match C with
  | [] => []
  | f :: C =>
      (addr (fentry f), cell (fside f) (fhue f) (fentry f) h (ptr_of S (fother f)) (hole_parent pp C)) ::
      cells (Some (addr (fentry f))) (fother f) ++ ctx_cells pp C (addr (fentry f))
  end.

Fixpoint top (C : ctx) (h : ptr) : ptr :=
  match C with [] => h | f :: C => top C (addr (fentry f)) end.

Lemma cells_plug pp C t :
  cells pp (plug C t) ≡ₚ ctx_cells pp C (ptr_of S t) ++ cells (hole_parent pp C) t.
Proof.
  revert t. induction C as [|[d c e u] C IH]; intros t; [done|].
  cbn [plug ctx_cells hole_parent fside fhue fentry fother].
  rewrite IH, ptr_of_fork, cells_fork. solve_Permutation.
Qed.

Lemma ptr_of_plug C t : ptr_of S (plug C t) = top C (ptr_of S t).
Proof.
  revert t. induction C as [|[d c e u] C IH]; intros t; [done|]. cbn. by rewrite IH, ptr_of_fork.
Qed.

Definition addrs (t : tree) : list ptr := addr <$> inorder t.

Lemma cells_addrs p t : (cells p t).*1 ≡ₚ addrs t.
Proof.
  revert p. induction t as [|c l IHl e r IHr]; intros p; [done|]. unfold addrs in *. cbn.
  rewrite !fmap_app, fmap_cons, IHl, IHr. solve_Permutation.
Qed.

Lemma ctx_cells_addrs pp C h : (ctx_cells pp C h).*1 ≡ₚ (addr <$> lefts C) ++ (addr <$> rights C).
Proof.
  revert h. induction C as [|[d c e u] C IH]; intros h; [done|]. cbn.
  rewrite fmap_app, cells_addrs, IH. unfold addrs.
  destruct d; cbn; rewrite ?fmap_app; cbn; rewrite ?app_nil_r; solve_Permutation.
Qed.

Lemma top_not_nil C h : C ≠ [] → top C h ∈ (addr <$> lefts C) ++ (addr <$> rights C).
Proof.
  revert h. induction C as [|[d c e u] C IH]; intros h; [done|]. intros _. cbn.
  destruct (decide (C = [])) as [->|HC]; [destruct d; cbn; rewrite ?fmap_app; set_solver|].
  specialize (IH (addr e) HC). rewrite !fmap_app. set_solver.
Qed.
End cells.

(** Two arrangements of the same subtrees have the same inorder sequence. *)
Ltac same_order :=
  apply inorder_plug_ext;
  repeat match goal with |- context [fork ?d] => is_var d; destruct d end;
  cbn; rewrite ?inorder_paint; repeat (rewrite <-app_assoc; cbn); reflexivity.

End RbShape.
