(* ===== verification/RbRun.v ===== *)
(** Running the operations of rbtree.c on cells: one rule per primitive, and
    the behaviour of the pointer shuffles (rotation, replacement, reparenting). *)
From S2P Require Import Prelude Hoare RbTree RbShape.
Import RbTree RbShape.

Module RbRun.

Section run.
Context (S : ptr) (i : ngx_rbtree_insert_pt).
Abbreviation heaplet := (list (ptr * ngx_rbtree_node)).

(** The tree's root is [r], and the memory is [K]. *)
Definition on (r : ptr) (K : heaplet) (t : ngx_rbtree) : Prop :=
  sentinel t = Some S ∧ root t = Some r ∧ insert t = i ∧ heap_is (nodes t) K.

Lemma run_perm {A} r K K' (m : rbt A) Q :
  K ≡ₚ K' → triple (on r K') m Q → triple (on r K) m Q.
Proof.
  intros HP. apply triple_pre. intros t (? & ? & ? & Hm). split_and!; try done.
  by apply (heap_perm _ K).
Qed.

(** The last step of a run may leave the cells in any order. *)
Lemma on_perm r K K' t : K ≡ₚ K' → on r K t → on r K' t.
Proof. intros HP (? & ? & ? & Hm). split_and!; try done. by apply (heap_perm _ K). Qed.

Lemma run_rd {A} k r K x n (f : ngx_rbtree_node → rbt A) Q :
  K !! k = Some (x, n) → triple (on r K) (f n) Q → triple (on r K) (rd (Some x) ≫= f) Q.
Proof.
  intros Hk Hf t Ht. pose proof Ht as (_ & _ & _ & Hm).
  rewrite (bind_Done _ _ t n t); [by apply Hf|]. apply getsO_Done. by eapply heap_lookup.
Qed.

Lemma run_wr {A} k r K x n g (m : rbt A) Q :
  K !! k = Some (x, n) → triple (on r (<[k := (x, g n)]> K)) m Q →
  triple (on r K) (wr (Some x) g;; m) Q.
Proof.
  intros Hk Hf t (Hs & Hr & Hi & Hm). cbn [wr].
  erewrite modO_bind by (by rewrite (heap_lookup _ _ _ _ _ Hm Hk)).
  apply Hf. split_and!; try done. by eapply heap_insert.
Qed.

Lemma run_is_red_at {A} k r K x n (f : bool → rbt A) Q :
  K !! k = Some (x, n) → triple (on r K) (f (bool_decide (color n ≠ 0))) Q →
  triple (on r K) (ngx_rbt_is_red (Some x) ≫= f) Q.
Proof. intros Hk Hf. apply (triple_equiv _ _ _ _ (prog_assoc _ _ _)). by apply (run_rd k _ _ _ n). Qed.

Lemma run_wr_last k r K x n g (Q : unit → ngx_rbtree → Prop) :
  K !! k = Some (x, n) → (∀ t, on r (<[k := (x, g n)]> K) t → Q () t) →
  triple (on r K) (wr (Some x) g) Q.
Proof.
  intros Hk HQ t (Hs & Hr & Hi & Hm). cbn [wr].
  eexists _, _. split; [apply modO_Done; by rewrite (heap_lookup _ _ _ _ _ Hm Hk)|].
  apply HQ. split_and!; try done. by eapply heap_insert.
Qed.

Lemma run_sentinel {A} r K (f : link → rbt A) Q :
  triple (on r K) (f (Some S)) Q → triple (on r K) (gets sentinel ≫= f) Q.
Proof. intros Hf t Ht. rewrite gets_bind. pose proof Ht as (-> & _). by apply Hf. Qed.

Lemma run_root {A} r K (f : link → rbt A) Q :
  triple (on r K) (f (Some r)) Q → triple (on r K) (gets root ≫= f) Q.
Proof. intros Hf t Ht. rewrite gets_bind. pose proof Ht as (_ & -> & _). by apply Hf. Qed.

Lemma run_set_root {A} r r' K (m : rbt A) Q :
  triple (on r' K) m Q → triple (on r K) (set_root (Some r');; m) Q.
Proof. intros Hf t (Hs & Hr & Hi & Hm). unfold set_root. rewrite modS_bind. by apply Hf. Qed.

Lemma run_insert {A} r K (f : ngx_rbtree_insert_pt → rbt A) Q :
  triple (on r K) (f i) Q → triple (on r K) (gets insert ≫= f) Q.
Proof. intros Hf t Ht. rewrite gets_bind. pose proof Ht as (_ & _ & -> & _). by apply Hf. Qed.

(** Distinct cells. *)
Lemma run_ne {A} r K (m : rbt A) Q :
  (NoDup K.*1 → triple (on r K) m Q) → triple (on r K) m Q.
Proof. apply triple_pure. by intros t (_ & _ & _ & Hnd & _). Qed.

Lemma run_assoc {A B D} (P : ngx_rbtree → Prop) (m : rbt A) (f : A → rbt B) (g : B → rbt D) Q :
  triple P (m ≫= λ a, f a ≫= g) Q → triple P ((m ≫= f) ≫= g) Q.
Proof. apply triple_equiv, prog_assoc. Qed.

Lemma run_ret_bind {A B} (P : ngx_rbtree → Prop) (a : A) (f : A → rbt B) Q :
  triple P (f a) Q → triple P (mret a ≫= f) Q.
Proof. done. Qed.

Lemma run_seq_post {A} r r' K K' (m : rbt unit) (f : rbt A) Q :
  triple (on r K) m (λ _, on r' K') → triple (on r' K') f Q → triple (on r K) (m;; f) Q.
Proof. apply triple_seq. Qed.
End run.

Ltac cell_simpl :=
  rewrite ?child_cell, ?child_opp_cell, ?with_child_cell, ?with_child_opp_cell,
    ?parent_cell, ?with_parent_cell, ?color_cell, ?with_black_cell, ?with_red_cell, ?with_code_cell,
    ?key_cell, ?code_is_red.

(** Finds the cell an access goes to among the first ones. *)
Ltac at_cell tac :=
  first [ tac 0%nat | tac 1%nat | tac 2%nat | tac 3%nat | tac 4%nat | tac 5%nat | tac 6%nat ].
Ltac run_access :=
  first
    [ at_cell ltac:(fun k => eapply (run_rd _ _ k); [reflexivity|])
    | at_cell ltac:(fun k => eapply (run_is_red_at _ _ k); [reflexivity|])
    | at_cell ltac:(fun k => eapply (run_wr _ _ k); [reflexivity|])
    | at_cell ltac:(fun k => eapply (run_wr_last _ _ k); [reflexivity|]) ];
  cbn [base.insert list_insert]; cell_simpl.

(** One step of a run on explicit cells. *)
Ltac run1 :=
  unfold child_of, parent_of, key_of, set_child, set_parent, ngx_rbt_red, ngx_rbt_black,
    ngx_rbt_is_black, ngx_rbt_copy_color;
  first
    [ apply run_sentinel | apply run_root | apply run_insert | apply run_set_root
    | apply run_assoc | run_access | apply run_ret_bind ].

Section shuffles.
Context (S : ptr) (i : ngx_rbtree_insert_pt).
Abbreviation on := (on S i).
Abbreviation cells := (cells S).
Abbreviation ctx_cells := (ctx_cells S).
Abbreviation ptr_of := (ptr_of S).

(** [if (x != sentinel) x->parent = q] on the root of a subtree. *)
Lemma reparent_run r sn p q t K :
  triple (on r ((S, sn) :: cells p t ++ K)) (reparent (Some (ptr_of t)) q)
    (λ _, on r ((S, sn) :: cells q t ++ K)).
Proof.
  unfold reparent. apply run_sentinel. destruct t as [|c l e u]; cbn [ptr_of cells RbShape.cells RbShape.ptr_of].
  - rewrite decide_True by done. by apply triple_ret.
  - apply run_ne. intros Hnd. rewrite decide_False.
    2: { intros [= Heq]. cbn in Hnd. apply NoDup_cons in Hnd as [Hin _]. rewrite Heq in Hin. set_solver. }
    run1. done.
Qed.
End shuffles.

Section replace.
Context (S : ptr) (i : ngx_rbtree_insert_pt).
Abbreviation on := (on S i).
Abbreviation cells := (cells S).
Abbreviation ctx_cells := (ctx_cells S).
Abbreviation ptr_of := (ptr_of S).

Lemma ptr_of_in q t : ptr_of t = S ∨ ptr_of t ∈ (cells q t).*1.
Proof. destruct t; [by left|right]. cbn. left. Qed.

Lemma top_in pp C h : C ≠ [] → top C h ∈ (ctx_cells pp C h).*1.
Proof. intros HC. rewrite (ctx_cells_addrs S pp C h). by apply top_not_nil. Qed.

(** The link to [x] in its parent, or the root, becomes a link to [y]. *)
Lemma replace_child_run d pp C x y n sn K :
  parent n = hole_parent pp C →
  triple (on (top C x) ((S, sn) :: (x, n) :: ctx_cells pp C x ++ K))
    (replace_child d (Some x) (Some y))
    (λ _, on (top C y) ((S, sn) :: (x, n) :: ctx_cells pp C y ++ K)).
Proof.
  intros Hp. unfold replace_child. apply run_root. apply run_ne. intros Hnd.
  destruct C as [|[d' c e u] C].
  - rewrite decide_True by done. intros t (? & ? & ? & ?). by eexists _, _.
  - cbn in Hnd. apply NoDup_cons in Hnd as [HS Hnd]. apply NoDup_cons in Hnd as [Hx Hnd].
    rewrite fmap_app in HS, Hx. cbn in HS, Hx. rewrite fmap_app in HS, Hx.
    rewrite decide_False.
    2: { intros [= Heq]. apply Hx. rewrite Heq at 1. apply elem_of_cons.
         destruct (decide (C = [])) as [->|HC]; [by left|right]. cbn.
         pose proof (top_in pp C (addr e) HC). set_solver. }
    cbn [ctx_cells RbShape.ctx_cells fentry fhue fside fother hole_parent top] in *.
    do 2 run1. rewrite Hp. repeat run1. destruct (decide (d = d')) as [->|Hd].
    + cell_simpl. rewrite decide_True by done. run1. done.
    + assert (d = opp d') as -> by (by destruct d, d'). cell_simpl. rewrite decide_False.
      2: { intros [= Heq]. destruct (ptr_of_in (Some (addr e)) u) as [Hu|Hu]; rewrite <-Heq in Hu.
           - apply HS. rewrite Hu. left.
           - apply Hx. set_solver. }
      replace (opp (opp d')) with d' by (by destruct d').
      run1. done.
Qed.
End replace.

#[local] Opaque reparent replace_child.

(** Lists the cells in the order [K], and runs a known operation on them. *)
Ltac reorder K := eapply (run_perm _ _ _ _ K); [solve_Permutation|].
Ltac run_op lem := eapply triple_seq; [eapply lem|].

Section rotate.
Context (S : ptr) (i : ngx_rbtree_insert_pt).
Abbreviation on := (on S i).
Abbreviation cells := (cells S).
Abbreviation ctx_cells := (ctx_cells S).
Abbreviation ptr_of := (ptr_of S).

(** The memory holds the tree [plug C t], seen at [t], next to the sentinel
    [sn] and the cells [K]. *)
Definition view (sn : ngx_rbtree_node) (pp : link) (C : ctx) (t : tree) K : ngx_rbtree → Prop :=
  on (top C (ptr_of t)) ((S, sn) :: ctx_cells pp C (ptr_of t) ++ cells (hole_parent pp C) t ++ K).

(** Rotating at [x] lifts its child [y]. *)
Lemma rotate_run d sn pp C cx a x cy b y u K :
  triple (view sn pp C (fork d cx a x (fork d cy b y u)) K)
    (rotate d (Some (addr x)))
    (λ _, view sn pp C (fork d cy (fork d cx a x b) y u) K).
Proof.
  unfold view. rewrite !ptr_of_fork. set (q := hole_parent pp C).
  eapply run_perm; [by rewrite cells_fork, cells_fork, ptr_of_fork|]. fold q.
  reorder ((S, sn) :: (addr x, cell d cx x (ptr_of a) (addr y) q) ::
      (addr y, cell d cy y (ptr_of b) (ptr_of u) (Some (addr x))) ::
      cells (Some (addr y)) b ++ ctx_cells pp C (addr x) ++ cells (Some (addr x)) a ++ cells (Some (addr y)) u ++ K).
  unfold rotate. repeat run1.
  reorder ((S, sn) :: cells (Some (addr y)) b ++ (addr x, cell d cx x (ptr_of a) (ptr_of b) q) ::
      (addr y, cell d cy y (ptr_of b) (ptr_of u) (Some (addr x))) ::
      ctx_cells pp C (addr x) ++ cells (Some (addr x)) a ++ cells (Some (addr y)) u ++ K).
  run_op (reparent_run S i (top C (addr x)) sn (Some (addr y)) (Some (addr x)) b).
  reorder ((S, sn) :: (addr x, cell d cx x (ptr_of a) (ptr_of b) q) ::
      (addr y, cell d cy y (ptr_of b) (ptr_of u) (Some (addr x))) ::
      ctx_cells pp C (addr x) ++ cells (Some (addr x)) a ++ cells (Some (addr x)) b ++ cells (Some (addr y)) u ++ K).
  repeat run1.
  reorder ((S, sn) :: (addr x, cell d cx x (ptr_of a) (ptr_of b) q) :: ctx_cells pp C (addr x) ++
      (addr y, cell d cy y (ptr_of b) (ptr_of u) q) ::
      cells (Some (addr x)) a ++ cells (Some (addr x)) b ++ cells (Some (addr y)) u ++ K).
  run_op (replace_child_run S i d pp C); [by cell_simpl|].
  reorder ((S, sn) :: (addr x, cell d cx x (ptr_of a) (ptr_of b) q) ::
      (addr y, cell d cy y (ptr_of b) (ptr_of u) q) :: ctx_cells pp C (addr y) ++
      cells (Some (addr x)) a ++ cells (Some (addr x)) b ++ cells (Some (addr y)) u ++ K).
  repeat run1. apply triple_ret || (intros t Ht; eapply on_perm; [|exact Ht]).
  fold q. rewrite cells_fork, cells_fork, ptr_of_fork. solve_Permutation.
Qed.

(** Where the focus is makes no difference to the memory. *)
Lemma view_plug sn pp C t K s : view sn pp C t K s ↔ view sn pp [] (plug C t) K s.
Proof.
  unfold view. cbn [top RbShape.ctx_cells hole_parent app]. rewrite ptr_of_plug.
  split; apply on_perm; rewrite cells_plug; solve_Permutation.
Qed.

Lemma view_intro {A} r K' sn pp C t K (m : rbt A) Q :
  r = top C (ptr_of t) →
  K' ≡ₚ (S, sn) :: ctx_cells pp C (ptr_of t) ++ cells (hole_parent pp C) t ++ K →
  triple (view sn pp C t K) m Q → triple (on r K') m Q.
Proof. intros -> HP. by apply run_perm. Qed.

Lemma view_elim r K' sn pp C t K s :
  r = top C (ptr_of t) →
  K' ≡ₚ (S, sn) :: ctx_cells pp C (ptr_of t) ++ cells (hole_parent pp C) t ++ K →
  on r K' s → view sn pp C t K s.
Proof. intros -> HP. by apply on_perm. Qed.

(** The colour of a subtree's root, a sentinel's being black. *)
Lemma run_is_red {A} r sn p t K (f : bool → rbt A) Q :
  color sn = 0 →
  triple (on r ((S, sn) :: cells p t ++ K)) (f (is_red (hue_of t))) Q →
  triple (on r ((S, sn) :: cells p t ++ K)) (ngx_rbt_is_red (Some (ptr_of t)) ≫= f) Q.
Proof.
  intros Hsn Hf. destruct t as [|[] l e u]; cbn [ptr_of RbShape.ptr_of RbShape.cells app hue_of] in *;
    unfold ngx_rbt_is_red; repeat run1; rewrite ?Hsn; exact Hf.
Qed.

(** The parent of a subtree; the sentinel's is a field like any other. *)
Lemma run_parent {A} r sn q t K (f : link → rbt A) Q :
  (t = E → parent sn = q) →
  triple (on r ((S, sn) :: cells q t ++ K)) (f q) Q →
  triple (on r ((S, sn) :: cells q t ++ K)) (parent_of (Some (ptr_of t)) ≫= f) Q.
Proof.
  intros Hsn Hf. destruct t as [|c l e u]; cbn [ptr_of RbShape.ptr_of RbShape.cells app] in *;
    repeat run1; rewrite ?Hsn by done; exact Hf.
Qed.

(** The side on which a parent finds its child. *)
Lemma pick_side d c e x y q :
  x ≠ y → (if decide (Some x = child L (cell d c e x y q)) then L else R) = d.
Proof. intros Hxy. destruct d; cbn; [by rewrite decide_True|]. rewrite decide_False by congruence. done. Qed.

(** An address is not that of another cell. *)
Lemma ne_of_perm (K K' : list (ptr * ngx_rbtree_node)) x n y :
  NoDup K.*1 → K ≡ₚ (x, n) :: K' → y ∈ K'.*1 → x ≠ y.
Proof. intros Hnd HP Hy ->. rewrite HP in Hnd. by apply NoDup_cons in Hnd as [? _]. Qed.

Lemma ne_ptr_of (K K' : list (ptr * ngx_rbtree_node)) x n sn p u :
  NoDup K.*1 → K ≡ₚ (x, n) :: (S, sn) :: cells p u ++ K' → x ≠ ptr_of u.
Proof.
  intros Hnd HP. eapply ne_of_perm; [exact Hnd|exact HP|]. cbn. rewrite fmap_app.
  destruct (ptr_of_in S p u) as [->|Hu]; set_solver.
Qed.

(** [ngx_rbt_black] on the root of a subtree, or on the sentinel. *)
Lemma paint_run sn pp C t K :
  color sn = 0 →
  triple (view sn pp C t K) (ngx_rbt_black (Some (ptr_of t)))
    (λ _, view sn pp C (paint Black t) K).
Proof.
  intros Hsn. unfold view. rewrite ptr_of_paint. destruct t as [|c l e r]; cbn [RbShape.ptr_of RbShape.cells paint].
  - repeat run1. intros m Hm. destruct sn. cbn in Hsn. by subst.
  - reorder ((addr e, cell L c e (ptr_of l) (ptr_of r) (hole_parent pp C)) :: (S, sn) ::
      ctx_cells pp C (addr e) ++ (cells (Some (addr e)) l ++ cells (Some (addr e)) r) ++ K).
    repeat run1. intros m Hm. eapply on_perm; [|exact Hm]. solve_Permutation.
Qed.

(** The memory holds the red-black tree [t], next to the cells [K]. *)
Definition holds (t : tree) K (s : ngx_rbtree) : Prop :=
  ∃ sn pp, color sn = 0 ∧ view sn pp [] t K s ∧ red_black t.

(** The [parent] of a subtree's root is set, or that of the sentinel. *)
Definition under (q : link) (t : tree) (sn : ngx_rbtree_node) : ngx_rbtree_node :=
  match t with E => with_parent q sn | T _ _ _ _ => sn end.

Lemma run_set_parent {A} r sn p q t K (m : rbt A) Q :
  triple (on r ((S, under q t sn) :: cells q t ++ K)) m Q →
  triple (on r ((S, sn) :: cells p t ++ K)) (set_parent (Some (ptr_of t)) q;; m) Q.
Proof.
  intros Hm. destruct t as [|c l e u]; cbn [ptr_of RbShape.ptr_of RbShape.cells app under] in *;
    repeat run1; exact Hm.
Qed.

(** The link of [x] in its parent becomes a link to [y]. *)
Lemma unlink_run pp f C x y n sn K :
  parent n = Some (addr (fentry f)) →
  triple (on (top C (addr (fentry f))) ((S, sn) :: (x, n) :: ctx_cells pp (f :: C) x ++ K))
    (unlink (Some x) (Some y))
    (λ _, on (top C (addr (fentry f))) ((S, sn) :: (x, n) :: ctx_cells pp (f :: C) y ++ K)).
Proof.
  intros Hp. unfold unlink. apply run_ne. intros Hnd. destruct f as [d c e u].
  cbn [ctx_cells RbShape.ctx_cells fentry fhue fside fother hole_parent app] in *.
  do 3 run1. rewrite Hp. repeat run1.
  assert (x ≠ ptr_of u) as Hne.
  { eapply (ne_ptr_of _ ((addr e, cell d c e x (ptr_of u) (hole_parent pp C)) :: ctx_cells pp C (addr e) ++ K));
      [exact Hnd|]. rewrite <-app_assoc. solve_Permutation. }
  destruct d; cell_simpl.
  - rewrite decide_True by done. run1. done.
  - change (child L (cell R c e x (ptr_of u) (hole_parent pp C))) with (Some (ptr_of u)).
    rewrite decide_False by congruence. run1. done.
Qed.

(** The focus of a view is not its root. *)
Lemma view_not_root {A} sn pp C t K (m : rbt A) Q :
  C ≠ [] →
  (Some (ptr_of t) ≠ Some (top C (ptr_of t)) → triple (view sn pp C t K) m Q) →
  triple (view sn pp C t K) m Q.
Proof.
  intros HC Hm. apply run_ne. intros Hnd. apply Hm. intros [= Heq].
  pose proof (top_in S pp C (ptr_of t) HC) as Htop. rewrite <-Heq in Htop.
  destruct t as [|c l e r]; cbn in Htop, Hnd; rewrite ?fmap_app in Hnd.
  - apply NoDup_cons in Hnd as [Hin _]. set_solver.
  - apply NoDup_cons in Hnd as [_ Hnd]. apply NoDup_app in Hnd as (_ & Hdisj & _).
    apply (Hdisj _ Htop). cbn. left.
Qed.
End rotate.

End RbRun.
