(* ===== verification/RbInsert.v ===== *)
(** [ngx_rbtree_insert]: the new node goes to its place in the order, and the
    tree stays a red-black tree. *)
From S2P Require Import Prelude Hoare RbTree RbShape RbRun.
Import RbTree RbShape RbRun.

Module RbInsert.

#[local] Opaque reparent replace_child rotate ngx_rbt_is_red.

Section insert.
Context (S : ptr) (i : ngx_rbtree_insert_pt).
Abbreviation on := (on S i).
Abbreviation cells := (cells S).
Abbreviation ctx_cells := (ctx_cells S).
Abbreviation ptr_of := (ptr_of S).
Abbreviation view := (view S i).

(** ** Re-balancing *)

(** A red node below a red parent, whose parent is the [d] child of [g]. *)
Definition clash (s d : side) (e : entry) (u : tree) (g : entry) (v : tree) (C : ctx) : ctx :=
  Frame s Red e u :: Frame d Black g v :: C.

(** What a round of the loop leaves. *)
Definition moved_up (sn : ngx_rbtree_node) (pp : link) (C : ctx) (t : tree) K
    (r : link) (s : ngx_rbtree) : Prop :=
  ∃ C2 t2 n2, r = Some (ptr_of t2) ∧ view sn pp C2 t2 K s ∧ rb_ctx n2 C2 ∧ rb n2 t2 ∧
    hue_of t2 = Red ∧ inorder (plug C2 t2) = inorder (plug C t) ∧ (length C2 < length C)%nat.

Lemma recolor_run n s d sn pp C e u g v t K :
  rb_ctx n (clash s d e u g v C) → rb n t → hue_of t = Red → hue_of v = Red →
  triple (view sn pp (clash s d e u g v C) t K) (rebalance_side d (Some (ptr_of t)))
    (moved_up sn pp (clash s d e u g v C) t K).
Proof.
  intros HC Ht Hred Hv. destruct t as [|ct t1 te t2]; [done|]. destruct v as [|cv v1 ve v2]; [done|].
  cbn in Hred, Hv. subst ct cv.
  unfold view, clash. cbn [RbShape.ctx_cells top fentry fside fhue fother hole_parent RbShape.cells RbShape.ptr_of].
  set (q := hole_parent pp C).
  reorder ((addr e, cell s Red e (addr te) (ptr_of u) (Some (addr g))) ::
    (addr g, cell d Black g (addr e) (addr ve) q) ::
    (addr te, cell L Red te (ptr_of t1) (ptr_of t2) (Some (addr e))) ::
    (addr ve, cell L Red ve (ptr_of v1) (ptr_of v2) (Some (addr g))) :: (S, sn) ::
    cells (Some (addr e)) u ++ cells (Some (addr ve)) v1 ++ cells (Some (addr ve)) v2 ++
    ctx_cells pp C (addr g) ++ cells (Some (addr te)) t1 ++ cells (Some (addr te)) t2 ++ K).
  unfold rebalance_side. repeat run1. cbn [is_red]. repeat run1.
  apply triple_ret. intros m Hm.
  exists C, (fork d Red (fork s Black (T Red t1 te t2) e u) g (T Black v1 ve v2)), (Datatypes.S n).
  cbn in HC. destruct HC as (Hu & Hub & _ & _ & Hv & HC). split_and!.
  - by rewrite ptr_of_fork.
  - unfold view. rewrite ptr_of_fork. eapply on_perm; [|exact Hm].
    rewrite !cells_fork, ptr_of_fork. cbn [RbShape.cells RbShape.ptr_of]. fold q. solve_Permutation.
  - done.
  - apply rb_fork_red; [apply hue_fork|done|by apply rb_fork_black|]. cbn in *.
    destruct Hv as (_ & _ & ? & ?). eauto.
  - apply hue_fork.
  - cbn [plug clash fside fhue fentry fother]. same_order.
  - cbn. lia.
Qed.

(** The last steps of a round: the parent becomes the top of the three. *)
Lemma lift_run n d sn pp C e u g v t K :
  rb_ctx n (clash d d e u g v C) → rb n t → hue_of t = Red → hue_of v = Black →
  triple (view sn pp (clash d d e u g v C) t K)
    (p ← parent_of (Some (ptr_of t));
     ngx_rbt_black p;;
     gp ← parent_of p;
     ngx_rbt_red gp;;
     rotate (opp d) gp;;
     mret (Some (ptr_of t)))
    (λ r s, r = Some (ptr_of t) ∧
       view sn pp (Frame d Black e (fork (opp d) Red v g u) :: C) t K s ∧
       rb_ctx n (Frame d Black e (fork (opp d) Red v g u) :: C)).
Proof.
  intros HC Ht Hred Hv. destruct t as [|ct t1 te t2]; [done|]. cbn in Hred. subst ct.
  set (t := T Red t1 te t2) in *. set (q := hole_parent pp C).
  eapply run_perm; [|].
  { unfold clash, t. cbn [RbShape.ctx_cells top fentry fside fhue fother hole_parent RbShape.cells RbShape.ptr_of].
    fold q.
    transitivity ((addr e, cell d Red e (addr te) (ptr_of u) (Some (addr g))) ::
      (addr g, cell d Black g (addr e) (ptr_of v) q) ::
      (addr te, cell L Red te (ptr_of t1) (ptr_of t2) (Some (addr e))) :: (S, sn) ::
      cells (Some (addr e)) u ++ cells (Some (addr g)) v ++
      ctx_cells pp C (addr g) ++ cells (Some (addr te)) t1 ++ cells (Some (addr te)) t2 ++ K);
      [solve_Permutation|reflexivity]. }
  cbn [RbShape.ptr_of t]. repeat run1.
  eapply triple_seq.
  { eapply (view_intro S i _ _ sn pp C (fork (opp d) Red v g (fork (opp d) Black u e t)) K).
    - by rewrite ptr_of_fork.
    - rewrite ptr_of_fork, !cells_fork, ptr_of_fork, !cell_opp. unfold t.
      cbn [RbShape.ptr_of RbShape.cells]. fold q. solve_Permutation.
    - apply rotate_run. }
  apply triple_ret. intros s Hs. split; [done|]. split.
  - eapply view_elim; [..|exact Hs].
    + by rewrite ptr_of_fork.
    + rewrite ptr_of_fork, (cells_fork S _ (opp d) Black), cell_opp.
      cbn [RbShape.ctx_cells top fentry fside fhue fother hole_parent RbShape.cells RbShape.ptr_of].
      solve_Permutation.
  - cbn in *. destruct HC as (Hu & Hub & _ & _ & Hgv & HC). split; [by apply rb_fork_red|done].
Qed.

(** The subtree is the inner one: a rotation at its parent makes it the outer
    one. *)
Lemma rotate_inner_run n d sn pp C e u g v t K :
  rb_ctx n (clash (opp d) d e u g v C) → rb n t → hue_of t = Red → hue_of v = Black →
  triple (view sn pp (clash (opp d) d e u g v C) t K)
    (rotate d (Some (addr e));;
     p ← parent_of (Some (addr e));
     ngx_rbt_black p;;
     gp ← parent_of p;
     ngx_rbt_red gp;;
     rotate (opp d) gp;;
     mret (Some (addr e)))
    (moved_up sn pp (clash (opp d) d e u g v C) t K).
Proof.
  intros HC Ht Hred Hv. destruct t as [|ct0 t1 te t2]; [done|]. cbn in Hred. subst ct0. set (t := T Red t1 te t2) in *.
  destruct (tree_fork d t) as [|(ct & a & x & b & Hfork)]; [done|].
  assert (ct = Red) as ->.
  { rewrite <-(hue_fork d ct a x b), <-Hfork. done. }
  assert (addr te = addr x) as Hx.
  { change (ptr_of t = addr x). by rewrite Hfork, ptr_of_fork. }
  rewrite Hfork in Ht |- *. apply rb_fork_red_inv in Ht as (Hba & Hbb & Ha & Hb).
  eapply triple_seq.
  { eapply (view_intro S i _ _ sn pp (Frame d Black g v :: C) (fork d Red u e (fork d Red a x b)) K).
    - cbn [top fentry]. done.
    - rewrite ptr_of_fork, (cells_fork S _ d Red u), ptr_of_fork.
      cbn [RbShape.ctx_cells top fentry fside fhue fother hole_parent clash].
      rewrite !cell_opp, ?ptr_of_fork, ?(cells_fork S _ d Red a), ?ptr_of_fork. solve_Permutation.
    - apply rotate_run. }
  pose proof (lift_run n d sn pp C x b g v (fork d Red u e a) K) as Hlift.
  rewrite ptr_of_fork in Hlift. cbn in HC. destruct HC as (Hu & Hub & _ & _ & Hgv & HC).
  eapply triple_pre; [|eapply triple_post; [apply Hlift|]].
  - intros m Hm. eapply view_elim; [..|exact Hm].
    + done.
    + rewrite ?ptr_of_fork.
      cbn [clash RbShape.ctx_cells top fentry fside fhue fother hole_parent]. rewrite ?ptr_of_fork, ?cells_fork, ?ptr_of_fork.
      solve_Permutation.
  - cbn. split_and!; done.
  - by apply rb_fork_red.
  - apply hue_fork.
  - done.
  - intros r m (-> & Hm & HC'). 
    exists (Frame d Black x (fork (opp d) Red v g b) :: C), (fork d Red u e a), n.
    rewrite ptr_of_fork. split_and!; try done.
    + by apply rb_fork_red.
    + apply hue_fork.
    + cbn [plug clash fside fhue fentry fother]. same_order.
    + cbn. lia.
Qed.

Lemma rotate_side_run n s d sn pp C e u g v t K :
  color sn = 0 →
  rb_ctx n (clash s d e u g v C) → rb n t → hue_of t = Red → hue_of v = Black →
  triple (view sn pp (clash s d e u g v C) t K) (rebalance_side d (Some (ptr_of t)))
    (moved_up sn pp (clash s d e u g v C) t K).
Proof.
  intros Hsn HC Ht Hred Hv. destruct t as [|ct t1 te t2]; [done|]. cbn in Hred. subst ct.
  set (t := T Red t1 te t2) in *. set (q := hole_parent pp C).
  apply run_ne. intros Hnd.
  assert (Hperm : ((S, sn) :: ctx_cells pp (clash s d e u g v C) (ptr_of t) ++
      cells (hole_parent pp (clash s d e u g v C)) t ++ K) ≡ₚ
    (addr e, cell s Red e (addr te) (ptr_of u) (Some (addr g))) ::
      (addr g, cell d Black g (addr e) (ptr_of v) q) ::
      (addr te, cell L Red te (ptr_of t1) (ptr_of t2) (Some (addr e))) :: (S, sn) ::
      cells (Some (addr g)) v ++ cells (Some (addr e)) u ++
      ctx_cells pp C (addr g) ++ cells (Some (addr te)) t1 ++ cells (Some (addr te)) t2 ++ K).
  { unfold clash, t. cbn [RbShape.ctx_cells top fentry fside fhue fother hole_parent RbShape.cells RbShape.ptr_of].
    fold q. solve_Permutation. }
  assert (addr te ≠ ptr_of u) as Hne.
  { rewrite Hperm in Hnd. eapply ne_of_perm; [exact Hnd|symmetry; eapply (Permutation_middle [_; _])|].
    destruct (ptr_of_in S (Some (addr e)) u) as [->|Hu]; cbn; rewrite !fmap_app; set_solver. }
  eapply run_perm; [exact Hperm|]. unfold rebalance_side. cbn [RbShape.ptr_of t]. repeat run1.
  eapply run_perm; [eapply (Permutation_app_comm [_; _; _])|]. cbn [app]. rewrite <-(app_assoc (cells _ v)).
  eapply run_is_red; [done|]. rewrite Hv. cbn [is_red].
  eapply run_perm; [rewrite app_assoc; eapply (Permutation_app_comm (_ :: _))|]. cbn [app].
  repeat run1. destruct (decide (s = d)) as [Hsd|Hsd].
  - subst s. cell_simpl. rewrite decide_False by congruence. apply run_ret_bind.
    eapply view_intro; [| |eapply triple_post; [by apply (lift_run n d sn pp C e u g v t K)|]].
    + done.
    + rewrite Hperm. solve_Permutation.
    + intros r m (-> & Hm & HC'). exists (Frame d Black e (fork (opp d) Red v g u) :: C), t, n.
      split_and!; try done; [|cbn; lia].
      cbn [plug clash fside fhue fentry fother]. same_order.
  - assert (s = opp d) as -> by (by destruct s, d). cell_simpl. rewrite decide_True by done.
    apply run_assoc. eapply run_perm; [symmetry; exact Hperm|]. by apply (rotate_inner_run n d sn pp C e u g v t K).
Qed.

Lemma side_run n s d sn pp C e u g v t K :
  color sn = 0 → rb_ctx n (clash s d e u g v C) → rb n t → hue_of t = Red →
  triple (view sn pp (clash s d e u g v C) t K) (rebalance_side d (Some (ptr_of t)))
    (moved_up sn pp (clash s d e u g v C) t K).
Proof.
  intros. destruct (hue_of v) eqn:?; [by apply (recolor_run n)|by apply (rotate_side_run n)].
Qed.

#[local] Opaque rebalance_side.

Lemma rebalance_run fuel n sn pp C t K :
  color sn = 0 → rb_ctx n C → rb n t → hue_of t = Red → (length C < fuel)%nat →
  triple (view sn pp C t K) (rebalance fuel (Some (ptr_of t)))
    (λ _ s, ∃ t', view sn pp [] t' K s ∧ inorder t' = inorder (plug C t) ∧
       red_black (paint Black t')).
Proof.
  intros Hsn. revert n C t. induction fuel as [|fuel IH]; intros n C t HC Ht Hred Hf; [lia|].
  cbn [rebalance]. destruct (decide (C = [])) as [->|HCnil].
  { unfold view at 1. apply run_root. rewrite decide_True by done. apply triple_ret. intros s Hs.
    exists t. split_and!; [done..|]. split; [by destruct t|]. exists (Datatypes.S n). by apply rb_paint_black. }
  apply view_not_root; [done|]. intros Hroot. unfold view at 1. apply run_root. rewrite decide_False by done.
  destruct C as [|[s c e u] C]; [done|]. destruct t as [|ct t1 te t2]; [done|]. cbn in Hred. subst ct.
  set (t := T Red t1 te t2) in *. apply run_ne. intros Hnd.
  assert (∃ K1, (S, sn) :: ctx_cells pp (Frame s c e u :: C) (ptr_of t) ++
      cells (hole_parent pp (Frame s c e u :: C)) t ++ K ≡ₚ
    (addr te, cell L Red te (ptr_of t1) (ptr_of t2) (Some (addr e))) ::
    (addr e, cell s c e (addr te) (ptr_of u) (hole_parent pp C)) :: (S, sn) ::
    ctx_cells pp C (addr e) ++ K1) as [K1 HK].
  { exists (cells (Some (addr e)) u ++ cells (Some (addr te)) t1 ++ cells (Some (addr te)) t2 ++ K). unfold t. cbn [RbShape.ctx_cells fentry fside fhue fother hole_parent RbShape.cells RbShape.ptr_of].
    solve_Permutation. }
  eapply run_perm; [exact HK|]. cbn [t RbShape.ptr_of]. repeat run1. destruct c; cycle 1.
  { cbn [is_red]. apply triple_ret. intros m Hm. exists (plug (Frame s Black e u :: C) t).
    assert (red_black (plug (Frame s Black e u :: C) t)) as Hrb by by apply (rb_plug n).
    rewrite paint_black by apply Hrb. split_and!; [|done|done].
    rewrite <-view_plug. by eapply view_elim; [|symmetry; exact HK|]. }
  cbn [is_red]. cbn in HC. destruct HC as (Hu & Hub & HC0 & Hab & HC).
  destruct C as [|[d c g v] C]; [done|]. cbn in Hab. subst c.
  assert (HC' : rb_ctx n (clash s d e u g v C)) by (cbn; done).
  assert (HK' : (addr te, cell L Red te (ptr_of t1) (ptr_of t2) (Some (addr e))) ::
      (addr e, cell s Red e (addr te) (ptr_of u) (Some (addr g))) :: (S, sn) ::
      ctx_cells pp (Frame d Black g v :: C) (addr e) ++ K1 ≡ₚ
    (addr g, cell d Black g (addr e) (ptr_of v) (hole_parent pp C)) ::
      (addr e, cell s Red e (addr te) (ptr_of u) (Some (addr g))) :: (S, sn) :: cells (Some (addr g)) v ++
      (addr te, cell L Red te (ptr_of t1) (ptr_of t2) (Some (addr e))) :: ctx_cells pp C (addr g) ++ K1).
  { cbn [RbShape.ctx_cells fentry fside fhue fother hole_parent]. solve_Permutation. }
  cbn [hole_parent fentry] in *. eapply run_perm; [exact HK'|]. repeat run1.
  assert (addr e ≠ ptr_of v) as Hev.
  { rewrite HK, HK' in Hnd. eapply (ne_ptr_of S _ ((addr g, cell d Black g (addr e) (ptr_of v) (hole_parent pp C)) ::
      (addr te, cell L Red te (ptr_of t1) (ptr_of t2) (Some (addr e))) :: ctx_cells pp C (addr g) ++ K1));
      [exact Hnd|solve_Permutation]. }
  rewrite pick_side by done.
  eapply triple_bind.
  { eapply view_intro; [| |apply (side_run n s d sn pp C e u g v t K); done]; [done|]. rewrite <-HK'. symmetry. exact HK. }
  intros r. cbn. intros m (C2 & t2' & n2 & -> & Hm & HC2 & Ht2 & Hred2 & Hin & Hlen).
  destruct (IH n2 C2 t2' HC2 Ht2 Hred2 ltac:(cbn in *; lia) m Hm) as (x & m2 & Hrun & t' & ? & ? & ?).
  exists x, m2. split; [done|]. exists t'. split_and!; [done|by etrans; [eassumption|exact Hin]|done].
Qed.

(** ** Finding the place *)

Lemma descend_run less fuel sn pp C t x nx K :
  t ≠ E → (depth t ≤ fuel)%nat →
  triple (view sn pp C t ((x, nx) :: K)) (descend less fuel (Some (ptr_of t)) (Some x))
    (λ r s, ∃ f C', leaf_ctx less (key nx) t C = f :: C' ∧ r = (Some (addr (fentry f)), fside f) ∧
       view sn pp (f :: C') E ((x, nx) :: K) s).
Proof.
  revert C t. induction fuel as [|fuel IH]; intros C t Ht Hf; [destruct t; cbn in Hf; [done|lia]|].
  destruct t as [|c l e r]; [done|]. cbn [descend leaf_ctx depth] in *. clear Ht.
  assert (∃ d u v, (if less (key nx) (ekey e) then L else R) = d ∧ T c l e r = fork d c u e v ∧
    (if less (key nx) (ekey e) then leaf_ctx less (key nx) l (Frame L c e r :: C)
     else leaf_ctx less (key nx) r (Frame R c e l :: C)) = leaf_ctx less (key nx) u (Frame d c e v :: C) ∧
    (depth u ≤ fuel)%nat) as (d & u & v & Hd & Hfork & -> & Hu).
  { destruct (less (key nx) (ekey e)); [exists L, l, r|exists R, r, l]; split_and!; try done; lia. }
  rewrite Hfork. apply run_ne. intros Hnd.
  assert (Hperm : (S, sn) :: ctx_cells pp C (ptr_of (fork d c u e v)) ++
      cells (hole_parent pp C) (fork d c u e v) ++ (x, nx) :: K ≡ₚ
    (x, nx) :: (addr e, cell d c e (ptr_of u) (ptr_of v) (hole_parent pp C)) :: (S, sn) ::
    cells (Some (addr e)) u ++ cells (Some (addr e)) v ++ ctx_cells pp C (addr e) ++ K).
  { rewrite cells_fork, ptr_of_fork. solve_Permutation. }
  eapply run_perm; [exact Hperm|]. rewrite ptr_of_fork. repeat run1. cell_simpl. rewrite Hd. repeat run1. cell_simpl.
  assert (Hview : ∀ A (m : rbt A) Q, triple (view sn pp (Frame d c e v :: C) u ((x, nx) :: K)) m Q →
    triple (on (top C (addr e)) ((x, nx) :: (addr e, cell d c e (ptr_of u) (ptr_of v) (hole_parent pp C)) :: (S, sn) ::
      cells (Some (addr e)) u ++ cells (Some (addr e)) v ++ ctx_cells pp C (addr e) ++ K)) m Q).
  { intros A m Q. apply view_intro; [done|].
    cbn [RbShape.ctx_cells fentry fside fhue fother hole_parent]. solve_Permutation. }
  destruct u as [|cu l' e' r'].
  - cbn [RbShape.ptr_of]. rewrite decide_True by done. apply Hview. apply triple_ret.
    intros s Hs. exists (Frame d c e v), C. by split_and!.
  - rewrite decide_False.
    2: { intros [= Heq]. rewrite Hperm in Hnd. cbn [fmap list_fmap] in Hnd.
         do 2 apply NoDup_cons in Hnd as [_ Hnd]. apply NoDup_cons in Hnd as [Hin _].
         apply Hin. rewrite <-Heq. cbn. left. }
    apply Hview. by apply IH.
Qed.

(** The new node is linked in at the leaf, red. *)
Lemma insert_by_run less fuel sn pp t x nx K :
  t ≠ E → (depth t ≤ fuel)%nat →
  triple (view sn pp [] t ((x, nx) :: K)) (insert_by less fuel (Some (ptr_of t)) (Some x))
    (λ _, view sn pp (leaf_ctx less (key nx) t []) (T Red E (Entry x (key nx) (data nx)) E) K).
Proof.
  intros Ht Hf. unfold insert_by. eapply triple_bind; [by apply descend_run|].
  intros r m (f & C & -> & -> & Hm). revert m Hm. destruct f as [d c e v]. cbn [fst snd fentry fside].
  cbv beta.
  change (triple (view sn pp (Frame d c e v :: C) E ((x, nx) :: K))
    (sen ← gets sentinel; set_child d (Some (addr e)) (Some x);; set_parent (Some x) (Some (addr e));;
     set_child L (Some x) sen;; set_child R (Some x) sen;; ngx_rbt_red (Some x))
    (λ _, view sn pp (Frame d c e v :: C) (T Red E (Entry x (key nx) (data nx)) E) K)).
  unfold view. cbn [RbShape.ctx_cells top fentry fside fhue fother hole_parent RbShape.cells RbShape.ptr_of addr].
  reorder ((x, nx) :: (addr e, cell d c e S (ptr_of v) (hole_parent pp C)) :: (S, sn) ::
    cells (Some (addr e)) v ++ ctx_cells pp C (addr e) ++ K).
  repeat run1. intros m Hm. eapply on_perm; [|exact Hm]. destruct nx as [k l r p col dt].
  cbn. solve_Permutation.
Qed.

(** ** The insertion *)

Definition less_of : Z → Z → bool :=
  match i with insert_value => Z.ltb | insert_timer_value => key_before end.

Lemma first_run sn pp x nx K :
  triple (view sn pp [] E ((x, nx) :: K))
    (set_parent (Some x) None;; set_child L (Some x) (Some S);; set_child R (Some x) (Some S);;
     ngx_rbt_black (Some x);; set_root (Some x))
    (λ _, view sn None [] (T Black E (Entry x (key nx) (data nx)) E) K).
Proof.
  unfold view. cbn [RbShape.ctx_cells top hole_parent RbShape.cells RbShape.ptr_of app].
  reorder ((x, nx) :: (S, sn) :: K). repeat run1. intros m (Hs & Hr & Hi & Hm).
  eexists _, _. split; [done|]. destruct nx as [k l r p col dt].
  split_and!; [done..|]. cbn in *. by eapply heap_perm; [|exact Hm]; apply perm_swap.
Qed.

Lemma insert_triple fuel t x nx K :
  (depth t < fuel)%nat →
  triple (holds S i t ((x, nx) :: K)) (ngx_rbtree_insert fuel (Some x))
    (λ _ s, ∃ t', holds S i t' K s ∧
       inorder t' = lefts (leaf_ctx less_of (key nx) t []) ++ Entry x (key nx) (data nx) ::
         rights (leaf_ctx less_of (key nx) t [])).
Proof.
  intros Hf s (sn & pp & Hsn & Hv & Hrb). revert s Hv.
  change (triple (view sn pp [] t ((x, nx) :: K)) (ngx_rbtree_insert fuel (Some x))
    (λ _ s, ∃ t', holds S i t' K s ∧
       inorder t' = lefts (leaf_ctx less_of (key nx) t []) ++ Entry x (key nx) (data nx) ::
         rights (leaf_ctx less_of (key nx) t []))).
  unfold ngx_rbtree_insert. apply run_ne. intros Hnd.
  apply run_root, run_sentinel. cbn [top]. assert (t = E ∨ t ≠ E) as [->|Ht] by (destruct t; [by left|by right]).
  - rewrite decide_True by done. eapply triple_post; [apply first_run|].
    intros a m Hm. exists (T Black E (Entry x (key nx) (data nx)) E). split; [|done].
    exists sn, None. split; [done|]. split; [exact Hm|]. split; [done|].
    exists 1%nat. cbn. by exists 0%nat.
  - rewrite decide_False.
    2: { destruct t as [|c l e r]; [done|]. intros [= Heq]. cbn in Hnd. apply NoDup_cons in Hnd as [Hin _].
         apply Hin. rewrite <-Heq. left. }
    eapply triple_seq.
    { unfold call_insert. apply run_insert.
      eapply triple_post; [|intros a m Hm; exact Hm].
      assert (match i with
        | insert_value => ngx_rbtree_insert_value fuel (Some (ptr_of t)) (Some x)
        | insert_timer_value => ngx_rbtree_insert_timer_value fuel (Some (ptr_of t)) (Some x)
        end = insert_by less_of fuel (Some (ptr_of t)) (Some x)) as -> by (unfold less_of; by destruct i).
      apply (insert_by_run less_of fuel sn pp t x nx K Ht). lia. }
    set (C := leaf_ctx less_of (key nx) t []). set (e := Entry x (key nx) (data nx)).
    assert (red_black (plug C E)) as HrbC by (unfold C; by rewrite plug_leaf).
    apply rb_unplug in HrbC as (n & HC & Hn & _). cbn in Hn. subst n.
    eapply triple_bind.
    { apply (rebalance_run fuel 0 sn pp C (T Red E e E) K); try done.
      pose proof (leaf_ctx_length less_of (key nx) t []). cbn in *. fold C in H. lia. }
    intros []. cbn beta. intros m (t' & Hm & Hin & Hrb'). revert m Hm.
    change (triple (view sn pp [] t' K) (r ← gets root; ngx_rbt_black r)
      (λ _ s, ∃ t', holds S i t' K s ∧ inorder t' = lefts C ++ e :: rights C)).
    unfold view at 1. apply run_root. cbn [top].
    eapply triple_post; [by apply (paint_run S i sn pp [] t' K)|].
    intros a m Hm. exists (paint Black t'). split; [by exists sn, pp|].
    rewrite inorder_paint, Hin, inorder_plug. done.
Qed.
End insert.

(** The insertion, ranked. *)
Lemma tree_insert_run S i fuel t x nx K rk s :
  holds S i t ((x, nx) :: K) s →
  ordered rk (inorder t) → agrees rk (less_of i) (key nx) (inorder t) →
  (2 * Nat.log2 (size t + 1) < fuel)%nat →
  ∃ s' t', ngx_rbtree_insert fuel (Some x) s = Done ((), s') ∧ holds S i t' K s' ∧
    inorder t' = filter (λ y, ¬ rk (key nx) < rk (ekey y)) (inorder t) ++ Entry x (key nx) (data nx) ::
      filter (λ y, rk (key nx) < rk (ekey y)) (inorder t) ∧
    ordered rk (inorder t').
Proof.
  intros Hs Ho Ha Hf. assert (Hrb : red_black t) by (destruct Hs as (? & ? & _ & _ & ?); done).
  pose proof (red_black_depth t Hrb) as Hd.
  destruct (insert_triple S i fuel t x nx K ltac:(lia) s Hs) as ([] & s' & Hrun & t' & Hs' & Hin).
  exists s', t'. split; [done|]. split; [done|].
  set (C := leaf_ctx (less_of i) (key nx) t []) in *.
  assert (inorder t = lefts C ++ rights C) as Hlr.
  { pose proof (inorder_plug C E) as Hp. unfold C in Hp at 1. rewrite plug_leaf in Hp. exact Hp. }
  destruct (leaf_sides rk (less_of i) (key nx) t [] Ho Ha) as [HL HR]; [by intros y ?%elem_of_nil..|]. fold C in HL, HR.
  assert (inorder t' = filter (λ y, ¬ rk (key nx) < rk (ekey y)) (inorder t) ++ Entry x (key nx) (data nx) ::
      filter (λ y, rk (key nx) < rk (ekey y)) (inorder t)) as Hin'.
  { rewrite Hin, Hlr, !filter_app.
    rewrite (filter_all (λ y, ¬ rk (key nx) < rk (ekey y)) (lefts C)) by done.
    rewrite (filter_none (λ y, ¬ rk (key nx) < rk (ekey y)) (rights C)) by (intros y Hy Hn; by apply Hn, HR).
    rewrite (filter_none (λ y, rk (key nx) < rk (ekey y)) (lefts C)) by done.
    rewrite (filter_all (λ y, rk (key nx) < rk (ekey y)) (rights C)) by done.
    by rewrite app_nil_r. }
  split; [done|]. rewrite Hin. apply StronglySorted_insert; [by rewrite <-Hlr|..]; cbn.
  - intros y Hy. specialize (HL y Hy). lia.
  - intros y Hy. specialize (HR y Hy). lia.
Qed.

(** C31: [ngx_rbtree_insert] puts the new node in its place in the order, after
    the nodes of the same rank, and the memory again holds a red-black tree;
    it returns, within [2 log2 (n + 1)] steps down the tree of [n] nodes.  [rk]
    ranks the keys the way the comparison of [tree->insert] does. *)
Theorem ngx_rbtree_insert_spec S i fuel t x nx K rk s :
  holds S i t ((x, nx) :: K) s →
  ordered rk (inorder t) → agrees rk (less_of i) (key nx) (inorder t) →
  (2 * Nat.log2 (size t + 1) < fuel)%nat →
  ∃ s' t', ngx_rbtree_insert fuel (Some x) s = Done ((), s') ∧ holds S i t' K s' ∧
    inorder t' = filter (λ y, ¬ rk (key nx) < rk (ekey y)) (inorder t) ++ Entry x (key nx) (data nx) ::
      filter (λ y, rk (key nx) < rk (ekey y)) (inorder t) ∧
    ordered rk (inorder t').
Proof. apply tree_insert_run. Qed.

(** ** A concrete tree: keys 10, 20 and 30 below the sentinel 1, and a node of
    key 20 to insert *)
Definition demo_state : ngx_rbtree :=
  Tree (Some 3%positive) (Some 1%positive) insert_timer_value (list_to_map
    [(1%positive, Node 0 None None None 0 0);
     (3%positive, Node 20 (Some 2%positive) (Some 4%positive) None 0 0);
     (2%positive, Node 10 (Some 1%positive) (Some 1%positive) (Some 3%positive) 1 0);
     (4%positive, Node 30 (Some 1%positive) (Some 1%positive) (Some 3%positive) 1 0);
     (5%positive, Node 20 None None None 0 7)]).
Definition demo_tree : tree :=
  T Black (T Red E (Entry 2 10 0) E) (Entry 3 20 0) (T Red E (Entry 4 30 0) E).

Lemma demo_holds : holds 1 insert_timer_value demo_tree [(5%positive, Node 20 None None None 0 7)] demo_state.
Proof.
  exists (Node 0 None None None 0 0), None. split; [done|]. split; [|split; [done|by exists 1%nat, 0%nat]].
  split_and!; try done. split; [|done]. cbn. apply (bool_decide_unpack _). vm_compute. done.
Qed.

Lemma demo_agrees :
  agrees (λ k, k) (less_of insert_timer_value) 20 (inorder demo_tree).
Proof.
  intros y Hy. cbn in Hy.
  repeat (apply elem_of_cons in Hy as [->|Hy]; [vm_compute; done|]). by apply elem_of_nil in Hy.
Qed.

Lemma demo_ordered : ordered (λ k, k) (inorder demo_tree).
Proof. repeat constructor; cbn; lia. Qed.

Lemma ngx_rbtree_insert_spec_witness :
  ∃ s' t', ngx_rbtree_insert 5 (Some 5%positive) demo_state = Done ((), s') ∧
    holds 1 insert_timer_value t' [] s' ∧
    inorder t' = filter (λ y, ¬ 20 < ekey y) (inorder demo_tree) ++ Entry 5 20 7 ::
      filter (λ y, 20 < ekey y) (inorder demo_tree) ∧
    ordered (λ k, k) (inorder t').
Proof.
  apply (ngx_rbtree_insert_spec 1 insert_timer_value 5 demo_tree 5 (Node 20 None None None 0 7) [] (λ k, k)
    demo_state demo_holds demo_ordered demo_agrees). cbn. lia.
Defined.

End RbInsert.
