(* ===== verification/RbDelete.v ===== *)
(** [ngx_rbtree_delete]: the node is taken out, the others keep their order, and
    the tree stays a red-black tree; [ngx_rbtree_min] and [ngx_rbtree_next]. *)
From S2P Require Import Prelude Hoare RbTree RbShape RbRun RbInsert.
Import RbTree RbShape RbRun.

Module RbDelete.

#[local] Opaque reparent replace_child rotate ngx_rbt_is_red.

Section delete.
Context (S : ptr) (i : ngx_rbtree_insert_pt).
Abbreviation on := (on S i).
Abbreviation cells := (cells S).
Abbreviation ctx_cells := (ctx_cells S).
Abbreviation ptr_of := (ptr_of S).
Abbreviation view := (view S i).

(** ** What deletion and traversal do to the sequence of entries *)

Definition taken_out (l : list entry) (e : entry) (l' : list entry) : Prop :=
  ∃ A B, l = A ++ e :: B ∧ l' = A ++ B.
Definition followed_by (l : list entry) (e : entry) (o : option entry) : Prop :=
  ∃ A B, l = A ++ e :: B ∧ o = head B.

(** ** The fix-up *)

(** The hole of [C] misses one black node, which [t] makes up for if it is
    painted black. *)
Definition deficit (n : nat) (C : ctx) (t : tree) : Prop :=
  rb_ctx (Datatypes.S n) C ∧
  match hue_of t with Red => rb (Datatypes.S n) (paint Black t) | Black => rb n t end.

(** What is left to do: shrinks in every round of the loop. *)
Definition todo (C : ctx) (t : tree) : nat :=
  length C + match hue_of t with Red => 0 | Black => 1 end.

(** What a round of the loop leaves. *)
Definition repaired (sn : ngx_rbtree_node) (pp : link) (L0 : list entry) (m : nat) K
    (r : link) (s : ngx_rbtree) : Prop :=
  ∃ C2 t2 n2, r = Some (ptr_of t2) ∧ view sn pp C2 t2 K s ∧ deficit n2 C2 t2 ∧ t2 ≠ E ∧
    inorder (plug C2 t2) = L0 ∧ (todo C2 t2 < m)%nat.

Lemma paint_fork c' d c t e u : paint c' (fork d c t e u) = fork d c' t e u.
Proof. by destruct d. Qed.

(** The last rotation: the red nephew on the far side takes the missing black. *)
Lemma final_run n d sn pp c e near we far C t K m :
  (t = E → parent sn = Some (addr e)) →
  rb_ctx (Datatypes.S n) (Frame d c e (fork d Black near we far) :: C) → rb n t → hue_of t = Black →
  hue_of far = Red → (1 < m)%nat →
  triple (view sn pp (Frame d c e (fork d Black near we far) :: C) t K)
    (p ← parent_of (Some (ptr_of t));
     ngx_rbt_copy_color (Some (addr we)) p;;
     ngx_rbt_black p;;
     far ← child_of (opp d) (Some (addr we));
     ngx_rbt_black far;;
     rotate d p;;
     gets root)
    (repaired sn pp (inorder (plug (Frame d c e (fork d Black near we far) :: C) t)) m K).
Proof.
  intros Hsn HC Ht Hbt Hfar Hm. cbn in HC. destruct HC as [Hw HC].
  apply rb_fork_black_inv in Hw as (n' & [= <-] & Hnear & Hfr).
  destruct far as [|cf f1 fe f2]; [done|]. cbn in Hfar. subst cf. set (q := hole_parent pp C).
  eapply run_perm.
  { cbn [RbShape.ctx_cells top fentry fside fhue fother hole_parent RbShape.cells RbShape.ptr_of].
    rewrite cells_fork, ptr_of_fork. cbn [RbShape.cells RbShape.ptr_of]. fold q.
    transitivity ((S, sn) :: cells (Some (addr e)) t ++
      (addr e, cell d c e (ptr_of t) (addr we) q) ::
      (addr we, cell d Black we (ptr_of near) (addr fe) (Some (addr e))) ::
      (addr fe, cell L Red fe (ptr_of f1) (ptr_of f2) (Some (addr we))) ::
      cells (Some (addr we)) near ++ cells (Some (addr fe)) f1 ++ cells (Some (addr fe)) f2 ++
      ctx_cells pp C (addr e) ++ K); [solve_Permutation|reflexivity]. }
  apply run_parent; [done|].
  reorder ((addr e, cell d c e (ptr_of t) (addr we) q) ::
      (addr we, cell d Black we (ptr_of near) (addr fe) (Some (addr e))) ::
      (addr fe, cell L Red fe (ptr_of f1) (ptr_of f2) (Some (addr we))) :: (S, sn) ::
      cells (Some (addr e)) t ++
      cells (Some (addr we)) near ++ cells (Some (addr fe)) f1 ++ cells (Some (addr fe)) f2 ++
      ctx_cells pp C (addr e) ++ K).
  repeat run1.
  set (far := T Black f1 fe f2).
  eapply triple_seq.
  { eapply (view_intro S i _ _ sn pp C (fork d Black t e (fork d c near we far)) K).
    - by rewrite ptr_of_fork.
    - rewrite ptr_of_fork, !cells_fork, ptr_of_fork. cbn [far RbShape.ptr_of RbShape.cells]. fold q.
      solve_Permutation.
    - apply rotate_run. }
  set (t2 := fork d c (fork d Black t e near) we far).
  assert (red_black (plug C t2)) as [Hb [n2 Hn2]].
  { assert (rb (Datatypes.S n) (fork d Black t e near) ∧ rb (Datatypes.S n) far) as [Hl Hr].
    { split; [by apply rb_fork_black|]. cbn in Hfr |- *. destruct Hfr as (_ & _ & ? & ?). eauto. }
    destruct c; [destruct HC as (_ & HC0 & Hab & HC)|].
    - apply (rb_plug (Datatypes.S n)); [done| |by split]. apply rb_fork_red; [apply hue_fork|done..].
    - apply (rb_plug (Datatypes.S (Datatypes.S n))); [done|by apply rb_fork_black|].
      intros Hred. unfold t2 in Hred. by rewrite hue_fork in Hred. }
  assert (plug C t2 ≠ E) as Hne.
  { intros HE. apply (f_equal inorder) in HE. rewrite inorder_plug in HE. unfold t2 in HE. destruct d; cbn in HE;
      apply app_eq_nil in HE as [_ HE]; apply app_eq_nil in HE as [HE _];
      apply app_eq_nil in HE as [_ HE]; discriminate HE. }
  intros s Hs. eexists _, s. split; [reflexivity|]. exists [], (plug C t2), n2. split_and!.
  - rewrite ptr_of_plug. apply Hs.
  - by rewrite <-view_plug.
  - split; [done|]. by rewrite Hb.
  - done.
  - unfold t2, far. cbn [plug fside fhue fentry fother]. same_order.
  - unfold todo. cbn. rewrite Hb. lia.
Qed.

(** ** A round whose sibling is black *)

(** Its cells: the parent, the sibling, and the rest. *)
Definition round_cells sn pp d c e near we far C t K :=
  (addr e, cell d c e (ptr_of t) (addr we) (hole_parent pp C)) ::
  (addr we, cell d Black we (ptr_of near) (ptr_of far) (Some (addr e))) ::
  (S, sn) :: cells (Some (addr we)) near ++ cells (Some (addr we)) far ++
  cells (Some (addr e)) t ++ ctx_cells pp C (addr e) ++ K.
Lemma round_cells_view sn pp d c e near we far C t K :
  (S, sn) :: ctx_cells pp (Frame d c e (fork d Black near we far) :: C) (ptr_of t) ++
    cells (hole_parent pp (Frame d c e (fork d Black near we far) :: C)) t ++ K ≡ₚ
  round_cells sn pp d c e near we far C t K.
Proof.
  unfold round_cells. cbn [RbShape.ctx_cells top fentry fside fhue fother hole_parent].
  rewrite cells_fork, ptr_of_fork. solve_Permutation.
Qed.

(** Both nephews are black: the sibling becomes red, and the deficit moves up. *)
Lemma blacken_run n d sn pp c e near we far C t K m :
  color sn = 0 → (t = E → parent sn = Some (addr e)) →
  rb_ctx (Datatypes.S n) (Frame d c e (fork d Black near we far) :: C) → rb n t → hue_of t = Black →
  (length C + match c with Red => 0 | Black => 1 end < m)%nat → hue_of near = Black → hue_of far = Black →
  triple (on (top C (addr e)) (round_cells sn pp d c e near we far C t K))
    (ngx_rbt_red (Some (addr we));; parent_of (Some (ptr_of t)))
    (repaired sn pp (inorder (plug (Frame d c e (fork d Black near we far) :: C) t)) m K).
Proof.
  intros Hsn Hsp HC Ht Hbt Hm Hhn Hhf. cbn in HC. destruct HC as [Hw HC].
  apply rb_fork_black_inv in Hw as (n' & [= <-] & Hnear & Hfar). unfold round_cells. set (q := hole_parent pp C).
  set (K1 := cells (Some (addr e)) t ++ ctx_cells pp C (addr e) ++ K).
  apply triple_bind_ret.
  reorder ((addr we, cell d Black we (ptr_of near) (ptr_of far) (Some (addr e))) ::
    (addr e, cell d c e (ptr_of t) (addr we) q) ::
    (S, sn) :: cells (Some (addr we)) near ++ cells (Some (addr we)) far ++ K1).
  apply run_assoc.
  repeat run1.
  reorder ((S, sn) :: cells (Some (addr e)) t ++ (addr we, cell d Red we (ptr_of near) (ptr_of far) (Some (addr e))) ::
    (addr e, cell d c e (ptr_of t) (addr we) q) ::
    cells (Some (addr we)) near ++ cells (Some (addr we)) far ++ ctx_cells pp C (addr e) ++ K).
  eapply triple_equiv; [symmetry; apply prog_assoc|].
  apply run_parent; [done|]. apply triple_ret. intros s Hs.
  set (t2 := fork d c t e (fork d Red near we far)).
  assert (rb n (fork d Red near we far)) as Hrw by (by apply rb_fork_red).
  exists C, t2, (match c with Red => n | Black => Datatypes.S n end).
  split; [unfold t2; by rewrite ptr_of_fork|]. split; [|split; [|split; [|split]]].
  * eapply view_elim; [..|exact Hs]; [unfold t2; by rewrite ptr_of_fork|].
    unfold t2. rewrite ptr_of_fork, !cells_fork, ptr_of_fork. fold q. solve_Permutation.
  * unfold deficit, t2. rewrite hue_fork, paint_fork. destruct c.
    -- destruct HC as (_ & _ & _ & HC). split; [done|]. by apply rb_fork_black.
    -- split; [done|]. by apply rb_fork_black.
  * unfold t2. by destruct d.
  * unfold t2. cbn [plug fside fhue fentry fother]. same_order.
  * unfold todo, t2. rewrite hue_fork. done.
Qed.

(** The near nephew is red and the far one black: a rotation at the sibling
    makes the far nephew red. *)
Lemma straighten_run n d sn pp c e near we far C t K m :
  color sn = 0 → (t = E → parent sn = Some (addr e)) →
  rb_ctx (Datatypes.S n) (Frame d c e (fork d Black near we far) :: C) → rb n t → hue_of t = Black →
  (length C + match c with Red => 0 | Black => 1 end < m)%nat → (1 < m)%nat → hue_of near = Red → hue_of far = Black →
  triple (on (top C (addr e)) (round_cells sn pp d c e near we far C t K))
    (w ← (near ← child_of d (Some (addr we));
          ngx_rbt_black near;;
          ngx_rbt_red (Some (addr we));;
          rotate (opp d) (Some (addr we));;
          p ← parent_of (Some (ptr_of t));
          child_of (opp d) p);
     p ← parent_of (Some (ptr_of t));
     ngx_rbt_copy_color w p;;
     ngx_rbt_black p;;
     far ← child_of (opp d) w;
     ngx_rbt_black far;;
     rotate d p;;
     gets root)
    (repaired sn pp (inorder (plug (Frame d c e (fork d Black near we far) :: C) t)) m K).
Proof.
  intros Hsn Hsp HC Ht Hbt Hm Hm1 Hhn Hhf. pose proof HC as HC'. cbn in HC. destruct HC as [Hw HC].
  apply rb_fork_black_inv in Hw as (n' & [= <-] & Hnear & Hfar). unfold round_cells. set (q := hole_parent pp C).
  set (K1 := cells (Some (addr e)) t ++ ctx_cells pp C (addr e) ++ K).
  destruct (tree_fork d near) as [->|(cn & na & ne & nb & ->)]; [done|].
  rewrite hue_fork in Hhn. subst cn. apply rb_fork_red_inv in Hnear as (Hna0 & Hnb0 & Hna & Hnb).
  apply run_assoc.
  eapply run_perm; [rewrite cells_fork, ptr_of_fork; reflexivity|].
  reorder ((addr e, cell d c e (ptr_of t) (addr we) q) ::
    (addr we, cell d Black we (addr ne) (ptr_of far) (Some (addr e))) ::
    (addr ne, cell d Red ne (ptr_of na) (ptr_of nb) (Some (addr we))) ::
    (S, sn) :: cells (Some (addr we)) far ++ cells (Some (addr ne)) na ++ cells (Some (addr ne)) nb ++ K1).
  repeat run1.
  eapply triple_seq.
  { eapply (view_intro S i _ _ sn pp (Frame (opp d) c e t :: C)
      (fork (opp d) Red far we (fork (opp d) Black nb ne na)) K).
    - cbn. by rewrite ?ptr_of_fork.
    - cbn [RbShape.ctx_cells top fentry fside fhue fother hole_parent]. unfold K1.
      rewrite ptr_of_fork, !cells_fork, ptr_of_fork, !cell_opp. fold q. solve_Permutation.
    - apply rotate_run. }
  set (w' := fork d Black na ne (fork d Red nb we far)).
  assert (HC2 : rb_ctx (Datatypes.S n) (Frame d c e w' :: C)).
  { cbn. split; [apply rb_fork_black; [done|by apply rb_fork_red]|].
    unfold w'. rewrite hue_fork. cbn in HC'. rewrite hue_fork in HC'. apply HC'. }
  rewrite !fork_opp. change (fork d Black na ne (fork d Red nb we far)) with w'.
  assert (Hin : inorder (plug (Frame d c e (fork d Black (fork d Red na ne nb) we far) :: C) t) =
    inorder (plug (Frame d c e w' :: C) t)).
  { cbn [plug fside fhue fentry fother]. unfold w'. same_order. }
  rewrite Hin. unfold view at 1.
  eapply run_perm.
  { cbn [RbShape.ctx_cells top fentry fside fhue fother hole_parent]. unfold w'. rewrite cells_fork, ptr_of_fork, cell_opp.
    transitivity ((S, sn) :: cells (Some (addr e)) t ++ (addr e, cell d c e (ptr_of t) (addr ne) q) ::
      (addr ne, cell d Black ne (ptr_of na) (addr we) (Some (addr e))) ::
      cells (Some (addr ne)) na ++ cells (Some (addr ne)) (fork d Red nb we far) ++ ctx_cells pp C (addr e) ++ K);
      [rewrite ptr_of_fork; solve_Permutation|reflexivity]. }
  apply run_assoc, run_parent; [done|].
  reorder ((addr e, cell d c e (ptr_of t) (addr ne) q) :: (S, sn) :: cells (Some (addr e)) t ++
      (addr ne, cell d Black ne (ptr_of na) (addr we) (Some (addr e))) ::
      cells (Some (addr ne)) na ++ cells (Some (addr ne)) (fork d Red nb we far) ++ ctx_cells pp C (addr e) ++ K).
  repeat run1. eapply triple_equiv; [symmetry; apply prog_assoc|].
  eapply view_intro; [| |apply (final_run n d sn pp c e na ne (fork d Red nb we far) C t K m); try done; apply hue_fork].
  * done.
  * cbn [RbShape.ctx_cells top fentry fside fhue fother hole_parent].
    rewrite ptr_of_fork, (cells_fork S _ d Black), ptr_of_fork. fold q. solve_Permutation.
Qed.

Lemma nephews_run n d sn pp c e near we far C t K m :
  color sn = 0 → (t = E → parent sn = Some (addr e)) →
  rb_ctx (Datatypes.S n) (Frame d c e (fork d Black near we far) :: C) → rb n t → hue_of t = Black →
  (length C + match c with Red => 0 | Black => 1 end < m)%nat → (1 < m)%nat →
  triple (view sn pp (Frame d c e (fork d Black near we far) :: C) t K)
    (near ← child_of d (Some (addr we));
     far ← child_of (opp d) (Some (addr we));
     near_black ← ngx_rbt_is_black near;
     far_black ← ngx_rbt_is_black far;
     if near_black && far_black then
       ngx_rbt_red (Some (addr we));;
       parent_of (Some (ptr_of t))
     else
       w ← (if (far_black : bool) then
              near ← child_of d (Some (addr we));
              ngx_rbt_black near;;
              ngx_rbt_red (Some (addr we));;
              rotate (opp d) (Some (addr we));;
              p ← parent_of (Some (ptr_of t));
              child_of (opp d) p
            else mret (Some (addr we)));
       p ← parent_of (Some (ptr_of t));
       ngx_rbt_copy_color w p;;
       ngx_rbt_black p;;
       far ← child_of (opp d) w;
       ngx_rbt_black far;;
       rotate d p;;
       gets root)
    (repaired sn pp (inorder (plug (Frame d c e (fork d Black near we far) :: C) t)) m K).
Proof.
  intros Hsn Hsp HC Ht Hbt Hm Hm1. pose proof (round_cells_view sn pp d c e near we far C t K) as Hperm.
  eapply run_perm; [exact Hperm|]. unfold round_cells. set (q := hole_parent pp C).
  set (K1 := cells (Some (addr e)) t ++ ctx_cells pp C (addr e) ++ K). repeat run1.
  reorder ((S, sn) :: cells (Some (addr we)) near ++ (addr e, cell d c e (ptr_of t) (addr we) q) ::
      (addr we, cell d Black we (ptr_of near) (ptr_of far) (Some (addr e))) ::
      cells (Some (addr we)) far ++ K1).
  apply run_is_red; [done|]. repeat run1.
  reorder ((S, sn) :: cells (Some (addr we)) far ++ (addr e, cell d c e (ptr_of t) (addr we) q) ::
      (addr we, cell d Black we (ptr_of near) (ptr_of far) (Some (addr e))) ::
      cells (Some (addr we)) near ++ K1).
  apply run_is_red; [done|]. apply run_ret_bind.
  destruct (hue_of far) eqn:Hhf; cbn [is_red negb andb]; rewrite ?andb_false_r, ?andb_true_r.
  - apply run_ret_bind.
    eapply view_intro; [| |by apply (final_run n d sn pp c e near we far C t K m)].
    + cbn. by rewrite <-?ptr_of_fork.
    + rewrite Hperm. unfold round_cells. fold q K1. solve_Permutation.
  - assert (Hback : (S, sn) :: cells (Some (addr we)) far ++ (addr e, cell d c e (ptr_of t) (addr we) q) ::
      (addr we, cell d Black we (ptr_of near) (ptr_of far) (Some (addr e))) ::
      cells (Some (addr we)) near ++ K1 ≡ₚ round_cells sn pp d c e near we far C t K).
    { unfold round_cells. fold q K1. solve_Permutation. }
    destruct (hue_of near) eqn:Hhn; cbn [is_red negb].
    + eapply run_perm; [exact Hback|]. by apply (straighten_run n).
    + eapply run_perm; [exact Hback|]. by apply (blacken_run n).
Qed.

Lemma fixup_side_run n d sn pp c e w C t K :
  color sn = 0 → (t = E → parent sn = Some (addr e)) →
  deficit n (Frame d c e w :: C) t → hue_of t = Black →
  triple (view sn pp (Frame d c e w :: C) t K) (fixup_side d (Some (ptr_of t)))
    (repaired sn pp (inorder (plug (Frame d c e w :: C) t)) (todo (Frame d c e w :: C) t) K).
Proof.
  intros Hsn Hsp [HC Ht] Hbt. rewrite Hbt in Ht. unfold todo. rewrite Hbt.
  destruct (tree_fork d w) as [->|(cw & near & we & far & ->)]; [by destruct HC|].
  assert (Hperm : (S, sn) :: ctx_cells pp (Frame d c e (fork d cw near we far) :: C) (ptr_of t) ++
      cells (hole_parent pp (Frame d c e (fork d cw near we far) :: C)) t ++ K ≡ₚ
    (S, sn) :: cells (Some (addr e)) t ++ (addr e, cell d c e (ptr_of t) (addr we) (hole_parent pp C)) ::
      (addr we, cell d cw we (ptr_of near) (ptr_of far) (Some (addr e))) ::
      cells (Some (addr we)) near ++ cells (Some (addr we)) far ++ ctx_cells pp C (addr e) ++ K).
  { cbn [RbShape.ctx_cells top fentry fside fhue fother hole_parent].
    rewrite cells_fork, ptr_of_fork. solve_Permutation. }
  eapply run_perm; [exact Hperm|]. unfold fixup_side. apply run_parent; [done|].
  reorder ((addr e, cell d c e (ptr_of t) (addr we) (hole_parent pp C)) ::
      (addr we, cell d cw we (ptr_of near) (ptr_of far) (Some (addr e))) :: (S, sn) ::
      cells (Some (addr e)) t ++
      cells (Some (addr we)) near ++ cells (Some (addr we)) far ++ ctx_cells pp C (addr e) ++ K).
  do 3 run1. destruct cw; cbn [is_red].
  - cbn in HC. destruct HC as [Hw HC]. rewrite hue_fork in HC.
    apply rb_fork_red_inv in Hw as (Hbn & Hbf & Hnear & Hfar).
    destruct c; [by destruct HC|].
    destruct (tree_fork d near) as [->|(cn & n1 & ne & n2 & ->)]; [done|].
    rewrite hue_fork in Hbn. subst cn. set (near := fork d Black n1 ne n2) in *.
    repeat run1.
    eapply triple_seq.
    { eapply (view_intro S i _ _ sn pp C (fork d Red t e (fork d Black near we far)) K).
      - by rewrite ptr_of_fork.
      - rewrite ptr_of_fork, !(cells_fork S _ d _ _ e), !(cells_fork S _ d _ _ we), ptr_of_fork. solve_Permutation.
      - apply rotate_run. }
    apply run_assoc.
    eapply run_perm.
    { rewrite ptr_of_fork, (cells_fork S _ d Black _ we), (cells_fork S _ d Red _ e), ptr_of_fork.
      unfold near at 1. rewrite ptr_of_fork.
      transitivity ((S, sn) :: cells (Some (addr e)) t ++ (addr e, cell d Red e (ptr_of t) (addr ne) (Some (addr we))) ::
        (addr we, cell d Black we (addr e) (ptr_of far) (hole_parent pp C)) ::
        cells (Some (addr e)) near ++ cells (Some (addr we)) far ++ ctx_cells pp C (addr we) ++ K);
        [solve_Permutation|reflexivity]. }
    apply run_parent; [done|].
    reorder ((addr e, cell d Red e (ptr_of t) (addr ne) (Some (addr we))) :: (S, sn) :: cells (Some (addr e)) t ++
        (addr we, cell d Black we (addr e) (ptr_of far) (hole_parent pp C)) ::
        cells (Some (addr e)) near ++ cells (Some (addr we)) far ++ ctx_cells pp C (addr we) ++ K).
    do 3 run1. eapply triple_equiv; [symmetry; apply prog_assoc|].
    assert (Hin : inorder (plug (Frame d Black e (fork d Red near we far) :: C) t) =
      inorder (plug (Frame d Red e near :: Frame d Black we far :: C) t)).
    { cbn [plug fside fhue fentry fother]. same_order. }
    rewrite Hin.
    eapply view_intro; [| |eapply (nephews_run n d sn pp Red e n1 ne n2 (Frame d Black we far :: C) t K); try done].
    + by rewrite ptr_of_fork.
    + unfold near. cbn [RbShape.ctx_cells top fentry fside fhue fother hole_parent].
      rewrite ptr_of_fork. solve_Permutation.
    + cbn. split; [done|]. rewrite hue_fork. split_and!; try done.
    + cbn. lia.
    + cbn. lia.
  - apply run_ret_bind.
    eapply view_intro; [| |eapply (nephews_run n d sn pp c e near we far C t K); try done].
    + done.
    + rewrite Hperm. solve_Permutation.
    + cbn. destruct c; lia.
    + cbn. lia.
Qed.

#[local] Opaque fixup_side.

Lemma painted n C t : deficit n C t → C = [] ∨ hue_of t = Red → red_black (plug C (paint Black t)).
Proof.
  intros [HC Ht] Hor.
  assert (hue_of (paint Black t) = Black) as Hb by by destruct t.
  destruct Hor as [->|Hred].
  - cbn. split; [done|]. destruct (hue_of t) eqn:Hh; [by eexists|]. rewrite (paint_black t Hh). by exists n.
  - rewrite Hred in Ht. apply (rb_plug (Datatypes.S n)); [done|done|]. intros Hr. by rewrite Hb in Hr.
Qed.

Lemma fixup_run fuel n sn pp C t K :
  color sn = 0 → (t = E → parent sn = hole_parent pp C) → deficit n C t → (todo C t < fuel)%nat →
  triple (view sn pp C t K) (fixup fuel (Some (ptr_of t)))
    (λ _ s, ∃ t', view sn pp [] t' K s ∧ red_black t' ∧ inorder t' = inorder (plug C t)).
Proof.
  intros Hsn. revert n C t. induction fuel as [|fuel IH]; intros n C t Hsp Hdef Hf; [lia|].
  assert (Hpaint : C = [] ∨ hue_of t = Red →
    triple (view sn pp C t K) (ngx_rbt_black (Some (ptr_of t)))
      (λ _ s, ∃ t', view sn pp [] t' K s ∧ red_black t' ∧ inorder t' = inorder (plug C t))).
  { intros Hor. eapply triple_post; [by apply paint_run|]. intros a s Hs.
    exists (plug C (paint Black t)). split_and!; [by rewrite <-view_plug|by eapply painted|].
    apply inorder_plug_ext. apply inorder_paint. }
  cbn [fixup]. destruct (decide (C = [])) as [->|HCnil].
  { unfold view at 1. apply run_root. rewrite decide_True by done. apply Hpaint. by left. }
  apply view_not_root; [done|]. intros Hroot. unfold view at 1. apply run_root. rewrite decide_False by done.
  apply run_ne. intros Hnd.
  destruct C as [|[d c e w] C]; [done|].
  assert (Hperm : (S, sn) :: ctx_cells pp (Frame d c e w :: C) (ptr_of t) ++
      cells (hole_parent pp (Frame d c e w :: C)) t ++ K ≡ₚ
    (S, sn) :: cells (Some (addr e)) t ++ (addr e, cell d c e (ptr_of t) (ptr_of w) (hole_parent pp C)) ::
      cells (Some (addr e)) w ++ ctx_cells pp C (addr e) ++ K).
  { cbn [RbShape.ctx_cells top fentry fside fhue fother hole_parent]. solve_Permutation. }
  eapply run_perm; [exact Hperm|]. apply run_assoc.
  apply run_is_red; [done|]. apply run_ret_bind. destruct (hue_of t) eqn:Hh; cbn [is_red negb].
  { eapply view_intro; [|symmetry; exact Hperm|apply Hpaint; by right]. done. }
  apply run_parent; [done|].
  reorder ((addr e, cell d c e (ptr_of t) (ptr_of w) (hole_parent pp C)) :: (S, sn) ::
      cells (Some (addr e)) t ++ cells (Some (addr e)) w ++ ctx_cells pp C (addr e) ++ K).
  repeat run1.
  assert (ptr_of t ≠ ptr_of w) as Hne.
  { destruct Hdef as [HC Ht]. destruct (tree_fork d w) as [->|(cw & w1 & we & w2 & ->)]; [by destruct HC|].
    rewrite ptr_of_fork. rewrite Hperm in Hnd. intros Heq. revert Heq. apply not_eq_sym.
    eapply (ne_ptr_of S _ ((addr e, cell d c e (ptr_of t) (addr we) (hole_parent pp C)) ::
      (cells (Some (addr we)) w1 ++ cells (Some (addr we)) w2) ++ ctx_cells pp C (addr e) ++ K)).
    - exact Hnd.
    - rewrite cells_fork, ptr_of_fork. solve_Permutation. }
  rewrite pick_side by done.
  eapply triple_bind.
  { eapply view_intro; [| |apply (fixup_side_run n d sn pp c e w C t K); done]; [done|].
    rewrite Hperm. solve_Permutation. }
  intros r m (C2 & t2 & n2 & -> & Hm & Hdef2 & Hne2 & Hin & Htodo).
  destruct (IH n2 C2 t2 ltac:(done) Hdef2 ltac:(lia) m Hm) as (x & m2 & Hrun & t' & ? & ? & ?).
  exists x, m2. split; [done|]. exists t'. split_and!; [done|done|]. by etrans.
Qed.

(** ** The leftmost node *)

Lemma leftmost t :
  t ≠ E → ∃ D c e r, t = plug D (T c E e r) ∧ Forall (λ f, fside f = L) D ∧ (length D < depth t)%nat.
Proof.
  induction t as [|c l IHl e r _]; [done|]. intros _.
  destruct l as [|cl ll el rl]; [exists [], c, e, r; split_and!; [done..|cbn; lia]|].
  destruct IHl as (D & c' & e' & r' & -> & HD & Hlen); [done|].
  exists (D ++ [Frame L c e r]), c', e', r'. split_and!.
  - by rewrite plug_app.
  - apply Forall_app. split; [done|]. by constructor.
  - rewrite length_app. cbn in *. lia.
Qed.

Lemma lefts_left D : Forall (λ f, fside f = L) D → lefts D = [].
Proof. induction 1 as [|[d c e u] D Hd _ IH]; [done|]. cbn in *. by rewrite IH, Hd. Qed.

Lemma lefts_app D C : lefts (D ++ C) = lefts C ++ lefts D.
Proof. induction D as [|f D IH]; cbn; [by rewrite app_nil_r|]. by rewrite IH, app_assoc. Qed.
Lemma rights_app D C : rights (D ++ C) = rights D ++ rights C.
Proof. induction D as [|f D IH]; cbn; [done|]. by rewrite IH, app_assoc. Qed.

(** [ngx_rbtree_min] walks down the left spine. *)
Lemma leftmost_run fuel sn pp C D c e r K :
  Forall (λ f, fside f = L) D → (length D < fuel)%nat →
  triple (view sn pp C (plug D (T c E e r)) K) (ngx_rbtree_min fuel (Some (ptr_of (plug D (T c E e r)))))
    (λ x s, x = Some (addr e) ∧ view sn pp (D ++ C) (T c E e r) K s).
Proof.
  revert C D. induction fuel as [|fuel IH]; intros C D HD Hf; [lia|]. cbn [ngx_rbtree_min].
  induction D as [|f D _] using rev_ind.
  - unfold view. cbn [plug app RbShape.ptr_of RbShape.cells].
    reorder ((addr e, cell L c e S (ptr_of r) (hole_parent pp C)) :: (S, sn) :: ctx_cells pp C (addr e) ++
      cells (Some (addr e)) r ++ K).
    repeat run1. cell_simpl. rewrite decide_True by done. apply triple_ret. intros s Hs. split; [done|].
    eapply on_perm; [|exact Hs]. solve_Permutation.
  - apply Forall_app in HD as [HD Hd]. inv Hd. destruct f as [d cf ef uf]. cbn in H1. subst d.
    rewrite plug_app. cbn [plug fside fhue fentry fother fork].
    set (t := plug D (T c E e r)) in *.
    apply run_ne. intros Hnd.
    assert (Hperm : (S, sn) :: ctx_cells pp C (ptr_of (T cf t ef uf)) ++
        cells (hole_parent pp C) (T cf t ef uf) ++ K ≡ₚ
      (addr ef, cell L cf ef (ptr_of t) (ptr_of uf) (hole_parent pp C)) :: (S, sn) ::
      cells (Some (addr ef)) t ++ cells (Some (addr ef)) uf ++ ctx_cells pp C (addr ef) ++ K).
    { cbn [RbShape.ptr_of RbShape.cells]. solve_Permutation. }
    eapply run_perm; [exact Hperm|]. cbn [RbShape.ptr_of]. repeat run1. cell_simpl.
    assert (S ≠ ptr_of t) as Hne.
    { rewrite Hperm in Hnd. eapply ne_of_perm; [exact Hnd|apply perm_swap|].
      cbn. rewrite fmap_app. assert (ptr_of t ∈ (cells (Some (addr ef)) t).*1); [|set_solver].
      unfold t. rewrite ptr_of_plug. rewrite (cells_plug S _ D), fmap_app. cbn.
      destruct (decide (D = [])) as [->|HDn]; [cbn; set_solver|].
      pose proof (top_in S (Some (addr ef)) D (addr e) HDn). set_solver. }
    rewrite decide_False by congruence.
    eapply view_intro; [| |eapply triple_post; [apply (IH (Frame L cf ef uf :: C) D HD); rewrite length_app in Hf; cbn in Hf; lia|]].
    + done.
    + cbn [RbShape.ctx_cells top fentry fside fhue fother hole_parent]. fold t. solve_Permutation.
    + intros x s [-> Hs]. split; [done|]. by rewrite <-app_assoc.
Qed.

(** ** Taking a node out *)

Definition scrubbed (n : ngx_rbtree_node) : ngx_rbtree_node :=
  Node 0 None None None (color n) (data n).

Lemma scrub_run r x n K :
  triple (on r ((x, n) :: K)) (scrub (Some x)) (λ _, on r ((x, scrubbed n) :: K)).
Proof. unfold scrub. do 4 run1. by destruct n. Qed.

(** The end of a deletion: [t] has taken the place of a tree with one more black
    node, or of a red node. *)
Lemma finish_run fuel n sn pp C t K (red : bool) :
  color sn = 0 → (t = E → parent sn = hole_parent pp C) →
  (if red then rb_ctx n C ∧ rb n t ∧ hue_of t = Black else deficit n C t) → (todo C t < fuel)%nat →
  triple (view sn pp C t K)
    (if red then mret () else fixup fuel (Some (ptr_of t)))
    (λ _ s, ∃ t', holds S i t' K s ∧ inorder t' = inorder (plug C t)).
Proof.
  intros Hsn Hsp Hrb Hf. destruct red.
  - apply triple_ret. intros s Hs. exists (plug C t). split; [|done]. exists sn, pp.
    split; [done|]. split; [by rewrite <-view_plug|]. destruct Hrb as (HC & Ht & Hb).
    apply (rb_plug n); [done..|]. intros Hr. by rewrite Hb in Hr.
  - eapply triple_post; [by apply (fixup_run fuel n)|]. intros a s (t' & Hs & Hrb' & Hin).
    exists t'. split; [|done]. by exists sn, pp.
Qed.

(** A node with at most one child. *)
Lemma find_subst_one d fuel sn pp C c e t0 K :
  d = L ∨ t0 ≠ E →
  triple (view sn pp C (fork d c E e t0) K) (find_subst fuel (Some (addr e)))
    (λ r s, r = (Some (ptr_of t0), Some (addr e)) ∧ view sn pp C (fork d c E e t0) K s).
Proof.
  intros Hd. unfold view. apply run_ne. intros Hnd. rewrite ptr_of_fork in *.
  assert (Hperm : (S, sn) :: ctx_cells pp C (addr e) ++ cells (hole_parent pp C) (fork d c E e t0) ++ K ≡ₚ
    (addr e, cell d c e S (ptr_of t0) (hole_parent pp C)) :: (S, sn) :: cells (Some (addr e)) t0 ++
      ctx_cells pp C (addr e) ++ K).
  { rewrite cells_fork. cbn. solve_Permutation. }
  eapply run_perm; [exact Hperm|]. unfold find_subst. apply run_sentinel.
  assert (Hpost : ∀ s, on (top C (addr e)) ((addr e, cell d c e S (ptr_of t0) (hole_parent pp C)) :: (S, sn) ::
      cells (Some (addr e)) t0 ++ ctx_cells pp C (addr e) ++ K) s →
    (Some (ptr_of t0), Some (addr e)) = (Some (ptr_of t0), Some (addr e)) ∧
    on (top C (addr e)) ((S, sn) :: ctx_cells pp C (addr e) ++ cells (hole_parent pp C) (fork d c E e t0) ++ K) s).
  { intros s Hs. split; [done|]. eapply on_perm; [|exact Hs]. by symmetry. }
  destruct d; cbn [cell] in *.
  - do 3 run1. rewrite decide_True by done. repeat run1. by apply triple_ret.
  - destruct t0 as [|c0 l0 e0 r0]; [by destruct Hd|].
    do 3 run1. cbn [child RbTree.left RbTree.right RbShape.ptr_of] in *. rewrite decide_False.
    2: { intros [= Heq]. rewrite Hperm in Hnd. cbn in Hnd. apply NoDup_cons in Hnd as [_ Hnd].
         apply NoDup_cons in Hnd as [Hin _]. apply Hin. rewrite <-Heq. cbn. left. }
    do 3 run1. cbn [child RbTree.left RbTree.right]. rewrite decide_True by done. by apply triple_ret.
Qed.

#[local] Opaque find_subst fixup unlink scrub.

Lemma rb_without n d c e t0 :
  rb n (fork d c E e t0) →
  if is_red c then rb n t0 ∧ hue_of t0 = Black
  else ∃ m, n = Datatypes.S m ∧ match hue_of t0 with Red => rb (Datatypes.S m) (paint Black t0) | Black => rb m t0 end.
Proof.
  destruct c; cbn [is_red].
  - intros (_ & ? & _ & ?)%rb_fork_red_inv. done.
  - intros (m & -> & _ & Ht)%rb_fork_black_inv. exists m. split; [done|].
    destruct (hue_of t0) eqn:Hh; [by apply rb_paint_black|done].
Qed.

Lemma delete_one d fuel sn pp C c e t0 K :
  d = L ∨ t0 ≠ E → color sn = 0 → red_black (plug C (fork d c E e t0)) →
  (depth (plug C (fork d c E e t0)) < fuel)%nat →
  triple (view sn pp C (fork d c E e t0) K) (ngx_rbtree_delete fuel (Some (addr e)))
    (λ _ s, ∃ t' n', holds S i t' ((addr e, n') :: K) s ∧ inorder t' = inorder (plug C t0)).
Proof.
  intros Hd Hsn Hrb Hf. unfold ngx_rbtree_delete.
  pose proof (depth_plug C (fork d c E e t0)) as Hdep.
  assert (Datatypes.S (depth t0) ≤ depth (fork d c E e t0))%nat as Hdep0 by (destruct d; cbn; lia).
  apply rb_unplug in Hrb as (n & HC & Ht & Hfit). rewrite <-hue_fork with (d:=d) (c:=c) (t:=E) (e:=e) (u:=t0) in Hfit.
  eapply triple_bind; [by apply find_subst_one|]. intros r. apply triple_pure with (r = (Some (ptr_of t0), Some (addr e))).
  { by intros s [? _]. }
  intros ->. cbn [fst snd]. eapply triple_pre; [intros s [_ Hs]; exact Hs|].
  set (q := hole_parent pp C).
  assert (Hperm : (S, sn) :: ctx_cells pp C (ptr_of (fork d c E e t0)) ++ cells q (fork d c E e t0) ++ K ≡ₚ
    (S, sn) :: (addr e, cell d c e S (ptr_of t0) q) :: ctx_cells pp C (addr e) ++ cells (Some (addr e)) t0 ++ K).
  { rewrite ptr_of_fork, cells_fork. cbn. solve_Permutation. }
  destruct (decide (C = [])) as [->|HCnil].
  - unfold view at 1. cbn [top]. rewrite ptr_of_fork in *. apply run_root. rewrite decide_True by done.
    apply run_set_root. eapply run_perm; [exact Hperm|].
    eapply triple_seq.
    { eapply (view_intro S i _ _ sn (Some (addr e)) [] t0 ((addr e, cell d c e S (ptr_of t0) q) :: K));
        [done| |by apply paint_run]. cbn. solve_Permutation. }
    unfold view at 1. cbn [RbShape.ctx_cells top hole_parent app].
    reorder ((addr e, cell d c e S (ptr_of t0) q) :: (S, sn) :: cells (Some (addr e)) (paint Black t0) ++ K).
    eapply triple_post; [apply scrub_run|]. intros a s Hs.
    exists (paint Black t0), (scrubbed (cell d c e S (ptr_of t0) q)). split; [|apply inorder_paint].
    exists sn, (Some (addr e)). split; [done|]. split.
    + eapply view_elim; [..|exact Hs]; [done|]. cbn. solve_Permutation.
    + split; [by destruct t0|]. apply rb_without in Ht. destruct c; cbn [is_red] in Ht.
      * destruct Ht as [Ht Hb]. exists n. by rewrite paint_black.
      * destruct Ht as (m & -> & Ht). destruct (hue_of t0) eqn:Hh; [by eexists|]. exists m. by rewrite paint_black.
  - apply view_not_root; [done|]. intros Hroot. unfold view at 1. rewrite ptr_of_fork in *.
    apply run_root. rewrite decide_False by done.
    eapply run_perm; [exact Hperm|]. destruct C as [|f C]; [done|].
    eapply (run_is_red_at S i 1); [reflexivity|]. cell_simpl.
    eapply triple_seq; [apply (unlink_run S i pp f C (addr e) (ptr_of t0)); by cell_simpl|].
    rewrite decide_True by done.
    reorder ((addr e, cell d c e S (ptr_of t0) q) :: (S, sn) :: cells (Some (addr e)) t0 ++
      ctx_cells pp (f :: C) (ptr_of t0) ++ K).
    apply run_assoc. do 3 run1.
    reorder ((S, sn) :: cells (Some (addr e)) t0 ++ (addr e, cell d c e S (ptr_of t0) q) ::
      ctx_cells pp (f :: C) (ptr_of t0) ++ K).
    apply run_set_parent.
    reorder ((addr e, cell d c e S (ptr_of t0) q) :: (S, under q t0 sn) :: cells q t0 ++
      ctx_cells pp (f :: C) (ptr_of t0) ++ K).
    eapply triple_seq; [apply scrub_run|].
    eapply view_intro; [| |eapply triple_post; [apply (finish_run fuel (if is_red c then n else Nat.pred n)
      (under q t0 sn) pp (f :: C) t0 ((addr e, scrubbed (cell d c e S (ptr_of t0) q)) :: K) (is_red c))|]].
    + done.
    + fold q. solve_Permutation.
    + by destruct t0.
    + intros ->. done.
    + apply rb_without in Ht. destruct c; cbn [is_red] in *.
      * by destruct Ht.
      * destruct Ht as (m & -> & Ht). by split.
    + unfold todo. destruct (hue_of t0); lia.
    + intros a s (t' & Hs & Hin). by exists t', (scrubbed (cell d c e S (ptr_of t0) q)).
Qed.

Lemma take_place_run sn pp C c c' e e' a b p l r2 p2 K :
  triple (on (top C (addr e)) ((S, sn) :: (addr e', cell L c' e' a b p) ::
      (addr e, cell L c e (ptr_of l) (ptr_of r2) (hole_parent pp C)) :: ctx_cells pp C (addr e) ++
      cells (Some (addr e)) l ++ cells p2 r2 ++ K))
    (take_place (Some (addr e')) (Some (addr e)))
    (λ _, on (top C (addr e')) ((S, sn) :: (addr e', cell L c e' (ptr_of l) (ptr_of r2) (hole_parent pp C)) ::
      (addr e, cell L c e (ptr_of l) (ptr_of r2) (hole_parent pp C)) :: ctx_cells pp C (addr e') ++
      cells (Some (addr e')) l ++ cells (Some (addr e')) r2 ++ K)).
Proof.
  unfold take_place. set (q := hole_parent pp C). set (ne := cell L c e (ptr_of l) (ptr_of r2) q).
  do 7 run1. cbn [cell child with_child with_parent RbTree.left RbTree.right RbTree.parent key color data ne].
  cbn [with_color key RbTree.left RbTree.right RbTree.parent data].
  change (Node (ekey e') (Some (ptr_of l)) (Some (ptr_of r2)) q (code c) (edata e'))
    with (cell L c e' (ptr_of l) (ptr_of r2) q).
  change (Node (ekey e) (Some (ptr_of l)) (Some (ptr_of r2)) q (code c) (edata e)) with ne.
  reorder ((S, sn) :: (addr e, ne) :: ctx_cells pp C (addr e) ++
    (addr e', cell L c e' (ptr_of l) (ptr_of r2) q) :: cells (Some (addr e)) l ++ cells p2 r2 ++ K).
  eapply triple_seq; [by apply (replace_child_run S i L pp C (addr e) (addr e'))|].
  reorder ((addr e', cell L c e' (ptr_of l) (ptr_of r2) q) :: (S, sn) :: (addr e, ne) :: ctx_cells pp C (addr e') ++
    cells (Some (addr e)) l ++ cells p2 r2 ++ K).
  run1. run1. run1. cbn [child cell RbTree.left].
  reorder ((S, sn) :: cells (Some (addr e)) l ++ (addr e', cell L c e' (ptr_of l) (ptr_of r2) q) :: (addr e, ne) ::
    ctx_cells pp C (addr e') ++ cells p2 r2 ++ K).
  eapply triple_seq; [apply reparent_run|].
  reorder ((addr e', cell L c e' (ptr_of l) (ptr_of r2) q) :: (S, sn) :: (addr e, ne) :: ctx_cells pp C (addr e') ++
    cells (Some (addr e')) l ++ cells p2 r2 ++ K).
  run1. run1. run1. cbn [child cell RbTree.right].
  reorder ((S, sn) :: cells p2 r2 ++ (addr e', cell L c e' (ptr_of l) (ptr_of r2) q) :: (addr e, ne) ::
    ctx_cells pp C (addr e') ++ cells (Some (addr e')) l ++ K).
  eapply triple_post; [apply reparent_run|]. intros x s Hs. eapply on_perm; [|exact Hs]. solve_Permutation.
Qed.

#[local] Transparent find_subst.

Lemma plug_not_E D c l e r : plug D (T c l e r) ≠ E.
Proof.
  revert c l e r. induction D as [|[[] c' e' u] D IH]; intros c l e r; [done|..]; cbn; apply IH.
Qed.

Lemma ptr_of_inside q t : t ≠ E → ptr_of t ∈ (cells q t).*1.
Proof. destruct t; [done|]. intros _. cbn. left. Qed.

(** A node with two children: the search for its successor. *)
Lemma find_subst_two fuel sn pp C c l e D c' e' r' K :
  l ≠ E → Forall (λ f, fside f = L) D → (length D < fuel)%nat →
  triple (view sn pp C (T c l e (plug D (T c' E e' r'))) K) (find_subst fuel (Some (addr e)))
    (λ r s, r = (Some (ptr_of r'), Some (addr e')) ∧
       view sn pp (D ++ Frame R c e l :: C) (T c' E e' r') K s).
Proof.
  intros Hl HD Hf. set (r := plug D (T c' E e' r')). apply run_ne. intros Hnd.
  assert (Hperm : (S, sn) :: ctx_cells pp C (ptr_of (T c l e r)) ++ cells (hole_parent pp C) (T c l e r) ++ K ≡ₚ
    (addr e, cell L c e (ptr_of l) (ptr_of r) (hole_parent pp C)) :: (S, sn) :: cells (Some (addr e)) l ++
      cells (Some (addr e)) r ++ ctx_cells pp C (addr e) ++ K).
  { cbn [RbShape.ptr_of RbShape.cells]. solve_Permutation. }
  rewrite Hperm in Hnd. cbn in Hnd. apply NoDup_cons in Hnd as [_ Hnd]. apply NoDup_cons in Hnd as [HS _].
  rewrite !fmap_app in HS.
  assert (ptr_of l ≠ S) as HlS.
  { intros Heq. pose proof (ptr_of_inside (Some (addr e)) l Hl) as Hin. rewrite Heq in Hin.
    apply HS, elem_of_app. by left. }
  assert (ptr_of r ≠ S) as HrS.
  { intros Heq. pose proof (ptr_of_inside (Some (addr e)) r (plug_not_E _ _ _ _ _)) as Hin.
    rewrite Heq in Hin. apply HS, elem_of_app. right. apply elem_of_app. by left. }
  eapply run_perm; [exact Hperm|]. unfold find_subst. apply run_sentinel. do 3 run1.
  cbn [child cell RbTree.left]. rewrite decide_False by congruence. do 3 run1.
  cbn [child cell RbTree.right]. rewrite decide_False by congruence.
  eapply triple_bind.
  { eapply view_intro; [| |apply (leftmost_run fuel sn pp (Frame R c e l :: C) D c' e' r' K HD Hf)].
    - done.
    - cbn [RbShape.ctx_cells fentry fside fhue fother hole_parent cell]. solve_Permutation. }
  intros x. apply (triple_pure _ (x = Some (addr e'))); [by intros s [? _]|]. intros ->.
  eapply triple_pre; [intros s [_ Hs]; exact Hs|]. set (C' := D ++ Frame R c e l :: C).
  unfold view. cbn [RbShape.ptr_of RbShape.cells].
  assert (Hperm2 : (S, sn) :: ctx_cells pp C' (addr e') ++
      ((addr e', cell L c' e' S (ptr_of r') (hole_parent pp C')) :: [] ++ cells (Some (addr e')) r') ++ K ≡ₚ
    (addr e', cell L c' e' S (ptr_of r') (hole_parent pp C')) :: (S, sn) ::
      ctx_cells pp C' (addr e') ++ cells (Some (addr e')) r' ++ K) by solve_Permutation.
  eapply run_perm; [exact Hperm2|]. do 3 run1. cbn [child cell RbTree.left].
  rewrite decide_False by (intros H; by apply H). do 3 run1. cbn [child cell RbTree.right].
  apply triple_ret. intros s Hs. split; [done|]. eapply on_perm; [|exact Hs]. by symmetry.
Qed.

#[local] Opaque find_subst.

Lemma ctx_cells_app pp D C h :
  ctx_cells pp (D ++ C) h = ctx_cells (hole_parent pp C) D h ++ ctx_cells pp C (top D h).
Proof.
  revert h. induction D as [|f D IH]; intros h; [done|]. cbn. rewrite IH.
  assert (hole_parent pp (D ++ C) = hole_parent (hole_parent pp C) D) as -> by (by destruct D).
  by rewrite <-app_assoc.
Qed.

Lemma top_app D C h : top (D ++ C) h = top C (top D h).
Proof. revert h. induction D as [|f D IH]; intros h; cbn; auto. Qed.

#[local] Opaque take_place.

(** The place a successor is taken from, once its child has moved up. *)
Lemma adopt_run {A} pp C c l e D e' r' n sn K (m : rbt A) Q :
  let q := hole_parent pp C in
  let C' := D ++ Frame R c e l :: C in
  let q2 := match D with [] => Some (addr e') | f :: _ => Some (addr (fentry f)) end in
  let p2 := match D with [] => Some (addr e') | _ :: _ => Some (addr e) end in
  parent n = hole_parent pp C' →
  triple (on (top C (addr e)) ((S, under q2 r' sn) :: (addr e', n) ::
      (addr e, cell L c e (ptr_of l) (ptr_of (plug D r')) q) :: ctx_cells pp C (addr e) ++
      cells (Some (addr e)) l ++ cells p2 (plug D r') ++ K)) m Q →
  triple (on (top C (addr e)) ((S, sn) :: (addr e', n) :: ctx_cells pp C' (ptr_of r') ++ cells (Some (addr e')) r' ++ K))
    (sp ← parent_of (Some (addr e'));
     (if decide (sp = Some (addr e)) then set_parent (Some (ptr_of r')) (Some (addr e'))
      else set_parent (Some (ptr_of r')) sp);; m) Q.
Proof.
  intros q C' q2 p2 Hp Hm. apply run_ne. intros Hnd. do 3 run1. rewrite Hp.
  assert (Hctx : ctx_cells pp C' (ptr_of r') ≡ₚ
    (addr e, cell L c e (ptr_of l) (ptr_of (plug D r')) q) :: ctx_cells (Some (addr e)) D (ptr_of r') ++
    cells (Some (addr e)) l ++ ctx_cells pp C (addr e)).
  { unfold C'. rewrite ctx_cells_app, ptr_of_plug. cbn [hole_parent RbShape.ctx_cells fentry fside fhue fother].
    change (cell R c e (top D (ptr_of r')) (ptr_of l) (hole_parent pp C))
      with (cell L c e (ptr_of l) (top D (ptr_of r')) q). solve_Permutation. }
  assert (Hplug : cells p2 (plug D r') ≡ₚ ctx_cells (Some (addr e)) D (ptr_of r') ++ cells q2 r').
  { destruct D as [|f D]; [done|]. unfold p2. by rewrite cells_plug. }
  assert (triple (on (top C (addr e)) ((S, sn) :: cells (Some (addr e')) r' ++ (addr e', n) ::
      (addr e, cell L c e (ptr_of l) (ptr_of (plug D r')) q) :: ctx_cells (Some (addr e)) D (ptr_of r') ++
      cells (Some (addr e)) l ++ ctx_cells pp C (addr e) ++ K)) (set_parent (Some (ptr_of r')) q2;; m) Q) as Hgo.
  { apply run_set_parent. eapply run_perm; [|exact Hm]. rewrite Hplug. solve_Permutation. }
  eapply run_perm; [rewrite Hctx; reflexivity|].
  assert (Hperm : (S, sn) :: (addr e', n) ::
      ((addr e, cell L c e (ptr_of l) (ptr_of (plug D r')) q) :: ctx_cells (Some (addr e)) D (ptr_of r') ++
       cells (Some (addr e)) l ++ ctx_cells pp C (addr e)) ++ cells (Some (addr e')) r' ++ K ≡ₚ
    (S, sn) :: cells (Some (addr e')) r' ++ (addr e', n) ::
      (addr e, cell L c e (ptr_of l) (ptr_of (plug D r')) q) :: ctx_cells (Some (addr e)) D (ptr_of r') ++
      cells (Some (addr e)) l ++ ctx_cells pp C (addr e) ++ K) by solve_Permutation.
  eapply run_perm; [exact Hperm|]. destruct D as [|f D].
  - cbn [app hole_parent fentry C']. rewrite decide_True by done. exact Hgo.
  - cbn [app hole_parent C']. rewrite decide_False; [exact Hgo|]. intros [= Heq].
    rewrite Hctx in Hnd. cbn in Hnd. do 2 apply NoDup_cons in Hnd as [_ Hnd].
    apply NoDup_cons in Hnd as [Hin _]. apply Hin. rewrite <-Heq. left.
Qed.

(** Around [subst] nothing but the entry changes. *)
Lemma unlink_ctx_run f C c' e' r' sn pp K :
  triple (view sn pp (f :: C) (T c' E e' r') K) (unlink (Some (addr e')) (Some (ptr_of r')))
    (λ _, on (top C (addr (fentry f))) ((S, sn) :: (addr e', cell L c' e' S (ptr_of r') (Some (addr (fentry f)))) ::
      ctx_cells pp (f :: C) (ptr_of r') ++ cells (Some (addr e')) r' ++ K)).
Proof.
  unfold view. cbn [top RbShape.ptr_of hole_parent].
  eapply run_perm; [|by apply (unlink_run S i pp f C (addr e') (ptr_of r'))].
  cbn [RbShape.cells RbShape.ptr_of app]. solve_Permutation.
Qed.

Lemma view_ne {A} sn pp C c l e D c' e' r' K (m : rbt A) Q :
  (addr e' ≠ addr e → triple (view sn pp (D ++ Frame R c e l :: C) (T c' E e' r') K) m Q) →
  triple (view sn pp (D ++ Frame R c e l :: C) (T c' E e' r') K) m Q.
Proof.
  intros Hm. apply run_ne. intros Hnd. apply Hm. cbn [RbShape.cells RbShape.ptr_of] in Hnd.
  rewrite ctx_cells_app in Hnd. cbn [RbShape.ctx_cells fentry fside fhue fother] in Hnd.
  eapply (ne_of_perm _ ((S, sn) :: (addr e, cell R c e (top D (addr e')) (ptr_of l) (hole_parent pp C)) ::
    ctx_cells (Some (addr e)) D (addr e') ++ (cells (Some (addr e)) l ++ ctx_cells pp C (addr e)) ++
    ([] ++ cells (Some (addr e')) r') ++ K)); [exact Hnd| |right; left].
  cbn [hole_parent]. solve_Permutation.
Qed.

Lemma delete_two fuel sn pp C c l e D c' e' r' K :
  let t := plug C (T c l e (plug D (T c' E e' r'))) in
  l ≠ E → Forall (λ f, fside f = L) D → color sn = 0 → red_black t → (depth t < fuel)%nat →
  triple (view sn pp C (T c l e (plug D (T c' E e' r'))) K) (ngx_rbtree_delete fuel (Some (addr e)))
    (λ _ s, ∃ t' n', holds S i t' ((addr e, n') :: K) s ∧
       inorder t' = lefts C ++ inorder l ++ inorder (plug D (T c' E e' r')) ++ rights C).
Proof.
  intros t Hl HD Hsn Hrb Hf. unfold ngx_rbtree_delete.
  assert (Ht : t = plug (D ++ Frame R c e l :: C) (T c' E e' r')) by (by rewrite plug_app).
  set (C' := D ++ Frame R c e l :: C) in *.
  assert (Hlen : (length C' + 1 ≤ depth t)%nat).
  { rewrite Ht. etrans; [|apply depth_plug]. cbn. lia. }
  rewrite Ht in Hrb. apply rb_unplug in Hrb as (n & HC & Hn & Hfit).
  assert (length D < fuel)%nat by (unfold C' in Hlen; rewrite length_app in Hlen; cbn in Hlen; lia).
  eapply triple_bind; [by apply find_subst_two|]. intros r.
  apply (triple_pure _ (r = (Some (ptr_of r'), Some (addr e')))); [by intros s [? _]|]. intros ->. cbn [fst snd].
  eapply triple_pre; [intros s [_ Hs]; exact Hs|]. fold C'.
  assert (HC' : C' ≠ []) by (unfold C'; by destruct D).
  apply view_ne. intros Hee. fold C'. apply view_not_root; [done|]. intros Hroot.
  set (q := hole_parent pp C).
  unfold view at 1. apply run_root. rewrite decide_False by done.
  cbn [RbShape.cells RbShape.ptr_of].
  assert (Hperm : (S, sn) :: ctx_cells pp C' (addr e') ++
      ((addr e', cell L c' e' S (ptr_of r') (hole_parent pp C')) :: [] ++ cells (Some (addr e')) r') ++ K ≡ₚ
    (addr e', cell L c' e' S (ptr_of r') (hole_parent pp C')) :: (S, sn) ::
      ctx_cells pp C' (addr e') ++ cells (Some (addr e')) r' ++ K) by solve_Permutation.
  eapply run_perm; [exact Hperm|]. run1.
  assert (Htop : ∀ h, top C' h = top C (addr e)) by (intros h; unfold C'; by rewrite top_app).
  assert (Hsplit : ∃ f C1, C' = f :: C1) by (unfold C'; destruct D; by eexists _, _).
  destruct Hsplit as (f & C1 & HfC).
  assert (Hp : parent (cell L c' e' S (ptr_of r') (Some (addr (fentry f)))) = hole_parent pp C') by (by rewrite HfC).
  eapply triple_seq.
  { eapply (view_intro S i _ _ sn pp (f :: C1) (T c' E e' r') K); [by rewrite HfC| |apply unlink_ctx_run].
    rewrite <-HfC. cbn [RbShape.cells RbShape.ptr_of]. solve_Permutation. }
  rewrite decide_False by congruence. change (top C1 (addr (fentry f))) with (top (f :: C1) (addr e)).
  rewrite <-HfC, Htop.
  eapply triple_equiv; [apply prog_assoc|].
  eapply triple_equiv; [apply prog_bind_proper; [intros sp; apply prog_assoc|reflexivity]|].
  refine (adopt_run pp C c l e D e' r' _ sn K (take_place (Some (addr e')) (Some (addr e));;
    scrub (Some (addr e));; if is_red c' then mret () else fixup fuel (Some (ptr_of r'))) _ Hp _).
  set (q2 := match D with [] => Some (addr e') | g :: _ => Some (addr (fentry g)) end).
  eapply triple_seq; [apply take_place_run|].
  set (ne := cell L c e (ptr_of l) (ptr_of (plug D r')) (hole_parent pp C)).
  reorder ((addr e, ne) :: (S, under q2 r' sn) ::
    (addr e', cell L c e' (ptr_of l) (ptr_of (plug D r')) q) :: ctx_cells pp C (addr e') ++
    cells (Some (addr e')) l ++ cells (Some (addr e')) (plug D r') ++ K).
  eapply triple_seq; [apply scrub_run|].
  set (C2 := D ++ Frame R c e' l :: C).
  assert (HpC2 : hole_parent pp C2 = q2) by (unfold C2, q2; by destruct D).
  eapply view_intro; [| |eapply triple_post; [apply (finish_run fuel (if is_red c' then n else Nat.pred n)
      (under q2 r' sn) pp C2 r' ((addr e, scrubbed ne) :: K) (is_red c'))|]].
  - unfold C2. by rewrite top_app.
  - rewrite HpC2. unfold C2 at 1. rewrite ctx_cells_app, ptr_of_plug, cells_plug.
    cbn [hole_parent RbShape.ctx_cells fentry fside fhue fother].
    change (cell R c e' (top D (ptr_of r')) (ptr_of l) (hole_parent pp C))
      with (cell L c e' (ptr_of l) (top D (ptr_of r')) q).
    assert (hole_parent (Some (addr e')) D = q2) as -> by (unfold q2; by destruct D). solve_Permutation.
  - by destruct r'.
  - intros ->. by rewrite HpC2.
  - apply (rb_without n L) in Hn. apply rb_ctx_entry with (e' := e') in HC. destruct c'; cbn [is_red] in *.
    + destruct Hn. by split_and!.
    + destruct Hn as (k & -> & Hn). by split.
  - unfold todo, C2. unfold C' in Hlen. rewrite length_app in *. cbn [length] in *. destruct (hue_of r'); lia.
  - intros a s (t' & Hs & Hin). exists t', (scrubbed ne). split; [done|]. rewrite Hin. unfold C2.
    rewrite !inorder_plug, lefts_app, rights_app. cbn. rewrite (lefts_left D HD). cbn.
    by rewrite app_nil_r, <-!app_assoc.
Qed.

#[local] Transparent find_subst.

Lemma delete_triple fuel t e K :
  e ∈ inorder t → (depth t < fuel)%nat →
  triple (holds S i t K) (ngx_rbtree_delete fuel (Some (addr e)))
    (λ _ s, ∃ t' n' A B, holds S i t' ((addr e, n') :: K) s ∧
       inorder t = A ++ e :: B ∧ inorder t' = A ++ B).
Proof.
  intros He Hf s (sn & pp & Hsn & Hs & Hrb). revert s Hs.
  destruct (plug_in e t He) as (C & c & l & r & ->).
  assert (Hpost : ∀ l', inorder (plug C (T c l e r)) = (lefts C ++ inorder l) ++ e :: inorder r ++ rights C ∧
    (inorder l' = inorder l ++ inorder r → inorder (plug C l') = (lefts C ++ inorder l) ++ inorder r ++ rights C)).
  { intros l'. rewrite !inorder_plug. cbn. rewrite <-!app_assoc. split; [done|]. intros ->. by rewrite <-app_assoc. }
  assert (Hgoal : triple (view sn pp C (T c l e r) K) (ngx_rbtree_delete fuel (Some (addr e)))
    (λ _ s, ∃ t' n', holds S i t' ((addr e, n') :: K) s ∧
       inorder t' = (lefts C ++ inorder l) ++ inorder r ++ rights C)).
  { destruct l as [|cl ll el rl]; [|destruct r as [|cr lr er rr]].
    - eapply triple_post; [by apply (delete_one L fuel sn pp C c e r K); [left|..]|].
      intros a s (t' & n' & Hs & Hin). exists t', n'. split; [done|]. rewrite Hin. by apply Hpost.
    - eapply triple_post; [by apply (delete_one R fuel sn pp C c e (T cl ll el rl) K); [right|..]|].
      intros a s (t' & n' & Hs & Hin). exists t', n'. split; [done|]. rewrite Hin. apply Hpost. by rewrite app_nil_r.
    - set (l := T cl ll el rl) in *. set (r := T cr lr er rr) in *.
      destruct (leftmost r) as (D & c' & e' & r' & Hr & HD & _); [done|]. rewrite Hr in *.
      eapply triple_post; [by apply (delete_two fuel sn pp C c l e D c' e' r' K)|].
      intros a s (t' & n' & Hs & Hin). exists t', n'. split; [done|]. by rewrite Hin, <-app_assoc. }
  intros s Hs. destruct (Hgoal s) as (a & s' & Hrun & t' & n' & Ht' & Hin); [by rewrite view_plug|].
  exists a, s'. split; [done|]. exists t', n', (lefts C ++ inorder l), (inorder r ++ rights C).
  split_and!; [done|by apply Hpost|done].
Qed.

(** ** The smallest node and the next one *)

Lemma min_triple fuel t K :
  t ≠ E → (depth t < fuel)%nat →
  triple (holds S i t K) (ngx_rbtree_min fuel (Some (ptr_of t)))
    (λ r s, ∃ e B, inorder t = e :: B ∧ r = Some (addr e) ∧ holds S i t K s).
Proof.
  intros Ht Hf s (sn & pp & Hsn & Hs & Hrb). revert s Hs.
  destruct (leftmost t Ht) as (D & c & e & r & -> & HD & Hlen).
  eapply triple_post; [apply (leftmost_run fuel sn pp [] D c e r K HD); lia|].
  intros x s [-> Hs]. exists e, (inorder r ++ rights D). split.
  { rewrite inorder_plug, (lefts_left D HD). done. }
  split; [done|]. exists sn, pp. split; [done|]. split; [|done].
  rewrite app_nil_r in Hs. by rewrite <-view_plug.
Qed.

Lemma climb_run fuel sn pp C t K :
  t ≠ E → (length C < fuel)%nat →
  triple (view sn pp C t K) (climb fuel (Some (ptr_of t)))
    (λ r s, r = addr <$> head (rights C) ∧ view sn pp C t K s).
Proof.
  intros Ht. revert C t Ht. induction fuel as [|fuel IH]; intros C t Ht Hf; [lia|]. cbn [climb].
  destruct t as [|c l e r]; [done|]. clear Ht. set (t := T c l e r).
  assert (Hperm : (S, sn) :: ctx_cells pp C (ptr_of t) ++ cells (hole_parent pp C) t ++ K ≡ₚ
    (addr e, cell L c e (ptr_of l) (ptr_of r) (hole_parent pp C)) :: (S, sn) ::
      ctx_cells pp C (addr e) ++ (cells (Some (addr e)) l ++ cells (Some (addr e)) r) ++ K).
  { cbn [t RbShape.ptr_of RbShape.cells]. solve_Permutation. }
  destruct (decide (C = [])) as [->|HCnil].
  - unfold view at 1. apply run_root. eapply run_perm; [exact Hperm|]. cbn [t RbShape.ptr_of top]. do 3 run1.
    rewrite decide_True by done. apply triple_ret. intros s Hs. split; [done|].
    eapply view_elim; [..|exact Hs]; [done|]. by symmetry.
  - apply view_not_root; [done|]. intros Hroot. unfold view at 1. apply run_root.
    eapply run_perm; [exact Hperm|]. cbn [t RbShape.ptr_of]. do 3 run1. fold t. rewrite decide_False by done.
    destruct C as [|[d cf ef u] C]; [done|].
    cbn [RbShape.ctx_cells fentry fside fhue fother hole_parent] in *. apply run_ne. intros Hnd.
    assert (Hperm2 : (addr e, cell L c e (ptr_of l) (ptr_of r) (Some (addr ef))) :: (S, sn) ::
        ((addr ef, cell d cf ef (addr e) (ptr_of u) (hole_parent pp C)) ::
         cells (Some (addr ef)) u ++ ctx_cells pp C (addr ef)) ++
        (cells (Some (addr e)) l ++ cells (Some (addr e)) r) ++ K ≡ₚ
      (addr ef, cell d cf ef (addr e) (ptr_of u) (hole_parent pp C)) :: (S, sn) ::
        cells (Some (addr ef)) u ++ cells (Some (addr ef)) t ++ ctx_cells pp C (addr ef) ++ K).
    { cbn [t RbShape.cells]. solve_Permutation. }
    assert (addr e ≠ ptr_of u) as Hne.
    { eapply ne_ptr_of; [exact Hnd|]. cbn [app]. rewrite <-app_assoc.
      transitivity ((addr e, cell L c e (ptr_of l) (ptr_of r) (Some (addr ef))) :: (S, sn) :: cells (Some (addr ef)) u ++
        (addr ef, cell d cf ef (addr e) (ptr_of u) (hole_parent pp C)) :: ctx_cells pp C (addr ef) ++
        (cells (Some (addr e)) l ++ cells (Some (addr e)) r) ++ K); [solve_Permutation|reflexivity]. }
    eapply run_perm; [exact Hperm2|]. do 3 run1. destruct d.
    + change (child L (cell L cf ef (addr e) (ptr_of u) (hole_parent pp C))) with (Some (addr e)).
      rewrite decide_True by done. apply triple_ret. intros s Hs. split; [done|].
      eapply view_elim; [..|exact Hs]; [done|]. rewrite <-Hperm2. by symmetry.
    + change (child L (cell R cf ef (addr e) (ptr_of u) (hole_parent pp C))) with (Some (ptr_of u)).
      rewrite decide_False by congruence. 
      eapply view_intro; [| |eapply triple_post; [apply (IH C (fork R cf t ef u)); [done|cbn in Hf; lia]|]].
      * done.
      * rewrite ptr_of_fork, cells_fork. cbn [t RbShape.ptr_of]. solve_Permutation.
      * intros x s [-> Hs]. split; [done|]. eapply view_elim; [..|exact Hs]; [done|].
        rewrite ptr_of_fork, cells_fork. cbn [RbShape.ctx_cells fentry fside fhue fother hole_parent].
        solve_Permutation.
Qed.

Lemma holds_nodup t K s : holds S i t K s → NoDup (addr <$> inorder t).
Proof.
  intros (sn & pp & _ & (_ & _ & _ & Hnd & _) & _). cbn in Hnd. rewrite fmap_app, cells_addrs in Hnd.
  apply NoDup_cons in Hnd as [_ Hnd]. by apply NoDup_app in Hnd as [Hnd _].
Qed.

Lemma split_unique (A A' B B' : list entry) e :
  A ++ e :: B = A' ++ e :: B' → NoDup (addr <$> A ++ e :: B) → A = A' ∧ B = B'.
Proof.
  revert A'. induction A as [|a A IH]; intros [|a' A'] Heq Hnd; cbn in *; simplify_eq; [done|..].
  - apply NoDup_cons in Hnd as [Hin _]. destruct Hin. rewrite fmap_app. cbn. set_solver.
  - apply NoDup_cons in Hnd as [Hin _]. destruct Hin. rewrite fmap_app. cbn. set_solver.
  - apply NoDup_cons in Hnd as [_ Hnd]. destruct (IH A') as [-> ->]; done.
Qed.

Lemma next_triple fuel t e A B K :
  inorder t = A ++ e :: B → (depth t < fuel)%nat →
  triple (holds S i t K) (ngx_rbtree_next fuel (Some (addr e)))
    (λ r s, r = addr <$> head B ∧ holds S i t K s).
Proof.
  intros Hin Hf s Hh. pose proof (holds_nodup t K s Hh) as Hnd. destruct Hh as (sn & pp & Hsn & Hs & Hrb).
  destruct (plug_in e t ltac:(rewrite Hin; set_solver)) as (C & c & l & r & Ht).
  assert (B = inorder r ++ rights C) as ->.
  { rewrite Ht, inorder_plug in Hin. cbn in Hin. rewrite <-app_assoc in Hin. cbn in Hin. rewrite app_assoc in Hin.
    rewrite Ht, inorder_plug in Hnd. cbn in Hnd. rewrite <-app_assoc in Hnd. cbn in Hnd. rewrite app_assoc in Hnd.
    by destruct (split_unique _ _ _ _ _ Hin Hnd). }
  clear Hin Hnd. pose proof (depth_plug C (T c l e r)) as Hdep. rewrite <-Ht in Hdep. cbn in Hdep.
  assert (Hback : ∀ m, view sn pp C (T c l e r) K m → holds S i t K m).
  { intros m Hm. exists sn, pp. split; [done|]. split; [|done]. rewrite Ht. by rewrite <-view_plug. }
  rewrite Ht, <-view_plug in Hs. revert s Hs.
  assert (Hgoal : triple (view sn pp C (T c l e r) K) (ngx_rbtree_next fuel (Some (addr e)))
    (λ x s, x = addr <$> head (inorder r ++ rights C) ∧ view sn pp C (T c l e r) K s)).
  2: { intros s Hs. destruct (Hgoal s Hs) as (x & s' & Hrun & -> & Hs'). eexists _, s'. split; [exact Hrun|]. auto. }
  unfold ngx_rbtree_next. apply run_ne. intros Hnd.
  assert (Hperm : (S, sn) :: ctx_cells pp C (ptr_of (T c l e r)) ++ cells (hole_parent pp C) (T c l e r) ++ K ≡ₚ
    (addr e, cell L c e (ptr_of l) (ptr_of r) (hole_parent pp C)) :: (S, sn) ::
      cells (Some (addr e)) r ++ ctx_cells pp C (addr e) ++ cells (Some (addr e)) l ++ K).
  { cbn [RbShape.ptr_of RbShape.cells]. solve_Permutation. }
  apply run_sentinel. eapply run_perm; [exact Hperm|]. do 3 run1. cbn [child cell RbTree.right].
  destruct r as [|cr lr er rr].
  - cbn [RbShape.ptr_of]. rewrite decide_False by (intros H; by apply H).
    eapply view_intro; [| |apply (climb_run fuel sn pp C (T c l e E) K); [done|lia]]; [done|].
    rewrite Hperm. reflexivity.
  - set (r := T cr lr er rr) in *. rewrite decide_True.
    2: { intros [= Heq]. rewrite Hperm in Hnd. cbn [fmap list_fmap] in Hnd. apply NoDup_cons in Hnd as [_ Hnd].
         apply NoDup_cons in Hnd as [HS _]. rewrite !fmap_app in HS.
         pose proof (ptr_of_inside (Some (addr e)) r ltac:(done)) as Hin. change (addr er = S) in Heq.
         cbn [r RbShape.ptr_of] in Hin. rewrite Heq in Hin. apply HS, elem_of_app. by left. }
    destruct (leftmost r) as (D & c' & e' & r' & Hr & HD & Hlen); [done|].
    assert (depth r ≤ depth t)%nat by (cbn in Hdep |- *; lia).
    eapply view_intro; [| |eapply triple_post; [rewrite Hr; apply (leftmost_run fuel sn pp (Frame R c e l :: C) D c' e' r' K HD); lia|]].
    + done.
    + rewrite <-Hr. cbn [RbShape.ctx_cells fentry fside fhue fother hole_parent cell]. solve_Permutation.
    + intros x s [-> Hs]. split.
      * rewrite Hr, inorder_plug, (lefts_left D HD). done.
      * rewrite view_plug. change (T c l e r) with (plug [Frame R c e l] r). rewrite Hr, <-!plug_app.
        rewrite view_plug in Hs. exact Hs.
Qed.
End delete.

(** C32: [ngx_rbtree_delete] takes the node out and no other, the rest keep their
    order, and the memory again holds a red-black tree; it returns, within
    [2 log2 (n + 1)] steps. *)
Theorem ngx_rbtree_delete_spec S i fuel t e K s :
  holds S i t K s → e ∈ inorder t → (2 * Nat.log2 (size t + 1) < fuel)%nat →
  ∃ s' t' n', ngx_rbtree_delete fuel (Some (addr e)) s = Done ((), s') ∧
    holds S i t' ((addr e, n') :: K) s' ∧ taken_out (inorder t) e (inorder t').
Proof.
  intros Hs He Hf. assert (Hrb : red_black t) by (destruct Hs as (? & ? & _ & _ & ?); done).
  pose proof (red_black_depth t Hrb) as Hd.
  destruct (delete_triple S i fuel t e K He ltac:(lia) s Hs) as ([] & s' & Hrun & t' & n' & A & B & ? & ? & ?).
  exists s', t', n'. split_and!; [done..|]. by exists A, B.
Qed.

Lemma ngx_rbtree_delete_spec_witness :
  ∃ s' t' n', ngx_rbtree_delete 5 (Some 3%positive) RbInsert.demo_state = Done ((), s') ∧
    holds 1 insert_timer_value t' [(3%positive, n'); (5%positive, Node 20 None None None 0 7)] s' ∧
    taken_out (inorder RbInsert.demo_tree) (Entry 3 20 0) (inorder t').
Proof.
  apply (ngx_rbtree_delete_spec 1 insert_timer_value 5 RbInsert.demo_tree (Entry 3 20 0) _ _ RbInsert.demo_holds);
    [right; left|cbn; lia].
Defined.

(** [ngx_rbtree_min] finds the first node of the order and
    [ngx_rbtree_next] the one after a given node, or [NULL] after the last. *)
Theorem ngx_rbtree_next_spec S i fuel t e o K s :
  holds S i t K s → followed_by (inorder t) e o → (2 * Nat.log2 (size t + 1) < fuel)%nat →
  (∃ s' e0, ngx_rbtree_min fuel (root s) s = Done (Some (addr e0), s') ∧ head (inorder t) = Some e0 ∧
     holds S i t K s') ∧
  ∃ s', ngx_rbtree_next fuel (Some (addr e)) s = Done (addr <$> o, s') ∧ holds S i t K s'.
Proof.
  intros Hs (A & B & Hin & ->) Hf. assert (Hrb : red_black t) by (destruct Hs as (? & ? & _ & _ & ?); done).
  pose proof (red_black_depth t Hrb) as Hd. split.
  - assert (root s = Some (ptr_of S t)) as -> by (destruct Hs as (? & ? & _ & (_ & ? & _) & _); done).
    destruct (min_triple S i fuel t K) with (s := s) as (x & s' & Hrun & e0 & B0 & Hin0 & -> & Hs'); [|lia|done|].
    { intros ->. by destruct A. }
    exists s', e0. by rewrite Hin0.
  - destruct (next_triple S i fuel t e A B K Hin ltac:(lia) s Hs) as (x & s' & Hrun & -> & Hs').
    by exists s'.
Qed.

Lemma ngx_rbtree_next_spec_witness :
  (∃ s' e0, ngx_rbtree_min 5 (root RbInsert.demo_state) RbInsert.demo_state = Done (Some (addr e0), s') ∧
     head (inorder RbInsert.demo_tree) = Some e0 ∧
     holds 1 insert_timer_value RbInsert.demo_tree [(5%positive, Node 20 None None None 0 7)] s') ∧
  ∃ s', ngx_rbtree_next 5 (Some 3%positive) RbInsert.demo_state = Done (Some 4%positive, s') ∧
    holds 1 insert_timer_value RbInsert.demo_tree [(5%positive, Node 20 None None None 0 7)] s'.
Proof.
  apply (ngx_rbtree_next_spec 1 insert_timer_value 5 RbInsert.demo_tree (Entry 3 20 0)
    (Some (Entry 4 30 0)) _ _ RbInsert.demo_holds); [|cbn; lia].
  by exists [Entry 2 10 0], [Entry 4 30 0].
Defined.

End RbDelete.
