(* ===== verification/RbtTimer.v ===== *)
(** The timer front end on the red-black tree: src/timer/rbt-timer.h. *)
From S2P Require Import Prelude TimerQueue Clock Hoare RbTree RbShape RbRun RbInsert RbDelete.
Import RbTree RbShape RbRun RbInsert RbDelete.

Module RbtTimer.

Definition current_time := Clock.current_time.

(** The global [timer] with the memory of its nodes, and the [handler] fields of
    the [timer_entry_t]s, which start with their [rbnode]. *)
Record timers := Timers {
  timer : ngx_rbtree;
  handlers : gmap ptr Z;
}.
Definition set_timer t (s : timers) := Timers t (handlers s).
Definition set_handlers h (s : timers) := Timers (timer s) h.
Definition on_tree {A} (m : prog ngx_rbtree A) : prog timers A := zoom timer set_timer m.

(** The loops of rbtree.c take at most [2 log2 (n + 1)] steps, and no machine
    holds 2^63 nodes. *)
Definition tree_fuel : nat := 128.

Definition init_timer (sentinel : ptr) : prog timers unit :=
  on_tree (ngx_rbtree_init (Some sentinel) insert_timer_value).

(** [te] is what [malloc] returns; [memset] through [NULL] is undefined. *)
Definition add_timer (te : option ptr) (now msec func : Z) : prog timers (option ptr) :=
  match te with
  | None => undef
  | Some te =>
      on_tree (modS (λ t, set_nodes (<[te := Node 0 None None None 0 0]> (nodes t)) t));;
      modS (λ s, set_handlers (<[te := func]> (handlers s)) s);;
      let msec := u32 (msec + now) in
      on_tree (wr (Some te) (with_key msec));;
      on_tree (ngx_rbtree_insert tree_fuel (Some te));;
      mret (Some te)
  end.

Definition free (te : ptr) : prog timers unit :=
  on_tree (rd (Some te));;
  on_tree (modS (λ t, set_nodes (delete te (nodes t)) t));;
  modS (λ s, set_handlers (delete te (handlers s)) s).

Definition del_timer (te : ptr) : prog timers unit :=
  on_tree (ngx_rbtree_delete tree_fuel (Some te));;
  free te.

Definition find_nearest_expire_timer (now : Z) : prog timers Z :=
  r ← gets (root ∘ timer);
  sen ← gets (sentinel ∘ timer);
  if decide (r = sen) then mret (-1)
  else
    node ← on_tree (ngx_rbtree_min tree_fuel r);
    k ← on_tree (key_of node);
    Clock.nearest k now.

(** Returns the timers whose handlers ran, in order; [call] is the effect of a
    handler. *)
Fixpoint expire_timer (call : ptr → prog timers unit) (fuel : nat) (now : Z) :
    prog timers (list ptr) :=
  match fuel with
  | O => out_of_fuel
  | S fuel =>
      r ← gets (root ∘ timer);
      sen ← gets (sentinel ∘ timer);
      if decide (r = sen) then mret [] else
      node ← on_tree (ngx_rbtree_min tree_fuel r);
      k ← on_tree (key_of node);
      if decide (k > now) then mret [] else
      te ← getsO (λ _, node);
      call te;;
      on_tree (ngx_rbtree_delete tree_fuel (Some te));;
      free te;;
      fired ← expire_timer call fuel now;
      mret (te :: fired)
  end.

(** ** The tree is a timer queue *)

Definition pending_of (e : entry) : pending := (addr e, ekey e).

(** The memory holds a tree of the timers [t], in the order of their keys, and
    the nodes [K]. *)
Record Rep (s : timers) (t : tree) K : Prop := {
  rep_holds : ∃ S, holds S insert_timer_value t K (timer s);
  rep_ordered : ordered (λ k, k) (inorder t);
  rep_small : Z.of_nat (size t) < 2 ^ 63;
}.

Definition rbt_inv (s : timers) (P : list pending) : Prop :=
  ∃ t K, Rep s t K ∧ pending_of <$> inorder t ≡ₚ P.

Lemma small_fuel n : Z.of_nat n < 2 ^ 63 → (2 * Nat.log2 (n + 1) < tree_fuel)%nat.
Proof.
  intros Hn. assert (Nat.log2 (n + 1) ≤ 63)%nat; [|unfold tree_fuel; lia].
  destruct n as [|n]; [cbn; lia|].
  apply Nat.lt_succ_r, Nat.log2_lt_pow2; [lia|]. apply Nat2Z.inj_lt. rewrite Nat2Z.inj_pow.
  change (Z.of_nat 2 ^ Z.of_nat 64) with (2 * 2 ^ 63). lia.
Qed.

#[local] Opaque tree_fuel.

Lemma on_tree_run {A} (m : prog ngx_rbtree A) s a t :
  m (timer s) = Done (a, t) → on_tree m s = Done (a, set_timer t s).
Proof. apply zoom_Done. Qed.

Lemma cells_key S p t e : e ∈ inorder t → ∃ n, (addr e, n) ∈ cells S p t ∧ key n = ekey e.
Proof.
  revert p. induction t as [|c l IHl e' r IHr]; intros p; cbn; [by intros ?%elem_of_nil|].
  intros [Hl|[->|Hr]%elem_of_cons]%elem_of_app.
  - destruct (IHl (Some (addr e')) Hl) as (n & Hn & ?). exists n. set_solver.
  - eexists. split; [left|done].
  - destruct (IHr (Some (addr e')) Hr) as (n & Hn & ?). exists n. set_solver.
Qed.

Lemma holds_key S i t K s e :
  holds S i t K s → e ∈ inorder t → key_of (Some (addr e)) s = Done (ekey e, s).
Proof.
  intros (sn & pp & _ & (_ & _ & _ & Hnd & Hm) & _) He.
  destruct (cells_key S pp t e He) as (n & Hn & Hk).
  unfold key_of. rewrite (bind_Done _ _ s n s); [by rewrite <-Hk|].
  apply getsO_Done. rewrite Hm. apply elem_of_list_to_map; [done|]. cbn. set_solver.
Qed.

Lemma holds_free S i t x n K s :
  holds S i t ((x, n) :: K) s →
  rd (Some x) s = Done (n, s) ∧ holds S i t K (set_nodes (delete x (nodes s)) s).
Proof.
  intros (sn & pp & Hsn & (Hs & Hr & Hi & Hm) & Hrb).
  cbn [RbShape.ctx_cells app hole_parent] in Hm.
  eapply (heap_perm _ _ ((x, n) :: (S, sn) :: cells S pp t ++ K)) in Hm; [|solve_Permutation].
  split.
  - apply getsO_Done. by apply (heap_lookup _ _ 0 _ _ Hm).
  - exists sn, pp. split; [done|]. split; [|done]. split_and!; [done..|].
    cbn [RbShape.ctx_cells app hole_parent nodes set_nodes]. by eapply heap_delete.
Qed.

Lemma holds_empty S i t K s : holds S i t K s → (root s = sentinel s ↔ t = E).
Proof.
  intros (sn & pp & _ & (-> & -> & _ & Hnd & _) & _). cbn [top RbShape.ctx_cells app] in *.
  destruct t as [|c l e r]; [done|]. split; [|done]. intros [= Heq]. cbn in Hnd, Heq.
  apply NoDup_cons in Hnd as [Hin _]. rewrite Heq in Hin. destruct Hin. left.
Qed.

Definition rbt_first : prog timers (option ptr) :=
  r ← gets (root ∘ timer);
  sen ← gets (sentinel ∘ timer);
  if decide (r = sen) then mret None else on_tree (ngx_rbtree_min tree_fuel r).

Lemma min_pure fuel r t x t' :
  ngx_rbtree_min fuel r t = Done (x, t') → t' = t ∧ is_Some x.
Proof.
  revert r. induction fuel as [|fuel IH]; intros r; [done|]. cbn [ngx_rbtree_min].
  rewrite gets_bind. unfold child_of. intros H. apply bind_inv in H as (l & t1 & H1 & H2).
  apply bind_inv in H1 as (n & t2 & Hrd & H1). injection H1 as <- <-.
  assert (t2 = t ∧ is_Some r) as [-> Hr].
  { destruct r as [r|]; [|done]. cbn in Hrd. unfold getsO in Hrd.
    destruct (nodes t !! r); [|done]. by injection Hrd as _ <-. }
  case_decide; [by injection H2 as <- <-|by apply IH in H2].
Qed.

Lemma rbt_first_run s t K :
  Rep s t K → rbt_first s = Done (addr <$> head (inorder t), s).
Proof.
  intros [[S Hh] Ho Hsm]. unfold rbt_first. rewrite !gets_bind. cbn.
  pose proof (holds_empty _ _ _ _ _ Hh) as Hempty. case_decide as Hr; [by apply Hempty in Hr as ->|].
  assert (root (timer s) = Some (ptr_of S t)) as Hroot by (destruct Hh as (? & ? & _ & (_ & ? & _) & _); done).
  assert (Hrb : red_black t) by (destruct Hh as (? & ? & _ & _ & ?); done).
  destruct (min_triple S insert_timer_value tree_fuel t K) with (s := timer s) as (x & t' & Hrun & e & B & Hin & -> & _).
  - intros HE. by apply Hr, Hempty.
  - pose proof (red_black_depth t Hrb). pose proof (small_fuel _ Hsm). lia.
  - done.
  - rewrite Hroot. rewrite (on_tree_run _ s _ _ Hrun), Hin. apply min_pure in Hrun as [-> _].
    by destruct s.
Qed.

Lemma rbt_remove_run s t K e :
  Rep s t K → e ∈ inorder t →
  ∃ s' t' A B, (on_tree (ngx_rbtree_delete tree_fuel (Some (addr e)));; free (addr e)) s = Done ((), s') ∧
    Rep s' t' K ∧ inorder t = A ++ e :: B ∧ inorder t' = A ++ B.
Proof.
  intros [[S Hh] Ho Hsm] He. pose proof (small_fuel _ Hsm) as Hf.
  assert (Hrb : red_black t) by (destruct Hh as (? & ? & _ & _ & ?); done).
  pose proof (red_black_depth t Hrb).
  destruct (delete_triple S insert_timer_value tree_fuel t e K He ltac:(lia) (timer s) Hh)
    as ([] & t1 & Hrun & t' & n' & A & B & Hh' & Hin & Hin').
  rewrite (bind_Done _ _ _ _ _ (on_tree_run _ s _ _ Hrun)).
  destruct (holds_free _ _ _ _ _ _ _ Hh') as [Hrd Hh2].
  eexists _, t', A, B. split; [|split; [split|done]].
  - unfold free. by rewrite (bind_Done _ _ _ _ _ (on_tree_run _ (set_timer t1 s) _ _ Hrd)).
  - by exists S.
  - rewrite Hin'. eapply StronglySorted_delete. rewrite <-Hin. exact Ho.
  - unfold size in *. rewrite Hin' , length_app. rewrite Hin, length_app in Hsm. cbn in Hsm. lia.
Qed.

#[export, program] Instance rbt_queue : TimerQueue timers := {|
  tq_inv := rbt_inv;
  tq_first := rbt_first;
  tq_time q := on_tree (key_of (Some q));
  tq_remove te := on_tree (ngx_rbtree_delete tree_fuel (Some te));; free te;
|}.
Next Obligation. intros s P P' HP (t & K & HR & HPt). exists t, K. split; [done|]. by etrans. Qed.
Next Obligation.
  intros s (t & K & HR & HP). symmetry in HP. apply Permutation_nil in HP. apply fmap_nil_inv in HP.
  rewrite (rbt_first_run s t K HR). by rewrite HP.
Qed.
Next Obligation.
  intros s P (t & K & HR & HP) HP0. rewrite (rbt_first_run s t K HR).
  pose proof (rep_ordered _ _ _ HR) as Ho. destruct (inorder t) as [|e l]; [by apply Permutation_nil in HP|].
  exists (addr e), (ekey e). split; [done|]. rewrite <-HP. split; [left|].
  apply Forall_forall. intros p Hp. apply list_elem_of_fmap in Hp as (y & -> & Hy). unfold earlier. cbn.
  inv Ho. apply elem_of_cons in Hy as [->|Hy]; [done|]. rewrite Forall_forall in *. auto.
Qed.
Next Obligation.
  intros s P q k (t & K & HR & HP) Hin. rewrite <-HP in Hin.
  apply list_elem_of_fmap in Hin as (e & [= -> ->] & He). destruct (rep_holds _ _ _ HR) as [S Hh].
  rewrite (on_tree_run _ s _ _ (holds_key _ _ _ _ _ e Hh He)). by destruct s.
Qed.
Next Obligation.
  intros s q k P (t & K & HR & HP) Hfirst. rewrite (rbt_first_run s t K HR) in Hfirst.
  destruct (inorder t) as [|e l] eqn:Hin; [done|]. injection Hfirst as <-.
  destruct (rbt_remove_run s t K e HR) as (s' & t' & A & B & Hrun & HR' & Hin1 & Hin2); [rewrite Hin; left|].
  exists s'. split; [done|]. exists t', K. split; [done|]. rewrite Hin2.
  assert (Hk : ekey e = k ∨ (addr e, k) ∈ pending_of <$> l).
  { assert ((addr e, k) ∈ pending_of <$> e :: l) as Hk by (rewrite HP; left).
    cbn in Hk. apply elem_of_cons in Hk as [Hk|Hk]; [left; by injection Hk|by right]. }
  destruct (rep_holds _ _ _ HR) as [S Hh]. pose proof (holds_nodup _ _ _ _ _ Hh) as Hnd.
  rewrite Hin in Hnd. destruct Hk as [<-|Hk].
  2: { cbn in Hnd. apply NoDup_cons in Hnd as [Hn _]. destruct Hn.
       apply list_elem_of_fmap in Hk as (y & Hy & Hyl). unfold pending_of in Hy. injection Hy as -> _.
       by apply list_elem_of_fmap_2. }
  assert (e :: l ≡ₚ e :: A ++ B) as HPe by (rewrite <-Hin, Hin1; by rewrite Permutation_middle).
  apply Permutation.Permutation_cons_inv in HPe. rewrite <-HPe. cbn in HP.
  by apply Permutation.Permutation_cons_inv in HP.
Qed.

(** The front end's loop is the shared one. *)
Lemma rbt_expire_loop call fuel now s :
  expire_timer call fuel now s = expire_loop call fuel now s.
Proof.
  revert s. induction fuel as [|fuel IH]; intros s; [done|].
  cbn [expire_timer expire_loop tq_first tq_time tq_remove rbt_queue]. unfold rbt_first.
  unfold mbind, prog_bind. cbn [gets]. unfold gets. case_decide; [done|].
  destruct (on_tree (ngx_rbtree_min tree_fuel ((root ∘ timer) s)) s) as [[x s1]| |] eqn:Hmin; try done.
  assert (is_Some x) as [te ->].
  { unfold on_tree, zoom in Hmin.
    destruct (ngx_rbtree_min tree_fuel ((root ∘ timer) s) (timer s)) as [[y t]| |] eqn:Hrun; try done.
    injection Hmin as <- _. by apply min_pure in Hrun as [_ ?]. }
  destruct (on_tree (key_of (Some te)) s1) as [[k s2]| |]; try done.
  case_decide; [done|]. cbn. unfold getsO. destruct (call te s2) as [[? s3]| |]; try done.
  destruct (on_tree (ngx_rbtree_delete tree_fuel (Some te)) s3) as [[? s4]| |]; try done.
  destruct (free te s4) as [[? s5]| |]; try done. by rewrite IH.
Qed.

(** While two keys are less than 2^31 apart the signed difference orders them. *)
Lemma key_before_near a b : - 2147483648 ≤ a - b < 2147483648 → key_before a b = bool_decide (a < b).
Proof.
  intros H. unfold key_before, i32. rewrite u32_idemp.
  destruct (Z_lt_dec a b) as [Hab|Hab]; [rewrite bool_decide_true by done|rewrite bool_decide_false by done].
  - assert (u32 (a - b) = a - b + 4294967296) as -> by word_lia.
    change (2 ^ 31) with 2147483648. rewrite decide_False by lia. change (2 ^ 32) with 4294967296.
    by apply Z.ltb_lt; lia.
  - rewrite (u32_small (a - b)) by lia. change (2 ^ 31) with 2147483648. rewrite decide_True by lia.
    by apply Z.ltb_ge; lia.
Qed.

(** The tree's empty state. *)
Lemma init_timer_run s S n K :
  heap_is (nodes (timer s)) ((S, n) :: K) →
  ∃ s', init_timer S s = Done ((), s') ∧ Rep s' E K.
Proof.
  intros Hm. unfold init_timer, ngx_rbtree_init. pose proof (heap_lookup _ _ 0 _ _ Hm eq_refl) as HS.
  eexists. split.
  - apply on_tree_run. unfold ngx_rbt_black. cbn [wr]. erewrite modO_bind by (by rewrite HS). done.
  - split; [|constructor|done]. exists S, (with_color 0 n), None.
    split; [done|]. split; [|split; [done|by exists 0%nat]]. split_and!; [done..|].
    by apply (heap_insert _ _ 0 _ n (with_color 0 n) Hm).
Qed.

(** [add_timer] of the tree front end adds exactly one pending timer, with
    expiry [msec + now] modulo 2^32, and keeps the tree in the order of the
    keys, as long as the new key is less than 2^31 away from the others.
    Without memory it writes through [NULL]. *)
Theorem rbt_add_timer_spec s t K te now msec func :
  Rep s t K → nodes (timer s) !! te = None → Z.of_nat (size t) + 1 < 2 ^ 63 →
  (∀ e, e ∈ inorder t → - 2147483648 ≤ u32 (now + msec) - ekey e < 2147483648) →
  add_timer None now msec func s = Undef ∧
  ∃ s' t', add_timer (Some te) now msec func s = Done (Some te, s') ∧ Rep s' t' K ∧
    pending_of <$> inorder t' ≡ₚ (te, u32 (now + msec)) :: (pending_of <$> inorder t) ∧
    handlers s' !! te = Some func.
Proof.
  intros [[S Hh] Ho Hsm] Hte Hsize Hnear. split; [done|].
  set (k := u32 (now + msec)) in *. set (nx := Node k None None None 0 0).
  set (s1 := set_handlers (<[te := func]> (handlers s)) (set_timer
    (set_nodes (<[te := Node 0 None None None 0 0]> (nodes (timer s))) (timer s)) s)).
  set (t2 := set_nodes (<[te := nx]> (<[te := Node 0 None None None 0 0]> (nodes (timer s)))) (timer s)).
  assert (holds S insert_timer_value t ((te, nx) :: K) t2) as Hh2.
  { destruct Hh as (sn & pp & Hsn & (Hs & Hr & Hi & Hm) & Hrb). exists sn, pp. split; [done|]. split; [|done].
    split_and!; [done..|]. unfold t2. cbn [nodes set_nodes]. rewrite insert_insert_eq.
    cbn [RbShape.ctx_cells app hole_parent] in *.
    eapply heap_perm; [|by apply heap_new]. solve_Permutation. }
  assert (Hag : agrees (λ k, k) (less_of insert_timer_value) (key nx) (inorder t)).
  { intros y Hy. cbn. by apply key_before_near, Hnear. }
  destruct (tree_insert_run S insert_timer_value tree_fuel t te nx K (λ k, k) t2 Hh2 Ho Hag (small_fuel _ Hsm))
    as (t3 & t' & Hrun & Hh' & Hin & Ho').
  assert (inorder t' ≡ₚ Entry te k 0 :: inorder t) as HP.
  { rewrite Hin, <-Permutation_middle, Permutation_app_comm. f_equiv.
    apply (filter_app_complement (λ y, key nx < ekey y)). }
  exists (set_timer t3 s1), t'. split_and!.
  - cbn [add_timer]. unfold on_tree at 1. erewrite bind_Done by (by apply zoom_Done).
    rewrite modS_bind. fold s1.
    assert (on_tree (wr (Some te) (with_key (u32 (msec + now)))) s1 = Done ((), set_timer t2 s1)) as Hwr.
    { apply on_tree_run. cbn [wr]. apply modO_Done. cbn. rewrite lookup_insert_eq. cbn.
      unfold t2, nx, k. by rewrite (Z.add_comm msec). }
    rewrite (bind_Done _ _ _ _ _ Hwr).
    by rewrite (bind_Done _ _ _ _ _ (on_tree_run _ (set_timer t2 s1) _ _ Hrun)).
  - split.
    + by exists S.
    + done.
    + unfold size in *. rewrite HP. cbn. lia.
  - by rewrite HP.
  - cbn. by rewrite lookup_insert_eq.
Qed.

Definition demo : timers := Timers demo_state ∅.
Lemma demo_Rep : Rep demo demo_tree [(5%positive, Node 20 None None None 0 7)].
Proof. split; [exists 1%positive; exact demo_holds|exact demo_ordered|cbn; lia]. Qed.

Lemma demo_near e : e ∈ inorder demo_tree → - 2147483648 ≤ u32 (5 + 20) - ekey e < 2147483648.
Proof.
  intros He. cbn in He.
  repeat (apply elem_of_cons in He as [->|He]; [vm_compute; done|]). by apply elem_of_nil in He.
Qed.

Lemma rbt_add_timer_spec_witness :
  add_timer None 5 20 1 demo = Undef ∧
  ∃ s' t', add_timer (Some 9%positive) 5 20 1 demo = Done (Some 9%positive, s') ∧
    Rep s' t' [(5%positive, Node 20 None None None 0 7)] ∧
    pending_of <$> inorder t' ≡ₚ (9%positive, 25) :: (pending_of <$> inorder demo_tree) ∧
    handlers s' !! 9%positive = Some 1.
Proof.
  apply (rbt_add_timer_spec demo demo_tree _ 9 5 20 1 demo_Rep); [done|cbn; lia|exact demo_near].
Defined.

(** One run of [expire_timer] of the tree front end calls the handlers of
    exactly the timers whose time has come, in the order of their times, takes
    exactly those out of the tree and frees them, and returns; the others stay
    pending. *)
Theorem rbt_expire_timer_spec call now fuel s t K :
  Rep s t K → well_behaved call now → (size t < fuel)%nat →
  ∃ s' F N t' K', expire_timer call fuel now s = Done (F.*1, s') ∧
    F ≡ₚ filter (due now) (pending_of <$> inorder t) ∧ StronglySorted earlier F ∧
    Rep s' t' K' ∧
    pending_of <$> inorder t' ≡ₚ N ++ filter (λ e, ¬ due now e) (pending_of <$> inorder t) ∧
    Forall (λ e, ¬ due now e) N.
Proof.
  intros HR Hc Hf.
  destruct (expire_loop_correct call now fuel s (pending_of <$> inorder t)) as (s' & F & N & Hrun & ? & ? & (t' & K' & ? & ?) & ?);
    [done|by exists t, K| |].
  { eapply Nat.le_lt_trans; [apply length_filter|]. by rewrite length_fmap. }
  exists s', F, N, t', K'. by rewrite rbt_expire_loop.
Qed.

Lemma rbt_expire_timer_spec_witness :
  ∃ s' F N t' K', expire_timer (λ _, mret ()) 4 20 demo = Done (F.*1, s') ∧
    F ≡ₚ filter (due 20) (pending_of <$> inorder demo_tree) ∧ StronglySorted earlier F ∧
    Rep s' t' K' ∧
    pending_of <$> inorder t' ≡ₚ N ++ filter (λ e, ¬ due 20 e) (pending_of <$> inorder demo_tree) ∧
    Forall (λ e, ¬ due 20 e) N.
Proof.
  apply (rbt_expire_timer_spec (λ _, mret ()) 20 4 demo demo_tree _ demo_Rep); [|cbn; lia].
  apply silent_well_behaved.
Defined.

#[local] Transparent tree_fuel.

(** The tree orders its keys around the wrap of the clock, [expire_timer] does
    not: 256 ms before the wrap, a timer of one second fires at once. *)
Definition wrap_state : outcome (list ptr * timers) :=
  (on_tree (modS (λ t, set_nodes (<[1%positive := Node 0 None None None 0 0]> (nodes t)) t));;
   init_timer 1;;
   add_timer (Some 2%positive) 4294967040 1000 7;;
   expire_timer (λ _, mret ()) 3 4294967040) (Timers (Tree None None insert_value ∅) ∅).
Example wrap_fires_early : match wrap_state with Done (F, _) => F = [2%positive] | _ => False end.
Proof. vm_compute. done. Qed.

(** In the same way the difference of [find_nearest_expire_timer] may overflow. *)
Example nearest_overflows :
  Clock.nearest 2147483648 1 tt = Undef (A := Z * unit).
Proof. vm_compute. done. Qed.

End RbtTimer.
