(* ===== verification/MsgQueue.v ===== *)
(** The two-list message queue of msgqueue.c, as threads that interleave.

    A thread's program counter names the next critical section of the call it
    is in; one step of a thread runs from there to the next point where it
    takes or gives up a mutex, so the steps are those other threads can
    observe.  The queue is intrusive: the lists are chains of link cells in
    the messages themselves, and the memory is part of the state. *)
From stdpp Require Import functions.
From S2P Require Import Prelude.

Open Scope Z_scope.

Module MsgQueue.

(** ** State *)

(** What a [void **] of the queue can point to: the two heads of the queue and
    the link of a message, by its address. *)
Inductive cell := Head1 | Head2 | At (a : Z).
#[export] Instance cell_eq_dec : EqDecision cell.
Proof. solve_decision. Defined.
#[export] Instance cell_countable : Countable cell.
Proof.
  refine (inj_countable' (λ c, match c with Head1 => inl true | Head2 => inl false | At a => inr a end)
    (λ x, match x with inl true => Head1 | inl false => Head2 | inr a => At a end) _).
  by intros [| |a].
Defined.

Abbreviation tid := nat.

(** Where a thread is.  [Idle] is outside every function of the queue. *)
Inductive pc :=
  | Idle
  | PutLock (msg : Z)    (** msgqueue_put, before it has put_mutex *)
  | PutTest (msg : Z)    (** with put_mutex, at the test of the loop *)
  | PutWait (msg : Z)    (** in pthread_cond_wait on put_cond *)
  | PutSignal            (** put_mutex released, before the signal *)
  | GetLock              (** msgqueue_get, before it has get_mutex *)
  | GetTest              (** with get_mutex, at the test of [*get_head] *)
  | SwapLock (g : cell)  (** __msgqueue_swap, before it has put_mutex *)
  | SwapTest (g : cell)  (** with put_mutex, at the test of the loop *)
  | SwapWait (g : cell)  (** in pthread_cond_wait on get_cond *)
  | GetTake              (** with get_mutex, [*get_head] is not NULL *)
  | GetNull              (** with get_mutex, nothing to return *)
  | NbLock               (** msgqueue_set_nonblock, before it has put_mutex *)
  | NbSignal.            (** with put_mutex *)

(** struct __msgqueue, with the memory of the links, the holders of the two
    mutexes and the threads.  The condition variables are the threads that
    wait on them.  A link holds an address, 0 for [NULL]. *)
Record msgqueue := Queue {
  msg_max : Z;
  msg_cnt : Z;
  linkoff : Z;
  nonblock : bool;
  mem : gmap cell Z;
  get_head : cell;
  put_head : cell;
  put_tail : cell;
  get_mutex : option tid;
  put_mutex : option tid;
  threads : tid → pc;
}.

Definition with_cnt n q := Queue (msg_max q) n (linkoff q) (nonblock q) (mem q)
  (get_head q) (put_head q) (put_tail q) (get_mutex q) (put_mutex q) (threads q).
Definition with_nonblock b q := Queue (msg_max q) (msg_cnt q) (linkoff q) b (mem q)
  (get_head q) (put_head q) (put_tail q) (get_mutex q) (put_mutex q) (threads q).
Definition with_mem m q := Queue (msg_max q) (msg_cnt q) (linkoff q) (nonblock q) m
  (get_head q) (put_head q) (put_tail q) (get_mutex q) (put_mutex q) (threads q).
Definition with_get_head c q := Queue (msg_max q) (msg_cnt q) (linkoff q) (nonblock q) (mem q)
  c (put_head q) (put_tail q) (get_mutex q) (put_mutex q) (threads q).
Definition with_put_head c q := Queue (msg_max q) (msg_cnt q) (linkoff q) (nonblock q) (mem q)
  (get_head q) c (put_tail q) (get_mutex q) (put_mutex q) (threads q).
Definition with_put_tail c q := Queue (msg_max q) (msg_cnt q) (linkoff q) (nonblock q) (mem q)
  (get_head q) (put_head q) c (get_mutex q) (put_mutex q) (threads q).
Definition with_get_mutex o q := Queue (msg_max q) (msg_cnt q) (linkoff q) (nonblock q) (mem q)
  (get_head q) (put_head q) (put_tail q) o (put_mutex q) (threads q).
Definition with_put_mutex o q := Queue (msg_max q) (msg_cnt q) (linkoff q) (nonblock q) (mem q)
  (get_head q) (put_head q) (put_tail q) (get_mutex q) o (threads q).
Definition with_threads f q := Queue (msg_max q) (msg_cnt q) (linkoff q) (nonblock q) (mem q)
  (get_head q) (put_head q) (put_tail q) (get_mutex q) (put_mutex q) f.

(** What an observer sees of a step: a message enters the queue, a call of
    msgqueue_get returns. *)
Inductive label := Silent | Put (msg : Z) | Got (msg : Z) | GotNull.

Abbreviation act A := (prog msgqueue A).

Definition goto (t : tid) (p : pc) : act unit := modS (λ q, with_threads (<[t := p]> (threads q)) q).
Definition load (c : cell) : act Z := getsO (λ q, mem q !! c).
Definition store (c : cell) (v : Z) : act unit :=
  modO (λ q, _ ← mem q !! c; Some (with_mem (<[c := v]> (mem q)) q)).

(** A woken thread has to take the mutex again. *)
Definition wake_get (p : pc) : pc := match p with SwapWait g => SwapLock g | _ => p end.
Definition wake_put (p : pc) : pc := match p with PutWait m => PutLock m | _ => p end.
(** [get_mutex] lets at most one thread wait on [get_cond], so a signal wakes
    every thread that waits; the broadcast of [put_cond] wakes all by
    definition. *)
Definition signal_get : act unit := modS (λ q, with_threads (λ t, wake_get (threads q t)) q).
Definition broadcast_put : act unit := modS (λ q, with_threads (λ t, wake_put (threads q t)) q).

(** ** Operations *)

Definition msgqueue_put_enter (t : tid) (msg : Z) : act label :=
  modS (λ q, with_mem (<[At (msg + linkoff q) := 0]> (mem q)) q);;
  goto t (PutLock msg);; mret Silent.

(** [msg_cnt > msg_max - 1 && !nonblock], on [size_t]. *)
Definition full (q : msgqueue) : bool := bool_decide (u64 (msg_max q - 1) < msg_cnt q).
Definition put_blocked (q : msgqueue) : bool := full q && negb (nonblock q).

Definition msgqueue_put_test (t : tid) (msg : Z) : act label :=
  b ← gets put_blocked;
  if b : bool then modS (with_put_mutex None);; goto t (PutWait msg);; mret Silent
  else
    tail ← gets put_tail;
    off ← gets linkoff;
    store tail (msg + off);;
    modS (with_put_tail (At (msg + off)));;
    modS (λ q, with_cnt (u64 (msg_cnt q + 1)) q);;
    modS (with_put_mutex None);;
    goto t PutSignal;; mret (Put msg).

Definition msgqueue_put_signal (t : tid) : act label :=
  signal_get;; goto t Idle;; mret Silent.

Definition msgqueue_get_test (t : tid) : act label :=
  h ← gets get_head;
  v ← load h;
  if decide (v ≠ 0) then goto t GetTake;; mret Silent
  else
    p ← gets put_head;
    modS (with_get_head p);;
    goto t (SwapLock h);; mret Silent.

(** [msg_cnt == 0 && !nonblock] *)
Definition get_blocked (q : msgqueue) : bool :=
  bool_decide (msg_cnt q = 0) && negb (nonblock q).

Definition __msgqueue_swap_test (t : tid) (g : cell) : act label :=
  b ← gets get_blocked;
  if b : bool then modS (with_put_mutex None);; goto t (SwapWait g);; mret Silent
  else
    cnt ← gets msg_cnt;
    f ← gets full;
    (if f : bool then broadcast_put else mret ());;
    modS (with_put_head g);;
    modS (with_put_tail g);;
    modS (with_cnt 0);;
    modS (with_put_mutex None);;
    goto t (if decide (0 < cnt) then GetTake else GetNull);; mret Silent.

Definition msgqueue_get_take (t : tid) : act label :=
  h ← gets get_head;
  link ← load h;
  off ← gets linkoff;
  next ← load (At link);
  store h next;;
  modS (with_get_mutex None);;
  goto t Idle;; mret (Got (link - off)).

Definition msgqueue_get_null (t : tid) : act label :=
  modS (with_get_mutex None);; goto t Idle;; mret GotNull.

Definition msgqueue_set_nonblock_enter (t : tid) : act label :=
  modS (with_nonblock true);; goto t NbLock;; mret Silent.
Definition msgqueue_set_nonblock_signal (t : tid) : act label :=
  signal_get;; broadcast_put;;
  modS (with_put_mutex None);; goto t Idle;; mret Silent.
Definition msgqueue_set_block : act label := modS (with_nonblock false);; mret Silent.

(** ** Interleaving *)

Inductive op := OpPut (msg : Z) | OpGet | OpNonblock | OpBlock.
(** A thread calls a function; a thread takes its next step; a waiting thread
    wakes up for no reason; the program writes to memory of its own. *)
Inductive event := Call (t : tid) (o : op) | Step (t : tid) | Spurious (t : tid) | Client (a v : Z).

Definition lock_put (t : tid) (p : pc) : act label :=
  modS (with_put_mutex (Some t));; goto t p;; mret Silent.

Definition step (t : tid) : act label :=
  p ← gets (λ q, threads q t);
  match p with
  | PutLock m => lock_put t (PutTest m)
  | PutTest m => msgqueue_put_test t m
  | PutSignal => msgqueue_put_signal t
  | GetLock => modS (with_get_mutex (Some t));; goto t GetTest;; mret Silent
  | GetTest => msgqueue_get_test t
  | SwapLock g => lock_put t (SwapTest g)
  | SwapTest g => __msgqueue_swap_test t g
  | GetTake => msgqueue_get_take t
  | GetNull => msgqueue_get_null t
  | NbLock => lock_put t NbSignal
  | NbSignal => msgqueue_set_nonblock_signal t
  | Idle | PutWait _ | SwapWait _ => undef
  end.

Definition exec (e : event) : act label :=
  match e with
  | Call t (OpPut m) => msgqueue_put_enter t m
  | Call t OpGet => goto t GetLock;; mret Silent
  | Call t OpNonblock => msgqueue_set_nonblock_enter t
  | Call t OpBlock => msgqueue_set_block
  | Step t => step t
  | Spurious t => modS (λ q, with_threads (<[t := wake_put (wake_get (threads q t))]> (threads q)) q);; mret Silent
  | Client a v => modS (λ q, with_mem (<[At a := v]> (mem q)) q);; mret Silent
  end.

(** A thread that can take its next step: the mutex it needs is free. *)
Definition enabled (t : tid) (q : msgqueue) : bool :=
  match threads q t with
  | Idle | PutWait _ | SwapWait _ => false
  | PutLock _ | SwapLock _ | NbLock => bool_decide (put_mutex q = None)
  | GetLock => bool_decide (get_mutex q = None)
  | _ => true
  end.

(** The message a call of msgqueue_put has not linked yet. *)
Definition putting (p : pc) : option Z :=
  match p with PutLock m | PutTest m | PutWait m => Some m | _ => None end.

(** The queue may use the link at [a]: of a message between the call of
    msgqueue_put and the return of msgqueue_get. *)
Definition busy (q : msgqueue) (pending : list Z) (a : Z) : Prop :=
  a ∈ (λ m, m + linkoff q) <$> pending ∨ ∃ t m, putting (threads q t) = Some m ∧ a = m + linkoff q.

(** What the callers have to respect: a thread is in one call at a time, a
    message is put with an address that is not NULL and not before its last
    use is over, and nobody else writes to a link the queue uses. *)
Definition legal (q : msgqueue) (pending : list Z) (e : event) : Prop :=
  match e with
  | Call t (OpPut m) =>
      threads q t = Idle ∧ 0 < m + linkoff q < 2 ^ 64 ∧ ¬ busy q pending (m + linkoff q)
  | Call t _ => threads q t = Idle
  | Step t => enabled t q = true
  | Spurious t => (∃ m, threads q t = PutWait m) ∨ ∃ g, threads q t = SwapWait g
  | Client a v => ¬ busy q pending a
  end.

(** msgqueue_create, when nothing fails. *)
Definition fresh (maxlen off : Z) : msgqueue :=
  Queue maxlen 0 off false (<[Head1 := 0]> {[Head2 := 0]}) Head1 Head2 Head2 None None (λ _, Idle).

Definition put_of (l : label) : list Z := match l with Put m => [m] | _ => [] end.
Definition got_of (l : label) : list Z := match l with Got m => [m] | _ => [] end.

(** The states that the events [ok] can reach, with the messages that entered
    the queue so far and those that were returned, each in order. *)
Inductive reachable (ok : event → Prop) (q0 : msgqueue) : msgqueue → list Z → list Z → Prop :=
  | reachable_init : reachable ok q0 q0 [] []
  | reachable_step q puts gots e l q' :
      reachable ok q0 q puts gots → ok e → legal q (drop (length gots) puts) e →
      exec e q = Done (l, q') →
      reachable ok q0 q' (puts ++ put_of l) (gots ++ got_of l).

(** ** Chains *)

(** From [c] the links lead through the messages [ms] to the link [e], which
    is [NULL]. *)
Fixpoint chain (m : gmap cell Z) (off : Z) (c : cell) (ms : list Z) (e : cell) : Prop :=
  match ms with
  | [] => m !! c = Some 0 ∧ e = c
  | x :: ms => m !! c = Some (x + off) ∧ chain m off (At (x + off)) ms e
  end.

(** The cells of a chain. *)
Definition links (off : Z) (ms : list Z) : list cell := (λ x, At (x + off)) <$> ms.

Lemma elem_of_links off ms a : At a ∈ links off ms ↔ a ∈ (λ x, x + off) <$> ms.
Proof.
  unfold links. rewrite !list_elem_of_fmap. split; intros (x & Hx & Hin); exists x; split; congruence.
Qed.

Lemma links_head off ms c : c = Head1 ∨ c = Head2 → c ∉ links off ms.
Proof. unfold links. rewrite list_elem_of_fmap. intros Hc (x & -> & _). naive_solver. Qed.

Lemma links_frame m off c ms e c' v :
  c' ∉ c :: links off ms → chain m off c ms e → chain (<[c' := v]> m) off c ms e.
Proof.
  revert c. induction ms as [|x ms IH]; cbn; intros c Hc' [H1 H2].
  - split; [|done]. rewrite lookup_insert_ne; [done|]. set_solver.
  - split; [rewrite lookup_insert_ne; [done|set_solver]|]. apply IH; [set_solver|done].
Qed.

Lemma chain_end m off c ms e : chain m off c ms e → m !! e = Some 0.
Proof. revert c. induction ms as [|x ms IH]; cbn; intros c [H1 H2]; [by subst|by eapply IH]. Qed.

Lemma chain_last m off c ms e : chain m off c ms e → e ∈ c :: links off ms.
Proof.
  revert c. induction ms as [|x ms IH]; cbn; intros c [H1 H2]; [subst; set_solver|].
  specialize (IH _ H2). set_solver.
Qed.

Lemma links_snoc m off c ms e x :
  NoDup (c :: links off (ms ++ [x])) → m !! At (x + off) = Some 0 →
  chain m off c ms e → chain (<[e := x + off]> m) off c (ms ++ [x]) (At (x + off)).
Proof.
  unfold links. revert c. induction ms as [|y ms IH]; cbn; intros c Hnd Hx [H1 H2].
  - subst. rewrite lookup_insert_eq, lookup_insert_ne; [done|].
    intros ->. apply NoDup_cons in Hnd as [Hnd _]. set_solver.
  - apply NoDup_cons in Hnd as [Hc Hnd]. split; [|by apply IH].
    rewrite lookup_insert_ne; [done|]. intros ->. apply chain_last in H2.
    unfold links in H2. rewrite fmap_app in Hc. apply Hc. set_solver.
Qed.

Lemma chain_tail m off c x ms e :
  NoDup (c :: links off (x :: ms)) → chain m off c (x :: ms) e →
  ∃ next, m !! At (x + off) = Some next ∧
    chain (<[c := next]> m) off c ms (if decide (ms = []) then c else e).
Proof.
  cbn. intros Hnd [H1 H2]. apply NoDup_cons in Hnd as [Hc Hnd].
  destruct ms as [|y ms]; cbn in *.
  - destruct H2 as [H2 ->]. exists 0. by rewrite lookup_insert_eq.
  - destruct H2 as [H2 H3]. exists (y + off). rewrite lookup_insert_eq. split; [done|]. split; [done|].
    apply links_frame; [set_solver|done].
Qed.

(** ** Invariants *)

Definition holds_get (p : pc) : bool :=
  match p with
  | GetTest | SwapLock _ | SwapTest _ | SwapWait _ | GetTake | GetNull => true
  | _ => false
  end.
Definition holds_put (p : pc) : bool :=
  match p with PutTest _ | SwapTest _ | NbSignal => true | _ => false end.
(** In __msgqueue_swap, with the head it found empty. *)
Definition swapping (p : pc) : option cell :=
  match p with SwapLock g | SwapTest g | SwapWait g => Some g | _ => None end.
Definition other (c : cell) : cell := match c with Head1 => Head2 | _ => Head1 end.

(** A mutex belongs to the one thread that is between its lock and unlock. *)
Record locks (q : msgqueue) : Prop := {
  locks_get t : get_mutex q = Some t ↔ holds_get (threads q t) = true;
  locks_put t : put_mutex q = Some t ↔ holds_put (threads q t) = true;
}.

(** The messages of the get list and of the put list, the chains they are
    kept in, and the threads that are about to use them. *)
Record lists (q : msgqueue) (getl putl : list Z) : Prop := {
  lists_head : put_head q = Head1 ∨ put_head q = Head2;
  lists_get : ∃ e, chain (mem q) (linkoff q) (other (put_head q)) getl e;
  lists_put : chain (mem q) (linkoff q) (put_head q) putl (put_tail q);
  lists_cnt : msg_cnt q = zlength putl;
  lists_nodup : NoDup (getl ++ putl);
  lists_range x : x ∈ getl ++ putl → 0 < x + linkoff q < 2 ^ 64;
  lists_swap t g : swapping (threads q t) = Some g →
    g = other (put_head q) ∧ get_head q = put_head q ∧ getl = [];
  lists_noswap : (∀ t, swapping (threads q t) = None) → get_head q = other (put_head q);
  lists_take t : threads q t = GetTake → getl ≠ [];
  lists_putting t x : putting (threads q t) = Some x →
    x ∉ getl ++ putl ∧ mem q !! At (x + linkoff q) = Some 0 ∧ 0 < x + linkoff q < 2 ^ 64;
  lists_distinct t t' x : putting (threads q t) = Some x → putting (threads q t') = Some x → t = t';
}.

(** Who waits has a reason to, or is about to be woken. *)
Definition about_to_wake (q : msgqueue) : Prop := ∃ t, threads q t = NbLock ∨ threads q t = NbSignal.
Record waits (q : msgqueue) : Prop := {
  waits_put t x : threads q t = PutWait x →
    full q = true ∧ (nonblock q = true → about_to_wake q);
  waits_get t g : threads q t = SwapWait g →
    (msg_cnt q ≠ 0 → (∃ t', threads q t' = PutSignal) ∨ about_to_wake q) ∧
    (nonblock q = true → about_to_wake q);
}.

(** A mutex is kept, taken while it is free, or given up by its holder. *)
Definition mutex_step (o o' : option tid) (t : tid) (b b' : bool) : Prop :=
  (o' = o ∧ b' = b) ∨ (o = None ∧ o' = Some t ∧ b' = true) ∨ (b = true ∧ o' = None ∧ b' = false).

Lemma mutex_step_ok o o' t (f f' : tid → bool) :
  (∀ u, o = Some u ↔ f u = true) → (∀ u, u ≠ t → f' u = f u) →
  mutex_step o o' t (f t) (f' t) → ∀ u, o' = Some u ↔ f' u = true.
Proof.
  intros Ho Hne Hstep u. destruct (decide (u = t)) as [->|Hu].
  - specialize (Ho t). unfold mutex_step in Hstep. destruct Hstep as [[-> ->]|[(->&->&->)|(Hb&->&->)]]; naive_solver.
  - rewrite (Hne u Hu). pose proof (Ho u). pose proof (Ho t). destruct Hstep as [[-> _]|[(->&->&_)|(Hb&->&_)]].
    + done.
    + naive_solver.
    + split; [done|]. intros Hf. assert (o = Some u) by naive_solver. assert (o = Some t) by naive_solver. congruence.
Qed.

(** One thread moves, the others are at most woken. *)
Lemma locks_step q q' t :
  locks q →
  (∀ u, u ≠ t → holds_get (threads q' u) = holds_get (threads q u) ∧
                holds_put (threads q' u) = holds_put (threads q u)) →
  mutex_step (get_mutex q) (get_mutex q') t (holds_get (threads q t)) (holds_get (threads q' t)) →
  mutex_step (put_mutex q) (put_mutex q') t (holds_put (threads q t)) (holds_put (threads q' t)) →
  locks q'.
Proof.
  intros [Hg Hp] Hne H1 H2. split.
  - apply (mutex_step_ok _ _ t _ (λ u, holds_get (threads q' u)) Hg); [|done]. intros u Hu. by apply Hne.
  - apply (mutex_step_ok _ _ t _ (λ u, holds_put (threads q' u)) Hp); [|done]. intros u Hu. by apply Hne.
Qed.

Lemma wake_get_frame p :
  holds_get (wake_get p) = holds_get p ∧ holds_put (wake_get p) = holds_put p ∧
  swapping (wake_get p) = swapping p ∧ putting (wake_get p) = putting p.
Proof. by destruct p. Qed.
Lemma wake_put_frame p :
  holds_get (wake_put p) = holds_get p ∧ holds_put (wake_put p) = holds_put p ∧
  swapping (wake_put p) = swapping p ∧ putting (wake_put p) = putting p.
Proof. by destruct p. Qed.

(** Rewrites the entries of an updated thread table. *)
Ltac threads_ne :=
  repeat match goal with
  | H : context [(<[?t := _]> _) ?u], Hne : ?u ≠ ?t |- _ => rewrite (fn_lookup_insert_ne _ t u) in H by congruence
  | H : context [(<[?t := _]> _) ?t] |- _ => rewrite (fn_lookup_insert _ t) in H
  | Hne : ?u ≠ ?t |- context [(<[?t := _]> _) ?u] => rewrite (fn_lookup_insert_ne _ t u) by congruence
  | |- context [(<[?t := _]> _) ?t] => rewrite (fn_lookup_insert _ t)
  end.
Ltac at_thread t u := destruct (decide (u = t)) as [->|]; threads_ne; cbn in *.

(** Steps that leave the lists alone. *)
Lemma lists_frame q q' getl putl :
  lists q getl putl →
  mem q' = mem q → linkoff q' = linkoff q → msg_cnt q' = msg_cnt q →
  get_head q' = get_head q → put_head q' = put_head q → put_tail q' = put_tail q →
  (∀ u, swapping (threads q' u) = swapping (threads q u) ∧
        putting (threads q' u) = putting (threads q u) ∧
        (threads q' u = GetTake → threads q u = GetTake ∨ getl ≠ [])) →
  lists q' getl putl.
Proof.
  intros [] Hm Ho Hc Hg Hp Ht Hu.
  split; rewrite ?Hm, ?Ho, ?Hc, ?Hg, ?Hp, ?Ht; try done.
  - intros t g. rewrite (proj1 (Hu t)). apply lists_swap0.
  - intros Hno. apply lists_noswap0. intros t. rewrite <-(proj1 (Hu t)). auto.
  - intros t Htk. destruct (Hu t) as (_ & _ & [Htk'|?]); eauto.
  - intros t x. destruct (Hu t) as (_ & -> & _). apply lists_putting0.
  - intros t t' x. destruct (Hu t) as (_ & -> & _), (Hu t') as (_ & -> & _). apply lists_distinct0.
Qed.

#[local] Arguments other : simpl never.

(** Memory the queue does not use may change. *)
Lemma lists_mem q getl putl a v :
  lists q getl putl → ¬ busy q (getl ++ putl) a →
  lists (with_mem (<[At a := v]> (mem q)) q) getl putl.
Proof.
  intros [] Hb.
  assert (Hg : At a ∉ links (linkoff q) getl ∧ At a ∉ links (linkoff q) putl).
  { rewrite !elem_of_links. unfold busy in Hb. rewrite fmap_app in Hb. set_solver. }
  split; try done; cbn.
  - destruct lists_get0 as [e He]. exists e. apply links_frame; [|done].
    destruct lists_head0 as [-> | ->]; unfold other; set_solver.
  - apply links_frame; [|done]. destruct lists_head0 as [-> | ->]; unfold other; set_solver.
  - intros t x Hx. destruct (lists_putting0 t x Hx) as (? & ? & ?). split; [done|]. split; [|done].
    rewrite lookup_insert_ne; [done|]. intros [= ->]. apply Hb. right. eauto.
Qed.

Lemma lists_put_enter q getl putl t x :
  lists q getl putl → threads q t = Idle → 0 < x + linkoff q < 2 ^ 64 →
  ¬ busy q (getl ++ putl) (x + linkoff q) →
  lists (with_threads (<[t := PutLock x]> (threads q))
           (with_mem (<[At (x + linkoff q) := 0]> (mem q)) q)) getl putl.
Proof.
  intros Hl Ht Hr Hb. pose proof (lists_mem q getl putl _ 0 Hl Hb) as Hl'.
  assert (Hfresh : ∀ u y, putting (threads q u) = Some y → y ≠ x).
  { intros u y Hy ->. apply Hb. right. eauto. }
  destruct Hl'. cbn in *. split; try done; cbn.
  - intros u g. at_thread t u; [done|apply lists_swap0].
  - intros Hno. apply lists_noswap0. intros u. specialize (Hno u). by at_thread t u; rewrite ?Ht.
  - intros u. at_thread t u; [done|apply lists_take0].
  - intros u y. at_thread t u; [|apply lists_putting0]. intros [= ->]. split; [|split; [apply lookup_insert_eq|done]].
    intros Hy. apply Hb. left. by apply (list_elem_of_fmap_2 (λ m, m + linkoff q)).
  - intros u u' y Hu Hu'. at_thread t u; at_thread t u'; try naive_solver.
Qed.

(** Distinct messages at addresses of the machine are less than 2^64. *)
Lemma range_length (l : list Z) off : NoDup l → (∀ x, x ∈ l → 0 < x + off < 2 ^ 64) → zlength l < 2 ^ 64.
Proof.
  intros Hnd Hr. set (f := λ x, x + off).
  assert (Hs : f <$> l ⊆+ (seqZ 1 (2 ^ 64 - 1))).
  { apply NoDup_submseteq; [apply NoDup_fmap_2_strong; [unfold f; lia|done]|]. intros y (x & -> & Hx)%list_elem_of_fmap.
    apply elem_of_seqZ. specialize (Hr x Hx). unfold f. lia. }
  apply submseteq_length in Hs. rewrite length_fmap, length_seqZ in Hs. unfold zlength. lia.
Qed.

Lemma lists_append q getl putl t x :
  lists q getl putl → threads q t = PutTest x →
  lists (with_threads (<[t := PutSignal]> (threads q)) (with_put_mutex None
    (with_cnt (u64 (msg_cnt q + 1)) (with_put_tail (At (x + linkoff q))
      (with_mem (<[put_tail q := x + linkoff q]> (mem q)) q))))) getl (putl ++ [x]).
Proof.
  intros Hl Ht. destruct Hl. destruct (lists_putting0 t x) as (Hx & Hnull & Hr); [by rewrite Ht|].
  assert (Hnd : NoDup (getl ++ putl ++ [x])).
  { rewrite (assoc _). apply NoDup_app. split; [done|]. split; [set_solver|apply NoDup_singleton]. }
  assert (Hrange : ∀ y, y ∈ getl ++ putl ++ [x] → 0 < y + linkoff q < 2 ^ 64).
  { intros y. rewrite (assoc _), elem_of_app. intros [Hy|Hy%list_elem_of_singleton]; [auto|by subst]. }
  assert (Hlen : zlength (putl ++ [x]) < 2 ^ 64).
  { apply (range_length _ (linkoff q)); [by apply NoDup_app in Hnd as (_ & _ & ?)|set_solver]. }
  pose proof (chain_last _ _ _ _ _ lists_put0) as Hlast.
  assert (Hdisj : put_tail q ∉ other (put_head q) :: links (linkoff q) getl).
  { intros Hin. apply NoDup_app in lists_nodup0 as (_ & Hd & _).
    rewrite !elem_of_cons in *. unfold links in *. rewrite !list_elem_of_fmap in *.
    destruct lists_head0 as [Hh|Hh]; rewrite Hh in *; unfold other in *; cbn in *;
      destruct Hlast as [Hl|(y & Hl & Hy)], Hin as [Hi|(z & Hi & Hz)]; try congruence;
      rewrite Hl in Hi; injection Hi as Hi; assert (y = z) as -> by lia; by eapply Hd. }
  split; try done; cbn.
  - destruct lists_get0 as [e He]. exists e. by apply links_frame.
  - apply links_snoc; [|done|done]. apply NoDup_cons. split; [by apply links_head|].
    unfold links. apply NoDup_fmap_2_strong.
    + intros y z _ _ [= ?]. lia.
    + by apply NoDup_app in Hnd as (_ & _ & ?).
  - rewrite lists_cnt0, zlength_app in *. unfold zlength in *. cbn in *.
    unfold u64. rewrite wrap_small; lia.
  - intros u g. at_thread t u; [done|apply lists_swap0].
  - intros Hno. apply lists_noswap0. intros u. specialize (Hno u). by at_thread t u; rewrite ?Ht.
  - intros u. at_thread t u; [done|apply lists_take0].
  - intros u y Hy. at_thread t u; [done|]. destruct (lists_putting0 u y Hy) as (? & ? & ?).
    assert (y ≠ x). { intros ->. apply n. apply (lists_distinct0 u t x); [done|by rewrite Ht]. }
    split; [set_solver|]. split; [|done]. rewrite lookup_insert_ne; [done|].
    intros Heq. rewrite Heq in *. apply elem_of_cons in Hlast as [Hh|Hin].
    + destruct lists_head0 as [Hh'|Hh']; rewrite Hh' in Hh; done.
    + apply elem_of_links in Hin. apply list_elem_of_fmap in Hin as (z & Hz & Hin).
      assert (z = y) as -> by lia. set_solver.
  - intros u u' y Hu Hu'. at_thread t u; at_thread t u'; try done. eauto.
Qed.

(** Only the holder of [get_mutex] can be between the two locks of a swap. *)
Lemma lone_getter q t u : locks q → holds_get (threads q t) = true → u ≠ t → holds_get (threads q u) = false.
Proof.
  intros [Hg _] Ht Hne. apply not_true_iff_false. intros Hu.
  apply Hg in Ht. apply Hg in Hu. congruence.
Qed.

Lemma swapping_holds p g : swapping p = Some g → holds_get p = true.
Proof. by destruct p. Qed.

Lemma no_swap q t : locks q → holds_get (threads q t) = true → swapping (threads q t) = None →
  ∀ u, swapping (threads q u) = None.
Proof.
  intros Hlk Ht Hno u. destruct (decide (u = t)) as [->|Hne]; [done|].
  destruct (swapping (threads q u)) as [g|] eqn:Hu; [|done].
  apply swapping_holds in Hu. by rewrite (lone_getter q t u) in Hu.
Qed.

Lemma get_head_noswap q getl putl t :
  locks q → lists q getl putl → holds_get (threads q t) = true → swapping (threads q t) = None →
  get_head q = other (put_head q).
Proof. intros Hlk Hl Ht Hno. apply (lists_noswap _ _ _ Hl). by apply (no_swap q t). Qed.

(** The first link of the get list tells whether it is empty. *)
Lemma get_first q getl putl t :
  locks q → lists q getl putl → holds_get (threads q t) = true → swapping (threads q t) = None →
  mem q !! get_head q = Some (match getl with [] => 0 | x :: _ => x + linkoff q end) ∧
  (getl ≠ [] ↔ match getl with [] => 0 | x :: _ => x + linkoff q end ≠ 0).
Proof.
  intros Hlk Hl Ht Hno. rewrite (get_head_noswap q getl putl t) by done.
  destruct (lists_get _ _ _ Hl) as [e He]. destruct getl as [|x getl]; cbn in He; destruct He as [He _].
  - naive_solver.
  - split; [done|]. assert (0 < x + linkoff q) by (apply (lists_range _ _ _ Hl); set_solver).
    split; [lia|done].
Qed.

Lemma lists_start_swap q putl t :
  locks q → lists q [] putl → threads q t = GetTest →
  lists (with_threads (<[t := SwapLock (get_head q)]> (threads q)) (with_get_head (put_head q) q)) [] putl.
Proof.
  intros Hlk Hl Ht. pose proof (get_head_noswap q [] putl t Hlk Hl) as Hh.
  rewrite Ht in Hh. specialize (Hh eq_refl eq_refl).
  assert (Hno : ∀ u, swapping (threads q u) = None) by (apply (no_swap q t); by rewrite ?Ht).
  destruct Hl. split; try done; cbn.
  - intros u g. at_thread t u; [naive_solver|]. by rewrite Hno.
  - intros Hno'. specialize (Hno' t). by rewrite fn_lookup_insert in Hno'.
  - intros u. at_thread t u; [done|apply lists_take0].
  - intros u y. at_thread t u; [done|apply lists_putting0].
  - intros u u' y. at_thread t u; at_thread t u'; try done. apply lists_distinct0.
Qed.

(** The swap: the put list is the new get list. *)
Lemma lists_finish_swap q putl t g f :
  locks q → lists q [] putl → threads q t = SwapTest g →
  (∀ u, u ≠ t → f u = wake_put (threads q u) ∨ f u = threads q u) → f t = (if decide (0 < msg_cnt q) then GetTake else GetNull) →
  lists (with_threads f (with_put_mutex None (with_cnt 0 (with_put_tail g (with_put_head g q))))) putl [].
Proof.
  intros Hlk Hl Ht Hf Hft. set (p := if decide (0 < msg_cnt q) then GetTake else GetNull) in Hft.
  assert (Hlone : ∀ u, u ≠ t → holds_get (threads q u) = false).
  { intros u. apply lone_getter; [done|]. by rewrite Ht. }
  assert (Hfr : ∀ u, u ≠ t → holds_get (f u) = false ∧ putting (f u) = putting (threads q u)).
  { intros u Hu. specialize (Hlone u Hu). destruct (wake_put_frame (threads q u)) as (H1 & _ & _ & H2).
    destruct (Hf u Hu) as [-> | ->]; rewrite ?H1, ?H2; done. }
  assert (Hpt : putting p = None ∧ swapping p = None ∧ (p = GetTake → putl ≠ [])).
  { unfold p. rewrite (lists_cnt _ _ _ Hl). destruct putl; case_decide; try done; unfold zlength in *; cbn in *; lia. }
  assert (Hput : ∀ u y, putting (f u) = Some y → putting (threads q u) = Some y ∧ u ≠ t).
  { intros u y Hu. destruct (decide (u = t)) as [->|Hne]; [|by destruct (Hfr u Hne) as [_ <-]].
    rewrite Hft in Hu. destruct Hpt as [Hpt _]. congruence. }
  destruct Hl. destruct (lists_swap0 t g) as (-> & Hgh & _); [by rewrite Ht|].
  assert (Hoo : other (other (put_head q)) = put_head q) by (destruct lists_head0 as [-> | ->]; done).
  split; cbn; rewrite ?Hoo; rewrite ?app_nil_r in *.
  - unfold other. destruct (put_head q); auto.
  - eauto.
  - destruct lists_get0 as [e [He ->]]. by split.
  - done.
  - done.
  - done.
  - intros u g' Hu. destruct (decide (u = t)) as [->|Hne].
    + rewrite Hft in Hu. destruct Hpt as (_ & Hs & _). congruence.
    + apply swapping_holds in Hu. destruct (Hfr u Hne) as [Hh _]. congruence.
  - done.
  - intros u Hu. destruct (decide (u = t)) as [->|Hne].
    + apply Hpt. congruence.
    + destruct (Hfr u Hne) as [Hh _]. by rewrite Hu in Hh.
  - intros u y Hu. destruct (Hput u y Hu) as [Hu' _]. by apply (lists_putting0 u).
  - intros u u' y Hu Hu'. apply (lists_distinct0 u u' y); by apply Hput.
Qed.

Lemma lists_take_first q x getl putl t :
  locks q → lists q (x :: getl) putl → threads q t = GetTake →
  ∃ next, mem q !! At (x + linkoff q) = Some next ∧
    lists (with_threads (<[t := Idle]> (threads q)) (with_get_mutex None
      (with_mem (<[get_head q := next]> (mem q)) q))) getl putl.
Proof.
  intros Hlk Hl Ht. pose proof (get_head_noswap q (x :: getl) putl t Hlk Hl) as Hh.
  rewrite Ht in Hh. specialize (Hh eq_refl eq_refl).
  assert (Hno : ∀ u, swapping (threads q u) = None) by (apply (no_swap q t); by rewrite ?Ht).
  assert (Hlone : ∀ u, u ≠ t → holds_get (threads q u) = false).
  { intros u. apply lone_getter; [done|]. by rewrite Ht. }
  destruct Hl. destruct lists_get0 as [e He].
  assert (Hother : other (put_head q) = Head1 ∨ other (put_head q) = Head2)
    by (destruct lists_head0 as [-> | ->]; unfold other; auto).
  apply chain_tail in He as (next & Hnext & Hch).
  2:{ apply NoDup_cons. split; [by apply links_head|]. unfold links. apply NoDup_fmap_2_strong.
      - intros y z _ _ [= ?]. lia.
      - by apply NoDup_app in lists_nodup0 as (? & _ & _). }
  exists next. split; [done|]. rewrite Hh. cbn in lists_nodup0. apply NoDup_cons in lists_nodup0 as [Hx Hnd].
  split; try done; cbn.
  - eauto.
  - apply links_frame; [|done]. rewrite not_elem_of_cons. split; [|by apply links_head].
    destruct lists_head0 as [-> | ->]; done.
  - intros y Hy. apply lists_range0. set_solver.
  - intros u g. at_thread t u; [done|]. by rewrite Hno.
  - intros u. at_thread t u; [done|]. intros Hu. pose proof (Hlone u) as Hl. rewrite Hu in Hl. by specialize (Hl ltac:(done)).
  - intros u y Hu. at_thread t u; [done|]. destruct (lists_putting0 u y Hu) as (? & ? & ?).
    split; [set_solver|]. split; [|done]. rewrite lookup_insert_ne; [done|]. by destruct Hother as [-> | ->].
  - intros u u' y. at_thread t u; at_thread t u'; try done. apply lists_distinct0.
Qed.

(** ** Waiting *)

Definition wakes (p : pc) : bool := match p with NbLock | NbSignal => true | _ => false end.

Lemma about_to_wake_iff q : about_to_wake q ↔ ∃ t, wakes (threads q t) = true.
Proof.
  unfold about_to_wake. split; intros [t Ht]; exists t.
  - by destruct Ht as [-> | ->].
  - destruct (threads q t); naive_solver.
Qed.

Lemma about_to_wake_keep q q' t :
  (∀ u, u ≠ t → wakes (threads q' u) = wakes (threads q u)) →
  (wakes (threads q t) = true → wakes (threads q' t) = true) →
  about_to_wake q → about_to_wake q'.
Proof.
  intros Hne Ht. rewrite !about_to_wake_iff. intros [u Hu]. exists u.
  destruct (decide (u = t)) as [->|Hut]; [auto|]. by rewrite Hne.
Qed.

(** A step that wakes nobody. *)
Lemma waits_step q q' t :
  waits q →
  (∀ u, u ≠ t → threads q' u = threads q u) →
  (full q = true → full q' = true) →
  (nonblock q' = true → nonblock q = true ∨ threads q' t = NbLock) →
  (msg_cnt q' ≠ 0 → msg_cnt q ≠ 0 ∨ threads q' t = PutSignal) →
  threads q t ≠ PutSignal → (wakes (threads q t) = true → wakes (threads q' t) = true) →
  (∀ x, threads q' t = PutWait x → full q' = true ∧ nonblock q' = false) →
  (∀ g, threads q' t = SwapWait g → msg_cnt q' = 0 ∧ nonblock q' = false) →
  waits q'.
Proof.
  intros [Hput Hget] Hne Hfull Hnb Hcnt Hps Hw Hpw Hsw.
  assert (Hkeep : about_to_wake q → about_to_wake q').
  { apply (about_to_wake_keep q q' t); [|done]. intros u Hu. by rewrite Hne. }
  assert (Hnb' : (nonblock q = true → about_to_wake q) → nonblock q' = true → about_to_wake q').
  { intros Hq Hq'. destruct (Hnb Hq') as [?|?]; [auto|]. exists t. auto. }
  split.
  - intros u x Hu. destruct (decide (u = t)) as [->|Hut].
    + destruct (Hpw x Hu) as [? ?]. split; [done|congruence].
    + rewrite Hne in Hu by done. destruct (Hput u x Hu) as [? ?]. auto.
  - intros u g Hu. destruct (decide (u = t)) as [->|Hut].
    + destruct (Hsw g Hu) as [? ?]. split; [done|congruence].
    + rewrite Hne in Hu by done. destruct (Hget u g Hu) as [Hc Hn]. split; [|auto].
      intros Hq'. destruct (Hcnt Hq') as [Hq|Ht]; [|left; eauto].
      destruct (Hc Hq) as [[v Hv]|?]; [left|right; auto].
      exists v. rewrite Hne; [done|]. congruence.
Qed.

Lemma waits_signal q t p :
  waits q → threads q t = PutSignal → wakes p = false → (∀ x, p ≠ PutWait x) → (∀ g, p ≠ SwapWait g) →
  waits (with_threads (<[t := p]> (λ u, wake_get (threads q u))) q).
Proof.
  intros [Hput Hget] Ht Hp Hp1 Hp2. split; cbn.
  - intros u x Hu. at_thread t u; [naive_solver|].
    destruct (Hput u x) as [? Hn]; [by destruct (threads q u)|]. split; [done|]. intros Hnb.
    apply (about_to_wake_keep q _ t); [| |auto].
    + intros v Hv. cbn. rewrite fn_lookup_insert_ne by congruence. by destruct (threads q v).
    + by rewrite Ht.
  - intros u g Hu. at_thread t u; [naive_solver|]. by destruct (threads q u).
Qed.

(** A state where nobody waits. *)
Lemma waits_none q : (∀ t x, threads q t ≠ PutWait x) → (∀ t g, threads q t ≠ SwapWait g) → waits q.
Proof. intros H1 H2. split; intros; naive_solver. Qed.

(** ** Steps of the two lists *)

Inductive moves (q : msgqueue) : list Z → list Z → label → list Z → list Z → Prop :=
  | moves_silent getl putl : moves q getl putl Silent getl putl
  | moves_put getl putl x : put_blocked q = false → moves q getl putl (Put x) getl (putl ++ [x])
  | moves_swap putl : moves q [] putl Silent putl []
  | moves_take getl putl x : moves q (x :: getl) putl (Got x) getl putl
  | moves_null getl putl : moves q getl putl GotNull getl putl.

Record inv (q : msgqueue) (getl putl : list Z) : Prop := {
  inv_locks : locks q;
  inv_lists : lists q getl putl;
  inv_waits : waits q;
}.

(** The event runs, keeps the invariant and moves the lists in one of these
    ways. *)
Definition runs_well (e : event) (q : msgqueue) (getl putl : list Z) : Prop :=
  ∃ l q' getl' putl', exec e q = Done (l, q') ∧ inv q' getl' putl' ∧ moves q getl putl l getl' putl' ∧
    msg_max q' = msg_max q ∧ (nonblock q' = true → nonblock q = true ∨ ∃ t, e = Call t OpNonblock).

(** An event that only moves a thread and its mutexes. *)
Lemma runs_silent e q q' t getl putl l :
  inv q getl putl → exec e q = Done (l, q') → moves q getl putl l getl putl →
  msg_max q' = msg_max q → mem q' = mem q → linkoff q' = linkoff q → msg_cnt q' = msg_cnt q →
  get_head q' = get_head q → put_head q' = put_head q → put_tail q' = put_tail q →
  (nonblock q' = true → nonblock q = true ∨ e = Call t OpNonblock ∧ threads q' t = NbLock) →
  (∀ u, u ≠ t → threads q' u = threads q u) →
  swapping (threads q' t) = swapping (threads q t) →
  putting (threads q' t) = putting (threads q t) →
  (threads q' t = GetTake → threads q t = GetTake ∨ getl ≠ []) →
  mutex_step (get_mutex q) (get_mutex q') t (holds_get (threads q t)) (holds_get (threads q' t)) →
  mutex_step (put_mutex q) (put_mutex q') t (holds_put (threads q t)) (holds_put (threads q' t)) →
  threads q t ≠ PutSignal → (wakes (threads q t) = true → wakes (threads q' t) = true) →
  (∀ x, threads q' t = PutWait x → full q' = true ∧ nonblock q' = false) →
  (∀ g, threads q' t = SwapWait g → msg_cnt q' = 0 ∧ nonblock q' = false) →
  runs_well e q getl putl.
Proof.
  intros [Hlk Hl Hw] Hex Hmv Hmax Hmem Hoff Hcnt Hgh Hph Hpt Hnb Hne Hsw Hput Htk Hgm Hpm Hps Hwk Hpw Hsww.
  exists l, q', getl, putl. split; [done|]. split.
  - split.
    + apply (locks_step q q' t); try done. intros u Hu. by rewrite Hne.
    + eapply lists_frame; try done. intros u. destruct (decide (u = t)) as [->|Hu]; [auto|].
      rewrite Hne by done. auto.
    + apply (waits_step q q' t); try done.
      * unfold full. by rewrite Hcnt, Hmax.
      * naive_solver.
      * rewrite Hcnt. auto.
  - split; [done|]. split; [done|]. intros Hq. destruct (Hnb Hq) as [?|[? _]]; [auto|]. eauto.
Qed.

(** ** Every event *)

(** Evaluates the step of thread [t], at the program counter [Ht] names. *)
Ltac run_step Ht :=
  cbn [exec]; unfold step; rewrite gets_bind, Ht; try reflexivity.
(** Discharges the side conditions of [runs_silent]. *)
Ltac silent Ht :=
  cbn; try done; rewrite ?Ht, ?fn_lookup_insert; cbn; unfold mutex_step; try done; try tauto; auto;
  try (intros; rewrite fn_lookup_insert_ne by congruence; done); try (intros; exfalso; congruence).

Section events.
Context (q : msgqueue) (getl putl : list Z) (t : tid).
Hypothesis Hinv : inv q getl putl.

Lemma lock_put_runs p p' :
  threads q t = p → put_mutex q = None → exec (Step t) q = lock_put t p' q →
  swapping p' = swapping p → putting p' = putting p → p' ≠ GetTake → holds_put p = false → holds_put p' = true →
  holds_get p' = holds_get p → p ≠ PutSignal → (wakes p = true → wakes p' = true) →
  (∀ x, p' ≠ PutWait x) → (∀ g, p' ≠ SwapWait g) →
  runs_well (Step t) q getl putl.
Proof.
  intros Ht Hm Hex ?????????? . eapply (runs_silent _ _ _ t); [done|rewrite Hex; reflexivity|constructor|..]; silent Ht.
Qed.

Lemma put_lock_runs x : threads q t = PutLock x → put_mutex q = None → runs_well (Step t) q getl putl.
Proof. intros Ht Hm. eapply (lock_put_runs _ (PutTest x)); [done|done|run_step Ht|done..]. Qed.
Lemma swap_lock_runs g : threads q t = SwapLock g → put_mutex q = None → runs_well (Step t) q getl putl.
Proof. intros Ht Hm. eapply (lock_put_runs _ (SwapTest g)); [done|done|run_step Ht|done..]. Qed.
Lemma nb_lock_runs : threads q t = NbLock → put_mutex q = None → runs_well (Step t) q getl putl.
Proof. intros Ht Hm. eapply (lock_put_runs _ NbSignal); [done|done|run_step Ht|done..]. Qed.

Lemma get_lock_runs : threads q t = GetLock → get_mutex q = None → runs_well (Step t) q getl putl.
Proof.
  intros Ht Hm. eapply (runs_silent _ _ _ t); [done|run_step Ht|constructor|..]; silent Ht.
Qed.

Lemma get_null_runs : threads q t = GetNull → runs_well (Step t) q getl putl.
Proof.
  intros Ht. eapply (runs_silent _ _ _ t); [done|run_step Ht|constructor|..]; silent Ht.
Qed.

Lemma call_get_runs : threads q t = Idle → runs_well (Call t OpGet) q getl putl.
Proof.
  intros Ht. eapply (runs_silent _ _ _ t); [done|reflexivity|constructor|..]; silent Ht.
Qed.

Lemma call_nonblock_runs : threads q t = Idle → runs_well (Call t OpNonblock) q getl putl.
Proof.
  intros Ht. eapply (runs_silent _ _ _ t); [done|reflexivity|constructor|..]; silent Ht.
Qed.

Lemma call_block_runs : threads q t = Idle → runs_well (Call t OpBlock) q getl putl.
Proof.
  intros Ht. eapply (runs_silent _ _ _ t); [done|reflexivity|constructor|..]; silent Ht.
Qed.

Lemma spurious_put_runs x : threads q t = PutWait x → runs_well (Spurious t) q getl putl.
Proof.
  intros Ht. eapply (runs_silent _ _ _ t); [done|cbn [exec]; rewrite modS_bind, Ht; reflexivity|constructor|..]; silent Ht.
Qed.

Lemma spurious_get_runs g : threads q t = SwapWait g → runs_well (Spurious t) q getl putl.
Proof.
  intros Ht. eapply (runs_silent _ _ _ t); [done|cbn [exec]; rewrite modS_bind, Ht; reflexivity|constructor|..]; silent Ht.
Qed.

Lemma put_wait_runs x :
  threads q t = PutTest x → put_blocked q = true → runs_well (Step t) q getl putl.
Proof.
  intros Ht Hb. eapply (runs_silent _ _ _ t);
    [done|run_step Ht; unfold msgqueue_put_test; rewrite gets_bind, Hb; reflexivity|constructor|..]; silent Ht.
  intros _ _. unfold put_blocked, full in *. cbn. apply andb_true_iff in Hb as [? Hb]. by destruct (nonblock q).
Qed.

Lemma swap_wait_runs g :
  threads q t = SwapTest g → get_blocked q = true → runs_well (Step t) q getl putl.
Proof.
  intros Ht Hb. eapply (runs_silent _ _ _ t);
    [done|run_step Ht; unfold __msgqueue_swap_test; rewrite gets_bind, Hb; reflexivity|constructor|..]; silent Ht.
  intros _ _. unfold get_blocked in *. cbn. apply andb_true_iff in Hb as [Hc%bool_decide_eq_true_1 Hb].
  by destruct (nonblock q).
Qed.
End events.

(** A write to a link that is there. *)
Lemma store_Done q c v w : mem q !! c = Some w → store c v q = Done ((), with_mem (<[c := v]> (mem q)) q).
Proof. intros Hc. unfold store. apply modO_Done. by rewrite Hc. Qed.

Lemma load_Done q c v : mem q !! c = Some v → load c q = Done (v, q).
Proof. intros Hc. unfold load. by apply getsO_Done. Qed.

Section moving_events.
Context (q : msgqueue) (getl putl : list Z) (t : tid).
Hypothesis Hinv : inv q getl putl.

Lemma call_put_runs x :
  legal q (getl ++ putl) (Call t (OpPut x)) → runs_well (Call t (OpPut x)) q getl putl.
Proof.
  destruct Hinv as [Hlk Hl Hw]. intros (Ht & Hr & Hb). eexists _, _, _, _. split; [reflexivity|]. split; [split|].
  - apply (locks_step q _ t); [done|..]; cbn.
    + intros u Hu. by rewrite fn_lookup_insert_ne by done.
    + rewrite fn_lookup_insert, Ht. by left.
    + rewrite fn_lookup_insert, Ht. by left.
  - by apply (lists_put_enter q getl putl t x).
  - apply (waits_step q _ t); [done|..]; cbn; rewrite ?fn_lookup_insert, ?Ht; auto; try done.
    intros u Hu. by rewrite fn_lookup_insert_ne.
  - split; [constructor|]. split; [done|]. cbn. auto.
Qed.

Lemma client_runs a v : ¬ busy q (getl ++ putl) a → runs_well (Client a v) q getl putl.
Proof.
  destruct Hinv as [Hlk Hl Hw]. intros Hb. eexists _, _, _, _. split; [reflexivity|]. split; [split|].
  - destruct Hlk. by split.
  - by apply (lists_mem q getl putl a v).
  - destruct Hw. by split.
  - split; [constructor|]. split; [done|]. cbn. auto.
Qed.

Lemma append_runs x :
  threads q t = PutTest x → put_blocked q = false → runs_well (Step t) q getl putl.
Proof.
  destruct Hinv as [Hlk Hl Hw]. intros Ht Hb.
  pose proof (chain_end _ _ _ _ _ (lists_put _ _ _ Hl)) as Htail.
  pose proof (lists_append q getl putl t x Hl Ht) as Hl'.
  eexists _, _, _, _. split.
  { run_step Ht. unfold msgqueue_put_test. rewrite gets_bind, Hb, !gets_bind.
    rewrite (bind_Done _ _ _ _ _ (store_Done _ _ _ _ Htail)). reflexivity. }
  split; [split|].
  - apply (locks_step q _ t); [done|..]; cbn.
    + intros u Hu. by rewrite fn_lookup_insert_ne by done.
    + rewrite fn_lookup_insert, Ht. by left.
    + rewrite fn_lookup_insert, Ht. right. by right.
  - exact Hl'.
  - pose proof (lists_cnt _ _ _ Hl') as Hcnt. cbn in Hcnt.
    apply (waits_step q _ t); [done|..]; cbn; rewrite ?fn_lookup_insert, ?Ht; auto; try done.
    + intros u Hu. by rewrite fn_lookup_insert_ne.
    + unfold full. cbn. rewrite Hcnt, (lists_cnt _ _ _ Hl), zlength_app, !bool_decide_eq_true. unfold zlength. cbn. lia.
  - split; [by constructor|]. split; [done|]. cbn. auto.
Qed.

Lemma put_signal_runs : threads q t = PutSignal → runs_well (Step t) q getl putl.
Proof.
  destruct Hinv as [Hlk Hl Hw]. intros Ht.
  assert (Hfr : ∀ u, u ≠ t → (<[t := Idle]> (λ u, wake_get (threads q u)) : tid → pc) u = wake_get (threads q u))
    by (intros u Hu; by rewrite fn_lookup_insert_ne).
  eexists _, _, _, _. split; [run_step Ht|]. split; [split|].
  - apply (locks_step q _ t); [done|..]; cbn.
    + intros u Hu. rewrite Hfr by done. destruct (wake_get_frame (threads q u)) as (? & ? & _). auto.
    + rewrite fn_lookup_insert, Ht. by left.
    + rewrite fn_lookup_insert, Ht. by left.
  - eapply lists_frame; [exact Hl|done..|]. intros u. cbn. destruct (decide (u = t)) as [->|Hu].
    + by rewrite fn_lookup_insert, Ht.
    + rewrite Hfr by done. destruct (wake_get_frame (threads q u)) as (_ & _ & ? & ?). split_and!; [done..|].
      destruct (threads q u); naive_solver.
  - by apply (waits_signal q t Idle).
  - split; [constructor|]. split; [done|]. cbn. auto.
Qed.

Lemma nb_signal_runs : threads q t = NbSignal → runs_well (Step t) q getl putl.
Proof.
  destruct Hinv as [Hlk Hl Hw]. intros Ht.
  set (w := λ u, wake_put (wake_get (threads q u))).
  assert (Hfr : ∀ u, u ≠ t → (<[t := Idle]> w : tid → pc) u = w u)
    by (intros u Hu; by rewrite fn_lookup_insert_ne).
  assert (Hw' : ∀ u, holds_get (w u) = holds_get (threads q u) ∧ holds_put (w u) = holds_put (threads q u) ∧
    swapping (w u) = swapping (threads q u) ∧ putting (w u) = putting (threads q u) ∧ (w u = GetTake → threads q u = GetTake)).
  { intros u. unfold w. by destruct (threads q u). }
  eexists _, _, _, _. split; [run_step Ht|]. split; [split|].
  - apply (locks_step q _ t); [done|..]; cbn.
    + intros u Hu. rewrite Hfr by done. destruct (Hw' u) as (? & ? & _). auto.
    + rewrite fn_lookup_insert, Ht. by left.
    + rewrite fn_lookup_insert, Ht. right. by right.
  - eapply lists_frame; [exact Hl|done..|]. intros u. cbn. destruct (decide (u = t)) as [->|Hu].
    + by rewrite fn_lookup_insert, Ht.
    + rewrite Hfr by done. destruct (Hw' u) as (_ & _ & ? & ? & ?). auto.
  - apply waits_none; cbn; intros u y; destruct (decide (u = t)) as [->|Hu];
      rewrite ?fn_lookup_insert, ?Hfr by done; try done; unfold w; by destruct (threads q u).
  - split; [constructor|]. split; [done|]. cbn. auto.
Qed.

Lemma get_test_runs : threads q t = GetTest → runs_well (Step t) q getl putl.
Proof.
  intros Ht. destruct Hinv as [Hlk Hl Hw].
  destruct (get_first q getl putl t) as [Hfirst Hne]; [done|done|by rewrite Ht..|].
  assert (Hload : load (get_head q) q = Done (match getl with [] => 0 | x :: _ => x + linkoff q end, q))
    by by apply load_Done.
  destruct getl as [|x getl'].
  - pose proof (lists_start_swap q putl t Hlk Hl Ht) as Hl'.
    eexists _, _, _, _. split.
    { run_step Ht. unfold msgqueue_get_test. rewrite gets_bind, (bind_Done _ _ _ _ _ Hload). reflexivity. }
    split; [split|].
    + apply (locks_step q _ t); [done|..]; cbn.
      * intros u Hu. by rewrite fn_lookup_insert_ne by done.
      * rewrite fn_lookup_insert, Ht. by left.
      * rewrite fn_lookup_insert, Ht. by left.
    + exact Hl'.
    + apply (waits_step q _ t); [done|..]; cbn; rewrite ?fn_lookup_insert, ?Ht; auto; try done.
      intros u Hu. by rewrite fn_lookup_insert_ne.
    + split; [constructor|]. split; [done|]. cbn. auto.
  - eapply (runs_silent _ _ _ t); [done| |constructor|..].
    { run_step Ht. unfold msgqueue_get_test. rewrite gets_bind, (bind_Done _ _ _ _ _ Hload).
      rewrite decide_True by naive_solver. reflexivity. }
    all: silent Ht.
Qed.

Lemma take_runs : threads q t = GetTake → runs_well (Step t) q getl putl.
Proof.
  intros Ht. destruct Hinv as [Hlk Hl Hw].
  destruct (get_first q getl putl t) as [Hfirst Hne]; [done|done|by rewrite Ht..|].
  destruct getl as [|x getl']; [by apply (lists_take _ _ _ Hl) in Ht|].
  destruct (lists_take_first q x getl' putl t Hlk Hl Ht) as (next & Hnext & Hl').
  eexists _, _, _, _. split.
  { run_step Ht. unfold msgqueue_get_take. rewrite gets_bind, (bind_Done _ _ _ _ _ (load_Done _ _ _ Hfirst)), gets_bind.
    rewrite (bind_Done _ _ _ _ _ (load_Done _ _ _ Hnext)), (bind_Done _ _ _ _ _ (store_Done _ _ _ _ Hfirst)).
    reflexivity. }
  split; [split|].
  - apply (locks_step q _ t); [done|..]; cbn.
    + intros u Hu. by rewrite fn_lookup_insert_ne by done.
    + rewrite fn_lookup_insert, Ht. right. by right.
    + rewrite fn_lookup_insert, Ht. by left.
  - exact Hl'.
  - apply (waits_step q _ t); [done|..]; cbn; rewrite ?fn_lookup_insert, ?Ht; auto; try done.
    intros u Hu. by rewrite fn_lookup_insert_ne.
  - replace (x + linkoff q - linkoff q) with x by lia. split; [constructor|]. split; [done|]. cbn. auto.
Qed.

Lemma swap_runs g : threads q t = SwapTest g → get_blocked q = false → runs_well (Step t) q getl putl.
Proof.
  intros Ht Hb. destruct Hinv as [Hlk Hl Hw].
  destruct (lists_swap _ _ _ Hl t g) as (-> & _ & ->); [by rewrite Ht|].
  set (p := if decide (0 < msg_cnt q) then GetTake else GetNull).
  set (f := <[t := p]> (if full q then (λ u, wake_put (threads q u)) else threads q) : tid → pc).
  assert (Hf : ∀ u, u ≠ t → f u = wake_put (threads q u) ∨ f u = threads q u).
  { intros u Hu. unfold f. rewrite fn_lookup_insert_ne by done. destruct (full q); auto. }
  assert (Hft : f t = p) by (unfold f; by rewrite fn_lookup_insert).
  exists Silent, (with_threads f (with_put_mutex None (with_cnt 0
    (with_put_tail (other (put_head q)) (with_put_head (other (put_head q)) q))))), putl, [].
  split; [|split; [split|]].
  - run_step Ht. unfold __msgqueue_swap_test. rewrite gets_bind, Hb, !gets_bind. unfold f. by destruct (full q).
  - apply (locks_step q _ t); [done|..]; cbn.
    + intros u Hu. destruct (wake_put_frame (threads q u)) as (? & ? & _). by destruct (Hf u Hu) as [-> | ->].
    + rewrite Hft, Ht. left. split; [done|]. unfold p. by case_decide.
    + rewrite Hft, Ht. right. right. split; [done|]. split; [done|]. unfold p. by case_decide.
  - by apply (lists_finish_swap q putl t).
  - apply waits_none; cbn; intros u y; destruct (decide (u = t)) as [->|Hu].
    + rewrite Hft. unfold p. by case_decide.
    + intros Hy. unfold f in Hy. rewrite fn_lookup_insert_ne in Hy by done. destruct (full q) eqn:Hfull.
      * by destruct (threads q u).
      * apply (waits_put q Hw u y) in Hy as [? _]. congruence.
    + rewrite Hft. unfold p. by case_decide.
    + intros Hy. pose proof (lone_getter q t u Hlk) as Hlone. rewrite Ht in Hlone. specialize (Hlone eq_refl Hu).
      by destruct (Hf u Hu) as [He|He]; rewrite He in Hy; destruct (threads q u).
  - split; [constructor|]. split; [done|]. cbn. auto.
Qed.
End moving_events.

(** Every legal event is defined, keeps the invariant and moves the two lists
    as [moves] says. *)
Lemma legal_runs q getl putl e : inv q getl putl → legal q (getl ++ putl) e → runs_well e q getl putl.
Proof.
  intros Hinv. destruct e as [t [x| | |]|t|t|a v]; cbn [legal].
  - intros Hl. by apply call_put_runs.
  - by apply call_get_runs.
  - by apply call_nonblock_runs.
  - by apply call_block_runs.
  - unfold enabled. destruct (threads q t) as [|x|x|x| | | |g|g|g| | | |] eqn:Ht;
      rewrite ?bool_decide_eq_true; intros He; try done.
    + by eapply put_lock_runs.
    + destruct (put_blocked q) eqn:Hb; [by eapply put_wait_runs|by eapply append_runs].
    + by apply put_signal_runs.
    + by apply get_lock_runs.
    + by apply get_test_runs.
    + by eapply swap_lock_runs.
    + destruct (get_blocked q) eqn:Hb; [by eapply swap_wait_runs|by eapply swap_runs].
    + by apply take_runs.
    + by apply get_null_runs.
    + by eapply nb_lock_runs.
    + by apply nb_signal_runs.
  - intros [[x Ht]|[g Ht]]; [by eapply spurious_put_runs|by eapply spurious_get_runs].
  - by apply client_runs.
Qed.

(** ** The queue *)

Lemma lists_fresh maxlen off : lists (fresh maxlen off) [] [].
Proof.
  split; cbn; try done.
  - auto.
  - by exists Head1.
  - apply NoDup_nil_2.
  - set_solver.
Qed.

Lemma inv_fresh maxlen off : inv (fresh maxlen off) [] [].
Proof. split; [by split|apply lists_fresh|by apply waits_none]. Qed.

Section reachable.
Context (ok : event → Prop) (maxlen off : Z).

Lemma reachable_inv q puts gots :
  reachable ok (fresh maxlen off) q puts gots →
  ∃ getl putl, inv q getl putl ∧ puts = gots ++ getl ++ putl ∧ msg_max q = maxlen.
Proof.
  induction 1 as [|q puts gots e l q' _ (getl & putl & Hinv & -> & Hmax) _ Hlegal Hex].
  - exists [], []. split; [apply inv_fresh|done].
  - rewrite drop_app_length in Hlegal.
    destruct (legal_runs q getl putl e Hinv Hlegal) as (l' & q'' & getl' & putl' & Hex' & Hinv' & Hmv & Hmax' & _).
    rewrite Hex in Hex'. injection Hex' as <- <-. exists getl', putl'.
    split; [done|]. split; [|congruence].
    destruct Hmv; cbn; rewrite ?app_nil_r, <-?(assoc (++)); done.
Qed.

(** In blocking mode both lists stay within the capacity. *)
Lemma reachable_bounded q puts gots :
  (∀ e, ok e → ∀ t, e ≠ Call t OpNonblock) → 1 ≤ maxlen < 2 ^ 64 →
  reachable ok (fresh maxlen off) q puts gots →
  ∃ getl putl, inv q getl putl ∧ puts = gots ++ getl ++ putl ∧ msg_max q = maxlen ∧ nonblock q = false ∧
    zlength getl ≤ maxlen ∧ zlength putl ≤ maxlen.
Proof.
  intros Hok Hmaxlen.
  induction 1 as [|q puts gots e l q' _ (getl & putl & Hinv & -> & Hmax & Hnb & Hg & Hp) He Hlegal Hex].
  - exists [], []. split; [apply inv_fresh|]. unfold zlength. cbn. split_and!; done || lia.
  - rewrite drop_app_length in Hlegal.
    destruct (legal_runs q getl putl e Hinv Hlegal) as (l' & q'' & getl' & putl' & Hex' & Hinv' & Hmv & Hmax' & Hnb').
    rewrite Hex in Hex'. injection Hex' as <- <-. exists getl', putl'.
    split; [done|]. split; [by destruct Hmv; cbn; rewrite ?app_nil_r, <-?(assoc (++))|].
    split; [congruence|]. split.
    { apply not_true_iff_false. intros Hq. destruct (Hnb' Hq) as [?|[t ->]]; [congruence|by apply (Hok _ He t)]. }
    pose proof (lists_cnt _ _ _ (inv_lists _ _ _ Hinv)) as Hcnt.
    destruct Hmv as [?|g p x Hb|?|?|?]; [done| |unfold zlength in *; cbn in *; lia|unfold zlength in *; cbn in *; lia|done].
    split; [done|]. unfold put_blocked, full in Hb. rewrite Hnb, andb_true_r, bool_decide_eq_false in Hb.
    rewrite Hmax in Hb. unfold u64 in Hb. rewrite wrap_small in Hb by lia.
    rewrite zlength_app. unfold zlength at 2. cbn. lia.
Qed.
End reachable.

(** C1: the queue is first in first out for any number of producers and
    consumers: in every reachable state the messages returned so far are the
    first of those put so far, in the order they were put, none lost or
    returned twice; and no legal event is undefined, no matter what the
    program writes to messages it has got back. *)
Theorem msgqueue_fifo ok maxlen off q puts gots :
  reachable ok (fresh maxlen off) q puts gots →
  gots `prefix_of` puts ∧
  ∀ e, legal q (drop (length gots) puts) e → ∃ l q', exec e q = Done (l, q').
Proof.
  intros Hr. destruct (reachable_inv _ _ _ _ _ _ Hr) as (getl & putl & Hinv & -> & _).
  split; [by eexists|]. intros e Hlegal. rewrite drop_app_length in Hlegal.
  destruct (legal_runs q getl putl e Hinv Hlegal) as (l & q' & _ & _ & Hex & _). eauto.
Qed.

(** C2: while nobody makes the queue nonblocking, at most twice the capacity
    of messages is pending, for a capacity of at least one. *)
Theorem msgqueue_pending_bound ok maxlen off q puts gots :
  (∀ e, ok e → ∀ t, e ≠ Call t OpNonblock) → 1 ≤ maxlen < 2 ^ 64 →
  reachable ok (fresh maxlen off) q puts gots →
  zlength puts - zlength gots ≤ 2 * maxlen.
Proof.
  intros Hok Hm Hr. destruct (reachable_bounded _ _ _ _ _ _ Hok Hm Hr) as (getl & putl & _ & -> & _ & _ & Hg & Hp).
  rewrite !zlength_app. lia.
Qed.

(** C3: no wakeup is lost.  Where no thread can take a step, every thread is
    outside the queue, waits in msgqueue_get on a queue that is blocking and
    empty, waits behind that thread for its turn, or waits in msgqueue_put on
    a queue that is blocking and has no room. *)
Theorem msgqueue_stuck ok maxlen off q puts gots :
  reachable ok (fresh maxlen off) q puts gots →
  (∀ t, enabled t q = false) →
  ∀ t, threads q t = Idle ∨
       (∃ g, threads q t = SwapWait g ∧ gots = puts ∧ nonblock q = false) ∨
       (threads q t = GetLock ∧ ∃ t' g, threads q t' = SwapWait g) ∨
       (∃ x, threads q t = PutWait x ∧ full q = true ∧ nonblock q = false).
Proof.
  intros Hr Hdis. destruct (reachable_inv _ _ _ _ _ _ Hr) as (getl & putl & [Hlk Hl Hw] & -> & _).
  assert (Hpm : put_mutex q = None).
  { destruct (put_mutex q) as [u|] eqn:Hu; [|done]. apply (locks_put q Hlk) in Hu.
    specialize (Hdis u). unfold enabled in Hdis. by destruct (threads q u). }
  assert (Hno : ∀ u, threads q u ≠ PutSignal ∧ wakes (threads q u) = false).
  { intros u. specialize (Hdis u). unfold enabled in Hdis. rewrite Hpm in Hdis. by destruct (threads q u). }
  assert (Hnw : ¬ about_to_wake q).
  { rewrite about_to_wake_iff. intros [u Hu]. destruct (Hno u) as [_ Hu']. congruence. }
  intros t. pose proof (Hdis t) as Ht. unfold enabled in Ht. rewrite Hpm in Ht.
  destruct (threads q t) as [| |x|x| | | | |x|g| | | |] eqn:Hpc; try done; [by left|..].
  - right. right. right. exists x. destruct (waits_put q Hw t x Hpc) as [Hfull Hnb].
    split_and!; [done..|]. destruct (nonblock q); [|done]. by destruct (Hnw (Hnb eq_refl)).
  - right. right. left. split; [done|]. apply bool_decide_eq_false in Ht.
    destruct (get_mutex q) as [u|] eqn:Hu; [|done]. apply (locks_get q Hlk) in Hu. exists u.
    specialize (Hdis u). unfold enabled in Hdis. rewrite Hpm in Hdis. destruct (threads q u); try done. eauto.
  - right. left. exists g. split; [done|]. destruct (waits_get q Hw t g Hpc) as [Hcnt Hnb].
    destruct (lists_swap _ _ _ Hl t g) as (_ & _ & ->); [by rewrite Hpc|].
    split.
    + rewrite (lists_cnt _ _ _ Hl) in Hcnt. destruct putl; [by rewrite app_nil_r|].
      destruct Hcnt as [[u Hu]|?]; [done| |done]. by destruct (Hno u).
    + destruct (nonblock q); [|done]. by destruct (Hnw (Hnb eq_refl)).
Qed.

(** A capacity of 0 is not a capacity: [msg_max - 1] is the largest [size_t]
    and msgqueue_put never blocks. *)
Lemma zero_never_blocks q : msg_max q = 0 → msg_cnt q < 2 ^ 64 → put_blocked q = false.
Proof.
  intros Hm Hc. unfold put_blocked, full. rewrite Hm. change (u64 (0 - 1)) with (2 ^ 64 - 1).
  by rewrite bool_decide_eq_false_2 by lia.
Qed.

(** ** Examples *)

Lemma reachable_next ok q0 q puts gots e l q' puts' gots' :
  reachable ok q0 q puts gots → ok e → legal q (drop (length gots) puts) e → exec e q = Done (l, q') →
  puts' = puts ++ put_of l → gots' = gots ++ got_of l → reachable ok q0 q' puts' gots'.
Proof. intros. subst. by eapply reachable_step. Qed.

(** Extends the run [H] by an event that needs no freshness of links. *)
Ltac play H e :=
  eapply (reachable_next _ _ _ _ _ e) in H; [|done|done|vm_compute; reflexivity|reflexivity|reflexivity];
  cbn [put_of got_of app] in H.

Definition blocking_only (e : event) : Prop := ∀ t, e ≠ Call t OpNonblock.

(** Thread 0 puts a message, thread 1 takes it. *)
Example put_then_get : ∃ q, reachable blocking_only (fresh 1 8) q [24] [24].
Proof.
  pose proof (reachable_init blocking_only (fresh 1 8)) as H.
  eapply (reachable_next _ _ _ _ _ (Call 0%nat (OpPut 24))) in H;
    [|done| |vm_compute; reflexivity|reflexivity|reflexivity]; cbn [put_of got_of app] in H.
  2:{ split; [done|]. split; [done|]. intros [Hin|(t & m & Hm & _)]; [by apply elem_of_nil in Hin|done]. }
  play H (Step 0%nat). play H (Step 0%nat). play H (Step 0%nat).
  play H (Call 1%nat OpGet).
  play H (Step 1%nat). play H (Step 1%nat). play H (Step 1%nat). play H (Step 1%nat). play H (Step 1%nat).
  eexists. exact H.
Qed.

Lemma msgqueue_fifo_witness : ∃ q, reachable blocking_only (fresh 1 8) q [24] [24] ∧ [24] `prefix_of` [24].
Proof.
  destruct put_then_get as [q Hq]. exists q. split; [exact Hq|].
  exact (proj1 (msgqueue_fifo blocking_only 1 8 q [24] [24] Hq)).
Defined.

Lemma msgqueue_pending_bound_witness :
  ∃ q, reachable blocking_only (fresh 1 8) q [24] [24] ∧ zlength [24] - zlength [24] ≤ 2 * 1.
Proof.
  destruct put_then_get as [q Hq]. exists q. split; [exact Hq|].
  apply (msgqueue_pending_bound blocking_only 1 8 q [24] [24]); [by intros e He|lia|exact Hq].
Defined.

(** A consumer that waits on an empty queue. *)
Example get_on_empty : ∃ q, reachable blocking_only (fresh 1 8) q [] [] ∧
  (∀ t, enabled t q = false) ∧ threads q 1%nat = SwapWait Head1.
Proof.
  pose proof (reachable_init blocking_only (fresh 1 8)) as H.
  play H (Call 1%nat OpGet).
  play H (Step 1%nat). play H (Step 1%nat). play H (Step 1%nat). play H (Step 1%nat).
  eexists. split; [exact H|]. split; [|reflexivity].
  intros t. by destruct t as [|[|t]].
Qed.

Lemma msgqueue_stuck_witness : ∃ q, reachable blocking_only (fresh 1 8) q [] [] ∧
  (threads q 1%nat = Idle ∨ (∃ g, threads q 1%nat = SwapWait g ∧ [] = @nil Z ∧ nonblock q = false) ∨
   (threads q 1%nat = GetLock ∧ ∃ t' g, threads q t' = SwapWait g) ∨
   (∃ x, threads q 1%nat = PutWait x ∧ full q = true ∧ nonblock q = false)).
Proof.
  destruct get_on_empty as (q & Hr & Hd & _). exists q. split; [exact Hr|].
  exact (msgqueue_stuck blocking_only 1 8 q [] [] Hr Hd 1%nat).
Defined.

(** ** Creation and destruction *)

(** What a queue owns of the system. *)
Inductive resource := Memory | GetMutex | PutMutex | GetCond | PutCond.
#[export] Instance resource_eq_dec : EqDecision resource.
Proof. solve_decision. Defined.

Record world := World { held : list resource; errno : Z }.

Section creation.
(** Whether malloc has memory, and the result of each pthread initialiser: 0
    for success. *)
Context (malloc_ok : bool) (init_result : resource → Z).

Definition pthread_init (r : resource) : prog world Z :=
  (if decide (init_result r = 0) then modS (λ w, World (r :: held w) (errno w)) else mret ());;
  mret (init_result r).
(** Giving back what is not held is undefined. *)
Definition release (r : resource) : prog world unit :=
  modO (λ w, if decide (r ∈ held w) then Some (World (filter (λ r', r' ≠ r) (held w)) (errno w)) else None).

(** Initialises [r] and goes on with [body]; the queue, or the code of the
    first failure with [r] destroyed. *)
Definition init_then (r : resource) (body : prog world (msgqueue + Z)) : prog world (msgqueue + Z) :=
  ret ← pthread_init r;
  if decide (ret = 0) then
    b ← body;
    match b with
    | inl q => mret (inl q)
    | inr ret => release r;; mret (inr ret)
    end
  else mret (inr ret).

Definition msgqueue_create (maxlen linkoff : Z) : prog world (option msgqueue) :=
  if malloc_ok then
    modS (λ w, World (Memory :: held w) (errno w));;
    r ← init_then GetMutex (init_then PutMutex (init_then GetCond (init_then PutCond
          (mret (inl (fresh maxlen linkoff))))));
    match r with
    | inl q => mret (Some q)
    | inr ret =>
        modS (λ w, World (held w) ret);;
        release Memory;; mret None
    end
  else mret None.

Definition msgqueue_destroy : prog world unit :=
  release PutCond;; release GetCond;; release PutMutex;; release GetMutex;; release Memory.

(** The first initialiser that fails. *)
Definition first_failure : option Z :=
  head (filter (λ c, c ≠ 0) (init_result <$> [GetMutex; PutMutex; GetCond; PutCond])).

Lemma init_then_run r body w :
  init_then r body w =
  if decide (init_result r = 0) then
    match body (World (r :: held w) (errno w)) with
    | Done (inl q, w') => Done (inl q, w')
    | Done (inr c, w') => (release r;; mret (inr c)) w'
    | Undef => Undef
    | NoFuel => NoFuel
    end
  else Done (inr (init_result r), w).
Proof.
  unfold init_then. rewrite (bind_Done (pthread_init r) _ w (init_result r)
    (if decide (init_result r = 0) then World (r :: held w) (errno w) else w)).
  - destruct (decide (init_result r = 0)) as [Hr|Hr]; [|done].
    unfold mbind at 1, prog_bind at 1. by destruct (body _) as [[[q|c] w1]| |].
  - unfold pthread_init. by destruct (decide (init_result r = 0)).
Qed.

(** Either everything is there and the queue is empty, or everything is given
    back and [errno] is the reason. *)
Lemma msgqueue_create_spec maxlen off e :
  msgqueue_create maxlen off (World [] e) =
  if malloc_ok then
    match first_failure with
    | None => Done (Some (fresh maxlen off), World [PutCond; GetCond; PutMutex; GetMutex; Memory] e)
    | Some ret => Done (None, World [] ret)
    end
  else Done (None, World [] e).
Proof.
  unfold msgqueue_create, first_failure. cbn [fmap list_fmap]. destruct malloc_ok; [|done].
  rewrite modS_bind. unfold mbind at 1, prog_bind at 1. rewrite !init_then_run. cbn [held errno].
  repeat (case_decide; [rewrite filter_cons_False by lia|rewrite filter_cons_True by done; reflexivity]).
  reflexivity.
Qed.

Lemma msgqueue_destroy_spec e :
  msgqueue_destroy (World [PutCond; GetCond; PutMutex; GetMutex; Memory] e) = Done ((), World [] e).
Proof. done. Qed.
End creation.

End MsgQueue.
