(* ===== verification/RingBuffer.v ===== *)
(** The ring of one producer and one consumer of free_queue/ringbuffer.h.

    Each step of a thread is one access to shared memory.  The slots are plain
    memory: constructing an object over one that is there, or taking one that
    is not, has no result, so that the theorem of safety shows that the two
    threads never touch the same slot. *)
From S2P Require Import Prelude.

Open Scope Z_scope.

Module RingBuffer.
Section ring.
Context {T : Type} (Capacity : Z).

(** Where the producer is in [Push] and the consumer in [Pop]. *)
Inductive push_pc :=
  | PushIdle
  | PushLoad (value : T)                  (** before the load of [write_] *)
  | PushCheck (value : T) (w : Z)         (** before the load of [read_] *)
  | PushConstruct (value : T) (w next_w : Z)
  | PushPublish (next_w : Z).             (** before the store to [write_] *)
Inductive pop_pc :=
  | PopIdle
  | PopLoad
  | PopCheck (r : Z)
  | PopTake (r : Z)
  | PopPublish (r : Z).

Record RingBuffer := Ring {
  read_ : Z;
  write_ : Z;
  buffer_ : list (option T);
  producer : push_pc;
  consumer : pop_pc;
}.
Abbreviation act A := (prog RingBuffer A).

Definition set_read r s := Ring r (write_ s) (buffer_ s) (producer s) (consumer s).
Definition set_write w s := Ring (read_ s) w (buffer_ s) (producer s) (consumer s).
Definition set_buffer b s := Ring (read_ s) (write_ s) b (producer s) (consumer s).
Definition set_producer p s := Ring (read_ s) (write_ s) (buffer_ s) p (consumer s).
Definition set_consumer c s := Ring (read_ s) (write_ s) (buffer_ s) (producer s) c.

(** The constructor. *)
Definition empty_ring : RingBuffer := Ring 0 0 (replicate (Z.to_nat Capacity) None) PushIdle PopIdle.

(** [(i + 1) & (Capacity - 1)] *)
Definition succ_index (i : Z) : Z := Z.land (i + 1) (Capacity - 1).

(** [new (&buffer_[w]) T(value)] in an empty slot. *)
Definition construct (i : Z) (v : T) : act unit :=
  modO (λ s, match zlookup (buffer_ s) i with
             | Some None => Some (set_buffer (zinsert i (Some v) (buffer_ s)) s)
             | _ => None
             end).
(** The move out of a slot and the destructor. *)
Definition take_slot (i : Z) : act T :=
  v ← getsO (λ s, match zlookup (buffer_ s) i with Some (Some v) => Some v | _ => None end);
  modS (λ s, set_buffer (zinsert i None (buffer_ s)) s);;
  mret v.

Inductive label := Silent | Pushed (v : T) | PushFull | Popped (v : T) | PopEmpty.

Definition Push (value : T) : act label := modS (set_producer (PushLoad value));; mret Silent.
Definition Push_step : act label :=
  p ← gets producer;
  match p with
  | PushIdle => undef
  | PushLoad v => w ← gets write_; modS (set_producer (PushCheck v w));; mret Silent
  | PushCheck v w =>
      let next_w := succ_index w in
      r ← gets read_;
      if decide (next_w = r) then modS (set_producer PushIdle);; mret PushFull
      else modS (set_producer (PushConstruct v w next_w));; mret Silent
  | PushConstruct v w next_w =>
      construct w v;; modS (set_producer (PushPublish next_w));; mret (Pushed v)
  | PushPublish next_w => modS (set_write next_w);; modS (set_producer PushIdle);; mret Silent
  end.

Definition Pop : act label := modS (set_consumer PopLoad);; mret Silent.
Definition Pop_step : act label :=
  c ← gets consumer;
  match c with
  | PopIdle => undef
  | PopLoad => r ← gets read_; modS (set_consumer (PopCheck r));; mret Silent
  | PopCheck r =>
      w ← gets write_;
      if decide (r = w) then modS (set_consumer PopIdle);; mret PopEmpty
      else modS (set_consumer (PopTake r));; mret Silent
  | PopTake r => v ← take_slot r; modS (set_consumer (PopPublish r));; mret (Popped v)
  | PopPublish r => modS (set_read (succ_index r));; modS (set_consumer PopIdle);; mret Silent
  end.

(** [Size], when the two loads are [r] and [w]. *)
Definition Size (r w : Z) : Z := if decide (r ≤ w) then w - r else Capacity - r + w.

(** The loop of the destructor. *)
Fixpoint destroy_loop (fuel : nat) (r w : Z) : act unit :=
  match fuel with
  | O => out_of_fuel
  | S fuel => if decide (r ≠ w) then take_slot r;; destroy_loop fuel (succ_index r) w else mret ()
  end.
Definition destroy : act unit :=
  r ← gets read_; w ← gets write_; destroy_loop (S (Z.to_nat Capacity)) r w.

(** ** Interleaving *)

Inductive event := CallPush (v : T) | StepPush | CallPop | StepPop.
Definition exec (e : event) : act label :=
  match e with CallPush v => Push v | StepPush => Push_step | CallPop => Pop | StepPop => Pop_step end.
Definition enabled (s : RingBuffer) (e : event) : Prop :=
  match e with
  | CallPush _ => producer s = PushIdle
  | StepPush => producer s ≠ PushIdle
  | CallPop => consumer s = PopIdle
  | StepPop => consumer s ≠ PopIdle
  end.

Definition pushed_of (l : label) : list T := match l with Pushed v => [v] | _ => [] end.
Definition popped_of (l : label) : list T := match l with Popped v => [v] | _ => [] end.

Inductive reachable : RingBuffer → list T → list T → Prop :=
  | reachable_init : reachable empty_ring [] []
  | reachable_step s ins outs e l s' :
      reachable s ins outs → enabled s e → exec e s = Done (l, s') →
      reachable s' (ins ++ pushed_of l) (outs ++ popped_of l).

(** ** Invariant *)

(** An object is in its slot before [write_] says so, and out of it before
    [read_] does: one more or less, in the middle of an operation. *)
Definition publishing (s : RingBuffer) : Z := match producer s with PushPublish _ => 1 | _ => 0 end.
Definition releasing (s : RingBuffer) : Z := match consumer s with PopPublish _ => 1 | _ => 0 end.

Record inv (s : RingBuffer) (ins outs : list T) : Prop := {
  inv_prefix : outs = take (length outs) ins;
  inv_read : read_ s = (zlength outs - releasing s) mod Capacity;
  inv_write : write_ s = (zlength ins - publishing s) mod Capacity;
  inv_room : zlength ins - (zlength outs - releasing s) ≤ Capacity - 1;
  inv_releasing : releasing s ≤ zlength outs;
  inv_publishing : zlength outs ≤ zlength ins - publishing s;
  inv_length : zlength (buffer_ s) = Capacity;
  inv_full k : zlength outs ≤ k < zlength ins → zlookup (buffer_ s) (k mod Capacity) = Some (zlookup ins k);
  inv_empty k : zlength ins ≤ k < zlength outs + Capacity → zlookup (buffer_ s) (k mod Capacity) = Some None;
  inv_producer :
    match producer s with
    | PushIdle | PushLoad _ => True
    | PushCheck _ w => w = write_ s
    | PushConstruct _ w next_w =>
        w = write_ s ∧ next_w = succ_index w ∧ zlength ins - (zlength outs - releasing s) < Capacity - 1
    | PushPublish next_w => next_w = succ_index (write_ s)
    end;
  inv_consumer :
    match consumer s with
    | PopIdle | PopLoad => True
    | PopCheck r => r = read_ s
    | PopTake r => r = read_ s ∧ zlength outs < zlength ins - publishing s
    | PopPublish r => r = read_ s
    end;
}.
End ring.

(** ** Safety *)

Section proofs.
Context {T : Type} (n : Z).
Hypothesis Hn : 0 ≤ n.
Abbreviation Capacity := (2 ^ n) (only parsing).
Implicit Types (s : @RingBuffer T) (ins outs : list T).

Lemma capacity_pos : 1 ≤ Capacity.
Proof. pose proof (Z.pow_pos_nonneg 2 n). lia. Qed.

Lemma succ_index_mod i : succ_index Capacity i = (i + 1) mod Capacity.
Proof.
  unfold succ_index. replace (Capacity - 1) with (Z.ones n) by (rewrite Z.ones_equiv; lia). by apply Z.land_ones.
Qed.

Lemma succ_index_of a : succ_index Capacity (a mod Capacity) = (a + 1) mod Capacity.
Proof. rewrite succ_index_mod. pose proof capacity_pos. apply Zplus_mod_idemp_l. Qed.

(** Two counters less than a round apart are in the same slot only when they
    are equal. *)
Lemma slot_inj a b : a ≤ b < a + Capacity → a mod Capacity = b mod Capacity → a = b.
Proof.
  pose proof capacity_pos. intros Hab Heq.
  pose proof (Z.div_mod a Capacity ltac:(lia)). pose proof (Z.div_mod b Capacity ltac:(lia)).
  rewrite Heq in *. assert (b - a = Capacity * (b / Capacity - a / Capacity)) as Hd by lia.
  assert (b / Capacity - a / Capacity = 0) by nia. lia.
Qed.

Lemma slot_range a : 0 ≤ a mod Capacity < Capacity.
Proof. apply Z.mod_pos_bound. pose proof capacity_pos. lia. Qed.

Lemma inv_empty_ring : inv Capacity (empty_ring Capacity) (@nil T) [].
Proof.
  pose proof capacity_pos. split; cbn; try done; unfold zlength, releasing, publishing; cbn; rewrite ?Z.mod_0_l by lia; try done; try lia.
  - rewrite length_replicate. lia.
  - intros k Hk. pose proof (slot_range k). unfold zlookup. rewrite decide_True by lia.
    apply lookup_replicate. split; [done|lia].
Qed.

(** The event is defined and keeps the invariant. *)
Definition runs_well (e : event) s ins outs : Prop :=
  ∃ l s', exec Capacity e s = Done (l, s') ∧ inv Capacity s' (ins ++ pushed_of l) (outs ++ popped_of l).

Lemma construct_runs s ins outs v w next_w :
  inv Capacity s ins outs → producer s = PushConstruct v w next_w → runs_well StepPush s ins outs.
Proof.
  intros [] Hp. unfold runs_well. rewrite Hp in *. unfold publishing in *. rewrite Hp in *.
  destruct inv_producer0 as (-> & -> & Hroom). rewrite Z.sub_0_r in *.
  assert (Hslot : zlookup (buffer_ s) (write_ s) = Some None).
  { rewrite inv_write0. apply inv_empty0. unfold releasing in *. destruct (consumer s); lia. }
  eexists _, _. split.
  { cbn [exec]. unfold Push_step. rewrite gets_bind, Hp. unfold construct.
    erewrite modO_bind; [|by rewrite Hslot]. reflexivity. }
  cbn [pushed_of popped_of]. rewrite app_nil_r.
  assert (Hz : zlength (ins ++ [v]) = zlength ins + 1) by (rewrite zlength_app; done).
  split; cbn; unfold publishing, releasing in *; cbn; rewrite ?Hz; try done; try lia.
  - rewrite inv_prefix0 at 1. rewrite take_app_le; [done|]. unfold zlength in *. lia.
  - rewrite inv_write0. f_equal. lia.
  - by rewrite zlength_insert.
  - intros k Hk. destruct (decide (k = zlength ins)) as [->|Hne].
    + rewrite inv_write0, zlookup_insert_eq by (rewrite inv_length0; apply slot_range).
      f_equal. rewrite zlookup_app, decide_False by lia. by rewrite Z.sub_diag.
    + rewrite inv_write0, zlookup_insert_ne.
      * rewrite inv_full0 by lia. by rewrite zlookup_app, decide_True by lia.
      * intros Heq. apply Hne. apply slot_inj; [|done]. destruct (consumer s); lia.
  - intros k Hk. rewrite inv_write0, zlookup_insert_ne; [apply inv_empty0; lia|].
    intros Heq. assert (zlength ins = k); [|lia]. apply slot_inj; [|done]. destruct (consumer s); lia.
  - destruct (consumer s); try done. destruct inv_consumer0. split; [done|lia].
Qed.

Lemma slot_take_runs s ins outs r :
  inv Capacity s ins outs → consumer s = PopTake r → runs_well StepPop s ins outs.
Proof.
  intros [] Hc. unfold runs_well. rewrite Hc in *. unfold releasing in *. rewrite Hc in *.
  destruct inv_consumer0 as (-> & Hlt). rewrite Z.sub_0_r in *.
  assert (Hpub : 0 ≤ publishing s) by (unfold publishing; destruct (producer s); lia).
  destruct (zlookup_lt_is_Some ins (zlength outs)) as [v Hv]; [unfold zlength in *; lia|].
  assert (Hslot : zlookup (buffer_ s) (read_ s) = Some (Some v)) by (rewrite inv_read0, inv_full0 by lia; by rewrite Hv).
  eexists _, _. split.
  { cbn [exec]. unfold Pop_step. rewrite gets_bind, Hc. unfold take_slot.
    rewrite (prog_run _ _ (prog_assoc (getsO _) _ _)). erewrite getsO_bind; [|by rewrite Hslot]. reflexivity. }
  cbn [pushed_of popped_of]. rewrite app_nil_r.
  assert (Hz : zlength (outs ++ [v]) = zlength outs + 1) by (rewrite zlength_app; done).
  split; cbn; unfold publishing, releasing in *; cbn; rewrite ?Hz; try done; try lia.
  - rewrite length_app. cbn. rewrite Nat.add_1_r. unfold zlength in Hv. rewrite zlookup_of_nat in Hv.
    rewrite (take_S_r _ _ _ Hv). by rewrite <-inv_prefix0.
  - rewrite inv_read0. f_equal. lia.
  - by rewrite zlength_insert.
  - intros k Hk. rewrite inv_read0, zlookup_insert_ne; [apply inv_full0; lia|].
    intros Heq. assert (zlength outs = k); [|lia]. apply slot_inj; [lia|done].
  - intros k Hk. destruct (decide (k = zlength outs + Capacity)) as [->|Hne].
    + replace ((zlength outs + Capacity) mod Capacity) with (zlength outs mod Capacity)
        by (rewrite <-(Z_mod_plus_full (zlength outs) 1 Capacity); f_equal; lia).
      rewrite inv_read0.
      apply zlookup_insert_eq. rewrite inv_length0. apply slot_range.
    + rewrite inv_read0, zlookup_insert_ne; [apply inv_empty0; lia|].
      intros Heq. assert (zlength outs = k); [|lia]. apply slot_inj; [lia|done].
  - destruct (producer s); try done. destruct inv_producer0 as (? & ? & ?). split_and!; try done; lia.
Qed.

(** Steps that only move a program counter. *)
Lemma move_runs e s s' ins outs l :
  inv Capacity s ins outs → exec Capacity e s = Done (l, s') → pushed_of l = [] → popped_of l = [] →
  read_ s' = read_ s → write_ s' = write_ s → buffer_ s' = buffer_ s →
  publishing s' = publishing s → releasing s' = releasing s →
  match producer s' with
  | PushIdle | PushLoad _ => True
  | PushCheck _ w => w = write_ s
  | PushConstruct _ w next_w =>
      w = write_ s ∧ next_w = succ_index Capacity w ∧ zlength ins - (zlength outs - releasing s) < Capacity - 1
  | PushPublish next_w => next_w = succ_index Capacity (write_ s)
  end →
  match consumer s' with
  | PopIdle | PopLoad => True
  | PopCheck r => r = read_ s
  | PopTake r => r = read_ s ∧ zlength outs < zlength ins - publishing s
  | PopPublish r => r = read_ s
  end →
  runs_well e s ins outs.
Proof.
  intros [] Hex Hl1 Hl2 Hr Hw Hb Hp Hrel Hpp Hcc. exists l, s'. split; [done|]. rewrite Hl1, Hl2, !app_nil_r.
  split; rewrite ?Hr, ?Hw, ?Hb, ?Hp, ?Hrel; done.
Qed.

Lemma push_load_runs s ins outs v :
  inv Capacity s ins outs → producer s = PushLoad v → runs_well StepPush s ins outs.
Proof.
  intros Hi Hp. eapply (move_runs _ _ (set_producer (PushCheck v (write_ s)) s) _ _ Silent); try done.
  - cbn [exec]. unfold Push_step. by rewrite gets_bind, Hp.
  - unfold publishing. by rewrite Hp.
  - apply (inv_consumer _ _ _ _ Hi).
Qed.

Lemma push_check_runs s ins outs v w :
  inv Capacity s ins outs → producer s = PushCheck v w → runs_well StepPush s ins outs.
Proof.
  intros Hi Hp. pose proof (inv_producer _ _ _ _ Hi) as Hw. rewrite Hp in Hw.
  assert (Hpub : publishing s = 0) by (unfold publishing; by rewrite Hp).
  destruct (decide (succ_index Capacity w = read_ s)) as [Hfull|Hroom].
  - eapply (move_runs _ _ (set_producer PushIdle s) _ _ PushFull); try done.
    + cbn [exec]. unfold Push_step. rewrite gets_bind, Hp. cbv zeta. rewrite gets_bind. by rewrite decide_True.
    + apply (inv_consumer _ _ _ _ Hi).
  - eapply (move_runs _ _ (set_producer (PushConstruct v w (succ_index Capacity w)) s) _ _ Silent); try done.
    + cbn [exec]. unfold Push_step. rewrite gets_bind, Hp. cbv zeta. rewrite gets_bind. by rewrite decide_False.
    + cbn. split; [done|]. split; [done|].
      pose proof (inv_room _ _ _ _ Hi). destruct (decide (zlength ins - (zlength outs - releasing s) = Capacity - 1)) as [Heq|]; [|lia].
      exfalso. apply Hroom. rewrite Hw, (inv_write _ _ _ _ Hi), Hpub, Z.sub_0_r, succ_index_of, (inv_read _ _ _ _ Hi).
      rewrite <-(Z_mod_plus_full (zlength outs - releasing s) 1 Capacity). f_equal. lia.
    + apply (inv_consumer _ _ _ _ Hi).
Qed.

Lemma push_publish_runs s ins outs next_w :
  inv Capacity s ins outs → producer s = PushPublish next_w → runs_well StepPush s ins outs.
Proof.
  intros [] Hp. rewrite Hp in *. unfold publishing in *. rewrite Hp in *. subst next_w.
  exists Silent, (set_producer PushIdle (set_write (succ_index Capacity (write_ s)) s)). split.
  { cbn [exec]. unfold Push_step. by rewrite gets_bind, Hp. }
  cbn [pushed_of popped_of]. rewrite !app_nil_r. split; cbn; unfold publishing, releasing in *; cbn; try done; try lia.
  - rewrite inv_write0, succ_index_of. f_equal. lia.
  - destruct (consumer s); try done. split; [naive_solver|lia].
Qed.

Lemma pop_load_runs s ins outs :
  inv Capacity s ins outs → consumer s = PopLoad → runs_well StepPop s ins outs.
Proof.
  intros Hi Hc. eapply (move_runs _ _ (set_consumer (PopCheck (read_ s)) s) _ _ Silent); try done.
  - cbn [exec]. unfold Pop_step. by rewrite gets_bind, Hc.
  - unfold releasing. by rewrite Hc.
  - apply (inv_producer _ _ _ _ Hi).
Qed.

Lemma pop_check_runs s ins outs r :
  inv Capacity s ins outs → consumer s = PopCheck r → runs_well StepPop s ins outs.
Proof.
  intros Hi Hc. pose proof (inv_consumer _ _ _ _ Hi) as Hr. rewrite Hc in Hr.
  assert (Hrel : releasing s = 0) by (unfold releasing; by rewrite Hc).
  destruct (decide (r = write_ s)) as [Hempty|Hne].
  - eapply (move_runs _ _ (set_consumer PopIdle s) _ _ PopEmpty); try done.
    + cbn [exec]. unfold Pop_step. rewrite gets_bind, Hc, gets_bind. by rewrite decide_True.
    + apply (inv_producer _ _ _ _ Hi).
  - eapply (move_runs _ _ (set_consumer (PopTake r) s) _ _ Silent); try done.
    + cbn [exec]. unfold Pop_step. rewrite gets_bind, Hc, gets_bind. by rewrite decide_False.
    + apply (inv_producer _ _ _ _ Hi).
    + cbn. split; [done|]. pose proof (inv_publishing _ _ _ _ Hi).
      destruct (decide (zlength outs = zlength ins - publishing s)) as [Heq|]; [|lia].
      exfalso. apply Hne. rewrite Hr, (inv_read _ _ _ _ Hi), (inv_write _ _ _ _ Hi), Hrel. f_equal. lia.
Qed.

Lemma pop_publish_runs s ins outs r :
  inv Capacity s ins outs → consumer s = PopPublish r → runs_well StepPop s ins outs.
Proof.
  intros [] Hc. rewrite Hc in *. unfold releasing in *. rewrite Hc in *. subst r.
  exists Silent, (set_consumer PopIdle (set_read (succ_index Capacity (read_ s)) s)). split.
  { cbn [exec]. unfold Pop_step. by rewrite gets_bind, Hc. }
  cbn [pushed_of popped_of]. rewrite !app_nil_r. split; cbn; unfold publishing, releasing in *; cbn; try done; try lia.
  - rewrite inv_read0, succ_index_of. f_equal. lia.
  - destruct (producer s); try done. destruct inv_producer0 as (? & ? & ?). split_and!; try done; lia.
Qed.

Lemma event_runs e s ins outs : inv Capacity s ins outs → enabled s e → runs_well e s ins outs.
Proof.
  intros Hi. destruct e as [v| | |]; cbn [enabled]; intros He.
  - eapply (move_runs _ _ (set_producer (PushLoad v) s) _ _ Silent); try done; [unfold publishing; by rewrite He|].
    apply (inv_consumer _ _ _ _ Hi).
  - destruct (producer s) eqn:Hp; [done| | | |].
    + by eapply push_load_runs.
    + by eapply push_check_runs.
    + by eapply construct_runs.
    + by eapply push_publish_runs.
  - eapply (move_runs _ _ (set_consumer PopLoad s) _ _ Silent); try done; [unfold releasing; by rewrite He|].
    apply (inv_producer _ _ _ _ Hi).
  - destruct (consumer s) eqn:Hc; [done| | | |].
    + by eapply pop_load_runs.
    + by eapply pop_check_runs.
    + by eapply slot_take_runs.
    + by eapply pop_publish_runs.
Qed.

Lemma ring_inv s ins outs : reachable Capacity s ins outs → inv Capacity s ins outs.
Proof.
  induction 1 as [|s ins outs e l s' _ IH He Hex]; [apply inv_empty_ring|].
  destruct (event_runs e s ins outs IH He) as (l' & s'' & Hex' & Hinv). rewrite Hex in Hex'. by injection Hex' as <- <-.
Qed.

(** C37: one producer and one consumer may run [Push] and [Pop] in any
    interleaving: no step is undefined, so no slot is used by both; what comes
    out is what went in, in order; and the ring never holds more than
    [Capacity - 1] objects. *)
Theorem ring_fifo s ins outs :
  reachable Capacity s ins outs →
  outs `prefix_of` ins ∧ zlength ins - zlength outs ≤ Capacity - 1 ∧
  ∀ e, enabled s e → ∃ l s', exec Capacity e s = Done (l, s').
Proof.
  intros Hr. pose proof (ring_inv s ins outs Hr) as Hi. split; [|split].
  - rewrite (inv_prefix _ _ _ _ Hi). apply prefix_take.
  - pose proof (inv_room _ _ _ _ Hi). unfold releasing in *. destruct (consumer s); lia.
  - intros e He. destruct (event_runs e s ins outs Hi He) as (l & s' & Hex & _). by exists l, s'.
Qed.

(** A failure is not spurious: [Push] fails when [Capacity - 1] slots are in
    use, [Pop] when everything that was published has been taken. *)
Lemma push_full_spec s ins outs s' :
  reachable Capacity s ins outs → exec Capacity StepPush s = Done (PushFull, s') →
  zlength ins - (zlength outs - releasing s) = Capacity - 1.
Proof.
  intros Hr Hex. pose proof (ring_inv s ins outs Hr) as Hi. cbn [exec] in Hex. unfold Push_step in Hex. rewrite gets_bind in Hex.
  destruct (producer s) as [|v|v w|v w nw|nw] eqn:Hp; try done.
  - cbv zeta in Hex. rewrite gets_bind in Hex. case_decide as Hfull; [|done].
    pose proof (inv_producer _ _ _ _ Hi) as Hw. rewrite Hp in Hw. rewrite Hw, (inv_write _ _ _ _ Hi), succ_index_of, (inv_read _ _ _ _ Hi) in Hfull.
    unfold publishing in Hfull. rewrite Hp, Z.sub_0_r in Hfull.
    pose proof (inv_room _ _ _ _ Hi). pose proof (inv_publishing _ _ _ _ Hi) as Hpub. unfold publishing in Hpub. rewrite Hp in Hpub.
    pose proof (inv_releasing _ _ _ _ Hi). destruct (decide (zlength ins - (zlength outs - releasing s) = Capacity - 1)); [done|].
    assert (zlength outs - releasing s = zlength ins + 1); [apply slot_inj; [|done]|]; unfold releasing in *; destruct (consumer s); lia.
  - unfold construct in Hex. unfold mbind, prog_bind, modO in Hex. destruct (zlookup _ _) as [[|]|]; done.
Qed.

(** [Size] counts modulo the capacity; between operations it is the number of
    objects in the ring. *)
Lemma Size_mod r w : 0 ≤ r < Capacity → 0 ≤ w < Capacity → Size Capacity r w = (w - r) mod Capacity.
Proof.
  intros Hr Hw. unfold Size. case_decide.
  - symmetry. apply Z.mod_small. lia.
  - rewrite <-(Z_mod_plus_full (w - r) 1 Capacity), Z.mod_small; lia.
Qed.

Lemma Size_spec s ins outs :
  reachable Capacity s ins outs → producer s = PushIdle → consumer s = PopIdle →
  Size Capacity (read_ s) (write_ s) = zlength ins - zlength outs.
Proof.
  intros Hr Hp Hc. destruct (ring_inv _ _ _ Hr). unfold publishing, releasing in *. rewrite Hp, Hc in *.
  rewrite Size_mod by (rewrite ?inv_read0, ?inv_write0; apply slot_range).
  rewrite inv_read0, inv_write0, <-Zminus_mod, !Z.sub_0_r, Z.mod_small; lia.
Qed.

(** The destructor destroys the objects that are left, each once. *)
Lemma destroy_loop_run ins : ∀ fuel a s,
  0 ≤ a ≤ zlength ins → zlength ins - a < Z.of_nat fuel → zlength ins - a < Capacity →
  zlength (buffer_ s) = Capacity →
  (∀ k, a ≤ k < zlength ins → zlookup (buffer_ s) (k mod Capacity) = Some (zlookup ins k)) →
  (∀ k, zlength ins ≤ k < a + Capacity → zlookup (buffer_ s) (k mod Capacity) = Some None) →
  ∃ s', destroy_loop Capacity fuel (a mod Capacity) (zlength ins mod Capacity) s = Done ((), s') ∧
    zlength (buffer_ s') = Capacity ∧
    ∀ k, zlength ins ≤ k < zlength ins + Capacity → zlookup (buffer_ s') (k mod Capacity) = Some None.
Proof.
  induction fuel as [|fuel IH]; intros a s Ha Hfuel Hcap Hlen Hfull Hempty; [lia|]. cbn [destroy_loop].
  case_decide as Hne.
  - assert (Hlt : a < zlength ins) by (destruct (decide (a = zlength ins)) as [->|]; [done|lia]).
    destruct (zlookup_lt_is_Some ins a) as [v Hv]; [lia|].
    assert (Hslot : zlookup (buffer_ s) (a mod Capacity) = Some (Some v)) by (rewrite Hfull by lia; by rewrite Hv).
    set (s1 := set_buffer (zinsert (a mod Capacity) None (buffer_ s)) s).
    assert (Htake : take_slot (a mod Capacity) s = Done (v, s1)).
    { unfold take_slot. erewrite getsO_bind; [|by rewrite Hslot]. done. }
    rewrite (bind_Done _ _ _ _ _ Htake), succ_index_of. apply IH; try lia.
    + cbn. by rewrite zlength_insert.
    + intros k Hk. cbn. rewrite zlookup_insert_ne; [apply Hfull; lia|].
      intros Heq. assert (a = k); [|lia]. apply slot_inj; [lia|done].
    + intros k Hk. cbn. destruct (decide (k = a + Capacity)) as [->|Hka].
      * replace ((a + Capacity) mod Capacity) with (a mod Capacity)
          by (rewrite <-(Z_mod_plus_full a 1 Capacity); f_equal; lia).
        apply zlookup_insert_eq. rewrite Hlen. apply slot_range.
      * rewrite zlookup_insert_ne; [apply Hempty; lia|].
        intros Heq. assert (a = k); [|lia]. apply slot_inj; [lia|done].
  - assert (a = zlength ins) as Heq.
    { apply slot_inj; [lia|]. destruct (decide (a mod Capacity = zlength ins mod Capacity)); [done|by destruct Hne]. }
    exists s. split; [done|]. split; [done|]. intros k Hk. apply Hempty. lia.
Qed.

Lemma destroy_spec s ins outs :
  reachable Capacity s ins outs → producer s = PushIdle → consumer s = PopIdle →
  ∃ s', destroy Capacity s = Done ((), s') ∧ ∀ i, 0 ≤ i < Capacity → zlookup (buffer_ s') i = Some None.
Proof.
  intros Hr Hp Hc. destruct (ring_inv _ _ _ Hr). unfold publishing, releasing in *. rewrite Hp, Hc, !Z.sub_0_r in *.
  pose proof capacity_pos as Hcap. unfold destroy. rewrite !gets_bind, inv_read0, inv_write0.
  destruct (destroy_loop_run ins (S (Z.to_nat Capacity)) (zlength outs) s) as (s' & Hrun & Hlen & Hall); try done; try lia.
  exists s'. split; [done|]. intros i Hi.
  specialize (Hall (zlength ins + (i - zlength ins) mod Capacity)).
  rewrite Zplus_mod_idemp_r in Hall. replace (zlength ins + (i - zlength ins)) with i in Hall by lia.
  rewrite (Z.mod_small i) in Hall by lia. apply Hall. pose proof (slot_range (i - zlength ins)). lia.
Qed.
End proofs.

(** ** Example: a ring of four slots *)

Lemma ring_next {T} Capacity s ins outs e l s' ins' outs' :
  @reachable T Capacity s ins outs → enabled s e → exec Capacity e s = Done (l, s') →
  ins' = ins ++ pushed_of l → outs' = outs ++ popped_of l → reachable Capacity s' ins' outs'.
Proof. intros. subst. by eapply reachable_step. Qed.

Ltac play H e :=
  eapply (ring_next _ _ _ _ e) in H; [|done|vm_compute; reflexivity|reflexivity|reflexivity];
  cbn [pushed_of popped_of app] in H.

(** The consumer looks for the first object while the second is on its way. *)
Example two_pushed : ∃ s, reachable (2 ^ 2) s [7; 8] [7] ∧ releasing s = 1.
Proof.
  pose proof (@reachable_init Z (2 ^ 2)) as H.
  play H (CallPush 7). play H (@StepPush Z). play H (@StepPush Z). play H (@StepPush Z). play H (@StepPush Z).
  play H (@CallPop Z). play H (@StepPop Z). play H (CallPush 8). play H (@StepPop Z).
  play H (@StepPush Z). play H (@StepPush Z). play H (@StepPop Z). play H (@StepPush Z).
  eexists. split; [exact H|reflexivity].
Qed.

Lemma ring_fifo_witness : ∃ s, reachable (2 ^ 2) s [7; 8] [7] ∧ [7] `prefix_of` [7; 8] ∧ zlength [7; 8] - zlength [7] ≤ 2 ^ 2 - 1.
Proof.
  destruct two_pushed as (s & H & _). exists s. split; [exact H|].
  destruct (ring_fifo 2 ltac:(lia) s [7; 8] [7] H) as (H1 & H2 & _). split; [exact H1|exact H2].
Defined.
End RingBuffer.
