(* ===== verification/MessageBuffer.v ===== *)
(** The receive buffer of network_buffer_design/MessageBuffer.h (the copy in
    network_timer has the same code).

    A pointer into the buffer is its offset from [buffer_.data()].  Only
    [resize] can throw: an operation that reaches it returns [None] when it
    does. *)
From S2P Require Import Prelude.

Open Scope Z_scope.

Module MessageBuffer.

(** The bytes of [buffer_] and the two positions, of type [size_t]. *)
Record MessageBuffer := Buffer {
  buffer_ : list Z;
  rpos_ : Z;
  wpos_ : Z;
}.

Abbreviation buf A := (prog MessageBuffer A).

Definition set_rpos r b := Buffer (buffer_ b) r (wpos_ b).
Definition set_wpos w b := Buffer (buffer_ b) (rpos_ b) w.
Definition set_bytes bs b := Buffer bs (rpos_ b) (wpos_ b).

Definition vector_of (n : Z) : list Z := replicate (Z.to_nat n) 0.

(** ** Construction and moves *)

Definition with_size (size : Z) : MessageBuffer := Buffer (vector_of size) 0 0.
Definition default_buffer : MessageBuffer := with_size 4096.

(** A moved-from [std::vector] is empty. *)
Definition move_construct (other : MessageBuffer) : MessageBuffer * MessageBuffer :=
  (other, Buffer [] 0 0).
(** [None] for [other] is the buffer itself. *)
Definition move_assign (this : MessageBuffer) (other : option MessageBuffer) :
    MessageBuffer * option MessageBuffer :=
  match other with
  | None => (this, None)
  | Some o => let '(b, rest) := move_construct o in (b, Some rest)
  end.

(** ** Positions *)

Definition GetBasePointer (b : MessageBuffer) : Z := 0.
Definition GetReadPointer (b : MessageBuffer) : Z := rpos_ b.
Definition GetWritePointer (b : MessageBuffer) : Z := wpos_ b.
Definition ReadCompleted (size : Z) : buf unit := modS (λ b, set_rpos (u64 (rpos_ b + size)) b).
Definition WriteCompleted (size : Z) : buf unit := modS (λ b, set_wpos (u64 (wpos_ b + size)) b).
Definition GetActiveSize (b : MessageBuffer) : Z := u64 (wpos_ b - rpos_ b).
Definition GetFreeSize (b : MessageBuffer) : Z := u64 (zlength (buffer_ b) - wpos_ b).
Definition GetBufferSize (b : MessageBuffer) : Z := zlength (buffer_ b).
Definition GetAllData (b : MessageBuffer) : Z * Z := (GetReadPointer b, GetActiveSize b).

(** The [n] bytes from offset [p], which must be inside the buffer. *)
Definition bytes_at (p n : Z) (bs : list Z) : option (list Z) :=
  if decide (0 ≤ p ∧ 0 ≤ n ∧ p + n ≤ zlength bs) then Some (take (Z.to_nat n) (drop (Z.to_nat p) bs)) else None.
(** [memcpy] and [memmove] of [data] to offset [p]. *)
Definition put_bytes (p : Z) (data : list Z) (b : MessageBuffer) : option MessageBuffer :=
  if decide (0 ≤ p ∧ p + zlength data ≤ zlength (buffer_ b)) then
    Some (set_bytes (take (Z.to_nat p) (buffer_ b) ++ data ++ drop (Z.to_nat p + length data) (buffer_ b)) b)
  else None.

Definition Normalize : buf unit :=
  r ← gets rpos_;
  if decide (r > 0) then
    n ← gets GetActiveSize;
    data ← getsO (λ b, bytes_at r n (buffer_ b));
    modO (put_bytes 0 data);;
    modS (λ b, set_wpos (u64 (wpos_ b - r)) b);;
    modS (set_rpos 0)
  else mret ().

Abbreviation ECONNRESET := 104 (only parsing).
(** The size of the block on the stack that [Recv] reads into. *)
Abbreviation EXTRA := 65535 (only parsing).

Section growing.
(** [buffer_.max_size()], or less when memory is short. *)
Context (limit : Z).

(** [buffer_.resize(n)]; [None] when it throws, with the buffer unchanged. *)
Definition resize (n : Z) : buf (option unit) :=
  if decide (n ≤ limit) then
    modS (λ b, set_bytes (take (Z.to_nat n) (buffer_ b) ++ vector_of (n - zlength (buffer_ b))) b);;
    mret (Some ())
  else mret None.

Definition EnsureFreeSpace (size : Z) : buf (option unit) :=
  bs ← gets GetBufferSize;
  act ← gets GetActiveSize;
  free ← gets GetFreeSize;
  if decide (u64 (bs - act) < size) then
    Normalize;;
    n ← gets GetBufferSize;
    resize (u64 (n + Z.max size (n / 2)))
  else if decide (free < size) then Normalize;; mret (Some ())
  else mret (Some ()).

(** [data] is the memory at the pointer, of at least [size] bytes in a correct
    call. *)
Definition Write (data : list Z) (size : Z) : buf (option unit) :=
  if decide (size > 0) then
    e ← EnsureFreeSpace size;
    match e with
    | None => mret None
    | Some _ =>
        p ← gets GetWritePointer;
        src ← getsO (λ _, bytes_at 0 size data);
        modO (put_bytes p src);;
        WriteCompleted size;;
        mret (Some ())
    end
  else mret (Some ()).

(** The loop of [GetDataUntilCRLF] from [i], for at most [fuel] rounds. *)
Fixpoint crlf_loop (fuel : nat) (i last : Z) : buf (option Z) :=
  match fuel with
  | O => out_of_fuel
  | S fuel =>
      if decide (i < last) then
        p ← gets GetReadPointer;
        c ← getsO (λ b, zlookup (buffer_ b) (p + i));
        if decide (c = 13) then
          c' ← getsO (λ b, zlookup (buffer_ b) (p + i + 1));
          if decide (c' = 10) then mret (Some i) else crlf_loop fuel (u64 (i + 1)) last
        else crlf_loop fuel (u64 (i + 1)) last
      else mret None
  end.

(** [None] for [nullptr]. *)
Definition GetDataUntilCRLF : buf (option (Z * Z)) :=
  p ← gets GetReadPointer;
  n ← gets GetActiveSize;
  len ← gets GetBufferSize;
  r ← crlf_loop (S (Z.to_nat len)) 0 (u64 (n - 1));
  mret (match r with Some i => Some (p, i) | None => None end).

(** What [readv] does: it fails with an error code, or it stores bytes, the
    first [iov_len] of them in the first block. *)
Inductive readv_result := ReadError (errno : Z) | ReadBytes (bs : list Z).

(** The result and [*err] when it is set. *)
Definition Recv (rd : readv_result) : buf (option (Z * option Z)) :=
  p ← gets GetWritePointer;
  len ← gets GetFreeSize;
  let first := match rd with ReadError _ => [] | ReadBytes bs => take (Z.to_nat len) bs end in
  let extra := match rd with ReadError _ => [] | ReadBytes bs => drop (Z.to_nat len) bs end in
  let n := match rd with ReadError _ => u64 (-1) | ReadBytes bs => zlength bs end in
  modO (put_bytes p first);;
  if decide (n < 0) then mret (Some (i32 n, match rd with ReadError e => Some e | _ => None end))
  else if decide (n = 0) then mret (Some (0, Some ECONNRESET))
  else
    free ← gets GetFreeSize;
    if decide (n ≤ free) then WriteCompleted n;; mret (Some (i32 n, None))
    else
      free' ← gets GetFreeSize;
      WriteCompleted free';;
      e ← Write (extra ++ vector_of (EXTRA - zlength extra)) (u64 (n - free));
      mret (match e with Some _ => Some (i32 n, None) | None => None end).
End growing.

(** ** Abstraction: the unread bytes *)

(** The buffer [b] holds the unread bytes [act]. *)
Definition holds (limit : Z) (act : list Z) (b : MessageBuffer) : Prop :=
  ∃ pre post, b = Buffer (pre ++ act ++ post) (zlength pre) (zlength pre + zlength act) ∧
    zlength (buffer_ b) ≤ limit.

Lemma zlength_vector n : 0 ≤ n → zlength (vector_of n) = n.
Proof. intros. unfold zlength, vector_of. rewrite length_replicate. lia. Qed.

(** Every length in scope is at least 0. *)
Ltac lengths :=
  repeat match goal with l : list ?A |- _ =>
    lazymatch goal with H : 0 ≤ @zlength A l |- _ => fail | _ => pose proof (@zlength_nonneg A l) end end.
Ltac len := rewrite ?zlength_app, ?zlength_cons, ?zlength_nil in *; lengths; lia.

Lemma bytes_at_app pre mid post : bytes_at (zlength pre) (zlength mid) (pre ++ mid ++ post) = Some mid.
Proof.
  unfold bytes_at. rewrite decide_True by len. f_equal. unfold zlength. rewrite !Nat2Z.id.
  by rewrite drop_app_length, take_app_length.
Qed.

Lemma put_bytes_app pre mid post data r w :
  zlength data = zlength mid →
  put_bytes (zlength pre) data (Buffer (pre ++ mid ++ post) r w) = Some (Buffer (pre ++ data ++ post) r w).
Proof.
  intros Hd. unfold put_bytes. cbn [buffer_]. rewrite decide_True by len. unfold set_bytes. cbn. do 2 f_equal.
  unfold zlength in *. rewrite !Nat2Z.id. rewrite take_app_length. do 2 f_equal.
  replace (length data) with (length mid) by lia. rewrite <-length_app, (assoc (++)). by rewrite drop_app_length.
Qed.

(** A list cut at a length. *)
Lemma zsplit {A} n (l : list A) : 0 ≤ n ≤ zlength l → ∃ l1 l2, l = l1 ++ l2 ∧ zlength l1 = n.
Proof.
  intros Hn. exists (take (Z.to_nat n) l), (drop (Z.to_nat n) l).
  split; [by rewrite take_drop|by apply zlength_take].
Qed.

Section spec.
Context (limit : Z).
(** There is no memory for [size] more bytes beside the unread ones: they do not
    fit the buffer, and the vector cannot grow by half its size or by [size],
    whichever is more. *)
Definition out_of_memory (act : list Z) (b : MessageBuffer) (size : Z) : Prop :=
  zlength (buffer_ b) < zlength act + size ∧ limit < zlength (buffer_ b) + Z.max size (zlength (buffer_ b) / 2).
Hypothesis Hlimit : 0 ≤ limit < 2 ^ 63.

Lemma sizes act b : holds limit act b →
  GetActiveSize b = zlength act ∧ GetFreeSize b = zlength (buffer_ b) - wpos_ b ∧
  0 ≤ rpos_ b ∧ wpos_ b = rpos_ b + zlength act ∧ wpos_ b ≤ zlength (buffer_ b) ≤ limit.
Proof.
  intros (pre & post & -> & Hl). unfold GetActiveSize, GetFreeSize. cbn in *.
  rewrite !u64_small; len.
Qed.

Lemma Normalize_spec act b : holds limit act b →
  ∃ post, Normalize b = Done ((), Buffer (act ++ post) 0 (zlength act)) ∧
    zlength (act ++ post) = zlength (buffer_ b) ∧ zlength (buffer_ b) ≤ limit.
Proof.
  intros Hb. destruct (sizes act b Hb) as (Hact & _). destruct Hb as (pre & post & -> & Hl).
  unfold Normalize. rewrite gets_bind. cbn [rpos_]. case_decide as Hr.
  - rewrite gets_bind, Hact, (getsO_bind _ _ _ act) by apply bytes_at_app.
    destruct (zsplit (zlength act) (pre ++ act ++ post)) as (l1 & l2 & Heq & Hl1); [len|].
    exists l2. rewrite (modO_bind _ _ _ (Buffer (act ++ l2) (zlength pre) (zlength pre + zlength act))).
    + rewrite modS_bind. unfold modS, set_wpos, set_rpos. cbn.
      cbn in Hl. rewrite u64_small by len. split; [do 3 f_equal; lia|]. rewrite Heq in *. len.
    + rewrite Heq. change (l1 ++ l2) with ([] ++ l1 ++ l2). by apply (put_bytes_app []).
  - exists post. assert (pre = []) as ->.
    { destruct pre; [done|]. rewrite zlength_cons in Hr. lengths. lia. }
    cbn. rewrite zlength_nil. split; [done|]. by cbn in Hl.
Qed.

Lemma EnsureFreeSpace_spec act b size : holds limit act b → 0 ≤ size < 2 ^ 63 →
  ∃ r b', EnsureFreeSpace limit size b = Done (r, b') ∧ holds limit act b' ∧
    match r with
    | Some _ => size ≤ zlength (buffer_ b') - wpos_ b'
    | None => out_of_memory act b' size
    end.
Proof.
  intros Hb Hs. destruct (sizes act b Hb) as (Hact & Hfree & Hr & Hw & Hl).
  destruct (Normalize_spec act b Hb) as (post & Hn & Hlen & _).
  pose proof (zlength_nonneg (buffer_ b)). pose proof (zlength_nonneg act).
  assert (zlength (buffer_ b) / 2 ≤ zlength (buffer_ b)) by (apply Z.div_le_upper_bound; lia).
  unfold EnsureFreeSpace. rewrite !gets_bind, Hact, Hfree. unfold GetBufferSize.
  rewrite (u64_small (zlength (buffer_ b) - _)) by lia.
  assert (Hnorm : holds limit act (Buffer (act ++ post) 0 (zlength act))).
  { exists [], post. cbn. rewrite Hlen. split; [done|lia]. }
  case_decide as Hgrow; [|case_decide as Hshift].
  - rewrite (bind_Done _ _ _ _ _ Hn), gets_bind. cbn [buffer_]. rewrite Hlen, u64_small by lia.
    unfold resize. case_decide as Hfit.
    2:{ eexists None, _. split; [done|]. split; [done|]. unfold out_of_memory. cbn. rewrite Hlen. lia. }
    rewrite modS_bind. eexists (Some ()), _. split; [done|]. unfold set_bytes. cbn.
    assert (Hv : take (Z.to_nat (zlength (buffer_ b) + Z.max size (zlength (buffer_ b) / 2))) (act ++ post) = act ++ post).
    { apply take_ge. unfold zlength in *. lia. }
    rewrite Hv. set (v := vector_of _).
    assert (Hzv : zlength v = Z.max size (zlength (buffer_ b) / 2)) by (unfold v; rewrite Hlen, zlength_vector; lia).
    split; [|len]. exists [], (post ++ v). cbn. rewrite <-(assoc (++)). split; [done|]. len.
  - rewrite (bind_Done _ _ _ _ _ Hn). eexists (Some ()), _. split; [done|]. split; [done|]. cbn. lia.
  - eexists (Some ()), b. split; [done|]. split; [done|]. lia.
Qed.

(** The space after the unread bytes takes [data]. *)
Lemma store_spec act b data : holds limit act b → zlength data ≤ zlength (buffer_ b) - wpos_ b →
  ∃ b', put_bytes (wpos_ b) data b = Some b' ∧ wpos_ b' = wpos_ b ∧ zlength (buffer_ b') = zlength (buffer_ b) ∧
    ∀ n, 0 ≤ n ≤ zlength data → holds limit (act ++ take (Z.to_nat n) data) (set_wpos (wpos_ b + n) b').
Proof.
  intros (pre & post & -> & Hl) Hd. cbn in *.
  destruct (zsplit (zlength data) post) as (mid & post' & -> & Hmid); [len|].
  exists (Buffer (pre ++ act ++ data ++ post') (zlength pre) (zlength pre + zlength act)).
  split; [|split; [done|split; [cbn; len|]]].
  - replace (pre ++ act ++ mid ++ post') with ((pre ++ act) ++ mid ++ post') by by rewrite <-(assoc (++)).
    rewrite <-zlength_app, put_bytes_app by done. by rewrite <-(assoc (++)).
  - intros n Hn. destruct (zsplit n data) as (d1 & d2 & -> & Hd1); [done|].
    exists pre, (d2 ++ post'). unfold set_wpos. cbn.
    replace (take (Z.to_nat n) (d1 ++ d2)) with d1 by (rewrite <-Hd1; unfold zlength; by rewrite Nat2Z.id, take_app_length).
    rewrite <-!(assoc (++)). split; [f_equal; len|len].
Qed.

(** [Write] appends, or throws and keeps the unread bytes. *)
Lemma Write_spec act b data rest : holds limit act b → zlength data < 2 ^ 63 →
  ∃ r b', Write limit (data ++ rest) (zlength data) b = Done (r, b') ∧
    match r with
    | Some _ => holds limit (act ++ data) b'
    | None => holds limit act b' ∧ out_of_memory act b' (zlength data)
    end.
Proof.
  intros Hb Hd. pose proof (zlength_nonneg data). unfold Write. case_decide as Hz.
  - destruct (EnsureFreeSpace_spec act b (zlength data) Hb) as (r & b1 & Hrun & Hb1 & Hr); [lia|].
    rewrite (bind_Done _ _ _ _ _ Hrun). destruct r as [[]|]; [|by eexists None, b1].
    destruct (store_spec act b1 data Hb1) as (b2 & Hput & Hw & Hlen & Hh); [done|].
    rewrite gets_bind, (getsO_bind _ _ _ data) by apply (bytes_at_app []).
    unfold GetWritePointer. rewrite (modO_bind _ _ _ _ Hput). unfold WriteCompleted. rewrite modS_bind.
    eexists (Some ()), _. split; [done|]. destruct (sizes act b1 Hb1) as (_ & _ & ? & ? & ?). pose proof (zlength_nonneg act).
    rewrite Hw, u64_small by lia.
    specialize (Hh (zlength data)). rewrite take_ge in Hh by (unfold zlength; lia). apply Hh. lia.
  - assert (data = []) as ->. { destruct data; [done|]. rewrite zlength_cons in *. lengths. lia. }
    eexists (Some ()), b. split; [done|]. by rewrite app_nil_r.
Qed.

(** [ReadCompleted] consumes. *)
Lemma ReadCompleted_spec act b n : holds limit act b → 0 ≤ n ≤ zlength act →
  ∃ b', ReadCompleted n b = Done ((), b') ∧ holds limit (drop (Z.to_nat n) act) b'.
Proof.
  intros (pre & post & -> & Hl) Hn. cbn in *. eexists. split; [done|].
  destruct (zsplit n act) as (a1 & a2 & -> & Ha1); [done|].
  replace (drop (Z.to_nat n) (a1 ++ a2)) with a2
    by (rewrite <-Ha1; unfold zlength; by rewrite Nat2Z.id, drop_app_length).
  exists (pre ++ a1), post. unfold set_rpos. cbn. rewrite u64_small by len. rewrite <-!(assoc (++)).
  split; [f_equal; len|len].
Qed.

(** The unread bytes are those [GetAllData] points to. *)
Lemma GetAllData_spec act b : holds limit act b →
  bytes_at (GetAllData b).1 (GetAllData b).2 (buffer_ b) = Some act ∧ (GetAllData b).2 = zlength act.
Proof.
  intros Hb. destruct (sizes act b Hb) as (Hact & _). destruct Hb as (pre & post & -> & _). cbn.
  rewrite Hact. split; [apply bytes_at_app|done].
Qed.

(** ** The byte stream *)

(** What the owner of a buffer does with it. *)
Inductive op :=
  | Append (data : list Z)    (** Write *)
  | Consume (n : Z)           (** GetAllData, then ReadCompleted of at most [n] *)
  | Compact                   (** Normalize *)
  | Receive (bs : list Z).    (** Recv, with [bs] to read from the socket *)

Definition fits (o : op) : Prop :=
  match o with
  | Append data => zlength data < 2 ^ 63
  | Consume n => 0 ≤ n
  | _ => True
  end.

(** The bytes that come in and those that go out; [None] when the operation
    throws. *)
Definition run_op (o : op) : buf (option (list Z * list Z)) :=
  match o with
  | Append data =>
      r ← Write limit data (zlength data);
      mret (_ ← r; Some (data, []))
  | Consume n =>
      d ← gets GetAllData;
      out ← getsO (λ b, bytes_at d.1 (Z.min n d.2) (buffer_ b));
      ReadCompleted (Z.min n d.2);;
      mret (Some ([], out))
  | Compact => Normalize;; mret (Some ([], []))
  | Receive bs =>
      free ← gets GetFreeSize;
      let got := take (Z.to_nat (free + EXTRA)) bs in
      r ← Recv limit (ReadBytes got);
      mret (_ ← r; Some (got, []))
  end.

(** Runs the operations up to the first that throws: whether none did, the
    bytes that came in and those that went out. *)
Fixpoint run (ops : list op) : buf (bool * list Z * list Z) :=
  match ops with
  | [] => mret (true, [], [])
  | o :: ops =>
      r ← run_op o;
      match r with
      | None => mret (false, [], [])
      | Some (i, out) =>
          rest ← run ops;
          mret (rest.1.1, i ++ rest.1.2, out ++ rest.2)
      end
  end.

Lemma Recv_spec act b bs : holds limit act b → zlength bs ≤ GetFreeSize b + EXTRA →
  ∃ r b', Recv limit (ReadBytes bs) b = Done (r, b') ∧
    match r with
    | Some (n, err) => holds limit (act ++ bs) b' ∧ n = i32 (zlength bs) ∧ (err = Some ECONNRESET ↔ bs = [])
    | None =>
        let first := take (Z.to_nat (GetFreeSize b)) bs in
        holds limit (act ++ first) b' ∧ out_of_memory (act ++ first) b' (zlength bs - zlength first)
    end.
Proof.
  intros Hb Hbs. destruct (sizes act b Hb) as (_ & Hfree & Hr & Hw & Hl).
  pose proof (zlength_nonneg act) as Hza. unfold Recv. rewrite !gets_bind. rewrite Hfree in *. set (free := zlength (buffer_ b) - wpos_ b) in *.
  set (f1 := take (Z.to_nat free) bs). set (f2 := drop (Z.to_nat free) bs).
  assert (Hbs' : bs = f1 ++ f2) by (unfold f1, f2; by rewrite take_drop).
  assert (Hf1 : zlength f1 = Z.min free (zlength bs)) by (unfold f1, zlength in *; rewrite length_take; lia).
  destruct (store_spec act b f1 Hb) as (b1 & Hput & Hw1 & Hlen1 & Hh); [lia|].
  unfold GetWritePointer. rewrite (modO_bind _ _ _ _ Hput).
  assert (Hfree1 : GetFreeSize b1 = free) by (unfold GetFreeSize; rewrite Hlen1, Hw1, u64_small; lia).
  pose proof (zlength_nonneg bs) as Hzb. rewrite decide_False by lia. case_decide as Hz.
  - eexists (Some _), b1. split; [done|]. assert (bs = []) as -> by (destruct bs; [done|len]).
    specialize (Hh 0). rewrite Z.add_0_r in Hh. split; [|done]. rewrite app_nil_r.
    replace (set_wpos (wpos_ b) b1) with b1 in Hh by (rewrite <-Hw1; by destruct b1).
    cbn in Hh. rewrite app_nil_r in Hh. apply Hh. lengths. lia.
  - rewrite gets_bind, Hfree1. specialize (Hh (zlength f1)). rewrite take_ge in Hh by (unfold zlength; lia).
    assert (Hret : bs ≠ []) by (intros ->; done).
    case_decide as Hfit.
    + assert (f2 = []) as Hf2 by (apply drop_ge; unfold zlength in *; lia).
      rewrite Hf2, app_nil_r in Hbs'. unfold WriteCompleted. rewrite modS_bind, Hw1, u64_small by lia.
      eexists (Some _), _. split; [done|]. split; [|naive_solver]. rewrite Hbs'. apply Hh. lengths. lia.
    + rewrite gets_bind, Hfree1. unfold WriteCompleted. rewrite modS_bind, Hw1, u64_small by lia.
      assert (Hf1' : zlength f1 = free) by lia. rewrite Hf1' in Hh.
      assert (Hf2 : zlength f2 = zlength bs - free) by (rewrite Hbs', zlength_app; lia).
      rewrite u64_small by lia. rewrite <-Hf2.
      destruct (Write_spec (act ++ f1) (set_wpos (wpos_ b + free) b1) f2 (vector_of (65535 - zlength f2)))
        as (r & b2 & Hrun & Hpost); [apply Hh; lia|lia|].
      rewrite (bind_Done _ _ _ _ _ Hrun). destruct r as [[]|].
      * eexists (Some _), b2. split; [done|]. rewrite <-(assoc (++)), <-Hbs' in Hpost. split; [done|]. naive_solver.
      * eexists None, b2. split; [done|]. replace (zlength bs - zlength f1) with (zlength f2) by lia. exact Hpost.
Qed.

(** The operation asks for room for [size] bytes of what comes in. *)
Definition asks (o : op) (size : Z) : Prop :=
  match o with Append data | Receive data => size ≤ zlength data | _ => False end.

Lemma run_op_spec act b o : holds limit act b → fits o →
  ∃ r b' act', run_op o b = Done (r, b') ∧ holds limit act' b' ∧
    match r with
    | Some (i, out) => act ++ i = out ++ act'
    | None => (∃ tail, act ++ tail = act') ∧ ∃ size, asks o size ∧ out_of_memory act' b' size
    end.
Proof.
  intros Hb Ho. destruct o as [data|n| |bs]; cbn [run_op fits] in *.
  - destruct (Write_spec act b data [] Hb Ho) as (r & b' & Hrun & Hr). rewrite app_nil_r in Hrun.
    rewrite (bind_Done _ _ _ _ _ Hrun). destruct r as [[]|].
    + eexists (Some _), b', (act ++ data). done.
    + eexists None, b', act. split; [done|]. destruct Hr as [Hr Hmem]. split; [done|]. split; [exists []; by rewrite app_nil_r|].
      exists (zlength data). split; [cbn; lia|done].
  - destruct (GetAllData_spec act b Hb) as [_ Hn]. pose proof (zlength_nonneg act).
    destruct (ReadCompleted_spec act b (Z.min n (zlength act)) Hb) as (b' & Hrun & Hb'); [lia|].
    rewrite gets_bind, Hn. destruct (zsplit (Z.min n (zlength act)) act) as (a1 & a2 & Ha & Ha1); [lia|].
    rewrite (getsO_bind _ _ _ a1), (bind_Done _ _ _ _ _ Hrun).
    + eexists (Some _), b', _. split; [done|]. split; [done|]. cbn. rewrite app_nil_r, <-Ha1.
      rewrite Ha at 2. unfold zlength. by rewrite Nat2Z.id, drop_app_length.
    + destruct Hb as (pre & post & -> & _). cbn [GetAllData fst GetReadPointer rpos_ buffer_].
      rewrite <-Ha1, Ha, <-(assoc (++)). apply bytes_at_app.
  - destruct (Normalize_spec act b Hb) as (post & Hrun & Hlen & Hl). rewrite (bind_Done _ _ _ _ _ Hrun).
    eexists (Some _), _, act. split; [done|]. cbn. rewrite app_nil_r. split; [|done]. exists [], post. cbn. split; [done|lia].
  - rewrite gets_bind. cbv zeta. set (got := take _ bs).
    destruct (sizes act b Hb) as (_ & Hfree & Hr & Hw & Hl). pose proof (zlength_nonneg act).
    assert (Hgot : zlength got ≤ GetFreeSize b + EXTRA) by (unfold got, zlength in *; rewrite length_take; lia).
    destruct (Recv_spec act b got Hb Hgot) as (r & b' & Hrun & Hpost). rewrite (bind_Done _ _ _ _ _ Hrun).
    destruct r as [[n err]|].
    + eexists (Some _), b', (act ++ got). split; [done|]. by destruct Hpost.
    + destruct Hpost as [Hb' Hmem]. eexists None, b', _. split; [done|]. split; [exact Hb'|]. split; [by eauto|].
      eexists. split; [|exact Hmem]. cbn. pose proof (zlength_nonneg (take (Z.to_nat (GetFreeSize b)) got)).
      assert (zlength got ≤ zlength bs) by (unfold got, zlength; rewrite length_take; lia). lia.
Qed.

(** C35: the buffer is a queue of bytes.  Whatever sequence of writes,
    reads, compactions and receptions (of [readv] calls that succeed) runs on it, every operation is defined;
    the bytes read are the unread ones followed by those that came in, in
    order, and the rest is what the buffer still holds.  A run ends early only at
    a write or a reception that throws for want of memory: the unread bytes and
    those it brings do not fit the buffer, and growing it by half, or by the
    size asked for when that is more, passes the limit; nothing is lost. *)
Theorem buffer_roundtrip act b ops : holds limit act b → Forall fits ops →
  ∃ fine i out b' act', run ops b = Done ((fine, i, out), b') ∧ holds limit act' b' ∧
    ∃ tail, act ++ i ++ tail = out ++ act' ∧ (fine = true → tail = []) ∧
      (fine = false → ∃ o size, o ∈ ops ∧ asks o size ∧ out_of_memory act' b' size).
Proof.
  intros Hb Hops. revert act b Hb. induction Hops as [|o ops Ho _ IH]; intros act b Hb; cbn [run].
  - exists true, [], [], b, act. split; [done|]. split; [done|]. exists []. rewrite !app_nil_r. by split.
  - destruct (run_op_spec act b o Hb Ho) as (r & b1 & act1 & Hrun & Hb1 & Hr).
    rewrite (bind_Done _ _ _ _ _ Hrun). destruct r as [[i out]|].
    + destruct (IH act1 b1 Hb1) as (fine & ins & outs & b2 & act2 & Hrun2 & Hb2 & tail & Htail & Hfine & Hmem).
      rewrite (bind_Done _ _ _ _ _ Hrun2). cbn. exists fine, (i ++ ins), (out ++ outs), b2, act2.
      split; [done|]. split; [done|]. exists tail. split; [|split; [done|]].
      * rewrite <-!(assoc (++)), (assoc (++) act), Hr, <-!(assoc (++)). by rewrite Htail.
      * intros Hf. destruct (Hmem Hf) as (o' & size & Hin & ?). exists o', size. split; [by right|done].
    + destruct Hr as [[tail <-] (size & Hasks & Hmem)]. exists false, [], [], b1, (act ++ tail). split; [done|]. split; [done|].
      exists tail. split; [done|]. split; [done|]. intros _. exists o, size. split; [by left|done].
Qed.

(** ** Lines *)

(** The first position of the two bytes CR LF. *)
Fixpoint first_crlf (l : list Z) : option Z :=
  match l with
  | [] => None
  | c :: l =>
      if decide (c = 13 ∧ head l = Some 10) then Some 0
      else (λ i, i + 1) <$> first_crlf l
  end.

Lemma zlookup_middle {A} (l1 l2 : list A) x i : i = zlength l1 → zlookup (l1 ++ x :: l2) i = Some x.
Proof. intros ->. rewrite zlookup_app, decide_False by lia. by rewrite Z.sub_diag. Qed.

Lemma crlf_loop_spec pre done_ todo post fuel :
  zlength (pre ++ (done_ ++ todo) ++ post) ≤ limit → (length todo ≤ fuel)%nat → todo ≠ [] →
  let b := Buffer (pre ++ (done_ ++ todo) ++ post) (zlength pre) (zlength pre + zlength (done_ ++ todo)) in
  crlf_loop fuel (zlength done_) (zlength (done_ ++ todo) - 1) b =
  Done ((λ i, zlength done_ + i) <$> first_crlf todo, b).
Proof.
  cbv zeta. revert done_ fuel. induction todo as [|c todo IH]; intros done_ fuel Hlen Hfuel Hne; [done|].
  destruct fuel as [|fuel]; [cbn in Hfuel; lia|]. cbn [crlf_loop first_crlf].
  set (b := Buffer _ _ _).
  assert (Hc : zlookup (buffer_ b) (GetReadPointer b + zlength done_) = Some c).
  { replace (buffer_ b) with ((pre ++ done_) ++ c :: todo ++ post) by (unfold b; cbn; by rewrite <-!(assoc (++))).
    apply zlookup_middle. cbn. len. }
  destruct todo as [|c' todo].
  - rewrite decide_False by len. rewrite decide_False by naive_solver. done.
  - rewrite decide_True by len. rewrite gets_bind, (getsO_bind _ _ b _ Hc).
    assert (Hc' : zlookup (buffer_ b) (GetReadPointer b + zlength done_ + 1) = Some c').
    { replace (buffer_ b) with ((pre ++ done_ ++ [c]) ++ c' :: todo ++ post)
        by (unfold b; cbn; by rewrite <-!(assoc (++))).
      apply zlookup_middle. cbn. len. }
    assert (Hnext : crlf_loop fuel (u64 (zlength done_ + 1)) (zlength (done_ ++ c :: c' :: todo) - 1) b =
      Done ((λ i, zlength done_ + i) <$> ((λ i, i + 1) <$> first_crlf (c' :: todo)), b)).
    { specialize (IH (done_ ++ [c]) fuel). cbn in Hfuel.
      replace ((done_ ++ [c]) ++ c' :: todo) with (done_ ++ c :: c' :: todo) in IH by by rewrite <-(assoc (++)).
      fold b in IH. rewrite u64_small by len. replace (zlength done_ + 1) with (zlength (done_ ++ [c])) by len.
      rewrite IH by (done || (cbn; lia)). do 2 f_equal. destruct (first_crlf (c' :: todo)); cbn; [|done]. f_equal. len. }
    case_decide as H13; [rewrite (getsO_bind _ _ b _ Hc'); case_decide as H10|].
    + rewrite decide_True by naive_solver. cbn. by rewrite Z.add_0_r.
    + rewrite Hnext. by rewrite decide_False by naive_solver.
    + rewrite Hnext. by rewrite decide_False by naive_solver.
Qed.

(** [GetDataUntilCRLF] on a buffer with unread bytes returns the line up
    to the first CR LF of the unread bytes, and [nullptr] when there is none;
    the loop stops and reads nothing outside the unread bytes. *)
Theorem GetDataUntilCRLF_spec act b :
  holds limit act b → act ≠ [] →
  GetDataUntilCRLF b = Done ((λ i, (rpos_ b, i)) <$> first_crlf act, b).
Proof.
  intros Hb Hne. destruct (sizes act b Hb) as (Hact & _ & Hr & Hw & Hl). destruct Hb as (pre & post & -> & Hlen).
  unfold GetDataUntilCRLF. rewrite !gets_bind, Hact, u64_small.
  2:{ destruct act; [done|]. len. }
  pose proof (crlf_loop_spec pre [] act post (S (Z.to_nat (GetBufferSize (Buffer (pre ++ act ++ post) (zlength pre)
    (zlength pre + zlength act)))))) as Hloop.
  cbn [app] in Hloop. cbv zeta in Hloop. rewrite (bind_Done _ _ _ _ _ (Hloop Hlen ltac:(unfold GetBufferSize, zlength in *; cbn in *; rewrite !length_app in *; lia) Hne)).
  cbn [GetReadPointer rpos_]. destruct (first_crlf act); done.
Qed.

(** A failed [readv] is not noticed, because its result is kept in an
    unsigned variable: with a byte already written the call is undefined, and
    otherwise it throws, with the whole buffer counted as received. *)
Theorem Recv_error act b e :
  holds limit act b → zlength (buffer_ b) + EXTRA < limit →
  Recv limit (ReadError e) b =
  if decide (wpos_ b = 0) then Done (None, set_wpos (zlength (buffer_ b)) b) else Undef.
Proof.
  intros Hb Hroom. destruct (sizes act b Hb) as (Hact & Hfree & Hr & Hw & Hl).
  pose proof (zlength_nonneg act) as Hza. unfold Recv. rewrite !gets_bind. cbv zeta.
  destruct (store_spec act b [] Hb) as (b1 & Hput & Hw1 & Hlen1 & Hh); [len|].
  assert (b1 = b) as ->.
  { unfold put_bytes in Hput. case_decide; [|done]. injection Hput as <-. cbn. rewrite Nat.add_0_r, take_drop. by destruct b. }
  unfold GetWritePointer. rewrite (modO_bind _ _ _ _ Hput). set (free := zlength (buffer_ b) - wpos_ b) in *.
  change (u64 (-1)) with 18446744073709551615. rewrite !decide_False by lia. rewrite gets_bind, Hfree, decide_False by lia.
  rewrite gets_bind, Hfree. unfold WriteCompleted. rewrite modS_bind, (u64_small (wpos_ b + free)) by lia.
  replace (wpos_ b + free) with (zlength (buffer_ b)) by lia. set (b2 := set_wpos _ b).
  rewrite u64_small by lia. set (size := 18446744073709551615 - free).
  assert (Hb2 : holds limit (act ++ drop (Z.to_nat (wpos_ b)) (buffer_ b)) b2).
  { destruct Hb as (pre & post & -> & Hlim). cbn in *. exists pre, []. unfold b2, set_wpos. cbn.
    rewrite app_nil_r. replace (drop _ _) with post.
    - split; [f_equal; len|done].
    - rewrite <-zlength_app, (assoc (++)). unfold zlength. by rewrite Nat2Z.id, drop_app_length. }
  destruct (sizes _ b2 Hb2) as (Hact2 & Hfree2 & _ & Hw2 & _).
  destruct (Normalize_spec _ b2 Hb2) as (post & Hn & Hlen & _).
  set (act2 := act ++ _) in *. assert (Hz2 : zlength act2 = zlength (buffer_ b) - rpos_ b) by (unfold b2 in Hw2; cbn in Hw2; lia).
  assert (Hwrite : EnsureFreeSpace limit size b2 =
    (Normalize;; resize limit (u64 (wpos_ b - 1))) b2).
  { unfold EnsureFreeSpace. rewrite !gets_bind, Hact2. unfold GetBufferSize.
    change (zlength (buffer_ b2)) with (zlength (buffer_ b)). rewrite (u64_small (zlength (buffer_ b) - zlength act2)) by lia.
    rewrite decide_True by (unfold size; lia). etrans; [apply (bind_Done _ _ _ _ _ Hn)|]. symmetry.
    etrans; [apply (bind_Done _ _ _ _ _ Hn)|]. symmetry. rewrite gets_bind. cbn [buffer_]. rewrite Hlen. change (buffer_ b2) with (buffer_ b). f_equal.
    assert (zlength (buffer_ b) / 2 ≤ zlength (buffer_ b)) by (apply Z.div_le_upper_bound; lia).
    rewrite Z.max_l by (unfold size; lia). unfold size, free, u64, wrap.
    replace (zlength (buffer_ b) + _) with (wpos_ b - 1 + 1 * 2 ^ 64) by lia. by rewrite Z_mod_plus_full. }
  unfold Write. rewrite decide_True by (unfold size; lia). case_decide as Hw0.
  - assert (Hrun : EnsureFreeSpace limit size b2 = Done (None, b2)).
    { rewrite Hwrite, Hw0. change (u64 (0 - 1)) with 18446744073709551615. unfold Normalize.
      assert (rpos_ b2 = 0) as Hr0 by (change (rpos_ b2) with (rpos_ b); lia).
      unfold mbind at 1, prog_bind at 1. rewrite gets_bind, Hr0. rewrite decide_False by lia. cbn.
      unfold resize. by rewrite decide_False by lia. }
    unfold mbind at 1, prog_bind at 1. rewrite (bind_Done _ _ _ _ _ Hrun). done.
  - unfold mbind at 1, prog_bind at 1. set (b3 := Buffer (act2 ++ post) 0 (zlength act2)) in *.
    assert (∃ b4, EnsureFreeSpace limit size b2 = Done (Some (), b4)) as [b4 Hrun].
    { rewrite Hwrite, (bind_Done _ _ _ _ _ Hn). unfold resize. rewrite u64_small by lia.
      rewrite decide_True by lia. eexists. reflexivity. }
    rewrite (bind_Done _ _ _ _ _ Hrun), gets_bind. unfold bytes_at. rewrite decide_False.
    + done.
    + unfold size. intros (_ & _ & Hlt). revert Hlt. set (stack := _ ++ vector_of _).
      assert (Hst : zlength stack = 65535) by (vm_compute; reflexivity). rewrite Hst. lia.
Qed.
End spec.

(** ** Examples *)

(** Three bytes written, two read, a line received. *)
Lemma buffer_roundtrip_witness :
  holds (2 ^ 20) [] (with_size 4) ∧
  ∃ fine i out b' act', run (2 ^ 20) [Append [1; 2; 3]; Consume 2; Receive [4; 5; 13; 10]; Compact; Consume 9] (with_size 4)
    = Done ((fine, i, out), b') ∧ holds (2 ^ 20) act' b' ∧ ∃ tail, [] ++ i ++ tail = out ++ act' ∧ (fine = true → tail = []).
Proof.
  assert (H : holds (2 ^ 20) [] (with_size 4)) by (exists [], (vector_of 4); split; [reflexivity|vm_compute; discriminate]).
  split; [exact H|].
  destruct (buffer_roundtrip (2 ^ 20) ltac:(lia) [] (with_size 4) [Append [1; 2; 3]; Consume 2; Receive [4; 5; 13; 10]; Compact; Consume 9] H)
    as (fine & i & out & b' & act' & Hrun & Hb' & tail & Htail & Hfine & _); [repeat constructor; vm_compute; try discriminate; reflexivity|].
  exists fine, i, out, b', act'. split; [exact Hrun|]. split; [exact Hb'|]. exists tail. split; [exact Htail|exact Hfine].
Defined.
(** The buffer of 4 bytes grows; with no more memory it does not. *)
Example buffer_grows :
  (λ r : bool * list Z * list Z * MessageBuffer, (r.1.1.1, zlength (buffer_ r.2))) <$>
    match run (2 ^ 20) [Append [1; 2; 3; 4; 5; 6]] (with_size 4) with Done r => Some r | _ => None end = Some (true, 10) ∧
  (λ r : bool * list Z * list Z * MessageBuffer, (r.1.1.1, zlength (buffer_ r.2))) <$>
    match run 8 [Append [1; 2; 3; 4; 5; 6]] (with_size 4) with Done r => Some r | _ => None end = Some (false, 4).
Proof. by vm_compute. Qed.

Definition line : MessageBuffer := Buffer [7; 71; 13; 10; 9; 0] 1 5.
Lemma GetDataUntilCRLF_spec_witness :
  holds (2 ^ 20) [71; 13; 10; 9] line ∧ GetDataUntilCRLF line = Done (Some (1, 1), line).
Proof.
  assert (H : holds (2 ^ 20) [71; 13; 10; 9] line) by (exists [7], [0]; split; [reflexivity|vm_compute; discriminate]).
  split; [exact H|].
  apply (GetDataUntilCRLF_spec (2 ^ 20) ltac:(lia) [71; 13; 10; 9] line H); discriminate.
Defined.

Lemma Recv_error_witness :
  holds (2 ^ 20) [71; 13; 10; 9] line ∧ Recv (2 ^ 20) (ReadError 104) line = Undef.
Proof.
  assert (H : holds (2 ^ 20) [71; 13; 10; 9] line) by (exists [7], [0]; split; [reflexivity|vm_compute; discriminate]).
  split; [exact H|].
  apply (Recv_error (2 ^ 20) ltac:(lia) [71; 13; 10; 9] line 104 H). reflexivity.
Defined.

(** On an empty buffer [active_size - 1] is the largest [size_t]: the loop
    finds a line that has been read before, or leaves the buffer. *)
Example crlf_on_empty_finds_old_line :
  GetDataUntilCRLF (Buffer [71; 13; 10; 9] 0 0) = Done (Some (0, 1), Buffer [71; 13; 10; 9] 0 0).
Proof. reflexivity. Qed.
Example crlf_on_empty_undefined : GetDataUntilCRLF (Buffer [71; 13; 10; 9] 3 3) = Undef.
Proof. reflexivity. Qed.
End MessageBuffer.
