(* ===== verification/TcpConn.v ===== *)
(** A connection of network_buffer_design/TcpConnection.cc on top of
    [MessageBuffer], with its registration in the event loop (EventLoop.h).

    What the kernel answers to [send] and [readv] is an argument of the
    operation that asks.  The bytes the kernel took, and those the caller
    handed over, are kept in the state to state what arrives. *)
From S2P Require Import Prelude MessageBuffer.

Open Scope Z_scope.

Module TcpConn.
Import MessageBuffer.

Abbreviation EPOLLIN := 1 (only parsing).
Abbreviation EPOLLOUT := 4 (only parsing).
Abbreviation EPOLLERR := 8 (only parsing).
Abbreviation EPOLLHUP := 16 (only parsing).
Abbreviation EPOLLRDHUP := 8192 (only parsing).
Abbreviation EAGAIN := 11 (only parsing).
(** On Linux EWOULDBLOCK is EAGAIN. *)
Abbreviation EWOULDBLOCK := 11 (only parsing).

(** The fields of TcpConn; [interest] is what epoll has for its descriptor,
    [None] when it is not registered. *)
Record TcpConn := Conn {
  closed_ : bool;
  output_buffer_ : list Z;
  input_buffer_ : MessageBuffer;
  has_read_cb : bool;
  has_io_handler : bool;
  interest : option Z;
  handed : list Z;  (** bytes [Send] took charge of *)
  wire : list Z;    (** bytes the kernel took *)
  stray : list Z;   (** those of [wire] sent after [close(fd_)] *)
}.

Abbreviation conn A := (prog TcpConn A).

Definition set_closed c s := Conn c (output_buffer_ s) (input_buffer_ s) (has_read_cb s) (has_io_handler s) (interest s) (handed s) (wire s) (stray s).
Definition set_output o s := Conn (closed_ s) o (input_buffer_ s) (has_read_cb s) (has_io_handler s) (interest s) (handed s) (wire s) (stray s).
Definition set_input i s := Conn (closed_ s) (output_buffer_ s) i (has_read_cb s) (has_io_handler s) (interest s) (handed s) (wire s) (stray s).
Definition set_read_cb b s := Conn (closed_ s) (output_buffer_ s) (input_buffer_ s) b (has_io_handler s) (interest s) (handed s) (wire s) (stray s).
Definition set_io_handler b s := Conn (closed_ s) (output_buffer_ s) (input_buffer_ s) (has_read_cb s) b (interest s) (handed s) (wire s) (stray s).
Definition set_interest e s := Conn (closed_ s) (output_buffer_ s) (input_buffer_ s) (has_read_cb s) (has_io_handler s) e (handed s) (wire s) (stray s).
Definition hand_over d s := Conn (closed_ s) (output_buffer_ s) (input_buffer_ s) (has_read_cb s) (has_io_handler s) (interest s) (handed s ++ d) (wire s) (stray s).
Definition put_on_wire d s := Conn (closed_ s) (output_buffer_ s) (input_buffer_ s) (has_read_cb s) (has_io_handler s) (interest s) (handed s) (wire s ++ d)
  (if closed_ s then stray s ++ d else stray s).

(** ** EventLoop.h: the registration *)

Definition AddEvent (events : Z) : conn unit :=
  modS (λ s, match interest s with None => set_interest (Some events) s | Some _ => s end).
Definition ModEvent (events : Z) : conn unit :=
  modS (λ s, match interest s with Some _ => set_interest (Some events) s | None => s end).
Definition DelEvent : conn unit := modS (set_interest None).

(** ** TcpConnection.cc *)

(** The constructor; SetNonBlocking only touches the descriptor. *)
Definition new_conn (input : MessageBuffer) : conn unit :=
  putS (Conn false [] input false false None [] [] []);;
  modS (set_io_handler true);;
  AddEvent (Z.lor EPOLLIN EPOLLRDHUP).

Definition SetReadCallback : conn unit := modS (set_read_cb true).

Definition Close : conn unit :=
  c ← gets closed_;
  if c : bool then mret ()
  else
    modS (set_closed true);;
    DelEvent;;
    modS (set_io_handler false).

(** [~TcpConn] *)
Definition destroy : conn unit := Close.

Definition DisableWrite : conn unit := ModEvent (Z.lor EPOLLIN EPOLLRDHUP).
Definition EnableWrite : conn unit := ModEvent (Z.lor (Z.lor EPOLLIN EPOLLOUT) EPOLLRDHUP).

(** The answer of [send]: so many bytes from the front were taken, or an
    error number. *)
Inductive send_result := Sent (n : Z) | SendError (errno : Z).
Definition sent_bytes (r : send_result) (data : list Z) : list Z :=
  match r with Sent n => take (Z.to_nat n) data | SendError _ => [] end.

Definition append_output (data : list Z) : conn unit :=
  modS (λ s, set_output (output_buffer_ s ++ data) s).

(** [data] is [None] for a null pointer. *)
Definition Send (data : option (list Z)) (r : send_result) : conn Z :=
  c ← gets closed_;
  match data with
  | None => mret (-1)
  | Some data =>
      if decide (c = true ∨ data = []) then mret (-1)
      else
        pending ← gets output_buffer_;
        if decide (pending ≠ []) then
          modS (hand_over data);; append_output data;; EnableWrite;; mret (i32 (zlength data))
        else
          modS (put_on_wire (sent_bytes r data));;
          match r with
          | SendError e =>
              (if decide (e = EAGAIN ∨ e = EWOULDBLOCK) then
                 modS (hand_over data);; append_output data;; EnableWrite
               else Close);;
              mret (-1)
          | Sent n =>
              modS (hand_over data);;
              (if decide (n < zlength data) then
                 append_output (drop (Z.to_nat n) data);; EnableWrite
               else mret ());;
              mret n
          end
  end.

Definition HandleWrite (r : send_result) : conn unit :=
  out ← gets output_buffer_;
  modS (put_on_wire (sent_bytes r out));;
  match r with
  | Sent n =>
      if decide (n > 0) then
        modS (set_output (drop (Z.to_nat n) out));;
        rest ← gets output_buffer_;
        if decide (rest = []) then DisableWrite else mret ()
      else mret ()
  | SendError e => if decide (e ≠ EAGAIN ∧ e ≠ EWOULDBLOCK) then Close else mret ()
  end.

(** [std::string(data.first, data.second)] of a pointer into the buffer. *)
Definition GetAllData : conn (list Z) :=
  d ← gets (λ s, MessageBuffer.GetAllData (input_buffer_ s));
  out ← getsO (λ s, bytes_at d.1 d.2 (buffer_ (input_buffer_ s)));
  zoom input_buffer_ set_input (ReadCompleted d.2);;
  mret out.

Definition GetDataUntilCrLf : conn (list Z) :=
  d ← zoom input_buffer_ set_input GetDataUntilCRLF;
  match d with
  | Some (p, n) =>
      out ← getsO (λ s, bytes_at p n (buffer_ (input_buffer_ s)));
      zoom input_buffer_ set_input (ReadCompleted (n + 2));;
      mret out
  | None => mret []
  end.

Section handlers.
(** The memory limit of the buffer, and the callback of the user. *)
Context (limit : Z) (read_cb : conn unit).

(** [None] when [Recv] throws. *)
Definition HandleRead (rd : readv_result) : conn (option unit) :=
  r ← zoom input_buffer_ set_input (Recv limit rd);
  match r with
  | None => mret None
  | Some (n, err) =>
      let err := default 0 err in
      (if decide (n > 0) then
         cb ← gets has_read_cb;
         if cb : bool then read_cb else mret ()
       else if decide (n = 0 ∨ (n < 0 ∧ err ≠ EAGAIN ∧ err ≠ EWOULDBLOCK)) then Close
       else mret ());;
      mret (Some ())
  end.

Definition bit (events mask : Z) : Prop := Z.land events mask ≠ 0.
#[export] Instance bit_dec events mask : Decision (bit events mask).
Proof. unfold bit. apply _. Defined.

(** [send] answers for the bytes it is offered. *)
Definition HandleIO (events : Z) (rd : readv_result) (send : list Z → send_result) : conn (option unit) :=
  c ← gets closed_;
  if c : bool then mret (Some ())
  else
    e ← (if decide (bit events EPOLLIN) then HandleRead rd else mret (Some ()));
    match e with
    | None => mret None
    | Some _ =>
        (if decide (bit events EPOLLOUT) then out ← gets output_buffer_; HandleWrite (send out) else mret ());;
        (if decide (bit events (Z.lor (Z.lor EPOLLERR EPOLLHUP) EPOLLRDHUP)) then Close else mret ());;
        mret (Some ())
    end.
End handlers.

(** ** Invariant *)

(** The output buffer has what the kernel has not taken, and epoll reports
    that the socket is writable exactly while there is something to write. *)
Record wired (s : TcpConn) : Prop := {
  wired_stream : handed s = wire s ++ output_buffer_ s;
  wired_interest : interest s =
    (if closed_ s then None
     else if decide (output_buffer_ s = []) then Some (Z.lor EPOLLIN EPOLLRDHUP)
     else Some (Z.lor (Z.lor EPOLLIN EPOLLOUT) EPOLLRDHUP));
  wired_handler : has_io_handler s = negb (closed_ s);
}.
Record connected (limit : Z) (act : list Z) (s : TcpConn) : Prop := {
  connected_input : holds limit act (input_buffer_ s);
  connected_wired : wired s;
}.

(** The kernel takes no more than it is offered. *)
Definition send_ok (r : send_result) (data : list Z) : Prop :=
  match r with Sent n => 0 ≤ n ≤ zlength data | SendError _ => True end.

(** A run that leaves the input buffer alone and keeps [wired]. *)
Definition keeps_wired {A} (m : conn A) : Prop :=
  ∀ s, wired s → ∃ a s', m s = Done (a, s') ∧ wired s' ∧ input_buffer_ s' = input_buffer_ s.

Lemma Close_wired : keeps_wired Close.
Proof.
  intros s [Hs Hi Hh]. unfold Close. rewrite gets_bind. destruct (closed_ s) eqn:Hc.
  - exists (), s. split; [done|]. split; [|done]. split; [done| |]; by rewrite Hc.
  - eexists (), _. split; [done|]. by split.
Qed.

(** The output changed, and the registration is brought in line. *)
Lemma ModEvent_wired s s1 ev :
  wired s → closed_ s1 = closed_ s → interest s1 = interest s → has_io_handler s1 = has_io_handler s →
  handed s1 = wire s1 ++ output_buffer_ s1 →
  ev = (if decide (output_buffer_ s1 = []) then Z.lor EPOLLIN EPOLLRDHUP
        else Z.lor (Z.lor EPOLLIN EPOLLOUT) EPOLLRDHUP) →
  ∃ s2, ModEvent ev s1 = Done ((), s2) ∧ wired s2 ∧ input_buffer_ s2 = input_buffer_ s1.
Proof.
  intros [Hs Hi Hh] Hc1 Hi1 Hh1 Hs1 ->. eexists. split; [done|]. rewrite Hi1, Hi.
  destruct (closed_ s) eqn:Hc; cbn; [|repeat case_decide]; (split; [|done]); split; cbn; rewrite ?Hc1, ?Hi1, ?Hi, ?Hh1; try done;
    by rewrite ?decide_True, ?decide_False by done.
Qed.

(** The output did not change from or to empty. *)
Lemma same_wired s s1 :
  wired s → closed_ s1 = closed_ s → interest s1 = interest s → has_io_handler s1 = has_io_handler s →
  handed s1 = wire s1 ++ output_buffer_ s1 → (output_buffer_ s1 = [] ↔ output_buffer_ s = []) → wired s1.
Proof.
  intros [Hs Hi Hh] Hc1 Hi1 Hh1 Hs1 Hout. split; [done| |]; rewrite ?Hi1, ?Hc1, ?Hi, ?Hh1; [|done].
  destruct (closed_ s); [done|]. repeat case_decide; naive_solver.
Qed.

(** [rest] goes to the output buffer. *)
Lemma enqueue_wired s s1 rest :
  wired s → closed_ s1 = closed_ s → interest s1 = interest s → has_io_handler s1 = has_io_handler s →
  handed s1 = wire s1 ++ output_buffer_ s1 ++ rest → rest ≠ [] →
  ∃ s2, (append_output rest;; EnableWrite) s1 = Done ((), s2) ∧ wired s2 ∧ input_buffer_ s2 = input_buffer_ s1.
Proof.
  intros Hw Hc Hi Hh Hs Hr. unfold append_output. rewrite modS_bind.
  apply (ModEvent_wired s (set_output (output_buffer_ s1 ++ rest) s1)); try done. cbn.
  rewrite decide_False; [done|]. by intros [_ ?]%app_nil.
Qed.

Lemma Send_wired data r : (∀ d, data = Some d → send_ok r d) → keeps_wired (Send data r).
Proof.
  intros Hok s Hw. pose proof (wired_stream s Hw) as Hs. unfold Send. rewrite gets_bind.
  destruct data as [data|]; [|by exists (-1), s]. specialize (Hok data eq_refl).
  case_decide as Hskip; [by exists (-1), s|]. rewrite gets_bind.
  assert (Hdata : data ≠ []) by naive_solver.
  case_decide as Hp.
  - rewrite modS_bind.
    destruct (enqueue_wired s (hand_over data s) data Hw) as (s2 & Hrun & Hw2 & Hin); try done.
    { cbn. by rewrite Hs, (assoc (++)). }
    rewrite <-(prog_run _ _ (prog_assoc (append_output data) (λ _, EnableWrite) (λ _, mret (i32 (zlength data))))).
    rewrite (bind_Done _ _ _ _ _ Hrun). by eexists _, s2.
  - rewrite Hp, app_nil_r in Hs. rewrite modS_bind. destruct r as [n|e]; cbn [sent_bytes send_ok] in *.
    + rewrite modS_bind. set (s1 := hand_over _ _).
      assert (Hs1 : handed s1 = wire s1 ++ drop (Z.to_nat n) data)
        by (cbn; by rewrite Hs, <-(assoc (++)), take_drop).
      case_decide as Hn.
      * destruct (enqueue_wired s s1 (drop (Z.to_nat n) data) Hw) as (s2 & Hrun & Hw2 & Hin); try done.
        { cbn [s1 hand_over put_on_wire output_buffer_]. rewrite Hs1. unfold s1. cbn. by rewrite Hp. }
        { intros Hd%(f_equal length). rewrite length_drop in Hd. unfold zlength in *. cbn in Hd. lia. }
        rewrite (bind_Done _ _ _ _ _ Hrun). by eexists _, s2.
      * exists n, s1. split; [done|]. split; [|done]. apply (same_wired s); try done.
        rewrite Hs1, drop_ge by (unfold zlength in *; lia). cbn. by rewrite Hp.
    + set (s1 := put_on_wire [] s).
      assert (Hw1 : wired s1) by (apply (same_wired s); try done; cbn; by rewrite Hp, !app_nil_r).
      case_decide as He.
      * rewrite (prog_run _ _ (prog_assoc (modS (hand_over data)) _ _)), modS_bind.
        destruct (enqueue_wired s (hand_over data s1) data Hw) as (s2 & Hrun & Hw2 & Hin); try done.
        { cbn. by rewrite Hp, Hs, app_nil_r. }
        rewrite (bind_Done _ _ _ _ _ Hrun). by eexists _, s2.
      * destruct (Close_wired s1 Hw1) as ([] & s2 & Hrun & Hw2 & Hin). rewrite (bind_Done _ _ _ _ _ Hrun).
        by eexists _, s2.
Qed.

(** [Send] closes the connection only for an error that is not "try again". *)
Definition fatal (r : send_result) : Prop := match r with SendError e => e ≠ EAGAIN ∧ e ≠ EWOULDBLOCK | Sent _ => False end.
Lemma append_closed data s s' : (append_output data;; EnableWrite) s = Done ((), s') → closed_ s' = closed_ s.
Proof. unfold append_output. rewrite modS_bind. unfold EnableWrite, ModEvent, modS. intros [= <-]. by case_match. Qed.
Lemma append_total data s : ∃ s', (append_output data;; EnableWrite) s = Done ((), s').
Proof. unfold append_output. rewrite modS_bind. by eexists. Qed.
Lemma append_then_closed {A} data (m : conn A) s n s' : (append_output data;; EnableWrite;; m) s = Done (n, s') →
  ∃ s1, m s1 = Done (n, s') ∧ closed_ s1 = closed_ s.
Proof.
  destruct (append_total data s) as [s1 Hrun]. rewrite <-(prog_run _ _ (prog_assoc (append_output data) (λ _, EnableWrite) (λ _, m))).
  rewrite (bind_Done _ _ _ _ _ Hrun). intros Hm. exists s1. split; [exact Hm|by apply (append_closed data)].
Qed.
Lemma Send_closed data r s n s' : Send data r s = Done (n, s') → closed_ s' = true → closed_ s = true ∨ fatal r.
Proof.
  unfold Send. rewrite gets_bind. destruct data as [data|]; [|intros [= _ <-]; auto].
  case_decide; [intros [= _ <-]; auto|]. rewrite gets_bind. case_decide.
  { rewrite modS_bind. intros (s1 & [= _ <-] & ->)%append_then_closed ?. by left. }
  rewrite modS_bind. destruct r as [m|e].
  - rewrite modS_bind. case_decide; [|intros [= _ <-]; auto].
    rewrite (prog_run _ _ (prog_assoc _ _ _)). intros (s1 & [= _ <-] & ->)%append_then_closed ?. by left.
  - destruct (decide (e = EAGAIN ∨ e = EWOULDBLOCK)) as [He|He]; [|intros _ _; right; cbn; tauto].
    rewrite (prog_run _ _ (prog_assoc _ _ _)), modS_bind, (prog_run _ _ (prog_assoc _ _ _)).
    intros (s1 & [= _ <-] & ->)%append_then_closed ?. by left.
Qed.

(** A closed connection stays as it is. *)
Lemma Send_of_closed data r s : closed_ s = true → Send data r s = Done (-1, s).
Proof. intros Hc. unfold Send. rewrite gets_bind, Hc. destruct data; [|done]. rewrite decide_True; [done|by left]. Qed.
Lemma Close_closes s s' : Close s = Done ((), s') → closed_ s' = true.
Proof. unfold Close. rewrite gets_bind. destruct (closed_ s) eqn:Hc; [by intros [= <-]|]. rewrite modS_bind. by intros [= <-]. Qed.

Lemma HandleWrite_wired r s : wired s → send_ok r (output_buffer_ s) →
  ∃ s', HandleWrite r s = Done ((), s') ∧ wired s' ∧ input_buffer_ s' = input_buffer_ s.
Proof.
  intros Hw Hok. pose proof (wired_stream s Hw) as Hs. unfold HandleWrite. rewrite gets_bind, modS_bind.
  destruct r as [n|e]; cbn [sent_bytes send_ok] in *.
  - case_decide as Hn.
    + rewrite modS_bind. set (s1 := set_output _ _).
      assert (Hs1 : handed s1 = wire s1 ++ output_buffer_ s1) by (cbn; by rewrite Hs, <-(assoc (++)), take_drop).
      assert (Hout : output_buffer_ s ≠ []) by (intros Ho; rewrite Ho in Hok; change (zlength (@nil Z)) with 0 in Hok; lia).
      rewrite gets_bind. case_decide as Hd.
      * destruct (ModEvent_wired s s1 (Z.lor EPOLLIN EPOLLRDHUP) Hw) as (s2 & Hrun & Hw2 & Hin); try done.
        { by rewrite decide_True. }
        by exists s2.
      * exists s1. split; [done|]. split; [|done]. by apply (same_wired s).
    + assert (n = 0) as -> by lia. exists (put_on_wire (take (Z.to_nat 0) (output_buffer_ s)) s). split; [done|]. split; [|done].
      apply (same_wired s); try done. cbn. by rewrite app_nil_r.
  - set (s1 := put_on_wire [] s).
    assert (Hw1 : wired s1) by (apply (same_wired s); try done; cbn; by rewrite app_nil_r).
    case_decide; [|by exists s1]. destruct (Close_wired s1 Hw1) as ([] & s2 & ? & ? & ?). by exists s2.
Qed.

(** What [connected] says of [GetDataUntilCrLf] and [GetAllData]. *)
Lemma zoom_input {A} (m : buf A) s a i :
  m (input_buffer_ s) = Done (a, i) → zoom input_buffer_ set_input m s = Done (a, set_input i s).
Proof. apply zoom_Done. Qed.

Lemma set_input_wired i s : wired s → wired (set_input i s).
Proof. intros []. by split. Qed.

Lemma set_input_same s : set_input (input_buffer_ s) s = s.
Proof. by destruct s. Qed.

Section input.
Context (limit : Z).
Hypothesis Hlimit : 0 ≤ limit < 2 ^ 63.

Lemma GetAllData_connected act s : connected limit act s →
  ∃ s', GetAllData s = Done (act, s') ∧ connected limit [] s'.
Proof.
  intros [Hi Hw]. destruct (GetAllData_spec limit Hlimit act _ Hi) as [Hbytes Hn].
  destruct (ReadCompleted_spec limit Hlimit act _ (zlength act) Hi) as (i & Hrun & Hi'); [pose proof (zlength_nonneg act); lia|].
  unfold GetAllData. rewrite gets_bind, (getsO_bind _ _ s act Hbytes), Hn.
  rewrite (bind_Done _ _ _ _ _ (zoom_input _ _ _ _ Hrun)). eexists. split; [done|]. split; [|by apply set_input_wired].
  cbn. unfold zlength in Hi'. by rewrite Nat2Z.id, drop_all in Hi'.
Qed.

(** The line before the first CR LF, which is consumed with it. *)
Lemma first_crlf_spec l i : first_crlf l = Some i →
  0 ≤ i ∧ i + 2 ≤ zlength l ∧ l = take (Z.to_nat i) l ++ 13 :: 10 :: drop (Z.to_nat (i + 2)) l.
Proof.
  revert i. induction l as [|c l IH]; intros i; cbn [first_crlf]; [done|].
  case_decide as Hc.
  - destruct Hc as [-> Hl]. destruct l as [|c' l]; [done|]. injection Hl as ->. intros [= <-].
    pose proof (zlength_nonneg l). rewrite !zlength_cons. split; [lia|]. split; [lia|done].
  - destruct (first_crlf l) as [j|]; [|done]. intros [= <-]. destruct (IH j eq_refl) as (Hj & Hlen & Heq).
    rewrite zlength_cons. split; [lia|]. split; [lia|].
    replace (Z.to_nat (j + 1)) with (S (Z.to_nat j)) by lia.
    replace (Z.to_nat (j + 1 + 2)) with (S (Z.to_nat (j + 2))) by lia. cbn. by rewrite <-Heq.
Qed.

Lemma GetDataUntilCrLf_connected act s : connected limit act s → act ≠ [] →
  ∃ s', GetDataUntilCrLf s = Done (match first_crlf act with Some i => take (Z.to_nat i) act | None => [] end, s') ∧
    connected limit (match first_crlf act with Some i => drop (Z.to_nat (i + 2)) act | None => act end) s'.
Proof.
  intros [Hi Hw] Hne. pose proof (GetDataUntilCRLF_spec limit Hlimit act _ Hi Hne) as Hcrlf.
  unfold GetDataUntilCrLf. rewrite (bind_Done _ _ _ _ _ (zoom_input _ _ _ _ Hcrlf)), set_input_same.
  destruct (first_crlf act) as [i|] eqn:Hfirst; cbn [fmap option_fmap option_map]; [|by exists s].
  destruct (first_crlf_spec act i Hfirst) as (Hi0 & Hlen & _).
  destruct (ReadCompleted_spec limit Hlimit act _ (i + 2) Hi) as (b & Hrun & Hb); [lia|].
  rewrite (getsO_bind _ _ _ (take (Z.to_nat i) act)).
  - rewrite (bind_Done _ _ _ _ _ (zoom_input _ _ _ _ Hrun)). eexists. split; [done|]. split; [done|by apply set_input_wired].
  - destruct Hi as (pre & post & Hbuf & _). rewrite Hbuf. cbn [rpos_ buffer_].
    destruct (zsplit i act) as (a1 & a2 & -> & Ha1); [lia|]. rewrite <-Ha1.
    replace (take _ (a1 ++ a2)) with a1 by (unfold zlength; by rewrite Nat2Z.id, take_app_length).
    rewrite <-(assoc (++)). apply bytes_at_app.
Qed.
End input.

(** ** One round of events *)

Section handle.
Context (limit : Z) (read_cb : conn unit) (send : list Z → send_result).
Hypothesis Hlimit : 0 ≤ limit < 2 ^ 63.
(** The callback only runs with unread bytes in the buffer. *)
Hypothesis read_cb_ok : ∀ act s, connected limit act s → act ≠ [] →
  ∃ act' s', read_cb s = Done ((), s') ∧ connected limit act' s'.
Hypothesis send_ok_all : ∀ out, send_ok (send out) out.

Lemma Close_connected act s : connected limit act s → ∃ s', Close s = Done ((), s') ∧ connected limit act s'.
Proof.
  intros [Hi Hw]. destruct (Close_wired s Hw) as ([] & s' & Hrun & Hw' & Hin).
  exists s'. split; [done|]. split; [by rewrite Hin|done].
Qed.

Lemma HandleRead_connected act s bs :
  connected limit act s → zlength bs ≤ GetFreeSize (input_buffer_ s) + EXTRA →
  ∃ e act' s', HandleRead limit read_cb (ReadBytes bs) s = Done (e, s') ∧ connected limit act' s'.
Proof.
  intros [Hi Hw] Hbs. destruct (Recv_spec limit Hlimit act _ bs Hi Hbs) as (r & i & Hrun & Hr).
  unfold HandleRead. rewrite (bind_Done _ _ _ _ _ (zoom_input _ s _ _ Hrun)).
  destruct r as [[n err]|]; [|destruct Hr as [Hr _]; by eexists None, _, _; split; [done|]; split; [|apply set_input_wired]].
  destruct Hr as (Hi' & -> & _).
  assert (Hc : connected limit (act ++ bs) (set_input i s)) by (split; [done|by apply set_input_wired]).
  case_decide as Hn.
  - assert (Hne : act ++ bs ≠ []) by (intros [_ ->]%app_nil; done).
    rewrite (prog_run _ _ (prog_assoc (gets has_read_cb) _ _)), gets_bind.
    destruct (has_read_cb _).
    + destruct (read_cb_ok _ _ Hc Hne) as (act' & s' & Hcb & Hc'). rewrite (bind_Done _ _ _ _ _ Hcb). by eexists _, act', s'.
    + by eexists _, _, _.
  - case_decide; [|by eexists _, _, _]. destruct (Close_connected _ _ Hc) as (s' & Hcl & Hc').
    rewrite (bind_Done _ _ _ _ _ Hcl). by eexists _, _, s'.
Qed.

(** Whatever events epoll reports on a connection and however much the
    kernel reads and takes, the round is defined, and after it the bytes the
    kernel took are exactly the first of those handed to [Send], the others
    wait in the output buffer in order, and the registration asks for
    writability exactly while some wait. *)
Theorem HandleIO_connected act s events bs :
  connected limit act s → zlength bs ≤ GetFreeSize (input_buffer_ s) + EXTRA →
  ∃ e act' s', HandleIO limit read_cb events (ReadBytes bs) send s = Done (e, s') ∧ connected limit act' s'.
Proof.
  intros Hc Hbs. unfold HandleIO. rewrite gets_bind. destruct (closed_ s); [by eexists _, act, s|].
  assert (∃ e act1 s1, (if decide (bit events EPOLLIN) then HandleRead limit read_cb (ReadBytes bs) else mret (Some ())) s
    = Done (e, s1) ∧ connected limit act1 s1) as (e & act1 & s1 & Hrun & Hc1).
  { case_decide; [by apply (HandleRead_connected act)|by eexists _, act, s]. }
  rewrite (bind_Done _ _ _ _ _ Hrun). destruct e as [[]|]; [|by eexists _, act1, s1].
  assert (∃ s2, (if decide (bit events EPOLLOUT) then out ← gets output_buffer_; HandleWrite (send out) else mret ()) s1
    = Done ((), s2) ∧ connected limit act1 s2) as (s2 & Hrun2 & Hc2).
  { clear Hrun. case_decide; [|by exists s1]. rewrite gets_bind. destruct Hc1 as [Hi1 Hw1].
    destruct (HandleWrite_wired (send (output_buffer_ s1)) s1 Hw1 (send_ok_all _)) as (s2 & Hrun2 & Hw2 & Hin).
    exists s2. split; [done|]. split; [by rewrite Hin|done]. }
  rewrite (bind_Done _ _ _ _ _ Hrun2). clear Hrun Hrun2. case_decide.
  - destruct (Close_connected _ _ Hc2) as (s3 & Hrun3 & Hc3). rewrite (bind_Done _ _ _ _ _ Hrun3). by eexists _, act1, s3.
  - by eexists _, act1, s2.
Qed.
(** Whatever it did before, the round closes a connection that hung up. *)
Lemma HandleIO_hung_up events rd s s' : bit events (Z.lor (Z.lor EPOLLERR EPOLLHUP) EPOLLRDHUP) →
  HandleIO limit read_cb events rd send s = Done (Some (), s') → closed_ s' = true.
Proof.
  intros Hbit. unfold HandleIO. rewrite gets_bind. destruct (closed_ s) eqn:Hc; [by intros [= <-]|].
  intros ([[]|] & s1 & _ & Hrun)%bind_inv; [|by injection Hrun]. apply bind_inv in Hrun as ([] & s2 & _ & Hrun).
  rewrite decide_True in Hrun by done. apply bind_inv in Hrun as ([] & s3 & Hclose & [= <-]). by apply Close_closes in Hclose.
Qed.
End handle.

(** ** The callback of main_msgbuf.cc *)

(** "Hello World!\r\n" and its final zero. *)
Definition hello : list Z := [72; 101; 108; 108; 111; 32; 87; 111; 114; 108; 100; 33; 13; 10; 0].
Definition answer_line (send : list Z → send_result) : conn unit :=
  GetDataUntilCrLf;; Send (Some hello) (send hello);; mret ().

Lemma answer_line_connected limit send act s :
  0 ≤ limit < 2 ^ 63 → (∀ out, send_ok (send out) out) → connected limit act s → act ≠ [] →
  ∃ act' s', answer_line send s = Done ((), s') ∧ connected limit act' s'.
Proof.
  intros Hlimit Hok Hc Hne. destruct (GetDataUntilCrLf_connected limit Hlimit act s Hc Hne) as (s1 & Hrun & Hi & Hw).
  unfold answer_line. rewrite (bind_Done _ _ _ _ _ Hrun).
  destruct (Send_wired (Some hello) (send hello)) with (s := s1) as (n & s2 & Hsend & Hw2 & Hin); [naive_solver|done|].
  rewrite (bind_Done _ _ _ _ _ Hsend). eexists _, s2. split; [done|]. split; [rewrite Hin; exact Hi|done].
Qed.

(** The kernel of the example takes 5 bytes at a time. *)
Definition five (out : list Z) : send_result := Sent (Z.min 5 (zlength out)).
Lemma five_ok out : send_ok (five out) out.
Proof. unfold five. cbn. pose proof (zlength_nonneg out). lia. Qed.

(** A connection as the server has it after [SetReadCallback]. *)
Definition accepted : TcpConn :=
  Conn false [] (with_size 16) true true (Some (Z.lor EPOLLIN EPOLLRDHUP)) [] [] [].
Example accepted_run : (new_conn (with_size 16);; SetReadCallback) accepted = Done ((), accepted).
Proof. reflexivity. Qed.

Lemma HandleIO_connected_witness :
  connected (2 ^ 20) [] accepted ∧
  ∃ e act' s', HandleIO (2 ^ 20) (answer_line five) EPOLLIN (ReadBytes [72; 105; 13; 10]) five accepted = Done (e, s') ∧
    connected (2 ^ 20) act' s'.
Proof.
  assert (H : connected (2 ^ 20) [] accepted).
  { split; [exists [], (vector_of 16); split; [reflexivity|vm_compute; discriminate]|split; reflexivity]. }
  split; [exact H|].
  apply (HandleIO_connected (2 ^ 20) (answer_line five) five ltac:(lia)) with (act := []).
  - intros act s. apply answer_line_connected; [lia|apply five_ok].
  - apply five_ok.
  - exact H.
  - vm_compute. discriminate.
Defined.

(** [HandleIO] does not look at [closed_] again: a connection that the read
    finds closed by the peer still sends, on a descriptor it has given back. *)
Example sends_after_close :
  let s := Conn false [1; 2] (with_size 4) false true (Some 8197) [1; 2] [] [] in
  match HandleIO (2 ^ 20) (mret ()) (Z.lor EPOLLIN EPOLLOUT) (ReadBytes []) five s with
  | Done (_, s') => closed_ s' = true ∧ stray s' = [1; 2]
  | _ => False
  end.
Proof. vm_compute. done. Qed.

(** When the kernel would block, [Send] keeps the bytes to send them later and
    returns the value of a failure. *)
Example send_would_block :
  match Send (Some [7]) (SendError EAGAIN) accepted with
  | Done (n, s') => n = -1 ∧ output_buffer_ s' = [7]
  | _ => False
  end.
Proof. vm_compute. done. Qed.
End TcpConn.
