(* ===== verification/PagePool.v ===== *)
(** The memory pool of mempool/mm_pool_.c: small requests are cut from a chain
    of blocks, large ones go to malloc and are recorded in the pool.

    Addresses are integers, 0 is [NULL].  The system allocator is an argument;
    the model keeps the blocks it has handed out, so that reading or writing
    outside them, and giving back what is not one of them, is undefined. *)
From S2P Require Import Prelude.

Open Scope Z_scope.

Module PagePool.

Abbreviation MP_ALIGNMENT := 32 (only parsing).
Abbreviation MP_PAGE_SIZE := 4096 (only parsing).
Abbreviation MP_MAX_ALLOC_FROM_POOL := (MP_PAGE_SIZE - 1) (only parsing).

(** mp_align and mp_align_ptr *)
Definition mp_align (n alignment : Z) : Z := Z.land (n + (alignment - 1)) (Z.lnot (alignment - 1)).

(** sizeof of the three structures *)
Abbreviation SIZEOF_LARGE := 16 (only parsing).
Abbreviation SIZEOF_NODE := 32 (only parsing).
Abbreviation SIZEOF_POOL := 24 (only parsing).

Record mp_large_s := Large { lnext : Z; alloc : Z }.
Record mp_node_s := Node { last : Z; end_ : Z; next : Z; failed : Z }.
(** [head] is at the end of the structure, at [head_of pool]. *)
Record mp_pool_s := Pool { max : Z; current : Z; large : Z }.
Definition head_of (pool : Z) : Z := pool + SIZEOF_POOL.

Definition with_last l n := Node l (end_ n) (next n) (failed n).
Definition with_next x n := Node (last n) (end_ n) x (failed n).
Definition with_failed f n := Node (last n) (end_ n) (next n) f.

(** The memory: the blocks handed out, with their sizes, the structures in
    them, and their other bytes. *)
Record mem := Mem {
  live : list (Z * Z);
  pools : gmap Z mp_pool_s;
  nodes : gmap Z mp_node_s;
  larges : gmap Z mp_large_s;
  bytes : Z → Z;
}.
Definition set_live l m := Mem l (pools m) (nodes m) (larges m) (bytes m).
Definition set_pools p m := Mem (live m) p (nodes m) (larges m) (bytes m).
Definition set_nodes n m := Mem (live m) (pools m) n (larges m) (bytes m).
Definition set_larges l m := Mem (live m) (pools m) (nodes m) l (bytes m).
Definition set_bytes b m := Mem (live m) (pools m) (nodes m) (larges m) b.

Abbreviation act A := (prog mem A).

(** [a .. a + s) is inside the block [b]. *)
Definition inside (a s : Z) (b : Z * Z) : Prop := b.1 ≤ a ∧ a + s ≤ b.1 + b.2.
#[export] Instance inside_dec a s b : Decision (inside a s b).
Proof. unfold inside. apply _. Defined.
Definition allocated (m : mem) (a s : Z) : Prop := Exists (inside a s) (live m).
#[export] Instance allocated_dec m a s : Decision (allocated m a s).
Proof. unfold allocated. apply _. Defined.

Definition guard (a s : Z) (m : mem) : option () := if decide (allocated m a s) then Some () else None.
Definition rd_pool (a : Z) : act mp_pool_s := getsO (λ m, guard a SIZEOF_POOL m;; pools m !! a).
Definition wr_pool (a : Z) (p : mp_pool_s) : act unit :=
  modO (λ m, guard a SIZEOF_POOL m;; Some (set_pools (<[a := p]> (pools m)) m)).
Definition rd_node (a : Z) : act mp_node_s := getsO (λ m, guard a SIZEOF_NODE m;; nodes m !! a).
Definition wr_node (a : Z) (n : mp_node_s) : act unit :=
  modO (λ m, guard a SIZEOF_NODE m;; Some (set_nodes (<[a := n]> (nodes m)) m)).
Definition rd_large (a : Z) : act mp_large_s := getsO (λ m, guard a SIZEOF_LARGE m;; larges m !! a).
Definition wr_large (a : Z) (l : mp_large_s) : act unit :=
  modO (λ m, guard a SIZEOF_LARGE m;; Some (set_larges (<[a := l]> (larges m)) m)).
Definition memset (a v s : Z) : act unit :=
  modO (λ m, guard a s m;;
    Some (set_bytes (λ x, if decide (a ≤ x < a + s) then v else bytes m x) m)).

(** free(3): [NULL] or the address of a block. *)
Definition free (a : Z) : act unit :=
  if decide (a = 0) then mret ()
  else modO (λ m, if decide (a ∈ (live m).*1) then Some (set_live (filter (λ b, b.1 ≠ a) (live m)) m) else None).

Section pool.
(** The system allocator: where it puts a block of a size with an alignment,
    next to the blocks there are; and what a word of fresh memory holds. *)
Context (sys : list (Z * Z) → Z → Z → option Z) (junk : Z).

(** 0 when it fails. *)
Definition posix_memalign (alignment size : Z) : act Z :=
  l ← gets live;
  match sys l alignment size with
  | Some a => modS (set_live ((a, size) :: l));; mret a
  | None => mret 0
  end.
Definition malloc (size : Z) : act Z := posix_memalign 16 size.

Definition mp_create_pool (size : Z) : act Z :=
  p ← posix_memalign MP_ALIGNMENT (u64 (size + SIZEOF_POOL + SIZEOF_NODE));
  if decide (p = 0) then mret 0
  else
    wr_pool p (Pool (if decide (size < MP_MAX_ALLOC_FROM_POOL) then size else MP_MAX_ALLOC_FROM_POOL) (head_of p) 0);;
    let l := p + SIZEOF_POOL + SIZEOF_NODE in
    wr_node (head_of p) (Node l (l + size) junk 0);;
    mret p.

Fixpoint free_larges (fuel : nat) (l : Z) : act unit :=
  match fuel with
  | O => out_of_fuel
  | S fuel =>
      if decide (l = 0) then mret ()
      else
        r ← rd_large l;
        (if decide (alloc r ≠ 0) then free (alloc r) else mret ());;
        free_larges fuel (lnext r)
  end.

Fixpoint free_nodes (fuel : nat) (h : Z) : act unit :=
  match fuel with
  | O => out_of_fuel
  | S fuel =>
      if decide (h = 0) then mret ()
      else n ← rd_node h; free h;; free_nodes fuel (next n)
  end.

(** A chain has at most as many members as there are structures. *)
Definition node_fuel : act nat := gets (λ m, S (size (nodes m))).
Definition large_fuel : act nat := gets (λ m, S (size (larges m))).

Definition mp_destory_pool (pool : Z) : act unit :=
  p ← rd_pool pool;
  fuel ← large_fuel;
  free_larges fuel (large p);;
  h ← rd_node (head_of pool);
  fuel ← node_fuel;
  free_nodes fuel (next h);;
  free pool.

Fixpoint reset_nodes (fuel : nat) (h : Z) : act unit :=
  match fuel with
  | O => out_of_fuel
  | S fuel =>
      if decide (h = 0) then mret ()
      else n ← rd_node h; wr_node h (with_last (h + SIZEOF_NODE) n);; reset_nodes fuel (next n)
  end.

Definition mp_reset_pool (pool : Z) : act unit :=
  p ← rd_pool pool;
  fuel ← large_fuel;
  free_larges fuel (large p);;
  wr_pool pool (Pool (max p) (current p) 0);;
  fuel ← node_fuel;
  reset_nodes fuel (head_of pool).

(** The loop over the chain, from [p]: every node that is passed has failed
    once more, and after the sixth time the search starts behind it. *)
Fixpoint append_node (fuel : nat) (p current new_node : Z) : act Z :=
  match fuel with
  | O => out_of_fuel
  | S fuel =>
      n ← rd_node p;
      if decide (next n = 0) then wr_node p (with_next new_node n);; mret current
      else
        wr_node p (with_failed (u64 (failed n + 1)) n);;
        append_node fuel (next n) (if decide (failed n > 4) then next n else current) new_node
  end.

Definition mp_alloc_block (pool size : Z) : act Z :=
  h ← rd_node (head_of pool);
  let psize := end_ h - head_of pool in
  m ← posix_memalign MP_ALIGNMENT psize;
  if decide (m = 0) then mret 0
  else
    let new_node := m in
    let start := mp_align (m + SIZEOF_NODE) MP_ALIGNMENT in
    wr_node new_node (Node (start + size) (m + psize) 0 0);;
    p ← rd_pool pool;
    fuel ← node_fuel;
    cur ← append_node fuel (current p) (current p) new_node;
    wr_pool pool (Pool (max p) (if decide (cur ≠ 0) then cur else new_node) (large p));;
    mret start.

(** The do-while loop of mp_alloc ([align]) and mp_nalloc; [None] at the end
    of the chain. *)
Fixpoint search (align : bool) (fuel : nat) (p size : Z) : act (option Z) :=
  match fuel with
  | O => out_of_fuel
  | S fuel =>
      n ← rd_node p;
      let m := if align then mp_align (last n) MP_ALIGNMENT else last n in
      if decide (size ≤ u64 (end_ n - m)) then wr_node p (with_last (m + size) n);; mret (Some m)
      else if decide (next n = 0) then mret None
      else search align fuel (next n) size
  end.

(** Looks for a record without memory, among the first five. *)
Fixpoint reuse_large (rounds : nat) (l p : Z) : act bool :=
  match rounds with
  | O => mret false
  | S rounds =>
      if decide (l = 0) then mret false
      else
        r ← rd_large l;
        if decide (alloc r = 0) then wr_large l (Large (lnext r) p);; mret true
        else reuse_large rounds (lnext r) p
  end.

(** A new record, made by the pool itself, for the memory at [p]. *)
Definition record_large (mp_alloc : Z → Z → act Z) (pool p : Z) : act Z :=
  l ← mp_alloc pool SIZEOF_LARGE;
  if decide (l = 0) then free p;; mret 0
  else
    pl ← rd_pool pool;
    wr_large l (Large (large pl) p);;
    wr_pool pool (Pool (max pl) (current pl) l);;
    mret p.

Definition mp_alloc_large (mp_alloc : Z → Z → act Z) (pool size : Z) : act Z :=
  p ← malloc size;
  if decide (p = 0) then mret 0
  else
    pl ← rd_pool pool;
    done ← reuse_large 5 (large pl) p;
    if done : bool then mret p else record_large mp_alloc pool p.

(** mp_alloc ([align]) and mp_nalloc.  The [depth] bounds the calls
    mp_alloc - mp_alloc_large - mp_alloc. *)
Fixpoint mp_alloc_ (align : bool) (depth : nat) (pool size : Z) : act Z :=
  match depth with
  | O => out_of_fuel
  | S depth =>
      p ← rd_pool pool;
      if decide (size ≤ max p) then
        fuel ← node_fuel;
        r ← search align fuel (current p) size;
        match r with
        | Some m => mret m
        | None => mp_alloc_block pool size
        end
      else mp_alloc_large (mp_alloc_ true depth) pool size
  end.
Definition mp_alloc : Z → Z → act Z := mp_alloc_ true 2.
Definition mp_nalloc : Z → Z → act Z := mp_alloc_ false 2.

Definition mp_memalign (pool size alignment : Z) : act Z :=
  p ← posix_memalign alignment size;
  if decide (p = 0) then mret 0 else record_large mp_alloc pool p.

Definition mp_calloc (pool size : Z) : act Z :=
  p ← mp_alloc pool size;
  (if decide (p ≠ 0) then memset p 0 size else mret ());;
  mret p.

Fixpoint free_large (fuel : nat) (l p : Z) : act unit :=
  match fuel with
  | O => out_of_fuel
  | S fuel =>
      if decide (l = 0) then mret ()
      else
        r ← rd_large l;
        if decide (p = alloc r) then free (alloc r);; wr_large l (Large (lnext r) 0)
        else free_large fuel (lnext r) p
  end.

Definition mp_free (pool p : Z) : act unit :=
  pl ← rd_pool pool;
  fuel ← large_fuel;
  free_large fuel (large pl) p.
End pool.

(** ** Invariant *)

Definition disjoint (b1 b2 : Z * Z) : Prop := b1.1 + b1.2 ≤ b2.1 ∨ b2.1 + b2.2 ≤ b1.1.

(** What posix_memalign promises: an aligned address of a region that overlaps
    no block there is. *)
Definition sys_ok (sys : list (Z * Z) → Z → Z → option Z) : Prop :=
  ∀ l al s a, sys l al s = Some a →
    0 < a ∧ a + s < 2 ^ 64 ∧ (al | a) ∧ a ∉ l.*1 ∧ ∀ b, b ∈ l → disjoint (a, s) b.

(** The nodes [chain] are linked in this order, each with [psize] bytes, and
    what they have given out is inside them. *)
Definition linked (ns : gmap Z mp_node_s) (psize : Z) (chain : list Z) : Prop :=
  ∀ i a, chain !! i = Some a →
    ∃ nd, ns !! a = Some nd ∧ next nd = default 0 (chain !! S i) ∧
      end_ nd = a + psize ∧ a + SIZEOF_NODE ≤ last nd ≤ end_ nd.

(** The records [rs] (address, memory) of the large blocks [bs] are linked in
    this order, in parts of the nodes that are given out. *)
Definition recorded (m : mem) (chain : list Z) (rs : list (Z * Z)) : Prop :=
  ∀ i l a, rs !! i = Some (l, a) →
    larges m !! l = Some (Large (default 0 (rs.*1 !! S i)) a) ∧
    ∃ x nd, x ∈ chain ∧ nodes m !! x = Some nd ∧ x + SIZEOF_NODE ≤ l ∧ l + SIZEOF_LARGE ≤ last nd.

(** A pool made for [psz] bytes, with the nodes [tail] after its first, the
    large blocks [bs] and, outside the pool, the blocks [rest]. *)
Record pool_ok (m : mem) (pool psz : Z) (tail : list Z) (rs bs rest : list (Z * Z)) : Prop := {
  ok_size : 0 ≤ psz;
  ok_live : live m ≡ₚ (pool, psz + 56) :: ((λ n, (n, psz + 32)) <$> tail) ++ bs ++ rest;
  ok_bases : NoDup (live m).*1;
  ok_positive b : b ∈ live m → 0 < b.1 ∧ 0 ≤ b.2 ∧ b.1 + b.2 < 2 ^ 64;
  ok_disjoint b b' : b ∈ live m → b' ∈ live m → b ≠ b' → disjoint b b';
  ok_pool : ∃ cur, cur ∈ head_of pool :: tail ∧
    pools m !! pool = Some (Pool (Z.min psz 4095) cur (default 0 (head rs.*1)));
  ok_linked : linked (nodes m) (psz + 32) (head_of pool :: tail);
  ok_recorded : recorded m (head_of pool :: tail) rs;
  ok_records : NoDup rs.*1;
  ok_allocs : filter (λ a, a ≠ 0) rs.*2 ≡ₚ bs.*1;
}.

(** The block a node is in. *)
Definition block_of (pool psz a : Z) : Z * Z := if decide (a = head_of pool) then (pool, psz + 56) else (a, psz + 32).

Section invariant.
Context (m : mem) (pool psz : Z) (tail : list Z) (rs bs rest : list (Z * Z)).
Hypothesis Hok : pool_ok m pool psz tail rs bs rest.
Let chain := head_of pool :: tail.

Lemma pool_live : (pool, psz + 56) ∈ live m.
Proof. rewrite (ok_live _ _ _ _ _ _ _ Hok). by left. Qed.

Lemma tail_live a : a ∈ tail → (a, psz + 32) ∈ live m.
Proof.
  intros Ha. rewrite (ok_live _ _ _ _ _ _ _ Hok). right. apply elem_of_app. left.
  apply list_elem_of_fmap. by exists a.
Qed.

(** Distinct blocks have distinct bases. *)
Lemma same_base b b' : b ∈ live m → b' ∈ live m → b.1 = b'.1 → b = b'.
Proof.
  intros Hb Hb' Heq. pose proof (ok_bases _ _ _ _ _ _ _ Hok) as Hnd.
  apply list_elem_of_lookup in Hb as [i Hi], Hb' as [j Hj].
  assert (i = j) as ->; [|congruence].
  apply (NoDup_lookup _ i j b.1 Hnd); rewrite list_lookup_fmap, ?Hi, ?Hj; cbn; congruence.
Qed.

Lemma head_not_base b : b ∈ live m → b.1 ≠ head_of pool.
Proof.
  intros Hb Heq. pose proof (ok_size _ _ _ _ _ _ _ Hok).
  assert (Hne : b ≠ (pool, psz + 56)) by (intros ->; unfold head_of in Heq; cbn in Heq; lia).
  pose proof (ok_disjoint _ _ _ _ _ _ _ Hok b _ Hb pool_live Hne) as Hd.
  pose proof (ok_positive _ _ _ _ _ _ _ Hok b Hb).
  destruct b as [x s]. unfold disjoint, head_of in *. cbn in *.
  destruct Hd; lia.
Qed.

Lemma chain_nodup : NoDup chain.
Proof.
  pose proof (ok_bases _ _ _ _ _ _ _ Hok) as Hnd. unfold chain. apply NoDup_cons. split.
  - intros Hin%tail_live. by apply head_not_base in Hin.
  - rewrite (ok_live _ _ _ _ _ _ _ Hok) in Hnd. cbn in Hnd. apply NoDup_cons in Hnd as [_ Hnd].
    rewrite !fmap_app in Hnd. apply NoDup_app in Hnd as [Hnd _].
    rewrite <-list_fmap_compose in Hnd. cbn in Hnd. by rewrite list_fmap_id in Hnd.
Qed.

Lemma block_live a : a ∈ chain → block_of pool psz a ∈ live m.
Proof.
  unfold block_of. intros [->|Ha]%elem_of_cons; [rewrite decide_True by done; apply pool_live|].
  case_decide; [apply pool_live|by apply tail_live].
Qed.

Lemma block_inside a : inside a (psz + 32) (block_of pool psz a).
Proof. unfold inside, block_of. case_decide as Ha; [rewrite Ha; unfold head_of|]; cbn; lia. Qed.

Lemma block_inj a b : block_of pool psz a = block_of pool psz b → a = b.
Proof.
  unfold block_of. repeat case_decide; intros Heq; simplify_eq; try done; try lia; congruence.
Qed.

(** Regions of distinct nodes do not overlap. *)
Lemma nodes_disjoint a b x s y t : a ∈ chain → b ∈ chain → a ≠ b →
  a ≤ x → x + s ≤ a + (psz + 32) → b ≤ y → y + t ≤ b + (psz + 32) → x + s ≤ y ∨ y + t ≤ x.
Proof.
  intros Ha Hb Hne ????.
  destruct (ok_disjoint _ _ _ _ _ _ _ Hok _ _ (block_live a Ha) (block_live b Hb)) as [Hd|Hd].
  - intros Heq. by apply Hne, block_inj.
  - pose proof (block_inside a). pose proof (block_inside b). unfold inside in *. lia.
  - pose proof (block_inside a). pose proof (block_inside b). unfold inside in *. lia.
Qed.

Lemma node_positive a : a ∈ chain → 0 < a ∧ a + (psz + 32) < 2 ^ 64.
Proof.
  intros Ha. destruct (ok_positive _ _ _ _ _ _ _ Hok _ (block_live a Ha)). pose proof (block_inside a).
  unfold inside in *. lia.
Qed.

Lemma in_node_allocated a x s : a ∈ chain → a ≤ x → x + s ≤ a + (psz + 32) → allocated m x s.
Proof.
  intros Ha ??. apply Exists_exists. exists (block_of pool psz a). split; [by apply block_live|].
  pose proof (block_inside a). unfold inside in *. lia.
Qed.

Lemma pool_allocated : allocated m pool SIZEOF_POOL.
Proof.
  apply Exists_exists. eexists. split; [apply pool_live|]. pose proof (ok_size _ _ _ _ _ _ _ Hok). unfold inside. cbn. lia.
Qed.
End invariant.

(** ** Reading and writing the structures *)

Lemma guard_ok a s m : allocated m a s → guard a s m = Some ().
Proof. intros H. unfold guard. by rewrite decide_True. Qed.

Lemma rd_node_run m a nd : allocated m a SIZEOF_NODE → nodes m !! a = Some nd → rd_node a m = Done (nd, m).
Proof. intros Hal Hnd. unfold rd_node. apply getsO_Done. by rewrite (guard_ok _ _ _ Hal). Qed.
Lemma wr_node_run m a nd : allocated m a SIZEOF_NODE → wr_node a nd m = Done ((), set_nodes (<[a := nd]> (nodes m)) m).
Proof. intros Hal. unfold wr_node. apply modO_Done. by rewrite (guard_ok _ _ _ Hal). Qed.
Lemma rd_pool_run m a p : allocated m a SIZEOF_POOL → pools m !! a = Some p → rd_pool a m = Done (p, m).
Proof. intros Hal Hp. unfold rd_pool. apply getsO_Done. by rewrite (guard_ok _ _ _ Hal). Qed.
Lemma wr_pool_run m a p : allocated m a SIZEOF_POOL → wr_pool a p m = Done ((), set_pools (<[a := p]> (pools m)) m).
Proof. intros Hal. unfold wr_pool. apply modO_Done. by rewrite (guard_ok _ _ _ Hal). Qed.
Lemma rd_large_run m a l : allocated m a SIZEOF_LARGE → larges m !! a = Some l → rd_large a m = Done (l, m).
Proof. intros Hal Hl. unfold rd_large. apply getsO_Done. by rewrite (guard_ok _ _ _ Hal). Qed.
Lemma wr_large_run m a l : allocated m a SIZEOF_LARGE → wr_large a l m = Done ((), set_larges (<[a := l]> (larges m)) m).
Proof. intros Hal. unfold wr_large. apply modO_Done. by rewrite (guard_ok _ _ _ Hal). Qed.

(** Updating a node that keeps its place in the chain. *)
Lemma linked_update ns psize chain a nd nd' :
  NoDup chain → linked ns psize chain → ns !! a = Some nd →
  next nd' = next nd → end_ nd' = end_ nd → (last nd ≤ last nd' ≤ end_ nd) →
  linked (<[a := nd']> ns) psize chain.
Proof.
  intros Hnd Hl Ha Hn He Hlast i x Hx. destruct (Hl i x Hx) as (nx & Hnx & ? & ? & ?).
  destruct (decide (x = a)) as [->|Hne].
  - simplify_eq. exists nd'. rewrite lookup_insert_eq. split; [done|]. rewrite Hn, He. split; [done|]. split; [done|]. lia.
  - exists nx. by rewrite lookup_insert_ne.
Qed.

Lemma linked_size ns psize chain : NoDup chain → linked ns psize chain → (length chain ≤ size ns)%nat.
Proof.
  intros Hnd Hl. rewrite <-(size_list_to_set (C := gset Z) chain Hnd), <-size_dom.
  apply subseteq_size. intros x. rewrite elem_of_list_to_set. intros [i Hi]%list_elem_of_lookup.
  destruct (Hl i x Hi) as (nd & Hnd' & _). by apply elem_of_dom_2 in Hnd'.
Qed.

(** The test of mp_alloc and mp_nalloc. *)
Definition room (align : bool) (nd : mp_node_s) (req : Z) : Prop :=
  req ≤ u64 (end_ nd - (if align then mp_align (last nd) MP_ALIGNMENT else last nd)).

Section walks.
Context (m : mem) (psize : Z) (chain : list Z).
Hypothesis Hnodup : NoDup chain.
Hypothesis Hpos : ∀ a, a ∈ chain → 0 < a ∧ allocated m a SIZEOF_NODE.

(** Where the search finds room, and what it writes there. *)
Lemma search_run align req fuel i p :
  linked (nodes m) psize chain → chain !! i = Some p → (length chain - i < fuel)%nat →
  ∃ r m', search align fuel p req m = Done (r, m') ∧
    match r with
    | None => m' = m ∧ ∀ j a nd, (i ≤ j)%nat → chain !! j = Some a → nodes m !! a = Some nd → ¬ room align nd req
    | Some v => ∃ a nd, a ∈ chain ∧ nodes m !! a = Some nd ∧
        v = (if align then mp_align (last nd) MP_ALIGNMENT else last nd) ∧ req ≤ u64 (end_ nd - v) ∧
        m' = set_nodes (<[a := with_last (v + req) nd]> (nodes m)) m
    end.
Proof.
  intros Hl. revert i p. induction fuel as [|fuel IH]; intros i p Hp Hfuel; [lia|]. cbn [search].
  assert (Hin : p ∈ chain) by by eapply list_elem_of_lookup_2.
  destruct (Hpos p Hin) as [Hp0 Hal]. destruct (Hl i p Hp) as (nd & Hnd & Hnext & _ & _).
  rewrite (bind_Done _ _ _ _ _ (rd_node_run _ _ _ Hal Hnd)). cbv zeta. case_decide as Hroom.
  - rewrite (bind_Done _ _ _ _ _ (wr_node_run _ _ _ Hal)). eexists (Some _), _. split; [done|].
    by exists p, nd.
  - destruct (chain !! S i) as [q|] eqn:Hq; cbn in Hnext.
    + assert (Hq' : q ∈ chain) by by eapply list_elem_of_lookup_2. destruct (Hpos q Hq').
      rewrite decide_False by lia. rewrite Hnext. destruct (IH (S i) q Hq) as (r & m' & Hrun & Hr).
      { apply lookup_lt_Some in Hq. lia. }
      exists r, m'. split; [done|]. destruct r as [v|]; [done|]. destruct Hr as [-> Hno]. split; [done|].
      intros j a nd' Hj Ha Hnd'. destruct (decide (j = i)) as [->|Hne]; [by simplify_eq|]. apply (Hno j a nd'); [lia|done|done].
    + rewrite decide_True by done. eexists None, m. split; [done|]. split; [done|].
      intros j a nd' Hj Ha Hnd'. apply lookup_ge_None in Hq. apply lookup_lt_Some in Ha as Hlt. assert (j = i) as -> by lia. by simplify_eq.
Qed.

(** The walk to the end of the chain: the last node is linked to the new one,
    and the counters on the way do not matter to the chain. *)
Lemma append_node_run new fuel i p cur ns :
  linked ns psize chain → chain !! i = Some p → cur ∈ chain → (length chain - i < fuel)%nat →
  ∃ cur' ns', append_node fuel p cur new (set_nodes ns m) = Done (cur', set_nodes ns' m) ∧ cur' ∈ chain ∧
    (∀ j a nd, chain !! j = Some a → ns !! a = Some nd →
      ∃ nd', ns' !! a = Some nd' ∧ last nd' = last nd ∧ end_ nd' = end_ nd ∧
        next nd' = (if decide (S j = length chain) then new else next nd)) ∧
    (∀ a, a ∉ chain → ns' !! a = ns !! a).
Proof.
  revert i p cur ns. induction fuel as [|fuel IH]; intros i p cur ns Hl Hp Hcur Hfuel; [lia|]. cbn [append_node].
  assert (Hin : p ∈ chain) by by eapply list_elem_of_lookup_2.
  destruct (Hpos p Hin) as [Hp0 Hal]. destruct (Hl i p Hp) as (nd & Hnd & Hnext & _).
  assert (Hal' : ∀ ns, allocated (set_nodes ns m) p SIZEOF_NODE) by done.
  rewrite (bind_Done _ _ _ _ _ (rd_node_run _ _ _ (Hal' ns) Hnd)).
  destruct (chain !! S i) as [q|] eqn:Hq; cbn in Hnext.
  - assert (Hq' : q ∈ chain) by by eapply list_elem_of_lookup_2. destruct (Hpos q Hq').
    rewrite decide_False by lia. rewrite (bind_Done _ _ _ _ _ (wr_node_run _ _ _ (Hal' ns))), Hnext.
    set (nd1 := with_failed _ nd). set (ns1 := <[p := nd1]> ns).
    assert (Hl1 : linked ns1 psize chain).
    { destruct (Hl i p Hp) as (nx & Hnx & _ & _ & ?). rewrite Hnd in Hnx. injection Hnx as <-.
      apply (linked_update _ _ _ p nd); try done. cbn. lia. }
    apply lookup_lt_Some in Hq as Hlen.
    destruct (IH (S i) q (if decide (failed nd > 4) then q else cur) ns1 Hl1 Hq) as (cur' & ns' & Hrun & Hcur' & Hns' & Hout).
    { by case_decide. } { lia. }
    exists cur', ns'. split; [exact Hrun|]. split; [done|]. split.
    + intros j a nda Ha Hnda. destruct (decide (a = p)) as [->|Hne].
      * simplify_eq. destruct (Hns' j p nd1 Ha) as (nd' & ? & ? & ? & ?); [by apply lookup_insert_eq|]. by exists nd'.
      * apply (Hns' j a nda Ha). by unfold ns1; rewrite lookup_insert_ne.
    + intros a Ha. rewrite Hout by done. unfold ns1. rewrite lookup_insert_ne; [done|]. by intros ->.
  - rewrite decide_True by done. rewrite (bind_Done _ _ _ _ _ (wr_node_run _ _ _ (Hal' ns))).
    assert (Hlast : S i = length chain).
    { apply lookup_ge_None in Hq. apply lookup_lt_Some in Hp. lia. }
    exists cur, (<[p := with_next new nd]> ns). split; [done|]. split; [done|]. split.
    + intros j a nda Ha Hnda. destruct (decide (a = p)) as [->|Hne].
      * assert (j = i) as -> by by eapply NoDup_lookup. simplify_eq. exists (with_next new nd).
        rewrite lookup_insert_eq, decide_True by done. done.
      * exists nda. rewrite lookup_insert_ne by done. split_and!; try done.
        rewrite decide_False; [done|]. intros Hj. assert (j = i) as -> by lia. congruence.
    + intros a Ha. rewrite lookup_insert_ne; [done|]. by intros ->.
Qed.
End walks.

(** ** Alignment *)

Lemma mp_align_32 n : mp_align n MP_ALIGNMENT = (n + 31) / 32 * 32.
Proof.
  unfold mp_align. replace (32 - 1) with (Z.ones 5) by done.
  rewrite <-Z.ldiff_land, Z.ldiff_ones_r, Z.shiftl_mul_pow2, Z.shiftr_div_pow2 by lia. done.
Qed.
Lemma mp_align_bounds n : n ≤ mp_align n MP_ALIGNMENT < n + 32.
Proof. rewrite mp_align_32. Z.to_euclidean_division_equations. lia. Qed.
Lemma mp_align_divides n : (MP_ALIGNMENT | mp_align n MP_ALIGNMENT).
Proof. rewrite mp_align_32. by apply Z.divide_factor_r. Qed.
Lemma mp_align_id n : (MP_ALIGNMENT | n) → mp_align n MP_ALIGNMENT = n.
Proof. intros [k ->]. rewrite mp_align_32. Z.to_euclidean_division_equations. lia. Qed.

(** ** Small requests *)

(** The bytes of the pool that are given out. *)
Definition used (m : mem) (chain : list Z) (x : Z) : Prop :=
  ∃ a nd, a ∈ chain ∧ nodes m !! a = Some nd ∧ a + SIZEOF_NODE ≤ x < last nd.

(** No node ends in the padding before the next aligned address. *)
Definition tight (m : mem) (chain : list Z) : Prop :=
  ∀ a nd, a ∈ chain → nodes m !! a = Some nd → mp_align (last nd) MP_ALIGNMENT ≤ end_ nd.

(** No node from the current one on has room, as the code computes it. *)
Definition full (align : bool) (m : mem) (pool : Z) (chain : list Z) (req : Z) : Prop :=
  ∃ p i, pools m !! pool = Some p ∧ chain !! i = Some (current p) ∧
    ∀ j a nd, (i ≤ j)%nat → chain !! j = Some a → nodes m !! a = Some nd → ¬ room align nd req.

(** A correct result of a small request: failure without effect, when no node
    has room and the system gives no block, or [req] bytes inside one node that
    were not given out before and now are; a node is added only when no other
    has room. *)
Definition granted (sys : list (Z * Z) → Z → Z → option Z) (align : bool) (m m' : mem) (pool psz : Z) (tail : list Z) (rs bs rest : list (Z * Z)) (req v : Z) : Prop :=
  (v = 0 ∧ m' = m ∧ full align m pool (head_of pool :: tail) req ∧ sys (live m) MP_ALIGNMENT (psz + SIZEOF_NODE) = None) ∨
  ∃ tail', pool_ok m' pool psz tail' rs bs rest ∧ 0 < v ∧ (align = true → (MP_ALIGNMENT | v)) ∧
    (∃ a nd, a ∈ head_of pool :: tail' ∧ nodes m' !! a = Some nd ∧ a + SIZEOF_NODE ≤ v ∧ v + req = last nd) ∧
    (∀ x, v ≤ x < v + req → ¬ used m (head_of pool :: tail) x ∧ used m' (head_of pool :: tail') x) ∧
    (∀ x, used m (head_of pool :: tail) x → used m' (head_of pool :: tail') x) ∧
    (tail' = tail ∨ full align m pool (head_of pool :: tail) req ∧ ∃ a, tail' = tail ++ [a]).
(** The wrong result: a node ends in the padding before the next aligned
    address, the difference wraps, and the memory starts behind its end. *)
Definition overrun (m m' : mem) (chain : list Z) (req v : Z) : Prop :=
  ∃ a nd, a ∈ chain ∧ nodes m !! a = Some nd ∧ v = mp_align (last nd) MP_ALIGNMENT ∧ end_ nd < v ∧
    m' = set_nodes (<[a := with_last (v + req) nd]> (nodes m)) m.

Section small.
Context (sys : list (Z * Z) → Z → Z → option Z) (m : mem) (pool psz : Z) (tail : list Z) (rs bs rest : list (Z * Z)).
Hypothesis Hsys : sys_ok sys.
Hypothesis Hok : pool_ok m pool psz tail rs bs rest.
Let chain := head_of pool :: tail.

Lemma chain_positive a : a ∈ chain → 0 < a ∧ allocated m a SIZEOF_NODE.
Proof.
  intros Ha. split; [by eapply node_positive|].
  eapply in_node_allocated; [done|done|lia|]. pose proof (ok_size _ _ _ _ _ _ _ Hok). lia.
Qed.

Lemma chain_node a : a ∈ chain → ∃ nd, nodes m !! a = Some nd ∧ end_ nd = a + (psz + 32) ∧ a + SIZEOF_NODE ≤ last nd ≤ end_ nd.
Proof.
  intros [i Hi]%list_elem_of_lookup. destruct (ok_linked _ _ _ _ _ _ _ Hok i a Hi) as (nd & ? & _ & ? & ?). by exists nd.
Qed.

(** Nodes change, but what they gave out stays given out. *)
Lemma pool_ok_nodes ns :
  linked ns (psz + 32) chain →
  (∀ a nd, a ∈ chain → nodes m !! a = Some nd → ∃ nd', ns !! a = Some nd' ∧ last nd ≤ last nd') →
  pool_ok (set_nodes ns m) pool psz tail rs bs rest.
Proof.
  intros Hl Hlast. destruct Hok. split; try done.
  intros i l a Hi. destruct (ok_recorded0 i l a Hi) as (Hr & x & nd & Hx & Hnd & ? & ?).
  split; [done|]. destruct (Hlast x nd Hx Hnd) as (nd' & ? & ?). exists x, nd'. split_and!; try done. lia.
Qed.

Lemma search_granted (align : bool) req v a nd :
  0 ≤ req → v ≤ end_ nd →
  a ∈ chain → nodes m !! a = Some nd →
  v = (if align then mp_align (last nd) MP_ALIGNMENT else last nd) → req ≤ u64 (end_ nd - v) →
  granted sys align m (set_nodes (<[a := with_last (v + req) nd]> (nodes m)) m) pool psz tail rs bs rest req v.
Proof.
  intros Hreq Hin Ha Hnd Hv Hroom. destruct (chain_node a Ha) as (nd' & Hnd' & Hend & Hlast). rewrite Hnd in Hnd'. injection Hnd' as <-.
  destruct (node_positive _ _ _ _ _ _ _ Hok a Ha) as [Hpos Hmax].
  assert (Hv1 : last nd ≤ v ≤ end_ nd).
  { destruct align; subst v; [|lia]. pose proof (mp_align_bounds (last nd)). lia. }
  assert (Hv2 : v + req ≤ end_ nd).
  { pose proof (ok_size _ _ _ _ _ _ _ Hok). revert Hroom. unfold u64. rewrite wrap_small by lia. lia. }
  set (nd1 := with_last (v + req) nd).
  assert (Hns : ∀ x ndx, nodes m !! x = Some ndx → ∃ nd', <[a := nd1]> (nodes m) !! x = Some nd' ∧ last ndx ≤ last nd').
  { intros x ndx Hx. destruct (decide (x = a)) as [->|Hne].
    - simplify_eq. exists nd1. rewrite lookup_insert_eq. split; [done|]. cbn. lia.
    - exists ndx. by rewrite lookup_insert_ne. }
  right. exists tail. split_and!.
  - apply pool_ok_nodes; [|by intros x ndx _; apply Hns].
    eapply linked_update; [by eapply chain_nodup|by eapply ok_linked|done|done|done|cbn; lia].
  - lia.
  - intros Hal. subst v. rewrite Hal. apply mp_align_divides.
  - exists a, nd1. cbn [nodes set_nodes]. rewrite lookup_insert_eq. split_and!; try done; lia.
  - intros x Hx. split.
    + intros (b & ndb & Hb & Hndb & Hxb). destruct (decide (a = b)) as [->|Hne]; [simplify_eq; lia|].
      destruct (chain_node b Hb) as (ndb' & Hndb' & Hendb & Hlastb). rewrite Hndb in Hndb'. injection Hndb' as <-.
      destruct (nodes_disjoint _ _ _ _ _ _ _ Hok a b v req x 1 Ha Hb Hne); lia.
    + exists a, nd1. cbn [nodes set_nodes]. rewrite lookup_insert_eq. split_and!; try done; cbn; lia.
  - intros x (b & ndb & Hb & Hndb & Hxb). destruct (Hns b ndb Hndb) as (nd' & ? & ?). exists b, nd'. split_and!; try done; lia.
  - by left.
Qed.

Lemma fresh_node a : sys (live m) MP_ALIGNMENT (psz + 32) = Some a → a ∉ chain.
Proof.
  intros Ha. destruct (Hsys _ _ _ _ Ha) as (Hpos & _ & _ & Hnew & Hdisj). intros [->|Hin]%elem_of_cons.
  - pose proof (Hdisj _ (pool_live _ _ _ _ _ _ _ Hok)) as Hd. pose proof (ok_size _ _ _ _ _ _ _ Hok).
    unfold disjoint, head_of in Hd. cbn in Hd. lia.
  - apply Hnew, list_elem_of_fmap. eexists. split; [|by apply (tail_live _ _ _ _ _ _ _ Hok)]. done.
Qed.

(** The chain of [ns], with the node [a] at its end. *)
Lemma linked_snoc ns ns' a nd :
  linked ns (psz + 32) chain → a ∉ chain →
  (∀ j x ndx, chain !! j = Some x → ns !! x = Some ndx →
    ∃ nd', ns' !! x = Some nd' ∧ last nd' = last ndx ∧ end_ nd' = end_ ndx ∧
      next nd' = (if decide (S j = length chain) then a else next ndx)) →
  ns' !! a = Some nd → next nd = 0 → end_ nd = a + (psz + 32) → a + SIZEOF_NODE ≤ last nd ≤ end_ nd →
  linked ns' (psz + 32) (chain ++ [a]).
Proof.
  intros Hl Ha Hns Hnd Hn He Hlast i x Hx. apply lookup_app_Some in Hx as [Hx|[Hi Hx]].
  - destruct (Hl i x Hx) as (ndx & Hndx & Hnx & ? & ?). destruct (Hns i x ndx Hx Hndx) as (nd' & ? & HL & HE & HN).
    exists nd'. rewrite HL, HE. split; [done|]. split; [|done]. rewrite HN. case_decide as Hlen.
    + rewrite lookup_app_r by lia. by rewrite Hlen, Nat.sub_diag.
    + rewrite lookup_app_l; [done|]. apply lookup_lt_Some in Hx. lia.
  - destruct (i - length chain)%nat eqn:Hd; [|done]. injection Hx as <-. exists nd. split; [done|]. split; [|done].
    rewrite Hn, lookup_ge_None_2; [done|]. rewrite length_app. change (length [a]) with 1%nat. lia.
Qed.

(** The memory after a block has been added for a request. *)
Lemma grown_ok a req ns' cur' ps' :
  sys (live m) MP_ALIGNMENT (psz + 32) = Some a → 0 ≤ req ≤ psz →
  linked ns' (psz + 32) (chain ++ [a]) →
  (∀ x nd, x ∈ chain → nodes m !! x = Some nd → ∃ nd', ns' !! x = Some nd' ∧ last nd ≤ last nd') →
  cur' ∈ chain ++ [a] → ps' !! pool = Some (Pool (Z.min psz 4095) cur' (default 0 (head rs.*1))) →
  pool_ok (set_pools ps' (set_nodes ns' (set_live ((a, psz + 32) :: live m) m))) pool psz (tail ++ [a]) rs bs rest.
Proof.
  intros Ha Hreq Hl Hlast Hcur Hps. destruct (Hsys _ _ _ _ Ha) as (Hpos & Hmax & _ & Hnew & Hdisj).
  pose proof (ok_size _ _ _ _ _ _ _ Hok). destruct Hok. split; cbn; try done.
  - rewrite ok_live0. rewrite fmap_app. cbn. solve_Permutation.
  - by apply NoDup_cons.
  - intros b [->|Hb]%elem_of_cons; [cbn; lia|auto].
  - intros b b' [->|Hb]%elem_of_cons [->|Hb']%elem_of_cons Hne; [done| | |by apply ok_disjoint0].
    + by apply Hdisj.
    + destruct (Hdisj _ Hb) as [?|?]; [by right|by left].
  - exists cur'. by split.
  - intros i l al Hi. destruct (ok_recorded0 i l al Hi) as (? & x & nd & Hx & Hnd & ? & ?). split; [done|].
    destruct (Hlast x nd Hx Hnd) as (nd' & ? & ?). exists x, nd'.
    split; [|split_and!; try done; lia]. rewrite app_comm_cons. apply elem_of_app. by left.
Qed.

(** What the new block gives for the request. *)
Lemma grown_granted align a req ns' cur' ps' nd :
  sys (live m) MP_ALIGNMENT (psz + 32) = Some a → 0 ≤ req ≤ psz → full align m pool chain req →
  linked ns' (psz + 32) (chain ++ [a]) →
  (∀ x ndx, x ∈ chain → nodes m !! x = Some ndx → ∃ nd', ns' !! x = Some nd' ∧ last ndx = last nd') →
  ns' !! a = Some nd → last nd = a + 32 + req → cur' ∈ chain →
  ps' !! pool = Some (Pool (Z.min psz 4095) cur' (default 0 (head rs.*1))) →
  granted sys align m (set_pools ps' (set_nodes ns' (set_live ((a, psz + 32) :: live m) m))) pool psz tail rs bs rest req (a + 32).
Proof.
  intros Ha Hreq Hfull Hl Hkeep Hnda Hlast Hcur Hps. destruct (Hsys _ _ _ _ Ha) as (Hpos & Hmax & Hdiv & _ & Hdisj).
  right. exists (tail ++ [a]).
  assert (Hin : ∀ x, x ∈ head_of pool :: tail ++ [a] ↔ x ∈ chain ∨ x = a).
  { intros x. rewrite app_comm_cons, elem_of_app, list_elem_of_singleton. done. }
  split_and!.
  - apply (grown_ok a req _ cur'); try done; [|apply elem_of_app; by left].
    intros x ndx Hx Hndx. destruct (Hkeep x ndx Hx Hndx) as (nd' & ? & ->). by exists nd'.
  - lia.
  - intros _. apply Z.divide_add_r; [done|by exists 1].
  - exists a, nd. split; [apply Hin; by right|]. cbn. split; [done|]. lia.
  - intros x Hx. split.
    + intros (b & ndb & Hb & Hndb & Hxb). destruct (chain_node b Hb) as (ndb' & Hndb' & Hendb & Hlastb).
      rewrite Hndb in Hndb'. injection Hndb' as <-.
      pose proof (Hdisj _ (block_live _ _ _ _ _ _ _ Hok b Hb)) as Hd. pose proof (block_inside pool psz b).
      unfold disjoint, inside in *. cbn in Hd. lia.
    + exists a, nd. split; [apply Hin; by right|]. cbn. split; [done|]. lia.
  - intros x (b & ndb & Hb & Hndb & Hxb). destruct (Hkeep b ndb Hb Hndb) as (nd' & ? & Heq).
    exists b, nd'. split; [apply Hin; by left|]. split; [done|]. lia.
  - right. split; [done|]. by exists a.
Qed.

Lemma mp_alloc_block_run align req : 0 ≤ req ≤ psz → full align m pool chain req →
  ∃ v m', mp_alloc_block sys pool req m = Done (v, m') ∧ granted sys align m m' pool psz tail rs bs rest req v.
Proof.
  intros Hreq Hfull. destruct (ok_pool _ _ _ _ _ _ _ Hok) as (cur & Hcur & Hp).
  destruct (chain_node (head_of pool)) as (h & Hh & Hend & _); [by left|].
  destruct (chain_positive (head_of pool)) as [Hh0 Hhal]; [by left|].
  unfold mp_alloc_block. rewrite (bind_Done _ _ _ _ _ (rd_node_run _ _ _ Hhal Hh)). cbv zeta.
  rewrite Hend. replace (head_of pool + (psz + 32) - head_of pool) with (psz + 32) by lia.
  unfold posix_memalign. rewrite (prog_run _ _ (prog_assoc (gets live) _ _)), gets_bind.
  destruct (sys (live m) 32 (psz + 32)) as [a|] eqn:Ha; [|exists 0, m; split; [done|by left]].
  destruct (Hsys _ _ _ _ Ha) as (Hpos & Hmax & Hdiv & Hnew & Hdisj). pose proof (fresh_node a Ha) as Hfresh.
  rewrite (prog_run _ _ (prog_then_ret (modS _) a _)), modS_bind. rewrite decide_False by lia.
  rewrite (mp_align_id (a + 32)) by (apply Z.divide_add_r; [done|by exists 1]).
  set (m1 := set_live _ m).
  assert (Hal1 : ∀ x s, allocated m x s → allocated m1 x s) by (intros x s Hx; by right).
  assert (Haa : allocated m1 a SIZEOF_NODE) by (left; unfold inside; cbn; lia).
  rewrite (bind_Done _ _ _ _ _ (wr_node_run _ _ _ Haa)).
  set (nd := Node _ _ 0 0). set (ns := <[a := nd]> (nodes m1)).
  rewrite (bind_Done _ _ _ _ _ (rd_pool_run (set_nodes ns m1) pool _ (Hal1 _ _ (pool_allocated _ _ _ _ _ _ _ Hok)) Hp)).
  cbn [current large max]. unfold node_fuel. rewrite gets_bind.
  assert (Hl : linked ns (psz + 32) chain).
  { intros i x Hx. destruct (ok_linked _ _ _ _ _ _ _ Hok i x Hx) as (ndx & ? & ?). exists ndx. unfold ns.
    rewrite lookup_insert_ne; [done|]. intros ->. by apply Hfresh, list_elem_of_lookup_2 with i. }
  apply list_elem_of_lookup in Hcur as Hi. destruct Hi as [i Hi].
  destruct (append_node_run m1 (psz + 32) chain) with (new := a) (fuel := S (size (nodes (set_nodes ns m1)))) (i := i) (p := cur) (cur := cur) (ns := ns)
    as (cur' & ns' & Hrun & Hcur' & Hns' & Hout); try done.
  { by eapply chain_nodup. }
  { intros x Hx. destruct (chain_positive x Hx). split; [done|by apply Hal1]. }
  { pose proof (linked_size _ _ _ (chain_nodup _ _ _ _ _ _ _ Hok) Hl) as Hsz. cbn [nodes set_nodes]. fold chain in Hsz. lia. }
  rewrite (bind_Done _ _ _ _ _ Hrun), (bind_Done _ _ _ _ _ (wr_pool_run (set_nodes ns' m1) pool _ (Hal1 _ _ (pool_allocated _ _ _ _ _ _ _ Hok)))).
  rewrite decide_True by (destruct (chain_positive cur' Hcur'); lia).
  eexists (a + 32), _. split; [done|].
  apply (grown_granted align a req ns' cur' _ nd); try done.
  - apply (linked_snoc ns ns' a nd); try done; [by rewrite Hout by done; apply lookup_insert_eq|cbn; lia..].
  - intros x ndx Hx Hndx. apply list_elem_of_lookup in Hx as [j Hj]. destruct (Hns' j x ndx Hj) as (nd' & ? & ? & _).
    + unfold ns. rewrite lookup_insert_ne; [done|]. intros ->. by apply Hfresh, list_elem_of_lookup_2 with j.
    + by exists nd'.
  - rewrite Hout by done. apply lookup_insert_eq.
  - cbn. by rewrite lookup_insert_eq.
Qed.
End small.

Lemma mp_alloc_run sys align depth m pool psz tail rs bs rest req :
  sys_ok sys → pool_ok m pool psz tail rs bs rest → 0 ≤ req ≤ Z.min psz 4095 →
  ∃ v m', mp_alloc_ sys align (S depth) pool req m = Done (v, m') ∧
    (granted sys align m m' pool psz tail rs bs rest req v ∨ align = true ∧ overrun m m' (head_of pool :: tail) req v).
Proof.
  intros Hsys Hok Hreq. destruct (ok_pool _ _ _ _ _ _ _ Hok) as (cur & Hcur & Hp).
  cbn [mp_alloc_]. rewrite (bind_Done _ _ _ _ _ (rd_pool_run _ _ _ (pool_allocated _ _ _ _ _ _ _ Hok) Hp)).
  cbn [max current]. rewrite decide_True by lia. unfold node_fuel. rewrite gets_bind.
  apply list_elem_of_lookup in Hcur as [i Hi].
  pose proof (ok_linked _ _ _ _ _ _ _ Hok) as Hl. pose proof (chain_nodup _ _ _ _ _ _ _ Hok) as Hnd.
  destruct (search_run m (psz + 32) (head_of pool :: tail)) with (align := align) (req := req)
    (fuel := S (size (nodes m))) (i := i) (p := cur) as (r & m' & Hrun & Hr); try done.
  { by eapply chain_positive. }
  { pose proof (linked_size _ _ _ Hnd Hl). lia. }
  rewrite (bind_Done _ _ _ _ _ Hrun). destruct r as [v|].
  - destruct Hr as (a & nd & Ha & Hnda & Hv & Hroom & ->). eexists v, _. split; [done|].
    destruct (decide (v ≤ end_ nd)) as [Hin|Hout]; [left; eapply search_granted; try done; lia|].
    right. destruct align; [|destruct (chain_node _ _ _ _ _ _ _ Hok a Ha) as (nd' & ? & _ & ?); simplify_eq; lia].
    split; [done|]. exists a, nd. split_and!; try done. lia.
  - destruct Hr as [-> Hfull]. destruct (mp_alloc_block_run sys m pool psz tail rs bs rest Hsys Hok align req) as (v & m' & Hrun' & Hg).
    + lia.
    + exists (Pool (Z.min psz 4095) cur (default 0 (head rs.*1))), i. by split_and!.
    + exists v, m'. split; [done|by left].
Qed.
(** Without padding at the end of a node the result is correct. *)
Lemma mp_alloc_tight sys depth m pool psz tail rs bs rest req :
  sys_ok sys → pool_ok m pool psz tail rs bs rest → 0 ≤ req ≤ Z.min psz 4095 → tight m (head_of pool :: tail) →
  ∃ v m', mp_alloc_ sys true (S depth) pool req m = Done (v, m') ∧ granted sys true m m' pool psz tail rs bs rest req v.
Proof.
  intros Hsys Hok Hreq Ht. destruct (mp_alloc_run sys true depth m pool psz tail rs bs rest req Hsys Hok Hreq) as (v & m' & Hrun & [Hg|[_ Ho]]); [by exists v, m'|].
  destruct Ho as (a & nd & Ha & Hnd & -> & He & _). specialize (Ht a nd Ha Hnd). lia.
Qed.

(** ** Creation *)

(** Blocks as a system allocator hands them out. *)
Record blocks_ok (l : list (Z * Z)) : Prop := {
  blocks_bases : NoDup l.*1;
  blocks_positive b : b ∈ l → 0 < b.1 ∧ 0 ≤ b.2 ∧ b.1 + b.2 < 2 ^ 64;
  blocks_disjoint b b' : b ∈ l → b' ∈ l → b ≠ b' → disjoint b b';
}.

Lemma blocks_cons sys l al s a : sys_ok sys → blocks_ok l → 0 ≤ s → sys l al s = Some a → blocks_ok ((a, s) :: l).
Proof.
  intros Hsys [Hb Hp Hd] Hs Ha. destruct (Hsys _ _ _ _ Ha) as (Hpos & Hmax & _ & Hnew & Hdisj). split.
  - by apply NoDup_cons.
  - intros b [->|Hin]%elem_of_cons; [cbn; lia|auto].
  - intros b b' [->|Hin]%elem_of_cons [->|Hin']%elem_of_cons Hne; [done| | |by apply Hd].
    + by apply Hdisj.
    + destruct (Hdisj _ Hin) as [?|?]; [by right|by left].
Qed.

Lemma mp_create_pool_spec sys m size :
  sys_ok sys → blocks_ok (live m) → 0 ≤ size → size + 56 < 2 ^ 64 →
  mp_create_pool sys 0 size m = Done (0, m) ∨
  ∃ pool m', mp_create_pool sys 0 size m = Done (pool, m') ∧ pool_ok m' pool size [] [] [] (live m).
Proof.
  intros Hsys Hb Hs Hmax. unfold mp_create_pool, posix_memalign. rewrite (prog_run _ _ (prog_assoc (gets live) _ _)), gets_bind.
  replace (u64 (size + 24 + 32)) with (size + 56) by (unfold u64; rewrite wrap_small; lia).
  destruct (sys (live m) 32 (size + 56)) as [p|] eqn:Hp; [right|by left].
  rewrite (prog_run _ _ (prog_then_ret (modS _) p _)), modS_bind.
  destruct (Hsys _ _ _ _ Hp) as (Hpos & Hpmax & _). rewrite decide_False by lia.
  pose proof (blocks_cons sys _ _ (size + 56) _ Hsys Hb ltac:(lia) Hp) as [? ? ?].
  set (m1 := set_live _ m).
  assert (Hal : ∀ x s, p ≤ x → x + s ≤ p + (size + 56) → allocated m1 x s) by (intros x s ??; left; done).
  rewrite (bind_Done _ _ _ _ _ (wr_pool_run m1 p _ (Hal p 24 ltac:(lia) ltac:(lia)))). cbv zeta.
  assert (Hal' : ∀ ps, allocated (set_pools ps m1) (head_of p) 32) by (intros ps; apply Hal; unfold head_of; lia).
  rewrite (bind_Done _ _ _ _ _ (wr_node_run _ (head_of p) _ (Hal' _))).
  eexists p, _. split; [done|]. split; cbn; try done.
  - exists (head_of p). rewrite lookup_insert_eq. split; [by left|]. do 2 f_equal. case_decide; lia.
  - intros [|i] a; [|done]. intros [= <-]. eexists. rewrite lookup_insert_eq. split; [done|]. cbn. unfold head_of. split; [done|]. lia.
  - apply NoDup_nil_2.
Qed.

(** ** Destruction *)

(** Without the block at [a] the others stay. *)
Lemma filter_base (l : list (Z * Z)) a s L : l ≡ₚ (a, s) :: L → NoDup l.*1 → filter (λ b, b.1 ≠ a) l ≡ₚ L.
Proof.
  intros Hl Hnd. rewrite Hl. rewrite filter_cons_False by (cbn; tauto). rewrite filter_all; [done|].
  intros b Hb Heq. rewrite Hl in Hnd. cbn in Hnd. apply NoDup_cons in Hnd as [Hnd _]. apply Hnd.
  rewrite <-Heq. by apply list_elem_of_fmap_2.
Qed.
Lemma free_run m a s L : 0 < a → live m ≡ₚ (a, s) :: L → NoDup (live m).*1 →
  ∃ l, free a m = Done ((), set_live l m) ∧ l ≡ₚ L ∧ NoDup l.*1.
Proof.
  intros Ha Hl Hnd. unfold free. rewrite decide_False by lia. exists (filter (λ b, b.1 ≠ a) (live m)).
  assert (Hin : a ∈ (live m).*1) by (rewrite Hl; by left).
  pose proof (filter_base _ _ _ _ Hl Hnd) as HL.
  split; [unfold modO; by rewrite decide_True|]. split; [done|].
  rewrite HL. rewrite Hl in Hnd. cbn in Hnd. by apply NoDup_cons in Hnd as [_ ?].
Qed.

Lemma allocated_in m L x s b : live m ≡ₚ L → b ∈ L → inside x s b → allocated m x s.
Proof. intros HL Hb Hx. apply Exists_exists. exists b. by rewrite HL. Qed.

(** Records whose structures are in blocks of [L]. *)
Definition records_in (m : mem) (L : list (Z * Z)) (rs : list (Z * Z)) : Prop :=
  ∀ i l a, rs !! i = Some (l, a) →
    0 < l ∧ larges m !! l = Some (Large (default 0 (rs.*1 !! S i)) a) ∧ ∃ b, b ∈ L ∧ inside l SIZEOF_LARGE b.

Lemma records_in_tail m L r rs : records_in m L (r :: rs) → records_in m L rs.
Proof. intros Hr i l a Hi. by apply (Hr (S i) l a). Qed.

Lemma free_larges_run rs : ∀ fuel m bs L,
  (length rs < fuel)%nat → records_in m L rs → filter (λ a, a ≠ 0) rs.*2 ≡ₚ bs.*1 →
  live m ≡ₚ bs ++ L → NoDup (live m).*1 → (∀ b, b ∈ bs → 0 < b.1) →
  ∃ l, free_larges fuel (default 0 (head rs.*1)) m = Done ((), set_live l m) ∧ l ≡ₚ L ∧ NoDup l.*1.
Proof.
  induction rs as [|[r a] rs IH]; intros [|fuel] m bs L Hfuel Hrs Hbs Hl Hnd Hpos; cbn in Hfuel; try lia; cbn [free_larges].
  - cbn in Hbs. symmetry in Hbs. apply Permutation_nil_r, fmap_nil_inv in Hbs as ->.
    exists (live m). cbn. by destruct m.
  - destruct (Hrs 0%nat r a eq_refl) as (Hr0 & Hr & b & Hb & Hin). cbn [fmap list_fmap fst head default].
    rewrite decide_False by (cbn; lia). cbn in Hr.
    assert (Hal : allocated m r 16) by (apply (allocated_in m (bs ++ L) _ _ b); [done|by apply elem_of_app; right|done]).
    rewrite (bind_Done _ _ _ _ _ (rd_large_run _ _ _ Hal Hr)). cbn [alloc lnext].
    rewrite fmap_cons in Hbs. cbn [snd] in Hbs. case_decide as Ha.
    + rewrite filter_cons_True in Hbs by done.
      assert (∃ s bs', bs ≡ₚ (a, s) :: bs') as (s & bs' & Hbs').
      { assert (Hin' : a ∈ bs.*1) by (rewrite <-Hbs; by left). apply list_elem_of_fmap in Hin' as ([a' s] & Heq & Hin').
        cbn in Heq. subst a'. apply elem_of_Permutation in Hin' as [bs' ?]. by exists s, bs'. }
      assert (Ha0 : 0 < a). { apply (Hpos (a, s)). rewrite Hbs'. by left. }
      destruct (free_run m a s (bs' ++ L) Ha0) as (l & Hrun & Hll & Hndl); [by rewrite Hl, Hbs'|done|].
      rewrite (bind_Done _ _ _ _ _ Hrun).
      destruct (IH fuel (set_live l m) bs' L) as (l' & Hrun' & Hl' & Hnd'); cbn [live set_live]; try done; [lia|by eapply records_in_tail| | |].
      { rewrite Hbs' in Hbs. cbn in Hbs. by apply Permutation_cons_inv in Hbs. }
      { intros b' Hb'. apply Hpos. rewrite Hbs'. by right. }
      exists l'. split; [|done]. change (set_live l' m) with (set_live l' (set_live l m)). rewrite <-Hrun'. by destruct rs.
    + rewrite filter_cons_False in Hbs by tauto.
      destruct (IH fuel m bs L) as (l' & Hrun' & Hl' & Hnd'); try done; [lia|by eapply records_in_tail|].
      exists l'. split; [|done]. rewrite <-Hrun'. by destruct rs.
Qed.

Lemma free_nodes_run psize tail : ∀ fuel m L,
  (length tail < fuel)%nat → linked (nodes m) psize tail → 32 ≤ psize → (∀ a, a ∈ tail → 0 < a) →
  live m ≡ₚ ((λ n, (n, psize)) <$> tail) ++ L → NoDup (live m).*1 →
  ∃ l, free_nodes fuel (default 0 (head tail)) m = Done ((), set_live l m) ∧ l ≡ₚ L ∧ NoDup l.*1.
Proof.
  induction tail as [|a tail IH]; intros [|fuel] m L Hfuel Hl Hp Hpos Hlive Hnd; cbn in Hfuel; try lia; cbn [free_nodes head default].
  - exists (live m). cbn in *. by destruct m.
  - assert (Ha0 : 0 < a) by (apply Hpos; by left). cbn. rewrite decide_False by lia.
    destruct (Hl 0%nat a eq_refl) as (nd & Hnda & Hnext & _).
    assert (Hal : allocated m a 32).
    { eapply allocated_in; [exact Hlive|by left|]. unfold inside. cbn. lia. }
    rewrite (bind_Done _ _ _ _ _ (rd_node_run _ _ _ Hal Hnda)).
    destruct (free_run m a psize _ Ha0 Hlive Hnd) as (l & Hrun & Hll & Hndl).
    rewrite (bind_Done _ _ _ _ _ Hrun), Hnext.
    replace (default 0 ((a :: tail) !! 1%nat)) with (default 0 (head tail)) by by destruct tail.
    destruct (IH fuel (set_live l m) L) as (l' & Hrun' & Hl' & Hnd'); cbn [live set_live]; try done; [lia| | |].
    { intros i x Hi. apply (Hl (S i) x Hi). }
    { intros x Hx. apply Hpos. by right. }
    exists l'. by rewrite Hrun'.
Qed.

(** The blocks of the pool itself. *)
Definition own_blocks (pool psz : Z) (tail : list Z) : list (Z * Z) :=
  (pool, psz + 56) :: ((λ n, (n, psz + 32)) <$> tail).

Section whole.
Context (m : mem) (pool psz : Z) (tail : list Z) (rs bs rest : list (Z * Z)).
Hypothesis Hok : pool_ok m pool psz tail rs bs rest.

Lemma block_of_own a : a ∈ head_of pool :: tail → block_of pool psz a ∈ own_blocks pool psz tail.
Proof.
  unfold block_of, own_blocks. intros Ha. case_decide; [by left|]. right.
  apply elem_of_cons in Ha as [?|Ha]; [done|]. apply list_elem_of_fmap. by exists a.
Qed.

Lemma pool_records_in L : records_in m (own_blocks pool psz tail ++ L) rs.
Proof.
  intros i l a Hi. destruct (ok_recorded _ _ _ _ _ _ _ Hok i l a Hi) as (Hl & x & nd & Hx & Hnd & Hlo & Hhi).
  destruct (chain_node _ _ _ _ _ _ _ Hok x Hx) as (nd' & Hnd' & He & Hla). rewrite Hnd in Hnd'. injection Hnd' as <-.
  destruct (node_positive _ _ _ _ _ _ _ Hok x Hx). split; [lia|]. split; [done|].
  exists (block_of pool psz x). split; [apply elem_of_app; left; by apply block_of_own|].
  pose proof (block_inside pool psz x). unfold inside in *. lia.
Qed.

Lemma records_size : (length rs ≤ size (larges m))%nat.
Proof.
  rewrite <-(length_fmap fst), <-(size_list_to_set (C := gset Z) rs.*1 (ok_records _ _ _ _ _ _ _ Hok)), <-size_dom.
  apply subseteq_size. intros l. rewrite elem_of_list_to_set. intros ([l' a] & -> & Hin)%list_elem_of_fmap.
  apply list_elem_of_lookup in Hin as [i Hi]. destruct (ok_recorded _ _ _ _ _ _ _ Hok i _ _ Hi) as (Hl & _).
  by apply elem_of_dom_2 in Hl.
Qed.

(** Giving back the memory of every record. *)
Lemma pool_free_larges : ∃ l,
  free_larges (S (size (larges m))) (default 0 (head rs.*1)) m = Done ((), set_live l m) ∧
  l ≡ₚ own_blocks pool psz tail ++ rest ∧ NoDup l.*1.
Proof.
  pose proof (ok_live _ _ _ _ _ _ _ Hok) as Hlive.
  apply (free_larges_run rs _ m bs).
  - pose proof records_size. lia.
  - apply pool_records_in.
  - apply (ok_allocs _ _ _ _ _ _ _ Hok).
  - rewrite Hlive. unfold own_blocks. cbn. solve_Permutation.
  - apply (ok_bases _ _ _ _ _ _ _ Hok).
  - intros b Hb. apply (ok_positive _ _ _ _ _ _ _ Hok). rewrite Hlive. right. apply elem_of_app. right.
    apply elem_of_app. by left.
Qed.
End whole.

(** Mp_destory_pool gives back every block of the pool and every large
    block exactly once and touches no freed memory; what is left are the
    blocks that do not belong to the pool. *)
Theorem mp_destory_pool_spec m pool psz tail rs bs rest :
  pool_ok m pool psz tail rs bs rest →
  ∃ m', mp_destory_pool pool m = Done ((), m') ∧ live m' ≡ₚ rest.
Proof.
  intros Hok. destruct (ok_pool _ _ _ _ _ _ _ Hok) as (cur & _ & Hp). pose proof (ok_size _ _ _ _ _ _ _ Hok) as Hsz.
  unfold mp_destory_pool. rewrite (bind_Done _ _ _ _ _ (rd_pool_run _ _ _ (pool_allocated _ _ _ _ _ _ _ Hok) Hp)).
  unfold large_fuel, node_fuel. rewrite gets_bind. cbn [large].
  destruct (pool_free_larges _ _ _ _ _ _ _ Hok) as (l & Hrun & Hl & Hnd). rewrite (bind_Done _ _ _ _ _ Hrun).
  destruct (chain_node _ _ _ _ _ _ _ Hok (head_of pool)) as (h & Hh & _); [by left|].
  assert (Hal : allocated (set_live l m) (head_of pool) 32).
  { eapply allocated_in; [exact Hl|by left|]. unfold inside, head_of. cbn. lia. }
  rewrite (bind_Done _ _ _ _ _ (rd_node_run (set_live l m) _ _ Hal Hh)), gets_bind. cbn [nodes set_live].
  pose proof (ok_linked _ _ _ _ _ _ _ Hok) as Hlk. pose proof (linked_size _ _ _ (chain_nodup _ _ _ _ _ _ _ Hok) Hlk) as Hsize.
  destruct (Hlk 0%nat _ eq_refl) as (h' & Hh' & Hnext & _). rewrite Hh in Hh'. injection Hh' as <-.
  replace (next h) with (default 0 (head tail)) by (rewrite Hnext; by destruct tail).
  destruct (free_nodes_run (psz + 32) tail (S (size (nodes m))) (set_live l m) ((pool, psz + 56) :: rest))
    as (l2 & Hrun2 & Hl2 & Hnd2); try done.
  - cbn in Hsize. lia.
  - intros i x Hi. apply (Hlk (S i) x Hi).
  - lia.
  - intros x Hx. eapply node_positive; [done|by right].
  - cbn. rewrite Hl. unfold own_blocks. cbn. solve_Permutation.
  - rewrite (bind_Done _ _ _ _ _ Hrun2).
    destruct (free_run (set_live l2 (set_live l m)) pool (psz + 56) rest) as (l3 & Hrun3 & Hl3 & _); [|done|done|].
    + apply (ok_positive _ _ _ _ _ _ _ Hok (pool, psz + 56)). by apply (pool_live _ _ _ _ _ _ _ Hok).
    + eexists. split; [exact Hrun3|done].
Qed.

(** ** Large requests *)

Lemma pool_ok_malloc sys m pool psz tail rs bs rest al s a :
  sys_ok sys → pool_ok m pool psz tail rs bs rest → 0 ≤ s → sys (live m) al s = Some a →
  pool_ok (set_live ((a, s) :: live m) m) pool psz tail rs bs ((a, s) :: rest).
Proof.
  intros Hsys [] Hs Ha. destruct (blocks_cons sys (live m) al s a Hsys) as [? ? ?]; [by split|done|done|].
  split; cbn; try done. rewrite ok_live0. solve_Permutation.
Qed.

(** A record gets other memory, or none. *)
Lemma recorded_update m chain rs1 l a rs2 a' :
  NoDup (rs1 ++ (l, a) :: rs2).*1 → recorded m chain (rs1 ++ (l, a) :: rs2) →
  recorded (set_larges (<[l := Large (default 0 (head rs2.*1)) a']> (larges m)) m) chain (rs1 ++ (l, a') :: rs2).
Proof.
  intros Hnd Hrec i k x Hi. cbn [larges nodes set_larges].
  replace (rs1 ++ (l, a') :: rs2).*1 with (rs1 ++ (l, a) :: rs2).*1 by by rewrite !fmap_app, !fmap_cons.
  rewrite fmap_app, fmap_cons in Hnd. apply NoDup_app in Hnd as (_ & Hd1 & Hd2). apply NoDup_cons in Hd2 as [Hd2 _].
  apply lookup_app_Some in Hi as [Hi|[Hlen Hi]].
  - destruct (Hrec i k x) as [Hk Hx]; [rewrite lookup_app_l; [done|by eapply lookup_lt_Some]|].
    split; [|done]. rewrite lookup_insert_ne; [done|]. intros <-. apply (Hd1 l); [|by left].
    apply list_elem_of_fmap. exists (l, x). split; [done|]. by eapply list_elem_of_lookup_2.
  - destruct (i - length rs1)%nat as [|j] eqn:Hj; cbn in Hi.
    + injection Hi as <- <-. assert (i = length rs1) as -> by lia.
      destruct (Hrec (length rs1) l a) as [Hk Hx]; [by rewrite lookup_app_r, Nat.sub_diag|].
      split; [|done]. rewrite lookup_insert_eq. do 2 f_equal.
      rewrite fmap_app, fmap_cons, lookup_app_r by (rewrite length_fmap; lia). rewrite length_fmap.
      replace (S (length rs1) - length rs1)%nat with 1%nat by lia. cbn. by destruct rs2.
    + destruct (Hrec i k x) as [Hk Hx]; [rewrite lookup_app_r by lia; by rewrite Hj|].
      split; [|done]. rewrite lookup_insert_ne; [done|]. intros <-. apply Hd2, list_elem_of_fmap.
      exists (l, x). split; [done|]. by eapply list_elem_of_lookup_2.
Qed.

(** The block [(p, s)] of [rest] goes to the record [l], which had none. *)
Lemma pool_ok_refill m pool psz tail rs1 l rs2 bs rest p s :
  pool_ok m pool psz tail (rs1 ++ (l, 0) :: rs2) bs ((p, s) :: rest) → 0 < p →
  pool_ok (set_larges (<[l := Large (default 0 (head rs2.*1)) p]> (larges m)) m) pool psz tail
    (rs1 ++ (l, p) :: rs2) ((p, s) :: bs) rest.
Proof.
  intros [] Hp.
  assert (Hfst : (rs1 ++ (l, p) :: rs2).*1 = (rs1 ++ (l, 0) :: rs2).*1) by by rewrite !fmap_app, !fmap_cons.
  split; cbn [live pools nodes set_larges]; rewrite ?Hfst; try done.
  - rewrite ok_live0. solve_Permutation.
  - by eapply recorded_update.
  - rewrite fmap_app, fmap_cons, filter_app in *. cbn [snd] in *. rewrite filter_cons_False in ok_allocs0 by lia.
    rewrite filter_cons_True by lia. cbn. rewrite <-ok_allocs0. solve_Permutation.
Qed.

(** The memory of the record [l] is given back. *)
Lemma pool_ok_empty m pool psz tail rs1 l rs2 bs rest p s lv :
  pool_ok m pool psz tail (rs1 ++ (l, p) :: rs2) ((p, s) :: bs) rest → 0 < p →
  lv ≡ₚ (pool, psz + 56) :: ((λ n, (n, psz + 32)) <$> tail) ++ bs ++ rest → NoDup lv.*1 →
  pool_ok (set_larges (<[l := Large (default 0 (head rs2.*1)) 0]> (larges m)) (set_live lv m)) pool psz tail
    (rs1 ++ (l, 0) :: rs2) bs rest.
Proof.
  intros [] Hp Hl Hnd. assert (Hsub : ∀ x, x ∈ lv → x ∈ live m).
  { intros x. rewrite Hl, ok_live0. cbn. rewrite !elem_of_cons, !elem_of_app, !elem_of_cons, !elem_of_app. tauto. }
  assert (Hfst : (rs1 ++ (l, 0) :: rs2).*1 = (rs1 ++ (l, p) :: rs2).*1) by by rewrite !fmap_app, !fmap_cons.
  split; cbn [live pools nodes set_larges set_live]; rewrite ?Hfst; try done; auto.
  - by apply (recorded_update (set_live lv m) _ rs1 l p rs2 0).
  - rewrite fmap_app, fmap_cons, filter_app in *. cbn [snd fmap list_fmap fst] in *. rewrite filter_cons_True in ok_allocs0 by lia.
    rewrite filter_cons_False by lia. apply (Permutation_cons_inv (a := p)). rewrite <-ok_allocs0. solve_Permutation.
Qed.

(** A new record at [l], in memory of the pool that no record uses. *)
Lemma pool_ok_record m pool psz tail rs bs rest p s l :
  pool_ok m pool psz tail rs bs ((p, s) :: rest) → 0 < p → l ∉ rs.*1 →
  (∃ x nd, x ∈ head_of pool :: tail ∧ nodes m !! x = Some nd ∧ x + SIZEOF_NODE ≤ l ∧ l + SIZEOF_LARGE ≤ last nd) →
  ∀ pl, pools m !! pool = Some pl →
  pool_ok (set_pools (<[pool := Pool (max pl) (current pl) l]> (pools m))
             (set_larges (<[l := Large (large pl) p]> (larges m)) m)) pool psz tail
    ((l, p) :: rs) ((p, s) :: bs) rest.
Proof.
  intros Hok Hp Hl Hplace pl Hpl. destruct Hok. destruct ok_pool0 as (cur & Hcur & Hpool). rewrite Hpl in Hpool. injection Hpool as ->.
  split; cbn [live pools nodes larges set_larges set_pools max current large]; try done.
  - rewrite ok_live0. solve_Permutation.
  - exists cur. rewrite lookup_insert_eq. done.
  - intros [|i] k a Hi; cbn in Hi.
    + injection Hi as <- <-. cbn [larges nodes set_larges set_pools]. rewrite lookup_insert_eq. split; [|done].
      do 2 f_equal. by destruct rs.
    + destruct (ok_recorded0 i k a Hi) as [Hk Hx]. split; [|done]. cbn [larges set_larges set_pools].
      rewrite lookup_insert_ne; [done|]. intros ->. apply Hl, list_elem_of_fmap. exists (k, a).
      split; [done|]. by eapply list_elem_of_lookup_2.
  - cbn. by apply NoDup_cons.
  - cbn [fmap list_fmap snd fst]. rewrite filter_cons_True by lia. by constructor.
Qed.

Lemma reuse_large_run m pool psz tail rs bs rest p s rounds : ∀ rs1 rs2,
  pool_ok m pool psz tail rs bs ((p, s) :: rest) → 0 < p → rs = rs1 ++ rs2 →
  reuse_large rounds (default 0 (head rs2.*1)) p m = Done (false, m) ∨
  ∃ m' rs', reuse_large rounds (default 0 (head rs2.*1)) p m = Done (true, m') ∧
    pool_ok m' pool psz tail rs' ((p, s) :: bs) rest ∧ nodes m' = nodes m.
Proof.
  induction rounds as [|rounds IH]; intros rs1 rs2 Hok Hp Hrs; [by left|]. cbn [reuse_large].
  destruct rs2 as [|[l a] rs2]; [by left|]. cbn [fmap list_fmap fst head].
  destruct (pool_records_in _ _ _ _ _ _ _ Hok [] (length rs1) l a) as (Hl0 & Hl & b & Hb & Hin).
  { rewrite Hrs, lookup_app_r, Nat.sub_diag; done. }
  change (default 0 (Some l)) with l. rewrite decide_False by lia.
  assert (Hal : allocated m l 16).
  { eapply allocated_in; [apply (ok_live _ _ _ _ _ _ _ Hok)| |exact Hin]. unfold own_blocks in Hb.
    rewrite app_nil_r in Hb. set_solver. }
  rewrite (bind_Done _ _ _ _ _ (rd_large_run _ _ _ Hal Hl)). cbn [alloc lnext].
  assert (Hnext : default 0 (rs.*1 !! S (length rs1)) = default 0 (head rs2.*1)).
  { rewrite Hrs, fmap_app, fmap_cons, lookup_app_r by (rewrite length_fmap; lia). rewrite length_fmap.
    replace (S (length rs1) - length rs1)%nat with 1%nat by lia. cbn. by destruct rs2. }
  rewrite Hnext. case_decide as Ha.
  - subst a rs. right. eexists _, _. rewrite (bind_Done _ _ _ _ _ (wr_large_run _ _ _ Hal)).
    split; [done|]. split; [by apply pool_ok_refill|done].
  - apply (IH (rs1 ++ [(l, a)])); [done|done|]. by rewrite <-(assoc (++)).
Qed.

Lemma record_used m pool psz tail rs bs rest l :
  pool_ok m pool psz tail rs bs rest → l ∈ rs.*1 → used m (head_of pool :: tail) l.
Proof.
  intros Hok ([k a] & -> & Hin)%list_elem_of_fmap. apply list_elem_of_lookup in Hin as [i Hi].
  destruct (ok_recorded _ _ _ _ _ _ _ Hok i k a Hi) as (_ & x & nd & ? & ? & ? & ?). exists x, nd. split_and!; try done; cbn; lia.
Qed.

Lemma pool_ok_perm m pool psz tail rs bs bs' rest :
  bs ≡ₚ bs' → pool_ok m pool psz tail rs bs rest → pool_ok m pool psz tail rs bs' rest.
Proof. intros Hp []. split; try done; by rewrite <-Hp. Qed.

(** A block outside the pool is given back. *)
Lemma pool_ok_drop m pool psz tail rs bs rest b l :
  pool_ok m pool psz tail rs bs (b :: rest) → l ≡ₚ own_blocks pool psz tail ++ bs ++ rest → NoDup l.*1 →
  pool_ok (set_live l m) pool psz tail rs bs rest.
Proof.
  intros [] Hl Hnd. assert (Hsub : ∀ x, x ∈ l → x ∈ live m).
  { intros x. rewrite Hl, ok_live0. unfold own_blocks. cbn. rewrite !elem_of_cons, !elem_of_app, elem_of_cons. tauto. }
  split; cbn [live pools nodes larges set_live]; try done; auto.
Qed.

Section large_requests.
Context (sys : list (Z * Z) → Z → Z → option Z).
Hypothesis Hsys : sys_ok sys.
Context (pool psz : Z) (rest : list (Z * Z)).
Hypothesis Hroom : SIZEOF_LARGE ≤ psz.

(** What a large request leaves: the pool as it was, or one large block more. *)
Definition large_granted (m' : mem) (tail : list Z) (rs bs : list (Z * Z)) (req v : Z) : Prop :=
  (v = 0 ∧ pool_ok m' pool psz tail rs bs rest) ∨
  (0 < v ∧ ∃ tail' rs', pool_ok m' pool psz tail' rs' ((v, req) :: bs) rest).

Lemma record_large_run depth m tail rs bs p s :
  pool_ok m pool psz tail rs bs ((p, s) :: rest) → 0 < p → tight m (head_of pool :: tail) →
  ∃ v m', record_large (mp_alloc_ sys true (S depth)) pool p m = Done (v, m') ∧ large_granted m' tail rs bs s v ∧ (v = 0 ∨ v = p).
Proof.
  intros Hok Hp Htight. unfold record_large.
  destruct (mp_alloc_tight sys depth m pool psz tail rs bs ((p, s) :: rest) 16 Hsys Hok) as (l & m1 & Hrun & Hg); [lia|done|].
  rewrite (bind_Done _ _ _ _ _ Hrun). destruct Hg as [(-> & -> & _)|(tail' & Hok1 & Hl0 & _ & (x & nd & Hx & Hnd & Hlo & Hhi) & Hfresh & _)].
  - rewrite decide_True by done.
    destruct (free_run m p s (own_blocks pool psz tail ++ bs ++ rest)) as (lv & Hfree & Hlv & Hndl); [done| |by eapply ok_bases|].
    { rewrite (ok_live _ _ _ _ _ _ _ Hok). unfold own_blocks. cbn. solve_Permutation. }
    rewrite (bind_Done _ _ _ _ _ Hfree). eexists 0, _. split; [done|]. split; [|by left]. left. split; [done|].
    by eapply pool_ok_drop.
  - rewrite decide_False by lia. destruct (ok_pool _ _ _ _ _ _ _ Hok1) as (cur & _ & Hpl).
    pose proof (pool_allocated _ _ _ _ _ _ _ Hok1) as Hpal.
    rewrite (bind_Done _ _ _ _ _ (rd_pool_run _ _ _ Hpal Hpl)). cbn [large].
    destruct (chain_node _ _ _ _ _ _ _ Hok1 x Hx) as (nd' & Hnd' & He & Hla). rewrite Hnd in Hnd'. injection Hnd' as <-.
    assert (Hal : allocated m1 l 16) by (eapply in_node_allocated; [exact Hok1|exact Hx|lia|lia]).
    rewrite (bind_Done _ _ _ _ _ (wr_large_run _ _ _ Hal)).
    rewrite (bind_Done _ _ _ _ _ (wr_pool_run (set_larges _ m1) pool _ Hpal)).
    eexists p, _. split; [done|]. split; [|by right]. right. split; [done|]. exists tail', ((l, p) :: rs).
    apply (pool_ok_record m1 pool psz tail' rs bs rest p s l Hok1 Hp) with (pl := Pool (Z.min psz 4095) cur (default 0 (head rs.*1))); [| |done].
    + intros Hin. destruct (Hfresh l) as [Hnot _]; [lia|]. apply Hnot. by eapply record_used.
    + exists x, nd. split_and!; try done; lia.
Qed.

(** A request that the blocks of the pool cannot hold. *)
Lemma mp_alloc_large_spec m tail rs bs req :
  pool_ok m pool psz tail rs bs rest → tight m (head_of pool :: tail) → Z.min psz 4095 < req →
  ∃ v m', mp_alloc sys pool req m = Done (v, m') ∧ large_granted m' tail rs bs req v.
Proof.
  intros Hok Htight Hreq. destruct (ok_pool _ _ _ _ _ _ _ Hok) as (cur & _ & Hpl).
  unfold mp_alloc. cbn [mp_alloc_]. rewrite (bind_Done _ _ _ _ _ (rd_pool_run _ _ _ (pool_allocated _ _ _ _ _ _ _ Hok) Hpl)).
  cbn [max]. rewrite decide_False by lia. unfold mp_alloc_large, malloc, posix_memalign.
  rewrite (prog_run _ _ (prog_assoc (gets live) _ _)), gets_bind.
  destruct (sys (live m) 16 req) as [p|] eqn:Hp.
  2:{ exists 0, m. split; [done|]. by left. }
  rewrite (prog_run _ _ (prog_then_ret (modS _) p _)), modS_bind. destruct (Hsys _ _ _ _ Hp) as (Hpos & _).
  rewrite decide_False by lia.
  pose proof (pool_ok_malloc sys m pool psz tail rs bs rest 16 req p Hsys Hok ltac:(lia) Hp) as Hok1. set (m1 := set_live _ m) in *.
  rewrite (bind_Done _ _ _ _ _ (rd_pool_run m1 _ _ (pool_allocated _ _ _ _ _ _ _ Hok1) Hpl)). cbn [large].
  destruct (reuse_large_run m1 pool psz tail rs bs rest p req 5 [] rs Hok1 Hpos eq_refl) as [Hrun|(m2 & rs' & Hrun & Hok2 & _)].
  - rewrite (bind_Done _ _ _ _ _ Hrun).
    destruct (record_large_run 0 m1 tail rs bs p req Hok1 Hpos Htight) as (v & m2 & Hrun2 & Hg & Hv).
    exists v, m2. by split.
  - rewrite (bind_Done _ _ _ _ _ Hrun). exists p, m2. split; [done|]. right. split; [done|]. by exists tail, rs'.
Qed.
End large_requests.

(** The loop of mp_free from the records [rs2]. *)
Lemma free_large_run m pool psz tail rs bs rest p : ∀ fuel rs1 rs2,
  pool_ok m pool psz tail rs bs rest → 0 < p → rs = rs1 ++ rs2 → p ∉ rs1.*2 → (length rs2 < fuel)%nat →
  ∃ m', free_large fuel (default 0 (head rs2.*1)) p m = Done ((), m') ∧
    ((p ∉ bs.*1 ∧ m' = m) ∨
     ∃ s bs' rs', bs ≡ₚ (p, s) :: bs' ∧ pool_ok m' pool psz tail rs' bs' rest).
Proof.
  induction fuel as [|fuel IH]; intros rs1 rs2 Hok Hp Hrs Hno Hfuel; [lia|]. cbn [free_large].
  destruct rs2 as [|[l a] rs2].
  { exists m. split; [done|]. left. split; [|done]. rewrite <-(ok_allocs _ _ _ _ _ _ _ Hok).
    rewrite list_elem_of_filter, Hrs, app_nil_r. tauto. }
  cbn [fmap list_fmap fst head]. change (default 0 (Some l)) with l.
  destruct (pool_records_in _ _ _ _ _ _ _ Hok [] (length rs1) l a) as (Hl0 & Hl & b & Hb & Hin).
  { rewrite Hrs, lookup_app_r, Nat.sub_diag; done. }
  rewrite decide_False by lia. rewrite app_nil_r in Hb.
  assert (Hal : allocated m l 16).
  { eapply allocated_in; [apply (ok_live _ _ _ _ _ _ _ Hok)| |exact Hin]. unfold own_blocks in Hb. set_solver. }
  rewrite (bind_Done _ _ _ _ _ (rd_large_run _ _ _ Hal Hl)). cbn [alloc lnext].
  assert (Hnext : default 0 (rs.*1 !! S (length rs1)) = default 0 (head rs2.*1)).
  { rewrite Hrs, fmap_app, fmap_cons, lookup_app_r by (rewrite length_fmap; lia). rewrite length_fmap.
    replace (S (length rs1) - length rs1)%nat with 1%nat by lia. cbn. by destruct rs2. }
  rewrite Hnext. case_decide as Hpa.
  - subst a. assert (∃ s bs', bs ≡ₚ (p, s) :: bs') as (s & bs' & Hbs).
    { assert (Hin' : p ∈ bs.*1).
      { rewrite <-(ok_allocs _ _ _ _ _ _ _ Hok), list_elem_of_filter, Hrs, fmap_app, fmap_cons. cbn. split; [lia|set_solver]. }
      apply list_elem_of_fmap in Hin' as ([p' s] & Heq & Hin'). cbn in Heq. subst p'.
      apply elem_of_Permutation in Hin' as [bs' ?]. by exists s, bs'. }
    apply (pool_ok_perm _ _ _ _ _ _ _ _ Hbs) in Hok. subst rs.
    destruct (free_run m p s (own_blocks pool psz tail ++ bs' ++ rest)) as (lv & Hfree & Hlv & Hndl); [done| |by eapply ok_bases|].
    { rewrite (ok_live _ _ _ _ _ _ _ Hok). unfold own_blocks. cbn. solve_Permutation. }
    rewrite (bind_Done _ _ _ _ _ Hfree).
    assert (Hal' : allocated (set_live lv m) l 16).
    { eapply allocated_in; [exact Hlv|apply elem_of_app; left; exact Hb|exact Hin]. }
    eexists. split; [by rewrite (wr_large_run _ _ _ Hal')|]. right. exists s, bs', (rs1 ++ (l, 0) :: rs2). split; [done|].
    by apply (pool_ok_empty m pool psz tail rs1 l rs2 bs' rest p s lv).
  - apply (IH (rs1 ++ [(l, a)])); [done|done|by rewrite <-(assoc (++))| |cbn in Hfuel; lia].
    rewrite fmap_app. set_solver.
Qed.

(** mp_free gives back a large block of the pool; any other address but [NULL]
    it ignores. *)
Lemma mp_free_spec m pool psz tail rs bs rest p :
  pool_ok m pool psz tail rs bs rest → 0 < p →
  ∃ m', mp_free pool p m = Done ((), m') ∧
    ((p ∉ bs.*1 ∧ m' = m) ∨ ∃ s bs' rs', bs ≡ₚ (p, s) :: bs' ∧ pool_ok m' pool psz tail rs' bs' rest).
Proof.
  intros Hok Hp. destruct (ok_pool _ _ _ _ _ _ _ Hok) as (cur & _ & Hpl). unfold mp_free.
  rewrite (bind_Done _ _ _ _ _ (rd_pool_run _ _ _ (pool_allocated _ _ _ _ _ _ _ Hok) Hpl)).
  unfold large_fuel. rewrite gets_bind. cbn [large].
  apply (free_large_run m pool psz tail rs bs rest p _ [] rs); try done; [set_solver|].
  pose proof (records_size _ _ _ _ _ _ _ Hok). lia.
Qed.

(** ** Reset *)

Lemma reset_nodes_run m psize chain :
  NoDup chain → (∀ a, a ∈ chain → 0 < a ∧ allocated m a SIZEOF_NODE) →
  ∀ fuel done_ todo ns, chain = done_ ++ todo → linked ns psize chain → (length todo < fuel)%nat →
  (∀ a, a ∈ done_ → ∃ nd, ns !! a = Some nd ∧ last nd = a + SIZEOF_NODE) →
  ∃ ns', reset_nodes fuel (default 0 (head todo)) (set_nodes ns m) = Done ((), set_nodes ns' m) ∧
    linked ns' psize chain ∧ ∀ a, a ∈ chain → ∃ nd, ns' !! a = Some nd ∧ last nd = a + SIZEOF_NODE.
Proof.
  intros Hnd Hpos. induction fuel as [|fuel IH]; intros done_ todo ns Hc Hl Hfuel Hdone; [lia|]. cbn [reset_nodes].
  destruct todo as [|a todo].
  { exists ns. split; [done|]. split; [done|]. rewrite app_nil_r in Hc. by subst. }
  cbn [head]. change (default 0 (Some a)) with a.
  assert (Ha : a ∈ chain) by (rewrite Hc; set_solver). destruct (Hpos a Ha) as [Ha0 Hal]. rewrite decide_False by lia.
  destruct (Hl (length done_) a) as (nd & Hnda & Hnext & Hend & Hlast).
  { rewrite Hc, lookup_app_r, Nat.sub_diag; done. }
  assert (Hal' : ∀ ns, allocated (set_nodes ns m) a SIZEOF_NODE) by done.
  rewrite (bind_Done _ _ _ _ _ (rd_node_run _ _ _ (Hal' ns) Hnda)), (bind_Done _ _ _ _ _ (wr_node_run _ _ _ (Hal' ns))).
  assert (Hn : default 0 (chain !! S (length done_)) = default 0 (head todo)).
  { rewrite Hc, lookup_app_r by lia. replace (S (length done_) - length done_)%nat with 1%nat by lia. by destruct todo. }
  rewrite Hnext, Hn. set (nd' := with_last _ nd).
  apply (IH (done_ ++ [a]) todo (<[a := nd']> ns)); [by rewrite <-(assoc (++))| |cbn in Hfuel; lia|].
  - (* only [last] goes back *)
    intros i x Hx. destruct (Hl i x Hx) as (nx & Hnx & ? & ? & ?). destruct (decide (x = a)) as [->|Hne].
    + rewrite Hnda in Hnx. injection Hnx as <-. exists nd'. rewrite lookup_insert_eq. cbn. split_and!; try done; lia.
    + exists nx. by rewrite lookup_insert_ne.
  - intros x [Hx|Hx]%elem_of_app; [|apply list_elem_of_singleton in Hx as ->].
    + destruct (Hdone x Hx) as (nx & ? & ?). exists nx. rewrite lookup_insert_ne; [done|]. intros <-.
      rewrite Hc in Hnd. apply NoDup_app in Hnd as (_ & Hd & _). apply (Hd a Hx). by left.
    + exists nd'. by rewrite lookup_insert_eq.
Qed.

(** After mp_reset_pool nothing of the pool is given out and no large block is
    left, but the blocks stay. *)
Lemma mp_reset_pool_spec m pool psz tail rs bs rest :
  pool_ok m pool psz tail rs bs rest →
  ∃ m', mp_reset_pool pool m = Done ((), m') ∧ pool_ok m' pool psz tail [] [] rest ∧
    ∀ x, ¬ used m' (head_of pool :: tail) x.
Proof.
  intros Hok. destruct (ok_pool _ _ _ _ _ _ _ Hok) as (cur & Hcur & Hp). pose proof (ok_size _ _ _ _ _ _ _ Hok) as Hsz.
  unfold mp_reset_pool. rewrite (bind_Done _ _ _ _ _ (rd_pool_run _ _ _ (pool_allocated _ _ _ _ _ _ _ Hok) Hp)).
  unfold large_fuel, node_fuel. rewrite gets_bind. cbn [large max current].
  destruct (pool_free_larges _ _ _ _ _ _ _ Hok) as (l & Hrun & Hl & Hnd). rewrite (bind_Done _ _ _ _ _ Hrun).
  assert (Hal : allocated (set_live l m) pool 24).
  { eapply allocated_in; [exact Hl|by left|]. unfold inside. cbn. lia. }
  rewrite (bind_Done _ _ _ _ _ (wr_pool_run (set_live l m) pool _ Hal)), gets_bind.
  set (m1 := set_pools _ (set_live l m)).
  pose proof (ok_linked _ _ _ _ _ _ _ Hok) as Hlk. pose proof (chain_nodup _ _ _ _ _ _ _ Hok) as Hndc.
  destruct (reset_nodes_run m1 (psz + 32) (head_of pool :: tail) Hndc) with (fuel := S (size (nodes m1))) (done_ := @nil Z)
    (todo := head_of pool :: tail) (ns := nodes m1) as (ns' & Hrun2 & Hlk' & Hlast'); try done.
  { intros a Ha. split; [by eapply node_positive|]. eapply (allocated_in m1 _ a 32 (block_of pool psz a)); [exact Hl| |].
    - apply elem_of_app. left. by eapply block_of_own.
    - pose proof (block_inside pool psz a). unfold inside in *. lia. }
  { pose proof (linked_size _ _ _ Hndc Hlk). cbn [nodes m1 set_pools set_live]. lia. }
  { intros a Ha. by apply elem_of_nil in Ha. }
  change (set_nodes (nodes m1) m1) with m1 in Hrun2. eexists. split; [exact Hrun2|]. split.
  - destruct Hok. assert (Hsub : ∀ x, x ∈ l → x ∈ live m).
    { intros x. rewrite Hl, ok_live0. unfold own_blocks. cbn. rewrite !elem_of_cons, !elem_of_app. tauto. }
    split; cbn; try done; auto.
    + exists cur. rewrite lookup_insert_eq. done.
    + apply NoDup_nil_2.
  - intros x (a & nd & Ha & Hnda & ?). destruct (Hlast' a Ha) as (nd' & Hnda' & ?). cbn in Hnda. rewrite Hnda' in Hnda. injection Hnda as <-. lia.
Qed.

(** C38: a request of at most the limit of the pool fails without any effect,
    only when no block from the current one on has room and the system gives
    no new block, or returns memory inside one block of the pool, aligned for
    mp_alloc, that was not given out before and is given out now, while what was
    given out stays so; a block is added only when no other has room.  Only for
    mp_alloc there is one more result, which is wrong: a block that ends in the
    padding before the next aligned address has room for everything, as the code
    computes it, and the memory starts behind the end of that block. *)
Theorem mp_alloc_small_spec sys (align : bool) m pool psz tail rs bs rest req :
  sys_ok sys → pool_ok m pool psz tail rs bs rest → 0 ≤ req ≤ Z.min psz 4095 →
  ∃ v m', (if align then mp_alloc sys else mp_nalloc sys) pool req m = Done (v, m') ∧
    (granted sys align m m' pool psz tail rs bs rest req v ∨ align = true ∧ overrun m m' (head_of pool :: tail) req v).
Proof. intros Hsys Hok Hreq. destruct align; [apply (mp_alloc_run sys true 1)|apply (mp_alloc_run sys false 1)]; done. Qed.

(** mp_calloc returns zeroed memory. *)
Lemma mp_calloc_spec sys m pool psz tail rs bs rest req :
  sys_ok sys → pool_ok m pool psz tail rs bs rest → 0 ≤ req ≤ Z.min psz 4095 → tight m (head_of pool :: tail) →
  ∃ v m', mp_calloc sys pool req m = Done (v, m') ∧ (v = 0 ∨ ∀ x, v ≤ x < v + req → bytes m' x = 0).
Proof.
  intros Hsys Hok Hreq Htight. unfold mp_calloc, mp_alloc.
  destruct (mp_alloc_tight sys 1 m pool psz tail rs bs rest req Hsys Hok Hreq Htight) as (v & m1 & Hrun & Hg).
  rewrite (bind_Done _ _ _ _ _ Hrun). destruct Hg as [(-> & -> & _)|(tail' & Hok1 & Hv0 & _ & (a & nd & Ha & Hnd & Hlo & Hhi) & _)].
  - exists 0, m. split; [done|by left].
  - rewrite decide_True by lia. destruct (chain_node _ _ _ _ _ _ _ Hok1 a Ha) as (nd' & Hnd' & He & Hla).
    rewrite Hnd in Hnd'. injection Hnd' as <-.
    assert (Hal : allocated m1 v req) by (eapply in_node_allocated; [exact Hok1|exact Ha|lia|lia]).
    unfold memset. rewrite (modO_bind _ _ _ (set_bytes (λ x, if decide (v ≤ x < v + req) then 0 else bytes m1 x) m1)).
    + eexists v, _. split; [done|]. right. intros x Hx. cbn. by rewrite decide_True.
    + by rewrite (guard_ok _ _ _ Hal).
Qed.

(** ** A system allocator *)

(** Puts every block behind all others. *)
Definition top (l : list (Z * Z)) : Z := foldr (λ b t, Z.max t (Z.max b.1 (b.1 + b.2))) 0 l.
Definition bump (l : list (Z * Z)) (al s : Z) : option Z :=
  let a := (top l / al + 1) * al in
  if decide (0 < al ∧ a + s < 2 ^ 64) then Some a else None.

Lemma top_ge l b : b ∈ l → b.1 ≤ top l ∧ b.1 + b.2 ≤ top l.
Proof.
  induction l as [|c l IH]; [by intros ?%elem_of_nil|].
  change (top (c :: l)) with (Z.max (top l) (Z.max c.1 (c.1 + c.2))). intros [->|Hb]%elem_of_cons; [lia|].
  specialize (IH Hb). lia.
Qed.
Lemma top_nonneg l : 0 ≤ top l.
Proof. unfold top. induction l; cbn; lia. Qed.

Lemma bump_ok : sys_ok bump.
Proof.
  intros l al s a. unfold bump. case_decide as Hd; [|done]. intros [= <-]. destruct Hd as [Hal Hmax].
  pose proof (top_nonneg l). assert (Ht : top l < (top l / al + 1) * al) by (Z.to_euclidean_division_equations; nia).
  split; [lia|]. split; [lia|]. split; [by apply Z.divide_factor_r|]. split.
  - intros (b & Hb & Hin)%list_elem_of_fmap. destruct (top_ge l b Hin). lia.
  - intros b Hin. destruct (top_ge l b Hin). right. cbn. lia.
Qed.

Definition no_memory : mem := Mem [] ∅ ∅ ∅ (λ _, 0).

(** ** Examples *)

(** A pool of 4096 bytes, as main makes it. *)
Lemma page_pool : ∃ m, mp_create_pool bump 0 4096 no_memory = Done (32, m) ∧
  pool_ok m 32 4096 [] [] [] [] ∧ tight m [head_of 32].
Proof.
  assert (Hb : blocks_ok (live no_memory)).
  { split; [apply NoDup_nil_2|intros b Hb; by apply elem_of_nil in Hb|intros b b' Hb; by apply elem_of_nil in Hb]. }
  destruct (mp_create_pool_spec bump no_memory 4096 bump_ok Hb) as [H|(pool & m & H & Hok)]; [lia|done| |].
  - vm_compute in H. discriminate.
  - pose proof H as H'. vm_compute in H'. injection H' as <- <-. eexists. split; [exact H|]. split; [exact Hok|].
    intros a nd Ha Hnd. apply list_elem_of_singleton in Ha as ->. vm_compute in Hnd. injection Hnd as <-. vm_compute. discriminate.
Qed.

Lemma mp_alloc_small_spec_witness : ∃ m, pool_ok m 32 4096 [] [] [] [] ∧
  ∃ v m', mp_alloc bump 32 512 m = Done (v, m') ∧
    (granted bump true m m' 32 4096 [] [] [] [] 512 v ∨ true = true ∧ overrun m m' [head_of 32] 512 v).
Proof.
  destruct page_pool as (m & _ & Hok & Htight). exists m. split; [exact Hok|].
  apply (mp_alloc_small_spec bump true m 32 4096 [] [] [] [] 512 bump_ok Hok). lia.
Defined.

Lemma mp_destory_pool_spec_witness : ∃ m, pool_ok m 32 4096 [] [] [] [] ∧
  ∃ m', mp_destory_pool 32 m = Done ((), m') ∧ live m' ≡ₚ [].
Proof.
  destruct page_pool as (m & _ & Hok & _). exists m. split; [exact Hok|].
  exact (mp_destory_pool_spec m 32 4096 [] [] [] [] Hok).
Defined.

(** Where a block ends in the padding, [(size_t)(p->end - m)] wraps and mp_alloc
    returns memory behind the block. *)
Example behind_the_block :
  match (p ← mp_create_pool bump 0 4096; _ ← mp_alloc bump p 4088; mp_alloc bump p 16) no_memory with
  | Done (v, m) => v ≠ 0 ∧ ¬ allocated m v 16
  | _ => False
  end.
Proof. vm_compute. split; [done|]. intros H. inversion_clear H as [? ? H1|? ? H1]; [by destruct H1 as [_ []]|inversion H1]. Qed.

(** [head->next] is not initialised: with memory that is not zero the pool
    cannot be destroyed. *)
Example wild_next :
  match (p ← mp_create_pool bump 7 4096; mp_destory_pool p) no_memory with Undef => True | _ => False end.
Proof. vm_compute. done. Qed.

(** A pool of less than 16 bytes has no room for a record of a large block:
    mp_alloc and mp_alloc_large call each other until malloc fails. *)
Example endless :
  match (p ← mp_create_pool bump 0 8; mp_alloc_ bump true 50 p 100) no_memory with NoFuel => True | _ => False end.
Proof. vm_compute. done. Qed.

(** main: ten requests, calloc, large blocks that are freed, a reset, more
    requests, and nothing is left. *)
Definition twice (n : nat) (m : act unit) : act unit := Nat.iter n (λ k, m;; k) (mret ()).
Definition main : act unit :=
  p ← mp_create_pool bump 0 4096;
  twice 10 (_ ← mp_alloc bump p 512; mret ());;
  twice 5 (_ ← mp_calloc bump p 32; mret ());;
  twice 5 (l ← mp_alloc bump p 8192; mp_free p l);;
  mp_reset_pool p;;
  twice 58 (_ ← mp_alloc bump p 256; mret ());;
  mp_destory_pool p.
Example main_leaves_nothing :
  match main no_memory with Done (_, m) => live m = [] | _ => False end.
Proof. vm_compute. done. Qed.
End PagePool.
