(* ===== verification/MemPool.v ===== *)
(** MemPool: the unfinished pool of mempool/mem_pool.c.  Requests up to the
    size of the first block are cut from a chain of blocks, larger ones go to
    malloc and are recorded in the pool.  The file calls [mp_alloc_small], which
    it does not define: here it is an argument, and so is the system allocator.
    Addresses and blocks as in PagePool.v. *)
From S2P Require Import Prelude PagePool.

Open Scope Z_scope.

Module MemPool.

Abbreviation inside := PagePool.inside.
Abbreviation disjoint := PagePool.disjoint.
Abbreviation sys_ok := PagePool.sys_ok.
Abbreviation blocks_ok := PagePool.blocks_ok.

(** sizeof of the three structures *)
Abbreviation SIZEOF_NODE := 24 (only parsing).
Abbreviation SIZEOF_LARGE := 16 (only parsing).
Abbreviation SIZEOF_POOL := 24 (only parsing).

Record mp_node_s := Node { last : Z; end_ : Z; next : Z }.
Record mp_large_s := Large { lnext : Z; alloc : Z }.
Record mp_pool_s := Pool { max : Z; head : Z; large : Z }.

(** The blocks handed out by malloc, with their sizes, and the structures. *)
Record mem := Mem {
  live : list (Z * Z);
  pools : gmap Z mp_pool_s;
  nodes : gmap Z mp_node_s;
  larges : gmap Z mp_large_s;
}.
Definition set_live l m := Mem l (pools m) (nodes m) (larges m).
Definition set_pools p m := Mem (live m) p (nodes m) (larges m).
Definition set_nodes n m := Mem (live m) (pools m) n (larges m).
Definition set_larges l m := Mem (live m) (pools m) (nodes m) l.

Abbreviation act A := (prog mem A).

Definition allocated (m : mem) (a s : Z) : Prop := Exists (inside a s) (live m).
#[export] Instance allocated_dec m a s : Decision (allocated m a s).
Proof. unfold allocated. apply _. Defined.
Definition guard (a s : Z) (m : mem) : option () := if decide (allocated m a s) then Some () else None.

Definition rd_pool (a : Z) : act mp_pool_s := getsO (λ m, guard a SIZEOF_POOL m;; pools m !! a).
Definition wr_pool (a : Z) (p : mp_pool_s) : act unit :=
  modO (λ m, guard a SIZEOF_POOL m;; Some (set_pools (<[a := p]> (pools m)) m)).
Definition rd_node (a : Z) : act mp_node_s := getsO (λ m, guard a SIZEOF_NODE m;; nodes m !! a).
Definition wr_node (a : Z) (n : mp_node_s) : act unit :=
  modO (λ m, guard a SIZEOF_NODE m;; Some (set_nodes (<[a := n]> (nodes m)) m)).
Definition rd_large (a : Z) : act mp_large_s := getsO (λ m, guard a SIZEOF_LARGE m;; larges m !! a).
Definition wr_large (a : Z) (l : mp_large_s) : act unit :=
  modO (λ m, guard a SIZEOF_LARGE m;; Some (set_larges (<[a := l]> (larges m)) m)).

(** free(3): [NULL] or the address of a block. *)
Definition free (a : Z) : act unit :=
  if decide (a = 0) then mret ()
  else modO (λ m, if decide (a ∈ (live m).*1) then Some (set_live (filter (λ b, b.1 ≠ a) (live m)) m) else None).

(** A chain has at most as many members as there are structures. *)
Definition node_fuel : act nat := gets (λ m, S (size (nodes m))).
Definition large_fuel : act nat := gets (λ m, S (size (larges m))).

Section pool.
Context (sys : list (Z * Z) → Z → Z → option Z).

Definition malloc (size : Z) : act Z :=
  l ← gets live;
  match sys l 16 size with
  | Some a => modS (set_live ((a, size) :: l));; mret a
  | None => mret 0
  end.

Definition mp_create (pool size : Z) : act Z :=
  if decide (pool = 0 ∨ size ≤ 0) then mret (-1)
  else
    m ← malloc size;
    wr_node m (Node (m + SIZEOF_NODE) (m + size) 0);;
    wr_pool pool (Pool size m 0);;
    mret 0.

Fixpoint free_larges (fuel : nat) (l : Z) : act unit :=
  match fuel with
  | O => out_of_fuel
  | S fuel =>
      if decide (l = 0) then mret ()
      else
        r ← rd_large l;
        (if decide (alloc r ≠ 0) then free (alloc r) else mret ());;
        free_larges fuel (lnext r)
  end.
Fixpoint free_nodes (fuel : nat) (node : Z) : act unit :=
  match fuel with
  | O => out_of_fuel
  | S fuel =>
      if decide (node = 0) then mret ()
      else n ← rd_node node; free node;; free_nodes fuel (next n)
  end.
Definition mp_destroy (pool : Z) : act unit :=
  p ← rd_pool pool;
  fuel ← large_fuel;
  free_larges fuel (large p);;
  wr_pool pool (Pool (max p) (head p) 0);;
  fuel ← node_fuel;
  free_nodes fuel (head p);;
  wr_pool pool (Pool (max p) 0 0);;
  free pool.

(** The loop to the end of the chain, and the store there. *)
Fixpoint append_node (fuel : nat) (iter node : Z) : act unit :=
  match fuel with
  | O => out_of_fuel
  | S fuel =>
      n ← rd_node iter;
      if decide (next n = 0) then wr_node iter (Node (last n) (end_ n) node)
      else append_node fuel (next n) node
  end.
Definition mp_alloc_block (pool size : Z) : act Z :=
  if decide (pool = 0 ∨ size ≤ 0) then mret 0
  else
    node ← malloc size;
    let ptr := node + SIZEOF_NODE in
    wr_node node (Node (ptr + size) (node + size) 0);;
    p ← rd_pool pool;
    fuel ← node_fuel;
    append_node fuel (head p) node;;
    mret ptr.

(** Looks for a record without memory. *)
Fixpoint reuse_large (fuel : nat) (l ptr : Z) : act bool :=
  match fuel with
  | O => out_of_fuel
  | S fuel =>
      if decide (l = 0) then mret false
      else
        r ← rd_large l;
        if decide (alloc r = 0) then wr_large l (Large (lnext r) ptr);; mret true
        else reuse_large fuel (lnext r) ptr
  end.
Definition mp_alloc_large (mp_alloc : Z → Z → act Z) (pool size : Z) : act Z :=
  if decide (pool = 0) then mret 0
  else
    ptr ← malloc size;
    if decide (ptr = 0) then mret 0
    else
      p ← rd_pool pool;
      fuel ← large_fuel;
      done ← reuse_large fuel (large p) ptr;
      if done : bool then mret ptr
      else
        l ← mp_alloc pool SIZEOF_LARGE;
        if decide (l = 0) then free ptr;; mret 0
        else
          p ← rd_pool pool;
          wr_large l (Large (large p) ptr);;
          wr_pool pool (Pool (max p) (head p) l);;
          mret ptr.

(** The do-while loop of mp_alloc; [None] at the end of the chain. *)
Fixpoint search (fuel : nat) (node size : Z) : act (option Z) :=
  match fuel with
  | O => out_of_fuel
  | S fuel =>
      n ← rd_node node;
      if decide (size < u64 (end_ n - last n)) then
        wr_node node (Node (last n + size) (end_ n) (next n));; mret (Some (last n))
      else if decide (next n = 0) then mret None
      else search fuel (next n) size
  end.

Context (mp_alloc_small : Z → Z → act Z).

(** The [depth] bounds the calls mp_alloc - mp_alloc_large - mp_alloc. *)
Fixpoint mp_alloc_ (depth : nat) (pool size : Z) : act Z :=
  match depth with
  | O => out_of_fuel
  | S depth =>
      p ← rd_pool pool;
      if decide (max p < size) then mp_alloc_large (mp_alloc_ depth) pool size
      else
        fuel ← node_fuel;
        r ← search fuel (head p) size;
        match r with
        | Some ptr => mret ptr
        | None => mp_alloc_small pool size
        end
  end.
Definition mp_alloc : Z → Z → act Z := mp_alloc_ 2.

Fixpoint free_large (fuel : nat) (l ptr : Z) : act unit :=
  match fuel with
  | O => out_of_fuel
  | S fuel =>
      if decide (l = 0) then mret ()
      else
        r ← rd_large l;
        if decide (alloc r = ptr) then wr_large l (Large (lnext r) 0)
        else free_large fuel (lnext r) ptr
  end.
Definition mp_free (pool ptr : Z) : act unit :=
  p ← rd_pool pool;
  fuel ← large_fuel;
  free_large fuel (large p) ptr.
End pool.

(** ** Invariant *)

(** The nodes of [chain] (address, size) are linked in this order, and what
    they have given out is inside them. *)
Definition linked (ns : gmap Z mp_node_s) (chain : list (Z * Z)) : Prop :=
  ∀ i a s, chain !! i = Some (a, s) →
    ∃ nd, ns !! a = Some nd ∧ next nd = default 0 (chain.*1 !! S i) ∧
      end_ nd = a + s ∧ a + SIZEOF_NODE ≤ last nd ≤ end_ nd.

(** The records [rs] (address, memory) are linked in this order, in parts of
    the nodes that are given out. *)
Definition recorded (m : mem) (chain rs : list (Z * Z)) : Prop :=
  ∀ i l a, rs !! i = Some (l, a) →
    larges m !! l = Some (Large (default 0 (rs.*1 !! S i)) a) ∧
    ∃ x s nd, (x, s) ∈ chain ∧ nodes m !! x = Some nd ∧ x + SIZEOF_NODE ≤ l ∧ l + SIZEOF_LARGE ≤ last nd.

(** A pool for requests of up to [psz] bytes: its nodes, its records, the large
    blocks [bs] they hold, and the other blocks [rest]. *)
Record pool_ok (m : mem) (pool psz : Z) (chain rs bs rest : list (Z * Z)) : Prop := {
  ok_size : SIZEOF_NODE ≤ psz;
  ok_live : live m ≡ₚ (pool, SIZEOF_POOL) :: chain ++ bs ++ rest;
  ok_blocks : blocks_ok (live m);
  ok_chain : chain ≠ [];
  ok_pool : pools m !! pool = Some (Pool psz (default 0 (chain.*1 !! 0%nat)) (default 0 (rs.*1 !! 0%nat)));
  ok_linked : linked (nodes m) chain;
  ok_recorded : recorded m chain rs;
  ok_records : NoDup rs.*1;
  ok_allocs : filter (λ a, a ≠ 0) rs.*2 ≡ₚ bs.*1;
}.

(** The bytes of the nodes that are given out. *)
Definition used (m : mem) (chain : list (Z * Z)) (x : Z) : Prop :=
  ∃ a s nd, (a, s) ∈ chain ∧ nodes m !! a = Some nd ∧ a + SIZEOF_NODE ≤ x < last nd.

(** The result of a small request: failure without effect, or [req] bytes that
    were not given out before and now are. *)
Definition granted (m m' : mem) (pool psz : Z) (chain rs bs rest : list (Z * Z)) (req v : Z) : Prop :=
  (v = 0 ∧ m' = m) ∨
  ∃ chain', pool_ok m' pool psz chain' rs bs rest ∧ 0 < v ∧
    (∃ a s nd, (a, s) ∈ chain' ∧ nodes m' !! a = Some nd ∧ a + SIZEOF_NODE ≤ v ∧ v + req ≤ last nd ∧ last nd ≤ a + s) ∧
    (∀ x, v ≤ x < v + req → ¬ used m chain x ∧ used m' chain' x) ∧
    (∀ x, used m chain x → used m' chain' x).

Section invariant.
Context (m : mem) (pool psz : Z) (chain rs bs rest : list (Z * Z)).
Hypothesis Hok : pool_ok m pool psz chain rs bs rest.

Lemma mem_pool_allocated : allocated m pool SIZEOF_POOL.
Proof.
  apply Exists_exists. exists (pool, 24). split; [rewrite (ok_live _ _ _ _ _ _ _ Hok); by left|].
  unfold PagePool.inside. cbn. lia.
Qed.
Lemma chain_live b : b ∈ chain → b ∈ live m.
Proof. intros Hb. rewrite (ok_live _ _ _ _ _ _ _ Hok). right. apply elem_of_app. by left. Qed.
Lemma mem_chain_nodup : NoDup chain.*1.
Proof.
  pose proof (PagePool.blocks_bases _ (ok_blocks _ _ _ _ _ _ _ Hok)) as Hnd. rewrite (ok_live _ _ _ _ _ _ _ Hok) in Hnd.
  cbn in Hnd. apply NoDup_cons in Hnd as [_ Hnd]. rewrite fmap_app in Hnd. by apply NoDup_app in Hnd as [Hnd _].
Qed.
Lemma mem_chain_node a s : (a, s) ∈ chain → ∃ nd, nodes m !! a = Some nd ∧ end_ nd = a + s ∧ a + SIZEOF_NODE ≤ last nd ≤ end_ nd.
Proof.
  intros [i Hi]%list_elem_of_lookup. destruct (ok_linked _ _ _ _ _ _ _ Hok i a s Hi) as (nd & ? & _ & ? & ?). by exists nd.
Qed.
Lemma mem_chain_positive a s : (a, s) ∈ chain → 0 < a ∧ a + s < 2 ^ 64 ∧ allocated m a SIZEOF_NODE.
Proof.
  intros Ha. destruct (PagePool.blocks_positive _ (ok_blocks _ _ _ _ _ _ _ Hok) _ (chain_live _ Ha)) as (? & ? & ?).
  destruct (mem_chain_node a s Ha) as (nd & _ & ? & ?). split; [done|]. split; [done|].
  apply Exists_exists. exists (a, s). split; [by apply chain_live|]. unfold PagePool.inside. cbn in *. lia.
Qed.
(** Regions of distinct nodes do not overlap. *)
Lemma chain_disjoint a s b t : (a, s) ∈ chain → (b, t) ∈ chain → a ≠ b → a + s ≤ b ∨ b + t ≤ a.
Proof.
  intros Ha Hb Hne. apply (PagePool.blocks_disjoint _ (ok_blocks _ _ _ _ _ _ _ Hok) (a, s) (b, t)); [by apply chain_live..|congruence].
Qed.
Lemma in_chain_allocated a s x n : (a, s) ∈ chain → a ≤ x → x + n ≤ a + s → allocated m x n.
Proof. intros Ha ??. apply Exists_exists. exists (a, s). split; [by apply chain_live|]. unfold PagePool.inside. cbn. lia. Qed.
End invariant.

(** ** Reading and writing the structures *)

Lemma mem_guard_ok a s m : allocated m a s → guard a s m = Some ().
Proof. intros H. unfold guard. by rewrite decide_True. Qed.
Lemma mem_rd_node_run m a nd : allocated m a SIZEOF_NODE → nodes m !! a = Some nd → rd_node a m = Done (nd, m).
Proof. intros Hal Hnd. unfold rd_node. apply getsO_Done. by rewrite (mem_guard_ok _ _ _ Hal). Qed.
Lemma mem_wr_node_run m a nd : allocated m a SIZEOF_NODE → wr_node a nd m = Done ((), set_nodes (<[a := nd]> (nodes m)) m).
Proof. intros Hal. unfold wr_node. apply modO_Done. by rewrite (mem_guard_ok _ _ _ Hal). Qed.
Lemma mem_rd_pool_run m a p : allocated m a SIZEOF_POOL → pools m !! a = Some p → rd_pool a m = Done (p, m).
Proof. intros Hal Hp. unfold rd_pool. apply getsO_Done. by rewrite (mem_guard_ok _ _ _ Hal). Qed.
Lemma mem_wr_pool_run m a p : allocated m a SIZEOF_POOL → wr_pool a p m = Done ((), set_pools (<[a := p]> (pools m)) m).
Proof. intros Hal. unfold wr_pool. apply modO_Done. by rewrite (mem_guard_ok _ _ _ Hal). Qed.
Lemma mem_rd_large_run m a l : allocated m a SIZEOF_LARGE → larges m !! a = Some l → rd_large a m = Done (l, m).
Proof. intros Hal Hl. unfold rd_large. apply getsO_Done. by rewrite (mem_guard_ok _ _ _ Hal). Qed.
Lemma mem_wr_large_run m a l : allocated m a SIZEOF_LARGE → wr_large a l m = Done ((), set_larges (<[a := l]> (larges m)) m).
Proof. intros Hal. unfold wr_large. apply modO_Done. by rewrite (mem_guard_ok _ _ _ Hal). Qed.

(** Updating a node that keeps its place in the chain. *)
Lemma mem_linked_update ns chain a nd nd' :
  linked ns chain → ns !! a = Some nd →
  next nd' = next nd → end_ nd' = end_ nd → (last nd ≤ last nd' ≤ end_ nd) →
  linked (<[a := nd']> ns) chain.
Proof.
  intros Hl Ha Hn He Hlast i x s Hx. destruct (Hl i x s Hx) as (nx & Hnx & ? & ? & ?).
  destruct (decide (x = a)) as [->|Hne].
  - simplify_eq. exists nd'. rewrite lookup_insert_eq. split; [done|]. rewrite Hn, He. split; [done|]. split; [done|]. lia.
  - exists nx. by rewrite lookup_insert_ne.
Qed.
Lemma mem_linked_size ns chain : NoDup chain.*1 → linked ns chain → (length chain ≤ size ns)%nat.
Proof.
  intros Hnd Hl. rewrite <-(length_fmap fst), <-(size_list_to_set (C := gset Z) chain.*1 Hnd), <-size_dom.
  apply subseteq_size. intros x. rewrite elem_of_list_to_set. intros ([a s] & -> & Hin)%list_elem_of_fmap.
  apply list_elem_of_lookup in Hin as [i Hi]. destruct (Hl i a s Hi) as (nd & Hnd' & _). by apply elem_of_dom_2 in Hnd'.
Qed.
Lemma recorded_size m chain rs : NoDup rs.*1 → recorded m chain rs → (length rs ≤ size (larges m))%nat.
Proof.
  intros Hnd Hr. rewrite <-(length_fmap fst), <-(size_list_to_set (C := gset Z) rs.*1 Hnd), <-size_dom.
  apply subseteq_size. intros x. rewrite elem_of_list_to_set. intros ([l a] & -> & Hin)%list_elem_of_fmap.
  apply list_elem_of_lookup in Hin as [i Hi]. destruct (Hr i l a Hi) as [Hl _]. by apply elem_of_dom_2 in Hl.
Qed.

(** ** Small requests *)

(** A node with room: more than [req] bytes. *)
Definition has_room (req : Z) (nd : mp_node_s) : Prop := req < end_ nd - last nd.

Section small.
Context (m : mem) (pool psz : Z) (chain rs bs rest : list (Z * Z)).
Hypothesis Hok : pool_ok m pool psz chain rs bs rest.

(** The search takes the first node with room. *)
Lemma mem_search_run req fuel i a s :
  0 ≤ req → chain !! i = Some (a, s) → (length chain - i < fuel)%nat →
  (∀ j b t nd, (i ≤ j)%nat → chain !! j = Some (b, t) → nodes m !! b = Some nd → ¬ has_room req nd) ∧
    search fuel a req m = Done (None, m) ∨
  ∃ b t nd, (b, t) ∈ chain ∧ nodes m !! b = Some nd ∧ has_room req nd ∧
    search fuel a req m = Done (Some (last nd), set_nodes (<[b := Node (last nd + req) (end_ nd) (next nd)]> (nodes m)) m).
Proof.
  intros Hreq. revert i a s. induction fuel as [|fuel IH]; intros i a s Ha Hfuel; [lia|]. cbn [search].
  assert (Hin : (a, s) ∈ chain) by by eapply list_elem_of_lookup_2.
  destruct (mem_chain_positive _ _ _ _ _ _ _ Hok a s Hin) as (Hpos & Hmax & Hal).
  destruct (ok_linked _ _ _ _ _ _ _ Hok i a s Ha) as (nd & Hnd & Hnext & Hend & Hlast).
  rewrite (bind_Done _ _ _ _ _ (mem_rd_node_run _ _ _ Hal Hnd)).
  replace (u64 (end_ nd - last nd)) with (end_ nd - last nd) by (symmetry; apply wrap_small; lia). case_decide as Hroom.
  - right. exists a, s, nd. split; [done|]. split; [done|]. split; [done|].
    by rewrite (bind_Done _ _ _ _ _ (mem_wr_node_run _ _ _ Hal)).
  - assert (Hhere : ∀ b t nd', chain !! i = Some (b, t) → nodes m !! b = Some nd' → ¬ has_room req nd').
    { intros b t nd' Hb Hnd'. unfold has_room. congruence. }
    destruct (chain !! S i) as [[q t]|] eqn:Hq; rewrite list_lookup_fmap, Hq in Hnext; cbn in Hnext.
    + assert (Hq' : (q, t) ∈ chain) by by eapply list_elem_of_lookup_2.
      destruct (mem_chain_positive _ _ _ _ _ _ _ Hok q t Hq') as (? & _). rewrite decide_False, Hnext by lia.
      destruct (IH (S i) q t Hq) as [[Hno Hrun]|Hyes]; [apply lookup_lt_Some in Hq; lia| |by right].
      left. split; [|done]. intros j b t' nd' Hj. destruct (decide (j = i)) as [->|]; [apply Hhere|apply Hno; lia].
    + left. rewrite decide_True by done. split; [|done]. intros j b t' nd' Hj Hb.
      assert (j = i) as ->; [|by apply (Hhere b t')]. apply lookup_lt_Some in Hb. apply lookup_ge_None in Hq. lia.
Qed.

(** Nodes change, but what they gave out stays given out. *)
Lemma mem_pool_ok_nodes ns :
  linked ns chain →
  (∀ a s nd, (a, s) ∈ chain → nodes m !! a = Some nd → ∃ nd', ns !! a = Some nd' ∧ last nd ≤ last nd') →
  pool_ok (set_nodes ns m) pool psz chain rs bs rest.
Proof.
  intros Hl Hlast. destruct Hok. split; try done.
  intros i l a Hi. destruct (ok_recorded0 i l a Hi) as (Hr & x & s & nd & Hx & Hnd & ? & ?).
  split; [done|]. destruct (Hlast x s nd Hx Hnd) as (nd' & ? & ?). exists x, s, nd'. split_and!; try done. lia.
Qed.

Lemma mem_search_granted req a s nd :
  0 ≤ req → (a, s) ∈ chain → nodes m !! a = Some nd → has_room req nd →
  granted m (set_nodes (<[a := Node (last nd + req) (end_ nd) (next nd)]> (nodes m)) m) pool psz chain rs bs rest req (last nd).
Proof.
  intros Hreq Ha Hnd Hroom. unfold has_room in Hroom.
  destruct (mem_chain_node _ _ _ _ _ _ _ Hok a s Ha) as (nd' & Hnd' & Hend & Hlast). rewrite Hnd in Hnd'. injection Hnd' as <-.
  destruct (mem_chain_positive _ _ _ _ _ _ _ Hok a s Ha) as (Hpos & Hmax & _).
  set (nd1 := Node _ _ _).
  assert (Hns : ∀ x ndx, nodes m !! x = Some ndx → ∃ nd', <[a := nd1]> (nodes m) !! x = Some nd' ∧ last ndx ≤ last nd').
  { intros x ndx Hx. destruct (decide (x = a)) as [->|Hne].
    - simplify_eq. exists nd1. rewrite lookup_insert_eq. split; [done|]. cbn. lia.
    - exists ndx. by rewrite lookup_insert_ne. }
  right. exists chain. split_and!.
  - apply mem_pool_ok_nodes; [|by intros x t ndx _; apply Hns].
    eapply mem_linked_update; [by eapply ok_linked|done|done|done|cbn; lia].
  - lia.
  - exists a, s, nd1. cbn [nodes set_nodes]. rewrite lookup_insert_eq. split_and!; try done; cbn; lia.
  - intros x Hx. split.
    + intros (b & t & ndb & Hb & Hndb & Hxb). destruct (decide (a = b)) as [->|Hne]; [simplify_eq; lia|].
      destruct (mem_chain_node _ _ _ _ _ _ _ Hok b t Hb) as (ndb' & Hndb' & Hendb & Hlastb). rewrite Hndb in Hndb'. injection Hndb' as <-.
      destruct (chain_disjoint _ _ _ _ _ _ _ Hok a s b t Ha Hb Hne); lia.
    + exists a, s, nd1. cbn [nodes set_nodes]. rewrite lookup_insert_eq. split_and!; try done; cbn; lia.
  - intros x (b & t & ndb & Hb & Hndb & Hxb). destruct (Hns b ndb Hndb) as (nd' & ? & ?). exists b, t, nd'. split_and!; try done; lia.
Qed.
End small.

(** What [mp_alloc_small] is called for: more room, when no node has enough.
    It may fail, or give a part of the pool that was not given out. *)
Definition small_ok (mp_alloc_small : Z → Z → act Z) : Prop := ∀ m pool psz chain rs bs rest req,
  pool_ok m pool psz chain rs bs rest → 0 ≤ req ≤ psz →
  (∀ a s nd, (a, s) ∈ chain → nodes m !! a = Some nd → ¬ has_room req nd) →
  ∃ v m', mp_alloc_small pool req m = Done (v, m') ∧ granted m m' pool psz chain rs bs rest req v.

Section alloc.
Context (sys : list (Z * Z) → Z → Z → option Z) (mp_alloc_small : Z → Z → act Z).
Hypothesis Hsys : sys_ok sys.
Hypothesis Hsmall : small_ok mp_alloc_small.

(** A request that fits goes to the first node with room, and to
    [mp_alloc_small] only when there is none. *)
Lemma mp_alloc_small_request depth m pool psz chain rs bs rest req :
  pool_ok m pool psz chain rs bs rest → 0 ≤ req ≤ psz →
  ∃ v m', mp_alloc_ sys mp_alloc_small (S depth) pool req m = Done (v, m') ∧ granted m m' pool psz chain rs bs rest req v.
Proof.
  intros Hok Hreq. cbn [mp_alloc_].
  rewrite (bind_Done _ _ _ _ _ (mem_rd_pool_run _ _ _ (mem_pool_allocated _ _ _ _ _ _ _ Hok) (ok_pool _ _ _ _ _ _ _ Hok))).
  cbn [max head]. rewrite decide_False by lia. unfold node_fuel. rewrite gets_bind.
  destruct chain as [|[a s] tail] eqn:Hc; [by destruct (ok_chain _ _ _ _ _ _ _ Hok)|]. cbn [fmap list_fmap fst lookup list_lookup default].
  destruct (mem_search_run _ _ _ _ _ _ _ Hok req (S (size (nodes m))) 0%nat a s) as [[Hno Hrun]|(b & t & nd & Hb & Hnd & Hroom & Hrun)]; [lia|done| | |].
  { pose proof (mem_linked_size _ _ (mem_chain_nodup _ _ _ _ _ _ _ Hok) (ok_linked _ _ _ _ _ _ _ Hok)). lia. }
  - rewrite (bind_Done _ _ _ _ _ Hrun). apply Hsmall; [done|done|].
    intros b t nd [j Hj]%list_elem_of_lookup. apply (Hno j b t nd); [lia|done].
  - rewrite (bind_Done _ _ _ _ _ Hrun). eexists _, _. split; [done|]. eapply mem_search_granted; try done. lia.
Qed.

End alloc.

(** ** Large requests *)

Lemma pool_ok_live m pool psz chain rs bs rest l rest' :
  pool_ok m pool psz chain rs bs rest → blocks_ok l → l ≡ₚ (pool, SIZEOF_POOL) :: chain ++ bs ++ rest' →
  pool_ok (set_live l m) pool psz chain rs bs rest'.
Proof. intros [] Hb Hl. by split. Qed.

(** The list of records, with other memory for one of them. *)
Lemma mem_recorded_update m chain rs1 l a rs2 a' :
  NoDup (rs1 ++ (l, a) :: rs2).*1 → recorded m chain (rs1 ++ (l, a) :: rs2) →
  recorded (set_larges (<[l := Large (default 0 (rs2.*1 !! 0%nat)) a']> (larges m)) m) chain (rs1 ++ (l, a') :: rs2).
Proof.
  intros Hnd Hrec i k x Hi. cbn [larges nodes set_larges].
  replace (rs1 ++ (l, a') :: rs2).*1 with (rs1 ++ (l, a) :: rs2).*1 by by rewrite !fmap_app, !fmap_cons.
  assert (∃ x', (rs1 ++ (l, a) :: rs2) !! i = Some (k, x') ∧ (k ≠ l → x' = x) ∧ (k = l → i = length rs1 ∧ x = a')) as (x' & Hi' & Hne & Heq).
  { assert ((rs1 ++ (l, a) :: rs2).*1 !! length rs1 = Some l) as Hl by (rewrite list_lookup_fmap, list_lookup_middle by done; done).
    assert (∀ y, (rs1 ++ (l, a) :: rs2) !! i = Some (k, y) → k = l → i = length rs1) as Hpos.
    { intros y Hy ->. eapply NoDup_lookup; [exact Hnd| |exact Hl]. by rewrite list_lookup_fmap, Hy. }
    destruct (decide (i = length rs1)) as [->|Hil].
    - rewrite list_lookup_middle in Hi by done. injection Hi as <- <-. exists a. rewrite list_lookup_middle by done. naive_solver.
    - assert ((rs1 ++ (l, a) :: rs2) !! i = Some (k, x)) as Hk.
      { apply lookup_app_Some in Hi as [Hi|[? Hi]]; apply lookup_app_Some; [by left|right]. split; [done|].
        destruct (i - length rs1)%nat eqn:?; [lia|done]. }
      exists x. split; [done|]. split; [done|]. intros Hkl. by destruct Hil, (Hpos x). }
  destruct (Hrec i k x' Hi') as [Hk Hplace]. split; [|done]. destruct (decide (k = l)) as [->|Hkl].
  - destruct (Heq eq_refl) as [-> ->]. rewrite lookup_insert_eq, !list_lookup_fmap, lookup_app_r by lia.
    by replace (S (length rs1) - length rs1)%nat with 1%nat by lia.
  - rewrite lookup_insert_ne by done. by rewrite <-Hne.
Qed.

(** The block [(p, s)] of [rest] goes to the record [l], which had none. *)
Lemma mem_pool_ok_refill m pool psz chain rs1 l rs2 bs rest p s :
  pool_ok m pool psz chain (rs1 ++ (l, 0) :: rs2) bs ((p, s) :: rest) → 0 < p →
  pool_ok (set_larges (<[l := Large (default 0 (rs2.*1 !! 0%nat)) p]> (larges m)) m) pool psz chain
    (rs1 ++ (l, p) :: rs2) ((p, s) :: bs) rest.
Proof.
  intros [] Hp.
  assert (Hfst : (rs1 ++ (l, p) :: rs2).*1 = (rs1 ++ (l, 0) :: rs2).*1) by by rewrite !fmap_app, !fmap_cons.
  split; cbn [live pools nodes set_larges]; rewrite ?Hfst; try done.
  - rewrite ok_live0. solve_Permutation.
  - by eapply mem_recorded_update.
  - rewrite fmap_app, fmap_cons, filter_app in *. cbn [snd] in *. rewrite filter_cons_False in ok_allocs0 by lia.
    rewrite filter_cons_True by lia. cbn. rewrite <-ok_allocs0. solve_Permutation.
Qed.

(** The record [l] forgets its memory, which stays allocated. *)
Lemma pool_ok_forget m pool psz chain rs1 l rs2 bs rest p s :
  pool_ok m pool psz chain (rs1 ++ (l, p) :: rs2) ((p, s) :: bs) rest → 0 < p →
  pool_ok (set_larges (<[l := Large (default 0 (rs2.*1 !! 0%nat)) 0]> (larges m)) m) pool psz chain
    (rs1 ++ (l, 0) :: rs2) bs ((p, s) :: rest).
Proof.
  intros [] Hp.
  assert (Hfst : (rs1 ++ (l, 0) :: rs2).*1 = (rs1 ++ (l, p) :: rs2).*1) by by rewrite !fmap_app, !fmap_cons.
  split; cbn [live pools nodes set_larges]; rewrite ?Hfst; try done.
  - rewrite ok_live0. solve_Permutation.
  - by eapply mem_recorded_update.
  - rewrite fmap_app, fmap_cons, filter_app in *. cbn [snd fmap list_fmap fst] in *. rewrite filter_cons_True in ok_allocs0 by lia.
    rewrite filter_cons_False by lia. apply (Permutation_cons_inv (a := p)). rewrite <-ok_allocs0. solve_Permutation.
Qed.

(** A new record at [l], in memory of the pool that no record uses. *)
Lemma mem_pool_ok_record m pool psz chain rs bs rest p s l :
  pool_ok m pool psz chain rs bs ((p, s) :: rest) → 0 < p → l ∉ rs.*1 →
  (∃ x t nd, (x, t) ∈ chain ∧ nodes m !! x = Some nd ∧ x + SIZEOF_NODE ≤ l ∧ l + SIZEOF_LARGE ≤ last nd) →
  pool_ok (set_pools (<[pool := Pool psz (default 0 (chain.*1 !! 0%nat)) l]> (pools m))
             (set_larges (<[l := Large (default 0 (rs.*1 !! 0%nat)) p]> (larges m)) m)) pool psz chain
    ((l, p) :: rs) ((p, s) :: bs) rest.
Proof.
  intros [] Hp Hl Hplace.
  split; cbn [live pools nodes larges set_larges set_pools]; try done.
  - rewrite ok_live0. solve_Permutation.
  - by rewrite lookup_insert_eq.
  - intros [|i] k a Hi; cbn in Hi.
    + injection Hi as <- <-. cbn [larges nodes set_larges set_pools]. by rewrite lookup_insert_eq.
    + destruct (ok_recorded0 i k a Hi) as [Hk Hx]. split; [|done]. cbn [larges set_larges set_pools].
      rewrite lookup_insert_ne; [done|]. intros ->. apply Hl, list_elem_of_fmap. exists (k, a).
      split; [done|]. by eapply list_elem_of_lookup_2.
  - apply NoDup_cons. by split.
  - rewrite !fmap_cons. cbn [snd fst]. rewrite filter_cons_True by lia. by rewrite ok_allocs0.
Qed.

(** free(3) of a block: it goes, the others stay. *)
Lemma mem_free_run m a s L : 0 < a → live m ≡ₚ (a, s) :: L → NoDup (live m).*1 →
  ∃ l, free a m = Done ((), set_live l m) ∧ l ≡ₚ L ∧ NoDup l.*1.
Proof.
  intros Ha Hl Hnd. unfold free. rewrite decide_False by lia. exists (filter (λ b, b.1 ≠ a) (live m)).
  assert (Hin : a ∈ (live m).*1) by (rewrite Hl; by left).
  pose proof (PagePool.filter_base _ _ _ _ Hl Hnd) as HL.
  split; [unfold modO; by rewrite decide_True|]. split; [done|].
  rewrite HL. rewrite Hl in Hnd. cbn in Hnd. by apply NoDup_cons in Hnd as [_ ?].
Qed.

Section large.
Context (m : mem) (pool psz : Z) (chain rs bs rest : list (Z * Z)).
Hypothesis Hok : pool_ok m pool psz chain rs bs rest.

Lemma record_place l a : (l, a) ∈ rs → 0 < l ∧ allocated m l SIZEOF_LARGE ∧ ∀ x, l ≤ x < l + SIZEOF_LARGE → used m chain x.
Proof.
  intros [i Hi]%list_elem_of_lookup. destruct (ok_recorded _ _ _ _ _ _ _ Hok i l a Hi) as (_ & x & s & nd & Hx & Hnd & Hlo & Hhi).
  destruct (mem_chain_node _ _ _ _ _ _ _ Hok x s Hx) as (nd' & Hnd' & He & Hla). rewrite Hnd in Hnd'. injection Hnd' as <-.
  destruct (mem_chain_positive _ _ _ _ _ _ _ Hok x s Hx) as (? & _). split; [lia|].
  split; [eapply (in_chain_allocated _ _ _ _ _ _ _ Hok x s); [done|lia..]|]. intros y Hy. exists x, s, nd. split_and!; try done; lia.
Qed.

(** The walk over the records, to the first without memory. *)
Lemma mem_reuse_large_run ptr fuel rs1 rs2 :
  rs = rs1 ++ rs2 → (length rs2 < fuel)%nat →
  (reuse_large fuel (default 0 (rs2.*1 !! 0%nat)) ptr m = Done (false, m)) ∨
  ∃ rs1' l rs2', rs = rs1' ++ (l, 0) :: rs2' ∧
    reuse_large fuel (default 0 (rs2.*1 !! 0%nat)) ptr m =
      Done (true, set_larges (<[l := Large (default 0 (rs2'.*1 !! 0%nat)) ptr]> (larges m)) m).
Proof.
  revert rs1 rs2. induction fuel as [|fuel IH]; intros rs1 rs2 Hrs Hfuel; [lia|]. cbn [reuse_large].
  destruct rs2 as [|[l a] rs2]; [by left|]. cbn [fmap list_fmap fst lookup list_lookup default].
  assert (Hi : rs !! length rs1 = Some (l, a)) by by rewrite Hrs, list_lookup_middle.
  destruct (record_place l a) as (Hl & Hal & _); [by eapply list_elem_of_lookup_2|]. cbn. rewrite decide_False by lia.
  destruct (ok_recorded _ _ _ _ _ _ _ Hok _ _ _ Hi) as (Hla & _).
  assert (rs.*1 !! S (length rs1) = rs2.*1 !! 0%nat) as Hnext.
  { rewrite !list_lookup_fmap, Hrs, lookup_app_r by lia. by replace (S (length rs1) - length rs1)%nat with 1%nat by lia. }
  rewrite Hnext in Hla. rewrite (bind_Done _ _ _ _ _ (mem_rd_large_run _ _ _ Hal Hla)). cbn [alloc lnext]. case_decide as Ha.
  - subst a. right. exists rs1, l, rs2. split; [done|]. by rewrite (bind_Done _ _ _ _ _ (mem_wr_large_run _ _ _ Hal)).
  - apply (IH (rs1 ++ [(l, a)]) rs2); [by rewrite <-app_assoc|cbn in Hfuel; lia].
Qed.

(** The walk of [mp_free]: the first record of [ptr] is emptied. *)
Lemma mem_free_large_run ptr fuel rs1 rs2 :
  rs = rs1 ++ rs2 → (length rs2 < fuel)%nat → ptr ∉ rs1.*2 →
  (ptr ∉ rs.*2 ∧ free_large fuel (default 0 (rs2.*1 !! 0%nat)) ptr m = Done ((), m)) ∨
  ∃ rs1' l rs2', rs = rs1' ++ (l, ptr) :: rs2' ∧
    free_large fuel (default 0 (rs2.*1 !! 0%nat)) ptr m =
      Done ((), set_larges (<[l := Large (default 0 (rs2'.*1 !! 0%nat)) 0]> (larges m)) m).
Proof.
  revert rs1 rs2. induction fuel as [|fuel IH]; intros rs1 rs2 Hrs Hfuel Hptr; [lia|]. cbn [free_large].
  destruct rs2 as [|[l a] rs2]; [left; rewrite Hrs, app_nil_r; by cbn|]. cbn [fmap list_fmap fst lookup list_lookup default].
  assert (Hi : rs !! length rs1 = Some (l, a)) by by rewrite Hrs, list_lookup_middle.
  destruct (record_place l a) as (Hl & Hal & _); [by eapply list_elem_of_lookup_2|]. cbn. rewrite decide_False by lia.
  destruct (ok_recorded _ _ _ _ _ _ _ Hok _ _ _ Hi) as (Hla & _).
  assert (rs.*1 !! S (length rs1) = rs2.*1 !! 0%nat) as Hnext.
  { rewrite !list_lookup_fmap, Hrs, lookup_app_r by lia. by replace (S (length rs1) - length rs1)%nat with 1%nat by lia. }
  rewrite Hnext in Hla. rewrite (bind_Done _ _ _ _ _ (mem_rd_large_run _ _ _ Hal Hla)). cbn [alloc lnext]. case_decide as Ha.
  - subst a. right. exists rs1, l, rs2. split; [done|]. by rewrite (mem_wr_large_run _ _ _ Hal).
  - apply (IH (rs1 ++ [(l, a)]) rs2); [by rewrite <-app_assoc|cbn in Hfuel; lia|].
    rewrite fmap_app, elem_of_app. intros [?|Hp]; [done|]. apply list_elem_of_singleton in Hp. done.
Qed.

(** Where a request ends for the pool: nothing changes hands, or [v] becomes a
    block that a record holds. *)
Definition large_granted (m' : mem) (req v : Z) : Prop :=
  (v = 0 ∧ pool_ok m' pool psz chain rs bs rest ∧ nodes m' = nodes m) ∨
  (0 < v ∧ v ∉ (live m).*1 ∧ ∃ chain' rs', pool_ok m' pool psz chain' rs' ((v, req) :: bs) rest ∧
    (∀ x, used m chain x → used m' chain' x)).
End large.
Lemma used_larges m ls chain x : used (set_larges ls m) chain x ↔ used m chain x.
Proof. done. Qed.

Section requests.
Context (sys : list (Z * Z) → Z → Z → option Z) (mp_alloc_small : Z → Z → act Z).
Hypothesis Hsys : sys_ok sys.
Hypothesis Hsmall : small_ok mp_alloc_small.

(** Behind malloc the new block belongs to nobody. *)
Lemma malloc_run m pool psz chain rs bs rest req :
  pool_ok m pool psz chain rs bs rest → 0 ≤ req →
  malloc sys req m = Done (0, m) ∨
  ∃ p, 0 < p ∧ p ∉ (live m).*1 ∧ malloc sys req m = Done (p, set_live ((p, req) :: live m) m) ∧
    pool_ok (set_live ((p, req) :: live m) m) pool psz chain rs bs ((p, req) :: rest).
Proof.
  intros Hok Hreq. unfold malloc. rewrite gets_bind. destruct (sys (live m) 16 req) as [p|] eqn:Hp; [right|by left].
  destruct (Hsys _ _ _ _ Hp) as (Hpos & _ & _ & Hnew & _). exists p. split_and!; [done..|].
  eapply pool_ok_live; [done|by eapply PagePool.blocks_cons; [done|by eapply ok_blocks|done|done]|].
  rewrite (ok_live _ _ _ _ _ _ _ Hok). solve_Permutation.
Qed.

(** The record for the block [p] is made by the pool itself; when that fails
    the block is given back. *)
Lemma mem_record_large_run m pool psz chain rs bs rest p req :
  pool_ok m pool psz chain rs bs ((p, req) :: rest) → 0 < p →
  ∃ v m',
    (l ← mp_alloc_ sys mp_alloc_small 1 pool SIZEOF_LARGE;
     if decide (l = 0) then free p;; mret 0
     else
       q ← rd_pool pool;
       wr_large l (Large (large q) p);;
       wr_pool pool (Pool (max q) (head q) l);;
       mret p) m = Done (v, m') ∧
    ((v = 0 ∧ pool_ok m' pool psz chain rs bs rest ∧ nodes m' = nodes m) ∨
     (v = p ∧ ∃ chain' rs', pool_ok m' pool psz chain' rs' ((p, req) :: bs) rest ∧ (∀ x, used m chain x → used m' chain' x))).
Proof.
  intros Hok Hp. pose proof (ok_size _ _ _ _ _ _ _ Hok) as Hpsz.
  destruct (mp_alloc_small_request sys mp_alloc_small Hsmall 0 m pool psz chain rs bs ((p, req) :: rest) 16) as (l & m2 & Hrun & Hg); [done|lia|].
  rewrite (bind_Done _ _ _ _ _ Hrun). destruct Hg as [[-> ->]|(chain' & Hok2 & Hl & Hplace & Hnew & Hkeep)].
  - rewrite decide_True by done.
    destruct (mem_free_run m p req ((pool, 24) :: chain ++ bs ++ rest)) as (lv & Hfree & Hlv & Hnd); [done| | |].
    { rewrite (ok_live _ _ _ _ _ _ _ Hok). solve_Permutation. }
    { apply (PagePool.blocks_bases _ (ok_blocks _ _ _ _ _ _ _ Hok)). }
    rewrite (bind_Done _ _ _ _ _ Hfree). eexists 0, _. split; [done|]. left. split; [done|]. split; [|done].
    eapply pool_ok_live; [done| |done].
    destruct (ok_blocks _ _ _ _ _ _ _ Hok) as [_ Hpos Hdis].
    assert (∀ b, b ∈ lv → b ∈ live m) as Hsub.
    { intros b. rewrite Hlv, (ok_live _ _ _ _ _ _ _ Hok), !elem_of_cons, !elem_of_app, !elem_of_cons. tauto. }
    split; [done|auto|auto].
  - rewrite decide_False by lia.
    rewrite (bind_Done _ _ _ _ _ (mem_rd_pool_run _ _ _ (mem_pool_allocated _ _ _ _ _ _ _ Hok2) (ok_pool _ _ _ _ _ _ _ Hok2))). cbn [large max head].
    destruct Hplace as (a & s & nd & Ha & Hnd & Hlo & Hhi & Hend).
    assert (Hal : allocated m2 l 16) by (eapply (in_chain_allocated _ _ _ _ _ _ _ Hok2 a s); [done|lia..]).
    rewrite (bind_Done _ _ _ _ _ (mem_wr_large_run _ _ _ Hal)).
    pose proof (mem_pool_allocated _ _ _ _ _ _ _ Hok2) as Hpal.
    set (m3 := set_larges _ m2). rewrite (bind_Done _ _ _ _ _ (mem_wr_pool_run m3 pool _ Hpal)).
    eexists p, _. split; [done|]. right. split; [done|]. exists chain', ((l, p) :: rs). split; [|exact Hkeep].
    apply (mem_pool_ok_record m2); [done|done| |by exists a, s, nd].
    intros ([l' a'] & Heq & Hin)%list_elem_of_fmap. cbn in Heq. subst l'.
    destruct (record_place _ _ _ _ _ _ _ Hok l a' Hin) as (_ & _ & Hused). destruct (Hnew l) as [Hno _]; [lia|]. apply Hno, Hused. lia.
Qed.

Lemma mp_alloc_large_run m pool psz chain rs bs rest req :
  0 < pool → pool_ok m pool psz chain rs bs rest → 0 ≤ req →
  ∃ v m', mp_alloc_large sys (mp_alloc_ sys mp_alloc_small 1) pool req m = Done (v, m') ∧
    large_granted m pool psz chain rs bs rest m' req v.
Proof.
  intros Hpool Hok Hreq. unfold mp_alloc_large. rewrite decide_False by lia.
  destruct (malloc_run _ _ _ _ _ _ _ req Hok Hreq) as [Hnull|(p & Hp & Hfresh & Hrun & Hok1)].
  { rewrite (bind_Done _ _ _ _ _ Hnull), decide_True by done. eexists 0, m. split; [done|]. by left. }
  rewrite (bind_Done _ _ _ _ _ Hrun), decide_False by lia. set (m1 := set_live _ m) in *.
  rewrite (bind_Done _ _ _ _ _ (mem_rd_pool_run _ _ _ (mem_pool_allocated _ _ _ _ _ _ _ Hok1) (ok_pool _ _ _ _ _ _ _ Hok1))). cbn [large].
  unfold large_fuel. rewrite gets_bind.
  destruct (mem_reuse_large_run m1 pool psz chain rs bs _ Hok1 p (S (size (larges m1))) [] rs) as [Hno|(rs1 & l & rs2 & -> & Hyes)]; [done| | |].
  { pose proof (recorded_size _ _ _ (ok_records _ _ _ _ _ _ _ Hok1) (ok_recorded _ _ _ _ _ _ _ Hok1)). lia. }
  - rewrite (bind_Done _ _ _ _ _ Hno).
    destruct (mem_record_large_run m1 pool psz chain rs bs rest p req Hok1 Hp) as (v & m' & Hrec & Hres).
    exists v, m'. split; [exact Hrec|]. destruct Hres as [(-> & ? & ?)|(-> & chain' & rs' & ? & ?)]; [by left|right]. eauto 6.
  - rewrite (bind_Done _ _ _ _ _ Hyes). eexists p, _. split; [done|]. right. split; [done|]. split; [done|].
    exists chain, (rs1 ++ (l, p) :: rs2). split; [by apply mem_pool_ok_refill|done].
Qed.

(** [mp_alloc]: a request of any size ends, with 0 or with memory that nobody
    else has, and the pool stays well-formed. *)
Lemma mem_pool_alloc_spec m pool psz chain rs bs rest req :
  0 < pool → pool_ok m pool psz chain rs bs rest → 0 ≤ req →
  ∃ v m', mp_alloc sys mp_alloc_small pool req m = Done (v, m') ∧
    if decide (req ≤ psz) then granted m m' pool psz chain rs bs rest req v
    else large_granted m pool psz chain rs bs rest m' req v.
Proof.
  intros Hpool Hok Hreq. unfold mp_alloc. case_decide as Hs; [by apply mp_alloc_small_request|].
  change (mp_alloc_ sys mp_alloc_small 2 pool req) with
    (p ← rd_pool pool;
     if decide (max p < req) then mp_alloc_large sys (mp_alloc_ sys mp_alloc_small 1) pool req
     else fuel ← node_fuel; r ← search fuel (head p) req;
          match r with Some ptr => mret ptr | None => mp_alloc_small pool req end).
  rewrite (bind_Done _ _ _ _ _ (mem_rd_pool_run _ _ _ (mem_pool_allocated _ _ _ _ _ _ _ Hok) (ok_pool _ _ _ _ _ _ _ Hok))).
  cbn [max]. rewrite decide_True by lia. by apply mp_alloc_large_run.
Qed.
(** [mp_free] of the memory of a record empties the record and leaves the block
    allocated: nothing in the pool knows it any longer.  Any other pointer has
    no effect. *)
Lemma mem_pool_free_spec m pool psz chain rs bs rest ptr :
  pool_ok m pool psz chain rs bs rest →
  ∃ m', mp_free pool ptr m = Done ((), m') ∧ live m' = live m ∧ nodes m' = nodes m ∧
    (ptr ∉ bs.*1 ∧ pool_ok m' pool psz chain rs bs rest ∨
     ∃ s bs' rs', bs ≡ₚ (ptr, s) :: bs' ∧ pool_ok m' pool psz chain rs' bs' ((ptr, s) :: rest)).
Proof.
  intros Hok. unfold mp_free.
  rewrite (bind_Done _ _ _ _ _ (mem_rd_pool_run _ _ _ (mem_pool_allocated _ _ _ _ _ _ _ Hok) (ok_pool _ _ _ _ _ _ _ Hok))). cbn [large].
  unfold large_fuel. rewrite gets_bind.
  assert (Hbs : ∀ b, b ∈ bs → b.1 ≠ 0 ∧ b.1 ∈ rs.*2).
  { intros b Hb. assert (b.1 ∈ bs.*1) as Hin by (by apply list_elem_of_fmap_2).
    rewrite <-(ok_allocs _ _ _ _ _ _ _ Hok), list_elem_of_filter in Hin. done. }
  destruct (mem_free_large_run m pool psz chain rs bs rest Hok ptr (S (size (larges m))) [] rs) as [[Hno Hrun]|(rs1 & l & rs2 & Hrs & Hrun)].
  - done.
  - pose proof (recorded_size _ _ _ (ok_records _ _ _ _ _ _ _ Hok) (ok_recorded _ _ _ _ _ _ _ Hok)). lia.
  - cbn. by intros ?%elem_of_nil.
  - exists m. split; [exact Hrun|]. split; [done|]. split; [done|]. left. split; [|done].
    intros (b & -> & Hb)%list_elem_of_fmap. by apply Hno, Hbs.
  - eexists. split; [exact Hrun|]. split; [done|]. split; [done|]. subst rs. destruct (decide (ptr = 0)) as [->|Hptr].
    + left. split; [intros (b & Hb0 & Hb)%list_elem_of_fmap; by destruct (Hbs b Hb)|].
      rewrite insert_id; [by destruct m|].
      destruct (ok_recorded _ _ _ _ _ _ _ Hok (length rs1) l 0) as [Hl _]; [by rewrite list_lookup_middle|].
      rewrite Hl, !list_lookup_fmap, lookup_app_r by lia. by replace (S (length rs1) - length rs1)%nat with 1%nat by lia.
    + right. assert (ptr ∈ bs.*1) as Hin.
      { rewrite <-(ok_allocs _ _ _ _ _ _ _ Hok), list_elem_of_filter. split; [done|]. rewrite fmap_app. apply elem_of_app. right. by left. }
      apply list_elem_of_fmap in Hin as ([p s] & Hp & Hin). cbn in Hp. subst p. apply elem_of_Permutation in Hin as [bs' Hbs'].
      exists s, bs', (rs1 ++ (l, 0) :: rs2). split; [done|].
      apply pool_ok_forget.
      * destruct Hok. split; try done; [rewrite ok_live0, Hbs'; solve_Permutation|by rewrite ok_allocs0, Hbs'].
      * apply (PagePool.blocks_positive _ (ok_blocks _ _ _ _ _ _ _ Hok) (ptr, s)). rewrite (ok_live _ _ _ _ _ _ _ Hok), Hbs'.
        right. apply elem_of_app. right. by left.
Qed.

(** ** Sequences of calls *)

Inductive request := Alloc (size : Z) | Free (ptr : Z).
Definition request_wf (r : request) : Prop := match r with Alloc n => 0 ≤ n | Free _ => True end.
Fixpoint serve (pool : Z) (rs : list request) : act (list Z) :=
  match rs with
  | [] => mret []
  | Alloc n :: rs => v ← mp_alloc sys mp_alloc_small pool n; vs ← serve pool rs; mret (v :: vs)
  | Free p :: rs => mp_free pool p;; serve pool rs
  end.

(** Whatever is asked for and given back, every call ends, nothing outside the
    blocks is touched, the pool stays well-formed, and what was given out of
    its nodes stays given out; blocks that nobody holds are only added. *)
Lemma serve_run reqs m pool psz chain rs bs rest :
  0 < pool → pool_ok m pool psz chain rs bs rest → Forall request_wf reqs →
  ∃ vs m' chain' rs' bs' rest', serve pool reqs m = Done (vs, m') ∧ pool_ok m' pool psz chain' rs' bs' rest' ∧
    (∃ lost, rest' ≡ₚ lost ++ rest) ∧ (∀ x, used m chain x → used m' chain' x).
Proof.
  intros Hpool Hok Hreqs. revert m chain rs bs rest Hok. induction Hreqs as [|r reqs Hr Hreqs IH]; intros m chain rs bs rest Hok.
  { exists [], m, chain, rs, bs, rest. split; [done|]. split; [done|]. split; [by exists []|done]. }
  destruct r as [n|p]; cbn [serve request_wf] in *.
  - destruct (mem_pool_alloc_spec m pool psz chain rs bs rest n Hpool Hok Hr) as (v & m1 & Hrun & Hres).
    assert (∃ chain1 rs1 bs1, pool_ok m1 pool psz chain1 rs1 bs1 rest ∧ (∀ x, used m chain x → used m1 chain1 x)) as (chain1 & rs1 & bs1 & Hok1 & Hu).
    { case_decide; destruct Hres as [H1|H1].
      - destruct H1 as [-> ->]. eauto.
      - destruct H1 as (chain' & ? & _ & _ & _ & ?). eauto.
      - destruct H1 as (-> & Hok' & Hnodes). exists chain, rs, bs. split; [done|]. unfold used. by rewrite Hnodes.
      - destruct H1 as (_ & _ & chain' & rs' & ? & ?). eauto. }
    destruct (IH m1 chain1 rs1 bs1 rest Hok1) as (vs & m' & c' & r' & b' & t' & Hrun' & Hok' & Hlost & Hu').
    rewrite (bind_Done _ _ _ _ _ Hrun), (bind_Done _ _ _ _ _ Hrun'). exists (v :: vs), m', c', r', b', t'.
    split; [done|]. split; [done|]. split; [done|]. auto.
  - destruct (mem_pool_free_spec m pool psz chain rs bs rest p Hok) as (m1 & Hrun & _ & Hnodes & Hres).
    assert (∃ rs1 bs1 rest1, pool_ok m1 pool psz chain rs1 bs1 rest1 ∧ ∃ l, rest1 = l ++ rest) as (rs1 & bs1 & rest1 & Hok1 & l & ->).
    { destruct Hres as [[_ ?]|(s & bs' & rs' & _ & ?)].
      - exists rs, bs, rest. split; [done|by exists []].
      - exists rs', bs', ((p, s) :: rest). split; [done|by exists [(p, s)]]. }
    destruct (IH m1 chain rs1 bs1 _ Hok1) as (vs & m' & c' & r' & b' & t' & Hrun' & Hok' & (l' & Hl') & Hu').
    rewrite (bind_Done _ _ _ _ _ Hrun). exists vs, m', c', r', b', t'. split; [exact Hrun'|]. split; [done|]. split.
    + exists (l' ++ l). by rewrite Hl', <-app_assoc.
    + intros x Hx. apply Hu'. destruct Hx as (a & s & nd & ? & ? & ?). exists a, s, nd. by rewrite Hnodes.
Qed.
End requests.

(** ** Creation and destruction *)

(** [mp_create] for a structure of the caller: without the check that malloc
    succeeded, and that the header fits, it is defined only when both hold. *)
Lemma mem_pool_create_spec sys m pool size rest :
  sys_ok sys → 0 < pool → live m ≡ₚ (pool, SIZEOF_POOL) :: rest → blocks_ok (live m) → SIZEOF_NODE ≤ size →
  match sys (live m) 16 size with
  | Some h => ∃ m', mp_create sys pool size m = Done (0, m') ∧ pool_ok m' pool size [(h, size)] [] [] rest
  | None => ¬ allocated m 0 SIZEOF_NODE → mp_create sys pool size m = Undef
  end.
Proof.
  intros Hsys Hpool Hl Hb Hs. unfold mp_create. rewrite decide_False by lia. unfold malloc.
  rewrite (prog_run _ _ (prog_assoc (gets live) _ _)), gets_bind.
  destruct (sys (live m) 16 size) as [h|] eqn:Hh.
  - rewrite (prog_run _ _ (prog_then_ret (modS _) h _)), modS_bind. destruct (Hsys _ _ _ _ Hh) as (Hpos & Hmax & _).
    set (m1 := set_live _ m). assert (allocated m1 h 24) as Hal by (left; unfold PagePool.inside; cbn; lia).
    rewrite (bind_Done _ _ _ _ _ (mem_wr_node_run _ _ _ Hal)). set (m2 := set_nodes _ m1).
    assert (allocated m2 pool 24) as Hpal.
    { apply Exists_exists. exists (pool, 24). split; [right; rewrite Hl; by left|]. unfold PagePool.inside. cbn. lia. }
    rewrite (bind_Done _ _ _ _ _ (mem_wr_pool_run _ _ _ Hpal)). eexists. split; [done|].
    split; cbn [live pools nodes larges set_pools]; try done.
    + cbn. rewrite Hl. solve_Permutation.
    + eapply PagePool.blocks_cons; [done|done|lia|done].
    + by rewrite lookup_insert_eq.
    + intros [|i] a s; [|done]. intros [= <- <-]. eexists. cbn [m2 nodes set_nodes]. rewrite lookup_insert_eq. split; [done|]. cbn. lia.
    + apply NoDup_nil_2.
  - intros Hno. rewrite (bind_Done _ _ m 0 m) by done. apply bind_Undef. unfold wr_node, modO, guard. by rewrite decide_False.
Qed.

Lemma mem_allocated_in m L x s b : live m ≡ₚ L → b ∈ L → inside x s b → allocated m x s.
Proof. intros HL Hb Hx. apply Exists_exists. exists b. by rewrite HL. Qed.

(** Records whose structures are in blocks of [L]. *)
Definition records_in (m : mem) (L : list (Z * Z)) (rs : list (Z * Z)) : Prop :=
  ∀ i l a, rs !! i = Some (l, a) →
    0 < l ∧ larges m !! l = Some (Large (default 0 (rs.*1 !! S i)) a) ∧ ∃ b, b ∈ L ∧ inside l SIZEOF_LARGE b.

Lemma mem_free_larges_run rs : ∀ fuel m bs L,
  (length rs < fuel)%nat → records_in m L rs → filter (λ a, a ≠ 0) rs.*2 ≡ₚ bs.*1 →
  live m ≡ₚ bs ++ L → NoDup (live m).*1 → (∀ b, b ∈ bs → 0 < b.1) →
  ∃ l, free_larges fuel (default 0 (rs.*1 !! 0%nat)) m = Done ((), set_live l m) ∧ l ≡ₚ L ∧ NoDup l.*1.
Proof.
  induction rs as [|[r a] rs IH]; intros [|fuel] m bs L Hfuel Hrs Hbs Hl Hnd Hpos; cbn in Hfuel; try lia; cbn [free_larges].
  - cbn in Hbs. symmetry in Hbs. apply Permutation_nil_r, fmap_nil_inv in Hbs as ->.
    exists (live m). cbn. by destruct m.
  - assert (Hin : records_in m L rs) by (intros i l' a' Hi; by apply (Hrs (S i) l' a')).
    destruct (Hrs 0%nat r a eq_refl) as (Hr0 & Hr & b & Hb & Hb'). cbn [fmap list_fmap fst lookup list_lookup default]. rewrite decide_False by (cbn; lia).
    assert (Hal : allocated m r 16) by (apply (mem_allocated_in m (bs ++ L) _ _ b); [done|by apply elem_of_app; right|done]).
    rewrite (bind_Done _ _ _ _ _ (mem_rd_large_run _ _ _ Hal Hr)). cbn [alloc lnext].
    change ((((r, a) :: rs).*1 !! 1%nat)) with (rs.*1 !! 0%nat).
    rewrite fmap_cons in Hbs. cbn [snd] in Hbs. case_decide as Ha.
    + rewrite filter_cons_True in Hbs by done.
      assert (∃ s bs', bs ≡ₚ (a, s) :: bs') as (s & bs' & Hbs').
      { assert (Hin' : a ∈ bs.*1) by (rewrite <-Hbs; by left). apply list_elem_of_fmap in Hin' as ([a' s] & Heq & Hin').
        cbn in Heq. subst a'. apply elem_of_Permutation in Hin' as [bs' ?]. by exists s, bs'. }
      assert (Ha0 : 0 < a). { apply (Hpos (a, s)). rewrite Hbs'. by left. }
      destruct (mem_free_run m a s (bs' ++ L) Ha0) as (l & Hrun & Hll & Hndl); [by rewrite Hl, Hbs'|done|].
      rewrite (bind_Done _ _ _ _ _ Hrun).
      apply (IH fuel (set_live l m) bs' L); cbn [live set_live]; try done; [lia| |].
      { rewrite Hbs' in Hbs. cbn in Hbs. by apply Permutation_cons_inv in Hbs. }
      { intros b' Hb1. apply Hpos. rewrite Hbs'. by right. }
    + rewrite filter_cons_False in Hbs by tauto. apply (IH fuel m bs L); try done. lia.
Qed.

Lemma mem_free_nodes_run chain : ∀ fuel m L,
  (length chain < fuel)%nat → linked (nodes m) chain → (∀ b, b ∈ chain → 0 < b.1) →
  live m ≡ₚ chain ++ L → NoDup (live m).*1 →
  ∃ l, free_nodes fuel (default 0 (chain.*1 !! 0%nat)) m = Done ((), set_live l m) ∧ l ≡ₚ L ∧ NoDup l.*1.
Proof.
  induction chain as [|[a s] chain IH]; intros [|fuel] m L Hfuel Hl Hpos Hlive Hnd; cbn in Hfuel; try lia; cbn [free_nodes].
  - exists (live m). cbn in *. by destruct m.
  - assert (Ha0 : 0 < a) by (apply (Hpos (a, s)); by left). cbn [fmap list_fmap fst lookup list_lookup default]. rewrite decide_False by (cbn; lia).
    destruct (Hl 0%nat a s eq_refl) as (nd & Hnda & Hnext & Hend & Hlast).
    assert (Hal : allocated m a 24) by (eapply mem_allocated_in; [exact Hlive|by left|unfold PagePool.inside; cbn; lia]).
    rewrite (bind_Done _ _ _ _ _ (mem_rd_node_run _ _ _ Hal Hnda)).
    destruct (mem_free_run m a s _ Ha0 Hlive Hnd) as (l & Hrun & Hll & Hndl).
    rewrite (bind_Done _ _ _ _ _ Hrun), Hnext. change (((a, s) :: chain).*1 !! 1%nat) with (chain.*1 !! 0%nat).
    apply (IH fuel (set_live l m) L); cbn [live set_live]; try done; [lia| |].
    { intros i x t Hi. apply (Hl (S i) x t Hi). }
    { intros x Hx. apply Hpos. by right. }
Qed.
(** [mp_destroy] gives back the nodes, the large blocks that records still hold
    and the structure itself, each once; what [mp_free] was called for is among
    the blocks that stay. *)
Lemma mem_pool_destroy_spec m pool psz chain rs bs rest :
  0 < pool → pool_ok m pool psz chain rs bs rest →
  ∃ m', mp_destroy pool m = Done ((), m') ∧ live m' ≡ₚ rest.
Proof.
  intros Hpool Hok. pose proof (ok_live _ _ _ _ _ _ _ Hok) as Hlive.
  pose proof (PagePool.blocks_bases _ (ok_blocks _ _ _ _ _ _ _ Hok)) as Hbases.
  assert (Hpos : ∀ b, b ∈ live m → 0 < b.1) by (intros b Hb; by apply (PagePool.blocks_positive _ (ok_blocks _ _ _ _ _ _ _ Hok))).
  unfold mp_destroy. rewrite (bind_Done _ _ _ _ _ (mem_rd_pool_run _ _ _ (mem_pool_allocated _ _ _ _ _ _ _ Hok) (ok_pool _ _ _ _ _ _ _ Hok))).
  cbn [large max head]. unfold large_fuel, node_fuel. rewrite gets_bind.
  destruct (mem_free_larges_run rs (S (size (larges m))) m bs ((pool, 24) :: chain ++ rest)) as (l & Hrun & Hl & Hnd).
  { pose proof (recorded_size _ _ _ (ok_records _ _ _ _ _ _ _ Hok) (ok_recorded _ _ _ _ _ _ _ Hok)). lia. }
  { intros i r a Hi. destruct (ok_recorded _ _ _ _ _ _ _ Hok i r a Hi) as (Hr & x & s & nd & Hx & Hndx & Hlo & Hhi).
    destruct (mem_chain_node _ _ _ _ _ _ _ Hok x s Hx) as (nd' & Hnd' & He & Hla). rewrite Hndx in Hnd'. injection Hnd' as <-.
    destruct (mem_chain_positive _ _ _ _ _ _ _ Hok x s Hx) as (? & _). split; [lia|]. split; [done|]. exists (x, s).
    split; [right; apply elem_of_app; by left|]. unfold PagePool.inside. cbn. lia. }
  { apply (ok_allocs _ _ _ _ _ _ _ Hok). } { rewrite Hlive. solve_Permutation. } { done. }
  { intros b Hb. apply Hpos. rewrite Hlive. right. apply elem_of_app. right. apply elem_of_app. by left. }
  rewrite (bind_Done _ _ _ _ _ Hrun). set (m1 := set_live l m).
  assert (Hin : ∀ l', l' ≡ₚ (pool, 24) :: chain ++ rest ∨ l' ≡ₚ (pool, 24) :: rest → ∀ ps, allocated (set_pools ps (set_live l' m)) pool 24).
  { intros l' Hl' ps. apply Exists_exists. exists (pool, 24). split; [|unfold PagePool.inside; cbn; lia].
    change ((pool, 24) ∈ l'). destruct Hl' as [->| ->]; by left. }
  rewrite (bind_Done _ _ _ _ _ (mem_wr_pool_run m1 pool _ (Hin l (or_introl Hl) (pools m)))). set (m2 := set_pools _ m1).
  rewrite gets_bind.
  destruct (mem_free_nodes_run chain (S (size (nodes m2))) m2 ((pool, 24) :: rest)) as (l2 & Hrun2 & Hl2 & Hnd2).
  { pose proof (mem_linked_size _ _ (mem_chain_nodup _ _ _ _ _ _ _ Hok) (ok_linked _ _ _ _ _ _ _ Hok)). change (nodes m2) with (nodes m). lia. }
  { apply (ok_linked _ _ _ _ _ _ _ Hok). } { intros b Hb. apply Hpos. by eapply chain_live. }
  { change (live m2) with l. rewrite Hl. solve_Permutation. } { done. }
  rewrite (bind_Done _ _ _ _ _ Hrun2). set (m3 := set_live l2 m2).
  rewrite (bind_Done _ _ _ _ _ (mem_wr_pool_run m3 pool _ (Hin l2 (or_intror Hl2) (pools m2)))).
  destruct (mem_free_run (set_pools (<[pool := Pool psz 0 0]> (pools m3)) m3) pool 24 rest) as (l3 & Hrun3 & Hl3 & _); [done|done|done|].
  eexists. split; [exact Hrun3|done].
Qed.

(** From creation to destruction: the calls in between end, and what is
    allocated at the end and was not at the beginning are the blocks that
    [mp_free] let go of. *)
Theorem mem_pool_lifetime sys mp_alloc_small m pool size rest reqs h :
  sys_ok sys → small_ok mp_alloc_small → 0 < pool → live m ≡ₚ (pool, SIZEOF_POOL) :: rest → blocks_ok (live m) →
  SIZEOF_NODE ≤ size → sys (live m) 16 size = Some h → Forall request_wf reqs →
  ∃ vs m' lost, (_ ← mp_create sys pool size; vs ← serve sys mp_alloc_small pool reqs; mp_destroy pool;; mret vs) m = Done (vs, m') ∧
    live m' ≡ₚ lost ++ rest.
Proof.
  intros Hsys Hsmall Hpool Hl Hb Hs Hh Hreqs.
  pose proof (mem_pool_create_spec sys m pool size rest Hsys Hpool Hl Hb Hs) as Hc. rewrite Hh in Hc.
  destruct Hc as (m1 & Hrun & Hok). rewrite (bind_Done _ _ _ _ _ Hrun).
  destruct (serve_run sys mp_alloc_small Hsys Hsmall reqs m1 pool size _ _ _ _ Hpool Hok Hreqs)
    as (vs & m2 & chain' & rs' & bs' & rest' & Hrun2 & Hok2 & (lost & Hlost) & _).
  rewrite (bind_Done _ _ _ _ _ Hrun2).
  destruct (mem_pool_destroy_spec _ _ _ _ _ _ _ Hpool Hok2) as (m3 & Hrun3 & Hl3). rewrite (bind_Done _ _ _ _ _ Hrun3).
  exists vs, m3, lost. split; [done|]. by rewrite Hl3, Hlost.
Qed.

(** ** Examples *)

(** An [mp_alloc_small] that always fails. *)
Definition no_small : Z → Z → act Z := λ _ _, mret 0.
Lemma no_small_ok : small_ok no_small.
Proof. intros m pool psz chain rs bs rest req _ _ _. exists 0, m. split; [done|by left]. Qed.

(** The structure of the caller, in a block of its own. *)
Definition caller : mem := Mem [(16, SIZEOF_POOL)] ∅ ∅ ∅.
Lemma caller_ok : blocks_ok (live caller).
Proof.
  split.
  - apply NoDup_singleton.
  - intros b ->%list_elem_of_singleton. cbn. lia.
  - intros b b' ->%list_elem_of_singleton ->%list_elem_of_singleton Hne. done.
Qed.
Lemma mem_pool_lifetime_witness :
  ∃ vs m' lost, (_ ← mp_create PagePool.bump 16 256; vs ← serve PagePool.bump no_small 16 [Alloc 100; Alloc 1000; Free 320; Alloc 8; Alloc 2000];
                 mp_destroy 16;; mret vs) caller = Done (vs, m') ∧ live m' ≡ₚ lost ++ [].
Proof.
  apply (mem_pool_lifetime PagePool.bump no_small caller 16 256 [] _ 48 PagePool.bump_ok no_small_ok).
  - lia.
  - reflexivity.
  - apply caller_ok.
  - lia.
  - vm_compute. reflexivity.
  - repeat constructor; cbn; lia.
Defined.

(** The comment of [mp_free] says that the memory is freed.  Only the record is
    emptied: the block stays allocated for good. *)
Example free_leaks :
  match (_ ← mp_create PagePool.bump 16 256; v ← mp_alloc PagePool.bump no_small 16 1000; mp_free 16 v;; mp_destroy 16;; mret v) caller with
  | Done (v, m) => live m = [(v, 1000)]
  | _ => False
  end.
Proof. vm_compute. reflexivity. Qed.

(** [mp_alloc_block] as [mp_alloc_small]: the memory it returns ends behind its
    block, and so does everything that is cut from it later, since the room left
    is computed without a sign. *)
Example block_overruns :
  match (_ ← mp_create PagePool.bump 16 256;
         _ ← mp_alloc PagePool.bump (mp_alloc_block PagePool.bump) 16 200;
         v ← mp_alloc PagePool.bump (mp_alloc_block PagePool.bump) 16 100;
         w ← mp_alloc PagePool.bump (mp_alloc_block PagePool.bump) 16 250; mret (v, w)) caller with
  | Done ((v, w), m) => v ≠ 0 ∧ w ≠ 0 ∧ ¬ allocated m v 100 ∧ ¬ allocated m w 1
  | _ => False
  end.
Proof.
  vm_compute. split; [done|]. split; [done|].
  split; intros H; repeat (inversion H as [? ? [? H1]|? ? H1]; clear H; [by destruct H1|rename H1 into H]); inversion H.
Qed.

(** A size that is not larger than the header is not refused: the header is
    written behind the block. *)
Example small_pool : mp_create PagePool.bump 16 8 caller = Undef.
Proof. vm_compute. reflexivity. Qed.
End MemPool.
