(* ===== verification/BlockPool.v ===== *)
(** The pool of equal blocks of mempool/mm_pool.c: a page with a list of free
    blocks threaded through the blocks themselves. *)
From S2P Require Import Prelude.

Open Scope Z_scope.

Module BlockPool.

Abbreviation MEM_PAGE_SIZE := 4096 (only parsing).

(** mempool_t and the words that were written to its page; addresses are
    integers and 0 is [NULL]. *)
Record mempool_t := Pool {
  blocksize : Z;
  freecount : Z;
  free_ptr : Z;
  mem : Z;
  words : gmap Z Z;
}.
Abbreviation act A := (prog mempool_t A).

Definition set_free c p s := Pool (blocksize s) c p (mem s) (words s).
Definition set_words w s := Pool (blocksize s) (freecount s) (free_ptr s) (mem s) w.

(** The pointer at [a] is inside the page. *)
Definition in_page (s : mempool_t) (a : Z) : Prop := mem s ≤ a ∧ a + 8 ≤ mem s + MEM_PAGE_SIZE.
#[export] Instance in_page_dec s a : Decision (in_page s a).
Proof. unfold in_page. apply _. Defined.

(** A pointer written at [a] destroys the words it overlaps. *)
Definition store (a v : Z) : act unit :=
  modO (λ s, if decide (in_page s a) then
    Some (set_words (<[a := v]> (filter (λ kv, kv.1 + 8 ≤ a ∨ a + 8 ≤ kv.1) (words s))) s) else None).
Definition load (a : Z) : act Z :=
  getsO (λ s, if decide (in_page s a) then words s !! a else None).

(** The loop of memp_create: [n] rounds from the address [ptr], which is
    returned. *)
Fixpoint thread_blocks (n : nat) (ptr block_size : Z) : act Z :=
  match n with
  | O => mret ptr
  | S n => store ptr (ptr + block_size);; thread_blocks n (ptr + block_size) block_size
  end.

(** [page] is what malloc returns. *)
Definition memp_create (block_size page : Z) : act Z :=
  modS (λ s, Pool block_size MEM_PAGE_SIZE (free_ptr s) page ∅);;
  if decide (page = 0) then mret (-2)
  else
    modS (λ s, set_free (freecount s) (mem s) s);;
    n ← gets freecount;
    ptr ← thread_blocks (Z.to_nat n) page block_size;
    store ptr 0;;
    mret 0.

Definition memp_alloc : act Z :=
  n ← gets freecount;
  if decide (n = 0) then mret 0
  else
    ptr ← gets free_ptr;
    next ← load ptr;
    modS (λ s, set_free (freecount s - 1) next s);;
    mret ptr.

Definition memp_free (ptr : Z) : act unit :=
  p ← gets free_ptr;
  store ptr p;;
  modS (λ s, set_free (freecount s + 1) ptr s).

(** ** The free list is a stack *)

(** The free blocks [l], the first to be handed out first. *)
Fixpoint threaded (w : gmap Z Z) (p : Z) (l : list Z) : Prop :=
  match l with
  | [] => True
  | x :: l => p = x ∧ ∃ next, w !! x = Some next ∧ threaded w next l
  end.
Definition apart (x y : Z) : Prop := x + 8 ≤ y ∨ y + 8 ≤ x.
Record free_blocks (s : mempool_t) (l : list Z) : Prop := {
  free_count : freecount s = zlength l;
  free_threaded : threaded (words s) (free_ptr s) l;
  free_in_page x : x ∈ l → in_page s x;
  free_apart : ForallOrdPairs apart l;
}.

Lemma threaded_store w p l a v :
  (∀ x, x ∈ l → apart x a) → threaded w p l →
  threaded (<[a := v]> (filter (λ kv, kv.1 + 8 ≤ a ∨ a + 8 ≤ kv.1) w)) p l.
Proof.
  revert p. induction l as [|x l IH]; intros p Ha; [done|]. intros [-> (next & Hx & Hl)]. split; [done|].
  assert (Hap : apart x a) by (apply Ha; by left). exists next. split.
  - rewrite lookup_insert_ne by (unfold apart in Hap; lia). apply map_lookup_filter_Some. done.
  - apply IH; [|done]. intros y Hy. apply Ha. by right.
Qed.

(** memp_alloc takes the top of the stack, or [NULL] when it is empty. *)
Lemma memp_alloc_spec s l : free_blocks s l →
  match l with
  | [] => memp_alloc s = Done (0, s)
  | x :: l' => ∃ s', memp_alloc s = Done (x, s') ∧ free_blocks s' l' ∧ words s' = words s ∧ mem s' = mem s
  end.
Proof.
  intros [Hc Ht Hp Ha]. unfold memp_alloc. rewrite gets_bind, Hc. destruct l as [|x l]; [done|].
  rewrite decide_False by (unfold zlength; cbn; lia). rewrite gets_bind.
  destruct Ht as [-> (next & Hx & Hl)]. unfold load. rewrite (getsO_bind _ _ _ next).
  - rewrite modS_bind. eexists. split; [done|]. split; [|done]. split; cbn.
    + rewrite Hc. unfold zlength. cbn. lia.
    + done.
    + intros y Hy. apply Hp. by right.
    + by inv Ha.
  - rewrite decide_True; [done|]. apply Hp. by left.
Qed.

Lemma memp_free_run s l x : free_blocks s l → in_page s x → (∀ y, y ∈ l → apart x y) →
  ∃ s', memp_free x s = Done ((), s') ∧ free_blocks s' (x :: l).
Proof.
  intros [Hc Ht Hp Ha] Hx Hap. unfold memp_free. rewrite gets_bind.
  set (w := <[x := free_ptr s]> (filter (λ kv, kv.1 + 8 ≤ x ∨ x + 8 ≤ kv.1) (words s))).
  unfold store. rewrite (modO_bind _ _ _ (set_words w s)) by by rewrite decide_True.
  eexists. split; [done|]. split; cbn.
  - rewrite Hc. unfold zlength. cbn. lia.
  - split; [done|]. exists (free_ptr s). split; [apply lookup_insert_eq|]. apply threaded_store; [|done].
    intros y Hy. specialize (Hap y Hy). unfold apart in *. lia.
  - intros y [->|Hy]%elem_of_cons; [done|by apply Hp].
  - constructor; [|done]. by apply Forall_forall.
Qed.

(** Memp_free and memp_alloc are push and pop: a block given back is the
    next one handed out, and the free blocks are then what they were. *)
Theorem memp_free_alloc s l x :
  free_blocks s l → in_page s x → (∀ y, y ∈ l → apart x y) →
  ∃ s' s'', memp_free x s = Done ((), s') ∧ memp_alloc s' = Done (x, s'') ∧ free_blocks s'' l.
Proof.
  intros Hs Hx Hap. destruct (memp_free_run s l x Hs Hx Hap) as (s1 & Hrun & Hs1).
  destruct (memp_alloc_spec s1 (x :: l) Hs1) as (s2 & Hrun2 & Hs2 & _). by exists s1, s2.
Qed.

(** ** Creation *)

Lemma thread_blocks_undefined n : ∀ ptr bs s, (∃ k, 0 ≤ k < Z.of_nat n ∧ ¬ in_page s (ptr + k * bs)) →
  thread_blocks n ptr bs s = Undef.
Proof.
  induction n as [|n IH]; intros ptr bs s (k & Hk & Hout); [lia|]. cbn [thread_blocks].
  destruct (decide (in_page s ptr)) as [Hin|Hno].
  - unfold store. erewrite modO_bind; [|by rewrite decide_True]. apply IH.
    exists (k - 1). assert (k ≠ 0) by (intros ->; apply Hout; by rewrite Z.mul_0_l, Z.add_0_r).
    split; [lia|]. unfold in_page in *. cbn. replace (ptr + bs + (k - 1) * bs) with (ptr + k * bs) by lia. done.
  - apply bind_Undef. unfold store, modO. by rewrite decide_False.
Qed.

(** The page of 4096 bytes is divided into 4096 blocks, whatever their size:
    for every size but 0 the loop writes outside the page. *)
Theorem memp_create_undefined s block_size page :
  page ≠ 0 → block_size ≠ 0 → memp_create block_size page s = Undef.
Proof.
  intros Hp Hb. unfold memp_create. rewrite modS_bind, decide_False by done. rewrite modS_bind, gets_bind.
  apply bind_Undef, thread_blocks_undefined. cbn [set_free freecount].
  exists (if decide (block_size < 0) then 1 else 4095). split; [case_decide; lia|]. unfold in_page. cbn.
  case_decide; lia.
Qed.

(** ** Example: a page with three blocks of 32 bytes *)

Definition three : mempool_t := Pool 32 3 64 64 {[64 := 96; 96 := 128; 128 := 0]}.
Lemma three_free : free_blocks three [64; 96; 128].
Proof.
  split.
  - done.
  - split; [done|]. exists 96. split; [done|]. split; [done|]. exists 128. split; [done|]. split; [done|]. by exists 0.
  - intros x. rewrite !elem_of_cons. unfold in_page. cbn. intros [->|[->|[->|Hx]]]; [lia..|]. by apply elem_of_nil in Hx.
  - repeat constructor; unfold apart; lia.
Qed.

Lemma memp_free_alloc_witness : free_blocks three [64; 96; 128] ∧
  ∃ s' s'', memp_free 160 three = Done ((), s') ∧ memp_alloc s' = Done (160, s'') ∧ free_blocks s'' [64; 96; 128].
Proof.
  split; [exact three_free|]. apply (memp_free_alloc three [64; 96; 128] 160 three_free).
  - unfold in_page. cbn. lia.
  - intros y. rewrite !elem_of_cons. unfold apart. intros [->|[->|[->|Hx]]]; [lia..|]. by apply elem_of_nil in Hx.
Defined.
End BlockPool.
