(* ===== verification/TaskQueue.v ===== *)
(** What the users of a queue of tasks (ThreadPool.v, DbPool.v) need of it: an
    interface, so that their theorems hold for every queue that implements it.

    The queues of this program hold a mutex from the first to the last access
    of every function, so a call is a function on the state; a wait in the
    middle is the result [Blocks], after which the caller, once woken, starts
    again. *)
From S2P Require Import Prelude.

Inductive pop_result (T : Type) := Taken (v : T) | Refused | Blocks.
Arguments Taken {T} v.
Arguments Refused {T}.
Arguments Blocks {T}.

(** What a queue of tasks promises its users: first in first out, and [pop]
    fails only on an empty queue that was cancelled. *)
Class TaskQueue (Q T : Type) := {
  push : T → Q → Q;
  pop : Q → pop_result T * Q;
  cancel : Q → Q;
  items : Q → list T;
  cancelled : Q → bool;
  items_push v q : items (push v q) = items q ++ [v];
  items_cancel q : items (cancel q) = items q;
  items_pop q : items (pop q).2 = tail (items q);
  cancelled_push v q : cancelled (push v q) = cancelled q;
  cancelled_cancel q : cancelled (cancel q) = true;
  cancelled_pop q : cancelled (pop q).2 = cancelled q;
  pop_result_spec q : (pop q).1 =
    match items q with
    | v :: _ => Taken v
    | [] => if cancelled q then Refused else Blocks
    end;
}.
