(* ===== verification/BlockingQueue.v ===== *)
(** threadpool/blockingqueue.h (mysqlconnpool/BlockingQueue.h is a copy): a
    queue under a mutex, and its variant with a list for each side. *)
From S2P Require Import Prelude TaskQueue.

Module BlockingQueue.
Section queue.
Context {T : Type}.

Record BlockingQueue := Queue { nonblock_ : bool; queue_ : list T }.

Definition make (nonblock : bool) : BlockingQueue := Queue nonblock [].
Definition Push (value : T) (q : BlockingQueue) : BlockingQueue := Queue (nonblock_ q) (queue_ q ++ [value]).
(** The wait, the test after it, and the rest. *)
Definition Pop (q : BlockingQueue) : pop_result T * BlockingQueue :=
  if bool_decide (queue_ q = []) && negb (nonblock_ q) then (Blocks, q)
  else if bool_decide (queue_ q = []) && nonblock_ q then (Refused, q)
  else
    match queue_ q with
    | value :: rest => (Taken value, Queue (nonblock_ q) rest)
    | [] => (Refused, q)
    end.
Definition Cancel (q : BlockingQueue) : BlockingQueue := Queue true (queue_ q).

#[global] Program Instance blocking_task_queue : TaskQueue BlockingQueue T := {
  push := Push; pop := Pop; cancel := Cancel; items := queue_; cancelled := nonblock_ }.
Next Obligation. done. Qed.
Next Obligation. done. Qed.
Next Obligation. by intros [[] []]. Qed.
Next Obligation. done. Qed.
Next Obligation. done. Qed.
Next Obligation. by intros [[] []]. Qed.
Next Obligation. by intros [[] []]. Qed.
End queue.
Arguments BlockingQueue : clear implicits.

(** ** BlockingQueuePro: a list for each side *)
Section queue_pro.
Context {T : Type}.

Record BlockingQueuePro := QueuePro { pro_nonblock_ : bool; prod_queue_ : list T; cons_queue_ : list T }.

Definition make_pro (nonblock : bool) : BlockingQueuePro := QueuePro nonblock [] [].
Definition Push_pro (value : T) (q : BlockingQueuePro) : BlockingQueuePro :=
  QueuePro (pro_nonblock_ q) (prod_queue_ q ++ [value]) (cons_queue_ q).

(** [None] while the predicate of the wait does not hold. *)
Definition SwapQueue_ (q : BlockingQueuePro) : option (Z * BlockingQueuePro) :=
  if negb (bool_decide (prod_queue_ q = [])) || pro_nonblock_ q then
    let q' := QueuePro (pro_nonblock_ q) (cons_queue_ q) (prod_queue_ q) in
    Some (i32 (zlength (cons_queue_ q')), q')
  else None.

Definition front_and_pop (q : BlockingQueuePro) : pop_result T * BlockingQueuePro :=
  match cons_queue_ q with
  | value :: rest => (Taken value, QueuePro (pro_nonblock_ q) (prod_queue_ q) rest)
  | [] => (Refused, q)
  end.

Definition Pop_pro (q : BlockingQueuePro) : pop_result T * BlockingQueuePro :=
  if bool_decide (cons_queue_ q = []) then
    match SwapQueue_ q with
    | None => (Blocks, q)
    | Some (n, q') => if decide (n = 0) then (Refused, q') else front_and_pop q'
    end
  else front_and_pop q.

Definition Cancel_pro (q : BlockingQueuePro) : BlockingQueuePro :=
  QueuePro true (prod_queue_ q) (cons_queue_ q).

(** The number of elements is returned as an [int]: a queue of 2^32 elements
    looks empty.  Below that the two lists are one queue. *)
Lemma Pop_pro_spec q : zlength (prod_queue_ q) < 2 ^ 31 →
  cons_queue_ (Pop_pro q).2 ++ prod_queue_ (Pop_pro q).2 = tail (cons_queue_ q ++ prod_queue_ q) ∧
  pro_nonblock_ (Pop_pro q).2 = pro_nonblock_ q ∧
  (Pop_pro q).1 =
    match cons_queue_ q ++ prod_queue_ q with
    | v :: _ => Taken v
    | [] => if pro_nonblock_ q then Refused else Blocks
    end.
Proof.
  destruct q as [nb ps [|v cs]]; cbn; intros Hlen; [|done]. unfold Pop_pro, SwapQueue_. cbn.
  destruct ps as [|v ps]; cbn.
  - by destruct nb.
  - rewrite i32_small by (unfold zlength in *; cbn in *; lia).
    rewrite decide_False by (unfold zlength; cbn; lia). cbn. by rewrite app_nil_r.
Qed.
End queue_pro.
Arguments BlockingQueuePro : clear implicits.
End BlockingQueue.
