(* ===== verification/LockedQueue.v ===== *)
(** free_queue/LockedQueue.h: a deque under a mutex that callers may also lock
    themselves. *)
From S2P Require Import Prelude.

Module LockedQueue.
Section queue.
Context {T : Type}.

(** [_lock] as the state a caller of [peek] leaves it in. *)
Record LockedQueue := Queue { _lock : bool; _queue : list T; _canceled : bool }.

Definition make : LockedQueue := Queue false [] false.

(** [None] where the thread would wait for the mutex. *)
Definition lock (q : LockedQueue) : option LockedQueue :=
  if _lock q then None else Some (Queue true (_queue q) (_canceled q)).
Definition unlock (q : LockedQueue) : LockedQueue := Queue false (_queue q) (_canceled q).
Definition with_queue l q := Queue (_lock q) l (_canceled q).

Definition add (item : T) (q : LockedQueue) : option LockedQueue :=
  q ← lock q; Some (unlock (with_queue (_queue q ++ [item]) q)).
Definition readd (items : list T) (q : LockedQueue) : option LockedQueue :=
  q ← lock q; Some (unlock (with_queue (items ++ _queue q) q)).
Definition next (q : LockedQueue) : option (option T * LockedQueue) :=
  q ← lock q;
  match _queue q with
  | [] => Some (None, unlock q)
  | x :: l => Some (Some x, unlock (with_queue l q))
  end.
(** The result is set even when the checker refuses it: [inr] is what stays in
    the queue. *)
Definition next_checked (Process : T → bool) (q : LockedQueue) : option (option (T + T) * LockedQueue) :=
  q ← lock q;
  match _queue q with
  | [] => Some (None, unlock q)
  | x :: l =>
      if Process x then Some (Some (inl x), unlock (with_queue l q))
      else Some (Some (inr x), unlock q)
  end.
(** The front of an empty queue does not exist: [inr] is undefined. *)
Definition peek (autoUnlock : bool) (q : LockedQueue) : option ((T + unit) * LockedQueue) :=
  q ← lock q;
  let r := match _queue q with x :: _ => inl x | [] => inr () end in
  Some (r, if autoUnlock then unlock q else q).
Definition cancel_locked (q : LockedQueue) : option LockedQueue :=
  q ← lock q; Some (Queue false (_queue q) true).
Definition is_cancelled (q : LockedQueue) : option (bool * LockedQueue) :=
  q ← lock q; Some (_canceled q, unlock q).
(** [None] also where [pop_front] meets an empty queue. *)
Definition pop_front (q : LockedQueue) : option LockedQueue :=
  q ← lock q; match _queue q with [] => None | _ :: l => Some (unlock (with_queue l q)) end.
Definition empty (q : LockedQueue) : option (bool * LockedQueue) :=
  q ← lock q; Some (bool_decide (_queue q = []), unlock q).

(** What [readd] puts back comes out first, in its order, before what was
    there. *)
Fixpoint drain (n : nat) (q : LockedQueue) : option (list T * LockedQueue) :=
  match n with
  | O => Some ([], q)
  | S n =>
      '(r, q) ← next q;
      match r with
      | None => Some ([], q)
      | Some x => '(l, q) ← drain n q; Some (x :: l, q)
      end
  end.

Lemma drain_spec n l c : drain n (Queue false l c) = Some (take n l, Queue false (drop n l) c).
Proof.
  revert l. induction n as [|n IH]; intros l; [done|]. cbn. destruct l as [|x l]; [done|].
  cbn. unfold unlock, with_queue. cbn. by rewrite IH.
Qed.

Lemma readd_drain items l c n :
  (q ← readd items (Queue false l c); drain n q) = Some (take n (items ++ l), Queue false (drop n (items ++ l)) c).
Proof. apply drain_spec. Qed.

(** Only [peek] without [autoUnlock] keeps the mutex: every other function
    that is called before [unlock] waits for ever. *)
Lemma peek_blocks (q : LockedQueue) r q' :
  peek false q = Some (r, q') → next q' = None ∧ (∀ x, add x q' = None) ∧ next (unlock q') = next q.
Proof. unfold peek, lock. destruct q as [[] l c]; cbn; [done|]. intros [= <- <-]. done. Qed.
End queue.
Arguments LockedQueue : clear implicits.
End LockedQueue.
