(* ===== verification/PcQueue.v ===== *)
(** free_queue/ProducerConsumerQueue.h, which mysql-conn-pool/dbimpl has a copy
    of: a queue of pointers under a mutex. *)
From S2P Require Import Prelude TaskQueue.

Module ProducerConsumerQueue.
Section queue.
Context {T : Type}.

(** [deleted] are the objects that [DeleteQueuedObject] has freed. *)
Record ProducerConsumerQueue := Queue { _queue : list T; _shutdown : bool; deleted : list T }.

Definition make : ProducerConsumerQueue := Queue [] false [].
Definition Push (value : T) (q : ProducerConsumerQueue) : ProducerConsumerQueue :=
  Queue (_queue q ++ [value]) (_shutdown q) (deleted q).
Definition Empty (q : ProducerConsumerQueue) : bool := bool_decide (_queue q = []).
Definition Size (q : ProducerConsumerQueue) : Z := zlength (_queue q).
Definition Pop (q : ProducerConsumerQueue) : option T * ProducerConsumerQueue :=
  if bool_decide (_queue q = []) || _shutdown q then (None, q)
  else match _queue q with v :: l => (Some v, Queue l (_shutdown q) (deleted q)) | [] => (None, q) end.
(** [Refused]: the function returns and [value] is as it was. *)
Definition WaitAndPop (q : ProducerConsumerQueue) : pop_result T * ProducerConsumerQueue :=
  if bool_decide (_queue q = []) && negb (_shutdown q) then (Blocks, q)
  else if bool_decide (_queue q = []) || _shutdown q then (Refused, q)
  else match _queue q with v :: l => (Taken v, Queue l (_shutdown q) (deleted q)) | [] => (Refused, q) end.

(** The loop of Cancel, for pointers. *)
Fixpoint delete_all (n : nat) (q : ProducerConsumerQueue) : ProducerConsumerQueue :=
  match n, _queue q with
  | S n, v :: l => delete_all n (Queue l (_shutdown q) (deleted q ++ [v]))
  | _, _ => q
  end.
Definition Cancel (q : ProducerConsumerQueue) : ProducerConsumerQueue :=
  let q := delete_all (length (_queue q)) q in Queue (_queue q) true (deleted q).

Lemma delete_all_spec l : ∀ s d, delete_all (length l) (Queue l s d) = Queue [] s (d ++ l).
Proof.
  induction l as [|v l IH]; intros s d; cbn; [by rewrite app_nil_r|]. by rewrite IH, <-(assoc (++)).
Qed.

(** Cancel deletes what is queued, in order, and nothing comes out any more;
    what is pushed afterwards stays in the queue for ever. *)
Lemma Cancel_spec q v :
  deleted (Cancel q) = deleted q ++ _queue q ∧
  Pop (Cancel q) = (None, Cancel q) ∧ WaitAndPop (Cancel q) = (Refused, Cancel q) ∧
  Pop (Push v (Cancel q)) = (None, Push v (Cancel q)) ∧ Size (Push v (Cancel q)) = 1.
Proof. destruct q as [l s d]. unfold Cancel. rewrite delete_all_spec. done. Qed.

(** Before that, elements come out in the order they went in. *)
Lemma WaitAndPop_spec q : _shutdown q = false →
  match _queue q with
  | [] => (WaitAndPop q).1 = Blocks ∧ Pop q = (None, q)
  | v :: l => WaitAndPop q = (Taken v, Queue l false (deleted q)) ∧ Pop q = (Some v, Queue l false (deleted q))
  end.
Proof. destruct q as [[|v l] s d]; cbn; intros ->; done. Qed.
End queue.
Arguments ProducerConsumerQueue : clear implicits.
End ProducerConsumerQueue.
