(* ===== verification/ThreadPool.v ===== *)
(** The thread pool, threadpool/threadpool.cc, over any queue of tasks
    (TaskQueue.v; the code uses [BlockingQueue]).

    A step of a worker is one critical section of the queue or the execution of
    one task; the steps of the workers, the calls of [Post] and the destructor
    interleave in any order.  [notify_one] wakes a waiter of the scheduler's
    choice, and a wait may also end for no reason ([Spurious]). *)
From S2P Require Import Prelude TaskQueue BlockingQueue.

Module ThreadPool.
Section pool.
Context {Q T : Type} `{TaskQueue Q T}.

(** [Ready]: before [Pop], also after a wake-up; [Waiting]: in its wait. *)
Inductive worker := Ready | Waiting | Running (task : T) | Exited.

(** [posted] and [executed] record the calls of [Post] and of [task()]. *)
Record ThreadPool := Pool { task_queue_ : Q; workers_ : list worker; posted : list T; executed : list T }.

(** [size_t i < thread_num] converts a negative [int]. *)
Definition construct (empty_queue : Q) (thread_num : Z) : ThreadPool :=
  Pool empty_queue (replicate (Z.to_nat (u64 thread_num)) Ready) [] [].

Definition is_waiting (w : worker) : bool := match w with Waiting => true | _ => false end.
Definition is_running (w : worker) : bool := match w with Running _ => true | _ => false end.
Definition wake (w : worker) : worker := match w with Waiting => Ready | _ => w end.

(** [chosen] is the waiter that the notification wakes; there is none only if
    no thread waits. *)
Definition notify_one (chosen : option nat) (ws : list worker) : option (list worker) :=
  match chosen with
  | Some i => match ws !! i with Some Waiting => Some (<[i := Ready]> ws) | _ => None end
  | None => if existsb is_waiting ws then None else Some ws
  end.

(** Once the destructor has started, only tasks of the pool itself may post. *)
Definition Post (task : T) (chosen : option nat) (p : ThreadPool) : option ThreadPool :=
  if cancelled (task_queue_ p) && negb (existsb is_running (workers_ p)) then None
  else
    ws ← notify_one chosen (workers_ p);
    Some (Pool (push task (task_queue_ p)) ws (posted p ++ [task]) (executed p)).

(** One step of [Worker]; [None] if the thread cannot run. *)
Definition Worker (i : nat) (p : ThreadPool) : option ThreadPool :=
  w ← workers_ p !! i;
  match w with
  | Ready =>
      let '(r, q) := pop (task_queue_ p) in
      let w' := match r with Taken task => Running task | Refused => Exited | Blocks => Waiting end in
      Some (Pool q (<[i := w']> (workers_ p)) (posted p) (executed p))
  | Running task => Some (Pool (task_queue_ p) (<[i := Ready]> (workers_ p)) (posted p) (executed p ++ [task]))
  | Waiting | Exited => None
  end.

(** The destructor up to the joins. *)
Definition destroy (p : ThreadPool) : ThreadPool :=
  Pool (cancel (task_queue_ p)) (wake <$> workers_ p) (posted p) (executed p).
(** The joins return when every thread has. *)
Definition joined (p : ThreadPool) : bool :=
  forallb (λ w, match w with Exited => true | _ => false end) (workers_ p).

Inductive event := EPost (task : T) (chosen : option nat) | EWorker (i : nat) | EDestroy | ESpurious (i : nat).

Definition step (e : event) (p : ThreadPool) : option ThreadPool :=
  match e with
  | EPost task chosen => Post task chosen p
  | EWorker i => Worker i p
  | EDestroy => Some (destroy p)
  | ESpurious i =>
      match workers_ p !! i with
      | Some Waiting => Some (Pool (task_queue_ p) (<[i := Ready]> (workers_ p)) (posted p) (executed p))
      | _ => None
      end
  end.

Fixpoint run (es : list event) (p : ThreadPool) : option ThreadPool :=
  match es with [] => Some p | e :: es => p ← step e p; run es p end.

(** ** Counting workers *)
Definition count (f : worker → nat) (ws : list worker) : nat := sum_list_with f ws.

Lemma count_insert f ws i w w' : ws !! i = Some w →
  (count f (<[i := w']> ws) + f w = count f ws + f w')%nat.
Proof.
  unfold count. revert i. induction ws as [|x ws IH]; intros [|i] Hi; simplify_eq/=; [lia|].
  specialize (IH i Hi). lia.
Qed.
Lemma count_wake_le f ws : (∀ w, f (wake w) ≤ f w)%nat → (count f (wake <$> ws) ≤ count f ws)%nat.
Proof. intros Hf. unfold count. induction ws as [|w ws IH]; cbn; [lia|]. specialize (Hf w). lia. Qed.
Lemma count_0 f ws i w : count f ws = 0%nat → ws !! i = Some w → f w = 0%nat.
Proof.
  unfold count. revert i. induction ws as [|x ws IH]; intros [|i] H0 Hi; simplify_eq/=; [lia|].
  eapply IH; [lia|done].
Qed.
Lemma count_zero f ws : (∀ i w, ws !! i = Some w → f w = 0%nat) → count f ws = 0%nat.
Proof.
  unfold count. induction ws as [|x ws IH]; cbn; intros Hz; [done|].
  rewrite (Hz 0%nat x), IH by (done || (intros i w; apply (Hz (S i)))). done.
Qed.

Definition waiting w : nat := match w with Waiting => 1 | _ => 0 end.
Definition ready w : nat := match w with Ready => 1 | _ => 0 end.
Definition alive w : nat := match w with Exited => 0 | _ => 1 end.
Definition running w : nat := match w with Running _ => 1 | _ => 0 end.
Definition todo w : nat := match w with Ready => 1 | Running _ => 2 | _ => 0 end.

Definition in_hand (ws : list worker) : list T :=
  ws ≫= λ w, match w with Running task => [task] | _ => [] end.

Lemma in_hand_insert ws i w w' : ws !! i = Some w →
  in_hand (<[i := w']> ws) ++ in_hand [w] ≡ₚ in_hand ws ++ in_hand [w'].
Proof.
  unfold in_hand. revert i. induction ws as [|x ws IH]; intros [|i] Hi; simplify_eq/=.
  - rewrite !app_nil_r. solve_Permutation.
  - specialize (IH i Hi). cbn in IH. rewrite !app_nil_r in *. rewrite <-!(assoc (++)), IH. done.
Qed.
Arguments count : simpl never.

(** ** The invariant *)
Record inv (p : ThreadPool) : Prop := Inv {
  inv_tasks : executed p ++ in_hand (workers_ p) ++ items (task_queue_ p) ≡ₚ posted p;
  inv_waiting : count waiting (workers_ p) ≠ 0%nat →
    cancelled (task_queue_ p) = false ∧ (length (items (task_queue_ p)) ≤ count ready (workers_ p))%nat;
  inv_alive : cancelled (task_queue_ p) = false → count alive (workers_ p) = length (workers_ p);
  inv_done : workers_ p ≠ [] → count alive (workers_ p) = 0%nat →
    items (task_queue_ p) = [] ∧ cancelled (task_queue_ p) = true;
}.

Lemma count_replicate f n w : count f (replicate n w) = (n * f w)%nat.
Proof. unfold count. induction n; cbn; lia. Qed.
Lemma in_hand_replicate n : in_hand (replicate n Ready) = [].
Proof. unfold in_hand. by induction n. Qed.

Lemma construct_inv q n : items q = [] → cancelled q = false → inv (construct q n).
Proof.
  intros Hq Hc. split; cbn.
  - by rewrite Hq, in_hand_replicate.
  - rewrite count_replicate. cbn. lia.
  - rewrite count_replicate, length_replicate. cbn. lia.
  - rewrite count_replicate. cbn. intros Hne Hz. destruct (Z.to_nat (u64 n)); [done|lia].
Qed.

Lemma not_waiting ws : existsb is_waiting ws = false → count waiting ws = 0%nat.
Proof.
  intros Hex. apply count_zero. intros i w Hi.
  destruct w; try done. exfalso. enough (existsb is_waiting ws = true) by congruence.
  apply existsb_exists. exists Waiting. split; [|done]. by apply list_elem_of_In, (list_elem_of_lookup_2 _ i).
Qed.
Lemma some_running ws : existsb is_running ws = true → count alive ws ≠ 0%nat.
Proof.
  intros (w & [i Hi]%list_elem_of_In%list_elem_of_lookup & Hw)%existsb_exists Hz.
  apply (count_0 _ _ i w) in Hz; [|done]. by destruct w.
Qed.

Ltac counts i w' Hi :=
  pose proof (count_insert waiting _ i _ w' Hi); pose proof (count_insert ready _ i _ w' Hi);
  pose proof (count_insert alive _ i _ w' Hi); pose proof (count_insert todo _ i _ w' Hi); cbn in *.

Lemma wake_one p i : workers_ p !! i = Some Waiting → inv p →
  inv (Pool (task_queue_ p) (<[i := Ready]> (workers_ p)) (posted p) (executed p)).
Proof.
  intros Hi [Htasks Hwait Halive Hdone]. counts i Ready Hi.
  assert (count alive (workers_ p) ≠ 0%nat) by (intros Hz; by apply (count_0 _ _ i Waiting) in Hz).
  split; cbn.
  - pose proof (in_hand_insert _ i _ Ready Hi) as Hp. cbn in Hp. rewrite !app_nil_r in Hp. by rewrite Hp.
  - intros _. destruct Hwait; [lia|]. split; [done|lia].
  - rewrite length_insert. intros Hc%Halive. lia.
  - intros _ Hz. lia.
Qed.

Lemma post_inv p task chosen p' : inv p → Post task chosen p = Some p' → inv p'.
Proof.
  intros Hinv HP. unfold Post in HP.
  destruct (cancelled (task_queue_ p) && negb (existsb is_running (workers_ p))) eqn:Hg; [done|].
  assert (cancelled (task_queue_ p) = false ∨ count alive (workers_ p) ≠ 0%nat) as Hok.
  { apply andb_false_iff in Hg as [?|Hr%negb_false_iff%some_running]; auto. }
  destruct Hinv as [Htasks Hwait Halive Hdone]. destruct chosen as [i|]; cbn in HP.
  - destruct (workers_ p !! i) as [[]|] eqn:Hi; simplify_eq/=. counts i Ready Hi.
    split; cbn; rewrite ?items_push, ?cancelled_push.
    + pose proof (in_hand_insert _ i _ Ready Hi) as Hp. cbn in Hp. rewrite !app_nil_r in Hp.
      by rewrite Hp, <-Htasks, <-!(assoc (++)).
    + intros _. destruct Hwait; [lia|]. rewrite length_app. cbn. split; [done|lia].
    + rewrite length_insert. intros Hc%Halive. lia.
    + intros _ Hz. assert (workers_ p ≠ []) as Hws by (intros Hnil; by rewrite Hnil in Hi).
      destruct (Hdone Hws); [lia|]. destruct Hwait; [lia|congruence].
  - destruct (existsb is_waiting (workers_ p)) eqn:Hw; simplify_eq/=. apply not_waiting in Hw.
    split; cbn; rewrite ?items_push, ?cancelled_push.
    + by rewrite <-Htasks, <-!(assoc (++)).
    + done.
    + done.
    + intros Hne Hz. destruct (Hdone Hne Hz). destruct Hok; congruence.
Qed.

Lemma worker_inv p i p' : inv p → Worker i p = Some p' → inv p'.
Proof.
  intros [Htasks Hwait Halive Hdone] HW. unfold Worker in HW.
  destruct (workers_ p !! i) as [w|] eqn:Hi; [|done]. cbn in HW.
  assert (workers_ p ≠ []) as Hws by (intros Hnil; by rewrite Hnil in Hi).
  assert (w ≠ Exited → count alive (workers_ p) ≠ 0%nat) as Hal.
  { intros Hw Hz. apply (count_0 _ _ i w) in Hz; [|done]. by destruct w. }
  destruct w as [| |task|]; simplify_eq/=.
  - pose proof (pop_result_spec (task_queue_ p)) as Hres. pose proof (items_pop (task_queue_ p)) as Hit.
    pose proof (cancelled_pop (task_queue_ p)) as Hc. destruct (pop (task_queue_ p)) as [r q]. cbn in *. simplify_eq/=.
    destruct (items (task_queue_ p)) as [|v l]; [destruct (cancelled (task_queue_ p)) eqn:Hcan|]; cbn in *.
    + pose proof (in_hand_insert _ i _ Exited Hi) as Hp. cbn in Hp. rewrite !app_nil_r in Hp. counts i Exited Hi.
      split; cbn; rewrite ?Hit, ?Hc; rewrite ?app_nil_r in *.
      * by rewrite Hp.
      * intros Hne. destruct Hwait; [lia|done].
      * done.
      * done.
    + pose proof (in_hand_insert _ i _ Waiting Hi) as Hp. cbn in Hp. rewrite !app_nil_r in Hp. counts i Waiting Hi.
      split; cbn; rewrite ?Hit, ?Hc; rewrite ?app_nil_r in *.
      * by rewrite Hp.
      * intros _. cbn. split; [done|lia].
      * rewrite length_insert. intros Hx%Halive. lia.
      * intros _ Hz. assert (count alive (workers_ p) ≠ 0%nat) by (by apply Hal). lia.
    + pose proof (in_hand_insert _ i _ (Running v) Hi) as Hp. cbn in Hp. rewrite !app_nil_r in Hp. counts i (Running v) Hi.
      assert (count alive (workers_ p) ≠ 0%nat) by (by apply Hal).
      split; cbn; rewrite ?Hit, ?Hc.
      * rewrite Hp, <-(assoc (++)). done.
      * intros Hne. destruct Hwait; [lia|]. split; [done|lia].
      * rewrite length_insert. intros Hx%Halive. lia.
      * intros _ Hz. lia.
  - pose proof (in_hand_insert _ i _ Ready Hi) as Hp. cbn in Hp. rewrite !app_nil_r in Hp. counts i Ready Hi.
    assert (count alive (workers_ p) ≠ 0%nat) by (by apply Hal).
    split; cbn.
    + rewrite <-Htasks, <-Hp. solve_Permutation.
    + intros Hne. destruct Hwait; [lia|]. split; [done|lia].
    + rewrite length_insert. intros Hx%Halive. lia.
    + intros _ Hz. lia.
Qed.

Lemma destroy_inv p : inv p → inv (destroy p).
Proof.
  intros [Htasks Hwait Halive Hdone]. split; cbn; rewrite ?items_cancel, ?cancelled_cancel.
  - rewrite <-Htasks. f_equiv. f_equiv. unfold in_hand. clear.
    induction (workers_ p) as [|[] ws IH]; cbn; try done. by rewrite IH.
  - intros Hne. destruct Hne. apply count_zero. intros i w (w' & -> & _)%list_lookup_fmap_Some. by destruct w'.
  - done.
  - intros Hne Hz. split; [|done]. apply Hdone; [by destruct (workers_ p)|].
    apply count_zero. intros i w Hi. apply (count_0 _ _ i (wake w)) in Hz; [by destruct w|].
    by rewrite list_lookup_fmap, Hi.
Qed.

Lemma step_inv e p p' : inv p → step e p = Some p' → inv p'.
Proof.
  intros Hinv He. destruct e as [task chosen|i| |i]; cbn in He.
  - by eapply post_inv.
  - by eapply worker_inv.
  - simplify_eq. by apply destroy_inv.
  - destruct (workers_ p !! i) as [[]|] eqn:Hi; simplify_eq. by apply wake_one.
Qed.

Lemma run_inv es p p' : inv p → run es p = Some p' → inv p'.
Proof.
  revert p. induction es as [|e es IH]; intros p Hinv Hr; cbn in Hr; [by simplify_eq|].
  destruct (step e p) as [q|] eqn:He; [|done]. cbn in Hr. apply (IH q); [|done]. by eapply step_inv.
Qed.

(** What is left to do, once the pool is shut down. *)
Definition measure (p : ThreadPool) : nat := 3 * length (items (task_queue_ p)) + count todo (workers_ p).
Arguments measure : simpl never.

Lemma worker_measure p i p' :
  inv p → cancelled (task_queue_ p) = true → Worker i p = Some p' →
  (measure p' < measure p)%nat ∧ cancelled (task_queue_ p') = true ∧ posted p' = posted p.
Proof.
  intros Hinv Hc HW. unfold Worker in HW.
  destruct (workers_ p !! i) as [w|] eqn:Hi; [|done]. cbn in HW.
  unfold measure. destruct w as [| |task|]; simplify_eq/=.
  - pose proof (pop_result_spec (task_queue_ p)) as Hres. pose proof (items_pop (task_queue_ p)) as Hit.
    pose proof (cancelled_pop (task_queue_ p)) as Hc'. destruct (pop (task_queue_ p)) as [r q]. cbn in *. simplify_eq/=.
    rewrite Hc', Hit, Hc. split_and!; [|done|done].
    destruct (items (task_queue_ p)) as [|v l]; cbn; [counts i Exited Hi|counts i (Running v) Hi]; lia.
  - counts i Ready Hi. split_and!; [lia|done|done].
Qed.

Lemma post_measure p task chosen p' :
  inv p → cancelled (task_queue_ p) = true → Post task chosen p = Some p' →
  measure p' = (measure p + 3)%nat ∧ cancelled (task_queue_ p') = true.
Proof.
  intros Hinv Hc HP. unfold Post in HP. destruct (_ && _); [done|].
  assert (count waiting (workers_ p) = 0%nat) as Hw.
  { destruct (decide (count waiting (workers_ p) = 0%nat)); [done|]. destruct (inv_waiting p Hinv); [done|congruence]. }
  destruct chosen as [i|]; cbn in HP.
  - destruct (workers_ p !! i) as [[]|] eqn:Hi; simplify_eq/=. by apply (count_0 _ _ i Waiting) in Hw.
  - destruct (existsb _ _); simplify_eq/=. unfold measure. cbn. rewrite items_push, cancelled_push, length_app. cbn. split; [lia|done].
Qed.

Definition is_worker_step (e : event) : bool := match e with EWorker _ => true | _ => false end.
Definition posts (es : list event) : nat :=
  sum_list_with (λ e, match e with EPost _ _ => 1 | _ => 0 end)%nat es.
Definition worker_steps (es : list event) : nat :=
  sum_list_with (λ e, if is_worker_step e then 1 else 0)%nat es.

Lemma run_measure es p p' :
  inv p → cancelled (task_queue_ p) = true → run es p = Some p' →
  (worker_steps es + measure p' ≤ measure p + 3 * posts es)%nat ∧
  cancelled (task_queue_ p') = true.
Proof.
  revert p. induction es as [|e es IH]; intros p Hinv Hc Hr; cbn in Hr.
  - simplify_eq. split; [cbn; lia|done].
  - destruct (step e p) as [q|] eqn:He; [|done]. cbn in Hr.
    assert (inv q) as Hq by (by eapply step_inv). specialize (IH q Hq).
    destruct e as [task chosen|i| |i]; cbn in He |- *; unfold posts, worker_steps in *; cbn.
    + destruct (post_measure p task chosen q Hinv Hc He) as [Hm Hc']. destruct (IH Hc' Hr). split; [lia|done].
    + destruct (worker_measure p i q Hinv Hc He) as (Hm & Hc' & _). destruct (IH Hc' Hr). split; [lia|done].
    + simplify_eq. unfold measure in *. cbn in *. rewrite items_cancel, cancelled_cancel in *. destruct (IH eq_refl Hr) as [HI ?]. split; [|done].
      assert (count waiting (workers_ p) = 0%nat) as Hw.
      { destruct (decide (count waiting (workers_ p) = 0%nat)); [done|]. destruct (inv_waiting p Hinv); [done|congruence]. }
      enough (count todo (wake <$> workers_ p) = count todo (workers_ p)) by lia.
      clear -Hw. unfold count in *. induction (workers_ p) as [|w ws IHw]; [done|]. cbn in *. rewrite IHw by lia. by destruct w.
    + destruct (workers_ p !! i) as [[]|] eqn:Hi; simplify_eq.
      apply (count_0 waiting _ i Waiting) in Hi; [done|].
      destruct (decide (count waiting (workers_ p) = 0%nat)); [done|]. destruct (inv_waiting p Hinv); [done|congruence].
Qed.

(** No worker can move. *)
Definition stuck (p : ThreadPool) : Prop := ∀ i, Worker i p = None.

Lemma stuck_workers p i w : stuck p → workers_ p !! i = Some w → w = Waiting ∨ w = Exited.
Proof.
  intros Hs Hi. specialize (Hs i). unfold Worker in Hs. rewrite Hi in Hs. cbn in Hs.
  destruct w; try done; auto. by destruct (pop _).
Qed.

(** At rest everything is executed: the workers wait, or after a shutdown have
    returned. *)
Lemma stuck_spec p : inv p → workers_ p ≠ [] → stuck p →
  executed p ≡ₚ posted p ∧ items (task_queue_ p) = [] ∧ joined p = cancelled (task_queue_ p).
Proof.
  intros [Htasks Hwait Halive Hdone] Hne Hs.
  assert (in_hand (workers_ p) = []) as Hhand.
  { unfold in_hand. assert (∀ w, w ∈ workers_ p → w = Waiting ∨ w = Exited) as Hall.
    { intros w [i Hi]%list_elem_of_lookup. by eapply stuck_workers. }
    clear -Hall. induction (workers_ p) as [|w ws IH]; [done|]. cbn. rewrite IH by set_solver.
    by destruct (Hall w ltac:(set_solver)) as [->| ->]. }
  assert (count ready (workers_ p) = 0%nat) as Hready.
  { apply count_zero. intros i w Hi. by destruct (stuck_workers p i w Hs Hi) as [->| ->]. }
  assert (items (task_queue_ p) = [] ∧ joined p = cancelled (task_queue_ p)) as [Hit Hj].
  { destruct (decide (count waiting (workers_ p) = 0%nat)) as [Hw|Hw].
    - assert (∀ i w, workers_ p !! i = Some w → w = Exited) as Hex.
      { intros i w Hi. destruct (stuck_workers p i w Hs Hi) as [->| ->]; [|done]. by apply (count_0 _ _ i Waiting) in Hw. }
      destruct Hdone as [Hit Hc]; [done| |].
      { apply count_zero. intros i w Hi. by rewrite (Hex i w Hi). }
      split; [done|]. rewrite Hc. apply forallb_forall. intros w [i Hi]%list_elem_of_In%list_elem_of_lookup.
      by rewrite (Hex i w Hi).
    - destruct (Hwait Hw) as [Hc Hle]. split; [apply nil_length_inv; lia|]. rewrite Hc.
      apply not_true_is_false. intros Hj. apply Hw, count_zero. intros i w Hi.
      unfold joined in Hj. rewrite forallb_forall in Hj.
      specialize (Hj w ltac:(by eapply list_elem_of_In, list_elem_of_lookup_2)). by destruct w. }
  split_and!; [|done|done]. rewrite <-Htasks, Hhand, Hit, app_nil_r. done.
Qed.

(** Worker steps alone bring a pool that is shut down to rest. *)
Lemma finish n p : (measure p ≤ n)%nat → inv p → cancelled (task_queue_ p) = true →
  ∃ js p', run (EWorker <$> js) p = Some p' ∧ stuck p' ∧ posted p' = posted p.
Proof.
  revert p. induction n as [|n IH]; intros p Hn Hinv Hc.
  all: destruct (decide (Forall (λ i, Worker i p = None) (seq 0 (length (workers_ p))))) as [Hall|Hex].
  all: try (exists [], p; split_and!; [done| |done]; intros i; destruct (decide (i < length (workers_ p))%nat);
    [rewrite Forall_forall in Hall; apply Hall, elem_of_seq; lia|unfold Worker; rewrite lookup_ge_None_2 by lia; done]).
  all: apply not_Forall_Exists in Hex; [|apply _].
  all: apply Exists_exists in Hex as (i & _ & Hi).
  all: destruct (Worker i p) as [q|] eqn:HW; [|done].
  all: destruct (worker_measure p i q Hinv Hc HW) as (Hm & Hc' & Hp).
  { lia. }
  destruct (IH q) as (js & p' & Hrun & Hst & Hp'); [lia|by eapply worker_inv|done|].
  exists (i :: js), p'. cbn. rewrite HW. cbn. split_and!; [done|done|congruence].
Qed.

Lemma workers_length es p p' : run es p = Some p' → length (workers_ p') = length (workers_ p).
Proof.
  revert p. induction es as [|e es IH]; intros p Hr; cbn in Hr; [by simplify_eq|].
  destruct (step e p) as [q|] eqn:He; [|done]. cbn in Hr. rewrite (IH q Hr). clear IH Hr.
  destruct e as [task chosen|i| |i]; cbn in He.
  - unfold Post, notify_one in He. destruct (_ && _); [done|]. destruct chosen as [i|].
    + destruct (workers_ p !! i) as [[]|]; simplify_eq/=. apply length_insert.
    + destruct (existsb _ _); by simplify_eq/=.
  - unfold Worker in He. destruct (workers_ p !! i) as [[]|]; simplify_eq/=; [destruct (pop _)|]; simplify_eq/=; apply length_insert.
  - simplify_eq/=. apply length_fmap.
  - destruct (workers_ p !! i) as [[]|]; simplify_eq/=. apply length_insert.
Qed.

Lemma todo_le ws : (count todo ws ≤ 2 * length ws)%nat.
Proof. unfold count. induction ws as [|[] ws IH]; cbn; lia. Qed.

(** C6: no wake-up is lost and no task is dropped: where no worker of a started
    pool can move, every task that was posted has been executed, and the
    destructor's joins return exactly if the pool was shut down. *)
Theorem pool_no_lost_wakeup q n es p :
  items q = [] → cancelled q = false → 0 < n < 2 ^ 31 →
  run es (construct q n) = Some p → stuck p →
  executed p ≡ₚ posted p ∧ items (task_queue_ p) = [] ∧ joined p = cancelled (task_queue_ p).
Proof.
  intros Hq Hc Hn Hrun Hst. eapply stuck_spec; [by eapply run_inv, Hrun; apply construct_inv| |done].
  intros Hnil. apply workers_length in Hrun. rewrite Hnil in Hrun. cbn in Hrun.
  rewrite length_replicate, u64_small in Hrun by lia. lia.
Qed.

(** C7: the destructor returns: after it has cancelled the queue the workers
    take a bounded number of steps, whatever their order and whatever the
    tasks post meanwhile, and such steps lead to a state where every worker
    has returned and every task has been executed. *)
Theorem pool_shutdown_terminates q n es p es' p' :
  items q = [] → cancelled q = false → 0 < n < 2 ^ 31 →
  run es (construct q n) = Some p → run es' (destroy p) = Some p' →
  (worker_steps es' ≤ 3 * length (items (task_queue_ p)) + 2 * length (workers_ p) + 3 * posts es')%nat ∧
  ∃ js p'', run (EWorker <$> js) p' = Some p'' ∧
    joined p'' = true ∧ posted p'' = posted p' ∧ executed p'' ≡ₚ posted p'.
Proof.
  intros Hq Hc Hn Hrun Hrun'. pose proof (run_inv _ _ _ (construct_inv _ n Hq Hc) Hrun) as Hinv.
  apply destroy_inv in Hinv as Hinv'. destruct (run_measure _ _ _ Hinv' (cancelled_cancel _) Hrun') as [Hm Hc'].
  split.
  - pose proof (todo_le (workers_ (destroy p))). unfold measure in Hm. cbn in *. rewrite items_cancel, length_fmap in *. lia.
  - assert (inv p') as Hp' by (by eapply run_inv).
    destruct (finish _ p' (le_n _) Hp' Hc') as (js & p'' & Hr & Hst & Hpost). exists js, p''.
    assert (inv p'') as Hp'' by (by eapply run_inv). assert (workers_ p'' ≠ []) as Hne.
    { intros Hnil. apply workers_length in Hr. apply workers_length in Hrun'. apply workers_length in Hrun.
      rewrite Hnil, Hrun' in Hr. cbn in *. rewrite length_fmap, Hrun, length_replicate, u64_small in Hr by lia. cbn in Hr. lia. }
    destruct (stuck_spec p'' Hp'' Hne Hst) as (Hex & _ & Hj). destruct (run_measure _ _ _ Hp' Hc' Hr) as [_ Hc''].
    split_and!; [done|congruence|done|by rewrite <-Hpost].
Qed.
End pool.
Arguments ThreadPool : clear implicits.
Arguments event : clear implicits.
Arguments worker : clear implicits.
(** Two workers, three tasks; the second is posted while one thread waits. *)
Definition demo : list (event Z) :=
  [EWorker 0; EPost 1 (Some 0%nat); EWorker 1; EPost 2 None; EWorker 0; EWorker 0; EPost 3 None].
Definition demo_end : list (event Z) := [EWorker 1; EWorker 1; EWorker 0; EWorker 1; EWorker 1].
Lemma pool_no_lost_wakeup_witness :
  let p0 := construct (BlockingQueue.make (T := Z) false) 2 in
  match run (demo ++ EDestroy :: demo_end) p0 with
  | Some p => executed p = [2; 1; 3] ∧ executed p ≡ₚ posted p ∧ joined p = true
  | None => False
  end.
Proof.
  cbv zeta. destruct (run _ _) as [p|] eqn:Hrun; [|by vm_compute in Hrun].
  destruct (pool_no_lost_wakeup (BlockingQueue.make (T := Z) false) 2 _ p ltac:(done) ltac:(done) ltac:(lia) Hrun) as (Hp & _ & Hj).
  - vm_compute in Hrun. injection Hrun as <-. intros [|[|i]]; done.
  - split_and!; [|done|].
    + vm_compute in Hrun. by injection Hrun as <-.
    + rewrite Hj. vm_compute in Hrun. by injection Hrun as <-.
Defined.
Lemma pool_shutdown_terminates_witness :
  let p0 := construct (BlockingQueue.make (T := Z) false) 2 in
  match run demo p0 with
  | Some p => ∃ js p'', run (EWorker <$> js) (destroy p) = Some p'' ∧ joined p'' = true ∧ executed p'' ≡ₚ [1; 2; 3]
  | None => False
  end.
Proof.
  cbv zeta. destruct (run demo _) as [p|] eqn:Hrun; [|by vm_compute in Hrun].
  destruct (pool_shutdown_terminates (BlockingQueue.make (T := Z) false) 2 _ p [] (destroy p) ltac:(done) ltac:(done) ltac:(lia) Hrun eq_refl)
    as (_ & js & p'' & Hr & Hj & _ & Hex).
  exists js, p''. split_and!; [done|done|]. rewrite Hex. vm_compute in Hrun. by injection Hrun as <-.
Defined.
(** A pool of no threads drops what is posted. *)
Lemma no_threads (v : Z) :
  match run [EPost v None; EDestroy] (construct (BlockingQueue.make false) 0) with
  | Some p => stuck p ∧ joined p = true ∧ executed p = [] ∧ posted p = [v]
  | None => False
  end.
Proof. done. Qed.

(** The loop compares its [size_t] with the [int]: -1 threads are 2^64 - 1. *)
Lemma negative_threads : u64 (-1) = 2 ^ 64 - 1.
Proof. done. Qed.
End ThreadPool.
