(* ===== verification/NetTimer.v ===== *)
(** The timer of the reactor, network_timer/Timer.h: a [std::multimap] from
    expiry times to nodes.

    Nodes are objects of [nodes], named by the order of their allocation.  The
    multimap is the list of its elements in order; an iterator is the node of
    the element it is at.  A callback is a list of calls of the timer, which
    may depend on the timer's state; the clock is the sequence of its readings. *)
From S2P Require Import Prelude.

Module NetTimer.
Section timer.
(** The function objects, and the clock of the n-th call of GetCurrentTime. *)
Context {C : Type} (clock : nat → Z).

Record TimerNode := Node { timeout_ : Z; callback_ : C }.
(** [reads] counts the readings of the clock, [fired] lists the nodes whose
    callback was called. *)
Record Timer := mkTimer {
  timer_map_ : list (Z * nat); nodes : list TimerNode; reads : nat; fired : list nat }.

Definition construct : Timer := mkTimer [] [] 0 [].

Definition with_map (m : list (Z * nat)) (t : Timer) : Timer := mkTimer m (nodes t) (reads t) (fired t).

Definition GetCurrentTime : prog Timer Z := λ t,
  Done (u64 (clock (reads t)), mkTimer (timer_map_ t) (nodes t) (S (reads t)) (fired t)).

(** [multimap::insert]: behind the elements with an equal key. *)
Fixpoint insert (x : Z * nat) (m : list (Z * nat)) : list (Z * nat) :=
  match m with
  | [] => [x]
  | y :: m' => if decide (x.1 < y.1) then x :: m else y :: insert x m'
  end.

(** [emplace_hint] before the end, which the callee uses if it is right. *)
Definition emplace_hint_end (x : Z * nat) (m : list (Z * nat)) : list (Z * nat) :=
  match last m with
  | Some y => if decide (x.1 < y.1) then insert x m else m ++ [x]
  | None => [x]
  end.

(** [new] does not fail; the result is the node. *)
Definition AddTimeout (diff : Z) (cb : C) : prog Timer nat :=
  now ← GetCurrentTime;
  node ← gets (λ t, length (nodes t));
  let timeout := u64 (now + diff) in
  modS (λ t, mkTimer (timer_map_ t) (nodes t ++ [Node timeout cb]) (reads t) (fired t));;
  modS (λ t, with_map
    match last (timer_map_ t) with
    | None => insert (timeout, node) (timer_map_ t)
    | Some y => if decide (timeout < y.1) then insert (timeout, node) (timer_map_ t)
                else emplace_hint_end (timeout, node) (timer_map_ t)
    end t);;
  mret node.

(** [equal_range] and the search in it: the first element that has the node's
    key and the node.  The node itself is not deleted. *)
Fixpoint erase_first (key : Z) (node : nat) (m : list (Z * nat)) : list (Z * nat) :=
  match m with
  | [] => []
  | x :: m => if decide (x.1 = key ∧ x.2 = node) then m else x :: erase_first key node m
  end.
Definition DelTimeout (node : nat) : prog Timer unit :=
  n ← getsO (λ t, nodes t !! node);
  modS (λ t, with_map (erase_first (timeout_ n) node (timer_map_ t)) t).

(** The difference is a [uint64_t], the result an [int]. *)
Definition WaitTime : prog Timer Z :=
  iter ← gets (λ t, head (timer_map_ t));
  match iter with
  | None => mret (-1)
  | Some x =>
      now ← GetCurrentTime;
      let diff := u64 (x.1 - now) in
      mret (if decide (diff > 0) then i32 diff else 0)
  end.

(** What a callback does with the timer. *)
Inductive call := Add (diff : Z) (cb : C) | Del (node : nat).
Definition do_call (c : call) : prog Timer unit :=
  match c with
  | Add diff cb => AddTimeout diff cb;; mret ()
  | Del node => DelTimeout node
  end.
Context (body : C → Timer → list call).
Definition run_callback (node : nat) : prog Timer unit :=
  n ← getsO (λ t, nodes t !! node);
  calls ← gets (body (callback_ n));
  modS (λ t, mkTimer (timer_map_ t) (nodes t) (reads t) (fired t ++ [node]));;
  foldr (λ c k, do_call c;; k) (mret ()) calls.

(** [erase(iter)]: undefined if a callback has erased the element. *)
Fixpoint erase_iter (node : nat) (m : list (Z * nat)) : option (option (Z * nat) * list (Z * nat)) :=
  match m with
  | [] => None
  | x :: m =>
      if decide (x.2 = node) then Some (head m, m)
      else '(iter, m) ← erase_iter node m; Some (iter, x :: m)
  end.

Fixpoint handle_loop (fuel : nat) (iter : option (Z * nat)) : prog Timer unit :=
  match fuel, iter with
  | _, None => mret ()
  | O, _ => out_of_fuel
  | S fuel, Some x =>
      now ← GetCurrentTime;
      if decide (x.1 ≤ now) then
        run_callback x.2;;
        r ← getsO (λ t, erase_iter x.2 (timer_map_ t));
        modS (with_map r.2);;
        handle_loop fuel r.1
      else mret ()
  end.
Definition HandleTimeout (fuel : nat) : prog Timer unit :=
  iter ← gets (λ t, head (timer_map_ t)); handle_loop fuel iter.

(** The destructor: the nodes it deletes. *)
Definition destroy (t : Timer) : list nat := (timer_map_ t).*2.

(** ** The multimap *)
Definition ordered (m : list (Z * nat)) : Prop := StronglySorted (λ x y, x.1 ≤ y.1) m.

Lemma insert_perm x m : insert x m ≡ₚ x :: m.
Proof. induction m as [|y m IH]; cbn; [done|]. case_decide; [done|]. rewrite IH. apply Permutation_swap. Qed.

Lemma insert_ordered x m : ordered m → ordered (insert x m).
Proof.
  unfold ordered. induction 1 as [|y m Hs IH Hall]; cbn; [by repeat constructor|]. case_decide.
  - constructor; [by constructor|]. constructor; [lia|]. eapply Forall_impl; [done|]. cbn. lia.
  - constructor; [done|]. rewrite insert_perm. constructor; [lia|done].
Qed.

Lemma insert_last x m : Forall (λ y, y.1 ≤ x.1) m → insert x m = m ++ [x].
Proof. induction 1 as [|y m Hy _ IH]; cbn; [done|]. rewrite decide_False by lia. by rewrite IH. Qed.

(** The hint only saves time. *)
Lemma emplace_hint_end_insert x m : ordered m → emplace_hint_end x m = insert x m.
Proof.
  intros Hm. unfold emplace_hint_end. destruct (last m) as [y|] eqn:Hlast; [|by apply last_None in Hlast as ->].
  case_decide; [done|]. symmetry. apply insert_last. apply last_Some in Hlast as [m' ->].
  apply Forall_forall. intros z [Hz|Hz]%elem_of_app; [|assert (z = y) as -> by set_solver; lia].
  pose proof (StronglySorted_app_1_elem_of _ _ _ z y Hm Hz) as Hzy. cbn in Hzy. specialize (Hzy ltac:(set_solver)). lia.
Qed.

Lemma filter_insert (P : Z * nat → Prop) `{∀ x, Decision (P x)} x m :
  ¬ P x → filter P (insert x m) = filter P m.
Proof.
  intros Hx. induction m as [|y m IH]; cbn -[filter]; [by rewrite filter_cons_False|].
  case_decide; [by rewrite filter_cons_False|]. rewrite !filter_cons. by rewrite IH.
Qed.

Record wf (t : Timer) : Prop := Wf {
  wf_ordered : ordered (timer_map_ t);
  wf_nodup : NoDup (timer_map_ t).*2;
  wf_nodes x : x ∈ timer_map_ t → ∃ n, nodes t !! x.2 = Some n ∧ timeout_ n = x.1;
}.

Lemma AddTimeout_run diff cb t : wf t →
  let x := (u64 (u64 (clock (reads t)) + diff), length (nodes t)) in
  let t' := mkTimer (insert x (timer_map_ t)) (nodes t ++ [Node x.1 cb]) (S (reads t)) (fired t) in
  AddTimeout diff cb t = Done (x.2, t') ∧ wf t'.
Proof.
  intros [Hord Hnd Hnodes]. cbv zeta. split.
  - cbv [AddTimeout GetCurrentTime mbind prog_bind gets modS mret prog_ret with_map]. cbn [timer_map_ nodes reads fired].
    do 3 f_equal. destruct (last (timer_map_ t)); [|done]. case_decide; [done|]. by apply emplace_hint_end_insert.
  - split; cbn.
    + by apply insert_ordered.
    + rewrite insert_perm. cbn. constructor; [|done]. intros (y & Hy & Hin)%list_elem_of_fmap.
      destruct (Hnodes y Hin) as (n & Hn%lookup_lt_Some & _). lia.
    + intros y. rewrite insert_perm. intros [->|Hy]%elem_of_cons; cbn.
      * rewrite lookup_app_r, Nat.sub_diag by lia. eauto.
      * destruct (Hnodes y Hy) as (n & Hn & Ht). exists n. split; [|done]. rewrite lookup_app_l; [done|]. by eapply lookup_lt_Some.
Qed.

Lemma erase_first_perm x m : x ∈ m → x :: erase_first x.1 x.2 m ≡ₚ m.
Proof.
  induction m as [|y m IH]; intros Hx; [set_solver|]. cbn. case_decide as Hd.
  - destruct x, y; cbn in *. destruct Hd; by subst.
  - assert (x ∈ m) by (apply elem_of_cons in Hx as [->|]; [tauto|done]). rewrite Permutation_swap. by rewrite IH.
Qed.
Lemma erase_first_not_in k node m : node ∉ m.*2 → erase_first k node m = m.
Proof. induction m as [|y m IH]; cbn; intros Hn; [done|]. rewrite decide_False by set_solver. rewrite IH; set_solver. Qed.

(** DelTimeout takes the node's element out, if it is still there. *)
Lemma DelTimeout_run node n t : wf t → nodes t !! node = Some n →
  ∃ t', DelTimeout node t = Done ((), t') ∧
    ((timeout_ n, node) ∈ timer_map_ t → timer_map_ t ≡ₚ (timeout_ n, node) :: timer_map_ t') ∧
    (node ∉ (timer_map_ t).*2 → t' = t) ∧ nodes t' = nodes t ∧ node ∉ (timer_map_ t').*2.
Proof.
  intros [Hord Hnd Hnodes] Hn. exists (with_map (erase_first (timeout_ n) node (timer_map_ t)) t).
  split; [by unfold DelTimeout; rewrite (getsO_bind _ _ t n)|]. cbn. split_and!.
  - intros Hin. by rewrite (erase_first_perm (timeout_ n, node)).
  - intros Hin. rewrite erase_first_not_in by done. by destruct t.
  - done.
  - destruct (decide (node ∈ (timer_map_ t).*2)) as [Hin|Hin]; [|by rewrite erase_first_not_in].
    apply list_elem_of_fmap in Hin as (y & -> & Hy). destruct (Hnodes y Hy) as (n' & Hn' & Hty).
    assert (n' = n) as -> by congruence. rewrite Hty.
    rewrite <-(erase_first_perm y _ Hy) in Hnd. cbn in Hnd. by apply NoDup_cons in Hnd as [? _].
Qed.

(** ** The wait *)
(** Right while the first timer is not due and less than 2^31 ms away. *)
Lemma WaitTime_run x m t : timer_map_ t = x :: m →
  let now := u64 (clock (reads t)) in
  ∃ t', WaitTime t = Done (if decide (u64 (x.1 - now) > 0) then i32 (u64 (x.1 - now)) else 0, t') ∧
    (now ≤ x.1 < now + 2 ^ 31 → x.1 < 2 ^ 64 → WaitTime t = Done (x.1 - now, t')).
Proof.
  intros Hm. cbv zeta. eexists. unfold WaitTime. rewrite gets_bind, Hm. cbn. split; [done|]. intros Hle Hx.
  assert (0 ≤ u64 (clock (reads t))) by (apply (wrap_range 64); lia).
  cbv [GetCurrentTime mbind prog_bind mret prog_ret]. rewrite u64_small by lia.
  case_decide; [by rewrite i32_small by lia|]. do 2 f_equal. lia.
Qed.

Lemma filter_ordered (P : Z * nat → Prop) `{∀ x, Decision (P x)} m : ordered m → ordered (filter P m).
Proof.
  unfold ordered. induction 1 as [|x m Hs IH Hall]; [constructor|]. rewrite filter_cons. case_decide; [|done].
  constructor; [done|]. rewrite Forall_forall in *. intros y [_ Hy]%list_elem_of_filter. by apply Hall.
Qed.

(** A part of the timers that are due by [hi], in order, begins with all that
    are due by [lo], if it has them. *)
Lemma prefix_of_due lo hi m F : lo ≤ hi → ordered m → F `prefix_of` filter (λ y, y.1 ≤ hi) m →
  filter (λ y, y.1 ≤ lo) F ≡ₚ filter (λ y, y.1 ≤ lo) m → filter (λ y, y.1 ≤ lo) m `prefix_of` F.
Proof.
  intros Hlh Hord [G HG] Hp.
  assert (filter (λ y, y.1 ≤ lo) m = filter (λ y, y.1 ≤ lo) F ++ filter (λ y, y.1 ≤ lo) G) as Hsplit.
  { rewrite <-filter_app, <-HG, list_filter_filter_l; [done|]. intros; lia. }
  assert (filter (λ y, y.1 ≤ lo) G = []) as HGnil.
  { apply nil_length_inv. apply (f_equal length) in Hsplit. rewrite length_app in Hsplit. apply Permutation_length in Hp. lia. }
  rewrite Hsplit, HGnil, app_nil_r. exists (filter (λ y, ¬ y.1 < lo + 1) F).
  assert (ordered F) as HF.
  { assert (ordered (filter (λ y, y.1 ≤ hi) m)) as Hf by (by apply filter_ordered).
    unfold ordered in Hf. rewrite HG in Hf. by eapply StronglySorted_app_1_l. }
  rewrite (StronglySorted_cut fst F (lo + 1) HF) at 1. f_equal. apply list_filter_iff. intros y. lia.
Qed.
(** What a round may call: timers that are due only after [hi], where the clock
    shows at least [lo]. *)
Definition later (lo hi : Z) (a : call) : Prop :=
  match a with Add diff _ => hi < lo + diff ∧ hi + diff < 2 ^ 64 | Del _ => False end.

Section round.
Context (lo hi : Z).
Hypothesis clock_range : ∀ n, 0 ≤ lo ≤ clock n ∧ clock n ≤ hi < 2 ^ 64.
Hypothesis body_later : ∀ c t, Forall (later lo hi) (body c t).

Lemma reading n : u64 (clock n) = clock n.
Proof. apply u64_small. specialize (clock_range n). lia. Qed.

(** The calls of a callback leave the current element and what is due alone. *)
Lemma calls_run cs x m t :
  Forall (later lo hi) cs → wf t → timer_map_ t = x :: m → x.1 ≤ hi →
  ∃ t' m' A, foldr (λ c k, do_call c;; k) (mret ()) cs t = Done ((), t') ∧ wf t' ∧
    timer_map_ t' = x :: m' ∧ m' ≡ₚ m ++ A ∧ Forall (λ y, hi < y.1) A ∧
    filter (λ y, y.1 ≤ lo) m' = filter (λ y, y.1 ≤ lo) m ∧ filter (λ y, y.1 ≤ hi) m' = filter (λ y, y.1 ≤ hi) m ∧
    fired t' = fired t ∧ nodes t `prefix_of` nodes t'.
Proof.
  intros Hcs. revert t m. induction Hcs as [|[diff cb|] cs Hc _ IH]; intros t m Hwf Hm Hx; cbn in *; [|destruct Hc as [Hc Hov]|done].
  { exists t, m, []. rewrite app_nil_r. by split_and!. }
  pose proof (clock_range (reads t)) as Hcl.
  destruct (AddTimeout_run diff cb t Hwf) as [Hrun Hwf']. rewrite reading, u64_small in Hrun, Hwf' by lia.
  set (y := (clock (reads t) + diff, length (nodes t))) in *. cbn zeta in Hrun, Hwf'.
  assert (hi < y.1) as Hy by (cbn; lia).
  edestruct (IH _ (insert y m) Hwf') as (t' & m' & A & Hfold & Hwf'' & Hm' & Hp & HA & Hlo & Hhi & Hf & Hn); [|done|].
  { cbn. rewrite Hm. cbn. rewrite decide_False by lia. done. }
  exists t', m', (y :: A). rewrite filter_insert in Hlo, Hhi by lia. split_and!; try done.
  - rewrite (prog_run _ _ (prog_assoc (AddTimeout diff cb) _ _)). by rewrite (bind_Done _ _ _ _ _ Hrun).
  - rewrite Hp, insert_perm. solve_Permutation.
  - by constructor.
  - etrans; [|done]. cbn. by exists [Node y.1 cb].
Qed.

Lemma wf_tail t x m : wf t → timer_map_ t = x :: m → wf (with_map m t).
Proof.
  intros [Hord Hnd Hnodes] Hm. rewrite Hm in *. split; cbn.
  - by inv Hord.
  - by inv Hnd.
  - intros y Hy. apply Hnodes. by right.
Qed.

Lemma iteration_run fuel x m t :
  wf t → timer_map_ t = x :: m → x.1 ≤ clock (reads t) →
  ∃ t' m' A, handle_loop (S fuel) (Some x) t = handle_loop fuel (head m') t' ∧ wf t' ∧
    timer_map_ t' = m' ∧ m' ≡ₚ m ++ A ∧ Forall (λ y, hi < y.1) A ∧
    filter (λ y, y.1 ≤ lo) m' = filter (λ y, y.1 ≤ lo) m ∧ filter (λ y, y.1 ≤ hi) m' = filter (λ y, y.1 ≤ hi) m ∧
    fired t' = fired t ++ [x.2] ∧ nodes t `prefix_of` nodes t'.
Proof.
  intros Hwf Hm Hx. pose proof (clock_range (reads t)) as Hcl.
  destruct (wf_nodes t Hwf x) as (n & Hn & _); [rewrite Hm; left|].
  set (t1 := mkTimer (timer_map_ t) (nodes t) (S (reads t)) (fired t)).
  set (t2 := mkTimer (timer_map_ t1) (nodes t1) (reads t1) (fired t1 ++ [x.2])).
  assert (wf t2) as Hwf2 by (by destruct Hwf).
  destruct (calls_run (body (callback_ n) t1) x m t2) as (t' & m' & A & Hfold & Hwf' & Hm' & Hp & HA & Hlo & Hhi & Hf & Hnn); [apply body_later|done|done|lia|].
  exists (with_map m' t'), m', A. split_and!; try done; [|by eapply wf_tail].
  cbn [handle_loop]. rewrite (bind_Done GetCurrentTime _ t (clock (reads t)) t1) by (unfold GetCurrentTime; by rewrite reading).
  rewrite decide_True by done. rewrite (bind_Done _ _ _ () t').
  2:{ unfold run_callback. rewrite (getsO_bind _ _ t1 n) by done. rewrite gets_bind, modS_bind. done. }
  rewrite (getsO_bind _ _ t' (head m', m')); [done|]. rewrite Hm'. cbn. by rewrite decide_True.
Qed.

Lemma handle_loop_run fuel t :
  wf t → (length (filter (λ y, y.1 ≤ hi)%Z (timer_map_ t)) < fuel)%nat →
  ∃ t' F A, handle_loop fuel (head (timer_map_ t)) t = Done ((), t') ∧ wf t' ∧
    fired t' = fired t ++ F.*2 ∧ F `prefix_of` filter (λ y, y.1 ≤ hi) (timer_map_ t) ∧
    Forall (λ y, lo < y.1) (timer_map_ t') ∧ Forall (λ y, hi < y.1) A ∧ F ++ timer_map_ t' ≡ₚ timer_map_ t ++ A ∧
    nodes t `prefix_of` nodes t'.
Proof.
  revert t. induction fuel as [|fuel IH]; intros t Hwf Hfuel; [lia|]. pose proof (clock_range (reads t)) as Hcl.
  destruct (timer_map_ t) as [|x m] eqn:Hm.
  { exists t, [], []. cbn. rewrite Hm, app_nil_r. by split_and!. }
  destruct (decide (x.1 ≤ clock (reads t))) as [Hx|Hx].
  - destruct (iteration_run fuel x m t Hwf Hm Hx) as (t1 & m' & A & Hrun & Hwf1 & Hm1 & Hp & HA & Hlo & Hhi & Hf & Hn).
    destruct (IH t1 Hwf1) as (t' & F & A' & Hrun' & Hwf' & Hf' & HF & Hrest & HA' & Hp' & Hn').
    { rewrite Hm1, Hhi. rewrite filter_cons_True in Hfuel by lia. cbn in Hfuel. lia. }
    rewrite Hm1 in *. exists t', (x :: F), (A ++ A'). change (head (x :: m)) with (Some x). rewrite Hrun, Hrun'. split_and!; try done.
    + rewrite Hf', Hf, <-(assoc (++)). done.
    + rewrite filter_cons_True by lia. apply prefix_cons. by rewrite <-Hhi.
    + by apply Forall_app.
    + cbn. rewrite Hp', Hp, <-(assoc (++)). done.
    + by etrans.
  - exists (mkTimer (timer_map_ t) (nodes t) (S (reads t)) (fired t)), [], [].
    cbn [handle_loop head]. rewrite (bind_Done GetCurrentTime _ t (clock (reads t)) (mkTimer (timer_map_ t) (nodes t) (S (reads t)) (fired t))) by (unfold GetCurrentTime; by rewrite reading).
    rewrite decide_False by done. cbn. rewrite Hm, !app_nil_r. split_and!; try done; [rewrite <-Hm; by destruct Hwf|apply prefix_nil|].
    pose proof (wf_ordered t Hwf) as Hord. rewrite Hm in Hord. inv Hord.
    constructor; [lia|]. eapply Forall_impl; [done|]. cbn. lia.
Qed.
End round.

(** A round of HandleTimeout ends; it calls timers in the order of the
    multimap, every timer that was due when the round began and none that is
    due only after it ended, each once, and erases exactly these; what the
    callbacks add stays for a later round. *)
Theorem HandleTimeout_spec lo hi t :
  (∀ n, 0 ≤ lo ≤ clock n ∧ clock n ≤ hi < 2 ^ 64) → (∀ c t, Forall (later lo hi) (body c t)) → wf t →
  ∃ t' F A, HandleTimeout (S (length (timer_map_ t))) t = Done ((), t') ∧ wf t' ∧
    fired t' = fired t ++ F.*2 ∧
    F `prefix_of` filter (λ y, y.1 ≤ hi) (timer_map_ t) ∧
    filter (λ y, y.1 ≤ lo) (timer_map_ t) `prefix_of` F ∧
    F ++ timer_map_ t' ≡ₚ timer_map_ t ++ A ∧ Forall (λ y, hi < y.1) A.
Proof.
  intros Hclock Hbody Hwf.
  destruct (handle_loop_run lo hi Hclock Hbody (S (length (timer_map_ t))) t Hwf) as
    (t' & F & A & Hrun & Hwf' & Hf & HF & Hrest & HA & Hp & _); [apply le_n_S, length_filter|].
  exists t', F, A. split_and!; try done. pose proof (Hclock 0%nat) as Hr.
  apply (prefix_of_due lo hi); [lia|by apply wf_ordered|done|].
  pose proof (filter_Permutation (λ y, y.1 ≤ lo) _ _ Hp) as Hpf. rewrite !filter_app in Hpf.
  rewrite (filter_none _ (timer_map_ t')), (filter_none _ A), !app_nil_r in Hpf; [done| |].
  - intros y Hy. rewrite Forall_forall in HA. specialize (HA y Hy). cbn in HA. lia.
  - intros y Hy. rewrite Forall_forall in Hrest. specialize (Hrest y Hy). cbn in Hrest. lia.
Qed.
End timer.
Arguments Timer : clear implicits.
Arguments call : clear implicits.

(** Callback 0 adds another timer, callback 1 erases node 0, others do
    nothing. *)
Definition demo_body (c : Z) (_ : Timer Z) : list (call Z) :=
  if decide (c = 0) then [Add 50 7] else if decide (c = 1) then [Del 0] else [].
Definition demo_add (clock : nat → Z) : prog (Timer Z) unit :=
  AddTimeout clock 10 0;; AddTimeout clock 30 2;; AddTimeout clock 10 3;; mret ().
Definition demo_state : Timer Z :=
  match demo_add (λ _, 100) construct with Done (_, t) => t | _ => construct end.
Lemma HandleTimeout_spec_witness :
  ∃ t', HandleTimeout (λ _, 115) demo_body 4 demo_state = Done ((), t') ∧
    fired t' = [0; 2]%nat ∧ timer_map_ t' = [(130, 1%nat); (165, 3%nat)].
Proof.
  destruct (HandleTimeout_spec (λ _, 115) (λ c t, if decide (c = 1) then [] else demo_body c t) 115 115 demo_state)
    as (t' & F & A & Hrun & _).
  - intros _. lia.
  - intros c t. case_decide; [by constructor|]. unfold demo_body. rewrite (decide_False (P := c = 1)) by done.
    case_decide; repeat constructor; cbn; lia.
  - split.
    + unfold ordered. assert (timer_map_ demo_state = [(110, 0%nat); (110, 2%nat); (130, 1%nat)]) as -> by done.
      repeat constructor; cbn; lia.
    + by apply (bool_decide_unpack (NoDup [0%nat; 2%nat; 1%nat])).
    + intros x Hx. repeat (apply elem_of_cons in Hx as [->|Hx]; [eexists; by split|]). by apply elem_of_nil in Hx.
  - exists t'. vm_compute in Hrun. injection Hrun as <-. split_and!; done.
Defined.

(** A timer that came due since the round makes WaitTime negative, which
    epoll_wait takes for no limit. *)
Lemma wait_overdue :
  match WaitTime (λ _, 115) demo_state with Done (r, _) => r = -5 | _ => False end.
Proof. by vm_compute. Qed.

(** A callback that deletes its own timer leaves the loop with an invalid
    iterator. *)
Lemma self_delete :
  (AddTimeout (λ _, 100) 10 1;; HandleTimeout (λ _, 115) demo_body 4) (construct (C := Z)) = Undef.
Proof. by vm_compute. Qed.

(** The node of a timer that fired or was deleted is never freed: the
    destructor deletes what is in the map. *)
Lemma fired_leaks :
  match (demo_add (λ _, 100);; DelTimeout 1;; HandleTimeout (λ _, 115) demo_body 4) construct with
  | Done (_, t) => (length (nodes t) = 4%nat) ∧ destroy t = [3]%nat
  | _ => False
  end.
Proof. by vm_compute. Qed.
End NetTimer.

