(* ===== verification/DbTimer.v ===== *)
(** The timers of the database library, mysql-conn-pool/dbimpl/Timer.h: the
    millisecond clock and the three countdown structs. *)
From S2P Require Import Prelude.

Module DbTimer.

(** ** The clock *)
(** The static of GetApplicationStartTime is the first argument; [now] is the
    reading (in ns) that initialises it. *)
Definition GetApplicationStartTime (now : Z) (ApplicationStartTime : option Z) : Z * option Z :=
  let start := default now ApplicationStartTime in (start, Some start).
(** duration_cast rounds towards 0. *)
Definition getMSTime (now now_start : Z) (st : option Z) : Z * option Z :=
  let '(start, st) := GetApplicationStartTime now_start st in (u32 (Z.quot (now - start) 1000000), st).

Definition getMSTimeDiff (oldMSTime newMSTime : Z) : Z :=
  if decide (oldMSTime > newMSTime) then u32 (u32 (U32_MAX - oldMSTime) + newMSTime)
  else u32 (newMSTime - oldMSTime).
Definition getMSTimeDiff_point (oldMSTime newTime now_start : Z) (st : option Z) : Z * option Z :=
  let '(start, st) := GetApplicationStartTime now_start st in
  (getMSTimeDiff oldMSTime (u32 (Z.quot (newTime - start) 1000000)), st).
Definition GetMSTimeDiffToNow (oldMSTime now now_start : Z) (st : option Z) : Z * option Z :=
  let '(t, st) := getMSTime now now_start st in (getMSTimeDiff oldMSTime t, st).

(** The difference modulo 2^32, less one where the clock has wrapped: 2^32 is
    taken for 2^32 - 1. *)
Lemma getMSTimeDiff_spec o n : 0 ≤ o < 2 ^ 32 → 0 ≤ n < 2 ^ 32 →
  getMSTimeDiff o n = if decide (o ≤ n) then u32 (n - o) else u32 (n - o) - 1.
Proof. intros. unfold getMSTimeDiff. repeat case_decide; try lia. word_lia. Qed.

Lemma getMSTimeDiff_wrap : getMSTimeDiff U32_MAX 0 = 0.
Proof. done. Qed.

(** A measurement across less than one wrap of the clock. *)
Lemma GetMSTimeDiffToNow_spec start t1 t2 :
  start ≤ t1 → t1 ≤ t2 → t2 - start < 1000000 * 2 ^ 32 →
  (GetMSTimeDiffToNow (getMSTime t1 t1 (Some start)).1 t2 t2 (Some start)).1 =
  (t2 - start) / 1000000 - (t1 - start) / 1000000.
Proof.
  intros. unfold GetMSTimeDiffToNow, getMSTime, GetApplicationStartTime. cbv [default fst snd from_option id].
  rewrite !Z.quot_div_nonneg by lia.
  assert ((t1 - start) / 1000000 ≤ (t2 - start) / 1000000) by (apply Z.div_le_mono; lia).
  assert ((t2 - start) / 1000000 < 2 ^ 32) by (apply Z.div_lt_upper_bound; lia).
  assert (0 ≤ (t1 - start) / 1000000) by (apply Z.div_pos; lia).
  rewrite !u32_small by lia. rewrite getMSTimeDiff_spec by lia. rewrite decide_True by lia. apply u32_small. lia.
Qed.

(** ** IntervalTimer *)
(** [time_t] is a signed 64-bit integer; [None] where an operation overflows
    or divides by 0. *)
Definition is_i64 (x : Z) : bool := bool_decide (- 2 ^ 63 ≤ x < 2 ^ 63).

Record IntervalTimer := Interval { _interval : Z; _current : Z }.
Definition make_interval : IntervalTimer := Interval 0 0.
Definition Update (diff : Z) (t : IntervalTimer) : option IntervalTimer :=
  let c := _current t + diff in
  if is_i64 c then Some (Interval (_interval t) (if decide (c < 0) then 0 else c)) else None.
Definition Passed (t : IntervalTimer) : bool := bool_decide (_interval t ≤ _current t).
Definition Reset (t : IntervalTimer) : option IntervalTimer :=
  if decide (_interval t ≤ _current t) then
    if decide (_interval t = 0) then None else Some (Interval (_interval t) (Z.rem (_current t) (_interval t)))
  else Some t.
Definition SetCurrent (c : Z) (t : IntervalTimer) : IntervalTimer := Interval (_interval t) c.
Definition SetInterval (i : Z) (t : IntervalTimer) : IntervalTimer := Interval i (_current t).
Definition GetInterval (t : IntervalTimer) : Z := _interval t.
Definition GetCurrent (t : IntervalTimer) : Z := _current t.

(** A timer that is updated, and reset whenever it has passed, keeps the time
    since the last full interval. *)
Definition tick (diff : Z) (t : IntervalTimer) : option IntervalTimer :=
  t ← Update diff t; if Passed t then Reset t else Some t.
Lemma tick_spec diff t :
  0 < _interval t → 0 ≤ _current t < _interval t → 0 ≤ diff → _current t + diff < 2 ^ 63 →
  tick diff t = Some (Interval (_interval t) ((_current t + diff) mod _interval t)).
Proof.
  destruct t as [i c]. cbn. intros Hi Hc Hd Hmax. unfold tick, Update, is_i64. cbn.
  rewrite bool_decide_eq_true_2 by lia. cbn. rewrite (decide_False (P := c + diff < 0)) by lia.
  unfold Passed, Reset. cbn. case_bool_decide.
  - rewrite decide_True, decide_False, Z.rem_mod_nonneg by lia. done.
  - rewrite Z.mod_small by lia. done.
Qed.

Fixpoint ticks (ds : list Z) (t : IntervalTimer) : option IntervalTimer :=
  match ds with [] => Some t | d :: ds => t ← tick d t; ticks ds t end.

Lemma ticks_spec i ds a :
  0 < i < 2 ^ 62 → Forall (λ d, 0 ≤ d < 2 ^ 62) ds →
  ticks ds (Interval i (a mod i)) = Some (Interval i ((a + foldr Z.add 0 ds) mod i)).
Proof.
  intros Hi Hds. revert a. induction Hds as [|d ds Hd _ IH]; intros a; cbn [ticks foldr]; [by rewrite Z.add_0_r|].
  pose proof (Z.mod_pos_bound a i). rewrite tick_spec by (cbn; lia). cbn [mbind option_bind _interval _current].
  rewrite Zplus_mod_idemp_l, IH. do 3 f_equal. lia.
Qed.

(** An interval timer never drifts: after any updates, with a Reset
    whenever it has passed, it holds the total time modulo the interval. *)
Theorem interval_no_drift i ds :
  0 < i < 2 ^ 62 → Forall (λ d, 0 ≤ d < 2 ^ 62) ds →
  ticks ds (SetInterval i make_interval) = Some (Interval i (foldr Z.add 0 ds mod i)).
Proof.
  intros Hi Hds. pose proof (ticks_spec i ds 0 Hi Hds) as Ht. by rewrite Z.mod_0_l in Ht by lia.
Qed.
Lemma interval_no_drift_witness :
  ticks [30; 80; 250] (SetInterval 100 make_interval) = Some (Interval 100 60).
Proof. apply (interval_no_drift 100 [30; 80; 250]); [lia|repeat constructor; lia]. Defined.

(** A timer without an interval has passed, and cannot be reset. *)
Lemma reset_no_interval : Passed make_interval = true ∧ Reset make_interval = None.
Proof. done. Qed.

(** ** TimeTracker *)
(** [Milliseconds] counts in 64 bits. *)
Record TimeTracker := Tracker { _expiryTime : Z }.
Definition make_tracker (expiry : Z) : TimeTracker := Tracker expiry.
Definition TrackerUpdate (diff : Z) (t : TimeTracker) : option TimeTracker :=
  if is_i64 (_expiryTime t - diff) then Some (Tracker (_expiryTime t - diff)) else None.
Definition TrackerPassed (t : TimeTracker) : bool := bool_decide (_expiryTime t ≤ 0).
Definition TrackerReset (expiry : Z) (t : TimeTracker) : TimeTracker := Tracker expiry.
Definition GetExpiry (t : TimeTracker) : Z := _expiryTime t.

(** ** PeriodicTimer *)
(** An [int32] and a [uint32] meet: the arithmetic is that of [uint32]. *)
Record PeriodicTimer := Periodic { i_period : Z; i_expireTime : Z }.
Definition SetPeriodic (period start_time : Z) : PeriodicTimer := Periodic period start_time.
Definition PeriodicUpdate (diff : Z) (t : PeriodicTimer) : bool * PeriodicTimer :=
  let e := i32 (u32 (i_expireTime t) - diff) in
  if decide (e > 0) then (false, Periodic (i_period t) e)
  else
    let step := if decide (i_period t > i32 diff) then u32 (i_period t) else diff in
    (true, Periodic (i_period t) (i32 (u32 e + step))).
(** [None] where an [int32] overflows. *)
Definition is_i32 (x : Z) : bool := bool_decide (- 2 ^ 31 ≤ x < 2 ^ 31).
Definition TUpdate (diff : Z) (t : PeriodicTimer) : option PeriodicTimer :=
  let e := i_expireTime t - diff in if is_i32 e then Some (Periodic (i_period t) e) else None.
Definition TPassed (t : PeriodicTimer) : bool := bool_decide (i_expireTime t ≤ 0).
Definition TReset (diff period : Z) (t : PeriodicTimer) : option PeriodicTimer :=
  let e := i_expireTime t + (if decide (period > diff) then period else diff) in
  if is_i32 e then Some (Periodic (i_period t) e) else None.

Lemma i32_signed x : - 2 ^ 31 ≤ x < 2 ^ 31 → i32 x = x.
Proof. intros. unfold i32. case_decide; word_lia. Qed.
Lemma i32_u32 x : i32 (u32 x) = i32 x.
Proof. unfold i32. by rewrite u32_idemp. Qed.

(** Within 31 bits: the timer passes when its time has come, and the next time
    is a period later, or [diff] later where [diff] is longer. *)
Lemma PeriodicUpdate_spec diff t :
  0 ≤ diff < 2 ^ 30 → 0 ≤ i_period t < 2 ^ 30 → 0 ≤ i_expireTime t < 2 ^ 30 →
  PeriodicUpdate diff t =
    if decide (diff < i_expireTime t) then (false, Periodic (i_period t) (i_expireTime t - diff))
    else (true, Periodic (i_period t) (i_expireTime t - diff + Z.max (i_period t) diff)).
Proof.
  intros Hd Hp He. unfold PeriodicUpdate. rewrite (u32_small (i_expireTime t)) by lia.
  rewrite (i32_signed (i_expireTime t - diff)), (i32_small diff), (u32_small (i_period t)) by lia.
  repeat case_decide; try lia; do 2 f_equal.
  - rewrite <-i32_u32, u32_add_l, i32_u32, i32_signed by lia. lia.
  - rewrite <-i32_u32, u32_add_l, i32_u32, i32_signed by lia. lia.
Qed.
End DbTimer.
