(* ===== verification/KeyList.v ===== *)
(** The skip list of atomic_lock/skiplist.h, which has one writer at a time and
    any number of readers that take no lock.

    An operation is a [prog] on the list; the body of a reader's loop is a
    definition of its own, a step with one atomic load, and so is the body of
    the loop of [Insert] that links a node, so that readers and the writer can
    be interleaved (ConcReader.v).  Every [assert] of the code is an [assertS]:
    that an operation is defined includes that none of them fails. *)
From S2P Require Import Prelude.

(** What the list needs of its [Comparator]: a strict weak order. *)
Class Comparator {K : Type} (compare_ : K → K → Z) := {
  compare_irrefl a : ¬ compare_ a a < 0;
  compare_trans a b c : compare_ a b < 0 → compare_ b c < 0 → compare_ a c < 0;
  compare_negtrans a b c : ¬ compare_ a b < 0 → ¬ compare_ b c < 0 → ¬ compare_ a c < 0;
  compare_opp a b : 0 < compare_ a b ↔ compare_ b a < 0;
}.

Module KeyList.
Section list.
Context {K : Type} (compare_ : K → K → Z).

(** The links of [next_]: [malloc] leaves them uninitialised, the outer
    [None]. *)
Record Node := mkNode { key : K; next_ : list (option (option ptr)) }.
Record SkipList := mkList {
  kMaxHeight_ : nat; kBranching_ : Z; kScaledInverseBranching_ : Z; head_ : ptr;
  max_height_ : nat; prev_ : list ptr; prev_height_ : nat; nodes : gmap ptr Node }.

Definition with_nodes m s := mkList (kMaxHeight_ s) (kBranching_ s) (kScaledInverseBranching_ s) (head_ s) (max_height_ s) (prev_ s) (prev_height_ s) m.
Definition with_prev p s := mkList (kMaxHeight_ s) (kBranching_ s) (kScaledInverseBranching_ s) (head_ s) (max_height_ s) p (prev_height_ s) (nodes s).
Definition with_max h s := mkList (kMaxHeight_ s) (kBranching_ s) (kScaledInverseBranching_ s) (head_ s) h (prev_ s) (prev_height_ s) (nodes s).
Definition with_prev_height h s := mkList (kMaxHeight_ s) (kBranching_ s) (kScaledInverseBranching_ s) (head_ s) (max_height_ s) (prev_ s) h (nodes s).

Definition node_key (x : ptr) : prog SkipList K := getsO (λ s, key <$> nodes s !! x).

(** [next_[n].load] and [next_[n].store]. *)
Definition next_of (m : gmap ptr Node) (x : ptr) (n : nat) : option (option ptr) :=
  nd ← m !! x; mjoin (next_ nd !! n).
Definition Next (x : ptr) (n : nat) : prog SkipList (option ptr) := getsO (λ s, next_of (nodes s) x n).
Definition set_next (x : ptr) (n : nat) (y : option ptr) (m : gmap ptr Node) : option (gmap ptr Node) :=
  nd ← m !! x;
  if decide (n < length (next_ nd))%nat then Some (<[x := mkNode (key nd) (<[n := Some y]> (next_ nd))]> m) else None.
Definition SetNext (x : ptr) (n : nat) (y : option ptr) : prog SkipList unit :=
  modO (λ s, m ← set_next x n y (nodes s); Some (with_nodes m s)).

Definition GetMaxHeight : prog SkipList nat := gets max_height_.
(** [mem] is what [malloc] returns. *)
Definition NewNode (mem : ptr) (k : K) (height : nat) : prog SkipList unit :=
  modS (λ s, with_nodes (<[mem := mkNode k (replicate height None)]> (nodes s)) s).

Definition Equal (a b : K) : bool := bool_decide (compare_ a b = 0).
Definition LessThan (a b : K) : bool := bool_decide (compare_ a b < 0).
Definition KeyIsAfterNode (k : K) (n : option ptr) : prog SkipList bool :=
  match n with
  | None => mret false
  | Some n => kn ← node_key n; mret (bool_decide (compare_ kn k < 0))
  end.

(** [x == head_ || KeyIsAfterNode(key, x)] *)
Definition before (x : ptr) (k : K) : prog SkipList bool :=
  h ← gets head_; if decide (x = h) then mret true else KeyIsAfterNode k (Some x).
(** [x == head_ || next == nullptr || KeyIsAfterNode(next->key, x)] *)
Definition sorted_link (x : ptr) (next : option ptr) : prog SkipList bool :=
  match next with None => mret true | Some y => k ← node_key y; before x k end.
Definition check (b : prog SkipList bool) : prog SkipList unit := b ← b; assertS (b = true).

(** ** Reading *)
(** A round of a search ends it ([inl]) or goes on ([inr]). *)
Definition position : Type := ptr * nat * option ptr.

Definition fge_step (k : K) (p : position) : prog SkipList (option ptr + position) :=
  let '(x, level, last_bigger) := p in
  next ← Next x level;
  check (sorted_link x next);;
  check (before x k);;
  cmp ← match next with
        | None => mret 1
        | Some y => if decide (next = last_bigger) then mret 1 else ky ← node_key y; mret (compare_ ky k)
        end;
  if decide (cmp = 0 ∨ (0 < cmp ∧ level = 0%nat)) then mret (inl next)
  else
    match next with
    | Some y => if decide (cmp < 0) then mret (inr (y, level, last_bigger)) else mret (inr (x, pred level, next))
    | None => mret (inr (x, pred level, next))
    end.

Fixpoint loop {P R} (step : P → prog SkipList (R + P)) (fuel : nat) (p : P) : prog SkipList R :=
  match fuel with
  | O => out_of_fuel
  | S fuel => r ← step p; match r with inl r => mret r | inr p => loop step fuel p end
  end.

Definition start : prog SkipList position :=
  h ← gets head_; l ← GetMaxHeight; mret (h, pred l, None).

Definition FindGreaterOrEqual (fuel : nat) (k : K) : prog SkipList (option ptr) :=
  p ← start; loop (fge_step k) fuel p.

(** FindLessThan also collects [prev[level]], here in front of those of the
    levels above. *)
Definition flt_step (k : K) (p : position * list ptr) : prog SkipList ((ptr * list ptr) + (position * list ptr)) :=
  let '(x, level, last_not_after, prev) := p in
  next ← Next x level;
  check (sorted_link x next);;
  check (before x k);;
  after ← (if decide (next = last_not_after) then mret false else KeyIsAfterNode k next);
  match next with
  | Some y =>
      if after : bool then mret (inr (y, level, last_not_after, prev))
      else if decide (level = 0%nat) then mret (inl (x, x :: prev))
      else mret (inr (x, pred level, next, x :: prev))
  | None =>
      if decide (level = 0%nat) then mret (inl (x, x :: prev))
      else mret (inr (x, pred level, next, x :: prev))
  end.
Definition FindLessThan (fuel : nat) (k : K) : prog SkipList (ptr * list ptr) :=
  p ← start; loop (flt_step k) fuel (p, []).

Definition fl_step (p : ptr * nat) : prog SkipList (ptr + (ptr * nat)) :=
  let '(x, level) := p in
  next ← Next x level;
  match next with
  | None => if decide (level = 0%nat) then mret (inl x) else mret (inr (x, pred level))
  | Some y => mret (inr (y, level))
  end.
Definition FindLast (fuel : nat) : prog SkipList ptr :=
  h ← gets head_; l ← GetMaxHeight; loop fl_step fuel (h, pred l).

Definition ec_step (k : K) (p : ptr * nat * Z) : prog SkipList (Z + (ptr * nat * Z)) :=
  let '(x, level, count) := p in
  check (before x k);;
  next ← Next x level;
  smaller ← KeyIsAfterNode k next;
  match next with
  | Some y =>
      if smaller : bool then mret (inr (y, level, u64 (count + 1)))
      else if decide (level = 0%nat) then mret (inl count)
      else b ← gets kBranching_; mret (inr (x, pred level, u64 (count * b)))
  | None =>
      if decide (level = 0%nat) then mret (inl count)
      else b ← gets kBranching_; mret (inr (x, pred level, u64 (count * b)))
  end.
Definition EstimateCount (fuel : nat) (k : K) : prog SkipList Z :=
  h ← gets head_; l ← GetMaxHeight; loop (ec_step k) fuel (h, pred l, 0).

Definition Contains (fuel : nat) (k : K) : prog SkipList bool :=
  x ← FindGreaterOrEqual fuel k;
  match x with None => mret false | Some x => kx ← node_key x; mret (Equal k kx) end.

(** ** Writing *)
(** The asserts of the constructor; the head's key is [any], and [malloc]
    returns [mem]. *)
Definition construct (mem : ptr) (any : K) (max_height branching_factor : Z) : outcome SkipList :=
  let u16 := wrap 16 in
  let b := u16 branching_factor in
  if decide (b = 0) then Undef
  else if decide (0 < max_height ∧ u16 max_height = u32 max_height ∧ 0 < branching_factor ∧
                  b = u32 branching_factor ∧ 0 < U32_MAX / b) then
    let n := Z.to_nat (u16 max_height) in
    Done (mkList n b (U32_MAX / b) mem 1 (replicate n mem) 1 {[mem := mkNode any (replicate n (Some None))]})
  else Undef.

(** [rands] are the values of [RANDOM->Next()]. *)
Fixpoint random_height (fuel : nat) (rands : list Z) (height : nat) : prog SkipList nat :=
  match fuel with
  | O => mret height
  | S fuel =>
      r ← getsO (λ _, head rands);
      b ← gets kScaledInverseBranching_;
      if decide (r < b) then random_height fuel (tail rands) (S height) else mret height
  end.
(** The loop runs while [height < kMaxHeight_]. *)
Definition RandomHeight (rands : list Z) : prog SkipList nat :=
  m ← gets kMaxHeight_;
  height ← random_height (m - 1) rands 1;
  assertS (0 < height ≤ m)%nat;;
  mret height.

Definition read_prev (i : nat) : prog SkipList ptr := getsO (λ s, prev_ s !! i).
Definition write_prev (i : nat) (x : ptr) : prog SkipList unit :=
  modO (λ s, if decide (i < length (prev_ s))%nat then Some (with_prev (<[i := x]> (prev_ s)) s) else None).
(** [for (int i = from; i < from + n; i++) prev_[i] = x;] *)
Fixpoint fill_prev (n from : nat) (x : ptr) : prog SkipList unit :=
  match n with O => mret () | S n => write_prev from x;; fill_prev n (S from) x end.

(** [prev_[0..]] as FindLessThan has filled it. *)
Definition store_prev (ps : list ptr) : prog SkipList unit :=
  modO (λ s, if decide (length ps ≤ length (prev_ s))%nat then Some (with_prev (ps ++ drop (length ps) (prev_ s)) s) else None).

(** The first part of Insert: [prev_[0..max_height_-1]] become the
    predecessors of [key]. *)
Definition find_prev (fuel : nat) (k : K) : prog SkipList unit :=
  p0 ← read_prev 0;
  next ← Next p0 0;
  after ← KeyIsAfterNode k next;
  bef ← before p0 k;
  if negb after && bef then
    h ← gets head_;
    ph ← gets prev_height_;
    mh ← GetMaxHeight;
    assertS (p0 ≠ h ∨ (ph = 1%nat ∧ mh = 1%nat));;
    fill_prev (ph - 1) 1 p0
  else
    r ← FindLessThan fuel k;
    store_prev r.2.

Definition not_equal_next (k : K) : prog SkipList bool :=
  p0 ← read_prev 0;
  next ← Next p0 0;
  match next with None => mret true | Some y => ky ← node_key y; mret (negb (Equal k ky)) end.

Definition raise_height (height : nat) : prog SkipList unit :=
  mh ← GetMaxHeight;
  if decide (mh < height)%nat then
    h ← gets head_;
    fill_prev (height - mh) mh h;;
    modS (with_max height)
  else mret ().

(** One round of the linking loop: the new node gets its link, then it is
    published. *)
Definition init_link (x : ptr) (i : nat) : prog SkipList unit :=
  p ← read_prev i; next ← Next p i; SetNext x i next.
Definition publish (x : ptr) (i : nat) : prog SkipList unit :=
  p ← read_prev i; SetNext p i (Some x).
Definition link_level (x : ptr) (i : nat) : prog SkipList unit :=
  init_link x i;; publish x i.
Fixpoint link_levels (n i : nat) (x : ptr) : prog SkipList unit :=
  match n with O => mret () | S n => link_level x i;; link_levels n (S i) x end.

(** All that precedes the publication of the new node. *)
Definition prepare (fuel : nat) (mem : ptr) (rands : list Z) (k : K) : prog SkipList nat :=
  find_prev fuel k;;
  check (not_equal_next k);;
  height ← RandomHeight rands;
  raise_height height;;
  NewNode mem k height;;
  mret height.
Definition finish (x : ptr) (height : nat) : prog SkipList unit :=
  write_prev 0 x;; modS (with_prev_height height).

Definition Insert (fuel : nat) (mem : ptr) (rands : list Z) (k : K) : prog SkipList unit :=
  height ← prepare fuel mem rands k;
  link_levels height 0 mem;;
  finish mem height.

(** ** Iterators *)
(** [node_] of an iterator over the list in the state. *)
Definition Iterator : Type := option ptr.
Definition SetList : Iterator := None.
Definition Valid (it : Iterator) : bool := bool_decide (is_Some it).
Definition iter_key (it : Iterator) : prog SkipList K :=
  match it with Some x => node_key x | None => undef end.
Definition iter_Next (it : Iterator) : prog SkipList Iterator :=
  match it with Some x => Next x 0 | None => undef end.
Definition not_head (x : ptr) : prog SkipList Iterator :=
  h ← gets head_; mret (if decide (x = h) then None else Some x).
Definition Prev (fuel : nat) (it : Iterator) : prog SkipList Iterator :=
  k ← iter_key it; r ← FindLessThan fuel k; not_head r.1.
Definition Seek (fuel : nat) (target : K) : prog SkipList Iterator := FindGreaterOrEqual fuel target.
Definition SeekToFirst : prog SkipList Iterator := h ← gets head_; Next h 0.
Definition SeekToLast (fuel : nat) : prog SkipList Iterator := x ← FindLast fuel; not_head x.
(** The loop of SeekForPrev, [n] rounds at most. *)
Fixpoint retreat (n fuel : nat) (target : K) (it : Iterator) : prog SkipList Iterator :=
  match it with
  | None => mret None
  | Some x =>
      match n with
      | O => out_of_fuel
      | S n =>
          kx ← node_key x;
          if LessThan target kx then it ← Prev fuel (Some x); retreat n fuel target it else mret it
      end
  end.
Definition SeekForPrev (fuel : nat) (target : K) : prog SkipList Iterator :=
  it ← Seek fuel target;
  it ← match it with None => SeekToLast fuel | Some _ => mret it end;
  retreat (S fuel) fuel target it.

(** ** Order *)
Context `{!Comparator compare_}.
Definition lt (a b : K) : Prop := compare_ a b < 0.
#[local] Instance lt_dec a b : Decision (lt a b) := ltac:(unfold lt; apply _).
Lemma lt_irrefl a : ¬ lt a a.
Proof. apply compare_irrefl. Qed.
Lemma lt_trans a b c : lt a b → lt b c → lt a c.
Proof. apply compare_trans. Qed.
Lemma le_lt_trans a b c : ¬ lt b a → lt b c → lt a c.
Proof. intros Hba Hbc. destruct (decide (lt a c)) as [|Hac]; [done|]. by destruct (compare_negtrans _ _ _ Hba Hac). Qed.
Lemma lt_le_trans a b c : lt a b → ¬ lt c b → lt a c.
Proof. intros Hab Hcb. destruct (decide (lt a c)) as [|Hac]; [done|]. by destruct (compare_negtrans _ _ _ Hac Hcb). Qed.
Lemma lt_asym a b : lt a b → ¬ lt b a.
Proof. intros H1 H2. by apply (lt_irrefl a), (lt_trans a b a). Qed.
Lemma compare_pos a b : 0 < compare_ a b ↔ lt b a.
Proof. apply compare_opp. Qed.
Lemma compare_zero a b : compare_ a b = 0 ↔ ¬ lt a b ∧ ¬ lt b a.
Proof. pose proof (compare_pos a b). unfold lt in *. lia. Qed.

(** ** The list a skip list stands for *)
(** A node, its key, and the number of levels it is linked in. *)
Record elem := Elem { eptr : ptr; ekey : K; eheight : nat }.
Implicit Types (e : elem) (L : list elem) (q : option elem).

Definition sorted L : Prop := StronglySorted (λ a b, lt (ekey a) (ekey b)) L.

Lemma head_filter_None (P : elem → Prop) `{∀ e, Decision (P e)} L :
  head (filter P L) = None ↔ ∀ e, e ∈ L → ¬ P e.
Proof.
  split.
  - intros Hh e He HP. destruct (filter P L) eqn:Hf; [|done]. assert (e ∈ filter P L) as Hin by (by apply list_elem_of_filter). rewrite Hf in Hin. by apply elem_of_nil in Hin.
  - intros Hall. by rewrite filter_none.
Qed.

(** The first element of a sorted list that satisfies [P] is its least. *)
Lemma head_filter_Some (P : elem → Prop) `{∀ e, Decision (P e)} L e : sorted L →
  head (filter P L) = Some e ↔ e ∈ L ∧ P e ∧ ∀ e', e' ∈ L → P e' → e' = e ∨ lt (ekey e) (ekey e').
Proof.
  induction 1 as [|a L Hs IH Hall]; [set_solver|]. rewrite Forall_forall in Hall. rewrite filter_cons. case_decide as HP; cbn.
  - split.
    + intros [= ->]. split_and!; [by left|done|]. intros e' [->|He']%elem_of_cons _; auto.
    + intros (He & HPe & Hmin). destruct (Hmin a) as [->|Hlt]; [by left|done|done|].
      apply elem_of_cons in He as [->|He]; [done|]. specialize (Hall e He). by destruct (lt_asym _ _ Hlt).
  - rewrite IH. split.
    + intros (He & HPe & Hmin). split_and!; [by right|done|]. intros e' [->|He']%elem_of_cons HP'; auto. done.
    + intros (He & HPe & Hmin). apply elem_of_cons in He as [->|He]; [done|]. split_and!; [done..|].
      intros e' He' HP'. apply Hmin; [by right|done].
Qed.

Lemma sorted_total L e e' : sorted L → e ∈ L → e' ∈ L → e = e' ∨ lt (ekey e) (ekey e') ∨ lt (ekey e') (ekey e).
Proof.
  induction 1 as [|a L Hs IH Hall]; [set_solver|]. rewrite Forall_forall in Hall.
  intros [->|He]%elem_of_cons [->|He']%elem_of_cons; auto.
Qed.

(** A position: the head, or an element. *)
Definition ptr_of (s : SkipList) q : ptr := match q with None => head_ s | Some e => eptr e end.
Definition after q e : Prop := match q with None => True | Some e0 => lt (ekey e0) (ekey e) end.
#[local] Instance after_dec q e : Decision (after q e) := ltac:(destruct q; cbn; apply _).
Definition beforeb q (k : K) : bool := match q with None => true | Some e => bool_decide (lt (ekey e) k) end.
Definition succ L (i : nat) q : option elem := head (filter (λ e, (i < eheight e)%nat ∧ after q e) L).
Definition valid (s : SkipList) L q (i : nat) : Prop :=
  match q with None => (i < kMaxHeight_ s)%nat | Some e => e ∈ L ∧ (i < eheight e)%nat end.

Record rep (s : SkipList) L : Prop := Rep {
  rep_sorted : sorted L;
  rep_head : head_ s ∉ eptr <$> L;
  rep_nodup : NoDup (eptr <$> L);
  rep_key e : e ∈ L → key <$> nodes s !! eptr e = Some (ekey e);
  rep_next q i : valid s L q i → next_of (nodes s) (ptr_of s q) i = Some (eptr <$> succ L i q);
  rep_max : (1 ≤ max_height_ s ≤ kMaxHeight_ s)%nat;
  rep_height e : e ∈ L → (1 ≤ eheight e ≤ max_height_ s)%nat;
}.

Lemma construct_rep mem any h b s : h < 2 ^ 31 → construct mem any h b = Done s → rep s [].
Proof.
  unfold construct. intros Hmax. case_decide; [done|]. case_decide as Hc; [|done]. intros [= <-].
  destruct Hc as (H0 & H1 & _). rewrite u32_small in H1 by lia. rewrite H1.
  split; cbn; try (set_solver || lia || constructor).
  intros [e|] i; cbn; [set_solver|]. intros Hi. unfold next_of. rewrite lookup_singleton_eq. cbn.
  by rewrite lookup_replicate_2 by lia.
Qed.

(** ** The reads *)
Section reads.
Context {s : SkipList} {L : list elem} (R : rep s L).

Lemma succ_Some i q e : succ L i q = Some e ↔
  e ∈ L ∧ (i < eheight e)%nat ∧ after q e ∧
  ∀ e', e' ∈ L → (i < eheight e')%nat → after q e' → e' = e ∨ lt (ekey e) (ekey e').
Proof. unfold succ. rewrite head_filter_Some by apply R. naive_solver. Qed.
Lemma succ_None i q : succ L i q = None ↔ ∀ e, e ∈ L → (i < eheight e)%nat → ¬ after q e.
Proof. unfold succ. rewrite head_filter_None. naive_solver. Qed.

Lemma node_key_run e : e ∈ L → node_key (eptr e) s = Done (ekey e, s).
Proof. intros He. apply getsO_Done. by apply R. Qed.
Lemma Next_run q i : valid s L q i → Next (ptr_of s q) i s = Done (eptr <$> succ L i q, s).
Proof. intros Hv. apply getsO_Done. by apply R. Qed.

Lemma eptr_inj e e' : e ∈ L → e' ∈ L → eptr e = eptr e' → e = e'.
Proof.
  intros He He' Heq. pose proof (rep_nodup s L R) as Hnd.
  apply list_elem_of_lookup in He as [i Hi]. apply list_elem_of_lookup in He' as [j Hj].
  assert (i = j) as ->; [|congruence].
  apply (NoDup_lookup _ i j (eptr e) Hnd); rewrite list_lookup_fmap; [by rewrite Hi|rewrite Hj; cbn; congruence].
Qed.
Lemma eptr_head e : e ∈ L → eptr e ≠ head_ s.
Proof. intros He Heq. apply (rep_head s L R). rewrite <-Heq. by apply list_elem_of_fmap_2. Qed.
Lemma ptr_of_inj q q' i : valid s L q i → valid s L q' i → ptr_of s q = ptr_of s q' → q = q'.
Proof.
  destruct q as [e|], q' as [e'|]; cbn; intros Hv Hv' Heq; try done.
  - f_equal. apply eptr_inj; tauto.
  - by destruct (eptr_head e); [tauto|].
  - by destruct (eptr_head e'); [tauto|].
Qed.

Lemma before_run q i k : valid s L q i → before (ptr_of s q) k s = Done (beforeb q k, s).
Proof.
  intros Hv. unfold before. rewrite gets_bind. destruct q as [e|]; cbn in *; [|by rewrite decide_True].
  destruct Hv as [He _]. rewrite decide_False by (by apply eptr_head).
  by rewrite (bind_Done _ _ _ _ _ (node_key_run e He)).
Qed.
Lemma KeyIsAfterNode_run k (x : option elem) :
  (∀ e, x = Some e → e ∈ L) →
  KeyIsAfterNode k (eptr <$> x) s = Done (match x with Some e => bool_decide (lt (ekey e) k) | None => false end, s).
Proof. destruct x as [e|]; intros Hx; [|done]. cbn. by rewrite (bind_Done _ _ _ _ _ (node_key_run e (Hx e eq_refl))). Qed.

Lemma check_run m : m s = Done (true, s) → check m s = Done ((), s).
Proof. intros Hm. unfold check. by rewrite (bind_Done _ _ _ _ _ Hm). Qed.

(** The assertion that the lists are sorted never fails. *)
Lemma check_sorted q i : valid s L q i → check (sorted_link (ptr_of s q) (eptr <$> succ L i q)) s = Done ((), s).
Proof.
  intros Hv. apply check_run. destruct (succ L i q) as [e|] eqn:Hs; [|done]. cbn.
  apply succ_Some in Hs as (He & Hh & Haf & _).
  rewrite (bind_Done _ _ _ _ _ (node_key_run e He)), (before_run _ i) by done. f_equal. f_equal.
  destruct q; [|done]. by apply bool_decide_eq_true_2.
Qed.
Lemma check_before q i k : valid s L q i → beforeb q k = true → check (before (ptr_of s q) k) s = Done ((), s).
Proof. intros Hv Hb. apply check_run. by rewrite (before_run _ i), Hb. Qed.

Lemma start_run : start s = Done ((head_ s, pred (max_height_ s), None), s).
Proof. done. Qed.
Lemma start_valid : valid s L None (pred (max_height_ s)).
Proof. cbn. pose proof (rep_max s L R). lia. Qed.
Lemma valid_down q i : valid s L q i → valid s L q (pred i).
Proof. destruct q; cbn; [|lia]. intros []. split; [done|lia]. Qed.
End reads.

(** The list only grows: elements stay, and may become taller. *)
Definition grows L L' : Prop :=
  ∀ e, e ∈ L → ∃ e', e' ∈ L' ∧ eptr e' = eptr e ∧ ekey e' = ekey e ∧ (eheight e ≤ eheight e')%nat.
Lemma grows_refl L : grows L L.
Proof. intros e He. by exists e. Qed.

(** The first key that is not less than [k]. *)
Definition first_ge L (k : K) : option elem := head (filter (λ e, ¬ lt (ekey e) k) L).

(** What FindGreaterOrEqual keeps true of its variables. *)
Definition searching (s : SkipList) L (k : K) (p : position) : Prop :=
  let '(x, level, last_bigger) := p in
  ∃ q, x = ptr_of s q ∧ valid s L q level ∧ beforeb q k = true ∧
    match last_bigger with None => True | Some b => ∃ e, e ∈ L ∧ eptr e = b ∧ lt k (ekey e) end.
(** The elements still ahead, and the levels. *)
Definition ahead L (k : K) q (level : nat) : nat := length (filter (λ e, after q e) L) + level.

Lemma ahead_next L q e level k : sorted L → e ∈ L → after q e → (ahead L k (Some e) level < ahead L k q level)%nat.
Proof.
  intros Hs He Haf. unfold ahead. enough (length (filter (λ e', after (Some e) e') L) < length (filter (λ e', after q e') L))%nat by lia.
  assert (∀ e', after (Some e) e' → after q e') as Himp.
  { intros e' Ha. destruct q as [e0|]; [|done]. by apply (lt_trans _ (ekey e)). }
  clear Hs. induction L as [|a L IH]; [by apply elem_of_nil in He|]. rewrite !filter_cons.
  apply elem_of_cons in He as [->|He].
  - rewrite (decide_False (P := after (Some a) a)) by apply lt_irrefl. rewrite decide_True by done. cbn [length].
    clear IH. enough (length (filter (λ e', after (Some a) e') L) ≤ length (filter (λ e', after q e') L))%nat by lia.
    induction L as [|b L IH]; [done|]. rewrite !filter_cons. repeat case_decide; cbn [length]; try lia. exfalso; naive_solver.
  - specialize (IH He). repeat case_decide; cbn [length]; try lia. exfalso; naive_solver.
Qed.

Definition bigger L (k : K) (b : option ptr) : Prop :=
  match b with None => True | Some b => ∃ e, e ∈ L ∧ eptr e = b ∧ lt k (ekey e) end.
Definition searching_at (s : SkipList) L (k : K) q (level : nat) (b : option ptr) : Prop :=
  valid s L q level ∧ beforeb q k = true ∧ bigger L k b.

Lemma searching_iff s L k p :
  searching s L k p ↔ ∃ q level b, p = (ptr_of s q, level, b) ∧ searching_at s L k q level b.
Proof.
  destruct p as [[x level] b]. unfold searching, searching_at, bigger. split.
  - intros (q & -> & ? & ? & ?). by exists q, level, b.
  - intros (q & l & b' & [= -> -> ->] & ? & ? & ?). by exists q.
Qed.

Lemma beforeb_lt e k : beforeb (Some e) k = true ↔ lt (ekey e) k.
Proof. cbn. by rewrite bool_decide_eq_true. Qed.

(** What lies before a position lies before the key. *)
Lemma not_after q e k : beforeb q k = true → ¬ after q e → lt (ekey e) k.
Proof.
  destruct q as [e0|]; cbn; [|tauto]. intros Hb%bool_decide_eq_true Hn. by apply (le_lt_trans _ (ekey e0)).
Qed.
Lemma after_of q e k : beforeb q k = true → ¬ lt (ekey e) k → after q e.
Proof. intros Hb Hn. destruct (decide (after q e)) as [|Ha]; [done|]. by apply (not_after q e k) in Ha. Qed.

Lemma first_ge_Some s L k e : rep s L →
  first_ge L k = Some e ↔ e ∈ L ∧ ¬ lt (ekey e) k ∧ ∀ e', e' ∈ L → ¬ lt (ekey e') k → e' = e ∨ lt (ekey e) (ekey e').
Proof. intros R. unfold first_ge. by rewrite head_filter_Some by apply R. Qed.

(** At level 0 the successor is the answer; an element that compares equal
    always is. *)
Lemma succ_first_ge s L k q : rep s L → valid s L q 0 → beforeb q k = true →
  (∀ e, succ L 0 q = Some e → ¬ lt (ekey e) k) → succ L 0 q = first_ge L k.
Proof.
  intros R Hv Hb Hge. destruct (succ L 0 q) as [e|] eqn:Hs.
  - symmetry. apply (first_ge_Some s _ _ _ R). specialize (Hge e eq_refl).
    apply (succ_Some R) in Hs as (He & _ & Ha & Hmin). split_and!; [done..|]. intros e' He' Hn.
    apply Hmin; [done| |by eapply after_of]. apply (rep_height s L R) in He'. lia.
  - symmetry. apply head_filter_None. intros e He Hn.
    rewrite (succ_None) in Hs. apply (Hs e He); [apply (rep_height s L R) in He; lia|by eapply after_of].
Qed.
Lemma equal_first_ge s L k e : rep s L → e ∈ L → compare_ (ekey e) k = 0 → first_ge L k = Some e.
Proof.
  intros R He [Hlt Hgt]%compare_zero. apply (first_ge_Some s _ _ _ R). split_and!; [done..|].
  intros e' He' Hn. destruct (sorted_total L e' e) as [|[Hl|]]; [apply R|done..|by left| |by right].
  destruct Hn. by apply (lt_le_trans _ (ekey e)).
Qed.

(** One round of FindGreaterOrEqual. *)
Lemma fge_step_run s L k q level b : rep s L → searching_at s L k q level b →
  (fge_step k (ptr_of s q, level, b) s = Done (inl (eptr <$> first_ge L k), s)) ∨
  (∃ q' level' b', fge_step k (ptr_of s q, level, b) s = Done (inr (ptr_of s q', level', b'), s) ∧
    searching_at s L k q' level' b' ∧ (ahead L k q' level' < ahead L k q level)%nat).
Proof.
  intros R (Hv & Hb & Hbig). unfold fge_step.
  rewrite (bind_Done _ _ _ _ _ (Next_run R q level Hv)).
  rewrite (bind_Done _ _ _ _ _ (check_sorted R q level Hv)), (bind_Done _ _ _ _ _ (check_before R q level k Hv Hb)).
  destruct (succ L level q) as [e|] eqn:Hs; cbn [fmap option_fmap option_map].
  - pose proof Hs as (He & Hh & Ha & Hmin)%(succ_Some R).
    set (cmp := if decide (Some (eptr e) = b) then 1 else compare_ (ekey e) k).
    rewrite (bind_Done _ _ s cmp s) by (unfold cmp; case_decide; [done|]; by rewrite (bind_Done _ _ _ _ _ (node_key_run R e He))).
    assert (0 < cmp → lt k (ekey e)) as Hpos.
    { unfold cmp. case_decide as Hd; [|by rewrite compare_pos]. intros _. subst b. destruct Hbig as (e' & He' & Heq & Hlt).
      by rewrite <-(eptr_inj R e' e He' He Heq). }
    assert (cmp ≤ 0 → cmp = compare_ (ekey e) k) as Hcmp by (unfold cmp; case_decide; [lia|done]).
    case_decide as Hret; [left|right; case_decide as Hneg].
    + destruct Hret as [Hz|[Hc ->]].
      * rewrite (equal_first_ge s L k e R He); [done|]. rewrite <-Hcmp by lia. done.
      * rewrite <-(succ_first_ge s L k q R Hv Hb), Hs; [done|]. intros e' Hs'. rewrite Hs in Hs'. injection Hs' as <-.
        by apply lt_asym, Hpos.
    + exists (Some e), level, b. split_and!; [done| |by apply ahead_next; [apply R|..]].
      split_and!; [done| |done]. apply beforeb_lt. unfold lt. rewrite <-Hcmp by lia. lia.
    + assert (level ≠ 0%nat) by (intros ->; apply Hret; lia).
      exists q, (pred level), (Some (eptr e)). split_and!; [done| |unfold ahead; lia].
      split_and!; [by eapply valid_down|done|]. exists e. split_and!; [done..|apply Hpos; lia].
  - rewrite (bind_Done _ _ s 1 s) by done. case_decide as Hret; [left|right].
    + destruct Hret as [|[_ ->]]; [lia|]. rewrite <-(succ_first_ge s L k q R Hv Hb), Hs; [done|by rewrite Hs].
    + assert (level ≠ 0%nat) by (intros ->; apply Hret; lia).
      exists q, (pred level), None. split_and!; [done| |unfold ahead; lia]. by split_and!; [eapply valid_down|..].
Qed.

Lemma FindGreaterOrEqual_run fuel s L k : rep s L → (length L + max_height_ s ≤ fuel)%nat →
  FindGreaterOrEqual fuel k s = Done (eptr <$> first_ge L k, s).
Proof.
  intros R Hfuel. unfold FindGreaterOrEqual. rewrite (bind_Done _ _ _ _ _ start_run).
  change (head_ s) with (ptr_of s None).
  assert (ahead L k None (pred (max_height_ s)) < fuel)%nat as Hahead.
  { unfold ahead. pose proof (length_filter (λ e, after None e) L). pose proof (rep_max s L R). lia. }
  assert (searching_at s L k None (pred (max_height_ s)) None) as Hat by (split_and!; [apply (start_valid R)|done..]).
  clear Hfuel. revert Hahead Hat. generalize (@None elem) (pred (max_height_ s)) (@None ptr).
  induction fuel as [|fuel IH]; intros q level b Hahead Hat; [lia|]. cbn [loop].
  destruct (fge_step_run s L k q level b R Hat) as [Hr|(q' & level' & b' & Hr & Hat' & Hlt)].
  - by rewrite (bind_Done _ _ _ _ _ Hr).
  - rewrite (bind_Done _ _ _ _ _ Hr). apply IH; [lia|done].
Qed.

Lemma compare_zero_sym a b : compare_ a b = 0 ↔ compare_ b a = 0.
Proof. rewrite !compare_zero. tauto. Qed.

Lemma Contains_run fuel s L k : rep s L → (length L + max_height_ s ≤ fuel)%nat →
  Contains fuel k s = Done (existsb (λ e, Equal k (ekey e)) L, s).
Proof.
  intros R Hfuel. unfold Contains. rewrite (bind_Done _ _ _ _ _ (FindGreaterOrEqual_run fuel s L k R Hfuel)).
  destruct (first_ge L k) as [e|] eqn:Hf; cbn [fmap option_fmap option_map].
  - apply (first_ge_Some s _ _ _ R) in Hf as (He & Hn & Hmin). rewrite (bind_Done _ _ _ _ _ (node_key_run R e He)).
    unfold mret, prog_ret. do 2 f_equal. apply eq_iff_eq_true. rewrite existsb_exists. unfold Equal.
    setoid_rewrite bool_decide_eq_true. split.
    + intros Hz. exists e. by rewrite <-list_elem_of_In.
    + intros (e' & He'%list_elem_of_In & Hz). pose proof (proj1 (compare_zero _ _) Hz) as [H1 H2].
      destruct (Hmin e' He' H2) as [->|Hlt]; [done|]. apply compare_zero. split; [|done].
      intros Hk. apply H1. by apply (lt_trans _ (ekey e)).
  - unfold mret, prog_ret. do 2 f_equal. symmetry. apply not_true_iff_false. rewrite existsb_exists.
    intros (e & He%list_elem_of_In & Hz). unfold Equal in Hz. apply bool_decide_eq_true, compare_zero in Hz.
    unfold first_ge in Hf. rewrite head_filter_None in Hf. apply (Hf e He). tauto.
Qed.

(** *** FindLessThan *)
(** The last position of level [i] before [k]. *)
Definition is_pred (s : SkipList) L (i : nat) (k : K) q : Prop :=
  valid s L q i ∧ beforeb q k = true ∧ ∀ e, e ∈ L → (i < eheight e)%nat → after q e → ¬ lt (ekey e) k.

Definition preds (s : SkipList) L (k : K) (from : nat) (ps : list ptr) : Prop :=
  ∀ j p, ps !! j = Some p → ∃ q, p = ptr_of s q ∧ is_pred s L (from + j) k q.

Definition not_smaller L (k : K) (b : option ptr) : Prop :=
  match b with None => True | Some b => ∃ e, e ∈ L ∧ eptr e = b ∧ ¬ lt (ekey e) k end.

Lemma succ_pred s L i k q : rep s L → valid s L q i → beforeb q k = true →
  (∀ e, succ L i q = Some e → ¬ lt (ekey e) k) → is_pred s L i k q.
Proof.
  intros R Hv Hb Hge. split_and!; [done..|]. intros e He Hh Ha. destruct (succ L i q) as [e'|] eqn:Hs.
  - specialize (Hge e' eq_refl). apply (succ_Some R) in Hs as (_ & _ & _ & Hmin).
    destruct (Hmin e He Hh Ha) as [->|Hlt]; [done|]. intros Hlt'. by apply Hge, (lt_trans _ (ekey e)).
  - rewrite succ_None in Hs. by destruct (Hs e He Hh).
Qed.

Lemma preds_cons s L k i q ps : is_pred s L i k q → preds s L k (S i) ps → preds s L k i (ptr_of s q :: ps).
Proof.
  intros Hq Hps [|j] p; cbn.
  - intros [= <-]. exists q. by rewrite Nat.add_0_r.
  - intros Hj. rewrite Nat.add_succ_r. by apply Hps.
Qed.

Lemma flt_step_run s L k q level b ps : rep s L → valid s L q level → beforeb q k = true → not_smaller L k b →
  preds s L k (S level) ps →
  (∃ q', level = 0%nat ∧ flt_step k (ptr_of s q, level, b, ps) s = Done (inl (ptr_of s q', ptr_of s q' :: ps), s) ∧
    is_pred s L 0 k q') ∨
  (∃ q' level' b' ps', flt_step k (ptr_of s q, level, b, ps) s = Done (inr (ptr_of s q', level', b', ps'), s) ∧
    valid s L q' level' ∧ beforeb q' k = true ∧ not_smaller L k b' ∧ preds s L k (S level') ps' ∧
    length ps' + level' = length ps + level ∧
    (ahead L k q' level' < ahead L k q level))%nat.
Proof.
  intros R Hv Hb Hbig Hps. unfold flt_step.
  rewrite (bind_Done _ _ _ _ _ (Next_run R q level Hv)).
  rewrite (bind_Done _ _ _ _ _ (check_sorted R q level Hv)), (bind_Done _ _ _ _ _ (check_before R q level k Hv Hb)).
  set (aft := match succ L level q with Some e => bool_decide (lt (ekey e) k) | None => false end).
  rewrite (bind_Done _ _ s aft s).
  2:{ unfold aft. case_decide as Hd.
    - destruct (succ L level q) as [e|] eqn:Hs; [|done]. subst b. destruct Hbig as (e' & He' & Heq & Hn).
      apply (succ_Some R) in Hs as (He & _). rewrite bool_decide_eq_false_2; [done|]. by rewrite <-(eptr_inj R e' e He' He Heq).
    - apply (KeyIsAfterNode_run R). intros e Hs. by apply (succ_Some R) in Hs as (He & _). }
  assert (aft = false → is_pred s L level k q) as Hpred.
  { intros Haft. apply succ_pred; [done..|]. intros e Hs. unfold aft in Haft. rewrite Hs in Haft. by apply bool_decide_eq_false in Haft. }
  destruct aft eqn:Haft.
  - right. unfold aft in Haft. destruct (succ L level q) as [e|] eqn:Hs; [|done]. apply bool_decide_eq_true in Haft.
    apply (succ_Some R) in Hs as (He & Hh & Ha & _). exists (Some e), level, b, ps.
    split_and!; try done; [by apply beforeb_lt|apply ahead_next; [apply R|done..]].
  - specialize (Hpred eq_refl).
    assert ((match eptr <$> succ L level q with
      | Some y => if false : bool then mret (inr (y, level, b, ps)) else if decide (level = 0%nat) then mret (inl (ptr_of s q, ptr_of s q :: ps))
                  else mret (inr (ptr_of s q, pred level, eptr <$> succ L level q, ptr_of s q :: ps))
      | None => if decide (level = 0%nat) then mret (inl (ptr_of s q, ptr_of s q :: ps))
                  else mret (inr (ptr_of s q, pred level, eptr <$> succ L level q, ptr_of s q :: ps)) end : prog SkipList _) =
      (if decide (level = 0%nat) then mret (inl (ptr_of s q, ptr_of s q :: ps))
                  else mret (inr (ptr_of s q, pred level, eptr <$> succ L level q, ptr_of s q :: ps)))) as -> by (by destruct (succ L level q)).
    case_decide as Hl; [left; subst level; by exists q|right].
    exists q, (pred level), (eptr <$> succ L level q), (ptr_of s q :: ps). split_and!; try done.
    + by eapply valid_down.
    + unfold aft in Haft. destruct (succ L level q) as [e|] eqn:Hs; [|done]. exists e. apply bool_decide_eq_false in Haft.
      by apply (succ_Some R) in Hs as (He & _).
    + replace (S (pred level)) with level by lia. by apply preds_cons.
    + cbn. lia.
    + unfold ahead. lia.
Qed.

Lemma FindLessThan_run fuel s L k : rep s L → (length L + max_height_ s ≤ fuel)%nat →
  ∃ q ps, FindLessThan fuel k s = Done ((ptr_of s q, ps), s) ∧ is_pred s L 0 k q ∧
    length ps = max_height_ s ∧ preds s L k 0 ps.
Proof.
  intros R Hfuel. unfold FindLessThan. rewrite (bind_Done _ _ _ _ _ start_run).
  change (head_ s) with (ptr_of s None). pose proof (rep_max s L R) as Hm.
  assert (ahead L k None (pred (max_height_ s)) < fuel)%nat as Hahead.
  { unfold ahead. pose proof (length_filter (λ e, after None e) L). lia. }
  pose proof (start_valid R) as Hv. assert (beforeb None k = true) as Hb by done. assert (not_smaller L k None) as Hbig by done.
  assert (preds s L k (S (pred (max_height_ s))) []) as Hps by done.
  assert (length (@nil ptr) + S (pred (max_height_ s)) = max_height_ s)%nat as Hlen by (cbn; lia).
  clear Hfuel. revert Hahead Hv Hb Hbig Hps Hlen.
  generalize (@None elem) (pred (max_height_ s)) (@None ptr) (@nil ptr).
  induction fuel as [|fuel IH]; intros q level b ps Hahead Hv Hb Hbig Hps Hlen; [lia|]. cbn [loop].
  destruct (flt_step_run s L k q level b ps R Hv Hb Hbig Hps) as [(q' & -> & Hr & Hp)|(q' & level' & b' & ps' & Hr & Hv' & Hb' & Hbig' & Hps' & Hlen' & Hlt)].
  - rewrite (bind_Done _ _ _ _ _ Hr). exists q', (ptr_of s q' :: ps). split_and!; [done..|cbn; lia|by apply preds_cons].
  - rewrite (bind_Done _ _ _ _ _ Hr). apply IH; try done; lia.
Qed.

(** *** FindLast and EstimateCount *)
Lemma fl_loop_run fuel s L q level : rep s L → valid s L q level →
  (length (filter (λ e, after q e) L) + level < fuel)%nat →
  ∃ q', loop fl_step fuel (ptr_of s q, level) s = Done (ptr_of s q', s) ∧ valid s L q' 0 ∧ ∀ e, e ∈ L → ¬ after q' e.
Proof.
  intros R. revert q level. induction fuel as [|fuel IH]; intros q level Hv Hfuel; [lia|]. cbn [loop].
  destruct (succ L level q) as [e|] eqn:Hs.
  - pose proof Hs as (He & Hh & Ha & _)%(succ_Some R).
    rewrite (bind_Done _ _ s (inr (eptr e, level)) s).
    2:{ unfold fl_step. rewrite (bind_Done _ _ _ _ _ (Next_run R q level Hv)), Hs. done. }
    destruct (IH (Some e) level) as (q' & Hrun & Hend); [done| |by exists q'].
    pose proof (ahead_next L q e level (ekey e) (rep_sorted s L R) He Ha). unfold ahead in *. lia.
  - destruct (decide (level = 0%nat)) as [->|Hl].
    + rewrite (bind_Done _ _ s (inl (ptr_of s q)) s).
      2:{ unfold fl_step. rewrite (bind_Done _ _ _ _ _ (Next_run R q 0 Hv)), Hs. done. }
      exists q. split_and!; [done..|]. intros e He. rewrite succ_None in Hs. apply Hs; [done|].
      apply (rep_height s L R) in He. lia.
    + rewrite (bind_Done _ _ s (inr (ptr_of s q, pred level)) s).
      2:{ unfold fl_step. rewrite (bind_Done _ _ _ _ _ (Next_run R q level Hv)), Hs. cbn [fmap option_fmap option_map]. by rewrite decide_False. }
      apply IH; [by eapply valid_down|lia].
Qed.

Lemma after_last s L q : rep s L → valid s L q 0 → (∀ e, e ∈ L → ¬ after q e) → q = last L.
Proof.
  intros R Hv Hn. pose proof (rep_sorted s L R) as Hs. destruct L as [|a L0] using rev_ind.
  - destruct q as [e|]; [|done]. cbn in Hv. set_solver.
  - rewrite last_snoc. clear IHL0. destruct q as [e|]; cbn in *.
    + destruct Hv as [He _]. f_equal. apply elem_of_app in He as [He|He]; [|set_solver].
      destruct (Hn a); [set_solver|]. apply (StronglySorted_app_1_elem_of _ _ _ e a Hs); set_solver.
    + destruct (Hn a); [set_solver|done].
Qed.

Lemma FindLast_run fuel s L : rep s L → (length L + max_height_ s ≤ fuel)%nat →
  FindLast fuel s = Done (ptr_of s (last L), s).
Proof.
  intros R Hfuel. unfold FindLast. rewrite gets_bind. unfold GetMaxHeight. rewrite gets_bind.
  destruct (fl_loop_run fuel s L None (pred (max_height_ s)) R (start_valid R)) as (q & Hrun & Hv & Hn).
  { pose proof (length_filter (λ e, after None e) L). pose proof (rep_max s L R). lia. }
  change (head_ s) with (ptr_of s None) at 1. rewrite Hrun. by rewrite (after_last s L q R Hv Hn).
Qed.

(** EstimateCount always ends. *)
Lemma ec_loop_run fuel s L q level k c : rep s L → valid s L q level → beforeb q k = true →
  (length (filter (λ e, after q e) L) + level < fuel)%nat →
  ∃ n, loop (ec_step k) fuel (ptr_of s q, level, c) s = Done (n, s).
Proof.
  intros R. revert q level c. induction fuel as [|fuel IH]; intros q level c Hv Hb Hfuel; [lia|]. cbn [loop].
  assert (ec_step k (ptr_of s q, level, c) s =
    Done (match succ L level q with
       | Some e => if bool_decide (lt (ekey e) k) then inr (eptr e, level, u64 (c + 1))
                   else if decide (level = 0%nat) then inl c else inr (ptr_of s q, pred level, u64 (c * kBranching_ s))
       | None => if decide (level = 0%nat) then inl c else inr (ptr_of s q, pred level, u64 (c * kBranching_ s))
       end, s)) as Hstep.
  { unfold ec_step. rewrite (bind_Done _ _ _ _ _ (check_before R q level k Hv Hb)).
    rewrite (bind_Done _ _ _ _ _ (Next_run R q level Hv)).
    erewrite (bind_Done _ _ s _ s) by (apply (KeyIsAfterNode_run R); intros e Hs; by apply (succ_Some R) in Hs as (He & _)).
    destruct (succ L level q) as [e|]; cbn [fmap option_fmap option_map]; [case_bool_decide; [done|]|]; by case_decide. }
  rewrite (bind_Done _ _ _ _ _ Hstep). clear Hstep.
  assert (level ≠ 0%nat → ∃ n, loop (ec_step k) fuel (ptr_of s q, pred level, u64 (c * kBranching_ s)) s = Done (n, s)) as Hdown.
  { intros Hl. apply IH; [by eapply valid_down|done|lia]. }
  destruct (succ L level q) as [e|] eqn:Hs; [case_bool_decide as Hlt|]; try (case_decide; [by eexists|by apply Hdown]).
  pose proof Hs as (He & Hh & Ha & _)%(succ_Some R). apply (IH (Some e)); [done|by apply beforeb_lt|].
  pose proof (ahead_next L q e level k (rep_sorted s L R) He Ha). unfold ahead in *. lia.
Qed.

Lemma EstimateCount_run fuel s L k : rep s L → (length L + max_height_ s ≤ fuel)%nat →
  ∃ n, EstimateCount fuel k s = Done (n, s).
Proof.
  intros R Hfuel. unfold EstimateCount. rewrite gets_bind. unfold GetMaxHeight. rewrite gets_bind.
  apply (ec_loop_run fuel s L None _ k 0 R (start_valid R) eq_refl).
  pose proof (length_filter (λ e, after None e) L). pose proof (rep_max s L R). lia.
Qed.

(** ** The writer *)
(** The same list, seen through other nodes that agree where it looks. *)
Lemma rep_ext s s' L : rep s L → head_ s' = head_ s → kMaxHeight_ s' = kMaxHeight_ s →
  (max_height_ s ≤ max_height_ s' ≤ kMaxHeight_ s)%nat →
  (∀ e, e ∈ L → key <$> nodes s' !! eptr e = key <$> nodes s !! eptr e) →
  (∀ q i, valid s L q i → next_of (nodes s') (ptr_of s q) i = next_of (nodes s) (ptr_of s q) i) → rep s' L.
Proof.
  intros R Hh Hk Hm Hkey Hnext.
  assert (∀ q, ptr_of s' q = ptr_of s q) as Hptr by (by intros []).
  assert (∀ q i, valid s' L q i → valid s L q i) as Hval by (intros [] ?; cbn; lia || done).
  split; try apply R.
  - rewrite Hh. apply R.
  - intros e He. rewrite Hkey by done. by apply R.
  - intros q i Hv. rewrite Hptr, Hnext by auto. apply R. auto.
  - pose proof (rep_max s L R). lia.
  - intros e He. pose proof (rep_height s L R e He). lia.
Qed.

Lemma set_next_spec x n y m nd : m !! x = Some nd → (n < length (next_ nd))%nat →
  ∃ m', set_next x n y m = Some m' ∧
    (∀ z i, next_of m' z i = if decide (z = x ∧ i = n) then Some y else next_of m z i) ∧
    (∀ z, key <$> m' !! z = key <$> m !! z) ∧
    (∀ z, length ∘ next_ <$> m' !! z = length ∘ next_ <$> m !! z).
Proof.
  intros Hx Hn. unfold set_next. rewrite Hx. cbn. rewrite decide_True by done. eexists. split; [done|]. split_and!.
  - intros z i. unfold next_of. destruct (decide (z = x)) as [->|Hz].
    + rewrite lookup_insert_eq, Hx. cbn. destruct (decide (i = n)) as [->|Hi].
      * rewrite decide_True by done. by rewrite list_lookup_insert_eq.
      * rewrite decide_False by tauto. by rewrite list_lookup_insert_ne.
    + rewrite decide_False by tauto. by rewrite lookup_insert_ne.
  - intros z. destruct (decide (z = x)) as [->|Hz]; [by rewrite lookup_insert_eq, Hx|by rewrite lookup_insert_ne].
  - intros z. destruct (decide (z = x)) as [->|Hz]; [|by rewrite lookup_insert_ne].
    rewrite lookup_insert_eq, Hx. cbn. by rewrite length_insert.
Qed.

Lemma next_of_cell m x i y : next_of m x i = Some y → ∃ nd, m !! x = Some nd ∧ (i < length (next_ nd))%nat.
Proof.
  unfold next_of. destruct (m !! x) as [nd|]; [|done]. cbn. intros H. exists nd. split; [done|].
  apply lookup_lt_is_Some. destruct (next_ nd !! i); [done|by cbn in H].
Qed.

Lemma succ_app L1 L2 i q : succ (L1 ++ L2) i q = match succ L1 i q with Some e => Some e | None => succ L2 i q end.
Proof. unfold succ. rewrite filter_app. by destruct (filter _ L1). Qed.
Lemma succ_cons e L i q : succ (e :: L) i q = if decide ((i < eheight e)%nat ∧ after q e) then Some e else succ L i q.
Proof. unfold succ. rewrite filter_cons. by case_decide. Qed.

(** A new node [x] with key [k] between [L1] and [L2], linked in [j] levels. *)
Definition linked L1 L2 (x : ptr) (k : K) (j : nat) : list elem :=
  match j with O => L1 ++ L2 | S _ => L1 ++ Elem x k j :: L2 end.

Record linking (s : SkipList) L1 L2 (x : ptr) (k : K) (height j : nat) : Prop := Linking {
  lk_rep : rep s (linked L1 L2 x k j);
  lk_left e : e ∈ L1 → lt (ekey e) k;
  lk_right e : e ∈ L2 → lt k (ekey e);
  lk_fresh : x ∉ eptr <$> L1 ++ L2;
  lk_not_head : x ≠ head_ s;
  lk_node : ∃ nd, nodes s !! x = Some nd ∧ key nd = k ∧ length (next_ nd) = height;
  lk_height : (j ≤ height ≤ max_height_ s)%nat;
  lk_prev i : (i < max_height_ s)%nat → ∃ q, prev_ s !! i = Some (ptr_of s q) ∧ is_pred s (L1 ++ L2) i k q;
}.

Lemma elem_of_linked L1 L2 x k j e : e ∈ linked L1 L2 x k j ↔ e ∈ L1 ++ L2 ∨ (j ≠ 0%nat ∧ e = Elem x k j).
Proof. destruct j; cbn; rewrite !elem_of_app, ?elem_of_cons; naive_solver. Qed.

Lemma linked_sorted L1 L2 x k j j' : sorted (linked L1 L2 x k j) →
  (∀ e, e ∈ L1 → lt (ekey e) k) → (∀ e, e ∈ L2 → lt k (ekey e)) → sorted (linked L1 L2 x k j').
Proof.
  intros Hs H1 H2. assert (sorted (L1 ++ L2)) as Hs'.
  { destruct j; [done|]. by eapply StronglySorted_delete. }
  destruct j'; [done|]. by apply StronglySorted_insert.
Qed.

Lemma linked_cases L1 L2 x k j : linked L1 L2 x k j = L1 ++ L2 ∨ linked L1 L2 x k j = L1 ++ Elem x k j :: L2.
Proof. destruct j; auto. Qed.

Section linking.
Context {s : SkipList} {L1 L2 : list elem} {x : ptr} {k : K} {height j : nat} (W : linking s L1 L2 x k height j).

Lemma lk_elem e : e ∈ linked L1 L2 x k j → eptr e = x → e = Elem x k j ∧ j ≠ 0%nat.
Proof.
  intros [He|[Hj ->]]%elem_of_linked Hx; [|done]. destruct (lk_fresh _ _ _ _ _ _ _ W). rewrite <-Hx.
  by apply list_elem_of_fmap_2.
Qed.

(** The predecessor at level [j] is a position of the list linked so far, and
    not the new node. *)
Lemma lk_pred : (j < height)%nat → ∃ q, prev_ s !! j = Some (ptr_of s q) ∧ ptr_of s q ≠ x ∧
  is_pred s (L1 ++ L2) j k q ∧ valid s (linked L1 L2 x k j) q j ∧ is_pred s (linked L1 L2 x k j) j k q.
Proof.
  intros Hj. pose proof (lk_height _ _ _ _ _ _ _ W).
  destruct (lk_prev _ _ _ _ _ _ _ W j) as (q & Hq & Hp); [lia|]. exists q.
  assert (valid s (linked L1 L2 x k j) q j) as Hv.
  { destruct Hp as (Hv & _ & _). destruct q as [e|]; cbn in *; [|done]. split; [|tauto]. apply elem_of_linked. tauto. }
  split_and!; [done| |done..|].
  - destruct q as [e|]; cbn; [|apply not_eq_sym, W]. intros <-. apply (lk_fresh _ _ _ _ _ _ _ W).
    destruct Hp as ([He _] & _). by apply list_elem_of_fmap_2.
  - destruct Hp as (_ & Hb & Hp). split_and!; [done..|]. intros e [He|[_ ->]]%elem_of_linked Hh Ha; [by apply Hp|]. cbn in Hh. lia.
Qed.

(** What follows the new node at level [j]. *)
Definition right (i : nat) : option elem := head (filter (λ e, (i < eheight e)%nat) L2).

Lemma succ_right q : beforeb q k = true → succ L2 j q = right j.
Proof.
  intros Hb. unfold succ, right. f_equal. apply filter_iff_in. intros e He. split; [tauto|]. intros Hh. split; [done|].
  apply (after_of q e k Hb). apply lt_asym. by apply (lk_right _ _ _ _ _ _ _ W).
Qed.

Lemma succ_left_pred q : is_pred s (L1 ++ L2) j k q → succ L1 j q = None.
Proof.
  intros (_ & _ & Hp). apply head_filter_None. intros e He [Hh Ha].
  apply (Hp e); [set_solver|done..|]. by apply (lk_left _ _ _ _ _ _ _ W).
Qed.

Lemma succ_pred_right q : is_pred s (L1 ++ L2) j k q → succ (linked L1 L2 x k j) j q = right j.
Proof.
  intros Hp. destruct (linked_cases L1 L2 x k j) as [-> | ->]; rewrite succ_app, succ_left_pred by done.
  - apply succ_right, Hp.
  - rewrite succ_cons, decide_False by (cbn; lia). apply succ_right, Hp.
Qed.

(** Once the new node is linked: it follows its predecessor, what followed the
    predecessor follows it, and nothing else changes. *)
Lemma linked_succ_new : succ (linked L1 L2 x k (S j)) j (Some (Elem x k (S j))) = right j.
Proof.
  cbn [linked]. rewrite succ_app, succ_cons.
  assert (succ L1 j (Some (Elem x k (S j))) = None) as ->.
  { apply head_filter_None. intros e He [_ Ha]. cbn in Ha. by apply (lt_asym _ _ Ha), (lk_left _ _ _ _ _ _ _ W). }
  rewrite decide_False by (cbn; intros [_ ?]; by apply (lt_irrefl k)).
  unfold succ, right. f_equal. apply filter_iff_in. intros e He. split; [tauto|]. intros Hh. split; [done|].
  by apply (lk_right _ _ _ _ _ _ _ W).
Qed.

Lemma linked_succ_pred q : is_pred s (L1 ++ L2) j k q → succ (linked L1 L2 x k (S j)) j q = Some (Elem x k (S j)).
Proof.
  intros Hp. cbn [linked]. rewrite succ_app, succ_left_pred, succ_cons by done. rewrite decide_True; [done|].
  split; [cbn; lia|]. destruct Hp as (_ & Hb & _). destruct q; [|done]. by apply beforeb_lt in Hb.
Qed.

Lemma linked_succ_other q q0 : is_pred s (L1 ++ L2) j k q0 → valid s (linked L1 L2 x k j) q j → q ≠ q0 →
  succ (linked L1 L2 x k (S j)) j q = succ (linked L1 L2 x k j) j q.
Proof.
  intros (Hv0 & Hb0 & Hp0) Hv Hne.
  assert (succ (linked L1 L2 x k j) j q = succ (L1 ++ L2) j q) as ->.
  { destruct (linked_cases L1 L2 x k j) as [-> | ->]; [done|]. rewrite !succ_app, succ_cons, decide_False by (cbn; lia). done. }
  cbn [linked]. rewrite !succ_app, succ_cons. destruct (succ L1 j q) as [e|] eqn:Hs1; [done|].
  rewrite decide_False; [done|]. intros [_ Ha]. cbn in Ha.
  assert (valid s (L1 ++ L2) q j) as Hv'.
  { destruct q as [e|]; [|done]. cbn in *. destruct Hv as [[He|[_ ->]]%elem_of_linked Hh]; [done|]. cbn in Hh. lia. }
  unfold succ in Hs1. rewrite head_filter_None in Hs1.
  assert (sorted (L1 ++ L2)) as Hsorted.
  { apply (linked_sorted L1 L2 x k j 0); [apply W|apply W|apply W]. }
  destruct q0 as [e0|].
  - destruct Hv0 as [He0 Hh0]. apply beforeb_lt in Hb0.
    assert (e0 ∈ L1) as He1.
    { apply elem_of_app in He0 as [|He0]; [done|]. apply (lk_right _ _ _ _ _ _ _ W) in He0. by destruct (lt_asym _ _ Hb0). }
    destruct q as [e|]; [|by apply (Hs1 e0 He1)]. destruct Hv' as [He Hh].
    destruct (sorted_total _ e e0 Hsorted He He0) as [->|[Hlt|Hlt]]; [done|by apply (Hs1 e0 He1)|].
    by apply (Hp0 e He Hh).
  - destruct q as [e|]; [|done]. destruct Hv' as [He Hh]. by apply (Hp0 e He Hh).
Qed.

(** The other levels look the same. *)
Definition down q : option elem :=
  match q with Some e => if decide (eptr e = x) then Some (Elem x k j) else q | None => None end.
Lemma linked_succ_level i q : i ≠ j → valid s (linked L1 L2 x k (S j)) q i →
  valid s (linked L1 L2 x k j) (down q) i ∧ ptr_of s (down q) = ptr_of s q ∧ (ptr_of s q = x → (i < j)%nat) ∧
  eptr <$> succ (linked L1 L2 x k (S j)) i q = eptr <$> succ (linked L1 L2 x k j) i (down q).
Proof.
  intros Hi Hv.
  assert (∀ e, after (down q) e ↔ after q e) as Haf.
  { intros e. destruct q as [e0|]; [|done]. cbn. case_decide as Hd; [|done].
    destruct Hv as [[He0|[_ ->]]%elem_of_linked _]; [|done].
    destruct (lk_fresh _ _ _ _ _ _ _ W). rewrite <-Hd. by apply list_elem_of_fmap_2. }
  split_and!.
  - destruct q as [e|]; [|done]. destruct Hv as [[He|[_ ->]]%elem_of_linked Hh]; unfold down; cbn [eptr eheight] in *.
    + rewrite decide_False. { split; [|done]. apply elem_of_linked. by left. }
      intros Hx. destruct (lk_fresh _ _ _ _ _ _ _ W). rewrite <-Hx. by apply list_elem_of_fmap_2.
    + rewrite decide_True by done. split; [|cbn; lia]. apply elem_of_linked. right. split; [lia|done].
  - destruct q as [e|]; [|done]. cbn. by case_decide.
  - destruct q as [e|]; cbn; [|intros Hx; by destruct (lk_not_head _ _ _ _ _ _ _ W)]. intros Hx.
    destruct Hv as [[He|[_ ->]]%elem_of_linked Hh]; [|cbn in Hh; lia].
    destruct (lk_fresh _ _ _ _ _ _ _ W). rewrite <-Hx. by apply list_elem_of_fmap_2.
  - assert (∀ l, succ l i q = succ l i (down q)) as Hl.
    { intros l. unfold succ. f_equal. apply list_filter_iff. intros e. by rewrite Haf. }
    cbn [linked]. rewrite succ_app, succ_cons, !Hl.
    destruct (linked_cases L1 L2 x k j) as [Hc|Hc].
    + destruct j as [|j0] eqn:Hj; [|exfalso; apply (f_equal length) in Hc; cbn in Hc; rewrite !length_app in Hc; cbn in Hc; lia].
      cbn [linked]. rewrite succ_app, (decide_False (P := _ ∧ _)) by (cbn; lia). done.
    + rewrite Hc, succ_app, succ_cons. destruct (succ L1 i (down q)); [done|]. cbn [eheight].
      rewrite (decide_ext ((i < S j)%nat ∧ after q (Elem x k (S j))) ((i < j)%nat ∧ after (down q) (Elem x k j))); [by case_decide|].
      rewrite Haf. destruct q; cbn; lia || (split; intros []; split; done || lia).
Qed.
End linking.

(** Changing the nodes keeps the rest of [linking]. *)
Lemma is_pred_nodes m s L i k q : is_pred (with_nodes m s) L i k q ↔ is_pred s L i k q.
Proof. done. Qed.
Lemma linking_nodes s L1 L2 x k height j j' m :
  linking s L1 L2 x k height j → rep (with_nodes m s) (linked L1 L2 x k j') → (j' ≤ height)%nat →
  (∀ z, key <$> m !! z = key <$> nodes s !! z) →
  (∀ z, length ∘ next_ <$> m !! z = length ∘ next_ <$> nodes s !! z) →
  linking (with_nodes m s) L1 L2 x k height j'.
Proof.
  intros W R Hj Hkey Hlen. split; try apply W; try done.
  - destruct (lk_node _ _ _ _ _ _ _ W) as (nd & Hx & Hk & Hl). specialize (Hkey x). specialize (Hlen x).
    rewrite Hx in *. cbn in *. destruct (m !! x) as [nd'|]; [|done]. exists nd'. split_and!; [done|cbn in *; congruence..].
  - split; [done|]. apply W.
Qed.

Lemma init_link_run s L1 L2 x k height j : linking s L1 L2 x k height j → (j < height)%nat →
  ∃ m, init_link x j s = Done ((), with_nodes m s) ∧ linking (with_nodes m s) L1 L2 x k height j ∧
    next_of m x j = Some (eptr <$> right (L2 := L2) j).
Proof.
  intros W Hj. destruct (lk_pred W Hj) as (q & Hq & Hqx & Hp & Hv & _).
  destruct (lk_node _ _ _ _ _ _ _ W) as (nd & Hx & Hk & Hl).
  destruct (set_next_spec x j (eptr <$> right (L2 := L2) j) (nodes s) nd Hx) as (m & Hm & Hnext & Hkeys & Hlens); [lia|].
  exists m. split_and!.
  - unfold init_link, read_prev. rewrite (getsO_bind _ _ s _ Hq).
    rewrite (bind_Done _ _ _ _ _ (Next_run (lk_rep _ _ _ _ _ _ _ W) q j Hv)), (succ_pred_right W q Hp).
    apply modO_Done. rewrite Hm. done.
  - apply (linking_nodes _ _ _ _ _ _ j); try done; [|lia]. apply (rep_ext s); try done; [apply W|..].
    + pose proof (rep_max _ _ (lk_rep _ _ _ _ _ _ _ W)). cbn. lia.
    + intros q' i Hv'. cbn. rewrite Hnext, decide_False; [done|]. intros [Hx' ->].
      destruct q' as [e|]; cbn in Hx'; [|by destruct (lk_not_head _ _ _ _ _ _ _ W)].
      destruct Hv' as [He Hh]. destruct (lk_elem W e He Hx') as [-> _]. cbn in Hh. lia.
  - by rewrite Hnext, decide_True.
Qed.

Lemma publish_run s L1 L2 x k height j : linking s L1 L2 x k height j → (j < height)%nat →
  next_of (nodes s) x j = Some (eptr <$> right (L2 := L2) j) →
  ∃ m, publish x j s = Done ((), with_nodes m s) ∧ linking (with_nodes m s) L1 L2 x k height (S j).
Proof.
  intros W Hj Hxj. pose proof (lk_rep _ _ _ _ _ _ _ W) as R.
  destruct (lk_pred W Hj) as (q & Hq & Hqx & Hp & Hv & _).
  destruct (next_of_cell _ _ _ _ (rep_next _ _ R q j Hv)) as (nd & Hnd & Hcell).
  destruct (set_next_spec (ptr_of s q) j (Some x) (nodes s) nd Hnd Hcell) as (m & Hm & Hnext & Hkeys & Hlens).
  exists m. split.
  { unfold publish, read_prev. rewrite (getsO_bind _ _ s _ Hq). apply modO_Done. rewrite Hm. done. }
  apply (linking_nodes _ _ _ _ _ _ j); try done.
  assert (NoDup (eptr <$> L1 ++ L2)) as Hnd'.
  { pose proof (rep_nodup _ _ R) as Hn. destruct (linked_cases L1 L2 x k j) as [Hc|Hc]; rewrite Hc in Hn; [done|].
    rewrite fmap_app, fmap_cons in Hn. rewrite fmap_app. apply NoDup_app in Hn as (? & Hd & [? ?]%NoDup_cons).
    apply NoDup_app. set_solver. }
  split; cbn [with_nodes head_ kMaxHeight_ max_height_ nodes].
  - apply (linked_sorted _ _ _ _ j); [apply R|apply W|apply W].
  - intros (e & He & Hin)%list_elem_of_fmap. apply elem_of_linked in Hin as [Hin|[_ ->]].
    + apply (rep_head _ _ R). rewrite He. apply list_elem_of_fmap_2, elem_of_linked. by left.
    + by apply (lk_not_head _ _ _ _ _ _ _ W).
  - cbn [linked]. rewrite fmap_app, fmap_cons. rewrite fmap_app in Hnd'. pose proof (lk_fresh _ _ _ _ _ _ _ W) as Hf.
    rewrite fmap_app in Hf. apply NoDup_app in Hnd' as (? & ? & ?). apply NoDup_app. split_and!; [done|set_solver|].
    apply NoDup_cons. split; [set_solver|done].
  - intros e He. rewrite Hkeys. apply elem_of_linked in He as [He|[_ ->]].
    + apply R. apply elem_of_linked. by left.
    + destruct (lk_node _ _ _ _ _ _ _ W) as (nd' & Hx & Hk & _). cbn. rewrite Hx. cbn. by rewrite Hk.
  - intros q' i Hv'. change (ptr_of (with_nodes m s) q') with (ptr_of s q'). rewrite Hnext.
    assert (∀ e, e ∈ L1 ++ L2 → eptr e ≠ x) as Hfresh.
    { intros e He Hx. apply (lk_fresh _ _ _ _ _ _ _ W). rewrite <-Hx. by apply list_elem_of_fmap_2. }
    destruct (decide (i = j)) as [->|Hi].
    + assert ((q' = Some (Elem x k (S j))) ∨ valid s (linked L1 L2 x k j) q' j) as [->|Hv''].
      { destruct q' as [e|]; [|by right]. destruct Hv' as [[He|[_ ->]]%elem_of_linked Hh]; [right|by left].
        split; [apply elem_of_linked; by left|done]. }
      * rewrite decide_False by (cbn; naive_solver). by rewrite (linked_succ_new W).
      * destruct (decide (ptr_of s q' = ptr_of s q)) as [Heq%(ptr_of_inj R q' q j Hv'' Hv)|Hne]; [subst q'|].
        -- rewrite decide_True by done. by rewrite (linked_succ_pred W q Hp).
        -- rewrite decide_False by tauto. rewrite (linked_succ_other W q' q Hp Hv''); [by apply R|congruence].
    + rewrite decide_False by tauto. destruct (linked_succ_level W i q' Hi Hv') as (Hvd & Hpd & _ & Hs).
      rewrite Hs, <-Hpd. by apply R.
  - apply R.
  - intros e [He|[_ ->]]%elem_of_linked.
    + apply R. apply elem_of_linked. by left.
    + cbn. pose proof (lk_height _ _ _ _ _ _ _ W). lia.
Qed.

(** *** The predecessors *)
Record prev_ok (s : SkipList) L : Prop := PrevOk {
  pv_length : length (prev_ s) = kMaxHeight_ s;
  pv_first : (L = [] ∧ prev_height_ s = 1%nat ∧ max_height_ s = 1%nat ∧ prev_ s !! 0%nat = Some (head_ s)) ∨
    ∃ e, e ∈ L ∧ prev_ s !! 0%nat = Some (eptr e) ∧ eheight e = prev_height_ s ∧
      ∀ i, (prev_height_ s ≤ i < max_height_ s)%nat →
        ∃ q, prev_ s !! i = Some (ptr_of s q) ∧ is_pred s L i (ekey e) q;
}.

Lemma fill_prev_run n from x s : (from + n ≤ length (prev_ s))%nat →
  ∃ ps, fill_prev n from x s = Done ((), with_prev ps s) ∧ length ps = length (prev_ s) ∧
    ∀ i, ps !! i = if decide (from ≤ i < from + n)%nat then Some x else prev_ s !! i.
Proof.
  revert from s. induction n as [|n IH]; intros from s Hn; cbn [fill_prev].
  - exists (prev_ s). split_and!; [by destruct s|done|]. intros i. by rewrite decide_False by lia.
  - rewrite (bind_Done _ _ s () (with_prev (<[from := x]> (prev_ s)) s)).
    2:{ apply modO_Done. by rewrite decide_True by lia. }
    destruct (IH (S from) (with_prev (<[from := x]> (prev_ s)) s)) as (ps & Hr & Hl & Hps).
    { cbn. rewrite length_insert. lia. }
    exists ps. split_and!; [done|rewrite Hl; cbn; by rewrite length_insert|]. intros i. rewrite Hps. cbn.
    repeat case_decide; try lia; try done.
    + assert (i = from) as -> by lia. rewrite list_lookup_insert_eq; [done|lia].
    + rewrite list_lookup_insert_ne; [done|lia].
Qed.

Lemma is_pred_later s L i k k' q : is_pred s L i k q → lt k k' →
  (∀ e, e ∈ L → (i < eheight e)%nat → ¬ lt (ekey e) k → ¬ lt (ekey e) k') → is_pred s L i k' q.
Proof.
  intros (Hv & Hb & Hp) Hlt Hge. split_and!; [done| |].
  - destruct q as [e|]; [|done]. apply beforeb_lt in Hb. apply beforeb_lt. by eapply lt_trans.
  - intros e He Hh Ha. apply Hge; [done..|]. by apply Hp.
Qed.

Lemma find_prev_run fuel k s L : rep s L → prev_ok s L → (length L + max_height_ s ≤ fuel)%nat →
  ∃ ps, find_prev fuel k s = Done ((), with_prev ps s) ∧ length ps = kMaxHeight_ s ∧
    ∀ i, (i < max_height_ s)%nat → ∃ q, ps !! i = Some (ptr_of s q) ∧ is_pred s L i k q.
Proof.
  intros R [Hlen Hfirst] Hfuel. pose proof (rep_max s L R) as Hmax.
  assert (∃ q, prev_ s !! 0%nat = Some (ptr_of s q) ∧ valid s L q 0) as (q0 & Hq0 & Hv0).
  { destruct Hfirst as [(_ & _ & _ & H0)|(e & He & H0 & _)]; [exists None; split; [done|cbn; lia]|].
    exists (Some e). split; [done|split; [done|]]. apply (rep_height s L R) in He. lia. }
  set (aft := match succ L 0 q0 with Some e => bool_decide (lt (ekey e) k) | None => false end).
  unfold find_prev, read_prev. rewrite (getsO_bind _ _ s _ Hq0), (bind_Done _ _ _ _ _ (Next_run R q0 0 Hv0)).
  rewrite (bind_Done _ _ s aft s).
  2:{ apply (KeyIsAfterNode_run R). intros e Hs. by apply (succ_Some R) in Hs as (He & _). }
  rewrite (bind_Done _ _ _ _ _ (before_run R q0 0 k Hv0)).
  destruct (negb aft && beforeb q0 k) eqn:Hfast.
  - apply andb_true_iff in Hfast as [Haft%negb_true_iff Hb]. rewrite !gets_bind. unfold GetMaxHeight. rewrite gets_bind.
    assert (is_pred s L 0 k q0) as Hp0.
    { apply succ_pred; [done..|]. intros e Hs. unfold aft in Haft. rewrite Hs in Haft. by apply bool_decide_eq_false in Haft. }
    rewrite (bind_Done _ _ s () s).
    2:{ unfold assertS. rewrite decide_True; [done|]. destruct Hfirst as [(_ & ? & ? & _)|(e & He & H0 & _)]; [by right|left].
        rewrite Hq0 in H0. injection H0 as ->. by apply (eptr_head R). }
    destruct Hfirst as [(-> & Hph & Hmh & H0)|(e & He & H0 & Hph & Hup)].
    + rewrite Hph. exists (prev_ s). split_and!; [by destruct s|done|]. intros i Hi. exists q0. assert (i = 0)%nat as -> by lia. done.
    + pose proof (rep_height s L R e He) as Hhe.
      destruct (fill_prev_run (prev_height_ s - 1) 1 (ptr_of s q0) s) as (ps & Hrun & Hl & Hps); [lia|].
      exists ps. split_and!; [done|lia|]. intros i Hi. rewrite Hps.
      assert (q0 = Some e) as ->. { apply (ptr_of_inj R q0 (Some e) 0 Hv0); [split; [done|lia]|]. rewrite Hq0 in H0. by injection H0. }
      apply beforeb_lt in Hb. destruct Hp0 as (_ & _ & Hp0).
      destruct (decide (i < prev_height_ s)%nat) as [Hlow|Hhigh].
      * exists (Some e). split; [case_decide; [done|]; by assert (i = 0)%nat as -> by lia|].
        split_and!; [split; [done|lia]|by apply beforeb_lt|]. intros e' He' Hh Ha. apply Hp0; [done|lia|done].
      * destruct (Hup i) as (q & Hq & Hpq); [lia|]. exists q. split; [by rewrite decide_False by lia|].
        apply (is_pred_later _ _ _ (ekey e)); [done..|]. intros e' He' Hh Hn. apply Hp0; [done|lia|].
        destruct (sorted_total L e e' (rep_sorted s L R) He He') as [<-|[Hl'|Hl']]; [lia|done|done].
  - destruct (FindLessThan_run fuel s L k R Hfuel) as (q & ps & Hrun & _ & Hl & Hps).
    rewrite (bind_Done _ _ _ _ _ Hrun). exists (ps ++ drop (length ps) (prev_ s)). split_and!.
    + apply modO_Done. cbn. by rewrite decide_True by lia.
    + rewrite length_app, length_drop. lia.
    + intros i Hi. destruct (lookup_lt_is_Some_2 ps i) as [p Hp]; [lia|].
      destruct (Hps i p Hp) as (q' & -> & Hq'). exists q'. split; [|done]. by rewrite lookup_app_l by lia.
Qed.

Lemma random_height_run n rands h s : (n ≤ length rands)%nat →
  ∃ h', random_height n rands h s = Done (h', s) ∧ (h ≤ h' ≤ h + n)%nat.
Proof.
  revert rands h. induction n as [|n IH]; intros rands h Hl; cbn [random_height]; [exists h; split; [done|lia]|].
  destruct rands as [|r rands]; [cbn in Hl; lia|]. rewrite (getsO_bind _ _ s r) by done. rewrite gets_bind. case_decide.
  - destruct (IH rands (S h)) as (h' & Hr & Hh); [cbn in Hl; lia|]. exists h'. split; [done|lia].
  - exists h. split; [done|lia].
Qed.
Lemma RandomHeight_run rands s : (1 ≤ kMaxHeight_ s ≤ S (length rands))%nat →
  ∃ h, RandomHeight rands s = Done (h, s) ∧ (1 ≤ h ≤ kMaxHeight_ s)%nat.
Proof.
  intros Hk. unfold RandomHeight. rewrite gets_bind.
  destruct (random_height_run (kMaxHeight_ s - 1) rands 1 s) as (h & Hr & Hh); [lia|].
  exists h. split; [|lia]. rewrite (bind_Done _ _ _ _ _ Hr). unfold assertS. by rewrite decide_True by lia.
Qed.

(** A new key cuts the list in two. *)
Lemma split_at L k : sorted L → (∀ e, e ∈ L → compare_ k (ekey e) ≠ 0) →
  ∃ L1 L2, L = L1 ++ L2 ∧ (∀ e, e ∈ L1 → lt (ekey e) k) ∧ (∀ e, e ∈ L2 → lt k (ekey e)).
Proof.
  induction 1 as [|a L Hs IH Hall]; intros Hne.
  - exists [], []. split_and!; [done|set_solver..].
  - destruct (decide (lt (ekey a) k)) as [Hlt|Hn].
    + destruct IH as (L1 & L2 & -> & H1 & H2); [intros e He; apply Hne; by right|].
      exists (a :: L1), L2. split_and!; [done| |done]. intros e [->|He]%elem_of_cons; auto.
    + exists [], (a :: L). split_and!; [done|set_solver|].
      assert (lt k (ekey a)) as Hlt.
      { destruct (decide (lt k (ekey a))) as [|Hn']; [done|]. destruct (Hne a); [by left|]. by apply compare_zero. }
      intros e [->|He]%elem_of_cons; [done|]. rewrite Forall_forall in Hall. by apply (lt_trans _ (ekey a)), Hall.
Qed.

Lemma raise_height_run s h : (1 ≤ max_height_ s)%nat → length (prev_ s) = kMaxHeight_ s → (h ≤ kMaxHeight_ s)%nat →
  ∃ ps mh, raise_height h s = Done ((), with_max mh (with_prev ps s)) ∧ length ps = kMaxHeight_ s ∧
    mh = (max_height_ s `max` h)%nat ∧
    ∀ i, ps !! i = if decide (max_height_ s ≤ i < h)%nat then Some (head_ s) else prev_ s !! i.
Proof.
  intros Hm Hl Hh. unfold raise_height, GetMaxHeight. rewrite gets_bind. case_decide.
  - rewrite gets_bind. destruct (fill_prev_run (h - max_height_ s) (max_height_ s) (head_ s) s) as (ps & Hr & Hlen & Hps); [lia|].
    rewrite (bind_Done _ _ _ _ _ Hr). exists ps, h. split_and!; [done|lia|lia|]. intros i. rewrite Hps.
    repeat case_decide; try lia; done.
  - exists (prev_ s), (max_height_ s). split_and!; [by destruct s|done|lia|]. intros i. by rewrite decide_False by lia.
Qed.

Lemma prepare_run fuel mem rands k s L : rep s L → prev_ok s L →
  (∀ e, e ∈ L → compare_ k (ekey e) ≠ 0) → nodes s !! mem = None →
  (kMaxHeight_ s ≤ S (length rands))%nat → (length L + max_height_ s ≤ fuel)%nat →
  ∃ s' L1 L2 height, prepare fuel mem rands k s = Done (height, s') ∧ L = L1 ++ L2 ∧ (1 ≤ height)%nat ∧
    linking s' L1 L2 mem k height 0 ∧ length (prev_ s') = kMaxHeight_ s' ∧
    head_ s' = head_ s ∧ kMaxHeight_ s' = kMaxHeight_ s.
Proof.
  intros R Hpv Hne Hmem Hrands Hfuel. pose proof (rep_max s L R) as Hmax.
  destruct (find_prev_run fuel k s L R Hpv Hfuel) as (ps & Hfind & Hlen & Hps).
  set (s1 := with_prev ps s). assert (rep s1 L) as R1 by (by apply (rep_ext s); cbn; try done; lia).
  destruct (Hps 0%nat) as (q0 & Hq0 & Hp0); [lia|].
  unfold prepare. rewrite (bind_Done _ _ _ _ _ Hfind). fold s1.
  rewrite (bind_Done _ _ s1 () s1).
  2:{ apply check_run. unfold not_equal_next, read_prev. rewrite (getsO_bind _ _ s1 _ Hq0).
      change (ptr_of s q0) with (ptr_of s1 q0). rewrite (bind_Done _ _ _ _ _ (Next_run R1 q0 0 (proj1 Hp0))).
      destruct (succ L 0 q0) as [e|] eqn:Hs; [|done]. apply (succ_Some R1) in Hs as (He & _).
      cbn [fmap option_fmap option_map]. rewrite (bind_Done _ _ _ _ _ (node_key_run R1 e He)).
      unfold Equal. rewrite bool_decide_eq_false_2; [done|]. by apply Hne. }
  destruct (RandomHeight_run rands s1) as (h & Hh & Hhr); [cbn; lia|]. rewrite (bind_Done _ _ _ _ _ Hh).
  destruct (raise_height_run s1 h) as (ps' & mh & Hraise & Hlen' & -> & Hps'); [unfold s1; cbn in *; lia..|].
  rewrite (bind_Done _ _ _ _ _ Hraise). set (s2 := with_max _ _).
  unfold NewNode. rewrite modS_bind. set (s3 := with_nodes _ s2).
  destruct (split_at L k (rep_sorted s L R) Hne) as (L1 & L2 & -> & HL1 & HL2).
  assert (∀ e, e ∈ L1 ++ L2 → eptr e ≠ mem) as Hfresh.
  { intros e He Heq. pose proof (rep_key s _ R e He) as Hk. rewrite Heq, Hmem in Hk. done. }
  assert (head_ s ≠ mem) as Hhead.
  { intros Heq. assert (valid s (L1 ++ L2) None 0) as Hv by (cbn; lia).
    pose proof (rep_next s _ R None 0%nat Hv) as Hn. cbn in Hn. by rewrite Heq in Hn; unfold next_of in Hn; rewrite Hmem in Hn. }
  cbn in Hhr. exists s3, L1, L2, h. split_and!; [done|done|lia| |exact Hlen'|done|done].
  split; try done.
  - apply (rep_ext s); try done.
    + unfold s3, s2, s1. cbn. lia.
    + intros e He. cbn. by rewrite lookup_insert_ne by (apply not_eq_sym, Hfresh, He).
    + intros q i Hv. cbn. unfold next_of. rewrite lookup_insert_ne; [done|]. apply not_eq_sym.
      destruct q as [e|]; [by apply Hfresh, Hv|done].
  - intros (e & Heq & He)%list_elem_of_fmap. by apply (Hfresh e).
  - exists (mkNode k (replicate h None)). split_and!; [apply lookup_insert_eq|done|apply length_replicate].
  - unfold s3, s2, s1. cbn. lia.
  - intros i Hi. change (i < max_height_ s `max` h)%nat in Hi. change (prev_ s3) with ps'. rewrite Hps'.
    change (max_height_ s1) with (max_height_ s). change (kMaxHeight_ s1) with (kMaxHeight_ s) in *. case_decide.
    + exists None. split; [done|]. split_and!; [cbn; lia|done|]. intros e He He'. apply (rep_height s _ R) in He. lia.
    + destruct (Hps i) as (q & Hq & Hp); [lia|]. by exists q.
Qed.

(** The linking loop, from any of its rounds on. *)
Lemma link_levels_run n j s L1 L2 x k height : linking s L1 L2 x k height j → (j + n = height)%nat →
  ∃ m, link_levels n j x s = Done ((), with_nodes m s) ∧ linking (with_nodes m s) L1 L2 x k height height.
Proof.
  revert j s. induction n as [|n IH]; intros j s W Hn; cbn [link_levels].
  - exists (nodes s). replace height with j by lia. destruct s. split; [done|]. by replace j with height in * by lia.
  - destruct (init_link_run s L1 L2 x k height j W) as (m1 & Hr1 & W1 & Hx); [lia|].
    destruct (publish_run _ L1 L2 x k height j W1) as (m2 & Hr2 & W2); [lia|done|].
    destruct (IH (S j) _ W2) as (m & Hr & W'); [lia|].
    exists m. split; [|done]. unfold link_level. rewrite (prog_run _ _ (prog_assoc _ _ _)).
    by rewrite (bind_Done _ _ _ _ _ Hr1), (bind_Done _ _ _ _ _ Hr2).
Qed.

Lemma finish_insert_run s L1 L2 x k height : linking s L1 L2 x k height height → (1 ≤ height)%nat →
  length (prev_ s) = kMaxHeight_ s →
  ∃ s', finish x height s = Done ((), s') ∧ rep s' (L1 ++ Elem x k height :: L2) ∧
    prev_ok s' (L1 ++ Elem x k height :: L2) ∧ head_ s' = head_ s ∧ kMaxHeight_ s' = kMaxHeight_ s.
Proof.
  intros W Hh Hlen. pose proof (lk_rep _ _ _ _ _ _ _ W) as R. pose proof (rep_max _ _ R) as Hmax.
  assert (linked L1 L2 x k height = L1 ++ Elem x k height :: L2) as Heq by (by destruct height; [lia|]).
  rewrite Heq in R. unfold finish. erewrite bind_Done.
  2:{ apply modO_Done. by rewrite decide_True by lia. }
  eexists. split; [done|]. split_and!; [|split|done|done]; cbn.
  - by apply (rep_ext s); cbn; try done; lia.
  - by rewrite length_insert.
  - right. exists (Elem x k height). split_and!; [set_solver|by rewrite list_lookup_insert_eq by lia|done|].
    intros i Hi. rewrite list_lookup_insert_ne by lia. destruct (lk_prev _ _ _ _ _ _ _ W i) as (q & Hq & Hv & Hb & Hp); [lia|].
    exists q. split; [done|]. split_and!; [|done|].
    + destruct q as [e|]; [|done]. destruct Hv as [He ?]. split; [set_solver|done].
    + intros e He Hhe Ha. assert (e ∈ L1 ++ L2) as He'; [|by apply Hp].
      rewrite elem_of_app, elem_of_cons in He. destruct He as [?|[->|?]]; [set_solver|cbn in Hhe; lia|set_solver].
Qed.

Lemma Insert_run fuel mem rands k s L : rep s L → prev_ok s L →
  (∀ e, e ∈ L → compare_ k (ekey e) ≠ 0) → nodes s !! mem = None →
  (kMaxHeight_ s ≤ S (length rands))%nat → (length L + max_height_ s ≤ fuel)%nat →
  ∃ s' L1 L2 height, Insert fuel mem rands k s = Done ((), s') ∧ L = L1 ++ L2 ∧ (1 ≤ height)%nat ∧
    rep s' (L1 ++ Elem mem k height :: L2) ∧ prev_ok s' (L1 ++ Elem mem k height :: L2) ∧
    kMaxHeight_ s' = kMaxHeight_ s.
Proof.
  intros R Hpv Hne Hmem Hrands Hfuel.
  destruct (prepare_run fuel mem rands k s L R Hpv Hne Hmem Hrands Hfuel) as (s1 & L1 & L2 & h & Hprep & HL & Hh & W & Hlen & _ & Hk).
  destruct (link_levels_run h 0 s1 L1 L2 mem k h W) as (m & Hlink & W'); [lia|].
  destruct (finish_insert_run _ L1 L2 mem k h W' Hh) as (s' & Hfin & R' & Hpv' & _ & Hk'); [done|].
  exists s', L1, L2, h. split_and!; try done; [|etrans; [exact Hk'|exact Hk]].
  unfold Insert. by rewrite (bind_Done _ _ _ _ _ Hprep), (bind_Done _ _ _ _ _ Hlink).
Qed.

(** ** Iterators as cursors *)
Definition last_lt L (k : K) : option elem := last (filter (λ e, lt (ekey e) k) L).
Definition last_le L (k : K) : option elem := last (filter (λ e, ¬ lt k (ekey e)) L).

Lemma last_sorted L e : sorted L → last L = Some e ↔ e ∈ L ∧ ∀ e', e' ∈ L → e' = e ∨ lt (ekey e') (ekey e).
Proof.
  intros Hs. split.
  - intros [L0 ->]%last_Some. split; [set_solver|]. intros e' [He'|He']%elem_of_app; [right|left; set_solver].
    apply (StronglySorted_app_1_elem_of _ _ _ e' e Hs); set_solver.
  - intros [He Hmax]. destruct (last L) as [e'|] eqn:Hl; [|apply last_None in Hl; set_solver].
    apply last_Some in Hl as [L0 ->]. f_equal. apply elem_of_app in He as [He|He]; [|set_solver].
    assert (lt (ekey e) (ekey e')) as Hlt by (apply (StronglySorted_app_1_elem_of _ _ _ e e' Hs); set_solver).
    destruct (Hmax e') as [->|Hlt']; [set_solver|done|]. by destruct (lt_asym _ _ Hlt).
Qed.
Lemma filter_sorted (P : elem → Prop) `{∀ e, Decision (P e)} L : sorted L → sorted (filter P L).
Proof.
  unfold sorted. induction 1 as [|a L Hs IH Hall]; [constructor|]. rewrite filter_cons. case_decide; [|done].
  constructor; [done|]. rewrite Forall_forall in *. intros e [_ He]%list_elem_of_filter. by apply Hall.
Qed.
Lemma last_filter_Some (P : elem → Prop) `{∀ e, Decision (P e)} L e : sorted L →
  last (filter P L) = Some e ↔ e ∈ L ∧ P e ∧ ∀ e', e' ∈ L → P e' → e' = e ∨ lt (ekey e') (ekey e).
Proof.
  intros Hs. rewrite last_sorted by (by apply filter_sorted). setoid_rewrite list_elem_of_filter. naive_solver.
Qed.
Lemma last_filter_None (P : elem → Prop) `{∀ e, Decision (P e)} L :
  last (filter P L) = None ↔ ∀ e, e ∈ L → ¬ P e.
Proof.
  rewrite last_None. split; [|intros; by apply filter_none].
  intros Hf e He HP. assert (e ∈ filter P L) as Hin by (by apply list_elem_of_filter). rewrite Hf in Hin. by apply elem_of_nil in Hin.
Qed.

Lemma is_pred_last s L k q : rep s L → is_pred s L 0 k q → q = last_lt L k.
Proof.
  intros R (Hv & Hb & Hp). symmetry. destruct q as [e|].
  - destruct Hv as [He Hh]. apply beforeb_lt in Hb. apply last_filter_Some; [apply R|]. split_and!; [done..|].
    intros e' He' Hlt. destruct (sorted_total L e' e (rep_sorted s L R) He' He) as [|[|Hgt]]; [by left|by right|].
    destruct (Hp e' He'); [apply (rep_height s L R) in He'; lia|done|done].
  - apply last_filter_None. intros e He. apply (Hp e He); [apply (rep_height s L R) in He; lia|done].
Qed.

Lemma not_head_run s L q i : rep s L → valid s L q i → not_head (ptr_of s q) s = Done (eptr <$> q, s).
Proof.
  intros R Hv. unfold not_head. rewrite gets_bind. destruct q as [e|]; cbn.
  - by rewrite decide_False by (apply (eptr_head R), Hv).
  - by rewrite decide_True.
Qed.

Section cursor.
Context {s : SkipList} {L : list elem} (R : rep s L) (fuel : nat) (Hfuel : (length L + max_height_ s ≤ fuel)%nat).

Lemma iter_Next_run e : e ∈ L → iter_Next (Some (eptr e)) s = Done (eptr <$> succ L 0 (Some e), s).
Proof. intros He. apply (Next_run R (Some e)). split; [done|]. apply (rep_height s L R) in He. lia. Qed.

Lemma Prev_run e : e ∈ L → Prev fuel (Some (eptr e)) s = Done (eptr <$> last_lt L (ekey e), s).
Proof.
  intros He. unfold Prev. cbn [iter_key]. rewrite (bind_Done _ _ _ _ _ (node_key_run R e He)).
  destruct (FindLessThan_run fuel s L (ekey e) R Hfuel) as (q & ps & Hr & Hp & _).
  rewrite (bind_Done _ _ _ _ _ Hr). cbn [fst]. rewrite (not_head_run s L q 0 R (proj1 Hp)).
  by rewrite (is_pred_last s L (ekey e) q R Hp).
Qed.

Lemma SeekToFirst_run : SeekToFirst s = Done (eptr <$> head L, s).
Proof.
  unfold SeekToFirst. rewrite gets_bind. pose proof (rep_max s L R).
  change (head_ s) with (ptr_of s None). rewrite (Next_run R None 0) by (cbn; lia).
  unfold succ. rewrite filter_all; [done|]. intros e He. apply (rep_height s L R) in He. split; [lia|done].
Qed.

Lemma SeekToLast_run : SeekToLast fuel s = Done (eptr <$> last L, s).
Proof.
  unfold SeekToLast. rewrite (bind_Done _ _ _ _ _ (FindLast_run fuel s L R Hfuel)).
  apply (not_head_run s L _ 0 R). pose proof (rep_max s L R). destruct (last L) as [e|] eqn:Hl; [|cbn; lia].
  apply (last_sorted L e (rep_sorted s L R)) in Hl as [He _]. split; [done|]. apply (rep_height s L R) in He. lia.
Qed.

(** One step back is enough. *)
Lemma last_le_of k e : first_ge L k = Some e → last_le L k = if LessThan k (ekey e) then last_lt L (ekey e) else Some e.
Proof.
  intros (He & Hn & Hmin)%(first_ge_Some s _ _ _ R). unfold LessThan. case_bool_decide as Hlt.
  - unfold last_le, last_lt. f_equal. apply filter_iff_in. intros e' He'. split.
    + intros Hle. assert (¬ lt (ekey e) (ekey e')) as Hge by (intros ?; by apply Hle, (lt_trans _ (ekey e))).
      destruct (sorted_total L e' e (rep_sorted s L R) He' He) as [->|[|]]; done.
    + intros Hlt' Hk. destruct (decide (lt (ekey e') k)) as [Hl|Hl]; [by apply (lt_asym _ _ Hl)|].
      destruct (Hmin e' He' Hl) as [->|Hl']; [by apply (lt_irrefl (ekey e))|by apply (lt_asym _ _ Hl')].
  - apply last_filter_Some; [apply R|]. split_and!; [done..|]. intros e' He' Hle.
    destruct (sorted_total L e' e (rep_sorted s L R) He' He) as [|[|Hgt]]; [by left|by right|].
    destruct Hle. by apply (le_lt_trans _ (ekey e)).
Qed.

Lemma SeekForPrev_run k : SeekForPrev fuel k s = Done (eptr <$> last_le L k, s).
Proof.
  unfold SeekForPrev, Seek. pose proof (rep_max s L R).
  rewrite (bind_Done _ _ _ _ _ (FindGreaterOrEqual_run fuel s L k R Hfuel)).
  assert (∀ n e, e ∈ L → LessThan k (ekey e) = false → retreat (S n) fuel k (Some (eptr e)) s = Done (Some (eptr e), s)) as Hstay.
  { intros n e He Hle. cbn [retreat]. by rewrite (bind_Done _ _ _ _ _ (node_key_run R e He)), Hle. }
  destruct (first_ge L k) as [e|] eqn:Hf; cbn [fmap option_fmap option_map].
  - rewrite (last_le_of k e Hf). apply (first_ge_Some s _ _ _ R) in Hf as (He & Hn & Hmin).
    rewrite (bind_Done _ _ s (Some (eptr e)) s) by done. destruct (LessThan k (ekey e)) eqn:Hlt; [|by apply Hstay].
    cbn [retreat]. rewrite (bind_Done _ _ _ _ _ (node_key_run R e He)), Hlt, (bind_Done _ _ _ _ _ (Prev_run e He)).
    destruct (last_lt L (ekey e)) as [e'|] eqn:Hl; [|by destruct fuel].
    apply (last_filter_Some _ _ _ (rep_sorted s L R)) in Hl as (He' & Hlt' & _).
    destruct fuel as [|f] eqn:Hfu; [lia|]. rewrite <-Hfu in *. rewrite Hfu at 1. apply Hstay; [done|].
    apply bool_decide_eq_false_2. intros Hk. destruct (decide (lt (ekey e') k)) as [Hl|Hl]; [by apply (lt_asym _ _ Hl)|].
    destruct (Hmin e' He' Hl) as [->|Hl']; [by apply (lt_irrefl (ekey e))|by apply (lt_asym _ _ Hl')].
  - rewrite (bind_Done _ _ _ _ _ SeekToLast_run). unfold first_ge in Hf. rewrite head_filter_None in Hf.
    assert (last_le L k = last L) as ->.
    { unfold last_le. rewrite filter_all; [done|]. intros e He Hk. apply (Hf e He). by apply lt_asym. }
    destruct (last L) as [e|] eqn:Hl; [|done]. apply (last_sorted L e (rep_sorted s L R)) in Hl as [He _].
    apply Hstay; [done|]. apply bool_decide_eq_false_2. intros Hk. apply (Hf e He). by apply lt_asym.
Qed.
End cursor.

(** The state stands for the elements [L], in order. *)
Definition is_list (s : SkipList) L : Prop := rep s L ∧ prev_ok s L.

Lemma construct_list mem any h b s : h < 2 ^ 31 → construct mem any h b = Done s → is_list s [].
Proof.
  intros Hh Hc. split; [by eapply construct_rep|]. unfold construct in Hc. repeat case_decide; try done.
  injection Hc as <-. destruct H0 as (H0 & H1 & _). rewrite u32_small in H1 by lia. rewrite H1.
  split; cbn; [apply length_replicate|]. left. split_and!; try done. rewrite lookup_replicate_2; [done|lia].
Qed.

(** C4: Insert, on the fast path for sequential keys and with the search, puts
    the new key at its place in the ordered list and links it into as many
    levels as its random height; no assertion fails and the cached
    predecessors are right for the next call. *)
Theorem Insert_spec fuel mem rands k s L :
  is_list s L → (∀ e, e ∈ L → compare_ k (ekey e) ≠ 0) → nodes s !! mem = None →
  (kMaxHeight_ s ≤ S (length rands))%nat → (length L + max_height_ s ≤ fuel)%nat →
  ∃ s' L1 L2 height, Insert fuel mem rands k s = Done ((), s') ∧ L = L1 ++ L2 ∧
    is_list s' (L1 ++ Elem mem k height :: L2) ∧ Contains fuel k s = Done (false, s).
Proof.
  intros [R Hpv] Hne Hmem Hrands Hfuel.
  destruct (Insert_run fuel mem rands k s L R Hpv Hne Hmem Hrands Hfuel) as (s' & L1 & L2 & h & Hr & HL & _ & R' & Hpv' & _).
  exists s', L1, L2, h. split_and!; [done..|]. rewrite (Contains_run fuel s L k R Hfuel). do 2 f_equal.
  apply not_true_iff_false. rewrite existsb_exists. intros (e & He%list_elem_of_In & Heq).
  apply (Hne e He). by apply bool_decide_eq_true in Heq.
Qed.

(** What the list answers is what the ordered sequence [L] says: searching,
    membership, and an iterator as a cursor on [L] in both directions. *)
Theorem reads_spec fuel k s L : is_list s L → (length L + max_height_ s ≤ fuel)%nat →
  Contains fuel k s = Done (existsb (λ e, Equal k (ekey e)) L, s) ∧
  Seek fuel k s = Done (eptr <$> first_ge L k, s) ∧
  SeekForPrev fuel k s = Done (eptr <$> last_le L k, s) ∧
  SeekToFirst s = Done (eptr <$> head L, s) ∧ SeekToLast fuel s = Done (eptr <$> last L, s) ∧
  (∃ n, EstimateCount fuel k s = Done (n, s)) ∧
  ∀ L1 e L2, L = L1 ++ e :: L2 →
    iter_key (Some (eptr e)) s = Done (ekey e, s) ∧
    iter_Next (Some (eptr e)) s = Done (eptr <$> head L2, s) ∧
    Prev fuel (Some (eptr e)) s = Done (eptr <$> last L1, s).
Proof.
  intros [R _] Hfuel. split_and!.
  - by apply Contains_run.
  - by apply FindGreaterOrEqual_run.
  - by apply SeekForPrev_run.
  - by eapply SeekToFirst_run.
  - by apply SeekToLast_run.
  - by apply (EstimateCount_run _ _ L).
  - intros L1 e L2 ->. pose proof (rep_sorted s _ R) as Hs. assert (e ∈ L1 ++ e :: L2) as He by set_solver.
    assert (∀ e', e' ∈ L1 → lt (ekey e') (ekey e)) as H1.
    { intros e' He'. apply (StronglySorted_app_1_elem_of _ _ _ e' e Hs); set_solver. }
    assert (∀ e', e' ∈ L2 → lt (ekey e) (ekey e')) as H2.
    { apply StronglySorted_app_1_r in Hs. inv Hs. by apply Forall_forall. }
    split_and!.
    + by apply (node_key_run R).
    + rewrite (iter_Next_run R fuel Hfuel e He). do 2 f_equal. rewrite succ_app, succ_cons.
      rewrite decide_False by (cbn; intros [_ ?]; by apply (lt_irrefl (ekey e))).
      assert (succ L1 0 (Some e) = None) as ->.
      { apply head_filter_None. intros e' He' [_ Ha]. by apply (lt_asym _ _ Ha), H1. }
      unfold succ. rewrite filter_all; [done|]. intros e' He'. split; [|by apply H2].
      enough (1 ≤ eheight e')%nat by lia. apply (rep_height s _ R). set_solver.
    + rewrite (Prev_run R fuel Hfuel e He). do 2 f_equal. unfold last_lt. rewrite filter_app, filter_cons_False by apply lt_irrefl.
      rewrite filter_all by done. rewrite (filter_none _ L2), app_nil_r; [done|]. intros e' He'. apply lt_asym. by apply H2.
Qed.
End list.
(** IntComparator of test_skiplist.cc, as long as [a - b] is an [int]. *)
Definition IntComparator (a b : Z) : Z := a - b.
#[global] Instance int_comparator : Comparator IntComparator.
Proof. split; unfold IntComparator; lia. Qed.

(** The keys along level [i]. *)
Fixpoint level_keys (fuel i : nat) (x : ptr) : prog (SkipList (K := Z)) (list Z) :=
  match fuel with
  | O => mret []
  | S fuel => next ← Next x i; match next with None => mret [] | Some y => k ← node_key y; l ← level_keys fuel i y; mret (k :: l) end
  end.
Lemma demo_levels :
  match construct 1 0 4 4 with
  | Done s =>
      match (Insert IntComparator 20 2 [4294967295] 2;; Insert IntComparator 20 3 [0; 4294967295] 9;;
             Insert IntComparator 20 4 [4294967295] 30;; Insert IntComparator 20 5 [0; 0; 4294967295] 3;;
             Insert IntComparator 20 6 [4294967295] 7;;
             l0 ← level_keys 9 0 1; l1 ← level_keys 9 1 1; l2 ← level_keys 9 2 1; mret (l0, l1, l2)) s with
      | Done (r, _) => r = ([2; 3; 7; 9; 30], [3; 9], [3])
      | _ => False
      end
  | _ => False
  end.
Proof. by vm_compute. Qed.

(** A list of up to three levels with no key yet. *)
Definition empty3 : SkipList (K := Z) := mkList 3 4 1073741823 1 1 [1; 1; 1]%positive 1 {[1%positive := mkNode 0 [Some None; Some None; Some None]]}.
Lemma empty3_list : is_list IntComparator empty3 [].
Proof. by apply (construct_list IntComparator 1 0 3 4). Qed.

Lemma Insert_spec_witness :
  ∃ s' h, Insert IntComparator 1 2 [0; 4294967295] 9 empty3 = Done ((), s') ∧ is_list IntComparator s' [Elem 2 9 h].
Proof.
  destruct (Insert_spec IntComparator 1 2 [0; 4294967295] 9 empty3 [] empty3_list) as (s' & L1 & L2 & h & Hr & HL & Hlist & _).
  - intros e He. by apply elem_of_nil in He.
  - done.
  - cbn. lia.
  - cbn. lia.
  - symmetry in HL. apply app_nil in HL as [-> ->]. exists s', h. by split.
Defined.
Lemma one_list : ∃ s' h, Insert IntComparator 1 2 [0; 4294967295] 9 empty3 = Done ((), s') ∧ is_list IntComparator s' [Elem 2 9 h].
Proof.
  destruct (Insert_run IntComparator 1 2 [0; 4294967295] 9 empty3 []) as (s' & L1 & L2 & h & Hr & HL & _ & Hrep & Hprev & _);
    [apply empty3_list..|set_solver|done|cbn; lia|cbn; lia|].
  symmetry in HL. apply app_nil in HL as [-> ->]. by exists s', h.
Qed.
Lemma reads_spec_witness : ∃ s', Insert IntComparator 1 2 [0; 4294967295] 9 empty3 = Done ((), s') ∧
  Contains IntComparator 4 9 s' = Done (true, s') ∧ Seek IntComparator 4 10 s' = Done (None, s') ∧
  SeekForPrev IntComparator 4 10 s' = Done (Some 2%positive, s').
Proof.
  destruct one_list as (s' & h & Hr & Hl). exists s'.
  assert (max_height_ s' = 2%nat) as Hm by (vm_compute in Hr; injection Hr as <-; done).
  assert (1 + max_height_ s' ≤ 4)%nat as Hfuel by (rewrite Hm; lia).
  destruct (reads_spec IntComparator 4 9 s' _ Hl Hfuel) as (Hc & _).
  destruct (reads_spec IntComparator 4 10 s' _ Hl Hfuel) as (_ & Hs & Hp & _).
  split_and!; [done|exact Hc|exact Hs|exact Hp].
Defined.

(** A key that is in the list already fails the assertion. *)
Lemma insert_duplicate :
  (Insert IntComparator 5 2 [0; 4294967295] 9;; Insert IntComparator 5 3 [4294967295] 9) empty3 = Undef.
Proof. by vm_compute. Qed.
End KeyList.
