(* ===== verification/ConcReader.v ===== *)
(** Readers without locks beside one writer, on the skip list of KeyList.v.

    The writer's step is an atomic store or what it does between two stores
    that readers see: what [Insert] does before it publishes the new node, one
    of the two stores of a round of its linking loop, the end.  The reader runs
    FindGreaterOrEqual, a step for each round, that is each atomic load.  Steps
    are taken one after the other: the release stores and acquire loads of the
    code make a reader that sees a node see its key and links too. *)
From S2P Require Import Prelude KeyList.
Import KeyList.

Module ConcReader.
Section conc.
Context {K : Type} (compare_ : K → K → Z).
Abbreviation SkipList := (SkipList (K := K)).

Inductive writer :=
  | Idle
  | Init (x : ptr) (height i : nat)
  | Publish (x : ptr) (height i : nat)
  | Finishing (x : ptr) (height : nat).

(** [Found] keeps the list as the last load saw it. *)
Inductive reader :=
  | Start
  | At (p : position)
  | Found (res : option ptr) (snapshot : SkipList).

Record system := System { the_list : SkipList; the_writer : writer; the_reader : reader }.

Inductive event := EInsert (mem : ptr) (rands : list Z) (k : K) | EWriter | EReader.

Definition enough (s : SkipList) : nat := size (nodes s) + max_height_ s.

Definition done_state {A} (o : outcome (A * SkipList)) : option (A * SkipList) :=
  match o with Done r => Some r | _ => None end.

(** Insert may be called with a key that is not in the list; [malloc] returns
    fresh memory. *)
Definition insert_step (mem : ptr) (rands : list Z) (k : K) (y : system) : option system :=
  let s := the_list y in
  match the_writer y, nodes s !! mem, Contains compare_ (enough s) k s with
  | Idle, None, Done (false, _) =>
      if decide (kMaxHeight_ s ≤ S (length rands))%nat then
        '(height, s') ← done_state (prepare compare_ (enough s) mem rands k s);
        Some (System s' (Init mem height 0) (the_reader y))
      else None
  | _, _, _ => None
  end.

Definition writer_step (y : system) : option system :=
  let s := the_list y in
  match the_writer y with
  | Idle => None
  | Init x height i => '(_, s') ← done_state (init_link x i s); Some (System s' (Publish x height i) (the_reader y))
  | Publish x height i =>
      '(_, s') ← done_state (publish x i s);
      Some (System s' (if decide (S i = height) then Finishing x height else Init x height (S i)) (the_reader y))
  | Finishing x height => '(_, s') ← done_state (finish x height s); Some (System s' Idle (the_reader y))
  end.

Definition reader_step (k : K) (y : system) : option system :=
  let s := the_list y in
  match the_reader y with
  | Start => '(p, _) ← done_state (start s); Some (System s (the_writer y) (At p))
  | At p =>
      '(r, _) ← done_state (fge_step compare_ k p s);
      Some (System s (the_writer y) (match r with inl res => Found res s | inr p => At p end))
  | Found _ _ => None
  end.

Definition step (k : K) (e : event) (y : system) : option system :=
  match e with
  | EInsert mem rands k' => insert_step mem rands k' y
  | EWriter => writer_step y
  | EReader => reader_step k y
  end.
Fixpoint run (k : K) (es : list event) (y : system) : option system :=
  match es with [] => Some y | e :: es => y ← step k e y; run k es y end.

Context `{!Comparator compare_}.
Implicit Types L : list (elem (K := K)).

(** ** What the writer keeps true: the list stands for [L] at every moment *)
Definition writer_ok (s : SkipList) (w : writer) L : Prop :=
  match w with
  | Idle => is_list compare_ s L
  | Init x height i =>
      ∃ L1 L2 k, linking compare_ s L1 L2 x k height i ∧ L = linked L1 L2 x k i ∧ (i < height)%nat ∧
        length (prev_ s) = kMaxHeight_ s
  | Publish x height i =>
      ∃ L1 L2 k, linking compare_ s L1 L2 x k height i ∧ L = linked L1 L2 x k i ∧ (i < height)%nat ∧
        length (prev_ s) = kMaxHeight_ s ∧ next_of (nodes s) x i = Some (eptr <$> right (L2 := L2) i)
  | Finishing x height =>
      ∃ L1 L2 k, linking compare_ s L1 L2 x k height height ∧ L = linked L1 L2 x k height ∧ (1 ≤ height)%nat ∧
        length (prev_ s) = kMaxHeight_ s
  end.

Lemma writer_ok_rep s w L : writer_ok s w L → rep compare_ s L.
Proof. destruct w; cbn; [by intros []|intros (L1 & L2 & k & W & -> & _); apply W..]. Qed.

Lemma rep_size s L : rep compare_ s L → (length L ≤ size (nodes s))%nat.
Proof.
  intros R. rewrite <-(length_fmap eptr), <-size_dom.
  rewrite <-(size_list_to_set (C := gset ptr)) by apply R. apply subseteq_size.
  intros p (e & -> & He)%elem_of_list_to_set%list_elem_of_fmap. apply elem_of_dom.
  pose proof (rep_key _ s L R e He) as Hk. destruct (nodes s !! eptr e); [by eexists|done].
Qed.

Lemma linked_grows (L1 L2 : list elem) (x : ptr) (k : K) i : grows (linked L1 L2 x k i) (linked L1 L2 x k (S i)).
Proof.
  intros e [He|[Hi ->]]%elem_of_linked.
  - exists e. split_and!; [|done..]. apply elem_of_linked. by left.
  - exists (Elem x k (S i)). split_and!; [|done|done|cbn; lia]. apply elem_of_linked. by right.
Qed.

Lemma grows_trans L1 L2 L3 : grows L1 L2 → grows L2 L3 → grows L1 L3.
Proof.
  intros H12 H23 e He. destruct (H12 e He) as (e' & He' & ? & ? & ?). destruct (H23 e' He') as (e'' & ? & ? & ? & ?).
  exists e''. split_and!; [done|congruence|congruence|lia].
Qed.

Definition same (s s' : SkipList) : Prop := head_ s' = head_ s ∧ kMaxHeight_ s' = kMaxHeight_ s.

Lemma insert_step_ok y mem rands k L : writer_ok (the_list y) (the_writer y) L →
  match insert_step mem rands k y with
  | Some y' => writer_ok (the_list y') (the_writer y') L ∧ same (the_list y) (the_list y') ∧ the_reader y' = the_reader y
  | None => True
  end.
Proof.
  destruct y as [s w r]. unfold insert_step. cbn. intros Hw.
  destruct w; try done. destruct Hw as [R Hpv]. destruct (nodes s !! mem) eqn:Hmem; [done|].
  assert (length L + max_height_ s ≤ enough s)%nat as Hen by (unfold enough; pose proof (rep_size s L R); lia).
  rewrite (Contains_run _ _ s L k R Hen). destruct (existsb _ L) eqn:Hex; [done|]. case_decide as Hr; [|done].
  destruct (prepare_run compare_ (enough s) mem rands k s L R Hpv) as (s' & L1 & L2 & h & Hp & HL & Hh & W & Hlen & Hhd & Hk); [|done..|].
  - intros e He Heq. enough (existsb (λ e, Equal compare_ k (ekey e)) L = true) by congruence.
    apply existsb_exists. exists e. split; [by apply list_elem_of_In|]. by apply bool_decide_eq_true_2.
  - rewrite Hp. cbn. split_and!; [|done..]. exists L1, L2, k. by rewrite HL.
Qed.

Lemma writer_step_ok y L : writer_ok (the_list y) (the_writer y) L → the_writer y ≠ Idle →
  ∃ y' L', writer_step y = Some y' ∧ writer_ok (the_list y') (the_writer y') L' ∧ grows L L' ∧
    same (the_list y) (the_list y') ∧ the_reader y' = the_reader y.
Proof.
  destruct y as [s w r]. cbn. intros Hw Hne. destruct w as [|x h i|x h i|x h]; [done|..]; unfold writer_step; cbn in Hw |- *.
  - destruct Hw as (L1 & L2 & k & W & -> & Hi & Hlen).
    destruct (init_link_run _ s L1 L2 x k h i W Hi) as (m & Hr & W' & Hx). rewrite Hr. cbn.
    eexists _, _. split_and!; [done| |apply grows_refl|done..]. exists L1, L2, k. split_and!; done.
  - destruct Hw as (L1 & L2 & k & W & -> & Hi & Hlen & Hx).
    destruct (publish_run _ s L1 L2 x k h i W Hi Hx) as (m & Hr & W'). rewrite Hr. cbn.
    eexists _, _. split_and!; [done| |apply linked_grows|done..]. cbn. case_decide as Hd.
    + exists L1, L2, k. rewrite <-Hd in *. split_and!; [done|done|lia|done].
    + exists L1, L2, k. split_and!; [done|done|lia|done].
  - destruct Hw as (L1 & L2 & k & W & -> & Hh & Hlen).
    destruct (finish_insert_run _ s L1 L2 x k h W Hh Hlen) as (s' & Hr & R & Hpv & Hhd & Hk). rewrite Hr. cbn.
    eexists _, _. split_and!; [done|by split| |done..]. destruct h; [lia|apply grows_refl].
Qed.

Lemma searching_mono s s' L L' k p : same s s' → grows L L' →
  searching compare_ s L k p → searching compare_ s' L' k p.
Proof.
  destruct p as [[x level] b]. intros [Hh Hk] Hg (q & -> & Hv & Hb & Hbig).
  assert (∃ q', ptr_of s q = ptr_of s' q' ∧ valid s' L' q' level ∧ beforeb compare_ q' k = true) as (q' & Hq & Hv' & Hb').
  { destruct q as [e|]; [|exists None; cbn in *; split_and!; [done|lia|done]].
    destruct Hv as [He Hhe]. destruct (Hg e He) as (e' & He' & Hp & Hke & Hle). exists (Some e').
    split_and!; [done|split; [done|lia]|]. cbn in *. by rewrite Hke. }
  exists q'. split_and!; [done..|]. destruct b as [b|]; [|done].
  destruct Hbig as (e & He & Hp & Hlt). destruct (Hg e He) as (e' & He' & Hp' & Hke & _).
  exists e'. split_and!; [done|congruence|by rewrite Hke].
Qed.

(** ** What a reader knows *)
Definition reader_ok (s : SkipList) (r : reader) L0 L (k : K) : Prop :=
  match r with
  | Start => True
  | At p => searching compare_ s L k p
  | Found res snap => ∃ L', rep compare_ snap L' ∧ grows L0 L' ∧ grows L' L ∧ res = eptr <$> first_ge compare_ L' k
  end.

Lemma reader_ok_mono s s' r L0 L L' k : same s s' → grows L L' → reader_ok s r L0 L k → reader_ok s' r L0 L' k.
Proof.
  destruct r as [|p|res snap]; cbn; [done|apply searching_mono|]. intros _ Hg (L1 & ? & ? & ? & ?).
  exists L1. split_and!; try done. by eapply grows_trans.
Qed.

(** A reader can always go on until it has found its result. *)
Lemma reader_step_ok k y L0 L : rep compare_ (the_list y) L → grows L0 L → reader_ok (the_list y) (the_reader y) L0 L k →
  match the_reader y with
  | Found _ _ => reader_step k y = None
  | _ => ∃ y', reader_step k y = Some y' ∧ the_list y' = the_list y ∧ the_writer y' = the_writer y ∧
           reader_ok (the_list y') (the_reader y') L0 L k
  end.
Proof.
  destruct y as [s w r]. cbn. intros R Hg Hr. unfold reader_step. destruct r as [|p|]; cbn in *; [| |done].
  - eexists. split_and!; [done..|]. cbn. exists None. split_and!; [done|by eapply start_valid|done..].
  - apply (searching_iff compare_ s L k p) in Hr as (q & level & b & -> & Hat).
    destruct (fge_step_run compare_ s L k q level b R Hat) as [Hs|(q' & level' & b' & Hs & Hat' & _)]; rewrite Hs; cbn.
    + eexists. split_and!; [done..|]. cbn. exists L. split_and!; [done|done|apply grows_refl|done].
    + eexists. split_and!; [done..|]. apply (searching_iff compare_ s L k). by eexists _, _, _.
Qed.

Definition ok (k : K) L0 (y : system) : Prop :=
  ∃ L, writer_ok (the_list y) (the_writer y) L ∧ grows L0 L ∧ reader_ok (the_list y) (the_reader y) L0 L k.

Lemma step_ok k L0 e y y' : ok k L0 y → step k e y = Some y' → ok k L0 y'.
Proof.
  intros (L & Hw & Hg & Hr) He. destruct e as [mem rands k'| |]; cbn in He.
  - pose proof (insert_step_ok y mem rands k' L Hw) as Hok. rewrite He in Hok. destruct Hok as (Hw' & Hs & Hrd).
    exists L. rewrite Hrd. split_and!; [done..|]. by apply (reader_ok_mono (the_list y) _ _ _ L); [|apply grows_refl|].
  - destruct (writer_step_ok y L Hw) as (y'' & L' & He' & Hw' & Hg' & Hs & Hrd).
    { intros Hi. unfold writer_step in He. by rewrite Hi in He. }
    assert (y'' = y') as -> by congruence. exists L'. rewrite Hrd. split_and!; [done|by eapply grows_trans|].
    by apply (reader_ok_mono (the_list y) _ _ _ L).
  - pose proof (reader_step_ok k y L0 L (writer_ok_rep _ _ _ Hw) Hg Hr) as Hok.
    destruct (the_reader y) eqn:Hrd; [| |congruence]; destruct Hok as (y'' & He' & Hl & Hww & Hr');
      assert (y'' = y') as -> by congruence; exists L; rewrite Hww, Hl in *; by split_and!.
Qed.

Lemma run_ok k L0 es y y' : ok k L0 y → run k es y = Some y' → ok k L0 y'.
Proof.
  revert y. induction es as [|e es IH]; intros y Hok Hr; cbn in Hr; [by simplify_eq|].
  destruct (step k e y) as [y1|] eqn:He; [|done]. cbn in Hr. apply (IH y1); [|done]. by eapply step_ok.
Qed.

(** C5: a search beside a concurrent Insert is linearizable: at every moment of
    any interleaving the list stands for an ordered sequence that has all
    elements of the start, neither side ever fails an assertion or reads
    uninitialised memory, and what the reader returns is the first element not
    less than its key in the sequence at its last load; in particular it finds
    a key that was there when it started. *)
Theorem reader_linearizes k s0 L0 es y :
  is_list compare_ s0 L0 → run k es (System s0 Idle Start) = Some y →
  ∃ L, rep compare_ (the_list y) L ∧ grows L0 L ∧
    (the_writer y = Idle ∨ ∃ y', writer_step y = Some y') ∧
    match the_reader y with
    | Found res snapshot =>
        ∃ L', rep compare_ snapshot L' ∧ grows L0 L' ∧ grows L' L ∧ res = eptr <$> first_ge compare_ L' k ∧
          ∀ e, e ∈ L0 → compare_ (ekey e) k = 0 → res = Some (eptr e)
    | _ => ∃ y', reader_step k y = Some y'
    end.
Proof.
  intros H0 Hrun. assert (ok k L0 (System s0 Idle Start)) as Hok0.
  { exists L0. split_and!; [done|apply grows_refl|done]. }
  destruct (run_ok _ _ _ _ _ Hok0 Hrun) as (L & Hw & Hg & Hr).
  pose proof (writer_ok_rep _ _ _ Hw) as R. exists L. split_and!; [done..| |].
  - destruct (the_writer y) eqn:Hwr; [by left|right..];
      destruct (writer_step_ok y L) as (y' & _ & Hs & _); try (by eexists); rewrite Hwr; done.
  - pose proof (reader_step_ok k y L0 L R Hg Hr) as Hs. destruct (the_reader y) eqn:Hrd.
    + destruct Hs as (y' & Hs & _). by exists y'.
    + destruct Hs as (y' & Hs & _). by exists y'.
    + destruct Hr as (L' & R' & Hg1 & Hg2 & ->). exists L'. split_and!; [done..|].
      intros e He Heq. destruct (Hg1 e He) as (e' & He' & Hp & Hk & _).
      rewrite (equal_first_ge compare_ snapshot L' k e' R' He') by (by rewrite Hk). cbn. by rewrite Hp.
Qed.
End conc.

(** A reader looks for 9 while 9 is inserted: it comes too early for level 1
    and finds the node at level 0. *)
Definition demo_events : list (event (K := Z)) :=
  [EInsert 2 [0; 4294967295] 9; EReader; EWriter; EReader; EWriter; EReader; EWriter; EWriter; EWriter].
Lemma reader_linearizes_witness :
  match run IntComparator 9 demo_events (System empty3 Idle Start) with
  | Some y => ∃ L L' snapshot, the_reader y = Found (Some 2%positive) snapshot ∧ rep IntComparator (the_list y) L ∧
                rep IntComparator snapshot L' ∧ first_ge IntComparator L' 9 ≠ None
  | None => False
  end.
Proof.
  destruct (run IntComparator 9 demo_events _) as [y|] eqn:Hrun; [|by vm_compute in Hrun].
  destruct (reader_linearizes IntComparator 9 empty3 [] demo_events y empty3_list Hrun) as (L & R & _ & _ & Hr).
  assert (∃ snap, the_reader y = Found (Some 2%positive) snap) as [snap Hf].
  { vm_compute in Hrun. injection Hrun as <-. by eexists. }
  rewrite Hf in Hr. destruct Hr as (L' & R' & _ & _ & Hres & _). exists L, L', snap. split_and!; [done..|].
  intros Hn. by rewrite Hn in Hres.
Defined.
End ConcReader.

