(* ===== verification/Except.v ===== *)
(** Computations of the database layer (src/mysql-conn-pool), which besides
    returning may throw an exception, or end the process ([ASSERT], [WPFatal],
    [std::abort]).  The state at a throw or at the end of the process is kept:
    what was sent to the server before it counts. *)
From S2P Require Import Prelude.

Inductive exit (S A : Type) : Type :=
  | Returns (a : A) (s : S)
  | Throws (s : S)
  | Aborts (s : S)
  | UB
  | OutOfFuel.
Arguments Returns {S A} a s.
Arguments Throws {S A} s.
Arguments Aborts {S A} s.
Arguments UB {S A}.
Arguments OutOfFuel {S A}.

Definition comp (S A : Type) : Type := S → exit S A.

#[export] Instance comp_ret {S} : MRet (comp S) := λ A a s, Returns a s.
#[export] Instance comp_bind {S} : MBind (comp S) := λ A B f m s,
  match m s with
  | Returns a s' => f a s'
  | Throws s' => Throws s'
  | Aborts s' => Aborts s'
  | UB => UB
  | OutOfFuel => OutOfFuel
  end.

Definition get {S A} (f : S → A) : comp S A := λ s, Returns (f s) s.
Definition modify {S} (f : S → S) : comp S unit := λ s, Returns () (f s).
(** A read or a call that is undefined behaviour where it has no result. *)
Definition getO {S A} (f : S → option A) : comp S A := λ s,
  match f s with Some a => Returns a s | None => UB end.
Definition modifyO {S} (f : S → option S) : comp S unit := λ s,
  match f s with Some s' => Returns () s' | None => UB end.
Definition throw {S A} : comp S A := λ s, Throws s.
Definition abort {S A} : comp S A := λ s, Aborts s.
Definition ub {S A} : comp S A := λ _, UB.
Definition no_fuel {S A} : comp S A := λ _, OutOfFuel.
Definition ASSERT {S} (b : bool) : comp S unit := if b then mret () else abort.
(** A call of code outside src/ that answers and changes the state. *)
Definition call {S A} (f : S → A * S) : comp S A := λ s, Returns (f s).1 (f s).2.

(** A computation on a part of the state. *)
Definition part {S T A} (read : S → T) (write : T → S → S) (m : comp T A) : comp S A := λ s,
  match m (read s) with
  | Returns a t => Returns a (write t s)
  | Throws t => Throws (write t s)
  | Aborts t => Aborts (write t s)
  | UB => UB
  | OutOfFuel => OutOfFuel
  end.

Section comp.
Context {S : Type}.

Lemma comp_bind_Returns {A B} (m : comp S A) (f : A → comp S B) s a s' :
  m s = Returns a s' → (m ≫= f) s = f a s'.
Proof. intros H. unfold mbind, comp_bind. by rewrite H. Qed.

Lemma comp_bind_inv {A B} (m : comp S A) (f : A → comp S B) s b s'' :
  (m ≫= f) s = Returns b s'' → ∃ a s', m s = Returns a s' ∧ f a s' = Returns b s''.
Proof. unfold mbind, comp_bind. destruct (m s) eqn:?; naive_solver. Qed.

Lemma get_bind {A B} (g : S → A) (f : A → comp S B) s : (get g ≫= f) s = f (g s) s.
Proof. done. Qed.
Lemma modify_bind {B} (g : S → S) (f : unit → comp S B) s : (modify g ≫= f) s = f () (g s).
Proof. done. Qed.
Lemma modify_eq (g : S → S) s : modify g s = Returns () (g s).
Proof. done. Qed.
Lemma call_bind {A B} (g : S → A * S) (f : A → comp S B) s : (call g ≫= f) s = f (g s).1 (g s).2.
Proof. done. Qed.
Lemma getO_bind {A B} (g : S → option A) (f : A → comp S B) s a :
  g s = Some a → (getO g ≫= f) s = f a s.
Proof. intros H. unfold mbind, comp_bind, getO. by rewrite H. Qed.
Lemma modifyO_bind {B} (g : S → option S) (f : unit → comp S B) s s' :
  g s = Some s' → (modifyO g ≫= f) s = f () s'.
Proof. intros H. unfold mbind, comp_bind, modifyO. by rewrite H. Qed.
Lemma assert_bind {B} (b : bool) (f : unit → comp S B) s :
  b = true → (ASSERT b ≫= f) s = f () s.
Proof. by intros ->. Qed.

(** The state a computation ends in, unless it has none. *)
Definition final {A} (e : exit S A) : option S :=
  match e with Returns _ s | Throws s | Aborts s => Some s | UB | OutOfFuel => None end.

(** An invariant that a computation keeps, however it ends. *)
Definition keeps {A} (I : S → Prop) (m : comp S A) : Prop :=
  ∀ s s', I s → final (m s) = Some s' → I s'.

Lemma keeps_ret {A} I (a : A) : keeps I (mret a).
Proof. unfold keeps. cbn. naive_solver. Qed.
Lemma keeps_bind {A B} I (m : comp S A) (f : A → comp S B) :
  keeps I m → (∀ a, keeps I (f a)) → keeps I (m ≫= f).
Proof.
  intros Hm Hf s s' Hs. specialize (Hm s). unfold mbind, comp_bind.
  destruct (m s) as [a s1|s1|s1| |]; cbn; [|naive_solver..].
  apply Hf. by apply Hm.
Qed.
Lemma keeps_get {A} I (g : S → A) : keeps I (get g).
Proof. unfold keeps. cbn. naive_solver. Qed.
Lemma keeps_getO {A} I (g : S → option A) : keeps I (getO g).
Proof. unfold keeps, getO. intros s s' ?. destruct (g s); cbn; naive_solver. Qed.
Lemma keeps_modify I (g : S → S) : (∀ s, I s → I (g s)) → keeps I (modify g).
Proof. unfold keeps. cbn. naive_solver. Qed.
Lemma keeps_call {A} I (g : S → A * S) : (∀ s, I s → I (g s).2) → keeps I (call g).
Proof. unfold keeps. cbn. naive_solver. Qed.
Lemma keeps_abort {A} I : keeps I (@abort S A).
Proof. unfold keeps. cbn. naive_solver. Qed.
Lemma keeps_throw {A} I : keeps I (@throw S A).
Proof. unfold keeps. cbn. naive_solver. Qed.
Lemma keeps_assert I b : keeps I (ASSERT b).
Proof. destruct b; [apply keeps_ret|apply keeps_abort]. Qed.
Lemma keeps_no_fuel {A} I : keeps I (@no_fuel S A).
Proof. unfold keeps. cbn. naive_solver. Qed.
End comp.

#[export] Hint Resolve keeps_ret keeps_get keeps_getO keeps_abort keeps_throw keeps_assert keeps_no_fuel : keeps.
