(* ===== verification/QueryCallback.v ===== *)
(** Chains of callbacks on asynchronous queries:
    src/mysql-conn-pool/dbimpl/QueryCallback.cpp.

    A [QueryCallback] holds the future of a text query or of a prepared one, in a
    union whose active member [_isPrepared] names, and a queue of callbacks,
    tagged the same way.  Reading a member that is not the active one is
    undefined behaviour.

    A callback is a name [C] whose code is given by a [Program], so it may add
    any callback to the chain again, itself included, and chains can be endless
    ([endless_chain]). *)
From S2P Require Import Prelude Except.

Module QueryCallback.

(** ** Unions with a tag *)

(** What default construction makes, and what a move leaves behind: a future
    without state, an empty function. *)
Class Moved (A : Type) := moved_from : A.

Section tagged.
Context {A B : Type} `{Moved A, Moved B}.

(** [active] is [None] before the construction and after the destruction of a
    member. *)
Record tagged := Tagged { active : option (A + B); _isPrepared : bool }.

Definition ConstructActiveMember (obj : tagged) : tagged :=
  Tagged (Some (if _isPrepared obj then inr moved_from else inl moved_from)) (_isPrepared obj).

Definition DestroyActiveMember (obj : tagged) : option tagged :=
  match _isPrepared obj, active obj with
  | false, Some (inl _) | true, Some (inr _) => Some (Tagged None (_isPrepared obj))
  | _, _ => None
  end.

(** The state is [*to] and [from]. *)
Definition MoveFrom : comp (tagged * tagged) unit :=
  s ← get id;
  ASSERT (bool_decide (_isPrepared s.1 = _isPrepared s.2));;
  match _isPrepared s.1, active s.1, active s.2 with
  | false, Some (inl _), Some (inl x) =>
      modify (λ _, (Tagged (Some (inl x)) (_isPrepared s.1), Tagged (Some (inl moved_from)) (_isPrepared s.2)))
  | true, Some (inr _), Some (inr x) =>
      modify (λ _, (Tagged (Some (inr x)) (_isPrepared s.1), Tagged (Some (inr moved_from)) (_isPrepared s.2)))
  | _, _, _ => ub
  end.

(** The move constructors, on storage in which no member is active yet. *)
Definition move_construct : comp (tagged * tagged) unit :=
  modify (λ s, (ConstructActiveMember (Tagged None (_isPrepared s.2)), s.2));;
  MoveFrom.

(** The move assignments; [same]: [this == &right]. *)
Definition move_assign (same : bool) : comp (tagged * tagged) unit :=
  if same then mret () else
  s ← get id;
  (if bool_decide (_isPrepared s.1 = _isPrepared s.2) then mret ()
   else
     modifyO (λ s, (λ t, (t, s.2)) <$> DestroyActiveMember s.1);;
     modify (λ s, (Tagged (active s.1) (_isPrepared s.2), s.2));;
     modify (λ s, (ConstructActiveMember s.1, s.2)));;
  MoveFrom.

(** The tag names the active member. *)
Definition has_kind (k : bool) (t : tagged) : Prop :=
  _isPrepared t = k ∧ match active t with Some (inl _) => k = false | Some (inr _) => k = true | None => False end.

(** Canonical forms. *)
Lemma has_kind_inv k t :
  has_kind k t →
  (k = false ∧ ∃ x, t = Tagged (Some (inl x)) false) ∨ (k = true ∧ ∃ y, t = Tagged (Some (inr y)) true).
Proof. unfold has_kind. destruct t as [[[x|y]|] k']; cbn; intros [-> ?]; [left|right|done]; subst; eauto. Qed.

Lemma MoveFrom_same_kind k to from :
  has_kind k to → has_kind k from → MoveFrom (to, from) = Returns () (from, ConstructActiveMember from).
Proof.
  unfold has_kind. destruct to as [[[]|] []], from as [[[]|] []]; cbn; naive_solver.
Qed.

Lemma MoveFrom_other_kind k to from :
  has_kind k to → has_kind (negb k) from → MoveFrom (to, from) = Aborts (to, from).
Proof.
  unfold has_kind. destruct to as [[[]|] []], from as [[[]|] []]; cbn; naive_solver.
Qed.

Lemma move_construct_spec k t from :
  has_kind k from → move_construct (t, from) = Returns () (from, ConstructActiveMember from).
Proof.
  unfold move_construct. rewrite modify_bind. intros Hk. apply (MoveFrom_same_kind k); [|done].
  unfold has_kind. cbn. destruct Hk as [-> _]. by destruct k.
Qed.

(** Assignment takes over the value whatever the two kinds are. *)
Lemma move_assign_spec k k' to from :
  has_kind k to → has_kind k' from →
  move_assign false (to, from) = Returns () (from, ConstructActiveMember from).
Proof.
  unfold has_kind. destruct to as [[[]|] []], from as [[[]|] []]; cbn; naive_solver.
Qed.
End tagged.
Arguments tagged : clear implicits.
Arguments Tagged {A B} active _isPrepared.

(** ** Futures, callbacks, queries *)

(** [std::future]: without state, or referring to the shared state of a promise. *)
Inductive future := NoState | State (p : nat).
#[export] Instance future_moved : Moved future := NoState.
Definition valid (f : future) : bool := match f with NoState => false | State _ => true end.

(** The shared state of a promise.  [Exception]: also of a promise that was
    destroyed before it was kept. *)
Inductive shared (A : Type) := Pending | Value (a : A) | Exception.
Arguments Pending {A}.
Arguments Value {A} a.
Arguments Exception {A}.

(** A [std::function] over results [A]: the wrapper that [WithCallback] makes
    of a callback, which does not see the query, or code of the user, by its
    name. *)
Inductive function (E C A : Type) :=
  | Wrapped (callback : A → list E)
  | Code (c : C).
Arguments Wrapped {E C A} callback.
Arguments Code {E C A} c.

Section callback.
(** [R] and [P]: what [QueryResult] and [PreparedQueryResult] hold; [E]: what a
    callback does besides working on its query; [C]: the names of the user's
    callbacks. *)
Context {R P E C : Type}.

(** What the code of a callback does with the query.  Of the query passed to
    [SetNextQuery] only the future matters. *)
Inductive action :=
  | Emit (e : E)
  | SetNext (prepared : bool) (f : future)
  | AddCallback (cb : function E C R)
  | AddPreparedCallback (cb : function E C P).

(** The code of the user: for each name and each result the calls it makes. *)
Class Program := { string_code : C → R → list action; prepared_code : C → P → list action }.
Context `{Program}.
Definition string_body (cb : function E C R) (r : R) : list action :=
  match cb with Wrapped callback => Emit <$> callback r | Code c => string_code c r end.
Definition prepared_body (cb : function E C P) (r : P) : list action :=
  match cb with Wrapped callback => Emit <$> callback r | Code c => prepared_code c r end.

Definition string_fn : Type := option (function E C R).
Definition prepared_fn : Type := option (function E C P).
#[export] Instance string_fn_moved : Moved string_fn := None.
#[export] Instance prepared_fn_moved : Moved prepared_fn := None.

Definition QueryCallbackData : Type := tagged string_fn prepared_fn.
Definition string_data (cb : function E C R) : QueryCallbackData := Tagged (Some (inl (Some cb))) false.
Definition prepared_data (cb : function E C P) : QueryCallbackData := Tagged (Some (inr (Some cb))) true.

Record QueryCallback := Query { result : tagged future future; _callbacks : list QueryCallbackData }.

(** The query and what its callbacks did so far. *)
Record state := St { self : QueryCallback; log : list E }.
Definition with_result (r : tagged future future) (s : state) : state := St (Query r (_callbacks (self s))) (log s).
Definition with_callbacks (l : list QueryCallbackData) (s : state) : state := St (Query (result (self s)) l) (log s).

Definition from_string_future (f : future) : QueryCallback := Query (Tagged (Some (inl f)) false) [].
Definition from_prepared_future (f : future) : QueryCallback := Query (Tagged (Some (inr f)) true) [].

(** [QueryCallback(QueryCallback&&)] and [operator=]; the state is [*this] and [right]. *)
Definition results (s : QueryCallback * QueryCallback) := (result s.1, result s.2).
Definition with_results t (s : QueryCallback * QueryCallback) := (Query t.1 (_callbacks s.1), Query t.2 (_callbacks s.2)).
Definition move_callbacks (s : QueryCallback * QueryCallback) := (Query (result s.1) (_callbacks s.2), Query (result s.2) []).
Definition move_query : comp (QueryCallback * QueryCallback) unit :=
  part results with_results move_construct;; modify move_callbacks.
Definition assign_query (same : bool) : comp (QueryCallback * QueryCallback) unit :=
  if same then mret () else
  part results with_results (move_assign false);; modify move_callbacks.

Definition WithChainingCallback (cb : function E C R) : comp state unit :=
  q ← get self;
  ASSERT (negb (bool_decide (_callbacks q = [])) || negb (_isPrepared (result q)));;
  modify (with_callbacks (_callbacks q ++ [string_data cb])).
Definition WithChainingPreparedCallback (cb : function E C P) : comp state unit :=
  q ← get self;
  ASSERT (negb (bool_decide (_callbacks q = [])) || _isPrepared (result q));;
  modify (with_callbacks (_callbacks q ++ [prepared_data cb])).
Definition WithCallback (callback : R → list E) : comp state unit :=
  WithChainingCallback (Wrapped callback).
Definition WithPreparedCallback (callback : P → list E) : comp state unit :=
  WithChainingPreparedCallback (Wrapped callback).

Definition SetNextQuery (next : QueryCallback) : comp state unit :=
  part (λ s, (result (self s), result next)) (λ t, with_result t.1) MoveFrom.

(** What the code of a callback does. *)
Definition act (a : action) : comp state unit :=
  match a with
  | Emit e => modify (λ s, St (self s) (log s ++ [e]))
  | SetNext prepared f => SetNextQuery (if prepared then from_prepared_future f else from_string_future f)
  | AddCallback cb => WithChainingCallback cb
  | AddPreparedCallback cb => WithChainingPreparedCallback cb
  end.
Fixpoint run (l : list action) : comp state unit :=
  match l with [] => mret () | a :: l => act a;; run l end.

(** What is known of the promises when [InvokeIfReady] is called. *)
Record world := World { strings : nat → shared R; prepareds : nat → shared P }.

(** The lambda [checkStateAndReturnCompletion]. *)
Definition has_next (t : tagged future future) : option bool :=
  match _isPrepared t, active t with
  | false, Some (inl f) | true, Some (inr f) => Some (valid f)
  | _, _ => None
  end.
Definition front_isPrepared (l : list QueryCallbackData) : option bool := _isPrepared <$> head l.
Definition checkStateAndReturnCompletion : comp state bool :=
  modify (λ s, with_callbacks (tail (_callbacks (self s))) s);;
  hasNext ← getO (λ s, has_next (result (self s)));
  l ← get (λ s, _callbacks (self s));
  if bool_decide (l = []) then ASSERT (negb hasNext);; mret true
  else if negb hasNext then mret true
  else
    k ← get (λ s, _isPrepared (result (self s)));
    k' ← getO (λ s, front_isPrepared (_callbacks (self s)));
    ASSERT (bool_decide (k = k'));;
    mret false.

(** [f.get()] and the call of the function taken out of the callback. *)
Definition call_back {A} (v : shared A) (cb : option (A → list action)) : comp state bool :=
  match v with
  | Pending => mret false
  | Exception => throw
  | Value r =>
      match cb with
      | None => throw
      | Some body => run (body r);; checkStateAndReturnCompletion
      end
  end.

Definition settled {A} (v : shared A) : bool := match v with Pending => false | _ => true end.
Definition ready {A} (promises : nat → shared A) (f : future) : shared A := match f with NoState => Pending | State p => promises p end.

Definition InvokeIfReady (w : world) : comp state bool :=
  callback ← getO (λ s, head (_callbacks (self s)));
  r ← get (λ s, result (self s));
  if negb (_isPrepared r) then
    f ← getO (λ _, match active r with Some (inl f) => Some f | _ => None end);
    let v := ready (strings w) f in
    if settled v then
      modify (with_result (Tagged (Some (inl NoState)) (_isPrepared r)));;
      cb ← getO (λ _, match active callback with Some (inl cb) => Some cb | _ => None end);
      modify (λ s, with_callbacks (Tagged (Some (inl None)) (_isPrepared callback) :: tail (_callbacks (self s))) s);;
      call_back v (string_body <$> cb)
    else mret false
  else
    f ← getO (λ _, match active r with Some (inr f) => Some f | _ => None end);
    let v := ready (prepareds w) f in
    if settled v then
      modify (with_result (Tagged (Some (inr NoState)) (_isPrepared r)));;
      cb ← getO (λ _, match active callback with Some (inr cb) => Some cb | _ => None end);
      modify (λ s, with_callbacks (Tagged (Some (inr None)) (_isPrepared callback) :: tail (_callbacks (self s))) s);;
      call_back v (prepared_body <$> cb)
    else mret false.

(** ** The calls of one callback *)

Definition added (l : list action) : list QueryCallbackData :=
  omap (λ a, match a with AddCallback cb => Some (string_data cb) | AddPreparedCallback cb => Some (prepared_data cb) | _ => None end) l.
Definition emitted (l : list action) : list E := omap (λ a, match a with Emit e => Some e | _ => None end) l.
Definition future_of (prepared : bool) (f : future) : tagged future future :=
  Tagged (Some (if prepared then inr f else inl f)) prepared.
Definition next_of : list action → future → future :=
  fold_left (λ (f : future) (a : action), match a with SetNext _ g => g | _ => f end).

Lemma result_of_query (k : bool) f : result (if k then from_prepared_future f else from_string_future f) = future_of k f.
Proof. by destruct k. Qed.

Lemma future_of_kind k f : has_kind k (future_of k f).
Proof. by destruct k. Qed.

(** The callbacks that are left are those that were there and those added. *)
Lemma run_callbacks l s s' :
  run l s = Returns () s' → _callbacks (self s') = _callbacks (self s) ++ added l.
Proof.
  revert s. induction l as [|a l IH]; intros s; cbn [run].
  { intros [= <-]. by rewrite app_nil_r. }
  intros ([] & s1 & Ha & Hl)%comp_bind_inv. rewrite (IH _ Hl). clear IH Hl.
  destruct a as [e|k f|cb|cb]; cbn [act] in Ha.
  - by injection Ha as <-.
  - unfold SetNextQuery, part in Ha. rewrite result_of_query in Ha.
    destruct (MoveFrom _) as [[] t| | | |]; by inv Ha.
  - unfold WithChainingCallback in Ha. rewrite get_bind in Ha.
    destruct (negb _ || _); [|done]. injection Ha as <-. cbn. by rewrite <-app_assoc.
  - unfold WithChainingPreparedCallback in Ha. rewrite get_bind in Ha.
    destruct (negb _ || _); [|done]. injection Ha as <-. cbn. by rewrite <-app_assoc.
Qed.

(** Only a query of the same kind may follow. *)
Definition next_kind (k : bool) (l : list action) : Prop := ∀ k' f, SetNext k' f ∈ l → k' = k.

Lemma run_typed k l f d ds lg :
  next_kind k l →
  run l (St (Query (future_of k f) (d :: ds)) lg) =
    Returns () (St (Query (future_of k (next_of l f)) (d :: ds ++ added l)) (lg ++ emitted l)).
Proof.
  revert f ds lg. induction l as [|a l IH]; intros f ds lg Hk; cbn [run].
  { by rewrite !app_nil_r. }
  assert (next_kind k l) as Hl by (intros k' g Hin; eapply Hk; by right).
  destruct a as [e|k' g|cb|cb]; cbn [act].
  - rewrite modify_bind. cbn. rewrite IH by done. by rewrite <-app_assoc.
  - assert (k' = k) as -> by (eapply Hk; by left).
    erewrite comp_bind_Returns; [apply IH; done|]. unfold SetNextQuery, part. rewrite result_of_query. cbn.
    rewrite (MoveFrom_same_kind k) by apply future_of_kind. done.
  - erewrite comp_bind_Returns; [|done]. unfold with_callbacks. cbn. rewrite IH by done. by rewrite <-app_assoc.
  - erewrite comp_bind_Returns; [|done]. unfold with_callbacks. cbn. rewrite IH by done. by rewrite <-app_assoc.
Qed.

(** ** One call of [InvokeIfReady] *)

(** The result that a query waits for, of either kind. *)
Definition outcome_of (w : world) (k : bool) (f : future) : shared (R + P) :=
  if k then match ready (prepareds w) f with Pending => Pending | Value a => Value (inr a) | Exception => Exception end
  else match ready (strings w) f with Pending => Pending | Value a => Value (inl a) | Exception => Exception end.

(** The calls that a callback makes with a result of its kind. *)
Definition reaction (d : QueryCallbackData) (v : R + P) : option (list action) :=
  match active d, v with
  | Some (inl (Some cb)), inl r => Some (string_body cb r)
  | Some (inr (Some cb)), inr r => Some (prepared_body cb r)
  | _, _ => None
  end.

Definition empty_callback (k : bool) : QueryCallbackData := Tagged (Some (if k then inr None else inl None)) k.

Lemma invoke_pending w k f d ds lg :
  outcome_of w k f = Pending →
  InvokeIfReady w (St (Query (future_of k f) (d :: ds)) lg) = Returns false (St (Query (future_of k f) (d :: ds)) lg).
Proof.
  unfold outcome_of, InvokeIfReady, mbind, comp_bind, getO, get. destruct k; cbn.
  - by destruct (ready (prepareds w) f).
  - by destruct (ready (strings w) f).
Qed.

Lemma invoke_exception w k f d ds lg :
  outcome_of w k f = Exception → has_kind k d →
  InvokeIfReady w (St (Query (future_of k f) (d :: ds)) lg) =
    Throws (St (Query (future_of k NoState) (empty_callback k :: ds)) lg).
Proof.
  intros Ho Hk. unfold outcome_of in Ho. unfold InvokeIfReady, mbind, comp_bind, getO, get.
  destruct (has_kind_inv _ _ Hk) as [[-> [cb ->]]|[-> [cb ->]]]; cbn in *.
  - by destruct (ready (strings w) f).
  - by destruct (ready (prepareds w) f).
Qed.

Lemma invoke_value w k f d ds lg v acts :
  outcome_of w k f = Value v → has_kind k d → reaction d v = Some acts →
  InvokeIfReady w (St (Query (future_of k f) (d :: ds)) lg) =
    (run acts;; checkStateAndReturnCompletion) (St (Query (future_of k NoState) (empty_callback k :: ds)) lg).
Proof.
  intros Ho Hk Hr. unfold outcome_of in Ho. unfold reaction in Hr.
  unfold InvokeIfReady, mbind, comp_bind, getO, get.
  destruct (has_kind_inv _ _ Hk) as [[-> [cb ->]]|[-> [cb ->]]]; cbn in *.
  - destruct (ready (strings w) f); [done| |done]. destruct cb; simplify_eq/=. done.
  - destruct (ready (prepareds w) f); [done| |done]. destruct cb; simplify_eq/=. done.
Qed.

(** ** Well-typed chains *)

Definition kind_of (v : R + P) : bool := if v then false else true.

(** A callback that may be the last one does not ask for another query, unless
    it adds the callback for it. *)
Definition closes (d : QueryCallbackData) : Prop :=
  ∀ v acts, reaction d v = Some acts → added acts = [] → valid (next_of acts NoState) = false.
Definition ends (l : list QueryCallbackData) : Prop := ∀ d, last l = Some d → closes d.

(** What a callback of kind [k] does, when those it adds are [I]: the queries it
    asks for are of kind [k]. *)
Record typed_by (k : bool) (I : QueryCallbackData → Prop) (d : QueryCallbackData) : Prop := TypedBy {
  td_kind : has_kind k d;
  td_runs : ∀ v, kind_of v = k → is_Some (reaction d v);
  td_next : ∀ v acts, reaction d v = Some acts → next_kind k acts;
  td_adds : ∀ v acts d', reaction d v = Some acts → d' ∈ added acts → I d';
  td_ends : ∀ v acts, reaction d v = Some acts → ends (added acts);
}.
(** The callbacks of kind [k]: the largest set whose elements add only elements
    of it.  A callback that adds itself may be in it. *)
Definition typed_data (k : bool) (d : QueryCallbackData) : Prop :=
  ∃ I : QueryCallbackData → Prop, I d ∧ ∀ d', I d' → typed_by k I d'.
Lemma typed_data_inv k d : typed_data k d → typed_by k (typed_data k) d.
Proof.
  intros (I & Hd & HI). destruct (HI d Hd) as [Hk Hr Hn Ha He]. constructor; try done.
  intros v acts d' Hv Hd'. exists I. split; [by eapply Ha|done].
Qed.

Definition typed_chain (k : bool) (l : list QueryCallbackData) : Prop :=
  (∀ d, d ∈ l → typed_data k d) ∧ ends l.

(** A query of kind [k] with its future and at least one callback. *)
Definition typed_query (k : bool) (f : future) (l : list QueryCallbackData) (q : QueryCallback) : Prop :=
  q = Query (future_of k f) l ∧ valid f = true ∧ l ≠ [] ∧ typed_chain k l.

Lemma ends_app l l' : ends l → ends l' → ends (l ++ l').
Proof. unfold ends. intros Hl Hl' d. rewrite last_app. destruct (last l') eqn:?; naive_solver. Qed.

Lemma typed_chain_step k d ds v acts :
  typed_chain k (d :: ds) → reaction d v = Some acts →
  next_kind k acts ∧ typed_chain k (ds ++ added acts) ∧
  (ds ++ added acts = [] → valid (next_of acts NoState) = false).
Proof.
  intros [Hall Hend] Hr. destruct (typed_data_inv k d (Hall d ltac:(by left))) as [_ _ Hn Ha He]. split; [by eapply Hn|]. split; [split|].
  - intros d' [Hd|Hd]%elem_of_app; [apply Hall; by right|by eapply Ha].
  - apply ends_app; [|by eapply He]. intros d' Hd'. apply Hend. destruct ds; [done|]. exact Hd'.
  - intros [-> Hadd]%app_nil. eapply (Hend d); done.
Qed.

Lemma check_typed k f d ds lg :
  (ds = [] → valid f = false) → (∀ d', d' ∈ ds → has_kind k d') →
  checkStateAndReturnCompletion (St (Query (future_of k f) (d :: ds)) lg) =
    Returns (negb (valid f)) (St (Query (future_of k f) ds) lg).
Proof.
  intros Hlast Hk. unfold checkStateAndReturnCompletion. rewrite modify_bind.
  rewrite (getO_bind _ _ _ (valid f)) by (by destruct k). rewrite get_bind. cbn.
  case_bool_decide as Hds; [by rewrite Hlast|]. destruct (valid f) eqn:Hf; [|done]. cbn [negb].
  destruct ds as [|d' ds]; [done|]. rewrite get_bind.
  destruct (Hk d') as [Hk' _]; [by left|].
  rewrite (getO_bind _ _ _ k) by (cbn; by rewrite Hk').
  rewrite assert_bind; [done|]. cbn. by rewrite bool_decide_true.
Qed.

Lemma outcome_kind w k f v : outcome_of w k f = Value v → kind_of v = k.
Proof.
  unfold outcome_of. destruct k; [destruct (ready (prepareds w) f)|destruct (ready (strings w) f)]; naive_solver.
Qed.

(** C19: A well-typed query never fails an assertion and never touches the wrong
    member of a union: [InvokeIfReady] does nothing before the result is there;
    then it runs the first callback on the result, says that the query is done
    exactly when the callback asked for no other query, and leaves a well-typed
    query otherwise. *)
Theorem InvokeIfReady_typed w k f d ds q lg :
  typed_query k f (d :: ds) q →
  match outcome_of w k f with
  | Pending => InvokeIfReady w (St q lg) = Returns false (St q lg)
  | Value v => ∃ acts q' , reaction d v = Some acts ∧
      let next := next_of acts NoState in
      InvokeIfReady w (St q lg) = Returns (negb (valid next)) (St q' (lg ++ emitted acts)) ∧
      (valid next = true → typed_query k next (ds ++ added acts) q')
  | Exception => InvokeIfReady w (St q lg) = Throws (St (Query (future_of k NoState) (empty_callback k :: ds)) lg)
  end.
Proof.
  intros (-> & Hf & _ & Ht). destruct (outcome_of w k f) as [|v|] eqn:Ho.
  - by apply invoke_pending.
  - destruct (typed_data_inv k d (proj1 Ht d ltac:(by left))) as [Hk Hcall _ _ _].
    destruct (Hcall v) as [acts Hr]; [by eapply outcome_kind|].
    destruct (typed_chain_step _ _ _ _ _ Ht Hr) as (Hn & Ht' & Hlast).
    exists acts, (Query (future_of k (next_of acts NoState)) (ds ++ added acts)). split; [done|]. cbn. split.
    + rewrite (invoke_value _ _ _ _ _ _ _ _ Ho Hk Hr).
      rewrite (comp_bind_Returns _ _ _ _ _ (run_typed _ _ _ _ _ _ Hn)).
      apply check_typed; [done|]. intros d' Hd'. by destruct (typed_data_inv k d' (proj1 Ht' d' Hd')).
    + intros Hv. split; [done|]. split; [done|]. split; [|done]. intros H0. rewrite Hlast in Hv; done.
  - apply invoke_exception; [done|]. by destruct (typed_data_inv k d (proj1 Ht d ltac:(by left))).
Qed.

(** ** The order of a chain *)

(** [InvokeIfReady] is called again and again, the promises being as in [ws],
    until the query is done. *)
Fixpoint poll (ws : list world) : comp state bool :=
  match ws with
  | [] => mret false
  | w :: ws => b ← InvokeIfReady w; if (b : bool) then mret true else poll ws
  end.

(** One callback that was called: with which result, and what it did. *)
Record called := Called { c_data : QueryCallbackData; c_result : R + P; c_acts : list action }.
Definition is_call (c : called) : Prop := reaction (c_data c) (c_result c) = Some (c_acts c).

(** The future that the query waits for, and its kind. *)
Definition awaited (q : QueryCallback) : option (bool * future) :=
  match _isPrepared (result q), active (result q) with
  | false, Some (inl f) => Some (false, f)
  | true, Some (inr f) => Some (true, f)
  | _, _ => None
  end.
Definition delivers (w : world) (q : QueryCallback) (v : R + P) : Prop :=
  ∃ k f, awaited q = Some (k, f) ∧ outcome_of w k f = Value v.

Lemma check_pops s b s' :
  checkStateAndReturnCompletion s = Returns b s' → _callbacks (self s') = tail (_callbacks (self s)) ∧ log s' = log s.
Proof.
  unfold checkStateAndReturnCompletion. rewrite modify_bind. intros (h & s1 & Hh & Hc)%comp_bind_inv.
  unfold getO in Hh. destruct (has_next _); [|done]. injection Hh as -> <-. rewrite get_bind in Hc. cbn in Hc.
  case_bool_decide; [by destruct h; inv Hc|]. destruct h; [|by inv Hc]. cbn [negb] in Hc. rewrite get_bind in Hc.
  apply comp_bind_inv in Hc as (k' & s2 & Hk & Hc). unfold getO in Hk. destruct (front_isPrepared _); [|done].
  injection Hk as -> <-. case_bool_decide; [|done]. cbn in Hc. by injection Hc as <- <-.
Qed.
Lemma run_log l s s' : run l s = Returns () s' → log s' = log s ++ emitted l.
Proof.
  revert s. induction l as [|a l IH]; intros s; cbn [run].
  { intros [= <-]. by rewrite app_nil_r. }
  intros ([] & s1 & Ha & Hl)%comp_bind_inv. rewrite (IH _ Hl). clear IH Hl.
  destruct a as [e|k f|cb|cb]; cbn [act] in Ha.
  - injection Ha as <-. cbn. by rewrite <-app_assoc.
  - unfold SetNextQuery, part in Ha. destruct (MoveFrom _) as [[] t| | | |]; by inv Ha.
  - unfold WithChainingCallback in Ha. rewrite get_bind in Ha. destruct (negb _ || _); [|done]. by injection Ha as <-.
  - unfold WithChainingPreparedCallback in Ha. rewrite get_bind in Ha. destruct (negb _ || _); [|done]. by injection Ha as <-.
Qed.
Lemma call_back_returns {A} (v : shared A) cb s b s' :
  settled v = true → call_back v cb s = Returns b s' →
  ∃ r body, v = Value r ∧ cb = Some body ∧ _callbacks (self s') = tail (_callbacks (self s) ++ added (body r)) ∧ log s' = log s ++ emitted (body r).
Proof.
  destruct v as [|r|]; [done| |done]. intros _. destruct cb as [body|]; [|done]. cbn.
  intros ([] & s1 & Hrun & Hc)%comp_bind_inv. exists r, body. split; [done|]. split; [done|].
  destruct (check_pops _ _ _ Hc) as [-> ->]. by rewrite (run_callbacks _ _ _ Hrun), (run_log _ _ _ Hrun).
Qed.

(** One call either finds no result yet and changes nothing, or takes the first
    callback off the queue and puts those that it adds at the end. *)
Lemma invoke_once w s b s' :
  InvokeIfReady w s = Returns b s' →
  (b = false ∧ s' = s) ∨
  ∃ d ds v acts, _callbacks (self s) = d :: ds ∧ delivers w (self s) v ∧ reaction d v = Some acts ∧
    _callbacks (self s') = ds ++ added acts ∧ log s' = log s ++ emitted acts.
Proof.
  destruct s as [[[a k] [|d ds]] lg]; [done|]. unfold InvokeIfReady. cbn [result _isPrepared active].
  rewrite (getO_bind _ _ _ d) by done. rewrite get_bind. destruct d as [ad kd] eqn:Hd0. cbn [result self _isPrepared active].
  destruct k; cbn [negb]; (destruct a as [[f|f]|]; [try done|try done|done]); intros Hrun; rewrite (getO_bind _ _ _ f) in Hrun by done;
    (case_match eqn:Hset; [|by injection Hrun as <- <-; left]); rewrite modify_bind in Hrun;
    apply comp_bind_inv in Hrun as (cb & s1 & Hcb & Hrun); unfold getO in Hcb;
    destruct ad as [[cb1|cb1]|]; cbn in Hcb; try discriminate Hcb; injection Hcb as -> <-; rewrite modify_bind in Hrun;
    apply call_back_returns in Hrun as (r & body & Hv & Hbody & Hcs & Hlog); [|done| |done]; cbn in Hcs, Hlog; right;
    (destruct cb as [cb|]; [|done]); injection Hbody as <-.
  - eexists d, ds, (inr r), _. split; [by rewrite Hd0|]. split; [|by rewrite Hd0]. exists true, f. split; [done|]. cbn. by rewrite Hv.
  - eexists d, ds, (inl r), _. split; [by rewrite Hd0|]. split; [|by rewrite Hd0]. exists false, f. split; [done|]. cbn. by rewrite Hv.
Qed.

(** A measure of callbacks that is larger than that of all it adds. *)
Definition total (weight : QueryCallbackData → nat) (l : list QueryCallbackData) : nat := sum_list_with weight l.
Definition bounded_by (weight : QueryCallbackData → nat) : Prop :=
  ∀ d v acts, reaction d v = Some acts → (total weight (added acts) < weight d)%nat.


(** ** How a query is set up, and what goes wrong *)

(** The [With] functions check only the first callback; the kinds of the
    others are compared when it is their turn. *)
Lemma with_first_callback k f cb lg :
  WithChainingCallback cb (St (Query (future_of k f) []) lg) =
    if k then Aborts (St (Query (future_of k f) []) lg)
    else Returns () (St (Query (future_of k f) [string_data cb]) lg).
Proof. by destruct k. Qed.

Lemma with_next_callback t d ds cb lg :
  WithChainingCallback cb (St (Query t (d :: ds)) lg) = Returns () (St (Query t ((d :: ds) ++ [string_data cb])) lg) ∧
  ∀ cb', WithChainingPreparedCallback cb' (St (Query t (d :: ds)) lg) =
         Returns () (St (Query t ((d :: ds) ++ [prepared_data cb'])) lg).
Proof. done. Qed.

(** A chain that changes its kind fails, whatever the callback asks for next:
    the assertion of [MoveFrom] for a query of the other kind, the last one of
    [InvokeIfReady] for one of the same kind. *)
Lemma mixed_chain_aborts w k f d d' ds lg v acts :
  outcome_of w k f = Value v → has_kind k d → reaction d v = Some acts → has_kind (negb k) d' →
  (∃ k' g, acts = [SetNext k' g] ∧ valid g = true) →
  ∃ s, InvokeIfReady w (St (Query (future_of k f) (d :: d' :: ds)) lg) = Aborts s.
Proof.
  intros Ho Hk Hr [Hk' _] (k' & g & -> & Hg). rewrite (invoke_value _ _ _ _ _ _ _ _ Ho Hk Hr).
  destruct (decide (k' = k)) as [->|Hne].
  - assert (next_kind k [SetNext k g]) as Hn by (by intros ?? [= ->]%list_elem_of_singleton).
    rewrite (comp_bind_Returns _ _ _ _ _ (run_typed _ _ _ _ _ _ Hn)).
    cbn [next_of fold_left added omap list_omap app]. rewrite app_nil_r.
    unfold checkStateAndReturnCompletion, mbind, comp_bind, getO, get.
    destruct k; cbn; rewrite Hg; cbn; unfold front_isPrepared; cbn; rewrite Hk'; cbn; eauto.
  - assert (k' = negb k) as -> by (by destruct k, k'). destruct k; cbn; eauto.
Qed.

(** A promise that was destroyed or holds an exception ends its chain silently:
    the exception leaves a query without future, which is never ready. *)
Lemma broken_chain_never_done w w' k f d ds lg :
  outcome_of w k f = Exception → has_kind k d →
  ∃ s, InvokeIfReady w (St (Query (future_of k f) (d :: ds)) lg) = Throws s ∧ InvokeIfReady w' s = Returns false s.
Proof.
  intros Ho Hk. eexists. split; [by apply invoke_exception|]. apply invoke_pending. by destruct k.
Qed.

(** [front()] of an empty queue. *)
Lemma invoke_without_callback w t lg : InvokeIfReady w (St (Query t []) lg) = UB.
Proof. done. Qed.
End callback.

(** ** A chain of two text queries *)

Abbreviation demo_action := (@action (list nat) unit nat nat).
Abbreviation demo_function := (function nat nat (list nat)).
(** 0 asks for a second query; 1 adds itself and asks for the same query again. *)
#[export] Instance demo_program : @Program (list nat) unit nat nat := {|
  string_code c r := match c with
    | 0 => [Emit (length r); SetNext false (State 1)]
    | _ => [Emit (length r); AddCallback (Code 1%nat); SetNext false (State 0)]
    end%nat;
  prepared_code _ _ := [];
|}.
Definition demo_second : demo_function := Wrapped (λ r, [length r]).
Definition demo_first : demo_function := Code 0%nat.
Definition demo_world : @world (list nat) unit :=
  World (λ p, if decide (p = 0%nat) then Value [7; 8]%nat else if decide (p = 1%nat) then Value [9]%nat else Pending) (λ _, Pending).
Definition demo_query : @QueryCallback (list nat) unit nat nat :=
  Query (future_of false (State 0)) [string_data demo_first; string_data demo_second].

Lemma demo_typed : typed_query false (State 0) [string_data demo_first; string_data demo_second] demo_query.
Proof.
  assert (∀ d, d ∈ [string_data demo_first; string_data demo_second] →
    typed_by false (λ d, d ∈ [string_data demo_first; string_data demo_second]) d) as Hd.
  { intros d [->| ->%list_elem_of_singleton]%elem_of_cons; (split; [done|intros [r|]; [by eexists|done]|..]).
    1,4: intros [r|] acts [= <-] k f Hin; set_solver.
    1,3: intros [r|] acts d' [= <-] Hin; set_solver.
    all: intros [r|] acts [= <-]; by intros d' ?. }
  split; [done|]. split; [done|]. split; [done|]. split.
  - intros d Hin. exists (λ d, d ∈ [string_data demo_first; string_data demo_second]). split; [exact Hin|exact Hd].
  - intros d [= <-] [r|] acts [= <-] _. done.
Qed.

(** Both results are there: the first call delivers the first result and goes
    on, the second one delivers the second and is done. *)
Lemma InvokeIfReady_typed_witness :
  typed_query false (State 0) [string_data demo_first; string_data demo_second] demo_query ∧
  ∃ acts q', reaction (string_data demo_first) (inl [7; 8]%nat) = Some acts ∧
    InvokeIfReady demo_world (St demo_query []) =
      Returns (negb (valid (next_of acts NoState))) (St q' ([] ++ emitted acts)) ∧
    (valid (next_of acts NoState) = true →
     typed_query false (next_of acts NoState) ([string_data demo_second] ++ added acts) q').
Proof.
  split; [exact demo_typed|].
  exact (InvokeIfReady_typed demo_world false (State 0) (string_data demo_first) [string_data demo_second] demo_query [] demo_typed).
Defined.

Lemma demo_polled : ∃ s', poll [demo_world; demo_world] (St demo_query []) = Returns true s' ∧ log s' = [2; 1]%nat ∧ _callbacks (self s') = [].
Proof. eexists. split; [by vm_compute|]. by split. Qed.

(** A callback that adds itself and asks for a query again: the chain goes on
    for as long as results come. *)
Definition endless_query : @QueryCallback (list nat) unit nat nat := Query (future_of false (State 0)) [string_data (Code 1%nat)].
Example endless_chain n lg :
  poll (replicate n demo_world) (St endless_query lg) = Returns false (St endless_query (lg ++ replicate n 2%nat)).
Proof.
  revert lg. induction n as [|n IH]; intros lg; cbn [replicate poll]; [by rewrite app_nil_r|].
  rewrite (comp_bind_Returns _ _ _ false (St endless_query (lg ++ [2%nat]))) by done. rewrite IH, <-app_assoc. done.
Qed.
End QueryCallback.
