(* ===== verification/AsyncProcessor.v ===== *)
(** The list of pending callbacks of a thread and the objects it holds:
    src/mysql-conn-pool/dbimpl/AsyncCallbackProcessor.h, the queries of
    QueryCallback.v, [TransactionCallback] and [SQLQueryHolderCallback]. *)
From S2P Require Import Prelude Except QueryCallback.

Module AsyncProcessor.
Import QueryCallback.

(** ** The processor *)

(** [T]: the callbacks; [W]: what they work on besides the processor. *)
Record AsyncCallbackProcessor (T W : Type) := Processor { pending : list T; outside : W }.
Arguments Processor {T W} pending outside.
Arguments pending {T W} _.
Arguments outside {T W} _.

(** [concept AsyncCallback]: whether the callback is done, and what it became.
    While it runs it may add callbacks to the processor, and that is all it may
    do to it ([pending] is private). *)
Class AsyncCallback (T W : Type) := {
  invoke : T → comp (AsyncCallbackProcessor T W) (bool * T);
  invoke_adds t s s' : final (invoke t s) = Some s' → ∃ l, pending s' = pending s ++ l;
}.

Section processor.
Context {T W : Type} `{AsyncCallback T W}.
Implicit Types s : AsyncCallbackProcessor T W.

Definition AddCallback (query : T) : comp (AsyncCallbackProcessor T W) unit :=
  modify (λ s, Processor (pending s ++ [query]) (outside s)).

(** [std::remove_if]: the predicate once on every element, in order; what it
    does not remove stays in order. *)
Fixpoint remove_ready (l : list T) : comp (AsyncCallbackProcessor T W) (list T) :=
  match l with
  | [] => mret []
  | t :: l =>
      r ← invoke t;
      rest ← remove_ready l;
      mret (if (r : bool * T).1 then rest else r.2 :: rest)
  end.

Definition ProcessReadyCallbacks : comp (AsyncCallbackProcessor T W) unit :=
  updateCallbacks ← get pending;
  match updateCallbacks with
  | [] => mret ()
  | _ =>
      modify (λ s, Processor [] (outside s));;
      updateCallbacks ← remove_ready updateCallbacks;
      modify (λ s, Processor (pending s ++ updateCallbacks) (outside s))
  end.

(** Where no callback throws, a property of callbacks, and one of the world
    they work on, that the callbacks keep stays true of all that are pending. *)
Definition well_behaved (I : T → Prop) (J : W → Prop) : Prop :=
  ∀ t s, I t → J (outside s) → ∃ b t' l w,
    invoke t s = Returns (b, t') (Processor (pending s ++ l) w) ∧ J w ∧ Forall I l ∧ (b = false → I t').

Lemma remove_ready_ok I J l s :
  well_behaved I J → Forall I l → J (outside s) →
  ∃ kept add w, remove_ready l s = Returns kept (Processor (pending s ++ add) w) ∧ J w ∧ Forall I (add ++ kept) ∧
    (length kept ≤ length l)%nat.
Proof.
  intros Hwb Hl. revert s. induction Hl as [|t l Ht _ IH]; intros s HJ; cbn [remove_ready].
  { exists [], [], (outside s). rewrite app_nil_r. by destruct s. }
  destruct (Hwb t s Ht HJ) as (b & t' & add & w & Hrun & HJw & Hadd & Hb).
  rewrite (comp_bind_Returns _ _ _ _ _ Hrun).
  destruct (IH (Processor (pending s ++ add) w) HJw) as (kept & add' & w' & Hrun' & HJw' & Hkept & Hlen).
  rewrite (comp_bind_Returns _ _ _ _ _ Hrun'). cbn. apply Forall_app in Hkept as [Ha' Hk].
  exists (if b then kept else t' :: kept), (add ++ add'), w'. rewrite <-app_assoc. split; [done|]. split; [done|]. split.
  - rewrite !Forall_app. split; [done|]. destruct b; [done|]. constructor; auto.
  - destruct b; cbn; lia.
Qed.

Lemma ProcessReadyCallbacks_ok I J s :
  well_behaved I J → Forall I (pending s) → J (outside s) →
  ∃ s', ProcessReadyCallbacks s = Returns () s' ∧ Forall I (pending s') ∧ J (outside s').
Proof.
  intros Hwb Hs HJ. unfold ProcessReadyCallbacks. rewrite get_bind. destruct (pending s) as [|t l] eqn:Hp.
  { exists s. by rewrite Hp. }
  rewrite modify_bind.
  destruct (remove_ready_ok I J (t :: l) (Processor [] (outside s)) Hwb Hs HJ) as (kept & add & w & Hrun & HJw & Hk & _).
  rewrite (comp_bind_Returns _ _ _ _ _ Hrun). eexists. split; [done|]. by split.
Qed.
End processor.

(** ** Instances *)

(** What the code of a user's callback does, besides working on its query: it
    adds callbacks and changes the world. *)
Section instances.
Context {E W : Type} {T : Type} (adds : E → list T) (effect : E → W → W).

Definition perform (es : list E) (s : AsyncCallbackProcessor T W) : AsyncCallbackProcessor T W :=
  foldl (λ s e, Processor (pending s ++ adds e) (effect e (outside s))) s es.

Lemma perform_eq es s :
  perform es s = Processor (pending s ++ es ≫= adds) (foldl (λ w e, effect e w) (outside s) es).
Proof.
  unfold perform. revert s. induction es as [|e es IH]; intros s; cbn; [by rewrite app_nil_r; destruct s|].
  rewrite IH. cbn. by rewrite app_assoc.
Qed.
End instances.

(** [QueryCallback]: [promises] says what is known of the promises. *)
Section queries.
Context {R P E C W : Type} `{!@Program R P E C} (promises : W → @world R P).
Abbreviation query := (@QueryCallback R P E C).
Context (adds : E → list query) (effect : E → W → W).

Definition invoke_query (t : query) : comp (AsyncCallbackProcessor query W) (bool * query) := λ s,
  match InvokeIfReady (promises (outside s)) (St t []) with
  | Returns b q => Returns (b, self q) (perform adds effect (log q) s)
  | Throws q => Throws (perform adds effect (log q) s)
  | Aborts q => Aborts (perform adds effect (log q) s)
  | UB => UB
  | OutOfFuel => OutOfFuel
  end.

#[export, refine] Instance query_callback : AsyncCallback query W := {| invoke := invoke_query |}.
Proof.
  intros t s s'. unfold invoke_query. destruct (InvokeIfReady _ _); intros [= <-]; rewrite perform_eq; by eexists.
Defined.

Definition well_typed (q : query) : Prop := ∃ k f l, typed_query k f l q.
(** Every promise that is settled has a value. *)
Definition promises_kept (w : W) : Prop :=
  ∀ p, strings (promises w) p ≠ Exception ∧ prepareds (promises w) p ≠ Exception.

Lemma kept_outcome w k f : promises_kept w → outcome_of (promises w) k f ≠ Exception.
Proof.
  intros Hw. unfold outcome_of, ready. destruct k, f as [|p]; try done; destruct (Hw p) as [H1 H2].
  - by destruct (prepareds (promises w) p).
  - by destruct (strings (promises w) p).
Qed.

Lemma queries_well_behaved :
  (∀ e, Forall well_typed (adds e)) → (∀ e w, promises_kept w → promises_kept (effect e w)) →
  well_behaved well_typed promises_kept.
Proof.
  intros Hadds Heff q s (k & f & l & Hq) Hw. destruct l as [|d ds]; [by destruct Hq as (_ & _ & [] & _)|].
  pose proof (InvokeIfReady_typed (promises (outside s)) k f d ds q [] Hq) as Hstep.
  pose proof (kept_outcome _ k f Hw) as Hne. cbn. unfold invoke_query.
  destruct (outcome_of (promises (outside s)) k f) as [|v|]; [| |done].
  - rewrite Hstep. exists false, q, [], (outside s). rewrite app_nil_r. split; [by destruct s|].
    split; [done|]. split; [done|]. intros _. by exists k, f, (d :: ds).
  - destruct Hstep as (acts & q' & _ & -> & Ht). cbn [log self]. rewrite perform_eq.
    eexists _, q', _, _. split; [done|]. split; [|split].
    + generalize (emitted acts) as es. generalize dependent (outside s). intros w Hw. clear -Heff Hw.
      intros es. revert w Hw. induction es as [|e es IH]; intros w Hw; [done|]. cbn. by apply IH, Heff.
    + apply List.Forall_forall. intros q1 Hq1%list_elem_of_In. apply list_elem_of_bind in Hq1 as (e & Hq1 & _).
      specialize (Hadds e). rewrite Forall_forall in Hadds. by apply Hadds.
    + intros Hv%negb_false_iff. eexists k, _, _. by apply Ht.
Qed.

(** A processor whose pending queries are well-typed, and whose callbacks
    add only well-typed ones, never fails an assertion nor throws as long as
    the promises are kept; its pending queries stay well-typed. *)
Theorem ProcessReadyCallbacks_typed s :
  (∀ e, Forall well_typed (adds e)) → (∀ e w, promises_kept w → promises_kept (effect e w)) →
  Forall well_typed (pending s) → promises_kept (outside s) →
  ∃ s', ProcessReadyCallbacks s = Returns () s' ∧ Forall well_typed (pending s') ∧ promises_kept (outside s').
Proof. intros Hadds Heff. apply ProcessReadyCallbacks_ok. by apply queries_well_behaved. Qed.
End queries.

(** ** [TransactionCallback] and [SQLQueryHolderCallback] *)

Section others.
Context {E H : Type}.

Record TransactionCallback := Transaction { m_future : future; m_callback : option (bool → list E) }.
Definition from_future (f : future) : TransactionCallback := Transaction f None.
Definition AfterComplete (callback : bool → list E) (t : TransactionCallback) : TransactionCallback :=
  Transaction (m_future t) (Some callback).

(** The state: the callback, and what the user's function did. *)
Definition transaction_InvokeIfReady (promises : nat → shared bool) : comp (TransactionCallback * list E) bool :=
  t ← get fst;
  match ready promises (m_future t) with
  | Pending => mret false
  | v =>
      modify (λ s, (Transaction NoState (m_callback t), s.2));;
      match v, m_callback t with
      | Value b, Some callback => modify (λ s, (s.1, s.2 ++ callback b));; mret true
      | _, _ => throw
      end
  end.

(** [h_future]: of type [future<void>]. *)
Record SQLQueryHolderCallback := Holder { m_holder : H; h_future : future; h_callback : option (H → list E) }.
Definition holder_AfterComplete (callback : H → list E) (t : SQLQueryHolderCallback) : SQLQueryHolderCallback :=
  Holder (m_holder t) (h_future t) (Some callback).

(** The future is never asked for its value. *)
Definition holder_InvokeIfReady (promises : nat → shared unit) : comp (SQLQueryHolderCallback * list E) bool :=
  t ← get fst;
  match ready promises (h_future t) with
  | Pending => mret false
  | _ =>
      match h_callback t with
      | Some callback => modify (λ s, (s.1, s.2 ++ callback (m_holder t)));; mret true
      | None => throw
      end
  end.

Lemma transaction_result promises p cb b lg :
  promises p = Value b →
  transaction_InvokeIfReady promises (Transaction (State p) (Some cb), lg) =
    Returns true (Transaction NoState (Some cb), lg ++ cb b).
Proof. intros Hp. unfold transaction_InvokeIfReady. rewrite get_bind. cbn. by rewrite Hp. Qed.

(** A callback without function throws when the result comes. *)
Lemma transaction_without_function promises p b lg :
  promises p = Value b → ∃ s, transaction_InvokeIfReady promises (from_future (State p), lg) = Throws s.
Proof. intros Hp. unfold transaction_InvokeIfReady. rewrite get_bind. cbn. rewrite Hp. by eexists. Qed.

(** A holder whose task was destroyed unexecuted is reported as complete. *)
Lemma holder_broken promises p h cb lg :
  promises p = Exception →
  holder_InvokeIfReady promises (Holder h (State p) (Some cb), lg) =
    Returns true (Holder h (State p) (Some cb), lg ++ cb h).
Proof. intros Hp. unfold holder_InvokeIfReady. rewrite get_bind. cbn. by rewrite Hp. Qed.
End others.

(** ** Examples *)

Definition demo_effect : nat → @world (list nat) unit → @world (list nat) unit := λ _ w, w.

Lemma ProcessReadyCallbacks_typed_witness :
  let s := Processor [demo_query] demo_world in
  Forall well_typed (pending s) ∧ promises_kept (λ w, w) (outside s) ∧
  ∃ s', ProcessReadyCallbacks (H := query_callback (λ w, w) (λ _, []) demo_effect) s = Returns () s' ∧
    Forall well_typed (pending s') ∧ promises_kept (λ w, w) (outside s').
Proof.
  assert (Forall well_typed [demo_query]) as Ht.
  { constructor; [|done]. eexists _, _, _. exact demo_typed. }
  assert (promises_kept (λ w, w) demo_world) as Hk.
  { intros p. cbn. split; [|done]. repeat case_decide; done. }
  split; [exact Ht|]. split; [exact Hk|].
  exact (ProcessReadyCallbacks_typed (λ w, w) (λ _, []) demo_effect (Processor [demo_query] demo_world)
    (λ _, List.Forall_nil _) (λ _ _ H, H) Ht Hk).
Defined.

(** A broken promise takes all the other pending queries with it, those that
    still wait for their results too. *)
Definition demo_waiting : @QueryCallback (list nat) unit nat nat := Query (future_of false (State 5)) [string_data demo_second].
Definition demo_broken : @world (list nat) unit :=
  World (λ p, if decide (p = 0%nat) then Exception else Pending) (λ _, Pending).
Example exception_drops_all :
  ProcessReadyCallbacks (H := query_callback (λ w, w) (λ _, []) demo_effect) (Processor [demo_query; demo_waiting] demo_broken)
    = Throws (Processor [] demo_broken).
Proof. reflexivity. Qed.
End AsyncProcessor.
