(* ===== verification/Bytes.v ===== *)
(** Bytes: little-endian integers as [memcpy] and pointer casts see them, and
    decimal numbers as [strtol] and [strtoul] of the C library read them
    (LP64: [long] has 64 bits). *)
From S2P Require Import Prelude.
From Stdlib Require Ascii String.
Export String.StringSyntax.
Delimit Scope string_scope with str.

Abbreviation bytes := (list Z).

Definition text (s : String.string) : bytes := (λ c, Z.of_N (Ascii.N_of_ascii c)) <$> String.list_ascii_of_string s.
Arguments text s%_str.

(** Two's complement of [w] bits. *)
Definition signed (w x : Z) : Z := let y := wrap w x in if decide (y < 2 ^ (w - 1)) then y else y - 2 ^ w.

Definition in_unsigned (w x : Z) : Prop := 0 ≤ x < 2 ^ w.
Definition in_signed (w x : Z) : Prop := - 2 ^ (w - 1) ≤ x < 2 ^ (w - 1).

Lemma signed_wrap w x : 0 ≤ w → signed w (wrap w x) = signed w x.
Proof. intros. unfold signed, wrap. by rewrite Z.mod_mod by (apply Z.pow_nonzero; lia). Qed.

Lemma signed_small w x : 0 < w → in_signed w x → signed w x = x.
Proof.
  unfold signed, in_signed, wrap. intros Hw Hx.
  assert (2 ^ w = 2 * 2 ^ (w - 1)) as Hp by (rewrite <-Z.pow_succ_r by lia; f_equal; lia).
  rewrite Hp in *. destruct (decide (0 ≤ x)).
  - rewrite Z.mod_small by lia. by rewrite decide_True by lia.
  - replace (x mod _) with (x + 2 * 2 ^ (w - 1)) by (symmetry; rewrite <-(Z_mod_plus_full x 1), Z.mod_small; lia).
    rewrite decide_False; lia.
Qed.

(** ** Little endian *)

Fixpoint le_split (n : nat) (x : Z) : bytes :=
  match n with O => [] | S n => x mod 256 :: le_split n (x / 256) end.
Fixpoint le_combine (l : bytes) : Z :=
  match l with [] => 0 | b :: l => b + 256 * le_combine l end.

Lemma length_le_split n x : length (le_split n x) = n.
Proof. revert x. induction n as [|n IH]; intros x; cbn; [done|]. by rewrite IH. Qed.

Lemma le_combine_split n x : le_combine (le_split n x) = wrap (8 * Z.of_nat n) x.
Proof.
  revert x. induction n as [|n IH]; intros x; cbn [le_split le_combine].
  { unfold wrap. by rewrite Z.mod_1_r. }
  rewrite IH. unfold wrap. replace (8 * Z.of_nat (S n)) with (8 + 8 * Z.of_nat n) by lia.
  rewrite Z.pow_add_r by lia. change (2 ^ 8) with 256.
  rewrite Z.rem_mul_r; [done|lia|]. apply Z.pow_pos_nonneg; lia.
Qed.

Lemma le_combine_split_take n x l : le_combine (take n (le_split n x ++ l)) = wrap (8 * Z.of_nat n) x.
Proof. rewrite take_app_length' by (by rewrite length_le_split). apply le_combine_split. Qed.

(** ** Decimal numbers *)

Definition is_digit (c : Z) : bool := bool_decide (48 ≤ c ≤ 57).
(** [isspace] in the C locale. *)
Definition is_space (c : Z) : bool := bool_decide (c = 32 ∨ 9 ≤ c ≤ 13).

(** The value of the digits at the front.  A string that ends before a byte
    that is no digit is not terminated: the library reads past its end. *)
Fixpoint read_digits (acc : Z) (s : bytes) : option Z :=
  match s with
  | [] => None
  | c :: s => if is_digit c then read_digits (10 * acc + (c - 48)) s else Some acc
  end.
Fixpoint skip_space (s : bytes) : bytes :=
  match s with c :: s' => if is_space c then skip_space s' else s | [] => [] end.

(** Sign and magnitude. *)
Definition read_number (s : bytes) : option (bool * Z) :=
  match skip_space s with
  | [] => None
  | c :: s =>
      if decide (c = 45) then (λ v, (true, v)) <$> read_digits 0 s
      else if decide (c = 43) then (λ v, (false, v)) <$> read_digits 0 s
      else (λ v, (false, v)) <$> read_digits 0 (c :: s)
  end.

Definition LONG_MAX : Z := 9223372036854775807.
Definition ULONG_MAX : Z := 18446744073709551615.

(** [strtol(s, nullptr, 10)] and [strtoll]. *)
Definition strtol (s : bytes) : option Z :=
  (λ r : bool * Z, let v := if r.1 then - r.2 else r.2 in Z.max (- LONG_MAX - 1) (Z.min v LONG_MAX)) <$> read_number s.
(** [strtoul(s, nullptr, 10)] and [strtoull]: a minus sign negates in the
    unsigned type. *)
Definition strtoul (s : bytes) : option Z :=
  (λ r : bool * Z, if decide (ULONG_MAX < r.2) then ULONG_MAX else u64 (if r.1 then - r.2 else r.2)) <$> read_number s.

(** Decimal representation, as the server sends numbers in text results. *)
Fixpoint digits (fuel : nat) (x : Z) (acc : bytes) : bytes :=
  match fuel with
  | O => acc
  | S fuel => let acc := 48 + x mod 10 :: acc in if decide (x / 10 = 0) then acc else digits fuel (x / 10) acc
  end.
Definition decimal (x : Z) : bytes := if decide (x < 0) then 45 :: digits 20 (- x) [] else digits 20 x [].

Lemma read_digits_digits fuel x acc :
  0 ≤ x < 10 ^ Z.of_nat fuel → (0 < fuel)%nat → read_digits 0 (digits fuel x acc) = read_digits x acc.
Proof.
  revert x acc. induction fuel as [|fuel IH]; intros x acc Hx Hf; [lia|]. cbn [digits].
  assert (0 ≤ x mod 10 < 10) as Hm by (apply Z.mod_pos_bound; lia).
  assert (is_digit (48 + x mod 10) = true) as Hd by (unfold is_digit; apply bool_decide_eq_true; lia).
  assert (∀ a, read_digits a (48 + x mod 10 :: acc) = read_digits (10 * a + x mod 10) acc) as Hstep.
  { intros a. cbn [read_digits]. rewrite Hd. f_equal. lia. }
  assert (x = 10 * (x / 10) + x mod 10) as Heq by (apply Z.div_mod; lia).
  case_decide as H0.
  - rewrite Hstep. f_equal. lia.
  - assert (0 ≤ x / 10 < 10 ^ Z.of_nat fuel) as Hq.
    { split; [apply Z.div_pos; lia|]. apply Z.div_lt_upper_bound; [lia|]. rewrite Nat2Z.inj_succ, Z.pow_succ_r in Hx; lia. }
    destruct fuel as [|fuel]; [change (10 ^ Z.of_nat 0) with 1 in Hq; lia|].
    rewrite IH by lia. rewrite Hstep. f_equal. lia.
Qed.

Lemma digits_head fuel x acc :
  (0 < fuel)%nat → 0 ≤ x → ∃ c l, digits fuel x acc = c :: l ∧ 48 ≤ c ≤ 57.
Proof.
  revert x acc. induction fuel as [|fuel IH]; intros x acc Hf Hx; [lia|]. cbn [digits].
  assert (0 ≤ x mod 10 < 10) by (apply Z.mod_pos_bound; lia).
  case_decide; [eexists _, _; split; [done|lia]|].
  destruct fuel as [|fuel]; [cbn; eexists _, _; split; [done|lia]|].
  apply IH; [lia|]. apply Z.div_pos; lia.
Qed.

Lemma digits_app fuel x acc l : digits fuel x acc ++ l = digits fuel x (acc ++ l).
Proof. revert x acc. induction fuel as [|fuel IH]; intros x acc; [done|]. cbn [digits]. case_decide; [done|]. apply IH. Qed.

(** A number written in decimal and terminated is read back. *)
Lemma read_number_decimal x c l :
  - 10 ^ 20 < x < 10 ^ 20 → is_digit c = false →
  read_number (decimal x ++ c :: l) = Some (bool_decide (x < 0), Z.abs x).
Proof.
  intros Hx Hc. unfold decimal, read_number.
  assert (∀ v, read_digits v (c :: l) = Some v) as Hend by (intros v; cbn [read_digits]; by rewrite Hc).
  destruct (decide (x < 0)) as [Hneg|Hpos].
  - rewrite bool_decide_true by lia. cbn [app skip_space is_space]. change (is_space 45) with false. cbv iota.
    rewrite digits_app. cbn [app]. rewrite read_digits_digits by lia. rewrite Hend. cbn. do 2 f_equal. lia.
  - rewrite bool_decide_false by lia. rewrite digits_app. cbn [app].
    destruct (digits_head 20 x (c :: l)) as (d & l' & Hd & Hr); [lia..|]. rewrite Hd. cbn [skip_space].
    assert (is_space d = false) as -> by (unfold is_space; apply bool_decide_eq_false; lia).
    rewrite !decide_False by lia. rewrite <-Hd. rewrite read_digits_digits by lia. rewrite Hend. cbn. do 2 f_equal. lia.
Qed.

Lemma strtol_decimal x c l :
  - LONG_MAX - 1 ≤ x ≤ LONG_MAX → is_digit c = false → strtol (decimal x ++ c :: l) = Some x.
Proof.
  intros Hx Hc. unfold strtol. rewrite read_number_decimal; [|unfold LONG_MAX in *; lia|done]. cbn. f_equal.
  unfold LONG_MAX in *. case_bool_decide; lia.
Qed.

Lemma strtoul_decimal x c l :
  0 ≤ x ≤ ULONG_MAX → is_digit c = false → strtoul (decimal x ++ c :: l) = Some x.
Proof.
  intros Hx Hc. unfold strtoul. rewrite read_number_decimal; [|unfold ULONG_MAX in *; lia|done]. cbn [fmap option_fmap option_map fst snd]. f_equal.
  unfold ULONG_MAX in *. rewrite bool_decide_false by lia. rewrite decide_False by lia. rewrite u64_small by lia. lia.
Qed.
