(* ===== verification/PreparedStatement.v ===== *)
(** Prepared statements on the client: src/mysql-conn-pool/dbimpl/
    PreparedStatement.cpp (the values a user sets) and MySQLPreparedStatement.cpp
    (their binding to the structures of the C API).

    Integers are numbers in the range of their type, [float] and [double] their
    bit patterns, strings lists of bytes; the machine is little-endian. *)
From S2P Require Import Prelude Except Bytes.

(** The type codes of the C API that the program names. *)
Inductive enum_field_types :=
  | MYSQL_TYPE_DECIMAL | MYSQL_TYPE_TINY | MYSQL_TYPE_SHORT | MYSQL_TYPE_LONG | MYSQL_TYPE_FLOAT | MYSQL_TYPE_DOUBLE
  | MYSQL_TYPE_NULL | MYSQL_TYPE_TIMESTAMP | MYSQL_TYPE_LONGLONG | MYSQL_TYPE_INT24 | MYSQL_TYPE_DATE | MYSQL_TYPE_TIME
  | MYSQL_TYPE_DATETIME | MYSQL_TYPE_YEAR | MYSQL_TYPE_NEWDATE | MYSQL_TYPE_BIT | MYSQL_TYPE_JSON | MYSQL_TYPE_NEWDECIMAL
  | MYSQL_TYPE_ENUM | MYSQL_TYPE_SET | MYSQL_TYPE_TINY_BLOB | MYSQL_TYPE_MEDIUM_BLOB | MYSQL_TYPE_LONG_BLOB | MYSQL_TYPE_BLOB
  | MYSQL_TYPE_VAR_STRING | MYSQL_TYPE_STRING | MYSQL_TYPE_GEOMETRY.
#[export] Instance enum_field_types_eq_dec : EqDecision enum_field_types.
Proof. solve_decision. Defined.

Module PreparedStatement.

(** ** The values *)

(** [PreparedStatementData::data], a variant. *)
Inductive PreparedStatementData :=
  | Bool (b : bool)
  | UInt8 (v : Z) | UInt16 (v : Z) | UInt32 (v : Z) | UInt64 (v : Z)
  | Int8 (v : Z) | Int16 (v : Z) | Int32 (v : Z) | Int64 (v : Z)
  | Float (v : Z) | Double (v : Z)
  | String (v : bytes)
  | Binary (v : bytes)
  | Null.

Record PreparedStatementBase := Statement { m_index : Z; statement_data : list PreparedStatementData }.

(** A variant starts with its first alternative. *)
Definition make (index capacity : Z) : PreparedStatementBase := Statement index (replicate (Z.to_nat capacity) (Bool false)).

Definition set_data (index : Z) (v : PreparedStatementData) : comp PreparedStatementBase unit :=
  n ← get (λ s, zlength (statement_data s));
  ASSERT (bool_decide (index < n));;
  modify (λ s, Statement (m_index s) (zinsert index v (statement_data s))).

Definition setBool (index : Z) (value : bool) : comp PreparedStatementBase unit := set_data index (Bool value).
Definition setUInt8 (index value : Z) : comp PreparedStatementBase unit := set_data index (UInt8 value).
Definition setUInt16 (index value : Z) : comp PreparedStatementBase unit := set_data index (UInt16 value).
Definition setUInt32 (index value : Z) : comp PreparedStatementBase unit := set_data index (UInt32 value).
Definition setUInt64 (index value : Z) : comp PreparedStatementBase unit := set_data index (UInt64 value).
Definition setInt8 (index value : Z) : comp PreparedStatementBase unit := set_data index (Int8 value).
Definition setInt16 (index value : Z) : comp PreparedStatementBase unit := set_data index (Int16 value).
Definition setInt32 (index value : Z) : comp PreparedStatementBase unit := set_data index (Int32 value).
Definition setInt64 (index value : Z) : comp PreparedStatementBase unit := set_data index (Int64 value).
Definition setFloat (index value : Z) : comp PreparedStatementBase unit := set_data index (Float value).
Definition setDouble (index value : Z) : comp PreparedStatementBase unit := set_data index (Double value).
Definition setString (index : Z) (value : bytes) : comp PreparedStatementBase unit := set_data index (String value).
Definition setStringView (index : Z) (value : bytes) : comp PreparedStatementBase unit := set_data index (String value).
Definition setBinary (index : Z) (value : bytes) : comp PreparedStatementBase unit := set_data index (Binary value).
Definition setNull (index : Z) : comp PreparedStatementBase unit := set_data index Null.

(** ** The binding *)

Record MYSQL_BIND := Bind {
  buffer_type : enum_field_types;
  buffer : option bytes;
  buffer_length : Z;
  is_null_value : bool;
  length_ : option Z;
  is_unsigned : bool;
}.
(** [memset] to 0. *)
Definition zero_bind : MYSQL_BIND := Bind MYSQL_TYPE_DECIMAL None 0 false None false.

Record MySQLPreparedStatement := MySQLStatement {
  m_stmt : option PreparedStatementBase;
  m_paramCount : Z;
  m_paramsSet : list bool;
  m_bind : list MYSQL_BIND;
  m_queryString : bytes;
}.
(** [param_count]: what [mysql_stmt_param_count] answers. *)
Definition prepare (param_count : Z) (queryString : bytes) : MySQLPreparedStatement :=
  MySQLStatement None param_count (replicate (Z.to_nat param_count) false) (replicate (Z.to_nat param_count) zero_bind) queryString.

Definition with_bind (index : Z) (b : MYSQL_BIND) (m : MySQLPreparedStatement) : MySQLPreparedStatement :=
  MySQLStatement (m_stmt m) (m_paramCount m) (zinsert index true (m_paramsSet m)) (zinsert index b (m_bind m)) (m_queryString m).

(** The test of a parameter that is already bound only logs. *)
Definition AssertValidIndex (index : Z) : comp MySQLPreparedStatement unit :=
  n ← get m_paramCount;
  ASSERT (bool_decide (index < n));;
  getO (λ m, zlookup (m_paramsSet m) index);;
  mret ().

(** [AssertValidIndex], then the assignments to [m_bind[index]]. *)
Definition assign (index : Z) (f : MYSQL_BIND → MYSQL_BIND) : comp MySQLPreparedStatement unit :=
  AssertValidIndex index;;
  param ← getO (λ m, zlookup (m_bind m) index);
  modify (with_bind index (f param)).

Definition SetParameter_null (index : Z) : comp MySQLPreparedStatement unit :=
  assign index (λ param, Bind MYSQL_TYPE_NULL None 0 true None (is_unsigned param)).

(** The template for a type of [len] bytes. *)
Definition SetParameter_number (type : enum_field_types) (len : nat) (unsigned : bool) (index value : Z) : comp MySQLPreparedStatement unit :=
  assign index (λ _, Bind type (Some (le_split len value)) 0 false None unsigned).

Definition SetParameter_bool (index : Z) (value : bool) : comp MySQLPreparedStatement unit :=
  SetParameter_number MYSQL_TYPE_TINY 1 true index (if value then 1 else 0).

(** [uint32 len = uint32(value.size())]. *)
Definition SetParameter_string (index : Z) (value : bytes) : comp MySQLPreparedStatement unit :=
  let len := u32 (zlength value) in
  assign index (λ param, Bind MYSQL_TYPE_VAR_STRING (Some (take (Z.to_nat len) value)) len false (Some len) (is_unsigned param)).
Definition SetParameter_binary (index : Z) (value : bytes) : comp MySQLPreparedStatement unit :=
  let len := u32 (zlength value) in
  assign index (λ param, Bind MYSQL_TYPE_BLOB (Some (take (Z.to_nat len) value)) len false (Some len) (is_unsigned param)).

(** The type codes of [MySQLType]. *)
Definition SetParameter (index : Z) (data : PreparedStatementData) : comp MySQLPreparedStatement unit :=
  match data with
  | Bool b => SetParameter_bool index b
  | UInt8 v => SetParameter_number MYSQL_TYPE_TINY 1 true index v
  | UInt16 v => SetParameter_number MYSQL_TYPE_SHORT 2 true index v
  | UInt32 v => SetParameter_number MYSQL_TYPE_LONG 4 true index v
  | UInt64 v => SetParameter_number MYSQL_TYPE_LONGLONG 8 true index v
  | Int8 v => SetParameter_number MYSQL_TYPE_TINY 1 false index v
  | Int16 v => SetParameter_number MYSQL_TYPE_SHORT 2 false index v
  | Int32 v => SetParameter_number MYSQL_TYPE_LONG 4 false index v
  | Int64 v => SetParameter_number MYSQL_TYPE_LONGLONG 8 false index v
  | Float v => SetParameter_number MYSQL_TYPE_FLOAT 4 false index v
  | Double v => SetParameter_number MYSQL_TYPE_DOUBLE 8 false index v
  | String v => SetParameter_string index v
  | Binary v => SetParameter_binary index v
  | Null => SetParameter_null index
  end.

(** The loop, with [uint8 pos]. *)
Fixpoint bind_from (pos : Z) (l : list PreparedStatementData) : comp MySQLPreparedStatement unit :=
  match l with
  | [] => mret ()
  | data :: l => SetParameter pos data;; bind_from (u8 (pos + 1)) l
  end.
Definition with_stmt (stmt : PreparedStatementBase) (m : MySQLPreparedStatement) : MySQLPreparedStatement :=
  MySQLStatement (Some stmt) (m_paramCount m) (m_paramsSet m) (m_bind m) (m_queryString m).
Definition BindParameters (stmt : PreparedStatementBase) : comp MySQLPreparedStatement unit :=
  modify (with_stmt stmt);;
  bind_from 0 (statement_data stmt).

Definition clear_bind (b : MYSQL_BIND) : MYSQL_BIND :=
  Bind (buffer_type b) None (buffer_length b) (is_null_value b) None (is_unsigned b).
Definition ClearParameters : comp MySQLPreparedStatement unit :=
  modify (λ m, MySQLStatement (m_stmt m) (m_paramCount m) ((λ _, false) <$> m_paramsSet m) (clear_bind <$> m_bind m) (m_queryString m)).

(** ** Binding binds every value to its parameter *)

Definition number_bind (type : enum_field_types) (len : nat) (unsigned : bool) (value : Z) : MYSQL_BIND :=
  Bind type (Some (le_split len value)) 0 false None unsigned.
Definition bytes_bind (type : enum_field_types) (value : bytes) (unsigned : bool) : MYSQL_BIND :=
  let len := u32 (zlength value) in
  Bind type (Some (take (Z.to_nat len) value)) len false (Some len) unsigned.

(** The structure for a value; what [is_unsigned] was stays for values that
    are no numbers. *)
Definition bind_of (data : PreparedStatementData) (old : MYSQL_BIND) : MYSQL_BIND :=
  match data with
  | Bool b => number_bind MYSQL_TYPE_TINY 1 true (if b then 1 else 0)
  | UInt8 v => number_bind MYSQL_TYPE_TINY 1 true v
  | UInt16 v => number_bind MYSQL_TYPE_SHORT 2 true v
  | UInt32 v => number_bind MYSQL_TYPE_LONG 4 true v
  | UInt64 v => number_bind MYSQL_TYPE_LONGLONG 8 true v
  | Int8 v => number_bind MYSQL_TYPE_TINY 1 false v
  | Int16 v => number_bind MYSQL_TYPE_SHORT 2 false v
  | Int32 v => number_bind MYSQL_TYPE_LONG 4 false v
  | Int64 v => number_bind MYSQL_TYPE_LONGLONG 8 false v
  | Float v => number_bind MYSQL_TYPE_FLOAT 4 false v
  | Double v => number_bind MYSQL_TYPE_DOUBLE 8 false v
  | String v => bytes_bind MYSQL_TYPE_VAR_STRING v (is_unsigned old)
  | Binary v => bytes_bind MYSQL_TYPE_BLOB v (is_unsigned old)
  | Null => Bind MYSQL_TYPE_NULL None 0 true None (is_unsigned old)
  end.

Lemma SetParameter_assign index data : SetParameter index data = assign index (bind_of data).
Proof. by destruct data. Qed.

Definition wf (m : MySQLPreparedStatement) : Prop :=
  zlength (m_paramsSet m) = m_paramCount m ∧ zlength (m_bind m) = m_paramCount m.

Lemma wf_prepare n q : 0 ≤ n → wf (prepare n q).
Proof. intros Hn. unfold wf, zlength. cbn. rewrite !length_replicate. lia. Qed.

Lemma wf_with_bind i b m : wf m → wf (with_bind i b m).
Proof. unfold wf, with_bind. cbn. by rewrite !zlength_insert. Qed.

Lemma assign_valid i f m b :
  wf m → zlookup (m_bind m) i = Some b → assign i f m = Returns () (with_bind i (f b) m).
Proof.
  intros [Hset Hbind] Hb. pose proof (zlookup_lt_Some _ _ _ Hb) as Hi.
  destruct (zlookup_lt_is_Some (m_paramsSet m) i) as [x Hx]; [lia|].
  unfold assign, AssertValidIndex, mbind, comp_bind, get, getO. rewrite bool_decide_true by lia. cbn.
  rewrite Hx. cbn. by rewrite Hb.
Qed.

Lemma assign_invalid i f m : m_paramCount m ≤ i → assign i f m = Aborts m.
Proof.
  intros Hi. unfold assign, AssertValidIndex, mbind, comp_bind, get. by rewrite bool_decide_false by lia.
Qed.

(** What a list of values, bound from parameter [pos] on, makes of parameter [i]. *)
Definition bound (l : list PreparedStatementData) (pos i : Z) (b : MYSQL_BIND) : MYSQL_BIND :=
  match zlookup l (i - pos) with Some data => bind_of data b | None => b end.

Lemma bound_nil pos i b : bound [] pos i b = b.
Proof. unfold bound, zlookup. case_decide; [by rewrite lookup_nil|done]. Qed.

Lemma bound_head data l pos b : bound (data :: l) pos pos b = bind_of data b.
Proof. unfold bound. by rewrite Z.sub_diag. Qed.

Lemma bound_before l pos i b : i < pos → bound l pos i b = b.
Proof. intros Hi. unfold bound, zlookup. by rewrite decide_False by lia. Qed.

Lemma bound_tail data l pos i b : i ≠ pos → bound (data :: l) pos i b = bound l (pos + 1) i b.
Proof.
  intros Hi. unfold bound, zlookup. repeat case_decide; try lia; [|done].
  by replace (Z.to_nat (i - pos)) with (S (Z.to_nat (i - (pos + 1)))) by lia.
Qed.


Lemma bind_from_spec l pos m :
  wf m → 0 ≤ pos → pos + zlength l ≤ m_paramCount m → pos + zlength l ≤ 255 →
  ∃ m', bind_from pos l m = Returns () m' ∧ wf m' ∧ m_stmt m' = m_stmt m ∧ m_paramCount m' = m_paramCount m ∧
    m_queryString m' = m_queryString m ∧
    ∀ i, zlookup (m_bind m') i = bound l pos i <$> zlookup (m_bind m) i.
Proof.
  revert pos m. induction l as [|data l IH]; intros pos m Hwf Hpos Hn Hu; cbn [bind_from].
  { exists m. repeat split; try apply Hwf. intros i. destruct (zlookup (m_bind m) i); cbn; [by rewrite bound_nil|done]. }
  rewrite zlength_cons in *. pose proof (zlength_nonneg l) as Hl0.
  destruct (zlookup_lt_is_Some (m_bind m) pos) as [b Hb]; [destruct Hwf; lia|].
  rewrite SetParameter_assign, (comp_bind_Returns _ _ _ _ _ (assign_valid _ (bind_of data) _ _ Hwf Hb)).
  assert (u8 (pos + 1) = pos + 1) as -> by (apply wrap_small; lia).
  destruct (IH (pos + 1) (with_bind pos (bind_of data b) m)) as (m' & Hrun & Hwf' & Hst & Hcount & Hq & Hbinds);
    [by apply wf_with_bind|lia|cbn; lia|lia|].
  exists m'. repeat (split; [done|]). intros i. rewrite Hbinds. cbn [with_bind m_bind].
  destruct (decide (i = pos)) as [->|Hi].
  - rewrite zlookup_insert_eq by (by eapply zlookup_lt_Some). rewrite Hb. cbn. by rewrite bound_before, bound_head by lia.
  - rewrite zlookup_insert_ne by done. destruct (zlookup (m_bind m) i); cbn; [by rewrite bound_tail|done].
Qed.

Lemma bind_from_aborts l pos m :
  wf m → 0 ≤ pos ≤ m_paramCount m → m_paramCount m < pos + zlength l → pos + zlength l ≤ 255 →
  ∃ m', bind_from pos l m = Aborts m'.
Proof.
  revert pos m. induction l as [|data l IH]; intros pos m Hwf Hpos Hn Hu; cbn [bind_from].
  { unfold zlength in Hn. cbn in Hn. lia. }
  rewrite zlength_cons in *. rewrite SetParameter_assign.
  destruct (decide (pos = m_paramCount m)) as [Heq|Hne].
  { exists m. unfold mbind at 1, comp_bind. by rewrite assign_invalid by lia. }
  destruct (zlookup_lt_is_Some (m_bind m) pos) as [b Hb]; [destruct Hwf; lia|].
  rewrite (comp_bind_Returns _ _ _ _ _ (assign_valid _ (bind_of data) _ _ Hwf Hb)).
  pose proof (zlength_nonneg l). assert (u8 (pos + 1) = pos + 1) as -> by (apply wrap_small; lia).
  apply IH; [by apply wf_with_bind|cbn; lia|cbn; lia|lia].
Qed.

(** Binding returns or fails an assertion. *)
Lemma BindParameters_total stmt m :
  wf m → zlength (statement_data stmt) ≤ 255 →
  match BindParameters stmt m with Returns _ m' => wf m' | Aborts _ => True | _ => False end.
Proof.
  intros Hwf Hlen. unfold BindParameters. rewrite modify_bind.
  destruct (decide (zlength (statement_data stmt) ≤ m_paramCount m)) as [Hn|Hn].
  - destruct (bind_from_spec (statement_data stmt) 0 (with_stmt stmt m) Hwf) as (m' & -> & Hwf' & _); [lia|cbn; lia|lia|done].
  - destruct (bind_from_aborts (statement_data stmt) 0 (with_stmt stmt m) Hwf) as (m' & ->); [|cbn; lia|lia|done].
    cbn. destruct Hwf as [<- _]. pose proof (zlength_nonneg (m_paramsSet m)). lia.
Qed.

(** C25: [BindParameters] binds every value of the statement to the parameter of
    its position, with the bytes and the type code of the value, and leaves the
    other parameters as they were; it fails the assertion exactly when the
    statement has more values than parameters. *)
Theorem BindParameters_spec stmt m :
  wf m → zlength (statement_data stmt) ≤ 255 →
  if decide (zlength (statement_data stmt) ≤ m_paramCount m) then
    ∃ m', BindParameters stmt m = Returns () m' ∧ wf m' ∧ m_stmt m' = Some stmt ∧
      m_paramCount m' = m_paramCount m ∧ m_queryString m' = m_queryString m ∧
      ∀ i, zlookup (m_bind m') i =
        match zlookup (statement_data stmt) i with
        | Some data => bind_of data <$> zlookup (m_bind m) i
        | None => zlookup (m_bind m) i
        end
  else ∃ m', BindParameters stmt m = Aborts m'.
Proof.
  intros Hwf Hlen. unfold BindParameters. case_decide as Hn; rewrite modify_bind.
  - destruct (bind_from_spec (statement_data stmt) 0 (with_stmt stmt m) Hwf) as (m' & Hrun & Hwf' & Hst & Hcount & Hq & Hbinds);
      [lia|cbn; lia|lia|]. cbn in Hst, Hcount, Hq, Hbinds.
    exists m'. repeat (split; [done|]). intros i. rewrite Hbinds. unfold bound. rewrite Z.sub_0_r.
    destruct (zlookup (statement_data stmt) i); [done|]. by destruct (zlookup (m_bind m) i).
  - apply bind_from_aborts; [exact Hwf| |cbn; lia|done]. cbn. destruct Hwf as [<- _]. pose proof (zlength_nonneg (m_paramsSet m)). lia.
Qed.

(** ** The text of a statement, for the log *)

Definition QUESTION : Z := 63.

(** [queryString.find('?', pos)]. *)
Definition find_question (s : bytes) (pos : nat) : option nat :=
  (λ r : nat * Z, (pos + r.1)%nat) <$> list_find (λ c, c = QUESTION) (drop pos s).

Section text.
(** [PreparedStatementData::ToString]: [fmt] formats numbers. *)
Context (format_number : PreparedStatementData → bytes).

Definition quote (v : bytes) : bytes := 39 :: v ++ [39].
Definition ToString (data : PreparedStatementData) : bytes :=
  match data with
  | String v => quote v
  | Binary _ => text "BINARY"
  | Null => text "NULL"
  | Bool b => format_number (UInt32 (if b then 1 else 0))
  | UInt8 v => format_number (UInt32 v)
  | Int8 v => format_number (Int32 v)
  | _ => format_number data
  end.

(** The loop of [getQueryString]; [replace] throws where [find] found nothing. *)
Fixpoint replace_questions (l : list PreparedStatementData) (pos : nat) (s : bytes) : option bytes :=
  match l with
  | [] => Some s
  | data :: l =>
      pos ← find_question s pos;
      let replaceStr := ToString data in
      replace_questions l (pos + length replaceStr)%nat (take pos s ++ replaceStr ++ drop (S pos) s)
  end.
Definition getQueryString (m : MySQLPreparedStatement) : option bytes :=
  stmt ← m_stmt m; replace_questions (statement_data stmt) 0 (m_queryString m).

(** A query as the pieces between its question marks. *)
Definition join (pieces : list bytes) : bytes := pieces ≫= λ p, QUESTION :: p.
Fixpoint fill (l : list PreparedStatementData) (pieces : list bytes) : option bytes :=
  match l, pieces with
  | [], _ => Some (join pieces)
  | data :: l, p :: pieces => (λ s, ToString data ++ p ++ s) <$> fill l pieces
  | _ :: _, [] => None
  end.

Lemma no_question p : QUESTION ∉ p → list_find (λ c, c = QUESTION) p = None.
Proof. intros Hp. apply list_find_None, Forall_forall. by intros x Hx ->. Qed.

Lemma find_question_none s0 p : QUESTION ∉ p → find_question (s0 ++ p) (length s0) = None.
Proof. intros Hp. unfold find_question. by rewrite drop_app_length, no_question. Qed.

Lemma find_question_some s0 p r :
  QUESTION ∉ p → find_question (s0 ++ p ++ QUESTION :: r) (length s0) = Some (length s0 + length p)%nat.
Proof.
  intros Hp. unfold find_question. rewrite drop_app_length, list_find_app_r by by apply no_question.
  cbn. by rewrite decide_True by done.
Qed.

Lemma replace_questions_spec l s0 p0 ps :
  Forall (λ p, QUESTION ∉ p) (p0 :: ps) →
  replace_questions l (length s0) (s0 ++ p0 ++ join ps) = (λ s, s0 ++ p0 ++ s) <$> fill l ps.
Proof.
  revert s0 p0 ps. induction l as [|data l IH]; intros s0 p0 ps Hps; cbn [replace_questions fill]; [done|].
  apply Forall_cons in Hps as [Hp0 Hps]. destruct ps as [|p ps].
  - unfold join. cbn [mbind list_bind]. rewrite app_nil_r. by rewrite find_question_none.
  - change (join (p :: ps)) with (QUESTION :: p ++ join ps). rewrite find_question_some by done. cbn [mbind option_bind].
    replace (drop _ _) with (p ++ join ps).
    2:{ change (s0 ++ p0 ++ QUESTION :: p ++ join ps) with (s0 ++ p0 ++ [QUESTION] ++ (p ++ join ps)).
        rewrite !app_assoc. rewrite <-(app_assoc _ p). rewrite drop_app_length'; [done|]. rewrite !length_app. cbn. lia. }
    replace (take _ _) with (s0 ++ p0).
    2:{ rewrite app_assoc, take_app_length'; [done|]. rewrite length_app. lia. }
    replace (length s0 + length p0 + length (ToString data))%nat with (length (s0 ++ p0 ++ ToString data))
      by (rewrite !length_app; lia).
    replace ((s0 ++ p0) ++ ToString data ++ p ++ join ps) with ((s0 ++ p0 ++ ToString data) ++ p ++ join ps)
      by (by rewrite <-!app_assoc).
    rewrite IH by done. destruct (fill l ps); cbn; [|done]. by rewrite <-!app_assoc.
Qed.

(** [getQueryString] puts the text of the i-th value in the place of the
    i-th question mark of the query, also where a text it has put in contains
    question marks itself, and throws if there are more values than marks. *)
Theorem getQueryString_spec m stmt p0 ps :
  m_stmt m = Some stmt → m_queryString m = p0 ++ join ps → Forall (λ p, QUESTION ∉ p) (p0 :: ps) →
  getQueryString m = (λ s, p0 ++ s) <$> fill (statement_data stmt) ps.
Proof.
  intros Hst Hq Hps. unfold getQueryString. rewrite Hst, Hq. cbn [mbind option_bind].
  exact (replace_questions_spec (statement_data stmt) [] p0 ps Hps).
Qed.
End text.

(** ** An example *)

Definition demo_statement : PreparedStatementBase := Statement 1 [UInt32 513; String (text "a?b"); Null].
Definition demo_prepared : MySQLPreparedStatement := prepare 3 (text "x=? and y=? or z=?").
Definition demo_format (data : PreparedStatementData) : bytes :=
  match data with
  | UInt16 v | UInt32 v | UInt64 v | Int16 v | Int32 v | Int64 v => decimal v
  | _ => []
  end.

Lemma BindParameters_spec_witness :
  wf demo_prepared ∧ zlength (statement_data demo_statement) ≤ 255 ∧
  ∃ m', BindParameters demo_statement demo_prepared = Returns () m' ∧
    (buffer <$> m_bind m') = [Some [1; 2; 0; 0]; Some (text "a?b"); None].
Proof.
  assert (wf demo_prepared) as Hwf by (by apply wf_prepare).
  split; [exact Hwf|]. split; [done|].
  destruct (BindParameters_spec demo_statement demo_prepared Hwf ltac:(done)) as (m' & Hrun & _).
  exists m'. split; [exact Hrun|]. revert Hrun. vm_compute. by intros [= <-].
Defined.

Lemma getQueryString_spec_witness :
  getQueryString demo_format (with_stmt demo_statement demo_prepared) = Some (text "x=513 and y='a?b' or z=NULL").
Proof.
  rewrite (getQueryString_spec demo_format (with_stmt demo_statement demo_prepared) demo_statement
    (text "x=") [text " and y="; text " or z="; []]); [by vm_compute|done|done|].
  repeat (apply Forall_cons; split; [vm_compute; set_solver|]). done.
Defined.
End PreparedStatement.
