(* ===== verification/Field.v ===== *)
(** One cell of a row: src/mysql-conn-pool/dbimpl/Field.cpp.

    Rows of text queries hold text, terminated by a null byte; rows of prepared
    statements hold the bytes of the machine.  The getters convert either.  A
    getter that reads past the end of the memory it is given, or through a null
    pointer, has no result. *)
From S2P Require Import Prelude Except Bytes PreparedStatement.

Inductive DatabaseFieldTypes :=
  | FNull | FInt8 | FInt16 | FInt32 | FInt64 | FFloat | FDouble | FDecimal | FDate | FBinary.
#[export] Instance DatabaseFieldTypes_eq_dec : EqDecision DatabaseFieldTypes.
Proof. solve_decision. Defined.

Module Field.

Record QueryResultFieldMetadata := Metadata {
  TableName : bytes; TableAlias : bytes; Name : bytes; Alias : bytes; TypeName : bytes; Index : Z; Type_ : DatabaseFieldTypes;
}.

(** [value]: the memory from the pointer on; [None] is the null pointer. *)
Record Field := MkField { value : option bytes; length_ : Z; raw : bool; meta : option QueryResultFieldMetadata }.

Definition make : Field := MkField None 0 false None.
Definition SetByteValue (newValue : option bytes) (length : Z) (f : Field) : Field := MkField newValue length true (meta f).
Definition SetStructuredValue (newValue : option bytes) (length : Z) (f : Field) : Field := MkField newValue length false (meta f).
Definition SetMetadata (fieldMeta : QueryResultFieldMetadata) (f : Field) : Field :=
  MkField (value f) (length_ f) (raw f) (Some fieldMeta).
Definition IsNull (f : Field) : bool := match value f with None => true | Some _ => false end.

Definition IsType (type : DatabaseFieldTypes) (f : Field) : option bool :=
  (λ m, bool_decide (Type_ m = type)) <$> meta f.
Definition IsNumeric (f : Field) : option bool :=
  (λ m, match Type_ m with FInt8 | FInt16 | FInt32 | FInt64 | FFloat | FDouble => true | _ => false end) <$> meta f.

(** A read of [n] bytes. *)
Definition read (n : nat) (s : bytes) : option bytes := if decide (n ≤ length s)%nat then Some (take n s) else None.

Section getters.
(** [strict]: TRINITY_STRICT_DATABASE_TYPE_CHECKS. *)
Context (strict : bool).
(** [atof] and the conversion of its result to [float], on bit patterns. *)
Context (atof : bytes → option Z) (to_float : Z → Z).

Definition strict_type (ok : Field → option bool) (f : Field) : option bool := if strict then ok f else Some true.

(** The body the integer getters share: [convert] is the conversion to the
    type of the result, [size] its size, [parse] the function for text. *)
Definition get_integer (type : DatabaseFieldTypes) (size : nat) (convert : Z → Z) (parse : bytes → option Z) (f : Field) : option Z :=
  match value f with
  | None => Some 0
  | Some s =>
      ok ← strict_type (IsType type) f;
      if negb ok then Some 0
      else if raw f then (λ b, convert (le_combine b)) <$> read size s
      else convert <$> parse s
  end.

Definition GetUInt8 : Field → option Z := get_integer FInt8 1 (wrap 8) strtoul.
Definition GetInt8 : Field → option Z := get_integer FInt8 1 (signed 8) strtol.
Definition GetUInt16 : Field → option Z := get_integer FInt16 2 (wrap 16) strtoul.
Definition GetInt16 : Field → option Z := get_integer FInt16 2 (signed 16) strtol.
Definition GetUInt32 : Field → option Z := get_integer FInt32 4 (wrap 32) strtoul.
Definition GetInt32 : Field → option Z := get_integer FInt32 4 (signed 32) strtol.
Definition GetUInt64 : Field → option Z := get_integer FInt64 8 (wrap 64) strtoul.
Definition GetInt64 : Field → option Z := get_integer FInt64 8 (signed 64) strtol.

Definition GetBool (f : Field) : option bool := (λ v, bool_decide (v = 1)) <$> GetUInt8 f.

Definition GetFloat (f : Field) : option Z :=
  match value f with
  | None => Some 0
  | Some s =>
      ok ← strict_type (IsType FFloat) f;
      if negb ok then Some 0
      else if raw f then le_combine <$> read 4 s
      else to_float <$> atof s
  end.

(** Whether the value is a [DECIMAL] is asked in any case, once [raw] is set. *)
Definition GetDouble (f : Field) : option Z :=
  match value f with
  | None => Some 0
  | Some s =>
      ok ← strict_type (λ f, d ← IsType FDouble f; if (d : bool) then Some true else IsType FDecimal f) f;
      if negb ok then Some 0
      else
        bin ← (if raw f then negb <$> IsType FDecimal f else Some false);
        if (bin : bool) then le_combine <$> read 8 s else atof s
  end.

(** The pointer that is returned; the outer [option] is for the metadata. *)
Definition GetCString (f : Field) : option (option bytes) :=
  match value f with
  | None => Some None
  | Some s =>
      bad ← (if strict then n ← IsNumeric f; Some ((n : bool) && raw f) else Some false);
      if (bad : bool) then Some None else Some (Some s)
  end.

Definition GetString (f : Field) : option bytes :=
  match value f with
  | None => Some []
  | Some _ =>
      string ← GetCString f;
      match string with
      | None => Some []
      | Some s => read (Z.to_nat (length_ f)) s
      end
  end.

(** A view is the pointer and the length; nothing is read. *)
Definition GetStringView (f : Field) : option (option bytes * Z) :=
  match value f with
  | None => Some (None, 0)
  | Some _ =>
      string ← GetCString f;
      match string with
      | None => Some (None, 0)
      | Some s => Some (Some s, length_ f)
      end
  end.

Definition GetBinary (f : Field) : option bytes :=
  match value f with
  | None => Some []
  | Some s => if decide (length_ f = 0) then Some [] else read (Z.to_nat (length_ f)) s
  end.

(** The array template of [GetBinary]; the state is the buffer. *)
Definition GetBinarySizeChecked (length : Z) (f : Field) : comp bytes unit :=
  ASSERT (negb (IsNull f) && bool_decide (length_ f = length));;
  b ← getO (λ _, s ← value f; read (Z.to_nat length) s);
  modify (λ _, b).

(** ** Numbers come back *)

(** The eight integer types. *)
Inductive integer := I_uint8 | I_int8 | I_uint16 | I_int16 | I_uint32 | I_int32 | I_uint64 | I_int64.
Definition getter (k : integer) : Field → option Z :=
  match k with
  | I_uint8 => GetUInt8 | I_int8 => GetInt8 | I_uint16 => GetUInt16 | I_int16 => GetInt16
  | I_uint32 => GetUInt32 | I_int32 => GetInt32 | I_uint64 => GetUInt64 | I_int64 => GetInt64
  end.
Definition size_of (k : integer) : nat :=
  match k with I_uint8 | I_int8 => 1 | I_uint16 | I_int16 => 2 | I_uint32 | I_int32 => 4 | I_uint64 | I_int64 => 8 end.
Definition is_signed (k : integer) : bool := match k with I_int8 | I_int16 | I_int32 | I_int64 => true | _ => false end.
Definition column_type (k : integer) : DatabaseFieldTypes :=
  match k with I_uint8 | I_int8 => FInt8 | I_uint16 | I_int16 => FInt16 | I_uint32 | I_int32 => FInt32 | I_uint64 | I_int64 => FInt64 end.
Definition bits (k : integer) : Z := 8 * Z.of_nat (size_of k).
Definition in_range (k : integer) (v : Z) : Prop := if is_signed k then in_signed (bits k) v else in_unsigned (bits k) v.

(** Where types are checked, the column has the type of the getter. *)
Definition right_type (k : integer) (f : Field) : Prop := strict = true → IsType (column_type k) f = Some true.

Definition convert_of (k : integer) : Z → Z := if is_signed k then signed (bits k) else wrap (bits k).

Lemma getter_eq k : getter k = get_integer (column_type k) (size_of k) (convert_of k) (if is_signed k then strtol else strtoul).
Proof. by destruct k. Qed.

Lemma convert_in_range k v : in_range k v → convert_of k v = v.
Proof.
  unfold in_range, convert_of. assert (0 < bits k) by (destruct k; unfold bits; cbn; lia).
  destruct (is_signed k); [by apply signed_small|]. unfold in_unsigned. apply wrap_small.
Qed.

Lemma convert_wrap k v : convert_of k (wrap (bits k) v) = convert_of k v.
Proof.
  unfold convert_of. assert (0 ≤ bits k) by (destruct k; unfold bits; cbn; lia).
  destruct (is_signed k); [by apply signed_wrap|]. unfold wrap. rewrite Z.mod_mod; [done|]. apply Z.pow_nonzero; lia.
Qed.

Lemma parse_decimal k v l :
  in_range k v → (if is_signed k then strtol else strtoul) (decimal v ++ 0 :: l) = Some v.
Proof.
  intros Hv. assert (0 < bits k ≤ 64) as Hb by (destruct k; unfold bits; cbn; lia).
  unfold in_range, in_signed, in_unsigned in Hv. destruct (is_signed k).
  - apply strtol_decimal; [|done]. assert (2 ^ (bits k - 1) ≤ 2 ^ 63) by (apply Z.pow_le_mono_r; lia).
    change (2 ^ 63) with (LONG_MAX + 1) in *. lia.
  - apply strtoul_decimal; [|done]. assert (2 ^ bits k ≤ 2 ^ 64) by (apply Z.pow_le_mono_r; lia).
    change (2 ^ 64) with (ULONG_MAX + 1) in *. lia.
Qed.

Lemma right_type_ok k f g : right_type k f → meta g = meta f → strict_type (IsType (column_type k)) g = Some true.
Proof.
  unfold right_type, strict_type, IsType. intros Ht Hm. rewrite Hm. destruct strict; [by apply Ht|done].
Qed.

Lemma get_integer_raw k s len f :
  right_type k f → (size_of k ≤ length s)%nat →
  getter k (SetByteValue (Some s) len f) = Some (convert_of k (le_combine (take (size_of k) s))).
Proof.
  intros Ht Hs. rewrite getter_eq. unfold get_integer. cbn [value SetByteValue raw].
  rewrite (right_type_ok k f) by done. cbn. unfold read. by rewrite decide_True by done.
Qed.

Lemma get_integer_text k s len f :
  right_type k f →
  getter k (SetStructuredValue (Some s) len f) = convert_of k <$> (if is_signed k then strtol else strtoul) s.
Proof.
  intros Ht. rewrite getter_eq. unfold get_integer. cbn [value SetStructuredValue raw].
  by rewrite (right_type_ok k f) by done.
Qed.

(** An integer of any of the eight types is read back from the bytes that
    represent it, and from its decimal text, by the getter of its type. *)
Theorem integer_roundtrip k v rest len f :
  in_range k v → right_type k f →
  getter k (SetByteValue (Some (le_split (size_of k) v ++ rest)) len f) = Some v ∧
  getter k (SetStructuredValue (Some (decimal v ++ 0 :: rest)) len f) = Some v.
Proof.
  intros Hv Ht. split.
  - rewrite get_integer_raw; [|done|rewrite length_app, length_le_split; lia].
    rewrite le_combine_split_take. fold (bits k). by rewrite convert_wrap, convert_in_range.
  - rewrite get_integer_text, parse_decimal by done. cbn. by rewrite convert_in_range.
Qed.

(** ** From a parameter to a result *)

(** A cell with the bytes of a parameter, as the server returns the value of a
    parameter in a prepared query. *)
Definition echo (b : PreparedStatement.MYSQL_BIND) (f : Field) : Field :=
  let bytes := PreparedStatement.buffer b in
  SetByteValue bytes (match PreparedStatement.length_ b with Some n => n | None => default 0 (zlength <$> bytes) end) f.

Definition valid_data (data : PreparedStatement.PreparedStatementData) : Prop :=
  match data with
  | PreparedStatement.UInt8 v => in_range I_uint8 v | PreparedStatement.Int8 v => in_range I_int8 v
  | PreparedStatement.UInt16 v => in_range I_uint16 v | PreparedStatement.Int16 v => in_range I_int16 v
  | PreparedStatement.UInt32 v => in_range I_uint32 v | PreparedStatement.Int32 v => in_range I_int32 v
  | PreparedStatement.UInt64 v => in_range I_uint64 v | PreparedStatement.Int64 v => in_range I_int64 v
  | PreparedStatement.Float v => in_unsigned 32 v | PreparedStatement.Double v => in_unsigned 64 v
  | PreparedStatement.String v | PreparedStatement.Binary v => zlength v < 4294967296
  | PreparedStatement.Bool _ | PreparedStatement.Null => True
  end.

(** The type of the column that the getter for a value expects. *)
Definition data_column (data : PreparedStatement.PreparedStatementData) : DatabaseFieldTypes :=
  match data with
  | PreparedStatement.Bool _ | PreparedStatement.UInt8 _ | PreparedStatement.Int8 _ => FInt8
  | PreparedStatement.UInt16 _ | PreparedStatement.Int16 _ => FInt16
  | PreparedStatement.UInt32 _ | PreparedStatement.Int32 _ => FInt32
  | PreparedStatement.UInt64 _ | PreparedStatement.Int64 _ => FInt64
  | PreparedStatement.Float _ => FFloat
  | PreparedStatement.Double _ => FDouble
  | PreparedStatement.String _ | PreparedStatement.Binary _ => FBinary
  | PreparedStatement.Null => FNull
  end.

(** The getter for a value gives the value. *)
Definition reads_back (data : PreparedStatement.PreparedStatementData) (f : Field) : Prop :=
  match data with
  | PreparedStatement.Bool b => GetBool f = Some b
  | PreparedStatement.UInt8 v => GetUInt8 f = Some v | PreparedStatement.Int8 v => GetInt8 f = Some v
  | PreparedStatement.UInt16 v => GetUInt16 f = Some v | PreparedStatement.Int16 v => GetInt16 f = Some v
  | PreparedStatement.UInt32 v => GetUInt32 f = Some v | PreparedStatement.Int32 v => GetInt32 f = Some v
  | PreparedStatement.UInt64 v => GetUInt64 f = Some v | PreparedStatement.Int64 v => GetInt64 f = Some v
  | PreparedStatement.Float v => GetFloat f = Some v
  | PreparedStatement.Double v => GetDouble f = Some v
  | PreparedStatement.String v => GetString f = Some v ∧ GetBinary f = Some v
  | PreparedStatement.Binary v => GetBinary f = Some v
  | PreparedStatement.Null => IsNull f = true
  end.

Lemma integer_reads_back k v len f :
  in_range k v → right_type k f → getter k (SetByteValue (Some (le_split (size_of k) v)) len f) = Some v.
Proof. intros Hv Ht. rewrite <-(app_nil_r (le_split _ _)). rewrite get_integer_raw; [|done|rewrite length_app, length_le_split; lia].
  rewrite le_combine_split_take. fold (bits k). by rewrite convert_wrap, convert_in_range. Qed.

Lemma read_all s : read (length s) s = Some s.
Proof. unfold read. by rewrite decide_True, take_ge by lia. Qed.

Lemma read_split n v : in_unsigned (8 * Z.of_nat n) v → le_combine <$> read n (le_split n v) = Some v.
Proof.
  intros Hv. rewrite <-(length_le_split n v) at 1. rewrite read_all. cbn. by rewrite le_combine_split, wrap_small.
Qed.

Lemma binary_reads_back v f :
  zlength v < 4294967296 →
  GetBinary (SetByteValue (Some (take (Z.to_nat (u32 (zlength v))) v)) (u32 (zlength v)) f) = Some v.
Proof.
  intros Hv. rewrite (u32_small (zlength v)) by (unfold zlength in *; lia). unfold GetBinary, zlength. cbn [value SetByteValue length_].
  rewrite Nat2Z.id, take_ge by lia. case_decide as H0; [destruct v; [done|cbn in H0; lia]|]. apply read_all.
Qed.

Lemma string_reads_back v f :
  zlength v < 4294967296 → (strict = true → IsType FBinary f = Some true) →
  GetString (SetByteValue (Some (take (Z.to_nat (u32 (zlength v))) v)) (u32 (zlength v)) f) = Some v.
Proof.
  intros Hv Ht. rewrite (u32_small (zlength v)) by (unfold zlength in *; lia). unfold GetString, GetCString, zlength.
  cbn [value SetByteValue length_]. rewrite Nat2Z.id, take_ge by lia.
  assert ((if strict then n ← IsNumeric (SetByteValue (Some v) (Z.of_nat (length v)) f); Some ((n : bool) && true) else Some false) = Some false) as Hbad.
  { destruct strict; [|done]. specialize (Ht eq_refl). unfold IsType, IsNumeric in *. cbn. destruct (meta f) as [m|]; [|done].
    cbn in *. injection Ht as Ht%bool_decide_eq_true. by rewrite Ht. }
  cbn [raw SetByteValue]. rewrite Hbad. cbn. apply read_all.
Qed.

Lemma double_raw s len f :
  IsType FDouble f = Some true → GetDouble (SetByteValue (Some s) len f) = le_combine <$> read 8 s.
Proof.
  intros Ht. assert (IsType FDecimal f = Some false) as Hd.
  { unfold IsType in *. destruct (meta f) as [m|]; [|done]. cbn in *. injection Ht as Ht%bool_decide_eq_true. by rewrite Ht. }
  unfold IsType in Ht, Hd. unfold GetDouble, strict_type, IsType. cbn [value SetByteValue raw meta].
  destruct strict; rewrite ?Ht, Hd; reflexivity.
Qed.

Lemma float_raw s len f :
  IsType FFloat f = Some true → GetFloat (SetByteValue (Some s) len f) = le_combine <$> read 4 s.
Proof.
  intros Ht. unfold IsType in Ht. unfold GetFloat, strict_type, IsType. cbn [value SetByteValue raw meta].
  destruct strict; rewrite ?Ht; reflexivity.
Qed.

(** A value that is bound to a parameter and comes back in a row of a
    prepared query is read by the getter for its type, for all fourteen
    alternatives of a value. *)
Theorem parameter_reads_back data old f :
  valid_data data → IsType (data_column data) f = Some true →
  reads_back data (echo (PreparedStatement.bind_of data old) f).
Proof.
  intros Hv Ht.
  assert (∀ k, column_type k = data_column data → right_type k f) as Hk by (intros k Hk _; by rewrite Hk).
  destruct data as [b|v|v|v|v|v|v|v|v|v|v|v|v|]; cbn [reads_back valid_data] in *.
  - unfold GetBool. change GetUInt8 with (getter I_uint8).
    unfold echo. cbn [PreparedStatement.buffer PreparedStatement.bind_of PreparedStatement.number_bind].
    rewrite (integer_reads_back I_uint8); [by destruct b|by destruct b|by apply Hk].
  - by apply (integer_reads_back I_uint8), Hk.
  - by apply (integer_reads_back I_uint16), Hk.
  - by apply (integer_reads_back I_uint32), Hk.
  - by apply (integer_reads_back I_uint64), Hk.
  - by apply (integer_reads_back I_int8), Hk.
  - by apply (integer_reads_back I_int16), Hk.
  - by apply (integer_reads_back I_int32), Hk.
  - by apply (integer_reads_back I_int64), Hk.
  - unfold echo. cbn [PreparedStatement.buffer PreparedStatement.bind_of PreparedStatement.number_bind].
    rewrite float_raw by done. by apply read_split.
  - unfold echo. cbn [PreparedStatement.buffer PreparedStatement.bind_of PreparedStatement.number_bind].
    rewrite double_raw by done. by apply read_split.
  - split; [apply string_reads_back; [done|intros _; exact Ht]|by apply binary_reads_back].
  - by apply binary_reads_back.
  - done.
Qed.

(** A getter for a wider type than the column reads on past the value: nothing
    but the strict mode compares the types. *)
Lemma raw_overread k s len f :
  (length s < size_of k)%nat → strict = false → getter k (SetByteValue (Some s) len f) = None.
Proof.
  intros Hs Hf. rewrite getter_eq. unfold get_integer. cbn [value SetByteValue raw]. unfold strict_type. rewrite Hf. cbn.
  unfold read. by rewrite decide_False by lia.
Qed.

(** [GetDouble] looks at the metadata also where types are not checked. *)
Lemma double_without_metadata s len : GetDouble (SetByteValue (Some s) len make) = None.
Proof. unfold GetDouble, strict_type. by destruct strict. Qed.
End getters.

(** ** Examples *)

Definition demo_meta : QueryResultFieldMetadata := Metadata [] [] [] [] [] 0 FInt16.
Definition demo_field : Field := SetMetadata demo_meta make.

Lemma integer_roundtrip_witness :
  in_range I_int16 (-2) ∧ right_type true I_int16 demo_field ∧
  GetInt16 true (SetByteValue (Some [254; 255; 7]) 2 demo_field) = Some (-2) ∧
  GetInt16 true (SetStructuredValue (Some (text "-2" ++ [0; 7])) 2 demo_field) = Some (-2).
Proof.
  assert (in_range I_int16 (-2)) as Hr by (by split; vm_compute).
  assert (right_type true I_int16 demo_field) as Ht by done.
  split; [exact Hr|]. split; [exact Ht|].
  split; [exact (proj1 (integer_roundtrip true I_int16 (-2) [7] 2 demo_field Hr Ht))
         |exact (proj2 (integer_roundtrip true I_int16 (-2) [7] 2 demo_field Hr Ht))].
Defined.

Lemma parameter_reads_back_witness :
  GetInt16 false (echo (PreparedStatement.bind_of (PreparedStatement.Int16 (-300)) PreparedStatement.zero_bind) demo_field)
    = Some (-300).
Proof.
  refine (parameter_reads_back false (λ _, None) (λ x, x) (PreparedStatement.Int16 (-300)) PreparedStatement.zero_bind demo_field _ _).
  - by split; vm_compute.
  - reflexivity.
Defined.

(** Text that does not fit is cut to the bits of the type, without an error. *)
Example text_too_large : GetUInt8 false (SetStructuredValue (Some (text "300" ++ [0])) 3 demo_field) = Some 44.
Proof. reflexivity. Qed.
End Field.
