(* ===== verification/ResultSet.v ===== *)
(** Rows of a result: src/mysql-conn-pool/dbimpl/QueryResult.cpp.

    [ResultSet] steps through the rows of a text query; [PreparedResultSet]
    fetches all rows of a prepared one into a buffer when it is constructed.
    Of the C API, [mysql_fetch_row] and [mysql_stmt_fetch] deliver the rows of
    the server one after the other; the latter writes each value that is not
    null to the place its [MYSQL_BIND] points to, and no more than its
    [buffer_length]. *)
From S2P Require Import Prelude Except Bytes PreparedStatement Field.

Module ResultSet.
Import Field.

(** ** Types of columns *)

Record MYSQL_FIELD := MkColumn {
  org_table : bytes; table : bytes; org_name : bytes; name : bytes;
  type : enum_field_types; max_length : Z;
}.

Section types.
(** [sizeof(MYSQL_TIME)]. *)
Context (sizeof_MYSQL_TIME : Z).

Definition SizeForType (field : MYSQL_FIELD) : Z :=
  match type field with
  | MYSQL_TYPE_NULL => 0
  | MYSQL_TYPE_TINY => 1
  | MYSQL_TYPE_YEAR | MYSQL_TYPE_SHORT => 2
  | MYSQL_TYPE_INT24 | MYSQL_TYPE_LONG | MYSQL_TYPE_FLOAT => 4
  | MYSQL_TYPE_DOUBLE | MYSQL_TYPE_LONGLONG | MYSQL_TYPE_BIT => 8
  | MYSQL_TYPE_TIMESTAMP | MYSQL_TYPE_DATE | MYSQL_TYPE_TIME | MYSQL_TYPE_DATETIME => sizeof_MYSQL_TIME
  | MYSQL_TYPE_TINY_BLOB | MYSQL_TYPE_MEDIUM_BLOB | MYSQL_TYPE_LONG_BLOB | MYSQL_TYPE_BLOB | MYSQL_TYPE_STRING | MYSQL_TYPE_VAR_STRING =>
      u32 (max_length field + 1)
  | MYSQL_TYPE_DECIMAL | MYSQL_TYPE_NEWDECIMAL => 64
  | _ => 0
  end.
End types.

Definition MysqlTypeToFieldType (t : enum_field_types) : DatabaseFieldTypes :=
  match t with
  | MYSQL_TYPE_NULL => FNull
  | MYSQL_TYPE_TINY => FInt8
  | MYSQL_TYPE_YEAR | MYSQL_TYPE_SHORT => FInt16
  | MYSQL_TYPE_INT24 | MYSQL_TYPE_LONG => FInt32
  | MYSQL_TYPE_LONGLONG | MYSQL_TYPE_BIT => FInt64
  | MYSQL_TYPE_FLOAT => FFloat
  | MYSQL_TYPE_DOUBLE => FDouble
  | MYSQL_TYPE_DECIMAL | MYSQL_TYPE_NEWDECIMAL => FDecimal
  | MYSQL_TYPE_TIMESTAMP | MYSQL_TYPE_DATE | MYSQL_TYPE_TIME | MYSQL_TYPE_DATETIME => FDate
  | MYSQL_TYPE_TINY_BLOB | MYSQL_TYPE_MEDIUM_BLOB | MYSQL_TYPE_LONG_BLOB | MYSQL_TYPE_BLOB | MYSQL_TYPE_STRING | MYSQL_TYPE_VAR_STRING => FBinary
  | _ => FNull
  end.

Definition FieldTypeToString (t : enum_field_types) : bytes :=
  match t with
  | MYSQL_TYPE_BIT => text "BIT" | MYSQL_TYPE_BLOB => text "BLOB" | MYSQL_TYPE_DATE => text "DATE"
  | MYSQL_TYPE_DATETIME => text "DATETIME" | MYSQL_TYPE_NEWDECIMAL => text "NEWDECIMAL" | MYSQL_TYPE_DECIMAL => text "DECIMAL"
  | MYSQL_TYPE_DOUBLE => text "DOUBLE" | MYSQL_TYPE_ENUM => text "ENUM" | MYSQL_TYPE_FLOAT => text "FLOAT"
  | MYSQL_TYPE_GEOMETRY => text "GEOMETRY" | MYSQL_TYPE_INT24 => text "INT24" | MYSQL_TYPE_LONG => text "LONG"
  | MYSQL_TYPE_LONGLONG => text "LONGLONG" | MYSQL_TYPE_LONG_BLOB => text "LONG_BLOB" | MYSQL_TYPE_MEDIUM_BLOB => text "MEDIUM_BLOB"
  | MYSQL_TYPE_NEWDATE => text "NEWDATE" | MYSQL_TYPE_NULL => text "NULL" | MYSQL_TYPE_SET => text "SET"
  | MYSQL_TYPE_SHORT => text "SHORT" | MYSQL_TYPE_STRING => text "STRING" | MYSQL_TYPE_TIME => text "TIME"
  | MYSQL_TYPE_TIMESTAMP => text "TIMESTAMP" | MYSQL_TYPE_TINY => text "TINY" | MYSQL_TYPE_TINY_BLOB => text "TINY_BLOB"
  | MYSQL_TYPE_VAR_STRING => text "VAR_STRING" | MYSQL_TYPE_YEAR => text "YEAR"
  | _ => text "-Unknown-"
  end.

Definition InitializeDatabaseFieldMetadata (field : MYSQL_FIELD) (fieldIndex : Z) : QueryResultFieldMetadata :=
  Metadata (org_table field) (table field) (org_name field) (name field)
    (FieldTypeToString (type field)) fieldIndex (MysqlTypeToFieldType (type field)).
Definition metadata_of (fields : list MYSQL_FIELD) : list QueryResultFieldMetadata :=
  imap (λ i f, InitializeDatabaseFieldMetadata f (Z.of_nat i)) fields.

(** ** Text results *)

(** A row as [mysql_fetch_row] gives it, each value with the null byte behind
    it, and what [mysql_fetch_lengths] answers. *)
Record MYSQL_ROW := Row { cells : list (option bytes); lengths : option (list Z) }.

Record ResultSet := MkResultSet {
  _fieldMetadata : list QueryResultFieldMetadata;
  _rowCount : Z;
  _currentRow : option (list Field);
  _fieldCount : Z;
  (** the rows not fetched yet; [None]: the result was freed *)
  _result : option (list MYSQL_ROW);
}.

Definition construct (result : option (list MYSQL_ROW)) (fields : list MYSQL_FIELD) (rowCount : Z) : ResultSet :=
  MkResultSet (metadata_of fields) rowCount (Some ((λ m, SetMetadata m Field.make) <$> metadata_of fields))
    (zlength fields) result.

Definition CleanUp (r : ResultSet) : ResultSet :=
  MkResultSet (_fieldMetadata r) (_rowCount r) None (_fieldCount r) None.

(** The loop over the columns; the arrays are as long as the row. *)
Definition set_row (fields : list Field) (values : list (option bytes)) (lens : list Z) : list Field :=
  zip_with (λ f (vl : option bytes * Z), SetStructuredValue vl.1 (u32 vl.2) f) fields (zip values lens).

Definition NextRow : comp ResultSet bool :=
  res ← get _result;
  match res with
  | None => mret false
  | Some [] => modify CleanUp;; mret false
  | Some (row :: rest) =>
      modify (λ r, MkResultSet (_fieldMetadata r) (_rowCount r) (_currentRow r) (_fieldCount r) (Some rest));;
      match lengths row with
      | None => modify CleanUp;; mret false
      | Some lens =>
          fields ← getO _currentRow;
          modify (λ r, MkResultSet (_fieldMetadata r) (_rowCount r) (Some (set_row fields (cells row) lens)) (_fieldCount r) (_result r));;
          mret true
      end
  end.

Definition Fetch (r : ResultSet) : option (list Field) := _currentRow r.
Definition field_at (index : Z) : comp ResultSet Field :=
  n ← get _fieldCount;
  ASSERT (bool_decide (index < n));;
  getO (λ r, fields ← _currentRow r; zlookup fields index).

(** Rows as [mysql_fetch_row] delivers them: as many cells and lengths as there
    are columns. *)
Definition regular (n : nat) (row : MYSQL_ROW) : Prop :=
  length (cells row) = n ∧ ∃ lens, lengths row = Some lens ∧ length lens = n.

(** The cell [i] of a row, as a field shows it. *)
Definition shows (row : MYSQL_ROW) (i : nat) (f : Field) : Prop :=
  ∃ v lens n, cells row !! i = Some v ∧ lengths row = Some lens ∧ lens !! i = Some n ∧
    value f = v ∧ length_ f = u32 n ∧ raw f = false.

Lemma NextRow_row r row rest fields n :
  _result r = Some (row :: rest) → _currentRow r = Some fields → length fields = n → regular n row →
  ∃ r', NextRow r = Returns true r' ∧ _result r' = Some rest ∧ _rowCount r' = _rowCount r ∧ _fieldCount r' = _fieldCount r ∧
    ∃ fields', _currentRow r' = Some fields' ∧ length fields' = n ∧ (meta <$> fields') = (meta <$> fields) ∧
      ∀ i f, fields' !! i = Some f → shows row i f.
Proof.
  intros Hr Hf Hn [Hc (lens & Hl & Hlen)]. unfold NextRow, mbind, comp_bind, get, getO, modify. rewrite Hr. cbn. rewrite Hl. cbn. rewrite Hf.
  eexists. split; [done|]. split; [done|]. split; [done|]. split; [done|].
  exists (set_row fields (cells row) lens). split; [done|]. unfold set_row.
  split; [rewrite length_zip_with, length_zip_with; lia|]. split.
  - apply list_eq. intros i. rewrite !list_lookup_fmap, lookup_zip_with.
    destruct (fields !! i) eqn:Hi; cbn; [|done]. apply lookup_lt_Some in Hi.
    destruct (lookup_lt_is_Some_2 (zip (cells row) lens) i) as [vl Hvl]; [rewrite length_zip_with; lia|]. by rewrite Hvl.
  - intros i f Hi. apply lookup_zip_with_Some in Hi as (f0 & [v k] & -> & _ & Hz).
    apply lookup_zip_with_Some in Hz as (v' & k' & [= -> ->] & Hv & Hk). exists v', lens, k'. done.
Qed.

(** All calls of [NextRow] until it says that there are no more rows, with the
    fields at each row. *)
Fixpoint all_rows (fuel : nat) (r : ResultSet) : option (list (list Field) * ResultSet) :=
  match fuel with
  | O => None
  | S fuel =>
      match NextRow r with
      | Returns true r' => (λ p : list (list Field) * ResultSet, (default [] (_currentRow r') :: p.1, p.2)) <$> all_rows fuel r'
      | Returns false r' => Some ([], r')
      | _ => None
      end
  end.

(** Stepping through a result shows every row once, in the order of the
    server, each field with the text, the length and the metadata of its
    column; then [NextRow] answers false, frees the result once and keeps
    answering false. *)
Theorem NextRow_enumerates rows fields rowCount :
  Forall (regular (length fields)) rows →
  ∃ shown r', all_rows (S (length rows)) (construct (Some rows) fields rowCount) = Some (shown, r') ∧
    Forall2 (λ row fs, length fs = length fields ∧ (meta <$> fs) = Some <$> metadata_of fields ∧
      ∀ i f, fs !! i = Some f → shows row i f) rows shown ∧
    _result r' = None ∧ _currentRow r' = None ∧ NextRow r' = Returns false r'.
Proof.
  intros Hrows.
  assert (∀ r fs, _result r = Some rows → _currentRow r = Some fs → length fs = length fields →
    (meta <$> fs) = Some <$> metadata_of fields →
    ∃ shown r', all_rows (S (length rows)) r = Some (shown, r') ∧
      Forall2 (λ row fs, length fs = length fields ∧ (meta <$> fs) = Some <$> metadata_of fields ∧
        ∀ i f, fs !! i = Some f → shows row i f) rows shown ∧
      _result r' = None ∧ _currentRow r' = None ∧ NextRow r' = Returns false r') as H.
  { induction Hrows as [|row rows Hrow _ IH]; intros r fs Hr Hc Hlen Hm.
    - exists [], (CleanUp r). cbn. unfold NextRow, mbind, comp_bind, get. rewrite Hr. cbn. repeat (split; [done || constructor|]). done.
    - destruct (NextRow_row r row rows fs _ Hr Hc Hlen Hrow) as (r1 & Hrun & Hr1 & _ & _ & fs1 & Hc1 & Hlen1 & Hm1 & Hshow).
      destruct (IH r1 fs1 Hr1 Hc1 Hlen1) as (shown & r' & Hall & Hshown & Hend); [by rewrite Hm1|].
      exists (fs1 :: shown), r'. split; [|split; [|done]].
      + change (S (length (row :: rows))) with (S (S (length rows))). cbn [all_rows]. rewrite Hrun. cbn [all_rows] in Hall. rewrite Hall. cbn. by rewrite Hc1.
      + constructor; [|done]. split; [done|]. split; [by rewrite Hm1|done]. }
  eapply H; [done|done| |]; cbn.
  - rewrite length_fmap. unfold metadata_of. by rewrite length_imap.
  - by rewrite <-list_fmap_compose.
Qed.

(** ** Results of prepared statements *)

(** [n] bytes from [off] on, and the write of bytes there; writing past the end
    is undefined. *)
Definition read_at (off n : nat) (buf : bytes) : bytes := take n (drop off buf).
Definition write_at (off : nat) (bs buf : bytes) : option bytes :=
  if decide (off + length bs ≤ length buf)%nat then Some (take off buf ++ bs ++ drop (off + length bs) buf) else None.

(** A field of a row: its value is a place in the buffer. *)
Record stored := Stored { s_value : option nat; s_length : Z; s_raw : bool; s_meta : option QueryResultFieldMetadata }.
Definition stored_make : stored := Stored None 0 false None.
(** The field once the buffer is filled. *)
Definition view (buf : bytes) (s : stored) : Field := MkField ((λ o, drop o buf) <$> s_value s) (s_length s) (s_raw s) (s_meta s).

(** What the constructor allocates and frees; the last two belong to the
    statement once [mysql_stmt_bind_result] took them over. *)
Inductive resource := RBind | DataBuffer | MetadataResult | IsNullArray | LengthArray | OldIsNull | OldLength.
#[export] Instance resource_eq_dec : EqDecision resource.
Proof. solve_decision. Defined.

Record PreparedResultSet := MkPrepared {
  m_fieldMetadata : list QueryResultFieldMetadata;
  m_rows : list stored;
  m_rowCount : Z;
  m_rowPosition : Z;
  m_fieldCount : Z;
  (** [buffer_type] and [buffer_length] of [m_rBind]; [None] is the null pointer *)
  m_rBind : option (list (enum_field_types * nat));
  m_metadataResult : bool;
  (** the statement: [bind_result_done], [bind[i].buffer] as places in the buffer, the rows not fetched *)
  bind_result_done : bool;
  pointers : list nat;
  results : list (list (option bytes));
  (** [*m_rBind[i].is_null] and [*m_rBind[i].length] *)
  fetched : list (bool * Z);
  dataBuffer : bytes;
  live : list resource;
}.

Definition with_live l s := MkPrepared (m_fieldMetadata s) (m_rows s) (m_rowCount s) (m_rowPosition s) (m_fieldCount s) (m_rBind s) (m_metadataResult s) (bind_result_done s) (pointers s) (results s) (fetched s) (dataBuffer s) l.
Definition with_rows l s := MkPrepared (m_fieldMetadata s) l (m_rowCount s) (m_rowPosition s) (m_fieldCount s) (m_rBind s) (m_metadataResult s) (bind_result_done s) (pointers s) (results s) (fetched s) (dataBuffer s) (live s).
Definition with_rowCount n s := MkPrepared (m_fieldMetadata s) (m_rows s) n (m_rowPosition s) (m_fieldCount s) (m_rBind s) (m_metadataResult s) (bind_result_done s) (pointers s) (results s) (fetched s) (dataBuffer s) (live s).
Definition with_position p s := MkPrepared (m_fieldMetadata s) (m_rows s) (m_rowCount s) p (m_fieldCount s) (m_rBind s) (m_metadataResult s) (bind_result_done s) (pointers s) (results s) (fetched s) (dataBuffer s) (live s).
Definition with_rBind b s := MkPrepared (m_fieldMetadata s) (m_rows s) (m_rowCount s) (m_rowPosition s) (m_fieldCount s) b (m_metadataResult s) (bind_result_done s) (pointers s) (results s) (fetched s) (dataBuffer s) (live s).
Definition with_layout md b buf s := MkPrepared md (m_rows s) (m_rowCount s) (m_rowPosition s) (m_fieldCount s) b (m_metadataResult s) (bind_result_done s) (pointers s) (results s) (fetched s) buf (live s).
Definition with_bound p s := MkPrepared (m_fieldMetadata s) (m_rows s) (m_rowCount s) (m_rowPosition s) (m_fieldCount s) (m_rBind s) (m_metadataResult s) true p (results s) (fetched s) (dataBuffer s) (live s).
Definition with_pointers p s := MkPrepared (m_fieldMetadata s) (m_rows s) (m_rowCount s) (m_rowPosition s) (m_fieldCount s) (m_rBind s) (m_metadataResult s) (bind_result_done s) p (results s) (fetched s) (dataBuffer s) (live s).
Definition with_fetched r f s := MkPrepared (m_fieldMetadata s) (m_rows s) (m_rowCount s) (m_rowPosition s) (m_fieldCount s) (m_rBind s) (m_metadataResult s) (bind_result_done s) (pointers s) r f (dataBuffer s) (live s).
Definition with_buffer b s := MkPrepared (m_fieldMetadata s) (m_rows s) (m_rowCount s) (m_rowPosition s) (m_fieldCount s) (m_rBind s) (m_metadataResult s) (bind_result_done s) (pointers s) (results s) (fetched s) b (live s).

Definition alloc (r : resource) : comp PreparedResultSet unit := modify (λ s, with_live (r :: live s) s).
(** [delete] of what is not allocated is undefined. *)
Definition free (r : resource) : comp PreparedResultSet unit :=
  modifyO (λ s, if decide (r ∈ live s) then Some (with_live (list_difference (live s) [r]) s) else None).

Definition CleanUp_prepared : comp PreparedResultSet unit :=
  m ← get m_metadataResult;
  (if (m : bool) then free MetadataResult else mret ());;
  b ← get m_rBind;
  match b with
  | None => mret ()
  | Some _ =>
      getO (λ s, if decide (RBind ∈ live s) then Some () else None);;
      free DataBuffer;;
      free RBind;;
      modify (with_rBind None)
  end.

(** [mysql_stmt_fetch]: the next row into the places of the bindings.  No more
    rows is [MYSQL_NO_DATA]. *)
Fixpoint fetch_values (j : nat) (values : list (option bytes)) (s : PreparedResultSet) : option bytes :=
  match values with
  | [] => Some (dataBuffer s)
  | v :: values =>
      buf ← fetch_values (S j) values s;
      match v with
      | None => Some buf
      | Some v =>
          p ← pointers s !! j;
          b ← m_rBind s;
          c ← b !! j;
          write_at p (take (snd c) v) buf
      end
  end.
Definition fetch_flags (values : list (option bytes)) (old : list (bool * Z)) : list (bool * Z) :=
  zip_with (λ v (o : bool * Z), match v with None => (true, o.2) | Some v => (false, zlength v) end) values old.
Definition mysql_stmt_fetch : comp PreparedResultSet bool :=
  rows ← get results;
  match rows with
  | [] => mret false
  | row :: rest =>
      buf ← getO (fetch_values 0 row);
      modify (λ s, with_buffer buf (with_fetched rest (fetch_flags row (fetched s)) s));;
      mret true
  end.

Definition _NextRow : comp PreparedResultSet bool :=
  done ← get (λ s, bool_decide (m_rowCount s ≤ m_rowPosition s));
  if (done : bool) then mret false else mysql_stmt_fetch.

Definition is_text (t : enum_field_types) : bool :=
  match t with
  | MYSQL_TYPE_TINY_BLOB | MYSQL_TYPE_MEDIUM_BLOB | MYSQL_TYPE_LONG_BLOB | MYSQL_TYPE_BLOB | MYSQL_TYPE_STRING | MYSQL_TYPE_VAR_STRING => true
  | _ => false
  end.

(** [m_rows[uint32(m_rowPosition) * m_fieldCount + fIndex]] *)
Definition row_index (fIndex : nat) (s : PreparedResultSet) : nat :=
  Z.to_nat (u32 (u32 (u32 (m_rowPosition s) * m_fieldCount s) + Z.of_nat fIndex)).
Definition set_cell (fIndex : nat) (f : stored → stored) (s : PreparedResultSet) : option PreparedResultSet :=
  old ← m_rows s !! row_index fIndex s;
  Some (with_rows (<[row_index fIndex s := f old]> (m_rows s)) s).

(** One round of the loop over the columns. *)
Definition store_column (rowSize fIndex : nat) : comp PreparedResultSet unit :=
  md ← getO (λ s, m_fieldMetadata s !! fIndex);
  modifyO (set_cell fIndex (λ c, Stored (s_value c) (s_length c) (s_raw c) (Some md)));;
  column ← getO (λ s, b ← m_rBind s; b !! fIndex);
  flags ← getO (λ s, fetched s !! fIndex);
  if negb (fst flags) then
    buffer ← getO (λ s, pointers s !! fIndex);
    let fetched_length := snd flags in
    (if is_text (fst column) && bool_decide (fetched_length < Z.of_nat (snd column))
     then modifyO (λ s, (λ b, with_buffer b s) <$> write_at (buffer + Z.to_nat fetched_length) [0] (dataBuffer s))
     else mret ());;
    modifyO (set_cell fIndex (λ c, Stored (Some buffer) (u32 fetched_length) true (s_meta c)));;
    modify (λ s, with_pointers (<[fIndex := (buffer + rowSize)%nat]> (pointers s)) s)
  else
    modifyO (set_cell fIndex (λ c, Stored None (u32 (snd flags)) true (s_meta c))).

Fixpoint store_columns (rowSize fIndex n : nat) : comp PreparedResultSet unit :=
  match n with
  | O => mret ()
  | S n => store_column rowSize fIndex;; store_columns rowSize (S fIndex) n
  end.

Fixpoint fetch_rows (fuel rowSize : nat) : comp PreparedResultSet unit :=
  match fuel with
  | O => no_fuel
  | S fuel =>
      more ← _NextRow;
      if (more : bool) then
        n ← get m_fieldCount;
        store_columns rowSize 0 (Z.to_nat n);;
        modify (λ s, with_position (u64 (m_rowPosition s + 1)) s);;
        fetch_rows fuel rowSize
      else mret ()
  end.

(** The places of the columns in the buffer. *)
Fixpoint offsets (from : nat) (sizes : list nat) : list nat :=
  match sizes with [] => [] | size :: sizes => from :: offsets (from + size)%nat sizes end.

Definition total (sizes : list nat) : nat := foldr Nat.add 0%nat sizes.

(** *** The buffer *)

Lemma length_write_at off bs buf buf' : write_at off bs buf = Some buf' → length buf' = length buf.
Proof.
  unfold write_at. case_decide; [|done]. intros [= <-]. rewrite !length_app, length_take, length_drop. lia.
Qed.

Lemma lookup_write_at off bs buf buf' i :
  write_at off bs buf = Some buf' →
  buf' !! i = if decide (off ≤ i < off + length bs)%nat then bs !! (i - off)%nat else buf !! i.
Proof.
  unfold write_at. case_decide as Hle; [|done]. intros [= <-].
  destruct (decide (i < off)%nat) as [H1|H1].
  { rewrite decide_False by lia. rewrite lookup_app_l by (rewrite length_take; lia). apply lookup_take_lt. lia. }
  rewrite lookup_app_r by (rewrite length_take; lia). rewrite length_take, Nat.min_l by lia.
  case_decide as H2.
  - by rewrite lookup_app_l by lia.
  - rewrite lookup_app_r by lia. rewrite lookup_drop. f_equal. lia.
Qed.

Lemma lookup_read_at off n buf i : read_at off n buf !! i = if decide (i < n)%nat then buf !! (off + i)%nat else None.
Proof.
  unfold read_at. case_decide; [rewrite lookup_take_lt by lia; apply lookup_drop|]. apply lookup_take_ge. lia.
Qed.

Lemma read_write_same off bs buf buf' : write_at off bs buf = Some buf' → read_at off (length bs) buf' = bs.
Proof.
  intros Hw. apply list_eq. intros i. rewrite lookup_read_at, (lookup_write_at _ _ _ _ _ Hw).
  repeat case_decide; try lia; [f_equal; lia|]. symmetry. apply lookup_ge_None. lia.
Qed.

Lemma read_write_other off bs buf buf' off' n :
  write_at off bs buf = Some buf' → (off' + n ≤ off ∨ off + length bs ≤ off')%nat → read_at off' n buf' = read_at off' n buf.
Proof.
  intros Hw Ho. apply list_eq. intros i. rewrite !lookup_read_at. case_decide; [|done].
  rewrite (lookup_write_at _ _ _ _ _ Hw). by rewrite decide_False by lia.
Qed.

Lemma length_offsets from sizes : length (offsets from sizes) = length sizes.
Proof. revert from. induction sizes as [|z sizes IH]; intros from; cbn; [done|]. by rewrite IH. Qed.

Lemma offsets_bound from sizes f o z :
  offsets from sizes !! f = Some o → sizes !! f = Some z → (from ≤ o ∧ o + z ≤ from + total sizes)%nat.
Proof.
  revert from f. induction sizes as [|z' sizes IH]; intros from [|f] Ho Hz; simplify_eq/=; [lia|].
  destruct (IH _ _ Ho Hz). lia.
Qed.

Lemma offsets_disjoint from sizes f f' o o' z :
  offsets from sizes !! f = Some o → sizes !! f = Some z → offsets from sizes !! f' = Some o' → (f < f')%nat → (o + z ≤ o')%nat.
Proof.
  revert from f f'. induction sizes as [|z' sizes IH]; intros from [|f] [|f'] Ho Hz Ho' Hf; simplify_eq/=; try lia.
  - destruct (lookup_lt_is_Some_2 sizes f') as [z2 Hz2].
    { apply lookup_lt_Some in Ho'. by rewrite length_offsets in Ho'. }
    destruct (offsets_bound _ _ _ _ _ Ho' Hz2). lia.
  - eapply IH; [done..|lia].
Qed.

Section layout.
(** The columns: their types and sizes in the buffer. *)
Context (columns : list (enum_field_types * nat)).
Abbreviation sizes := (columns.*2).
Abbreviation R := (total sizes).
Abbreviation fc := (length columns).

Definition size_at (f : nat) : nat := default 0%nat (sizes !! f).
Definition text_at (f : nat) : bool := default false ((λ c, is_text c.1) <$> columns !! f).
(** The place of the value number [k] that is not null in column [f]. *)
Definition region (f k : nat) : nat := (default 0 (offsets 0 sizes !! f) + R * k)%nat.

Lemma region_lookup f : (f < fc)%nat → ∃ o z, offsets 0 sizes !! f = Some o ∧ sizes !! f = Some z ∧ size_at f = z.
Proof.
  intros Hf. destruct (lookup_lt_is_Some_2 sizes f) as [z Hz]; [by rewrite length_fmap|].
  destruct (lookup_lt_is_Some_2 (offsets 0 sizes) f) as [o Ho]; [by rewrite length_offsets, length_fmap|].
  exists o, z. unfold size_at. by rewrite Hz.
Qed.

Lemma region_end f k : (f < fc)%nat → (region f k + size_at f ≤ R * k + R)%nat.
Proof.
  intros Hf. destruct (region_lookup f Hf) as (o & z & Ho & Hz & ->). unfold region. rewrite Ho. cbn.
  destruct (offsets_bound _ _ _ _ _ Ho Hz). lia.
Qed.

Lemma region_disjoint f k f' k' :
  (f < fc)%nat → (f' < fc)%nat → (f, k) ≠ (f', k') →
  (region f k + size_at f ≤ region f' k' ∨ region f' k' + size_at f' ≤ region f k)%nat.
Proof.
  intros Hf Hf' Hne. pose proof (region_end f k Hf). pose proof (region_end f' k' Hf').
  assert (R * k ≤ region f k ∧ R * k' ≤ region f' k')%nat as [? ?] by (unfold region; lia).
  destruct (Nat.lt_trichotomy k k') as [Hk|[->|Hk]].
  - left. assert (R * k + R ≤ R * k')%nat by nia. lia.
  - destruct (region_lookup f Hf) as (o & z & Ho & Hz & Hs), (region_lookup f' Hf') as (o' & z' & Ho' & Hz' & Hs').
    unfold region. rewrite Ho, Ho', Hs, Hs'. cbn. destruct (Nat.lt_trichotomy f f') as [Hff|[->|Hff]]; [left|done|right].
    + pose proof (offsets_disjoint _ _ _ _ _ _ _ Ho Hz Ho' Hff). lia.
    + pose proof (offsets_disjoint _ _ _ _ _ _ _ Ho' Hz' Ho Hff). lia.
  - right. assert (R * k' + R ≤ R * k)%nat by nia. lia.
Qed.

(** The value fits, with the null byte that is put behind text. *)
Definition fits (f : nat) (b : bytes) : Prop :=
  if text_at f then (length b < size_at f)%nat else (length b ≤ size_at f)%nat.
Definition row_fits (row : list (option bytes)) : Prop :=
  length row = fc ∧ ∀ f b, row !! f = Some (Some b) → fits f b.

(** The buffer holds [b] as the value [k] of column [f]. *)
Definition holds (buf : bytes) (f k : nat) (b : bytes) : Prop :=
  read_at (region f k) (length b) buf = b.
Definition terminated (buf : bytes) (f k : nat) (b : bytes) : Prop :=
  text_at f = true → read_at (region f k + length b) 1 buf = [0].

Lemma fits_size f b : fits f b → (length b + (if text_at f then 1 else 0) ≤ size_at f)%nat.
Proof. unfold fits. destruct (text_at f); lia. Qed.

(** A write into one region leaves what the others hold. *)
Lemma write_elsewhere buf buf' f k f' k' off bs b :
  write_at off bs buf = Some buf' → (region f' k' ≤ off)%nat → (off + length bs ≤ region f' k' + size_at f')%nat →
  (f < fc)%nat → (f' < fc)%nat → (f, k) ≠ (f', k') → fits f b →
  (holds buf f k b → holds buf' f k b) ∧ (terminated buf f k b → terminated buf' f k b).
Proof.
  intros Hw H1 H2 Hf Hf' Hne Hb. pose proof (region_disjoint f k f' k' Hf Hf' Hne) as Hd.
  pose proof (fits_size _ _ Hb) as Hs. unfold holds, terminated. split.
  - intros H. rewrite (read_write_other _ _ _ _ _ _ Hw); [done|]. destruct (text_at f); lia.
  - intros H Ht. rewrite Ht in Hs. rewrite (read_write_other _ _ _ _ _ _ Hw); [auto|]. lia.
Qed.

(** *** One row *)

Definition nonnull (row : list (option bytes)) (f : nat) : nat := match row !! f with Some (Some _) => 1%nat | _ => 0%nat end.
(** How many values of column [f] are not null. *)
Definition count (l : list (list (option bytes))) (f : nat) : nat := foldr (λ row n, (nonnull row f + n)%nat) 0%nat l.

Lemma count_snoc l row f : count (l ++ [row]) f = (count l f + nonnull row f)%nat.
Proof. induction l as [|row' l IH]; cbn; [lia|]. fold (count (l ++ [row]) f). rewrite IH. fold (count l f). lia. Qed.

Lemma count_le l f : (count l f ≤ length l)%nat.
Proof. induction l as [|row l IH]; cbn; [lia|]. fold (count l f). unfold nonnull. destruct (row !! f) as [[]|]; lia. Qed.

Lemma columns_lookup f : (f < fc)%nat → ∃ t, columns !! f = Some (t, size_at f) ∧ is_text t = text_at f.
Proof.
  intros Hf. destruct (lookup_lt_is_Some_2 columns f Hf) as [[t z] Hc]. exists t. unfold size_at, text_at.
  rewrite list_lookup_fmap, Hc. done.
Qed.

Lemma fetch_values_spec j values s (k : nat → nat) :
  m_rBind s = Some columns → (j + length values ≤ fc)%nat →
  (∀ i b, values !! i = Some (Some b) → pointers s !! (j + i)%nat = Some (region (j + i) (k (j + i)%nat)) ∧
    fits (j + i) b ∧ (R * k (j + i)%nat + R ≤ length (dataBuffer s))%nat) →
  ∃ buf, fetch_values j values s = Some buf ∧ length buf = length (dataBuffer s) ∧
    (∀ i b, values !! i = Some (Some b) → holds buf (j + i) (k (j + i)%nat) b) ∧
    (∀ f k' b, (f < fc)%nat → fits f b → ((f < j)%nat ∨ k' ≠ k f) →
      (holds (dataBuffer s) f k' b → holds buf f k' b) ∧ (terminated (dataBuffer s) f k' b → terminated buf f k' b)).
Proof.
  intros Hb. revert j. induction values as [|v values IH]; intros j Hj Hv; cbn [fetch_values].
  { exists (dataBuffer s). split; [done|]. split; [done|]. split; [done|]. auto. }
  cbn [length] in Hj. destruct (IH (S j)) as (buf & Hrun & Hlen & Hholds & Hother); [lia| |].
  { intros i b Hi. replace (S j + i)%nat with (j + S i)%nat by lia. by apply Hv. }
  rewrite Hrun. cbn [mbind option_bind]. destruct v as [v|].
  2:{ exists buf. split; [done|]. split; [done|]. split.
      - intros [|i] b Hi; [done|]. replace (j + S i)%nat with (S j + i)%nat by lia. by apply Hholds.
      - intros f k' b Hf Hfit [Hlt|Hne]; apply Hother; try done; [left; lia|by right]. }
  destruct (Hv 0%nat v) as (Hp & Hfit & Hend); [done|]. rewrite Nat.add_0_r in *.
  destruct (columns_lookup j) as (t & Hc & _); [lia|]. rewrite Hp. cbn. rewrite Hb. cbn. rewrite Hc. cbn.
  pose proof (fits_size _ _ Hfit) as Hsz. rewrite take_ge by (destruct (text_at j); lia).
  pose proof (region_end j (k j)) as Hre.
  assert (∃ buf', write_at (region j (k j)) v buf = Some buf') as [buf' Hw].
  { unfold write_at. rewrite decide_True; [by eexists|]. destruct (text_at j); lia. }
  rewrite Hw. exists buf'. split; [done|]. split; [by rewrite (length_write_at _ _ _ _ Hw)|].
  assert (∀ f k' b, (f < fc)%nat → (f, k') ≠ (j, k j) → fits f b →
    (holds buf f k' b → holds buf' f k' b) ∧ (terminated buf f k' b → terminated buf' f k' b)) as Helse.
  { intros f k' b Hf Hne Hb'. eapply write_elsewhere; [done|done| |done|lia|done|done]. destruct (text_at j); lia. }
  split.
  - intros [|i] b Hi; simplify_eq/=.
    + rewrite Nat.add_0_r. by apply (read_write_same _ _ _ _ Hw).
    + destruct (Hv (S i) b Hi) as (_ & Hfit' & _). replace (j + S i)%nat with (S j + i)%nat in * by lia.
      apply Helse; [|intros [= ? _]; lia|done|by apply Hholds]. apply lookup_lt_Some in Hi. lia.
  - intros f k' b Hf Hfit' Hor.
    destruct (Hother f k' b Hf Hfit') as [H1 H2]; [destruct Hor; [left; lia|by right]|].
    destruct (Helse f k' b Hf) as [H3 H4]; [intros [= -> ->]; lia|done|]. auto.
Qed.

Section rows.
(** The rows of the server, and what is known of the result. *)
Context (rows : list (list (option bytes))) (md : list QueryResultFieldMetadata) (L : list resource).
Abbreviation N := (length rows).
Context (Hrows : Forall row_fits rows) (Hmd : length md = fc).
Context (HN : Z.of_nat N < 18446744073709551616) (Hcells : Z.of_nat (N * fc) < 4294967296) (HR : Z.of_nat R < 4294967296).

(** Which of the values of column [f] row [r] has. *)
Definition ordinal (r f : nat) : nat := count (take r rows) f.

Lemma ordinal_S r row f : rows !! r = Some row → ordinal (S r) f = (ordinal r f + nonnull row f)%nat.
Proof. intros Hr. unfold ordinal. by rewrite (take_S_r _ _ _ Hr), count_snoc. Qed.

Lemma count_app l l' f : count (l ++ l') f = (count l f + count l' f)%nat.
Proof. induction l as [|row l IH]; cbn; [done|]. fold (count (l ++ l') f). rewrite IH. fold (count l f). lia. Qed.

Lemma ordinal_mono r r' f : (r ≤ r')%nat → (ordinal r f ≤ ordinal r' f)%nat.
Proof.
  intros Hr. unfold ordinal. replace (take r rows) with (take r (take r' rows)) by (rewrite take_take; f_equal; lia).
  rewrite <-(take_drop r (take r' rows)) at 2. rewrite count_app. lia.
Qed.

Lemma ordinal_le r f : (ordinal r f ≤ r)%nat.
Proof. pose proof (count_le (take r rows) f). unfold ordinal. rewrite length_take in *. lia. Qed.

Lemma ordinal_lt r r' row f b : rows !! r = Some row → row !! f = Some (Some b) → (r < r')%nat → (ordinal r f < ordinal r' f)%nat.
Proof.
  intros Hr Hf Hlt. pose proof (ordinal_mono (S r) r' f ltac:(lia)). rewrite (ordinal_S r row f Hr) in *.
  unfold nonnull in *. rewrite Hf in *. lia.
Qed.

(** What stays the same. *)
Definition frame (s : PreparedResultSet) : Prop :=
  m_rBind s = Some columns ∧ m_fieldMetadata s = md ∧ m_fieldCount s = Z.of_nat fc ∧ m_rowCount s = Z.of_nat N ∧
  length (m_rows s) = (N * fc)%nat ∧ length (dataBuffer s) = (R * N)%nat ∧ length (pointers s) = fc ∧
  length (fetched s) = fc ∧ live s = L ∧ m_metadataResult s = true ∧ bind_result_done s = true.

(** Field [f] of row [r] is stored. *)
Definition cell_ok (buf : bytes) (r f : nat) (v : option bytes) (st : stored) : Prop :=
  s_raw st = true ∧ s_meta st = md !! f ∧
  match v with
  | None => s_value st = None
  | Some b => s_value st = Some (region f (ordinal r f)) ∧ s_length st = zlength b ∧
      holds buf f (ordinal r f) b ∧ terminated buf f (ordinal r f) b
  end.
(** The first [n] fields, row by row, are stored. *)
Definition cells_ok (n : nat) (s : PreparedResultSet) : Prop :=
  ∀ r f row v, rows !! r = Some row → row !! f = Some v → (r * fc + f < n)%nat →
    ∃ st, m_rows s !! (r * fc + f)%nat = Some st ∧ cell_ok (dataBuffer s) r f v st.

(** Before row [r] is fetched. *)
Definition between (r : nat) (s : PreparedResultSet) : Prop :=
  frame s ∧ m_rowPosition s = Z.of_nat r ∧ results s = drop r rows ∧
  (∀ f, (f < fc)%nat → pointers s !! f = Some (region f (ordinal r f))) ∧ cells_ok (r * fc) s.

(** Row [r] is fetched, and its first [j] fields are stored. *)
Definition within (r j : nat) (row : list (option bytes)) (s : PreparedResultSet) : Prop :=
  frame s ∧ m_rowPosition s = Z.of_nat r ∧ results s = drop (S r) rows ∧
  (∀ f v, row !! f = Some v → ∃ n, fetched s !! f = Some (bool_decide (v = None), n) ∧ ∀ b, v = Some b → n = zlength b) ∧
  (∀ f, (f < fc)%nat → pointers s !! f = Some (region f (ordinal r f + if decide (f < j)%nat then nonnull row f else 0))) ∧
  cells_ok (r * fc + j) s ∧
  (∀ f b, (j ≤ f)%nat → row !! f = Some (Some b) → holds (dataBuffer s) f (ordinal r f) b).

Lemma row_fits_at r row : rows !! r = Some row → row_fits row.
Proof. intros Hr. rewrite Forall_forall in Hrows. apply Hrows. by eapply list_elem_of_lookup_2. Qed.

Lemma row_column r row f v : rows !! r = Some row → row !! f = Some v → (r < N ∧ f < fc)%nat.
Proof.
  intros Hr Hf. split; [by eapply lookup_lt_Some|]. destruct (row_fits_at r row Hr) as [<- _]. by eapply lookup_lt_Some.
Qed.

Lemma fetch_spec r row s :
  rows !! r = Some row → between r s → ∃ s', mysql_stmt_fetch s = Returns true s' ∧ within r 0 row s'.
Proof.
  intros Hr ((Hb & Hm & Hfc & Hn & Hlr & Hld & Hlp & Hlf & Hlive) & Hpos & Hres & Hptr & Hok).
  destruct (row_fits_at r row Hr) as [Hlen Hfit]. pose proof (lookup_lt_Some _ _ _ Hr) as HrN.
  destruct (fetch_values_spec 0 row s (ordinal r) Hb) as (buf & Hrun & Hbuf & Hholds & Hother); [lia| |].
  { intros f b Hf. destruct (row_column r row f _ Hr Hf) as [_ Hf']. split; [by apply Hptr|]. split; [by apply Hfit|].
    rewrite Hld. pose proof (ordinal_le r f).
    assert (ordinal r f + 1 ≤ N)%nat as Ho by lia. pose proof (Nat.mul_le_mono_l _ _ R Ho). cbn [Nat.add]. lia. }
  exists (with_buffer buf (with_fetched (drop (S r) rows) (fetch_flags row (fetched s)) s)).
  split.
  { unfold mysql_stmt_fetch. rewrite get_bind, Hres, (drop_S _ _ _ Hr). by rewrite (getO_bind _ _ _ buf Hrun), modify_bind. }
  split; [|split; [done|split; [done|split; [|split; [|split]]]]].
  - unfold frame. cbn. repeat (split; [done|]). split; [lia|]. split; [done|]. split; [|done].
    unfold fetch_flags. rewrite length_zip_with. lia.
  - intros f v Hv. cbn. unfold fetch_flags. destruct (row_column r row f v Hr Hv) as [_ Hf].
    destruct (lookup_lt_is_Some_2 (fetched s) f) as [o Ho]; [lia|]. rewrite lookup_zip_with, Hv, Ho. cbn.
    destruct v as [v|]; eexists; (split; [done|]); intros b [=]; by subst.
  - intros f Hf. cbn. rewrite Nat.add_0_r. by apply Hptr.
  - intros r' f row' v Hr' Hv Hlt. rewrite Nat.add_0_r in Hlt.
    destruct (Hok r' f row' v Hr' Hv Hlt) as (st & Hst & Hcell). exists st. split; [done|].
    destruct Hcell as (H1 & H2 & H3). split; [done|]. split; [done|]. destruct v as [b|]; [|done].
    destruct H3 as (H3 & H4 & H5 & H6). destruct (row_column r' row' f _ Hr' Hv) as [_ Hf'].
    assert (r' < r)%nat by nia. pose proof (ordinal_lt r' r row' f b Hr' Hv ltac:(lia)).
    destruct (Hother f (ordinal r' f) b Hf') as [H7 H8]; [by apply (row_fits_at r' row' Hr')|right; lia|].
    cbn. auto.
  - intros f b _ Hf. cbn. by apply (Hholds f b).
Qed.

Lemma index_inj r f r' f' : (f < fc)%nat → (f' < fc)%nat → (r * fc + f = r' * fc + f')%nat → r = r' ∧ f = f'.
Proof.
  intros Hf Hf' Heq. apply (Nat.div_mod_unique fc r r' f f'); [done|done|lia].
Qed.

Lemma row_index_at r f s :
  m_rowPosition s = Z.of_nat r → m_fieldCount s = Z.of_nat fc → (r < N)%nat → (f < fc)%nat → row_index f s = (r * fc + f)%nat.
Proof.
  intros Hp Hf Hr Hlt. unfold row_index. rewrite Hp, Hf.
  assert (r * fc + f < N * fc)%nat by nia. assert (1 ≤ fc)%nat by lia. assert (N ≤ N * fc)%nat by nia.
  rewrite (u32_small (Z.of_nat r)) by lia. rewrite (u32_small (Z.of_nat r * Z.of_nat fc)) by lia. rewrite u32_small by lia. lia.
Qed.

(** The state after field [j]: its structure, the place of the next value, the buffer. *)
Definition after_column (i j : nat) (st : stored) (p : nat) (buf : bytes) (s : PreparedResultSet) : PreparedResultSet :=
  with_pointers (<[j := p]> (pointers s)) (with_rows (<[i := st]> (m_rows s)) (with_buffer buf s)).

Lemma store_column_null r j row s :
  rows !! r = Some row → row !! j = Some None → within r j row s →
  ∃ n, store_column R j s = Returns () (after_column (r * fc + j) j (Stored None n true (md !! j)) (region j (ordinal r j)) (dataBuffer s) s).
Proof.
  intros Hr Hj ((Hb & Hm & Hfc & _ & Hlr & _) & Hpos & _ & Hfl & Hptr & _).
  destruct (row_column r row j _ Hr Hj) as [HrN Hjfc].
  destruct (lookup_lt_is_Some_2 md j) as [m Hmj]; [lia|].
  destruct (lookup_lt_is_Some_2 (m_rows s) (r * fc + j)) as [old Hold]; [nia|].
  destruct (Hfl j None Hj) as (n & Hfetched & _). destruct (columns_lookup j Hjfc) as (t & Hc & _).
  pose proof (row_index_at r j s Hpos Hfc HrN Hjfc) as Hi. exists (u32 n).
  unfold store_column. rewrite (getO_bind _ _ _ m) by (cbn; by rewrite Hm).
  rewrite (modifyO_bind _ _ _ (with_rows (<[(r * fc + j)%nat := Stored (s_value old) (s_length old) (s_raw old) (Some m)]> (m_rows s)) s)).
  2:{ unfold set_cell. by rewrite Hi, Hold. }
  rewrite (getO_bind _ _ _ (t, size_at j)) by (cbn; by rewrite Hb).
  rewrite (getO_bind _ _ _ (true, n)) by exact Hfetched. cbn [fst snd negb].
  unfold modifyO, set_cell, row_index. cbn [m_rows with_rows m_rowPosition m_fieldCount]. fold (row_index j s). rewrite Hi.
  rewrite list_lookup_insert_eq by (by eapply lookup_lt_Some). cbn. rewrite list_insert_insert_eq.
  unfold after_column. rewrite Hmj. do 2 f_equal. symmetry.
  assert (pointers s !! j = Some (region j (ordinal r j))) as Hp.
  { rewrite Hptr by done. rewrite decide_False by lia. by rewrite Nat.add_0_r. }
  unfold with_pointers, with_rows, with_buffer. cbn. f_equal. by apply list_insert_id.
Qed.

Lemma store_column_value r j row b s :
  rows !! r = Some row → row !! j = Some (Some b) → within r j row s →
  ∃ buf, store_column R j s = Returns () (after_column (r * fc + j) j
      (Stored (Some (region j (ordinal r j))) (zlength b) true (md !! j)) (region j (ordinal r j) + R) buf s) ∧
    (if text_at j then write_at (region j (ordinal r j) + length b) [0] (dataBuffer s) = Some buf else buf = dataBuffer s).
Proof.
  intros Hr Hj ((Hb & Hm & Hfc & _ & Hlr & Hld & _) & Hpos & _ & Hfl & Hptr & _).
  destruct (row_column r row j _ Hr Hj) as [HrN Hjfc].
  destruct (lookup_lt_is_Some_2 md j) as [m Hmj]; [lia|].
  destruct (lookup_lt_is_Some_2 (m_rows s) (r * fc + j)) as [old Hold]; [nia|].
  destruct (Hfl j _ Hj) as (n & Hfetched & Hn). rewrite (Hn b eq_refl) in Hfetched. clear n Hn.
  destruct (columns_lookup j Hjfc) as (t & Hc & Ht).
  assert (fits j b) as Hfit by (by apply (row_fits_at r row Hr)). pose proof (fits_size _ _ Hfit) as Hsz.
  pose proof (region_end j (ordinal r j) Hjfc) as Hend. pose proof (ordinal_le r j) as Hord.
  assert (ordinal r j + 1 ≤ N)%nat as Ho by lia. pose proof (Nat.mul_le_mono_l _ _ R Ho) as HRN.
  assert (size_at j ≤ R)%nat as HszR. { destruct (region_lookup j Hjfc) as (o & z & Ho1 & Hz & ->). destruct (offsets_bound _ _ _ _ _ Ho1 Hz). lia. }
  pose proof (row_index_at r j s Hpos Hfc HrN Hjfc) as Hi.
  assert (∃ buf, if text_at j then write_at (region j (ordinal r j) + length b) [0] (dataBuffer s) = Some buf else buf = dataBuffer s) as [buf Hbuf].
  { destruct (text_at j); [|by eexists]. unfold write_at. rewrite decide_True; [by eexists|]. cbn. lia. }
  exists buf. split; [|done].
  unfold store_column. rewrite (getO_bind _ _ _ m) by (cbn; by rewrite Hm).
  rewrite (modifyO_bind _ _ _ (with_rows (<[(r * fc + j)%nat := Stored (s_value old) (s_length old) (s_raw old) (Some m)]> (m_rows s)) s)).
  2:{ unfold set_cell. by rewrite Hi, Hold. }
  rewrite (getO_bind _ _ _ (t, size_at j)) by (cbn; by rewrite Hb).
  rewrite (getO_bind _ _ _ (false, zlength b)) by exact Hfetched. cbn [fst snd negb].
  rewrite (getO_bind _ _ _ (region j (ordinal r j))).
  2:{ cbn. rewrite Hptr by done. rewrite decide_False by lia. by rewrite Nat.add_0_r. }
  rewrite (comp_bind_Returns _ _ _ () (with_rows (<[(r * fc + j)%nat := Stored (s_value old) (s_length old) (s_raw old) (Some m)]> (m_rows s)) (with_buffer buf s))).
  2:{ rewrite Ht. unfold zlength. rewrite Nat2Z.id. destruct (text_at j).
      - rewrite bool_decide_true by lia. cbn [andb]. unfold modifyO. cbn. by rewrite Hbuf.
      - subst buf. by destruct s. }
  rewrite (modifyO_bind _ _ _ (with_rows (<[(r * fc + j)%nat := Stored (Some (region j (ordinal r j))) (zlength b) true (Some m)]> (m_rows s)) (with_buffer buf s))).
  2:{ unfold set_cell, row_index. cbn [m_rows with_rows with_buffer m_rowPosition m_fieldCount]. fold (row_index j s). rewrite Hi.
      rewrite list_lookup_insert_eq by (by eapply lookup_lt_Some). cbn. rewrite list_insert_insert_eq.
      rewrite u32_small; [done|]. unfold zlength. destruct (text_at j); lia. }
  unfold after_column. by rewrite Hmj.
Qed.

(** The other fields keep what they hold. *)
Definition keeps_others (r j : nat) (buf buf' : bytes) : Prop :=
  length buf' = length buf ∧
  ∀ f k b, (f < fc)%nat → (f, k) ≠ (j, ordinal r j) → fits f b →
    (holds buf f k b → holds buf' f k b) ∧ (terminated buf f k b → terminated buf' f k b).

Lemma after_column_within r j row v st buf s :
  rows !! r = Some row → row !! j = Some v → within r j row s →
  cell_ok buf r j v st → keeps_others r j (dataBuffer s) buf →
  within r (S j) row (after_column (r * fc + j) j st (region j (ordinal r j + nonnull row j)) buf s).
Proof.
  intros Hr Hj ((Hb & Hm & Hfc & Hn & Hlr & Hld & Hlp & Hlf & Hlive) & Hpos & Hres & Hfl & Hptr & Hok & Hpend) Hcell [Hlen Hkeep].
  destruct (row_column r row j _ Hr Hj) as [HrN Hjfc].
  split; [|split; [done|split; [done|split; [done|split; [|split]]]]].
  - unfold frame. cbn. rewrite !length_insert. repeat (split; [done|]). split; [lia|]. by repeat (split; [done|]).
  - intros f Hf. cbn. destruct (decide (f = j)) as [->|Hne].
    + rewrite list_lookup_insert_eq by lia. by rewrite decide_True by lia.
    + rewrite list_lookup_insert_ne by done. rewrite Hptr by done.
      destruct (decide (f < j)%nat); [by rewrite decide_True by lia|]. by rewrite decide_False by lia.
  - intros r' f row' v' Hr' Hf Hlt. destruct (row_column r' row' f _ Hr' Hf) as [Hr'N Hfc']. cbn.
    destruct (decide (r' * fc + f = r * fc + j)%nat) as [Heq|Hne].
    + destruct (index_inj _ _ _ _ Hfc' Hjfc Heq) as [-> ->]. simplify_eq.
      exists st. split; [|done]. apply list_lookup_insert_eq. nia.
    + destruct (Hok r' f row' v' Hr' Hf ltac:(lia)) as (st' & Hst' & H1 & H2 & H3).
      exists st'. rewrite list_lookup_insert_ne by done. split; [done|]. split; [done|]. split; [done|].
      destruct v' as [b|]; [|done]. destruct H3 as (H3 & H4 & H5 & H6).
      destruct (Hkeep f (ordinal r' f) b Hfc') as [H7 H8]; [|by apply (row_fits_at r' row' Hr')|auto].
      intros [= -> Hord]. destruct (decide (r' < r)%nat) as [Hlt'|Hge]; [pose proof (ordinal_lt r' r row' j b Hr' Hf Hlt'); lia|].
      assert (r' = r) by nia. subst r'. lia.
  - intros f b Hle Hf. destruct (row_column r row f _ Hr Hf) as [_ Hfc']. cbn.
    apply Hkeep; [done|intros [= -> _]; lia|by apply (row_fits_at r row Hr)|]. apply Hpend; [lia|done].
Qed.

Lemma store_column_spec r j row v s :
  rows !! r = Some row → row !! j = Some v → within r j row s →
  ∃ s', store_column R j s = Returns () s' ∧ within r (S j) row s'.
Proof.
  intros Hr Hj Hw. destruct (row_column r row j _ Hr Hj) as [HrN Hjfc]. destruct v as [b|].
  - destruct (store_column_value r j row b s Hr Hj Hw) as (buf & Hrun & Hbuf). rewrite Hrun. eexists. split; [done|].
    assert (fits j b) as Hfit by (by apply (row_fits_at r row Hr)). pose proof (fits_size _ _ Hfit) as Hsz.
    assert (holds (dataBuffer s) j (ordinal r j) b) as Hh by (apply Hw; [lia|done]).
    replace (region j (ordinal r j) + R)%nat with (region j (ordinal r j + nonnull row j)).
    2:{ unfold nonnull. rewrite Hj. unfold region. lia. }
    apply (after_column_within r j row (Some b)); [done|done|done| |].
    + split; [done|]. split; [done|]. cbn. split; [done|]. split; [done|]. split.
      * unfold holds. destruct (text_at j); [|by subst buf]. rewrite (read_write_other _ _ _ _ _ _ Hbuf); [done|]. lia.
      * intros Ht. rewrite Ht in Hbuf. exact (read_write_same _ _ _ _ Hbuf).
    + revert Hsz Hbuf. destruct (text_at j); intros Hsz Hbuf; [|subst buf; split; auto]. split; [by eapply length_write_at|].
      intros f k b' Hf Hne Hb'. eapply (write_elsewhere _ _ f k j (ordinal r j)); [exact Hbuf|lia|cbn; lia|done|done|done|done].
  - destruct (store_column_null r j row s Hr Hj Hw) as (n & Hrun). rewrite Hrun. eexists. split; [done|].
    replace (region j (ordinal r j)) with (region j (ordinal r j + nonnull row j)) by (unfold nonnull; rewrite Hj; f_equal; lia).
    apply (after_column_within r j row None); [done|done|done|by cbn|]. split; auto.
Qed.

Lemma store_columns_spec r row n j s :
  rows !! r = Some row → (j + n = fc)%nat → within r j row s →
  ∃ s', store_columns R j n s = Returns () s' ∧ within r fc row s'.
Proof.
  intros Hr. revert j s. induction n as [|n IH]; intros j s Hj Hw; cbn [store_columns].
  { replace j with fc in Hw by lia. by exists s. }
  destruct (row_fits_at r row Hr) as [Hlen _].
  destruct (lookup_lt_is_Some_2 row j) as [v Hv]; [lia|].
  destruct (store_column_spec r j row v s Hr Hv Hw) as (s1 & Hrun & Hw1).
  rewrite (comp_bind_Returns _ _ _ _ _ Hrun). apply IH; [lia|done].
Qed.

Lemma within_between r row s :
  rows !! r = Some row → within r fc row s → between (S r) (with_position (Z.of_nat (S r)) s).
Proof.
  intros Hr (Hframe & Hpos & Hres & Hfl & Hptr & Hok & _).
  split; [done|]. split; [done|]. split; [done|]. split.
  - intros f Hf. cbn. rewrite Hptr, (ordinal_S r row f Hr) by done. by rewrite decide_True by done.
  - intros r' f row' v Hr' Hf Hlt. apply (Hok r' f row' v Hr' Hf). lia.
Qed.

Lemma fetch_rows_spec fuel r s :
  (N - r < fuel)%nat → (r ≤ N)%nat → between r s →
  ∃ s', fetch_rows fuel R s = Returns () s' ∧ between N s'.
Proof.
  revert r s. induction fuel as [|fuel IH]; intros r s Hf HrN Hs; [lia|]. cbn [fetch_rows].
  pose proof Hs as ((_ & _ & Hfc & Hn & _) & Hpos & _).
  destruct (decide (r = N)) as [->|Hne].
  { exists s. split; [|done]. unfold _NextRow, mbind, comp_bind, get. rewrite Hn, Hpos, bool_decide_true by lia. done. }
  destruct (lookup_lt_is_Some_2 rows r) as [row Hr]; [lia|].
  destruct (fetch_spec r row s Hr Hs) as (s1 & Hfetch & Hw).
  rewrite (comp_bind_Returns _ _ s true s1).
  2:{ unfold _NextRow. rewrite get_bind, Hn, Hpos, bool_decide_false by lia. exact Hfetch. }
  rewrite get_bind. pose proof Hw as ((_ & _ & Hfc1 & _) & Hpos1 & _). rewrite Hfc1, Nat2Z.id.
  destruct (store_columns_spec r row fc 0 s1 Hr ltac:(lia) Hw) as (s2 & Hrun & Hw2).
  rewrite (comp_bind_Returns _ _ _ _ _ Hrun), modify_bind.
  pose proof Hw2 as (_ & Hpos2 & _). rewrite Hpos2.
  replace (u64 (Z.of_nat r + 1)) with (Z.of_nat (S r)).
  2:{ rewrite u64_small; lia. }
  apply (IH (S r)); [lia|lia|]. by apply (within_between r row).
Qed.
End rows.
End layout.

(** *** The constructor and the destructor *)

Section constructor.
(** [junk]: what fresh memory holds. *)
Context (sizeof_MYSQL_TIME junk : Z).

Definition columns_of (fields : list MYSQL_FIELD) : list (enum_field_types * nat) :=
  (λ f, (type f, Z.to_nat (SizeForType sizeof_MYSQL_TIME f))) <$> fields.

(** When the constructor starts: [done] says whether the statement was executed
    before, and holds the arrays of its last result. *)
Definition start (metadata done : bool) (rows : list (list (option bytes))) (rowCount : Z) (fieldCount : nat) : PreparedResultSet :=
  MkPrepared [] [] rowCount 0 (Z.of_nat fieldCount) None metadata done [] rows [] []
    ((if metadata then [MetadataResult] else []) ++ if done then [OldIsNull; OldLength] else []).

Definition hand_over (r : resource) : resource :=
  match r with IsNullArray => OldIsNull | LengthArray => OldLength | _ => r end.

(** [store_ok] and [bind_ok]: whether [mysql_stmt_store_result] and
    [mysql_stmt_bind_result] succeed. *)
Definition construct_prepared (fields : list MYSQL_FIELD) (store_ok bind_ok : bool) : comp PreparedResultSet unit :=
  m ← get m_metadataResult;
  if negb m then mret () else
  d ← get bind_result_done;
  (if (d : bool) then free OldLength;; free OldIsNull else mret ());;
  n ← get (λ s, Z.to_nat (m_fieldCount s));
  alloc RBind;;
  modify (with_rBind (Some (replicate n (MYSQL_TYPE_DECIMAL, 0%nat))));;
  alloc IsNullArray;;
  alloc LengthArray;;
  modify (λ s, with_fetched (results s) (replicate n (false, 0)) s);;
  if negb store_ok then free RBind;; free IsNullArray;; free LengthArray
  else
    rows ← get results;
    modify (with_rowCount (Z.of_nat (length rows)));;
    let columns := columns_of fields in
    let rowSize := total columns.*2 in
    alloc DataBuffer;;
    modify (with_layout (metadata_of fields) (Some columns) (replicate (rowSize * length rows) junk));;
    if negb bind_ok then CleanUp_prepared;; free IsNullArray;; free LengthArray
    else
      modify (λ s, with_live (hand_over <$> live s) (with_bound (offsets 0 columns.*2) s));;
      modify (λ s, with_rows (replicate (Z.to_nat (u32 (u32 (m_rowCount s) * m_fieldCount s))) stored_make) s);;
      fetch_rows (S (length rows)) rowSize;;
      modify (with_position 0).

(** What the result holds when all rows are fetched. *)
Definition full_live : list resource := [DataBuffer; OldLength; OldIsNull; RBind; MetadataResult].

Lemma constructed fields done rows rowCount :
  let columns := columns_of fields in
  Forall (row_fits columns) rows →
  Z.of_nat (length rows) < 4294967296 → Z.of_nat (length rows * length fields) < 4294967296 →
  Z.of_nat (total columns.*2) < 4294967296 →
  ∃ s, construct_prepared fields true true (start true done rows rowCount (length fields)) = Returns () (with_position 0 s) ∧
    between columns rows (metadata_of fields) full_live (length rows) s.
Proof.
  intros columns Hrows HN Hcells HR.
  set (s0 := MkPrepared (metadata_of fields) (replicate (length rows * length fields) stored_make) (Z.of_nat (length rows)) 0
    (Z.of_nat (length fields)) (Some columns) true true (offsets 0 columns.*2) rows (replicate (length fields) (false, 0))
    (replicate (total columns.*2 * length rows) junk) full_live).
  assert (length columns = length fields) as Hlc by (unfold columns, columns_of; apply length_fmap).
  assert (between columns rows (metadata_of fields) full_live 0 s0) as Hb.
  { split; [|split; [done|split; [done|split]]].
    - unfold frame. cbn -[total]. rewrite !length_replicate, length_offsets, length_fmap, Hlc. by repeat (split; [done|]).
    - intros f Hf. cbn -[total]. unfold region. rewrite Nat.mul_0_r, Nat.add_0_r.
      destruct (lookup_lt_is_Some_2 (offsets 0 columns.*2) f) as [o ->]; [|done]. by rewrite length_offsets, length_fmap.
    - intros r f row v _ _ Hlt. lia. }
  destruct (fetch_rows_spec columns rows (metadata_of fields) full_live Hrows) with (fuel := S (length rows)) (r := 0%nat) (s := s0)
    as (s & Hrun & Hs); [unfold metadata_of; by rewrite length_imap|lia|by rewrite Hlc|done|lia|lia|done|].
  exists s. split; [|done].
  unfold construct_prepared, alloc. rewrite get_bind. cbn [m_metadataResult start negb].
  assert (∀ (k : unit → comp PreparedResultSet unit), ∃ s1,
    ((if done then free OldLength;; free OldIsNull else mret ()) ≫= k) (start true done rows rowCount (length fields)) = k () s1 ∧
    s1 = MkPrepared [] [] rowCount 0 (Z.of_nat (length fields)) None true done [] rows [] [] [MetadataResult]) as Hfree.
  { intros k. eexists. split; [|done]. by destruct done. }
  rewrite get_bind. cbn [bind_result_done start].
  edestruct Hfree as (s1 & -> & ->). clear Hfree.
  rewrite get_bind. cbn [m_fieldCount]. rewrite Nat2Z.id.
  do 5 (rewrite modify_bind). cbn [negb]. rewrite get_bind. cbn [results with_fetched with_live with_rBind].
  do 3 (rewrite modify_bind). cbn [negb]. do 2 (rewrite modify_bind). fold columns.
  apply comp_bind_Returns with (f := λ _, modify (with_position 0)) in Hrun. rewrite modify_eq in Hrun. rewrite <-Hrun. clear Hrun.
  f_equal. unfold s0, alloc. cbn -[total u32]. f_equal.
  rewrite (u32_small (Z.of_nat (length rows))) by lia. rewrite <-Nat2Z.inj_mul, u32_small, Nat2Z.id by lia. done.
Qed.

Lemma read_at_read off n buf b : read_at off n buf = b → length b = n → read n (drop off buf) = Some b.
Proof.
  unfold read_at, read. intros Hr Hn. rewrite decide_True; [by rewrite Hr|]. rewrite <-Hr, length_take in Hn. lia.
Qed.

Lemma text_follows off n buf b :
  read_at off (length b) buf = b → length b = n → read_at (off + n) 1 buf = [0] → ∃ rest, drop off buf = b ++ 0 :: rest.
Proof.
  unfold read_at. intros Hb <- H0. exists (drop (off + length b + 1) buf).
  rewrite <-(take_drop (length b) (drop off buf)), Hb, drop_drop. f_equal.
  rewrite <-(take_drop 1 (drop (off + length b) buf)), H0, drop_drop. cbn. do 2 f_equal.
Qed.

(** C26: The constructor of the result of a prepared statement stores every
    value of every row: field [f] of row [r] refers to memory that holds the
    bytes of the value, terminated where the value is text, with its length and
    the metadata of its column, or is null as the value is; no value overwrites
    another and none leaves the buffer.  The values of a text column are shorter
    than the [max_length + 1] bytes that are reserved for them. *)
Theorem construct_prepared_spec fields done rows rowCount :
  let columns := columns_of fields in
  Forall (row_fits columns) rows →
  Z.of_nat (length rows) < 4294967296 → Z.of_nat (length rows * length fields) < 4294967296 →
  Z.of_nat (total columns.*2) < 4294967296 →
  ∃ s, construct_prepared fields true true (start true done rows rowCount (length fields)) = Returns () s ∧
    m_rowPosition s = 0 ∧ m_rowCount s = Z.of_nat (length rows) ∧
    ∀ r f row v, rows !! r = Some row → row !! f = Some v →
      ∃ st, m_rows s !! (r * length fields + f)%nat = Some st ∧
        let field := view (dataBuffer s) st in
        raw field = true ∧ meta field = metadata_of fields !! f ∧ IsNull field = bool_decide (v = None) ∧
        GetBinary field = Some (default [] v) ∧
        ∀ b, v = Some b → text_at columns f = true → ∃ rest, value field = Some (b ++ 0 :: rest).
Proof.
  intros columns Hrows HN Hcells HR.
  destruct (constructed fields done rows rowCount Hrows HN Hcells HR) as (s & Hrun & (_ & _ & Hfc & Hn & _) & _ & _ & _ & Hok).
  eexists. split; [exact Hrun|]. split; [done|]. split; [done|].
  intros r f row v Hr Hf.
  assert (length columns = length fields) as Hlc by (unfold columns, columns_of; apply length_fmap).
  destruct (row_column columns rows Hrows r row f v Hr Hf) as [HrN Hf'].
  destruct (Hok r f row v Hr Hf) as (st & Hst & H1 & H2 & H3); [fold columns; nia|].
  exists st. fold columns in Hst. rewrite Hlc in Hst. split; [exact Hst|]. cbn. split; [done|]. split; [done|].
  destruct v as [b|]; [|unfold IsNull, GetBinary; cbn; rewrite H3; done].
  destruct H3 as (H3 & H4 & H5 & H6). unfold IsNull, GetBinary, view. cbn. rewrite H3, H4. cbn.
  split; [done|]. split.
  - case_decide as H0; [unfold zlength in H0; destruct b; [done|cbn in H0; lia]|]. unfold zlength. rewrite Nat2Z.id. by apply read_at_read.
  - intros b' [= <-] Ht. destruct (text_follows _ _ _ _ H5 eq_refl (H6 Ht)) as [rest Hrest]. exists rest. by rewrite Hrest.
Qed.

(** The destructor frees what the constructor allocated, once; the two arrays
    that the statement took over stay. *)
Lemma destroyed fields done rows rowCount :
  let columns := columns_of fields in
  Forall (row_fits columns) rows →
  Z.of_nat (length rows) < 4294967296 → Z.of_nat (length rows * length fields) < 4294967296 →
  Z.of_nat (total columns.*2) < 4294967296 →
  ∃ s s', construct_prepared fields true true (start true done rows rowCount (length fields)) = Returns () s ∧
    CleanUp_prepared s = Returns () s' ∧ live s' = [OldLength; OldIsNull].
Proof.
  intros columns Hrows HN Hcells HR.
  destruct (constructed fields done rows rowCount Hrows HN Hcells HR) as (s & Hrun & (Hb & _ & _ & _ & _ & _ & _ & _ & Hlive & Hm & _) & _).
  eexists _, _. split; [exact Hrun|]. destruct s. cbn in *. subst. split; reflexivity.
Qed.

(** Where an answer of the server cannot be stored, the constructor frees the
    bindings but keeps the pointer: the destructor frees them again. *)
Lemma store_failure_double_free fields rows rowCount n :
  ∃ s, construct_prepared fields false true (start true false rows rowCount n) = Returns () s ∧ CleanUp_prepared s = UB.
Proof. eexists. split; [vm_compute; reflexivity|]. vm_compute. reflexivity. Qed.

(** Where the bindings are refused, the constructor calls [CleanUp], which does
    not clear [m_metadataResult]: the destructor frees it again. *)
Lemma bind_failure_double_free fields rows rowCount n :
  ∃ s, construct_prepared fields true false (start true false rows rowCount n) = Returns () s ∧ CleanUp_prepared s = UB.
Proof.
  unfold construct_prepared, alloc. cbn [start get m_metadataResult bind_result_done negb mbind comp_bind mret comp_ret].
  generalize (metadata_of fields), (columns_of fields), (replicate (total (columns_of fields).*2 * length rows) junk).
  intros md columns buf. eexists. split; [vm_compute; reflexivity|]. vm_compute. reflexivity.
Qed.
End constructor.

Definition NextRow_prepared : comp PreparedResultSet bool :=
  modify (λ s, with_position (u64 (m_rowPosition s + 1)) s);;
  get (λ s, negb (bool_decide (m_rowCount s ≤ m_rowPosition s))).

(** The first field of the current row, and a field of it. *)
Definition Fetch_prepared : comp PreparedResultSet nat :=
  ok ← get (λ s, bool_decide (m_rowPosition s < m_rowCount s));
  ASSERT ok;;
  get (row_index 0).
Definition field_at_prepared (index : Z) : comp PreparedResultSet stored :=
  ok ← get (λ s, bool_decide (m_rowPosition s < m_rowCount s));
  ASSERT ok;;
  n ← get m_fieldCount;
  ASSERT (bool_decide (index < n));;
  getO (λ s, m_rows s !! row_index (Z.to_nat index) s).

(** ** Examples *)

Definition demo_fields : list MYSQL_FIELD :=
  [MkColumn [] [] [] [] MYSQL_TYPE_SHORT 5; MkColumn [] [] [] [] MYSQL_TYPE_VAR_STRING 3].
Definition demo_rows : list (list (option bytes)) :=
  [[Some [1; 0]; Some (text "ab")]; [Some [2; 0]; None]; [None; Some (text "cde")]].

Lemma construct_prepared_spec_witness :
  Forall (row_fits (columns_of 40 demo_fields)) demo_rows ∧
  ∃ s, construct_prepared 40 170 demo_fields true true (start true false demo_rows 0 2) = Returns () s ∧
    m_rowPosition s = 0 ∧ m_rowCount s = 3 ∧
    (GetString false ∘ view (dataBuffer s) <$> m_rows s !! 5%nat) = Some (Some (text "cde")).
Proof.
  assert (Forall (row_fits (columns_of 40 demo_fields)) demo_rows) as Hfit.
  { repeat (apply Forall_cons; split; [split; [done|]|]); [| | |done];
      intros [|[|f]] b Hf; simplify_eq/=; vm_compute; lia. }
  split; [exact Hfit|].
  destruct (construct_prepared_spec 40 170 demo_fields false demo_rows 0 Hfit) as (s & Hrun & Hpos & Hn & _);
    [by vm_compute..|].
  exists s. split; [exact Hrun|]. split; [exact Hpos|]. split; [exact Hn|].
  assert (match construct_prepared 40 170 demo_fields true true (start true false demo_rows 0 2) with
    | Returns _ s => (GetString false ∘ view (dataBuffer s) <$> m_rows s !! 5%nat) = Some (Some (text "cde"))
    | _ => False end) as H by (vm_compute; reflexivity).
  change 2%nat with (length demo_fields) in H. by rewrite Hrun in H.
Defined.

Definition demo_text_rows : list MYSQL_ROW :=
  [Row [Some (text "7" ++ [0]); Some (text "ab" ++ [0])] (Some [1; 2]); Row [Some (text "-1" ++ [0]); None] (Some [2; 0])].

Lemma NextRow_enumerates_witness :
  Forall (regular 2) demo_text_rows ∧
  ∃ shown r', all_rows 3 (construct (Some demo_text_rows) demo_fields 2) = Some (shown, r') ∧ NextRow r' = Returns false r' ∧
    (λ fs, GetInt16 true <$> head fs) <$> shown = [Some (Some 7); Some (Some (-1))].
Proof.
  assert (Forall (regular 2) demo_text_rows) as Hreg.
  { repeat (apply Forall_cons; split; [split; [done|by eexists]|]). done. }
  split; [exact Hreg|].
  destruct (NextRow_enumerates demo_text_rows demo_fields 2 Hreg) as (shown & r' & Hrun & _ & _ & _ & Hend).
  exists shown, r'. split; [exact Hrun|]. split; [exact Hend|].
  assert (((λ fs, GetInt16 true <$> head fs) <$> default [] (fst <$> all_rows 3 (construct (Some demo_text_rows) demo_fields 2)))
    = [Some (Some 7); Some (Some (-1))]) as H by (vm_compute; reflexivity).
  change 3%nat with (S (length demo_text_rows)) in H. by rewrite Hrun in H.
Defined.
End ResultSet.
