(* ===== verification/Tokenize.v ===== *)
(** Splitting a connection string: [Tokenize] of
    src/mysql-conn-pool/dbimpl/MySQLConnection.cpp and of
    src/mysqlconnpool/MySQLConn.cpp, and the structures filled from it. *)
From S2P Require Import Prelude Bytes.

Module Tokenize.

(** [str.find(sep, pos)]; [None] is [npos]. *)
Definition find (str : bytes) (sep : Z) (pos : nat) : option nat :=
  (λ r : nat * Z, (pos + r.1)%nat) <$> list_find (λ c, c = sep) (drop pos str).
Definition substr (str : bytes) (pos n : nat) : bytes := take n (drop pos str).

(** The loop: [start] and the tokens so far. *)
Fixpoint tokenize_loop (fuel : nat) (str : bytes) (sep : Z) (keepEmpty : bool) (start : nat) (tokens : list bytes) : option (list bytes) :=
  match fuel with
  | O => None
  | S fuel =>
      match find str sep start with
      | Some e =>
          tokenize_loop fuel str sep keepEmpty (e + 1)
            (if keepEmpty || bool_decide (start < e)%nat then tokens ++ [substr str start (e - start)] else tokens)
      | None =>
          Some (if keepEmpty || bool_decide (start < length str)%nat then tokens ++ [drop start str] else tokens)
      end
  end.
Definition Tokenize (str : bytes) (sep : Z) (keepEmpty : bool) : option (list bytes) :=
  tokenize_loop (S (length str)) str sep keepEmpty 0 [].

(** ** The pieces between the separators *)

Fixpoint pieces (sep : Z) (s : bytes) : list bytes :=
  match s with
  | [] => [[]]
  | c :: s =>
      if decide (c = sep) then [] :: pieces sep s
      else match pieces sep s with p :: ps => (c :: p) :: ps | [] => [[c]] end
  end.
Fixpoint join (sep : Z) (ps : list bytes) : bytes :=
  match ps with [] => [] | [p] => p | p :: ps => p ++ sep :: join sep ps end.

Lemma pieces_cons sep s : ∃ p ps, pieces sep s = p :: ps.
Proof. induction s as [|c s (p & ps & IH)]; cbn; [by eexists _, _|]. rewrite IH. case_decide; by eexists _, _. Qed.

Lemma join_pieces sep s : join sep (pieces sep s) = s.
Proof.
  induction s as [|c s IH]; [done|]. cbn [pieces]. destruct (pieces_cons sep s) as (p & ps & Hp). rewrite Hp in *.
  case_decide as Hc; [subst c|].
  - change (join sep ([] :: p :: ps)) with (sep :: join sep (p :: ps)). by rewrite IH.
  - destruct ps; cbn in *; by rewrite <-IH.
Qed.

Lemma pieces_no_sep sep s : Forall (λ p, sep ∉ p) (pieces sep s).
Proof.
  induction s as [|c s IH]; cbn [pieces]; [constructor; [set_solver|done]|].
  destruct (pieces_cons sep s) as (p & ps & Hp). rewrite Hp in *. case_decide; [constructor; [set_solver|done]|].
  apply Forall_cons in IH as [H1 H2]. constructor; [set_solver|done].
Qed.

Lemma pieces_none sep s : sep ∉ s → pieces sep s = [s].
Proof.
  induction s as [|c s IH]; [done|]. cbn [pieces]. intros Hs. rewrite decide_False by set_solver. by rewrite IH by set_solver.
Qed.

Lemma pieces_sep sep p s : sep ∉ p → pieces sep (p ++ sep :: s) = p :: pieces sep s.
Proof.
  induction p as [|c p IH]; cbn [app pieces]; [by rewrite decide_True|]. intros Hp.
  rewrite decide_False by set_solver. by rewrite IH by set_solver.
Qed.

(** [list_find] cuts at the first separator. *)
Lemma find_spec str sep pos :
  (pos ≤ length str)%nat →
  match find str sep pos with
  | Some e => ∃ p s, drop pos str = p ++ sep :: s ∧ sep ∉ p ∧ e = (pos + length p)%nat
  | None => sep ∉ drop pos str
  end.
Proof.
  intros Hpos. unfold find. destruct (list_find _ (drop pos str)) as [[i c]|] eqn:Hf; cbn.
  - apply list_find_Some in Hf as (Hi & -> & Hbefore). exists (take i (drop pos str)), (drop (S i) (drop pos str)).
    pose proof (lookup_lt_Some _ _ _ Hi). split; [by rewrite take_drop_middle|]. split; [|rewrite length_take; lia].
    intros (j & Hj)%list_elem_of_lookup. apply lookup_take_Some in Hj as [Hj Hlt]. by eapply (Hbefore j sep).
  - apply list_find_None in Hf. intros Hin. rewrite Forall_forall in Hf. by apply (Hf sep).
Qed.

Definition keep (keepEmpty : bool) (ps : list bytes) : list bytes :=
  if keepEmpty then ps else filter (λ p, p ≠ []) ps.

Lemma tokenize_loop_spec fuel str sep keepEmpty start tokens :
  (start ≤ length str)%nat → (length str - start < fuel)%nat →
  tokenize_loop fuel str sep keepEmpty start tokens = Some (tokens ++ keep keepEmpty (pieces sep (drop start str))).
Proof.
  revert start tokens. induction fuel as [|fuel IH]; intros start tokens Hs Hf; [lia|]. cbn [tokenize_loop].
  pose proof (find_spec str sep start Hs) as Hfind. destruct (find str sep start) as [e|].
  - destruct Hfind as (p & s & Hd & Hp & ->). rewrite Hd, (pieces_sep _ _ _ Hp).
    assert (length (drop start str) = length str - start)%nat as Hl by apply length_drop.
    rewrite Hd, length_app in Hl. cbn in Hl.
    assert (drop (start + length p + 1) str = s) as Hd'.
    { rewrite <-Nat.add_assoc, <-drop_drop, Hd. change (p ++ sep :: s) with (p ++ [sep] ++ s). rewrite app_assoc.
      apply drop_app_length'. rewrite length_app. cbn. lia. }
    assert (substr str start (start + length p - start) = p) as Hsub.
    { unfold substr. rewrite Hd. apply take_app_length'. lia. }
    rewrite IH, Hd', Hsub by lia. f_equal. destruct keepEmpty; cbn [orb keep]; [by rewrite <-app_assoc|].
    destruct p as [|c p]; [|cbn [filter]].
    + rewrite bool_decide_false by (cbn; lia). by rewrite filter_cons_False by auto.
    + rewrite bool_decide_true by (cbn; lia). rewrite filter_cons_True by done. by rewrite <-app_assoc.
  - rewrite (pieces_none _ _ Hfind). f_equal. destruct keepEmpty; cbn [orb keep]; [done|].
    assert (length (drop start str) = length str - start)%nat as Hl by apply length_drop.
    case_bool_decide as Hlt.
    + rewrite filter_cons_True; [done|]. intros H0. rewrite H0 in Hl. cbn in Hl. lia.
    + rewrite filter_cons_False; [by rewrite app_nil_r|]. apply dec_stable. destruct (drop start str); [auto|cbn in Hl; lia].
Qed.

(** [Tokenize] returns the pieces of the string between the separators, in
    order, all of them or those that are not empty: joined by the separator,
    all the pieces give the string back, and no piece contains a separator. *)
Theorem Tokenize_spec str sep keepEmpty :
  Tokenize str sep keepEmpty = Some (keep keepEmpty (pieces sep str)) ∧
  join sep (pieces sep str) = str ∧ Forall (λ p, sep ∉ p) (pieces sep str).
Proof.
  split; [|split; [apply join_pieces|apply pieces_no_sep]]. unfold Tokenize. rewrite tokenize_loop_spec by lia. done.
Qed.

(** ** The information of a connection *)

Record MySQLConnectionInfo := ConnectionInfo {
  user : bytes; password : bytes; database : bytes; host : bytes; port_or_socket : bytes; ssl : bytes;
}.
Definition SEMICOLON : Z := 59.

(** A string with another number of tokens leaves everything empty. *)
Definition MySQLConnectionInfo_construct (infoString : bytes) : option MySQLConnectionInfo :=
  tokens ← Tokenize infoString SEMICOLON true;
  Some match tokens with
  | [h; p; u; w; d] => ConnectionInfo u w d h p []
  | [h; p; u; w; d; s] => ConnectionInfo u w d h p s
  | _ => ConnectionInfo [] [] [] [] [] []
  end.

(** The one of mysqlconnpool. *)
Record MySQLConnInfo := ConnInfo { c_user : bytes; c_password : bytes; c_url : bytes; c_database : bytes }.
Definition MySQLConnInfo_construct (info db : bytes) : option MySQLConnInfo :=
  tokens ← Tokenize info SEMICOLON false;
  Some match tokens with
  | [url; u; w] => ConnInfo u w url db
  | _ => ConnInfo [] [] [] []
  end.

Lemma connection_info_roundtrip h p u w d s :
  Forall (λ x, SEMICOLON ∉ x) [h; p; u; w; d; s] →
  MySQLConnectionInfo_construct (join SEMICOLON [h; p; u; w; d; s]) = Some (ConnectionInfo u w d h p s).
Proof.
  intros H. repeat (apply Forall_cons in H as [? H]). unfold MySQLConnectionInfo_construct.
  unfold Tokenize. rewrite tokenize_loop_spec by lia. cbn [keep join mbind option_bind app drop].
  rewrite drop_0, !pieces_sep, pieces_none by done. done.
Qed.

(** A password that is empty or contains the separator gives no information at
    all in mysqlconnpool: the tokens are three only if none of them is empty. *)
Example empty_password :
  MySQLConnInfo_construct (text "tcp://127.0.0.1:3306;root;") (text "db") = Some (ConnInfo [] [] [] []).
Proof. reflexivity. Qed.
End Tokenize.
