(* ===== verification/MySqlConn.v ===== *)
(** One connection to the server: src/mysql-conn-pool/dbimpl/MySQLConnection.cpp,
    with the statements that Implementation/SakilaDatabase.cpp prepares on it.

    The functions of the MySQL client library are the fields of the class
    [MySqlApi]; what they do to the library and the server is a state [M].  The
    texts and statements sent to the server are recorded in [sent].  The
    recursion of [Execute] after a reconnection is bounded by fuel. *)
From S2P Require Import Prelude Except Bytes Tokenize PreparedStatement Field ResultSet.

Module MySqlConn.
Import Tokenize.

(** Error codes of the library and the server. *)
Definition CR_UNKNOWN_ERROR : Z := 2000.
Definition CR_CONN_HOST_ERROR : Z := 2003.
Definition CR_SERVER_GONE_ERROR : Z := 2006.
Definition CR_SERVER_LOST : Z := 2013.
Definition CR_SERVER_LOST_EXTENDED : Z := 2055.
Definition ER_BAD_FIELD_ERROR : Z := 1054.
Definition ER_WRONG_VALUE_COUNT : Z := 1058.
Definition ER_DUP_ENTRY : Z := 1062.
Definition ER_PARSE_ERROR : Z := 1064.
Definition ER_NO_SUCH_TABLE : Z := 1146.
Definition ER_LOCK_DEADLOCK : Z := 1213.

Definition CONNECTION_ASYNC : Z := 1.
Definition CONNECTION_SYNCH : Z := 2.

(** What the library knows of an executed statement when its result is built. *)
Record stmt_answer := Answer {
  a_metadata : bool; a_done : bool; a_rows : list (list (option bytes)); a_fields : list ResultSet.MYSQL_FIELD;
  a_num_rows : Z; a_field_count : nat; a_store_ok : bool; a_bind_ok : bool;
}.

(** The client library: [H] are the handles of connections, [S] those of
    statements.  A [bool] result is true for success. *)
Class MySqlApi (M H S : Type) := {
  mysql_init : M → option H * M;
  mysql_options : H → bytes → M → M;
  mysql_real_connect : H → MySQLConnectionInfo → Z → option bytes → M → bool * M;
  mysql_autocommit : H → M → M;
  mysql_set_character_set : H → M → M;
  mysql_close : H → M → M;
  mysql_errno : option H → M → Z;
  mysql_get_server_version : option H → M → Z;
  mysql_ping : option H → M → M;
  mysql_query : H → bytes → M → bool * M;
  mysql_store_result : H → M → option (list ResultSet.MYSQL_ROW) * M;
  mysql_affected_rows : H → M → Z;
  mysql_fetch_fields : H → M → list ResultSet.MYSQL_FIELD;
  mysql_more_results : H → M → bool;
  mysql_next_result : H → M → M;
  mysql_stmt_init : H → M → option S * M;
  mysql_stmt_prepare : S → bytes → M → bool * M;
  mysql_stmt_close : S → M → M;
  mysql_stmt_param_count : S → M → Z;
  mysql_stmt_bind_param : S → list PreparedStatement.MYSQL_BIND → M → bool * M;
  mysql_stmt_execute : S → M → bool * M;
  mysql_stmt_result : S → M → stmt_answer;
  (** [sizeof(MYSQL_TIME)] *)
  mysql_time_size : Z;
}.

Section connection.
Context {M H S : Type} {api : MySqlApi M H S}.

(** [m_worker] is modelled in DbPool.v; [m_Mutex]: whether it is locked. *)
Record MySQLConnection := Connection {
  m_reconnecting : bool;
  m_prepareError : bool;
  m_Mysql : option H;
  m_connectionInfo : MySQLConnectionInfo;
  m_connectionFlags : Z;
  m_stmts : list (option (S * PreparedStatement.MySQLPreparedStatement));
  m_Mutex : bool;
}.

(** What is sent to the server, and whether it succeeded. *)
Inductive message := Text (sql : bytes) (ok : bool) | Prepared (index : Z) (ok : bool) | Connect (ok : bool).

Record state := State { conn : MySQLConnection; lib : M; sent : list message }.

Definition with_conn (f : MySQLConnection → MySQLConnection) (s : state) : state := State (f (conn s)) (lib s) (sent s).
Definition set_reconnecting (b : bool) (c : MySQLConnection) := Connection b (m_prepareError c) (m_Mysql c) (m_connectionInfo c) (m_connectionFlags c) (m_stmts c) (m_Mutex c).
Definition set_prepareError (b : bool) (c : MySQLConnection) := Connection (m_reconnecting c) b (m_Mysql c) (m_connectionInfo c) (m_connectionFlags c) (m_stmts c) (m_Mutex c).
Definition set_Mysql (h : option H) (c : MySQLConnection) := Connection (m_reconnecting c) (m_prepareError c) h (m_connectionInfo c) (m_connectionFlags c) (m_stmts c) (m_Mutex c).
Definition set_info (i : MySQLConnectionInfo) (c : MySQLConnection) := Connection (m_reconnecting c) (m_prepareError c) (m_Mysql c) i (m_connectionFlags c) (m_stmts c) (m_Mutex c).
Definition set_stmts (l : list (option (S * PreparedStatement.MySQLPreparedStatement))) (c : MySQLConnection) := Connection (m_reconnecting c) (m_prepareError c) (m_Mysql c) (m_connectionInfo c) (m_connectionFlags c) l (m_Mutex c).
Definition set_Mutex (b : bool) (c : MySQLConnection) := Connection (m_reconnecting c) (m_prepareError c) (m_Mysql c) (m_connectionInfo c) (m_connectionFlags c) (m_stmts c) b.

Definition member {A} (f : MySQLConnection → A) : comp state A := get (λ s, f (conn s)).
Definition update (f : MySQLConnection → MySQLConnection) : comp state unit := modify (with_conn f).
(** A call of the library. *)
Definition library {A} (f : M → A * M) : comp state A := λ s, Returns (f (lib s)).1 (State (conn s) (f (lib s)).2 (sent s)).
Definition library_ (f : M → M) : comp state unit := modify (λ s, State (conn s) (f (lib s)) (sent s)).
Definition ask {A} (f : M → A) : comp state A := get (λ s, f (lib s)).
Definition record (m : message) : comp state unit := modify (λ s, State (conn s) (lib s) (sent s ++ [m])).
(** The handle, which the code does not test here. *)
Definition handle : comp state H := getO (λ s, m_Mysql (conn s)).

Definition construct (flags : Z) (connInfo : MySQLConnectionInfo) : MySQLConnection :=
  Connection false false None connInfo flags [] false.

Definition Close : comp state unit :=
  stmts ← member m_stmts;
  library_ (λ m, foldl (λ m o, match o with Some (st, _) => mysql_stmt_close st m | None => m end) m stmts);;
  update (set_stmts []);;
  h ← member m_Mysql;
  match h with
  | Some h => library_ (mysql_close h);; update (set_Mysql None)
  | None => mret ()
  end.

(** [m_connectionInfo] is a reference: the change of [host] is seen by the
    other connections of the pool. *)
Definition with_host (h : bytes) (i : MySQLConnectionInfo) : MySQLConnectionInfo :=
  ConnectionInfo (user i) (password i) (database i) h (port_or_socket i) (ssl i).
Definition atoi (s : bytes) : Z := default 0 (i32 <$> strtol (s ++ [0])).

Definition Open : comp state Z :=
  mysqlInit ← library mysql_init;
  match mysqlInit with
  | None => mret CR_UNKNOWN_ERROR
  | Some h =>
      library_ (mysql_options h (text "MYSQL_SET_CHARSET_NAME"));;
      info ← member m_connectionInfo;
      to ← (if decide (host info = text ".") then
              library_ (mysql_options h (text "MYSQL_OPT_PROTOCOL"));;
              update (set_info (with_host (text "localhost") info));;
              mret (0, Some (port_or_socket info))
            else mret (atoi (port_or_socket info), None));
      (if decide (ssl info ≠ []) then library_ (mysql_options h (text "MYSQL_OPT_SSL_MODE")) else mret ());;
      info ← member m_connectionInfo;
      ok ← library (mysql_real_connect h info (fst (to : Z * option bytes)) (snd to));
      record (Connect ok);;
      if (ok : bool) then
        update (set_Mysql (Some h));;
        library_ (mysql_autocommit h);;
        library_ (mysql_set_character_set h);;
        mret 0
      else
        update (set_Mysql None);;
        errorCode ← ask (mysql_errno (Some h));
        library_ (mysql_close h);;
        mret errorCode
  end.

(** ** Prepared statements *)

Definition set_stmt (index : Z) (o : option (S * PreparedStatement.MySQLPreparedStatement)) : comp state unit :=
  old ← getO (λ s, zlookup (m_stmts (conn s)) index);
  library_ (λ m, match (old : option (S * _)) with Some (st, _) => mysql_stmt_close st m | None => m end);;
  update (λ c, set_stmts (zinsert index o (m_stmts c)) c).

Definition PrepareStatement (index : Z) (sql : bytes) (flags : Z) : comp state unit :=
  cflags ← member m_connectionFlags;
  if decide (Z.land cflags flags = 0) then set_stmt index None
  else
    h ← handle;
    stmt ← library (mysql_stmt_init h);
    match stmt with
    | None => update (set_prepareError true)
    | Some st =>
        ok ← library (mysql_stmt_prepare st sql);
        if (ok : bool) then
          n ← ask (mysql_stmt_param_count st);
          set_stmt index (Some (st, PreparedStatement.prepare n sql))
        else
          library_ (mysql_stmt_close st);;
          update (set_prepareError true)
    end.

(** [SakilaDatabaseConnection::DoPrepareStatements]. *)
Definition SAKILA_SEL_ACTOR_INFO : Z := 0.
Definition SAKILA_SEL_ACTOR_INFO_ASYNC : Z := 1.
Definition MAX_SAKILADATABASE_STATEMENTS : nat := 2.
Definition actor_info : bytes := text "select actor_id, first_name, last_name, last_update from actor where actor_id = ?".
Definition resize {A} (n : nat) (l : list (option A)) : list (option A) := take n l ++ replicate (n - length l) None.
Definition DoPrepareStatements : comp state unit :=
  r ← member m_reconnecting;
  (if (r : bool) then mret () else update (λ c, set_stmts (resize MAX_SAKILADATABASE_STATEMENTS (m_stmts c)) c));;
  PrepareStatement SAKILA_SEL_ACTOR_INFO actor_info CONNECTION_SYNCH;;
  PrepareStatement SAKILA_SEL_ACTOR_INFO_ASYNC actor_info CONNECTION_ASYNC.

Definition PrepareStatements : comp state bool :=
  DoPrepareStatements;;
  e ← member m_prepareError;
  mret (negb e).

Definition GetPreparedStatement (index : Z) : comp state (option (S * PreparedStatement.MySQLPreparedStatement)) :=
  n ← member (λ c, zlength (m_stmts c));
  ASSERT (bool_decide (index < n));;
  getO (λ s, zlookup (m_stmts (conn s)) index).

(** ** Errors *)

Definition lost (errNo : Z) : bool := bool_decide (errNo ∈ [CR_SERVER_GONE_ERROR; CR_SERVER_LOST; CR_SERVER_LOST_EXTENDED]).

(** The recursion, on [attempts] of type [uint8]. *)
Fixpoint handle_errno (fuel : nat) (errNo attempts : Z) : comp state bool :=
  match fuel with
  | O => no_fuel
  | Datatypes.S fuel =>
      (if lost errNo then
         h ← member m_Mysql;
         match h with
         | Some h => library_ (mysql_close h);; update (set_Mysql None)
         | None => mret ()
         end
       else mret ());;
      if lost errNo || bool_decide (errNo = CR_CONN_HOST_ERROR) then
        update (set_reconnecting true);;
        lErrno ← Open;
        if decide (lErrno = 0) then
          ok ← PrepareStatements;
          if negb ok then abort
          else update (set_reconnecting false);; mret true
        else
          let attempts := u8 (attempts - 1) in
          if decide (attempts = 0) then abort
          else handle_errno fuel lErrno attempts
      else if bool_decide (errNo ∈ [ER_BAD_FIELD_ERROR; ER_NO_SUCH_TABLE; ER_PARSE_ERROR]) then abort
      else mret false
  end.
(** The number of attempts is at most 255. *)
Definition _HandleMySQLErrno (errNo attempts : Z) : comp state bool := handle_errno 256 errNo attempts.

Definition GetLastError : comp state Z :=
  h ← member m_Mysql;
  ask (mysql_errno h).

(** ** Statements without result *)

Fixpoint Execute (fuel : nat) (sql : bytes) : comp state bool :=
  match fuel with
  | O => no_fuel
  | Datatypes.S fuel =>
      h ← member m_Mysql;
      match h with
      | None => mret false
      | Some h =>
          ok ← library (mysql_query h sql);
          record (Text sql ok);;
          if (ok : bool) then mret true
          else
            lErrno ← ask (mysql_errno (Some h));
            handled ← _HandleMySQLErrno lErrno 5;
            if (handled : bool) then Execute fuel sql else mret false
      end
  end.

(** A call on the statement [index] of this connection. *)
Definition on_stmt {A} (index : Z) (m : comp PreparedStatement.MySQLPreparedStatement A) : comp state A := λ s,
  match zlookup (m_stmts (conn s)) index with
  | Some (Some (st, ps)) =>
      part (λ _, ps) (λ ps', with_conn (λ c, set_stmts (zinsert index (Some (st, ps')) (m_stmts c)) c)) m s
  | _ => UB
  end.

(** The part that [Execute] and [_Query] of a prepared statement share: bind,
    execute, and after a reconnection start again.  The statement of the new
    connection is fetched anew; where there is none the code has a null pointer. *)
Fixpoint run_stmt (fuel : nat) (stmt : PreparedStatement.PreparedStatementBase) : comp state (option S) :=
  match fuel with
  | O => no_fuel
  | Datatypes.S fuel =>
      h ← member m_Mysql;
      match h with
      | None => mret None
      | Some h =>
          let index := PreparedStatement.m_index stmt in
          m_mStmt ← GetPreparedStatement index;
          match m_mStmt with
          | None => abort
          | Some (st, _) =>
              on_stmt index (PreparedStatement.BindParameters stmt);;
              binds ← on_stmt index (get PreparedStatement.m_bind);
              ok ← library (mysql_stmt_bind_param st binds);
              if negb (ok : bool) then
                lErrno ← ask (mysql_errno (Some h));
                handled ← _HandleMySQLErrno lErrno 5;
                if (handled : bool) then run_stmt fuel stmt
                else on_stmt index PreparedStatement.ClearParameters;; mret None
              else
                ok ← library (mysql_stmt_execute st);
                record (Prepared index ok);;
                if negb (ok : bool) then
                  lErrno ← ask (mysql_errno (Some h));
                  handled ← _HandleMySQLErrno lErrno 5;
                  if (handled : bool) then run_stmt fuel stmt
                  else on_stmt index PreparedStatement.ClearParameters;; mret None
                else
                  on_stmt index PreparedStatement.ClearParameters;;
                  mret (Some st)
          end
      end
  end.
Definition Execute_stmt (fuel : nat) (stmt : PreparedStatement.PreparedStatementBase) : comp state bool :=
  r ← run_stmt fuel stmt;
  mret (if r : option S then true else false).

(** ** Queries *)

(** The result, the fields and the number of rows. *)
Fixpoint _Query (fuel : nat) (sql : bytes) : comp state (option (list ResultSet.MYSQL_ROW * list ResultSet.MYSQL_FIELD * Z)) :=
  match fuel with
  | O => no_fuel
  | Datatypes.S fuel =>
      h ← member m_Mysql;
      match h with
      | None => mret None
      | Some h =>
          ok ← library (mysql_query h sql);
          record (Text sql ok);;
          if negb (ok : bool) then
            lErrno ← ask (mysql_errno (Some h));
            handled ← _HandleMySQLErrno lErrno 5;
            if (handled : bool) then _Query fuel sql else mret None
          else
            pResult ← library (mysql_store_result h);
            pRowCount ← ask (mysql_affected_rows h);
            match pResult with
            | None => mret None
            | Some result =>
                if decide (pRowCount = 0) then mret None
                else
                  fields ← ask (mysql_fetch_fields h);
                  mret (Some (result, fields, pRowCount))
            end
      end
  end.
Definition Query (fuel : nat) (sql : option bytes) : comp state (option ResultSet.ResultSet) :=
  match sql with
  | None => mret None
  | Some sql =>
      r ← _Query fuel sql;
      mret ((λ r : list ResultSet.MYSQL_ROW * list ResultSet.MYSQL_FIELD * Z,
        ResultSet.construct (Some r.1.1) r.1.2 r.2) <$> r)
  end.

(** [junk]: what fresh memory holds. *)
Definition Query_stmt (junk : Z) (fuel : nat) (stmt : PreparedStatement.PreparedStatementBase) : comp state (option ResultSet.PreparedResultSet) :=
  r ← run_stmt fuel stmt;
  match r with
  | None => mret None
  | Some st =>
      a ← ask (mysql_stmt_result st);
      h ← handle;
      more ← ask (mysql_more_results h);
      (if (more : bool) then library_ (mysql_next_result h) else mret ());;
      match ResultSet.construct_prepared mysql_time_size junk (a_fields a) (a_store_ok a) (a_bind_ok a)
              (ResultSet.start (a_metadata a) (a_done a) (a_rows a) (a_num_rows a) (a_field_count a)) with
      | Returns _ r => mret (Some r)
      | Throws _ => throw
      | Aborts _ => abort
      | UB => ub
      | OutOfFuel => no_fuel
      end
  end.

(** ** Transactions *)

(** SQLOperation.h; a null pointer is [None]. *)
Inductive SQLElementData :=
  | SQL_ELEMENT_RAW (query : option bytes)
  | SQL_ELEMENT_PREPARED (stmt : option PreparedStatement.PreparedStatementBase).

(** Its results are not looked at. *)
Definition BeginTransaction (fuel : nat) : comp state unit := Execute fuel (text "START TRANSACTION");; mret ().
Definition RollbackTransaction (fuel : nat) : comp state unit := Execute fuel (text "ROLLBACK");; mret ().
Definition CommitTransaction (fuel : nat) : comp state unit := Execute fuel (text "COMMIT");; mret ().

Definition execute_element (fuel : nat) (data : SQLElementData) : comp state bool :=
  match data with
  | SQL_ELEMENT_PREPARED None | SQL_ELEMENT_RAW None => abort
  | SQL_ELEMENT_PREPARED (Some stmt) => Execute_stmt fuel stmt
  | SQL_ELEMENT_RAW (Some sql) => Execute fuel sql
  end.
Fixpoint execute_elements (fuel : nat) (queries : list SQLElementData) : comp state Z :=
  match queries with
  | [] => CommitTransaction fuel;; mret 0
  | data :: queries =>
      ok ← execute_element fuel data;
      if (ok : bool) then execute_elements fuel queries
      else
        errorCode ← GetLastError;
        RollbackTransaction fuel;;
        mret (i32 errorCode)
  end.
Definition ExecuteTransaction (fuel : nat) (queries : list SQLElementData) : comp state Z :=
  match queries with
  | [] => mret (-1)
  | _ => BeginTransaction fuel;; execute_elements fuel queries
  end.

Definition Ping : comp state unit := h ← member m_Mysql; library_ (mysql_ping h).
Definition GetServerVersion : comp state Z := h ← member m_Mysql; ask (mysql_get_server_version h).

(** [try_lock]: true when the mutex was free. *)
Definition LockIfReady : comp state bool :=
  b ← member m_Mutex;
  if (b : bool) then mret false else update (set_Mutex true);; mret true.
Definition Unlock : comp state unit :=
  b ← member m_Mutex;
  if (b : bool) then update (set_Mutex false) else ub.

(** ** Reconnection *)

Lemma library_bind {A B} (f : M → A * M) (k : A → comp state B) s :
  (library f ≫= k) s = k (f (lib s)).1 (State (conn s) (f (lib s)).2 (sent s)).
Proof. done. Qed.
Lemma library__bind {B} (f : M → M) (k : unit → comp state B) s :
  (library_ f ≫= k) s = k () (State (conn s) (f (lib s)) (sent s)).
Proof. done. Qed.
Lemma member_bind {A B} (f : MySQLConnection → A) (k : A → comp state B) s : (member f ≫= k) s = k (f (conn s)) s.
Proof. done. Qed.
Lemma update_bind {B} f (k : unit → comp state B) s : (update f ≫= k) s = k () (with_conn f s).
Proof. done. Qed.
Lemma ask_bind {A B} (f : M → A) (k : A → comp state B) s : (ask f ≫= k) s = k (f (lib s)) s.
Proof. done. Qed.
Lemma record_bind {B} m (k : unit → comp state B) s : (record m ≫= k) s = k () (State (conn s) (lib s) (sent s ++ [m])).
Proof. done. Qed.

(** Everything but the handle and the library. *)
Definition same_but_handle (c c' : MySQLConnection) : Prop :=
  m_reconnecting c' = m_reconnecting c ∧ m_prepareError c' = m_prepareError c ∧
  m_connectionFlags c' = m_connectionFlags c ∧ m_stmts c' = m_stmts c ∧ m_Mutex c' = m_Mutex c.

Section laws.
(** The library reports an error number when a connection fails. *)
Context (connect_errno : ∀ h i p u m, (mysql_real_connect h i p u m).1 = false →
  mysql_errno (Some h) (mysql_real_connect h i p u m).2 ≠ 0).

Lemma Open_spec s :
  ∃ e s', Open s = Returns e s' ∧ same_but_handle (conn s) (conn s') ∧
    ((e = 0 ∧ is_Some (m_Mysql (conn s')) ∧ sent s' = sent s ++ [Connect true]) ∨
     (e ≠ 0 ∧ m_Mysql (conn s') = None ∧ sent s' = sent s ++ [Connect false]) ∨
     (e = CR_UNKNOWN_ERROR ∧ m_Mysql (conn s') = m_Mysql (conn s) ∧ sent s' = sent s)).
Proof.
  unfold Open. rewrite library_bind. destruct (mysql_init (lib s)) as [[h|] m1]; cbn [fst snd].
  2:{ eexists _, _. split; [done|]. split; [done|]. right. right. done. }
  rewrite library__bind, member_bind. cbn [conn lib sent].
  assert (∀ B (k : Z * option bytes → comp state B) (s1 : state), ∃ to s2,
    ((if decide (host (m_connectionInfo (conn s)) = text ".")
      then library_ (mysql_options h (text "MYSQL_OPT_PROTOCOL"));;
           update (set_info (with_host (text "localhost") (m_connectionInfo (conn s))));;
           mret (0, Some (port_or_socket (m_connectionInfo (conn s))))
      else mret (atoi (port_or_socket (m_connectionInfo (conn s))), None)) ≫= k) s1 = k to s2 ∧
    same_but_handle (conn s1) (conn s2) ∧ m_Mysql (conn s2) = m_Mysql (conn s1) ∧ sent s2 = sent s1) as Hto.
  { intros B k s1. case_decide; eexists _, _; (split; [done|]); done. }
  edestruct Hto as (to & s2 & -> & Hs2 & Hh2 & Hsent2). clear Hto.
  assert (∀ B (k : unit → comp state B), ∃ s3,
    ((if decide (ssl (m_connectionInfo (conn s)) ≠ []) then library_ (mysql_options h (text "MYSQL_OPT_SSL_MODE")) else mret ()) ≫= k) s2 = k () s3 ∧
    conn s3 = conn s2 ∧ sent s3 = sent s2) as Hssl.
  { intros B k. case_decide; eexists; (split; [done|]); done. }
  edestruct Hssl as (s3 & -> & Hc3 & Hs3). clear Hssl.
  rewrite member_bind, library_bind, record_bind. cbn [conn lib sent].
  destruct (mysql_real_connect h _ _ _ (lib s3)) as [ok m4] eqn:Hconn. cbn [fst snd].
  pose proof (connect_errno h (m_connectionInfo (conn s3)) (fst to) (snd to) (lib s3)) as Herr. rewrite Hconn in Herr. cbn in Herr.
  destruct ok.
  - rewrite update_bind, !library__bind. eexists _, _. split; [done|]. cbn. rewrite Hc3, Hs3, Hsent2. split; [done|]. left. eauto.
  - rewrite update_bind, ask_bind, library__bind. eexists _, _. split; [done|]. cbn. rewrite Hc3, Hs3, Hsent2. split; [done|].
    right. left. auto.
Qed.

(** *** Preparing the statements again *)

Lemma set_stmt_spec index o s :
  0 ≤ index < zlength (m_stmts (conn s)) →
  ∃ m, set_stmt index o s = Returns () (State (set_stmts (zinsert index o (m_stmts (conn s))) (conn s)) m (sent s)).
Proof.
  intros Hi. unfold set_stmt. destruct (zlookup_lt_is_Some (m_stmts (conn s)) index Hi) as [old Hold].
  rewrite (getO_bind _ _ _ old) by exact Hold. rewrite library__bind. by eexists.
Qed.

(** The entry of [m_stmts] for the statement [sql] after it was prepared on the
    connection [h]: empty when the connection is not of a kind that uses it,
    else what the library made of [sql] on [h]. *)
Definition prepared_on (h : H) (cflags : Z) (sql : bytes) (flags : Z) (o : option (S * PreparedStatement.MySQLPreparedStatement)) : Prop :=
  if decide (Z.land cflags flags = 0) then o = None
  else ∃ m st, (mysql_stmt_init h m).1 = Some st ∧
    let r := mysql_stmt_prepare st sql (mysql_stmt_init h m).2 in
    r.1 = true ∧ o = Some (st, PreparedStatement.prepare (mysql_stmt_param_count st r.2) sql).

Lemma PrepareStatement_spec index sql flags s :
  0 ≤ index < zlength (m_stmts (conn s)) → is_Some (m_Mysql (conn s)) →
  ∃ s' : state, PrepareStatement index sql flags s = Returns () s' ∧ sent s' = sent s ∧ m_Mysql (conn s') = m_Mysql (conn s) ∧
    m_reconnecting (conn s') = m_reconnecting (conn s) ∧ m_Mutex (conn s') = m_Mutex (conn s) ∧
    m_connectionFlags (conn s') = m_connectionFlags (conn s) ∧
    zlength (m_stmts (conn s')) = zlength (m_stmts (conn s)) ∧
    (m_prepareError (conn s') = false → m_prepareError (conn s) = false ∧
      ∀ h, m_Mysql (conn s) = Some h → ∃ o, prepared_on h (m_connectionFlags (conn s)) sql flags o ∧
        m_stmts (conn s') = zinsert index o (m_stmts (conn s))).
Proof.
  intros Hi [h Hh]. unfold PrepareStatement, prepared_on. rewrite member_bind. case_decide.
  { destruct (set_stmt_spec index None s Hi) as [m Hrun]. eexists. split; [exact Hrun|]. cbn. rewrite zlength_insert. by eauto 12. }
  unfold handle. rewrite (getO_bind _ _ _ h) by exact Hh. rewrite library_bind.
  destruct (mysql_stmt_init h (lib s)) as [[st|] m1] eqn:Hinit; cbn [fst snd].
  - rewrite library_bind. cbn [lib conn sent]. destruct (mysql_stmt_prepare st sql m1) as [[] m2] eqn:Hprep; cbn [fst snd].
    + rewrite ask_bind. cbn [lib].
      destruct (set_stmt_spec index (Some (st, PreparedStatement.prepare (mysql_stmt_param_count st m2) sql)) (State (conn s) m2 (sent s)) Hi) as [m Hrun].
      eexists. split; [exact Hrun|]. cbn. rewrite zlength_insert. do 6 (split; [done|]). intros Hpe. split; [done|]. intros h' Hh'.
      assert (h' = h) as -> by congruence. eexists. split; [|done]. exists (lib s), st. rewrite Hinit. cbn. by rewrite Hprep.
    + rewrite library__bind. eexists. split; [done|]. done.
  - eexists. split; [done|]. done.
Qed.

Definition has_statements (s : state) : Prop := zlength (m_stmts (conn s)) = Z.of_nat MAX_SAKILADATABASE_STATEMENTS.
(** The open connection has exactly the statements of the database, each of
    them prepared on it. *)
Definition statements_prepared (s : state) : Prop :=
  ∃ h o_synch o_async, m_Mysql (conn s) = Some h ∧ m_stmts (conn s) = [o_synch; o_async] ∧
    prepared_on h (m_connectionFlags (conn s)) actor_info CONNECTION_SYNCH o_synch ∧
    prepared_on h (m_connectionFlags (conn s)) actor_info CONNECTION_ASYNC o_async.

Lemma PrepareStatements_spec s :
  has_statements s → is_Some (m_Mysql (conn s)) → m_reconnecting (conn s) = true →
  ∃ s' : state, PrepareStatements s = Returns (negb (m_prepareError (conn s'))) s' ∧ sent s' = sent s ∧ m_Mysql (conn s') = m_Mysql (conn s) ∧
    m_reconnecting (conn s') = true ∧ m_Mutex (conn s') = m_Mutex (conn s) ∧ has_statements s' ∧
    (m_prepareError (conn s') = false → statements_prepared s').
Proof.
  unfold has_statements. intros Hn Hh Hr. unfold PrepareStatements, DoPrepareStatements.
  destruct (PrepareStatement_spec SAKILA_SEL_ACTOR_INFO actor_info CONNECTION_SYNCH s) as (s1 & Hrun1 & Hs1 & Hh1 & Hr1 & Hm1 & Hf1 & Hn1 & Hp1);
    [rewrite Hn; by vm_compute|done|].
  destruct (PrepareStatement_spec SAKILA_SEL_ACTOR_INFO_ASYNC actor_info CONNECTION_ASYNC s1) as (s2 & Hrun2 & Hs2 & Hh2 & Hr2 & Hm2 & Hf2 & Hn2 & Hp2);
    [rewrite Hn1, Hn; by vm_compute|by rewrite Hh1|].
  exists s2. split.
  2:{ do 4 (split; [congruence|]). split; [congruence|]. intros Hpe. destruct (Hp2 Hpe) as [Hpe1 Ho2]. destruct (Hp1 Hpe1) as [_ Ho1]. destruct Hh as [h Hh].
    destruct (Ho1 h Hh) as (o1 & Hpo1 & Hl1). destruct (Ho2 h ltac:(congruence)) as (o2 & Hpo2 & Hl2). exists h, o1, o2. rewrite Hf2, Hf1. rewrite Hf1 in Hpo2.
    split; [congruence|]. split; [|done]. rewrite Hl2, Hl1. clear -Hn. destruct (m_stmts (conn s)) as [|x [|y [|z l]]]; [by vm_compute in Hn..|done|].
    exfalso. rewrite !zlength_cons in Hn. pose proof (zlength_nonneg l). change (Z.of_nat MAX_SAKILADATABASE_STATEMENTS) with 2 in Hn. lia. }
  rewrite (comp_bind_Returns _ _ s () s2).
  2:{ rewrite member_bind, Hr. rewrite (comp_bind_Returns _ _ s () s) by done. by rewrite (comp_bind_Returns _ _ _ _ _ Hrun1). }
  done.
Qed.

(** The errors after which the connection is made anew, and those that end the
    process. *)
Definition reconnects (errNo : Z) : bool := lost errNo || bool_decide (errNo = CR_CONN_HOST_ERROR).
Definition fatal (errNo : Z) : bool := bool_decide (errNo ∈ [ER_BAD_FIELD_ERROR; ER_NO_SUCH_TABLE; ER_PARSE_ERROR]).

Definition failures (k : nat) : list message := replicate k (Connect false).

(** How the treatment of an error ends, [n] attempts being left. *)
Definition handled (errNo n : Z) (s : state) (r : exit state bool) : Prop :=
  match r with
  | Returns true s' =>
      reconnects errNo = true ∧ is_Some (m_Mysql (conn s')) ∧ m_prepareError (conn s') = false ∧
      m_reconnecting (conn s') = false ∧ has_statements s' ∧ statements_prepared s' ∧ m_Mutex (conn s') = m_Mutex (conn s) ∧
      ∃ k, Z.of_nat k < n ∧ sent s' = sent s ++ failures k ++ [Connect true]
  | Returns false s' =>
      (reconnects errNo = false → s' = s) ∧ has_statements s' ∧ m_Mutex (conn s') = m_Mutex (conn s) ∧
      (reconnects errNo = true → m_reconnecting (conn s') = true) ∧
      (lost errNo = true ∨ m_Mysql (conn s) = None → m_Mysql (conn s') = None) ∧
      ∃ k, Z.of_nat k < n ∧ sent s' = sent s ++ failures k
  | Aborts s' =>
      ∃ k l, Z.of_nat k ≤ n ∧ sent s' = sent s ++ failures k ++ l ∧ (l = [] ∨ l = [Connect true] ∧ m_prepareError (conn s') = true)
  | _ => False
  end.

Lemma handle_errno_spec fuel e n s :
  has_statements s → 1 ≤ n ≤ 255 → n ≤ Z.of_nat fuel → handled e n s (handle_errno fuel e n s).
Proof.
  revert e n s. induction fuel as [|fuel IH]; intros e n s Hst Hn Hf; [lia|]. cbn [handle_errno]. fold (reconnects e) (fatal e).
  set (close := (if lost e then _ else _) : comp state unit).
  assert (∃ s1, close s = Returns () s1 ∧ has_statements s1 ∧ sent s1 = sent s ∧ m_Mutex (conn s1) = m_Mutex (conn s) ∧
    (lost e = true ∨ m_Mysql (conn s) = None → m_Mysql (conn s1) = None) ∧ (reconnects e = false → s1 = s)) as (s1 & Hclose & Hst1 & Hs1 & Hm1 & Hh1 & He1).
  { unfold close, reconnects. destruct (lost e); cbn [orb].
    - unfold mbind, comp_bind, member, get. destruct (m_Mysql (conn s)) as [h|] eqn:Hh.
      + exists (State (set_Mysql None (conn s)) (mysql_close h (lib s)) (sent s)). do 4 (split; [done|]). by split.
      + exists s. do 4 (split; [done|]). by split.
    - exists s. do 4 (split; [done|]). split; [|done]. by intros [?|?]. }
  rewrite (comp_bind_Returns _ _ _ _ _ Hclose). clear Hclose close.
  destruct (reconnects e) eqn:Hre.
  2:{ specialize (He1 eq_refl). subst s1. destruct (fatal e).
      - exists 0%nat, []. cbn. rewrite app_nil_r. split; [lia|]. auto.
      - cbn. rewrite Hre. repeat (split; [done|]). exists 0%nat. rewrite app_nil_r. split; [lia|done]. }
  clear He1. rewrite update_bind.
  destruct (Open_spec (with_conn (set_reconnecting true) s1)) as (lErrno & s2 & Hopen & (Hr2 & _ & _ & Hst2 & Hm2) & Hres).
  rewrite (comp_bind_Returns _ _ _ _ _ Hopen). cbn in Hr2, Hst2, Hm2, Hres.
  assert (has_statements s2) as Hst2' by (unfold has_statements in *; by rewrite Hst2).
  case_decide as Hl.
  - destruct Hres as [(_ & Hh2 & Hs2)|[[? _]|[? _]]]; [|done|exfalso; unfold CR_UNKNOWN_ERROR in *; lia].
    destruct (PrepareStatements_spec s2 Hst2' Hh2 Hr2) as (s3 & Hrun & Hs3 & Hh3 & Hr3 & Hm3 & Hst3 & Hpr3).
    rewrite (comp_bind_Returns _ _ _ _ _ Hrun). destruct (m_prepareError (conn s3)) eqn:Hpe; cbn [negb].
    + exists 0%nat, [Connect true]. cbn. rewrite Hs3, Hs2, Hs1. split; [lia|]. auto.
    + rewrite update_bind. cbn. rewrite Hre, Hh3, Hm3, Hm2, Hs3, Hs2, Hs1. do 5 (split; [done|]). split; [by apply Hpr3|]. split; [done|]. exists 0%nat. split; [lia|done].
  - destruct (decide (n = 1)) as [->|Hn1].
    { change (u8 (1 - 1)) with 0. rewrite decide_True by done. destruct Hres as [[? _]|[(_ & _ & Hs2)|(_ & _ & Hs2)]]; [done|..].
      - exists 1%nat, []. cbn. rewrite Hs2, Hs1. split; [lia|]. auto.
      - exists 0%nat, []. cbn. rewrite Hs2, Hs1, app_nil_r. split; [lia|]. auto. }
    assert (u8 (n - 1) = n - 1) as -> by (apply wrap_small; lia). rewrite decide_False by lia.
    pose proof (IH lErrno (n - 1) s2 Hst2' ltac:(lia) ltac:(lia)) as Hrec.
    assert (∃ j, Z.of_nat j ≤ 1 ∧ sent s2 = sent s ++ failures j) as (j & Hj & Hs2).
    { destruct Hres as [[? _]|[(_ & _ & Hs2)|(_ & _ & Hs2)]]; [done|exists 1%nat|exists 0%nat]; cbn; rewrite Hs2, Hs1; rewrite ?app_nil_r; (split; [lia|done]). }
    unfold handled in *. destruct (handle_errno fuel lErrno (n - 1) s2) as [[] s3| |s3| |]; try done.
    + destruct Hrec as (_ & Hh3 & Hpe & Hr3 & Hst3 & Hpr3 & Hm3 & k & Hk & Hs3). rewrite Hs3, Hs2, Hm3, Hm2. cbn. rewrite Hm1.
      repeat (split; [done|]). exists (j + k)%nat. unfold failures. rewrite replicate_add, <-!app_assoc. split; [lia|done].
    + destruct Hrec as (Hsame & Hst3 & Hm3 & Hr3 & Hh3 & k & Hk & Hs3). split; [by rewrite Hre|]. split; [done|]. split; [by rewrite Hm3, Hm2, <-Hm1|].
      split.
      { intros _. destruct (reconnects lErrno) eqn:Hrl; [by apply Hr3|]. by rewrite (Hsame eq_refl). }
      split.
      { intros Hor. apply Hh3. destruct Hres as [[? _]|[(_ & -> & _)|(_ & -> & _)]]; [done|by right|]. right. cbn. by apply Hh1. }
      exists (j + k)%nat. unfold failures. rewrite replicate_add, Hs3, Hs2, <-!app_assoc. split; [lia|done].
    + destruct Hrec as (k & l & Hk & Hs3 & Hl3). exists (j + k)%nat, l. unfold failures. rewrite replicate_add, Hs3, Hs2, <-!app_assoc. split; [lia|done].
Qed.

(** C12: The treatment of an error always ends, after at most as many failing
    connections as there are attempts.  It answers true only for a lost
    connection, and then the connection is open again, each of the two
    statements is what the library made of its text on the new handle (or empty
    where the connection is not of the kind that uses it), and no error is
    pending; for any other error it ends the process
    or changes nothing.  A lost connection that could not be made again for an
    error of another kind is left closed. *)
Theorem _HandleMySQLErrno_spec e n s :
  has_statements s → 1 ≤ n ≤ 255 → handled e n s (_HandleMySQLErrno e n s).
Proof. intros Hst Hn. apply handle_errno_spec; [done|done|lia]. Qed.
End laws.

(** ** Transactions *)

Lemma handle_errno_other fuel e n s :
  reconnects e = false → handle_errno (Datatypes.S fuel) e n s = if fatal e then Aborts s else Returns false s.
Proof.
  unfold reconnects. intros He%orb_false_iff. destruct He as [Hl Hh]. cbn [handle_errno]. rewrite Hl, Hh. cbn [orb].
  rewrite (comp_bind_Returns _ _ s () s) by done. fold (fatal e). by destruct (fatal e).
Qed.

Section steady.
(** The connection holds: no error of a statement is that of a lost connection. *)
Context (query_errno : ∀ h q m, (mysql_query h q m).1 = false → reconnects (mysql_errno (Some h) (mysql_query h q m).2) = false).
Context (bind_errno : ∀ h st b m, (mysql_stmt_bind_param st b m).1 = false → reconnects (mysql_errno (Some h) (mysql_stmt_bind_param st b m).2) = false).
Context (execute_errno : ∀ h st m, (mysql_stmt_execute st m).1 = false → reconnects (mysql_errno (Some h) (mysql_stmt_execute st m).2) = false).

Lemma Execute_steady fuel sql s h :
  m_Mysql (conn s) = Some h →
  let r := mysql_query h sql (lib s) in
  let s' := State (conn s) r.2 (sent s ++ [Text sql r.1]) in
  Execute (Datatypes.S fuel) sql s =
    if r.1 then Returns true s' else if fatal (mysql_errno (Some h) r.2) then Aborts s' else Returns false s'.
Proof.
  intros Hh. cbn zeta. cbn [Execute]. rewrite member_bind, Hh, library_bind, record_bind. cbn [conn lib sent].
  pose proof (query_errno h sql (lib s)) as He. destruct (mysql_query h sql (lib s)) as [[] m']; cbn [fst snd] in *; [done|].
  rewrite ask_bind. cbn [lib]. unfold _HandleMySQLErrno, mbind, comp_bind. rewrite handle_errno_other by auto.
  by destruct (fatal _).
Qed.

(** The bindings of every statement are as long as it has parameters. *)
Definition stmts_ok (s : state) : Prop :=
  ∀ i st ps, zlookup (m_stmts (conn s)) i = Some (Some (st, ps)) → PreparedStatement.wf ps.
Definition connected (s : state) : Prop := is_Some (m_Mysql (conn s)) ∧ stmts_ok s.

Definition valid_element (data : SQLElementData) : Prop :=
  match data with
  | SQL_ELEMENT_PREPARED (Some stmt) => zlength (PreparedStatement.statement_data stmt) ≤ 255 ∧ 0 ≤ PreparedStatement.m_index stmt
  | _ => True
  end.
(** What is sent for an element. *)
Definition message_of (ok : bool) (data : SQLElementData) : message :=
  match data with
  | SQL_ELEMENT_RAW sql => Text (default [] sql) ok
  | SQL_ELEMENT_PREPARED stmt => Prepared (default 0 (PreparedStatement.m_index <$> stmt)) ok
  end.

(** How an element ends: nothing or its message with the failure is sent when it fails. *)
Definition element_ends (data : SQLElementData) (s : state) (r : exit state bool) : Prop :=
  match r with
  | Returns b s' => connected s' ∧
      if b then sent s' = sent s ++ [message_of true data]
      else ∃ l, (l = [] ∨ l = [message_of false data]) ∧ sent s' = sent s ++ l
  | Aborts s' => ∃ l, (l = [] ∨ l = [message_of false data]) ∧ sent s' = sent s ++ l
  | _ => False
  end.

Lemma stmts_ok_insert i st ps s :
  PreparedStatement.wf ps → stmts_ok s → stmts_ok (with_conn (λ c, set_stmts (zinsert i (Some (st, ps)) (m_stmts c)) c) s).
Proof.
  intros Hps Hs j st' ps'. cbn. destruct (decide (j = i)) as [->|Hne].
  - intros Hj. pose proof (zlookup_lt_Some _ _ _ Hj) as Hlt. rewrite zlength_insert in Hlt. rewrite zlookup_insert_eq in Hj by done.
    by simplify_eq.
  - rewrite zlookup_insert_ne by done. apply Hs.
Qed.

Lemma wf_clear ps : PreparedStatement.wf ps → ∃ ps', PreparedStatement.ClearParameters ps = Returns () ps' ∧ PreparedStatement.wf ps'.
Proof.
  intros [H1 H2]. eexists. split; [done|]. unfold PreparedStatement.wf. cbn. by rewrite !zlength_fmap.
Qed.

Lemma on_stmt_eq {A} i (m : comp PreparedStatement.MySQLPreparedStatement A) st ps s :
  zlookup (m_stmts (conn s)) i = Some (Some (st, ps)) →
  on_stmt i m s = part (λ _ : state, ps) (λ ps', with_conn (λ c, set_stmts (zinsert i (Some (st, ps')) (m_stmts c)) c)) m s.
Proof. intros Hi. unfold on_stmt. by rewrite Hi. Qed.

(** Clearing the parameters of the statement that was bound. *)
Lemma clear_spec i st ps s :
  zlookup (m_stmts (conn s)) i = Some (Some (st, ps)) → PreparedStatement.wf ps → connected s →
  ∃ s' : state, on_stmt i PreparedStatement.ClearParameters s = Returns () s' ∧ connected s' ∧ sent s' = sent s.
Proof.
  intros Hi Hps [Hh Hok]. destruct (wf_clear ps Hps) as (ps' & Hrun & Hps'). unfold on_stmt. rewrite Hi. unfold part. rewrite Hrun.
  eexists. split; [done|]. split; [|done]. split; [done|]. by apply stmts_ok_insert.
Qed.

Lemma GetPreparedStatement_eq i o s :
  i < zlength (m_stmts (conn s)) → zlookup (m_stmts (conn s)) i = Some o → GetPreparedStatement i s = Returns o s.
Proof.
  intros Hlt Hi. unfold GetPreparedStatement. rewrite member_bind, assert_bind by by apply bool_decide_true.
  unfold getO. by rewrite Hi.
Qed.

Lemma run_stmt_steady fuel stmt s :
  connected s → zlength (PreparedStatement.statement_data stmt) ≤ 255 → 0 ≤ PreparedStatement.m_index stmt →
  match run_stmt (Datatypes.S fuel) stmt s with
  | Returns o s' => connected s' ∧
      if o then sent s' = sent s ++ [Prepared (PreparedStatement.m_index stmt) true]
      else ∃ l, (l = [] ∨ l = [Prepared (PreparedStatement.m_index stmt) false]) ∧ sent s' = sent s ++ l
  | Aborts s' => ∃ l, (l = [] ∨ l = [Prepared (PreparedStatement.m_index stmt) false]) ∧ sent s' = sent s ++ l
  | _ => False
  end.
Proof.
  intros [[h Hh] Hok] Hlen Hidx. cbn [run_stmt]. rewrite member_bind, Hh. set (i := PreparedStatement.m_index stmt) in *.
  destruct (decide (i < zlength (m_stmts (conn s)))) as [Hlt|Hge].
  2:{ unfold mbind at 1, comp_bind, GetPreparedStatement. rewrite member_bind. rewrite bool_decide_false by done.
      cbn. exists []. rewrite app_nil_r. auto. }
  destruct (zlookup_lt_is_Some (m_stmts (conn s)) i ltac:(lia)) as [[[st ps]|] Hi].
  2:{ rewrite (comp_bind_Returns _ _ s None s).
      2:{ by apply GetPreparedStatement_eq. }
      cbn. exists []. rewrite app_nil_r. auto. }
  rewrite (comp_bind_Returns _ _ s (Some (st, ps)) s).
  2:{ by apply GetPreparedStatement_eq. }
  pose proof (PreparedStatement.BindParameters_total stmt ps (Hok _ _ _ Hi) Hlen) as Hbind.
  unfold mbind at 1, comp_bind. rewrite (on_stmt_eq i _ st ps s Hi). unfold part.
  destruct (PreparedStatement.BindParameters stmt ps) as [[] ps'| |ps'| |]; try done.
  2:{ exists []. rewrite app_nil_r. auto. }
  set (s1 := with_conn (λ c, set_stmts (zinsert i (Some (st, ps')) (m_stmts c)) c) s).
  assert (connected s1) as Hc1 by (split; [by exists h|by apply stmts_ok_insert]).
  assert (zlookup (m_stmts (conn s1)) i = Some (Some (st, ps'))) as Hi1 by (cbn; apply zlookup_insert_eq; lia).
  assert (sent s1 = sent s) as Hs1 by done.
  rewrite (comp_bind_Returns _ _ s1 (PreparedStatement.m_bind ps') s1).
  2:{ rewrite (on_stmt_eq i _ st ps' s1 Hi1). unfold part, get. f_equal. unfold s1, with_conn, set_stmts. cbn. f_equal. f_equal.
      unfold zinsert. case_decide; [|done]. by rewrite list_insert_insert_eq. }
  rewrite library_bind. pose proof (bind_errno h st (PreparedStatement.m_bind ps') (lib s1)) as Hbe.
  destruct (mysql_stmt_bind_param st (PreparedStatement.m_bind ps') (lib s1)) as [ok m2]; cbn [fst snd] in *.
  set (s2 := State (conn s1) m2 (sent s1)). assert (connected s2) as Hc2 by exact Hc1.
  destruct ok; cbn [negb].
  - rewrite library_bind, record_bind. change (lib s2) with m2. cbn [lib conn sent].
    pose proof (execute_errno h st m2) as Hee. destruct (mysql_stmt_execute st m2) as [ok m3]; cbn [fst snd] in *.
    set (s3 := State (conn s2) m3 (sent s2 ++ [Prepared i ok])). assert (connected s3) as Hc3 by exact Hc1.
    destruct (clear_spec i st ps' s3 Hi1 Hbind Hc3) as (s4 & Hclear & Hc4 & Hs4).
    destruct ok; cbn [negb].
    + rewrite (comp_bind_Returns _ _ _ _ _ Hclear). cbn. split; [done|]. by rewrite Hs4.
    + rewrite ask_bind. cbn [lib s3]. unfold _HandleMySQLErrno. unfold mbind at 1, comp_bind. rewrite handle_errno_other by auto.
      destruct (fatal _); [exists [Prepared i false]; auto|].
      rewrite (comp_bind_Returns _ _ _ _ _ Hclear). cbn. split; [done|]. exists [Prepared i false]. by rewrite Hs4; auto.
  - rewrite ask_bind. cbn [lib s2]. unfold _HandleMySQLErrno. unfold mbind at 1, comp_bind. rewrite handle_errno_other by auto.
    destruct (clear_spec i st ps' s2 Hi1 Hbind Hc2) as (s4 & Hclear & Hc4 & Hs4).
    destruct (fatal _); [exists []; rewrite app_nil_r; auto|].
    rewrite (comp_bind_Returns _ _ _ _ _ Hclear). cbn. split; [done|]. exists []. rewrite app_nil_r. by rewrite Hs4; auto.
Qed.

Lemma execute_element_steady fuel data s :
  connected s → valid_element data → element_ends data s (execute_element (Datatypes.S fuel) data s).
Proof.
  intros Hc Hv. destruct data as [[sql|]|[stmt|]]; cbn [execute_element].
  - destruct Hc as [[h Hh] Hok]. rewrite (Execute_steady fuel sql s h Hh).
    destruct (mysql_query h sql (lib s)) as [[] m]; cbn [fst snd]; cbn.
    + split; [|done]. by split; [exists h|].
    + destruct (fatal _); cbn; [by eauto|]. split; [by split; [exists h|]|]. by eauto.
  - cbn. exists []. rewrite app_nil_r. auto.
  - destruct Hv as [Hlen Hidx]. pose proof (run_stmt_steady fuel stmt s Hc Hlen Hidx) as Hrun.
    unfold Execute_stmt, mbind, comp_bind. by destruct (run_stmt (Datatypes.S fuel) stmt s) as [[st|] s'| |s'| |].
  - cbn. exists []. rewrite app_nil_r. auto.
Qed.

Definition START : bytes := text "START TRANSACTION".
Definition COMMIT : bytes := text "COMMIT".
Definition ROLLBACK : bytes := text "ROLLBACK".

(** A prefix of the elements is sent with success, and then what the failing
    one sends. *)
Definition stopped_at (queries : list SQLElementData) (l : list message) : Prop :=
  ∃ before data after l', queries = before ++ data :: after ∧
    l = (message_of true <$> before) ++ l' ∧ (l' = [] ∨ l' = [message_of false data]).

(** What is sent for a transaction that ends with this result. *)
Definition transaction_ends (queries : list SQLElementData) (r : exit state Z) (out : list message → Prop) : Prop :=
  match r with
  | Returns r _ =>
      (r = 0 ∧ ∃ b, out ((message_of true <$> queries) ++ [Text COMMIT b])) ∨
      (∃ l b, stopped_at queries l ∧ out (l ++ [Text ROLLBACK b]))
  | Aborts _ =>
      out ((message_of true <$> queries) ++ [Text COMMIT false]) ∨
      (∃ l, stopped_at queries l ∧ (out l ∨ out (l ++ [Text ROLLBACK false])))
  | _ => False
  end.
Definition last_state {A} (r : exit state A) (d : state) : state := default d (final r).

Lemma simple_steady fuel sql s :
  connected s →
  match (Execute (Datatypes.S fuel) sql;; mret ()) s with
  | Returns _ s' => connected s' ∧ ∃ b, sent s' = sent s ++ [Text sql b]
  | Aborts s' => sent s' = sent s ++ [Text sql false]
  | _ => False
  end.
Proof.
  intros [[h Hh] Hok]. unfold mbind, comp_bind. rewrite (Execute_steady fuel sql s h Hh).
  destruct (mysql_query h sql (lib s)) as [[] m]; cbn [fst snd]; cbn; [|destruct (fatal _); cbn; [done|]];
    (split; [by split; [exists h|]|by eexists]).
Qed.

Lemma stopped_at_cons data queries l :
  stopped_at queries l → stopped_at (data :: queries) (message_of true data :: l).
Proof. intros (before & d & after & l' & -> & -> & Hl). by exists (data :: before), d, after, l'. Qed.

Lemma stopped_at_here data queries l :
  l = [] ∨ l = [message_of false data] → stopped_at (data :: queries) l.
Proof. intros Hl. by exists [], data, queries, l. Qed.

Lemma execute_elements_steady fuel queries s :
  connected s → Forall valid_element queries →
  ∀ r, execute_elements (Datatypes.S fuel) queries s = r →
  transaction_ends queries r (λ l, sent (last_state r s) = sent s ++ l).
Proof.
  intros Hc Hv. revert s Hc. induction Hv as [|data queries Hd Hv IH]; intros s Hc r; cbn [execute_elements].
  - pose proof (simple_steady fuel COMMIT s Hc) as Hrun. change (Execute _ COMMIT;; mret ()) with (CommitTransaction (Datatypes.S fuel)) in Hrun.
    unfold mbind, comp_bind. intros <-. destruct (CommitTransaction (Datatypes.S fuel) s) as [u s'| |s'| |]; [|done| |done..]; cbn -[CommitTransaction COMMIT].
    + left. split; [done|]. by apply Hrun.
    + by left.
  - pose proof (execute_element_steady fuel data s Hc Hd) as Hrun. unfold element_ends in Hrun.
    unfold mbind at 1, comp_bind. destruct (execute_element (Datatypes.S fuel) data s) as [[] s1| |s1| |]; [| |done| |done..].
    + destruct Hrun as [Hc1 Hs1]. intros Hr. specialize (IH s1 Hc1 r Hr). unfold transaction_ends, last_state in *.
      destruct r as [r s2| |s2| |]; [|done| |done..]; cbn [default final from_option id] in *.
      all: rewrite Hs1 in IH; setoid_rewrite <-app_assoc in IH.
      * destruct IH as [[-> [b Hb]]|(l & b & Hl & Hb)]; [left; split; [done|]; by exists b|]. right. eexists _, b. split; [by apply stopped_at_cons|done].
      * destruct IH as [?|(l & Hl & Hb)]; [by left|]. right. eexists. split; [by apply stopped_at_cons|done].
    + destruct Hrun as [Hc1 (l & Hl & Hs1)]. unfold GetLastError at 1. rewrite (comp_bind_Returns _ _ s1 (mysql_errno (m_Mysql (conn s1)) (lib s1)) s1) by done.
      pose proof (simple_steady fuel ROLLBACK s1 Hc1) as Hroll. change (Execute _ ROLLBACK;; mret ()) with (RollbackTransaction (Datatypes.S fuel)) in Hroll.
      unfold mbind, comp_bind. intros <-. destruct (RollbackTransaction (Datatypes.S fuel) s1) as [u s2| |s2| |]; [|done| |done..]; unfold transaction_ends, last_state; cbn [default final from_option id mret comp_ret].
      * destruct Hroll as [_ [b Hb]]. right. exists l, b. split; [by apply stopped_at_here|]. by rewrite Hb, Hs1, <-!app_assoc.
      * right. exists l. split; [by apply stopped_at_here|]. right. by rewrite Hroll, Hs1, <-!app_assoc.
    + destruct Hrun as (l & Hl & Hs1). intros <-. right. exists l. split; [by apply stopped_at_here|]. by left.
Qed.

(** C13: While the connection holds, a transaction always ends.  It sends START
    TRANSACTION, the queries in order, and COMMIT exactly when every query
    succeeded, the result being then 0; at the first query that fails it stops
    and sends ROLLBACK.  Where an error ends the process no COMMIT that
    succeeded was sent after a query that failed.  The answers to START
    TRANSACTION, COMMIT and ROLLBACK themselves are not looked at. *)
Theorem ExecuteTransaction_spec fuel queries s :
  queries ≠ [] → connected s → Forall valid_element queries →
  ∀ r, ExecuteTransaction (Datatypes.S fuel) queries s = r →
  (∃ b, transaction_ends queries r (λ l, sent (last_state r s) = sent s ++ Text START b :: l)) ∨
  r = Aborts (last_state r s) ∧ sent (last_state r s) = sent s ++ [Text START false].
Proof.
  intros Hne Hc Hv r. unfold ExecuteTransaction. destruct queries as [|data queries]; [done|].
  pose proof (simple_steady fuel START s Hc) as Hrun. change (Execute _ START;; mret ()) with (BeginTransaction (Datatypes.S fuel)) in Hrun.
  unfold mbind at 1, comp_bind. destruct (BeginTransaction (Datatypes.S fuel) s) as [u s1| |s1| |]; [|done| |done..].
  2:{ intros <-. by right. }
  destruct Hrun as (Hc1 & b & Hs1). intros Hr. left. exists b.
  pose proof (execute_elements_steady fuel (data :: queries) s1 Hc1 Hv r Hr) as Hend. unfold transaction_ends, last_state in *.
  destruct r as [r s2| |s2| |]; cbn [default final from_option id] in *; [|done| |done..].
  all: rewrite Hs1 in Hend; setoid_rewrite <-app_assoc in Hend; exact Hend.
Qed.
End steady.

(** ** What depends on the state of the connection *)

(** Once closed by an error of another kind, a connection answers nothing and
    is never opened again: every statement returns before it is sent, and
    [Ping] does not reconnect. *)
Lemma closed_connection fuel sql stmt s :
  m_Mysql (conn s) = None →
  Execute (Datatypes.S fuel) sql s = Returns false s ∧
  _Query (Datatypes.S fuel) sql s = Returns None s ∧
  Execute_stmt (Datatypes.S fuel) stmt s = Returns false s ∧
  Query_stmt 0 (Datatypes.S fuel) stmt s = Returns None s.
Proof.
  intros Hh. unfold Execute_stmt, Query_stmt. cbn [Execute _Query run_stmt]. unfold mbind, comp_bind, member, get. by rewrite Hh.
Qed.

(** In a closed connection the transaction is not sent, and reported as failed
    with the error number that the library has without a connection. *)
Lemma closed_transaction fuel sql queries s :
  m_Mysql (conn s) = None →
  ExecuteTransaction (Datatypes.S fuel) (SQL_ELEMENT_RAW (Some sql) :: queries) s = Returns (i32 (mysql_errno None (lib s))) s.
Proof.
  intros Hh. cbn [ExecuteTransaction]. unfold BeginTransaction. destruct (closed_connection fuel (text "START TRANSACTION") (PreparedStatement.Statement 0 []) s Hh) as [Hrun _].
  rewrite (comp_bind_Returns _ _ s () s).
  2:{ by rewrite (comp_bind_Returns _ _ _ _ _ Hrun). }
  cbn [execute_elements execute_element]. destruct (closed_connection fuel sql (PreparedStatement.Statement 0 []) s Hh) as [Hrun2 _].
  rewrite (comp_bind_Returns _ _ _ _ _ Hrun2). unfold GetLastError, RollbackTransaction.
  rewrite (comp_bind_Returns _ _ s (mysql_errno None (lib s)) s).
  2:{ unfold member, ask, get, mbind, comp_bind. by rewrite Hh. }
  destruct (closed_connection fuel (text "ROLLBACK") (PreparedStatement.Statement 0 []) s Hh) as [Hrun3 _].
  rewrite (comp_bind_Returns _ _ s () s); [done|]. by rewrite (comp_bind_Returns _ _ _ _ _ Hrun3).
Qed.

(** ** What a query sends *)

Definition sent_after (l : list message) (s : state) : Prop := l `prefix_of` sent s.
Lemma sends_library {A} l (f : M → A * M) : keeps (sent_after l) (library f).
Proof. intros s s' Hs. cbn. by intros [= <-]. Qed.
Lemma sends_library_ l (f : M → M) : keeps (sent_after l) (library_ f).
Proof. by apply keeps_modify. Qed.
Lemma sends_update l f : keeps (sent_after l) (update f).
Proof. by apply keeps_modify. Qed.
Lemma sends_record l m : keeps (sent_after l) (record m).
Proof. apply keeps_modify. intros s Hs. unfold sent_after. cbn. by apply prefix_app_r. Qed.
Ltac sends := repeat first
  [ apply sends_update | apply sends_record | apply keeps_get | apply keeps_getO | apply keeps_ret | apply keeps_abort
  | apply keeps_no_fuel | apply sends_library | apply sends_library_
  | apply keeps_bind; [|intros ?] | case_decide | case_match ].
Lemma sends_handle_errno l fuel e k : keeps (sent_after l) (handle_errno fuel e k).
Proof.
  revert e k. induction fuel as [|fuel IH]; intros e k; cbn [handle_errno]; [apply keeps_no_fuel|].
  unfold PrepareStatements, DoPrepareStatements, PrepareStatement, set_stmt, Open.
  repeat first [apply IH | progress sends].
Qed.

(** A query on an open connection sends its text; when it has a result, the
    last thing sent is the text, with success. *)
Definition query_sent (sql : bytes) (s : state) (result : bool) (s' : state) : Prop :=
  ∃ l, sent s' = sent s ++ l ∧ (is_Some (m_Mysql (conn s)) → ∃ ok l', l = Text sql ok :: l') ∧
    (result = true → last l = Some (Text sql true)).
Lemma _Query_sends fuel sql s r s' : _Query fuel sql s = Returns r s' → query_sent sql s (if r then true else false) s'.
Proof.
  revert s. induction fuel as [|fuel IH]; intros s; cbn [_Query]; [done|]. rewrite member_bind.
  destruct (m_Mysql (conn s)) as [h|] eqn:Hh.
  2:{ intros [= <- <-]. exists []. rewrite app_nil_r, Hh. split; [done|]. split; [by intros [? [=]]|done]. }
  rewrite library_bind, record_bind. cbn [lib conn sent]. destruct (mysql_query h sql (lib s)) as [[] m1]; cbn [fst snd negb].
  - rewrite library_bind, ask_bind. cbn [lib conn sent]. intros Hrun.
    assert (sent s' = sent s ++ [Text sql true]) as Hs'.
    { destruct (mysql_store_result h m1) as [[rows|] m2]; cbn [fst snd] in Hrun; [|by injection Hrun as _ <-].
      revert Hrun. case_decide; [by intros [= _ <-]|]. rewrite ask_bind. by intros [= _ <-]. }
    exists [Text sql true]. split; [done|]. split; [|done]. intros _. by exists true, [].
  - rewrite ask_bind. cbn [lib]. set (s1 := State (conn s) m1 _). intros (handled & s2 & Hhe & Hrest)%comp_bind_inv.
    unfold _HandleMySQLErrno in Hhe.
    assert (sent_after (sent s1) s2) as [l1 Hl1] by (apply (sends_handle_errno (sent s1) 256 (mysql_errno (Some h) m1) 5 s1); [by exists []; rewrite app_nil_r|by rewrite Hhe]).
    destruct handled; cbn in Hrest.
    + destruct (IH s2 Hrest) as (l2 & Hl2 & _ & Hlast). exists (Text sql false :: l1 ++ l2). rewrite Hl2, Hl1. cbn. rewrite <-!app_assoc. split; [done|].
      split; [by eauto|]. intros Hr. specialize (Hlast Hr). destruct l2 as [|x l2] using rev_ind; [done|]. rewrite last_snoc in Hlast.
      by rewrite app_comm_cons, app_assoc, last_snoc.
    + injection Hrest as <- <-. exists (Text sql false :: l1). rewrite Hl1. cbn. rewrite <-app_assoc. split; [done|]. split; [by eauto|done].
Qed.
Lemma Query_sends fuel sql s r s' : Query fuel (Some sql) s = Returns r s' → query_sent sql s (if r then true else false) s'.
Proof. intros (r0 & s1 & Hrun & [= <- <-])%comp_bind_inv. apply _Query_sends in Hrun. by destruct r0. Qed.

Section budget.
(** A server that can lose the connection only finitely often from here on:
    [losses] is a bound that no call raises, and that every query failing with
    a lost connection lowers. *)
Context (losses : M → nat) (connect_errno : ∀ h i p u m, (mysql_real_connect h i p u m).1 = false →
  mysql_errno (Some h) (mysql_real_connect h i p u m).2 ≠ 0).
Context (l_init : ∀ m, (losses (mysql_init m).2 ≤ losses m)%nat) (l_options : ∀ h o m, (losses (mysql_options h o m) ≤ losses m)%nat).
Context (l_connect : ∀ h i p u m, (losses (mysql_real_connect h i p u m).2 ≤ losses m)%nat).
Context (l_autocommit : ∀ h m, (losses (mysql_autocommit h m) ≤ losses m)%nat) (l_charset : ∀ h m, (losses (mysql_set_character_set h m) ≤ losses m)%nat).
Context (l_close : ∀ h m, (losses (mysql_close h m) ≤ losses m)%nat) (l_stmt_init : ∀ h m, (losses (mysql_stmt_init h m).2 ≤ losses m)%nat).
Context (l_stmt_prepare : ∀ st q m, (losses (mysql_stmt_prepare st q m).2 ≤ losses m)%nat) (l_stmt_close : ∀ st m, (losses (mysql_stmt_close st m) ≤ losses m)%nat).
Context (l_query : ∀ h q m, (mysql_query h q m).1 = false → reconnects (mysql_errno (Some h) (mysql_query h q m).2) = true →
  (losses (mysql_query h q m).2 < losses m)%nat).

Definition at_most (n : nat) (s : state) : Prop := (losses (lib s) ≤ n)%nat.

Lemma keeps_library {A} n (f : M → A * M) : (∀ m, (losses (f m).2 ≤ losses m)%nat) → keeps (at_most n) (library f).
Proof. intros Hf s s' Hs. cbn. intros [= <-]. unfold at_most in *. cbn. specialize (Hf (lib s)). lia. Qed.
Lemma keeps_library_ n (f : M → M) : (∀ m, (losses (f m) ≤ losses m)%nat) → keeps (at_most n) (library_ f).
Proof. intros Hf. apply keeps_modify. unfold at_most. cbn. intros s Hs. specialize (Hf (lib s)). lia. Qed.
Lemma keeps_update n f : keeps (at_most n) (update f).
Proof. by apply keeps_modify. Qed.
Lemma keeps_record n m : keeps (at_most n) (record m).
Proof. by apply keeps_modify. Qed.

Ltac keep := repeat first
  [ apply keeps_update | apply keeps_record | apply keeps_get | apply keeps_getO | apply keeps_ret | apply keeps_abort
  | apply keeps_no_fuel | apply keeps_library; solve [auto] | apply keeps_library_; solve [auto]
  | apply keeps_bind; [|intros ?] | case_decide | case_match ].

Lemma keeps_Open n : keeps (at_most n) Open.
Proof. unfold Open. keep. Qed.
Lemma keeps_PrepareStatement n i q f : keeps (at_most n) (PrepareStatement i q f).
Proof. unfold PrepareStatement, set_stmt. keep; apply keeps_library_; intros m; cbn; auto. Qed.
Lemma keeps_handle_errno n fuel e k : keeps (at_most n) (handle_errno fuel e k).
Proof.
  revert e k. induction fuel as [|fuel IH]; intros e k; cbn [handle_errno]; [apply keeps_no_fuel|].
  unfold PrepareStatements, DoPrepareStatements.
  repeat first [apply IH | apply keeps_Open | apply keeps_PrepareStatement | progress keep].
Qed.

(** A statement without result always ends when the connection can be lost
    only finitely often: with fuel for every loss its repetition after a
    reconnection never runs out, whatever the server answers. *)
Lemma Execute_ends fuel sql s :
  has_statements s → (losses (lib s) < fuel)%nat →
  match Execute fuel sql s with Returns _ _ | Aborts _ => True | _ => False end.
Proof.
  revert s. induction fuel as [|fuel IH]; intros s Hst Hf; [lia|]. cbn [Execute]. rewrite member_bind.
  destruct (m_Mysql (conn s)) as [h|]; [|done]. rewrite library_bind, record_bind. cbn [lib conn sent].
  pose proof (l_query h sql (lib s)) as Hq. destruct (mysql_query h sql (lib s)) as [[] m1]; cbn [fst snd] in *; [done|].
  specialize (Hq eq_refl). rewrite ask_bind. cbn [lib]. set (e := mysql_errno (Some h) m1) in *.
  set (s1 := State (conn s) m1 _). pose proof (handle_errno_spec connect_errno 256 e 5 s1 Hst ltac:(lia) ltac:(lia)) as Hh.
  pose proof (keeps_handle_errno (losses m1) 256 e 5 s1) as Hk.
  unfold mbind, comp_bind, _HandleMySQLErrno. unfold handled in Hh.
  destruct (handle_errno 256 e 5 s1) as [[] s2| |s2| |]; try done.
  destruct Hh as (Hre & _ & _ & _ & Hst2 & _). apply IH; [done|].
  assert (at_most (losses m1) s2) as Hs2 by (apply Hk; [unfold at_most; cbn; lia|done]). specialize (Hq Hre). unfold at_most in Hs2. lia.
Qed.
End budget.
End connection.

(** ** A server to run *)

(** It answers the calls that reach it from a list, 0 for success and an error
    number otherwise; when the list is used up everything succeeds. *)
Record server := Server { answers : list Z; last_errno : Z }.
Definition reply (f : Z → Z) (m : server) : bool * server :=
  match answers m with
  | [] => (true, m)
  | 0 :: l => (true, Server l 0)
  | e :: l => (false, Server l (f e))
  end.
(** [f]: which error number is reported. *)
Definition demo (f : Z → Z) : MySqlApi server Z Z := {|
  mysql_init m := (Some 1, m);
  mysql_options _ _ m := m;
  mysql_real_connect _ _ _ _ m := reply f m;
  mysql_autocommit _ m := m;
  mysql_set_character_set _ m := m;
  mysql_close _ m := m;
  mysql_errno _ m := last_errno m;
  mysql_get_server_version _ _ := 80000;
  mysql_ping _ m := m;
  mysql_query _ _ m := reply f m;
  mysql_store_result _ m := (None, m);
  mysql_affected_rows _ _ := 0;
  mysql_fetch_fields _ _ := [];
  mysql_more_results _ _ := false;
  mysql_next_result _ m := m;
  mysql_stmt_init _ m := (Some 1, m);
  mysql_stmt_prepare _ _ m := (true, m);
  mysql_stmt_close _ m := m;
  mysql_stmt_param_count _ _ := 1;
  mysql_stmt_bind_param _ _ m := (true, m);
  mysql_stmt_execute _ m := reply f m;
  mysql_stmt_result _ _ := Answer true true [] [] 0 0 true true;
  mysql_time_size := 40;
|}.
Definition error_of (e : Z) : Z := if decide (e = 0) then CR_UNKNOWN_ERROR else e.
Definition losing : MySqlApi server Z Z := demo error_of.
Definition steady : MySqlApi server Z Z := demo (λ _, ER_DUP_ENTRY).

Lemma reply_errno f m : (reply f m).1 = false → ∃ e, last_errno (reply f m).2 = f e.
Proof. unfold reply. destruct (answers m) as [|[|p|p] l]; cbn; try done; by eexists. Qed.
Lemma error_of_nonzero e : error_of e ≠ 0.
Proof. unfold error_of. by case_decide. Qed.

Definition demo_info : MySQLConnectionInfo := ConnectionInfo (text "u") (text "p") (text "sakila") (text "localhost") (text "3306") [].
(** An open connection with its statements prepared. *)
Definition demo_start (l : list Z) : state (M := server) (H := Z) (S := Z) :=
  State (Connection false false (Some 1) demo_info CONNECTION_SYNCH [Some (1, PreparedStatement.prepare 1 actor_info); None] false) (Server l 0) [].
Definition demo_actor : PreparedStatement.PreparedStatementBase := PreparedStatement.Statement 0 [PreparedStatement.UInt32 5].
Definition demo_queries : list SQLElementData :=
  [SQL_ELEMENT_RAW (Some (text "update a set x = 1")); SQL_ELEMENT_PREPARED (Some demo_actor)].

Lemma _HandleMySQLErrno_spec_witness :
  handled (api := losing) CR_SERVER_LOST 5 (demo_start [CR_CONN_HOST_ERROR; 0]) (_HandleMySQLErrno (api := losing) CR_SERVER_LOST 5 (demo_start [CR_CONN_HOST_ERROR; 0])).
Proof.
  apply (@_HandleMySQLErrno_spec server Z Z losing); [|done|lia].
  intros h i p u m Hfail. destruct (reply_errno error_of m Hfail) as [e He]. cbn. rewrite He. apply error_of_nonzero.
Defined.

Lemma demo_connected l : connected (demo_start l).
Proof.
  split; [by exists 1|]. intros i st ps Hi.
  destruct (decide (i = 0)) as [->|]; [by injection Hi as <- <-|]. destruct (decide (i = 1)) as [->|]; [discriminate|].
  apply zlookup_lt_Some in Hi. change (zlength _) with 2 in Hi. lia.
Qed.

Lemma ExecuteTransaction_spec_witness : ∃ b,
  transaction_ends demo_queries (ExecuteTransaction (api := steady) 1 demo_queries (demo_start [0; 0; ER_DUP_ENTRY; 0]))
    (λ l, sent (last_state (ExecuteTransaction (api := steady) 1 demo_queries (demo_start [0; 0; ER_DUP_ENTRY; 0])) (demo_start [])) = Text START b :: l).
Proof.
  assert (∀ m, (reply (λ _, ER_DUP_ENTRY) m).1 = false → reconnects (last_errno (reply (λ _, ER_DUP_ENTRY) m).2) = false) as Hs.
  { intros m Hm. destruct (reply_errno _ m Hm) as [e ->]. done. }
  destruct (@ExecuteTransaction_spec server Z Z steady (λ h q m, Hs m) (λ h st b m (Hf : true = false), ltac:(discriminate)) (λ h st m, Hs m) 0 demo_queries
    (demo_start [0; 0; ER_DUP_ENTRY; 0]) ltac:(discriminate) (demo_connected _) ltac:(by repeat constructor) _ eq_refl) as [[b Hb]|[Habort _]]; [|discriminate Habort].
  exists b. exact Hb.
Defined.

Definition demo_losses (m : server) : nat := length (List.filter (λ e, negb (e =? 0)) (answers m)).

Lemma Execute_ends_witness :
  match Execute (api := losing) 3 COMMIT (demo_start [CR_SERVER_LOST; 0; CR_SERVER_LOST; 0; 0]) with Returns _ _ | Aborts _ => True | _ => False end.
Proof.
  assert (∀ m, (demo_losses (reply error_of m).2 ≤ demo_losses m)%nat) as Hle.
  { intros [[|[|p|p] l] e]; cbn; lia. }
  assert (∀ m, (reply error_of m).1 = false → (demo_losses (reply error_of m).2 < demo_losses m)%nat) as Hlt.
  { intros [[|[|p|p] l] e]; cbn; (done || lia). }
  apply (@Execute_ends server Z Z losing demo_losses); try (intros; cbn; lia); try (intros; apply Hle).
  - intros h i p u m Hfail. destruct (reply_errno error_of m Hfail) as [e He]. cbn. rewrite He. apply error_of_nonzero.
  - intros h q m Hm _. by apply Hlt.
  - done.
Defined.

(** A connection lost in the middle of a transaction is made again and the
    query repeated, so the transaction goes on in a new session: the server has
    forgotten what came before, the rest is committed query by query, and the
    result is 0. *)
Example reconnection_in_transaction :
  ∃ s, ExecuteTransaction (api := losing) 2 demo_queries (demo_start [0; 0; CR_SERVER_LOST; 0; 0; 0]) = Returns 0 s ∧
    sent s = [Text START true; Text (text "update a set x = 1") true; Prepared 0 false; Connect true; Prepared 0 true; Text COMMIT true].
Proof. eexists. split; [by vm_compute|by vm_compute]. Qed.

(** A COMMIT that fails leaves the result 0. *)
Example commit_fails :
  ∃ s, ExecuteTransaction (api := losing) 2 demo_queries (demo_start [0; 0; 0; ER_LOCK_DEADLOCK]) = Returns 0 s ∧
    sent s = [Text START true; Text (text "update a set x = 1") true; Prepared 0 true; Text COMMIT false].
Proof. eexists. split; [by vm_compute|by vm_compute]. Qed.

(** A statement that was never prepared while the connection is up: the two
    statement slots exist only after [PrepareStatements]; a connection lost
    before that is made again with slots missing, which is undefined. *)
Example lost_before_prepare :
  Execute (api := losing) 2 COMMIT (State (Connection false false (Some 1) demo_info CONNECTION_SYNCH [] false) (Server [CR_SERVER_LOST; 0] 0) []) = UB.
Proof. by vm_compute. Qed.

(** With host ".", the first [Open] connects to the socket, and leaves
    "localhost" in the information that the connections share: the next one
    takes the name of the socket for a port number. *)
Example socket_used_once :
  let info := ConnectionInfo (text "u") (text "p") (text "sakila") (text ".") (text "/tmp/mysql.sock") [] in
  match Open (api := losing) (State (construct CONNECTION_ASYNC info) (Server [] 0) []) with
  | Returns 0 s => host (m_connectionInfo (conn s)) = text "localhost" ∧ atoi (port_or_socket (m_connectionInfo (conn s))) = 0
  | _ => False
  end.
Proof. by vm_compute. Qed.
End MySqlConn.
