(* ===== verification/DbTask.v ===== *)
(** The operations that worker threads run on a connection:
    src/mysql-conn-pool/dbimpl/Transaction.cpp, AdhocStatement.cpp,
    QueryHolder.cpp, DatabaseWorker.cpp and the task of PreparedStatement.cpp.

    What the operations share with their makers, transactions and query
    holders behind shared pointers and the states of promises, is kept in
    [world], under numbers.  The clock is a function from the number of
    readings to the time read. *)
From stdpp Require Import gmap.
From S2P Require Import Prelude Except Bytes Tokenize TaskQueue PreparedStatement Field ResultSet MySqlConn DbTimer PcQueue.

Module DbTask.
Import MySqlConn.

(** ** Transactions *)

(** [freed]: the elements whose statement or text was deleted. *)
Record TransactionBase := Transaction { m_queries : list SQLElementData; _cleanedUp : bool; freed : list SQLElementData }.
Definition make_transaction : TransactionBase := Transaction [] false [].
Definition Append (sql : bytes) (t : TransactionBase) : TransactionBase :=
  Transaction (m_queries t ++ [SQL_ELEMENT_RAW (Some sql)]) (_cleanedUp t) (freed t).
Definition AppendPreparedStatement (stmt : PreparedStatement.PreparedStatementBase) (t : TransactionBase) : TransactionBase :=
  Transaction (m_queries t ++ [SQL_ELEMENT_PREPARED (Some stmt)]) (_cleanedUp t) (freed t).
Definition GetSize (t : TransactionBase) : Z := zlength (m_queries t).
Definition Cleanup (t : TransactionBase) : TransactionBase :=
  if _cleanedUp t then t else Transaction [] true (freed t ++ m_queries t).

Inductive transaction_op := DoAppend (sql : bytes) | DoPrepared (stmt : PreparedStatement.PreparedStatementBase) | DoCleanup.
Definition transaction_step (t : TransactionBase) (o : transaction_op) : TransactionBase :=
  match o with DoAppend sql => Append sql t | DoPrepared stmt => AppendPreparedStatement stmt t | DoCleanup => Cleanup t end.
Definition appended (os : list transaction_op) : list SQLElementData :=
  omap (λ o, match o with DoAppend sql => Some (SQL_ELEMENT_RAW (Some sql)) | DoPrepared stmt => Some (SQL_ELEMENT_PREPARED (Some stmt)) | DoCleanup => None end) os.

(** Every element is freed once or still waiting, in the order of appending. *)
Lemma transaction_elements os t :
  freed (foldl transaction_step t os) ++ m_queries (foldl transaction_step t os) = freed t ++ m_queries t ++ appended os.
Proof.
  revert t. induction os as [|o os IH]; intros t; cbn [foldl]; [by rewrite app_nil_r|].
  rewrite IH. destruct o; cbn; [by rewrite <-!app_assoc..|].
  unfold Cleanup. destruct (_cleanedUp t); [done|]. cbn. by rewrite <-app_assoc.
Qed.
(** What is appended after the first cleanup is never freed. *)
Lemma append_after_cleanup os t : _cleanedUp t = true → freed (foldl transaction_step t os) = freed t.
Proof.
  revert t. induction os as [|o os IH]; intros t Ht; cbn [foldl]; [done|].
  destruct o; cbn; rewrite IH; try done; unfold Cleanup; by rewrite Ht.
Qed.

Section tasks.
Context {M H S : Type} {api : MySqlApi M H S}.
(** [clock n]: the n-th reading of the clock, in nanoseconds. *)
Context (clock : nat → Z).
(** Fuel for the calls on the connection, and what fresh memory holds. *)
Context (F : nat) (junk : Z).

Abbreviation stmt_base := PreparedStatement.PreparedStatementBase.
Abbreviation prepared_result := ResultSet.PreparedResultSet.
(** A holder: its queries with their results. *)
Abbreviation SQLQueryHolderBase := (list (option stmt_base * option prepared_result)).

(** [w_tries]: the results of the executions of transactions so far. *)
Record world := World {
  w_lib : M;
  w_sent : list message;
  w_transactions : gmap nat TransactionBase;
  w_holders : gmap nat SQLQueryHolderBase;
  w_strings : gmap nat (option ResultSet.ResultSet);
  w_prepareds : gmap nat (option prepared_result);
  w_commits : gmap nat bool;
  w_held : gmap nat unit;
  w_reads : nat;
  w_started : option Z;
  w_tries : list Z;
}.
Definition with_lib m l w := World m l (w_transactions w) (w_holders w) (w_strings w) (w_prepareds w) (w_commits w) (w_held w) (w_reads w) (w_started w) (w_tries w).
Definition with_transactions t w := World (w_lib w) (w_sent w) t (w_holders w) (w_strings w) (w_prepareds w) (w_commits w) (w_held w) (w_reads w) (w_started w) (w_tries w).
Definition with_holders h w := World (w_lib w) (w_sent w) (w_transactions w) h (w_strings w) (w_prepareds w) (w_commits w) (w_held w) (w_reads w) (w_started w) (w_tries w).
Definition with_strings p w := World (w_lib w) (w_sent w) (w_transactions w) (w_holders w) p (w_prepareds w) (w_commits w) (w_held w) (w_reads w) (w_started w) (w_tries w).
Definition with_prepareds p w := World (w_lib w) (w_sent w) (w_transactions w) (w_holders w) (w_strings w) p (w_commits w) (w_held w) (w_reads w) (w_started w) (w_tries w).
Definition with_commits p w := World (w_lib w) (w_sent w) (w_transactions w) (w_holders w) (w_strings w) (w_prepareds w) p (w_held w) (w_reads w) (w_started w) (w_tries w).
Definition with_held p w := World (w_lib w) (w_sent w) (w_transactions w) (w_holders w) (w_strings w) (w_prepareds w) (w_commits w) p (w_reads w) (w_started w) (w_tries w).
Definition with_clock n st w := World (w_lib w) (w_sent w) (w_transactions w) (w_holders w) (w_strings w) (w_prepareds w) (w_commits w) (w_held w) n st (w_tries w).
Definition with_tries l w := World (w_lib w) (w_sent w) (w_transactions w) (w_holders w) (w_strings w) (w_prepareds w) (w_commits w) (w_held w) (w_reads w) (w_started w) l.

(** A task and the connection it was given. *)
Record task_state := TaskState { t_conn : MySQLConnection (H := H) (S := S); t_world : world }.
Definition on_conn {A} (m : comp (state (M := M)) A) : comp task_state A :=
  part (λ t, State (t_conn t) (w_lib (t_world t)) (w_sent (t_world t)))
    (λ s t, TaskState (conn s) (with_lib (lib s) (sent s) (t_world t))) m.
Definition world_read {A} (f : world → A) : comp task_state A := get (λ t, f (t_world t)).
Definition world_readO {A} (f : world → option A) : comp task_state A := getO (λ t, f (t_world t)).
Definition world_write (f : world → world) : comp task_state unit := modify (λ t, TaskState (t_conn t) (f (t_world t))).

(** [set_value] of a promise, which throws when it was set before. *)
Definition set_value {A} (read : world → gmap nat A) (write : gmap nat A → world → world) (p : nat) (a : A) : comp task_state unit :=
  old ← world_read (λ w, read w !! p);
  match old with Some _ => throw | None => world_write (λ w, write (<[p := a]> (read w)) w) end.

(** *** The clock *)
(** The time now, and the time that becomes the start of the program when there
    is none yet. *)
Definition read_clock (f : Z → Z → option Z → Z * option Z) : comp task_state Z :=
  w ← world_read id;
  let '(r, st) := f (clock (w_reads w)) (clock (Datatypes.S (w_reads w))) (w_started w) in
  world_write (with_clock (2 + w_reads w) st);;
  mret r.
Definition getMSTime : comp task_state Z := read_clock DbTimer.getMSTime.
Definition GetMSTimeDiffToNow (oldMSTime : Z) : comp task_state Z := read_clock (DbTimer.GetMSTimeDiffToNow oldMSTime).

(** *** TransactionTask *)
Definition DEADLOCK_MAX_RETRY_TIME_MS : Z := 60000.

Definition TryExecute (m_trans : nat) : comp task_state Z :=
  t ← world_readO (λ w, w_transactions w !! m_trans);
  r ← on_conn (ExecuteTransaction F (m_queries t));
  world_write (λ w, with_tries (w_tries w ++ [r]) w);;
  mret r.
Definition CleanupOnFailure (m_trans : nat) : comp task_state unit :=
  world_write (λ w, with_transactions (alter Cleanup m_trans (w_transactions w)) w).

(** The loop, under the lock that all tasks share. *)
Fixpoint retry (fuel : nat) (m_trans : nat) (startMSTime loopDuration : Z) : comp task_state bool :=
  match fuel with
  | O => no_fuel
  | Datatypes.S fuel =>
      if decide (loopDuration ≤ DEADLOCK_MAX_RETRY_TIME_MS) then
        r ← TryExecute m_trans;
        if decide (r = 0) then mret true
        else
          d ← GetMSTimeDiffToNow startMSTime;
          retry fuel m_trans startMSTime d
      else mret false
  end.
(** Up to the point where it is known whether the transaction was committed. *)
Definition commit (fuel : nat) (m_trans : nat) : comp task_state bool :=
  errorCode ← TryExecute m_trans;
  if decide (errorCode = 0) then mret true
  else if decide (errorCode = ER_LOCK_DEADLOCK) then
    startMSTime ← getMSTime;
    retry fuel m_trans startMSTime 0
  else mret false.
Definition TransactionTask_Execute (fuel : nat) (m_trans : nat) : comp task_state bool :=
  ok ← commit fuel m_trans;
  if (ok : bool) then mret true
  else CleanupOnFailure m_trans;; mret false.
Definition TransactionWithResultTask_Execute (fuel : nat) (m_trans m_result : nat) : comp task_state bool :=
  ok ← commit fuel m_trans;
  if (ok : bool) then set_value w_commits with_commits m_result true;; mret true
  else CleanupOnFailure m_trans;; set_value w_commits with_commits m_result false;; mret false.

(** *** BasicStatementTask and PreparedStatementTask *)

(** [m_result]: the promise of a task with a result. *)
Definition BasicStatementTask_Execute (m_sql : bytes) (m_result : option nat) : comp task_state bool :=
  match m_result with
  | Some p =>
      result ← on_conn (Query F (Some m_sql));
      match result with
      | None => set_value w_strings with_strings p None;; mret false
      | Some r =>
          if decide (ResultSet._rowCount r = 0) then set_value w_strings with_strings p None;; mret false
          else
            (** [NextRow] on the result itself *)
            match ResultSet.NextRow r with
            | Returns true r => set_value w_strings with_strings p (Some r);; mret true
            | Returns false _ => set_value w_strings with_strings p None;; mret false
            | Throws _ => throw
            | Aborts _ => abort
            | UB => ub
            | OutOfFuel => no_fuel
            end
      end
  | None => on_conn (Execute F m_sql)
  end.

(** [delete] of a result: its destructor has to be defined. *)
Definition delete_prepared (r : prepared_result) : comp task_state unit :=
  match ResultSet.CleanUp_prepared r with UB => ub | _ => mret () end.

Definition PreparedStatementTask_Execute (m_stmt : stmt_base) (m_result : option nat) : comp task_state bool :=
  match m_result with
  | Some p =>
      result ← on_conn (Query_stmt junk F m_stmt);
      match result with
      | None => set_value w_prepareds with_prepareds p None;; mret false
      | Some r =>
          if decide (ResultSet.m_rowCount r = 0) then
            delete_prepared r;;
            set_value w_prepareds with_prepareds p None;; mret false
          else set_value w_prepareds with_prepareds p (Some r);; mret true
      end
  | None => on_conn (Execute_stmt F m_stmt)
  end.

(** *** Query holders *)

Definition SetPreparedQueryImpl (index : Z) (stmt : option stmt_base) (h : SQLQueryHolderBase) : bool * SQLQueryHolderBase :=
  match zlookup h index with
  | None => (false, h)
  | Some q => (true, zinsert index (stmt, q.2) h)
  end.
(** [ASSERT]: out of range ends the process. *)
Definition GetPreparedResult (index : Z) (h : SQLQueryHolderBase) : option (option prepared_result) := snd <$> zlookup h index.
Definition SetSize (size : Z) (h : SQLQueryHolderBase) : SQLQueryHolderBase :=
  take (Z.to_nat size) h ++ replicate (Z.to_nat size - length h) (None, None).
(** [m_holder]: the holder's number. *)
Definition SetPreparedResult (m_holder : nat) (index : Z) (result : option prepared_result) : comp task_state unit :=
  result ← match result with
    | Some r => if decide (ResultSet.m_rowCount r = 0) then delete_prepared r;; mret None else mret (Some r)
    | None => mret None
    end;
  world_write (λ w, with_holders (alter (λ h : SQLQueryHolderBase,
    match zlookup h index with Some q => zinsert index (q.1, result) h | None => h end) m_holder (w_holders w)) w).

Fixpoint run_holder (n : nat) (i : Z) (m_holder : nat) : comp task_state unit :=
  match n with
  | O => mret ()
  | Datatypes.S n =>
      h ← world_readO (λ w, w_holders w !! m_holder);
      q ← getO (λ _, zlookup (h : SQLQueryHolderBase) i);
      match q.1 : option stmt_base with
      | Some stmt => result ← on_conn (Query_stmt junk F stmt); SetPreparedResult m_holder i result
      | None => mret ()
      end;;
      run_holder n (i + 1) m_holder
  end.
Definition SQLQueryHolderTask_Execute (m_holder m_result : nat) : comp task_state bool :=
  h ← world_readO (λ w, w_holders w !! m_holder);
  run_holder (length (h : SQLQueryHolderBase)) 0 m_holder;;
  set_value w_held with_held m_result ();;
  mret true.

(** *** The operations of the queue *)

Inductive SQLOperation :=
  | BasicStatementTask (m_sql : bytes) (m_result : option nat)
  | PreparedStatementTask (m_stmt : stmt_base) (m_result : option nat)
  | SQLQueryHolderTask (m_holder m_result : nat)
  | TransactionTask (m_trans : nat)
  | TransactionWithResultTask (m_trans m_result : nat)
  | PingOperation.

Definition op_Execute (fuel : nat) (op : SQLOperation) : comp task_state bool :=
  match op with
  | BasicStatementTask sql r => BasicStatementTask_Execute sql r
  | PreparedStatementTask stmt r => PreparedStatementTask_Execute stmt r
  | SQLQueryHolderTask h r => SQLQueryHolderTask_Execute h r
  | TransactionTask t => TransactionTask_Execute fuel t
  | TransactionWithResultTask t r => TransactionWithResultTask_Execute fuel t r
  | PingOperation => on_conn Ping;; mret true
  end.
(** [SQLOperation::call]. *)
Definition op_call (fuel : nat) (op : SQLOperation) : comp task_state Z :=
  op_Execute fuel op;; mret 0.

(** ** Transactions are retried on a deadlock only, for a minute *)

Lemma on_conn_run {A} (m : comp (state (M := M)) A) t a s :
  m (State (t_conn t) (w_lib (t_world t)) (w_sent (t_world t))) = Returns a s →
  on_conn m t = Returns a (TaskState (conn s) (with_lib (lib s) (sent s) (t_world t))).
Proof. intros Hm. unfold on_conn, part. by rewrite Hm. Qed.

Definition conn_state (t : task_state) : state (M := M) := State (t_conn t) (w_lib (t_world t)) (w_sent (t_world t)).

(** Milliseconds since the start of the program at a reading of the clock. *)
Definition ms (st : Z) (n : nat) : Z := u32 (Z.quot (clock n - st) 1000000).

Lemma alter_insert_Some {A} (f : A → A) (m : gmap nat A) i x : m !! i = Some x → alter f i m = <[i := f x]> m.
Proof.
  intros Hi. apply map_eq. intros j. destruct (decide (i = j)) as [->|Hne].
  - by rewrite lookup_alter_eq, lookup_insert_eq, Hi.
  - by rewrite lookup_alter_ne, lookup_insert_ne.
Qed.

Lemma set_value_run {A} (read : world → gmap nat A) write p (a : A) t :
  read (t_world t) !! p = None →
  set_value read write p a t = Returns () (TaskState (t_conn t) (write (<[p := a]> (read (t_world t))) (t_world t))).
Proof. intros Hp. unfold set_value, world_read. rewrite get_bind, Hp. done. Qed.

Lemma getMSTime_run t st : w_started (t_world t) = Some st →
  getMSTime t = Returns (ms st (w_reads (t_world t))) (TaskState (t_conn t) (with_clock (2 + w_reads (t_world t)) (Some st) (t_world t))).
Proof. intros Hst. unfold getMSTime, read_clock, world_read. rewrite get_bind. unfold DbTimer.getMSTime, DbTimer.GetApplicationStartTime, id. by rewrite Hst. Qed.
Lemma diff_run o t st : w_started (t_world t) = Some st →
  GetMSTimeDiffToNow o t =
    Returns (DbTimer.getMSTimeDiff o (ms st (w_reads (t_world t)))) (TaskState (t_conn t) (with_clock (2 + w_reads (t_world t)) (Some st) (t_world t))).
Proof.
  intros Hst. unfold GetMSTimeDiffToNow, read_clock, world_read. rewrite get_bind.
  unfold DbTimer.GetMSTimeDiffToNow, DbTimer.getMSTime, DbTimer.GetApplicationStartTime, id. by rewrite Hst.
Qed.

Section deadlock.
(** Executing the transaction [tr] on the connection returns, as long as [I] holds. *)
Context (I : state (M := M) (H := H) (S := S) → Prop) (tr : TransactionBase).
Context (attempt : ∀ s, I s → ∃ r s', ExecuteTransaction F (m_queries tr) s = Returns r s' ∧ I s').

(** The tries that were made: all failed, but for the last one if the
    transaction was committed. *)
Definition tries_end (b : bool) (l : list Z) : Prop :=
  if b then ∃ l', l = l' ++ [0] ∧ Forall (λ r, r ≠ 0) l' else Forall (λ r, r ≠ 0) l.

Definition same_world (w w' : world) : Prop :=
  w_transactions w' = w_transactions w ∧ w_commits w' = w_commits w ∧ w_holders w' = w_holders w ∧
  w_strings w' = w_strings w ∧ w_prepareds w' = w_prepareds w ∧ w_held w' = w_held w.

Lemma TryExecute_run m t :
  I (conn_state t) → w_transactions (t_world t) !! m = Some tr →
  ∃ r t', TryExecute m t = Returns r t' ∧ I (conn_state t') ∧ same_world (t_world t) (t_world t') ∧
    w_tries (t_world t') = w_tries (t_world t) ++ [r] ∧ w_reads (t_world t') = w_reads (t_world t) ∧ w_started (t_world t') = w_started (t_world t).
Proof.
  intros HI Ht. destruct (attempt _ HI) as (r & s' & Hrun & HI').
  unfold TryExecute, world_readO. rewrite (getO_bind _ _ _ tr) by exact Ht.
  rewrite (comp_bind_Returns _ _ _ _ _ (on_conn_run _ _ _ _ Hrun)). eexists r, _. split; [done|]. by destruct s'.
Qed.

Lemma retry_run fuel m start st d t K :
  I (conn_state t) → w_transactions (t_world t) !! m = Some tr → w_started (t_world t) = Some st →
  60000 < DbTimer.getMSTimeDiff start (ms st (w_reads (t_world t) + 2 * K)) → (K + 1 < fuel)%nat →
  ∃ b t' l, retry fuel m start d t = Returns b t' ∧ I (conn_state t') ∧ same_world (t_world t) (t_world t') ∧
    w_tries (t_world t') = w_tries (t_world t) ++ l ∧ tries_end b l ∧ (length l ≤ K + 1)%nat.
Proof.
  revert d t K. induction fuel as [|fuel IH]; intros d t K HI Htr Hst HK Hf; [lia|]. cbn [retry].
  unfold DEADLOCK_MAX_RETRY_TIME_MS. case_decide as Hd.
  2:{ exists false, t, []. split; [done|]. split; [done|]. split; [done|]. rewrite app_nil_r. split; [done|]. split; [constructor|cbn; lia]. }
  destruct (TryExecute_run m t HI Htr) as (r & t1 & Hrun & HI1 & Hw1 & Htries1 & Hreads1 & Hst1).
  rewrite (comp_bind_Returns _ _ _ _ _ Hrun). case_decide as Hr.
  { subst r. exists true, t1, [0]. split; [done|]. split; [done|]. split; [done|]. split; [done|]. split; [by exists []|cbn; lia]. }
  rewrite (comp_bind_Returns _ _ _ _ _ (diff_run start t1 st ltac:(by rewrite Hst1))). rewrite Hreads1.
  set (t2 := TaskState (t_conn t1) _).
  destruct K as [|K].
  - (* the time is over *)
    destruct fuel as [|fuel]; [lia|]. rewrite Nat.add_0_r in HK. exists false, t2, [r]. cbn [retry].
    unfold DEADLOCK_MAX_RETRY_TIME_MS. rewrite decide_False by lia.
    split; [done|]. split; [done|]. split; [done|]. split; [done|]. split; [by repeat constructor|cbn; lia].
  - destruct (IH (DbTimer.getMSTimeDiff start (ms st (w_reads (t_world t)))) t2 K) as (b & t' & l & Hrun' & HI' & Hw' & Htries' & Hl & Hlen).
    + done.
    + destruct Hw1 as [Hw1 _]. cbn. by rewrite Hw1.
    + done.
    + cbn [t2 t_world w_reads with_clock]. by replace (2 + w_reads (t_world t) + 2 * K)%nat with (w_reads (t_world t) + 2 * Datatypes.S K)%nat by lia.
    + lia.
    + exists b, t', (r :: l). split; [done|]. split; [done|]. split.
      { destruct Hw1 as (?&?&?&?&?&?), Hw' as (?&?&?&?&?&?). unfold same_world. cbn in *. repeat split; congruence. }
      split; [rewrite Htries'; cbn; by rewrite Htries1, <-app_assoc|]. split; [|cbn; lia].
      destruct b; cbn in *; [|by constructor]. destruct Hl as (l' & -> & Hl'). exists (r :: l'). by split; [|constructor].
Qed.

(** How the tries of a task end: only a deadlock is tried again. *)
Definition tried (K : nat) (b : bool) (l : list Z) : Prop :=
  tries_end b l ∧ l ≠ [] ∧ (length l ≤ K + 2)%nat ∧ ((1 < length l)%nat → head l = Some ER_LOCK_DEADLOCK).

Lemma commit_run fuel m t st K :
  I (conn_state t) → w_transactions (t_world t) !! m = Some tr → w_started (t_world t) = Some st →
  60000 < DbTimer.getMSTimeDiff (ms st (w_reads (t_world t))) (ms st (w_reads (t_world t) + 2 + 2 * K)) → (K + 1 < fuel)%nat →
  ∃ b t' l, commit fuel m t = Returns b t' ∧ I (conn_state t') ∧ same_world (t_world t) (t_world t') ∧
    w_tries (t_world t') = w_tries (t_world t) ++ l ∧ tried K b l.
Proof.
  intros HI Htr Hst HK Hf. unfold commit.
  destruct (TryExecute_run m t HI Htr) as (r & t1 & Hrun & HI1 & Hw1 & Htries1 & Hreads1 & Hst1).
  rewrite (comp_bind_Returns _ _ _ _ _ Hrun). case_decide as Hr; [|case_decide as Hd].
  - subst r. exists true, t1, [0]. do 4 (split; [done|]). split; [by exists []|]. split; [done|]. cbn. split; lia.
  - rewrite (comp_bind_Returns _ _ _ _ _ (getMSTime_run t1 st ltac:(by rewrite Hst1))). rewrite Hreads1.
    set (t2 := TaskState (t_conn t1) _).
    destruct (retry_run fuel m (ms st (w_reads (t_world t))) st 0 t2 K) as (b & t' & l & Hrun' & HI' & Hw' & Htries' & Hl & Hlen).
    + done.
    + destruct Hw1 as [Hw1 _]. cbn. by rewrite Hw1.
    + done.
    + cbn [t2 t_world w_reads with_clock]. by replace (2 + w_reads (t_world t) + 2 * K)%nat with (w_reads (t_world t) + 2 + 2 * K)%nat by lia.
    + done.
    + exists b, t', (r :: l). split; [done|]. split; [done|]. split.
      { destruct Hw1 as (?&?&?&?&?&?), Hw' as (?&?&?&?&?&?). unfold same_world. cbn in *. repeat split; congruence. }
      split; [rewrite Htries'; cbn; by rewrite Htries1, <-app_assoc|]. split.
      { destruct b; cbn in *; [|by constructor]. destruct Hl as (l' & -> & Hl'). exists (r :: l'). by split; [|constructor]. }
      split; [done|]. split; [cbn; lia|]. intros _. cbn. by rewrite Hd.
  - exists false, t1, [r]. do 4 (split; [done|]). split; [by repeat constructor|]. split; [done|]. cbn. split; [lia|]. intros. lia.
Qed.

(** C14: A transaction task with a result ends within a minute of the clock (at
    most one try per reading of it): it sets its promise once, to whether a
    try committed; after the first success it tries no more; only a first
    failure by deadlock is tried again; and the queries are freed exactly when
    the task gives up. *)
Theorem TransactionWithResultTask_spec fuel m p t st K :
  I (conn_state t) → w_transactions (t_world t) !! m = Some tr → w_commits (t_world t) !! p = None → w_started (t_world t) = Some st →
  60000 < DbTimer.getMSTimeDiff (ms st (w_reads (t_world t))) (ms st (w_reads (t_world t) + 2 + 2 * K)) → (K + 1 < fuel)%nat →
  ∃ b t' l, TransactionWithResultTask_Execute fuel m p t = Returns b t' ∧ I (conn_state t') ∧
    w_tries (t_world t') = w_tries (t_world t) ++ l ∧ tried K b l ∧
    w_commits (t_world t') = <[p := b]> (w_commits (t_world t)) ∧
    w_transactions (t_world t') = (if b then w_transactions (t_world t) else <[m := Cleanup tr]> (w_transactions (t_world t))).
Proof.
  intros HI Htr Hp Hst HK Hf. unfold TransactionWithResultTask_Execute.
  destruct (commit_run fuel m t st K HI Htr Hst HK Hf) as (b & t1 & l & Hrun & HI1 & (Hw & Hc & _) & Htries & Hl).
  rewrite (comp_bind_Returns _ _ _ _ _ Hrun). exists b. destruct b.
  - rewrite (comp_bind_Returns _ _ _ _ _ (set_value_run w_commits with_commits p true t1 ltac:(by rewrite Hc))).
    eexists _, l. split; [done|]. cbn. by rewrite Hc, Hw.
  - unfold CleanupOnFailure, world_write. rewrite modify_bind.
    rewrite (comp_bind_Returns _ _ _ _ _ (set_value_run w_commits with_commits p false (TaskState (t_conn t1) (with_transactions _ _)) ltac:(by cbn; rewrite Hc))).
    eexists _, l. split; [done|]. cbn. rewrite Hc, Hw. do 4 (split; [done|]). by apply alter_insert_Some.
Qed.

(** The same without a promise. *)
Lemma TransactionTask_run fuel m t st K :
  I (conn_state t) → w_transactions (t_world t) !! m = Some tr → w_started (t_world t) = Some st →
  60000 < DbTimer.getMSTimeDiff (ms st (w_reads (t_world t))) (ms st (w_reads (t_world t) + 2 + 2 * K)) → (K + 1 < fuel)%nat →
  ∃ b t' l, TransactionTask_Execute fuel m t = Returns b t' ∧ I (conn_state t') ∧
    w_tries (t_world t') = w_tries (t_world t) ++ l ∧ tried K b l ∧
    w_transactions (t_world t') = (if b then w_transactions (t_world t) else <[m := Cleanup tr]> (w_transactions (t_world t))).
Proof.
  intros HI Htr Hst HK Hf. unfold TransactionTask_Execute.
  destruct (commit_run fuel m t st K HI Htr Hst HK Hf) as (b & t1 & l & Hrun & HI1 & (Hw & _) & Htries & Hl).
  rewrite (comp_bind_Returns _ _ _ _ _ Hrun). exists b. destruct b; eexists _, l; (split; [done|]); [done|].
  cbn. rewrite Hw. do 3 (split; [done|]). by apply alter_insert_Some.
Qed.
End deadlock.

(** ** The worker thread *)

Record worker_state := WorkerState { ws_queue : ProducerConsumerQueue.ProducerConsumerQueue SQLOperation; _cancelationToken : bool; ws_task : task_state }.
(** [Waiting]: the thread is blocked in [WaitAndPop]; what follows is what it
    does once it is woken up. *)
Inductive worker_end := Exited | Waiting.

Fixpoint WorkerThread (n fuel : nat) : comp worker_state worker_end :=
  match n with
  | O => no_fuel
  | Datatypes.S n =>
      q ← get ws_queue;
      modify (λ w, WorkerState (ProducerConsumerQueue.WaitAndPop q).2 (_cancelationToken w) (ws_task w));;
      match (ProducerConsumerQueue.WaitAndPop q).1 with
      | Blocks => mret Waiting
      | Refused => mret Exited
      | Taken operation =>
          token ← get _cancelationToken;
          if (token : bool) then mret Exited
          else
            part ws_task (λ t w, WorkerState (ws_queue w) (_cancelationToken w) t) (op_call fuel operation);;
            WorkerThread n fuel
      end
  end.
(** [~DatabaseWorker], up to the join. *)
Definition stop_worker (w : worker_state) : worker_state :=
  WorkerState (ProducerConsumerQueue.Cancel (ws_queue w)) true (ws_task w).

(** The operations one after the other. *)
Fixpoint calls (fuel : nat) (ops : list SQLOperation) : comp task_state unit :=
  match ops with [] => mret () | op :: ops => op_call fuel op;; calls fuel ops end.

(** A worker runs what is queued, in the order of the queue, and then waits. *)
Lemma WorkerThread_runs fuel ops d t t' :
  calls fuel ops t = Returns () t' →
  WorkerThread (Datatypes.S (length ops)) fuel (WorkerState (ProducerConsumerQueue.Queue ops false d) false t) =
    Returns Waiting (WorkerState (ProducerConsumerQueue.Queue [] false d) false t').
Proof.
  revert t. induction ops as [|op ops IH]; intros t; cbn [calls length]; [by intros [= ->]|].
  intros (z & t1 & Hop & Hrest)%comp_bind_inv.
  change (WorkerThread (Datatypes.S (Datatypes.S (length ops))) fuel) with
    (q ← get ws_queue;
     modify (λ w, WorkerState (ProducerConsumerQueue.WaitAndPop q).2 (_cancelationToken w) (ws_task w));;
     match (ProducerConsumerQueue.WaitAndPop q).1 with
     | Blocks => mret Waiting
     | Refused => mret Exited
     | Taken operation =>
         token ← get _cancelationToken;
         if (token : bool) then mret Exited
         else
           part ws_task (λ t w, WorkerState (ws_queue w) (_cancelationToken w) t) (op_call fuel operation);;
           WorkerThread (Datatypes.S (length ops)) fuel
     end).
  rewrite get_bind, modify_bind. cbn [ws_queue].
  change (ProducerConsumerQueue.WaitAndPop (ProducerConsumerQueue.Queue (op :: ops) false d)) with (Taken op, ProducerConsumerQueue.Queue ops false d).
  cbn [fst snd]. rewrite get_bind. cbn [_cancelationToken].
  unfold mbind at 1, comp_bind, part. cbn [ws_task]. rewrite Hop. cbn [ws_queue _cancelationToken]. by apply IH.
Qed.

(** A worker that is stopped deletes what is queued; what it had popped before
    it looked at its token is neither run nor deleted. *)
Lemma WorkerThread_stopped n fuel w :
  ∃ w', WorkerThread (Datatypes.S n) fuel (stop_worker w) = Returns Exited w' ∧ ws_task w' = ws_task w ∧
    ProducerConsumerQueue.deleted (ws_queue w') = ProducerConsumerQueue.deleted (ws_queue w) ++ ProducerConsumerQueue._queue (ws_queue w).
Proof.
  destruct w as [q token t]. destruct (ProducerConsumerQueue.Cancel_spec q PingOperation) as (Hd & _ & Hw & _).
  eexists. unfold stop_worker. cbn [WorkerThread ws_queue _cancelationToken ws_task]. rewrite get_bind, modify_bind. cbn [ws_queue]. rewrite Hw. cbn.
  split; [done|]. by split.
Qed.
Lemma WorkerThread_lost fuel op ops d t :
  WorkerThread 1 fuel (WorkerState (ProducerConsumerQueue.Queue (op :: ops) false d) true t) =
    Returns Exited (WorkerState (ProducerConsumerQueue.Queue ops false d) true t).
Proof. done. Qed.

(** A query with a result sets its promise once, and answers true exactly when
    there is a row. *)
Lemma PreparedStatementTask_sets stmt p t b t' :
  PreparedStatementTask_Execute stmt (Some p) t = Returns b t' →
  ∃ r, w_prepareds (t_world t') !! p = Some r ∧ w_prepareds (t_world t) !! p = None ∧
    (b = true ↔ ∃ rs, r = Some rs ∧ ResultSet.m_rowCount rs ≠ 0).
Proof.
  assert (∀ (a : option prepared_result) t1 u t2, set_value w_prepareds with_prepareds p a t1 = Returns u t2 →
    w_prepareds (t_world t1) = w_prepareds (t_world t) →
    w_prepareds (t_world t2) !! p = Some a ∧ w_prepareds (t_world t) !! p = None) as Hset.
  { intros a t1 u t2. unfold set_value, world_read. rewrite get_bind. destruct (w_prepareds (t_world t1) !! p) eqn:Hp; [done|].
    intros [= _ <-] Heq. cbn. rewrite <-Heq. by rewrite lookup_insert_eq. }
  unfold PreparedStatementTask_Execute. intros (result & t1 & Hq & Hrest)%comp_bind_inv.
  assert (w_prepareds (t_world t1) = w_prepareds (t_world t)) as Hsame.
  { unfold on_conn, part in Hq. destruct (Query_stmt _ _ _ _) in Hq; try discriminate. by injection Hq as _ <-. }
  destruct result as [rs|].
  - revert Hrest. case_decide as Hc.
    + intros (u & t2 & Hdel & Hrest)%comp_bind_inv. apply comp_bind_inv in Hrest as (u2 & t3 & Hs & [= <- <-]).
      unfold delete_prepared in Hdel. destruct (ResultSet.CleanUp_prepared rs) in Hdel; try discriminate; injection Hdel as _ <-.
      all: destruct (Hset _ _ _ _ Hs Hsame) as [H1 H2]; exists None; split; [done|]; split; [done|]; split; [done|]; by intros (? & [=] & _).
    + intros (u2 & t3 & Hs & [= <- <-])%comp_bind_inv. destruct (Hset _ _ _ _ Hs Hsame) as [H1 H2].
      exists (Some rs). split; [done|]. split; [done|]. split; [eauto|done].
  - apply comp_bind_inv in Hrest as (u2 & t3 & Hs & [= <- <-]). destruct (Hset _ _ _ _ Hs Hsame) as [H1 H2].
    exists None. split; [done|]. split; [done|]. split; [done|]. by intros (? & [=] & _).
Qed.

(** *** The results of a holder *)
Definition holder_of (m : nat) (t : task_state) : option SQLQueryHolderBase := w_holders (t_world t) !! m.
(** The slots from [i] on that hold a statement have their result, or none
    where there are no rows; the others are as they were. *)
Definition filled (i : nat) (h h' : SQLQueryHolderBase) : Prop :=
  length h' = length h ∧ ∀ j q, h !! j = Some q → ∃ r, h' !! j = Some (q.1, r) ∧
    if decide (i ≤ j ∧ q.1 ≠ None)%nat then (∀ rs, r = Some rs → ResultSet.m_rowCount rs ≠ 0) else r = q.2.

Lemma SetPreparedResult_run m (i : nat) result t u t' h q :
  SetPreparedResult m (Z.of_nat i) result t = Returns u t' → holder_of m t = Some h → h !! i = Some q →
  ∃ r, (∀ rs, r = Some rs → ResultSet.m_rowCount rs ≠ 0) ∧ holder_of m t' = Some (<[i := (q.1, r)]> h).
Proof.
  unfold holder_of. intros Hrun Hh Hq. unfold SetPreparedResult in Hrun. apply comp_bind_inv in Hrun as (r & t1 & Hr & Hw).
  assert (t_world t1 = t_world t ∧ ∀ rs, r = Some rs → ResultSet.m_rowCount rs ≠ 0) as [Heq Hne].
  { destruct result as [rs|]; [|by injection Hr as <- <-]. revert Hr. case_decide as Hc.
    - intros (u1 & t2 & Hdel & [= <- <-])%comp_bind_inv. unfold delete_prepared in Hdel.
      destruct (ResultSet.CleanUp_prepared rs) in Hdel; try discriminate; by injection Hdel as _ <-.
    - intros [= <- <-]. split; [done|]. by intros ? [= <-]. }
  injection Hw as _ <-. exists r. split; [done|]. cbn. rewrite Heq. rewrite lookup_alter_eq, Hh. cbn. f_equal.
  assert (zlookup h (Z.of_nat i) = Some q) as -> by (by rewrite zlookup_of_nat).
  unfold zinsert. rewrite decide_True by lia. by rewrite Nat2Z.id.
Qed.

Lemma filled_refl i h : (length h ≤ i)%nat → filled i h h.
Proof.
  intros Hi. split; [done|]. intros j q Hj. exists q.2. split; [by destruct q|].
  rewrite decide_False; [done|]. apply lookup_lt_Some in Hj. intros [? _]. lia.
Qed.

Lemma run_holder_run n i m t t' h :
  run_holder n (Z.of_nat i) m t = Returns () t' → holder_of m t = Some h → (i + n)%nat = length h →
  ∃ h', holder_of m t' = Some h' ∧ filled i h h'.
Proof.
  revert i t h. induction n as [|n IH]; intros i t h Hrun Hh Hn.
  { injection Hrun as <-. exists h. split; [done|]. apply filled_refl. lia. }
  cbn [run_holder] in Hrun. unfold holder_of in Hh. unfold world_readO in Hrun. rewrite (getO_bind _ _ _ h) in Hrun by exact Hh.
  destruct (lookup_lt_is_Some_2 h i ltac:(lia)) as [q Hq].
  rewrite (getO_bind _ _ _ q) in Hrun by (by rewrite zlookup_of_nat).
  apply comp_bind_inv in Hrun as ([] & t1 & Hone & Hrest). replace (Z.of_nat i + 1) with (Z.of_nat (Datatypes.S i)) in Hrest by lia.
  destruct q as [o r0]. cbn [fst] in Hone. destruct o as [stmt|].
  - apply comp_bind_inv in Hone as (result & t0 & Hquery & Hset).
    assert (holder_of m t0 = Some h) as Hh0.
    { unfold on_conn, part in Hquery. destruct (Query_stmt _ _ _ _) in Hquery; try discriminate. by injection Hquery as _ <-. }
    destruct (SetPreparedResult_run m i result t0 () t1 h _ Hset Hh0 Hq) as (r & Hr & Hh1).
    destruct (IH (Datatypes.S i) t1 _ Hrest Hh1) as (h' & Hh' & Hlen & Hf); [rewrite length_insert; lia|].
    exists h'. split; [done|]. rewrite length_insert in Hlen. split; [done|]. intros j q Hj.
    destruct (decide (j = i)) as [->|Hne].
    + rewrite Hq in Hj. injection Hj as <-. destruct (Hf i (Some stmt, r)) as (r' & Hr' & Hcond).
      { by rewrite list_lookup_insert_eq by (by eapply lookup_lt_Some). }
      exists r'. split; [done|]. rewrite decide_False in Hcond by (intros [? _]; lia). cbn in Hcond. subst r'. by rewrite decide_True.
    + destruct (Hf j q) as (r' & Hr' & Hcond); [by rewrite list_lookup_insert_ne|]. exists r'. split; [done|].
      repeat case_decide; try done; naive_solver lia.
  - injection Hone as <-. destruct (IH (Datatypes.S i) t h Hrest Hh ltac:(lia)) as (h' & Hh' & Hlen & Hf).
    exists h'. split; [done|]. split; [done|]. intros j q Hj. destruct (Hf j q Hj) as (r' & Hr' & Hcond). exists r'. split; [done|].
    destruct (decide (j = i)) as [->|Hne].
    + rewrite Hq in Hj. injection Hj as <-. rewrite decide_False in Hcond by (intros [? _]; lia). rewrite decide_False by (cbn; naive_solver). done.
    + repeat case_decide; try done; naive_solver lia.
Qed.

(** When the task of a query holder has run, every slot with a statement
    holds the result of that statement, or none where it has no rows, every
    other slot is as it was, the statements are still there, and the promise
    is set. *)
Theorem SQLQueryHolderTask_spec m p t b t' h :
  SQLQueryHolderTask_Execute m p t = Returns b t' → holder_of m t = Some h →
  b = true ∧ w_held (t_world t') !! p = Some () ∧ ∃ h', holder_of m t' = Some h' ∧ filled 0 h h'.
Proof.
  intros Hrun Hh. unfold SQLQueryHolderTask_Execute, world_readO in Hrun. rewrite (getO_bind _ _ _ h) in Hrun by exact Hh.
  apply comp_bind_inv in Hrun as ([] & t1 & Hloop & Hset). destruct (run_holder_run _ 0 m t t1 h Hloop Hh eq_refl) as (h' & Hh' & Hf).
  apply comp_bind_inv in Hset as (u & t2 & Hs & [= <- <-]). unfold set_value, world_read in Hs. rewrite get_bind in Hs.
  destruct (w_held (t_world t1) !! p); [done|]. injection Hs as _ <-. split; [done|]. cbn. rewrite lookup_insert_eq.
  split; [done|]. by exists h'.
Qed.
End tasks.

(** ** A run *)

(** A clock that goes on a second with every reading. *)
Definition demo_clock (n : nat) : Z := 1000000000 * Z.of_nat n.
Definition demo_raw : TransactionBase := Append (text "update a set x = 1") make_transaction.
Definition demo_world (l : list Z) : world (M := server) :=
  World (Server l 0) [] {[ 0%nat := demo_raw ]} {[ 0%nat := [(Some demo_actor, None); (None, None)] ]} ∅ ∅ ∅ ∅ 0 (Some 0) [].
Definition demo_task (l : list Z) : task_state (M := server) (H := Z) (S := Z) := TaskState (conn (demo_start [])) (demo_world l).

(** A server whose failures are deadlocks. *)
Definition deadlocking : MySqlApi server Z Z := demo (λ _, ER_LOCK_DEADLOCK).

Lemma deadlocking_direct s : m_Mysql (conn s) = Some 1 →
  ∃ r s', ExecuteTransaction (api := deadlocking) 1 (m_queries demo_raw) s = Returns r s' ∧ m_Mysql (conn s') = Some 1 ∧ m_Mutex (conn s') = m_Mutex (conn s).
Proof.
  assert (∀ sql s, m_Mysql (conn s) = Some 1 → ∃ b s', Execute (api := deadlocking) 1 sql s = Returns b s' ∧ conn s' = conn s) as Hex.
  { intros sql s0 Hs. cbn [Execute]. rewrite member_bind, Hs, library_bind, record_bind. cbn [conn lib sent].
    assert (∀ m, (reply (λ _, ER_LOCK_DEADLOCK) m).1 = false → last_errno (reply (λ _, ER_LOCK_DEADLOCK) m).2 = ER_LOCK_DEADLOCK) as He.
    { intros m Hm. by destruct (reply_errno _ m Hm) as [e ->]. }
    specialize (He (lib s0)). cbn [mysql_query deadlocking demo]. destruct (reply (λ _, ER_LOCK_DEADLOCK) (lib s0)) as [[] m1]; cbn [fst snd] in *.
    - by eexists _, _.
    - rewrite ask_bind. cbn [mysql_errno deadlocking demo lib]. rewrite (He eq_refl). eexists _, _. split; [reflexivity|done]. }
  intros Hs. unfold demo_raw, Append, make_transaction. cbn [m_queries app ExecuteTransaction].
  destruct (Hex START s Hs) as (b1 & s1 & H1 & Hs1). assert (m_Mysql (conn s1) = Some 1) as Hm1 by (by rewrite Hs1). rewrite (comp_bind_Returns _ _ s () s1).
  2:{ unfold BeginTransaction. by rewrite (comp_bind_Returns _ _ _ _ _ H1). }
  cbn [execute_elements execute_element]. destruct (Hex (text "update a set x = 1") s1 Hm1) as (b2 & s2 & H2 & Hs2). assert (m_Mysql (conn s2) = Some 1) as Hm2 by (by rewrite Hs2).
  rewrite (comp_bind_Returns _ _ _ _ _ H2). destruct b2.
  - destruct (Hex COMMIT s2 Hm2) as (b3 & s3 & H3 & Hs3). exists 0, s3. split; [|by rewrite Hs3, Hs2, Hs1].
    unfold CommitTransaction. rewrite (comp_bind_Returns _ _ s2 () s3); [done|]. by rewrite (comp_bind_Returns _ _ _ _ _ H3).
  - unfold GetLastError. rewrite (comp_bind_Returns _ _ s2 (last_errno (lib s2)) s2) by done.
    destruct (Hex ROLLBACK s2 Hm2) as (b3 & s3 & H3 & Hs3). exists (i32 (last_errno (lib s2))), s3. split; [|by rewrite Hs3, Hs2, Hs1].
    unfold RollbackTransaction. rewrite (comp_bind_Returns _ _ s2 () s3); [done|]. by rewrite (comp_bind_Returns _ _ _ _ _ H3).
Qed.
Lemma deadlocking_attempt s : m_Mysql (conn s) = Some 1 →
  ∃ r s', ExecuteTransaction (api := deadlocking) 1 (m_queries demo_raw) s = Returns r s' ∧ m_Mysql (conn s') = Some 1.
Proof. intros Hs. destruct (deadlocking_direct s Hs) as (r & s' & Hrun & Hm & _). by exists r, s'. Qed.

Definition demo_run : exit (task_state (M := server) (H := Z) (S := Z)) bool :=
  TransactionWithResultTask_Execute (api := deadlocking) demo_clock 1 40 0 7 (demo_task [0; 1213; 0; 0; 1213; 0; 0; 0; 0]).
Lemma TransactionWithResultTask_spec_witness : ∃ b t' l,
  demo_run = Returns b t' ∧ w_tries (t_world t') = l ∧ tried 32 b l ∧ w_commits (t_world t') = {[ 7%nat := b ]}.
Proof.
  destruct (@TransactionWithResultTask_spec server Z Z deadlocking demo_clock 1 (λ s, m_Mysql (conn s) = Some 1) demo_raw deadlocking_attempt
    40 0 7 (demo_task [0; 1213; 0; 0; 1213; 0; 0; 0; 0]) 0 32 eq_refl eq_refl eq_refl eq_refl ltac:(by vm_compute) ltac:(lia))
    as (b & t' & l & Hrun & _ & Hl & Ht & Hp & _).
  exists b, t', l. split; [exact Hrun|]. split; [exact Hl|]. by split.
Defined.
(** Two deadlocks, and then the transaction is committed. *)
Example demo_tries : (match demo_run with Returns b t => Some (b, w_tries (t_world t)) | _ => None end) = Some (true, [1213; 1213; 0]).
Proof. by vm_compute. Qed.

Lemma SQLQueryHolderTask_spec_witness : ∃ h', filled 0 [(Some demo_actor, None); (None, None)] h'.
Proof.
  assert (match SQLQueryHolderTask_Execute (api := losing) 1 0 0 5 (demo_task []) with Returns b t => b = true | _ => False end) as Hrun by by vm_compute.
  destruct (SQLQueryHolderTask_Execute (api := losing) 1 0 0 5 (demo_task [])) as [b t'| | | |] eqn:He; try destruct Hrun.
  destruct (@SQLQueryHolderTask_spec server Z Z losing demo_clock 1 0 0 5 (demo_task []) b t' [(Some demo_actor, None); (None, None)] He eq_refl) as (_ & _ & h' & _ & Hh').
  exists h'. exact Hh'.
Defined.
End DbTask.
