(* ===== verification/DbPool.v ===== *)
(** The pool of connections: src/mysql-conn-pool/dbimpl/DatabaseWorkerPool.cpp,
    for the connections of MySqlConn.v and the operations of DbTask.v.

    The functions run in the thread of the caller.  What other threads do
    meanwhile appears in [others]: which connections they hold at each try of
    [GetFreeConnection]. *)
From stdpp Require Import gmap.
From S2P Require Import Prelude Except Bytes Tokenize TaskQueue PreparedStatement Field ResultSet MySqlConn PcQueue DbTask QueryCallback AsyncProcessor.

Module DbPool.
Import Tokenize MySqlConn DbTask.

Inductive InternalIndex := IDX_ASYNC | IDX_SYNCH.
#[export] Instance index_eq_dec : EqDecision InternalIndex.
Proof. solve_decision. Defined.

Section pool.
Context {M H S : Type} {api : MySqlApi M H S}.
(** Whether the library was built for debugging; the oldest version of the
    server; and escaping, which is the client library's. *)
Context (TRINITY_DEBUG : bool) (MIN_SERVER_VERSION : Z) (mysql_real_escape_string : option H → bytes → M → bytes).
Context (F : nat) (junk : Z).
(** What callbacks do besides working on their query, and the code of those
    that do work on it. *)
Context {E C : Type} {program : @QueryCallback.Program (option ResultSet.ResultSet) (option ResultSet.PreparedResultSet) E C}.

Abbreviation connection := (MySQLConnection (H := H) (S := S)).
Abbreviation conn_comp A := (comp (state (M := M) (H := H) (S := S)) A).

Record pool := Pool {
  _queue : ProducerConsumerQueue.ProducerConsumerQueue SQLOperation;
  _connections : InternalIndex → list connection;
  _connectionInfo : option MySQLConnectionInfo;
  _preparedStatementSize : list Z;
  _async_threads : Z;
  _synch_threads : Z;
  outside : world (M := M);
}.
Definition with_queue q p := Pool q (_connections p) (_connectionInfo p) (_preparedStatementSize p) (_async_threads p) (_synch_threads p) (outside p).
Definition with_connections c p := Pool (_queue p) c (_connectionInfo p) (_preparedStatementSize p) (_async_threads p) (_synch_threads p) (outside p).
Definition with_info i p := Pool (_queue p) (_connections p) i (_preparedStatementSize p) (_async_threads p) (_synch_threads p) (outside p).
Definition with_sizes l p := Pool (_queue p) (_connections p) (_connectionInfo p) l (_async_threads p) (_synch_threads p) (outside p).
Definition with_threads a s p := Pool (_queue p) (_connections p) (_connectionInfo p) (_preparedStatementSize p) a s (outside p).
Definition with_outside w p := Pool (_queue p) (_connections p) (_connectionInfo p) (_preparedStatementSize p) (_async_threads p) (_synch_threads p) w.
Definition set_list (type : InternalIndex) (l : list connection) (c : InternalIndex → list connection) : InternalIndex → list connection :=
  λ t, if decide (t = type) then l else c t.

Definition make (w : world (M := M)) : pool := Pool ProducerConsumerQueue.make (λ _, []) None [] 0 0 w.

(** A connection that is not in the pool (yet); the information it refers to
    is the pool's. *)
Definition run_with {A} (info : MySQLConnectionInfo) (c : connection) (m : conn_comp A) : comp pool (A * connection) := λ p,
  let after (s : state (M := M) (H := H) (S := S)) := with_info (Some (m_connectionInfo (conn s))) (with_outside (with_lib (lib s) (sent s) (outside p)) p) in
  match m (State (set_info info c) (w_lib (outside p)) (w_sent (outside p))) with
  | Returns a s => Returns (a, conn s) (after s)
  | Throws s => Throws (after s)
  | Aborts s => Aborts (after s)
  | UB => UB
  | OutOfFuel => OutOfFuel
  end.
Definition run_on {A} (c : connection) (m : conn_comp A) : comp pool (A * connection) :=
  info ← getO _connectionInfo;
  run_with info c m.
(** A connection of the pool. *)
Definition on {A} (type : InternalIndex) (i : nat) (m : conn_comp A) : comp pool A :=
  c ← getO (λ p, _connections p type !! i);
  r ← run_on c m;
  modify (λ p, with_connections (set_list type (<[i := r.2]> (_connections p type)) (_connections p)) p);;
  mret r.1.

(** *** Opening and closing *)

Definition SetConnectionInfo (infoString : bytes) (asyncThreads synchThreads : Z) : comp pool unit :=
  info ← getO (λ _, MySQLConnectionInfo_construct infoString);
  modify (with_info (Some info));;
  modify (with_threads asyncThreads synchThreads).

(** The destructor of a connection, which stops its worker: that cancels the
    queue all workers share. *)
Definition destroy (type : InternalIndex) (c : connection) : comp pool unit :=
  match type with
  | IDX_ASYNC => modify (λ p, with_queue (ProducerConsumerQueue.Cancel (_queue p)) p)
  | IDX_SYNCH => mret ()
  end;;
  run_on c Close;;
  mret ().
Fixpoint destroy_all (type : InternalIndex) (l : list connection) : comp pool unit :=
  match l with [] => mret () | c :: l => destroy type c;; destroy_all type l end.
Definition clear (type : InternalIndex) : comp pool unit :=
  l ← get (λ p, _connections p type);
  modify (λ p, with_connections (set_list type [] (_connections p)) p);;
  destroy_all type l.

Definition flags_of (type : InternalIndex) : Z := match type with IDX_ASYNC => CONNECTION_ASYNC | IDX_SYNCH => CONNECTION_SYNCH end.
Fixpoint OpenConnections (type : InternalIndex) (numConnections : nat) : comp pool Z :=
  match numConnections with
  | O => mret 0
  | Datatypes.S n =>
      info ← getO _connectionInfo;
      r ← run_on (construct (flags_of type) info) MySqlConn.Open;
      let '(error, c) := r in
      if decide (error ≠ 0) then
        clear type;; destroy type c;; mret error
      else
        r ← run_on c GetServerVersion;
        let '(version, c) := r in
        if decide (version < MIN_SERVER_VERSION) then destroy type c;; mret 1
        else
          modify (λ p, with_connections (set_list type (_connections p type ++ [c]) (_connections p)) p);;
          OpenConnections type n
  end.
(** The numbers of threads are 8 bits wide. *)
Definition Open : comp pool Z :=
  info ← get _connectionInfo;
  ASSERT (if info : option MySQLConnectionInfo then true else false);;
  n ← get (λ p, Z.to_nat (u8 (_async_threads p)));
  error ← OpenConnections IDX_ASYNC n;
  if decide (error ≠ 0) then mret error
  else
    n ← get (λ p, Z.to_nat (u8 (_synch_threads p)));
    OpenConnections IDX_SYNCH n.
Definition Close : comp pool unit :=
  clear IDX_ASYNC;; clear IDX_SYNCH.

(** *** Preparing the statements *)

Definition mutex_unlock (type : InternalIndex) (i : nat) : comp pool unit := on type i Unlock.

(** The sizes a connection adds: the first statement prepared at an index
    decides. *)
Definition add_size (size : Z) (o : option (S * PreparedStatement.MySQLPreparedStatement)) : option Z :=
  if decide (size > 0) then Some size
  else match o with
  | Some (_, ps) =>
      let paramCount := PreparedStatement.m_paramCount ps in
      if decide (paramCount < 255) then Some paramCount else None
  | None => Some size
  end.
Fixpoint add_sizes (sizes : list Z) (stmts : list (option (S * PreparedStatement.MySQLPreparedStatement))) : option (list Z) :=
  match sizes, stmts with
  | size :: sizes, o :: stmts => size ← add_size size o; sizes ← add_sizes sizes stmts; Some (size :: sizes)
  | _, _ => Some sizes
  end.
Definition resize_to (n : nat) (l : list Z) : list Z := l ++ replicate (n - length l) 0.

(** From the [i]-th connection of the list on; [false]: closed. *)
Fixpoint prepare_connections (type : InternalIndex) (n i : nat) : comp pool bool :=
  match n with
  | O => mret true
  | Datatypes.S n =>
      on type i LockIfReady;;
      ok ← on type i MySqlConn.PrepareStatements;
      if negb (ok : bool) then
        mutex_unlock type i;; Close;; mret false
      else
        mutex_unlock type i;;
        c ← getO (λ p, _connections p type !! i);
        sizes ← get (λ p, resize_to (length (m_stmts c)) (_preparedStatementSize p));
        match add_sizes sizes (m_stmts c) with
        | None => abort
        | Some sizes => modify (with_sizes sizes);; prepare_connections type n (Datatypes.S i)
        end
  end.
Definition PrepareStatements : comp pool bool :=
  n ← get (λ p, length (_connections p IDX_ASYNC));
  ok ← prepare_connections IDX_ASYNC n 0;
  if (ok : bool) then
    n ← get (λ p, length (_connections p IDX_SYNCH));
    prepare_connections IDX_SYNCH n 0
  else mret false.
Definition GetPreparedStatement (index : Z) : comp pool PreparedStatement.PreparedStatementBase :=
  capacity ← getO (λ p, zlookup (_preparedStatementSize p) index);
  mret (PreparedStatement.make index capacity).

(** *** A free connection *)

(** [others k j]: at the k-th try another thread holds connection [j].  The
    counter [i] is 8 bits wide. *)
Fixpoint free_loop (fuel : nat) (others : nat → nat → bool) (k : nat) (i : Z) : comp pool nat :=
  match fuel with
  | O => no_fuel
  | Datatypes.S fuel =>
      num_cons ← get (λ p, zlength (_connections p IDX_SYNCH));
      let i := u8 (i + 1) in
      if decide (num_cons = 0) then ub
      else
        let j := Z.to_nat (i mod num_cons) in
        ok ← (if others k j then mret false else on IDX_SYNCH j LockIfReady);
        if (ok : bool) then mret j else free_loop fuel others (Datatypes.S k) i
  end.
Definition GetFreeConnection (fuel : nat) (others : nat → nat → bool) : comp pool nat := free_loop fuel others 0 0.

(** *** Synchronous queries *)

Definition Enqueue (op : SQLOperation) : comp pool unit :=
  modify (λ p, with_queue (ProducerConsumerQueue.Push op (_queue p)) p).
Definition QueueSize : comp pool Z := get (λ p, ProducerConsumerQueue.Size (_queue p)).
Definition GetDatabaseName : comp pool bytes := info ← getO _connectionInfo; mret (database info).

(** [IsFormatEmptyOrNull]: a null pointer is [None]. *)
Definition Execute (sql : option bytes) : comp pool unit :=
  match sql with Some sql => Enqueue (BasicStatementTask sql None) | None => mret () end.
Definition Execute_stmt (stmt : PreparedStatement.PreparedStatementBase) : comp pool unit :=
  Enqueue (PreparedStatementTask stmt None).
Definition DirectExecute (fuel : nat) (others : nat → nat → bool) (sql : option bytes) : comp pool unit :=
  match sql with
  | Some sql => j ← GetFreeConnection fuel others; on IDX_SYNCH j (MySqlConn.Execute F sql);; mutex_unlock IDX_SYNCH j
  | None => mret ()
  end.
Definition DirectExecute_stmt (fuel : nat) (others : nat → nat → bool) (stmt : PreparedStatement.PreparedStatementBase) : comp pool unit :=
  j ← GetFreeConnection fuel others; on IDX_SYNCH j (MySqlConn.Execute_stmt F stmt);; mutex_unlock IDX_SYNCH j.

(** [NextRow] of the result itself. *)
Definition next_row (r : ResultSet.ResultSet) : comp pool (option ResultSet.ResultSet) :=
  match ResultSet.NextRow r with
  | Returns true r => mret (Some r)
  | Returns false _ => mret None
  | Throws _ => throw
  | Aborts _ => abort
  | UB => ub
  | OutOfFuel => no_fuel
  end.
Definition Query (fuel : nat) (others : nat → nat → bool) (sql : option bytes) (connection : option nat) : comp pool (option ResultSet.ResultSet) :=
  j ← (match connection with Some j => mret j | None => GetFreeConnection fuel others end);
  result ← on IDX_SYNCH j (MySqlConn.Query F sql);
  mutex_unlock IDX_SYNCH j;;
  match result : option ResultSet.ResultSet with
  | Some r => if decide (ResultSet._rowCount r = 0) then mret None else next_row r
  | None => mret None
  end.
Definition Query_stmt (fuel : nat) (others : nat → nat → bool) (stmt : PreparedStatement.PreparedStatementBase) : comp pool (option ResultSet.PreparedResultSet) :=
  j ← GetFreeConnection fuel others;
  ret ← on IDX_SYNCH j (MySqlConn.Query_stmt junk F stmt);
  mutex_unlock IDX_SYNCH j;;
  match ret : option ResultSet.PreparedResultSet with
  | Some r =>
      if decide (ResultSet.m_rowCount r = 0) then
        match ResultSet.CleanUp_prepared r with UB => ub | _ => mret None end
      else mret (Some r)
  | None => mret None
  end.

(** *** Asynchronous queries *)

(** [p]: the number of the new promise. *)
Definition AsyncQuery (sql : bytes) (p : nat) : comp pool (@QueryCallback.QueryCallback (option ResultSet.ResultSet) (option ResultSet.PreparedResultSet) E C) :=
  Enqueue (BasicStatementTask sql (Some p));;
  mret (QueryCallback.from_string_future (QueryCallback.State p)).
Definition AsyncQuery_stmt (stmt : PreparedStatement.PreparedStatementBase) (p : nat) : comp pool (@QueryCallback.QueryCallback (option ResultSet.ResultSet) (option ResultSet.PreparedResultSet) E C) :=
  Enqueue (PreparedStatementTask stmt (Some p));;
  mret (QueryCallback.from_prepared_future (QueryCallback.State p)).
Definition DelayQueryHolder (holder p : nat) : comp pool (@AsyncProcessor.SQLQueryHolderCallback E nat) :=
  Enqueue (SQLQueryHolderTask holder p);;
  mret (AsyncProcessor.Holder holder (QueryCallback.State p) None).

(** *** Transactions *)

(** [t]: the number of the new transaction. *)
Definition BeginTransaction (t : nat) : comp pool nat :=
  modify (λ p, with_outside (with_transactions (<[t := make_transaction]> (w_transactions (outside p))) (outside p)) p);;
  mret t.
Definition get_transaction (t : nat) : comp pool TransactionBase := getO (λ p, w_transactions (outside p) !! t).
Definition change_transaction (t : nat) (f : TransactionBase → TransactionBase) : comp pool unit :=
  modify (λ p, with_outside (with_transactions (alter f t (w_transactions (outside p))) (outside p)) p).

Definition CommitTransaction (t : nat) : comp pool unit :=
  tr ← get_transaction t;
  if TRINITY_DEBUG && bool_decide (GetSize tr = 0) then mret ()
  else Enqueue (TransactionTask t).
Definition AsyncCommitTransaction (t p : nat) : comp pool (@AsyncProcessor.TransactionCallback E) :=
  Enqueue (TransactionWithResultTask t p);;
  mret (AsyncProcessor.from_future (QueryCallback.State p)).

Definition execute_on (j t : nat) : comp pool Z :=
  tr ← get_transaction t;
  r ← on IDX_SYNCH j (ExecuteTransaction F (m_queries tr));
  modify (λ p, with_outside (with_tries (w_tries (outside p) ++ [r]) (outside p)) p);;
  mret r.
(** [n]: [loopBreaker - i]. *)
Fixpoint retry_direct (n : nat) (j t : nat) : comp pool unit :=
  match n with
  | O => mret ()
  | Datatypes.S n =>
      r ← execute_on j t;
      if decide (r = 0) then mret () else retry_direct n j t
  end.
Definition DirectCommitTransaction (fuel : nat) (others : nat → nat → bool) (t : nat) : comp pool unit :=
  j ← GetFreeConnection fuel others;
  errorCode ← execute_on j t;
  if decide (errorCode = 0) then mutex_unlock IDX_SYNCH j
  else
    (if decide (errorCode = ER_LOCK_DEADLOCK) then retry_direct 5 j t else mret ());;
    change_transaction t Cleanup;;
    mutex_unlock IDX_SYNCH j.

(** [trans]: [None] is the null pointer. *)
Definition ExecuteOrAppend (trans : option nat) (sql : bytes) : comp pool unit :=
  match trans with
  | None => Execute (Some sql)
  | Some t => change_transaction t (Append sql)
  end.
Definition ExecuteOrAppend_stmt (trans : option nat) (stmt : PreparedStatement.PreparedStatementBase) : comp pool unit :=
  match trans with
  | None => Execute_stmt stmt
  | Some t => change_transaction t (AppendPreparedStatement stmt)
  end.

(** The text up to the first byte 0. *)
Fixpoint c_string (s : bytes) : bytes :=
  match s with [] => [] | b :: s => if decide (b = 0) then [] else b :: c_string s end.

(** *** Escaping and keeping connections alive *)

Definition EscapeString (from : bytes) : comp pool bytes :=
  c ← getO (λ p, head (_connections p IDX_SYNCH));
  get (λ p, mysql_real_escape_string (m_Mysql (c : connection)) from (w_lib (outside p))).
(** The string read back from the buffer, whose size is [2 * n + 1]: writing
    more is undefined; the string ends at the first byte 0. *)
Definition EscapeString_str (str : bytes) : comp pool bytes :=
  if decide (str = []) then mret str
  else
    escaped ← EscapeString str;
    if decide (length escaped ≤ 2 * length str)%nat then mret (c_string escaped) else ub.

Fixpoint ping_synch (n j : nat) : comp pool unit :=
  match n with
  | O => mret ()
  | Datatypes.S n =>
      ok ← on IDX_SYNCH j LockIfReady;
      (if (ok : bool) then on IDX_SYNCH j Ping;; mutex_unlock IDX_SYNCH j else mret ());;
      ping_synch n (Datatypes.S j)
  end.
Fixpoint ping_async (fuel : nat) (i count : Z) : comp pool unit :=
  match fuel with
  | O => no_fuel
  | Datatypes.S fuel =>
      if decide (i < count) then Enqueue PingOperation;; ping_async fuel (u8 (i + 1)) count
      else mret ()
  end.
Definition KeepAlive (fuel : nat) : comp pool unit :=
  n ← get (λ p, length (_connections p IDX_SYNCH));
  ping_synch n 0;;
  count ← get (λ p, zlength (_connections p IDX_ASYNC));
  ping_async fuel 0 count.

(** ** Locks *)

Definition locks (p : pool) : list bool := m_Mutex <$> _connections p IDX_SYNCH.
(** Nothing but locks differs. *)
Definition same_but_locks (p p' : pool) : Prop :=
  _queue p' = _queue p ∧ _connections p' IDX_ASYNC = _connections p IDX_ASYNC ∧ _connectionInfo p' = _connectionInfo p ∧
  _preparedStatementSize p' = _preparedStatementSize p ∧ outside p' = outside p ∧
  ∀ j c', _connections p' IDX_SYNCH !! j = Some c' → ∃ c, _connections p IDX_SYNCH !! j = Some c ∧ m_Mysql c' = m_Mysql c ∧ m_stmts c' = m_stmts c.

Lemma same_but_locks_refl p : same_but_locks p p.
Proof. do 5 (split; [done|]). eauto. Qed.
Lemma same_but_locks_trans p1 p2 p3 : same_but_locks p1 p2 → same_but_locks p2 p3 → same_but_locks p1 p3.
Proof.
  intros (Hq1 & Ha1 & Hi1 & Hs1 & Ho1 & Hc1) (Hq2 & Ha2 & Hi2 & Hs2 & Ho2 & Hc2). do 5 (split; [congruence|]).
  intros j c3 Hj3. destruct (Hc2 j c3 Hj3) as (c2 & Hj2 & ? & ?). destruct (Hc1 j c2 Hj2) as (c1 & Hj1 & ? & ?). exists c1. split; [done|]. split; congruence.
Qed.

(** A call on a connection that answers [a] and gives it the lock [b]. *)
Lemma on_lock {A} (m : conn_comp A) j c info p (a : A) (b : bool) :
  _connections p IDX_SYNCH !! j = Some c → _connectionInfo p = Some info →
  (∀ s, conn s = set_info info c → m s = Returns a (with_conn (set_Mutex b) s)) →
  ∃ p', on IDX_SYNCH j m p = Returns a p' ∧ locks p' = <[j := b]> (locks p) ∧ same_but_locks p p'.
Proof.
  intros Hc Hinfo Hm. unfold on, run_on. rewrite (getO_bind _ _ _ c) by exact Hc.
  rewrite (comp_bind_Returns _ _ p (a, set_Mutex b (set_info info c)) (with_info (Some info) p)).
  2:{ rewrite (getO_bind _ _ _ info) by exact Hinfo. unfold run_with. rewrite Hm by done. cbn.
      destruct p as [q cs i sz a0 s0 w]. cbn in *. f_equal. unfold with_info, with_outside. cbn. f_equal. by destruct w. }
  rewrite modify_bind. eexists. split; [done|]. split.
  - unfold locks. cbn. unfold set_list. rewrite decide_True by done. by rewrite list_fmap_insert.
  - do 2 (split; [done|]). split; [by cbn|]. split; [done|]. split; [done|]. cbn. unfold set_list. rewrite decide_True by done.
    intros j' c'. destruct (decide (j = j')) as [<-|Hne].
    + rewrite list_lookup_insert_eq by (by eapply lookup_lt_Some). intros [= <-]. by exists c.
    + rewrite list_lookup_insert_ne by done. eauto.
Qed.

Lemma lock_spec j c info p :
  _connections p IDX_SYNCH !! j = Some c → _connectionInfo p = Some info →
  ∃ p', on IDX_SYNCH j LockIfReady p = Returns (negb (m_Mutex c)) p' ∧ locks p' = <[j := true]> (locks p) ∧ same_but_locks p p'.
Proof.
  intros Hc Hinfo. apply (on_lock _ _ c info); [done|done|]. intros [c0 l0 s0] Hs. cbn in Hs. subst c0. unfold LockIfReady. rewrite member_bind.
  cbn. destruct (m_Mutex c) eqn:Hm; cbn; [|done]. unfold with_conn, set_Mutex, set_info. cbn. by rewrite Hm.
Qed.
Lemma unlock_spec j info p :
  locks p !! j = Some true → _connectionInfo p = Some info →
  ∃ p', mutex_unlock IDX_SYNCH j p = Returns () p' ∧ locks p' = <[j := false]> (locks p) ∧ same_but_locks p p'.
Proof.
  intros Hl Hinfo. unfold locks in Hl. rewrite list_lookup_fmap in Hl. destruct (_connections p IDX_SYNCH !! j) as [c|] eqn:Hc; [|done]. cbn in Hl. injection Hl as Hm.
  apply (on_lock _ _ c info); [done|done|]. intros s Hs. unfold Unlock. rewrite member_bind. rewrite Hs. cbn. by rewrite Hm.
Qed.

(** The connection tried at the k-th try. *)
Definition tried_at (n k : nat) : nat := Z.to_nat (u8 (Z.of_nat k + 1) mod Z.of_nat n).

Lemma free_loop_finds n others k0 fuel k p info :
  length (locks p) = n → (0 < n)%nat → _connectionInfo p = Some info →
  (k ≤ k0)%nat → (k0 < k + fuel)%nat → others k0 (tried_at n k0) = false → locks p !! tried_at n k0 = Some false →
  ∃ k' p', free_loop fuel others k (u8 (Z.of_nat k)) p = Returns (tried_at n k') p' ∧ (k ≤ k' ≤ k0)%nat ∧
    others k' (tried_at n k') = false ∧ locks p !! tried_at n k' = Some false ∧
    locks p' = <[tried_at n k' := true]> (locks p) ∧ same_but_locks p p'.
Proof.
  revert k p. induction fuel as [|fuel IH]; intros k p Hn Hpos Hinfo Hk Hf Hoth Hfree; [lia|]. cbn [free_loop]. rewrite get_bind.
  assert (zlength (_connections p IDX_SYNCH) = Z.of_nat n) as -> by (unfold zlength; rewrite <-Hn; unfold locks; by rewrite length_fmap).
  rewrite decide_False by lia.
  assert (u8 (u8 (Z.of_nat k) + 1) = u8 (Z.of_nat k + 1)) as -> by word_lia.
  change (Z.to_nat (u8 (Z.of_nat k + 1) mod Z.of_nat n)) with (tried_at n k).
  assert (tried_at n k < n)%nat as Hlt by (unfold tried_at; pose proof (Z.mod_pos_bound (u8 (Z.of_nat k + 1)) (Z.of_nat n)); lia).
  destruct (_connections p IDX_SYNCH !! tried_at n k) as [c|] eqn:Hc.
  2:{ apply lookup_ge_None in Hc. unfold locks in Hn. rewrite length_fmap in Hn. lia. }
  assert (locks p !! tried_at n k = Some (m_Mutex c)) as Hl by (unfold locks; by rewrite list_lookup_fmap, Hc).
  destruct (lock_spec (tried_at n k) c info p Hc Hinfo) as (p1 & Hrun & Hlocks & Hsame).
  assert (∀ p2, locks p2 = locks p → same_but_locks p p2 → (k ≠ k0) →
    ∃ k' p', free_loop fuel others (Datatypes.S k) (u8 (Z.of_nat k + 1)) p2 = Returns (tried_at n k') p' ∧ (k ≤ k' ≤ k0)%nat ∧
      others k' (tried_at n k') = false ∧ locks p !! tried_at n k' = Some false ∧
      locks p' = <[tried_at n k' := true]> (locks p) ∧ same_but_locks p p') as Hnext.
  { intros p2 Hl2 Hs2 Hne. replace (Z.of_nat k + 1) with (Z.of_nat (Datatypes.S k)) by lia.
    destruct (IH (Datatypes.S k) p2) as (k' & p' & Hr & Hk' & Ho' & Hf' & Hl' & Hs'); try (rewrite ?Hl2; done || lia).
    { destruct Hs2 as (_ & _ & -> & _). done. }
    exists k', p'. rewrite Hl2 in *. do 5 (split; [done || lia|]). by eapply same_but_locks_trans. }
  destruct (others k (tried_at n k)) eqn:Ho.
  - rewrite (comp_bind_Returns _ _ p false p) by done. apply Hnext; [done|apply same_but_locks_refl|]. intros ->. congruence.
  - rewrite (comp_bind_Returns _ _ _ _ _ Hrun). destruct (m_Mutex c) eqn:Hm; cbn [negb].
    + apply Hnext; [rewrite Hlocks; by apply list_insert_id|done|]. intros ->. congruence.
    + exists k, p1. split; [done|]. split; [lia|]. done.
Qed.

Lemma GetFreeConnection_run fuel others p info j :
  (length (locks p) ≤ 255)%nat → (length (locks p) ≤ fuel)%nat → _connectionInfo p = Some info →
  locks p !! j = Some false → (∀ k, (k < length (locks p))%nat → others k j = false) →
  ∃ k j' p', GetFreeConnection fuel others p = Returns j' p' ∧ (k < length (locks p))%nat ∧
    others k j' = false ∧ locks p !! j' = Some false ∧ locks p' = <[j' := true]> (locks p) ∧ same_but_locks p p'.
Proof.
  intros Hn Hf Hinfo Hj Hoth. pose proof (lookup_lt_Some _ _ _ Hj) as Hlt. set (n := length (locks p)) in *.
  set (k0 := (if decide (j = 0) then n - 1 else j - 1)%nat).
  assert (tried_at n k0 = j) as Hk0.
  { unfold tried_at, k0. case_decide.
    - subst j. rewrite (wrap_small 8) by lia. replace (Z.of_nat (n - 1) + 1) with (Z.of_nat n) by lia. by rewrite Z_mod_same_full.
    - rewrite (wrap_small 8) by lia. rewrite Z.mod_small by lia. lia. }
  assert (k0 < n)%nat by (unfold k0; case_decide; lia).
  destruct (free_loop_finds n others k0 fuel 0 p info) as (k' & p' & Hrun & Hk' & Ho' & Hf' & Hl' & Hs'); try done; try lia.
  { rewrite Hk0. by apply Hoth. }
  { by rewrite Hk0. }
  exists k', (tried_at n k'), p'. split; [exact Hrun|]. split; [lia|]. done.
Qed.

(** C15: While one of at most 255 connections stays free, the search finds a free
    connection within as many tries as there are connections, and returns with
    its lock taken; no other lock and nothing else changes.  (The counter is 8
    bits wide: after 255 it starts again.) *)
Theorem GetFreeConnection_finds fuel others p info j :
  (length (locks p) ≤ 255)%nat → (length (locks p) ≤ fuel)%nat → _connectionInfo p = Some info →
  locks p !! j = Some false → (∀ k, (k < length (locks p))%nat → others k j = false) →
  ∃ k j' p', GetFreeConnection fuel others p = Returns j' p' ∧ (k < length (locks p))%nat ∧
    others k j' = false ∧ locks p !! j' = Some false ∧ locks p' = <[j' := true]> (locks p) ∧ same_but_locks p p'.
Proof. apply GetFreeConnection_run. Qed.

(** Without synchronous connections the remainder is undefined. *)
Lemma GetFreeConnection_none fuel others p : _connections p IDX_SYNCH = [] → GetFreeConnection (Datatypes.S fuel) others p = UB.
Proof. intros Hn. unfold GetFreeConnection. cbn [free_loop]. rewrite get_bind, Hn. done. Qed.

(** ** Transactions of the caller's thread *)

Section direct.
(** Executing the transaction [tr] on a connection returns, as long as [I]
    holds, and leaves the lock of the connection alone. *)
Context (I : state (M := M) (H := H) (S := S) → Prop) (tr : TransactionBase).
Context (attempt : ∀ s, I s → ∃ r s', ExecuteTransaction F (m_queries tr) s = Returns r s' ∧ I s' ∧ m_Mutex (conn s') = m_Mutex (conn s)).

Definition ready (j t : nat) (p : pool) : Prop :=
  ∃ c info, _connections p IDX_SYNCH !! j = Some c ∧ _connectionInfo p = Some info ∧
    I (State (set_info info c) (w_lib (outside p)) (w_sent (outside p))) ∧ w_transactions (outside p) !! t = Some tr.

Lemma execute_on_run j t p :
  ready j t p → ∃ r p', execute_on j t p = Returns r p' ∧ ready j t p' ∧ locks p' = locks p ∧
    w_transactions (outside p') = w_transactions (outside p) ∧ w_tries (outside p') = w_tries (outside p) ++ [r].
Proof.
  intros (c & info & Hc & Hinfo & HI & Ht). destruct (attempt _ HI) as (r & s' & Hrun & HI' & Hm).
  unfold execute_on, get_transaction. rewrite (getO_bind _ _ _ tr) by exact Ht.
  unfold on. set (p1 := with_info (Some (m_connectionInfo (conn s'))) (with_outside (with_lib (lib s') (sent s') (outside p)) p)).
  set (p2 := with_connections (set_list IDX_SYNCH (<[j := conn s']> (_connections p1 IDX_SYNCH)) (_connections p1)) p1).
  rewrite (comp_bind_Returns _ _ p r p2).
  2:{ rewrite (getO_bind _ _ _ c) by exact Hc. rewrite (comp_bind_Returns _ _ p (r, conn s') p1); [done|].
      unfold run_on. rewrite (getO_bind _ _ _ info) by exact Hinfo. unfold run_with. by rewrite Hrun. }
  rewrite modify_bind. eexists r, _. split; [done|]. split; [|split; [|split; [done|done]]].
  - exists (conn s'), (m_connectionInfo (conn s')). cbn. unfold set_list. rewrite decide_True by done. rewrite list_lookup_insert_eq by (by eapply lookup_lt_Some).
    split; [done|]. split; [done|]. split; [|done]. destruct s' as [c' l' se']. cbn in *. by destruct c'.
  - unfold locks. cbn. unfold set_list. rewrite decide_True by done. rewrite list_fmap_insert. apply list_insert_id. rewrite list_lookup_fmap, Hc. cbn. by rewrite Hm.
Qed.

Lemma retry_direct_run n j t p :
  ready j t p → ∃ p' l, retry_direct n j t p = Returns () p' ∧ ready j t p' ∧ locks p' = locks p ∧
    w_transactions (outside p') = w_transactions (outside p) ∧ w_tries (outside p') = w_tries (outside p) ++ l ∧
    (length l ≤ n)%nat ∧ Forall (λ r, r ≠ 0) (removelast l) ∧ (last l ≠ Some 0 → length l = n).
Proof.
  revert p. induction n as [|n IH]; intros p Hp; cbn [retry_direct].
  { exists p, []. do 4 (split; [done|]). split; [by rewrite app_nil_r|]. done. }
  destruct (execute_on_run j t p Hp) as (r & p1 & Hrun & Hp1 & Hl1 & Ht1 & Hs1). rewrite (comp_bind_Returns _ _ _ _ _ Hrun).
  case_decide as Hr.
  - subst r. exists p1, [0]. do 5 (split; [done|]). cbn. split; [lia|]. done.
  - destruct (IH p1 Hp1) as (p' & l & Hrun' & Hp' & Hl' & Ht' & Hs' & Hlen & Hall & Hend). exists p', (r :: l).
    split; [done|]. split; [done|]. split; [congruence|]. split; [congruence|]. split; [by rewrite Hs', Hs1, <-app_assoc|].
    split; [cbn; lia|]. destruct l as [|r' l]; [|].
    + split; [done|]. intros _. cbn. rewrite <-Hend by done. done.
    + split; [by constructor|]. intros Hne. cbn in *. by rewrite Hend.
Qed.

(** C16: A transaction of the caller's thread takes a free connection and gives it
    back, whatever happens to it.  It is tried again only after a deadlock, at
    most five times, and no more after a success; unless the first try
    succeeds its queries are freed. *)
Theorem DirectCommitTransaction_spec fuel others t p info j :
  (length (locks p) ≤ 255)%nat → (length (locks p) ≤ fuel)%nat → _connectionInfo p = Some info →
  locks p !! j = Some false → (∀ k, (k < length (locks p))%nat → others k j = false) →
  w_transactions (outside p) !! t = Some tr →
  (∀ j' c c', _connections p IDX_SYNCH !! j' = Some c → m_Mysql c' = m_Mysql c → m_stmts c' = m_stmts c →
    I (State (set_info info c') (w_lib (outside p)) (w_sent (outside p)))) →
  ∃ p' r l, DirectCommitTransaction fuel others t p = Returns () p' ∧ locks p' = locks p ∧
    w_tries (outside p') = w_tries (outside p) ++ r :: l ∧ (length l ≤ 5)%nat ∧ (l ≠ [] → r = ER_LOCK_DEADLOCK) ∧ Forall (λ r, r ≠ 0) (removelast l) ∧
    w_transactions (outside p') = (if decide (r = 0) then w_transactions (outside p) else <[t := Cleanup tr]> (w_transactions (outside p))).
Proof.
  intros Hn Hf Hinfo Hj Hoth Ht HI.
  destruct (GetFreeConnection_run fuel others p info j Hn Hf Hinfo Hj Hoth) as (k & j' & p1 & Hrun & _ & _ & Hj' & Hl1 & Hs1).
  unfold DirectCommitTransaction. rewrite (comp_bind_Returns _ _ _ _ _ Hrun).
  assert (_connectionInfo p1 = Some info ∧ outside p1 = outside p) as [Hinfo1 Ho1] by (destruct Hs1 as (_ & _ & Hi & _ & Ho & _); by rewrite Hi).
  assert (∃ c, _connections p1 IDX_SYNCH !! j' = Some c) as [c Hc].
  { assert (locks p1 !! j' = Some true) as Hl by (rewrite Hl1; apply list_lookup_insert_eq; by eapply lookup_lt_Some).
    unfold locks in Hl. rewrite list_lookup_fmap in Hl. destruct (_connections p1 IDX_SYNCH !! j'); [by eexists|done]. }
  assert (I (State (set_info info c) (w_lib (outside p)) (w_sent (outside p)))) as HIc.
  { destruct Hs1 as (_ & _ & _ & _ & _ & Hs1). destruct (Hs1 j' c Hc) as (c0 & Hc0 & ? & ?). by eapply HI. }
  assert (ready j' t p1) as Hp1 by (exists c, info; rewrite Ho1; done).
  destruct (execute_on_run j' t p1 Hp1) as (r & p2 & Hrun2 & Hp2 & Hl2 & Ht2 & Hs2). rewrite (comp_bind_Returns _ _ _ _ _ Hrun2).
  assert (∀ q, ready j' t q → locks q = locks p1 → ∃ q', mutex_unlock IDX_SYNCH j' q = Returns () q' ∧ locks q' = locks p ∧ outside q' = outside q) as Hunlock.
  { intros q (cq & iq & _ & Hiq & _) Hlq. destruct (unlock_spec j' iq q) as (q' & Hq' & Hlq' & (_ & _ & _ & _ & Hoq & _)); [|done|].
    - rewrite Hlq, Hl1. apply list_lookup_insert_eq. by eapply lookup_lt_Some.
    - exists q'. split; [done|]. split; [|done]. rewrite Hlq', Hlq, Hl1, list_insert_insert_eq. by apply list_insert_id. }
  case_decide as Hr.
  - destruct (Hunlock p2 Hp2 Hl2) as (p' & Hq & Hlp & Hop). exists p', r, []. split; [done|]. split; [done|].
    rewrite Hop, Hs2, Ho1. split; [done|]. split; [cbn; lia|]. split; [done|]. split; [done|]. rewrite decide_True by done. by rewrite Ht2, Ho1.
  - assert (∃ p3 l, (if decide (r = ER_LOCK_DEADLOCK) then retry_direct 5 j' t else mret ()) p2 = Returns () p3 ∧ ready j' t p3 ∧ locks p3 = locks p2 ∧
      w_transactions (outside p3) = w_transactions (outside p2) ∧ w_tries (outside p3) = w_tries (outside p2) ++ l ∧ (length l ≤ 5)%nat ∧
      (l ≠ [] → r = ER_LOCK_DEADLOCK) ∧ Forall (λ r, r ≠ 0) (removelast l)) as (p3 & l & Hrun3 & Hp3 & Hl3 & Ht3 & Hs3 & Hlen & Hdead & Hall).
    { case_decide as Hd.
      - destruct (retry_direct_run 5 j' t p2 Hp2) as (p3 & l & Hx1 & Hx2 & Hx3 & Hx4 & Hx5 & Hx6 & Hx7 & _).
        exists p3, l. do 7 (split; [done|]). exact Hx7.
      - exists p2, []. do 4 (split; [done|]). split; [by rewrite app_nil_r|]. split; [cbn; lia|]. done. }
    rewrite (comp_bind_Returns _ _ _ _ _ Hrun3). unfold change_transaction. rewrite modify_bind.
    set (p4 := with_outside _ p3).
    destruct (unlock_spec j' (default info (_connectionInfo p3)) p4) as (p' & Hq & Hlp & (_ & _ & _ & _ & Hop & _)).
    { change (locks p4) with (locks p3). rewrite Hl3, Hl2, Hl1. apply list_lookup_insert_eq. by eapply lookup_lt_Some. }
    { destruct Hp3 as (? & i3 & _ & Hi3 & _). cbn. by rewrite Hi3. }
    exists p', r, l. split; [exact Hq|]. split.
    { rewrite Hlp. change (locks p4) with (locks p3). rewrite Hl3, Hl2, Hl1, list_insert_insert_eq. by apply list_insert_id. }
    rewrite Hop. cbn. rewrite Hs3, Hs2, Ho1, <-app_assoc. do 4 (split; [done|]).
    rewrite decide_False by done. rewrite Ht3, Ht2, Ho1. by apply alter_insert_Some.
Qed.
End direct.

(** ** Opening *)

Lemma Close_run (s : state (M := M) (H := H) (S := S)) : ∃ s' : state, MySqlConn.Close s = Returns () s' ∧ sent s' = sent s.
Proof. unfold MySqlConn.Close. rewrite member_bind, library__bind, update_bind, member_bind. by destruct (m_Mysql _); eexists. Qed.

Lemma run_on_Returns {A} c (m : conn_comp A) p info a s :
  _connectionInfo p = Some info → m (State (set_info info c) (w_lib (outside p)) (w_sent (outside p))) = Returns a s →
  run_on c m p = Returns (a, conn s) (with_info (Some (m_connectionInfo (conn s))) (with_outside (with_lib (lib s) (sent s) (outside p)) p)).
Proof. intros Hi Hm. unfold run_on. rewrite (getO_bind _ _ _ info) by exact Hi. unfold run_with. by rewrite Hm. Qed.

Lemma destroy_run type c p :
  is_Some (_connectionInfo p) →
  ∃ p' : pool, destroy type c p = Returns () p' ∧ _connections p' = _connections p ∧ is_Some (_connectionInfo p') ∧
    _synch_threads p' = _synch_threads p ∧
    _queue p' = (if decide (type = IDX_ASYNC) then ProducerConsumerQueue.Cancel (_queue p) else _queue p) ∧
    w_sent (outside p') = w_sent (outside p).
Proof.
  intros [info Hinfo]. unfold destroy.
  set (p1 := if decide (type = IDX_ASYNC) then with_queue (ProducerConsumerQueue.Cancel (_queue p)) p else p).
  rewrite (comp_bind_Returns _ _ p () p1) by (unfold p1; by destruct type).
  destruct (Close_run (State (set_info info c) (w_lib (outside p1)) (w_sent (outside p1)))) as (s' & Hs' & Hsent).
  rewrite (comp_bind_Returns _ _ _ _ _ (run_on_Returns c MySqlConn.Close p1 info () s' ltac:(by unfold p1; destruct type) Hs')).
  eexists. split; [done|]. cbn. rewrite Hsent. unfold p1. destruct type; cbn; (split; [done|]; split; [by eexists|]; by split).
Qed.

Lemma destroy_all_run type l p :
  is_Some (_connectionInfo p) →
  ∃ p' : pool, destroy_all type l p = Returns () p' ∧ _connections p' = _connections p ∧ is_Some (_connectionInfo p') ∧
    _synch_threads p' = _synch_threads p ∧ w_sent (outside p') = w_sent (outside p).
Proof.
  revert p. induction l as [|c l IH]; intros p Hi; cbn [destroy_all]; [by exists p|].
  destruct (destroy_run type c p Hi) as (p1 & Hrun & Hc & Hi1 & Ht & _ & Hw). rewrite (comp_bind_Returns _ _ _ _ _ Hrun).
  destruct (IH p1 Hi1) as (p' & ? & ? & ? & ? & ?). exists p'. split; [done|]. split; [congruence|]. split; [done|]. split; congruence.
Qed.
Lemma clear_run type p :
  is_Some (_connectionInfo p) →
  ∃ p' : pool, clear type p = Returns () p' ∧ _connections p' type = [] ∧ (∀ ty, ty ≠ type → _connections p' ty = _connections p ty) ∧
    is_Some (_connectionInfo p') ∧ _synch_threads p' = _synch_threads p ∧ w_sent (outside p') = w_sent (outside p).
Proof.
  intros Hi. unfold clear. rewrite get_bind, modify_bind.
  destruct (destroy_all_run type (_connections p type) (with_connections (set_list type [] (_connections p)) p)) as (p' & Hrun & Hc & Hi' & Ht & Hw); [done|].
  exists p'. split; [exact Hrun|]. rewrite Hc, Hw. cbn. unfold set_list. split; [by rewrite decide_True|]. split; [|done].
  intros ty Hne. by rewrite decide_False.
Qed.

(** After [Close] no connection is left. *)
Lemma Close_pool p :
  is_Some (_connectionInfo p) → ∃ p' : pool, Close p = Returns () p' ∧ ∀ type, _connections p' type = [].
Proof.
  intros Hi. unfold Close. destruct (clear_run IDX_ASYNC p Hi) as (p1 & Hr1 & Hc1 & _ & Hi1 & _). rewrite (comp_bind_Returns _ _ _ _ _ Hr1).
  destruct (clear_run IDX_SYNCH p1 Hi1) as (p2 & Hr2 & Hc2 & Ho2 & _). exists p2. split; [done|]. intros []; [by rewrite Ho2|done].
Qed.

Section opening.
Context (connect_errno : ∀ h i q u m, (mysql_real_connect h i q u m).1 = false → mysql_errno (Some h) (mysql_real_connect h i q u m).2 ≠ 0).

(** A connection as [OpenConnections] leaves it. *)
Definition opened (type : InternalIndex) (c : connection) : Prop :=
  is_Some (m_Mysql c) ∧ m_connectionFlags c = flags_of type ∧ m_stmts c = [] ∧ m_Mutex c = false ∧
  ∃ m, MIN_SERVER_VERSION ≤ mysql_get_server_version (m_Mysql c) m.

(** How opening [n] connections of a kind ends, [before] being there already:
    the result, the connections of the kind that are left, and what was sent to
    the server. *)
Inductive kind_opened (type : InternalIndex) (before : list connection) (n : nat) : Z → list connection → list (message) → Prop :=
  | all_open l : length l = n → Forall (opened type) l →
      kind_opened type before n 0 (before ++ l) (replicate n (Connect true))
  | connection_failed r k : r ≠ 0 → (k < n)%nat →
      kind_opened type before n r [] (replicate k (Connect true) ++ [Connect false])
  | handle_failed k : (k < n)%nat →
      kind_opened type before n CR_UNKNOWN_ERROR [] (replicate k (Connect true))
  | server_too_old l h m : (length l < n)%nat → Forall (opened type) l → mysql_get_server_version (Some h) m < MIN_SERVER_VERSION →
      kind_opened type before n 1 (before ++ l) (replicate (Datatypes.S (length l)) (Connect true)).

Lemma kind_opened_more type before c n r l msgs : opened type c →
  kind_opened type (before ++ [c]) n r l msgs → kind_opened type before (Datatypes.S n) r l (Connect true :: msgs).
Proof.
  intros Hc. inversion 1 as [l' Hlen Hall|r' k Hr Hk|k Hk|l' h m Hlen Hall Hver]; subst; rewrite <-?app_assoc.
  - apply (all_open type before (Datatypes.S (length l')) (c :: l')); [done|by constructor].
  - apply (connection_failed type before (Datatypes.S n) r (Datatypes.S k)); [done|lia].
  - apply (handle_failed type before (Datatypes.S n) (Datatypes.S k)). lia.
  - apply (server_too_old type before (Datatypes.S n) (c :: l') h m); [cbn; lia|by constructor|done].
Qed.

Definition after_opening (type : InternalIndex) (n : nat) (p : pool) (r : Z) (p' : pool) : Prop :=
  is_Some (_connectionInfo p') ∧ _synch_threads p' = _synch_threads p ∧
  (∀ ty, ty ≠ type → _connections p' ty = _connections p ty) ∧
  (if decide (r = 0) then _queue p' = _queue p else type = IDX_ASYNC → ProducerConsumerQueue._shutdown (_queue p') = true) ∧
  ∃ msgs, w_sent (outside p') = w_sent (outside p) ++ msgs ∧ kind_opened type (_connections p type) n r (_connections p' type) msgs.

Lemma OpenConnections_run type n p :
  is_Some (_connectionInfo p) → ∃ r p', OpenConnections type n p = Returns r p' ∧ after_opening type n p r p'.
Proof.
  revert p. induction n as [|n IH]; intros p Hi; cbn [OpenConnections].
  { exists 0, p. split; [done|]. do 4 (split; [done|]). exists []. rewrite app_nil_r. split; [done|].
    rewrite <-(app_nil_r (_connections p type)) at 2. by apply all_open. }
  pose proof Hi as [info Hinfo]. rewrite (getO_bind _ _ _ info) by exact Hinfo.
  destruct (MySqlConn.Open_spec connect_errno (State (set_info info (construct (flags_of type) info)) (w_lib (outside p)) (w_sent (outside p))))
    as (e & s1 & Hopen & (_ & _ & Hfl & Hst & Hmu) & Hres).
  rewrite (comp_bind_Returns _ _ _ _ _ (run_on_Returns _ _ p info e s1 Hinfo Hopen)). set (p1 := with_info _ _). cbn in Hfl, Hst, Hmu, Hres.
  case_decide as He.
  - destruct (clear_run type p1) as (p2 & Hr2 & Hc2 & Ho2 & Hi2 & Ht2 & Hw2); [by eexists|]. rewrite (comp_bind_Returns _ _ _ _ _ Hr2).
    destruct (destroy_run type (conn s1) p2 Hi2) as (p3 & Hr3 & Hc3 & Hi3 & Ht3 & Hq3 & Hw3). rewrite (comp_bind_Returns _ _ _ _ _ Hr3).
    exists e, p3. split; [done|]. split; [done|]. split; [by rewrite Ht3, Ht2|]. split; [intros ty Hty; rewrite Hc3; by apply Ho2|].
    split; [rewrite decide_False by done; intros ->; by rewrite Hq3|]. rewrite Hc3, Hc2, Hw3, Hw2. cbn.
    destruct Hres as [[? _]|[(_ & _ & ->)|(-> & _ & ->)]]; [done| |].
    + exists [Connect false]. split; [done|]. apply (connection_failed type _ _ e 0); [done|lia].
    + exists []. split; [by rewrite app_nil_r|]. apply (handle_failed type _ _ 0). lia.
  - destruct Hres as [(_ & Hh & Hsent)|[[? _]|[? _]]]; [|done|exfalso; unfold CR_UNKNOWN_ERROR in *; lia].
    set (v := mysql_get_server_version (m_Mysql (conn s1)) (lib s1)).
    set (s1' := State (set_info (m_connectionInfo (conn s1)) (conn s1)) (lib s1) (sent s1)).
    assert (GetServerVersion s1' = Returns v s1') as Hv by done.
    rewrite (comp_bind_Returns _ _ _ _ _ (run_on_Returns (conn s1) _ p1 _ v s1' eq_refl Hv)). set (p2 := with_info _ (with_outside _ p1)).
    case_decide as Hver.
    + destruct (destroy_run type (conn s1') p2) as (p3 & Hr3 & Hc3 & Hi3 & Ht3 & Hq3 & Hw3); [by eexists|]. rewrite (comp_bind_Returns _ _ _ _ _ Hr3).
      exists 1, p3. split; [done|]. split; [done|]. split; [by rewrite Ht3|]. split; [intros ty Hty; by rewrite Hc3|].
      split; [intros ->; by rewrite Hq3|]. rewrite Hc3, Hw3. cbn. rewrite Hsent. exists [Connect true]. split; [done|]. destruct Hh as [h Hh].
      unfold v in Hver. rewrite Hh in Hver. pose proof (server_too_old type (_connections p type) (Datatypes.S n) [] h (lib s1)) as Hold.
      rewrite app_nil_r in Hold. apply Hold; [cbn; lia|done|done].
    + assert (opened type (conn s1')) as Hopened by (split; [done|]; split; [done|]; split; [done|]; split; [done|]; exists (lib s1); cbn; fold v; lia).
      rewrite modify_bind. set (p3 := with_connections _ p2). destruct (IH p3) as (r & p' & Hrun & Hi' & Ht' & Ho' & Hq' & msgs & Hw' & Hres'); [by eexists|].
      assert (_connections p3 type = _connections p type ++ [conn s1']) as Hc3 by (cbn; unfold set_list; by rewrite decide_True).
      exists r, p'. split; [exact Hrun|]. split; [done|]. split; [by rewrite Ht'|].
      split. { intros ty Hty. rewrite Ho' by done. cbn. unfold set_list. by rewrite decide_False. }
      split; [exact Hq'|]. exists (Connect true :: msgs). split; [rewrite Hw'; cbn; by rewrite Hsent, <-app_assoc|].
      rewrite Hc3 in Hres'. by eapply kind_opened_more.
Qed.

(** C17: Opening an empty pool opens the asynchronous connections and, when all of
    them are open, the synchronous ones; the messages sent to the server
    determine what is left of a kind.  All connections that were asked for
    succeed: they stay, and the result is 0.  One of them fails after [k]
    others: none of its kind is left and the error is returned.  The server of
    the [(k+1)]-th is too old: the result is 1, and the [k] before it stay
    open, although the comment in the code says that they are cleaned up.  When
    the synchronous ones fail, all asynchronous ones stay open; once an
    asynchronous one has failed, the queue stays shut. *)
Theorem pool_Open_spec p :
  is_Some (_connectionInfo p) → (∀ type, _connections p type = []) → 
  let a := Z.to_nat (u8 (_async_threads p)) in let n := Z.to_nat (u8 (_synch_threads p)) in
  ∃ r p' ra sa, Open p = Returns r p' ∧ kind_opened IDX_ASYNC [] a ra (_connections p' IDX_ASYNC) sa ∧
    if decide (ra = 0) then
      ∃ ss, kind_opened IDX_SYNCH [] n r (_connections p' IDX_SYNCH) ss ∧ w_sent (outside p') = w_sent (outside p) ++ sa ++ ss ∧
        (r = 0 → _queue p' = _queue p)
    else r = ra ∧ _connections p' IDX_SYNCH = [] ∧ w_sent (outside p') = w_sent (outside p) ++ sa ∧
      ProducerConsumerQueue._shutdown (_queue p') = true.
Proof.
  intros Hi Hempty a n. unfold Open. rewrite get_bind. destruct Hi as [info Hinfo]. rewrite Hinfo. rewrite assert_bind by done. rewrite get_bind.
  destruct (OpenConnections_run IDX_ASYNC a p) as (r1 & p1 & Hr1 & Hi1 & Ht1 & Ho1 & Hq1 & sa & Hsa & Hres1); [by eexists|]. rewrite (comp_bind_Returns _ _ _ _ _ Hr1).
  assert (_connections p1 IDX_SYNCH = []) as Hsynch by (by rewrite Ho1). rewrite Hempty in Hres1.
  destruct (decide (r1 ≠ 0)) as [He|He].
  - rewrite decide_False in Hq1 by done. exists r1, p1, r1, sa. do 2 (split; [done|]). rewrite decide_False by done. split; [done|]. split; [done|]. split; [done|]. by apply Hq1.
  - assert (r1 = 0) as -> by lia. rewrite get_bind. cbn [decide] in Hq1.
    destruct (OpenConnections_run IDX_SYNCH n p1 Hi1) as (r2 & p2 & Hr2 & Hi2 & Ht2 & Ho2 & Hq2 & ss & Hss & Hres2). rewrite Ht1. fold n. rewrite Hsynch in Hres2.
    exists r2, p2, 0, sa. split; [exact Hr2|]. split; [by rewrite Ho2|]. rewrite decide_True by done. exists ss. split; [done|].
    split; [by rewrite Hss, Hsa, app_assoc|]. intros ->. rewrite decide_True in Hq1, Hq2 by done. congruence.
Qed.
End opening.

(** ** From the query to its callback *)

(** What a worker of the i-th asynchronous connection does with the queue,
    until it has to wait. *)
Definition run_worker (clock : nat → Z) (n fuel i : nat) : comp pool worker_end :=
  c ← getO (λ p, _connections p IDX_ASYNC !! i);
  info ← getO _connectionInfo;
  part (λ p, WorkerState (_queue p) false (TaskState (set_info info c) (outside p)))
    (λ w p, with_info (Some (m_connectionInfo (t_conn (ws_task w))))
      (with_connections (set_list IDX_ASYNC (<[i := t_conn (ws_task w)]> (_connections p IDX_ASYNC)) (_connections p))
        (with_queue (ws_queue w) (with_outside (t_world (ws_task w)) p))))
    (WorkerThread clock F junk n fuel).

(** What is known of the promises. *)
Definition shared_of {A} (m : gmap nat A) (n : nat) : QueryCallback.shared A :=
  match m !! n with Some a => QueryCallback.Value a | None => QueryCallback.Pending end.
Definition promises (p : pool) : @QueryCallback.world (option ResultSet.ResultSet) (option ResultSet.PreparedResultSet) :=
  QueryCallback.World (shared_of (w_strings (outside p))) (shared_of (w_prepareds (outside p))).

(** What the callback of a query is to get: nothing where there is no row, else
    the result with its first row read. *)
Definition first_row (result : option ResultSet.ResultSet) : option (option ResultSet.ResultSet) :=
  match result with
  | None => Some None
  | Some rs =>
      if decide (ResultSet._rowCount rs = 0) then Some None
      else match ResultSet.NextRow rs with
      | Returns true rs' => Some (Some rs')
      | Returns false _ => Some None
      | _ => None
      end
  end.

(** The task is the query of the connection; its answer is put in the promise. *)
Lemma BasicStatementTask_run sql pr (t : task_state (M := M) (H := H) (S := S)) result s r :
  MySqlConn.Query F (Some sql) (State (t_conn t) (w_lib (t_world t)) (w_sent (t_world t))) = Returns result s →
  first_row result = Some r → w_strings (t_world t) !! pr = None →
  BasicStatementTask_Execute F sql (Some pr) t =
    Returns (if r then true else false)
      (TaskState (conn s) (with_strings (<[pr := r]> (w_strings (t_world t))) (with_lib (lib s) (sent s) (t_world t)))).
Proof.
  intros Hq Hr Hpr. unfold BasicStatementTask_Execute.
  rewrite (comp_bind_Returns _ _ t result (TaskState (conn s) (with_lib (lib s) (sent s) (t_world t)))).
  2:{ unfold on_conn, part. by rewrite Hq. }
  assert (∀ a (b : bool), (set_value w_strings with_strings pr a;; mret b) (TaskState (conn s) (with_lib (lib s) (sent s) (t_world t))) =
    Returns b (TaskState (conn s) (with_strings (<[pr := a]> (w_strings (t_world t))) (with_lib (lib s) (sent s) (t_world t))))) as Hset.
  { intros a b. rewrite (comp_bind_Returns _ _ _ () (TaskState (conn s) (with_strings (<[pr := a]> (w_strings (t_world t))) (with_lib (lib s) (sent s) (t_world t)))));
      [done|]. unfold set_value, world_read. rewrite get_bind. cbn. by rewrite Hpr. }
  unfold first_row in Hr. destruct result as [rs|]; [|injection Hr as <-; apply Hset].
  revert Hr. case_decide; [intros [= <-]; apply Hset|]. destruct (ResultSet.NextRow rs) as [[] rs'| | | |]; intros [= <-]; apply Hset.
Qed.

Lemma emits k (l : list E) f :
  let acts : list (QueryCallback.action (R := option ResultSet.ResultSet) (P := option ResultSet.PreparedResultSet) (E := E) (C := C)) := QueryCallback.Emit <$> l in
  QueryCallback.emitted acts = l ∧ QueryCallback.added acts = [] ∧ QueryCallback.next_of acts f = f ∧ QueryCallback.next_kind k acts.
Proof.
  cbn zeta. induction l as [|e l (IH1 & IH2 & IH3 & IH4)].
  { do 3 (split; [done|]). intros ? ? Hin. by apply elem_of_nil in Hin. }
  split; [unfold QueryCallback.emitted in *; cbn; by f_equal|]. split; [done|]. split; [done|].
  intros k' g Hin. apply elem_of_cons in Hin as [[=]|Hin]. by eapply IH4.
Qed.


(** ** Keeping alive *)

(** Every asynchronous connection gets one ping in the queue; the 8-bit counter
    of the loop would never reach 256. *)
Lemma ping_async_run fuel i count p :
  0 ≤ i → i ≤ count → count ≤ 255 → count - i < Z.of_nat fuel →
  ∃ p', ping_async fuel i count p = Returns () p' ∧ p' = with_queue (_queue p') p ∧
    ProducerConsumerQueue._queue (_queue p') = ProducerConsumerQueue._queue (_queue p) ++ replicate (Z.to_nat (count - i)) PingOperation.
Proof.
  revert i p. induction fuel as [|fuel IH]; intros i p Hi Hc H255 Hf; [lia|]. cbn [ping_async]. case_decide.
  - unfold Enqueue. rewrite modify_bind. rewrite (wrap_small 8) by lia.
    destruct (IH (i + 1) (with_queue (ProducerConsumerQueue.Push PingOperation (_queue p)) p)) as (p' & Hrun & Hp' & Hq); try lia.
    exists p'. split; [exact Hrun|]. split; [by rewrite Hp'|]. rewrite Hq. cbn. rewrite <-app_assoc.
    replace (Z.to_nat (count - i)) with (Datatypes.S (Z.to_nat (count - (i + 1)))) by lia. done.
  - exists p. split; [done|]. split; [by destruct p|]. replace (Z.to_nat (count - i)) with 0%nat by lia. by rewrite app_nil_r.
Qed.
Lemma ping_async_endless fuel i p : 0 ≤ i ≤ 255 → ping_async fuel i 256 p = OutOfFuel.
Proof.
  revert i p. induction fuel as [|fuel IH]; intros i p Hi; cbn [ping_async]; [done|]. rewrite decide_True by lia.
  unfold Enqueue. rewrite modify_bind. apply IH. word_lia.
Qed.

(** ** The sizes of the statements *)

(** A size that is known is kept; the others become the number of parameters of
    the statement, where there is one, which has to be below 255. *)
Lemma add_sizes_spec sizes stmts : (length stmts ≤ length sizes)%nat →
  match add_sizes sizes stmts with
  | Some sizes' => length sizes' = length sizes ∧
      ∀ j size o, sizes !! j = Some size → stmts !! j = Some o →
        sizes' !! j = Some (if decide (size > 0) then size else match o with Some (_, ps) => PreparedStatement.m_paramCount ps | None => size end)
  | None => ∃ j st ps size, stmts !! j = Some (Some (st, ps)) ∧ sizes !! j = Some size ∧ ¬ size > 0 ∧ 255 ≤ PreparedStatement.m_paramCount ps
  end.
Proof.
  revert stmts. induction sizes as [|size sizes IH]; intros stmts Hlen; [destruct stmts; done|].
  destruct stmts as [|o stmts]; [by cbn|]. cbn in Hlen. specialize (IH stmts ltac:(lia)). cbn [add_sizes].
  assert (match add_size size o with
    | Some s => s = if decide (size > 0) then size else match o with Some (_, ps) => PreparedStatement.m_paramCount ps | None => size end
    | None => ∃ st ps, o = Some (st, ps) ∧ ¬ size > 0 ∧ 255 ≤ PreparedStatement.m_paramCount ps end) as Hone.
  { unfold add_size. case_decide; [done|]. destruct o as [[st ps]|]; [|done]. case_decide; [done|]. exists st, ps. split; [done|]. split; [done|lia]. }
  destruct (add_size size o) as [size'|]; cbn.
  - subst size'. destruct (add_sizes sizes stmts) as [sizes'|]; cbn.
    + destruct IH as [Hl IH]. split; [lia|]. intros [|j] sz o'; cbn; [by intros [= ->] [= ->]|apply IH].
    + destruct IH as (j & st & ps & sz & ?). by exists (Datatypes.S j), st, ps, sz.
  - destruct Hone as (st & ps & -> & ?). by exists 0%nat, st, ps, size.
Qed.
End pool.

(** ** A run *)

Abbreviation demo_pool_type := (pool (M := server) (H := Z) (S := Z)).
Definition demo_conn : MySQLConnection (H := Z) (S := Z) := conn (demo_start []).
Definition with_lists (a s : list (MySQLConnection (H := Z) (S := Z))) (l : list Z) : demo_pool_type :=
  Pool ProducerConsumerQueue.make (λ t, match t with IDX_ASYNC => a | IDX_SYNCH => s end) (Some demo_info) [1; 1] 1 2 (demo_world l).
Definition demo_locked : MySQLConnection (H := Z) (S := Z) := set_Mutex true demo_conn.

Lemma GetFreeConnection_finds_witness : ∃ j' p',
  GetFreeConnection 2 (λ k j, bool_decide (k = 0 ∧ j = 1)%nat) (with_lists [] [demo_conn; demo_conn] []) = Returns j' p'.
Proof.
  destruct (@GetFreeConnection_finds server Z Z 2 (λ k j, bool_decide (k = 0 ∧ j = 1)%nat) (with_lists [] [demo_conn; demo_conn] []) demo_info 0
    ltac:(cbn; lia) ltac:(cbn; lia) eq_refl eq_refl ltac:(intros; apply bool_decide_false; lia)) as (k & j' & p' & Hrun & _).
  by exists j', p'.
Defined.

Lemma DirectCommitTransaction_spec_witness : ∃ p' r l,
  DirectCommitTransaction (api := deadlocking) 1 1 (λ _ _, false) 0 (with_lists [] [demo_conn] [0; 1213; 0; 0; 1213; 0; 0; 0; 0]) = Returns () p' ∧
  w_tries (outside p') = r :: l ∧ (length l ≤ 5)%nat.
Proof.
  destruct (@DirectCommitTransaction_spec server Z Z deadlocking 1 (λ s, m_Mysql (conn s) = Some 1) demo_raw deadlocking_direct 1 (λ _ _, false) 0
    (with_lists [] [demo_conn] [0; 1213; 0; 0; 1213; 0; 0; 0; 0]) demo_info 0 ltac:(cbn; lia) ltac:(cbn; lia) eq_refl eq_refl ltac:(done) eq_refl)
    as (p' & r & l & Hrun & _ & Htries & Hlen & _).
  { intros j' c c' Hc Hm _. cbn. rewrite Hm. destruct j' as [|j']; [by injection Hc as <-|discriminate]. }
  exists p', r, l. split; [exact Hrun|]. split; [exact Htries|exact Hlen].
Defined.

Definition demo_empty (l : list Z) : demo_pool_type := Pool ProducerConsumerQueue.make (λ _, []) (Some demo_info) [] 1 2 (demo_world l).
(** The second synchronous connection fails. *)
Definition demo_failing : demo_pool_type := demo_empty [0; 0; CR_CONN_HOST_ERROR].
Lemma demo_failing_run :
  match Open (api := losing) 50700 demo_failing with
  | Returns r p' => (r =? CR_CONN_HOST_ERROR) && negb (ProducerConsumerQueue._shutdown (_queue p')) = true
  | _ => False
  end.
Proof. by vm_compute. Qed.

Lemma pool_Open_spec_witness : ∃ r p' sa ss,
  Open (api := losing) 50700 demo_failing = Returns r p' ∧
  kind_opened (api := losing) 50700 IDX_ASYNC [] 1 0 (_connections p' IDX_ASYNC) sa ∧
  kind_opened (api := losing) 50700 IDX_SYNCH [] 2 r (_connections p' IDX_SYNCH) ss.
Proof.
  pose proof demo_failing_run as Hr.
  destruct (@pool_Open_spec server Z Z losing 50700) with (p := demo_failing) as (r & p' & ra & sa & Hrun & Ha & Hres).
  - intros h i q u m Hfail. destruct (reply_errno error_of m Hfail) as [e He]. cbn. rewrite He. apply error_of_nonzero.
  - by eexists.
  - intros type. reflexivity.
  - rewrite Hrun in Hr. apply andb_true_iff in Hr as [_ Hq%negb_true_iff]. destruct (decide (ra = 0)) as [->|].
    + destruct Hres as (ss & Hss & _). exists r, p', sa, ss. split; [exact Hrun|]. split; [exact Ha|exact Hss].
    + destruct Hres as (_ & _ & _ & Hshut). rewrite Hq in Hshut. discriminate Hshut.
Defined.

(** The server of the second asynchronous connection is too old: the first one
    stays. *)
Definition ageing : MySqlApi server Z Z := {|
  mysql_init := mysql_init (MySqlApi := losing); mysql_options := mysql_options (MySqlApi := losing);
  mysql_real_connect h i q u m := (true, Server (tail (answers m)) (default 0 (head (answers m))));
  mysql_autocommit := mysql_autocommit (MySqlApi := losing); mysql_set_character_set := mysql_set_character_set (MySqlApi := losing);
  mysql_close := mysql_close (MySqlApi := losing); mysql_errno := mysql_errno (MySqlApi := losing);
  mysql_get_server_version _ m := last_errno m; mysql_ping := mysql_ping (MySqlApi := losing); mysql_query := mysql_query (MySqlApi := losing);
  mysql_store_result := mysql_store_result (MySqlApi := losing); mysql_affected_rows := mysql_affected_rows (MySqlApi := losing);
  mysql_fetch_fields := mysql_fetch_fields (MySqlApi := losing); mysql_more_results := mysql_more_results (MySqlApi := losing);
  mysql_next_result := mysql_next_result (MySqlApi := losing); mysql_stmt_init := mysql_stmt_init (MySqlApi := losing);
  mysql_stmt_prepare := mysql_stmt_prepare (MySqlApi := losing); mysql_stmt_close := mysql_stmt_close (MySqlApi := losing);
  mysql_stmt_param_count := mysql_stmt_param_count (MySqlApi := losing); mysql_stmt_bind_param := mysql_stmt_bind_param (MySqlApi := losing);
  mysql_stmt_execute := mysql_stmt_execute (MySqlApi := losing); mysql_stmt_result := mysql_stmt_result (MySqlApi := losing);
  mysql_time_size := 40;
|}.
Example too_old_leaves :
  match Open (api := ageing) 50700 (with_threads 2 2 (demo_empty [80000; 50600])) with
  | Returns 1 p' => length (_connections p' IDX_ASYNC) = 1%nat ∧ _connections p' IDX_SYNCH = []
  | _ => False
  end.
Proof. by vm_compute. Qed.

(** A failure of the asynchronous connections shuts the queue for good: the
    pool can be opened again, but its workers leave at once and nothing that is
    enqueued is ever run. *)
Example reopen_after_failure :
  (match (Open (api := losing) 50700;; r ← Open (api := losing) 50700; Execute (Some COMMIT);; e ← run_worker (api := losing) 1 0 demo_clock 3 9 0; mret (r, e))
    (demo_empty [CR_CONN_HOST_ERROR]) with
   | Returns re p => Some (re, ProducerConsumerQueue._queue (_queue p), w_sent (outside p))
   | _ => None
   end) = Some ((0, Exited), [BasicStatementTask COMMIT None], [Connect false; Connect true; Connect true; Connect true]).
Proof. by vm_compute. Qed.

(** No callback works on its query. *)
Definition no_program : @QueryCallback.Program (option ResultSet.ResultSet) (option ResultSet.PreparedResultSet) nat Empty_set :=
  {| QueryCallback.string_code := λ c : Empty_set, match c with end; QueryCallback.prepared_code := λ c : Empty_set, match c with end |}.
Definition demo_query_end : exit (state (M := server) (H := Z) (S := Z)) (option ResultSet.ResultSet) :=
  MySqlConn.Query (api := losing) 1 (Some COMMIT) (State (set_info demo_info demo_conn) (w_lib (demo_world [])) (w_sent (demo_world []))).
End DbPool.
