(* ===== verification/DbLoader.v ===== *)
(** The loader of databases: src/mysql-conn-pool/dbimpl/DatabaseLoader.cpp, over
    any pools that offer the operations of [DatabasePools]. *)
From S2P Require Import Prelude Except Bytes Tokenize MySqlConn DbTask DbPool.

Module DbLoader.

(** What the loader uses of the pools, which are numbered. *)
Class DatabasePools (W : Type) := {
  pool_SetConnectionInfo : nat → bytes → Z → Z → comp W unit;
  pool_Open : nat → comp W Z;
  pool_PrepareStatements : nat → comp W bool;
  pool_Close : nat → comp W unit;
}.

(** The repository has one database, whose pool is that of DbPool.v. *)
#[export] Instance sakila_pool {M H S} {api : MySqlConn.MySqlApi M H S} (MIN_SERVER_VERSION : Z) : DatabasePools (@DbPool.pool M H S) := {|
  pool_SetConnectionInfo _ := DbPool.SetConnectionInfo;
  pool_Open _ := DbPool.Open MIN_SERVER_VERSION;
  pool_PrepareStatements _ := DbPool.PrepareStatements;
  pool_Close _ := DbPool.Close;
|}.

Section loader.
Context {W : Type} {api : DatabasePools W}.

(** The closures that [AddDatabase] makes. *)
Inductive Predicate :=
  | OpenDatabase (pool : nat) (dbString : bytes) (asyncThreads syncThreads : Z)
  | PrepareDatabase (pool : nat).

(** [_close]: the pools to close, the top of the stack first. *)
Record DatabaseLoader := Loader { _open : list Predicate; _prepare : list Predicate; _close : list nat; pools : W }.
Definition make (w : W) : DatabaseLoader := Loader [] [] [] w.
Definition set_close l s := Loader (_open s) (_prepare s) l (pools s).
Definition on_pools {A} (m : comp W A) : comp DatabaseLoader A :=
  part pools (λ w s, Loader (_open s) (_prepare s) (_close s) w) m.

Definition AddDatabase (pool : nat) (dbString : bytes) (asyncThreads syncThreads : Z) : comp DatabaseLoader unit :=
  modify (λ s, Loader (_open s ++ [OpenDatabase pool dbString asyncThreads syncThreads]) (_prepare s) (_close s) (pools s));;
  modify (λ s, Loader (_open s) (_prepare s ++ [PrepareDatabase pool]) (_close s) (pools s)).

Definition call_predicate (f : Predicate) : comp DatabaseLoader bool :=
  match f with
  | OpenDatabase pool dbString asyncThreads syncThreads =>
      on_pools (pool_SetConnectionInfo pool dbString asyncThreads syncThreads);;
      error ← on_pools (pool_Open pool);
      if decide (error ≠ 0) then mret false
      else modify (λ s, set_close (pool :: _close s) s);; mret true
  | PrepareDatabase pool => on_pools (pool_PrepareStatements pool)
  end.

(** The loop of [Process] that closes what is open. *)
Fixpoint close_all (l : list nat) : comp DatabaseLoader unit :=
  match l with
  | [] => mret ()
  | pool :: l => on_pools (pool_Close pool);; modify (set_close l);; close_all l
  end.
Inductive queue := Q_open | Q_prepare.
Definition set_queue (q : queue) (l : list Predicate) (s : DatabaseLoader) : DatabaseLoader :=
  match q with Q_open => Loader l (_prepare s) (_close s) (pools s) | Q_prepare => Loader (_open s) l (_close s) (pools s) end.
(** [l]: what is in the queue; the closures do not change it. *)
Fixpoint process (q : queue) (l : list Predicate) : comp DatabaseLoader bool :=
  match l with
  | [] => mret true
  | f :: l =>
      ok ← call_predicate f;
      if negb (ok : bool) then
        c ← get _close;
        close_all c;;
        mret false
      else modify (set_queue q l);; process q l
  end.
Definition Process (q : queue) : comp DatabaseLoader bool :=
  l ← get (match q with Q_open => _open | Q_prepare => _prepare end);
  process q l.
Definition OpenDatabases : comp DatabaseLoader bool := Process Q_open.
Definition PrepareStatements : comp DatabaseLoader bool := Process Q_prepare.
Definition Load : comp DatabaseLoader bool :=
  ok ← OpenDatabases;
  if negb (ok : bool) then mret false
  else
    ok ← PrepareStatements;
    if negb (ok : bool) then mret false else mret true.

(** ** What the pools are asked for *)

Inductive event :=
  | Configured (pool : nat) (dbString : bytes) (asyncThreads syncThreads : Z)
  | Opened (pool : nat) (error : Z)
  | Prepared (pool : nat) (ok : bool)
  | Closed (pool : nat).

(** The arguments of a call of [AddDatabase]. *)
Record database := Database { db_pool : nat; db_string : bytes; db_async : Z; db_sync : Z }.
Fixpoint add_all (dbs : list database) : comp DatabaseLoader unit :=
  match dbs with
  | [] => mret ()
  | d :: dbs => AddDatabase (db_pool d) (db_string d) (db_async d) (db_sync d);; add_all dbs
  end.
(** One database is opened, or answers an error; it is prepared. *)
Definition opening (d : database) (error : Z) : list event :=
  [Configured (db_pool d) (db_string d) (db_async d) (db_sync d); Opened (db_pool d) error].
Definition all_opened (dbs : list database) : list event := dbs ≫= λ d, opening d 0.
Definition all_prepared (dbs : list database) : list event := (λ d, Prepared (db_pool d) true) <$> dbs.
(** The last opened first. *)
Definition all_closed (dbs : list database) : list event := Closed <$> reverse (db_pool <$> dbs).

Section laws.
(** The pools answer, and [events] tells what was asked of them. *)
Context (events : W → list event).
Context (set_law : ∀ n d a s w, ∃ w', pool_SetConnectionInfo n d a s w = Returns () w' ∧ events w' = events w ++ [Configured n d a s]).
Context (open_law : ∀ n w, ∃ e w', pool_Open n w = Returns e w' ∧ events w' = events w ++ [Opened n e]).
Context (prepare_law : ∀ n w, ∃ b w', pool_PrepareStatements n w = Returns b w' ∧ events w' = events w ++ [Prepared n b]).
Context (close_law : ∀ n w, ∃ w', pool_Close n w = Returns () w' ∧ events w' = events w ++ [Closed n]).

Lemma on_pools_run {A} (m : comp W A) s a w : m (pools s) = Returns a w → on_pools m s = Returns a (Loader (_open s) (_prepare s) (_close s) w).
Proof. intros Hm. unfold on_pools, part. by rewrite Hm. Qed.

Lemma close_all_run l s : _close s = l →
  ∃ s', close_all l s = Returns () s' ∧ _close s' = [] ∧ events (pools s') = events (pools s) ++ (Closed <$> l).
Proof.
  revert s. induction l as [|n l IH]; intros s Hs; cbn [close_all]; [exists s; by rewrite app_nil_r|].
  destruct (close_law n (pools s)) as (w & Hw & He). rewrite (comp_bind_Returns _ _ _ _ _ (on_pools_run _ _ _ _ Hw)). rewrite modify_bind.
  destruct (IH (set_close l (Loader (_open s) (_prepare s) (_close s) w)) eq_refl) as (s' & Hrun & Hc & Hev).
  exists s'. split; [exact Hrun|]. split; [done|]. rewrite Hev. cbn. by rewrite He, <-app_assoc.
Qed.

Definition open_of (d : database) : Predicate := OpenDatabase (db_pool d) (db_string d) (db_async d) (db_sync d).
Definition prepare_of (d : database) : Predicate := PrepareDatabase (db_pool d).
Lemma load_all_run dbs : ∀ s, add_all dbs s = Returns () (Loader (_open s ++ (open_of <$> dbs)) (_prepare s ++ (prepare_of <$> dbs)) (_close s) (pools s)).
Proof.
  induction dbs as [|d dbs IH]; intros s; cbn [add_all]; [by destruct s; cbn; rewrite !app_nil_r|].
  rewrite (comp_bind_Returns _ _ _ _ _ (eq_refl : AddDatabase (db_pool d) (db_string d) (db_async d) (db_sync d) s = Returns () _)), IH.
  cbn. by rewrite <-!app_assoc.
Qed.

Lemma open_step d s : ∃ e s1, call_predicate (open_of d) s = Returns (bool_decide (e = 0)) s1 ∧
  events (pools s1) = events (pools s) ++ opening d e ∧ _prepare s1 = _prepare s ∧ _close s1 = (if decide (e = 0) then [db_pool d] else []) ++ _close s.
Proof.
  unfold open_of. cbn [call_predicate].
  destruct (set_law (db_pool d) (db_string d) (db_async d) (db_sync d) (pools s)) as (w0 & Hw0 & He0).
  rewrite (comp_bind_Returns _ _ _ _ _ (on_pools_run _ _ _ _ Hw0)).
  destruct (open_law (db_pool d) w0) as (e & w1 & Hw1 & He1).
  rewrite (comp_bind_Returns _ _ _ _ _ (on_pools_run _ (Loader _ _ _ w0) _ _ Hw1)). exists e.
  destruct (decide (e = 0)) as [->|He].
  - rewrite decide_False by lia. eexists. split; [done|]. cbn. by rewrite He1, He0, <-app_assoc.
  - rewrite decide_True by done. rewrite bool_decide_false by done. eexists. split; [done|]. cbn. by rewrite He1, He0, <-app_assoc.
Qed.

Lemma open_pass_run dbs : ∀ s, ∃ b s', process Q_open (open_of <$> dbs) s = Returns b s' ∧
  if b then _prepare s' = _prepare s ∧ _close s' = reverse (db_pool <$> dbs) ++ _close s ∧ events (pools s') = events (pools s) ++ all_opened dbs
  else ∃ dbs1 d e dbs2, dbs = dbs1 ++ d :: dbs2 ∧ e ≠ 0 ∧ _close s' = [] ∧
    events (pools s') = events (pools s) ++ all_opened dbs1 ++ opening d e ++ (Closed <$> reverse (db_pool <$> dbs1) ++ _close s).
Proof.
  induction dbs as [|d dbs IH]; intros s; cbn [fmap list_fmap process]; [exists true, s; split; [done|]; by rewrite app_nil_r|].
  destruct (open_step d s) as (e & s1 & Hcall & Hev & Hp & Hc). rewrite (comp_bind_Returns _ _ _ _ _ Hcall).
  destruct (decide (e = 0)) as [->|He].
  - rewrite bool_decide_true by done. cbn [negb]. rewrite modify_bind.
    destruct (IH (set_queue Q_open (open_of <$> dbs) s1)) as (b & s' & Hrun & Hres). exists b, s'. split; [exact Hrun|]. cbn in Hres.
    destruct b.
    + destruct Hres as (H1 & H2 & H3). split; [by rewrite H1|]. split; [by rewrite H2, Hc, reverse_cons, <-app_assoc|].
      rewrite H3, Hev, <-app_assoc. done.
    + destruct Hres as (dbs1 & d' & e & dbs2 & -> & He & H1 & H2). exists (d :: dbs1), d', e, dbs2. do 3 (split; [done|]).
      rewrite H2, Hev, Hc. cbn [fmap list_fmap]. by rewrite reverse_cons, <-!app_assoc.
  - rewrite bool_decide_false by done. cbn [negb]. rewrite get_bind.
    destruct (close_all_run (_close s1) s1 eq_refl) as (s' & Hrun & Hc' & Hev'). rewrite (comp_bind_Returns _ _ _ _ _ Hrun).
    exists false, s'. split; [done|]. exists [], d, e, dbs. do 3 (split; [done|]). rewrite Hev', Hev, Hc, <-app_assoc. done.
Qed.

Lemma prepare_pass_run dbs : ∀ s, ∃ b s', process Q_prepare (prepare_of <$> dbs) s = Returns b s' ∧
  if b then _close s' = _close s ∧ events (pools s') = events (pools s) ++ all_prepared dbs
  else ∃ dbs1 d dbs2, dbs = dbs1 ++ d :: dbs2 ∧ _close s' = [] ∧
    events (pools s') = events (pools s) ++ all_prepared dbs1 ++ Prepared (db_pool d) false :: (Closed <$> _close s).
Proof.
  induction dbs as [|d dbs IH]; intros s; cbn [fmap list_fmap process]; [exists true, s; split; [done|]; by rewrite app_nil_r|].
  unfold prepare_of at 1. cbn [call_predicate]. destruct (prepare_law (db_pool d) (pools s)) as (b & w & Hw & He).
  rewrite (comp_bind_Returns _ _ _ _ _ (on_pools_run _ _ _ _ Hw)). set (s1 := Loader _ _ _ w). destruct b; cbn [negb].
  - rewrite modify_bind. destruct (IH (set_queue Q_prepare (prepare_of <$> dbs) s1)) as (b & s' & Hrun & Hres).
    exists b, s'. split; [exact Hrun|]. cbn in Hres. destruct b.
    + destruct Hres as (H1 & H2). split; [done|]. by rewrite H2, He, <-app_assoc.
    + destruct Hres as (dbs1 & d' & dbs2 & -> & H1 & H2). exists (d :: dbs1), d', dbs2. do 2 (split; [done|]). by rewrite H2, He, <-app_assoc.
  - rewrite get_bind. destruct (close_all_run (_close s1) s1 eq_refl) as (s' & Hrun & Hc & Hev). rewrite (comp_bind_Returns _ _ _ _ _ Hrun).
    exists false, s'. split; [done|]. exists [], d, dbs. do 2 (split; [done|]). rewrite Hev. cbn. by rewrite He, <-app_assoc.
Qed.

(** C39: A loader that databases were added to configures and opens them one by
    one in that order, then, with all of them open, prepares them one by one in
    that order, and succeeds; the stack holds them all.  At the first that does
    not open, or is not prepared, it stops: every database that was opened is
    closed, the last opened first, nothing is closed twice, and it fails. *)
Theorem Load_spec dbs w :
  ∃ b s', (add_all dbs;; Load) (make w) = Returns b s' ∧
    if b then _close s' = reverse (db_pool <$> dbs) ∧ events (pools s') = events w ++ all_opened dbs ++ all_prepared dbs
    else _close s' = [] ∧
      ((∃ dbs1 d e dbs2, dbs = dbs1 ++ d :: dbs2 ∧ e ≠ 0 ∧
          events (pools s') = events w ++ all_opened dbs1 ++ opening d e ++ all_closed dbs1) ∨
       (∃ dbs1 d dbs2, dbs = dbs1 ++ d :: dbs2 ∧
          events (pools s') = events w ++ all_opened dbs ++ all_prepared dbs1 ++ [Prepared (db_pool d) false] ++ all_closed dbs)).
Proof.
  rewrite (comp_bind_Returns _ _ _ _ _ (load_all_run dbs (make w))). cbn [make _open _prepare _close pools app]. set (s0 := Loader _ _ _ _).
  destruct (open_pass_run dbs s0) as (b1 & s1 & Hrun1 & Hres1). unfold Load.
  assert (OpenDatabases s0 = Returns b1 s1) as Ho by done. rewrite (comp_bind_Returns _ _ _ _ _ Ho). destruct b1; cbn [negb].
  - destruct Hres1 as (Hp1 & Hc1 & Hev1). cbn in Hp1, Hc1, Hev1. rewrite app_nil_r in Hc1.
    destruct (prepare_pass_run dbs s1) as (b2 & s2 & Hrun2 & Hres2).
    assert (PrepareStatements s1 = Returns b2 s2) as Hpr by (unfold PrepareStatements, Process; rewrite get_bind, Hp1; exact Hrun2).
    rewrite (comp_bind_Returns _ _ _ _ _ Hpr). exists b2, s2. split; [by destruct b2|]. destruct b2.
    + destruct Hres2 as (Hc2 & Hev2). split; [by rewrite Hc2|]. by rewrite Hev2, Hev1, <-app_assoc.
    + destruct Hres2 as (dbs1 & d & dbs2 & Heq & Hc2 & Hev2). split; [done|]. right. exists dbs1, d, dbs2. split; [done|].
      unfold all_closed. by rewrite Hev2, Hev1, Hc1, <-app_assoc.
  - destruct Hres1 as (dbs1 & d & e & dbs2 & Heq & He & Hc1 & Hev1). exists false, s1. split; [done|]. split; [done|]. left.
    exists dbs1, d, e, dbs2. split; [done|]. split; [done|]. rewrite Hev1. cbn. by rewrite app_nil_r.
Qed.
End laws.
End loader.

(** ** A run *)

(** Pools that fail as told: the second does not open. *)
Definition demo_error (n : nat) : Z := if decide (n = 2%nat) then MySqlConn.CR_CONN_HOST_ERROR else 0.
Definition demo_pools : DatabasePools (list event) := {|
  pool_SetConnectionInfo n d a s := λ l, Returns () (l ++ [Configured n d a s]);
  pool_Open n := λ l, Returns (demo_error n) (l ++ [Opened n (demo_error n)]);
  pool_PrepareStatements n := λ l, Returns (bool_decide (n ≠ 1%nat)) (l ++ [Prepared n (bool_decide (n ≠ 1%nat))]);
  pool_Close n := λ l, Returns () (l ++ [Closed n]);
|}.
Definition demo_databases : list database := [Database 0 [] 1 1; Database 1 [] 1 2; Database 2 [] 2 1].
Lemma Load_spec_witness :
  ∃ b s', (add_all demo_databases;; Load (api := demo_pools)) (make []) = Returns b s' ∧
    if b then _close s' = [2; 1; 0]%nat ∧ pools s' = all_opened demo_databases ++ all_prepared demo_databases
    else _close s' = [] ∧
      ((∃ dbs1 d e dbs2, demo_databases = dbs1 ++ d :: dbs2 ∧ e ≠ 0 ∧ pools s' = all_opened dbs1 ++ opening d e ++ all_closed dbs1) ∨
       (∃ dbs1 d dbs2, demo_databases = dbs1 ++ d :: dbs2 ∧
          pools s' = all_opened demo_databases ++ all_prepared dbs1 ++ [Prepared (db_pool d) false] ++ all_closed demo_databases)).
Proof.
  apply (@Load_spec (list event) demo_pools id) with (dbs := demo_databases) (w := []).
  - intros n d a k w. eexists. split; reflexivity.
  - intros n w. eexists _, _. split; reflexivity.
  - intros n w. eexists _, _. split; reflexivity.
  - intros n w. eexists. split; reflexivity.
Defined.
(** The third does not open; of the first two, the second is not prepared. *)
Definition demo_load (dbs : list database) : option (bool * list event) :=
  match (add_all dbs;; Load (api := demo_pools)) (make []) with Returns b s => Some (b, pools s) | _ => None end.
Example third_not_opened : demo_load demo_databases =
  Some (false, [Configured 0 [] 1 1; Opened 0 0; Configured 1 [] 1 2; Opened 1 0; Configured 2 [] 2 1; Opened 2 MySqlConn.CR_CONN_HOST_ERROR; Closed 1; Closed 0]).
Proof. by vm_compute. Qed.
Example second_not_prepared : demo_load (take 2 demo_databases) =
  Some (false, [Configured 0 [] 1 1; Opened 0 0; Configured 1 [] 1 2; Opened 1 0; Prepared 0 true; Prepared 1 false; Closed 1; Closed 0]).
Proof. by vm_compute. Qed.
End DbLoader.
