(* ===== verification/MpscQueue.v ===== *)
(** The queues of many producers and one consumer, free_queue/MPSCQueue.h.

    The steps of the producers and of the consumer are interleaved in any way.
    A producer makes two steps that others can see, the exchange of the head
    and the link from the node that was the head before; the consumer reads a
    link, takes the value, and deletes the old node.  [step] answers [Undefined]
    where a node is used that is not allocated. *)
From stdpp Require Import gmap.
From S2P Require Import Prelude.

Inductive stepped (S : Type) := Disabled | Undefined | Next_state (s : S).
Arguments Disabled {S}.
Arguments Undefined {S}.
Arguments Next_state {S} s.

Module MpscQueue.

(** ** MPSCQueueNonIntrusive *)

Section queue.
Context {T : Type}.

Record Node := MkNode { Data : option T; Next : option nat }.
(** A producer inside [Enqueue]: it has made [node] the head, [prevHead] was it. *)
Inductive producer := Linking (prevHead node : nat).
(** The consumer inside [Dequeue]: after the loads, and after the store of
    [_tail]. *)
Inductive consumer := Idle | Loaded (tail next : nat) | Stored (tail : nat).

(** [sent]: what was enqueued, in the order of the exchanges; [received]: what
    [Dequeue] gave out. *)
Record state := State {
  nodes : gmap nat Node;
  _head : nat;
  _tail : nat;
  producers : gmap nat producer;
  the_consumer : consumer;
  sent : list T;
  received : list T;
}.

(** The constructor, [a] being the address of the new node; its [Data] is not
    initialised. *)
Definition make (a : nat) : state := State {[ a := MkNode None None ]} a a ∅ Idle [] [].

(** The steps of Enqueue. *)
Definition exchange (i a : nat) (input : T) (s : state) : stepped state :=
  match producers s !! i, nodes s !! a with
  | None, None => Next_state (State (<[a := MkNode (Some input) None]> (nodes s)) a (_tail s) (<[i := Linking (_head s) a]> (producers s)) (the_consumer s) (sent s ++ [input]) (received s))
  | _, _ => Disabled
  end.
Definition link (i : nat) (s : state) : stepped state :=
  match producers s !! i with
  | None => Disabled
  | Some (Linking prevHead node) =>
      match nodes s !! prevHead with
      | None => Undefined
      | Some n => Next_state (State (<[prevHead := MkNode (Data n) (Some node)]> (nodes s)) (_head s) (_tail s) (delete i (producers s)) (the_consumer s) (sent s) (received s))
      end
  end.
(** The steps of Dequeue. *)
Definition load (s : state) : stepped state :=
  match the_consumer s with
  | Idle =>
      match nodes s !! _tail s with
      | None => Undefined
      | Some n =>
          match Next n with
          | None => Next_state s
          | Some next => Next_state (State (nodes s) (_head s) (_tail s) (producers s) (Loaded (_tail s) next) (sent s) (received s))
          end
      end
  | _ => Disabled
  end.
Definition take_data (s : state) : stepped state :=
  match the_consumer s with
  | Loaded tail next =>
      match nodes s !! next ≫= Data with
      | None => Undefined
      | Some v => Next_state (State (nodes s) (_head s) next (producers s) (Stored tail) (sent s) (received s ++ [v]))
      end
  | _ => Disabled
  end.
Definition delete_tail (s : state) : stepped state :=
  match the_consumer s with
  | Stored tail =>
      match nodes s !! tail with
      | None => Undefined
      | Some _ => Next_state (State (delete tail (nodes s)) (_head s) (_tail s) (producers s) Idle (sent s) (received s))
      end
  | _ => Disabled
  end.

Inductive label := Exchange (i a : nat) (v : T) | Link (i : nat) | Load | TakeData | DeleteTail.
Definition step (l : label) : state → stepped state :=
  match l with
  | Exchange i a v => exchange i a v
  | Link i => link i
  | Load => load
  | TakeData => take_data
  | DeleteTail => delete_tail
  end.
Inductive reachable (a0 : nat) : state → Prop :=
  | reachable_make : reachable a0 (make a0)
  | reachable_step l s s' : reachable a0 s → step l s = Next_state s' → reachable a0 s'.

(** *** The chain of nodes *)

(** [b] follows [a] in the chain: the link is there, or a producer is about to
    make it. *)
Definition linked (s : state) (a b : nat) : Prop :=
  ∃ d n, nodes s !! a = Some (MkNode d n) ∧ (n = Some b ∨ n = None ∧ ∃ i, producers s !! i = Some (Linking a b)).

Record chain_ok (s : state) (chain : list nat) : Prop := {
  ok_first : head chain = Some (_tail s);
  ok_last : last chain = Some (_head s);
  ok_nodup : NoDup chain;
  ok_linked : ∀ k a b, chain !! k = Some a → chain !! Datatypes.S k = Some b → linked s a b;
  ok_end : ∃ d, nodes s !! _head s = Some (MkNode d None);
  ok_pending : ∀ i a b, producers s !! i = Some (Linking a b) →
    ∃ k d, chain !! k = Some a ∧ chain !! Datatypes.S k = Some b ∧ nodes s !! a = Some (MkNode d None);
  ok_producers : ∀ i j a b b', producers s !! i = Some (Linking a b) → producers s !! j = Some (Linking a b') → i = j;
  ok_data : ∃ vs, sent s = received s ++ vs ∧ Forall2 (λ a v, ∃ n, nodes s !! a = Some (MkNode (Some v) n)) (tail chain) vs;
  ok_consumer : match the_consumer s with
    | Idle => True
    | Loaded t n => t = _tail s ∧ ∃ d, nodes s !! t = Some (MkNode d (Some n)) 
    | Stored t => t ∉ chain ∧ is_Some (nodes s !! t)
    end;
  ok_nodes : ∀ a, is_Some (nodes s !! a) → a ∈ chain ∨ the_consumer s = Stored a;
}.
Definition inv (s : state) : Prop := ∃ chain, chain_ok s chain.

Lemma mpsc_make a : inv (make a).
Proof.
  exists [a]. constructor; cbn; [done|done|apply NoDup_singleton| | | | | |done|].
  - intros k x y Hx Hy. by destruct k.
  - exists None. apply lookup_singleton_eq.
  - intros i x y Hi. by rewrite lookup_empty in Hi.
  - intros i j x y z Hi. by rewrite lookup_empty in Hi.
  - exists []. by split.
  - intros b [n Hb]. apply lookup_singleton_Some in Hb as [-> _]. left. by constructor.
Qed.

Section preserved.
Context (s : state) (chain : list nat) (Hs : chain_ok s chain).

Lemma node_at k a : chain !! k = Some a → ∃ d n, nodes s !! a = Some (MkNode d n).
Proof.
  intros Hk. destruct (chain !! Datatypes.S k) as [b|] eqn:Hb.
  - destruct (ok_linked _ _ Hs k a b Hk Hb) as (d & n & Ha & _). eauto.
  - apply lookup_ge_None in Hb. pose proof (lookup_lt_Some _ _ _ Hk). pose proof (ok_last _ _ Hs) as Hl.
    rewrite last_lookup in Hl. replace (Nat.pred (length chain)) with k in Hl by lia. rewrite Hk in Hl. injection Hl as ->.
    destruct (ok_end _ _ Hs) as [d Hd]. eauto.
Qed.
Lemma node_in a : a ∈ chain → ∃ d n, nodes s !! a = Some (MkNode d n).
Proof. intros [k Hk]%list_elem_of_lookup. by eapply node_at. Qed.

Lemma node_unique k k' a : chain !! k = Some a → chain !! k' = Some a → k = k'.
Proof. intros. eapply NoDup_lookup; [apply (ok_nodup _ _ Hs)|done|done]. Qed.
Lemma head_last : chain !! Nat.pred (length chain) = Some (_head s).
Proof. rewrite <-last_lookup. apply (ok_last _ _ Hs). Qed.
Lemma nothing_behind_head k b : chain !! k = Some (_head s) → chain !! Datatypes.S k = Some b → False.
Proof. intros Hk Hb. pose proof (node_unique _ _ _ Hk head_last). apply lookup_lt_Some in Hb. lia. Qed.
Lemma tail_first : chain !! 0%nat = Some (_tail s).
Proof. pose proof (ok_first _ _ Hs). by destruct chain. Qed.

Lemma exchange_inv i a v s' : exchange i a v s = Next_state s' → chain_ok s' (chain ++ [a]).
Proof.
  unfold exchange. destruct (producers s !! i) eqn:Hi; [done|]. destruct (nodes s !! a) eqn:Ha; [done|]. intros [= <-].
  assert (a ∉ chain) as Hfresh by (intros (d & n & Hn)%node_in; congruence).
  assert (∀ x, x ∈ chain → <[a := MkNode (Some v) None]> (nodes s) !! x = nodes s !! x) as Hold.
  { intros x Hx. apply lookup_insert_ne. by intros ->. }
  assert (∀ k x, chain !! k = Some x → <[a := MkNode (Some v) None]> (nodes s) !! x = nodes s !! x) as Hold'.
  { intros k x Hx. apply Hold. by eapply list_elem_of_lookup_2. }
  pose proof tail_first as Htail. pose proof head_last as Hhead.
  constructor; cbn.
  - destruct chain; [done|]. by apply (ok_first _ _ Hs).
  - apply last_snoc.
  - apply NoDup_app. split; [apply (ok_nodup _ _ Hs)|]. split; [|apply NoDup_singleton]. intros x Hx Hxa%list_elem_of_singleton. by subst x.
  - intros k x y Hx Hy. unfold linked. cbn. destruct (decide (Datatypes.S k < length chain)%nat) as [Hlt|Hge].
    + rewrite lookup_app_l in Hy by done. rewrite lookup_app_l in Hx by lia.
      destruct (ok_linked _ _ Hs k x y Hx Hy) as (d & n & Hn & Hor). exists d, n. rewrite (Hold' k) by done. split; [done|].
      destruct Hor as [?|[? [j Hj]]]; [by left|]. right. split; [done|]. exists j. rewrite lookup_insert_ne; [done|]. intros ->. congruence.
    + assert (k = Nat.pred (length chain)) as ->. { apply lookup_lt_Some in Hy. rewrite length_app in Hy. cbn in Hy. lia. }
      assert (0 < length chain)%nat by (by apply lookup_lt_Some in Htail).
      rewrite lookup_app_l, Hhead in Hx by lia. injection Hx as <-.
      rewrite lookup_app_r in Hy by lia. replace (Datatypes.S (Nat.pred (length chain)) - length chain)%nat with 0%nat in Hy by lia. injection Hy as <-.
      destruct (ok_end _ _ Hs) as [d Hd]. exists d, None. rewrite (Hold' _ _ Hhead). split; [done|]. right. split; [done|]. exists i. apply lookup_insert_eq.
  - exists (Some v). apply lookup_insert_eq.
  - intros j x y Hj. destruct (decide (j = i)) as [->|Hne].
    + rewrite lookup_insert_eq in Hj. injection Hj as <- <-. destruct (ok_end _ _ Hs) as [d Hd].
      assert (0 < length chain)%nat by (by apply lookup_lt_Some in Htail).
      exists (Nat.pred (length chain)), d. rewrite lookup_app_l by lia. split; [done|]. split; [|by rewrite (Hold' _ _ Hhead)].
      rewrite lookup_app_r by lia. by replace (Datatypes.S (Nat.pred (length chain)) - length chain)%nat with 0%nat by lia.
    + rewrite lookup_insert_ne in Hj by done. destruct (ok_pending _ _ Hs j x y Hj) as (k & d & Hx & Hy & Hd).
      exists k, d. rewrite (Hold' k) by done. split; [by apply lookup_app_l_Some|]. split; [by apply lookup_app_l_Some|done].
  - assert (∀ j y z, producers s !! j = Some (Linking (_head s) z) → producers s !! i = y → False) as Hhd.
    { intros j y z Hj _. destruct (ok_pending _ _ Hs j _ _ Hj) as (k & d & Hx & Hy & _). by eapply nothing_behind_head. }
    intros j j' x y z. destruct (decide (j = i)) as [->|Hne], (decide (j' = i)) as [->|Hne']; [done| | |].
    + rewrite lookup_insert_eq, lookup_insert_ne by done. intros [= <- <-] Hj. exfalso. by eapply Hhd.
    + rewrite lookup_insert_eq, lookup_insert_ne by done. intros Hj [= <- <-]. exfalso. by eapply Hhd.
    + rewrite !lookup_insert_ne by done. apply (ok_producers _ _ Hs).
  - destruct (ok_data _ _ Hs) as (vs & Hsent & Hall). exists (vs ++ [v]). rewrite Hsent, app_assoc. split; [done|].
    assert (tail (chain ++ [a]) = tail chain ++ [a]) as -> by (by destruct chain).
    apply Forall2_app.
    + apply Forall2_same_length_lookup_2; [by eapply Forall2_length|]. intros k x w Hx Hw.
      destruct (Forall2_lookup_lr _ _ _ _ _ _ Hall Hx Hw) as [n Hn]. exists n. rewrite (Hold' (Datatypes.S k)); [done|]. by destruct chain.
    + constructor; [|constructor]. exists None. apply lookup_insert_eq.
  - pose proof (ok_consumer _ _ Hs) as Hc. destruct (the_consumer s) as [|t n|t].
    + done.
    + destruct Hc as (-> & d & Hd). split; [done|]. exists d. rewrite (Hold' _ _ Htail). done.
    + destruct Hc as [Hn [n Ht]]. split.
      * intros [?|Hta%list_elem_of_singleton]%elem_of_app; [done|]. congruence.
      * rewrite lookup_insert_ne; [by eexists|]. intros ->. congruence.
  - intros x Hx. destruct (decide (x = a)) as [->|Hne]; [left; apply elem_of_app; right; by constructor|].
    rewrite lookup_insert_ne in Hx by done. destruct (ok_nodes _ _ Hs x Hx) as [?|?]; [|by right]. left. apply elem_of_app. by left.
Qed.

Lemma link_inv i s' : link i s = Next_state s' → chain_ok s' chain.
Proof.
  unfold link. destruct (producers s !! i) as [[prev node]|] eqn:Hi; [|done].
  destruct (ok_pending _ _ Hs i _ _ Hi) as (k & d & Hk & Hk' & Hprev). rewrite Hprev. intros [= <-]. cbn [Data].
  assert (∀ x n d', nodes s !! x = Some (MkNode d' n) → ∃ n', <[prev := MkNode d (Some node)]> (nodes s) !! x = Some (MkNode d' n')) as Hdata.
  { intros x n d' Hx. destruct (decide (x = prev)) as [->|Hne]; [|exists n; by rewrite lookup_insert_ne].
    rewrite lookup_insert_eq. rewrite Hprev in Hx. injection Hx as <- <-. by eexists. }
  constructor; cbn; try apply Hs.
  - intros j x y Hx Hy. unfold linked. cbn. destruct (decide (x = prev)) as [->|Hne].
    + assert (j = k) as -> by (by eapply node_unique). rewrite Hk' in Hy. injection Hy as <-.
      exists d, (Some node). split; [apply lookup_insert_eq|by left].
    + destruct (ok_linked _ _ Hs j x y Hx Hy) as (d' & n & Hn & Hor). exists d', n. rewrite lookup_insert_ne by done. split; [done|].
      destruct Hor as [?|[? [j' Hj']]]; [by left|]. right. split; [done|]. exists j'. rewrite lookup_delete_ne; [done|]. intros ->. congruence.
  - destruct (ok_end _ _ Hs) as [d' Hd']. exists d'. rewrite lookup_insert_ne; [done|]. intros ->. by eapply nothing_behind_head.
  - intros j x y Hj. apply lookup_delete_Some in Hj as [Hne Hj]. destruct (ok_pending _ _ Hs j x y Hj) as (k' & d' & Hx & Hy & Hd').
    exists k', d'. split; [done|]. split; [done|]. rewrite lookup_insert_ne; [done|]. intros ->. apply Hne. by eapply (ok_producers _ _ Hs).
  - intros j j' x y z [_ Hj]%lookup_delete_Some [_ Hj']%lookup_delete_Some. by eapply (ok_producers _ _ Hs).
  - destruct (ok_data _ _ Hs) as (vs & Hsent & Hall). exists vs. split; [done|]. eapply Forall2_impl; [exact Hall|].
    intros x w [n Hn]. by apply (Hdata x n).
  - pose proof (ok_consumer _ _ Hs) as Hc. destruct (the_consumer s) as [|t n|t].
    + done.
    + destruct Hc as (-> & d' & Hd'). split; [done|]. exists d'. rewrite lookup_insert_ne; [done|]. intros ->. congruence.
    + destruct Hc as [Hnin [[d' m] Ht]]. split; [done|]. destruct (Hdata _ _ _ Ht) as [m' Hm']. by eexists.
  - intros x [n Hn]. apply (ok_nodes _ _ Hs). destruct (decide (x = prev)) as [->|Hne]; [by eexists|].
    rewrite lookup_insert_ne in Hn by done. by eexists.
Qed.

Lemma load_inv s' : load s = Next_state s' → chain_ok s' chain.
Proof.
  unfold load. destruct (the_consumer s) eqn:Hc; try done. destruct (nodes s !! _tail s) as [[d n]|] eqn:Ht; [|done]. cbn.
  destruct n as [next|]; intros [= <-]; [|done]. constructor; cbn; try apply Hs.
  - split; [done|]. by exists d.
  - intros a Ha. destruct (ok_nodes _ _ Hs a Ha); [by left|congruence].
Qed.

(** Behind the first node: what the consumer read is the next one. *)
Lemma loaded_next t n : the_consumer s = Loaded t n → ∃ rest, chain = t :: n :: rest.
Proof.
  intros Hc. pose proof (ok_consumer _ _ Hs) as Hcons. rewrite Hc in Hcons. destruct Hcons as (-> & d & Hd).
  pose proof tail_first as Ht. pose proof head_last as Hh. pose proof (ok_linked _ _ Hs 0) as Hl. destruct chain as [|x [|y rest]]; [done| |].
  - cbn in *. injection Ht as ->. injection Hh as Hh. destruct (ok_end _ _ Hs) as [d' Hd']. congruence.
  - cbn in *. injection Ht as ->. exists rest. destruct (Hl _ y eq_refl eq_refl) as (d' & n' & Hn' & [->|[-> _]]); congruence.
Qed.
End preserved.

Lemma take_inv s chain s' : chain_ok s chain → take_data s = Next_state s' → chain_ok s' (tail chain).
Proof.
  intros Hs. unfold take_data. destruct (the_consumer s) as [|t n|] eqn:Hc; try done.
  destruct (loaded_next s chain Hs t n Hc) as [rest ->]. destruct (nodes s !! n ≫= Data) as [v|] eqn:Hv; [|done]. intros [= <-].
  pose proof (ok_consumer _ _ Hs) as Hcons. rewrite Hc in Hcons. destruct Hcons as (-> & dt & Hdt).
  pose proof (ok_nodup _ _ Hs) as Hnd. apply NoDup_cons in Hnd as [Hnt Hnd].
  constructor; cbn.
  - done.
  - pose proof (ok_last _ _ Hs) as Hl. done.
  - done.
  - intros k a b Ha Hb. apply (ok_linked _ _ Hs (Datatypes.S k) a b Ha Hb).
  - apply (ok_end _ _ Hs).
  - intros i a b Hi. destruct (ok_pending _ _ Hs i a b Hi) as (k & d & Ha & Hb & Hd). destruct k as [|k]; [|by exists k, d].
    cbn in Ha. injection Ha as <-. congruence.
  - apply (ok_producers _ _ Hs).
  - destruct (ok_data _ _ Hs) as (vs & Hsent & Hall). cbn in Hall. destruct vs as [|v' vs]; [by inversion Hall|].
    apply Forall2_cons in Hall as [[n' Hn'] Hall]. rewrite Hn' in Hv. cbn in Hv. injection Hv as <-.
    exists vs. rewrite Hsent, <-app_assoc. by split.
  - split; [done|]. by eexists.
  - intros a Ha. destruct (ok_nodes _ _ Hs a Ha) as [Hin|Hst]; [|congruence]. apply elem_of_cons in Hin as [->|Hin]; [by right|by left].
Qed.

Lemma delete_inv s chain s' : chain_ok s chain → delete_tail s = Next_state s' → chain_ok s' chain.
Proof.
  intros Hs. unfold delete_tail. destruct (the_consumer s) as [| |t] eqn:Hc; try done. destruct (nodes s !! t) as [nd|] eqn:Ht; [|done]. intros [= <-].
  pose proof (ok_consumer _ _ Hs) as Hcons. rewrite Hc in Hcons. destruct Hcons as [Hnt _].
  assert (∀ k a, chain !! k = Some a → delete t (nodes s) !! a = nodes s !! a) as Hold.
  { intros k a Ha. apply lookup_delete_ne. intros ->. apply Hnt. by eapply list_elem_of_lookup_2. }
  constructor; cbn; try apply Hs.
  - intros k a b Ha Hb. destruct (ok_linked _ _ Hs k a b Ha Hb) as (d & n & Hn & Hor). exists d, n. cbn. by rewrite (Hold k).
  - destruct (ok_end _ _ Hs) as [d Hd]. exists d. by rewrite (Hold _ _ (head_last s chain Hs)).
  - intros i a b Hi. destruct (ok_pending _ _ Hs i a b Hi) as (k & d & Ha & Hb & Hd). exists k, d. by rewrite (Hold k).
  - destruct (ok_data _ _ Hs) as (vs & Hsent & Hall). exists vs. split; [done|].
    apply Forall2_same_length_lookup_2; [by eapply Forall2_length|]. intros k x w Hx Hw.
    destruct (Forall2_lookup_lr _ _ _ _ _ _ Hall Hx Hw) as [n' Hn']. exists n'. rewrite (Hold (Datatypes.S k)); [done|]. by destruct chain.
  - done.
  - intros a [n' Ha]. apply lookup_delete_Some in Ha as [Hne Ha]. destruct (ok_nodes _ _ Hs a) as [?|Hst]; [by eexists|by left|]. congruence.
Qed.

Lemma mpsc_step l s s' : inv s → step l s = Next_state s' → inv s'.
Proof.
  intros [chain Hs] Hstep. destruct l as [i a v|i| | |]; cbn in Hstep.
  - eexists. by eapply exchange_inv.
  - exists chain. by eapply link_inv.
  - exists chain. by eapply load_inv.
  - exists (tail chain). by eapply take_inv.
  - exists chain. by eapply delete_inv.
Qed.
Lemma mpsc_reachable a0 s : reachable a0 s → inv s.
Proof. induction 1; [apply mpsc_make|by eapply mpsc_step]. Qed.

Lemma mpsc_defined l s : inv s → step l s ≠ Undefined.
Proof.
  intros [chain Hs]. destruct l as [i a v|i| | |]; cbn.
  - unfold exchange. by destruct (producers s !! i), (nodes s !! a).
  - unfold link. destruct (producers s !! i) as [[prev node]|] eqn:Hi; [|done].
    destruct (ok_pending _ _ Hs i _ _ Hi) as (k & d & _ & _ & ->). done.
  - unfold load. destruct (the_consumer s); try done. destruct (node_at s chain Hs _ _ (tail_first s chain Hs)) as (d & n & ->). cbn. by destruct n.
  - unfold take_data. destruct (the_consumer s) as [|t n|] eqn:Hc; try done. destruct (loaded_next s chain Hs t n Hc) as [rest Hrest].
    destruct (ok_data _ _ Hs) as (vs & _ & Hall). rewrite Hrest in Hall. cbn in Hall. apply Forall2_cons_inv_l in Hall as (v & vs' & [n' Hn'] & _ & _).
    rewrite Hn'. done.
  - unfold delete_tail. pose proof (ok_consumer _ _ Hs) as Hcons. destruct (the_consumer s) as [| |t]; try done. destruct Hcons as [_ [n ->]]. done.
Qed.

(** C9: However the steps of the producers and the consumer are interleaved: no
    node is used after it was deleted and none is deleted twice; what comes out
    is what went in, in the order of the exchanges, each element once; and
    [Dequeue] finds nothing only when the queue is empty or the producer of its
    first element has exchanged the head but not yet made the link. *)
Theorem mpsc_safe a0 s : reachable a0 s →
  (∀ l, step l s ≠ Undefined) ∧
  (∃ rest, sent s = received s ++ rest ∧
    (the_consumer s = Idle → load s = Next_state s → rest = [] ∨ ∃ i node, producers s !! i = Some (Linking (_tail s) node))).
Proof.
  intros Hr. pose proof (mpsc_reachable _ _ Hr) as Hinv. split; [intros l; by apply mpsc_defined|].
  destruct Hinv as [chain Hs]. destruct (ok_data _ _ Hs) as (vs & Hsent & Hall). exists vs. split; [done|].
  intros Hc Hload. unfold load in Hload. rewrite Hc in Hload.
  pose proof (tail_first s chain Hs) as Ht. pose proof (ok_linked _ _ Hs 0) as Hl. destruct chain as [|x [|y rest]]; [done| |].
  - left. by inversion Hall.
  - right. cbn in Ht. injection Ht as ->. destruct (Hl _ y eq_refl eq_refl) as (d & n & Hn & Hor). rewrite Hn in Hload. cbn in Hload.
    destruct Hor as [->|[-> [i Hi]]]; [|by exists i, y]. injection Hload as Hload. rewrite <-Hload in Hc. done.
Qed.

(** *** Whole calls, without interference *)

Definition and_then {A B} (m : stepped A) (f : A → stepped B) : stepped B :=
  match m with Next_state a => f a | Undefined => Undefined | Disabled => Disabled end.
Definition Enqueue (i a : nat) (input : T) (s : state) : stepped state := and_then (exchange i a input s) (link i).
Definition Dequeue (s : state) : stepped (bool * state) :=
  and_then (load s) (λ s1,
  match the_consumer s1 with
  | Idle => Next_state (false, s1)
  | _ => and_then (take_data s1) (λ s2, and_then (delete_tail s2) (λ s3, Next_state (true, s3)))
  end).
(** The destructor: it deletes what [Dequeue] gives it, and the last node. *)
Fixpoint destroy (fuel : nat) (s : state) : stepped state :=
  match fuel with
  | O => Disabled
  | Datatypes.S fuel =>
      and_then (Dequeue s) (λ r,
      if r.1 : bool then destroy fuel r.2
      else match nodes r.2 !! _head r.2 with
           | None => Undefined
           | Some _ => Next_state (State (delete (_head r.2) (nodes r.2)) (_head r.2) (_tail r.2) (producers r.2) (the_consumer r.2) (sent r.2) (received r.2))
           end)
  end.

(** A call of Dequeue when no producer is at work takes the oldest element. *)
Lemma mpsc_Dequeue s chain : chain_ok s chain → producers s = ∅ → the_consumer s = Idle →
  if decide (length (sent s) = length (received s)) then Dequeue s = Next_state (false, s) ∧ chain = [_head s]
  else ∃ v s', Dequeue s = Next_state (true, s') ∧ chain_ok s' (tail chain) ∧ producers s' = ∅ ∧ the_consumer s' = Idle ∧
    sent s' = sent s ∧ received s' = received s ++ [v] ∧ (2 ≤ length chain)%nat.
Proof.
  intros Hs Hp Hc. destruct (ok_data _ _ Hs) as (vs & Hsent & Hall). pose proof (tail_first s chain Hs) as Ht.
  destruct (node_at s chain Hs _ _ Ht) as (d & n & Hn). destruct chain as [|x [|y rest]]; [done| |]; cbn in Ht; injection Ht as ->.
  - inversion Hall; subst vs. rewrite decide_True by (by rewrite Hsent, app_nil_r).
    pose proof (ok_last _ _ Hs) as Hl. cbn in Hl. injection Hl as Hl. destruct (ok_end _ _ Hs) as [d' Hd']. rewrite <-Hl in Hd'.
    unfold Dequeue, load. rewrite Hc, Hd'. cbn. rewrite Hc. by rewrite Hl.
  - apply Forall2_cons_inv_l in Hall as (v & vs' & [n' Hn'] & _ & ->).
    rewrite decide_False. 2: { rewrite Hsent. intros Heq. rewrite length_app in Heq. cbn in Heq. lia. }
    destruct (ok_linked _ _ Hs 0 _ y eq_refl eq_refl) as (d' & m & Hm & Hor).
    assert (m = Some y) as ->. { destruct Hor as [?|[_ [i Hi]]]; [done|]. by rewrite Hp in Hi. }
    assert (_tail s ≠ y) as Hne. { pose proof (ok_nodup _ _ Hs) as Hnd. apply NoDup_cons in Hnd as [Hin _]. intros Hty. apply Hin. rewrite Hty. by constructor. }
    set (s1 := State (nodes s) (_head s) (_tail s) (producers s) (Loaded (_tail s) y) (sent s) (received s)).
    set (s2 := State (nodes s1) (_head s1) y (producers s1) (Stored (_tail s)) (sent s1) (received s1 ++ [v])).
    set (s3 := State (delete (_tail s) (nodes s2)) (_head s2) y (producers s2) Idle (sent s2) (received s2)).
    assert (load s = Next_state s1) as H1 by (unfold load; rewrite Hc, Hm; done).
    assert (take_data s1 = Next_state s2) as H2 by (unfold take_data; cbn; rewrite Hn'; done).
    assert (delete_tail s2 = Next_state s3) as H3 by (unfold delete_tail; cbn; rewrite Hm; done).
    exists v, s3. split; [unfold Dequeue; rewrite H1; cbn [and_then the_consumer s1]; rewrite H2; cbn [and_then]; by rewrite H3|].
    split; [|by split; [|split; [|split; [|split; [|cbn; lia]]]]].
    apply (delete_inv s2); [|done]. apply (take_inv s1 (_tail s :: y :: rest)); [|done]. by apply (load_inv s).
Qed.

(** The destructor of a queue that nobody uses any more gives every element
    out and frees every node once. *)
Lemma destroy_frees fuel s : inv s → producers s = ∅ → the_consumer s = Idle → (length (sent s) < length (received s) + fuel)%nat →
  ∃ s', destroy fuel s = Next_state s' ∧ nodes s' = ∅ ∧ received s' = sent s.
Proof.
  intros [chain Hs]. revert s chain Hs. induction fuel as [|fuel IH]; intros s chain Hs Hp Hc Hf.
  { destruct (ok_data _ _ Hs) as (vs & Hsent & _). rewrite Hsent, length_app in Hf. lia. }
  cbn [destroy]. pose proof (mpsc_Dequeue s chain Hs Hp Hc) as Hd. case_decide as Heq.
  - assert (sent s = received s) as Hall.
    { destruct (ok_data _ _ Hs) as ([|v vs] & Hsent & _); rewrite Hsent in *; [by rewrite app_nil_r|]. rewrite length_app in Heq. cbn in Heq. lia. }
    destruct Hd as [-> Hchain]. cbn. destruct (ok_end _ _ Hs) as [d He]. rewrite He. eexists. split; [done|]. cbn. split; [|done].
    apply map_eq. intros a. rewrite lookup_empty. destruct (decide (a = _head s)) as [->|Hne]; [apply lookup_delete_eq|].
    rewrite lookup_delete_ne by done. destruct (nodes s !! a) as [n|] eqn:Ha; [|done]. exfalso.
    destruct (ok_nodes _ _ Hs a) as [Hin|Hst]; [by eexists| |congruence]. rewrite Hchain in Hin. apply list_elem_of_singleton in Hin. done.
  - destruct Hd as (v & s' & -> & Hs' & Hp' & Hc' & Hsent & Hrec & _). cbn.
    destruct (IH s' (tail chain) Hs' Hp' Hc') as (s'' & Hrun & Hn & Hr); [rewrite Hsent, Hrec, length_app; cbn; lia|].
    exists s''. split; [done|]. split; [done|]. congruence.
Qed.
End queue.

(** Two producers; the second has linked its node first. *)
Definition demo_labels : list (label (T := nat)) :=
  [Exchange 0 1 10%nat; Exchange 1 2 20%nat; Link 1; Load; Link 0; Load; TakeData; DeleteTail].
Definition run (ls : list (label (T := nat))) (s : state) : stepped state :=
  fold_left (λ m l, and_then m (step l)) ls (Next_state s).
Definition demo_state : state (T := nat) := match run demo_labels (make 0) with Next_state s => s | _ => make 0 end.

Lemma mpsc_run a0 ls s s' : reachable a0 s → run ls s = Next_state s' → reachable a0 s'.
Proof.
  unfold run. revert s. induction ls as [|l ls IH]; intros s Hs; cbn; [by intros [= <-]|].
  destruct (step l s) as [| |s1] eqn:Hl; intros Hrun.
  - assert (∀ ls, fold_left (λ m l, and_then m (step l)) ls (@Disabled (state (T := nat))) = Disabled) as Hd by (intros ls'; induction ls'; done). congruence.
  - assert (∀ ls, fold_left (λ m l, and_then m (step l)) ls (@Undefined (state (T := nat))) = Undefined) as Hd by (intros ls'; induction ls'; done). congruence.
  - eapply IH; [|done]. by eapply reachable_step.
Qed.

Lemma mpsc_safe_witness : received demo_state = [10%nat] ∧ ∃ rest, sent demo_state = received demo_state ++ rest.
Proof.
  split; [reflexivity|]. destruct (mpsc_safe 0 demo_state) as [_ (rest & Hrest & _)].
  - apply (mpsc_run 0 demo_labels (make 0)); [constructor|reflexivity].
  - exists rest. exact Hrest.
Defined.
End MpscQueue.
