(* ===== verification/MpscIntrusive.v ===== *)
(** The intrusive queue of many producers and one consumer,
    free_queue/MPSCQueue.h: the link is a member of the objects themselves, and
    a dummy object keeps the queue from being empty.

    Objects are numbered; [links] holds the link of every object that is
    allocated.  The producers' and the consumer's steps are interleaved in any
    way; the consumer enqueues the dummy itself, and is then the producer
    [None].  An object that was given out may be deleted or enqueued again. *)
From stdpp Require Import gmap.
From S2P Require Import Prelude MpscQueue.

Module MpscIntrusive.
Import MpscQueue.

Section queue.
Context (dummy : nat).

(** The consumer inside [Dequeue]: [Skipped t] before the load behind the
    dummy, [AtHead t] before the load of [_head], [Enqueuing t] before and
    [Relink t] inside the call of [Enqueue], [Reload t] before the last load. *)
Inductive consumer := Idle | Skipped (t : nat) | AtHead (t : nat) | Enqueuing (t : nat) | Relink (t : nat) | Reload (t : nat).

Record state := State {
  links : gmap nat (option nat);
  _head : nat;
  _tail : nat;
  producers : gmap (option nat) producer;
  the_consumer : consumer;
  sent : list nat;
  received : list nat;
}.
Definition make : state := State {[ dummy := None ]} dummy dummy ∅ Idle [] [].

Definition with_consumer (c : consumer) (s : state) := State (links s) (_head s) (_tail s) (producers s) c (sent s) (received s).

(** What is in the queue, and therefore not the caller's. *)
Definition waiting (s : state) : list nat := drop (length (received s)) (sent s).

(** The caller allocates objects and deletes those it owns. *)
Definition allocate (a : nat) (s : state) : stepped state :=
  match links s !! a with
  | None => Next_state (State (<[a := None]> (links s)) (_head s) (_tail s) (producers s) (the_consumer s) (sent s) (received s))
  | Some _ => Disabled
  end.
Definition free (a : nat) (s : state) : stepped state :=
  if decide (a ∈ waiting s ∨ a = dummy ∨ links s !! a = None) then Disabled
  else Next_state (State (delete a (links s)) (_head s) (_tail s) (producers s) (the_consumer s) (sent s) (received s)).

(** Enqueue: the store to the object's own link and the exchange; then the
    link. *)
Definition exchange (i : option nat) (input : nat) (s : state) : stepped state :=
  match producers s !! i, links s !! input with
  | Some _, _ => Disabled
  | None, None => Undefined
  | None, Some _ => Next_state (State (<[input := None]> (links s)) input (_tail s) (<[i := Linking (_head s) input]> (producers s)) (the_consumer s)
      (if decide (input = dummy) then sent s else sent s ++ [input]) (received s))
  end.
Definition link (i : option nat) (s : state) : stepped state :=
  match producers s !! i with
  | None => Disabled
  | Some (Linking prevHead input) =>
      match links s !! prevHead with
      | None => Undefined
      | Some _ => Next_state (State (<[prevHead := Some input]> (links s)) (_head s) (_tail s) (delete i (producers s)) (the_consumer s) (sent s) (received s))
      end
  end.
(** A producer enqueues an object that it owns. *)
Definition produce (i input : nat) (s : state) : stepped state :=
  if decide (input ∈ waiting s ∨ input = dummy ∨ links s !! input = None) then Disabled else exchange (Some i) input s.

(** [result = tail] with the store of [_tail]. *)
Definition give (t next : nat) (s : state) : state :=
  State (links s) (_head s) next (producers s) Idle (sent s) (received s ++ [t]).
Definition decide_next (t : nat) (next : option nat) (s : state) : state :=
  match next with Some n => give t n s | None => with_consumer (AtHead t) s end.
Definition consume (s : state) : stepped state :=
  match the_consumer s with
  | Idle =>
      match links s !! _tail s with
      | None => Undefined
      | Some next =>
          if decide (_tail s = dummy) then
            match next with
            | None => Next_state s
            | Some n => Next_state (State (links s) (_head s) n (producers s) (Skipped n) (sent s) (received s))
            end
          else Next_state (decide_next (_tail s) next s)
      end
  | Skipped t =>
      match links s !! t with None => Undefined | Some next => Next_state (decide_next t next s) end
  | AtHead t => Next_state (with_consumer (if decide (t = _head s) then Enqueuing t else Idle) s)
  | Enqueuing t =>
      match exchange None dummy s with Next_state s => Next_state (with_consumer (Relink t) s) | o => o end
  | Relink t =>
      match link None s with Next_state s => Next_state (with_consumer (Reload t) s) | o => o end
  | Reload t =>
      match links s !! t with
      | None => Undefined
      | Some (Some n) => Next_state (give t n s)
      | Some None => Next_state (with_consumer Idle s)
      end
  end.

Inductive label := Allocate (a : nat) | Free (a : nat) | Produce (i input : nat) | Link (i : nat) | Consume.
Definition step (l : label) : state → stepped state :=
  match l with
  | Allocate a => allocate a
  | Free a => free a
  | Produce i a => produce i a
  | Link i => link (Some i)
  | Consume => consume
  end.
Inductive reachable : state → Prop :=
  | reachable_make : reachable make
  | reachable_step l s s' : reachable s → step l s = Next_state s' → reachable s'.

(** ** The chain of objects *)

Definition linked (s : state) (a b : nat) : Prop :=
  links s !! a = Some (Some b) ∨ links s !! a = Some None ∧ ∃ i, producers s !! i = Some (Linking a b).
Definition not_dummy (chain : list nat) : list nat := filter (λ a, a ≠ dummy) chain.

Record core (s : state) (chain : list nat) : Prop := {
  ok_first : head chain = Some (_tail s);
  ok_last : last chain = Some (_head s);
  ok_nodup : NoDup chain;
  ok_linked : ∀ k a b, chain !! k = Some a → chain !! Datatypes.S k = Some b → linked s a b;
  ok_end : links s !! _head s = Some None;
  ok_dummy : is_Some (links s !! dummy);
  ok_pending : ∀ i a b, producers s !! i = Some (Linking a b) →
    ∃ k, chain !! k = Some a ∧ chain !! Datatypes.S k = Some b ∧ links s !! a = Some None;
  ok_producers : ∀ i j a b b', producers s !! i = Some (Linking a b) → producers s !! j = Some (Linking a b') → i = j;
  ok_data : sent s = received s ++ not_dummy chain;
}.
(** Where the consumer is. *)
Definition consumer_ok (s : state) (chain : list nat) : Prop :=
  match the_consumer s with
  | Idle => True
  | Skipped t | AtHead t | Reload t => t = _tail s ∧ t ≠ dummy
  | Enqueuing t => t = _tail s ∧ t ≠ dummy ∧ dummy ∉ chain
  | Relink t => t = _tail s ∧ t ≠ dummy
  end ∧ (is_Some (producers s !! None) ↔ ∃ t, the_consumer s = Relink t).
Definition inv (s : state) : Prop := ∃ chain, core s chain ∧ consumer_ok s chain.

Lemma intrusive_make : inv make.
Proof.
  exists [dummy]. split.
  - constructor; cbn; [done|done|apply NoDup_singleton| | | | | |].
    + intros k x y Hx Hy. by destruct k.
    + apply lookup_singleton_eq.
    + eexists. apply lookup_singleton_eq.
    + intros i x y Hi. by rewrite lookup_empty in Hi.
    + intros i j x y z Hi. by rewrite lookup_empty in Hi.
    + unfold not_dummy. cbn. case_decide; naive_solver.
  - split; cbn; [done|]. split; [intros [x Hx]; by rewrite lookup_empty in Hx|]. by intros [t [=]].
Qed.

Section chain.
Context (s : state) (chain : list nat) (Hs : core s chain).

Lemma tail_object : chain !! 0%nat = Some (_tail s).
Proof. pose proof (ok_first _ _ Hs). by destruct chain. Qed.
Lemma head_object : chain !! Nat.pred (length chain) = Some (_head s).
Proof. rewrite <-last_lookup. apply (ok_last _ _ Hs). Qed.
Lemma object_unique k k' a : chain !! k = Some a → chain !! k' = Some a → k = k'.
Proof. intros. eapply NoDup_lookup; [apply (ok_nodup _ _ Hs)|done|done]. Qed.
Lemma head_is_last k b : chain !! k = Some (_head s) → chain !! Datatypes.S k = Some b → False.
Proof. intros Hk Hb. pose proof (object_unique _ _ _ Hk head_object). apply lookup_lt_Some in Hb. lia. Qed.
Lemma chain_object k a : chain !! k = Some a → is_Some (links s !! a).
Proof.
  intros Hk. destruct (chain !! Datatypes.S k) as [b|] eqn:Hb.
  - destruct (ok_linked _ _ Hs k a b Hk Hb) as [->|[-> _]]; by eexists.
  - apply lookup_ge_None in Hb. pose proof (lookup_lt_Some _ _ _ Hk). pose proof head_object as Hl.
    replace (Nat.pred (length chain)) with k in Hl by lia. rewrite Hk in Hl. injection Hl as ->. rewrite (ok_end _ _ Hs). by eexists.
Qed.
Lemma successor k a b n : chain !! k = Some a → chain !! Datatypes.S k = Some b → links s !! a = Some (Some n) → n = b.
Proof. intros Hk Hb Hn. destruct (ok_linked _ _ Hs k a b Hk Hb) as [?|[? _]]; congruence. Qed.
(** A link that is there leads to the next object of the chain. *)
Lemma next_of_tail n : links s !! _tail s = Some (Some n) → ∃ rest, chain = _tail s :: n :: rest.
Proof.
  intros Hn. pose proof tail_object as Ht. pose proof (successor 0) as Hsucc. pose proof (ok_last _ _ Hs) as Hl.
  destruct chain as [|x [|y rest]]; [done| |]; cbn in Ht; injection Ht as ->.
  - cbn in Hl. injection Hl as Hl. pose proof (ok_end _ _ Hs) as He. rewrite <-Hl, Hn in He. done.
  - exists rest. by rewrite (Hsucc (_tail s) y n eq_refl eq_refl Hn).
Qed.
Lemma waiting_eq : waiting s = not_dummy chain.
Proof. unfold waiting. by rewrite (ok_data _ _ Hs), drop_app_length. Qed.
Lemma absent_object a : a ≠ dummy → a ∉ waiting s → a ∉ chain.
Proof. rewrite waiting_eq. unfold not_dummy. intros Hne Hn Hin. apply Hn. by apply list_elem_of_filter. Qed.

Lemma exchange_core i input s' : exchange i input s = Next_state s' → input ∉ chain → core s' (chain ++ [input]).
Proof.
  unfold exchange. destruct (producers s !! i) eqn:Hi; [done|]. destruct (links s !! input) as [l|] eqn:Ha; [|done]. intros [= <-] Hfresh.
  assert (∀ k x, chain !! k = Some x → <[input := None]> (links s) !! x = links s !! x) as Hold.
  { intros k x Hx. apply lookup_insert_ne. intros ->. apply Hfresh. by eapply list_elem_of_lookup_2. }
  pose proof tail_object as Htail. pose proof head_object as Hhead. pose proof (lookup_lt_Some _ _ _ Htail) as Hpos.
  constructor; cbn.
  - destruct chain; [done|]. by apply (ok_first _ _ Hs).
  - apply last_snoc.
  - apply NoDup_app. split; [apply (ok_nodup _ _ Hs)|]. split; [|apply NoDup_singleton]. intros x Hx Hxa%list_elem_of_singleton. by subst x.
  - intros k x y Hx Hy. unfold linked. cbn. destruct (decide (Datatypes.S k < length chain)%nat) as [Hlt|Hge].
    + rewrite lookup_app_l in Hy by done. rewrite lookup_app_l in Hx by lia. rewrite (Hold k) by done.
      destruct (ok_linked _ _ Hs k x y Hx Hy) as [?|[? [j Hj]]]; [by left|]. right. split; [done|]. exists j. rewrite lookup_insert_ne; [done|]. intros ->. congruence.
    + assert (k = Nat.pred (length chain)) as ->. { apply lookup_lt_Some in Hy. rewrite length_app in Hy. cbn in Hy. lia. }
      rewrite lookup_app_l, Hhead in Hx by lia. injection Hx as <-.
      rewrite lookup_app_r in Hy by lia. replace (Datatypes.S (Nat.pred (length chain)) - length chain)%nat with 0%nat in Hy by lia. injection Hy as <-.
      right. rewrite (Hold _ _ Hhead). split; [apply (ok_end _ _ Hs)|]. exists i. apply lookup_insert_eq.
  - apply lookup_insert_eq.
  - destruct (decide (dummy = input)) as [->|Hne]; [rewrite lookup_insert_eq; by eexists|]. rewrite lookup_insert_ne by done. apply (ok_dummy _ _ Hs).
  - intros j x y Hj. destruct (decide (j = i)) as [->|Hne].
    + rewrite lookup_insert_eq in Hj. injection Hj as <- <-. exists (Nat.pred (length chain)). rewrite lookup_app_l by lia. split; [done|].
      rewrite (Hold _ _ Hhead). split; [|apply (ok_end _ _ Hs)].
      rewrite lookup_app_r by lia. by replace (Datatypes.S (Nat.pred (length chain)) - length chain)%nat with 0%nat by lia.
    + rewrite lookup_insert_ne in Hj by done. destruct (ok_pending _ _ Hs j x y Hj) as (k & Hx & Hy & Hd).
      exists k. rewrite (Hold k) by done. split; [by apply lookup_app_l_Some|]. split; [by apply lookup_app_l_Some|done].
  - assert (∀ j z, producers s !! j = Some (Linking (_head s) z) → False) as Hhd.
    { intros j z Hj. destruct (ok_pending _ _ Hs j _ _ Hj) as (k & Hx & Hy & _). by eapply head_is_last. }
    intros j j' x y z. destruct (decide (j = i)) as [->|Hne], (decide (j' = i)) as [->|Hne']; [done| | |].
    + rewrite lookup_insert_eq, lookup_insert_ne by done. intros [= <- <-] Hj. exfalso. by eapply Hhd.
    + rewrite lookup_insert_eq, lookup_insert_ne by done. intros Hj [= <- <-]. exfalso. by eapply Hhd.
    + rewrite !lookup_insert_ne by done. apply (ok_producers _ _ Hs).
  - unfold not_dummy. rewrite filter_app, (ok_data _ _ Hs). cbn. case_decide as Hd.
    + rewrite decide_False by naive_solver. by rewrite app_nil_r.
    + rewrite decide_True by done. by rewrite app_assoc.
Qed.

Lemma link_core i s' : link i s = Next_state s' → core s' chain.
Proof.
  unfold link. destruct (producers s !! i) as [[prev input]|] eqn:Hi; [|done].
  destruct (ok_pending _ _ Hs i _ _ Hi) as (k & Hk & Hk' & Hprev). rewrite Hprev. intros [= <-].
  constructor; cbn; try apply Hs.
  - intros j x y Hx Hy. unfold linked. cbn. destruct (decide (x = prev)) as [->|Hne].
    + assert (j = k) as -> by (by eapply object_unique). rewrite Hk' in Hy. injection Hy as <-. left. apply lookup_insert_eq.
    + rewrite lookup_insert_ne by done. destruct (ok_linked _ _ Hs j x y Hx Hy) as [?|[? [j' Hj']]]; [by left|].
      right. split; [done|]. exists j'. rewrite lookup_delete_ne; [done|]. intros ->. congruence.
  - rewrite lookup_insert_ne; [apply (ok_end _ _ Hs)|]. intros ->. by eapply head_is_last.
  - destruct (decide (dummy = prev)) as [->|Hne]; [rewrite lookup_insert_eq; by eexists|]. rewrite lookup_insert_ne by done. apply (ok_dummy _ _ Hs).
  - intros j x y Hj. apply lookup_delete_Some in Hj as [Hne Hj]. destruct (ok_pending _ _ Hs j x y Hj) as (k' & Hx & Hy & Hd').
    exists k'. split; [done|]. split; [done|]. rewrite lookup_insert_ne; [done|]. intros ->. apply Hne. by eapply (ok_producers _ _ Hs).
  - intros j j' x y z [_ Hj]%lookup_delete_Some [_ Hj']%lookup_delete_Some. by eapply (ok_producers _ _ Hs).
Qed.
End chain.

(** The first object leaves the chain. *)
Lemma advance_core s t n rest c received' :
  core s (t :: n :: rest) → links s !! t = Some (Some n) → sent s = received' ++ not_dummy (n :: rest) →
  core (State (links s) (_head s) n (producers s) c (sent s) received') (n :: rest).
Proof.
  intros Hs Ht Hd. constructor; cbn; try apply Hs; try done.
  - pose proof (ok_nodup _ _ Hs) as Hn. by apply NoDup_cons in Hn as [_ Hn].
  - intros k a b Ha Hb. apply (ok_linked _ _ Hs (Datatypes.S k) a b Ha Hb).
  - intros i a b Hi. destruct (ok_pending _ _ Hs i a b Hi) as (k & Ha & Hb & Hnone). destruct k as [|k]; [|by exists k].
    cbn in Ha. injection Ha as <-. congruence.
Qed.

(** A change of the link of an object outside the chain. *)
Lemma outside_core s chain links' :
  core s chain → (∀ a, a ∈ chain ∨ a = dummy → links' !! a = links s !! a) →
  core (State links' (_head s) (_tail s) (producers s) (the_consumer s) (sent s) (received s)) chain.
Proof.
  intros Hs Hsame. assert (∀ k a, chain !! k = Some a → links' !! a = links s !! a) as Hold.
  { intros k a Ha. apply Hsame. left. by eapply list_elem_of_lookup_2. }
  constructor; cbn; try apply Hs.
  - intros k a b Ha Hb. unfold linked. cbn. rewrite (Hold k) by done. apply (ok_linked _ _ Hs k a b Ha Hb).
  - rewrite (Hold _ _ (head_object s chain Hs)). apply (ok_end _ _ Hs).
  - rewrite Hsame by (by right). apply (ok_dummy _ _ Hs).
  - intros i a b Hi. destruct (ok_pending _ _ Hs i a b Hi) as (k & Ha & Hb & Hn). exists k. by rewrite (Hold k).
Qed.

Lemma consumer_core s chain c : core s chain → core (with_consumer c s) chain.
Proof. intros Hs. constructor; apply Hs. Qed.

Lemma give_inv s chain t n : core s chain → t = _tail s → t ≠ dummy → links s !! t = Some (Some n) →
  producers s !! None = None → inv (give t n s).
Proof.
  intros Hs -> Hne Hn Hp. destruct (next_of_tail s chain Hs n Hn) as [rest ->]. exists (n :: rest). split.
  - apply (advance_core s (_tail s)); [done|done|]. rewrite (ok_data _ _ Hs). unfold not_dummy. rewrite filter_cons_True by done. by rewrite <-app_assoc.
  - split; [done|]. cbn. rewrite Hp. split; [by intros [? ?]|]. by intros [? [=]].
Qed.
Lemma decide_inv s chain t next : core s chain → t = _tail s → t ≠ dummy → links s !! t = Some next →
  producers s !! None = None → inv (decide_next t next s).
Proof.
  intros Hs -> Hne Hn Hp. destruct next as [n|]; cbn; [by eapply give_inv|]. exists chain. split; [by apply consumer_core|].
  split; [done|]. cbn. rewrite Hp. split; [by intros [? ?]|]. by intros [? [=]].
Qed.

Lemma no_self s chain : consumer_ok s chain → (∀ t, the_consumer s ≠ Relink t) → producers s !! None = None.
Proof.
  intros [_ Hself] Hc. destruct (producers s !! None) eqn:Hp; [|done]. destruct Hself as [Hself _].
  destruct Hself as [t Ht]; [by eexists|]. by destruct (Hc t).
Qed.

Lemma consume_inv s s' : inv s → consume s = Next_state s' → inv s'.
Proof.
  intros (chain & Hs & Hcons) Hstep. pose proof (no_self s chain Hcons) as Hself. destruct Hcons as [Hc Hrel]. unfold consume in Hstep.
  destruct (the_consumer s) as [|t|t|t|t|t] eqn:Hcs.
  - specialize (Hself ltac:(done)). destruct (links s !! _tail s) as [next|] eqn:Ht; [|done]. destruct (decide (_tail s = dummy)) as [Hd|Hd].
    + destruct next as [n|]; injection Hstep as <-.
      2:{ exists chain. split; [done|]. split; [by rewrite Hcs|]. by rewrite Hcs. }
      destruct (next_of_tail s chain Hs n Ht) as [rest ->]. exists (n :: rest). split.
      * apply (advance_core s (_tail s)); [done|done|]. rewrite (ok_data _ _ Hs). unfold not_dummy at 1. rewrite filter_cons_False; [done|]. by intros ?.
      * split; cbn; [|rewrite Hself; split; [by intros [? ?]|by intros [? [=]]]]. split; [done|].
        pose proof (ok_nodup _ _ Hs) as Hnd. apply NoDup_cons in Hnd as [Hin _]. rewrite Hd in Hin. intros ->. apply Hin. by constructor.
    + injection Hstep as <-. by eapply decide_inv.
  - specialize (Hself ltac:(done)). destruct Hc as [-> Hne]. destruct (links s !! _tail s) as [next|] eqn:Ht; [|done]. injection Hstep as <-. by eapply decide_inv.
  - specialize (Hself ltac:(done)). destruct Hc as [-> Hne]. injection Hstep as <-. exists chain. split; [by apply consumer_core|].
    split; cbn; [|rewrite Hself; split; [by intros [? ?]|intros [? Hx]; by case_decide]]. case_decide as Hh; [|done]. split; [done|]. split; [done|].
    pose proof (tail_object s chain Hs) as Ht. pose proof (head_object s chain Hs) as Hhd. rewrite <-Hh in Hhd. pose proof (object_unique s chain Hs _ _ _ Ht Hhd) as Hlen.
    destruct chain as [|x [|y rest]]; [done| |cbn in Hlen; lia]. cbn in Ht. injection Ht as ->. intros Hin%list_elem_of_singleton. by apply Hne.
  - destruct Hc as (-> & Hne & Hfresh). destruct (exchange None dummy s) as [| |s1] eqn:Hx; [done..|]. injection Hstep as <-.
    exists (chain ++ [dummy]). split; [apply consumer_core; by eapply exchange_core|].
    unfold exchange in Hx. destruct (producers s !! None) eqn:Hp; [done|]. destruct (links s !! dummy); [|done]. injection Hx as <-.
    split; cbn; [done|]. rewrite lookup_insert_eq. split; [by eexists|by eexists].
  - destruct Hc as (-> & Hne). destruct (link None s) as [| |s1] eqn:Hx; [done..|]. injection Hstep as <-.
    exists chain. split; [apply consumer_core; by eapply link_core|].
    unfold link in Hx. destruct (producers s !! None) as [[prev b]|] eqn:Hp; [|done]. destruct (links s !! prev); [|done]. injection Hx as <-.
    split; cbn; [done|]. rewrite lookup_delete_eq. split; [by intros [? ?]|by intros [? [=]]].
  - specialize (Hself ltac:(done)). destruct Hc as [-> Hne]. destruct (links s !! _tail s) as [[n|]|] eqn:Ht; [| |done]; injection Hstep as <-.
    + by eapply give_inv.
    + exists chain. split; [by apply consumer_core|]. split; cbn; [done|]. rewrite Hself. split; [by intros [? ?]|by intros [? [=]]].
Qed.

Lemma intrusive_step l s s' : inv s → step l s = Next_state s' → inv s'.
Proof.
  intros Hinv. destruct l as [a|a|i a|i|]; cbn [step]; [| | | |by apply consume_inv]; destruct Hinv as (chain & Hs & Hc).
  - unfold allocate. destruct (links s !! a) eqn:Ha; [done|]. intros [= <-]. exists chain. split; [|done]. apply outside_core; [done|].
    intros b Hb. apply lookup_insert_ne. intros ->. destruct Hb as [Hb| ->].
    + apply list_elem_of_lookup in Hb as [k Hk]. destruct (chain_object s chain Hs k b Hk). congruence.
    + destruct (ok_dummy _ _ Hs). congruence.
  - unfold free. case_decide as Hd; [done|]. intros [= <-]. exists chain. split; [|done]. apply outside_core; [done|].
    intros b Hb. apply lookup_delete_ne. intros ->. apply Hd. destruct Hb as [Hb| ->]; [|by right; left].
    destruct (decide (b = dummy)) as [|Hne]; [by right; left|]. left. rewrite (waiting_eq s chain Hs). by apply list_elem_of_filter.
  - unfold produce. case_decide as Hd; [done|]. intros Hx. exists (chain ++ [a]). assert (a ≠ dummy ∧ a ∉ waiting s) as [Hne Hw].
    { split; intros ?; apply Hd; [by right; left|by left]. }
    pose proof (absent_object s chain Hs a Hne Hw) as Hin. split; [by eapply exchange_core|].
    unfold exchange in Hx. destruct (producers s !! Some i); [done|]. destruct (links s !! a); [|done]. injection Hx as <-.
    unfold consumer_ok in *. cbn. rewrite lookup_insert_ne by done. destruct Hc as [Hc Hself]. split; [|done].
    destruct (the_consumer s); try done. destruct Hc as (? & ? & Hfresh). split; [done|]. split; [done|]. intros [?|Hy%list_elem_of_singleton]%elem_of_app; [done|]. by apply Hne.
  - intros Hx. exists chain. split; [by eapply link_core|].
    unfold link in Hx. destruct (producers s !! Some i) as [[prev b]|]; [|done]. destruct (links s !! prev); [|done]. injection Hx as <-.
    unfold consumer_ok in *. cbn. by rewrite lookup_delete_ne.
Qed.
Lemma intrusive_reachable s : reachable s → inv s.
Proof. induction 1; [apply intrusive_make|by eapply intrusive_step]. Qed.

Lemma intrusive_defined l s : inv s → step l s ≠ Undefined.
Proof.
  intros (chain & Hs & Hc & Hself). assert (∀ i, link i s ≠ Undefined) as Hlink.
  { intros i. unfold link. destruct (producers s !! i) as [[prev b]|] eqn:Hi; [|done].
    destruct (ok_pending _ _ Hs i _ _ Hi) as (k & _ & _ & ->). done. }
  destruct (chain_object s chain Hs _ _ (tail_object s chain Hs)) as [nt Hnt]. destruct (ok_dummy _ _ Hs) as [nd Hnd].
  destruct l as [a|a|i a|i|]; cbn; [| | |apply Hlink|].
  - unfold allocate. by destruct (links s !! a).
  - unfold free. by case_decide.
  - unfold produce. case_decide as Hd; [done|]. unfold exchange. destruct (producers s !! Some i); [done|].
    destruct (links s !! a) eqn:Ha; [done|]. destruct Hd. by right; right.
  - unfold consume. destruct (the_consumer s) as [|t|t|t|t|t].
    + rewrite Hnt. case_decide; [by destruct nt|done].
    + destruct Hc as [-> _]. by rewrite Hnt.
    + done.
    + unfold exchange. destruct (producers s !! None); [done|]. by rewrite Hnd.
    + destruct (link None s) eqn:Hl; [done|by apply Hlink in Hl|done].
    + destruct Hc as [-> _]. rewrite Hnt. by destruct nt.
Qed.

(** C10: However the steps of the producers and the consumer are interleaved, no
    step touches an object that was deleted, even when callers delete or
    enqueue again whatever they were given; objects come out in the order in
    which they were enqueued, each once, and the dummy never does. *)
Theorem intrusive_safe s : reachable s →
  (∀ l, step l s ≠ Undefined) ∧
  ∃ rest, sent s = received s ++ rest ∧ NoDup rest ∧ dummy ∉ sent s.
Proof.
  intros Hr. pose proof (intrusive_reachable s Hr) as Hinv. split; [intros l; by apply intrusive_defined|].
  destruct Hinv as (chain & Hs & _). exists (not_dummy chain). split; [apply (ok_data _ _ Hs)|]. split; [apply NoDup_filter, (ok_nodup _ _ Hs)|].
  clear chain Hs. induction Hr as [|l s s' Hr IH Hstep]; [by intros ?%elem_of_nil|].
  assert (sent s' = sent s ∨ ∃ a, sent s' = sent s ++ [a] ∧ a ≠ dummy) as [->|(a & -> & Hne)]; [|done|].
  - destruct l as [a|a|i a|i|]; cbn in Hstep.
    + unfold allocate in Hstep. destruct (links s !! a); [done|]. injection Hstep as <-. by left.
    + unfold free in Hstep. case_decide; [done|]. injection Hstep as <-. by left.
    + unfold produce in Hstep. case_decide as Hd; [done|]. unfold exchange in Hstep. destruct (producers s !! Some i); [done|].
      destruct (links s !! a); [|done]. injection Hstep as <-. cbn. rewrite decide_False by naive_solver. right. exists a. split; [done|]. naive_solver.
    + unfold link in Hstep. destruct (producers s !! Some i) as [[prev b]|]; [|done]. destruct (links s !! prev); [|done]. injection Hstep as <-. by left.
    + left. unfold consume, decide_next, exchange, link, give, with_consumer in Hstep. repeat (case_match; try done; simplify_eq/=; try done).
  - intros [?|Hin%list_elem_of_singleton]%elem_of_app; [done|]. by subst a.
Qed.

(** ** Whole calls, without interference *)

(** The steps of a call of Dequeue up to its return. *)
Fixpoint finish (fuel : nat) (s : state) : stepped state :=
  match the_consumer s, fuel with
  | Idle, _ => Next_state s
  | _, O => Disabled
  | _, Datatypes.S fuel => and_then (consume s) (finish fuel)
  end.
Definition Dequeue (s : state) : stepped state := and_then (consume s) (finish 5).
(** The destructor deletes what comes out. *)
Fixpoint destroy (fuel : nat) (s : state) : stepped state :=
  match fuel with
  | O => Disabled
  | Datatypes.S fuel =>
      and_then (Dequeue s) (λ s',
      match drop (length (received s)) (received s') with
      | output :: _ => and_then (free output s') (destroy fuel)
      | [] => Next_state s'
      end)
  end.

Lemma link_is_there s chain k a b : core s chain → producers s = ∅ → chain !! k = Some a → chain !! Datatypes.S k = Some b → links s !! a = Some (Some b).
Proof.
  intros Hs Hp Ha Hb. destruct (ok_linked _ _ Hs k a b Ha Hb) as [?|[_ [i Hi]]]; [done|]. by rewrite Hp, lookup_empty in Hi.
Qed.

(** From the first object on, whether or not the dummy has to be put behind
    it. *)
Lemma deliver s a rest : core s (a :: rest) → a ≠ dummy → producers s = ∅ → (rest = [] → is_Some (links s !! dummy)) →
  ∃ s' next, links s !! a = Some next ∧ finish 4 (decide_next a next s) = Next_state s' ∧ the_consumer s' = Idle ∧ producers s' = ∅ ∧
    received s' = received s ++ [a] ∧ sent s' = sent s.
Proof.
  intros Hs Hne Hp _. pose proof (tail_object s _ Hs) as Ht. cbn in Ht. injection Ht as Ht. destruct rest as [|b rest].
  - pose proof (ok_last _ _ Hs) as Hl. cbn in Hl. injection Hl as Hl. pose proof (ok_end _ _ Hs) as He. rewrite <-Hl in He.
    destruct (ok_dummy _ _ Hs) as [d Hd].
    eexists _, None. split; [done|]. cbn [decide_next]. unfold finish at 1. cbn [the_consumer with_consumer and_then consume].
    rewrite decide_True by done. cbn [and_then the_consumer with_consumer consume].
    unfold exchange at 1. cbn [producers links with_consumer]. rewrite Hp, lookup_empty, Hd. cbn [and_then the_consumer with_consumer consume].
    unfold link at 1. cbn [producers links with_consumer _head]. rewrite lookup_insert_eq. rewrite <-Hl.
    rewrite lookup_insert_ne by done. rewrite He. cbn [and_then the_consumer with_consumer consume links]. rewrite lookup_insert_eq. cbn.
    split; [done|]. split; [done|]. split; [by rewrite delete_insert_id|]. split; [done|]. by rewrite decide_True.
  - pose proof (link_is_there s _ 0 a b Hs Hp eq_refl eq_refl) as Hn. eexists _, (Some b). split; [done|]. cbn. done.
Qed.

(** A call of Dequeue while no producer is at work gives out the oldest object,
    if there is one. *)
Lemma intrusive_Dequeue s : inv s → producers s = ∅ → the_consumer s = Idle →
  ∃ s', Dequeue s = Next_state s' ∧ inv s' ∧ the_consumer s' = Idle ∧ producers s' = ∅ ∧ sent s' = sent s ∧
    received s' = received s ++ take 1 (waiting s).
Proof.
  intros Hinv Hp Hc. pose proof Hinv as (chain & Hs & _).
  assert (∀ n s1 s2, inv s1 → finish n s1 = Next_state s2 → inv s2) as Hfin.
  { intros n. induction n as [|n IH]; intros s1 s2 Hi; cbn [finish]; destruct (the_consumer s1) eqn:E; try done; try (by intros [= <-]).
    all: destruct (consume s1) as [| |s3] eqn:Hstep; cbn; try done; apply IH; by eapply consume_inv. }
  rewrite (waiting_eq s chain Hs). pose proof (tail_object s chain Hs) as Ht. destruct chain as [|x rest]; [done|]. cbn in Ht. injection Ht as ->.
  unfold Dequeue. destruct (decide (_tail s = dummy)) as [Hd|Hd].
  - assert (not_dummy (_tail s :: rest) = not_dummy rest) as -> by (unfold not_dummy; rewrite filter_cons_False; [done|by intros ?]).
    pose proof (ok_nodup _ _ Hs) as Hnd. apply NoDup_cons in Hnd as [Hin Hnd]. destruct rest as [|b rest].
    + pose proof (ok_last _ _ Hs) as Hl. cbn in Hl. injection Hl as Hl. pose proof (ok_end _ _ Hs) as He. rewrite <-Hl in He.
      exists s. unfold consume. rewrite Hc, He, decide_True by done. cbn. rewrite Hc. rewrite app_nil_r. done.
    + pose proof (link_is_there s _ 0 _ b Hs Hp eq_refl eq_refl) as Hn.
      set (s1 := State (links s) (_head s) b (producers s) (Skipped b) (sent s) (received s)).
      assert (consume s = Next_state s1) as H1 by (unfold consume; rewrite Hc, Hn, decide_True by done; done).
      assert (b ≠ dummy) as Hb. { intros ->. apply Hin. rewrite Hd. by constructor. }
      assert (not_dummy (b :: rest) = b :: not_dummy rest) as Hnb by (unfold not_dummy; by rewrite filter_cons_True).
      assert (core s1 (b :: rest)) as Hs1.
      { apply (advance_core s (_tail s)); [done|done|]. rewrite (ok_data _ _ Hs). unfold not_dummy at 1. rewrite filter_cons_False; [done|]. by intros ?. }
      destruct (deliver s1 b rest Hs1 Hb Hp) as (s' & next & Hnext & Hrun & Hc' & Hp' & Hr' & Hsent'); [intros _; apply (ok_dummy _ _ Hs)|].
      assert (finish 5 s1 = Next_state s') as Hf.
      { change (finish 5 s1) with (and_then (consume s1) (finish 4)). unfold consume. cbn [the_consumer s1]. change (links s1) with (links s) in *. rewrite Hnext. exact Hrun. }
      exists s'. rewrite H1. cbn [and_then]. split; [done|]. split; [eapply (Hfin 5%nat s1); [by eapply consume_inv|done]|].
      rewrite Hnb. done.
  - assert (not_dummy (_tail s :: rest) = _tail s :: not_dummy rest) as -> by (unfold not_dummy; by rewrite filter_cons_True).
    destruct (deliver s (_tail s) rest Hs Hd Hp) as (s' & next & Hnext & Hrun & Hc' & Hp' & Hr' & Hsent'); [intros _; apply (ok_dummy _ _ Hs)|].
    assert (consume s = Next_state (decide_next (_tail s) next s)) as H1 by (unfold consume; by rewrite Hc, Hnext, decide_False).
    rewrite H1. cbn [and_then]. exists s'.
    assert (∀ n s1 s2, finish n s1 = Next_state s2 → finish (Datatypes.S n) s1 = Next_state s2) as Hmore.
    { intros n. induction n as [|n IH]; intros s1 s2; [cbn; by destruct (the_consumer s1)|].
      change (finish (Datatypes.S n) s1) with (match the_consumer s1 with Idle => Next_state s1 | _ => and_then (consume s1) (finish n) end).
      change (finish (Datatypes.S (Datatypes.S n)) s1) with (match the_consumer s1 with Idle => Next_state s1 | _ => and_then (consume s1) (finish (Datatypes.S n)) end).
      destruct (the_consumer s1); try done; destruct (consume s1); cbn; try done; apply IH. }
    pose proof (Hmore _ _ _ Hrun) as Hrun5. split; [done|]. split; [|done]. eapply Hfin; [|exact Hrun5]. by eapply consume_inv.
Qed.
End queue.

(** Two objects; the consumer puts the dummy behind the last one, and the first
    is enqueued a second time. *)
Definition demo_labels : list label :=
  [Allocate 1; Allocate 2; Produce 0 1; Consume; Link 0; Consume; Consume; Consume; Consume; Consume; Consume; Produce 1 2; Link 1; Produce 0 1; Free 2; Consume; Consume].
(** The steps, leaving out those that are not enabled. *)
Fixpoint run_enabled (ls : list label) (s : state) : state :=
  match ls with [] => s | l :: ls => match step 0 l s with Next_state s' => run_enabled ls s' | _ => run_enabled ls s end end.
Definition demo_state : state := run_enabled demo_labels (make 0).
Lemma intrusive_run ls s : reachable 0 s → reachable 0 (run_enabled ls s).
Proof.
  revert s. induction ls as [|l ls IH]; intros s Hs; cbn; [done|]. destruct (step 0 l s) eqn:Hl; apply IH; try done. by eapply reachable_step.
Qed.
Lemma intrusive_safe_witness : received demo_state = [1%nat] ∧ ∃ rest, sent demo_state = received demo_state ++ rest.
Proof.
  split; [vm_compute; reflexivity|]. destruct (intrusive_safe 0 demo_state) as [_ (rest & Hrest & _)].
  - apply intrusive_run. constructor.
  - exists rest. exact Hrest.
Defined.
End MpscIntrusive.
