(* ===== verification/SharedPtr.v ===== *)
(** The reference-counting pointer of atomic_lock/shared_ptr.h.

    [handles] are the live [shared_ptr] objects with their [ptr_] and
    [ref_count_], [counts] the counters on the heap, [objects] the objects
    that were made with [new].  Each operation touches one counter at a time
    with one atomic addition, so its calls are modelled one after the other.
    [members] says which handles are members of an object: they are null when it
    is made, and deleting it destroys them. *)
From stdpp Require Import gmap.
From S2P Require Import Prelude Except.

Module SharedPtr.

Record heap := Heap {
  objects : gset nat;
  counts : gmap nat Z;
  handles : gmap nat (option nat * option nat);
  next_count : nat;
  deleted : list nat;
}.
Definition empty_heap : heap := Heap ∅ ∅ ∅ 0 [].
Definition with_objects o s := Heap o (counts s) (handles s) (next_count s) (deleted s).
Definition with_counts c s := Heap (objects s) c (handles s) (next_count s) (deleted s).
Definition with_handles h s := Heap (objects s) (counts s) h (next_count s) (deleted s).
Definition ptr_ (h : option nat * option nat) : option nat := h.1.
Definition ref_count_ (h : option nat * option nat) : option nat := h.2.

Section pointers.
Context (members : nat → list nat).

(** [new T], which makes the members. *)
Definition new_object (p : nat) : comp heap unit :=
  modify (λ s, with_objects ({[ p ]} ∪ objects s) (with_handles (foldr (λ w, <[w := (None, None)]>) (handles s) (members p)) s)).
(** [new std::atomic<std::size_t>(1)], at a new address. *)
Definition new_count : comp heap nat :=
  c ← get next_count;
  modify (λ s, Heap (objects s) (<[c := 1]> (counts s)) (handles s) (S c) (deleted s));;
  mret c.
Definition read_handle (v : nat) : comp heap (option nat * option nat) := getO (λ s, handles s !! v).
(** A constructor makes the handle, the other functions need one. *)
Definition make_handle (v : nat) (h : option nat * option nat) : comp heap unit := modify (λ s, with_handles (<[v := h]> (handles s)) s).
Definition write_handle (v : nat) (h : option nat * option nat) : comp heap unit :=
  modifyO (λ s, match handles s !! v with Some _ => Some (with_handles (<[v := h]> (handles s)) s) | None => None end).
Definition fetch_add (c : nat) (d : Z) : comp heap Z :=
  n ← getO (λ s, counts s !! c);
  modify (λ s, with_counts (<[c := u64 (n + d)]> (counts s)) s);;
  mret n.

(** [~T]: the destructors of the members. *)
Fixpoint destroy_members (release : nat → comp heap unit) (l : list nat) : comp heap unit :=
  match l with
  | [] => mret ()
  | m :: l => release m;; modify (λ s, with_handles (delete m (handles s)) s);; destroy_members release l
  end.
(** [release]; the fuel bounds the nesting of the destructors. *)
Fixpoint release (fuel : nat) (v : nat) : comp heap unit :=
  match fuel with
  | O => no_fuel
  | S fuel =>
      h ← read_handle v;
      match ref_count_ h with
      | None => mret ()
      | Some c =>
          n ← fetch_add c (-1);
          if decide (n = 1) then
            match ptr_ h with
            | None => mret ()
            | Some p =>
                getO (λ s, if decide (p ∈ objects s) then Some () else None);;
                destroy_members (release fuel) (members p);;
                modify (λ s, Heap (objects s ∖ {[ p ]}) (counts s) (handles s) (next_count s) (deleted s ++ [p]))
            end;;
            getO (λ s, counts s !! c);;
            modify (λ s, with_counts (delete c (counts s)) s)
          else mret ()
      end
  end.

Definition default_construct (v : nat) : comp heap unit := make_handle v (None, None).
Definition construct (v : nat) (ptr : option nat) : comp heap unit :=
  match ptr with
  | None => make_handle v (None, None)
  | Some p => c ← new_count; make_handle v (Some p, Some c)
  end.
Definition destroy (fuel v : nat) : comp heap unit :=
  release fuel v;;
  modify (λ s, with_handles (delete v (handles s)) s).
(** [ptr_ = other.ptr_; ref_count_ = other.ref_count_;] and the increment. *)
Definition share (write : nat → option nat * option nat → comp heap unit) (v other : nat) : comp heap unit :=
  h ← read_handle other;
  write v h;;
  match ref_count_ h with
  | Some c => fetch_add c 1;; mret ()
  | None => mret ()
  end.
Definition steal (write : nat → option nat * option nat → comp heap unit) (v other : nat) : comp heap unit :=
  h ← read_handle other;
  write v h;;
  write_handle other (None, None).
Definition copy_construct (v other : nat) : comp heap unit := share make_handle v other.
Definition copy_assign (fuel v other : nat) : comp heap unit :=
  if decide (v ≠ other) then release fuel v;; share write_handle v other else mret ().
Definition move_construct (v other : nat) : comp heap unit := steal make_handle v other.
Definition move_assign (fuel v other : nat) : comp heap unit :=
  if decide (v ≠ other) then release fuel v;; steal write_handle v other else mret ().
Definition dereference (v : nat) : comp heap nat :=
  h ← read_handle v;
  getO (λ s, p ← ptr_ h; if decide (p ∈ objects s) then Some p else None).
Definition use_count (v : nat) : comp heap Z :=
  h ← read_handle v;
  match ref_count_ h with Some c => getO (λ s, counts s !! c) | None => mret 0 end.
Definition get_ (v : nat) : comp heap (option nat) := h ← read_handle v; mret (ptr_ h).
Definition reset (fuel v : nat) (p : option nat) : comp heap unit :=
  release fuel v;;
  match p with
  | None => write_handle v (None, None)
  | Some p => c ← new_count; write_handle v (Some p, Some c)
  end.

(** ** Objects live as long as a handle refers to them *)

Abbreviation handle_map := (gmap nat (option nat * option nat)).
(** How many handles count on [c], and how many refer to [p]. *)
Definition users (c : nat) (m : handle_map) : nat := size (filter (λ kh : nat * (option nat * option nat), kh.2.2 = Some c) m).
Definition sharers (p : nat) (m : handle_map) : nat := size (filter (λ kh : nat * (option nat * option nat), kh.2.1 = Some p) m).
Definition managed (p : nat) (m : handle_map) : Prop := ∃ v h, m !! v = Some h ∧ h.1 = Some p.
Definition counts_on (c : nat) (h : option nat * option nat) : nat := if decide (h.2 = Some c) then 1 else 0.

Lemma users_fresh c m v h : m !! v = None → users c (<[v := h]> m) = (counts_on c h + users c m)%nat.
Proof.
  intros Hv. unfold users, counts_on. case_decide as Hc.
  - rewrite map_filter_insert_True by done. rewrite map_size_insert_None; [done|]. rewrite map_lookup_filter, Hv. done.
  - rewrite map_filter_insert_False by done. rewrite delete_id; [done|done].
Qed.
Lemma users_delete c m v h : m !! v = Some h → users c m = (counts_on c h + users c (delete v m))%nat.
Proof. intros Hv. rewrite <-(insert_delete_id m v h Hv) at 1. apply users_fresh. apply lookup_delete_eq. Qed.
Lemma users_pos c m : (0 < users c m)%nat ↔ ∃ v h, m !! v = Some h ∧ h.2 = Some c.
Proof.
  unfold users. split.
  - intros Hpos. destruct (decide (filter (λ kh : nat * (option nat * option nat), kh.2.2 = Some c) m = ∅)) as [He|He].
    + rewrite He, map_size_empty in Hpos. lia.
    + apply map_choose in He as (v & h & Hv). apply map_lookup_filter_Some in Hv as [Hv Hc]. eauto.
  - intros (v & h & Hv & Hc). destruct (size _) eqn:Hsz; [|lia]. apply map_size_empty_inv in Hsz.
    assert (filter (λ kh : nat * (option nat * option nat), kh.2.2 = Some c) m !! v = Some h) as Hf by (by apply map_lookup_filter_Some).
    by rewrite Hsz, lookup_empty in Hf.
Qed.
Lemma users_size c m : (users c m ≤ size m)%nat.
Proof. unfold users. apply map_size_filter. Qed.

(** The heap [s] with the handles [m]; [g]: the object of every counter; [D] and
    [DC]: the objects that are being deleted, and their counters. *)
Record ok (D DC : gset nat) (m : handle_map) (s : heap) (g : gmap nat nat) : Prop := {
  ok_handles : ∀ v h, m !! v = Some h → h = (None, None) ∨ ∃ p c, h = (Some p, Some c) ∧ g !! c = Some p;
  ok_dom : ∀ c, is_Some (counts s !! c) ↔ is_Some (g !! c) ∨ c ∈ DC;
  ok_dying : (∀ c, c ∈ DC → g !! c = None) ∧ ∀ p, p ∈ D → p ∈ objects s;
  ok_inj : ∀ c c' p, g !! c = Some p → g !! c' = Some p → c = c';
  ok_objects : ∀ c p, g !! c = Some p → p ∈ objects s ∧ p ∉ D;
  ok_counts : ∀ c p n, g !! c = Some p → counts s !! c = Some n → n = Z.of_nat (users c m) ∧ 1 ≤ n;
  ok_fresh : ∀ c n, counts s !! c = Some n → (c < next_count s)%nat;
  ok_size : Z.of_nat (size m) < 2 ^ 64;
  ok_deleted : NoDup (deleted s) ∧ ∀ p, p ∈ deleted s → p ∉ objects s;
}.
(** The members of every object that there is are handles that there are. *)
Definition inv (s : heap) : Prop :=
  (∃ g, ok ∅ ∅ (handles s) s g) ∧ ∀ p w, p ∈ objects s → w ∈ members p → is_Some (handles s !! w).

Lemma empty_inv : inv empty_heap.
Proof.
  split; [|intros p w []%elem_of_empty]. exists ∅. constructor; cbn; try (intros; by rewrite lookup_empty in * ).
  - intros c. rewrite !lookup_empty. split; [by intros [? [=]]|]. intros [[? [=]]|[]%elem_of_empty].
  - split; [done|]. by intros p []%elem_of_empty.
  - rewrite map_size_empty. lia.
  - split; [constructor|]. by intros p ?%elem_of_nil.
Qed.

Section counting.
Context {D DC : gset nat}.
Lemma ok_count m s g c p : ok D DC m s g → g !! c = Some p → ∃ n, counts s !! c = Some n ∧ n = Z.of_nat (users c m) ∧ 1 ≤ n < 2 ^ 64.
Proof.
  intros Hok Hc. destruct (proj2 (ok_dom _ _ _ _ _ Hok c)) as [n Hn]; [left; by eexists|].
  destruct (ok_counts _ _ _ _ _ Hok c p n Hc Hn) as [Hu Hpos]. exists n. split; [done|]. split; [done|].
  pose proof (users_size c m). pose proof (ok_size _ _ _ _ _ Hok). lia.
Qed.
Lemma managed_iff m s g p : ok D DC m s g → managed p m ↔ ∃ c, g !! c = Some p.
Proof.
  intros Hok. split.
  - intros (v & h & Hv & Hp). destruct (ok_handles _ _ _ _ _ Hok v h Hv) as [->|(p' & c & -> & Hc)]; [done|]. cbn in Hp. injection Hp as ->. by exists c.
  - intros [c Hc]. destruct (ok_count m s g c p Hok Hc) as (n & Hn & -> & Hpos). destruct (proj1 (users_pos c m)) as (v & h & Hv & Hh); [lia|].
    exists v, h. split; [done|]. destruct (ok_handles _ _ _ _ _ Hok v h Hv) as [->|(p' & c' & -> & Hc')]; [done|]. cbn in *. congruence.
Qed.
Lemma sharers_users m s g c p : ok D DC m s g → g !! c = Some p → sharers p m = users c m.
Proof.
  intros Hok Hc. unfold sharers, users. f_equal. apply map_filter_ext. intros v h Hv. cbn.
  destruct (ok_handles _ _ _ _ _ Hok v h Hv) as [->|(p' & c' & -> & Hc')]; [done|]. cbn. split; intros [= ->]; [|congruence].
  f_equal. by eapply (ok_inj _ _ _ _ _ Hok).
Qed.
Lemma users_without m v p c : m !! v = Some (Some p, Some c) →
  users c m = S (users c (delete v m)) ∧ ∀ c', c' ≠ c → users c' (delete v m) = users c' m.
Proof.
  intros Hv. split; [rewrite (users_delete c _ v _ Hv)|intros c' Hne; rewrite (users_delete c' _ v _ Hv)]; unfold counts_on.
  - by rewrite decide_True.
  - rewrite decide_False; [done|]. cbn. congruence.
Qed.

(** A handle goes: one that does not count, one of several, the last. *)
Lemma ok_drop_null m s g v : ok D DC m s g → m !! v = Some (None, None) → ok D DC (delete v m) s g.
Proof.
  intros Hok Hv. constructor; try apply Hok.
  - intros w hw [_ Hw]%lookup_delete_Some. by apply (ok_handles _ _ _ _ _ Hok w).
  - intros c p n Hc Hn. rewrite <-(users_delete c _ v _ Hv : users c m = users c (delete v m)). by apply (ok_counts _ _ _ _ _ Hok c p).
  - pose proof (ok_size _ _ _ _ _ Hok). rewrite map_size_delete, Hv. lia.
Qed.
Lemma dom_insert m s g c n : ok D DC m s g → is_Some (g !! c) → ∀ c', is_Some (<[c := n]> (counts s) !! c') ↔ is_Some (g !! c') ∨ c' ∈ DC.
Proof.
  intros Hok Hc c'. destruct (decide (c = c')) as [<-|Hne]; [rewrite lookup_insert_eq; split; [by left|by eexists]|].
  rewrite lookup_insert_ne by done. apply Hok.
Qed.
Lemma ok_drop_shared m s g v p c n : ok D DC m s g → m !! v = Some (Some p, Some c) → g !! c = Some p → counts s !! c = Some n → n ≠ 1 →
  ok D DC (delete v m) (with_counts (<[c := n - 1]> (counts s)) s) g.
Proof.
  intros Hok Hv Hc Hn H1. destruct (users_without _ _ _ _ Hv) as [Hu Hother]. destruct (ok_counts _ _ _ _ _ Hok c p n Hc Hn) as [Hcount Hpos].
  constructor; try apply Hok; cbn.
  - intros w hw [_ Hw]%lookup_delete_Some. by apply (ok_handles _ _ _ _ _ Hok w).
  - by apply (dom_insert m).
  - intros c' p' n' Hc'. destruct (decide (c = c')) as [<-|Hne]; [rewrite lookup_insert_eq; intros [= <-]; lia|].
    rewrite lookup_insert_ne, Hother by done. by apply (ok_counts _ _ _ _ _ Hok c' p').
  - intros c' n'. destruct (decide (c = c')) as [<-|Hne]; [intros _; by eapply (ok_fresh _ _ _ _ _ Hok)|]. rewrite lookup_insert_ne by done. apply (ok_fresh _ _ _ _ _ Hok).
  - pose proof (ok_size _ _ _ _ _ Hok). rewrite map_size_delete, Hv. lia.
Qed.
(** The last handle of [p] goes: its object and counter are being deleted. *)
Lemma ok_last m s g v p c : ok D DC m s g → m !! v = Some (Some p, Some c) → g !! c = Some p → counts s !! c = Some 1 →
  ok ({[ p ]} ∪ D) ({[ c ]} ∪ DC) (delete v m) (with_counts (<[c := 0]> (counts s)) s) (delete c g).
Proof.
  intros Hok Hv Hc Hn. destruct (users_without _ _ _ _ Hv) as [Hu Hother]. destruct (ok_counts _ _ _ _ _ Hok c p 1 Hc Hn) as [Hcount Hpos].
  constructor; cbn.
  - intros w hw [Hne Hw]%lookup_delete_Some. destruct (ok_handles _ _ _ _ _ Hok w hw Hw) as [->|(p' & c' & -> & Hc')]; [by left|].
    right. exists p', c'. split; [done|]. rewrite lookup_delete_ne; [done|]. intros <-.
    assert (0 < users c (delete v m))%nat; [|lia]. apply users_pos. exists w, (Some p', Some c). split; [|done]. by rewrite lookup_delete_ne.
  - intros c'. rewrite elem_of_union, elem_of_singleton. destruct (decide (c = c')) as [<-|Hne].
    + rewrite lookup_insert_eq. split; [intros _; right; by left|by eexists].
    + rewrite lookup_insert_ne, lookup_delete_ne by done. rewrite (ok_dom _ _ _ _ _ Hok c'). naive_solver.
  - destruct (ok_dying _ _ _ _ _ Hok) as [H1 H2]. split.
    + intros c' [->%elem_of_singleton|Hc']%elem_of_union; [by rewrite lookup_delete_eq|]. rewrite lookup_delete_ne; [by apply H1|]. intros <-. rewrite H1 in Hc by done. done.
    + intros q [->%elem_of_singleton|Hq]%elem_of_union; [|by apply H2]. by eapply (ok_objects _ _ _ _ _ Hok).
  - intros c1 c2 q [_ Hc1]%lookup_delete_Some [_ Hc2]%lookup_delete_Some. by eapply (ok_inj _ _ _ _ _ Hok).
  - intros c' q [Hne Hq]%lookup_delete_Some. destruct (ok_objects _ _ _ _ _ Hok c' q Hq) as [H1 H2]. split; [done|].
    intros [->%elem_of_singleton|?]%elem_of_union; [|done]. apply Hne. by eapply (ok_inj _ _ _ _ _ Hok).
  - intros c' q n' [Hne Hq]%lookup_delete_Some. rewrite lookup_insert_ne, Hother by done. by apply (ok_counts _ _ _ _ _ Hok c' q).
  - intros c' n'. destruct (decide (c = c')) as [<-|Hne]; [intros _; by eapply (ok_fresh _ _ _ _ _ Hok)|]. rewrite lookup_insert_ne by done. apply (ok_fresh _ _ _ _ _ Hok).
  - pose proof (ok_size _ _ _ _ _ Hok). rewrite map_size_delete, Hv. lia.
  - apply Hok.
Qed.
End counting.

(** The object [p] is gone, and its counter [c]. *)
Definition without_object (p c : nat) (s : heap) : heap :=
  Heap (objects s ∖ {[ p ]}) (delete c (counts s)) (handles s) (next_count s) (deleted s ++ [p]).
Lemma ok_gone D DC m s g p c : ok ({[ p ]} ∪ D) ({[ c ]} ∪ DC) m s g → p ∉ D → c ∉ DC → ok D DC m (without_object p c s) g.
Proof.
  intros Hok Hp Hc. destruct (ok_dying _ _ _ _ _ Hok) as [Hd1 Hd2].
  assert (g !! c = None) as Hg by (apply Hd1; set_solver).
  constructor; try apply Hok; cbn.
  - intros c'. destruct (decide (c = c')) as [<-|Hne].
    + rewrite lookup_delete_eq, Hg. split; [by intros [? [=]]|]. intros [[? [=]]|?]. done.
    + rewrite lookup_delete_ne by done. rewrite (ok_dom _ _ _ _ _ Hok c'). set_solver.
  - split; [intros c' Hc'; apply Hd1; set_solver|]. intros q Hq. apply elem_of_difference. split; [apply Hd2; set_solver|]. set_solver.
  - intros c' q Hq. destruct (ok_objects _ _ _ _ _ Hok c' q Hq). set_solver.
  - intros c' q n' Hq. assert (c ≠ c') by (intros <-; congruence). rewrite lookup_delete_ne by done. by apply (ok_counts _ _ _ _ _ Hok c' q).
  - intros c' n' [_ Hn']%lookup_delete_Some. by eapply (ok_fresh _ _ _ _ _ Hok).
  - destruct (ok_deleted _ _ _ _ _ Hok) as [Hnd Hdel]. split.
    + apply NoDup_app. split; [done|]. split; [|apply NoDup_singleton]. intros q Hq ->%list_elem_of_singleton.
      apply (Hdel p Hq), Hd2. set_solver.
    + intros q [Hq|Hq]%elem_of_app; [specialize (Hdel q Hq); set_solver|apply list_elem_of_singleton in Hq as ->; set_solver].
Qed.

(** *** Releasing *)

Section releasing.
(** A handle is a member of one object at most, and once. *)
Context (members_once : ∀ p, NoDup (members p)) (members_apart : ∀ p q w, w ∈ members p → w ∈ members q → p = q).

(** The members of the objects that are not being deleted exist; [z] is the
    handle whose [release] started it all, which may be one of them. *)
Definition housed (z : nat) (D : gset nat) (m : handle_map) (s : heap) : Prop :=
  ∀ p w, p ∈ objects s → p ∉ D → w ∈ members p → is_Some (m !! w) ∨ w = z ∧ is_Some (handles s !! z).
(** [z] does not count any more: while it exists, it still names a counter that
    is being deleted, and that is at zero. *)
Definition zombie (z c : nat) (m : handle_map) (s : heap) : Prop :=
  m !! z = None ∧ ∀ h, handles s !! z = Some h → h.2 = Some c ∧ counts s !! c = Some 0.

(** From [m] and [s] to [m'] and [s']: handles go only as [l] and as members of
    objects that go. *)
Record shrinks (m : handle_map) (s : heap) (m' : handle_map) (s' : heap) (l : list nat) : Prop := {
  shrinks_counted : m' ⊆ m;
  shrinks_handles : handles s' ⊆ handles s;
  shrinks_kept : ∀ x h, m !! x = Some h → handles s' !! x = Some h → m' !! x = Some h;
  shrinks_gone : ∀ x, is_Some (handles s !! x) → (handles s' !! x = None ↔ x ∈ l ∨ ∃ p, p ∈ objects s ∧ p ∉ objects s' ∧ x ∈ members p);
  shrinks_objects : objects s' ⊆ objects s;
}.
(** Objects go exactly as no handle is left for them. *)
Record reaps (m : handle_map) (s : heap) (m' : handle_map) (s' : heap) : Prop := {
  reaps_managed : ∀ p, p ∈ objects s → p ∉ objects s' → managed p m;
  reaps_unmanaged : ∀ p, managed p m → ¬ managed p m' → p ∉ objects s';
}.

Lemma managed_sub p m m' : m ⊆ m' → managed p m → managed p m'.
Proof. intros Hsub (v & h & Hv & Hp). exists v, h. split; [by eapply lookup_weaken|done]. Qed.
Lemma shrinks_refl m s : m ⊆ handles s → shrinks m s m s [].
Proof.
  intros Hsub. split; try done. intros x Hx. split; [intros He; rewrite He in Hx; by destruct Hx|].
  intros [[]%elem_of_nil|(p & ? & ? & _)]. done.
Qed.
Lemma reaps_refl m s : reaps m s m s.
Proof. split; [done|]. intros p ? []. done. Qed.
Lemma shrinks_trans m s m1 s1 m2 s2 l1 l2 : shrinks m s m1 s1 l1 → shrinks m1 s1 m2 s2 l2 → shrinks m s m2 s2 (l1 ++ l2).
Proof.
  intros [A1 A2 A3 A4 A5] [B1 B2 B3 B4 B5]. split; try (by etrans).
  - intros x h Hx Hx'. apply B3; [|done]. apply A3; [done|]. by eapply lookup_weaken.
  - intros x Hx. rewrite elem_of_app. destruct (handles s1 !! x) as [h|] eqn:H1.
    + assert (¬ (x ∈ l1 ∨ ∃ p, p ∈ objects s ∧ p ∉ objects s1 ∧ x ∈ members p)) as Hno by (intros Hy; apply (A4 x Hx) in Hy; congruence).
      rewrite (B4 x) by by eexists. split.
      * intros [?|(p & ? & ? & ?)]; [tauto|]. right. exists p. set_solver.
      * intros [[?|?]|(p & ? & ? & ?)]; [tauto|by left|]. right. exists p. split; [|done]. destruct (decide (p ∈ objects s1)); [done|]. naive_solver.
    + assert (x ∈ l1 ∨ ∃ p, p ∈ objects s ∧ p ∉ objects s1 ∧ x ∈ members p) as Hy by by apply A4.
      split; [intros _|intros _]; [destruct Hy as [?|(p & ? & ? & ?)]; [by left; left|right; exists p; set_solver]|].
      destruct (handles s2 !! x) as [h|] eqn:H2; [|done]. rewrite (lookup_weaken _ _ _ _ H2 B2) in H1. done.
Qed.
Lemma reaps_trans m s m1 s1 m2 s2 : m1 ⊆ m → objects s2 ⊆ objects s1 → reaps m s m1 s1 → reaps m1 s1 m2 s2 → reaps m s m2 s2.
Proof.
  intros Hsub Hobj [A1 A2] [B1 B2]. split.
  - intros p Hp Hp2. destruct (decide (p ∈ objects s1)) as [H1|H1]; [|by apply A1]. eapply managed_sub; [exact Hsub|by apply B1].
  - intros p Hp Hp2 Hin. destruct (decide (p ∈ objects s1)) as [H1|H1]; [|set_solver].
    assert (¬ ¬ managed p m1) as Hm by (intros Hn; by apply (A2 p Hp Hn)). apply Hm. intros Hm1. by apply (B2 p Hm1 Hp2).
Qed.
(** The members of the objects that stay are still there. *)
Lemma housed_shrinks z D m s m' s' l : shrinks m s m' s' l → m ⊆ handles s → housed z D m s →
  (∀ w, w ∈ l → ∃ p, p ∈ D ∧ w ∈ members p) → housed z D m' s'.
Proof.
  intros Hsh Hsub Hh Hl p w Hp HpD Hw.
  assert (is_Some (handles s !! w) → is_Some (handles s' !! w)) as Hstay.
  { intros Hs. destruct (handles s' !! w) eqn:H'; [by eexists|]. apply (shrinks_gone _ _ _ _ _ Hsh w Hs) in H' as [Hwl|(q & Hq & Hq' & Hwq)].
    - destruct (Hl w Hwl) as (q & Hq & Hwq). by rewrite (members_apart p q w Hw Hwq) in HpD.
    - by rewrite (members_apart p q w Hw Hwq) in Hp. }
  destruct (Hh p w) as [[h Hm]|[-> Hz]]; [by apply (shrinks_objects _ _ _ _ _ Hsh)|done|done| |right; split; [done|by apply Hstay]].
  left. pose proof (lookup_weaken _ _ _ _ Hm Hsub) as Hs. destruct Hstay as [h' Hs']; [by eexists|].
  pose proof (lookup_weaken _ _ _ _ Hs' (shrinks_handles _ _ _ _ _ Hsh)) as Hs2. exists h. apply (shrinks_kept _ _ _ _ _ Hsh); [done|congruence].
Qed.

(** What [release] does to a handle [v] of an object that is being deleted. *)
Definition releases (fuel : nat) : Prop := ∀ D DC z c0 m s g v h p,
  ok D DC m s g → m ⊆ handles s → housed z D m s → zombie z c0 m s → c0 ∈ DC →
  p ∈ D → v ∈ members p → m !! v = Some h → (size g < fuel)%nat →
  ∃ m' s' g', release fuel v s = Returns () s' ∧ ok D DC m' s' g' ∧ m' ⊆ handles s' ∧ zombie z c0 m' s' ∧
    shrinks (delete v m) s m' s' [] ∧ reaps m s m' s' ∧ (size g' ≤ size g)%nat.
Lemma ok_with_handles D DC m s g h : ok D DC m s g → ok D DC m (with_handles h s) g.
Proof. intros []. by constructor. Qed.
Lemma ok_dying_count D DC m s g c n : ok D DC m s g → c ∈ DC → ok D DC m (with_counts (<[c := n]> (counts s)) s) g.
Proof.
  intros Hok Hc. assert (g !! c = None) as Hg by by apply (ok_dying _ _ _ _ _ Hok).
  destruct (proj2 (ok_dom _ _ _ _ _ Hok c)) as [n0 Hn0]; [by right|]. constructor; try apply Hok; cbn.
  - intros c'. destruct (decide (c = c')) as [<-|Hne]; [rewrite lookup_insert_eq; split; [by right|by eexists]|]. rewrite lookup_insert_ne by done. apply Hok.
  - intros c' p n' Hc'. assert (c ≠ c') by (intros <-; congruence). rewrite lookup_insert_ne by done. by apply (ok_counts _ _ _ _ _ Hok c' p).
  - intros c' n'. destruct (decide (c = c')) as [<-|Hne]; [intros _; by eapply (ok_fresh _ _ _ _ _ Hok)|]. rewrite lookup_insert_ne by done. apply (ok_fresh _ _ _ _ _ Hok).
Qed.
(** The destructor of the member [x] ends: its handle goes. *)
Lemma shrinks_delete m s m1 s1 x : shrinks (delete x m) s m1 s1 [] → shrinks m s m1 (with_handles (delete x (handles s1)) s1) [x].
Proof.
  intros [H1 H2 H3 H4 H5]. split; cbn.
  - etrans; [exact H1|apply delete_subseteq].
  - etrans; [apply delete_subseteq|exact H2].
  - intros y h Hy [Hne Hy']%lookup_delete_Some. apply H3; [by rewrite lookup_delete_ne|done].
  - intros y Hy. rewrite list_elem_of_singleton, lookup_delete_None, (H4 y Hy). split; [intros [->|[[]%elem_of_nil|?]]; [by left|by right]|].
    intros [->|?]; [by left|right; by right].
  - done.
Qed.
(** A member of an object that is being deleted stays until its turn. *)
Lemma member_stays D DC m s g m1 s1 x y p : shrinks m s m1 s1 [x] → ok D DC m1 s1 g → p ∈ D → y ∈ members p → y ≠ x →
  is_Some (handles s !! y) → is_Some (handles s1 !! y).
Proof.
  intros Hsh Hok Hp Hy Hne Hs. destruct (handles s1 !! y) eqn:H1; [by eexists|].
  apply (shrinks_gone _ _ _ _ _ Hsh y Hs) in H1 as [->%list_elem_of_singleton|(q & _ & Hq & Hyq)]; [done|].
  rewrite (members_apart q p y Hyq Hy) in Hq. by destruct Hq; apply (ok_dying _ _ _ _ _ Hok).
Qed.
Lemma zombie_dies z c0 m s fuel : zombie z c0 m s → is_Some (handles s !! z) →
  release (S fuel) z s = Returns () (with_counts (<[c0 := u64 (0 + -1)]> (counts s)) s).
Proof.
  intros [_ Hz] [h Hh]. destruct (Hz h Hh) as [Hc Hn]. cbn [release]. unfold read_handle. rewrite (getO_bind _ _ _ h) by exact Hh.
  unfold ref_count_. rewrite Hc. unfold fetch_add. by rewrite (comp_bind_Returns _ _ s 0 (with_counts (<[c0 := u64 (0 + -1)]> (counts s)) s)) by (by rewrite (getO_bind _ _ _ 0) by exact Hn).
Qed.

Lemma members_run fuel : releases fuel → ∀ l D DC z c0 m s g p,
  ok D DC m s g → m ⊆ handles s → housed z D m s → zombie z c0 m s → c0 ∈ DC → p ∈ D →
  NoDup l → (∀ x, x ∈ l → x ∈ members p) → (∀ x, x ∈ l → is_Some (m !! x) ∨ x = z ∧ is_Some (handles s !! z)) → (size g < fuel)%nat →
  ∃ m' s' g', destroy_members (release fuel) l s = Returns () s' ∧ ok D DC m' s' g' ∧ m' ⊆ handles s' ∧ zombie z c0 m' s' ∧
    shrinks m s m' s' l ∧ reaps m s m' s' ∧ (size g' ≤ size g)%nat.
Proof.
  intros Hrel l. induction l as [|x l IH]; intros D DC z c0 m s g p Hok Hsub Hh Hz Hc0 Hp Hnd Hmem Hthere Hf; cbn [destroy_members].
  { exists m, s, g. split_and!; first [done|by apply shrinks_refl|apply reaps_refl]. }
  apply NoDup_cons in Hnd as [Hx Hnd].
  assert (∃ m1 s1 g1, release fuel x s = Returns () s1 ∧ ok D DC m1 s1 g1 ∧ m1 ⊆ delete x (handles s1) ∧ zombie z c0 m1 (with_handles (delete x (handles s1)) s1) ∧
    shrinks m s m1 (with_handles (delete x (handles s1)) s1) [x] ∧ reaps m s m1 s1 ∧ (size g1 ≤ size g)%nat)
    as (m1 & s1 & g1 & Hrun & Hok1 & Hsub1 & Hz1 & Hsh1 & Hre1 & Hg1).
  { destruct (Hthere x) as [[h Hm]|[-> Hs]]; [by left| |].
    - destruct (Hrel D DC z c0 m s g x h p Hok Hsub Hh Hz Hc0 Hp (Hmem x (list_elem_of_here _ _)) Hm Hf) as (m1 & s1 & g1 & Hrun & Hok1 & Hsub1 & Hz1 & Hsh1 & Hre1 & Hg1).
      exists m1, s1, g1. split; [done|]. split; [done|]. split.
      { apply map_subseteq_spec. intros y hy Hy. pose proof (lookup_weaken _ _ _ _ Hy (shrinks_counted _ _ _ _ _ Hsh1)) as [Hne _]%lookup_delete_Some.
        rewrite lookup_delete_ne by done. by eapply lookup_weaken. }
      split; [|split; [by apply shrinks_delete|done]]. destruct Hz1 as [Hz1 Hz2]. split; [done|]. cbn. intros hz [_ Hhz]%lookup_delete_Some. by apply Hz2.
    - destruct fuel as [|fuel]; [lia|]. destruct Hz as [Hzm Hz]. eexists m, _, g. split; [by apply (zombie_dies z c0 m s)|]. split; [by apply ok_dying_count|].
      split; [apply map_subseteq_spec; intros y hy Hy; cbn; rewrite lookup_delete_ne by congruence; by eapply lookup_weaken|].
      split; [split; [done|]; intros hz; cbn; by rewrite lookup_delete_eq|]. split; [|split; [split; [done|]|done]].
      + split; cbn; try done; [apply delete_subseteq|].
        intros y Hy. rewrite list_elem_of_singleton, lookup_delete_None. split; [intros [->|He]; [by left|rewrite He in Hy; by destruct Hy]|].
        intros [->|(q & ? & ? & _)]; [by left|done].
      + by intros q ? []. }
  rewrite (comp_bind_Returns _ _ _ _ _ Hrun), modify_bind. set (s2 := with_handles _ s1) in *.
  assert (ok D DC m1 s2 g1) as Hok2 by by apply ok_with_handles.
  destruct (IH D DC z c0 m1 s2 g1 p Hok2) as (m' & s' & g' & Hrun' & Hok' & Hsub' & Hz' & Hsh' & Hre' & Hg'); try done.
  - eapply housed_shrinks; [exact Hsh1|done|done|]. intros w ->%list_elem_of_singleton. exists p. split; [done|]. apply Hmem. by left.
  - intros y Hy. apply Hmem. by right.
  - intros y Hy. assert (y ≠ x) as Hne by (by intros ->). assert (y ∈ members p) as Hyp by (apply Hmem; by right).
    destruct (Hthere y) as [[h Hm]|[-> Hs]]; [by right| |].
    + destruct (member_stays D DC m s g1 m1 s2 x y p Hsh1 Hok2 Hp Hyp Hne) as [h' Hy']; [exists h; by eapply lookup_weaken|].
      left. exists h. apply (shrinks_kept _ _ _ _ _ Hsh1); [done|]. pose proof (lookup_weaken _ _ _ _ Hy' (shrinks_handles _ _ _ _ _ Hsh1)) as Hy2.
      rewrite (lookup_weaken _ _ _ _ Hm Hsub) in Hy2. congruence.
    + right. split; [done|]. by apply (member_stays D DC m s g1 m1 s2 x z p).
  - lia.
  - exists m', s', g'. split; [done|]. split; [done|]. split; [done|]. split; [done|]. split; [by apply (shrinks_trans m s m1 s2 m' s' [x] l)|].
    split; [|lia]. eapply (reaps_trans m s m1 s2); [apply Hsh1|apply Hsh'|by destruct Hre1|done].
Qed.
(** The object and its members are gone. *)
Lemma shrinks_object m1 s s1 m' s2 p c : shrinks m1 s1 m' s2 (members p) → handles s1 = handles s → objects s1 = objects s →
  p ∈ objects s2 → shrinks m1 s m' (without_object p c s2) [].
Proof.
  intros [H1 H2 H3 H4 H5] Hh Ho Hp. rewrite Hh, Ho in *. split; cbn; try done; [|set_solver].
  intros x Hx. rewrite (H4 x Hx). split.
  - intros [?|(q & ? & ? & ?)]; right; [exists p|exists q]; set_solver.
  - intros [[]%elem_of_nil|(q & ? & Hq & ?)]. destruct (decide (q = p)) as [->|]; [by left|]. right. exists q. set_solver.
Qed.
Lemma reaps_object m s s1 v p c m' s2 : m !! v = Some (Some p, Some c) → objects s1 = objects s → p ∈ objects s → objects s2 ⊆ objects s1 →
  (∀ q, managed q m → q ≠ p → managed q (delete v m)) → (¬ managed p m') →
  reaps (delete v m) s1 m' s2 → reaps m s m' (without_object p c s2).
Proof.
  intros Hv Ho Hp Hsub Hother Hun [H1 H2]. split; cbn.
  - intros q Hq Hq'. destruct (decide (q = p)) as [->|Hne]; [by exists v, (Some p, Some c)|].
    eapply managed_sub; [apply delete_subseteq|]. apply H1; set_solver.
  - intros q Hq Hq'. destruct (decide (q = p)) as [->|Hne]; [set_solver|]. specialize (H2 q (Hother q Hq Hne) Hq'). set_solver.
Qed.

Lemma last_run fuel D DC z c0 m s g v p c : releases fuel →
  ok D DC m s g → m ⊆ handles s → m !! v = Some (Some p, Some c) → g !! c = Some p → counts s !! c = Some 1 →
  housed z D (delete v m) s → zombie z c0 (delete v m) (with_counts (<[c := 0]> (counts s)) s) → c0 ∈ {[ c ]} ∪ DC → (size g ≤ fuel)%nat →
  ∃ m' s' g', release (S fuel) v s = Returns () s' ∧ ok D DC m' s' g' ∧ m' ⊆ handles s' ∧ (c0 ∈ DC → zombie z c0 m' s') ∧
    shrinks (delete v m) s m' s' [] ∧ reaps m s m' s' ∧ (size g' ≤ size g)%nat.
Proof.
  intros Hrel Hok Hsub Hv Hc Hn Hh Hz Hc0 Hf. set (s1 := with_counts _ s) in *.
  pose proof (ok_last m s g v p c Hok Hv Hc Hn) as Hok1. fold s1 in Hok1. destruct (ok_objects _ _ _ _ _ Hok c p Hc) as [Hp HpD].
  assert (c ∉ DC) as HcDC by (intros Hin; apply (ok_dying _ _ _ _ _ Hok) in Hin; congruence).
  assert (size (delete c g) < size g)%nat as Hsz.
  { rewrite map_size_delete, Hc. assert (size g ≠ 0%nat); [|lia]. intros He%map_size_empty_inv. by rewrite He in Hc. }
  destruct (members_run fuel Hrel (members p) ({[ p ]} ∪ D) ({[ c ]} ∪ DC) z c0 (delete v m) s1 (delete c g) p Hok1)
    as (m' & s2 & g' & Hrun & Hok2 & Hsub2 & Hz2 & Hsh & Hre & Hg'); try done.
  { cbn. etrans; [apply delete_subseteq|exact Hsub]. }
  { intros q w Hq HqD Hw. apply (Hh q w); [done|set_solver|done]. }
  { set_solver. }
  { intros x Hx. by apply (Hh p x). }
  { lia. }
  destruct (ok_dying _ _ _ _ _ Hok2) as [_ Hdy]. assert (p ∈ objects s2) as Hp2 by (apply Hdy; set_solver).
  destruct (proj2 (ok_dom _ _ _ _ _ Hok2 c)) as [n2 Hn2]; [right; set_solver|].
  exists m', (without_object p c s2), g'. split.
  { cbn [release]. unfold read_handle. rewrite (getO_bind _ _ _ (Some p, Some c)) by (by eapply lookup_weaken). cbn [ref_count_ ptr_ fst snd].
    rewrite (comp_bind_Returns _ _ s 1 s1) by (unfold fetch_add; by rewrite (getO_bind _ _ _ 1) by exact Hn). rewrite decide_True by done.
    rewrite (comp_bind_Returns _ _ s1 () (Heap (objects s2 ∖ {[ p ]}) (counts s2) (handles s2) (next_count s2) (deleted s2 ++ [p]))).
    2:{ rewrite (getO_bind _ _ _ ()) by (cbn; by rewrite decide_True). by rewrite (comp_bind_Returns _ _ _ _ _ Hrun). }
    by rewrite (getO_bind _ _ _ n2) by exact Hn2. }
  split; [by apply ok_gone|]. split; [exact Hsub2|]. split; [|split; [by apply shrinks_object with s1|split; [|lia]]].
  - intros Hin. destruct Hz2 as [Hz1 Hz2]. split; [done|]. intros h Hhz. destruct (Hz2 h Hhz) as [? ?]. split; [done|]. cbn.
    rewrite lookup_delete_ne; [done|]. intros <-. done.
  - apply (reaps_object m s s1 v p c m' s2); try done; [apply Hsh| |].
    + intros q (w & hw & Hw & Hq) Hne. exists w, hw. split; [|done]. rewrite lookup_delete_ne; [done|]. intros <-. rewrite Hv in Hw. injection Hw as <-. cbn in Hq. congruence.
    + intros (w & hw & Hw & Hq). destruct (ok_handles _ _ _ _ _ Hok2 w hw Hw) as [->|(q & c' & -> & Hc')]; [done|]. cbn in Hq. injection Hq as ->.
      destruct (ok_objects _ _ _ _ _ Hok2 c' p Hc'). set_solver.
Qed.

(** A handle that counts, but is not the last. *)
Lemma shared_run fuel D DC m s g v p c n : ok D DC m s g → m ⊆ handles s → m !! v = Some (Some p, Some c) → g !! c = Some p → counts s !! c = Some n → n ≠ 1 →
  let s' := with_counts (<[c := n - 1]> (counts s)) s in
  release (S fuel) v s = Returns () s' ∧ ok D DC (delete v m) s' g ∧ shrinks (delete v m) s (delete v m) s' [] ∧ reaps m s (delete v m) s'.
Proof.
  intros Hok Hsub Hv Hc Hn H1 s'. destruct (ok_count m s g c p Hok Hc) as (n' & Hn' & Hu & Hb). rewrite Hn in Hn'. injection Hn' as <-.
  pose proof (ok_drop_shared m s g v p c n Hok Hv Hc Hn H1) as Hok'. fold s' in Hok'. split.
  { cbn [release]. unfold read_handle. rewrite (getO_bind _ _ _ (Some p, Some c)) by (by eapply lookup_weaken). cbn [ref_count_ ptr_ fst snd].
    assert (u64 (n + -1) = n - 1) as Hw by (apply (wrap_small 64); lia).
    rewrite (comp_bind_Returns _ _ s n s') by (unfold fetch_add; rewrite (getO_bind _ _ _ n) by exact Hn; by rewrite Hw). by rewrite decide_False. }
  split; [done|]. split.
  - destruct (shrinks_refl (delete v m) s) as [A1 A2 A3 A4 A5]; [etrans; [apply delete_subseteq|done]|]. by constructor.
  - split; [done|]. intros q Hq Hno. destruct Hno. apply (managed_iff _ _ _ q Hok'). by apply (managed_iff _ _ _ q Hok).
Qed.
Lemma null_run fuel D DC m s g v : ok D DC m s g → m ⊆ handles s → m !! v = Some (None, None) →
  release (S fuel) v s = Returns () s ∧ ok D DC (delete v m) s g ∧ shrinks (delete v m) s (delete v m) s [] ∧ reaps m s (delete v m) s.
Proof.
  intros Hok Hsub Hv. pose proof (ok_drop_null m s g v Hok Hv) as Hok'. split.
  { cbn [release]. unfold read_handle. by rewrite (getO_bind _ _ _ (None, None)) by (by eapply lookup_weaken). }
  split; [done|]. split; [apply shrinks_refl; etrans; [apply delete_subseteq|done]|].
  split; [done|]. intros q Hq Hno. destruct Hno. apply (managed_iff _ _ _ q Hok'). by apply (managed_iff _ _ _ q Hok).
Qed.

Lemma releases_all fuel : releases fuel.
Proof.
  induction fuel as [|fuel IH]; intros D DC z c0 m s g v h p Hok Hsub Hh Hz Hc0 Hp Hvp Hv Hf; [lia|].
  assert (delete v m ⊆ m) as Hdel by apply delete_subseteq.
  assert (delete v m !! z = None) as Hzm by (destruct (delete v m !! z) eqn:He; [|done]; apply (lookup_weaken _ m) in He; [destruct Hz; congruence|done]).
  destruct (ok_handles _ _ _ _ _ Hok v h Hv) as [->|(q & c & -> & Hc)].
  { destruct (null_run fuel D DC m s g v Hok Hsub Hv) as (Hrun & Hok' & Hsh & Hre). exists (delete v m), s, g.
    split; [done|]. split; [done|]. split; [by etrans|]. split; [split; [done|apply Hz]|done]. }
  destruct (ok_count m s g c q Hok Hc) as (n & Hn & Hu & Hb).
  assert (c ≠ c0) as Hne by (intros ->; apply (ok_dying _ _ _ _ _ Hok) in Hc0; congruence).
  destruct (decide (n = 1)) as [->|H1].
  - destruct (last_run fuel D DC z c0 m s g v q c IH Hok Hsub Hv Hc Hn) as (m' & s' & g' & Hrun & Hok' & Hsub' & Hz' & Hrest).
    + intros r w Hr HrD Hw. destruct (Hh r w Hr HrD Hw) as [?|?]; [|by right]. left. rewrite lookup_delete_ne; [done|].
      intros <-. by rewrite (members_apart r p v Hw Hvp) in HrD.
    + split; [done|]. intros hz Hhz. destruct Hz as [_ Hz]. destruct (Hz hz Hhz). cbn. by rewrite lookup_insert_ne.
    + set_solver.
    + lia.
    + exists m', s', g'. split; [done|]. split; [done|]. split; [done|]. split; [by apply Hz'|done].
  - destruct (shared_run fuel D DC m s g v q c n Hok Hsub Hv Hc Hn H1) as (Hrun & Hok' & Hsh & Hre).
    eexists (delete v m), _, g. split; [exact Hrun|]. split; [done|]. split; [by etrans|]. split; [|done].
    split; [done|]. intros hz Hhz. destruct Hz as [_ Hz]. destruct (Hz hz Hhz). cbn. by rewrite lookup_insert_ne.
Qed.

(** [release] of a handle [v], member of an object or not: the handles that are
    left, without [v], are in order again; it may be gone itself. *)
Lemma release_run fuel s v : inv s → is_Some (handles s !! v) → (size (counts s) < fuel)%nat →
  ∃ s' g', release fuel v s = Returns () s' ∧ ok ∅ ∅ (delete v (handles s')) s' g' ∧
    (∀ p w, p ∈ objects s' → w ∈ members p → is_Some (handles s' !! w)) ∧
    shrinks (delete v (handles s)) s (delete v (handles s')) s' [] ∧ reaps (handles s) s (delete v (handles s')) s'.
Proof.
  intros [[g Hok] Hhome] [h Hv] Hf. destruct fuel as [|fuel]; [lia|].
  assert (size g = size (counts s)) as Hsz.
  { rewrite <-!size_dom. f_equal. apply set_eq. intros c. rewrite !elem_of_dom, (ok_dom _ _ _ _ _ Hok c). set_solver. }
  assert (∃ m' s' g', release (S fuel) v s = Returns () s' ∧ ok ∅ ∅ m' s' g' ∧ m' ⊆ handles s' ∧
    shrinks (delete v (handles s)) s m' s' [] ∧ reaps (handles s) s m' s') as (m' & s' & g' & Hrun & Hok' & Hsub & Hsh & Hre).
  { destruct (ok_handles _ _ _ _ _ Hok v h Hv) as [->|(p & c & -> & Hc)].
    - destruct (null_run fuel ∅ ∅ (handles s) s g v Hok ltac:(done) Hv) as (Hrun & Hok' & Hsh & Hre).
      exists (delete v (handles s)), s, g. split; [done|]. split; [done|]. split; [apply delete_subseteq|done].
    - destruct (ok_count _ s g c p Hok Hc) as (n & Hn & _). destruct (decide (n = 1)) as [->|H1].
      + destruct (last_run fuel ∅ ∅ v c (handles s) s g v p c (releases_all fuel) Hok ltac:(done) Hv Hc Hn) as (m' & s' & g' & Hrun & Hok' & Hsub & _ & Hsh & Hre & _).
        * intros r w Hr _ Hw. destruct (decide (w = v)) as [->|Hne]; [right; split; [done|by eexists]|]. left. rewrite lookup_delete_ne by done. by apply (Hhome r).
        * split; [apply lookup_delete_eq|]. cbn. intros h Hh. rewrite Hv in Hh. injection Hh as <-. split; [done|apply lookup_insert_eq].
        * set_solver.
        * lia.
        * by exists m', s', g'.
      + destruct (shared_run fuel ∅ ∅ (handles s) s g v p c n Hok ltac:(done) Hv Hc Hn H1) as (Hrun & Hok' & Hsh & Hre).
        eexists (delete v (handles s)), _, g. split; [exact Hrun|]. split; [done|]. split; [apply delete_subseteq|done]. }
  assert (m' = delete v (handles s')) as ->.
  { apply map_eq. intros x. destruct (decide (x = v)) as [->|Hne].
    - rewrite lookup_delete_eq. destruct (m' !! v) eqn:He; [|done]. pose proof (lookup_weaken _ _ _ _ He (shrinks_counted _ _ _ _ _ Hsh)) as Hd. by rewrite lookup_delete_eq in Hd.
    - rewrite lookup_delete_ne by done. destruct (handles s' !! x) as [hx|] eqn:Hx.
      + apply (shrinks_kept _ _ _ _ _ Hsh); [|done]. rewrite lookup_delete_ne by done. by apply (lookup_weaken _ _ _ _ Hx), (shrinks_handles _ _ _ _ _ Hsh).
      + destruct (m' !! x) eqn:He; [|done]. rewrite (lookup_weaken _ _ _ _ He Hsub) in Hx. done. }
  exists s', g'. split; [done|]. split; [done|]. split; [|done].
  intros p w Hp Hw. destruct (handles s' !! w) eqn:He; [by eexists|].
  apply (shrinks_gone _ _ _ _ _ Hsh) in He as [[]%elem_of_nil|(q & _ & Hq & Hwq)]; [by rewrite (members_apart p q w Hw Hwq) in Hp|].
  apply (Hhome p w); [by apply (shrinks_objects _ _ _ _ _ Hsh)|done].
Qed.
End releasing.

(** *** Handles that are written *)

Section writing.
Context {D DC : gset nat}.
(** Writing a handle that does not count. *)
Lemma ok_insert_null m s g v : ok D DC m s g → m !! v = None → Z.of_nat (size m) + 1 < 2 ^ 64 → ok D DC (<[v := (None, None)]> m) s g.
Proof.
  intros Hok Hv Hsz. constructor; try apply Hok.
  - intros w hw. destruct (decide (v = w)) as [<-|Hne]; [rewrite lookup_insert_eq; intros [= <-]; by left|].
    rewrite lookup_insert_ne by done. apply (ok_handles _ _ _ _ _ Hok).
  - intros c p n Hc Hn. rewrite users_fresh by done. by apply (ok_counts _ _ _ _ _ Hok c p).
  - rewrite map_size_insert_None by done. lia.
Qed.
(** A handle more for a counter. *)
Lemma ok_insert_shared m s g v p c n : ok D DC m s g → m !! v = None → Z.of_nat (size m) + 1 < 2 ^ 64 → g !! c = Some p → counts s !! c = Some n →
  ok D DC (<[v := (Some p, Some c)]> m) (with_counts (<[c := u64 (n + 1)]> (counts s)) s) g.
Proof.
  intros Hok Hv Hsz Hc Hn. destruct (ok_counts _ _ _ _ _ Hok c p n Hc Hn) as [Hcount Hpos].
  assert (u64 (n + 1) = n + 1) as -> by (apply (wrap_small 64); pose proof (users_size c m); lia).
  constructor; try apply Hok; cbn.
  - intros w hw. destruct (decide (v = w)) as [<-|Hne]; [rewrite lookup_insert_eq; intros [= <-]; right; by exists p, c|].
    rewrite lookup_insert_ne by done. apply (ok_handles _ _ _ _ _ Hok).
  - eapply (dom_insert m); [exact Hok|by eexists].
  - intros c' p' n' Hc'. rewrite users_fresh by done. unfold counts_on. cbn. destruct (decide (c = c')) as [<-|Hne].
    + rewrite lookup_insert_eq, decide_True by done. intros [= <-]. lia.
    + rewrite lookup_insert_ne, decide_False by congruence. by apply (ok_counts _ _ _ _ _ Hok c' p').
  - intros c' n'. destruct (decide (c = c')) as [<-|Hne]; [intros _; by eapply (ok_fresh _ _ _ _ _ Hok)|]. rewrite lookup_insert_ne by done. apply (ok_fresh _ _ _ _ _ Hok).
  - rewrite map_size_insert_None by done. lia.
Qed.
(** The first handle of an object. *)
Lemma ok_insert_new m s g v p : ok ∅ ∅ m s g → m !! v = None → Z.of_nat (size m) + 1 < 2 ^ 64 → p ∈ objects s → ¬ managed p m →
  let c := next_count s in
  ok ∅ ∅ (<[v := (Some p, Some c)]> m) (Heap (objects s) (<[c := 1]> (counts s)) (handles s) (S c) (deleted s)) (<[c := p]> g).
Proof.
  intros Hok Hv Hsz Hp Hm c.
  assert (counts s !! c = None) as Hn. { destruct (counts s !! c) eqn:Hn; [|done]. pose proof (ok_fresh _ _ _ _ _ Hok c _ Hn). unfold c in *. lia. }
  assert (g !! c = None) as Hg. { destruct (g !! c) eqn:Hg; [|done]. destruct (proj2 (ok_dom _ _ _ _ _ Hok c)) as [? ?]; [left; by eexists|congruence]. }
  rewrite (managed_iff _ _ _ p Hok) in Hm.
  constructor; cbn.
  - intros w hw. destruct (decide (v = w)) as [<-|Hne].
    + rewrite lookup_insert_eq. intros [= <-]. right. exists p, c. split; [done|]. apply lookup_insert_eq.
    + rewrite lookup_insert_ne by done. intros Hw. destruct (ok_handles _ _ _ _ _ Hok w hw Hw) as [->|(p' & c' & -> & Hc')]; [by left|].
      right. exists p', c'. split; [done|]. rewrite lookup_insert_ne; [done|]. intros <-. congruence.
  - intros c'. destruct (decide (c = c')) as [<-|Hne]; [rewrite !lookup_insert_eq; split; [intros _; left; by eexists|by eexists]|]. rewrite !lookup_insert_ne by done. apply Hok.
  - split; [by intros c' []%elem_of_empty|by intros q []%elem_of_empty].
  - intros c1 c2 q. rewrite !lookup_insert_Some. intros [[<- <-]|[? H1]] [[<- ?]|[? H2]]; [done|naive_solver|naive_solver|]. by eapply (ok_inj _ _ _ _ _ Hok).
  - intros c' q. rewrite lookup_insert_Some. intros [[<- <-]|[? Hq]]; [split; [done|apply not_elem_of_empty]|]. by eapply (ok_objects _ _ _ _ _ Hok).
  - intros c' q n'. rewrite users_fresh by done. unfold counts_on. cbn. destruct (decide (c = c')) as [<-|Hne].
    + rewrite !lookup_insert_eq, decide_True by done. intros _ [= <-]. split; [|lia].
      assert (users c m = 0%nat) as ->; [|done]. destruct (users c m) eqn:Hu; [done|]. exfalso.
      destruct (proj1 (users_pos c m)) as (w & hw & Hw & Hhw); [lia|]. destruct (ok_handles _ _ _ _ _ Hok w hw Hw) as [->|(p' & c' & -> & Hc')]; [done|].
      cbn in Hhw. injection Hhw as ->. congruence.
    + rewrite !lookup_insert_ne, decide_False by congruence. apply (ok_counts _ _ _ _ _ Hok).
  - intros c' n'. rewrite lookup_insert_Some. intros [[<- _]|[? Hn']]; [lia|]. pose proof (ok_fresh _ _ _ _ _ Hok c' n' Hn'). lia.
  - rewrite map_size_insert_None by done. lia.
  - apply Hok.
Qed.
(** The members of a new object. *)
Lemma ok_insert_members l : ∀ m s g, ok D DC m s g → NoDup l → (∀ w, w ∈ l → m !! w = None) → Z.of_nat (size m) + Z.of_nat (length l) < 2 ^ 64 →
  let m' := foldr (λ w, <[w := (None, None)]>) m l in
  ok D DC m' s g ∧ size m' = (size m + length l)%nat ∧ (∀ w, w ∉ l → m' !! w = m !! w) ∧ (∀ w, w ∈ l → m' !! w = Some (None, None)) ∧
  ∀ p, managed p m' ↔ managed p m.
Proof.
  induction l as [|x l IH]; intros m s g Hok Hnd Hnew Hsz; cbn [foldr].
  { split; [done|]. split; [cbn; lia|]. split; [done|]. split; [by intros w []%elem_of_nil|done]. }
  apply NoDup_cons in Hnd as [Hx Hnd]. cbn [length] in Hsz. destruct (IH m s g Hok Hnd) as (Hok' & Hs' & Ho' & Hi' & Hm'); [intros; apply Hnew; by right|lia|].
  set (m' := foldr _ m l) in *. assert (m' !! x = None) as Hx' by (rewrite Ho' by done; apply Hnew; by left).
  split; [apply ok_insert_null; [done|done|lia]|]. split; [rewrite map_size_insert_None by done; cbn; lia|]. split; [|split].
  - intros w Hw. apply not_elem_of_cons in Hw as [Hne Hw]. by rewrite lookup_insert_ne, Ho' by done.
  - intros w [->|Hw]%elem_of_cons; [by rewrite lookup_insert_eq|]. destruct (decide (x = w)) as [<-|]; [by rewrite lookup_insert_eq|]. rewrite lookup_insert_ne by done. by apply Hi'.
  - intros p. rewrite <-Hm'. split.
    + intros (w & hw & Hw & Hp). apply lookup_insert_Some in Hw as [[<- <-]|[? Hw]]; [done|]. by exists w, hw.
    + intros (w & hw & Hw & Hp). exists w, hw. split; [|done]. rewrite lookup_insert_ne; [done|]. intros <-. congruence.
Qed.
End writing.

Lemma managed_insert p m v h : m !! v = None → managed p (<[v := h]> m) ↔ h.1 = Some p ∨ managed p m.
Proof.
  intros Hv. unfold managed. split.
  - intros (w & hw & Hw & Hp). apply lookup_insert_Some in Hw as [[<- <-]|[? Hw]]; [by left|right; eauto].
  - intros [Hp|(w & hw & Hw & Hp)]; [exists v, h; by rewrite lookup_insert_eq|]. exists w, hw. split; [|done]. rewrite lookup_insert_ne; [done|]. intros <-. congruence.
Qed.
(** A state that differs in the handles alone. *)
Lemma ok_change_handles D DC m s s' g : ok D DC m s g → objects s' = objects s → counts s' = counts s → next_count s' = next_count s → deleted s' = deleted s → ok D DC m s' g.
Proof. intros [] H1 H2 H3 H4. constructor; rewrite ?H1, ?H2, ?H3, ?H4; done. Qed.

(** [share] and [steal] write the handle [v] with [write], and do not count it
    before. *)
Definition writes (write : nat → option nat * option nat → comp heap unit) (v : nat) (s : heap) : Prop :=
  ∀ h, write v h s = Returns () (with_handles (<[v := h]> (handles s)) s).
Lemma make_writes v s : writes make_handle v s.
Proof. done. Qed.
Lemma write_writes v s : is_Some (handles s !! v) → writes write_handle v s.
Proof. intros [hv Hv] h. unfold write_handle, modifyO. by rewrite Hv. Qed.

Lemma share_run write s g v other h :
  writes write v s → ok ∅ ∅ (delete v (handles s)) s g → Z.of_nat (size (delete v (handles s))) + 1 < 2 ^ 64 → v ≠ other → handles s !! other = Some h →
  ∃ s', share write v other s = Returns () s' ∧ handles s' = <[v := h]> (handles s) ∧ ok ∅ ∅ (handles s') s' g ∧ objects s' = objects s.
Proof.
  intros Hwr Hok Hsz Hne Hh. unfold share, read_handle. rewrite (getO_bind _ _ _ h) by exact Hh. rewrite (comp_bind_Returns _ _ _ _ _ (Hwr h)).
  assert (delete v (handles s) !! other = Some h) as Hh' by (by rewrite lookup_delete_ne).
  assert (<[v := h]> (handles s) = <[v := h]> (delete v (handles s))) as Hins by (by rewrite insert_delete_eq).
  destruct (ok_handles _ _ _ _ _ Hok other h Hh') as [->|(p & c & -> & Hc)]; cbn [ref_count_ snd].
  - eexists. split; [done|]. split; [done|]. split; [|done]. cbn. rewrite Hins.
    eapply ok_change_handles; [by apply ok_insert_null; [exact Hok|apply lookup_delete_eq|]|done..].
  - destruct (ok_count _ s g c p Hok Hc) as (n & Hn & _).
    pose proof (ok_insert_shared _ s g v p c n Hok (lookup_delete_eq _ _) Hsz Hc Hn) as Hok'.
    unfold fetch_add. eexists. split.
    { rewrite (comp_bind_Returns _ _ _ n (with_counts (<[c := u64 (n + 1)]> (counts s)) (with_handles (<[v := (Some p, Some c)]> (handles s)) s))); [done|].
      by rewrite (getO_bind _ _ _ n) by exact Hn. }
    split; [done|]. split; [|done]. cbn. rewrite Hins. eapply ok_change_handles; [exact Hok'|done..].
Qed.

Lemma steal_run write s g v other h :
  writes write v s → ok ∅ ∅ (delete v (handles s)) s g → Z.of_nat (size (delete v (handles s))) + 1 < 2 ^ 64 → v ≠ other → handles s !! other = Some h →
  ∃ s', steal write v other s = Returns () s' ∧ ok ∅ ∅ (handles s') s' g ∧ objects s' = objects s ∧
    handles s' = <[other := (None, None)]> (<[v := h]> (handles s)) ∧ ∀ p, managed p (handles s') ↔ managed p (delete v (handles s)).
Proof.
  intros Hwr Hok Hsz Hne Hh. set (m := delete v (handles s)) in *.
  assert (m !! other = Some h) as Hm by (unfold m; by rewrite lookup_delete_ne).
  assert (m !! v = None) as Hv by apply lookup_delete_eq.
  set (m2 := <[other := (None, None)]> (<[v := h]> (handles s))).
  assert (m2 = <[v := h]> (<[other := (None, None)]> (delete other m))) as Hm2.
  { apply map_eq. intros w. unfold m2, m. destruct (decide (w = other)) as [->|Hwo].
    - by rewrite (lookup_insert_ne _ v) by done; rewrite !lookup_insert_eq.
    - rewrite lookup_insert_ne by done. destruct (decide (w = v)) as [->|Hwv]; [by rewrite !lookup_insert_eq|].
      rewrite !(lookup_insert_ne _ v) by done. by rewrite lookup_insert_ne, !lookup_delete_ne by done. }
  assert (delete other m !! other = None ∧ <[other := (None, None)]> (delete other m) !! v = None) as [Ho Hov].
  { split; [apply lookup_delete_eq|]. rewrite lookup_insert_ne, lookup_delete_ne by done. done. }
  assert (∀ c, users c m2 = users c m) as Hu.
  { intros c. rewrite Hm2, users_fresh, users_fresh by done. rewrite (users_delete c m other h Hm). done. }
  assert (∀ w hw, m2 !! w = Some hw → hw = (None, None) ∨ ∃ w', m !! w' = Some hw) as Hin.
  { intros w hw. rewrite Hm2. rewrite !lookup_insert_Some, lookup_delete_Some. intros [[<- <-]|[? [[<- <-]|[? [? ?]]]]]; [right; by exists other|by left|right; by exists w]. }
  exists (with_handles m2 s). split.
  { unfold steal, read_handle. rewrite (getO_bind _ _ _ h) by exact Hh. rewrite (comp_bind_Returns _ _ _ _ _ (Hwr h)).
    refine (write_writes other (with_handles (<[v := h]> (handles s)) s) _ (None, None)). cbn. rewrite lookup_insert_ne by done. by eexists. }
  split; [|split; [done|split; [done|]]].
  - constructor; try apply Hok; cbn.
    + intros w hw Hw. destruct (Hin w hw Hw) as [->|[w' Hw']]; [by left|]. by apply (ok_handles _ _ _ _ _ Hok w').
    + intros c p n Hc Hn. rewrite Hu. by apply (ok_counts _ _ _ _ _ Hok c p).
    + rewrite Hm2, map_size_insert_None, map_size_insert_None, map_size_delete, Hm by done. assert (size m ≠ 0%nat) by (intros He; apply map_size_empty_inv in He; by rewrite He, lookup_empty in Hm). lia.
  - intros p. cbn. rewrite Hm2, managed_insert, managed_insert by done. rewrite <-(insert_delete_id m other h Hm) at 2. rewrite managed_insert by done. cbn. naive_solver.
Qed.
(** *** The operations *)

Inductive op :=
  | New (p : nat) | Default (v : nat) | Construct (v p : nat) | Destroy (v : nat) | CopyConstruct (v other : nat) | CopyAssign (v other : nat)
  | MoveConstruct (v other : nat) | MoveAssign (v other : nat) | Reset (v : nat) (p : option nat).
Definition run_op (fuel : nat) (o : op) : comp heap unit :=
  match o with
  | New p => new_object p
  | Default v => default_construct v
  | Construct v p => construct v (Some p)
  | Destroy v => destroy fuel v
  | CopyConstruct v other => copy_construct v other
  | CopyAssign v other => copy_assign fuel v other
  | MoveConstruct v other => move_construct v other
  | MoveAssign v other => move_assign fuel v other
  | Reset v p => reset fuel v p
  end.
(** An object for a first handle: alive, and without any. *)
Definition unowned (s : heap) (p : nat) : Prop := p ∈ objects s ∧ ¬ managed p (handles s).
(** A handle that is a variable, not a member. *)
Definition free (v : nat) : Prop := ∀ p, v ∉ members p.
(** Objects are new; constructors make a new variable, and a variable is
    destroyed; the other operations are called on handles that exist, variables
    and members; and a raw pointer is given to one handle only. *)
Definition allowed (s : heap) (o : op) : Prop :=
  Z.of_nat (size (handles s)) + 1 < 2 ^ 64 ∧
  match o with
  | New p => p ∉ objects s ∧ p ∉ deleted s ∧ (∀ w, w ∈ members p → handles s !! w = None) ∧
      Z.of_nat (size (handles s)) + Z.of_nat (length (members p)) < 2 ^ 64
  | Default v => handles s !! v = None ∧ free v
  | Construct v p => handles s !! v = None ∧ free v ∧ unowned s p
  | Destroy v => is_Some (handles s !! v) ∧ free v
  | CopyConstruct v other | MoveConstruct v other => handles s !! v = None ∧ free v ∧ is_Some (handles s !! other)
  | CopyAssign v other | MoveAssign v other => is_Some (handles s !! v) ∧ is_Some (handles s !! other)
  | Reset v p => is_Some (handles s !! v) ∧ match p with Some p => unowned s p | None => True end
  end.

(** What the handles of a heap in order answer. *)
Definition answers (s : heap) : Prop := ∀ v h, handles s !! v = Some h →
  use_count v s = Returns (match h.1 with Some p => Z.of_nat (sharers p (handles s)) | None => 0 end) s ∧
  ∀ p, h.1 = Some p → dereference v s = Returns p s.
(** Exactly the objects whose last handle went are deleted. *)
Definition deletes (s s' : heap) : Prop :=
  ∀ p, p ∈ objects s → (p ∉ objects s' ↔ managed p (handles s) ∧ ¬ managed p (handles s')).
(** What the operation is for; every other handle stays as it is, or was a member
    of an object that is deleted. *)
Definition points (s : heap) (v : nat) : option (option nat) := ptr_ <$> handles s !! v.
Definition touched (o : op) : list nat :=
  match o with
  | New p => members p
  | Default v | Construct v _ | Destroy v | CopyConstruct v _ | CopyAssign v _ | Reset v _ => [v]
  | MoveConstruct v other | MoveAssign v other => [v; other]
  end.
Definition others_stay (l : list nat) (s s' : heap) : Prop :=
  ∀ w h, w ∉ l → handles s !! w = Some h →
    handles s' !! w = Some h ∨ handles s' !! w = None ∧ ∃ p, w ∈ members p ∧ p ∈ objects s ∧ p ∉ objects s'.
Definition effect (o : op) (s s' : heap) : Prop :=
  match o with
  | New p => p ∈ objects s' ∧ ∀ w, w ∈ members p → points s' w = Some None
  | Default v => points s' v = Some None
  | Construct v p => points s' v = Some (Some p)
  | Destroy v => points s' v = None
  | CopyConstruct v other | CopyAssign v other => points s' v = points s other
  | MoveConstruct v other | MoveAssign v other => points s' v = points s other ∧ (v ≠ other → points s' other = Some None)
  | Reset v p => points s' v = Some p
  end ∧ others_stay (touched o) s s'.
(** Releasing [v] deletes an object that one of the handles [l] is a member of;
    an assignment then goes on with this handle. *)
Definition destroys (fuel : nat) (s : heap) (v : nat) (l : list nat) : Prop :=
  ∃ s1 w p, release fuel v s = Returns () s1 ∧ w ∈ l ∧ w ∈ members p ∧ p ∈ objects s ∧ p ∉ objects s1.
Definition self_destroying (fuel : nat) (s : heap) (o : op) : Prop :=
  match o with
  | CopyAssign v other | MoveAssign v other => v ≠ other ∧ destroys fuel s v [v; other]
  | Reset v _ => destroys fuel s v [v]
  | _ => False
  end.

Lemma inv_answers s : inv s → answers s ∧ NoDup (deleted s).
Proof.
  intros [[g Hok] _]. split; [|apply Hok]. intros v h Hv. unfold use_count, dereference, read_handle. rewrite !(getO_bind _ _ _ h) by exact Hv.
  destruct (ok_handles _ _ _ _ _ Hok v h Hv) as [->|(p & c & -> & Hc)]; [by split|]. cbn. split.
  - destruct (ok_count _ s g c p Hok Hc) as (n & Hn & -> & _). unfold getO. rewrite Hn. by rewrite (sharers_users _ _ _ c p Hok Hc).
  - intros p' [= <-]. unfold getO. cbn. by rewrite decide_True by (by eapply (ok_objects _ _ _ _ _ Hok)).
Qed.
Lemma unmanaged_deletes s s' : objects s ⊆ objects s' → (∀ p, managed p (handles s) → managed p (handles s')) → deletes s s'.
Proof. intros Ho Hm p Hp. split; [intros Hn; destruct Hn; by apply Ho|naive_solver]. Qed.
Lemma reaps_deletes s m1 s1 g s2 : reaps (handles s) s m1 s1 → ok ∅ ∅ m1 s1 g → objects s2 = objects s1 →
  (∀ p, managed p (handles s) → managed p (handles s2) ↔ managed p m1) → deletes s s2.
Proof.
  intros [H1 H2] Hok Ho Hm p Hp. rewrite Ho. split.
  - intros Hn. pose proof (H1 p Hp Hn) as HM. split; [done|]. rewrite (Hm p HM). intros [c Hc]%(managed_iff _ _ _ p Hok).
    by destruct (ok_objects _ _ _ _ _ Hok c p Hc).
  - intros [HM Hno]. rewrite (Hm p HM) in Hno. by apply H2.
Qed.

Section safety.
Context (members_once : ∀ p, NoDup (members p)) (members_apart : ∀ p q w, w ∈ members p → w ∈ members q → p = q).

(** The operations of a heap in order that do not release. *)
Definition runs_well (o : op) (fuel : nat) (s : heap) : Prop := ∃ s', run_op fuel o s = Returns () s' ∧ inv s' ∧ deletes s s' ∧ effect o s s'.
Lemma insert_points s v h : points (with_handles (<[v := h]> (handles s)) s) v = Some h.1.
Proof. unfold points. cbn. by rewrite lookup_insert_eq. Qed.
Lemma insert_stays s v h : others_stay [v] s (with_handles (<[v := h]> (handles s)) s).
Proof. intros w hw Hw%not_elem_of_cons Hs. left. cbn. rewrite lookup_insert_ne; [done|]. intros ->. by destruct Hw. Qed.
Lemma same_effect o s s1 s2 : handles s1 = handles s2 → objects s1 = objects s2 → effect o s s1 → effect o s s2.
Proof. unfold effect, others_stay, points. intros -> ->. done. Qed.
Lemma New_well p fuel s : inv s → allowed s (New p) → runs_well (New p) fuel s.
Proof.
  intros [[g Hok] Hhome] (_ & Hp & Hdel & Hnew & Hsz). eexists. split; [done|].
  destruct (ok_insert_members (members p) (handles s) s g Hok (members_once p) Hnew Hsz) as (Hok' & _ & Hout & Hin & Hm). split; [split|split].
  - exists g. cbn. constructor; try apply Hok'; cbn.
    + split; [by intros c []%elem_of_empty|by intros q []%elem_of_empty].
    + intros c q Hq. destruct (ok_objects _ _ _ _ _ Hok' c q Hq). set_solver.
    + destruct (ok_deleted _ _ _ _ _ Hok') as [Hnd Hd]. split; [done|]. intros q Hq. specialize (Hd q Hq). set_solver.
  - intros q w Hq Hw. cbn in *. destruct (decide (w ∈ members p)) as [Hwp|Hwp]; [rewrite Hin by done; by eexists|]. rewrite Hout by done.
    apply (Hhome q); [|done]. apply elem_of_union in Hq as [->%elem_of_singleton|?]; done.
  - apply unmanaged_deletes; cbn; [set_solver|]. intros q. by rewrite Hm.
  - split; [split; [cbn; set_solver|]|].
    + intros w Hw. unfold points. cbn. by rewrite Hin.
    + intros w h Hw Hs. left. cbn. by rewrite Hout.
Qed.
Lemma home_insert s s' v h : (∀ p w, p ∈ objects s → w ∈ members p → is_Some (handles s !! w)) → objects s' = objects s →
  handles s' = <[v := h]> (handles s) → ∀ p w, p ∈ objects s' → w ∈ members p → is_Some (handles s' !! w).
Proof.
  intros Hh -> -> p w Hp Hw. destruct (decide (v = w)) as [<-|]; [rewrite lookup_insert_eq; by eexists|]. rewrite lookup_insert_ne by done. by apply (Hh p).
Qed.
Lemma Default_well v fuel s : inv s → allowed s (Default v) → runs_well (Default v) fuel s.
Proof.
  intros [[g Hok] Hhome] (Hsz & Hv & _). eexists. split; [done|]. split; [split|split].
  - exists g. eapply ok_change_handles; [by apply (ok_insert_null _ s g v Hok Hv Hsz)|done..].
  - by eapply (home_insert s _ v).
  - apply unmanaged_deletes; cbn; [done|]. intros q Hq. rewrite managed_insert by done. by right.
  - split; [apply insert_points|apply insert_stays].
Qed.
Lemma Construct_well v p fuel s : inv s → allowed s (Construct v p) → runs_well (Construct v p) fuel s.
Proof.
  intros [[g Hok] Hhome] (Hsz & Hv & _ & Hp & Hun). pose proof (ok_insert_new _ s g v p Hok Hv Hsz Hp Hun) as Hok2. cbn zeta in Hok2.
  eexists. split; [done|]. split; [split|split].
  - eexists. eapply ok_change_handles; [exact Hok2|done..].
  - by eapply (home_insert s _ v).
  - apply unmanaged_deletes; cbn; [done|]. intros q Hq. rewrite managed_insert by done. by right.
  - apply (same_effect _ s (with_handles (<[v := (Some p, Some (next_count s))]> (handles s)) s)); [done|done|].
    split; [apply insert_points|apply insert_stays].
Qed.
Lemma CopyConstruct_well v other fuel s : inv s → allowed s (CopyConstruct v other) → runs_well (CopyConstruct v other) fuel s.
Proof.
  intros [[g Hok] Hhome] (Hsz & Hv & _ & [ho Ho]). assert (v ≠ other) by (intros ->; congruence).
  rewrite <-(delete_id (handles s) v) in Hok by done.
  destruct (share_run make_handle s g v other ho (make_writes v s) Hok) as (s2 & Hrun2 & Hh2 & Hok2 & Hob2); [by rewrite delete_id|done|done|].
  exists s2. split; [done|]. split; [split; [by exists g|by eapply (home_insert s _ v)]|]. split.
  - apply unmanaged_deletes; [by rewrite Hob2|]. intros q Hq. rewrite Hh2, managed_insert by done. by right.
  - apply (same_effect _ s (with_handles (<[v := ho]> (handles s)) s)); [done|done|].
    split; [rewrite insert_points; unfold points; by rewrite Ho|apply insert_stays].
Qed.
Lemma home_move s s' v other h : (∀ p w, p ∈ objects s → w ∈ members p → is_Some (handles s !! w)) → objects s' = objects s →
  handles s' = <[other := (None, None)]> (<[v := h]> (handles s)) → ∀ p w, p ∈ objects s' → w ∈ members p → is_Some (handles s' !! w).
Proof.
  intros Hh Ho Hs. apply (home_insert (with_handles (<[v := h]> (handles s)) s) s' other (None, None)); [|done|done].
  by apply (home_insert s _ v h).
Qed.
Lemma move_effect s s1 s2 v other ho : handles s !! other = Some ho → v ≠ other → others_stay [] s s1 →
  handles s2 = <[other := (None, None)]> (<[v := ho]> (handles s1)) → objects s2 = objects s1 → effect (MoveConstruct v other) s s2.
Proof.
  intros Ho Hne Hst Hh Hob. split; [split|].
  - unfold points. by rewrite Hh, Ho, lookup_insert_ne, lookup_insert_eq by done.
  - intros _. unfold points. by rewrite Hh, lookup_insert_eq.
  - intros w h [Hw1 Hw2%not_elem_of_cons]%not_elem_of_cons Hs. rewrite Hh, Hob, !lookup_insert_ne by (intros <-; tauto). apply Hst; [apply not_elem_of_nil|done].
Qed.
Lemma copy_effect s s1 s2 v other ho : handles s !! other = Some ho → others_stay [] s s1 →
  handles s2 = <[v := ho]> (handles s1) → objects s2 = objects s1 → effect (CopyConstruct v other) s s2.
Proof.
  intros Ho Hst Hh Hob. split.
  - unfold points. by rewrite Hh, Ho, lookup_insert_eq.
  - intros w h [Hw _]%not_elem_of_cons Hs. rewrite Hh, Hob, lookup_insert_ne by done. apply Hst; [apply not_elem_of_nil|done].
Qed.
Lemma reset_effect s s1 s2 v po h : others_stay [] s s1 → h.1 = po → handles s2 = <[v := h]> (handles s1) → objects s2 = objects s1 → effect (Reset v po) s s2.
Proof.
  intros Hst Hp Hh Hob. split.
  - unfold points. rewrite Hh, lookup_insert_eq. cbn. by rewrite <-Hp.
  - intros w hw [Hw _]%not_elem_of_cons Hs. rewrite Hh, Hob, lookup_insert_ne by done. apply Hst; [apply not_elem_of_nil|done].
Qed.
Lemma stays_refl s : others_stay [] s s.
Proof. intros w h _ Hs. by left. Qed.
Lemma MoveConstruct_well v other fuel s : inv s → allowed s (MoveConstruct v other) → runs_well (MoveConstruct v other) fuel s.
Proof.
  intros [[g Hok] Hhome] (Hsz & Hv & _ & [ho Ho]). assert (v ≠ other) by (intros ->; congruence).
  rewrite <-(delete_id (handles s) v) in Hok by done.
  destruct (steal_run make_handle s g v other ho (make_writes v s) Hok) as (s2 & Hrun2 & Hok2 & Hob2 & Hh2 & Hm2); [by rewrite delete_id|done|done|].
  exists s2. split; [done|]. split; [split; [by exists g|by eapply (home_move s _ v other)]|]. split.
  - apply unmanaged_deletes; [by rewrite Hob2|]. intros q Hq. by rewrite (Hm2 q), delete_id.
  - apply (move_effect s s s2 v other ho); try done. apply stays_refl.
Qed.

(** What is needed of [release], and which handles it leaves. *)
Lemma release_leaves fuel s v : inv s → is_Some (handles s !! v) → (size (counts s) < fuel)%nat →
  ∃ s1 g1, release fuel v s = Returns () s1 ∧ ok ∅ ∅ (delete v (handles s1)) s1 g1 ∧
    (∀ p w, p ∈ objects s1 → w ∈ members p → is_Some (handles s1 !! w)) ∧ reaps (handles s) s (delete v (handles s1)) s1 ∧
    handles s1 ⊆ handles s ∧ objects s1 ⊆ objects s ∧ others_stay [] s s1 ∧
    ∀ w, is_Some (handles s !! w) → handles s1 !! w = None ↔ ∃ p, w ∈ members p ∧ p ∈ objects s ∧ p ∉ objects s1.
Proof.
  intros Hinv Hv Hf. destruct (release_run members_once members_apart fuel s v Hinv Hv Hf) as (s1 & g1 & Hrun & Hok & Hhome & Hsh & Hre).
  assert (∀ w, is_Some (handles s !! w) → handles s1 !! w = None ↔ ∃ p, w ∈ members p ∧ p ∈ objects s ∧ p ∉ objects s1) as Hgone.
  { intros w Hw. rewrite (shrinks_gone _ _ _ _ _ Hsh w Hw).
    split; [intros [[]%elem_of_nil|(p & ? & ? & ?)]; by exists p|]. intros (p & ? & ? & ?). right. by exists p. }
  exists s1, g1. do 4 (split; [done|]). split; [apply Hsh|]. split; [apply Hsh|]. split; [|exact Hgone].
  intros w hw _ Hw. destruct (handles s1 !! w) as [h1|] eqn:H1.
  - left. pose proof (lookup_weaken _ _ _ _ H1 (shrinks_handles _ _ _ _ _ Hsh)). congruence.
  - right. split; [done|]. apply Hgone; [by eexists|done].
Qed.
Lemma left_size s s1 v : handles s1 ⊆ handles s → Z.of_nat (size (handles s)) + 1 < 2 ^ 64 → Z.of_nat (size (delete v (handles s1))) + 1 < 2 ^ 64.
Proof. intros Hsub Hsz. pose proof (map_subseteq_size _ _ Hsub). pose proof (map_subseteq_size _ _ (delete_subseteq (handles s1) v)). lia. Qed.

Lemma Destroy_well v fuel s : inv s → allowed s (Destroy v) → (size (counts s) < fuel)%nat → runs_well (Destroy v) fuel s.
Proof.
  intros Hinv (Hsz & Hv & Hfree) Hf. destruct (release_leaves fuel s v Hinv Hv Hf) as (s1 & g1 & Hrun & Hok1 & Hhome & Hre & Hsub & Hobj & Hst & Hgone).
  unfold runs_well. cbn [run_op]. unfold destroy. rewrite (comp_bind_Returns _ _ _ _ _ Hrun). eexists. split; [done|]. split; [split|split].
  - exists g1. eapply ok_change_handles; [exact Hok1|done..].
  - intros p w Hp Hw. cbn. rewrite lookup_delete_ne; [by apply (Hhome p)|]. intros <-. by destruct (Hfree p).
  - by apply (reaps_deletes s (delete v (handles s1)) s1 g1).
  - split; [unfold points; cbn; by rewrite lookup_delete_eq|]. intros w h [Hw _]%not_elem_of_cons Hs. cbn. rewrite lookup_delete_ne by done.
    apply Hst; [apply not_elem_of_nil|done].
Qed.

(** The two assignments after their test. *)
Definition ends_well (fuel : nat) (m : comp heap unit) (s : heap) (bad : Prop) (good : heap → Prop) : Prop :=
  (¬ bad ∧ ∃ s', m s = Returns () s' ∧ inv s' ∧ deletes s s' ∧ good s') ∨ bad ∧ m s = UB.
Lemma assign_well (f : nat → nat → comp heap unit) fuel v other s (good : heap → Prop) : inv s → is_Some (handles s !! v) → is_Some (handles s !! other) →
  v ≠ other → Z.of_nat (size (handles s)) + 1 < 2 ^ 64 → (size (counts s) < fuel)%nat →
  (∀ s1, handles s1 !! v = None ∨ handles s1 !! other = None → f v other s1 = UB) →
  (∀ s1 g1 ho, is_Some (handles s1 !! v) → ok ∅ ∅ (delete v (handles s1)) s1 g1 → Z.of_nat (size (delete v (handles s1))) + 1 < 2 ^ 64 → handles s1 !! other = Some ho →
    ∃ s2, f v other s1 = Returns () s2 ∧ ok ∅ ∅ (handles s2) s2 g1 ∧ objects s2 = objects s1 ∧
      (handles s2 = <[v := ho]> (handles s1) ∨ handles s2 = <[other := (None, None)]> (<[v := ho]> (handles s1))) ∧
      (∀ p, managed p (handles s2) ↔ managed p (delete v (handles s1))) ∧ (handles s !! other = Some ho → others_stay [] s s1 → good s2)) →
  ends_well fuel (release fuel v;; f v other) s (destroys fuel s v [v; other]) good.
Proof.
  intros Hinv Hv Ho Hne Hsz Hf Hgone Hrest.
  destruct (release_leaves fuel s v Hinv Hv Hf) as (s1 & g1 & Hrun & Hok1 & Hhome & Hre & Hsub & Hobj & Hst & Hgo). unfold ends_well. rewrite (comp_bind_Returns _ _ _ _ _ Hrun).
  assert (∀ w, w ∈ [v; other] → is_Some (handles s !! w)) as Hwl by (by intros w [->| ->%list_elem_of_singleton]%elem_of_cons).
  destruct (decide (handles s1 !! v = None ∨ handles s1 !! other = None)) as [Hlost|Hkept].
  - right. split; [|by apply Hgone]. assert (∃ w, w ∈ [v; other] ∧ handles s1 !! w = None) as (w & Hw & Hn).
    { destruct Hlost; [exists v|exists other]; (split; [|done]); rewrite !elem_of_cons; tauto. }
    apply (Hgo w (Hwl w Hw)) in Hn as (p & Hwp & Hp & Hp1). by exists s1, w, p.
  - left. split.
    { intros (s1' & w & p & Hrun' & Hw & Hwp & Hp & Hp1). rewrite Hrun in Hrun'. injection Hrun' as <-.
      assert (handles s1 !! w = None) as Hn by (apply (Hgo w (Hwl w Hw)); by exists p).
      apply elem_of_cons in Hw as [->| ->%list_elem_of_singleton]; tauto. }
    destruct (handles s1 !! v) as [hv|] eqn:Hv1; [|tauto]. destruct (handles s1 !! other) as [ho|] eqn:Ho1; [|tauto].
    destruct (Hrest s1 g1 ho) as (s2 & Hrun2 & Hok2 & Hob2 & Hh2 & Hm2 & Hgood); [by eexists|done|by apply (left_size s)|done|].
    exists s2. split; [done|]. split; [split; [by exists g1|]|split].
    + destruct Hh2 as [Hh2|Hh2]; [by eapply (home_insert s1 _ v)|by eapply (home_move s1 _ v other)].
    + by apply (reaps_deletes s (delete v (handles s1)) s1 g1).
    + apply Hgood; [by eapply lookup_weaken|done].
Qed.
Lemma self_assign s m (good : heap → Prop) : inv s → m s = Returns () s → good s → ∃ s', m s = Returns () s' ∧ inv s' ∧ deletes s s' ∧ good s'.
Proof. intros Hinv Hm Hg. exists s. split; [done|]. split; [done|]. split; [|done]. apply unmanaged_deletes; auto. Qed.
Lemma CopyAssign_well v other fuel s : inv s → allowed s (CopyAssign v other) → (size (counts s) < fuel)%nat →
  ends_well fuel (copy_assign fuel v other) s (v ≠ other ∧ destroys fuel s v [v; other]) (effect (CopyAssign v other) s).
Proof.
  intros Hinv (Hsz & Hv & Ho) Hf. unfold copy_assign. case_decide as Hne; [|left; split; [by intros [? _]|apply self_assign; [done|done|]]].
  2:{ destruct (decide (v = other)) as [->|]; [|done]. split; [done|]. intros w h _ Hs. by left. }
  assert (ends_well fuel (release fuel v;; share write_handle v other) s (destroys fuel s v [v; other]) (effect (CopyAssign v other) s)) as H; [|unfold ends_well in *; tauto].
  apply (assign_well (share write_handle)); try done.
  - intros s1 Hlost. unfold share, read_handle, getO, write_handle, modifyO, mbind, comp_bind. destruct (handles s1 !! other) as [ho|]; [|done].
    destruct Hlost as [->|]; done.
  - intros s1 g1 ho Hv1 Hok1 Hsz1 Ho1. destruct (share_run write_handle s1 g1 v other ho (write_writes v s1 Hv1) Hok1 Hsz1 Hne Ho1) as (s2 & Hrun2 & Hh2 & Hok2 & Hob2).
    exists s2. do 3 (split; [done|]). split; [by left|]. split; [|intros Ho0 Hst; by apply (copy_effect s s1 s2 v other ho)].
    intros p. rewrite Hh2, <-insert_delete_eq, managed_insert by apply lookup_delete_eq.
    split; [|by right]. intros [Hp|?]; [|done]. exists other, ho. by rewrite lookup_delete_ne.
Qed.
Lemma MoveAssign_well v other fuel s : inv s → allowed s (MoveAssign v other) → (size (counts s) < fuel)%nat →
  ends_well fuel (move_assign fuel v other) s (v ≠ other ∧ destroys fuel s v [v; other]) (effect (MoveAssign v other) s).
Proof.
  intros Hinv (Hsz & Hv & Ho) Hf. unfold move_assign. case_decide as Hne; [|left; split; [by intros [? _]|apply self_assign; [done|done|]]].
  2:{ destruct (decide (v = other)) as [->|]; [|done]. split; [done|]. intros w h _ Hs. by left. }
  assert (ends_well fuel (release fuel v;; steal write_handle v other) s (destroys fuel s v [v; other]) (effect (MoveAssign v other) s)) as H; [|unfold ends_well in *; tauto].
  apply (assign_well (steal write_handle)); try done.
  - intros s1 Hlost. unfold steal, read_handle, getO, write_handle, modifyO, mbind, comp_bind. destruct (handles s1 !! other) as [ho|]; [|done].
    destruct Hlost as [->|]; done.
  - intros s1 g1 ho Hv1 Hok1 Hsz1 Ho1. destruct (steal_run write_handle s1 g1 v other ho (write_writes v s1 Hv1) Hok1 Hsz1 Hne Ho1) as (s2 & Hrun2 & Hok2 & Hob2 & Hh2 & Hm2).
    exists s2. do 3 (split; [done|]). split; [by right|]. split; [exact Hm2|]. intros Ho0 Hst. by apply (move_effect s s1 s2 v other ho).
Qed.

(** What [reset] does after [release]. *)
Lemma reset_to v s1 : match handles s1 !! v with
  | None => ∀ p, (match p with None => write_handle v (None, None) | Some p => c ← new_count; write_handle v (Some p, Some c) end) s1 = UB
  | Some _ => ∀ p, (match p with None => write_handle v (None, None) | Some p => c ← new_count; write_handle v (Some p, Some c) end) s1 =
      Returns () match p with
        | None => with_handles (<[v := (None, None)]> (handles s1)) s1
        | Some p => Heap (objects s1) (<[next_count s1 := 1]> (counts s1)) (<[v := (Some p, Some (next_count s1))]> (handles s1)) (S (next_count s1)) (deleted s1)
        end
  end.
Proof.
  destruct (handles s1 !! v) as [h|] eqn:Hv; (intros [q|]; [etrans; [apply comp_bind_Returns; reflexivity|]|]); unfold write_handle, modifyO; cbn [handles]; by rewrite Hv.
Qed.
Lemma Reset_well v po fuel s : inv s → allowed s (Reset v po) → (size (counts s) < fuel)%nat →
  ends_well fuel (reset fuel v po) s (destroys fuel s v [v]) (effect (Reset v po) s).
Proof.
  intros Hinv (Hsz & Hv & Hp) Hf.
  destruct (release_leaves fuel s v Hinv Hv Hf) as (s1 & g1 & Hrun & Hok1 & Hhome & Hre & Hsub & Hobj & Hst & Hgo).
  unfold ends_well, reset. rewrite (comp_bind_Returns _ _ _ _ _ Hrun). pose proof (reset_to v s1) as Hreset.
  destruct (handles s1 !! v) as [hv|] eqn:Hv1; rewrite (Hreset po).
  2:{ right. split; [|done]. apply (Hgo v Hv) in Hv1 as (p & ? & ? & ?). exists s1, v, p. by rewrite list_elem_of_singleton. }
  left. split.
  { intros (s1' & w & p & Hrun' & ->%list_elem_of_singleton & Hwp & Hp1 & Hp2). rewrite Hrun in Hrun'. injection Hrun' as <-.
    assert (handles s1 !! v = None) by (apply (Hgo v Hv); by exists p). congruence. }
  pose proof (left_size s s1 v Hsub Hsz) as Hsz1. eexists. split; [done|]. destruct po as [p|].
  - destruct Hp as [Hp Hun].
    assert (p ∈ objects s1) as Hp1. { destruct (decide (p ∈ objects s1)) as [|Hn]; [done|]. destruct Hun. by apply (reaps_managed _ _ _ _ Hre). }
    assert (¬ managed p (delete v (handles s1))) as Hun1.
    { intros Hm. apply Hun. eapply managed_sub; [|exact Hm]. etrans; [apply delete_subseteq|exact Hsub]. }
    pose proof (ok_insert_new _ s1 g1 v p Hok1 (lookup_delete_eq _ _) Hsz1 Hp1 Hun1) as Hok2. cbn zeta in Hok2. rewrite insert_delete_eq in Hok2.
    split; [split; [eexists; eapply ok_change_handles; [exact Hok2|done..]|by eapply (home_insert s1 _ v)]|].
    split; [|by apply (reset_effect s s1 _ v (Some p) (Some p, Some (next_count s1)))].
    apply (reaps_deletes s (delete v (handles s1)) s1 g1); try done. intros q Hq. cbn. rewrite <-insert_delete_eq, managed_insert by apply lookup_delete_eq. cbn.
    split; [intros [[= <-]|?]; done|by right].
  - split; [split; [|by eapply (home_insert s1 _ v)]|split; [|by apply (reset_effect s s1 _ v None (None, None))]].
    + exists g1. cbn. rewrite <-insert_delete_eq. eapply ok_change_handles; [by apply (ok_insert_null _ s1 g1 v Hok1 (lookup_delete_eq _ _) Hsz1)|done..].
    + apply (reaps_deletes s (delete v (handles s1)) s1 g1); try done. intros q Hq. cbn. rewrite <-insert_delete_eq, managed_insert by apply lookup_delete_eq. cbn.
      split; [by intros [?|?]|by right].
Qed.

Lemma op_well fuel o s : inv s → allowed s o → (size (counts s) < fuel)%nat → ends_well fuel (run_op fuel o) s (self_destroying fuel s o) (effect o s).
Proof.
  intros Hinv Ha Hf. destruct o as [p|v|v p|v|v other|v other|v other|v other|v po]; [left; split; [intros []|]..| |left; split; [intros []|]| |].
  - by apply New_well.
  - by apply Default_well.
  - by apply Construct_well.
  - by apply Destroy_well.
  - by apply CopyConstruct_well.
  - by apply CopyAssign_well.
  - by apply MoveConstruct_well.
  - by apply MoveAssign_well.
  - by apply Reset_well.
Qed.
Lemma run_op_inv fuel o s s' : inv s → allowed s o → (size (counts s) < fuel)%nat → run_op fuel o s = Returns () s' → inv s'.
Proof.
  intros Hinv Ha Hf Hrun. destruct (op_well fuel o s Hinv Ha Hf) as [[_ (s1 & Hrun1 & Hs1 & _)]|[_ Hub]]; [|congruence].
  rewrite Hrun in Hrun1. by injection Hrun1 as ->.
Qed.

(** C11: In a program that makes and destroys its variables, assigns variables and
    members of objects, and gives a raw pointer to one handle only, every
    operation points its handle where it says, leaves the others alone and keeps
    the heap in order: it never touches a counter, an object or a
    handle that is gone, [use_count] is the number of handles that share the
    object, what a handle points to is alive, and an object is deleted exactly
    when its last handle goes, with its members and whatever these alone keep,
    and never twice.  The only operation that is undefined is an assignment, or a
    [reset], whose [release] deletes the object that the assigned or the copied
    handle is a member of.  A handle is a member of one object at most. *)
Theorem shared_ptr_safe fuel o s : inv s → allowed s o → (size (counts s) < fuel)%nat →
  (¬ self_destroying fuel s o ∧ ∃ s', run_op fuel o s = Returns () s' ∧ inv s' ∧ effect o s s' ∧ answers s' ∧ deletes s s' ∧ NoDup (deleted s')) ∨
  (self_destroying fuel s o ∧ run_op fuel o s = UB).
Proof.
  intros Hinv Ha Hf. destruct (op_well fuel o s Hinv Ha Hf) as [[Hn (s' & Hrun & Hs' & Hd & He)]|[Hd Hrun]]; [left; split; [done|]|by right].
  destruct (inv_answers s' Hs'). by exists s'.
Qed.
End safety.
End pointers.

(** ** A run *)

(** Objects 7 and 8 have a member each, as the nodes of a list. *)
Definition demo_members (p : nat) : list nat := if decide (p = 7)%nat then [1%nat] else if decide (p = 8)%nat then [2%nat] else [].
Lemma demo_once p : NoDup (demo_members p).
Proof. unfold demo_members. repeat case_decide; first [apply NoDup_singleton|apply NoDup_nil_2]. Qed.
Lemma demo_member p w : w ∈ demo_members p → (p = 7 ∧ w = 1 ∨ p = 8 ∧ w = 2)%nat.
Proof. unfold demo_members. repeat case_decide; [intros ->%list_elem_of_singleton; auto..|by intros ?%elem_of_nil]. Qed.
Lemma demo_apart p q w : w ∈ demo_members p → w ∈ demo_members q → p = q.
Proof. intros Hp%demo_member Hq%demo_member. lia. Qed.
Lemma demo_free v : v ≠ 1%nat → v ≠ 2%nat → free demo_members v.
Proof. intros H1 H2 p Hp%demo_member. lia. Qed.

Fixpoint run_ops (os : list op) : comp heap unit :=
  match os with [] => mret () | o :: os => run_op demo_members 4 o;; run_ops os end.
Definition after (os : list op) : heap := default empty_heap (final (run_ops os empty_heap)).
(** A list of two nodes, another object, and who is left to hold them: variable 0
    the first node, its member the second one, variable 5 the other object. *)
Definition demo_ops : list op := [New 7; New 8; New 9; Construct 0 7; Construct 3 8; Construct 5 9; CopyAssign 1 3; Destroy 3].
#[local] Instance managed_dec p m : Decision (managed p m).
Proof. unfold managed. change (Decision (map_Exists (λ _ h, h.1 = Some p) m)). apply _. Defined.
Ltac by_computing := apply (bool_decide_unpack _); vm_compute; exact I.
(** The heap after the first [k] operations is in order. *)
Ltac demo_step k o := let H := fresh in
  match goal with Hinv : inv _ (after (take k _)) |- _ =>
    assert (inv demo_members (after (take (S k) demo_ops))) as H;
    [apply (run_op_inv demo_members demo_once demo_apart 4 o (after (take k demo_ops))); [exact Hinv| |by_computing|vm_compute; reflexivity]|clear Hinv]
  end.
Lemma demo_heap_inv : inv demo_members (after demo_ops).
Proof.
  change (inv demo_members (after (take 8 demo_ops))). assert (inv demo_members (after (take 0 demo_ops))) by apply empty_inv.
  demo_step 0%nat (New 7).
  { split; [by_computing|]. do 2 (split; [by_computing|]). split; [|by_computing]. intros w [[_ ->]|[? _]]%demo_member; [by vm_compute|done]. }
  demo_step 1%nat (New 8).
  { split; [by_computing|]. do 2 (split; [by_computing|]). split; [|by_computing]. intros w [[? _]|[_ ->]]%demo_member; [done|by vm_compute]. }
  demo_step 2%nat (New 9).
  { split; [by_computing|]. do 2 (split; [by_computing|]). split; [|by_computing]. by intros w [[? _]|[? _]]%demo_member. }
  demo_step 3%nat (Construct 0 7). { split; [by_computing|]. split; [by vm_compute|]. split; [by apply demo_free|]. split; by_computing. }
  demo_step 4%nat (Construct 3 8). { split; [by_computing|]. split; [by vm_compute|]. split; [by apply demo_free|]. split; by_computing. }
  demo_step 5%nat (Construct 5 9). { split; [by_computing|]. split; [by vm_compute|]. split; [by apply demo_free|]. split; by_computing. }
  demo_step 6%nat (CopyAssign 1 3). { split; [by_computing|]. split; by_computing. }
  demo_step 7%nat (Destroy 3). { split; [by_computing|]. split; [by_computing|by apply demo_free]. }
  assumption.
Qed.

(** Variable 0 is assigned the other object, which deletes both nodes; or its own
    member, which is gone before it is copied. *)
Lemma shared_ptr_safe_witness : let s := after demo_ops in
  (∃ s', run_op demo_members 4 (CopyAssign 0 5) s = Returns () s' ∧ deletes s s' ∧ answers s' ∧ deleted s' = [8; 7]%nat) ∧
  self_destroying demo_members 4 s (CopyAssign 0 1) ∧ run_op demo_members 4 (CopyAssign 0 1) s = UB.
Proof.
  intros s. split.
  - destruct (shared_ptr_safe demo_members demo_once demo_apart 4 (CopyAssign 0 5) s demo_heap_inv) as [(_ & s' & Hrun & _ & _ & Ha & Hd & _)|[_ Hub]].
    + split; [by_computing|split; by_computing].
    + by_computing.
    + exists s'. split; [exact Hrun|]. split; [exact Hd|]. split; [exact Ha|]. vm_compute in Hrun. injection Hrun as <-. reflexivity.
    + vm_compute in Hub. discriminate Hub.
  - destruct (shared_ptr_safe demo_members demo_once demo_apart 4 (CopyAssign 0 1) s demo_heap_inv) as [(_ & s' & Hrun & _)|H].
    + split; [by_computing|split; by_computing].
    + by_computing.
    + vm_compute in Hrun. discriminate Hrun.
    + exact H.
Defined.
(** The code would read the member that [release] has deleted. *)
Example assign_from_member : run_op demo_members 4 (CopyAssign 0 1) (after demo_ops) = UB.
Proof. by vm_compute. Qed.
(** Two nodes that hold each other stay when their variables go. *)
Example cycle_stays :
  let s := after [New 7; New 8; Construct 0 7; Construct 3 8; CopyAssign 1 3; CopyAssign 2 0; Destroy 0; Destroy 3] in
  deleted s = [] ∧ handles s !! 0%nat = None ∧ handles s !! 3%nat = None.
Proof. by vm_compute. Qed.
End SharedPtr.
