(* ===== verification/SpinLock.v ===== *)
(** The spin locks of atomic_lock/spinlock.h and timer/spinlock.h.

    Any number of threads call [spinlock_lock], [spinlock_trylock] and
    [spinlock_unlock]; each atomic access to the lock word is one step, and the
    steps of the threads are interleaved in any way.  The header has a version
    with the [__sync] built-ins, which is also timer/spinlock.h, and one with C11
    atomics, which spins on a plain load.  Both implement the same mutex. *)
From stdpp Require Import gmap.
From S2P Require Import Prelude.

Module SpinLock.

(** ** The mutex that a spin lock promises to be *)

Inductive event := Acquired (i : nat) | Refused (i : nat) | Released (i : nat).
(** The owner after an event, if the event may happen: [spinlock_trylock]
    refuses only when somebody holds the lock. *)
Definition mutex (owner : option nat) (e : event) : option (option nat) :=
  match e, owner with
  | Acquired i, None => Some (Some i)
  | Refused _, Some _ => Some owner
  | Released i, Some j => if decide (i = j) then Some None else None
  | _, _ => None
  end.
Definition mutex_trace (es : list event) : option (option nat) :=
  foldl (λ o e, o ≫= λ owner, mutex owner e) (Some None) es.

(** ** The accesses of the threads *)

(** Where a thread is: outside; before the exchange or in the loop of
    [spinlock_lock]; before the load or the exchange of [spinlock_trylock];
    after a lock that it got. *)
Inductive place := Outside | Exchanging | Spinning | TryLoading | TryExchanging | Holding.
#[global] Instance place_eq_dec : EqDecision place. Proof. solve_decision. Defined.

(** What an access leaves: the word, the place, and whether the call returned
    with the lock, without it, or gave it back. *)
Record access := Access { word : Z; place_of : place; answer : option (nat → event) }.

(** [atomic_test_and_set_] and [__sync_lock_test_and_set] with 1. *)
Definition test_and_set (w : Z) : Z * Z := (w, 1).

(** An implementation: where its calls begin, and what an access does. *)
Class spin := Spin {
  spinlock_init : Z;
  lock_entry : place;
  trylock_entry : place;
  spinlock_lock : place → Z → option access;
  spinlock_trylock : place → Z → option access;
  spinlock_unlock : Z → Z;
}.

(** *** The [__sync] built-ins *)

Definition sync_init : Z := 0.
Definition sync_lock (p : place) (w : Z) : option access :=
  match p with
  | Exchanging =>
      let '(old, w) := test_and_set w in
      Some (if decide (old ≠ 0) then Access w Exchanging None else Access w Holding (Some Acquired))
  | _ => None
  end.
Definition sync_trylock (p : place) (w : Z) : option access :=
  match p with
  | TryExchanging =>
      let '(old, w) := test_and_set w in
      Some (if decide (old = 0) then Access w Holding (Some Acquired) else Access w Outside (Some Refused))
  | _ => None
  end.
Definition sync_unlock (w : Z) : Z := 0.
#[global] Instance sync_spin : spin := Spin sync_init Exchanging TryExchanging sync_lock sync_trylock sync_unlock.

(** *** C11 atomics *)

Definition atomic_init : Z := 0.
Definition atomic_lock (p : place) (w : Z) : option access :=
  match p with
  | Exchanging =>
      let '(old, w) := test_and_set w in
      Some (if decide (old = 0) then Access w Holding (Some Acquired) else Access w Spinning None)
  | Spinning => Some (if decide (w ≠ 0) then Access w Spinning None else Access w Exchanging None)
  | _ => None
  end.
Definition atomic_trylock (p : place) (w : Z) : option access :=
  match p with
  | TryLoading => Some (if decide (w = 0) then Access w TryExchanging None else Access w Outside (Some Refused))
  | TryExchanging =>
      let '(old, w) := test_and_set w in
      Some (if decide (old = 0) then Access w Holding (Some Acquired) else Access w Outside (Some Refused))
  | _ => None
  end.
Definition atomic_unlock (w : Z) : Z := 0.
Definition atomic_spin : spin := Spin atomic_init Exchanging TryLoading atomic_lock atomic_trylock atomic_unlock.

(** ** Interleaving *)

Record state := State { lock : Z; places : gmap nat place; events : list event }.
Inductive label := CallLock (i : nat) | CallTry (i : nat) | Run (i : nat) | Unlock (i : nat).

Section interleaved.
Context {A : spin}.

Definition make : state := State spinlock_init ∅ [].
Definition place_at (s : state) (i : nat) : place := default Outside (places s !! i).
(** The next access of a call, of either function. *)
Definition access_at (p : place) (w : Z) : option access :=
  match spinlock_lock p w with Some a => Some a | None => spinlock_trylock p w end.
(** A thread calls [spinlock_unlock] only while it holds the lock. *)
Definition step (l : label) (s : state) : option state :=
  match l with
  | CallLock i => if decide (place_at s i = Outside) then Some (State (lock s) (<[i := lock_entry]> (places s)) (events s)) else None
  | CallTry i => if decide (place_at s i = Outside) then Some (State (lock s) (<[i := trylock_entry]> (places s)) (events s)) else None
  | Run i =>
      a ← access_at (place_at s i) (lock s);
      Some (State (word a) (<[i := place_of a]> (places s)) (events s ++ match answer a with Some e => [e i] | None => [] end))
  | Unlock i => if decide (place_at s i = Holding) then Some (State (spinlock_unlock (lock s)) (<[i := Outside]> (places s)) (events s ++ [Released i])) else None
  end.
Inductive reachable : state → Prop :=
  | reachable_make : reachable make
  | reachable_step l s s' : reachable s → step l s = Some s' → reachable s'.
End interleaved.

(** ** An implementation of the mutex *)

(** Inside a call. *)
Definition waiting {A : spin} (p : place) : Prop := ∀ w, is_Some (access_at p w).
(** What an access of a right implementation may do: it leaves the word alone,
    or takes a free lock, or refuses a lock that is held. *)
Definition access_right (p : place) (w : Z) (a : access) : Prop :=
  p ≠ Holding ∧
  match answer a with
  | None => place_of a ≠ Holding ∧ word a = w
  | Some e => e = Acquired ∧ w = 0 ∧ word a = 1 ∧ place_of a = Holding ∨ e = Refused ∧ w = 1 ∧ word a = 1 ∧ place_of a = Outside
  end.
Class spin_ok (A : spin) := {
  init_free : spinlock_init = 0;
  unlock_frees w : spinlock_unlock w = 0;
  lock_waits : lock_entry ≠ Holding;
  trylock_waits : trylock_entry ≠ Holding;
  lock_right p w a : w = 0 ∨ w = 1 → spinlock_lock p w = Some a → access_right p w a;
  trylock_right p w a : w = 0 ∨ w = 1 → spinlock_trylock p w = Some a → access_right p w a;
  (** A call that has not returned has another access to make. *)
  lock_begins : waiting lock_entry;
  trylock_begins : waiting trylock_entry;
  access_goes_on p w a : access_at p w = Some a → answer a = None → waiting (place_of a);
}.
#[global] Instance sync_ok : spin_ok sync_spin.
Proof.
  split; try done; cbn.
  - intros p w a Hw Ha. destruct p; try done. cbn in Ha. destruct (decide (w ≠ 0)); injection Ha as <-; split; cbn; try done; naive_solver lia.
  - intros p w a Hw Ha. destruct p; try done. cbn in Ha. destruct (decide (w = 0)); injection Ha as <-; split; cbn; try done; naive_solver lia.
  - intros w. by eexists.
  - intros w. by eexists.
  - intros p w a Ha. unfold access_at in Ha. cbn in Ha. unfold sync_lock, sync_trylock, test_and_set in Ha. destruct p; try done.
    all: case_decide; simplify_eq; cbn; intros Hn; (discriminate Hn) || (intros w'; by eexists).
Qed.
#[global] Instance atomic_ok : spin_ok atomic_spin.
Proof.
  split; try done; cbn.
  - intros p w a Hw Ha. destruct p; try done; cbn in Ha.
    + destruct (decide (w = 0)); injection Ha as <-; split; cbn; try done; naive_solver lia.
    + destruct (decide (w ≠ 0)); injection Ha as <-; by split.
  - intros p w a Hw Ha. destruct p; try done; cbn in Ha; destruct (decide (w = 0)); injection Ha as <-; split; cbn; try done; naive_solver lia.
  - intros w. by eexists.
  - intros w. by eexists.
  - intros p w a Ha. unfold access_at in Ha. cbn in Ha. unfold atomic_lock, atomic_trylock, test_and_set in Ha. destruct p; try done.
    all: case_decide; simplify_eq; cbn; intros Hn; (discriminate Hn) || (intros w'; by eexists).
Qed.

Section right.
Context {A : spin} {Aok : spin_ok A}.

Record inv (s : state) (owner : option nat) : Prop := {
  inv_word : lock s = match owner with None => 0 | Some _ => 1 end;
  inv_trace : mutex_trace (events s) = Some owner;
  inv_holding : ∀ i, place_at s i = Holding ↔ owner = Some i;
  inv_waiting : ∀ i, place_at s i = Outside ∨ place_at s i = Holding ∨ waiting (place_at s i);
}.
Lemma place_insert w es m i j p : place_at (State w (<[i := p]> m) es) j = if decide (i = j) then p else default Outside (m !! j).
Proof. unfold place_at. cbn. destruct (decide (i = j)) as [->|]; [by rewrite lookup_insert_eq|by rewrite lookup_insert_ne]. Qed.
Lemma trace_snoc es e : mutex_trace (es ++ [e]) = mutex_trace es ≫= λ o, mutex o e.
Proof. unfold mutex_trace. by rewrite foldl_app. Qed.

Lemma waiting_insert s w es i p : (∀ j, place_at s j = Outside ∨ place_at s j = Holding ∨ waiting (place_at s j)) →
  p = Outside ∨ p = Holding ∨ waiting p → let s' := State w (<[i := p]> (places s)) es in
  ∀ j, place_at s' j = Outside ∨ place_at s' j = Holding ∨ waiting (place_at s' j).
Proof. intros Hs Hp s' j. unfold s'. rewrite place_insert. case_decide as Hij; [done|apply Hs]. Qed.

Lemma call_inv s owner i p : inv s owner → place_at s i = Outside → p ≠ Holding → waiting p →
  inv (State (lock s) (<[i := p]> (places s)) (events s)) owner.
Proof.
  intros [Hw Ht Hh Hg] Hi Hp Hwait. split; cbn; [done|done| |by apply waiting_insert; auto].
  intros j. rewrite place_insert. case_decide as Hij; [subst j|apply Hh]. rewrite <-Hh, Hi. split; congruence.
Qed.
Lemma access_inv s owner i a : inv s owner → access_right (place_at s i) (lock s) a → (answer a = None → waiting (place_of a)) →
  ∃ owner', inv (State (word a) (<[i := place_of a]> (places s)) (events s ++ match answer a with Some e => [e i] | None => [] end)) owner'.
Proof.
  intros [Hw Ht Hh Hg] [Hp Ha] Hon. assert (owner ≠ Some i) as Hni by (by rewrite <-Hh). destruct (answer a) as [e|].
  - destruct Ha as [(-> & Hl & Hwa & Hpa)|(-> & Hl & Hwa & Hpa)]; rewrite Hw in Hl; destruct owner as [k|]; try done.
    + exists (Some i). split; cbn; [done|by rewrite trace_snoc, Ht| |by apply waiting_insert; auto]. intros j. rewrite place_insert. case_decide as Hij; [by subst j|].
      change (place_at s j = Holding ↔ Some i = Some j). rewrite Hh. naive_solver.
    + exists (Some k). split; cbn; [done|by rewrite trace_snoc, Ht| |by apply waiting_insert; auto].
      intros j. rewrite place_insert. case_decide as Hij; [subst j|apply Hh]. rewrite Hpa. split; congruence.
  - destruct Ha as [Hpa ->]. exists owner. rewrite app_nil_r. split; cbn; [done|done| |by apply waiting_insert; auto].
    intros j. rewrite place_insert. case_decide as Hij; [by subst j|apply Hh].
Qed.
Lemma spin_step l s s' owner : inv s owner → step l s = Some s' → ∃ owner', inv s' owner'.
Proof.
  intros Hinv Hs. assert (lock s = 0 ∨ lock s = 1) as Hb by (rewrite (inv_word _ _ Hinv); destruct owner; auto).
  destruct l as [i|i|i|i]; cbn in Hs.
  - case_decide as Hi; [|done]. injection Hs as <-. exists owner. apply call_inv; [done|done|apply lock_waits|apply lock_begins].
  - case_decide as Hi; [|done]. injection Hs as <-. exists owner. apply call_inv; [done|done|apply trylock_waits|apply trylock_begins].
  - apply bind_Some in Hs as (a & Ha & [= <-]). apply (access_inv s owner i a Hinv); [|by eapply access_goes_on]. unfold access_at in Ha.
    destruct (spinlock_lock (place_at s i) (lock s)) as [a'|] eqn:He; [injection Ha as ->; by apply lock_right|by apply trylock_right].
  - case_decide as Hi; [|done]. injection Hs as <-. destruct Hinv as [Hw Ht Hh Hg]. apply Hh in Hi as ->.
    exists None. split; cbn; [apply unlock_frees| | |by apply waiting_insert; auto].
    + rewrite trace_snoc, Ht. cbn. by rewrite decide_True.
    + intros j. rewrite place_insert. case_decide as Hij; [done|]. change (place_at s j = Holding ↔ None = Some j). rewrite Hh. naive_solver.
Qed.
Lemma spin_inv s : reachable s → ∃ owner, inv s owner.
Proof.
  induction 1 as [|l s s' _ [owner IH] Hs]; [|by eapply spin_step].
  assert (∀ i, place_at make i = Outside) as Ho by (intros i; unfold place_at, make; cbn; by rewrite lookup_empty).
  exists None. split; cbn; [apply init_free|done| |]; intros i; rewrite Ho; [done|by left].
Qed.
End right.

(** On a free lock a call has the lock after at most two accesses. *)
Lemma free_lock_taken (A : spin) p : A = sync_spin ∨ A = atomic_spin → waiting p →
  ∃ a, access_at p 0 = Some a ∧ (place_of a = Holding ∨ word a = 0 ∧ ∃ a', access_at (place_of a) 0 = Some a' ∧ place_of a' = Holding).
Proof.
  intros [->| ->] Hp; specialize (Hp 0) as [a Ha]; exists a; split; try done; unfold access_at in *; cbn in Ha; destruct p; cbn in Ha; try done;
    injection Ha as <-; (by left) || (right; split; [done|]; by eexists).
Qed.

(** C8: Both spin locks of the header, the one with the [__sync] built-ins and the
    one with C11 atomics, are mutexes, however the accesses of the threads are
    interleaved: the calls return in an order in which a mutex could have
    answered them, [spinlock_trylock] refusing only while the lock is held; at
    most one thread is inside, and exactly when the word is set; and when the
    lock is free, a thread in [spinlock_lock] or [spinlock_trylock] gets it with
    its next two accesses, if nobody else moves. *)
Theorem spin_is_mutex (A : spin) s : A = sync_spin ∨ A = atomic_spin → @reachable A s →
  (∃ owner, mutex_trace (events s) = Some owner ∧ (∀ i, place_at s i = Holding ↔ owner = Some i) ∧ lock s = (if owner then 1 else 0)) ∧
  (lock s = 0 → ∀ i, place_at s i ≠ Outside →
     ∃ s', step (Run i) s = Some s' ∧ (place_at s' i = Holding ∨ ∃ s'', step (Run i) s' = Some s'' ∧ place_at s'' i = Holding)).
Proof.
  intros HA Hr. assert (spin_ok A) as Hok by (destruct HA as [->| ->]; [apply sync_ok|apply atomic_ok]).
  destruct (spin_inv s Hr) as [owner [Hw Ht Hh Hg]]. split; [exists owner; split; [done|split; [done|by destruct owner]]|].
  intros Hfree i Hin. assert (waiting (place_at s i)) as Hwait.
  { destruct (Hg i) as [?|[Hhold|?]]; [done| |done]. apply Hh in Hhold. by rewrite Hw, Hhold in Hfree. }
  destruct (free_lock_taken A _ HA Hwait) as (a & Ha & Hor). unfold step at 1. rewrite Hfree, Ha. eexists. split; [done|].
  rewrite place_insert, decide_True by done. destruct Hor as [|(Hwa & a' & Ha' & Hp)]; [by left|]. right. unfold step. rewrite place_insert, decide_True by done. cbn [lock].
  rewrite Hwa, Ha'. eexists. split; [done|]. by rewrite place_insert, decide_True.
Qed.

(** ** A run of two threads *)

Definition demo_labels : list label := [CallLock 1; Run 1; CallLock 2; Run 2; CallTry 3; Run 3; Unlock 1; Run 2].
Fixpoint run {A : spin} (ls : list label) (s : state) : state :=
  match ls with [] => s | l :: ls => run ls (default s (step l s)) end.
Lemma spin_run {A : spin} ls s : reachable s → reachable (run ls s).
Proof.
  revert s. induction ls as [|l ls IH]; intros s Hs; [done|]. cbn. apply IH. destruct (step l s) as [s'|] eqn:He; [by eapply reachable_step|done].
Qed.
Definition demo_state (A : spin) : state := @run A demo_labels (@make A).
Definition demo_free (A : spin) : state := @run A [CallLock 1; Run 1; CallLock 2; Run 2; CallTry 3; Run 3; Unlock 1] (@make A).
Lemma spin_is_mutex_witness :
  (events (demo_state atomic_spin) = [Acquired 1; Refused 3; Released 1] ∧ mutex_trace (events (demo_state atomic_spin)) = Some None ∧
   ∃ s', @step atomic_spin (Run 2) (demo_state atomic_spin) = Some s' ∧ place_at s' 2 = Holding) ∧
  (events (demo_free sync_spin) = [Acquired 1; Refused 3; Released 1] ∧
   ∃ s', @step sync_spin (Run 2) (demo_free sync_spin) = Some s' ∧ place_at s' 2 = Holding).
Proof.
  split.
  - split; [by vm_compute|].
    destruct (spin_is_mutex atomic_spin (demo_state atomic_spin) (or_intror eq_refl) (spin_run _ _ reachable_make)) as [(owner & Ht & _ & Hw) Hgets].
    split; [rewrite Ht; by destruct owner|]. destruct (Hgets eq_refl 2%nat ltac:(vm_compute; discriminate)) as (s' & Hs & Hor).
    exists s'. split; [done|]. destruct Hor as [|(s'' & Hs' & _)]; [done|]. vm_compute in Hs. injection Hs as <-. by vm_compute.
  - split; [by vm_compute|].
    destruct (spin_is_mutex sync_spin (demo_free sync_spin) (or_introl eq_refl) (spin_run _ _ reachable_make)) as [_ Hgets].
    destruct (Hgets eq_refl 2%nat ltac:(vm_compute; discriminate)) as (s' & Hs & Hor).
    exists s'. split; [done|]. destruct Hor as [|(s'' & Hs' & _)]; [done|]. vm_compute in Hs. injection Hs as <-. by vm_compute.
Defined.
Example sync_run : events (@run sync_spin demo_labels (@make sync_spin)) = [Acquired 1; Refused 3; Released 1; Acquired 2].
Proof. by vm_compute. Qed.

End SpinLock.

