(* ===== verification/ConnPool.v ===== *)
(** The connection pool over the cppconn driver: src/mysqlconnpool (MySQLConn,
    MySQLWorker, SQLOperation, MySQLConnPool, QueryCallback, AsyncProcessor).

    The driver is a parameter: its calls change its state [M] and answer, or
    throw an [sql::SQLException] with an error code.  [conn_] is [None] before
    its first assignment, which the constructor does not make. *)
From stdpp Require Import gmap.
From S2P Require Import Prelude Bytes Except Tokenize TaskQueue BlockingQueue.

Module ConnPool.
Import Tokenize.

(** ** The driver *)

(** A call answers or throws the code. *)
Abbreviation thrown := (option Z).
Class cppconn (M : Type) := {
  (** The connection, or a null pointer. *)
  connect : bytes → bytes → bytes → M → (option nat + Z) * M;
  setSchema : nat → bytes → M → thrown * M;
  close_connection : nat → M → thrown * M;
  delete_connection : nat → M → M;
  createStatement : nat → M → (nat + Z) * M;
  (** The result set. *)
  executeQuery : nat → bytes → M → (nat + Z) * M;
}.

Section pool.
Context {M : Type} {api : cppconn M}.

(** ** A connection *)

Record MySQLConn := Conn { info_ : MySQLConnInfo; conn_ : option (option nat) }.
Record conn_state := ConnState { the_conn : MySQLConn; driver : M }.
Definition set_conn (c : option nat) (s : conn_state) : conn_state := ConnState (Conn (info_ (the_conn s)) (Some c)) (driver s).
Definition driver_call {A} (f : M → A * M) : comp conn_state A :=
  call (λ s, ((f (driver s)).1, ConnState (the_conn s) (f (driver s)).2)).
Definition read_conn : comp conn_state (option nat) := getO (λ s, conn_ (the_conn s)).

(** What [close] throws is not caught: [Close] is only called in a handler. *)
Definition Close : comp conn_state unit :=
  c ← read_conn;
  match c with
  | None => mret ()
  | Some c =>
      e ← driver_call (close_connection c);
      match e with
      | Some _ => throw
      | None => driver_call (λ m, ((), delete_connection c m));; modify (set_conn None)
      end
  end.
Definition lost (e : Z) : bool := (e =? 2006) || (e =? 2013).
(** [HandlerException] over the [Open] that it calls. *)
Definition HandlerException (Open : comp conn_state Z) (e : Z) : comp conn_state unit :=
  if lost e then Close;; Open;; mret () else mret ().
Fixpoint Open (fuel : nat) : comp conn_state Z :=
  match fuel with
  | O => no_fuel
  | S fuel =>
      let caught (e : Z) : comp conn_state Z := HandlerException (Open fuel) e;; mret e in
      info ← get (λ s, info_ (the_conn s));
      r ← driver_call (connect (c_url info) (c_user info) (c_password info));
      match r with
      | inr e => caught e
      | inl c =>
          modify (set_conn c);;
          match c with
          | None => mret (-1)
          | Some c =>
              e ← driver_call (setSchema c (c_database info));
              match e with Some e => caught e | None => mret 0 end
          end
      end
  end.
(** A call through a null [conn_] is undefined. *)
Definition Query (fuel : nat) (sql : bytes) : comp conn_state (option nat) :=
  let caught (e : Z) : comp conn_state (option nat) := HandlerException (Open fuel) e;; mret None in
  c ← read_conn;
  match c with
  | None => ub
  | Some c =>
      r ← driver_call (createStatement c);
      match r with
      | inr e => caught e
      | inl stmt =>
          q ← driver_call (executeQuery stmt sql);
          match q with inr e => caught e | inl result => mret (Some result) end
      end
  end.
(** The destructor, after the worker has stopped. *)
Definition destroy_conn : comp conn_state unit :=
  c ← read_conn;
  match c with None => mret () | Some c => driver_call (λ m, ((), delete_connection c m)) end.

(** ** The pool and its workers *)

(** A promise is a number; [promises] holds what was set. *)
Record SQLOperation := Operation { sql_ : bytes; promise_ : nat }.
(** [task_queue_] is [None] while it is not initialised. *)
Record MySQLConnPool := Pool {
  database_ : bytes;
  pool_ : list MySQLConn;
  task_queue_ : option (BlockingQueue.BlockingQueue SQLOperation);
  promises : gmap nat (option nat);
  next_promise : nat;
  outside : M;
}.
Definition with_pool l p := Pool (database_ p) l (task_queue_ p) (promises p) (next_promise p) (outside p).
Definition with_queue q p := Pool (database_ p) (pool_ p) q (promises p) (next_promise p) (outside p).
Definition with_promises m n p := Pool (database_ p) (pool_ p) (task_queue_ p) m n (outside p).
Definition with_outside m p := Pool (database_ p) (pool_ p) (task_queue_ p) (promises p) (next_promise p) m.

(** A method of the i-th connection. *)
Definition on_conn {A} (i : nat) (m : comp conn_state A) : comp MySQLConnPool A :=
  c ← getO (λ p, pool_ p !! i);
  part (λ p, ConnState c (outside p)) (λ s p, with_outside (driver s) (with_pool (<[i := the_conn s]> (pool_ p)) p)) m.

(** [promise_.set_value]: a second value would throw. *)
Definition set_value (pr : nat) (r : option nat) : comp MySQLConnPool unit :=
  old ← get (λ p, promises p !! pr);
  match old with
  | Some _ => throw
  | None => modify (λ p, with_promises (<[pr := r]> (promises p)) (next_promise p) p)
  end.
Definition Execute (fuel i : nat) (op : SQLOperation) : comp MySQLConnPool unit :=
  result ← on_conn i (Query fuel (sql_ op));
  set_value (promise_ op) result.

(** What leaves the function of a thread ends the process. *)
Definition thread_function {S A} (m : comp S A) : comp S A := λ s,
  match m s with Throws s' => Aborts s' | e => e end.
Inductive worker_end := Exited | Waiting.
(** [Worker] of the i-th connection, until it leaves or waits; no operation in
    the queue is null. *)
Fixpoint worker_loop (n fuel i : nat) : comp MySQLConnPool worker_end :=
  match n with
  | O => no_fuel
  | S n =>
      q ← getO task_queue_;
      let '(r, q) := BlockingQueue.Pop q in
      match r with
      | Blocks => mret Waiting
      | Refused => mret Exited
      | Taken op => modify (with_queue (Some q));; Execute fuel i op;; worker_loop n fuel i
      end
  end.
Definition Worker (n fuel i : nat) : comp MySQLConnPool worker_end := thread_function (worker_loop n fuel i).

(** [MySQLConn]'s constructor; the worker that it starts waits, because nothing
    is in the queue before [InitPool] has returned. *)
Definition construct (url db : bytes) : comp MySQLConnPool nat :=
  info ← getO (λ _, MySQLConnInfo_construct url db);
  i ← get (λ p, length (pool_ p));
  modify (λ p, with_pool (pool_ p ++ [Conn info None]) p);;
  mret i.
(** [i] is unsigned, and [pool_size] is converted. *)
Fixpoint init_loop (n fuel : nat) (url : bytes) (i pool_size : Z) : comp MySQLConnPool unit :=
  match n with
  | O => no_fuel
  | S n =>
      if decide (i < u64 pool_size) then
        db ← get database_;
        j ← construct url db;
        on_conn j (Open fuel);;
        init_loop n fuel url (u64 (i + 1)) pool_size
      else mret ()
  end.
Definition InitPool (n fuel : nat) (url : bytes) (pool_size : Z) : comp MySQLConnPool unit :=
  modify (with_queue (Some (BlockingQueue.make false)));;
  init_loop n fuel url 0 pool_size.

(** ~MySQLConnPool: every worker is joined before its connection goes. *)
Fixpoint delete_conns (n fuel : nat) (js : list nat) : comp MySQLConnPool unit :=
  match js with
  | [] => mret ()
  | i :: js =>
      e ← Worker n fuel i;
      match e with Waiting => no_fuel | Exited => mret () end;;
      on_conn i destroy_conn;;
      delete_conns n fuel js
  end.
Definition destroy_pool (n fuel : nat) : comp MySQLConnPool unit :=
  q ← getO task_queue_;
  modify (with_queue (Some (BlockingQueue.Cancel q)));;
  l ← get pool_;
  delete_conns n fuel (seq 0 (length l));;
  modify (with_queue None);;
  modify (with_pool []).

(** GetInstance, over the map of the pools. *)
Record registry := Registry { instances_ : gmap bytes nat; pools : list MySQLConnPool }.
Definition GetInstance (db : bytes) (m : M) (r : registry) : nat * registry :=
  match instances_ r !! db with
  | Some i => (i, r)
  | None => (length (pools r), Registry (<[db := length (pools r)]> (instances_ r)) (pools r ++ [Pool db [] None ∅ 0 m]))
  end.

(** ** Callbacks *)

Context {E C : Type} (grow : nat → nat).

(** A callback is a name [C]; [program] says what it does with a result: effects
    of its own, and new queries for the processor that called it, with any
    callback, itself too. *)
Record query := QueryCallback { future_ : nat; cb_ : C }.
Inductive action := Emit (e : E) | Add (q : query).
Context (program : C → option nat → list action).

(** MySQLConnPool::Query. *)
Definition pool_Query (sql : bytes) (cb : C) : comp MySQLConnPool query :=
  pr ← get next_promise;
  modify (λ p, with_promises (promises p) (S pr) p);;
  q ← getO task_queue_;
  modify (with_queue (Some (BlockingQueue.Push (Operation sql pr) q)));;
  mret (QueryCallback pr cb).

(** The vector: its storage changes when an element is added beyond the
    capacity. *)
Record AsyncProcessor := Processor {
  pending_queries_ : list query;
  capacity : nat;
  storage : nat;
  log : list E;
}.
Definition with_pending l s := Processor l (capacity s) (storage s) (log s).
Definition AddQueryCallback (q : query) (s : AsyncProcessor) : AsyncProcessor :=
  if decide (length (pending_queries_ s) < capacity s)%nat then with_pending (pending_queries_ s ++ [q]) s
  else Processor (pending_queries_ s ++ [q]) (S (length (pending_queries_ s)) `max` grow (capacity s)) (S (storage s)) (log s).
Definition perform (a : action) (s : AsyncProcessor) : AsyncProcessor :=
  match a with
  | Emit e => Processor (pending_queries_ s) (capacity s) (storage s) (log s ++ [e])
  | Add q => AddQueryCallback q s
  end.
(** QueryCallback::InvokeIfReady, with what is known of the promises. *)
Definition invoke (results : gmap nat (option nat)) (q : query) : comp AsyncProcessor bool :=
  match results !! future_ q with
  | Some r => modify (λ s, foldl (λ s a, perform a s) s (program (cb_ q) r));; mret true
  | None => mret false
  end.
(** AsyncProcessor::InvokeIfReady: [it] is the i-th element of the storage the
    round began with; it is dangling once the storage has changed. *)
Fixpoint round (results : gmap nat (option nat)) (n i : nat) : comp AsyncProcessor unit :=
  match n with
  | O => no_fuel
  | S n =>
      l ← get pending_queries_;
      match l !! i with
      | None => mret ()
      | Some q =>
          it ← get storage;
          done ← invoke results q;
          getO (λ s, if decide (storage s = it) then Some () else None);;
          if done : bool then
            modify (λ s, with_pending (take i (pending_queries_ s) ++ drop (S i) (pending_queries_ s)) s);;
            round results n i
          else round results n (S i)
      end
  end.
Definition InvokeIfReady (results : gmap nat (option nat)) (n : nat) : comp AsyncProcessor unit := round results n 0.

(** ** Connections *)

(** One attempt of [Open]: its code, and what it assigns to [conn_]. *)
Definition attempt (info : MySQLConnInfo) (m : M) : Z * option (option nat) * M :=
  let (r, m) := connect (c_url info) (c_user info) (c_password info) m in
  match r with
  | inr e => (e, None, m)
  | inl None => (-1, Some None, m)
  | inl (Some c) =>
      let (e, m) := setSchema c (c_database info) m in
      (default 0 e, Some (Some c), m)
  end.
(** [Close] when [close] does not throw. *)
Definition closing (c : option nat) (m : M) : option M :=
  match c with
  | None => Some m
  | Some c => let (e, m) := close_connection c m in match e with None => Some (delete_connection c m) | Some _ => None end
  end.
(** The attempts of [Open]: their codes, and where they end. *)
Inductive opening (info : MySQLConnInfo) : option nat → M → list Z → option nat → M → Prop :=
  | opening_last c m e a m' : attempt info m = (e, a, m') → lost e = false → opening info c m [e] (default c a) m'
  | opening_again c m e a m1 m2 es c' m' :
      attempt info m = (e, a, m1) → lost e = true → closing (default c a) m1 = Some m2 →
      opening info None m2 es c' m' → opening info c m (e :: es) c' m'.

Lemma driver_bind {A B} (f : M → A * M) (g : A → comp conn_state B) s :
  (driver_call f ≫= g) s = g (f (driver s)).1 (ConnState (the_conn s) (f (driver s)).2).
Proof. unfold driver_call. by rewrite call_bind. Qed.
Lemma Close_closing info c m m' : closing c m = Some m' →
  Close (ConnState (Conn info (Some c)) m) = Returns () (ConnState (Conn info (Some None)) m').
Proof.
  unfold closing, Close, read_conn. destruct c as [c|]; [|by intros [= <-]]. rewrite (getO_bind _ _ _ (Some c)) by done. rewrite driver_bind. cbn.
  destruct (close_connection c m) as [[e|] m1]; cbn; [done|]. by intros [= <-].
Qed.

(** One turn of [Open]. *)
Lemma Open_attempt fuel info c m e a m' : attempt info m = (e, a, m') → 
  Open (S fuel) (ConnState (Conn info (Some c)) m) =
    (if lost e then (Close;; Open fuel;; mret e) else mret e) (ConnState (Conn info (Some (default c a))) m').
Proof.
  assert (∀ e s, (HandlerException (Open fuel) e;; mret e) s = (if lost e then (Close;; Open fuel;; mret e) else mret e) s) as Hc.
  { intros e0 s. unfold HandlerException. destruct (lost e0); [|done]. unfold mbind, comp_bind, mret, comp_ret. destruct (Close s) as [[] s1|s1|s1| |]; [|done..]. by destruct (Open fuel s1). }
  unfold attempt. cbn [Open]. rewrite get_bind. rewrite driver_bind. cbn [the_conn info_ driver].
  destruct (connect (c_url info) (c_user info) (c_password info) m) as [[[c1|]|e1] m1]; cbn [fst snd].
  - rewrite modify_bind. unfold set_conn. cbn [the_conn info_ driver]. rewrite driver_bind. cbn [the_conn info_ driver].
    destruct (setSchema c1 (c_database info) m1) as [[e1|] m2]; cbn [fst snd]; intros [= <- <- <-]; cbn [default]; [apply Hc|done].
  - intros [= <- <- <-]. done.
  - intros [= <- <- <-]. apply Hc.
Qed.

(** [Open] returns the code of its first attempt, whatever became of the
    connection after it. *)
Lemma Open_opening info c m es c' m' : opening info c m es c' m' → ∀ fuel, (length es ≤ fuel)%nat →
  ∃ e rest, es = e :: rest ∧ Open fuel (ConnState (Conn info (Some c)) m) = Returns e (ConnState (Conn info (Some c')) m').
Proof.
  induction 1 as [c m e a m' Ha Hl|c m e a m1 m2 es c' m' Ha Hl Hc Ho IH]; intros [|fuel] Hf; cbn in Hf; try lia; rewrite (Open_attempt _ _ _ _ _ _ _ Ha), Hl.
  - by eexists e, [].
  - exists e, es. split; [done|]. rewrite (comp_bind_Returns _ _ _ () (ConnState (Conn info (Some None)) m2)) by (by apply Close_closing).
    destruct (IH fuel) as (e' & rest & _ & Hrun); [lia|]. by rewrite (comp_bind_Returns _ _ _ _ _ Hrun).
Qed.

(** What the server does with a statement. *)
Definition run_statement (c : nat) (sql : bytes) (m : M) : (nat + Z) * M :=
  let (r, m) := createStatement c m in
  match r with inr e => (inr e, m) | inl stmt => executeQuery stmt sql m end.

(** On an open connection [Query] runs the statement once and returns its
    result.  After an error it returns null: an error other than a lost
    connection changes nothing; a lost connection is closed and opened again,
    until an attempt fails for another reason or succeeds, and the statement is
    not repeated; what closing throws leaves [Query]. *)
Theorem MySQLConn_Query_spec info c sql m r m1 : run_statement c sql m = (r, m1) →
  let s := ConnState (Conn info (Some (Some c))) m in
  match r with
  | inl result => ∀ fuel, Query fuel sql s = Returns (Some result) (ConnState (Conn info (Some (Some c))) m1)
  | inr e =>
      if lost e then
        match closing (Some c) m1 with
        | None => ∀ fuel, ∃ s', Query fuel sql s = Throws s'
        | Some m2 => ∀ es c' m3, opening info None m2 es c' m3 → ∀ fuel, (length es ≤ fuel)%nat →
            Query fuel sql s = Returns None (ConnState (Conn info (Some c')) m3)
        end
      else ∀ fuel, Query fuel sql s = Returns None (ConnState (Conn info (Some (Some c))) m1)
  end.
Proof.
  intros Hrun. cbn zeta.
  assert (∀ fuel, Query fuel sql (ConnState (Conn info (Some (Some c))) m) =
    match r with inl result => Returns (Some result) | inr e => HandlerException (Open fuel) e;; mret None end (ConnState (Conn info (Some (Some c))) m1)) as HQ.
  { intros fuel. revert Hrun. unfold run_statement, Query, read_conn. rewrite (getO_bind _ _ _ (Some c)) by done. rewrite driver_bind. cbn [driver the_conn].
    destruct (createStatement c m) as [[stmt|e1] m2]; cbn [fst snd]; [|by intros [= <- <-]]. rewrite driver_bind. cbn [driver the_conn].
    destruct (executeQuery stmt sql m2) as [[res|e1] m3]; cbn [fst snd]; by intros [= <- <-]. }
  destruct r as [result|e]; [exact HQ|]. unfold HandlerException in HQ. destruct (lost e); [|exact HQ].
  destruct (closing (Some c) m1) as [m2|] eqn:Hc.
  - intros es c' m3 Ho fuel Hf. rewrite HQ. destruct (Open_opening _ _ _ _ _ _ Ho fuel Hf) as (e1 & rest & _ & Hrun1).
    erewrite comp_bind_Returns; [done|]. rewrite (comp_bind_Returns _ _ _ _ _ (Close_closing _ _ _ _ Hc)). by rewrite (comp_bind_Returns _ _ _ _ _ Hrun1).
  - intros fuel. rewrite HQ. unfold closing in Hc. unfold Close, read_conn, mbind, comp_bind, getO, driver_call, call. cbn.
    destruct (close_connection c m1) as [[e1|] m2]; [|done]. cbn. by eexists.
Qed.
(** A connection that could not be made again: the next query goes through a
    null pointer. *)
Lemma Query_closed fuel sql info m : Query fuel sql (ConnState (Conn info (Some None)) m) = UB.
Proof. done. Qed.

(** ** A round of the processor *)

Definition emits (l : list action) : list E := omap (λ a, match a with Emit e => Some e | Add _ => None end) l.
Definition adds (l : list action) : list query := omap (λ a, match a with Emit _ => None | Add q => Some q end) l.
(** The queries whose results are there, and what their callbacks do. *)
Definition ready (results : gmap nat (option nat)) (q : query) : Prop := is_Some (results !! future_ q).
#[local] Instance ready_dec results q : Decision (ready results q).
Proof. unfold ready. apply _. Defined.
Definition reaction (results : gmap nat (option nat)) (q : query) : option (list action) := program (cb_ q) <$> results !! future_ q.
(** The vector has room for what the callbacks add, one after the other, each
    query being erased after its callback. *)
Fixpoint has_room (cap len : nat) (l : list (list action)) : Prop :=
  match l with
  | [] => True
  | a :: l => (len + length (adds a) ≤ cap)%nat ∧ has_room cap (len + length (adds a) - 1) l
  end.
#[local] Instance has_room_dec cap len l : Decision (has_room cap len l).
Proof. revert len. induction l; intros len; cbn; apply _. Defined.

Lemma perform_storage l : ∀ s, (storage s ≤ storage (foldl (λ s a, perform a s) s l))%nat.
Proof.
  induction l as [|a l IH]; intros s; cbn; [lia|]. etrans; [|apply IH]. destruct a; cbn; [lia|]. unfold AddQueryCallback. case_decide; cbn; lia.
Qed.
Lemma perform_all l : ∀ s, (length (pending_queries_ s) ≤ capacity s)%nat →
  let s' := foldl (λ s a, perform a s) s l in
  if decide (length (pending_queries_ s) + length (adds l) ≤ capacity s)%nat
  then s' = Processor (pending_queries_ s ++ adds l) (capacity s) (storage s) (log s ++ emits l) else (storage s < storage s')%nat.
Proof.
  induction l as [|a l IH]; intros s Hs; cbn [foldl].
  - cbn. rewrite decide_True by lia. rewrite !app_nil_r. by destruct s.
  - destruct a as [e|q]; cbn [perform].
    + specialize (IH (Processor (pending_queries_ s) (capacity s) (storage s) (log s ++ [e])) Hs). cbn in IH.
      change (adds (Emit e :: l)) with (adds l). change (emits (Emit e :: l)) with (e :: emits l).
      case_decide; [|exact IH]. etrans; [exact IH|]. by rewrite <-app_assoc.
    + unfold AddQueryCallback. change (adds (Add q :: l)) with (q :: adds l). change (emits (Add q :: l)) with (emits l). cbn [length].
      destruct (decide (length (pending_queries_ s) < capacity s)%nat) as [Hlt|Hge].
      * specialize (IH (with_pending (pending_queries_ s ++ [q]) s)). cbn in IH. rewrite length_app in IH. cbn in IH.
        specialize (IH ltac:(lia)). destruct (decide (length (pending_queries_ s) + S (length (adds l)) ≤ capacity s)%nat) as [Hd|Hd].
        -- rewrite decide_True in IH by lia. etrans; [exact IH|]. by rewrite <-app_assoc.
        -- rewrite decide_False in IH by lia. exact IH.
      * rewrite decide_False by lia. eapply Nat.lt_le_trans; [|apply perform_storage]. cbn. lia.
Qed.

(** Queries without result are passed. *)
Lemma round_waiting results l : ∀ n kept s, pending_queries_ s = kept ++ l → (length l < n)%nat → (∀ q, q ∈ l → ¬ ready results q) →
  round results n (length kept) s = Returns () s.
Proof.
  induction l as [|q l IH]; intros [|n] kept s Hs Hn Hl; cbn in Hn; try lia; cbn [round]; rewrite get_bind.
  - rewrite app_nil_r in Hs. by rewrite Hs, lookup_ge_None_2 by lia.
  - rewrite Hs, list_lookup_middle by done. rewrite get_bind. unfold invoke.
    destruct (results !! future_ q) as [r|] eqn:Hr; [destruct (Hl q ltac:(by left)); by exists r|].
    rewrite (comp_bind_Returns _ _ _ false s) by done. rewrite (getO_bind _ _ _ ()) by (by rewrite decide_True). cbv beta iota.
    pose proof (IH n (kept ++ [q]) s) as Hrec. rewrite length_app in Hrec. cbn [length] in Hrec. rewrite Nat.add_1_r in Hrec.
    apply Hrec; [by rewrite Hs, <-app_assoc|lia|]. intros q' Hq'. apply Hl. by right.
Qed.

(** A round from the queries [rest] on: [new] was added in this round.  The
    callbacks of the ready queries are invoked in order, each once on its result,
    and leave; the others stay.  The round is undefined when the callbacks add
    more than the vector has room for. *)
Lemma round_run results rest : ∀ n kept new s,
  pending_queries_ s = kept ++ rest ++ new → (length (pending_queries_ s) ≤ capacity s)%nat →
  (length rest + length new + length (concat (adds <$> omap (reaction results) rest)) < n)%nat →
  (∀ q, q ∈ new ++ concat (adds <$> omap (reaction results) rest) → ¬ ready results q) →
  round results n (length kept) s =
    if decide (has_room (capacity s) (length (pending_queries_ s)) (omap (reaction results) rest)) then
      Returns () (Processor (kept ++ filter (λ q, ¬ ready results q) rest ++ new ++ concat (adds <$> omap (reaction results) rest))
        (capacity s) (storage s) (log s ++ concat (emits <$> omap (reaction results) rest)))
    else UB.
Proof.
  induction rest as [|q rest IH]; intros n kept new s Hs Hcap Hn Hnew.
  { cbn [omap list_omap fmap list_fmap concat has_room app length] in *. rewrite decide_True by done. rewrite !app_nil_r in *.
    rewrite (round_waiting results new) by (first [exact Hs|lia|exact Hnew]). change (filter (λ q, ¬ ready results q) []) with (@nil query). cbn [app]. rewrite <-Hs. by destruct s. }
  destruct n as [|n]; [lia|]. cbn [round]. rewrite get_bind.
  assert (pending_queries_ s !! length kept = Some q) as -> by (rewrite Hs; by apply list_lookup_middle). rewrite get_bind.
  assert (omap (reaction results) (q :: rest) = match results !! future_ q with Some r => program (cb_ q) r :: omap (reaction results) rest | None => omap (reaction results) rest end) as Hom.
  { cbn [omap list_omap]. unfold reaction at 1. by destruct (results !! future_ q). }
  unfold invoke. rewrite Hom in Hn, Hnew |- *. clear Hom. destruct (results !! future_ q) as [r|] eqn:Hr.
  - set (acts := program (cb_ q) r) in *. cbn [fmap list_fmap concat] in Hn, Hnew. cbn [has_room fmap list_fmap concat]. rewrite length_app in Hn.
    set (s1 := foldl (λ s a, perform a s) s acts).
    rewrite (comp_bind_Returns _ _ _ true s1) by done. pose proof (perform_all acts s Hcap) as Hall. cbn zeta in Hall. fold s1 in Hall.
    destruct (decide (length (pending_queries_ s) + length (adds acts) ≤ capacity s)%nat) as [Hroom|Hno].
    2:{ rewrite decide_False by tauto. unfold mbind at 1, comp_bind at 1, getO. rewrite (decide_False (P := storage s1 = storage s)); [done|lia]. }
    rewrite (getO_bind _ _ _ ()) by (by rewrite Hall, decide_True). rewrite modify_bind, Hall. unfold with_pending. cbn [pending_queries_ capacity storage log].
    assert (take (length kept) (pending_queries_ s ++ adds acts) ++ drop (S (length kept)) (pending_queries_ s ++ adds acts) = kept ++ rest ++ new ++ adds acts) as ->.
    { rewrite Hs, <-!app_assoc, take_app_length. change (kept ++ q :: rest ++ new ++ adds acts) with (kept ++ [q] ++ rest ++ new ++ adds acts).
      f_equal. pose proof (drop_app_length' (kept ++ [q]) (rest ++ new ++ adds acts) (S (length kept)) ltac:(rewrite length_app; cbn; lia)) as Hd.
      rewrite <-(app_assoc kept [q]) in Hd. exact Hd. }
    rewrite (IH n kept (new ++ adds acts)); cbn [pending_queries_ capacity storage log].
    + assert (length (kept ++ rest ++ new ++ adds acts) = length (pending_queries_ s) + length (adds acts) - 1)%nat as ->.
      { rewrite Hs. rewrite !length_app. cbn. lia. }
      assert (filter (λ q, ¬ ready results q) (q :: rest) = filter (λ q, ¬ ready results q) rest) as ->
        by (apply filter_cons_False; intros Hq; apply Hq; by exists r).
      destruct (decide (has_room (capacity s) (length (pending_queries_ s) + length (adds acts) - 1) (omap (reaction results) rest))) as [Hd|Hd].
      * rewrite decide_True by done. by rewrite <-!app_assoc.
      * by rewrite decide_False by tauto.
    + done.
    + rewrite Hs in Hcap, Hroom. rewrite !length_app in *. cbn [length] in *. rewrite ?length_app in *. lia.
    + rewrite length_app. cbn in Hn. lia.
    + intros q' Hq'. apply Hnew. by rewrite <-app_assoc in Hq'.
  - rewrite (comp_bind_Returns _ _ _ false s) by done. rewrite (getO_bind _ _ _ ()) by (by rewrite decide_True). cbv beta iota.
    pose proof (IH n (kept ++ [q]) new s) as Hrec. rewrite length_app in Hrec. cbn [length] in Hrec. rewrite Nat.add_1_r in Hrec.
    rewrite Hrec; [|by rewrite Hs, <-!app_assoc|done|cbn in Hn; lia|done].
    assert (filter (λ q, ¬ ready results q) (q :: rest) = q :: filter (λ q, ¬ ready results q) rest) as ->
      by (apply filter_cons_True; unfold ready; rewrite Hr; by intros [? [=]]).
    by rewrite <-!app_assoc.
Qed.

(** ** From the queries to the callbacks *)

(** The statements of a list of queries, on one connection. *)
Fixpoint query_all (fuel : nat) (sqls : list bytes) : comp conn_state (list (option nat)) :=
  match sqls with
  | [] => mret []
  | sql :: sqls => r ← Query fuel sql; rs ← query_all fuel sqls; mret (r :: rs)
  end.
Fixpoint set_all (ops : list SQLOperation) (rs : list (option nat)) (m : gmap nat (option nat)) : gmap nat (option nat) :=
  match ops, rs with
  | op :: ops, r :: rs => set_all ops rs (<[promise_ op := r]> m)
  | _, _ => m
  end.

Lemma query_all_length fuel sqls s rs s' : query_all fuel sqls s = Returns rs s' → length rs = length sqls.
Proof.
  revert s rs. induction sqls as [|sql sqls IH]; intros s rs; cbn [query_all]; [by intros [= <- _]|].
  intros (r & s1 & _ & Hr)%comp_bind_inv. apply comp_bind_inv in Hr as (rs' & s2 & Hrs & [= <- <-]). cbn. f_equal. by eapply IH.
Qed.

(** The results of the statements up to the first [Query] that does not return,
    and how it ends. *)
Fixpoint answered (fuel : nat) (sqls : list bytes) (s : conn_state) : list (option nat) * exit conn_state unit :=
  match sqls with
  | [] => ([], Returns () s)
  | sql :: sqls =>
      match Query fuel sql s with
      | Returns r s => (r :: (answered fuel sqls s).1, (answered fuel sqls s).2)
      | Throws s => ([], Throws s)
      | Aborts s => ([], Aborts s)
      | UB => ([], UB)
      | OutOfFuel => ([], OutOfFuel)
      end
  end.
(** So many rounds of the loop of [Worker], each with an operation. *)
Fixpoint turns (j fuel i : nat) : comp MySQLConnPool unit :=
  match j with
  | O => mret ()
  | S j =>
      q ← getO task_queue_;
      let '(r, q) := BlockingQueue.Pop q in
      match r with
      | Taken op => modify (with_queue (Some q));; Execute fuel i op;; turns j fuel i
      | _ => no_fuel
      end
  end.

Section worker.
Context (b : bool) (fuel i : nat).
Definition at_work (ops : list SQLOperation) (p : MySQLConnPool) (c : MySQLConn) : Prop :=
  pool_ p !! i = Some c ∧ task_queue_ p = Some (BlockingQueue.Queue b ops) ∧
  NoDup (promise_ <$> ops) ∧ ∀ op, op ∈ ops → promises p !! promise_ op = None.

Definition turned (op : SQLOperation) (ops : list SQLOperation) (r : option nat) (s : conn_state) (p : MySQLConnPool) : MySQLConnPool :=
  with_promises (<[promise_ op := r]> (promises p)) (next_promise p)
    (with_outside (driver s) (with_pool (<[i := the_conn s]> (pool_ p)) (with_queue (Some (BlockingQueue.Queue b ops)) p))).
Lemma turned_at_work op ops r s p c : at_work (op :: ops) p c → at_work ops (turned op ops r s p) (the_conn s).
Proof.
  intros (Hi & _ & Hnd & Hpr). cbn [fmap list_fmap] in Hnd. apply NoDup_cons in Hnd as [Hno Hnd]. apply lookup_lt_Some in Hi.
  split; [by apply list_lookup_insert_eq|]. split; [done|]. split; [done|].
  intros op' Hop'. cbn. rewrite lookup_insert_ne; [apply Hpr; by right|]. intros He. apply Hno. rewrite He. by apply list_elem_of_fmap_2.
Qed.

(** An operation of the queue: how its [Query] ends, the worker goes on. *)
Lemma Execute_turn op ops p c : at_work (op :: ops) p c →
  Execute fuel i op (with_queue (Some (BlockingQueue.Queue b ops)) p) =
    match Query fuel (sql_ op) (ConnState c (outside p)) with
    | Returns r s => Returns () (turned op ops r s p)
    | Throws s => Throws (with_outside (driver s) (with_pool (<[i := the_conn s]> (pool_ p)) (with_queue (Some (BlockingQueue.Queue b ops)) p)))
    | Aborts s => Aborts (with_outside (driver s) (with_pool (<[i := the_conn s]> (pool_ p)) (with_queue (Some (BlockingQueue.Queue b ops)) p)))
    | UB => UB
    | OutOfFuel => OutOfFuel
    end.
Proof.
  intros (Hi & _ & _ & Hpr). unfold Execute. unfold mbind at 1, comp_bind at 1. unfold on_conn. rewrite (getO_bind _ _ _ c) by exact Hi. unfold part. cbn [outside with_queue].
  destruct (Query fuel (sql_ op) (ConnState c (outside p))) as [r s|s|s| |]; try done.
  unfold set_value. rewrite get_bind. cbn. by rewrite (Hpr op) by by left.
Qed.
Lemma pop_op (op : SQLOperation) ops : BlockingQueue.Pop (BlockingQueue.Queue b (op :: ops)) = (Taken op, BlockingQueue.Queue b ops).
Proof. done. Qed.
Lemma pop_none : BlockingQueue.Pop (BlockingQueue.Queue b (@nil SQLOperation)) = (if b then Refused else Blocks, BlockingQueue.Queue b []).
Proof. by destruct b. Qed.

Lemma turns_spec ops : ∀ p c j, at_work ops p c → let '(rs, e) := answered fuel (sql_ <$> ops) (ConnState c (outside p)) in
  (j ≤ length rs)%nat → ∃ pj, turns j fuel i p = Returns () pj ∧ promises pj = set_all (take j ops) rs (promises p).
Proof.
  induction ops as [|op ops IH]; intros p c [|j] Hw; cbn [fmap list_fmap answered]; try (repeat case_match; by exists p); [cbn; lia|].
  destruct (Query fuel (sql_ op) (ConnState c (outside p))) as [r s|s|s| |] eqn:HQ; cbn [length]; try lia. intros Hj.
  pose proof (IH (turned op ops r s p) (the_conn s) j (turned_at_work _ _ _ _ _ _ Hw)) as Hrec.
  assert (ConnState (the_conn s) (outside (turned op ops r s p)) = s) as Hs by by destruct s. rewrite Hs in Hrec.
  destruct (answered fuel (sql_ <$> ops) s) as [rs e]. cbn [fst] in *.
  destruct Hrec as (pj & Hrun & Hpj); [lia|]. exists pj. split; [|exact Hpj].
  cbn [turns]. rewrite (getO_bind _ _ _ (BlockingQueue.Queue b (op :: ops))) by apply Hw. rewrite pop_op, modify_bind.
  pose proof (Execute_turn op ops p c Hw) as Hex. rewrite HQ in Hex. by rewrite (comp_bind_Returns _ _ _ _ _ Hex).
Qed.

(** How the worker ends; its promises are those of so many turns. *)
Lemma worker_ends ops : ∀ p c n, at_work ops p c → let '(rs, e) := answered fuel (sql_ <$> ops) (ConnState c (outside p)) in
  match e with
  | Returns _ cs => length rs = length ops ∧
      worker_loop (S (length ops + n)) fuel i p = Returns (if b then Exited else Waiting)
        (Pool (database_ p) (<[i := the_conn cs]> (pool_ p)) (Some (BlockingQueue.Queue b [])) (set_all ops rs (promises p)) (next_promise p) (driver cs))
  | Throws _ => (length rs < length ops)%nat ∧
      ∃ p2, worker_loop (S (length rs + n)) fuel i p = Throws p2 ∧ promises p2 = set_all (take (length rs) ops) rs (promises p)
  | Aborts _ => (length rs < length ops)%nat ∧
      ∃ p2, worker_loop (S (length rs + n)) fuel i p = Aborts p2 ∧ promises p2 = set_all (take (length rs) ops) rs (promises p)
  | UB => (length rs < length ops)%nat ∧ worker_loop (S (length rs + n)) fuel i p = UB
  | OutOfFuel => (length rs < length ops)%nat ∧ worker_loop (S (length rs + n)) fuel i p = OutOfFuel
  end.
Proof.
  induction ops as [|op ops IH]; intros p c n Hw; cbn [fmap list_fmap answered].
  - split; [done|]. cbn [worker_loop]. destruct Hw as (Hi & Hq & _). rewrite (getO_bind _ _ _ _ Hq), pop_none. cbn.
    rewrite list_insert_id by done. destruct p; cbn in *; subst. by destruct b.
  - pose proof (Execute_turn op ops p c Hw) as Hex.
    assert (∀ n, worker_loop (S n) fuel i p = (Execute fuel i op;; worker_loop n fuel i) (with_queue (Some (BlockingQueue.Queue b ops)) p)) as Hloop.
    { intros k. cbn [worker_loop]. rewrite (getO_bind _ _ _ (BlockingQueue.Queue b (op :: ops))) by apply Hw. by rewrite pop_op, modify_bind. }
    destruct (Query fuel (sql_ op) (ConnState c (outside p))) as [r s|s|s| |].
    2-5: cbn [length fst snd]; (split; [lia|]); rewrite Hloop; unfold mbind, comp_bind; rewrite Hex; try done; by eexists.
    pose proof (IH (turned op ops r s p) (the_conn s) n (turned_at_work _ _ _ _ _ _ Hw)) as Hrec.
    assert (ConnState (the_conn s) (outside (turned op ops r s p)) = s) as Hs by by destruct s. rewrite Hs in Hrec.
    assert (∀ n, worker_loop (S n) fuel i p = worker_loop n fuel i (turned op ops r s p)) as Hgo by (intros k; by rewrite Hloop, (comp_bind_Returns _ _ _ _ _ Hex)).
    destruct (answered fuel (sql_ <$> ops) s) as [rs e]. cbn [fst snd length].
    destruct e as [[] cs|s'|s'| |]; destruct Hrec as [Hlen Hrec]; (split; [lia|]); cbn [Nat.add]; rewrite Hgo; try exact Hrec.
    rewrite Hrec. unfold turned. cbn. by rewrite list_insert_insert_eq.
Qed.
End worker.

Lemma query_all_answered fuel sqls : ∀ s rs s', query_all fuel sqls s = Returns rs s' → answered fuel sqls s = (rs, Returns () s').
Proof.
  induction sqls as [|sql sqls IH]; intros s rs s'; cbn [query_all answered]; [by intros [= <- <-]|].
  intros (r & s1 & -> & Hr)%comp_bind_inv. apply comp_bind_inv in Hr as (rs' & s2 & Hrs & [= <- <-]). by rewrite (IH _ _ _ Hrs).
Qed.
Lemma worker_run b fuel i ops p c rs cs : pool_ p !! i = Some c → task_queue_ p = Some (BlockingQueue.Queue b ops) →
  query_all fuel (sql_ <$> ops) (ConnState c (outside p)) = Returns rs cs →
  NoDup (promise_ <$> ops) → (∀ op, op ∈ ops → promises p !! promise_ op = None) →
  Worker (S (length ops)) fuel i p = Returns (if b then Exited else Waiting)
    (Pool (database_ p) (<[i := the_conn cs]> (pool_ p)) (Some (BlockingQueue.Queue b [])) (set_all ops rs (promises p)) (next_promise p) (driver cs)).
Proof.
  intros Hi Hq Hrun Hnd Hpr. pose proof (worker_ends b fuel i ops p c 0 ltac:(by split_and!)) as Hw.
  rewrite (query_all_answered _ _ _ _ _ Hrun), Nat.add_0_r in Hw. destruct Hw as [_ Hw]. unfold Worker, thread_function. by rewrite Hw.
Qed.

(** A list of queries handed to the pool, each with its callback; what it
    returns goes to the processor. *)
Fixpoint submit (l : list (bytes * C)) : comp MySQLConnPool (list query) :=
  match l with
  | [] => mret []
  | (sql, cb) :: l => q ← pool_Query sql cb; qs ← submit l; mret (q :: qs)
  end.
Definition add_all (qs : list query) (s : AsyncProcessor) : AsyncProcessor := foldl (λ s q, AddQueryCallback q s) s qs.
Fixpoint operations (n : nat) (l : list (bytes * C)) : list SQLOperation :=
  match l with [] => [] | x :: l => Operation x.1 n :: operations (S n) l end.
Fixpoint numbered (n : nat) (l : list (bytes * C)) : list query :=
  match l with [] => [] | x :: l => QueryCallback n x.2 :: numbered (S n) l end.

Lemma submit_run b l : ∀ p ops, task_queue_ p = Some (BlockingQueue.Queue b ops) →
  submit l p = Returns (numbered (next_promise p) l)
    (Pool (database_ p) (pool_ p) (Some (BlockingQueue.Queue b (ops ++ operations (next_promise p) l))) (promises p) (next_promise p + length l) (outside p)).
Proof.
  induction l as [|[sql f] l IH]; intros p ops Hq; cbn [submit numbered operations].
  - rewrite app_nil_r, Nat.add_0_r. destruct p; cbn in *; subst. done.
  - set (p1 := Pool (database_ p) (pool_ p) (Some (BlockingQueue.Queue b (ops ++ [Operation sql (next_promise p)]))) (promises p) (S (next_promise p)) (outside p)).
    rewrite (comp_bind_Returns _ _ _ (QueryCallback (next_promise p) f) p1).
    2:{ unfold pool_Query. rewrite get_bind, modify_bind. rewrite (getO_bind _ _ _ (BlockingQueue.Queue b ops)) by exact Hq. rewrite modify_bind. done. }
    rewrite (comp_bind_Returns _ _ _ _ _ (IH p1 _ eq_refl)). unfold p1. cbn. rewrite <-app_assoc, Nat.add_succ_r. done.
Qed.
Lemma operations_promises n l : promise_ <$> operations n l = seq n (length l).
Proof. revert n. induction l as [|x l IH]; intros n; [done|]. cbn. f_equal. apply IH. Qed.
Lemma operations_sqls n l : sql_ <$> operations n l = fst <$> l.
Proof. revert n. induction l as [|x l IH]; intros n; [done|]. cbn. f_equal. apply IH. Qed.
Lemma operations_length n l : length (operations n l) = length l.
Proof. rewrite <-(length_fmap promise_), operations_promises. by rewrite length_seq. Qed.
Lemma numbered_length n l : length (numbered n l) = length l.
Proof. revert n. induction l as [|x l IH]; intros n; [done|]. cbn. f_equal. apply IH. Qed.
Lemma add_all_run qs : ∀ s, (length (pending_queries_ s) ≤ capacity s)%nat →
  pending_queries_ (add_all qs s) = pending_queries_ s ++ qs ∧ log (add_all qs s) = log s ∧
  (length (pending_queries_ (add_all qs s)) ≤ capacity (add_all qs s))%nat.
Proof.
  induction qs as [|q qs IH]; intros s Hs; cbn [add_all foldl]; [by rewrite app_nil_r|].
  destruct (IH (AddQueryCallback q s)) as (H1 & H2 & H3).
  { unfold AddQueryCallback. case_decide; cbn; rewrite length_app; cbn; lia. }
  fold (add_all qs (AddQueryCallback q s)). rewrite H1, H2 in *. unfold AddQueryCallback in *. case_decide; cbn in *; by rewrite <-app_assoc in *.
Qed.

Lemma set_all_other ops : ∀ rs m pr, pr ∉ promise_ <$> ops → set_all ops rs m !! pr = m !! pr.
Proof.
  induction ops as [|op ops IH]; intros [|r rs] m pr Hpr; cbn; try done. cbn in Hpr. apply not_elem_of_cons in Hpr as [Hne Hno].
  by rewrite IH, lookup_insert_ne by done.
Qed.
Lemma numbered_waiting m l : ∀ n, (∀ k, (n ≤ k)%nat → m !! k = None) →
  omap (reaction m) (numbered n l) = [] ∧ filter (λ q, ¬ ready m q) (numbered n l) = numbered n l.
Proof.
  induction l as [|x l IH]; intros n Hm; [done|]. destruct (IH (S n)) as [IH1 IH2]; [intros; apply Hm; lia|]. cbn [numbered]. split.
  - cbn [omap list_omap]. unfold reaction at 1. cbn. by rewrite Hm, IH1 by lia.
  - rewrite filter_cons_True; [by rewrite IH2|]. unfold ready. cbn. rewrite Hm by lia. by intros [? [=]].
Qed.
(** After [j] turns the first [j] queries are ready, each with its result. *)
Lemma numbered_ready l : ∀ n j rs m, (∀ k, (n ≤ k)%nat → m !! k = None) → (j ≤ length rs)%nat → (length rs ≤ length l)%nat →
  let m' := set_all (take j (operations n l)) rs m in
  omap (reaction m') (numbered n l) = take j (zip_with (λ x r, program x.2 r) l rs) ∧
  filter (λ q, ¬ ready m' q) (numbered n l) = drop j (numbered n l).
Proof.
  induction l as [|x l IH]; intros n [|j] [|r rs] m Hm Hj Hl; cbn in Hj, Hl; try lia; try done.
  1,2: cbn [take set_all]; rewrite take_0, drop_0; by apply numbered_waiting.
  cbn [operations take set_all numbered promise_ zip_with]. cbn zeta.
  destruct (IH (S n) j rs (<[n := r]> m)) as [IH1 IH2]; [intros k Hk; rewrite lookup_insert_ne by lia; apply Hm; lia|lia|lia|].
  set (m' := set_all _ rs _) in *.
  assert (m' !! n = Some r) as Hr.
  { unfold m'. rewrite set_all_other, lookup_insert_eq; [done|]. rewrite fmap_take, operations_promises.
    intros Hin%(subseteq_take j (seq (S n) (length l)))%elem_of_seq. lia. }
  split.
  - cbn [omap list_omap]. unfold reaction at 1. cbn [future_ cb_]. rewrite Hr. cbn. by rewrite IH1.
  - rewrite filter_cons_False; [exact IH2|]. unfold ready. cbn. rewrite Hr. intros Hn. apply Hn. by exists r.
Qed.

(** C40: Queries handed to the pool, with any callbacks that return, reach them:
    a worker runs the statements in order, each once, until it has to wait or a
    [Query] does not return.  After any number of them, a round of the processor
    invokes the callbacks of just these, in order, each once and on the result
    of its own statement, and keeps the others and what the callbacks add; only
    if they add more than the vector has room for, beside what is pending, the
    round is undefined.  What the callbacks add must not have its result yet.
    When [Query] throws, is undefined or does not end, so does the worker, and a
    throw ends the process; the promises are then those of the statements
    before. *)
Theorem pool_delivers fuel i c p l cap st :
  pool_ p !! i = Some c → task_queue_ p = Some (BlockingQueue.make false) → (∀ k, (next_promise p ≤ k)%nat → promises p !! k = None) →
  let '(rs, e) := answered fuel (fst <$> l) (ConnState c (outside p)) in
  ∃ qs p1, submit l p = Returns qs p1 ∧ length qs = length l ∧
    (let s := add_all qs (Processor [] cap st []) in
     ∀ j, (j ≤ length rs)%nat → ∃ pj, turns j fuel i p1 = Returns () pj ∧
       let acts := take j (zip_with (λ x r, program x.2 r) l rs) in
       (∀ q, q ∈ concat (adds <$> acts) → ¬ ready (promises pj) q) →
       ∀ n, (length l + length (concat (adds <$> acts)) < n)%nat →
       InvokeIfReady (promises pj) n s =
         if decide (has_room (capacity s) (length l) acts) then
           Returns () (Processor (drop j qs ++ concat (adds <$> acts)) (capacity s) (storage s) (concat (emits <$> acts)))
         else UB) ∧
    ∃ pl, turns (length rs) fuel i p1 = Returns () pl ∧ ∀ n,
      match e with
      | Returns _ cs => length rs = length l ∧ ∃ p2, Worker (S (length rs + n)) fuel i p1 = Returns Waiting p2 ∧
          promises p2 = promises pl ∧ outside p2 = driver cs ∧ pool_ p2 !! i = Some (the_conn cs)
      | Throws _ | Aborts _ => (length rs < length l)%nat ∧ ∃ p2, Worker (S (length rs + n)) fuel i p1 = Aborts p2 ∧ promises p2 = promises pl
      | UB => (length rs < length l)%nat ∧ Worker (S (length rs + n)) fuel i p1 = UB
      | OutOfFuel => (length rs < length l)%nat ∧ Worker (S (length rs + n)) fuel i p1 = OutOfFuel
      end.
Proof.
  intros Hi Hq Hpr. set (ops := operations (next_promise p) l). set (qs := numbered (next_promise p) l).
  set (p1 := Pool (database_ p) (pool_ p) (Some (BlockingQueue.Queue false ops)) (promises p) (next_promise p + length l) (outside p)).
  assert (at_work false i ops p1 c) as Hw.
  { split; [done|]. split; [done|]. unfold ops. rewrite operations_promises. split; [apply NoDup_seq|].
    intros op Hop%(list_elem_of_fmap_2 promise_). rewrite operations_promises in Hop. apply elem_of_seq in Hop. apply Hpr. lia. }
  assert (sql_ <$> ops = fst <$> l) as Hsql by apply operations_sqls. assert (length ops = length l) as Hops by apply operations_length.
  pose proof (λ j, turns_spec false fuel i ops p1 c j Hw) as Hturns. pose proof (λ n, worker_ends false fuel i ops p1 c n Hw) as Hends.
  rewrite Hsql in Hturns, Hends. change (outside p1) with (outside p) in *. destruct (answered fuel (fst <$> l) (ConnState c (outside p))) as [rs e].
  assert (length rs ≤ length l)%nat as Hle by (specialize (Hends 0%nat); destruct e as [[]| | | |]; destruct Hends; lia).
  exists qs, p1. split; [exact (submit_run false l p [] Hq)|]. split; [apply numbered_length|]. split.
  - intros s j Hj. destruct (Hturns j Hj) as (pj & Hrun & Hpj). exists pj. split; [done|]. intros acts Hadd n Hn. rewrite Hpj in *.
    destruct (numbered_ready l (next_promise p) j rs (promises p) Hpr Hj Hle) as [Hre Hfi]. fold ops qs in Hre, Hfi. fold acts in Hre.
    destruct (add_all_run qs (Processor [] cap st [])) as (H1 & H2 & H3); [cbn; lia|]. fold s in H1, H2, H3. cbn in H1, H2. change (promises p1) with (promises p) in *.
    pose proof (round_run (set_all (take j ops) rs (promises p)) qs n [] [] s) as Hround. rewrite Hre, Hfi, H1, H2, app_nil_r in Hround.
    assert (length qs = length l) as Hlq by apply numbered_length. rewrite Hlq in Hround.
    apply Hround; [done|by rewrite H1, Hlq in H3|cbn; lia|exact Hadd].
  - destruct (Hturns (length rs) ltac:(lia)) as (pl & Hrun & Hpl). exists pl. split; [done|]. intros n. specialize (Hends n). unfold Worker, thread_function.
    destruct e as [[] cs|cs|cs| |].
    + destruct Hends as [Hlen Hend]. split; [lia|]. eexists. rewrite Hlen, Hend. split; [done|]. rewrite Hpl, take_ge by lia. split; [done|].
      split; [done|]. apply list_lookup_insert_eq. by eapply lookup_lt_Some.
    + destruct Hends as [Hlen (p2 & -> & Hp2)]. split; [lia|]. exists p2. by rewrite Hp2, Hpl.
    + destruct Hends as [Hlen (p2 & -> & Hp2)]. split; [lia|]. exists p2. by rewrite Hp2, Hpl.
    + destruct Hends as [Hlen ->]. split; [lia|done].
    + destruct Hends as [Hlen ->]. split; [lia|done].
Qed.

(** ** Opening and destroying the pool *)

(** Every connection of [InitPool] is appended, opened or not. *)
Lemma construct_run url db info p : MySQLConnInfo_construct url db = Some info →
  construct url db p = Returns (length (pool_ p)) (with_pool (pool_ p ++ [Conn info None]) p).
Proof. intros Hi. unfold construct. rewrite (getO_bind _ _ _ info) by exact Hi. by rewrite get_bind, modify_bind. Qed.

Lemma destroy_conn_run i p c x : pool_ p !! i = Some c → conn_ c = Some x →
  ∃ p', on_conn i destroy_conn p = Returns () p' ∧ promises p' = promises p ∧ pool_ p' = pool_ p ∧ task_queue_ p' = task_queue_ p.
Proof.
  intros Hi Hx. unfold on_conn. rewrite (getO_bind _ _ _ c) by exact Hi. unfold part, destroy_conn, read_conn. rewrite (getO_bind _ _ _ x) by exact Hx.
  destruct x as [x|]; cbn; (eexists; split; [done|]); cbn; (split; [done|]); (split; [by apply list_insert_id|done]).
Qed.
Lemma Worker_leaves n fuel i p : task_queue_ p = Some (BlockingQueue.Queue true []) → Worker (S n) fuel i p = Returns Exited p.
Proof. intros Hq. unfold Worker, thread_function. cbn [worker_loop]. by rewrite (getO_bind _ _ _ _ Hq). Qed.

Lemma delete_conns_run n fuel js : ∀ p, task_queue_ p = Some (BlockingQueue.Queue true []) →
  (∀ j, j ∈ js → ∃ c x, pool_ p !! j = Some c ∧ conn_ c = Some x) →
  ∃ p', delete_conns (S n) fuel js p = Returns () p' ∧ promises p' = promises p.
Proof.
  induction js as [|j js IH]; intros p Hq Hjs; [by exists p|]. cbn [delete_conns].
  rewrite (comp_bind_Returns _ _ _ _ _ (Worker_leaves n fuel j p Hq)). 
  destruct (Hjs j) as (c & x & Hc & Hx); [by left|]. destruct (destroy_conn_run j p c x Hc Hx) as (p1 & Hrun & Hpr & Hpool & Hq1).
  assert (∀ {A} (k : comp MySQLConnPool A), (mret ();; k) p = k p) as Hret by done. rewrite Hret.
  rewrite (comp_bind_Returns _ _ _ _ _ Hrun). rewrite <-Hpr. apply IH; [by rewrite Hq1|]. intros j' Hj'. rewrite Hpool. apply Hjs. by right.
Qed.

(** Destroying the pool loses no query: the worker that is joined first runs
    what is still queued, in order, and keeps every promise; the others leave;
    then the connections go. *)
Theorem destroy_pool_answers fuel p c l b ops rs s x :
  pool_ p = c :: l → Forall (λ c, is_Some (conn_ c)) l → task_queue_ p = Some (BlockingQueue.Queue b ops) →
  query_all fuel (sql_ <$> ops) (ConnState c (outside p)) = Returns rs s → conn_ (the_conn s) = Some x →
  NoDup (promise_ <$> ops) → (∀ op, op ∈ ops → promises p !! promise_ op = None) →
  ∃ p', destroy_pool (S (length ops)) fuel p = Returns () p' ∧ pool_ p' = [] ∧ task_queue_ p' = None ∧
    length rs = length ops ∧ promises p' = set_all ops rs (promises p).
Proof.
  intros Hp Hl Hq Hrun Hx Hnd Hpr. unfold destroy_pool. rewrite (getO_bind _ _ _ _ Hq), modify_bind, get_bind. cbn [pool_ with_queue]. rewrite Hp. cbn [length seq delete_conns].
  pose proof (worker_run true fuel 0 ops (with_queue (Some (BlockingQueue.Cancel (BlockingQueue.Queue b ops))) p) c rs s) as Hw.
  cbn [pool_ with_queue task_queue_ outside promises] in Hw. rewrite Hp in Hw. specialize (Hw eq_refl eq_refl Hrun Hnd Hpr). cbn [list_insert list_alter insert] in Hw.
  set (p1 := Pool _ _ _ _ _ _) in Hw.
  destruct (destroy_conn_run 0 p1 (the_conn s) x eq_refl Hx) as (p2 & Hd & Hpr2 & Hpool2 & Hq2).
  destruct (delete_conns_run (length ops) fuel (seq 1 (length l)) p2) as (p3 & Hrest & Hpr3); [by rewrite Hq2| |].
  { intros [|j] Hj%elem_of_seq; [lia|]. rewrite Hpool2. cbn. destruct (lookup_lt_is_Some_2 l j) as [c' Hc']; [lia|].
    destruct (proj1 (Forall_lookup _ _) Hl j c' Hc') as [x' Hx']. by exists c', x'. }
  eexists. split.
  { rewrite (comp_bind_Returns _ _ _ () p3); [by rewrite !modify_bind|].
    rewrite (comp_bind_Returns _ _ _ _ _ Hw). assert (∀ {A} (k : comp MySQLConnPool A), (mret ();; k) p1 = k p1) as Hret by done. rewrite Hret.
    by rewrite (comp_bind_Returns _ _ _ _ _ Hd). }
  split; [done|]. split; [done|]. split; [by rewrite (query_all_length _ _ _ _ _ Hrun), length_fmap|]. cbn. by rewrite Hpr3, Hpr2.
Qed.

Lemma GetInstance_again db m m' r : GetInstance db m' (GetInstance db m r).2 = GetInstance db m r.
Proof.
  unfold GetInstance. destruct (instances_ r !! db) as [i|] eqn:Hi; cbn; [by rewrite Hi|]. by rewrite lookup_insert_eq.
Qed.
Lemma GetInstance_other db db' m r i : db ≠ db' → instances_ r !! db' = Some i → (i < length (pools r))%nat →
  instances_ (GetInstance db m r).2 !! db' = Some i ∧ pools (GetInstance db m r).2 !! i = pools r !! i.
Proof.
  intros Hne Hi Hlt. unfold GetInstance. destruct (instances_ r !! db); [done|]. cbn. rewrite lookup_insert_ne by done. by rewrite lookup_app_l.
Qed.
End pool.

(** ** A driver that answers from a list *)

(** 0 is success; the end of the list is a lost connection. *)
Definition reply (m : list Z) : Z * list Z := match m with [] => (2006, []) | e :: m => (e, m) end.
Definition throwing (m : list Z) : option Z * list Z := let (e, m) := reply m in (if e =? 0 then None else Some e, m).
Definition answering (r : nat) (m : list Z) : (nat + Z) * list Z := let (e, m) := reply m in (if e =? 0 then inl r else inr e, m).
Definition demo_driver : cppconn (list Z) := {|
  connect _ _ _ m := let (e, m) := reply m in (if e =? 0 then inl (Some 1%nat) else if e <? 0 then inl None else inr e, m);
  setSchema _ _ m := throwing m;
  close_connection _ m := throwing m;
  delete_connection _ m := m;
  createStatement c m := answering c m;
  executeQuery _ sql m := answering (length sql) m;
|}.
Definition demo_info : MySQLConnInfo := ConnInfo (text "u") (text "w") (text "tcp://h") (text "db").
Definition demo_conn : MySQLConn := Conn demo_info (Some (Some 1%nat)).

(** The connection is lost at the statement; the first attempt to open it fails. *)
Lemma MySQLConn_Query_spec_witness :
  Query (api := demo_driver) 2 (text "select 1") (ConnState demo_conn [0; 2013; 0; 2006; 0; 0; 7]) = Returns None (ConnState demo_conn [7]).
Proof.
  apply (@MySQLConn_Query_spec (list Z) demo_driver demo_info 1 (text "select 1") [0; 2013; 0; 2006; 0; 0; 7] (inr 2013) [0; 2006; 0; 0; 7] eq_refl [2006; 0] (Some 1%nat) [7]); [|cbn; lia].
  apply (@opening_again (list Z) demo_driver demo_info None [2006; 0; 0; 7] 2006 None [0; 0; 7] [0; 0; 7] [0] (Some 1%nat) [7] eq_refl eq_refl eq_refl).
  apply (@opening_last (list Z) demo_driver demo_info None [0; 0; 7] 0 (Some (Some 1%nat)) [7] eq_refl eq_refl).
Defined.

Definition demo_pool (l : list Z) : MySQLConnPool (M := list Z) := Pool (text "db") [demo_conn; demo_conn] (Some (BlockingQueue.make false)) ∅ 0 l.
(** A callback that reports its result, and one that also asks again. *)
Definition demo_program (again : bool) (r : option nat) : list (action (E := option nat)) := Emit r :: if again then [Add (QueryCallback 9 true)] else [].
Definition demo_queries : list (bytes * bool) := [(text "a", false); (text "bcd", true)].
(** The second statement fails. *)
Lemma pool_delivers_witness : ∃ qs p1 p2 s pj,
  submit demo_queries (demo_pool [0; 0; 0; 1064]) = Returns qs p1 ∧ Worker (api := demo_driver) 3 1 0 p1 = Returns Waiting p2 ∧
  turns (api := demo_driver) 1 1 0 p1 = Returns () pj ∧
  InvokeIfReady (λ n, n) demo_program (promises pj) 3 s = Returns () (Processor [QueryCallback 1 true] 4 0 [Some 1%nat]) ∧
  InvokeIfReady (λ n, n) demo_program (promises p2) 4 s = Returns () (Processor [QueryCallback 9 true] 4 0 [Some 1%nat; None]).
Proof.
  destruct (@pool_delivers (list Z) demo_driver (option nat) bool (λ n, n) demo_program 1 0 demo_conn (demo_pool [0; 0; 0; 1064]) demo_queries 4 0
    eq_refl eq_refl ltac:(intros; reflexivity)) as (qs & p1 & Hs & _ & Hround & pl & Hpl & Hend).
  destruct (Hend 0%nat) as (_ & p2 & Hw & Hp2 & _). pose proof Hs as Hs'. injection Hs' as <- <-.
  destruct (Hround 1%nat) as (pj & Hpj & Hr1); [by apply (bool_decide_unpack _); vm_compute|]. destruct (Hround 2%nat) as (pj' & Hpj' & Hr2); [by apply (bool_decide_unpack _); vm_compute|].
  assert (Returns () pj' = Returns () pl) as [= ->] by (etrans; [symmetry; exact Hpj'|exact Hpl]).
  eexists _, _, p2, _, pj. split; [exact Hs|]. split; [exact Hw|]. split; [exact Hpj|]. rewrite Hp2. split.
  - apply Hr1; [intros q Hq; by apply not_elem_of_nil in Hq|by apply (bool_decide_unpack _); vm_compute].
  - apply Hr2; [|by apply (bool_decide_unpack _); vm_compute]. intros q Hq%list_elem_of_singleton. subst q. injection Hpl as <-. by intros [? [=]].
Defined.

Lemma destroy_pool_answers_witness : ∃ p',
  destroy_pool (api := demo_driver) 2 1 (with_queue (Some (BlockingQueue.Queue false [Operation (text "abc") 4])) (demo_pool [0; 0])) = Returns () p' ∧
  promises p' = <[4%nat := Some 3%nat]> ∅.
Proof.
  destruct (@destroy_pool_answers (list Z) demo_driver 1 (with_queue (Some (BlockingQueue.Queue false [Operation (text "abc") 4])) (demo_pool [0; 0]))
    demo_conn [demo_conn] false [Operation (text "abc") 4] [Some 3%nat] (ConnState demo_conn []) (Some 1%nat)
    eq_refl ltac:(repeat constructor; by eexists) eq_refl eq_refl eq_refl ltac:(apply NoDup_singleton) ltac:(intros; reflexivity)) as (p' & Hrun & _ & _ & _ & Hpr).
  exists p'. split; [exact Hrun|exact Hpr].
Defined.

(** A server that refuses every connection with "gone away" keeps [Open] busy
    for ever. *)
Example Open_endless fuel info : Open (api := demo_driver) fuel (ConnState (Conn info (Some None)) []) = OutOfFuel.
Proof.
  induction fuel as [|fuel IH]; [done|]. rewrite (Open_attempt fuel info None [] 2006 None []) by done. change (lost 2006) with true. cbv beta iota.
  rewrite (comp_bind_Returns _ _ _ () (ConnState (Conn info (Some None)) [])) by done. unfold mbind, comp_bind at 1. by rewrite IH.
Qed.
(** Opening answers the error of the first attempt although the second one made
    the connection. *)
Example Open_reports_failure :
  Open (api := demo_driver) 2 (ConnState (Conn demo_info (Some None)) [2013; 0; 0]) = Returns 2013 (ConnState demo_conn []).
Proof. by vm_compute. Qed.
(** The constructor leaves [conn_] as it is: an opening that fails with a lost
    connection reads it, and so does the destructor after any other failure. *)
Example uninitialised_conn :
  Open (api := demo_driver) 2 (ConnState (Conn demo_info None) [2013; 0; 0]) = UB ∧
  (Open (api := demo_driver) 2;; destroy_conn (api := demo_driver)) (ConnState (Conn demo_info None) [2003]) = UB.
Proof. by vm_compute. Qed.
(** A lost connection that cannot be made again: the next statement of this
    worker is undefined. *)
Example query_after_failed_reconnection :
  (Query (api := demo_driver) 2 (text "a");; Query (api := demo_driver) 2 (text "b")) (ConnState demo_conn [0; 2006; 0; 2003]) = UB.
Proof. by vm_compute. Qed.
(** An exception of [close] in the handler ends the process. *)
Example close_throws : 
  match Worker (api := demo_driver) 2 2 0 (with_queue (Some (BlockingQueue.Queue false [Operation (text "a") 0])) (demo_pool [0; 2006; 2013])) with
  | Aborts p => promises p = ∅
  | _ => False
  end.
Proof. by vm_compute. Qed.
(** A callback that adds a query to a full vector invalidates the iterator. *)
Example callback_reallocates :
  InvokeIfReady (λ n, n) demo_program (<[0%nat := None]> ∅) 3 (Processor [QueryCallback 0 true] 1 0 []) = UB.
Proof. by vm_compute. Qed.
(** A pool of two connections, the second of which is not made. *)
Example init_pool :
  match InitPool (api := demo_driver) 3 1 (text "tcp://h;u;w") 2 (Pool (text "db") [] None ∅ 0 [0; 0; 2003]) with
  | Returns _ p => map conn_ (pool_ p) = [Some (Some 1%nat); None]
  | _ => False
  end.
Proof. by vm_compute. Qed.

End ConnPool.
