(* ===== verification/Reactor.v ===== *)
(** The event loop and the server of network_buffer_design (EventLoop.h,
    TcpServer.cc), over the connections of TcpConn.v.

    A connection is numbered by the address of its handler, which is what epoll
    gives back.  What the kernel answers is an argument: the results of the
    calls of [Start], the batches of [epoll_wait], the connection that [accept4]
    gives, the bytes read and taken.  The server of network_timer has the same
    code, and its loop runs the timers of NetTimer.v after each batch. *)
From stdpp Require Import gmap.
From S2P Require Import Prelude MessageBuffer TcpConn.

Module Reactor.
Import MessageBuffer TcpConn.

(** [descriptors] are the open ones that the server made; [stray_closes] the
    calls of [close] on a descriptor that was closed before. *)
Record reactor := Server {
  listen_fd_ : Z;
  new_conn_cb_ : bool;
  accepting : bool;
  conns : gmap nat TcpConn;
  descriptors : list Z;
  stray_closes : list Z;
}.
Definition with_conns cs s := Server (listen_fd_ s) (new_conn_cb_ s) (accepting s) cs (descriptors s) (stray_closes s).
Definition with_accepting b s := Server (listen_fd_ s) (new_conn_cb_ s) b (conns s) (descriptors s) (stray_closes s).
(** TcpServer::TcpServer. *)
Definition construct : reactor := Server (-1) false false ∅ [] [].

(** ** The listening socket *)

Definition socket (fd : Z) : prog reactor unit :=
  modS (λ s, Server fd (new_conn_cb_ s) (accepting s) (conns s) (if decide (fd = -1) then descriptors s else fd :: descriptors s) (stray_closes s)).
Definition close (fd : Z) : prog reactor unit :=
  modS (λ s, if decide (fd ∈ descriptors s)
    then Server (listen_fd_ s) (new_conn_cb_ s) (accepting s) (conns s) (filter (λ d, d ≠ fd) (descriptors s)) (stray_closes s)
    else Server (listen_fd_ s) (new_conn_cb_ s) (accepting s) (conns s) (descriptors s) (stray_closes s ++ [fd])).

(** [fd] is what [socket] returns; [oks] whether [setsockopt] (twice), [bind]
    and [listen] succeed. *)
Fixpoint prepare (oks : list bool) : prog reactor bool :=
  match oks with
  | [] => mret true
  | ok :: oks =>
      if ok then prepare oks else fd ← gets listen_fd_; close fd;; mret false
  end.
Definition Start (fd : Z) (reuseaddr reuseport bind listen : bool) (cb : bool) : prog reactor unit :=
  modS (λ s, Server (listen_fd_ s) cb (accepting s) (conns s) (descriptors s) (stray_closes s));;
  socket fd;;
  if decide (fd = -1) then mret ()
  else
    ok ← prepare [reuseaddr; reuseport; bind; listen];
    if ok : bool then modS (with_accepting true) else mret ().
(** TcpServer::~TcpServer. *)
Definition destroy : prog reactor unit :=
  fd ← gets listen_fd_;
  if decide (fd ≠ -1) then modS (with_accepting false);; close fd else mret ().

(** ** The loop *)

Section loop.
(** The limit of the input buffers, the callback of the reader, what the
    kernel takes, and the callback for a new connection, which answers whether
    it keeps the pointer. *)
Context (limit : Z) (read_cb : conn unit) (send : list Z → send_result) (on_connect : conn bool).

(** What may leave a handler: [std::bad_function_call] of an empty one, or the
    exception of the input buffer. *)
Inductive raised := BadCall | NoMemory.

(** A method of a connection; an address without object is undefined. *)
Definition on_conn {A} (p : nat) (m : conn A) : prog reactor A := λ s,
  match conns s !! p with
  | None => Undef
  | Some c =>
      match m c with
      | Done (a, c') => Done (a, with_conns (<[p := c']> (conns s)) s)
      | Undef => Undef
      | NoFuel => NoFuel
      end
  end.

(** [accept4] gives a connection, which is made at address [p], or fails; the
    object is destroyed when nobody has kept the pointer. *)
Definition HandleAccept (p : option nat) : prog reactor unit :=
  match p with
  | None => mret ()
  | Some p =>
      modS (λ s, with_conns (<[p := Conn false [] default_buffer false false None [] [] []]> (conns s)) s);;
      on_conn p (new_conn default_buffer);;
      cb ← gets new_conn_cb_;
      kept ← (if cb : bool then on_conn p on_connect else mret false);
      if kept : bool then mret ()
      else on_conn p TcpConn.destroy;; modS (λ s, with_conns (delete p (conns s)) s)
  end.

(** One element of the array that [epoll_wait] fills.  [others] are the calls
    of [Send] that the callback of the reader makes on other connections. *)
Inductive event :=
  | OnListen (accepted : option nat)
  | OnConn (p : nat) (mask : Z) (rd : readv_result) (others : list (nat * list Z * send_result)).

Fixpoint send_others (l : list (nat * list Z * send_result)) : prog reactor unit :=
  match l with
  | [] => mret ()
  | (p, data, r) :: l => on_conn p (Send (Some data) r);; send_others l
  end.
Definition handle (e : event) : prog reactor (option raised) :=
  match e with
  | OnListen p => HandleAccept p;; mret None
  | OnConn p mask rd others =>
      c ← getsO (λ s, conns s !! p);
      if negb (has_io_handler c) then mret (Some BadCall)
      else
        r ← on_conn p (HandleIO limit read_cb mask rd send);
        match r with
        | None => mret (Some NoMemory)
        | Some _ => send_others others;; mret None
        end
  end.
Fixpoint dispatch (l : list event) : prog reactor (option raised) :=
  match l with
  | [] => mret None
  | e :: l =>
      r ← handle e;
      match r with Some x => mret (Some x) | None => dispatch l end
  end.

(** [epoll_wait]: a batch, EINTR, or another error. *)
Inductive waited := Events (l : list event) | Interrupted | WaitFailed.
Inductive loop_end := Running | Returned | Raised (x : raised).
(** [n] rounds of [Run], the k-th with the answer of the kernel. *)
Fixpoint Run (kernel : nat → reactor → waited) (k n : nat) : prog reactor loop_end :=
  match n with
  | O => mret Running
  | S n =>
      w ← gets (kernel k);
      match w with
      | Interrupted => Run kernel (S k) n
      | WaitFailed => mret Returned
      | Events l =>
          r ← dispatch l;
          match r with Some x => mret (Raised x) | None => Run kernel (S k) n end
      end
  end.

(** ** Connections stay in order *)

Definition good (s : reactor) : Prop := ∀ p c, conns s !! p = Some c → ∃ act, connected limit act c.
Definition target (e : event) : option nat := match e with OnListen p => p | OnConn p _ _ _ => Some p end.
Definition others_of (e : event) : list (nat * list Z * send_result) := match e with OnListen _ => [] | OnConn _ _ _ others => others end.
(** What epoll and the calls that follow may report: every connection at most
    once, and only one that is registered; [accept4] gives new objects; [readv]
    fits; the callbacks send on other connections that there are. *)
Definition sends_on (s : reactor) (p : nat) (others : list (nat * list Z * send_result)) : Prop :=
  ∀ q data r, (q, data, r) ∈ others → q ≠ p ∧ is_Some (conns s !! q) ∧ send_ok r data.
Definition read_fits (rd : readv_result) (c : TcpConn) : Prop :=
  match rd with ReadBytes bs => zlength bs ≤ GetFreeSize (input_buffer_ c) + EXTRA | ReadError _ => True end.
Definition reports (s : reactor) (l : list event) : Prop :=
  NoDup (omap target l) ∧
  ∀ e, e ∈ l → match e with
  | OnListen None => True
  | OnListen (Some p) => conns s !! p = None
  | OnConn p _ rd others => (∃ c, conns s !! p = Some c ∧ interest c ≠ None ∧ read_fits rd c) ∧ sends_on s p others
  end.
(** In one of these events the callback sends on [p], and that fails. *)
Definition refused (l : list event) (p : nat) : Prop := ∃ e data r, e ∈ l ∧ (p, data, r) ∈ others_of e ∧ fatal r.
(** The two ways a batch goes wrong: a callback sends on a connection whose turn
    comes later in the batch, and the send fails; or a connection is reported
    readable and [readv] fails. *)
Definition send_closes_later (l : list event) : Prop :=
  ∃ pre p mask rd others rest, l = pre ++ OnConn p mask rd others :: rest ∧ refused pre p.
Definition failed_read (e : event) : Prop :=
  match e with OnConn _ mask (ReadError _) _ => bit mask EPOLLIN | _ => False end.

Hypothesis Hlimit : 4096 ≤ limit < 2 ^ 63.
Hypothesis read_cb_ok : ∀ act s, connected limit act s → act ≠ [] → ∃ act' s', read_cb s = Done ((), s') ∧ connected limit act' s'.
Hypothesis send_ok_all : ∀ out, send_ok (send out) out.
Hypothesis on_connect_ok : ∀ act s, connected limit act s → ∃ b act' s', on_connect s = Done (b, s') ∧ connected limit act' s'.

Lemma on_conn_bind {A B} p (m : conn A) (f : A → prog reactor B) s c a c' : conns s !! p = Some c → m c = Done (a, c') →
  (on_conn p m ≫= f) s = f a (with_conns (<[p := c']> (conns s)) s).
Proof. intros Hc Hm. apply bind_Done. unfold on_conn. by rewrite Hc, Hm. Qed.
Lemma good_insert s p c act : good s → connected limit act c → good (with_conns (<[p := c]> (conns s)) s).
Proof. intros Hs Hc q d Hq. cbn in Hq. apply lookup_insert_Some in Hq as [[_ <-]|[_ Hq]]; [by exists act|by eapply Hs]. Qed.
Lemma good_delete s p : good s → good (with_conns (delete p (conns s)) s).
Proof. intros Hs q d Hq. cbn in Hq. apply lookup_delete_Some in Hq as [_ Hq]. by eapply Hs. Qed.

Definition new_connection : TcpConn := Conn false [] default_buffer false true (Some (Z.lor EPOLLIN EPOLLRDHUP)) [] [] [].
Lemma new_connection_connected : connected limit [] new_connection.
Proof. split; [exists [], (vector_of 4096); split; [done|]|by split]. apply Z.le_trans with 4096; [vm_compute; discriminate|lia]. Qed.

Lemma HandleAccept_good p s : good s → (∀ q, p = Some q → conns s !! q = None) →
  ∃ s', HandleAccept p s = Done ((), s') ∧ good s' ∧ ∀ q, p ≠ Some q → conns s' !! q = conns s !! q.
Proof.
  intros Hs Hp. destruct p as [p|]; [|by exists s]. unfold HandleAccept. rewrite modS_bind.
  set (s1 := with_conns _ s). rewrite (on_conn_bind p _ _ s1 (Conn false [] default_buffer false false None [] [] []) () new_connection); [|apply lookup_insert_eq|done].
  rewrite gets_bind. set (s2 := with_conns _ s1).
  assert (conns s2 = <[p := new_connection]> (conns s)) as Hc2 by (cbn; by rewrite insert_insert_eq).
  assert (good s2) as Hs2.
  { intros q d Hq. rewrite Hc2 in Hq. apply lookup_insert_Some in Hq as [[_ <-]|[_ Hq]]; [exists []; apply new_connection_connected|by eapply Hs]. }
  assert (∃ b c2 act2, (if new_conn_cb_ s2 then on_conn p on_connect else mret false) s2 = Done (b, with_conns (<[p := c2]> (conns s)) s) ∧ connected limit act2 c2) as (b & c2 & act2 & Hrun & Hcon).
  { destruct (new_conn_cb_ s2).
    - destruct (on_connect_ok [] new_connection new_connection_connected) as (b & act' & c' & Hrun & Hcon). exists b, c', act'. split; [|done].
      unfold on_conn. rewrite Hc2, lookup_insert_eq, Hrun. unfold with_conns. cbn. by rewrite insert_insert_eq.
    - exists false, new_connection, []. split; [|apply new_connection_connected]. assert (s2 = with_conns (<[p := new_connection]> (conns s)) s) as -> by (unfold s2, s1, with_conns; cbn; by rewrite insert_insert_eq). done. }
  rewrite (bind_Done _ _ _ _ _ Hrun). destruct b.
  - eexists. split; [done|]. split; [by eapply good_insert|]. intros q Hq. cbn. by rewrite lookup_insert_ne by congruence.
  - destruct (Close_connected limit act2 c2 Hcon) as (c3 & Hclose & _).
    erewrite on_conn_bind; [|cbn; apply lookup_insert_eq|exact Hclose]. eexists. split; [done|]. split.
    + intros q d Hq. cbn in Hq. rewrite !delete_insert_eq in Hq. apply lookup_delete_Some in Hq as [_ Hq]. by eapply Hs.
    + intros q Hq. cbn. by rewrite lookup_delete_ne, !lookup_insert_ne by congruence.
Qed.

#[local] Instance failed_read_dec e : Decision (failed_read e).
Proof. destruct e as [|p mask [] o]; cbn; apply _. Defined.

(** The connections that epoll reported as hung up are closed. *)
Definition hung_up_closed (l : list event) (s : reactor) : Prop :=
  ∀ p mask rd others, OnConn p mask rd others ∈ l → bit mask (Z.lor (Z.lor EPOLLERR EPOLLHUP) EPOLLRDHUP) →
    ∃ c, conns s !! p = Some c ∧ closed_ c = true.

(** The events of a batch that are still to come, [pre] being handled. *)
Definition due (pre : list event) (s : reactor) (l : list event) : Prop :=
  NoDup (omap target l) ∧
  ∀ e, e ∈ l → match e with
  | OnListen None => True
  | OnListen (Some p) => conns s !! p = None
  | OnConn p _ rd others =>
      (∃ c, conns s !! p = Some c ∧ (interest c = None → refused pre p) ∧ read_fits rd c) ∧ sends_on s p others
  end.
Lemma reports_due s l : reports s l → due [] s l.
Proof. intros [Hnd Hl]. split; [done|]. intros e He. specialize (Hl e He). destruct e as [|p m rd o]; [done|]. naive_solver. Qed.

(** What [e] does to the connections that are not its own. *)
Definition spares (e : event) (s s' : reactor) : Prop :=
  (∀ q, is_Some (conns s !! q) → is_Some (conns s' !! q)) ∧
  ∀ q, target e ≠ Some q →
    match conns s !! q with
    | None => conns s' !! q = None
    | Some c => ∃ c', conns s' !! q = Some c' ∧ input_buffer_ c' = input_buffer_ c ∧
        (interest c' = None → interest c = None ∨ refused [e] q) ∧ (closed_ c = true → c' = c)
    end.

Lemma due_next pre e l s s' : due pre s (e :: l) → spares e s s' → due (pre ++ [e]) s' l.
Proof.
  intros [Hnd Hl] [Hall Hsp].
  assert (∀ e', e' ∈ l → ∀ q, target e' = Some q → target e ≠ Some q) as Hdiff.
  { intros e' He' q Hq Ht. cbn [omap list_omap] in Hnd. rewrite Ht in Hnd. apply NoDup_cons in Hnd as [Hno _]. apply Hno, list_elem_of_omap. by exists e'. }
  split; [cbn [omap list_omap] in Hnd; destruct (target e); [by apply NoDup_cons in Hnd as [_ ?]|done]|].
  intros e' He'. specialize (Hl e' (list_elem_of_further _ _ _ He')). pose proof (Hdiff e' He') as Hne.
  destruct e' as [[p|]|p mask rd others]; [|done|].
  - specialize (Hsp p (Hne p eq_refl)). by rewrite Hl in Hsp.
  - destruct Hl as [(c & Hc & Hi & Hfit) Hsend]. specialize (Hsp p (Hne p eq_refl)). rewrite Hc in Hsp.
    destruct Hsp as (c' & Hc' & Hin & Hi' & _). split.
    + exists c'. split; [done|]. split; [|unfold read_fits; by rewrite Hin].
      intros [Hn|(f & d & r & Hf & Hr)]%Hi'.
      * destruct (Hi Hn) as (f & d & r & Hf & Hr). exists f, d, r. split; [by apply elem_of_app; left|done].
      * exists f, d, r. split; [by apply elem_of_app; right|done].
    + intros q d r Hq. destruct (Hsend q d r Hq) as (? & ? & ?). naive_solver.
Qed.

Lemma interest_closed act c : connected limit act c → interest c = None → closed_ c = true.
Proof. intros [_ Hw] Hi. rewrite (wired_interest _ Hw) in Hi. by repeat case_match. Qed.
Lemma closed_interest act c : connected limit act c → closed_ c = true → interest c = None.
Proof. intros [_ Hw] Hc. by rewrite (wired_interest _ Hw), Hc. Qed.

Lemma send_others_good p l : ∀ s, good s → sends_on s p l →
  ∃ s', send_others l s = Done ((), s') ∧ good s' ∧ ∀ q,
    match conns s !! q with
    | None => conns s' !! q = None
    | Some c => ∃ c', conns s' !! q = Some c' ∧ input_buffer_ c' = input_buffer_ c ∧
        (interest c' = None → interest c = None ∨ ∃ data r, (q, data, r) ∈ l ∧ fatal r) ∧ (closed_ c = true → c' = c)
    end.
Proof.
  induction l as [|[[q0 data] r] l IH]; intros s Hs Hon.
  { exists s. split; [done|]. split; [done|]. intros q. destruct (conns s !! q) as [c|]; [exists c; auto|done]. }
  destruct (Hon q0 data r (list_elem_of_here _ _)) as (_ & [c0 Hc0] & Hok). destruct (Hs q0 c0 Hc0) as [act Hcon].
  destruct (Send_wired (Some data) r ltac:(naive_solver) c0 (connected_wired _ _ _ Hcon)) as (n & c1 & Hrun & Hw1 & Hin1).
  assert (connected limit act c1) as Hcon1 by (split; [rewrite Hin1; apply Hcon|done]).
  cbn [send_others]. rewrite (on_conn_bind q0 _ _ s c0 n c1 Hc0 Hrun). set (s1 := with_conns _ s).
  destruct (IH s1) as (s' & Hrun' & Hs' & Hrest).
  { by eapply good_insert. }
  { intros q d r' Hq. destruct (Hon q d r' (list_elem_of_further _ _ _ Hq)) as (? & ? & ?). split; [done|]. split; [|done].
    cbn. destruct (decide (q = q0)) as [->|]; [rewrite lookup_insert_eq; by eexists|by rewrite lookup_insert_ne]. }
  exists s'. split; [done|]. split; [done|]. intros q. specialize (Hrest q). cbn in Hrest.
  destruct (decide (q = q0)) as [->|Hne].
  - rewrite lookup_insert_eq in Hrest. rewrite Hc0. destruct Hrest as (c' & Hc' & Hin & Hi & Hst). exists c'. split; [done|]. split; [congruence|]. split.
    2:{ intros Hcl. pose proof (Send_of_closed (Some data) r c0 Hcl) as Hrun0. rewrite Hrun in Hrun0. injection Hrun0 as _ ->. by apply Hst. }
    intros [Hn|(d & r' & Hq & Hf)]%Hi; [|right; exists d, r'; split; [by apply list_elem_of_further|done]].
    destruct (Send_closed _ _ _ _ _ Hrun (interest_closed _ _ Hcon1 Hn)) as [Hcl|Hf]; [left; by eapply closed_interest|].
    right. exists data, r. split; [apply list_elem_of_here|done].
  - rewrite lookup_insert_ne in Hrest by done. destruct (conns s !! q) as [c|]; [|done].
    destruct Hrest as (c' & Hc' & Hin & Hi & Hst). exists c'. split; [done|]. split; [done|]. split; [|done].
    intros [Hn|(d & r' & Hq & Hf)]%Hi; [by left|right; exists d, r'; split; [by apply list_elem_of_further|done]].
Qed.

(** A result of [readv] that the round does not look at. *)
Lemma HandleIO_read c mask rd : ¬ failed_read (OnConn 0 mask rd []) → read_fits rd c →
  ∃ bs, zlength bs ≤ GetFreeSize (input_buffer_ c) + EXTRA ∧
    HandleIO limit read_cb mask rd send c = HandleIO limit read_cb mask (ReadBytes bs) send c.
Proof.
  intros Hf Hfit. destruct rd as [e|bs]; [|by exists bs]. cbn in Hf. exists []. split.
  - unfold GetFreeSize, u64, wrap. change (zlength []) with 0. pose proof (Z.mod_pos_bound (zlength (buffer_ (input_buffer_ c)) - wpos_ (input_buffer_ c)) (2 ^ 64)). lia.
  - unfold HandleIO. rewrite !gets_bind. destruct (closed_ c); [done|]. by rewrite !(decide_False (P := bit mask EPOLLIN)) by done.
Qed.

Lemma on_listen_good p pre l s : good s → due pre s (OnListen p :: l) →
  ∃ s', handle (OnListen p) s = Done (None, s') ∧ good s' ∧ spares (OnListen p) s s'.
Proof.
  intros Hs [_ Hl]. pose proof (Hl _ (list_elem_of_here _ _)) as He. cbn in He.
  destruct (HandleAccept_good p s Hs) as (s' & Hrun & Hs' & Hq); [intros q ->; done|].
  exists s'. unfold handle. rewrite (bind_Done _ _ _ _ _ Hrun). split; [done|]. split; [done|]. split.
  - intros q Hsome. rewrite Hq; [done|]. intros ->. rewrite He in Hsome. by destruct Hsome.
  - intros q Hne. rewrite Hq by done. destruct (conns s !! q) as [c|]; [exists c; auto|done].
Qed.

Lemma on_conn_good p mask rd others pre l s : let e := OnConn p mask rd others in
  good s → due pre s (e :: l) → ¬ failed_read e →
  ∃ r s', handle e s = Done (r, s') ∧ good s' ∧ (r = Some BadCall → refused pre p) ∧ (r = None → hung_up_closed [e] s') ∧ spares e s s'.
Proof.
  intros e Hs [_ Hl] Hfail. destruct (Hl _ (list_elem_of_here _ _)) as [(c & Hc & Hi & Hfit) Hon].
  destruct (Hs p c Hc) as [act Hcon]. unfold handle, e. rewrite (getsO_bind _ _ _ c) by exact Hc.
  destruct (has_io_handler c) eqn:Hh; cbn [negb].
  2:{ exists (Some BadCall), s. split; [done|]. split; [done|]. split; [|split; [done|]].
      - intros _. apply Hi, (closed_interest act c Hcon). rewrite (wired_handler _ (connected_wired _ _ _ Hcon)) in Hh. by destruct (closed_ c).
      - split; [done|]. intros q _. destruct (conns s !! q) as [d|]; [exists d; auto|done]. }
  destruct (HandleIO_read c mask rd Hfail Hfit) as (bs & Hbs & Heq).
  destruct (HandleIO_connected limit read_cb send ltac:(lia) read_cb_ok send_ok_all act c mask bs Hcon Hbs) as (x & act' & c' & Hrun & Hcon').
  rewrite <-Heq in Hrun. rewrite (on_conn_bind p _ _ s c x c' Hc Hrun). set (s1 := with_conns _ s).
  assert (good s1) as Hs1 by (by eapply good_insert).
  assert (∀ q, is_Some (conns s !! q) → is_Some (conns s1 !! q)) as Hsome.
  { intros q Hq. cbn. destruct (decide (q = p)) as [->|]; [rewrite lookup_insert_eq; by eexists|by rewrite lookup_insert_ne]. }
  assert (∀ q, target e ≠ Some q → conns s1 !! q = conns s !! q) as Hsame by (intros q Hq; cbn in *; by rewrite lookup_insert_ne by congruence).
  destruct x as [[]|].
  2:{ exists (Some NoMemory), s1. split; [done|]. split; [done|]. split; [done|]. split; [done|]. split; [done|].
      intros q Hq. rewrite Hsame by done. destruct (conns s !! q) as [d|]; [exists d; auto|done]. }
  destruct (send_others_good p others s1 Hs1) as (s' & Hrun' & Hs' & Hrest).
  { intros q d r Hq. destruct (Hon q d r Hq) as (? & ? & ?). auto. }
  exists None, s'. split; [by rewrite (bind_Done _ _ _ _ _ Hrun')|]. split; [done|]. split; [done|]. split; [|split].
  - intros _ p' mask' rd' others' [= -> -> -> ->]%list_elem_of_singleton Hbit. pose proof (HandleIO_hung_up _ _ _ _ _ _ _ Hbit Hrun) as Hcl.
    specialize (Hrest p). cbn in Hrest. rewrite lookup_insert_eq in Hrest. destruct Hrest as (d & Hd & _ & _ & Hst). exists d. by rewrite (Hst Hcl) in *.
  - intros q Hq. apply Hsome in Hq as [d Hd]. specialize (Hrest q). rewrite Hd in Hrest. destruct Hrest as (d' & ? & _). by exists d'.
  - intros q Hq. specialize (Hrest q). rewrite Hsame in Hrest by done. destruct (conns s !! q) as [d|]; [|done].
    destruct Hrest as (d' & Hd' & Hin & Hi' & Hst). exists d'. split; [done|]. split; [done|]. split; [|done].
    intros [Hn|(data & r & Ho & Hf)]%Hi'; [by left|]. right. exists e, data, r. split; [apply list_elem_of_here|done].
Qed.

Lemma dispatch_good l : ∀ pre s, good s → due pre s l →
  (∃ r s', dispatch l s = Done (r, s') ∧ good s' ∧
    (r = Some BadCall → ∃ mid p mask rd others rest, l = mid ++ OnConn p mask rd others :: rest ∧ refused (pre ++ mid) p) ∧
    (r = None → hung_up_closed l s') ∧ ∀ q c, Some q ∉ target <$> l → conns s !! q = Some c → closed_ c = true → conns s' !! q = Some c) ∨
  (∃ e, e ∈ l ∧ failed_read e).
Proof.
  induction l as [|e l IH]; intros pre s Hs Hr.
  { left. exists None, s. do 3 (split; [done|]). split; [|done]. by intros _ p mask rd others ?%elem_of_nil. } cbn [dispatch].
  destruct (decide (failed_read e)) as [Hf|Hf]; [right; exists e; split; [apply list_elem_of_here|done]|].
  assert (∃ r s', handle e s = Done (r, s') ∧ good s' ∧ (r = Some BadCall → ∃ p mask rd others, e = OnConn p mask rd others ∧ refused pre p) ∧
      (r = None → hung_up_closed [e] s') ∧ spares e s s')
    as (r & s1 & Hrun & Hs1 & Hbad & Hhup & Hsp).
  { destruct e as [p|p mask rd others].
    - destruct (on_listen_good p pre l s Hs Hr) as (s' & ? & ? & ?). exists None, s'. do 3 (split; [done|]).
      split; [|done]. by intros _ p' mask rd others ?%list_elem_of_singleton.
    - destruct (on_conn_good p mask rd others pre l s Hs Hr Hf) as (r & s' & ? & ? & ? & ? & ?). exists r, s'. split; [done|]. split; [done|].
      split; [|done]. intros Hb. exists p, mask, rd, others. auto. }
  assert (∀ q c, Some q ≠ target e → conns s !! q = Some c → closed_ c = true → conns s1 !! q = Some c) as Hstay.
  { intros q c Hq Hc Hcl. destruct Hsp as [_ Hsp]. specialize (Hsp q ltac:(congruence)). rewrite Hc in Hsp. destruct Hsp as (c' & Hc' & _ & _ & Hst).
    by rewrite Hc', (Hst Hcl). }
  rewrite (bind_Done _ _ _ _ _ Hrun). destruct r as [x|].
  - left. exists (Some x), s1. split; [done|]. split; [done|]. split; [|split; [done|]].
    + intros Hx. destruct (Hbad Hx) as (p & mask & rd & others & -> & Href). exists [], p, mask, rd, others, l. by rewrite app_nil_r.
    + intros q c Hq. apply Hstay. intros Heq. apply Hq. rewrite Heq. by left.
  - destruct (IH (pre ++ [e]) s1 Hs1 (due_next _ _ _ _ _ Hr Hsp)) as [(r & s' & Hd & Hs' & Hb & Hup & Hst)|(e' & He' & Hf')].
    + left. exists r, s'. split; [done|]. split; [done|]. split; [|split].
      * intros Hx. destruct (Hb Hx) as (mid & p & mask & rd & others & rest & -> & Href).
        exists (e :: mid), p, mask, rd, others, rest. split; [done|]. by rewrite <-(assoc (++)) in Href.
      * intros Hn p mask rd others [<-|He]%elem_of_cons Hbit; [|by eapply (Hup Hn)].
        destruct (Hhup eq_refl p mask rd others) as (c & Hc & Hcl); [by apply list_elem_of_singleton|done|]. exists c. split; [|done].
        apply Hst; [|done|done]. intros Hin. destruct Hr as [Hnd _]. cbn [omap list_omap target] in Hnd. apply NoDup_cons in Hnd as [Hno _]. apply Hno.
        apply list_elem_of_fmap in Hin as (e' & Heq & He'). apply list_elem_of_omap. by exists e'.
      * intros q c Hq Hc Hcl. apply not_elem_of_cons in Hq as [Hne Hq]. apply Hst; [done| |done]. by apply Hstay.
    + right. exists e'. split; [by apply list_elem_of_further|done].
Qed.

(** Round [k + j] of the run is reached and gets the batch [l]. *)
Definition gets_batch kernel k s j l : Prop := ∃ s1, Run kernel k j s = Done (Running, s1) ∧ good s1 ∧ kernel (k + j)%nat s1 = Events l.

Lemma Run_S kernel k n s : Run kernel k (S n) s =
  match kernel k s with
  | Interrupted => Run kernel (S k) n s
  | WaitFailed => Done (Returned, s)
  | Events l => (r ← dispatch l; match r with Some x => mret (Raised x) | None => Run kernel (S k) n end) s
  end.
Proof. cbn [Run]. rewrite gets_bind. by destruct (kernel k s). Qed.
(** The round after [j] others. *)
Lemma Run_snoc kernel j : ∀ k s s1, Run kernel k j s = Done (Running, s1) → Run kernel k (S j) s = Run kernel (k + j) 1 s1.
Proof.
  induction j as [|j IH]; intros k s s1; [intros [= <-]; by rewrite Nat.add_0_r|].
  replace (k + S j)%nat with (S k + j)%nat by lia. rewrite (Run_S kernel k j), (Run_S kernel k (S j)).
  destruct (kernel k s) as [l| |]; [|apply (IH (S k))|done].
  intros (r & s0 & Hd & Hrun)%bind_inv. rewrite (bind_Done _ _ _ _ _ Hd). destruct r as [x|]; [by injection Hrun|]. by apply (IH (S k)).
Qed.

End loop.

(** ** Runs *)

(** The callback of main_msgbuf.cc, which keeps the pointer. *)
Definition keep_and_answer : conn bool := SetReadCallback;; mret true.
Definition demo_bytes : list Z := [72; 105; 13; 10].
(** A kernel that gives connections 1 and 2 and then reports bytes on both; the
    callback of the first sends on the second, which its peer has reset. *)
Definition demo_kernel (k : nat) (s : reactor) : waited :=
  match k, conns s !! 1%nat, conns s !! 2%nat with
  | O, None, None => Events [OnListen (Some 1%nat); OnListen (Some 2%nat)]
  | S O, Some c, Some d =>
      match interest c, interest d with
      | Some _, Some _ =>
          if decide (zlength demo_bytes ≤ GetFreeSize (input_buffer_ c) + EXTRA ∧ zlength demo_bytes ≤ GetFreeSize (input_buffer_ d) + EXTRA)
          then Events [OnConn 1 EPOLLIN (ReadBytes demo_bytes) [(2%nat, hello, SendError 104)]; OnConn 2 EPOLLIN (ReadBytes demo_bytes) []]
          else Interrupted
      | _, _ => Interrupted
      end
  | _, _, _ => Interrupted
  end.
Definition demo_start : reactor := Server 5 true true ∅ [5] [].

Lemma demo_reports k s : match demo_kernel k s with Events l => reports s l | _ => True end.
Proof.
  unfold demo_kernel. destruct k as [|[|k]]; destruct (conns s !! 1%nat) as [c|] eqn:Hc, (conns s !! 2%nat) as [d|] eqn:Hd; try done.
  - split; [by apply (bool_decide_unpack _); vm_compute|]. intros e [->|He%list_elem_of_singleton]%elem_of_cons; by subst.
  - destruct (interest c) as [ev|] eqn:Hi; [|done]. destruct (interest d) as [ev'|] eqn:Hi'; [|done]. case_decide as Hfit; [|done].
    split; [by apply (bool_decide_unpack _); vm_compute|]. intros e [->|He%list_elem_of_singleton]%elem_of_cons; [|subst e].
    + split; [exists c; rewrite Hi; split; [done|split; [done|apply Hfit]]|]. intros q data r [= -> -> ->]%list_elem_of_singleton. split; [done|]. split; [by exists d|done].
    + split; [exists d; rewrite Hi'; split; [done|split; [done|apply Hfit]]|]. intros q data r Hq. by apply not_elem_of_nil in Hq.
Qed.
Lemma demo_connect act s : connected (2 ^ 20) act s → ∃ b act' s', keep_and_answer s = Done (b, s') ∧ connected (2 ^ 20) act' s'.
Proof. intros [Hi [Hs Hin Hh]]. eexists true, act, _. split; [done|]. split; [exact Hi|by split]. Qed.

(** In these two rounds the first connection has sent five bytes of its answer,
    and the loop has called the empty handler of the second. *)
Example demo_wire :
  match Run (2 ^ 20) (answer_line five) five keep_and_answer demo_kernel 0 2 demo_start with
  | Done (e, s') => wire <$> (conns s' !! 1%nat) = Some [72; 101; 108; 108; 111] ∧ e = Raised BadCall
  | _ => False
  end.
Proof. by vm_compute. Qed.

(** A [Start] that fails closes its socket and keeps the number: the destructor
    closes it again, whoever has it then. *)
Example failed_start_closes_twice :
  match (Start 5 true true false true true;; destroy) construct with
  | Done (_, s) => stray_closes s = [5]
  | _ => False
  end.
Proof. by vm_compute. Qed.
(** Two connections are reported together, and the callback of the first sends
    on the second, which its peer has reset: [Close] empties the handler of the
    second, and its turn in the batch calls an empty function. *)
Example send_closes_the_next :
  match dispatch (2 ^ 20) (answer_line five) five keep_and_answer
    [OnConn 1 EPOLLIN (ReadBytes demo_bytes) [(2%nat, hello, SendError 104)]; OnConn 2 EPOLLIN (ReadBytes demo_bytes) []]
    (Server 5 true true (<[1%nat := accepted]> (<[2%nat := accepted]> ∅)) [5] []) with
  | Done (r, _) => r = Some BadCall
  | _ => False
  end.
Proof. by vm_compute. Qed.

End Reactor.
