(* ===== verification/SetTimer.v ===== *)
(** The timer on a [std::set], timer/timer.cc, and what timer_with_timerfd.cc
    adds to it.

    The set is the list of its elements in order; an iterator is the element it
    is at.  A callback is a list of calls of the timer, which may depend on the
    timer's state; the clock is the sequence of its readings. *)
From S2P Require Import Prelude.

Module SetTimer.
Section timer.
(** The function objects, and the n-th reading of [GetTick]. *)
Context {C : Type} (clock : nat → Z).

Record TimerNode := Node { expire : Z; id : Z; func : C }.

(** [operator<], which looks at the base only. *)
Definition node_lt (lhd rhd : Z * Z) : bool :=
  if decide (lhd.1 < rhd.1) then true
  else if decide (lhd.1 > rhd.1) then false
  else bool_decide (lhd.2 < rhd.2).
Definition key (n : TimerNode) : Z * Z := (expire n, id n).

(** [reads] counts the readings of the clock; [fired] and [dropped] list the
    nodes whose callback was called and those that [DelTimer] erased. *)
Record Timer := mkTimer {
  gid : Z; timeouts : list TimerNode; reads : nat; fired : list TimerNode; dropped : list TimerNode }.
Definition construct : Timer := mkTimer 0 [] 0 [] [].
Definition with_timeouts m t := mkTimer (gid t) m (reads t) (fired t) (dropped t).

Definition GetTick : prog Timer Z := λ t,
  Done (clock (reads t), mkTimer (gid t) (timeouts t) (S (reads t)) (fired t) (dropped t)).
(** An [int64_t]: undefined beyond its range. *)
Definition in64 (x : Z) : option Z := if decide (- 2 ^ 63 ≤ x < 2 ^ 63) then Some x else None.
Definition GenID : prog Timer Z :=
  g ← gets gid;
  next ← getsO (λ _, in64 (g + 1));
  modS (λ t, mkTimer next (timeouts t) (reads t) (fired t) (dropped t));;
  mret g.

(** [emplace]: nothing happens when an equivalent element is there; the result
    is the element in the set. *)
Fixpoint emplace (x : TimerNode) (m : list TimerNode) : TimerNode * list TimerNode :=
  match m with
  | [] => (x, [x])
  | y :: m' =>
      if node_lt (key x) (key y) then (x, x :: m)
      else if node_lt (key y) (key x) then let r := emplace x m' in (r.1, y :: r.2)
      else (y, m)
  end.
(** [emplace_hint] before the end, which the callee uses if it is right. *)
Definition emplace_hint_end (x : TimerNode) (m : list TimerNode) : TimerNode * list TimerNode :=
  match last m with
  | Some y => if node_lt (key y) (key x) then (x, m ++ [x]) else emplace x m
  | None => (x, [x])
  end.

Definition AddTimer (msec : Z) (f : C) : prog Timer (Z * Z) :=
  now ← GetTick;
  e ← getsO (λ _, in64 (now + msec));
  m ← gets timeouts;
  i ← GenID;
  let x := Node e i f in
  let r := match last m with
    | None => emplace x m
    | Some y => if decide (e ≤ expire y) then emplace x m else emplace_hint_end x m
    end in
  modS (with_timeouts r.2);;
  mret (key r.1).

(** [find]: the element equivalent to the key. *)
Definition equivalent (k : Z * Z) (n : TimerNode) : Prop := node_lt k (key n) = false ∧ node_lt (key n) k = false.
#[export] Instance equivalent_dec k n : Decision (equivalent k n).
Proof. unfold equivalent. apply _. Defined.
Fixpoint erase_key (k : Z * Z) (m : list TimerNode) : option (TimerNode * list TimerNode) :=
  match m with
  | [] => None
  | x :: m => if decide (equivalent k x) then Some (x, m) else '(y, m) ← erase_key k m; Some (y, x :: m)
  end.
Definition DelTimer (k : Z * Z) : prog Timer bool :=
  r ← gets (λ t, erase_key k (timeouts t));
  match r with
  | Some (x, m) => modS (λ t, mkTimer (gid t) m (reads t) (fired t) (dropped t ++ [x]));; mret true
  | None => mret false
  end.

Definition TimeToSleep : prog Timer Z :=
  iter ← gets (λ t, head (timeouts t));
  match iter with
  | None => mret (-1)
  | Some x =>
      now ← GetTick;
      diss ← getsO (λ _, in64 (expire x - now));
      mret (if decide (diss > 0) then diss else 0)
  end.

(** What a callback does with the timer. *)
Inductive call := Add (msec : Z) (f : C) | Del (k : Z * Z).
Definition do_call (c : call) : prog Timer unit :=
  match c with
  | Add msec f => AddTimer msec f;; mret ()
  | Del k => DelTimer k;; mret ()
  end.
Definition do_calls (cs : list call) : prog Timer unit := foldr (λ c k, do_call c;; k) (mret ()) cs.
(** The callback is given its node. *)
Context (body : C → TimerNode → Timer → list call).
Definition run_callback (x : TimerNode) : prog Timer unit :=
  calls ← gets (body (func x) x);
  modS (λ t, mkTimer (gid t) (timeouts t) (reads t) (fired t ++ [x]) (dropped t));;
  do_calls calls.

(** [erase(iter)]: undefined if a callback has erased the element. *)
Fixpoint erase_iter (k : Z * Z) (m : list TimerNode) : option (option TimerNode * list TimerNode) :=
  match m with
  | [] => None
  | x :: m =>
      if decide (key x = k) then Some (head m, m)
      else '(iter, m) ← erase_iter k m; Some (iter, x :: m)
  end.
Fixpoint handle_loop (fuel : nat) (now : Z) (iter : option TimerNode) : prog Timer unit :=
  match fuel, iter with
  | _, None => mret ()
  | O, _ => out_of_fuel
  | S fuel, Some x =>
      if decide (expire x ≤ now) then
        run_callback x;;
        r ← getsO (λ t, erase_iter (key x) (timeouts t));
        modS (with_timeouts r.2);;
        handle_loop fuel now r.1
      else mret ()
  end.
Definition HandleTimer (fuel : nat) (now : Z) : prog Timer unit :=
  iter ← gets (λ t, head (timeouts t)); handle_loop fuel now iter.

(** timer_with_timerfd.cc: the absolute time that the descriptor is set to;
    zero disarms it. *)
Record timespec := Timespec { tv_sec : Z; tv_nsec : Z }.
Definition UpdateTimerfd (t : Timer) : timespec :=
  match head (timeouts t) with
  | Some x => Timespec (Z.quot (expire x) 1000) (Z.rem (expire x) 1000 * 1000000)
  | None => Timespec 0 0
  end.

(** ** The set *)

Definition before (x y : TimerNode) : Prop := node_lt (key x) (key y) = true.
Lemma node_lt_spec a b : node_lt a b = true ↔ a.1 < b.1 ∨ a.1 = b.1 ∧ a.2 < b.2.
Proof. unfold node_lt. repeat case_decide; try case_bool_decide; naive_solver lia. Qed.
Lemma node_lt_false a b : node_lt a b = false ↔ b.1 < a.1 ∨ b.1 = a.1 ∧ b.2 ≤ a.2.
Proof. unfold node_lt. repeat case_decide; try case_bool_decide; naive_solver lia. Qed.
Lemma equivalent_key k n : equivalent k n ↔ k = key n.
Proof. unfold equivalent. rewrite !node_lt_false. destruct k as [a b]. unfold key. cbn. split; [|intros [= -> ->]; lia]. intros. f_equal; lia. Qed.
Lemma before_trans x y z : before x y → before y z → before x z.
Proof. unfold before. rewrite !node_lt_spec. lia. Qed.

(** In order, with identifiers that were given out. *)
Record wf (t : Timer) : Prop := {
  wf_sorted : StronglySorted before (timeouts t);
  wf_ids : Forall (λ x, id x < gid t) (timeouts t);
  wf_gid : - 2 ^ 63 ≤ gid t;
}.

(** With a new identifier nothing equivalent is there. *)
Lemma emplace_run x m : Forall (λ y, id y < id x) m → StronglySorted before m →
  (emplace x m).1 = x ∧ (emplace x m).2 ≡ₚ x :: m ∧ StronglySorted before (emplace x m).2 ∧
  (∀ y, Forall (before y) m → before y x → Forall (before y) (emplace x m).2).
Proof.
  intros Hid Hs. induction Hs as [|y m Hs IH Hall]; cbn.
  { split; [done|]. split; [done|]. split; [by repeat constructor|]. intros y _ Hy. by constructor. }
  inv Hid. destruct (node_lt (key x) (key y)) eqn:Hxy; cbn.
  { split; [done|]. split; [done|]. split; [|by intros; constructor]. constructor; [by constructor|]. constructor; [done|].
    apply (Forall_impl _ _ _ Hall). intros z Hz. exact (before_trans x y z Hxy Hz). }
  destruct (node_lt (key y) (key x)) eqn:Hyx; cbn.
  - destruct (IH ltac:(done)) as (H1' & Hp & Hs' & Hb). split; [done|]. split; [rewrite Hp; apply Permutation_swap|]. split.
    + constructor; [done|]. by apply Hb.
    + intros z Hz Hzx. inv Hz. constructor; [done|]. by apply Hb.
  - apply node_lt_false in Hxy, Hyx. unfold key in *. cbn in *. lia.
Qed.
(** The hint only saves time. *)
Lemma emplace_last x m : Forall (λ y, before y x) m → emplace x m = (x, m ++ [x]).
Proof.
  induction 1 as [|y m Hy _ IH]; cbn; [done|]. rewrite Hy. assert (node_lt (key x) (key y) = false) as -> by (apply node_lt_false; apply node_lt_spec in Hy; lia).
  by rewrite IH.
Qed.
Lemma emplace_hint_end_emplace x m : StronglySorted before m → emplace_hint_end x m = emplace x m.
Proof.
  intros Hs. unfold emplace_hint_end. destruct (last m) as [y|] eqn:Hl; [|by apply last_None in Hl as ->].
  destruct (node_lt (key y) (key x)) eqn:Hyx; [|done]. symmetry. apply emplace_last. apply last_Some in Hl as [m' ->].
  apply Forall_app. split; [|by repeat constructor]. apply Forall_forall. intros z Hz. apply (before_trans z y); [|done].
  apply (StronglySorted_app_1_elem_of _ _ _ z y Hs Hz). by left.
Qed.

Definition added (t : Timer) (msec : Z) (f : C) : TimerNode := Node (clock (reads t) + msec) (gid t) f.
Lemma AddTimer_run msec f t : wf t → - 2 ^ 63 ≤ clock (reads t) + msec < 2 ^ 63 → gid t + 1 < 2 ^ 63 →
  let x := added t msec f in
  let t' := mkTimer (gid t + 1) (emplace x (timeouts t)).2 (S (reads t)) (fired t) (dropped t) in
  AddTimer msec f t = Done (key x, t') ∧ wf t'.
Proof.
  intros [Hs Hid Hg] He Hn. cbn zeta. set (x := added t msec f).
  destruct (emplace_run x (timeouts t) Hid Hs) as (Hx & Hp & Hs' & _). split.
  - unfold AddTimer, GetTick. rewrite (bind_Done _ _ _ (clock (reads t)) (mkTimer (gid t) (timeouts t) (S (reads t)) (fired t) (dropped t))) by done.
    rewrite (getsO_bind _ _ _ (clock (reads t) + msec)) by (unfold in64; by rewrite decide_True). rewrite gets_bind.
    rewrite (bind_Done _ _ _ (gid t) (mkTimer (gid t + 1) (timeouts t) (S (reads t)) (fired t) (dropped t))).
    2:{ unfold GenID. rewrite gets_bind. cbn [gid]. rewrite (getsO_bind _ _ _ (gid t + 1)) by (unfold in64; rewrite decide_True by lia; done). by rewrite modS_bind. }
    cbn [timeouts]. fold (added t msec f). fold x.
    assert (match last (timeouts t) with None => emplace x (timeouts t) | Some y => if decide (clock (reads t) + msec ≤ expire y) then emplace x (timeouts t) else emplace_hint_end x (timeouts t) end = emplace x (timeouts t)) as ->.
    { destruct (last (timeouts t)); [|done]. case_decide; [done|]. by apply emplace_hint_end_emplace. }
    rewrite modS_bind. by rewrite Hx.
  - split; cbn; [done| |lia]. rewrite Hp. constructor; [cbn; lia|]. eapply Forall_impl; [done|]. cbn. lia.
Qed.

Lemma erase_key_spec k m : match erase_key k m with
  | Some (x, m') => key x = k ∧ ∃ m1 m2, m = m1 ++ x :: m2 ∧ m' = m1 ++ m2
  | None => k ∉ key <$> m end.
Proof.
  induction m as [|x m IH]; cbn; [by apply not_elem_of_nil|]. case_decide as Hd; rewrite equivalent_key in Hd.
  - split; [done|]. by exists [], m.
  - destruct (erase_key k m) as [[y m']|]; cbn.
    + destruct IH as (Hy & m1 & m2 & -> & ->). split; [done|]. by exists (x :: m1), m2.
    + intros [->|?]%elem_of_cons; done.
Qed.
Lemma sorted_erase m1 x m2 : StronglySorted before (m1 ++ x :: m2) → StronglySorted before (m1 ++ m2).
Proof.
  rewrite !StronglySorted_app. intros (Hb & H1' & H2'). inv H2'. split; [|done]. intros y z Hy Hz. apply Hb; [done|by right].
Qed.
Lemma DelTimer_run k t : wf t → ∃ t' D, DelTimer k t = Done (bool_decide (k ∈ key <$> timeouts t), t') ∧ wf t' ∧
  gid t' = gid t ∧ reads t' = reads t ∧ fired t' = fired t ∧ dropped t' = dropped t ++ D ∧ timeouts t ≡ₚ D ++ timeouts t' ∧
  (∀ x m, timeouts t = x :: m → k ≠ key x → ∃ m', timeouts t' = x :: m').
Proof.
  intros [Hs Hid Hg]. unfold DelTimer. rewrite gets_bind. pose proof (erase_key_spec k (timeouts t)) as Hk.
  destruct (erase_key k (timeouts t)) as [[y m']|] eqn:He.
  - destruct Hk as (Hy & m1 & m2 & Hm & ->). rewrite modS_bind. rewrite bool_decide_true by (rewrite Hm, <-Hy; set_solver).
    eexists _, [y]. split; [done|]. cbn. rewrite Hm in Hs, Hid |- *. split.
    { split; cbn; [by eapply sorted_erase| |done]. rewrite Forall_app in Hid |- *. destruct Hid as [? Hid2]. by inv Hid2. }
    do 4 (split; [done|]). split; [solve_Permutation|]. intros x m Hx Hne. destruct m1 as [|z m1]; cbn in Hx; injection Hx as <- <-; [congruence|]. by exists (m1 ++ m2).
  - rewrite bool_decide_false by done. exists t, []. rewrite app_nil_r. split; [done|]. split; [by split|]. do 5 (split; [done|]). intros x m ->. by exists m.
Qed.

(** ** A round *)

(** Callbacks that add only later timers, and do not delete the timer that
    runs; [b] bounds how many calls one makes. *)
Section round.
Context (now hi b : Z).
Definition allowed (x : TimerNode) (a : call) : Prop :=
  match a with Add msec _ => 0 < msec ∧ hi + msec < 2 ^ 63 | Del k => k ≠ key x end.
Hypothesis now_range : - 2 ^ 63 ≤ now.
Hypothesis clock_range : ∀ n, now ≤ clock n ≤ hi.
Hypothesis body_allowed : ∀ x t, Forall (allowed x) (body (func x) x t) ∧ zlength (body (func x) x t) ≤ b.

Lemma set_calls_run cs x m t :
  Forall (allowed x) cs → wf t → timeouts t = x :: m → expire x ≤ now → gid t + zlength cs < 2 ^ 63 →
  ∃ t' m' A D, do_calls cs t = Done ((), t') ∧ wf t' ∧ timeouts t' = x :: m' ∧ D ++ m' ≡ₚ m ++ A ∧ Forall (λ y, now < expire y) A ∧
    fired t' = fired t ∧ dropped t' = dropped t ++ D ∧ gid t' ≤ gid t + zlength cs.
Proof.
  intros Hcs. revert t m. induction Hcs as [|c cs Hc _ IH]; intros t m Hwf Hm Hx Hg.
  { exists t, m, [], []. rewrite !app_nil_r. cbn. rewrite zlength_nil. repeat (split; [done|]). lia. }
  rewrite zlength_cons in Hg. pose proof (zlength_nonneg cs) as Hlen. destruct c as [msec f|k]; cbn in Hc.
  - pose proof (clock_range (reads t)) as Hcl. destruct (AddTimer_run msec f t Hwf) as [Hrun Hwf']; [lia|lia|]. set (y := added t msec f) in *.
    assert (now < expire y) as Hy by (cbn; lia).
    assert ((emplace y (timeouts t)).2 = x :: (emplace y m).2) as Hm'.
    { rewrite Hm. cbn [emplace]. assert (node_lt (key x) (key y) = true) as Hxy by (apply node_lt_spec; left; cbn in *; lia).
      rewrite Hxy. assert (node_lt (key y) (key x) = false) as -> by (apply node_lt_false; left; cbn in *; lia). done. }
    assert ((emplace y m).2 ≡ₚ y :: m) as Hp.
    { pose proof (wf_sorted t Hwf) as Hs. pose proof (wf_ids t Hwf) as Hid. rewrite Hm in Hs, Hid. inv Hs. inv Hid. by apply emplace_run. }
    edestruct (IH _ (emplace y m).2 Hwf' Hm' Hx) as (t' & m' & A & D & Hfold & Hwf'' & Hm'' & Hp' & HA & Hf & Hd & Hg'); [cbn; lia|].
    exists t', m', (y :: A), D. split.
    { cbn [do_calls foldr do_call]. rewrite (prog_run _ _ (prog_assoc (AddTimer msec f) _ _)). by rewrite (bind_Done _ _ _ _ _ Hrun). }
    split; [done|]. split; [done|]. split; [rewrite Hp', Hp; solve_Permutation|]. split; [by constructor|]. split; [done|]. split; [done|].
    cbn in Hg'. rewrite zlength_cons. lia.
  - destruct (DelTimer_run k t Hwf) as (t1 & D1 & Hrun & Hwf1 & Hg1 & Hr1 & Hf1 & Hd1 & Hp1 & Hhead).
    destruct (Hhead x m Hm Hc) as [m1 Hm1]. rewrite Hm, Hm1 in Hp1.
    assert (m ≡ₚ D1 ++ m1) as Hp1'. { apply (Permutation_cons_inv (a := x)). rewrite Hp1. solve_Permutation. }
    destruct (IH t1 m1 Hwf1 Hm1 Hx) as (t' & m' & A & D & Hfold & Hwf'' & Hm'' & Hp' & HA & Hf & Hd & Hg'); [lia|].
    exists t', m', A, (D1 ++ D). split.
    { cbn [do_calls foldr do_call]. rewrite (prog_run _ _ (prog_assoc (DelTimer k) _ _)). by rewrite (bind_Done _ _ _ _ _ Hrun). }
    split; [done|]. split; [done|]. split; [rewrite Hp1', <-!(assoc (++)), Hp'; done|]. split; [done|]. split; [congruence|].
    split; [by rewrite Hd, Hd1, (assoc (++))|]. rewrite zlength_cons. lia.
Qed.

Lemma erase_iter_head x m : erase_iter (key x) (x :: m) = Some (head m, m).
Proof. cbn. by rewrite decide_True. Qed.
Lemma set_wf_tail t x m : wf t → timeouts t = x :: m → wf (with_timeouts m t).
Proof. intros [Hs Hid Hg] Hm. rewrite Hm in *. split; cbn; [by inv Hs|by inv Hid|done]. Qed.

(** The due timers that are still there bound the calls to come. *)
Definition due (m : list TimerNode) : nat := length (filter (λ y, expire y ≤ now) m).
Lemma due_perm D m' m A : D ++ m' ≡ₚ m ++ A → Forall (λ y, now < expire y) A → (due m' ≤ due m)%nat.
Proof.
  intros Hp HA. apply (filter_Permutation (λ y, expire y ≤ now)) in Hp. rewrite !filter_app in Hp.
  rewrite (filter_none _ A), app_nil_r in Hp. 2:{ intros y Hy Hd. rewrite Forall_forall in HA. specialize (HA y Hy). cbn in HA. lia. }
  apply Permutation_length in Hp. rewrite length_app in Hp. unfold due. lia.
Qed.

Lemma set_loop_run fuel t :
  wf t → (due (timeouts t) < fuel)%nat → gid t + b * Z.of_nat (due (timeouts t)) < 2 ^ 63 →
  ∃ t' F D A, handle_loop fuel now (head (timeouts t)) t = Done ((), t') ∧ wf t' ∧ fired t' = fired t ++ F ∧ dropped t' = dropped t ++ D ∧
    StronglySorted before F ∧ Forall (λ y, expire y ≤ now) F ∧ Forall (λ y, now < expire y) (timeouts t') ∧ Forall (λ y, now < expire y) A ∧
    F ++ D ++ timeouts t' ≡ₚ timeouts t ++ A.
Proof.
  revert t. induction fuel as [|fuel IH]; intros t Hwf Hfuel Hg; [lia|]. destruct (timeouts t) as [|x m] eqn:Hm.
  { exists t, [], [], []. cbn. rewrite !app_nil_r, Hm. repeat (split; [done||constructor|]). done. }
  cbn [head handle_loop]. destruct (decide (expire x ≤ now)) as [Hx|Hx].
  - assert (due (x :: m) = S (due m)) as Hdue by (unfold due; by rewrite filter_cons_True).
    destruct (body_allowed x t) as [Hbody Hlen]. pose proof (zlength_nonneg (body (func x) x t)) as Hnn.
    set (t1 := mkTimer (gid t) (timeouts t) (reads t) (fired t ++ [x]) (dropped t)).
    destruct (set_calls_run (body (func x) x t) x m t1) as (t2 & m' & A & D & Hcalls & Hwf2 & Hm2 & Hp & HA & Hf & Hd & Hg2); [done|by destruct Hwf|done|done|cbn; nia|].
    rewrite (bind_Done _ _ _ () t2) by (unfold run_callback; by rewrite gets_bind, modS_bind).
    rewrite (getsO_bind _ _ _ (head m', m')) by (rewrite Hm2; apply erase_iter_head). rewrite modS_bind. cbn [fst snd].
    pose proof (set_wf_tail t2 x m' Hwf2 Hm2) as Hwf3. pose proof (due_perm _ _ _ _ Hp HA) as Hle.
    destruct (IH (with_timeouts m' t2) Hwf3) as (t' & F & D' & A' & Hrun & Hwf' & Hf' & Hd' & HF & HFd & Hrest & HA' & Hp'); [change (due m' < fuel)%nat; lia|change (gid t2 + b * Z.of_nat (due m') < 2 ^ 63); change (gid t1) with (gid t) in Hg2; nia|].
    cbn [timeouts with_timeouts fired dropped] in *. exists t', (x :: F), (D ++ D'), (A ++ A'). split; [exact Hrun|]. split; [done|].
    split; [rewrite Hf', Hf; cbn; by rewrite <-(assoc (++))|]. split; [by rewrite Hd', Hd, <-(assoc (++))|]. split.
    { constructor; [done|]. apply Forall_forall. intros y Hy. rewrite Forall_forall in HFd. specialize (HFd y Hy). cbn in HFd.
      assert (y ∈ m' ++ A') as [Hin|Hin]%elem_of_app; [rewrite <-Hp'; apply elem_of_app; by left| |].
      - pose proof (wf_sorted _ Hwf2) as Hs. rewrite Hm2 in Hs. inv Hs. rewrite Forall_forall in *. auto.
      - rewrite Forall_forall in HA'. specialize (HA' y Hin). cbn in HA'. lia. }
    split; [by constructor|]. split; [done|]. split; [by apply Forall_app|].
    cbn. apply Permutation_skip. rewrite (assoc (++)), <-(assoc (++)). etransitivity; [|rewrite (assoc (++)), <-Hp; rewrite <-(assoc (++)), <-Hp'; reflexivity]. solve_Permutation.
  - exists t, [], [], []. rewrite !app_nil_r, Hm. cbn. split; [done|]. split; [done|]. split; [done|]. split; [done|]. split; [constructor|]. split; [constructor|].
    split; [|split; [constructor|done]]. pose proof (wf_sorted t Hwf) as Hs. rewrite Hm in Hs. inv Hs. constructor; [lia|].
    eapply Forall_impl; [done|]. intros y Hy. apply node_lt_spec in Hy. cbn in Hy. cbn. lia.
Qed.
End round.

(** A round of [HandleTimer], whose callbacks may add later timers and
    delete any but their own, ends: every timer that was due is called once, in
    the order of expiry, or was deleted by a callback before its turn; nothing
    that is due stays, and nothing is called or lost besides. *)
Theorem HandleTimer_spec now hi b t :
  - 2 ^ 63 ≤ now → (∀ n, now ≤ clock n ≤ hi) →
  (∀ x t, Forall (allowed hi x) (body (func x) x t) ∧ zlength (body (func x) x t) ≤ b) →
  wf t → gid t + b * zlength (timeouts t) < 2 ^ 63 →
  ∃ t' F D A, HandleTimer (S (length (timeouts t))) now t = Done ((), t') ∧ wf t' ∧
    fired t' = fired t ++ F ∧ dropped t' = dropped t ++ D ∧ StronglySorted before F ∧ Forall (λ y, expire y ≤ now) F ∧
    Forall (λ y, now < expire y) (timeouts t') ∧ Forall (λ y, now < expire y) A ∧ F ++ D ++ timeouts t' ≡ₚ timeouts t ++ A.
Proof.
  intros Hnow Hclock Hbody Hwf Hg.
  pose proof (length_filter (λ y, expire y ≤ now) (timeouts t)) as Hle.
  assert (b * Z.of_nat (due now (timeouts t)) ≤ b * zlength (timeouts t)) as Hb.
  { destruct (timeouts t) as [|x m]; [unfold zlength; cbn; lia|]. destruct (Hbody x t) as [_ Hl]. pose proof (zlength_nonneg (body (func x) x t)).
    unfold due, zlength in *. nia. }
  unfold HandleTimer. rewrite gets_bind. apply (set_loop_run now hi b Hnow Hclock Hbody); [done|unfold due; lia|lia].
Qed.

(** The time that the descriptor of timer_with_timerfd.cc gets is the expiry of
    the first timer. *)
Lemma UpdateTimerfd_spec t x m : timeouts t = x :: m → 0 ≤ expire x →
  let ts := UpdateTimerfd t in
  0 ≤ tv_nsec ts < 1000000000 ∧ tv_sec ts * 1000 + tv_nsec ts / 1000000 = expire x.
Proof.
  intros Hm Hx. unfold UpdateTimerfd. rewrite Hm. cbn. rewrite Z.quot_div_nonneg, Z.rem_mod_nonneg by lia.
  rewrite Z.div_mul by lia. pose proof (Z.mod_pos_bound (expire x) 1000). pose proof (Z.div_mod (expire x) 1000). lia.
Qed.
(** [TimeToSleep] is at most the time to the first expiry, and never negative
    but for an empty set. *)
Lemma TimeToSleep_spec t x m : timeouts t = x :: m → - 2 ^ 63 ≤ expire x - clock (reads t) < 2 ^ 63 →
  ∃ t', TimeToSleep t = Done (Z.max 0 (expire x - clock (reads t)), t') ∧ timeouts t' = timeouts t.
Proof.
  intros Hm Hr. unfold TimeToSleep. rewrite gets_bind, Hm. cbn [head]. eexists. unfold GetTick.
  rewrite (bind_Done _ _ _ (clock (reads t)) (mkTimer (gid t) (timeouts t) (S (reads t)) (fired t) (dropped t))) by done.
  rewrite (getsO_bind _ _ _ (expire x - clock (reads t))) by (unfold in64; by rewrite decide_True).
  unfold mret, prog_ret. split; [do 2 f_equal; case_decide; lia|done].
Qed.
End timer.
Arguments Timer : clear implicits.
Arguments call : clear implicits.

(** ** Runs *)

(** The four timers of the program, of which the last is deleted; the first
    callback deletes the second timer and adds one. *)
Definition demo_body (c : Z) (x : TimerNode (C := Z)) (_ : Timer Z) : list (call Z) :=
  if decide (key x = (1000, 0)) then [Del (1000, 1); Add 5 7] else [].
Definition demo_add : prog (Timer Z) bool :=
  AddTimer (λ _, 0) 1000 0;; AddTimer (λ _, 0) 1000 1;; AddTimer (λ _, 0) 3000 2;; k ← AddTimer (λ _, 0) 2100 3; DelTimer k.
Definition demo_state : Timer Z := match demo_add construct with Done (_, t) => t | _ => construct end.
Example demo_set : key <$> timeouts demo_state = [(1000, 0); (1000, 1); (3000, 2)].
Proof. by vm_compute. Qed.

Lemma HandleTimer_spec_witness : ∃ t', HandleTimer (λ _, 1200) demo_body 4 1200 demo_state = Done ((), t') ∧
  key <$> fired t' = [(1000, 0)] ∧ key <$> timeouts t' = [(1205, 4); (3000, 2)].
Proof.
  destruct (HandleTimer_spec (λ _, 1200) demo_body 1200 1200 2 demo_state) as (t' & F & D & A & Hrun & _).
  - lia.
  - lia.
  - intros x t. unfold demo_body. case_decide as Hx; [|split; [constructor|vm_compute; discriminate]].
    split; [|vm_compute; discriminate]. apply Forall_cons; split; [cbn; by rewrite Hx|]. apply Forall_cons; split; [cbn; lia|by apply Forall_nil].
  - split; [|repeat constructor; cbn; lia|vm_compute; discriminate].
    repeat constructor.
  - by vm_compute.
  - exists t'. split; [exact Hrun|]. vm_compute in Hrun. injection Hrun as <-. by split.
Defined.

(** A callback that deletes its own timer leaves the loop with an invalid
    iterator. *)
Example self_delete_set :
  (AddTimer (λ _, 0) 10 0;; HandleTimer (λ _, 15) (λ _ x _, [Del (key x)]) 4 15) (construct (C := Z)) = Undef.
Proof. by vm_compute. Qed.
End SetTimer.
