(* ===== verification/MemoryOrders.v ===== *)
(** What the memory orders of atomic_lock/acquire_release.cc, relaxed.cc,
    relaxed2.cc and seq_cst.cc allow.

    A location holds the messages of its stores in modification order; here
    every location but [z] has one writer.  A thread has a view, the oldest
    message of each location that it may still read; a load reads any message
    that is not older, which then is the oldest one.  A release store carries
    the view of its thread, and an acquire load that reads it takes the view
    over.  Sequentially consistent accesses share a view besides.  A load never
    reads a store that comes later (no load buffering).  [z] is only changed by
    [++z], an atomic read-modify-write, which always acts on the last value. *)
From S2P Require Import Prelude.

Module MemoryOrders.

Inductive order := Relaxed | Acquire | Release | SeqCst.
(** [l.store(v, o)], [while (!l.load(o));] and [if (l.load(o)) ++z;]. *)
Inductive instr := Store (l v : nat) (o : order) | Await (l : nat) (o : order) | IfIncr (l : nat) (o : order).

Record message := Msg { value : nat; carried : list nat }.
Record thread := Thread { code : list instr; view : list nat }.
Record state := State { memory : list (list message); threads : list thread; sc_view : list nat; z : nat }.
#[global] Instance order_eq_dec : EqDecision order. Proof. solve_decision. Defined.
#[global] Instance instr_eq_dec : EqDecision instr. Proof. solve_decision. Defined.
#[global] Instance message_eq_dec : EqDecision message. Proof. solve_decision. Defined.
#[global] Instance thread_eq_dec : EqDecision thread. Proof. solve_decision. Defined.
#[global] Instance state_eq_dec : EqDecision state. Proof. solve_decision. Defined.

(** ** Views *)

Definition at_ (w : list nat) (l : nat) : nat := default 0%nat (w !! l).
Definition join (w w' : list nat) : list nat := zip_with Nat.max w w'.
Definition raise (l k : nat) (w : list nat) : list nat := <[l := (at_ w l `max` k)%nat]> w.
Definition acquires (o : order) : bool := match o with Acquire | SeqCst => true | _ => false end.
Definition releases (o : order) : bool := match o with Release | SeqCst => true | _ => false end.
Definition is_sc (o : order) : bool := match o with SeqCst => true | _ => false end.

(** ** Accesses *)

(** The messages that a load may read: value, view and shared view after it. *)
Definition loads (l : nat) (o : order) (w : list nat) (s : state) : list (nat * list nat * list nat) :=
  let ms := default [] (memory s !! l) in
  let oldest := (if is_sc o then at_ w l `max` at_ (sc_view s) l else at_ w l)%nat in
  flat_map (λ k, match ms !! k with
    | Some m =>
        let w' := raise l k w in
        [(value m, if acquires o then join w' (carried m) else w', if is_sc o then raise l k (sc_view s) else sc_view s)]
    | None => []
    end) (seq oldest (length ms - oldest)).

Definition set_thread (i : nat) (t : thread) (s : state) : state := State (memory s) (<[i := t]> (threads s)) (sc_view s) (z s).
Definition set_sc (w : list nat) (s : state) : state := State (memory s) (threads s) w (z s).
Definition add_z (n : nat) (s : state) : state := State (memory s) (threads s) (sc_view s) (z s + n).

(** The steps of thread [i]. *)
Definition thread_next (i : nat) (t : thread) (s : state) : list state :=
  match code t with
  | [] => []
  | Store l v o :: rest =>
      let ms := default [] (memory s !! l) in
      let k := length ms in
      let w := raise l k (view t) in
      let m := Msg v (if releases o then w else raise l k (replicate (length (view t)) 0%nat)) in
      [set_thread i (Thread rest w) (State (<[l := ms ++ [m]]> (memory s)) (threads s) (if is_sc o then raise l k (sc_view s) else sc_view s) (z s))]
  | Await l o :: rest =>
      (λ '(v, w, c), set_sc c (set_thread i (Thread (if decide (v = 0%nat) then code t else rest) w) s)) <$> loads l o (view t) s
  | IfIncr l o :: rest =>
      (λ '(v, w, c), add_z (if decide (v = 0%nat) then 0 else 1) (set_sc c (set_thread i (Thread rest w) s))) <$> loads l o (view t) s
  end.
Definition next (s : state) : list state :=
  flat_map (λ i, match threads s !! i with Some t => thread_next i t s | None => [] end) (seq 0 (length (threads s))).

(** ** The programs *)

Abbreviation X := 0%nat (only parsing).
Abbreviation Y := 1%nat (only parsing).
(** [main] stores false to [x] and [y] before it starts the threads. *)
Definition start (codes : list (list instr)) : state :=
  State [[Msg 0 [0; 0]]; [Msg 0 [0; 0]]]%nat ((λ c, Thread c [0; 0]%nat) <$> codes) [0; 0]%nat 0.
Definition write_x_then_y (o : order) : list instr := [Store X 1 Relaxed; Store Y 1 o].
Definition read_y_then_x (o : order) : list instr := [Await Y o; IfIncr X Relaxed].
(** acquire_release.cc and relaxed.cc. *)
Definition acquire_release : state := start [write_x_then_y Release; read_y_then_x Acquire].
Definition relaxed : state := start [write_x_then_y Relaxed; read_y_then_x Relaxed].
(** The four threads of relaxed2.cc and of seq_cst.cc. *)
Definition write_x (o : order) : list instr := [Store X 1 o].
Definition write_y (o : order) : list instr := [Store Y 1 o].
Definition read_x_then_y (o : order) : list instr := [Await X o; IfIncr Y o].
Definition read_y_then_x_all (o : order) : list instr := [Await Y o; IfIncr X o].
Definition four_threads (o : order) : state := start [write_x o; write_y o; read_x_then_y o; read_y_then_x_all o].
Definition relaxed2 : state := four_threads Relaxed.
Definition seq_cst : state := four_threads SeqCst.

(** What [main] can print after it has joined the threads. *)
Inductive reachable (s0 : state) : state → Prop :=
  | reachable_start : reachable s0 s0
  | reachable_next s s' : reachable s0 s → s' ∈ next s → reachable s0 s'.
Definition finished (s : state) : Prop := Forall (λ t, code t = []) (threads s).
#[global] Instance finished_dec s : Decision (finished s).
Proof. unfold finished. apply _. Defined.
Definition prints (s0 : state) (v : nat) : Prop := ∃ s, reachable s0 s ∧ finished s ∧ z s = v.

(** ** All reachable states *)

Definition grow (R : list state) : list state := remove_dups (R ++ flat_map next R).
Definition closed (R : list state) : bool := forallb (λ s, forallb (λ s', bool_decide (s' ∈ R)) (next s)) R.

Lemma grow_reachable s0 R : (∀ s, s ∈ R → reachable s0 s) → ∀ s, s ∈ grow R → reachable s0 s.
Proof.
  intros HR s Hs. unfold grow in Hs. apply elem_of_remove_dups, elem_of_app in Hs as [Hs|Hs]; [by apply HR|].
  apply list_elem_of_In, in_flat_map in Hs as (s1 & Hs1 & Hs). eapply reachable_next; [apply HR|]; by apply list_elem_of_In.
Qed.
Lemma iter_reachable s0 n s : s ∈ Nat.iter n grow [s0] → reachable s0 s.
Proof.
  revert s. induction n as [|n IH]; intros s Hs; cbn in Hs; [|by eapply grow_reachable].
  apply list_elem_of_singleton in Hs. subst s. constructor.
Qed.
Lemma closed_sound s0 R s : s0 ∈ R → closed R = true → reachable s0 s → s ∈ R.
Proof.
  intros H0 HR. induction 1 as [|s s' _ IH Hs']; [done|]. unfold closed in HR. rewrite forallb_forall in HR.
  apply list_elem_of_In in IH. pose proof (HR s IH) as Hs. rewrite forallb_forall in Hs. apply list_elem_of_In in Hs'.
  pose proof (Hs s' Hs') as Hd. cbn in Hd. by apply bool_decide_eq_true in Hd.
Qed.
(** What is printed can be computed once the set of states does not grow. *)
Lemma prints_iff n s0 v : closed (Nat.iter n grow [s0]) = true → bool_decide (s0 ∈ Nat.iter n grow [s0]) = true →
  prints s0 v ↔ v ∈ remove_dups (z <$> filter finished (Nat.iter n grow [s0])).
Proof.
  intros Hc H0%bool_decide_eq_true. rewrite elem_of_remove_dups, list_elem_of_fmap. split.
  - intros (s & Hr & Hf & <-). exists s. split; [done|]. apply list_elem_of_filter. split; [done|]. by eapply closed_sound.
  - intros (s & -> & Hs). apply list_elem_of_filter in Hs as [Hf Hs]. exists s. split; [by eapply iter_reachable|done].
Qed.
(** What the programs print.  With release and acquire, a thread that has
    seen [y] sees [x]: [z] is 1.  With relaxed accesses it may be 0.  Of four
    relaxed threads both readers may miss the other store, and [z] may be 0, 1
    or 2; with sequentially consistent accesses one of them sees both, and [z]
    is never 0. *)
Theorem memory_orders v :
  (prints acquire_release v ↔ v = 1%nat) ∧
  (prints relaxed v ↔ v = 0%nat ∨ v = 1%nat) ∧
  (prints relaxed2 v ↔ v = 0%nat ∨ v = 1%nat ∨ v = 2%nat) ∧
  (prints seq_cst v ↔ v = 1%nat ∨ v = 2%nat).
Proof.
  assert (∀ s0 l, closed (Nat.iter 8 grow [s0]) = true → bool_decide (s0 ∈ Nat.iter 8 grow [s0]) = true →
    remove_dups (z <$> filter finished (Nat.iter 8 grow [s0])) = l → prints s0 v ↔ v ∈ l) as Hl.
  { intros s0 l Hc H0 <-. by apply prints_iff. }
  rewrite (Hl acquire_release [1%nat]), (Hl relaxed [0; 1]%nat), (Hl relaxed2 [2; 0; 1]%nat), (Hl seq_cst [2; 1]%nat) by (by vm_compute).
  rewrite !elem_of_cons, !elem_of_nil. clear Hl. tauto.
Qed.

(** Release and acquire alone are not enough for the four threads: the readers
    may see the two stores in different orders. *)
Definition four_acquire_release : state :=
  start [write_x Release; write_y Release; read_x_then_y Acquire; read_y_then_x_all Acquire].
Example acquire_release_not_enough : prints four_acquire_release 0.
Proof. apply (prints_iff 8); [by vm_compute|by vm_compute|]. apply (bool_decide_unpack _). by vm_compute. Qed.
End MemoryOrders.
