(* ===== verification/FmtInt.v ===== *)
(** FmtInt: the digits of integers as fmt writes them (format.h of the copy
    under src/mysql-conn-pool/fmt): how many there are, and the loops that
    write them into a buffer from the right.  The cells of a buffer are
    [option]s: [None] is a cell that was not written. *)
From S2P Require Import Prelude Bytes.

Module FmtInt.

(** ** How many digits *)

Definition bsr2log10_data : list Z :=
  [1;  1;  1;  2;  2;  2;  3;  3;  3;  4;  4;  4;  4;  5;  5;  5;
   6;  6;  6;  7;  7;  7;  7;  8;  8;  8;  9;  9;  9;  10; 10; 10;
   10; 11; 11; 11; 12; 12; 12; 13; 13; 13; 13; 14; 14; 14; 15; 15;
   15; 16; 16; 16; 16; 17; 17; 17; 18; 18; 18; 19; 19; 19; 19; 20].
Definition bsr2log10 (bsr : Z) : option Z := zlookup bsr2log10_data bsr.

(** [FMT_POWERS_OF_10(factor)] *)
Definition powers_of_10 (factor : Z) : list Z :=
  [factor * 10; factor * 100; factor * 1000; factor * 10000; factor * 100000;
   factor * 1000000; factor * 10000000; factor * 100000000; factor * 1000000000].
Definition zero_or_powers_of_10_32_new : list Z := [0; 0] ++ powers_of_10 1.
Definition zero_or_powers_of_10_64_new : list Z :=
  [0; 0] ++ powers_of_10 1 ++ powers_of_10 1000000000 ++ [10000000000000000000].

(** [__builtin_clz], [__builtin_clzll] of a number that is not 0. *)
Definition clz (w n : Z) : Z := w - 1 - Z.log2 n.

Definition count_digits_64 (n : Z) : option Z :=
  t ← bsr2log10 (Z.lxor (clz 64 (Z.lor n 1)) 63);
  p ← zlookup zero_or_powers_of_10_64_new t;
  Some (t - (if decide (n < p) then 1 else 0)).
Definition count_digits_32 (n : Z) : option Z :=
  t ← bsr2log10 (Z.lxor (clz 32 (Z.lor n 1)) 31);
  p ← zlookup zero_or_powers_of_10_32_new t;
  Some (t - (if decide (n < p) then 1 else 0)).
(** The overload that an unsigned integer of [w] bits selects. *)
Definition count_digits (w n : Z) : option Z :=
  if decide (w ≤ 32) then count_digits_32 n else count_digits_64 n.

(** The variant for compilers without the builtin. *)
Fixpoint count_digits_fallback (fuel : nat) (n count : Z) : option Z :=
  match fuel with
  | O => None
  | S fuel =>
      if decide (n < 10) then Some count else
      if decide (n < 100) then Some (count + 1) else
      if decide (n < 1000) then Some (count + 2) else
      if decide (n < 10000) then Some (count + 3) else
      count_digits_fallback fuel (n / 10000) (count + 4)
  end.

(** [count_digits<BITS>] *)
Fixpoint count_digits_bits (fuel : nat) (BITS n num_digits : Z) : option Z :=
  match fuel with
  | O => None
  | S fuel =>
      let num_digits := num_digits + 1 in
      let n := Z.shiftr n BITS in
      if decide (n ≠ 0) then count_digits_bits fuel BITS n num_digits else Some num_digits
  end.

(** ** Writing them *)

Fixpoint pairs (s : bytes) : list (Z * Z) :=
  match s with a :: b :: s => (a, b) :: pairs s | _ => [] end.
Definition digits_table : list (Z * Z) := pairs (
  text "0001020304050607080910111213141516171819" ++
  text "2021222324252627282930313233343536373839" ++
  text "4041424344454647484950515253545556575859" ++
  text "6061626364656667686970717273747576777879" ++
  text "8081828384858687888990919293949596979899").
Definition hex_digits : bytes := text "0123456789abcdef".
Definition upper_digits : bytes := text "0123456789ABCDEF".

Abbreviation buffer := (list (option Z)).

Definition copy2 (dst : Z) (src : Z * Z) (buf : buffer) : option buffer :=
  buf ← zupdate dst (Some src.1) buf;
  zupdate (dst + 1) (Some src.2) buf.

Fixpoint format_decimal_loop (fuel : nat) (buf : buffer) (out value : Z) : option (buffer * Z) :=
  match fuel with
  | O => None
  | S fuel =>
      if decide (100 ≤ value) then
        let out := out - 2 in
        d ← zlookup digits_table (value mod 100);
        buf ← copy2 out d buf;
        format_decimal_loop fuel buf out (value / 100)
      else if decide (value < 10) then
        buf ← zupdate (out - 1) (Some (48 + value)) buf;
        Some (buf, out - 1)
      else
        let out := out - 2 in
        d ← zlookup digits_table value;
        buf ← copy2 out d buf;
        Some (buf, out)
  end.
(** The buffer, and where the digits begin and end. *)
Definition format_decimal (w : Z) (buf : buffer) (out value size : Z) : option (buffer * Z * Z) :=
  c ← count_digits w value;
  if decide (c ≤ size) then
    r ← format_decimal_loop (S (Z.to_nat size)) buf (out + size) value;
    Some (r.1, r.2, out + size)
  else None.

Definition digits10 (w : Z) : Z := if decide (w ≤ 32) then 9 else 19.

(** The text of cells that were all written. *)
Definition read_cells (b e : Z) (buf : buffer) : option bytes :=
  mapM id (drop (Z.to_nat b) (take (Z.to_nat e) buf)).

(** [format_decimal] into an output iterator that is no pointer. *)
Definition format_decimal_it (w value size : Z) : option bytes :=
  let buffer := replicate (Z.to_nat (digits10 w + 1)) None in
  r ← format_decimal w buffer 0 value size;
  read_cells 0 r.2 r.1.1.

Definition digit_char (BASE_BITS : Z) (upper : bool) (digit : Z) : option Z :=
  if decide (BASE_BITS < 4) then Some (48 + digit)
  else zlookup (if upper then upper_digits else hex_digits) digit.
Fixpoint format_uint_loop (fuel : nat) (BASE_BITS : Z) (upper : bool) (buf : buffer) (out value : Z) : option buffer :=
  match fuel with
  | O => None
  | S fuel =>
      let digit := Z.land value (Z.shiftl 1 BASE_BITS - 1) in
      c ← digit_char BASE_BITS upper digit;
      buf ← zupdate (out - 1) (Some c) buf;
      let value := Z.shiftr value BASE_BITS in
      if decide (value ≠ 0) then format_uint_loop fuel BASE_BITS upper buf (out - 1) value else Some buf
  end.
Definition format_uint (BASE_BITS : Z) (buf : buffer) (out value num_digits : Z) (upper : bool) : option (buffer * Z) :=
  buf ← format_uint_loop 65 BASE_BITS upper buf (out + num_digits) value;
  Some (buf, out + num_digits).
(** [format_uint] into an output iterator. *)
Definition format_uint_it (BASE_BITS w value num_digits : Z) (upper : bool) : option bytes :=
  let buffer := replicate (Z.to_nat (w / BASE_BITS + 1)) None in
  r ← format_uint BASE_BITS buffer 0 value num_digits upper;
  read_cells 0 num_digits r.1.

Example format_decimal_ex : format_decimal_it 32 4294967295 10 = Some (text "4294967295").
Proof. reflexivity. Qed.
Example format_uint_ex : format_uint_it 4 64 48879 4 true = Some (text "BEEF").
Proof. reflexivity. Qed.

(** ** Numerals: the reference *)

(** The digits of [x] in base [b], the most significant first; [dig] is the
    character of a digit. *)
Fixpoint numeral_aux (fuel : nat) (b : Z) (dig : Z → Z) (x : Z) : bytes :=
  match fuel with
  | O => []
  | S fuel => if decide (x < b) then [dig x] else numeral_aux fuel b dig (x / b) ++ [dig (x mod b)]
  end.
Definition numeral (b : Z) (dig : Z → Z) (x : Z) : bytes := numeral_aux 64 b dig x.

(** The number that characters stand for. *)
Definition value_of (b : Z) (val : Z → Z) (l : bytes) : Z := foldl (λ a c, a * b + val c) 0 l.

(** [d] is the number of digits of [x]. *)
Definition digits_of (b x d : Z) : Prop := 1 ≤ d ∧ (d = 1 ∨ b ^ (d - 1) ≤ x) ∧ x < b ^ d.

Section numerals.
Context (b : Z) (dig : Z → Z).
Hypothesis Hb : 2 ≤ b.

Lemma numeral_aux_S fuel x :
  0 ≤ x < b ^ Z.of_nat fuel → (0 < fuel)%nat → numeral_aux (S fuel) b dig x = numeral_aux fuel b dig x.
Proof.
  revert x. induction fuel as [|fuel IH]; intros x Hx Hf; [lia|].
  change (numeral_aux (S (S fuel)) b dig x) with
    (if decide (x < b) then [dig x] else numeral_aux (S fuel) b dig (x / b) ++ [dig (x mod b)]).
  cbn [numeral_aux]. case_decide as Hd; [done|]. f_equal.
  rewrite Nat2Z.inj_succ, Z.pow_succ_r in Hx by lia.
  destruct fuel as [|fuel]; [change (b ^ Z.of_nat 0) with 1 in Hx; lia|].
  apply IH; [|lia]. split; [apply Z.div_pos; lia|apply Z.div_lt_upper_bound; lia].
Qed.

Lemma pow64 : 2 ^ 64 ≤ b ^ 63 * b.
Proof.
  replace (b ^ 63 * b) with (b ^ 64) by (replace 64 with (63 + 1) at 1 by lia; rewrite Z.pow_add_r, Z.pow_1_r; lia).
  apply Z.pow_le_mono_l. lia.
Qed.

Lemma numeral_unfold x : numeral b dig x = if decide (x < b) then [dig x] else numeral_aux 63 b dig (x / b) ++ [dig (x mod b)].
Proof. reflexivity. Qed.

Lemma numeral_small x : 0 ≤ x < b → numeral b dig x = [dig x].
Proof. intros Hx. rewrite numeral_unfold. by rewrite decide_True by lia. Qed.

Lemma numeral_step x : b ≤ x < 2 ^ 64 → numeral b dig x = numeral b dig (x / b) ++ [dig (x mod b)].
Proof.
  intros Hx. pose proof pow64 as Hp. rewrite numeral_unfold, decide_False by lia. unfold numeral.
  rewrite (numeral_aux_S 63); [done| |lia].
  split; [apply Z.div_pos; lia|apply Z.div_lt_upper_bound; change (Z.of_nat 63) with 63; lia].
Qed.

(** Induction along the digits. *)
Lemma numeral_ind (P : Z → Prop) :
  (∀ x, 0 ≤ x < b → P x) → (∀ x, b ≤ x < 2 ^ 64 → P (x / b) → P x) → ∀ x, 0 ≤ x < 2 ^ 64 → P x.
Proof.
  intros H0 H1 x Hx. assert (∃ n, x < b ^ Z.of_nat n) as [n Hn].
  { exists 64%nat. pose proof pow64. change (Z.of_nat 64) with (63 + 1). rewrite Z.pow_add_r, Z.pow_1_r; lia. }
  revert x Hx Hn. induction n as [|n IH]; intros x Hx Hn; [apply H0; cbn in Hn; lia|].
  destruct (decide (x < b)); [apply H0; lia|].
  apply H1; [lia|]. assert (0 ≤ x / b) by (apply Z.div_pos; lia).
  assert (x / b < x) by (apply Z.div_lt; lia).
  apply IH; [lia|]. rewrite Nat2Z.inj_succ, Z.pow_succ_r in Hn by lia. apply Z.div_lt_upper_bound; lia.
Qed.

Lemma numeral_digits_of x : 0 ≤ x < 2 ^ 64 → digits_of b x (zlength (numeral b dig x)).
Proof.
  revert x. apply (numeral_ind (λ x, digits_of b x (zlength (numeral b dig x)))); intros x Hx.
  - rewrite numeral_small by lia. unfold digits_of. change (zlength _) with 1. rewrite Z.pow_1_r. lia.
  - rewrite (numeral_step x) by lia. rewrite zlength_app. change (zlength [_]) with 1.
    generalize (zlength (numeral b dig (x / b))). intros d (Hd & Hlo & Hhi). unfold digits_of.
    assert (x = b * (x / b) + x mod b) as Heq by (apply Z.div_mod; lia).
    assert (0 ≤ x mod b < b) by (apply Z.mod_pos_bound; lia).
    assert (1 ≤ x / b) by (apply Z.div_le_lower_bound; lia).
    rewrite Z.pow_add_r, Z.pow_1_r by lia. replace (d + 1 - 1) with (d - 1 + 1) by lia. rewrite (Z.pow_add_r b (d - 1)), Z.pow_1_r by lia.
    split; [lia|]. split; [right|nia]. destruct Hlo as [->|Hlo]; [cbn; nia|nia].
Qed.

(** A number has one number of digits. *)
Lemma digits_of_unique x d1 d2 : 0 ≤ x → digits_of b x d1 → digits_of b x d2 → d1 = d2.
Proof.
  intros Hx. enough (∀ d1 d2, digits_of b x d1 → digits_of b x d2 → ¬ d1 < d2) as H.
  { intros H1 H2. pose proof (H _ _ H1 H2). pose proof (H _ _ H2 H1). lia. }
  clear d1 d2. intros d1 d2 (? & _ & Hhi) (? & Hlo & _) Hlt. destruct Hlo as [?|Hlo]; [lia|].
  assert (b ^ d1 ≤ b ^ (d2 - 1)) by (apply Z.pow_le_mono_r; lia). lia.
Qed.

(** The digits of a number stand for the number. *)
Lemma value_of_numeral val x :
  (∀ d, 0 ≤ d < b → val (dig d) = d) → 0 ≤ x < 2 ^ 64 → value_of b val (numeral b dig x) = x.
Proof.
  intros Hval. revert x. apply (numeral_ind (λ x, value_of b val (numeral b dig x) = x)); intros x Hx.
  - rewrite numeral_small by lia. unfold value_of. cbn [foldl]. rewrite Hval by lia. lia.
  - intros IH. rewrite numeral_step by lia. unfold value_of in *. rewrite foldl_app, IH. cbn [foldl].
    rewrite Hval by (apply Z.mod_pos_bound; lia). rewrite (Z.div_mod x b) at 3 by lia. lia.
Qed.
End numerals.

(** The decimal digits, also as Bytes.v writes them. *)
Definition dec : Z → bytes := numeral 10 (λ d, 48 + d).

Lemma digits_dec x fuel acc : 0 ≤ x < 2 ^ 64 → x < 10 ^ Z.of_nat fuel → (0 < fuel)%nat → digits fuel x acc = dec x ++ acc.
Proof.
  intros Hx. revert fuel acc. pattern x. revert x Hx. apply (numeral_ind 10); [lia|..]; intros x Hx.
  - intros [|fuel] acc Hf ?; [lia|]. cbn [digits]. unfold dec. rewrite numeral_small by lia.
    rewrite Z.div_small, Z.mod_small by lia. done.
  - intros IH [|fuel] acc Hf ?; [lia|]. cbn [digits]. unfold dec. rewrite numeral_step by lia.
    assert (1 ≤ x / 10) by (apply Z.div_le_lower_bound; lia). rewrite decide_False by lia.
    rewrite Nat2Z.inj_succ, Z.pow_succ_r in Hf by lia.
    destruct fuel as [|fuel]; [change (10 ^ Z.of_nat 0) with 1 in Hf; lia|].
    rewrite IH by (lia || apply Z.div_lt_upper_bound; lia). unfold dec. by rewrite <-app_assoc.
Qed.

Lemma decimal_dec x : - 2 ^ 64 < x < 2 ^ 64 → decimal x = if decide (x < 0) then 45 :: dec (- x) else dec x.
Proof.
  intros Hx. unfold decimal. case_decide; rewrite digits_dec by (change (10 ^ Z.of_nat 20) with 100000000000000000000; lia);
    by rewrite app_nil_r.
Qed.

(** ** [count_digits] *)

(** What the tables say for a number whose highest bit is [b]. *)
Definition log_row (powers : list Z) (b : Z) : Prop :=
  match bsr2log10 b with
  | Some t => match zlookup powers t with
              | Some p => 1 ≤ t ∧ 2 ^ (b + 1) ≤ 10 ^ t ∧ p = (if decide (t = 1) then 0 else 10 ^ (t - 1)) ∧
                          (t ≤ 2 ∨ 10 ^ (t - 2) ≤ 2 ^ b)
              | None => False
              end
  | None => False
  end.
#[local] Instance log_row_dec powers b : Decision (log_row powers b).
Proof. unfold log_row. destruct (bsr2log10 b) as [t|]; [destruct (zlookup powers t)|]; apply _. Defined.

Lemma log_rows_64 : Forall (log_row zero_or_powers_of_10_64_new) (seqZ 0 64).
Proof. apply (bool_decide_unpack _). vm_compute. exact I. Qed.
Lemma log_rows_32 : Forall (log_row zero_or_powers_of_10_32_new) (seqZ 0 32).
Proof. apply (bool_decide_unpack _). vm_compute. exact I. Qed.

Lemma lxor_clz w b : w = 32 ∨ w = 64 → 0 ≤ b < w → Z.lxor (w - 1 - b) (w - 1) = b.
Proof.
  intros Hw Hb.
  assert (Forall (λ b, Z.lxor (31 - b) 31 = b) (seqZ 0 32)) as H32 by (apply (bool_decide_unpack _); vm_compute; exact I).
  assert (Forall (λ b, Z.lxor (63 - b) 63 = b) (seqZ 0 64)) as H64 by (apply (bool_decide_unpack _); vm_compute; exact I).
  rewrite Forall_forall in H32, H64.
  destruct Hw as [->| ->]; [apply (H32 b)|apply (H64 b)]; apply elem_of_seqZ; lia.
Qed.

(** One row of the tables gives the number of digits. *)
Lemma log_row_digits powers n b :
  log_row powers b → 0 ≤ b → (n = 0 ∧ b = 0 ∨ 2 ^ b ≤ n < 2 ^ (b + 1)) →
  (t ← bsr2log10 b; p ← zlookup powers t; Some (t - (if decide (n < p) then 1 else 0))) = Some (zlength (dec n)) ∨ 2 ^ 64 ≤ n.
Proof.
  unfold log_row. intros Hrow Hb0 Hn. destruct (decide (2 ^ 64 ≤ n)) as [|Hsmall]; [by right|left].
  assert (0 ≤ n) as Hn0 by (pose proof (Z.pow_nonneg 2 b); lia).
  destruct (bsr2log10 b) as [t|]; [|done]. cbn [mbind option_bind]. destruct (zlookup powers t) as [p|]; [|done].
  cbn [mbind option_bind]. destruct Hrow as (Ht & Hhi & -> & Hlo). f_equal.
  assert (n < 10 ^ t) as Hnt.
  { destruct Hn as [[-> ->]|Hn]; [|lia]. cbn in Hhi. lia. }
  apply (digits_of_unique 10 ltac:(lia) n); [done| |apply numeral_digits_of; lia].
  unfold digits_of. destruct (decide (t = 1)) as [->|Ht1].
  { rewrite decide_False by lia. lia. }
  destruct (decide (t = 2)) as [->|Ht2].
  { change (10 ^ (2 - 1)) with 10. change (10 ^ 2) with 100 in Hnt. case_decide.
    - change (2 - 1) with 1. change (10 ^ 1) with 10. lia.
    - change (2 - 0) with 2. change (10 ^ (2 - 1)) with 10. change (10 ^ 2) with 100. lia. }
  destruct Hlo as [?|Hlo]; [lia|]. destruct Hn as [[-> ->]|Hn].
  { assert (10 ^ 1 ≤ 10 ^ (t - 2)) as Hten by (apply Z.pow_le_mono_r; lia). change (2 ^ 0) with 1 in Hlo. change (10 ^ 1) with 10 in Hten. lia. }
  case_decide.
  - replace (t - 1 - 1) with (t - 2) by lia. lia.
  - rewrite Z.sub_0_r. lia.
Qed.

Lemma log2_lor1 n : 0 ≤ n → let b := Z.log2 (Z.lor n 1) in 0 ≤ b ∧ (n = 0 ∧ b = 0 ∨ 2 ^ b ≤ n < 2 ^ (b + 1)).
Proof.
  intros Hn b. split; [apply Z.log2_nonneg|]. unfold b. rewrite Z.log2_lor by lia.
  change (Z.log2 1) with 0. rewrite Z.max_l by apply Z.log2_nonneg.
  destruct (decide (n = 0)) as [->|Hne]; [by left|right]. apply Z.log2_spec. lia.
Qed.

Lemma log2_bound b n w : 0 ≤ b → 0 ≤ n < 2 ^ w → 0 < w → (n = 0 ∧ b = 0 ∨ 2 ^ b ≤ n < 2 ^ (b + 1)) → b < w.
Proof.
  intros Hb Hn Hw [[_ ->]|Hlog]; [done|]. destruct (decide (b < w)); [done|].
  assert (2 ^ w ≤ 2 ^ b) by (apply Z.pow_le_mono_r; lia). lia.
Qed.

(** [count_digits] is the number of decimal digits, for the types of 32 and
    of 64 bits. *)
Lemma count_digits_dec w n : w = 32 ∨ w = 64 → 0 ≤ n < 2 ^ w → count_digits w n = Some (zlength (dec n)).
Proof.
  intros Hw Hn. destruct (log2_lor1 n) as [Hb Hlog]; [lia|].
  pose proof (log2_bound _ _ w Hb Hn ltac:(lia) Hlog) as Hbw.
  assert (n < 2 ^ 64) as Hn64 by (destruct Hw as [->| ->]; [change (2 ^ 32) with 4294967296 in Hn|]; lia).
  unfold count_digits. destruct Hw as [->| ->].
  - rewrite decide_True by lia. unfold count_digits_32, clz. rewrite (lxor_clz 32) by auto.
    destruct (log_row_digits zero_or_powers_of_10_32_new n (Z.log2 (Z.lor n 1))) as [H|H]; [|done..|exact H|lia].
    pose proof log_rows_32 as Hrows. rewrite Forall_forall in Hrows. apply Hrows, elem_of_seqZ. lia.
  - rewrite decide_False by lia. unfold count_digits_64, clz. rewrite (lxor_clz 64) by auto.
    destruct (log_row_digits zero_or_powers_of_10_64_new n (Z.log2 (Z.lor n 1))) as [H|H]; [|done..|exact H|lia].
    pose proof log_rows_64 as Hrows. rewrite Forall_forall in Hrows. apply Hrows, elem_of_seqZ. lia.
Qed.

(** The loop for compilers without the builtin gives the same. *)
Lemma count_digits_fallback_dec fuel n count :
  0 ≤ n < 2 ^ 64 → n < 10000 ^ Z.of_nat fuel → (0 < fuel)%nat →
  count_digits_fallback fuel n count = Some (count + zlength (dec n) - 1).
Proof.
  revert n count. induction fuel as [|fuel IH]; intros n count Hn Hf H0; [lia|]. cbn [count_digits_fallback].
  assert (∀ d, digits_of 10 n d → zlength (dec n) = d) as Hd.
  { intros d. apply (digits_of_unique 10 ltac:(lia)); [lia|]. apply numeral_digits_of; lia. }
  repeat case_decide.
  - rewrite (Hd 1) by (unfold digits_of; cbn; lia). f_equal. lia.
  - rewrite (Hd 2) by (unfold digits_of; cbn; lia). f_equal. lia.
  - rewrite (Hd 3) by (unfold digits_of; cbn; lia). f_equal. lia.
  - rewrite (Hd 4) by (unfold digits_of; cbn; lia). f_equal. lia.
  - rewrite Nat2Z.inj_succ, Z.pow_succ_r in Hf by lia.
    assert (1 ≤ n / 10000) by (apply Z.div_le_lower_bound; lia).
    assert (n / 10000 < n) by (apply Z.div_lt; lia).
    assert (n / 10000 < 10000 ^ Z.of_nat fuel) by (apply Z.div_lt_upper_bound; lia).
    rewrite IH; [|lia|lia|destruct fuel; [cbn in *; lia|lia]]. f_equal.
    enough (zlength (dec n) = zlength (dec (n / 10000)) + 4) by lia.
    assert (∀ m, 10 ≤ m < 2 ^ 64 → zlength (dec m) = zlength (dec (m / 10)) + 1) as Hstep.
    { intros m Hm. unfold dec. rewrite (numeral_step 10 _ ltac:(lia) m) by lia. by rewrite zlength_app. }
    replace (n / 10000) with (n / 10 / 10 / 10 / 10) by (rewrite !Z.div_div by lia; done).
    rewrite (Hstep n), (Hstep (n / 10)), (Hstep (n / 10 / 10)), (Hstep (n / 10 / 10 / 10)); [lia|..];
      rewrite ?Z.div_div by lia; (split; [apply Z.div_le_lower_bound; lia|apply Z.div_lt_upper_bound; lia]) || lia.
Qed.

(** [count_digits<BITS>] *)
Lemma count_digits_bits_numeral dig fuel BITS n num :
  0 < BITS → 0 ≤ n < 2 ^ 64 → n < 2 ^ (BITS * Z.of_nat fuel) → (0 < fuel)%nat →
  count_digits_bits fuel BITS n num = Some (num + zlength (numeral (2 ^ BITS) dig n)).
Proof.
  intros HB Hn Hf H0. assert (2 ≤ 2 ^ BITS) as Hb by (change 2 with (2 ^ 1) at 1; apply Z.pow_le_mono_r; lia).
  revert n num Hn Hf H0. induction fuel as [|fuel IH]; intros n num Hn Hf H0; [lia|]. cbn [count_digits_bits].
  rewrite Z.shiftr_div_pow2 by lia. destruct (decide (n < 2 ^ BITS)) as [Hsmall|Hbig].
  - rewrite (Z.div_small n) by lia. rewrite decide_False by lia. rewrite numeral_small by lia. done.
  - assert (1 ≤ n / 2 ^ BITS) by (apply Z.div_le_lower_bound; lia).
    assert (n / 2 ^ BITS < n) by (apply Z.div_lt; lia).
    rewrite decide_True by lia. rewrite (numeral_step _ _ Hb n), zlength_app by lia.
    assert (n / 2 ^ BITS < 2 ^ (BITS * Z.of_nat fuel)).
    { apply Z.div_lt_upper_bound; [lia|]. rewrite <-Z.pow_add_r by lia. replace (BITS + _) with (BITS * Z.of_nat (S fuel)) by lia. lia. }
    rewrite IH; [|lia|lia|destruct fuel; [rewrite Z.mul_0_r in *; cbn in *; lia|lia]]. change (zlength [_]) with 1. f_equal. lia.
Qed.

(** ** The loops write the numeral *)

Lemma zupdate_mid {A} (pre : list A) y post x : zupdate (zlength pre) x (pre ++ y :: post) = Some (pre ++ x :: post).
Proof.
  rewrite zupdate_Some by (rewrite zlength_app, zlength_cons; pose proof (zlength_nonneg pre); pose proof (zlength_nonneg post); lia).
  unfold zinsert, zlength. rewrite decide_True by lia. rewrite Nat2Z.id, insert_app_r_alt by lia. by rewrite Nat.sub_diag.
Qed.

Lemma digits_table_lookup v : 0 ≤ v < 100 → zlookup digits_table v = Some (48 + v / 10, 48 + v mod 10).
Proof.
  intros Hv. assert (Forall (λ v, zlookup digits_table v = Some (48 + v / 10, 48 + v mod 10)) (seqZ 0 100)) as H
    by (apply (bool_decide_unpack _); vm_compute; exact I).
  rewrite Forall_forall in H. apply H, elem_of_seqZ. lia.
Qed.

Lemma copy2_mid pre y1 y2 post c1 c2 :
  copy2 (zlength pre) (c1, c2) (pre ++ y1 :: y2 :: post) = Some (pre ++ Some c1 :: Some c2 :: post).
Proof.
  unfold copy2. rewrite zupdate_mid. cbn [mbind option_bind fst snd].
  replace (pre ++ Some c1 :: y2 :: post) with ((pre ++ [Some c1]) ++ y2 :: post) by (by rewrite <-app_assoc).
  replace (zlength pre + 1) with (zlength (pre ++ [Some c1])) by (rewrite zlength_app; done).
  rewrite zupdate_mid. by rewrite <-app_assoc.
Qed.

(** The last two cells of a region. *)
Lemma split_last2 {A} (mid : list A) n : zlength mid = n + 1 + 1 → 0 ≤ n → ∃ mid' y1 y2, mid = mid' ++ [y1; y2] ∧ zlength mid' = n.
Proof.
  unfold zlength. destruct mid as [|y2 mid _] using rev_ind; [cbn; intros; lia|].
  destruct mid as [|y1 mid _] using rev_ind; [cbn; intros; lia|].
  intros H. exists mid, y1, y2. rewrite <-app_assoc. split; [done|]. rewrite !length_app in H. cbn in H. lia.
Qed.
Lemma split_last1 {A} (mid : list A) n : zlength mid = n + 1 → 0 ≤ n → ∃ mid' y, mid = mid' ++ [y] ∧ zlength mid' = n.
Proof.
  unfold zlength. destruct mid as [|y mid _] using rev_ind; [cbn; intros; lia|].
  intros H. exists mid, y. split; [done|]. rewrite !length_app in H. cbn in H. lia.
Qed.

(** The numeral lands in the cells before [out], the others stay. *)
Lemma format_decimal_loop_run fuel pre mid post value :
  0 ≤ value < 2 ^ 64 → value < 100 ^ Z.of_nat fuel → (0 < fuel)%nat → zlength mid = zlength (dec value) →
  format_decimal_loop fuel (pre ++ mid ++ post) (zlength pre + zlength mid) value =
    Some (pre ++ (Some <$> dec value) ++ post, zlength pre).
Proof.
  revert mid post value. induction fuel as [|fuel IH]; intros mid post value Hv Hf H0 Hlen; [lia|]. cbn [format_decimal_loop].
  destruct (decide (value < 10)) as [Hs|Hs].
  { rewrite decide_False by lia. unfold dec in *. rewrite numeral_small in * by lia.
    destruct (split_last1 mid 0) as (mid' & y & -> & Hm); [done..|].
    destruct mid' as [|? mid']; [|rewrite zlength_cons in Hm; pose proof (zlength_nonneg mid'); lia].
    cbn [app]. change (zlength [y]) with 1. replace (zlength pre + 1 - 1) with (zlength pre) by lia. by rewrite zupdate_mid. }
  assert (0 ≤ value mod 100 < 100) as Hm100 by (apply Z.mod_pos_bound; lia).
  assert (∀ v, 10 ≤ v < 2 ^ 64 → dec v = dec (v / 10) ++ [48 + v mod 10]) as Hstep
    by (intros v Hv'; apply (numeral_step 10); lia).
  destruct (decide (100 ≤ value)) as [H100|H100].
  - assert (10 ≤ value / 10) by (apply Z.div_le_lower_bound; lia).
    assert (value / 10 < value) by (apply Z.div_lt; lia).
    assert (dec value = dec (value / 100) ++ [48 + value mod 100 / 10; 48 + value mod 100 mod 10]) as Hd.
    { rewrite (Hstep value), (Hstep (value / 10)) by lia. rewrite Z.div_div by lia. change (10 * 10) with 100.
      rewrite <-app_assoc. cbn [app].
      replace (value / 10 mod 10) with (value mod 100 / 10) by (Z.to_euclidean_division_equations; lia).
      by replace (value mod 10) with (value mod 100 mod 10) by (Z.to_euclidean_division_equations; lia). }
    rewrite Hd, zlength_app in Hlen. change (zlength [_; _]) with 2 in Hlen.
    destruct (split_last2 mid (zlength (dec (value / 100)))) as (mid' & y1 & y2 & -> & Hm); [lia|apply zlength_nonneg|].
    rewrite digits_table_lookup by lia. cbn [mbind option_bind].
    replace (zlength pre + zlength (mid' ++ [y1; y2]) - 2) with (zlength (pre ++ mid'))
      by (rewrite !zlength_app; change (zlength [y1; y2]) with 2; lia).
    replace (pre ++ (mid' ++ [y1; y2]) ++ post) with ((pre ++ mid') ++ y1 :: y2 :: post) by (by rewrite <-!app_assoc).
    rewrite copy2_mid. cbn [mbind option_bind]. rewrite <-app_assoc, zlength_app.
    assert (value / 100 < value) by (apply Z.div_lt; lia).
    assert (1 ≤ value / 100) by (apply Z.div_le_lower_bound; lia).
    rewrite Nat2Z.inj_succ, Z.pow_succ_r in Hf by lia.
    assert (value / 100 < 100 ^ Z.of_nat fuel) by (apply Z.div_lt_upper_bound; lia).
    rewrite IH; [|lia|lia|destruct fuel; [cbn in *; lia|lia]|done].
    rewrite Hd, fmap_app. by rewrite <-!app_assoc.
  - unfold dec in *. rewrite (numeral_step 10) in * by lia. rewrite (numeral_small 10 _ (value / 10)) in *
      by (split; [apply Z.div_pos; lia|apply Z.div_lt_upper_bound; lia]).
    destruct (split_last2 mid 0) as (mid' & y1 & y2 & -> & Hm); [done..|].
    destruct mid' as [|? mid']; [|rewrite zlength_cons in Hm; pose proof (zlength_nonneg mid'); lia].
    rewrite digits_table_lookup by lia. cbn [mbind option_bind app]. change (zlength [y1; y2]) with 2.
    replace (zlength pre + 2 - 2) with (zlength pre) by lia. rewrite copy2_mid. done.
Qed.

Lemma dec_length v : 0 ≤ v < 2 ^ 64 → 1 ≤ zlength (dec v) ≤ 20.
Proof.
  intros Hv. destruct (numeral_digits_of 10 (λ d, 48 + d) ltac:(lia) v Hv) as (Hd & Hlo & _). fold dec in *. split; [done|].
  destruct (decide (zlength (dec v) ≤ 20)); [done|]. destruct Hlo as [?|Hlo]; [lia|].
  assert (10 ^ 20 ≤ 10 ^ (zlength (dec v) - 1)) as Hp by (apply Z.pow_le_mono_r; lia).
  change (10 ^ 20) with 100000000000000000000 in Hp. lia.
Qed.
Lemma dec_length_32 v : 0 ≤ v < 2 ^ 32 → zlength (dec v) ≤ 10.
Proof.
  change (2 ^ 32) with 4294967296. intros Hv. destruct (numeral_digits_of 10 (λ d, 48 + d) ltac:(lia) v) as (Hd & Hlo & _); [lia|]. fold dec in *.
  destruct (decide (zlength (dec v) ≤ 10)); [done|]. destruct Hlo as [?|Hlo]; [lia|].
  assert (10 ^ 10 ≤ 10 ^ (zlength (dec v) - 1)) as Hp by (apply Z.pow_le_mono_r; lia).
  change (10 ^ 10) with 10000000000 in Hp. lia.
Qed.

(** In a buffer with room, [format_decimal] of the number of digits fills the
    cells from [out] on with the numeral. *)
Lemma format_decimal_run w pre mid post value :
  w = 32 ∨ w = 64 → 0 ≤ value < 2 ^ w → zlength mid = zlength (dec value) →
  format_decimal w (pre ++ mid ++ post) (zlength pre) value (zlength mid) =
    Some (pre ++ (Some <$> dec value) ++ post, zlength pre, zlength pre + zlength mid).
Proof.
  intros Hw Hv Hlen. assert (0 ≤ value < 2 ^ 64) as Hv64 by (destruct Hw as [->| ->]; [change (2 ^ 32) with 4294967296 in Hv|]; lia).
  unfold format_decimal. rewrite count_digits_dec by done. cbn [mbind option_bind]. rewrite decide_True by lia.
  destruct (dec_length value Hv64).
  rewrite format_decimal_loop_run; [done|done| |lia|done].
  destruct (numeral_digits_of 10 (λ d, 48 + d) ltac:(lia) value Hv64) as (_ & _ & Hhi). fold dec in Hhi.
  rewrite Hlen. rewrite Nat2Z.inj_succ, Z2Nat.id by lia.
  assert (10 ^ zlength (dec value) ≤ 100 ^ zlength (dec value)) by (apply Z.pow_le_mono_l; lia).
  assert (100 ^ zlength (dec value) ≤ 100 ^ Z.succ (zlength (dec value))) by (apply Z.pow_le_mono_r; lia). lia.
Qed.

Lemma read_cells_all l (post : buffer) : read_cells 0 (zlength l) ((Some <$> l) ++ post) = Some l.
Proof.
  unfold read_cells, zlength. rewrite Nat2Z.id. rewrite take_app_length' by (by rewrite length_fmap). cbn [Z.to_nat drop].
  apply mapM_Some. by apply Forall2_fmap_l, Forall_Forall2_diag, Forall_forall.
Qed.

(** The local buffer of [digits10 + 1] characters is enough. *)
Lemma format_decimal_it_dec w value :
  w = 32 ∨ w = 64 → 0 ≤ value < 2 ^ w → format_decimal_it w value (zlength (dec value)) = Some (dec value).
Proof.
  intros Hw Hv. unfold format_decimal_it.
  assert (0 ≤ zlength (dec value) ≤ digits10 w + 1) as Hd.
  { unfold digits10. destruct Hw as [->| ->].
    - rewrite decide_True by lia. split; [apply zlength_nonneg|]. apply dec_length_32. done.
    - rewrite decide_False by lia. pose proof (dec_length value ltac:(lia)). lia. }
  replace (Z.to_nat (digits10 w + 1)) with (Z.to_nat (zlength (dec value)) + Z.to_nat (digits10 w + 1 - zlength (dec value)))%nat by lia.
  rewrite replicate_add.
  assert (zlength (replicate (Z.to_nat (zlength (dec value))) (@None Z)) = zlength (dec value)) as Hlen
    by (unfold zlength at 1; rewrite length_replicate; lia).
  pose proof (format_decimal_run w [] (replicate (Z.to_nat (zlength (dec value))) None)
    (replicate (Z.to_nat (digits10 w + 1 - zlength (dec value))) None) value Hw Hv Hlen) as Hrun.
  rewrite Hlen in Hrun. cbn [app] in Hrun. change (zlength []) with 0 in Hrun. rewrite Hrun.
  cbn [mbind option_bind fst snd]. rewrite Z.add_0_l. apply read_cells_all.
Qed.

(** The character of a digit in base [2 ^ BASE_BITS], and what it stands for. *)
Definition radix_char (BASE_BITS : Z) (upper : bool) (d : Z) : Z := default 0 (digit_char BASE_BITS upper d).
Definition hex_value (c : Z) : Z :=
  if decide (c ≤ 57) then c - 48 else if decide (c ≤ 70) then c - 55 else c - 87.
Definition radix (BASE_BITS : Z) (upper : bool) : Z → bytes := numeral (2 ^ BASE_BITS) (radix_char BASE_BITS upper).

Lemma digit_char_Some BASE_BITS upper d :
  1 ≤ BASE_BITS ≤ 4 → 0 ≤ d < 2 ^ BASE_BITS →
  digit_char BASE_BITS upper d = Some (radix_char BASE_BITS upper d) ∧ hex_value (radix_char BASE_BITS upper d) = d.
Proof.
  intros HB Hd.
  assert (Forall (λ B, Forall (λ d, d < 2 ^ B → digit_char B upper d = Some (radix_char B upper d) ∧ hex_value (radix_char B upper d) = d)
                         (seqZ 0 16)) (seqZ 1 4)) as H by (destruct upper; apply (bool_decide_unpack _); vm_compute; exact I).
  rewrite Forall_forall in H. assert (2 ^ BASE_BITS ≤ 2 ^ 4) as H4 by (apply Z.pow_le_mono_r; lia). change (2 ^ 4) with 16 in H4.
  specialize (H BASE_BITS ltac:(apply elem_of_seqZ; lia)). rewrite Forall_forall in H. apply H; [apply elem_of_seqZ; lia|lia].
Qed.

Lemma radix_base BASE_BITS : 1 ≤ BASE_BITS → 2 ≤ 2 ^ BASE_BITS.
Proof. intros. change 2 with (2 ^ 1) at 1. apply Z.pow_le_mono_r; lia. Qed.

Lemma format_uint_loop_run fuel BASE_BITS upper pre mid post value :
  1 ≤ BASE_BITS ≤ 4 → 0 ≤ value < 2 ^ 64 → value < 2 ^ (BASE_BITS * Z.of_nat fuel) → (0 < fuel)%nat →
  zlength mid = zlength (radix BASE_BITS upper value) →
  format_uint_loop fuel BASE_BITS upper (pre ++ mid ++ post) (zlength pre + zlength mid) value =
    Some (pre ++ (Some <$> radix BASE_BITS upper value) ++ post).
Proof.
  intros HB. pose proof (radix_base BASE_BITS ltac:(lia)) as Hb.
  revert mid post value. induction fuel as [|fuel IH]; intros mid post value Hv Hf H0 Hlen; [lia|]. cbn [format_uint_loop].
  assert (Z.land value (Z.shiftl 1 BASE_BITS - 1) = value mod 2 ^ BASE_BITS) as ->.
  { rewrite Z.shiftl_1_l, Z.sub_1_r. rewrite <-Z.ones_equiv. apply Z.land_ones. lia. }
  assert (0 ≤ value mod 2 ^ BASE_BITS < 2 ^ BASE_BITS) as Hm by (apply Z.mod_pos_bound; lia).
  destruct (digit_char_Some BASE_BITS upper _ ltac:(lia) Hm) as [-> _]. cbn [mbind option_bind].
  rewrite Z.shiftr_div_pow2 by lia. unfold radix in *. destruct (decide (value < 2 ^ BASE_BITS)) as [Hs|Hs].
  - rewrite numeral_small in * by lia. destruct (split_last1 mid 0) as (mid' & y & -> & Hm'); [done..|].
    destruct mid' as [|? mid']; [|rewrite zlength_cons in Hm'; pose proof (zlength_nonneg mid'); lia].
    cbn [app]. change (zlength [y]) with 1. replace (zlength pre + 1 - 1) with (zlength pre) by lia. rewrite zupdate_mid.
    cbn [mbind option_bind]. rewrite Z.div_small by lia. rewrite decide_False by lia. by rewrite Z.mod_small by lia.
  - rewrite numeral_step in * by lia. rewrite zlength_app in Hlen. change (zlength [_]) with 1 in Hlen.
    destruct (split_last1 mid (zlength (numeral (2 ^ BASE_BITS) (radix_char BASE_BITS upper) (value / 2 ^ BASE_BITS))))
      as (mid' & y & -> & Hm'); [lia|apply zlength_nonneg|].
    replace (zlength pre + zlength (mid' ++ [y]) - 1) with (zlength (pre ++ mid'))
      by (rewrite !zlength_app; change (zlength [y]) with 1; lia).
    replace (pre ++ (mid' ++ [y]) ++ post) with ((pre ++ mid') ++ y :: post) by (by rewrite <-!app_assoc).
    rewrite zupdate_mid. cbn [mbind option_bind]. rewrite <-app_assoc, zlength_app.
    assert (1 ≤ value / 2 ^ BASE_BITS) by (apply Z.div_le_lower_bound; lia).
    assert (value / 2 ^ BASE_BITS < value) by (apply Z.div_lt; lia). rewrite decide_True by lia.
    assert (value / 2 ^ BASE_BITS < 2 ^ (BASE_BITS * Z.of_nat fuel)).
    { apply Z.div_lt_upper_bound; [lia|]. rewrite <-Z.pow_add_r by lia.
      replace (BASE_BITS + _) with (BASE_BITS * Z.of_nat (S fuel)) by lia. lia. }
    rewrite IH; [|lia|lia|destruct fuel; [rewrite Z.mul_0_r in *; cbn in *; lia|lia]|done].
    rewrite fmap_app. by rewrite <-!app_assoc.
Qed.

(** A number of [w] bits has at most [w / BASE_BITS + 1] digits. *)
Lemma radix_length BASE_BITS upper w value :
  1 ≤ BASE_BITS ≤ 4 → 0 < w ≤ 64 → 0 ≤ value < 2 ^ w → 1 ≤ zlength (radix BASE_BITS upper value) ≤ w / BASE_BITS + 1.
Proof.
  intros HB Hw Hv. pose proof (radix_base BASE_BITS ltac:(lia)) as Hb.
  assert (2 ^ w ≤ 2 ^ 64) by (apply Z.pow_le_mono_r; lia).
  destruct (numeral_digits_of _ (radix_char BASE_BITS upper) Hb value ltac:(lia)) as (Hd & Hlo & _). fold (radix BASE_BITS upper) in *.
  split; [done|]. destruct Hlo as [->|Hlo]; [pose proof (Z.div_pos w BASE_BITS); lia|].
  rewrite <-Z.pow_mul_r in Hlo by lia. assert (2 ^ (BASE_BITS * (zlength (radix BASE_BITS upper value) - 1)) < 2 ^ w) as Hlt by lia.
  apply Z.pow_lt_mono_r_iff in Hlt; [|lia..].
  assert (zlength (radix BASE_BITS upper value) - 1 ≤ w / BASE_BITS); [|lia]. apply Z.div_le_lower_bound; lia.
Qed.

(** [format_uint] of the number of digits writes the numeral; its buffer is
    large enough. *)
Lemma format_uint_it_radix BASE_BITS w value upper :
  1 ≤ BASE_BITS ≤ 4 → 0 < w ≤ 64 → 0 ≤ value < 2 ^ w →
  format_uint_it BASE_BITS w value (zlength (radix BASE_BITS upper value)) upper = Some (radix BASE_BITS upper value).
Proof.
  intros HB Hw Hv. destruct (radix_length BASE_BITS upper w value HB Hw Hv) as [H1 H2].
  assert (2 ^ w ≤ 2 ^ 64) by (apply Z.pow_le_mono_r; lia).
  unfold format_uint_it, format_uint. set (n := zlength (radix BASE_BITS upper value)) in *.
  replace (Z.to_nat (w / BASE_BITS + 1)) with (Z.to_nat n + Z.to_nat (w / BASE_BITS + 1 - n))%nat by lia.
  rewrite replicate_add.
  assert (zlength (replicate (Z.to_nat n) (@None Z)) = n) as Hlen by (unfold zlength; rewrite length_replicate; lia).
  pose proof (format_uint_loop_run 65 BASE_BITS upper [] (replicate (Z.to_nat n) None) (replicate (Z.to_nat (w / BASE_BITS + 1 - n)) None) value) as Hrun.
  rewrite Hlen in Hrun. cbn [app] in Hrun. change (zlength []) with 0 in Hrun. rewrite Hrun; [|lia|lia| |lia|done].
  - cbn [mbind option_bind fst snd]. apply read_cells_all.
  - assert (2 ^ 64 ≤ 2 ^ (BASE_BITS * Z.of_nat 65)) by (apply Z.pow_le_mono_r; lia). lia.
Qed.
End FmtInt.
