(* ===== verification/FmtArgs.v ===== *)
(** FmtArgs: the arguments of a formatting call, the store that passes them
    on with their types packed in one word, and the counter of arguments
    (core.h of the copy of fmt under src/mysql-conn-pool).

    The types of arguments are those the callers pass: integers, [bool], [char],
    C strings, string views and pointers; numbers with a floating point,
    128-bit integers and user-defined types are left out.  [long] has 64 bits
    and [char] is signed. *)
From S2P Require Import Prelude Bytes FmtInt.

Module FmtArgs.
Import FmtInt.

(** ** Outcomes *)

(** A formatting function answers, throws [format_error], or does something
    undefined. *)
Inductive result (A : Type) : Type :=
  | FOk (a : A)
  | FError (what : bytes)
  | FUndef.
Arguments FOk {A} a.
Arguments FError {A} what.
Arguments FUndef {A}.

#[export] Instance result_ret : MRet result := λ A a, FOk a.
#[export] Instance result_bind : MBind result := λ A B f m,
  match m with FOk a => f a | FError e => FError e | FUndef => FUndef end.
Definition defined {A} (o : option A) : result A := match o with Some a => FOk a | None => FUndef end.

Lemma result_bind_FOk {A B} (m : result A) (f : A → result B) a : m = FOk a → (m ≫= f) = f a.
Proof. by intros ->. Qed.

(** ** Arguments *)

(** [detail::type] *)
Inductive arg_type :=
  | none_type
  | int_type | uint_type | long_long_type | ulong_long_type | int128_type | uint128_type
  | bool_type | char_type
  | float_type | double_type | long_double_type
  | cstring_type | string_type | pointer_type | custom_type.
#[export] Instance arg_type_dec : EqDecision arg_type.
Proof. solve_decision. Defined.
Definition all_types : list arg_type :=
  [none_type; int_type; uint_type; long_long_type; ulong_long_type; int128_type; uint128_type; bool_type; char_type;
   float_type; double_type; long_double_type; cstring_type; string_type; pointer_type; custom_type].
(** The value of an enumerator. *)
Definition type_number (t : arg_type) : Z :=
  match t with
  | none_type => 0 | int_type => 1 | uint_type => 2 | long_long_type => 3 | ulong_long_type => 4 | int128_type => 5
  | uint128_type => 6 | bool_type => 7 | char_type => 8 | float_type => 9 | double_type => 10 | long_double_type => 11
  | cstring_type => 12 | string_type => 13 | pointer_type => 14 | custom_type => 15
  end.
Definition is_integral_type (t : arg_type) : bool :=
  bool_decide (type_number none_type < type_number t ≤ type_number char_type).
Definition is_arithmetic_type (t : arg_type) : bool :=
  bool_decide (type_number none_type < type_number t ≤ type_number long_double_type).

(** The member of the union that a value holds.  A C string is its address,
    0 for the null pointer, and what stands there before the terminator. *)
Inductive value :=
  | int_value (v : Z)
  | uint_value (v : Z)
  | long_long_value (v : Z)
  | ulong_long_value (v : Z)
  | bool_value (b : bool)
  | char_value (c : Z)
  | cstring_value (p : Z) (s : bytes)
  | string_value (s : bytes)
  | pointer_value (p : Z).
#[export] Instance value_dec : EqDecision value.
Proof. solve_decision. Defined.

Definition type_of (v : value) : arg_type :=
  match v with
  | int_value _ => int_type | uint_value _ => uint_type
  | long_long_value _ => long_long_type | ulong_long_value _ => ulong_long_type
  | bool_value _ => bool_type | char_value _ => char_type
  | cstring_value _ _ => cstring_type | string_value _ => string_type | pointer_value _ => pointer_type
  end.

(** The values of the C types. *)
Definition value_wf (v : value) : Prop :=
  match v with
  | int_value v => in_signed 32 v
  | uint_value v => in_unsigned 32 v
  | long_long_value v => in_signed 64 v
  | ulong_long_value v => in_unsigned 64 v
  | bool_value _ => True
  | char_value c => in_signed 8 c
  | cstring_value p s => in_unsigned 64 p ∧ Forall (λ c, c ≠ 0) s
  | string_value s => True
  | pointer_value p => in_unsigned 64 p
  end.

(** ** The store of arguments, with the types packed in one word *)

Definition packed_arg_bits : Z := 4.
Definition max_packed_args : Z := 62 / packed_arg_bits.
Definition is_unpacked_bit : Z := Z.shiftl 1 63.

Fixpoint encode_types (args : list value) : Z :=
  match args with
  | [] => 0
  | a :: args => Z.lor (type_number (type_of a)) (u64 (Z.shiftl (encode_types args) packed_arg_bits))
  end.

Record basic_format_args := { desc : Z; args_ : list value }.
(** [make_format_args] and the constructor from the store. *)
Definition make_format_args (args : list value) : basic_format_args :=
  {| desc := if decide (zlength args ≤ max_packed_args) then encode_types args
             else Z.lor is_unpacked_bit (zlength args);
     args_ := args |}.

Definition is_packed (a : basic_format_args) : bool := bool_decide (Z.land (desc a) is_unpacked_bit = 0).
Definition type_at (a : basic_format_args) (index : Z) : option arg_type :=
  let shift := index * packed_arg_bits in
  let mask := Z.shiftl 1 packed_arg_bits - 1 in
  zlookup all_types (Z.land (Z.shiftr (desc a) shift) mask).
Definition max_size (a : basic_format_args) : Z :=
  if is_packed a then max_packed_args else i32 (Z.land (desc a) (Z.lnot is_unpacked_bit)).

(** [basic_format_args::get]: [None] is the argument of type none.  Reading
    another member of the union than the one stored is undefined. *)
Definition get (a : basic_format_args) (id : Z) : result (option value) :=
  if negb (is_packed a) then
    if decide (id < max_size a) then v ← defined (zlookup (args_ a) id); FOk (Some v) else FOk None
  else if decide (max_packed_args ≤ id) then FOk None
  else if decide (id < 0) then FUndef
  else
    t ← defined (type_at a id);
    if decide (t = none_type) then FOk None
    else v ← defined (zlookup (args_ a) id);
         if decide (type_of v = t) then FOk (Some v) else FUndef.

(** ** The counter of arguments (basic_format_parse_context) *)

Definition next_arg_id (next_arg_id_ : Z) : result (Z * Z) :=
  if decide (0 ≤ next_arg_id_) then FOk (next_arg_id_, next_arg_id_ + 1)
  else FError (text "cannot switch from manual to automatic argument indexing").
Definition check_arg_id (next_arg_id_ : Z) : result Z :=
  if decide (0 < next_arg_id_) then FError (text "cannot switch from automatic to manual argument indexing")
  else FOk (-1).

(** [detail::get_arg] *)
Definition get_arg (a : basic_format_args) (id : Z) : result value :=
  o ← get a id;
  match o with Some v => FOk v | None => FError (text "argument not found") end.

Lemma type_number_range t : 0 ≤ type_number t < 16.
Proof. destruct t; cbn; lia. Qed.
Lemma type_at_number t : zlookup all_types (type_number t) = Some t.
Proof. by destruct t. Qed.
Lemma type_of_not_none v : type_of v ≠ none_type.
Proof. by destruct v. Qed.

Lemma encode_types_range args : (length args ≤ 15)%nat → 0 ≤ encode_types args < 2 ^ (4 * zlength args).
Proof.
  induction args as [|a args IH]; intros Hlen; [change (0 ≤ 0 < 1); lia|]. cbn [encode_types length] in *.
  destruct IH as [IH1 IH2]; [lia|]. rewrite zlength_cons. pose proof (type_number_range (type_of a)) as Ht.
  assert (0 ≤ zlength args ≤ 14) as Hz by (unfold zlength; lia).
  assert (2 ^ (4 * (zlength args + 1)) = 16 * 2 ^ (4 * zlength args)) as Hp.
  { rewrite Z.mul_add_distr_l, Z.pow_add_r by lia. change (2 ^ (4 * 1)) with 16. lia. }
  assert (2 ^ (4 * (zlength args + 1)) ≤ 2 ^ 60) by (apply Z.pow_le_mono_r; lia).
  unfold packed_arg_bits. rewrite Z.shiftl_mul_pow2 by lia. change (2 ^ 4) with 16. rewrite u64_small by lia.
  assert (0 ≤ Z.lor (type_number (type_of a)) (encode_types args * 16)) as Hnn by (apply Z.lor_nonneg; lia). split; [done|].
  destruct (decide (Z.lor (type_number (type_of a)) (encode_types args * 16) = 0)) as [->|Hne]; [lia|].
  apply Z.log2_lt_pow2; [lia|].
  rewrite Z.log2_lor by lia. apply Z.max_lub_lt.
  - apply (Z.le_lt_trans _ 3); [|lia]. change 3 with (Z.log2 15) at 1. apply Z.log2_le_mono. lia.
  - destruct (decide (encode_types args * 16 = 0)) as [->|Hne']; [cbn; lia|]. apply Z.log2_lt_pow2; lia.
Qed.

(** The code of an argument beyond the last is that of none. *)
Lemma encode_types_at args i :
  (length args ≤ 15)%nat →
  Z.land (Z.shiftr (encode_types args) (Z.of_nat i * 4)) 15 = default 0 ((λ v, type_number (type_of v)) <$> args !! i).
Proof.
  change 15 with (Z.ones 4). rewrite Z.land_ones by lia. revert i.
  induction args as [|a args IH]; intros i Hlen; [by rewrite Z.shiftr_0_l|]. cbn [encode_types length] in *.
  destruct (encode_types_range args) as [H1 H2]; [lia|]. pose proof (type_number_range (type_of a)) as Ht.
  assert (2 ^ (4 * zlength args) ≤ 2 ^ 56) by (apply Z.pow_le_mono_r; unfold zlength; lia).
  unfold packed_arg_bits. rewrite u64_small by (rewrite Z.shiftl_mul_pow2 by lia; lia).
  destruct i as [|i].
  - rewrite Z.mul_0_l, Z.shiftr_0_r. cbn [lookup list_lookup fmap option_fmap option_map default].
    rewrite <-Z.land_ones by lia. rewrite Z.land_lor_distr_l. rewrite !Z.land_ones by lia.
    rewrite Z.shiftl_mul_pow2 by lia. rewrite Z_mod_mult, Z.lor_0_r. apply Z.mod_small. unfold id. change (2 ^ 4) with 16. lia.
  - replace (Z.of_nat (S i) * 4) with (4 + Z.of_nat i * 4) by lia. rewrite <-Z.shiftr_shiftr by lia.
    rewrite Z.shiftr_lor. rewrite Z.shiftr_shiftl_l by lia. rewrite Z.sub_diag, Z.shiftl_0_r.
    rewrite (Z.shiftr_div_pow2 (type_number _)) by lia. rewrite (Z.div_small (type_number _)) by lia. rewrite Z.lor_0_l. cbn [lookup list_lookup]. apply IH. lia.
Qed.

Lemma land_bit63 n : Z.land n is_unpacked_bit = if Z.testbit n 63 then 2 ^ 63 else 0.
Proof.
  unfold is_unpacked_bit. rewrite Z.shiftl_1_l. apply Z.bits_inj'. intros k Hk. rewrite Z.land_spec, Z.pow2_bits_eqb by lia.
  destruct (Z.eqb_spec 63 k) as [<-|Hne].
  - rewrite andb_true_r. destruct (Z.testbit n 63) eqn:Hn; [done|]. by rewrite Z.bits_0.
  - rewrite andb_false_r. destruct (Z.testbit n 63); [|by rewrite Z.bits_0]. rewrite Z.pow2_bits_eqb by lia.
    symmetry. by apply Z.eqb_neq.
Qed.
Lemma testbit_small n k : 0 ≤ n < 2 ^ k → 0 ≤ k → Z.testbit n k = false.
Proof.
  intros Hn Hk. destruct (decide (n = 0)) as [->|Hne]; [apply Z.bits_0|].
  apply Z.bits_above_log2; [lia|]. apply Z.log2_lt_pow2; lia.
Qed.

Lemma make_is_packed args :
  zlength args < 2 ^ 31 → is_packed (make_format_args args) = bool_decide (zlength args ≤ 15).
Proof.
  intros Hlen. unfold is_packed, make_format_args. change max_packed_args with 15. cbn [desc]. rewrite land_bit63. case_decide as Hs.
  - rewrite testbit_small; [by rewrite !bool_decide_true| |lia].
    destruct (encode_types_range args) as [H1 H2]; [unfold zlength in *; lia|]. split; [done|].
    assert (2 ^ (4 * zlength args) ≤ 2 ^ 63) by (apply Z.pow_le_mono_r; lia). lia.
  - rewrite Z.lor_spec. change (Z.testbit is_unpacked_bit 63) with true. cbn [orb]. by rewrite !bool_decide_false by lia.
Qed.

(** Every argument is found under its index, whether the types are packed or
    not, and nothing is found beyond the last. *)
Lemma get_make args id : 0 ≤ id → zlength args < 2 ^ 31 → get (make_format_args args) id = FOk (zlookup args id).
Proof.
  intros Hid Hlen. unfold get, max_size. rewrite !make_is_packed by done. case_bool_decide as Hp; cbn [negb].
  - change max_packed_args with 15. destruct (decide (15 ≤ id)) as [Hge|Hlt].
    { rewrite (zlookup_ge_None args); [done|lia]. }
    rewrite decide_False by lia. unfold type_at. change (Z.shiftl 1 packed_arg_bits - 1) with 15.
    unfold packed_arg_bits. cbn [make_format_args desc args_]. change max_packed_args with 15. rewrite decide_True by done.
    destruct (Z_of_nat_complete id Hid) as [n ->]. rewrite zlookup_of_nat.
    rewrite encode_types_at by (unfold zlength in *; lia). destruct (args !! n) as [v|] eqn:Hv; cbn [fmap option_fmap option_map default id].
    + unfold id. rewrite type_at_number. cbn [defined mbind result_bind].
      rewrite decide_False by apply type_of_not_none. cbn [defined mbind result_bind]. by rewrite decide_True.
    + reflexivity.
  - pose proof (zlength_nonneg args).
    assert (i32 (Z.land (Z.lor is_unpacked_bit (zlength args)) (Z.lnot is_unpacked_bit)) = zlength args) as Hmax.
    { rewrite <-Z.ldiff_land. replace (Z.ldiff _ _) with (zlength args); [apply i32_small; lia|]. apply Z.bits_inj'. intros k Hk.
      rewrite Z.ldiff_spec, Z.lor_spec. unfold is_unpacked_bit. rewrite Z.shiftl_1_l, Z.pow2_bits_eqb by lia.
      destruct (Z.eqb_spec 63 k) as [<-|Hne]; [|by rewrite andb_true_r].
      rewrite testbit_small by (split; [lia|change (2 ^ 63) with 9223372036854775808; change (2 ^ 31) with 2147483648 in Hlen; lia] || lia). done. }
    unfold make_format_args. cbn [desc args_]. change max_packed_args with 15. rewrite (decide_False (P := zlength args ≤ 15)) by lia.
    rewrite Hmax. case_decide as Hlt.
    + destruct (zlookup_lt_is_Some args id) as [v Hv]; [lia|]. by rewrite Hv.
    + rewrite (zlookup_ge_None args); [done|lia].
Qed.
End FmtArgs.
