(* ===== verification/FmtWrite.v ===== *)
(** FmtWrite: how fmt writes a value under a format specification (format.h of
    the copy of fmt under src/mysql-conn-pool): padding, the writer of
    integers, strings, characters, pointers, and the base of the formatters of
    arguments. *)
From S2P Require Import Prelude Bytes FmtInt FmtArgs.

Module align.
Inductive type := none | left | right | center | numeric.
#[global] Instance type_dec : EqDecision type.
Proof. solve_decision. Defined.
Definition number (a : type) : Z := match a with none => 0 | left => 1 | right => 2 | center => 3 | numeric => 4 end.
End align.
Abbreviation align_t := align.type.

Module sign.
Inductive type := none | minus | plus | space.
#[global] Instance type_dec : EqDecision type.
Proof. solve_decision. Defined.
End sign.
Abbreviation sign_t := sign.type.

Module FmtWrite.
Import FmtInt FmtArgs.

(** ** Specifications *)

Record fill_t := { data_ : bytes; size_ : Z }.
Definition default_fill : fill_t := {| data_ := [32; 0; 0; 0]; size_ := 1 |}.
(** [fill_t::operator=] *)
Definition assign_fill (s : bytes) (f : fill_t) : result fill_t :=
  if decide (4 < zlength s) then FError (text "invalid fill")
  else FOk {| data_ := s ++ drop (length s) (data_ f); size_ := zlength s |}.
(** [fill_t::operator[]] at 0. *)
Definition fill0 (f : fill_t) : Z := default 0 (zlookup (data_ f) 0).
Definition set_fill0 (c : Z) (f : fill_t) : fill_t := {| data_ := zinsert 0 c (data_ f); size_ := size_ f |}.

Record basic_format_specs := {
  width : Z;
  precision : Z;
  type : Z;
  align : align_t;
  sign : sign_t;
  alt : bool;
  fill : fill_t;
}.
Definition new_specs : basic_format_specs :=
  {| width := 0; precision := -1; type := 0; align := align.none; sign := sign.none; alt := false; fill := default_fill |}.

Definition set_width (w : Z) (s : basic_format_specs) : basic_format_specs :=
  {| width := w; precision := precision s; type := type s; align := align s; sign := sign s; alt := alt s; fill := fill s |}.
Definition set_precision (p : Z) (s : basic_format_specs) : basic_format_specs :=
  {| width := width s; precision := p; type := type s; align := align s; sign := sign s; alt := alt s; fill := fill s |}.
Definition set_type (t : Z) (s : basic_format_specs) : basic_format_specs :=
  {| width := width s; precision := precision s; type := t; align := align s; sign := sign s; alt := alt s; fill := fill s |}.
Definition set_align (a : align_t) (s : basic_format_specs) : basic_format_specs :=
  {| width := width s; precision := precision s; type := type s; align := a; sign := sign s; alt := alt s; fill := fill s |}.
Definition set_sign (g : sign_t) (s : basic_format_specs) : basic_format_specs :=
  {| width := width s; precision := precision s; type := type s; align := align s; sign := g; alt := alt s; fill := fill s |}.
Definition set_alt (b : bool) (s : basic_format_specs) : basic_format_specs :=
  {| width := width s; precision := precision s; type := type s; align := align s; sign := sign s; alt := b; fill := fill s |}.
Definition set_fill (f : fill_t) (s : basic_format_specs) : basic_format_specs :=
  {| width := width s; precision := precision s; type := type s; align := align s; sign := sign s; alt := alt s; fill := f |}.

(** ** Padding *)

Definition left_padding_shifts : list Z := [31; 31; 0; 1; 0].
Definition right_padding_shifts : list Z := [0; 31; 0; 1; 0].

(** [fill(it, n, fill)]: [n] copies of the fill. *)
Definition write_fill (n : Z) (f : fill_t) : bytes :=
  if decide (size_ f = 1) then replicate (Z.to_nat n) (fill0 f)
  else concat (replicate (Z.to_nat n) (take (Z.to_nat (size_ f)) (data_ f))).

(** [write_padded<default>]: [f] is what the callback writes, [w] its width in
    columns.  The parameter [size] of the source only reserves memory. *)
Definition write_padded (dflt : align_t) (specs : basic_format_specs) (w : Z) (f : bytes) : bytes :=
  let spec_width := u32 (width specs) in
  let padding := if decide (w < spec_width) then spec_width - w else 0 in
  let shifts := if decide (dflt = align.left) then left_padding_shifts else right_padding_shifts in
  let left_padding := Z.shiftr padding (default 0 (zlookup shifts (align.number (align specs)))) in
  write_fill left_padding (fill specs) ++ f ++ write_fill (padding - left_padding) (fill specs).

(** ** Integers *)

(** [write_int_data]: the size of prefix, zeros and digits, and the number of
    zeros. *)
Definition write_int_data (num_digits prefix_size : Z) (specs : basic_format_specs) : Z * Z :=
  let size := prefix_size + num_digits in
  if decide (align specs = align.numeric) then
    let w := u32 (width specs) in
    if decide (size < w) then (w, w - size) else (size, 0)
  else if decide (num_digits < precision specs) then
    (prefix_size + precision specs, precision specs - num_digits)
  else (size, 0).

Definition write_int (num_digits : Z) (prefix : bytes) (specs : basic_format_specs) (digits : bytes) : bytes :=
  let data := write_int_data num_digits (zlength prefix) specs in
  write_padded align.right specs data.1 (prefix ++ replicate (Z.to_nat data.2) 48 ++ digits).

(** [std::numpunct] of the locale: the sizes of the groups of digits and the
    separator; without groups nothing is separated. *)
Record locale_ref := { grouping : bytes; thousands_sep : Z }.
Definition classic_locale : locale_ref := {| grouping := []; thousands_sep := 44 |}.

(** [int_writer]: the absolute value, in the unsigned type of [bits] bits, and
    the prefix. *)
Record int_writer := { bits : Z; abs_value : Z; prefix : bytes }.
Definition new_int_writer (w : Z) (v : Z) (specs : basic_format_specs) : int_writer :=
  if decide (v < 0) then {| bits := w; abs_value := wrap w (0 - wrap w v); prefix := [45] |}
  else {| bits := w; abs_value := wrap w v;
          prefix := if decide (sign specs ≠ sign.none ∧ sign specs ≠ sign.minus)
                    then [if decide (sign specs = sign.plus) then 43 else 32] else [] |}.

Section int_writer.
Context (loc : locale_ref) (specs : basic_format_specs) (w : int_writer).

Definition on_dec : result bytes :=
  num_digits ← defined (count_digits (bits w) (abs_value w));
  digits ← defined (format_decimal_it (bits w) (abs_value w) num_digits);
  FOk (write_int num_digits (prefix w) specs digits).
Definition on_hex : result bytes :=
  let prefix := if alt specs then prefix w ++ [48; type specs] else prefix w in
  num_digits ← defined (count_digits_bits 65 4 (abs_value w) 0);
  digits ← defined (format_uint_it 4 (bits w) (abs_value w) num_digits (bool_decide (type specs ≠ 120)));
  FOk (write_int num_digits prefix specs digits).
Definition on_bin : result bytes :=
  let prefix := if alt specs then prefix w ++ [48; type specs] else prefix w in
  num_digits ← defined (count_digits_bits 65 1 (abs_value w) 0);
  digits ← defined (format_uint_it 1 (bits w) (abs_value w) num_digits false);
  FOk (write_int num_digits prefix specs digits).
Definition on_oct : result bytes :=
  num_digits ← defined (count_digits_bits 65 3 (abs_value w) 0);
  let prefix := if alt specs && bool_decide (precision specs ≤ num_digits ∧ abs_value w ≠ 0)
                then prefix w ++ [48] else prefix w in
  digits ← defined (format_uint_it 3 (bits w) (abs_value w) num_digits false);
  FOk (write_int num_digits prefix specs digits).

(** The first loop of [on_num]: the size with the separators, the digits left,
    and the groups left. *)
Fixpoint num_size (group : bytes) (size n : Z) : Z * Z * bytes :=
  match group with
  | g :: group' => if decide (g < n ∧ 0 < g ∧ g ≠ 127) then num_size group' (size + 1) (n - g) else (size, n, group)
  | [] => (size, n, [])
  end.
(** The second: the digits from the right but the first, before what is
    written already. *)
Fixpoint num_loop (rdigits group : bytes) (digit_index : Z) (p : bytes) : result bytes :=
  match rdigits with
  | [] => FOk p
  | d :: rdigits =>
      let p := d :: p in
      match group with
      | [] => FUndef
      | g :: rest =>
          if decide (g ≤ 0) then num_loop rdigits group digit_index p
          else
            let digit_index := digit_index + 1 in
            if decide (Z.rem digit_index g ≠ 0 ∨ g = 127) then num_loop rdigits group digit_index p
            else
              let sep := thousands_sep loc in
              if decide (rest ≠ []) then num_loop rdigits rest 0 (sep :: p)
              else num_loop rdigits group digit_index (sep :: p)
      end
  end.
Definition on_num : result bytes :=
  let groups := grouping loc in
  if decide (groups = []) then on_dec
  else if decide (thousands_sep loc = 0) then on_dec
  else
    num_digits ← defined (count_digits (bits w) (abs_value w));
    let '(size, n, group) := num_size groups num_digits num_digits in
    let size := if decide (group = []) then size + Z.quot (n - 1) (default 1 (last groups)) else size in
    digits ← defined (format_decimal_it (bits w) (abs_value w) num_digits);
    let size := size + zlength (prefix w) in
    match digits with
    | [] => FUndef
    | d :: ds =>
        p ← num_loop (reverse ds) groups 0 [];
        let p := d :: p in
        let p := if decide (prefix w ≠ []) then 45 :: p else p in
        if decide (zlength p = size) then FOk (write_padded align.right specs size p) else FUndef
    end.

Definition on_chr : result bytes := FOk [u8 (abs_value w)].
End int_writer.

(** [handle_int_type_spec]: which method of the handler a type selects. *)
Definition handle_int_type_spec {A} (spec : Z) (dec hex bin oct num chr error : A) : A :=
  if decide (spec = 0 ∨ spec = 100) then dec
  else if decide (spec = 120 ∨ spec = 88) then hex
  else if decide (spec = 98 ∨ spec = 66) then bin
  else if decide (spec = 111) then oct
  else if decide (spec = 76) then num
  else if decide (spec = 99) then chr
  else error.

(** ** Strings, characters and pointers *)

Definition count_code_points (s : bytes) : Z := zlength (filter (λ c, Z.land c 192 ≠ 128) s).
(** For [char] the index of a code point is the index of a byte. *)
Definition code_point_index (s : bytes) (n : Z) : Z := if decide (n < zlength s) then n else zlength s.

Definition write_string (s : bytes) (specs : basic_format_specs) : bytes :=
  let size := if decide (0 ≤ precision specs ∧ u32 (precision specs) < zlength s)
              then code_point_index s (u32 (precision specs)) else zlength s in
  let s := take (Z.to_nat size) s in
  let w := if decide (width specs ≠ 0) then count_code_points s else 0 in
  write_padded align.left specs w s.

Definition write_char (value : Z) (specs : basic_format_specs) : bytes :=
  write_padded align.left specs 1 [u8 value].

Definition write_ptr (value : Z) (specs : option basic_format_specs) : result bytes :=
  num_digits ← defined (count_digits_bits 65 4 value 0);
  let size := num_digits + 2 in
  digits ← defined (format_uint_it 4 64 value num_digits false);
  let s := [48; 120] ++ digits in
  FOk (match specs with Some specs => write_padded align.right specs size s | None => s end).

(** ** The base of the formatters of arguments *)

Section formatter.
Context (loc : locale_ref).

(** [arg_formatter_base::write_int] for a type of [w] bits. *)
Definition write_int_value (w v : Z) (specs : basic_format_specs) : result bytes :=
  let wr := new_int_writer w v specs in
  handle_int_type_spec (type specs)
    (on_dec specs wr) (on_hex specs wr) (on_bin specs wr) (on_oct specs wr) (on_num loc specs wr) (on_chr wr)
    (FError (text "invalid type specifier")).

Definition format_bool (b : bool) (specs : basic_format_specs) : result bytes :=
  if decide (type specs ≠ 0) then write_int_value 32 (if b then 1 else 0) specs
  else FOk (write_string (if b then text "true" else text "false") specs).

(** [handle_char_specs] with [char_spec_handler] *)
Definition format_char (c : Z) (specs : basic_format_specs) : result bytes :=
  if decide (type specs ≠ 0 ∧ type specs ≠ 99) then write_int_value 32 c specs
  else if decide (align specs = align.numeric ∨ sign specs ≠ sign.none ∨ alt specs = true)
  then FError (text "invalid format specifier for char")
  else FOk (write_char c specs).

(** [handle_cstring_type_spec] with [cstring_spec_handler] *)
Definition format_cstring (p : Z) (s : bytes) (specs : basic_format_specs) : result bytes :=
  if decide (type specs = 0 ∨ type specs = 115) then
    if decide (p = 0) then FError (text "string pointer is null") else FOk (write_string s specs)
  else if decide (type specs = 112) then write_ptr p (Some specs)
  else FError (text "invalid type specifier").

Definition format_string_view (s : bytes) (specs : basic_format_specs) : result bytes :=
  if decide (type specs ≠ 0 ∧ type specs ≠ 115) then FError (text "invalid type specifier")
  else FOk (write_string s specs).

Definition format_pointer (p : Z) (specs : basic_format_specs) : result bytes :=
  if decide (type specs ≠ 0 ∧ type specs ≠ 112) then FError (text "invalid type specifier")
  else write_ptr p (Some specs).

(** [arg_formatter]: one overload for each type. *)
Definition arg_formatter (v : value) (specs : basic_format_specs) : result bytes :=
  match v with
  | int_value v | uint_value v => write_int_value 32 v specs
  | long_long_value v | ulong_long_value v => write_int_value 64 v specs
  | bool_value b => format_bool b specs
  | char_value c => format_char c specs
  | cstring_value p s => format_cstring p s specs
  | string_value s => format_string_view s specs
  | pointer_value p => format_pointer p specs
  end.
End formatter.

(** ** Values without a specification *)

(** [write(out, T)] of an integer of [w] bits, into the buffer of the result. *)
Definition write_integral (w v : Z) : result bytes :=
  let abs_value := wrap w v in
  let abs_value := if decide (v < 0) then wrap w (wrap w (Z.lnot abs_value) + 1) else abs_value in
  num_digits ← defined (count_digits w abs_value);
  digits ← defined (format_decimal_it w abs_value num_digits);
  FOk ((if decide (v < 0) then [45] else []) ++ digits).

(** [default_arg_formatter] *)
Definition default_arg_formatter (v : value) : result bytes :=
  match v with
  | int_value v | uint_value v => write_integral 32 v
  | long_long_value v | ulong_long_value v => write_integral 64 v
  | bool_value b => FOk (if b then text "true" else text "false")
  | char_value c => FOk [u8 c]
  | cstring_value p s => if decide (p = 0) then FError (text "string pointer is null") else FOk s
  | string_value s => FOk s
  | pointer_value p => write_ptr p None
  end.

(** [to_string] of an integral type whose [std::numeric_limits] has [d10]
    digits: the text is written into a local array. *)
Definition to_string_integral (d10 w v : Z) : result bytes :=
  let max_size := d10 + 2 in
  let buffer := replicate (Z.to_nat (if decide (5 < max_size) then max_size else 5)) None in
  let abs_value := wrap w v in
  let abs_value := if decide (v < 0) then wrap w (wrap w (Z.lnot abs_value) + 1) else abs_value in
  num_digits ← defined (count_digits w abs_value);
  buffer ← defined (if decide (v < 0) then zupdate 0 (Some 45) buffer else Some buffer);
  r ← defined (format_decimal w buffer (if decide (v < 0) then 1 else 0) abs_value num_digits);
  defined (read_cells 0 r.2 r.1.1).

(** [stringifier], which [vformat] uses for the format ["{}"]. *)
Definition stringifier (v : value) : result bytes :=
  match v with
  | int_value v => to_string_integral 9 32 v
  | uint_value v => to_string_integral 9 32 v
  | long_long_value v => to_string_integral 18 64 v
  | ulong_long_value v => to_string_integral 19 64 v
  | v => default_arg_formatter v
  end.

Example stringifier_ex : stringifier (long_long_value (- 9223372036854775808)) = FOk (text "-9223372036854775808").
Proof. reflexivity. Qed.
Example write_hex_ex :
  arg_formatter classic_locale (int_value (-48879)) (set_width 10 (set_align align.numeric (set_alt true (set_type 120 new_specs))))
  = FOk (text "-0x000beef").
Proof. reflexivity. Qed.
(** With groups of digits the sign asked for is lost: what is written for it
    is always a minus. *)
Example on_num_sign :
  arg_formatter {| grouping := [3]; thousands_sep := 44 |} (int_value 1234567) (set_sign sign.plus (set_type 76 new_specs))
  = FOk (text "-1,234,567").
Proof. reflexivity. Qed.

(** ** What is written for a number *)

(** The range of an argument whose unsigned type has [w] bits. *)
Definition int_range (w v : Z) : Prop := (w = 32 ∨ w = 64) ∧ - 2 ^ (w - 1) ≤ v < 2 ^ w.

Lemma int_range_cases w v :
  int_range w v → w = 32 ∧ - 2147483648 ≤ v < 4294967296 ∨ w = 64 ∧ - 9223372036854775808 ≤ v < 18446744073709551616.
Proof. intros ([->| ->] & Hv); [left|right]; (split; [done|exact Hv]). Qed.

Lemma int_range_abs w v : int_range w v → (w = 32 ∨ w = 64) ∧ 0 ≤ Z.abs v < 2 ^ w ∧ Z.abs v < 2 ^ 64.
Proof.
  intros [[-> Hv]|[-> Hv]]%int_range_cases; (split; [lia|]); [change (2 ^ 32) with 4294967296|]; lia.
Qed.

(** The sign of a number in front of its digits. *)
Definition sign_prefix (v : Z) (specs : basic_format_specs) : bytes :=
  if decide (v < 0) then [45]
  else match sign specs with sign.plus => [43] | sign.space => [32] | _ => [] end.

Lemma new_int_writer_abs w v specs :
  int_range w v →
  new_int_writer w v specs = {| bits := w; abs_value := Z.abs v; prefix := sign_prefix v specs |}.
Proof.
  intros Hv. unfold new_int_writer, sign_prefix. apply int_range_cases in Hv. case_decide as Hneg.
  - f_equal. unfold wrap. destruct Hv as [[-> Hv]|[-> Hv]]; [change (2 ^ 32) with 4294967296|change (2 ^ 64) with 18446744073709551616];
      Z.to_euclidean_division_equations; lia.
  - f_equal; [|by destruct (sign specs)].
    destruct Hv as [[-> Hv]|[-> Hv]]; (rewrite wrap_small; [lia|]); [change (2 ^ 32) with 4294967296|change (2 ^ 64) with 18446744073709551616]; lia.
Qed.

(** Decimal: the digits of the absolute value behind the sign. *)
Lemma on_dec_spec w v specs :
  int_range w v →
  on_dec specs (new_int_writer w v specs) =
    FOk (write_int (zlength (dec (Z.abs v))) (sign_prefix v specs) specs (dec (Z.abs v))).
Proof.
  intros Hv. rewrite new_int_writer_abs by done. destruct (int_range_abs w v Hv) as (Hw & Ha & _).
  unfold on_dec. cbn [bits abs_value prefix]. rewrite count_digits_dec by done. cbn [defined mbind result_bind].
  by rewrite format_decimal_it_dec by done.
Qed.

(** The digits in base 16, 8 or 2 as [specs] selects. *)
Lemma radix_digits w v B upper :
  int_range w v → 1 ≤ B ≤ 4 →
  count_digits_bits 65 B (Z.abs v) 0 = Some (zlength (radix B upper (Z.abs v))) ∧
  format_uint_it B w (Z.abs v) (zlength (radix B upper (Z.abs v))) upper = Some (radix B upper (Z.abs v)).
Proof.
  intros Hv HB. destruct (int_range_abs w v Hv) as (Hw & Ha & Ha64). split.
  - rewrite (count_digits_bits_numeral (radix_char B upper)); [done|lia|lia| |lia].
    assert (2 ^ 64 ≤ 2 ^ (B * Z.of_nat 65)) by (apply Z.pow_le_mono_r; lia). lia.
  - apply format_uint_it_radix; lia.
Qed.

(** The number of digits does not depend on their case. *)
Lemma radix_zlength B u1 u2 n : 1 ≤ B → 0 ≤ n < 2 ^ 64 → zlength (radix B u1 n) = zlength (radix B u2 n).
Proof.
  intros HB Hn. pose proof (radix_base B HB).
  apply (digits_of_unique (2 ^ B) ltac:(lia) n); [lia|apply numeral_digits_of; lia..].
Qed.

Definition radix_prefix (v : Z) (specs : basic_format_specs) : bytes :=
  if alt specs then sign_prefix v specs ++ [48; type specs] else sign_prefix v specs.

Lemma on_hex_spec w v specs :
  int_range w v →
  let digits := radix 4 (bool_decide (type specs ≠ 120)) (Z.abs v) in
  on_hex specs (new_int_writer w v specs) = FOk (write_int (zlength digits) (radix_prefix v specs) specs digits).
Proof.
  intros Hv digits. rewrite new_int_writer_abs by done. unfold on_hex. cbn [bits abs_value prefix].
  destruct (radix_digits w v 4 (bool_decide (type specs ≠ 120)) Hv) as [-> Hd]; [lia|]. cbn [defined mbind result_bind].
  by rewrite Hd.
Qed.
Lemma on_bin_spec w v specs :
  int_range w v →
  let digits := radix 1 false (Z.abs v) in
  on_bin specs (new_int_writer w v specs) = FOk (write_int (zlength digits) (radix_prefix v specs) specs digits).
Proof.
  intros Hv digits. rewrite new_int_writer_abs by done. unfold on_bin. cbn [bits abs_value prefix].
  destruct (radix_digits w v 1 false Hv) as [-> Hd]; [lia|]. cbn [defined mbind result_bind]. by rewrite Hd.
Qed.
Definition octal_prefix (v : Z) (specs : basic_format_specs) : bytes :=
  sign_prefix v specs ++
  if decide (alt specs = true ∧ precision specs ≤ zlength (radix 3 false (Z.abs v)) ∧ v ≠ 0) then [48] else [].
Lemma on_oct_spec w v specs :
  int_range w v →
  let digits := radix 3 false (Z.abs v) in
  on_oct specs (new_int_writer w v specs) = FOk (write_int (zlength digits) (octal_prefix v specs) specs digits).
Proof.
  intros Hv digits. rewrite new_int_writer_abs by done. unfold on_oct, octal_prefix. cbn [bits abs_value prefix].
  destruct (radix_digits w v 3 false Hv) as [-> Hd]; [lia|]. cbn [defined mbind result_bind]. rewrite Hd. cbn [defined mbind result_bind].
  do 2 f_equal. destruct (alt specs); cbn [andb]; [|by rewrite decide_False, app_nil_r by naive_solver].
  case_bool_decide as H1; case_decide as H2; rewrite ?app_nil_r; try done; exfalso; [destruct H2|destruct H1]; naive_solver lia.
Qed.

(** The text is as wide as asked, or as the number needs. *)
Lemma write_padded_length dflt specs w f :
  size_ (fill specs) = 1 → 0 ≤ width specs < 2 ^ 31 → 0 ≤ w →
  zlength (write_padded dflt specs w f) = zlength f + Z.max 0 (width specs - w).
Proof.
  intros Hf Hw H0. change (2 ^ 31) with 2147483648 in Hw. unfold write_padded, write_fill. rewrite u32_small by lia.
  set (padding := if decide (w < width specs) then width specs - w else 0). assert (padding = Z.max 0 (width specs - w)) as Hpad
    by (unfold padding; case_decide; lia).
  assert (0 ≤ padding) by (unfold padding; case_decide; lia).
  set (shift := default 0 _). assert (0 ≤ shift) as Hs.
  { unfold shift. destruct dflt, (align specs); vm_compute; discriminate. }
  clearbody padding shift. assert (0 ≤ Z.shiftr padding shift ≤ padding) as Hsh.
  { rewrite Z.shiftr_div_pow2 by done. pose proof (Z.pow_pos_nonneg 2 shift ltac:(lia) Hs).
    split; [apply Z.div_pos; lia|]. apply Z.div_le_upper_bound; nia. }
  rewrite !(decide_True (P := size_ (fill specs) = 1)) by done.
  rewrite !zlength_app. unfold zlength. rewrite !length_replicate. lia.
Qed.

Lemma write_int_length num_digits prefix specs digits :
  size_ (fill specs) = 1 → 0 ≤ width specs < 2 ^ 31 → zlength digits = num_digits → 0 ≤ num_digits →
  zlength (write_int num_digits prefix specs digits) =
    Z.max (width specs) (zlength prefix +
      if decide (align specs = align.numeric) then num_digits else Z.max num_digits (precision specs)).
Proof.
  intros Hf Hw Hd H0. unfold write_int. pose proof (zlength_nonneg prefix) as Hp.
  assert (∀ k, zlength (prefix ++ replicate (Z.to_nat k) 48 ++ digits) = zlength prefix + Z.max 0 k + num_digits) as Hz.
  { intros k. rewrite !zlength_app, Hd. unfold zlength at 2. rewrite length_replicate. lia. }
  change (2 ^ 31) with 2147483648 in Hw.
  unfold write_int_data. rewrite u32_small by lia. repeat case_decide; cbn [fst snd];
    rewrite write_padded_length by (done || (change (2 ^ 31) with 2147483648; lia) || lia); rewrite Hz; lia.
Qed.

(** ** Reading the text back *)

(** Specifications under which a number is padded with spaces outside or with
    zeros inside, as [sprintf] makes them. *)
Definition plain_specs (specs : basic_format_specs) : Prop :=
  size_ (fill specs) = 1 ∧ 0 ≤ width specs < 2 ^ 31 ∧ (fill0 (fill specs) = 32 ∨ align specs = align.numeric).

Lemma write_int_layout num_digits prefix specs digits :
  plain_specs specs →
  ∃ a z b, write_int num_digits prefix specs digits =
             replicate a 32 ++ prefix ++ replicate z 48 ++ digits ++ replicate b 32.
Proof.
  intros (Hf & Hw & Hfill). unfold write_int. set (data := write_int_data _ _ _).
  exists (if decide (fill0 (fill specs) = 32) then
            Z.to_nat (Z.shiftr (if decide (data.1 < u32 (width specs)) then u32 (width specs) - data.1 else 0)
                        (default 0 (zlookup right_padding_shifts (align.number (align specs))))) else 0%nat),
         (Z.to_nat data.2).
  unfold write_padded, write_fill. rewrite !(decide_True (P := size_ (fill specs) = 1)) by done.
  rewrite (decide_False (P := align.right = align.left)) by done.
  destruct (decide (fill0 (fill specs) = 32)) as [->|Hne].
  { eexists. by rewrite <-!app_assoc. }
  destruct Hfill as [?|Hnum]; [done|]. exists 0%nat.
  assert (¬ data.1 < u32 (width specs)).
  { unfold data, write_int_data. rewrite (decide_True (P := align specs = align.numeric)) by done. case_decide; cbn [fst]; lia. }
  rewrite decide_False by done. rewrite Z.shiftr_0_l. cbn [Z.to_nat replicate app Z.sub]. rewrite !app_nil_r. done.
Qed.

Lemma skip_spaces a s : skip_space (replicate a 32 ++ s) = skip_space s.
Proof. induction a as [|a IH]; [done|]. cbn [replicate app skip_space]. by change (is_space 32) with true. Qed.
Lemma read_zeros z s : read_digits 0 (replicate z 48 ++ s) = read_digits 0 s.
Proof. induction z as [|z IH]; [done|]. cbn [replicate app read_digits]. by change (is_digit 48) with true. Qed.
Lemma read_dec x c l : 0 ≤ x < 2 ^ 64 → is_digit c = false → read_digits 0 (dec x ++ c :: l) = Some x.
Proof.
  intros Hx Hc. assert (x < 10 ^ Z.of_nat 20) by (change (10 ^ Z.of_nat 20) with 100000000000000000000; lia).
  rewrite <-(digits_dec x 20) by lia. rewrite read_digits_digits by lia. cbn [read_digits]. by rewrite Hc.
Qed.
Lemma dec_head x s : 0 ≤ x < 2 ^ 64 → ∃ c t, dec x ++ s = c :: t ∧ 48 ≤ c ≤ 57.
Proof.
  intros Hx. assert (x < 10 ^ Z.of_nat 20) by (change (10 ^ Z.of_nat 20) with 100000000000000000000; lia).
  rewrite <-(digits_dec x 20) by lia. apply digits_head; lia.
Qed.

(** The reader of numbers of the C library skips the spaces and the zeros. *)
Lemma read_number_layout v specs a z b c l :
  - 2 ^ 64 < v < 2 ^ 64 → is_digit c = false →
  read_number ((replicate a 32 ++ sign_prefix v specs ++ replicate z 48 ++ dec (Z.abs v) ++ replicate b 32) ++ c :: l) =
    Some (bool_decide (v < 0), Z.abs v).
Proof.
  intros Hv Hc. unfold read_number. rewrite <-!app_assoc, skip_spaces.
  set (rest := replicate b 32 ++ c :: l).
  assert (∃ d t, rest = d :: t ∧ is_digit d = false) as (d & t & Hrest & Hd).
  { unfold rest. destruct b; cbn [replicate app]; [by exists c, l|]. eexists _, _. split; [done|done]. }
  rewrite Hrest. clearbody rest.
  assert (read_digits 0 (replicate z 48 ++ dec (Z.abs v) ++ d :: t) = Some (Z.abs v)) as Hread.
  { rewrite read_zeros. apply read_dec; [lia|done]. }
  assert (∃ e u, replicate z 48 ++ dec (Z.abs v) ++ d :: t = e :: u ∧ 48 ≤ e ≤ 57) as (e & u & He & Hr).
  { destruct z; cbn [replicate app]; [apply dec_head; lia|]. eexists _, _. split; [done|lia]. }
  assert (skip_space (e :: u) = e :: u) as Hskip.
  { cbn [skip_space]. assert (is_space e = false) as -> by (unfold is_space; apply bool_decide_eq_false; lia). done. }
  unfold sign_prefix. rewrite He in *. case_decide as Hneg.
  - rewrite bool_decide_true by done. cbn [app skip_space]. change (is_space 45) with false. cbv iota. cbn [decide].
    rewrite decide_True by done. by rewrite Hread.
  - rewrite bool_decide_false by done. destruct (sign specs).
    1,2: cbn [app]; rewrite Hskip; rewrite !decide_False by lia; by rewrite Hread.
    + cbn [app skip_space]. change (is_space 43) with false. cbv iota. rewrite decide_False by done. rewrite decide_True by done.
      by rewrite Hread.
    + change ([32] ++ e :: u) with (32 :: e :: u). cbn [skip_space]. change (is_space 32) with true. cbv iota.
      fold (skip_space (e :: u)). change (if is_space e then skip_space u else e :: u) with (skip_space (e :: u)). rewrite Hskip.
      rewrite !decide_False by lia. by rewrite Hread.
Qed.

Lemma strtol_layout v specs a z b c l :
  - LONG_MAX - 1 ≤ v ≤ LONG_MAX → is_digit c = false →
  strtol ((replicate a 32 ++ sign_prefix v specs ++ replicate z 48 ++ dec (Z.abs v) ++ replicate b 32) ++ c :: l) = Some v.
Proof.
  unfold LONG_MAX. intros Hv Hc. unfold strtol. rewrite read_number_layout by (lia || done). cbn [fmap option_fmap option_map fst snd]. f_equal.
  unfold LONG_MAX. case_bool_decide; lia.
Qed.
Lemma strtoul_layout v specs a z b c l :
  0 ≤ v ≤ ULONG_MAX → is_digit c = false →
  strtoul ((replicate a 32 ++ sign_prefix v specs ++ replicate z 48 ++ dec (Z.abs v) ++ replicate b 32) ++ c :: l) = Some v.
Proof.
  unfold ULONG_MAX. intros Hv Hc. unfold strtoul. rewrite read_number_layout by (lia || done). cbn [fmap option_fmap option_map fst snd]. f_equal.
  unfold ULONG_MAX. rewrite bool_decide_false by lia. rewrite decide_False by lia. rewrite u64_small by lia. lia.
Qed.

(** ** Values without a specification are written in decimal *)

Lemma wrap_abs w v :
  int_range w v → (let a := wrap w v in if decide (v < 0) then wrap w (wrap w (Z.lnot a) + 1) else a) = Z.abs v.
Proof.
  intros Hv%int_range_cases. cbv zeta. unfold Z.lnot. unfold wrap.
  destruct Hv as [[-> Hv]|[-> Hv]]; [change (2 ^ 32) with 4294967296|change (2 ^ 64) with 18446744073709551616];
    case_decide; Z.to_euclidean_division_equations; lia.
Qed.

Lemma write_integral_decimal w v : int_range w v → write_integral w v = FOk (decimal v).
Proof.
  intros Hv. destruct (int_range_abs w v Hv) as (Hw & Ha & Ha64). unfold write_integral.
  pose proof (wrap_abs w v Hv) as Hwa. cbv zeta in *. rewrite Hwa.
  rewrite count_digits_dec by done. cbn [defined mbind result_bind]. rewrite format_decimal_it_dec by done.
  cbn [defined mbind result_bind]. rewrite decimal_dec by lia. case_decide; cbn [app]; do 2 f_equal; [f_equal|]; lia.
Qed.

(** The array of [digits10 + 2] characters holds the number and its sign. *)
Lemma to_string_integral_decimal d10 w v :
  int_range w v → zlength (dec (Z.abs v)) + (if decide (v < 0) then 1 else 0) ≤ d10 + 2 →
  to_string_integral d10 w v = FOk (decimal v).
Proof.
  intros Hv Hroom. destruct (int_range_abs w v Hv) as (Hw & Ha & Ha64). unfold to_string_integral.
  pose proof (wrap_abs w v Hv) as Hwa. cbv zeta in *. rewrite Hwa.
  rewrite count_digits_dec by done. cbn [defined mbind result_bind]. pose proof (dec_length (Z.abs v) ltac:(lia)) as Hlen.
  remember (zlength (dec (Z.abs v))) as n eqn:Hn. set (neg := if decide (v < 0) then [Some 45] else @nil (option Z)).
  set (size := if decide (5 < d10 + 2) then d10 + 2 else 5).
  set (pre := if decide (v < 0) then 1 else 0) in *.
  assert (zlength neg = pre) as Hneg by (unfold neg, pre; case_decide; done).
  assert (n + pre ≤ size) as Hsize by (unfold size; destruct (decide (5 < d10 + 2)); lia).
  assert (0 ≤ pre) by (unfold pre; destruct (decide (v < 0)); lia).
  set (mid := replicate (Z.to_nat n) (@None Z)). set (post := replicate (Z.to_nat (size - n - pre)) (@None Z)).
  assert ((if decide (v < 0) then zupdate 0 (Some 45) (replicate (Z.to_nat size) None) else Some (replicate (Z.to_nat size) None))
          = Some (neg ++ mid ++ post)) as ->.
  { unfold neg, mid, post, pre in *. rewrite <-replicate_add. destruct (decide (v < 0)) as [Hd|Hd].
    - replace (Z.to_nat size) with (S (Z.to_nat n + Z.to_nat (size - n - 1))) by lia. cbn [replicate]. apply (zupdate_mid []).
    - cbn [app]. do 2 f_equal. lia. }
  cbn [defined mbind result_bind].
  assert (zlength mid = n) as Hmid by (unfold mid, zlength; rewrite length_replicate; lia).
  pose proof (format_decimal_run w neg mid post (Z.abs v) Hw Ha ltac:(lia)) as Hrun. rewrite Hneg, Hmid in Hrun. rewrite Hrun.
  cbn [defined mbind result_bind fst snd].
  pose proof (read_cells_all (decimal v) post) as Hread. rewrite decimal_dec in Hread by lia.
  rewrite decimal_dec by lia. unfold neg, pre in *. destruct (decide (v < 0)).
  - replace (Z.abs v) with (- v) in * by lia. rewrite zlength_cons, <-Hn in Hread. cbn [fmap list_fmap app] in *.
    replace (1 + n) with (n + 1) by lia. by rewrite Hread.
  - replace (Z.abs v) with v in * by lia. rewrite <-Hn in Hread. cbn [app]. rewrite Z.add_0_l. by rewrite Hread.
Qed.

(** [fmt::format("{}", v)] of an integer. *)
Lemma stringifier_integer v z :
  value_wf v → (v = int_value z ∨ v = uint_value z ∨ v = long_long_value z ∨ v = ulong_long_value z) →
  stringifier v = FOk (decimal z).
Proof.
  intros Hwf Hcases. destruct Hcases as [->|[->|[->| ->]]]; cbn [value_wf stringifier] in *;
    unfold in_signed, in_unsigned in Hwf; apply to_string_integral_decimal.
  all: try (split; [auto|cbn in *; lia]).
  all: match goal with |- context [dec ?n] => destruct (numeral_digits_of 10 (λ d, 48 + d) ltac:(lia) n) as (Hd & Hlo & _); [cbn in *; lia|] end;
    fold dec in *; match goal with |- ?l + _ ≤ ?m => destruct (decide (l + (if decide (z < 0) then 1 else 0) ≤ m)) as [|Hbig]; [done|exfalso] end.
  all: destruct Hlo as [Hlo|Hlo]; [repeat case_decide; lia|].
  - assert (10 ^ 10 ≤ 10 ^ (zlength (dec (Z.abs z)) - 1)) by (apply Z.pow_le_mono_r; case_decide; lia). cbn in *. lia.
  - assert (10 ^ 10 ≤ 10 ^ (zlength (dec (Z.abs z)) - 1)) by (apply Z.pow_le_mono_r; case_decide; lia). cbn in *. lia.
  - assert (10 ^ 19 ≤ 10 ^ (zlength (dec (Z.abs z)) - 1)) by (apply Z.pow_le_mono_r; case_decide; lia). cbn in *. lia.
  - assert (10 ^ 20 ≤ 10 ^ (zlength (dec (Z.abs z)) - 1)) by (apply Z.pow_le_mono_r; case_decide; lia). cbn in *. lia.
Qed.
End FmtWrite.
