(* ===== verification/FmtParse.v ===== *)
(** FmtParse: what both parsers of format strings use: iterators, and numbers
    ([parse_nonnegative_int] of format.h in the copy of fmt under
    src/mysql-conn-pool).  An iterator into the format string is the rest of the
    string. *)
From S2P Require Import Prelude Bytes FmtInt FmtArgs.

Module FmtParse.
Import FmtInt FmtArgs.

(** [*it].  Behind the last character stands a terminator where the format is a
    C string or a [std::string]; behind a [string_view] there is nothing to read. *)
Definition deref (terminated : bool) (it : bytes) : result Z :=
  match it with c :: _ => FOk c | [] => if terminated then FOk 0 else FUndef end.
(** [it != end ? *it : 0] *)
Definition deref_or_0 (terminated : bool) (it : bytes) : result Z :=
  if decide (it ≠ []) then deref terminated it else FOk 0.
(** [it != end && *it == c] *)
Definition at_char (terminated : bool) (c : Z) (it : bytes) : result bool :=
  if decide (it ≠ []) then d ← deref terminated it; FOk (bool_decide (d = c)) else FOk false.

(** The reads behind a comparison with the end never depend on a terminator. *)
Definition peek (it : bytes) : Z := default 0 (head it).
Lemma deref_peek z it : it ≠ [] ∨ z = true → deref z it = FOk (peek it).
Proof. destruct it; [|done]. by intros [?| ->]. Qed.
Lemma deref_or_0_eq z it : deref_or_0 z it = FOk (peek it).
Proof. unfold deref_or_0. destruct it; [by rewrite decide_False by auto|by rewrite decide_True]. Qed.
Lemma at_char_eq z c it : at_char z c it = FOk (if decide (it ≠ [] ∧ peek it = c) then true else false).
Proof.
  unfold at_char. destruct it as [|d it]; [rewrite decide_False by auto; by rewrite decide_False by tauto|]. rewrite decide_True by done. cbn.
  case_bool_decide; [by rewrite decide_True|by rewrite decide_False by tauto].
Qed.
(** The text between two iterators, which the parsers copy to the output. *)
Definition between (start it : bytes) : bytes := take (length start - length it) start.

Lemma between_app pend it : between (pend ++ it) it = pend.
Proof.
  unfold between. rewrite length_app. replace (length pend + length it - length it)%nat with (length pend) by lia. apply take_app_length.
Qed.
Lemma between_cons c it : between (c :: it) it = [c].
Proof. apply (between_app [c]). Qed.
Lemma between_nil it : between it it = [].
Proof. apply (between_app []). Qed.

(** ** Numbers *)

Definition max_int : Z := 2147483647.

(** The loop: the value and the iterator. *)
Fixpoint parse_int_loop (value : Z) (begin : bytes) : Z * bytes :=
  match begin with
  | c :: rest =>
      if is_digit c then
        let big := max_int / 10 in
        if decide (big < value) then (max_int + 1, begin)
        else parse_int_loop (u32 (u32 (value * 10) + (c - 48))) rest
      else (value, begin)
  | [] => (value, [])
  end.
Definition parse_nonnegative_int (begin : bytes) : result (Z * bytes) :=
  match begin with
  | c :: _ =>
      if is_digit c then
        let r := parse_int_loop 0 begin in
        if decide (max_int < r.1) then FError (text "number is too big") else FOk r
      else FUndef
  | [] => FUndef
  end.

(** Text that does not go on with a digit. *)
Definition no_digit (s : bytes) : Prop := match s with c :: _ => is_digit c = false | [] => True end.
Definition digit_value (c : Z) : Z := c - 48.

Lemma is_digit_iff c : is_digit c = true ↔ 48 ≤ c ≤ 57.
Proof. unfold is_digit. by rewrite bool_decide_eq_true. Qed.

(** The value grows with every digit. *)
Lemma value_of_mono ds v : Forall (λ c, is_digit c = true) ds → 0 ≤ v → v ≤ foldl (λ a c, a * 10 + digit_value c) v ds.
Proof.
  revert v. induction ds as [|d ds IH]; intros v Hds Hv; cbn [foldl]; [done|]. apply Forall_cons in Hds as [Hd%is_digit_iff Hds].
  unfold digit_value in *. etransitivity; [|apply IH; [done|lia]]. lia.
Qed.

Lemma parse_int_loop_run ds rest v :
  Forall (λ c, is_digit c = true) ds → no_digit rest → 0 ≤ v ≤ 2147483649 →
  let n := foldl (λ a c, a * 10 + digit_value c) v ds in
  if decide (n ≤ max_int) then parse_int_loop v (ds ++ rest) = (n, rest)
  else max_int < (parse_int_loop v (ds ++ rest)).1.
Proof.
  revert v. induction ds as [|d ds IH]; intros v Hds Hrest Hv n; unfold n; cbn [foldl app].
  - assert (parse_int_loop v rest = (v, rest)) as ->.
    { destruct rest as [|c rest]; [done|]. cbn [parse_int_loop no_digit] in *. by rewrite Hrest. }
    case_decide; [done|]. cbn [fst]. lia.
  - apply Forall_cons in Hds as [Hd Hds]. cbn [parse_int_loop]. rewrite Hd. apply is_digit_iff in Hd.
    change (max_int / 10) with 214748364. destruct (decide (214748364 < v)) as [Hbig|Hbig].
    + cbn [fst].
      pose proof (value_of_mono ds (v * 10 + digit_value d) Hds ltac:(unfold digit_value; lia)). unfold digit_value in *.
      rewrite decide_False by (unfold max_int; lia). unfold max_int. lia.
    + rewrite (u32_small (v * 10)) by lia. rewrite u32_small by lia.
      apply (IH (v * 10 + digit_value d)); [done|done|unfold digit_value; lia].
Qed.

(** Digits are read to the first character that is none, exactly when their
    value fits an [int]; otherwise the number is reported as too big. *)
Lemma parse_nonnegative_int_run ds rest :
  ds ≠ [] → Forall (λ c, is_digit c = true) ds → no_digit rest →
  parse_nonnegative_int (ds ++ rest) =
    if decide (value_of 10 digit_value ds ≤ max_int) then FOk (value_of 10 digit_value ds, rest)
    else FError (text "number is too big").
Proof.
  intros Hne Hds Hrest. unfold parse_nonnegative_int. pose proof (parse_int_loop_run ds rest 0 Hds Hrest ltac:(lia)) as Hrun.
  cbv zeta in Hrun. change (foldl _ 0 ds) with (value_of 10 digit_value ds) in Hrun.
  destruct ds as [|d ds]; [done|]. cbn [app] in *. pose proof (Forall_inv Hds) as Hd. cbn beta in Hd. rewrite Hd.
  case_decide as Hv.
  - rewrite Hrun. cbn [fst]. by rewrite decide_False by lia.
  - by rewrite decide_True.
Qed.

(** Any text that starts with a digit is such a sequence. *)
Lemma split_digits s : ∃ ds rest, s = ds ++ rest ∧ Forall (λ c, is_digit c = true) ds ∧ no_digit rest.
Proof.
  induction s as [|c s (ds & rest & -> & Hds & Hrest)]; [exists [], []; done|].
  destruct (is_digit c) eqn:Hc.
  - exists (c :: ds), rest. split; [done|]. split; [by constructor|done].
  - exists [], (c :: ds ++ rest). done.
Qed.

(** Only what was read is consumed. *)
Lemma parse_nonnegative_int_shrinks s v rest :
  parse_nonnegative_int s = FOk (v, rest) → (length rest < length s)%nat ∧ 0 ≤ v ≤ max_int ∧ ∃ ds, s = ds ++ rest ∧ ds ≠ [].
Proof.
  destruct (split_digits s) as (ds & r & -> & Hds & Hr). intros H.
  destruct ds as [|d ds].
  { destruct r as [|c r]; cbn [app parse_nonnegative_int no_digit] in *; [done|]. by rewrite Hr in H. }
  rewrite parse_nonnegative_int_run in H by done. case_decide as Hv; [|done]. simplify_eq.
  pose proof (value_of_mono (d :: ds) 0 Hds ltac:(lia)).
  split; [rewrite length_app; cbn; lia|]. split; [unfold value_of in *; lia|]. by exists (d :: ds).
Qed.

(** A decimal numeral is read as its number. *)
Lemma parse_dec n rest : 0 ≤ n ≤ max_int → no_digit rest → parse_nonnegative_int (dec n ++ rest) = FOk (n, rest).
Proof.
  unfold max_int. intros Hn Hrest. assert (Forall (λ c, is_digit c = true) (dec n)) as Hds.
  { assert (0 ≤ n < 2 ^ 64) as H64 by lia. clear Hn. unfold dec.
    revert n H64. apply (numeral_ind 10); [lia|..]; intros n Hn; [|intros IH].
    - rewrite numeral_small by lia. constructor; [|done]. apply is_digit_iff. lia.
    - rewrite numeral_step by lia. apply Forall_app. split; [done|]. constructor; [|done].
      apply is_digit_iff. pose proof (Z.mod_pos_bound n 10). lia. }
  rewrite parse_nonnegative_int_run; [|intros H; pose proof (dec_length n ltac:(lia)); rewrite H in *; change (zlength []) with 0 in *; lia|done|done].
  unfold dec. rewrite (value_of_numeral 10); [|lia|unfold digit_value; lia|lia]. by rewrite decide_True by (unfold max_int; lia).
Qed.
End FmtParse.
