(* ===== verification/FmtPrintf.v ===== *)
(** FmtPrintf: [fmt::sprintf] (printf.h of the copy of fmt under
    src/mysql-conn-pool), which makes the text of the statements that are built
    from a format and arguments. *)
From S2P Require Import Prelude Bytes FmtInt FmtArgs FmtWrite FmtParse.

Module FmtPrintf.
Import FmtInt FmtArgs FmtWrite FmtParse.

(** ** Visitors of arguments *)

(** The value of an argument of an integral type. *)
Definition integral (v : value) : option Z :=
  match v with
  | int_value v | uint_value v | long_long_value v | ulong_long_value v => Some v
  | bool_value b => Some (if b then 1 else 0)
  | char_value c => Some c
  | _ => None
  end.
(** Bits of the type [uint32_or_64_or_128_t] for it. *)
Definition unsigned_bits (v : value) : Z :=
  match v with long_long_value _ | ulong_long_value _ => 64 | _ => 32 end.

(** [int_checker::fits_in_int] *)
Definition fits_in_int (v : value) (n : Z) : bool :=
  match v with
  | bool_value _ | int_value _ => true
  | uint_value _ | ulong_long_value _ => bool_decide (n ≤ max_int)
  | _ => bool_decide (- max_int - 1 ≤ n ≤ max_int)
  end.
Definition printf_precision_handler (v : value) : result Z :=
  match integral v with
  | Some n => if fits_in_int v n then FOk (Z.max (i32 n) 0) else FError (text "number is too big")
  | None => FError (text "precision is not integer")
  end.

Definition printf_width_handler (v : value) (specs : basic_format_specs) : result (Z * basic_format_specs) :=
  match integral v with
  | Some n =>
      let w := unsigned_bits v in
      let width := wrap w n in
      let '(width, specs) := if decide (n < 0) then (wrap w (0 - width), set_align align.left specs) else (width, specs) in
      if decide (max_int < width) then FError (text "number is too big") else FOk (u32 width, specs)
  | None => FError (text "width is not integer")
  end.

Definition is_zero_int (v : value) : bool := match integral v with Some n => bool_decide (n = 0) | None => false end.

(** The type that a length modifier names: [void], [signed char], [short], or
    one of 64 bits. *)
Inductive target := to_void | to_schar | to_short | to_wide.

(** [arg_converter]: [type_ == 'd' || type_ == 'i'] selects the signed types. *)
Definition convert_integral (T : target) (type_ : Z) (v : value) (n : Z) : value :=
  let is_signed := bool_decide (type_ = 100 ∨ type_ = 105) in
  let wide := match T with
              | to_void => bool_decide (unsigned_bits v = 64)
              | to_schar | to_short => false
              | to_wide => true
              end in
  if wide then
    if is_signed then long_long_value (signed 64 n)
    else match v with
         | bool_value b => bool_value b
         | char_value c => uint_value (u8 c)
         | int_value _ | uint_value _ => uint_value (u32 n)
         | _ => ulong_long_value (u64 n)
         end
  else
    if is_signed then
      int_value (match T with
                 | to_schar => signed 8 n
                 | to_short => signed 16 n
                 | _ => i32 n
                 end)
    else
      uint_value (match T with
                  | to_schar => u8 n
                  | to_short => wrap 16 n
                  | _ => match v with bool_value _ => n | char_value c => u8 c | _ => u32 n end
                  end).
Definition convert_arg (T : target) (type_ : Z) (v : value) : value :=
  match v with
  | bool_value b => if decide (type_ ≠ 115) then
                      convert_integral T type_ v (if b then 1 else 0)
                    else v
  | _ => match integral v with Some n => convert_integral T type_ v n | None => v end
  end.

Definition char_converter (v : value) : value :=
  match integral v with Some n => char_value (signed 8 n) | None => v end.

(** ** The formatter of one argument *)

Section printf.
Context (loc : locale_ref).

Definition reset_for_char (specs : basic_format_specs) : basic_format_specs :=
  let specs := set_fill (set_fill0 32 (fill specs)) (set_alt false (set_sign sign.none specs)) in
  if decide (align specs = align.none ∨ align specs = align.numeric) then set_align align.right specs else specs.

Definition printf_arg_formatter (v : value) (specs : basic_format_specs) : result bytes :=
  match v with
  | bool_value b =>
      if decide (type specs ≠ 115) then write_int_value loc 32 (if b then 1 else 0) specs
      else format_bool loc b (set_type 0 specs)
  | char_value c =>
      if decide (type specs ≠ 0 ∧ type specs ≠ 99) then write_int_value loc 32 c specs
      else format_char loc c (reset_for_char specs)
  | cstring_value p s =>
      if decide (p ≠ 0) then format_cstring p s specs
      else if decide (type specs = 112) then FOk (write_string (text "(nil)") (set_type 0 specs))
      else FOk (write_string (text "(null)") specs)
  | pointer_value p =>
      if decide (p ≠ 0) then format_pointer p specs
      else FOk (write_string (text "(nil)") (set_type 0 specs))
  | _ => arg_formatter loc v specs
  end.

(** ** Parsing one conversion *)

Context (args : basic_format_args).
(** Whether a terminator stands behind the format. *)
Context (terminated : bool).

Fixpoint parse_flags (specs : basic_format_specs) (it : bytes) : basic_format_specs * bytes :=
  match it with
  | [] => (specs, it)
  | c :: rest =>
      if decide (c = 45) then parse_flags (set_align align.left specs) rest
      else if decide (c = 43) then parse_flags (set_sign sign.plus specs) rest
      else if decide (c = 48) then parse_flags (set_fill (set_fill0 48 (fill specs)) specs) rest
      else if decide (c = 32) then
        parse_flags (if decide (sign specs ≠ sign.plus) then set_sign sign.space specs else specs) rest
      else if decide (c = 35) then parse_flags (set_alt true specs) rest
      else (specs, it)
  end.

(** [basic_printf_context::get_arg], with the counter of arguments. *)
Definition printf_get_arg (next arg_index : Z) : result (value * Z) :=
  if decide (arg_index < 0) then
    '(id, next) ← next_arg_id next; v ← get_arg args id; FOk (v, next)
  else
    next ← check_arg_id next; v ← get_arg args (arg_index - 1); FOk (v, next).

(** The rest of [parse_header], behind an argument index or where there is
    none. *)
Definition parse_flags_width (arg_index next : Z) (it : bytes) (specs : basic_format_specs) :
    result (Z * bytes * basic_format_specs * Z) :=
  let '(specs, it) := parse_flags specs it in
  match it with
  | [] => FOk (arg_index, it, specs, next)
  | c :: rest =>
      if is_digit c then
        '(w, it) ← parse_nonnegative_int it; FOk (arg_index, it, set_width w specs, next)
      else if decide (c = 42) then
        '(v, next) ← printf_get_arg next (-1);
        '(w, specs) ← printf_width_handler v specs;
        FOk (arg_index, rest, set_width (i32 w) specs, next)
      else FOk (arg_index, it, specs, next)
  end.
Definition parse_header (next : Z) (it : bytes) (specs : basic_format_specs) :
    result (Z * bytes * basic_format_specs * Z) :=
  c ← deref terminated it;
  if is_digit c then
    '(v, it) ← parse_nonnegative_int it;
    dollar ← at_char terminated 36 it;
    if (dollar : bool) then parse_flags_width v next (drop 1 it) specs
    else
      let specs := if decide (c = 48) then set_fill (set_fill0 48 (fill specs)) specs else specs in
      if decide (v ≠ 0) then FOk (-1, it, set_width v specs, next)
      else parse_flags_width (-1) next it specs
  else parse_flags_width (-1) next it specs.

Definition parse_precision (next : Z) (it : bytes) (specs : basic_format_specs) :
    result (bytes * basic_format_specs * Z) :=
  point ← at_char terminated 46 it;
  if (point : bool) then
    let it := drop 1 it in
    c ← deref_or_0 terminated it;
    if is_digit c then '(p, it) ← parse_nonnegative_int it; FOk (it, set_precision p specs, next)
    else if decide (c = 42) then
      '(v, next) ← printf_get_arg next (-1);
      p ← printf_precision_handler v;
      FOk (drop 1 it, set_precision p specs, next)
    else FOk (it, set_precision 0 specs, next)
  else FOk (it, specs, next).

(** A precision limits what is read of a C string; [std::find] stops at the
    terminator. *)
Definition limit_cstring (v : value) (specs : basic_format_specs) : result value :=
  match v with
  | cstring_value p s =>
      if decide (0 ≤ precision specs) then
        if decide (p = 0) then if decide (precision specs = 0) then FOk (string_value []) else FUndef
        else FOk (string_value (take (Z.to_nat (precision specs)) s))
      else FOk v
  | _ => FOk v
  end.

(** The flags that depend on the argument. *)
Definition adjust_flags (v : value) (specs : basic_format_specs) : basic_format_specs :=
  let specs := if alt specs && is_zero_int v then set_alt false specs else specs in
  if decide (fill0 (fill specs) = 48) then
    if is_arithmetic_type (type_of v) && bool_decide (align specs ≠ align.left) then set_align align.numeric specs
    else set_fill (set_fill0 32 (fill specs)) specs
  else specs.

(** [--it] *)
Definition step_back (whole it : bytes) : bytes := drop (length whole - length it - 1) whole.

(** The length modifier and the conversion of the argument. *)
Definition parse_length (whole it : bytes) (v : value) : result (bytes * value) :=
  c ← deref_or_0 terminated it;
  let it1 := drop 1 it in
  t ← deref_or_0 terminated it1;
  if decide (c = 104) then
    if decide (t = 104) then t ← deref_or_0 terminated (drop 1 it1); FOk (drop 1 it1, convert_arg to_schar t v)
    else FOk (it1, convert_arg to_short t v)
  else if decide (c = 108) then
    if decide (t = 108) then t ← deref_or_0 terminated (drop 1 it1); FOk (drop 1 it1, convert_arg to_wide t v)
    else FOk (it1, convert_arg to_wide t v)
  else if decide (c = 106 ∨ c = 122 ∨ c = 116) then FOk (it1, convert_arg to_wide t v)
  else if decide (c = 76) then FOk (it1, v)
  else FOk (step_back whole it1, convert_arg to_void c v).

(** The type of the conversion, normalised for integers. *)
Definition parse_type (it : bytes) (v : value) (specs : basic_format_specs) : result (bytes * value * basic_format_specs) :=
  match it with
  | [] => FError (text "invalid format string")
  | t :: it =>
      if is_integral_type (type_of v) then
        if decide (t = 105 ∨ t = 117) then FOk (it, v, set_type 100 specs)
        else if decide (t = 99) then FOk (it, char_converter v, set_type t specs)
        else FOk (it, v, set_type t specs)
      else FOk (it, v, set_type t specs)
  end.

(** One round of [format] behind a '%' that is not doubled: what it writes, and
    where it goes on. *)
Definition format_conversion (whole it : bytes) (next : Z) : result (bytes * bytes * Z) :=
  '(arg_index, it, specs, next) ← parse_header next it (set_align align.right new_specs);
  if decide (arg_index = 0) then FError (text "argument not found") else
  '(it, specs, next) ← parse_precision next it specs;
  '(arg, next) ← printf_get_arg next arg_index;
  let specs := if decide (0 ≤ precision specs ∧ is_integral_type (type_of arg) = true)
               then set_fill (set_fill0 32 (fill specs)) specs else specs in
  arg ← limit_cstring arg specs;
  let specs := adjust_flags arg specs in
  '(it, arg) ← parse_length whole it arg;
  '(it, arg, specs) ← parse_type it arg specs;
  out ← printf_arg_formatter arg specs;
  FOk (out, it, next).

Fixpoint format_loop (fuel : nat) (whole start it out : bytes) (next : Z) : option (result bytes) :=
  match fuel with
  | O => None
  | S fuel =>
      match it with
      | [] => Some (FOk (out ++ between start it))
      | c :: it' =>
          if decide (c ≠ 37) then format_loop fuel whole start it' out next
          else match at_char terminated c it' with
          | FOk true => format_loop fuel whole (drop 1 it') (drop 1 it') (out ++ between start it') next
          | FOk false =>
              match format_conversion whole it' next with
              | FOk (piece, it'', next) => format_loop fuel whole it'' it'' (out ++ between start it ++ piece) next
              | FError e => Some (FError e)
              | FUndef => Some FUndef
              end
          | FError e => Some (FError e)
          | FUndef => Some FUndef
          end
      end
  end.
End printf.

(** [vsprintf] and [sprintf]; [None] would be a loop without an end. *)
Definition vsprintf (terminated : bool) (loc : locale_ref) (format : bytes) (args : basic_format_args) : option (result bytes) :=
  format_loop loc args terminated (S (length format)) format format format [] 0.
Definition sprintf (terminated : bool) (loc : locale_ref) (format : bytes) (args : list value) : option (result bytes) :=
  vsprintf terminated loc format (make_format_args args).

Example sprintf_ex :
  sprintf true classic_locale (text "update t set a='%s', b=%05d where c=%u and d like '%%x'")
    [cstring_value 4096 (text "name"); int_value (-42); uint_value 7] =
  Some (FOk (text "update t set a='name', b=-0042 where c=7 and d like '%x'")).
Proof. reflexivity. Qed.
Example sprintf_indexed :
  sprintf true classic_locale (text "%2$s=%1$#x|%-6d|") [int_value 255; string_value (text "k"); int_value 1] =
  Some (FError (text "cannot switch from manual to automatic argument indexing")).
Proof. reflexivity. Qed.

(** ** No undefined behaviour *)

(** A computation is defined, and what it answers satisfies [Q]. *)
Definition holds {A} (m : result A) (Q : A → Prop) : Prop :=
  match m with FOk a => Q a | FError _ => True | FUndef => False end.
Lemma holds_bind {A B} (m : result A) (f : A → result B) P Q :
  holds m P → (∀ a, P a → holds (f a) Q) → holds (m ≫= f) Q.
Proof. destruct m; cbn; [auto|done|done]. Qed.
Lemma holds_impl {A} (m : result A) (P Q : A → Prop) : holds m P → (∀ a, P a → Q a) → holds m Q.
Proof. destruct m; cbn; auto. Qed.

Lemma signed_range w x : 0 < w → in_signed w (signed w x).
Proof.
  intros Hw. unfold signed, in_signed. pose proof (wrap_range w x ltac:(lia)).
  assert (2 ^ w = 2 * 2 ^ (w - 1)) as Hp by (rewrite <-Z.pow_succ_r by lia; f_equal; lia). case_decide; lia.
Qed.
Lemma i32_range x : in_signed 32 (i32 x).
Proof. apply (signed_range 32). lia. Qed.
Lemma wrap_small_range w1 w2 x : 0 ≤ w1 ≤ w2 → 0 ≤ wrap w1 x < 2 ^ w2.
Proof. intros. pose proof (wrap_range w1 x ltac:(lia)). assert (2 ^ w1 ≤ 2 ^ w2) by (apply Z.pow_le_mono_r; lia). lia. Qed.
Lemma signed_widen w1 w2 x : 0 < w1 ≤ w2 → in_signed w2 (signed w1 x).
Proof.
  intros. pose proof (signed_range w1 x ltac:(lia)) as Hr. unfold in_signed in *.
  assert (2 ^ (w1 - 1) ≤ 2 ^ (w2 - 1)) by (apply Z.pow_le_mono_r; lia). lia.
Qed.

Lemma convert_integral_wf T t v n :
  value_wf v → integral v = Some n → value_wf (convert_integral T t v n).
Proof.
  intros Hwf Hn. unfold convert_integral.
  assert (∀ w, 0 ≤ w ≤ 32 → in_unsigned 32 (wrap w n)) as Hu by (intros; apply wrap_small_range; lia).
  destruct (match T with to_void => _ | _ => _ end).
  - case_bool_decide; [apply signed_range; lia|].
    destruct v; cbn [value_wf]; try done; try (apply Hu; lia); try (apply (wrap_small_range 64 64); lia).
    apply (wrap_small_range 8 32); lia.
  - case_bool_decide; cbn [value_wf]; destruct T; try (apply signed_widen; lia); try apply i32_range; try (apply Hu; lia);
      (destruct v; try (apply Hu; lia); cbn in Hn; simplify_eq; [destruct b; unfold in_unsigned; lia|apply (wrap_small_range 8 32); lia]).
Qed.
Lemma convert_arg_wf T t v : value_wf v → value_wf (convert_arg T t v).
Proof.
  intros Hwf. unfold convert_arg.
  destruct v; cbn [integral]; try done; try (apply convert_integral_wf; done).
  case_decide; [apply convert_integral_wf; done|done].
Qed.

(** Without groups of digits, every value of its type is written. *)
Lemma write_int_value_defined loc w v specs :
  grouping loc = [] → int_range w v → holds (write_int_value loc w v specs) (λ _, True).
Proof.
  intros Hloc Hv. unfold write_int_value, handle_int_type_spec. cbv zeta.
  pose proof (on_dec_spec w v specs Hv) as Hd. pose proof (on_hex_spec w v specs Hv) as Hh.
  pose proof (on_bin_spec w v specs Hv) as Hb. pose proof (on_oct_spec w v specs Hv) as Ho. cbv zeta in *.
  assert (on_num loc specs (new_int_writer w v specs) = on_dec specs (new_int_writer w v specs)) as Hnum.
  { unfold on_num. rewrite Hloc. by rewrite decide_True. }
  rewrite Hnum, Hd, Hh, Hb, Ho. repeat case_decide; done.
Qed.

Lemma write_ptr_defined p o : in_unsigned 64 p → holds (write_ptr p o) (λ _, True).
Proof.
  intros Hp. unfold write_ptr, in_unsigned in *.
  rewrite (count_digits_bits_numeral (radix_char 4 false)) by (lia || (change (2 ^ (4 * Z.of_nat 65)) with (2 ^ 260); assert (2 ^ 64 < 2 ^ 260) by (apply Z.pow_lt_mono_r; lia); lia)).
  cbn [defined mbind result_bind]. change (numeral (2 ^ 4) (radix_char 4 false) p) with (radix 4 false p). rewrite Z.add_0_l.
  rewrite format_uint_it_radix by lia. done.
Qed.

Lemma printf_arg_formatter_defined loc v specs :
  grouping loc = [] → value_wf v → holds (printf_arg_formatter loc v specs) (λ _, True).
Proof.
  intros Hloc Hwf.
  assert (∀ w n specs, int_range w n → holds (write_int_value loc w n specs) (λ _, True)) as Hint
    by (intros; by apply write_int_value_defined).
  destruct v; cbn [printf_arg_formatter arg_formatter value_wf] in *; unfold in_signed, in_unsigned in *.
  1-4: apply Hint; split; [auto|cbn in *; lia].
  - case_decide; [apply Hint; split; [auto|destruct b; cbn; lia]|].
    unfold format_bool. by rewrite decide_False by (cbn; auto).
  - case_decide; [apply Hint; split; [auto|cbn in *; lia]|].
    unfold format_char. case_decide; [apply Hint; split; [auto|cbn in *; lia]|]. by case_decide.
  - case_decide; [|by case_decide]. unfold format_cstring.
    case_decide; [by case_decide|]. case_decide; [|done]. apply write_ptr_defined. by destruct Hwf.
  - unfold format_string_view. by case_decide.
  - case_decide; [|done]. unfold format_pointer. case_decide; [done|]. by apply write_ptr_defined.
Qed.

Section defined.
Context (loc : locale_ref) (args : list value).
Hypothesis Hloc : grouping loc = [].
Hypothesis Hargs : Forall value_wf args.
Hypothesis Hlen : zlength args < 2 ^ 31.
Context (z : bool).
Abbreviation store := (make_format_args args).

Lemma get_arg_holds id : 0 ≤ id → holds (get_arg store id) (λ v, value_wf v ∧ v ∈ args).
Proof.
  intros Hid. unfold get_arg. rewrite get_make by done. cbn [mbind result_bind].
  destruct (zlookup args id) as [v|] eqn:Hv; [|done]. cbn [holds].
  unfold zlookup in Hv. case_decide; [|done]. apply list_elem_of_lookup_2 in Hv. split; [|done].
  rewrite Forall_forall in Hargs. by apply Hargs.
Qed.

Lemma printf_get_arg_holds next arg_index :
  -1 ≤ next → arg_index ≠ 0 → holds (printf_get_arg store next arg_index) (λ r, (value_wf r.1 ∧ r.1 ∈ args) ∧ -1 ≤ r.2).
Proof.
  intros Hn Hi. unfold printf_get_arg, next_arg_id, check_arg_id. repeat case_decide; cbn [mbind result_bind]; try done.
  - eapply holds_bind; [apply get_arg_holds; lia|]. intros v Hv. cbn. split; [done|lia].
  - eapply holds_bind; [apply get_arg_holds; lia|]. intros v Hv. cbn. split; [done|lia].
Qed.

Lemma parse_flags_suffix specs it : (parse_flags specs it).2 `suffix_of` it.
Proof.
  revert specs. induction it as [|c it IH]; intros specs; cbn [parse_flags]; [done|].
  repeat case_decide; try (apply suffix_cons_r; apply IH); done.
Qed.

Lemma drop_suffix {A} n (l : list A) : drop n l `suffix_of` l.
Proof. exists (take n l). by rewrite take_drop. Qed.

Lemma parse_int_holds it : is_digit (peek it) = true → holds (parse_nonnegative_int it) (λ r, r.2 `suffix_of` it ∧ 0 ≤ r.1 ≤ max_int).
Proof.
  intros Hd. destruct (parse_nonnegative_int it) as [[v rest]| |] eqn:Hp; [|done|].
  - apply parse_nonnegative_int_shrinks in Hp as (_ & Hv & ds & -> & _). cbn. split; [by exists ds|done].
  - destruct it as [|c it]; [done|]. cbn [parse_nonnegative_int] in *. change (peek (c :: it)) with c in Hd. rewrite Hd in Hp. by case_decide.
Qed.

Lemma printf_width_handler_holds v specs : holds (printf_width_handler v specs) (λ _, True).
Proof.
  unfold printf_width_handler. destruct (integral v); [|done]. cbv zeta. case_decide; by case_decide.
Qed.

(** What a part of the parser leaves: less text, the counter in range. *)
Definition parsed (it : bytes) (r : Z * bytes * basic_format_specs * Z) : Prop :=
  r.1.1.2 `suffix_of` it ∧ -1 ≤ r.2 ∧ -1 ≤ r.1.1.1.

Lemma parse_flags_width_holds arg_index next it specs :
  -1 ≤ next → -1 ≤ arg_index → holds (parse_flags_width store arg_index next it specs) (parsed it).
Proof.
  intros Hn Hi. unfold parse_flags_width. pose proof (parse_flags_suffix specs it) as Hs.
  destruct (parse_flags specs it) as [specs1 it1]. cbn [snd] in Hs.
  destruct it1 as [|c rest]; [done|]. destruct (is_digit c) eqn:Hd.
  - eapply holds_bind; [apply parse_int_holds; done|]. intros [w it2] [Hs2 _]. cbn in *. split; [by etrans|done].
  - case_decide; [|done]. eapply holds_bind; [apply printf_get_arg_holds; lia|]. intros [v next'] [_ Hn'].
    eapply holds_bind; [apply printf_width_handler_holds|]. intros [w specs'] _. cbn. split; [|done].
    etrans; [|done]. by apply suffix_cons_r.
Qed.

Lemma parse_header_holds next it specs : it ≠ [] ∨ z = true → -1 ≤ next → holds (parse_header store z next it specs) (parsed it).
Proof.
  intros Hz Hn. unfold parse_header. rewrite deref_peek by done. cbn [mbind result_bind]. destruct (is_digit (peek it)) eqn:Hd; [|by apply parse_flags_width_holds].
  eapply holds_bind; [by apply parse_int_holds|]. intros [v it1] [Hs Hv]. cbn [fst snd] in *.
  assert (∀ r, parsed it1 r → parsed it r) as Hmono.
  { intros r (Hr & Hr'). split; [by etrans|done]. }
  assert (∀ r, parsed (drop 1 it1) r → parsed it r) as Hmono'.
  { intros r (Hr & Hr'). split; [|done]. etrans; [done|]. etrans; [apply drop_suffix|done]. }
  rewrite at_char_eq. cbn [mbind result_bind]. destruct (decide (it1 ≠ [] ∧ peek it1 = 36)).
  - eapply holds_impl; [apply parse_flags_width_holds; lia|done].
  - case_decide; [cbn; split; [done|split; [done|cbn; lia]]|].
    eapply holds_impl; [apply parse_flags_width_holds; lia|done].
Qed.

Lemma parse_precision_holds next it specs :
  -1 ≤ next → holds (parse_precision store z next it specs) (λ r, r.1.1 `suffix_of` it ∧ -1 ≤ r.2).
Proof.
  intros Hn. unfold parse_precision. rewrite at_char_eq. cbn [mbind result_bind]. case_decide; [|done].
  destruct it as [|c it]; [tauto|]. cbn [drop]. rewrite drop_0, deref_or_0_eq. cbn [mbind result_bind].
  destruct (is_digit (peek it)) eqn:Hd.
  - eapply holds_bind; [by apply parse_int_holds|]. intros [p it1] [Hs _]. cbn in *. split; [by apply suffix_cons_r|done].
  - case_decide; [|cbn; split; [by apply suffix_cons_r|done]].
    eapply holds_bind; [apply printf_get_arg_holds; lia|]. intros [v next'] [_ Hn'].
    eapply (holds_bind _ _ (λ _, True)).
    { unfold printf_precision_handler. destruct (integral v); [|done]. by destruct (fits_in_int _ _). }
    intros p _. cbn in *. split; [|done]. apply suffix_cons_r, drop_suffix.
Qed.

(** Stepping back from behind the first character gives the text again. *)
Lemma step_back_cons whole c it : c :: it `suffix_of` whole → step_back whole it = c :: it.
Proof.
  intros [pre ->]. unfold step_back. rewrite length_app. cbn [length].
  replace (length pre + S (length it) - length it - 1)%nat with (length pre) by lia. apply drop_app_length.
Qed.

(** Behind the end, it gives the last character. *)
Lemma parse_length_holds whole it v :
  it `suffix_of` whole → whole ≠ [] → value_wf v →
  holds (parse_length z whole it v) (λ r,
    r.1 `suffix_of` whole ∧ (length r.1 ≤ 1 ∨ length r.1 ≤ length it)%nat ∧ value_wf r.2).
Proof.
  intros Hs Hne Hv. unfold parse_length. rewrite !deref_or_0_eq. cbn [mbind result_bind].
  assert (∀ n, drop n it `suffix_of` whole) as Hdrop by (intros; etrans; [apply drop_suffix|done]).
  assert (∀ n, length (drop n it) ≤ length it)%nat as Hdl by (intros; rewrite length_drop; lia).
  repeat case_decide; rewrite ?deref_or_0_eq; cbn [mbind result_bind holds fst snd]; rewrite ?drop_drop;
    (split; [auto|split; [auto|by repeat apply convert_arg_wf]]).
  - apply drop_suffix.
  - destruct it as [|c it].
    + left. unfold step_back. cbn [drop length]. rewrite length_drop. destruct whole; [done|]. cbn. lia.
    + right. cbn [drop]. rewrite drop_0. by rewrite (step_back_cons whole c it).
Qed.

Lemma parse_type_holds it v specs :
  value_wf v → holds (parse_type it v specs) (λ r, r.1.1 = drop 1 it ∧ it ≠ [] ∧ value_wf r.1.2).
Proof.
  intros Hv. unfold parse_type. destruct it as [|t it]; [done|].
  destruct (is_integral_type _); [|done]. case_decide; [done|]. case_decide; [|done]. cbn. split; [done|]. split; [done|].
  unfold char_converter. destruct (integral v); [|done]. apply signed_range. lia.
Qed.

(** Null pointers to C strings are the exception: with a positive precision
    they are read. *)
Definition no_null (v : value) : Prop := match v with cstring_value p _ => p ≠ 0 | _ => True end.
Hypothesis Hnull : Forall no_null args.

Lemma format_conversion_holds whole it next :
  it `suffix_of` whole → whole ≠ [] → it ≠ [] ∨ z = true → -1 ≤ next →
  holds (format_conversion loc store z whole it next) (λ r, r.1.2 `suffix_of` whole ∧ (length r.1.2 ≤ length it)%nat ∧ -1 ≤ r.2).
Proof.
  intros Hs Hne Hz Hn. unfold format_conversion.
  eapply holds_bind; [by apply parse_header_holds|]. intros [[[arg_index it1] specs1] next1] (Hs1 & Hn1 & Hi). cbn [fst snd] in *.
  case_decide as H0; [done|].
  eapply holds_bind; [by apply parse_precision_holds|]. intros [[it2 specs2] next2] [Hs2 Hn2]. cbn [fst snd] in *.
  eapply holds_bind; [by apply printf_get_arg_holds|]. intros [arg next3] [[Hwf Hin] Hn3]. cbn [fst snd] in *.
  set (specs3 := if decide _ then _ else _). clearbody specs3.
  eapply (holds_bind _ _ value_wf).
  { unfold limit_cstring. destruct arg; try done. case_decide; [|done]. rewrite Forall_forall in Hnull. specialize (Hnull _ Hin). cbn in Hnull.
    by rewrite decide_False. }
  intros arg' Hwf'. assert (it2 `suffix_of` whole) as Hs2' by (etrans; [done|]; etrans; [done|done]).
  cbv zeta. eapply holds_bind; [by apply parse_length_holds|]. intros [it3 arg3] (Hs3 & Hl3 & Hwf3). cbn [fst snd] in *.
  eapply holds_bind; [by apply parse_type_holds|]. intros [[it4 arg4] specs4] (Hit4 & Hne3 & Hwf4). cbn [fst snd] in *. subst it4.
  eapply holds_bind; [by apply printf_arg_formatter_defined|]. intros out _. cbn.
  split; [etrans; [apply drop_suffix|done]|]. split; [|done].
  rewrite length_drop. apply suffix_length in Hs1, Hs2. destruct it3; [done|]. cbn [length] in *. lia.
Qed.

Lemma format_loop_holds fuel whole start it out next :
  it `suffix_of` whole → -1 ≤ next → (length it < fuel)%nat →
  ∃ r, format_loop loc store z fuel whole start it out next = Some r ∧ (r = FUndef → z = false ∧ last whole = Some 37).
Proof.
  revert start it out next. induction fuel as [|fuel IH]; intros start it out next Hs Hn Hf; [lia|]. cbn [format_loop].
  destruct it as [|c it]; [by eexists|]. cbn [length] in Hf.
  assert (it `suffix_of` whole) as Hs' by (etrans; [|done]; by apply suffix_cons_r).
  case_decide as Hpercent; [apply IH; [done|done|lia]|]. rewrite at_char_eq. case_decide.
  { apply IH; [etrans; [apply drop_suffix|done]|done|]. rewrite length_drop. lia. }
  destruct (decide (it ≠ [] ∨ z = true)) as [Hend|Hend].
  2:{ assert (it = [] ∧ z = false) as [-> ->] by (split; [by destruct it; [|exfalso; auto]|by destruct z; [exfalso; auto|]]).
      eexists. split; [done|]. intros _. split; [done|]. destruct Hs as [pre ->]. rewrite last_snoc. f_equal. lia. }
  pose proof (format_conversion_holds whole it next Hs') as Hc.
  destruct (format_conversion loc store z whole it next) as [[[piece it'] next']| |]; cbn [holds] in Hc.
  - cbn [fst snd] in Hc. destruct Hc as (Hs2 & Hl2 & Hn2); [intros ->; by apply suffix_nil_inv in Hs|done|done|]. apply IH; [done|done|lia].
  - by eexists.
  - exfalso. apply Hc; [intros ->; by apply suffix_nil_inv in Hs|done|done].
Qed.
End defined.

(** C22: Whatever the format, the call ends, with a text or with [format_error], and
    reads nothing behind the format: behind a terminated one it may read the
    terminator, and behind one without, as a [string_view] may be, it reads
    nothing unless the format ends with '%'.  This holds in a locale that does
    not group digits, for arguments in the ranges of their types, less than
    2^31 of them, that are no null pointers to C strings. *)
Theorem sprintf_defined terminated loc format args :
  grouping loc = [] → Forall value_wf args → Forall no_null args → zlength args < 2 ^ 31 →
  ∃ r, sprintf terminated loc format args = Some r ∧ (r = FUndef → terminated = false ∧ last format = Some 37).
Proof.
  intros Hloc Hargs Hnull Hlen.
  apply (format_loop_holds loc args Hloc Hargs Hlen terminated Hnull (S (length format)) format format format [] 0); [done|lia|lia].
Qed.
Lemma sprintf_defined_witness :
  grouping classic_locale = [] ∧
  (∃ r, sprintf false classic_locale (text "%5.*") [int_value 3; cstring_value 64 (text "x")] = Some r ∧ (r = FUndef → false = false ∧ last (text "%5.*") = Some 37)).
Proof.
  split; [reflexivity|]. apply sprintf_defined; [reflexivity| | |vm_compute; reflexivity].
  - repeat constructor; cbn; unfold in_signed, in_unsigned; lia || (vm_compute; split; discriminate) || discriminate.
  - repeat constructor; discriminate.
Defined.

(** A format that ends with '%' is read behind its end, before the comparison
    with the end: that needs the terminator. *)
Example percent_at_the_end :
  sprintf false classic_locale (text "100%") [int_value 1] = Some FUndef ∧
  sprintf true classic_locale (text "100%") [int_value 1] = Some (FError (text "invalid type specifier")) ∧
  sprintf false classic_locale (text "100%%") [] = Some (FOk (text "100%")).
Proof. by vm_compute. Qed.
(** The exception: a null pointer with a positive precision is read. *)
Example null_with_precision :
  sprintf true classic_locale (text "%.3s") [cstring_value 0 []] = Some FUndef ∧
  sprintf true classic_locale (text "%s") [cstring_value 0 []] = Some (FOk (text "(null)")).
Proof. by vm_compute. Qed.
(** A format that ends inside a conversion is parsed again from its last
    character: what is reported is the type, not the end of the string. *)
Example incomplete_conversion :
  sprintf true classic_locale (text "100%") [int_value 1] = Some (FError (text "invalid type specifier")) ∧
  sprintf true classic_locale (text "100%") [cstring_value 0 []] = Some (FOk (text "100(null)")) ∧
  sprintf true classic_locale (text "%h") [int_value 1] = Some (FError (text "invalid format string")).
Proof. by vm_compute. Qed.
(** The type of a [char] or an integer under "%s" is refused; under "%c" an
    integer is a character. *)
Example char_conversions :
  sprintf true classic_locale (text "%s") [char_value 120] = Some (FError (text "invalid type specifier")) ∧
  sprintf true classic_locale (text "%c%d") [int_value 65; char_value 66] = Some (FOk (text "A66")) ∧
  sprintf true classic_locale (text "%s|%d") [bool_value true; bool_value true] = Some (FOk (text "true|1")).
Proof. by vm_compute. Qed.

(** ** Formats as sequences of pieces *)

Inductive dimension := dim_none | dim_number (n : Z) | dim_arg.
Inductive length_modifier := len_none | len_h | len_hh | len_l | len_ll | len_j | len_z | len_t | len_L.

(** A conversion specification: index of the argument, flags, width, precision,
    length modifier and type. *)
Record conversion := {
  c_index : option Z;
  c_flags : bytes;
  c_width : dimension;
  c_precision : option dimension;
  c_length : length_modifier;
  c_type : Z;
}.
Inductive piece := Literal (s : bytes) | Percent | Conversion (c : conversion).

Definition is_flag (c : Z) : Prop := c = 45 ∨ c = 43 ∨ c = 48 ∨ c = 32 ∨ c = 35.
Definition dimension_wf (lo : Z) (d : dimension) : Prop := match d with dim_number n => lo ≤ n ≤ max_int | _ => True end.
Definition conversion_wf (c : conversion) : Prop :=
  match c_index c with Some n => 1 ≤ n ≤ max_int | None => True end ∧
  Forall is_flag (c_flags c) ∧ dimension_wf 1 (c_width c) ∧
  match c_precision c with Some d => dimension_wf 0 d | None => True end ∧
  65 ≤ c_type c ∧ c_type c ∉ [104; 108; 106; 122; 116; 76].
Definition piece_wf (p : piece) : Prop :=
  match p with Literal s => Forall (λ c, c ≠ 37) s | Percent => True | Conversion c => conversion_wf c end.
#[global] Instance is_flag_dec c : Decision (is_flag c).
Proof. unfold is_flag. apply _. Defined.
#[global] Instance dimension_wf_dec lo d : Decision (dimension_wf lo d).
Proof. destruct d; cbn; apply _. Defined.
#[global] Instance conversion_wf_dec c : Decision (conversion_wf c).
Proof. destruct c as [[]? ?[]? ?]; unfold conversion_wf; cbn [c_index c_flags c_width c_precision c_length c_type]; apply _. Defined.
#[global] Instance piece_wf_dec p : Decision (piece_wf p).
Proof. destruct p; cbn; apply _. Defined.

(** How they are written. *)
Definition render_dimension (d : dimension) : bytes :=
  match d with dim_none => [] | dim_number n => dec n | dim_arg => [42] end.
Definition render_length (l : length_modifier) : bytes :=
  match l with
  | len_none => [] | len_h => [104] | len_hh => [104; 104] | len_l => [108] | len_ll => [108; 108]
  | len_j => [106] | len_z => [122] | len_t => [116] | len_L => [76]
  end.
Definition render_index (o : option Z) : bytes := match o with Some n => dec n ++ [36] | None => [] end.
Definition render_precision (o : option dimension) : bytes := match o with Some d => 46 :: render_dimension d | None => [] end.
Definition render_tail (c : conversion) : bytes := render_precision (c_precision c) ++ render_length (c_length c) ++ [c_type c].
Definition render_conversion (c : conversion) : bytes :=
  render_index (c_index c) ++ c_flags c ++ render_dimension (c_width c) ++ render_tail c.
Definition render_piece (p : piece) : bytes :=
  match p with Literal s => s | Percent => [37; 37] | Conversion c => 37 :: render_conversion c end.
Definition render (ps : list piece) : bytes := concat (render_piece <$> ps).

(** What they mean. *)
Definition apply_flag (specs : basic_format_specs) (c : Z) : basic_format_specs :=
  if decide (c = 45) then set_align align.left specs
  else if decide (c = 43) then set_sign sign.plus specs
  else if decide (c = 48) then set_fill (set_fill0 48 (fill specs)) specs
  else if decide (c = 32) then if decide (sign specs ≠ sign.plus) then set_sign sign.space specs else specs
  else set_alt true specs.

Section meaning.
Context (loc : locale_ref) (args : basic_format_args).

Definition width_of (d : dimension) (specs : basic_format_specs) (next : Z) : result (basic_format_specs * Z) :=
  match d with
  | dim_none => FOk (specs, next)
  | dim_number n => FOk (set_width n specs, next)
  | dim_arg => '(v, next) ← printf_get_arg args next (-1); '(w, specs) ← printf_width_handler v specs;
               FOk (set_width (i32 w) specs, next)
  end.
Definition precision_of (o : option dimension) (specs : basic_format_specs) (next : Z) : result (basic_format_specs * Z) :=
  match o with
  | None => FOk (specs, next)
  | Some dim_none => FOk (set_precision 0 specs, next)
  | Some (dim_number n) => FOk (set_precision n specs, next)
  | Some dim_arg => '(v, next) ← printf_get_arg args next (-1); p ← printf_precision_handler v;
                    FOk (set_precision p specs, next)
  end.
Definition convert_of (l : length_modifier) (t : Z) (v : value) : value :=
  match l with
  | len_none => convert_arg to_void t v
  | len_hh => convert_arg to_schar t v
  | len_h => convert_arg to_short t v
  | len_l | len_ll | len_j | len_z | len_t => convert_arg to_wide t v
  | len_L => v
  end.
(** The text of an argument under given specifications. *)
Definition show_arg (l : length_modifier) (t : Z) (specs : basic_format_specs) (v : value) : result bytes :=
  let specs := if decide (0 ≤ precision specs ∧ is_integral_type (type_of v) = true)
               then set_fill (set_fill0 32 (fill specs)) specs else specs in
  v ← limit_cstring v specs;
  let specs := adjust_flags v specs in
  r ← parse_type [t] (convert_of l t v) specs;
  printf_arg_formatter loc r.1.2 r.2.
Definition eval_conversion (c : conversion) (next : Z) : result (bytes * Z) :=
  '(specs, next) ← width_of (c_width c) (foldl apply_flag (set_align align.right new_specs) (c_flags c)) next;
  '(specs, next) ← precision_of (c_precision c) specs next;
  '(v, next) ← printf_get_arg args next (default (-1) (c_index c));
  s ← show_arg (c_length c) (c_type c) specs v;
  FOk (s, next).
Fixpoint eval (ps : list piece) (next : Z) : result bytes :=
  match ps with
  | [] => FOk []
  | Literal s :: ps => t ← eval ps next; FOk (s ++ t)
  | Percent :: ps => t ← eval ps next; FOk ([37] ++ t)
  | Conversion c :: ps => '(s, next) ← eval_conversion c next; t ← eval ps next; FOk (s ++ t)
  end.
End meaning.

(** ** Parsing what was rendered *)

(** Text behind the width: a point, a modifier or a type. *)
Definition tail_head (s : bytes) : Prop := ∃ c t, s = c :: t ∧ (c = 46 ∨ 65 ≤ c).

Lemma tail_head_no_digit s : tail_head s → no_digit s.
Proof. intros (c & t & -> & Hc). cbn. apply not_true_is_false. rewrite is_digit_iff. lia. Qed.

Lemma render_length_head l t s : 65 ≤ t → ∃ c u, render_length l ++ t :: s = c :: u ∧ 65 ≤ c.
Proof. intros Ht. destruct l; cbn [render_length app]; eexists _, _; (split; [done|lia]). Qed.
Lemma render_tail_head c s : conversion_wf c → tail_head (render_tail c ++ s).
Proof.
  intros (_ & _ & _ & _ & Ht & _). unfold render_tail, tail_head. rewrite <-!app_assoc.
  destruct (c_precision c); cbn [render_precision app]; [eexists _, _; split; [done|by left]|].
  destruct (render_length_head (c_length c) (c_type c) s Ht) as (d & u & Hd & H65). exists d, u. split; [exact Hd|by right].
Qed.

Lemma parse_flags_render specs flags s :
  Forall is_flag flags → match s with [] => True | c :: _ => ¬ is_flag c end →
  parse_flags specs (flags ++ s) = (foldl apply_flag specs flags, s).
Proof.
  intros Hf Hs. revert specs. induction flags as [|c flags IH]; intros specs.
  - cbn [app foldl]. destruct s as [|c s]; [done|]. cbn [parse_flags]. unfold is_flag in Hs.
    by rewrite !decide_False by lia.
  - apply Forall_cons in Hf as [Hc Hf]. cbn [app foldl parse_flags]. unfold apply_flag at 2.
    repeat case_decide; try (by apply IH). unfold is_flag in Hc. lia.
Qed.

(** The first digit of a positive number is not 0. *)
Lemma dec_positive n : 1 ≤ n < 2 ^ 64 → ∃ c t, dec n = c :: t ∧ 49 ≤ c ≤ 57.
Proof.
  intros Hn. assert (0 ≤ n < 2 ^ 64) as H0 by lia. assert (1 ≤ n) as H1 by lia. clear Hn. unfold dec. revert n H0 H1.
  apply (numeral_ind 10 ltac:(lia) (λ n, 1 ≤ n → ∃ c t, numeral 10 (λ d, 48 + d) n = c :: t ∧ 49 ≤ c ≤ 57)).
  - intros n Hn H1. rewrite numeral_small by lia. eexists _, _. split; [done|lia].
  - intros n Hn IH H1. rewrite numeral_step by lia. destruct IH as (c & t & -> & Hc); [apply Z.div_le_lower_bound; lia|].
    eexists _, _. split; [done|done].
Qed.
Lemma dec_nonnegative n : 0 ≤ n < 2 ^ 64 → ∃ c t, dec n = c :: t ∧ 48 ≤ c ≤ 57.
Proof. intros Hn. destruct (dec_head n [] Hn) as (c & t & Ht & Hc). exists c, t. by rewrite app_nil_r in Ht. Qed.

Section parsing.
Context (args : basic_format_args) (z : bool).

Lemma parse_flags_width_render ai next flags d more specs :
  Forall is_flag flags → dimension_wf 1 d → tail_head more →
  parse_flags_width args ai next (flags ++ render_dimension d ++ more) specs =
    ('(specs, next) ← width_of args d (foldl apply_flag specs flags) next; FOk (ai, more, specs, next)).
Proof.
  intros Hf Hd Hm. pose proof (tail_head_no_digit more Hm) as Hnd. unfold parse_flags_width. destruct d as [|n|].
  - cbn [render_dimension app]. destruct Hm as (c & t & -> & Hc). rewrite parse_flags_render; [|done|unfold is_flag; lia].
    cbn [no_digit] in Hnd. rewrite Hnd. rewrite decide_False by lia. done.
  - cbn [render_dimension dimension_wf] in *. unfold max_int in Hd. destruct (dec_positive n) as (c & t & Hn & Hc); [lia|].
    rewrite Hn. cbn [app]. rewrite parse_flags_render; [|done|unfold is_flag; lia].
    assert (is_digit c = true) as -> by (apply is_digit_iff; lia).
    change (c :: t ++ more) with ((c :: t) ++ more). rewrite <-Hn. rewrite parse_dec by (unfold max_int; lia || done). done.
  - cbn [render_dimension app]. rewrite parse_flags_render; [|done|unfold is_flag; lia].
    change (is_digit 42) with false. cbv iota. rewrite decide_True by done. cbn [width_of].
    destruct (printf_get_arg args next (-1)) as [[v next']| |]; cbn [mbind result_bind]; [|done..].
    by destruct (printf_width_handler v _) as [[w specs']| |].
Qed.

(** Zeros in front of the other flags. *)
Lemma split_zeros flags :
  Forall is_flag flags → ∃ k flags', flags = replicate k 48 ++ flags' ∧ Forall is_flag flags' ∧
    match flags' with [] => True | c :: _ => is_digit c = false end.
Proof.
  induction flags as [|c flags IH]; [exists 0%nat, []; done|]. intros Hall. pose proof Hall as [Hc Hf]%Forall_cons.
  destruct (decide (c = 48)) as [->|Hne].
  - destruct (IH Hf) as (k & flags' & -> & H1 & H2). by exists (S k), flags'.
  - exists 0%nat, (c :: flags). split; [done|]. split; [done|]. apply not_true_is_false. rewrite is_digit_iff. unfold is_flag in Hc. lia.
Qed.
Lemma set_zero_idemp specs :
  set_fill (set_fill0 48 (fill (set_fill (set_fill0 48 (fill specs)) specs))) (set_fill (set_fill0 48 (fill specs)) specs) =
  set_fill (set_fill0 48 (fill specs)) specs.
Proof.
  destruct specs as [? ? ? ? ? ? [data ?]]. by destruct data.
Qed.
Lemma fold_zeros k specs : foldl apply_flag specs (replicate (S k) 48) = set_fill (set_fill0 48 (fill specs)) specs.
Proof.
  induction k as [|k IH] in specs |- *; [done|].
  change (replicate (S (S k)) 48) with (48 :: replicate (S k) 48). cbn [foldl]. rewrite IH.
  change (apply_flag specs 48) with (set_fill (set_fill0 48 (fill specs)) specs). apply set_zero_idemp.
Qed.

(** [parse_nonnegative_int] on the zeros, with the number behind them. *)
Lemma parse_zeros k n more :
  0 ≤ n ≤ max_int → no_digit more → parse_nonnegative_int (replicate k 48 ++ dec n ++ more) = FOk (n, more).
Proof.
  intros Hn Hm. pose proof (parse_dec n more Hn Hm) as Hd.
  induction k as [|k IH]; [done|]. cbn [replicate app]. revert IH. generalize (replicate k 48 ++ dec n ++ more) as s. intros s Hs.
  cbn [parse_nonnegative_int]. change (is_digit 48) with true. cbv iota. cbn [parse_int_loop].
  change (is_digit 48) with true. cbv iota. change (max_int / 10) with 214748364. rewrite (decide_False (P := 214748364 < 0)) by lia.
  change (u32 (u32 (0 * 10) + (48 - 48))) with 0.
  unfold parse_nonnegative_int in Hs. destruct s as [|c s]; [done|]. by destruct (is_digit c).
Qed.
Lemma parse_only_zeros k more :
  no_digit more → parse_nonnegative_int (replicate (S k) 48 ++ more) = FOk (0, more).
Proof.
  intros Hm. replace (replicate (S k) 48 ++ more) with (replicate k 48 ++ dec 0 ++ more); [apply parse_zeros; [unfold max_int; lia|done]|].
  rewrite (replicate_S_end k). by rewrite <-app_assoc.
Qed.

(** What stands behind an index or zeros is no '$'. *)
Lemma head_no_dollar flags d more :
  Forall is_flag flags → match flags with [] => True | c :: _ => is_digit c = false end →
  (flags = [] → ∀ n, d ≠ dim_number n) → tail_head more →
  no_digit (flags ++ render_dimension d ++ more) ∧ peek (flags ++ render_dimension d ++ more) ≠ 36.
Proof.
  intros Hf Hd Hn Hm. destruct flags as [|c flags].
  - cbn [app]. destruct d as [|n|]; [|by destruct (Hn eq_refl n)|done]. cbn [render_dimension app].
    split; [by apply tail_head_no_digit|]. destruct Hm as (c & t & -> & Hc). cbn. lia.
  - cbn [app no_digit]. change (peek (c :: ?l)) with c. split; [done|]. apply Forall_inv in Hf. unfold is_flag in Hf. lia.
Qed.

Lemma parse_header_zeros k flags d more next specs :
  Forall is_flag flags → match flags with [] => True | c :: _ => is_digit c = false end →
  dimension_wf 1 d → tail_head more →
  parse_header args z next (replicate (S k) 48 ++ flags ++ render_dimension d ++ more) specs =
    ('(specs, next) ← width_of args d (foldl apply_flag specs (replicate (S k) 48 ++ flags)) next; FOk (-1, more, specs, next)).
Proof.
  intros Hf Hz Hd Hm. unfold parse_header. cbn [replicate app deref mbind result_bind]. change (is_digit 48) with true. cbv iota.
  change (48 :: replicate k 48 ++ flags ++ render_dimension d ++ more) with (replicate (S k) 48 ++ flags ++ render_dimension d ++ more).
  change (48 :: replicate k 48 ++ flags) with (replicate (S k) 48 ++ flags). rewrite foldl_app, fold_zeros.
  assert ((flags = [] ∧ ∃ n, d = dim_number n) ∨ (flags = [] → ∀ n, d ≠ dim_number n)) as [[-> [n ->]]|Hn].
  { destruct flags; [|by right]. destruct d; [by right|left; eauto|by right]. }
  - cbn [app render_dimension dimension_wf foldl width_of] in *. rewrite parse_zeros by (lia || by apply tail_head_no_digit).
    cbn [mbind result_bind]. destruct Hm as (c & t & -> & Hc). rewrite at_char_eq. change (peek (c :: t)) with c. cbn [mbind result_bind].
    rewrite decide_False by lia. rewrite (decide_True (P := 48 = 48)) by done. rewrite decide_True by lia. done.
  - destruct (head_no_dollar flags d more Hf Hz Hn Hm) as [Hnd H36]. rewrite parse_only_zeros by done.
    cbn [mbind result_bind]. rewrite at_char_eq. cbn [mbind result_bind].
    rewrite decide_False by tauto. rewrite (decide_True (P := 48 = 48)) by done. rewrite decide_False by lia.
    by rewrite parse_flags_width_render by done.
Qed.

Lemma parse_header_render o flags d more next specs :
  match o with Some n => 1 ≤ n ≤ max_int | None => True end → Forall is_flag flags → dimension_wf 1 d → tail_head more →
  parse_header args z next (render_index o ++ flags ++ render_dimension d ++ more) specs =
    ('(specs, next) ← width_of args d (foldl apply_flag specs flags) next; FOk (default (-1) o, more, specs, next)).
Proof.
  intros Ho Hf Hd Hm. destruct o as [n|]; cbn [render_index default].
  - unfold max_int in Ho. destruct (dec_positive n) as (c & t & Hn & Hc); [lia|]. rewrite <-app_assoc.
    unfold parse_header. rewrite Hn at 1. cbn [app deref mbind result_bind]. assert (is_digit c = true) as -> by (apply is_digit_iff; lia).
    rewrite parse_dec by (unfold max_int; lia || done). cbn [mbind result_bind drop]. rewrite at_char_eq. cbn [mbind result_bind].
    rewrite decide_True by done. rewrite drop_0. by rewrite parse_flags_width_render by done.
  - cbn [app]. destruct (split_zeros flags Hf) as (k & flags' & -> & Hf' & Hz).
    destruct k as [|k]; [|rewrite <-app_assoc; by apply parse_header_zeros]. cbn [replicate app] in *.
    assert ((flags' = [] ∧ ∃ n, d = dim_number n) ∨ (flags' = [] → ∀ n, d ≠ dim_number n)) as [[-> [n ->]]|Hn].
    { destruct flags'; [|by right]. destruct d; [by right|left; eauto|by right]. }
    + cbn [app render_dimension dimension_wf foldl width_of] in *. unfold max_int in Hd. destruct (dec_positive n) as (c & t & Hn & Hc); [lia|].
      unfold parse_header. rewrite Hn at 1. cbn [app deref mbind result_bind]. assert (is_digit c = true) as -> by (apply is_digit_iff; lia).
      rewrite parse_dec by (unfold max_int; lia || by apply tail_head_no_digit). cbn [mbind result_bind].
      destruct Hm as (e & u & -> & He). rewrite at_char_eq. change (peek (e :: u)) with e. cbn [mbind result_bind]. rewrite decide_False by lia.
      rewrite (decide_False (P := c = 48)) by lia. rewrite decide_True by lia. done.
    + destruct (head_no_dollar flags' d more Hf' Hz Hn Hm) as [Hnd _]. unfold parse_header.
      assert (flags' ++ render_dimension d ++ more ≠ []) as Hne.
      { destruct Hm as (e & u & -> & _). destruct flags'; [|done]. by destruct (render_dimension d). }
      rewrite deref_peek by (by left). cbn [mbind result_bind].
      assert (is_digit (peek (flags' ++ render_dimension d ++ more)) = false) as ->.
      { destruct (flags' ++ render_dimension d ++ more); done. }
      by rewrite parse_flags_width_render by done.
Qed.

Lemma parse_precision_render o more next specs :
  match o with Some d => dimension_wf 0 d | None => True end → (∃ c t, more = c :: t ∧ 65 ≤ c) →
  parse_precision args z next (render_precision o ++ more) specs =
    ('(specs, next) ← precision_of args o specs next; FOk (more, specs, next)).
Proof.
  intros Ho (c & t & -> & Hc). assert (is_digit c = false) as Hd by (apply not_true_is_false; rewrite is_digit_iff; lia).
  unfold parse_precision. destruct o as [d|]; cbn [render_precision app].
  2:{ rewrite at_char_eq. change (peek (c :: t)) with c. rewrite decide_False by lia. done. }
  rewrite at_char_eq. rewrite decide_True by done. cbn [mbind result_bind drop]. rewrite drop_0, deref_or_0_eq. cbn [mbind result_bind].
  destruct d as [|n|]; cbn [render_dimension app precision_of].
  - change (peek (c :: t)) with c. rewrite Hd. by rewrite decide_False by lia.
  - cbn [dimension_wf] in Ho. destruct (dec_nonnegative n) as (e & u & Hn & He); [unfold max_int in Ho; lia|].
    rewrite Hn at 1. cbn [app]. change (peek (e :: ?l)) with e. assert (is_digit e = true) as -> by (apply is_digit_iff; lia).
    by rewrite parse_dec by done.
  - change (peek (42 :: ?l)) with 42. change (is_digit 42) with false. cbv iota. rewrite decide_True by done.
    destruct (printf_get_arg args next (-1)) as [[v next']| |]; cbn [mbind result_bind]; [|done..].
    by destruct (printf_precision_handler v).
Qed.

Lemma parse_length_render whole l t rest v :
  t ∉ [104; 108; 106; 122; 116; 76] → t :: rest `suffix_of` whole →
  parse_length z whole (render_length l ++ t :: rest) v = FOk (t :: rest, convert_of l t v).
Proof.
  intros Ht Hs. rewrite !not_elem_of_cons in Ht. destruct Ht as (H1 & H2 & H3 & H4 & H5 & H6 & _). unfold parse_length. rewrite !deref_or_0_eq. cbn [mbind result_bind].
  destruct l; cbn [render_length app drop]; try done; rewrite ?drop_0; change (peek (t :: rest)) with t; change (peek (104 :: ?l)) with 104; change (peek (108 :: ?l)) with 108.
  - rewrite !decide_False by lia. by rewrite (step_back_cons whole t rest).
  - rewrite decide_True by done. by rewrite decide_False by done.
  - rewrite decide_False by done. rewrite decide_True by done. by rewrite decide_False by done.
Qed.

Context (loc : locale_ref).

Lemma parse_type_cons t rest v specs :
  parse_type (t :: rest) v specs = ('(_, v, specs) ← parse_type [t] v specs; FOk (rest, v, specs)).
Proof. unfold parse_type. repeat case_match; by simplify_eq. Qed.

Lemma format_conversion_render whole c rest next :
  conversion_wf c → render_conversion c ++ rest `suffix_of` whole →
  format_conversion loc args z whole (render_conversion c ++ rest) next =
    ('(s, next) ← eval_conversion loc args c next; FOk (s, rest, next)).
Proof.
  intros Hwf Hs. pose proof (render_tail_head c rest Hwf) as Hm. pose proof Hwf as (Hi & Hf & Hw & Hp & H65 & Ht).
  unfold format_conversion, eval_conversion. unfold render_conversion in *. rewrite <-!app_assoc in *.
  rewrite parse_header_render by done.
  destruct (width_of _ _ _ _) as [[specs next1]| |]; cbn [mbind result_bind]; [|done..].
  rewrite decide_False by (destruct (c_index c); cbn; lia).
  unfold render_tail in *. rewrite <-!app_assoc in *. rewrite parse_precision_render by (done || by apply render_length_head).
  destruct (precision_of _ _ _ _) as [[specs2 next2]| |]; cbn [mbind result_bind]; [|done..].
  destruct (printf_get_arg args next2 _) as [[v next3]| |]; cbn [mbind result_bind]; [|done..].
  unfold show_arg. cbv zeta. destruct (limit_cstring v _) as [v'| |]; cbn [mbind result_bind]; [|done..].
  assert (c_type c :: rest `suffix_of` whole) as Hs'.
  { etrans; [|exact Hs]. do 5 apply suffix_app_r. done. }
  change ([c_type c] ++ rest) with (c_type c :: rest). rewrite parse_length_render by done. cbn [mbind result_bind]. rewrite parse_type_cons.
  destruct (parse_type [c_type c] _ _) as [[[it v''] specs'']| |]; cbn [mbind result_bind fst snd]; [|done..].
  by destruct (printf_arg_formatter loc v'' specs'').
Qed.

(** A conversion does not begin with a second '%'. *)
Lemma render_no_percent c rest : conversion_wf c → peek (render_conversion c ++ rest) ≠ 37.
Proof.
  intros Hwf. pose proof (render_tail_head c rest Hwf) as (e & u & Heq & He). pose proof Hwf as (Hi & Hf & Hw & _).
  unfold render_conversion. rewrite <-!app_assoc.
  destruct (c_index c) as [n|]; cbn [render_index app].
  { destruct (dec_positive n) as (d & t & -> & Hd); [unfold max_int in Hi; lia|]. cbn. lia. }
  destruct (c_flags c) as [|d flags]; cbn [app].
  2: { apply Forall_inv in Hf. unfold is_flag in Hf. cbn. lia. }
  destruct (c_width c) as [|n|]; cbn [render_dimension app dimension_wf] in *.
  - rewrite Heq. cbn. lia.
  - destruct (dec_positive n) as (d & t & -> & Hd); [unfold max_int in Hw; lia|]. cbn. lia.
  - done.
Qed.

(** A literal is passed over. *)
Lemma format_loop_literal s fuel whole pend it out next :
  Forall (λ c, c ≠ 37) s →
  format_loop loc args z (length s + fuel) whole (pend ++ s ++ it) (s ++ it) out next =
    format_loop loc args z fuel whole ((pend ++ s) ++ it) it out next.
Proof.
  intros Hs. revert pend. induction s as [|c s IH]; intros pend; [by rewrite app_nil_r|].
  apply Forall_cons in Hs as [Hc Hs]. cbn [length Nat.add app format_loop]. rewrite decide_True by done.
  specialize (IH Hs (pend ++ [c])). rewrite <-!app_assoc in *. exact IH.
Qed.

Lemma format_loop_render ps fuel whole pend out next :
  Forall piece_wf ps → render ps `suffix_of` whole → (length (render ps) < fuel)%nat →
  format_loop loc args z fuel whole (pend ++ render ps) (render ps) out next =
    Some (t ← eval loc args ps next; FOk (out ++ pend ++ t)).
Proof.
  revert fuel pend out next. induction ps as [|p ps IH]; intros fuel pend out next Hps Hs Hf.
  { destruct fuel; [cbn in Hf; lia|]. cbn [render fmap list_fmap concat format_loop]. rewrite app_nil_r.
    pose proof (between_app pend []) as Hb. rewrite app_nil_r in Hb. rewrite Hb. cbn. by rewrite app_nil_r. }
  apply Forall_cons in Hps as [Hp Hps]. change (render (p :: ps)) with (render_piece p ++ render ps) in *.
  rewrite length_app in Hf. assert (render ps `suffix_of` whole) as Hs' by (etrans; [|exact Hs]; by apply suffix_app_r).
  destruct p as [s| |c]; cbn [render_piece eval piece_wf] in *.
  - replace fuel with (length s + (fuel - length s))%nat by lia. rewrite format_loop_literal by done.
    rewrite IH by (done || lia). destruct (eval loc args ps next); cbn; [|done..]. by rewrite <-!app_assoc.
  - cbn [length] in Hf. destruct fuel as [|fuel]; [lia|]. cbn [app format_loop]. rewrite decide_False by auto.
    rewrite at_char_eq. rewrite decide_True by done. cbn [drop]. rewrite drop_0.
    replace (pend ++ 37 :: 37 :: render ps) with ((pend ++ [37]) ++ 37 :: render ps) by (by rewrite <-app_assoc).
    rewrite between_app. pose proof (IH fuel [] (out ++ pend ++ [37]) next Hps Hs' ltac:(lia)) as Hrun. cbn [app] in Hrun. rewrite Hrun.
    destruct (eval loc args ps next); cbn; [|done..]. by rewrite <-!app_assoc.
  - cbn [length] in Hf. destruct fuel as [|fuel]; [lia|]. cbn [app format_loop]. rewrite decide_False by auto.
    rewrite at_char_eq. rewrite decide_False.
    2: { intros [_ H]. revert H. by apply render_no_percent. }
    rewrite between_app. rewrite format_conversion_render; [|done|etrans; [|exact Hs]; by apply suffix_cons_r].
    destruct (eval_conversion loc args c next) as [[s next']| |]; cbn [mbind result_bind]; [|done..].
    pose proof (IH fuel [] (out ++ pend ++ s) next' Hps Hs' ltac:(lia)) as Hrun. cbn [app] in Hrun. rewrite Hrun.
    destruct (eval loc args ps next'); cbn; [|done..]. by rewrite <-!app_assoc.
Qed.
End parsing.

Lemma sprintf_eval z loc ps args :
  Forall piece_wf ps → sprintf z loc (render ps) args = Some (eval loc (make_format_args args) ps 0).
Proof.
  intros Hps. unfold sprintf, vsprintf.
  pose proof (format_loop_render (make_format_args args) z loc ps (S (length (render ps))) (render ps) [] [] 0 Hps) as H.
  cbn [app] in H. rewrite H by (done || lia). by destruct (eval _ _ ps 0).
Qed.

(** C21: [sprintf] of a format that is a sequence of pieces writes the pieces: it
    reads the format as it was meant, whether a terminator stands behind it or
    not, and consumes the arguments in the order width, precision, value. *)
Theorem sprintf_render terminated loc ps args :
  Forall piece_wf ps → sprintf terminated loc (render ps) args = Some (eval loc (make_format_args args) ps 0).
Proof. apply sprintf_eval. Qed.

Definition demo_pieces : list piece :=
  [Literal (text "update t set a="); Conversion {| c_index := None; c_flags := text "-+"; c_width := dim_arg;
     c_precision := None; c_length := len_ll; c_type := 100 |};
   Literal (text " where b like '"); Percent; Literal (text "x' and c=");
   Conversion {| c_index := None; c_flags := text "0"; c_width := dim_number 4; c_precision := None; c_length := len_none; c_type := 120 |}].
Example demo_render : render demo_pieces = text "update t set a=%-+*lld where b like '%%x' and c=%04x".
Proof. by vm_compute. Qed.
Lemma demo_pieces_wf : Forall piece_wf demo_pieces.
Proof. apply (bool_decide_unpack _). vm_compute. exact I. Qed.
Lemma sprintf_render_witness :
  Forall piece_wf demo_pieces ∧
  sprintf true classic_locale (render demo_pieces) [int_value 6; long_long_value 42; uint_value 255] =
    Some (FOk (text "update t set a=+42    where b like '%x' and c=00ff")).
Proof. split; [apply demo_pieces_wf|]. rewrite sprintf_render by apply demo_pieces_wf. vm_compute. reflexivity. Defined.

(** ** Numbers in a text *)

(** Specifications as flags and width leave them. *)
Definition flag_specs (specs : basic_format_specs) : Prop :=
  size_ (fill specs) = 1 ∧ (fill0 (fill specs) = 32 ∨ fill0 (fill specs) = 48) ∧ data_ (fill specs) ≠ [].

Lemma fill0_set c f : data_ f ≠ [] → fill0 (set_fill0 c f) = c ∧ data_ (set_fill0 c f) ≠ [] ∧ size_ (set_fill0 c f) = size_ f.
Proof. destruct f as [[|x l] ?]; [done|]. intros _. done. Qed.
Lemma flag_specs_fill specs c : flag_specs specs → c = 32 ∨ c = 48 → flag_specs (set_fill (set_fill0 c (fill specs)) specs).
Proof.
  intros (Hs & _ & Hd) Hc. destruct (fill0_set c (fill specs) Hd) as (H1 & H2 & H3).
  unfold flag_specs. cbn [set_fill fill]. rewrite H1, H3. done.
Qed.
Lemma fold_flag_specs flags specs :
  flag_specs specs → flag_specs (foldl apply_flag specs flags) ∧ width (foldl apply_flag specs flags) = width specs.
Proof.
  revert specs. induction flags as [|c flags IH]; intros specs Hs; [done|]. cbn [foldl].
  destruct (IH (apply_flag specs c)) as [H1 H2].
  { unfold apply_flag. repeat case_decide; try done. apply flag_specs_fill; auto. }
  split; [done|]. rewrite H2. unfold apply_flag. by repeat case_decide.
Qed.

(** After the flags were adjusted to the argument a number is padded with
    spaces outside or zeros inside. *)
Lemma adjust_flags_plain v specs :
  flag_specs specs → 0 ≤ width specs < 2 ^ 31 → plain_specs (adjust_flags v specs) ∧ width (adjust_flags v specs) = width specs.
Proof.
  intros Hs Hw. unfold adjust_flags.
  set (specs1 := if alt specs && is_zero_int v then _ else specs).
  assert (flag_specs specs1 ∧ width specs1 = width specs) as [(Hz & Hf & Hd) Hw1] by (unfold specs1; destruct (alt specs && is_zero_int v); done).
  clearbody specs1. unfold plain_specs. case_decide as H48.
  - destruct (is_arithmetic_type _ && _); cbn [set_align set_fill fill width align].
    + rewrite Hw1. auto.
    + destruct (fill0_set 32 (fill specs1) Hd) as (-> & _ & ->). rewrite Hw1. auto.
  - rewrite Hw1. destruct Hf; [|done]. auto.
Qed.

(** An integral argument under a decimal type is written as an integer. *)
Lemma printf_decimal loc v n specs :
  value_wf v → integral v = Some n → type specs = 100 →
  ∃ w, int_range w n ∧ printf_arg_formatter loc v specs =
    FOk (write_int (zlength (dec (Z.abs n))) (sign_prefix n specs) specs (dec (Z.abs n))).
Proof.
  intros Hwf Hn Ht.
  assert (∀ w, int_range w n → write_int_value loc w n specs =
    FOk (write_int (zlength (dec (Z.abs n))) (sign_prefix n specs) specs (dec (Z.abs n)))) as Hint.
  { intros w Hr. unfold write_int_value, handle_int_type_spec. rewrite Ht. rewrite decide_True by auto. by apply on_dec_spec. }
  destruct v; cbn [integral] in Hn; simplify_eq; cbn [printf_arg_formatter arg_formatter value_wf] in *; unfold in_signed, in_unsigned in Hwf.
  1,2: exists 32; assert (int_range 32 n) by (split; [auto|cbn in *; lia]); by rewrite Hint.
  1,2: exists 64; assert (int_range 64 n) by (split; [auto|cbn in *; lia]); by rewrite Hint.
  - exists 32. rewrite Ht. rewrite decide_True by done. assert (int_range 32 (if b then 1 else 0)) by (split; [auto|destruct b; cbn; lia]).
    by rewrite Hint.
  - exists 32. rewrite Ht. rewrite decide_True by done. assert (int_range 32 n) by (split; [auto|cbn in *; lia]). by rewrite Hint.
Qed.

Lemma integral_convert l t v : is_Some (integral v) → t ≠ 115 → is_Some (integral (convert_of l t v)) ∧ is_integral_type (type_of (convert_of l t v)) = true.
Proof.
  intros [n Hn] Ht.
  assert (∀ T, is_Some (integral (convert_integral T t v n)) ∧ is_integral_type (type_of (convert_integral T t v n)) = true) as Hc.
  { intros T. unfold convert_integral. destruct (match T with to_void => _ | _ => _ end); case_bool_decide; try (split; [by eexists|done]).
    destruct v; split; try (by eexists); done. }
  assert (∀ T, convert_arg T t v = convert_integral T t v n) as Heq.
  { intros T. unfold convert_arg. destruct v; cbn [integral] in *; simplify_eq; try done. by rewrite decide_True. }
  destruct l; cbn [convert_of]; rewrite ?Heq; try apply Hc. split; [by eexists|]. by destruct v.
Qed.
Lemma convert_of_wf l t v : value_wf v → value_wf (convert_of l t v).
Proof. intros Hv. destruct l; cbn [convert_of]; try (by apply convert_arg_wf); done. Qed.
(** The number that a decimal conversion prints of the value [m] of an argument:
    %d and %i take it as a signed number of the width that the modifier names,
    without one of the width to which the argument is promoted; %u takes it
    modulo the width that "hh" or "h" names, else modulo that of the argument's
    own type. *)
Definition argument_width (v : value) : Z :=
  match v with
  | bool_value _ => 1 | char_value _ => 8 | int_value _ | uint_value _ => 32 | _ => 64
  end.
Definition modifier_width (l : length_modifier) (v : value) : Z :=
  match l with len_hh => 8 | len_h => 16 | len_none => unsigned_bits v | _ => 64 end.
Definition printed (l : length_modifier) (t : Z) (v : value) (m : Z) : Z :=
  match l with
  | len_L => m
  | _ =>
      if decide (t = 117) then m `mod` 2 ^ match l with len_hh => 8 | len_h => 16 | _ => argument_width v end
      else signed (modifier_width l v) m
  end.
Lemma convert_of_printed l t v m :
  t ∈ [100; 105; 117] → value_wf v → integral v = Some m → integral (convert_of l t v) = Some (printed l t v m).
Proof.
  intros Ht Hwf Hm. rewrite !elem_of_cons, elem_of_nil in Ht.
  assert (∀ T, convert_arg T t v = convert_integral T t v m) as Heq.
  { intros T. unfold convert_arg. destruct v; cbn [integral] in *; simplify_eq; try done. rewrite decide_True; [done|]. intros ->. lia. }
  destruct l; cbn [convert_of printed]; rewrite ?Heq; try done; unfold convert_integral; cbn [modifier_width];
    (case_decide as H117; [rewrite (bool_decide_false (t = 100 ∨ t = 105)) by lia|rewrite (bool_decide_true (t = 100 ∨ t = 105)) by tauto]);
    destruct v; cbn in Hm |- *; try discriminate Hm; try (injection Hm as <-); done || (by destruct b).
Qed.
(** Numbers that fit are printed as they are. *)
Lemma printed_unsigned l v m :
  l ≠ len_h → l ≠ len_hh → value_wf v → integral v = Some m → 0 ≤ m → printed l 117 v m = m.
Proof.
  intros Hl1 Hl2 Hwf Hm H0.
  assert (m `mod` 2 ^ argument_width v = m) as Hmod.
  { apply Z.mod_small. destruct v; cbn in Hm, Hwf |- *; try discriminate Hm; injection Hm as <-; unfold in_signed, in_unsigned in Hwf; try destruct b; cbn in *; lia. }
  destruct l; done || exact Hmod.
Qed.
Lemma printed_signed l t v m :
  l ≠ len_h → l ≠ len_hh → t ≠ 117 → value_wf v → integral v = Some m → m < 2 ^ 31 → printed l t v m = m.
Proof.
  intros Hl1 Hl2 Ht Hwf Hm H31.
  assert (in_signed (modifier_width l v) m) as Hin.
  { destruct v; cbn in Hm, Hwf |- *; try discriminate Hm; injection Hm as <-; unfold in_signed, in_unsigned in *; destruct l; try done; try destruct b; cbn in *; lia. }
  assert (signed (modifier_width l v) m = m) as Hs by (apply signed_small; [destruct l, v; done|done]).
  destruct l; try done; unfold printed; by rewrite decide_False.
Qed.
Lemma limit_cstring_integral v specs : is_Some (integral v) → limit_cstring v specs = FOk v.
Proof. intros [n Hn]. by destruct v. Qed.

(** No character of it is the terminator. *)
Lemma dec_nonzero n : 0 ≤ n < 2 ^ 64 → Forall (λ c, c ≠ 0) (dec n).
Proof.
  unfold dec. revert n. apply (numeral_ind 10); [lia|..]; intros n Hn; [|intros IH].
  - rewrite numeral_small by lia. constructor; [lia|done].
  - rewrite numeral_step by lia. apply Forall_app. split; [done|]. pose proof (Z.mod_pos_bound n 10). constructor; [lia|done].
Qed.
Lemma number_text_nonzero n specs a z b :
  - 2 ^ 64 < n < 2 ^ 64 →
  Forall (λ c, c ≠ 0) (replicate a 32 ++ sign_prefix n specs ++ replicate z 48 ++ dec (Z.abs n) ++ replicate b 32).
Proof.
  intros Hn. rewrite !Forall_app. split; [by apply Forall_replicate|]. split; [|split; [by apply Forall_replicate|]].
  - unfold sign_prefix. case_decide; [by repeat constructor|]. destruct (sign specs); by repeat constructor.
  - split; [apply dec_nonzero; lia|by apply Forall_replicate].
Qed.

(** The text of a number under a decimal conversion: it reads back as the
    converted number, and is at least as wide as asked. *)
Lemma show_arg_decimal loc l t specs v :
  t ∈ [100; 105; 117] → flag_specs specs → 0 ≤ width specs < 2 ^ 31 → value_wf v → is_Some (integral v) →
  ∃ s n, show_arg loc l t specs v = FOk s ∧ integral (convert_of l t v) = Some n ∧
    (∀ c r, is_digit c = false → n ≤ LONG_MAX → strtol (s ++ c :: r) = Some n) ∧
    (∀ c r, is_digit c = false → 0 ≤ n → strtoul (s ++ c :: r) = Some n) ∧ width specs ≤ zlength s ∧ Forall (λ c, c ≠ 0) s.
Proof.
  intros Ht Hs Hw Hwf Hv. unfold show_arg. cbv zeta. rewrite limit_cstring_integral by done. cbn [mbind result_bind].
  set (specs1 := if decide (0 ≤ precision specs ∧ _) then _ else specs).
  assert (flag_specs specs1 ∧ width specs1 = width specs) as [Hs1 Hw1] by (unfold specs1; case_decide; [split; [apply flag_specs_fill; auto|done]|done]).
  clearbody specs1. destruct (adjust_flags_plain v specs1 Hs1 ltac:(lia)) as [Hplain Hw2].
  assert (t ≠ 115) as H115 by (intros ->; by rewrite !elem_of_cons, elem_of_nil in Ht; lia).
  destruct (integral_convert l t v Hv H115) as [[n Hn] Hint]. pose proof (convert_of_wf l t v Hwf) as Hwf'.
  set (specs2 := adjust_flags v specs1) in *. clearbody specs2.
  assert (∃ r, parse_type [t] (convert_of l t v) specs2 = FOk r ∧ r.1.2 = convert_of l t v ∧ r.2 = set_type 100 specs2) as (r & -> & Hr1 & Hr2).
  { unfold parse_type. rewrite Hint. rewrite !elem_of_cons, elem_of_nil in Ht. eexists.
    destruct Ht as [->|[->|[->|[]]]]; cbn; done. }
  cbn [mbind result_bind]. rewrite Hr1, Hr2.
  destruct (printf_decimal loc _ n (set_type 100 specs2) Hwf' Hn eq_refl) as (w & Hrange & ->).
  assert (plain_specs (set_type 100 specs2)) as Hplain2 by exact Hplain.
  eexists _, n. split; [done|]. split; [done|].
  destruct (write_int_layout (zlength (dec (Z.abs n))) (sign_prefix n (set_type 100 specs2)) _ (dec (Z.abs n)) Hplain2) as (a & z & b & Hlay).
  apply int_range_cases in Hrange. split; [|split; [|split]].
  - intros c k Hc Hmax. rewrite Hlay. apply strtol_layout; [unfold LONG_MAX in *; lia|done].
  - intros c k Hc H0. rewrite Hlay. apply strtoul_layout; [unfold ULONG_MAX in *; lia|done].
  - destruct Hplain2 as (Hsz & Hw3 & _). rewrite write_int_length by (done || apply zlength_nonneg).
    cbn [set_type width] in *. lia.
  - rewrite Hlay. apply number_text_nonzero. lia.
Qed.

Lemma new_specs_flag : flag_specs (set_align align.right new_specs).
Proof. repeat split; by auto. Qed.

Lemma width_number d specs next :
  dimension_wf 1 d → d ≠ dim_arg → flag_specs specs → width specs = 0 → ∀ args,
  ∃ specs', width_of args d specs next = FOk (specs', next) ∧ flag_specs specs' ∧
    width specs' = match d with dim_number n => n | _ => 0 end ∧ 0 ≤ width specs' < 2 ^ 31.
Proof.
  intros Hd Hne Hs Hw args. destruct d as [|n|]; [|unfold dimension_wf, max_int in Hd|done]; cbn [width_of].
  - exists specs. rewrite Hw. done.
  - eexists. split; [done|]. split; [exact Hs|]. cbn [set_width width]. change (2 ^ 31) with 2147483648. lia.
Qed.
Lemma precision_number o specs next :
  o ≠ Some dim_arg → flag_specs specs → ∀ args,
  ∃ specs', precision_of args o specs next = FOk (specs', next) ∧ flag_specs specs' ∧ width specs' = width specs.
Proof. intros Ho Hs args. destruct o as [[|n|]|]; [| |done|]; cbn [precision_of]; eexists; split; done || done. Qed.

Lemma sprintf_run loc a b c v :
  Forall (λ c, c ≠ 37) a → Forall (λ c, c ≠ 37) b → no_digit b →
  conversion_wf c → c_index c = None → c_type c ∈ [100; 105; 117] → c_width c ≠ dim_arg → c_precision c ≠ Some dim_arg →
  value_wf v → is_Some (integral v) →
  ∃ s n, sprintf true loc (render [Literal a; Conversion c; Literal b]) [v] = Some (FOk (a ++ s ++ b)) ∧
    integral (convert_of (c_length c) (c_type c) v) = Some n ∧
    (n ≤ LONG_MAX → strtol (s ++ b ++ [0]) = Some n) ∧ (0 ≤ n → strtoul (s ++ b ++ [0]) = Some n) ∧
    match c_width c with dim_number w => w | _ => 0 end ≤ zlength s ∧ Forall (λ c, c ≠ 0) s.
Proof.
  intros Ha Hb Hnd Hwf Hi Ht Hw Hp Hv Hint. pose proof Hwf as (_ & _ & Hdw & _).
  rewrite sprintf_eval by (by repeat (apply Forall_cons; split)). cbn [eval].
  destruct (fold_flag_specs (c_flags c) (set_align align.right new_specs) new_specs_flag) as [Hf Hw0].
  destruct (width_number (c_width c) _ 0 Hdw Hw Hf Hw0 (make_format_args [v])) as (specs1 & Hw1 & Hf1 & Heq1 & Hr1).
  destruct (precision_number (c_precision c) specs1 0 Hp Hf1 (make_format_args [v])) as (specs2 & Hp2 & Hf2 & Heq2).
  destruct (show_arg_decimal loc (c_length c) (c_type c) specs2 v) as (s & n & Hs & Hn & Hl & Hul & Hwid & Hnz); [done|done|lia|done|done|].
  unfold eval_conversion. rewrite Hw1. cbn [mbind result_bind]. rewrite Hp2. cbn [mbind result_bind]. rewrite Hi. cbn [default].
  assert (∀ k, k < 0 → printf_get_arg (make_format_args [v]) 0 k = FOk (v, 1)) as Hget.
  { intros k Hk. unfold printf_get_arg, next_arg_id. rewrite decide_True by lia. rewrite decide_True by lia. cbn [mbind result_bind].
    unfold get_arg. rewrite get_make by (done || lia). done. }
  rewrite Hget by done.
  cbn [mbind result_bind]. rewrite Hs. cbn [mbind result_bind].
  assert (∃ d r, b ++ [0] = d :: r ∧ is_digit d = false) as (d & r & Hbr & Hd) by (destruct b as [|d b]; eexists _, _; done).
  exists s, n. rewrite Hbr, app_nil_r. split; [done|]. split; [done|].
  split; [intros; by apply Hl|]. split; [intros; by apply Hul|]. split; [lia|done].
Qed.
(** A number between two texts, in any decimal conversion without '*': the
    texts stay, and the number reads back with [strtol] or [strtoul]. *)
Theorem sprintf_number loc a b c v :
  Forall (λ c, c ≠ 37) a → Forall (λ c, c ≠ 37) b → no_digit b →
  conversion_wf c → c_index c = None → c_type c ∈ [100; 105; 117] → c_width c ≠ dim_arg → c_precision c ≠ Some dim_arg →
  value_wf v → is_Some (integral v) →
  ∃ s n, sprintf true loc (render [Literal a; Conversion c; Literal b]) [v] = Some (FOk (a ++ s ++ b)) ∧
    integral (convert_of (c_length c) (c_type c) v) = Some n ∧
    (n ≤ LONG_MAX → strtol (s ++ b ++ [0]) = Some n) ∧ (0 ≤ n → strtoul (s ++ b ++ [0]) = Some n) ∧
    match c_width c with dim_number w => w | _ => 0 end ≤ zlength s ∧ Forall (λ c, c ≠ 0) s.
Proof. apply sprintf_run. Qed.
Definition demo_number : conversion :=
  {| c_index := None; c_flags := text "+0"; c_width := dim_number 8; c_precision := None; c_length := len_ll; c_type := 100 |}.
Lemma sprintf_number_witness :
  render [Literal (text "x="); Conversion demo_number; Literal (text ";")] = text "x=%+08lld;" ∧
  ∃ s n, sprintf true classic_locale (render [Literal (text "x="); Conversion demo_number; Literal (text ";")]) [int_value (-42)]
           = Some (FOk (text "x=" ++ s ++ text ";")) ∧
    integral (convert_of (c_length demo_number) (c_type demo_number) (int_value (-42))) = Some n ∧
    (n ≤ LONG_MAX → strtol (s ++ text ";" ++ [0]) = Some n) ∧ (0 ≤ n → strtoul (s ++ text ";" ++ [0]) = Some n) ∧
    match c_width demo_number with dim_number w => w | _ => 0 end ≤ zlength s ∧ Forall (λ c, c ≠ 0) s.
Proof.
  split; [vm_compute; reflexivity|]. apply sprintf_number.
  1,2: apply (bool_decide_unpack _); vm_compute; exact I.
  - reflexivity.
  - apply (bool_decide_unpack _); vm_compute; exact I.
  - reflexivity.
  - apply (bool_decide_unpack _); vm_compute; exact I.
  - discriminate.
  - discriminate.
  - cbn. unfold in_signed. lia.
  - by eexists.
Defined.

Lemma show_string loc p s :
  p ≠ 0 → show_arg loc len_none 115 (set_align align.right new_specs) (cstring_value p s) = FOk s.
Proof.
  intros Hp. unfold show_arg. cbv zeta. rewrite (decide_False (P := 0 ≤ precision _ ∧ _)) by (cbn; lia).
  unfold limit_cstring. rewrite (decide_False (P := 0 ≤ precision _)) by (cbn; lia). cbn [mbind result_bind].
  change (adjust_flags (cstring_value p s) (set_align align.right new_specs)) with (set_align align.right new_specs).
  change (convert_of len_none 115 (cstring_value p s)) with (cstring_value p s).
  change (parse_type [115] (cstring_value p s) ?specs) with (FOk (@nil Z, cstring_value p s, set_type 115 specs)).
  cbn [mbind result_bind fst snd printf_arg_formatter]. rewrite decide_True by done.
  unfold format_cstring. rewrite decide_True by (by right). rewrite decide_False by done. f_equal.
  unfold write_string. rewrite (decide_False (P := 0 ≤ precision _ ∧ _)) by (cbn; lia). cbv zeta.
  rewrite take_ge by (unfold zlength; lia). rewrite (decide_False (P := width _ ≠ 0)) by (cbn; auto).
  unfold write_padded. cbn. by rewrite app_nil_r.
Qed.

(** A string is put in as it is: quotes in it are not escaped. *)
Lemma sprintf_string loc a b p s :
  Forall (λ c, c ≠ 37) a → Forall (λ c, c ≠ 37) b → p ≠ 0 →
  sprintf true loc (a ++ text "%s" ++ b) [cstring_value p s] = Some (FOk (a ++ s ++ b)).
Proof.
  intros Ha Hb Hp.
  set (c := {| c_index := None; c_flags := []; c_width := dim_none; c_precision := None; c_length := len_none; c_type := 115 |}).
  assert (conversion_wf c) as Hc by (apply (bool_decide_unpack _); vm_compute; exact I).
  assert (a ++ text "%s" ++ b = render [Literal a; Conversion c; Literal b]) as ->.
  { unfold render. cbn [fmap list_fmap concat render_piece]. by rewrite app_nil_r. }
  rewrite sprintf_eval by (by repeat (apply Forall_cons; split)). cbn [eval].
  assert (eval_conversion loc (make_format_args [cstring_value p s]) c 0 = FOk (s, 1)) as ->.
  { unfold eval_conversion. cbn [c_width c_flags c_precision c_index c_length c_type c foldl width_of precision_of mbind result_bind default].
    replace (printf_get_arg _ 0 _) with (FOk (cstring_value p s, 1)) by done.
    cbn [mbind result_bind]. by rewrite show_string. }
  cbn [mbind result_bind]. by rewrite app_nil_r.
Qed.
End FmtPrintf.
