(* ===== verification/FmtFormat.v ===== *)
(** FmtFormat: [fmt::format] (format.h and format-inl.h of the copy of fmt
    under src/mysql-conn-pool): replacement fields, their specifications, and
    the two loops over a format string.  There are no named arguments. *)
From S2P Require Import Prelude Bytes FmtInt FmtArgs FmtWrite FmtParse.

Module FmtFormat.
Import FmtInt FmtArgs FmtWrite FmtParse.

(** [*begin]: this header reads the format only behind a comparison with its
    end, where 0 stands for the character that is not there. *)
Definition deref (begin : bytes) : Z := match begin with c :: _ => c | [] => 0 end.

(** ** References to arguments *)

Definition is_name_start (c : Z) : bool :=
  bool_decide (97 ≤ c ≤ 122 ∨ 65 ≤ c ≤ 90 ∨ c = 95).
Definition is_ascii_letter (c : Z) : bool := bool_decide (97 ≤ c ≤ 122 ∨ 65 ≤ c ≤ 90).

(** What [parse_arg_id] tells its handler. *)
Inductive arg_ref := auto_id | index_id (index : Z) | name_id (name : bytes).

Fixpoint parse_name (it : bytes) : bytes * bytes :=
  match it with
  | c :: it' => if is_name_start c || is_digit c then let r := parse_name it' in (c :: r.1, r.2) else ([], it)
  | [] => ([], [])
  end.
Definition parse_arg_id (begin : bytes) : result (arg_ref * bytes) :=
  match begin with
  | [] => FUndef
  | c :: rest =>
      if decide (c = 125 ∨ c = 58) then FOk (auto_id, begin)
      else if is_digit c then
        '(index, begin) ← (if decide (c ≠ 48) then parse_nonnegative_int begin else FOk (0, rest));
        if decide (begin = [] ∨ (deref begin ≠ 125 ∧ deref begin ≠ 58)) then FError (text "invalid format string")
        else FOk (index_id index, begin)
      else if negb (is_name_start c) then FError (text "invalid format string")
      else let r := parse_name rest in FOk (name_id (c :: r.1), r.2)
  end.

Section format.
Context (loc : locale_ref) (args : basic_format_args).

(** [specs_handler::get_arg], with the counter. *)
Definition handler_get_arg (id : arg_ref) (next : Z) : result (value * Z) :=
  match id with
  | auto_id => '(i, next) ← next_arg_id next; v ← get_arg args i; FOk (v, next)
  | index_id i => next ← check_arg_id next; v ← get_arg args i; FOk (v, next)
  | name_id _ => FError (text "argument not found")
  end.

(** [width_checker] and [precision_checker], which differ in what they report. *)
Definition width_checker (negative not_integer : bytes) (v : value) : result Z :=
  match v with
  | int_value n | long_long_value n => if decide (n < 0) then FError negative else FOk n
  | uint_value n | ulong_long_value n => FOk n
  | _ => FError not_integer
  end.
Definition get_dynamic_spec (negative not_integer : bytes) (v : value) : result Z :=
  n ← width_checker negative not_integer v;
  if decide (max_int < n) then FError (text "number is too big") else FOk (i32 n).

(** ** Specifications of a field *)

(** [numeric_specs_checker] *)
Definition require_numeric_argument (t : arg_type) : result unit :=
  if is_arithmetic_type t then FOk () else FError (text "format specifier requires numeric argument").
Definition check_sign (t : arg_type) : result unit :=
  _ ← require_numeric_argument t;
  if is_integral_type t && bool_decide (t ≠ int_type ∧ t ≠ long_long_type ∧ t ≠ char_type)
  then FError (text "format specifier requires signed argument") else FOk ().
Definition check_precision (t : arg_type) : result unit :=
  if is_integral_type t || bool_decide (t = pointer_type)
  then FError (text "precision not allowed for this argument type") else FOk ().

Definition code_point_length (c : Z) : Z :=
  let lengths := [1; 1; 1; 1; 1; 1; 1; 1; 1; 1; 1; 1; 1; 1; 1; 1; 0; 0; 0; 0; 0; 0; 0; 0; 2; 2; 2; 2; 3; 3; 4; 0] in
  let len := default 0 (zlookup lengths (Z.shiftr c 3)) in
  len + (if decide (len = 0) then 1 else 0).

Definition align_char (c : Z) : align_t :=
  if decide (c = 60) then align.left else if decide (c = 62) then align.right
  else if decide (c = 94) then align.center else align.none.
Definition parse_align (begin : bytes) (specs : basic_format_specs) : result (bytes * basic_format_specs) :=
  let len := Z.to_nat (code_point_length (deref begin)) in
  let p := if decide (len < length begin)%nat then len else 0%nat in
  let a := align_char (default 0 (begin !! p)) in
  if decide (a ≠ align.none ∧ p ≠ 0%nat) then
    if decide (deref begin = 123) then FError (text "invalid fill character '{'")
    else
      f ← assign_fill (take p begin) (fill specs);
      FOk (drop (p + 1) begin, set_align a (set_fill f specs))
  else
    let a := align_char (deref begin) in
    if decide (a ≠ align.none) then FOk (drop 1 begin, set_align a specs) else FOk (begin, specs).

Definition parse_sign (t : arg_type) (begin : bytes) (specs : basic_format_specs) : result (bytes * basic_format_specs) :=
  let c := deref begin in
  if decide (c = 43) then _ ← check_sign t; FOk (drop 1 begin, set_sign sign.plus specs)
  else if decide (c = 45) then _ ← check_sign t; FOk (drop 1 begin, set_sign sign.minus specs)
  else if decide (c = 32) then _ ← check_sign t; FOk (drop 1 begin, set_sign sign.space specs)
  else FOk (begin, specs).

(** A width or a precision taken from an argument, between braces. *)
Definition parse_dynamic (negative not_integer : bytes) (begin : bytes) (next : Z) : result (option Z * bytes * Z) :=
  r ← match begin with
      | [] => FOk (None, begin, next)
      | _ :: _ =>
          '(id, begin) ← parse_arg_id begin;
          '(v, next) ← handler_get_arg id next;
          n ← get_dynamic_spec negative not_integer v;
          FOk (Some n, begin, next)
      end;
  let '(n, begin, next) := r in
  if decide (begin = [] ∨ deref begin ≠ 125) then FError (text "invalid format string")
  else FOk (n, drop 1 begin, next).

Definition parse_width (begin : bytes) (specs : basic_format_specs) (next : Z) : result (bytes * basic_format_specs * Z) :=
  match begin with
  | [] => FUndef
  | c :: rest =>
      if is_digit c then '(w, begin) ← parse_nonnegative_int begin; FOk (begin, set_width w specs, next)
      else if decide (c = 123) then
        '(n, begin, next) ← parse_dynamic (text "negative width") (text "width is not integer") rest next;
        FOk (begin, match n with Some w => set_width w specs | None => specs end, next)
      else FOk (begin, specs, next)
  end.

Definition parse_precision (t : arg_type) (begin : bytes) (specs : basic_format_specs) (next : Z) :
    result (bytes * basic_format_specs * Z) :=
  let begin := drop 1 begin in
  let c := deref begin in
  '(begin, specs, next) ←
    (if is_digit c then '(p, begin) ← parse_nonnegative_int begin; FOk (begin, set_precision p specs, next)
     else if decide (c = 123) then
       '(n, begin, next) ← parse_dynamic (text "negative precision") (text "precision is not integer") (drop 1 begin) next;
       FOk (begin, match n with Some p => set_precision p specs | None => specs end, next)
     else FError (text "missing precision specifier"));
  _ ← check_precision t;
  FOk (begin, specs, next).

(** The rest of [parse_format_specs], from the width on. *)
Definition parse_width_precision_type (t : arg_type) (begin : bytes) (specs : basic_format_specs) (next : Z) :
    result (bytes * basic_format_specs * Z) :=
  '(begin, specs, next) ← parse_width begin specs next;
  match begin with
  | [] => FOk (begin, specs, next)
  | c :: _ =>
      '(begin, specs, next) ← (if decide (c = 46) then parse_precision t begin specs next else FOk (begin, specs, next));
      match begin with
      | c :: rest => if decide (c ≠ 125) then FOk (rest, set_type c specs, next) else FOk (begin, specs, next)
      | [] => FOk (begin, specs, next)
      end
  end.
Definition parse_format_specs (t : arg_type) (begin : bytes) (specs : basic_format_specs) (next : Z) :
    result (bytes * basic_format_specs * Z) :=
  if decide (begin = []) then FOk (begin, specs, next) else
  '(begin, specs) ← parse_align begin specs;
  if decide (begin = []) then FOk (begin, specs, next) else
  '(begin, specs) ← parse_sign t begin specs;
  if decide (begin = []) then FOk (begin, specs, next) else
  '(begin, specs) ← (if decide (deref begin = 35) then _ ← require_numeric_argument t; FOk (drop 1 begin, set_alt true specs)
                     else FOk (begin, specs));
  if decide (begin = []) then FOk (begin, specs, next) else
  '(begin, specs) ← (if decide (deref begin = 48) then
                       _ ← require_numeric_argument t;
                       FOk (drop 1 begin, set_fill (set_fill0 48 (fill specs)) (set_align align.numeric specs))
                     else FOk (begin, specs));
  if decide (begin = []) then FOk (begin, specs, next) else
  parse_width_precision_type t begin specs next.

(** ** Replacement fields *)

(** [format_handler::on_arg_id] *)
Definition on_arg_id (id : arg_ref) (next : Z) : result (Z * Z) :=
  match id with
  | auto_id => next_arg_id next
  | index_id i => next ← check_arg_id next; FOk (i, next)
  | name_id _ => FError (text "argument not found")
  end.
(** [format_handler::on_replacement_field] *)
Definition on_replacement_field (id : Z) : result bytes :=
  v ← get_arg args id; default_arg_formatter v.
(** [format_handler::on_format_specs] *)
Definition on_format_specs (id : Z) (begin : bytes) (next : Z) : result (bytes * bytes * Z) :=
  v ← get_arg args id;
  '(begin, specs, next) ←
    (if bool_decide (2 ≤ length begin)%nat && bool_decide (begin !! 1%nat = Some 125) && is_ascii_letter (deref begin)
     then FOk (drop 1 begin, set_type (deref begin) new_specs, next)
     else
       '(begin, specs, next) ← parse_format_specs (type_of v) begin new_specs next;
       if decide (begin = [] ∨ deref begin ≠ 125) then FError (text "missing '}' in format string")
       else FOk (begin, specs, next));
  out ← arg_formatter loc v specs;
  FOk (out, begin, next).

(** [parse_replacement_field]: what it writes, and where it goes on. *)
Definition parse_replacement_field (begin : bytes) (next : Z) : result (bytes * bytes * Z) :=
  match drop 1 begin with
  | [] => FError (text "invalid format string")
  | c :: rest =>
      if decide (c = 125) then
        '(id, next) ← on_arg_id auto_id next; out ← on_replacement_field id; FOk (out, rest, next)
      else if decide (c = 123) then FOk ([123], rest, next)
      else
        '(ref, begin) ← parse_arg_id (c :: rest);
        '(id, next) ← on_arg_id ref next;
        let c := deref begin in
        if decide (c = 125) then out ← on_replacement_field id; FOk (out, drop 1 begin, next)
        else if decide (c = 58) then
          '(out, begin, next) ← on_format_specs id (drop 1 begin) next;
          if decide (begin = [] ∨ deref begin ≠ 125) then FError (text "unknown format specifier")
          else FOk (out, drop 1 begin, next)
        else FError (text "missing '}' in format string")
  end.

(** ** The loops over the format string *)

Definition unmatched : bytes := text "unmatched '}' in format string".

(** Strings of fewer than 32 characters: one pass. *)
Fixpoint short_loop (fuel : nat) (begin p out : bytes) (next : Z) : option (result bytes) :=
  match fuel with
  | O => None
  | S fuel =>
      match p with
      | [] => Some (FOk (out ++ between begin p))
      | c :: p' =>
          if decide (c = 123) then
            match parse_replacement_field p next with
            | FOk (piece, q, next) => short_loop fuel q q (out ++ between begin p ++ piece) next
            | FError e => Some (FError e)
            | FUndef => Some FUndef
            end
          else if decide (c = 125) then
            if decide (p' = [] ∨ deref p' ≠ 125) then Some (FError unmatched)
            else short_loop fuel (drop 1 p') (drop 1 p') (out ++ between begin p') next
          else short_loop fuel begin p' out next
      end
  end.

(** [memchr] *)
Definition memchr (s : bytes) (c : Z) : option nat := fst <$> list_find (λ d, d = c) s.

(** [writer]: text without '{'. *)
Fixpoint write_loop (fuel : nat) (seg out : bytes) : option (result bytes) :=
  match fuel with
  | O => None
  | S fuel =>
      match memchr seg 125 with
      | None => Some (FOk (out ++ seg))
      | Some i =>
          let p := S i in
          if decide ((length seg ≤ p)%nat ∨ seg !! p ≠ Some 125) then Some (FError unmatched)
          else write_loop fuel (drop (S p) seg) (out ++ take p seg)
      end
  end.
(** Longer strings: a search for each kind of brace. *)
Fixpoint long_loop (fuel : nat) (begin out : bytes) (next : Z) : option (result bytes) :=
  match fuel with
  | O => None
  | S fuel =>
      match begin with
      | [] => Some (FOk out)
      | c :: rest =>
          let found := if decide (c ≠ 123) then S <$> memchr rest 123 else Some 0%nat in
          match found with
          | None => write_loop (S (length begin)) begin out
          | Some i =>
              match write_loop (S (length begin)) (take i begin) out with
              | Some (FOk out) =>
                  match parse_replacement_field (drop i begin) next with
                  | FOk (piece, q, next) => long_loop fuel q (out ++ piece) next
                  | FError e => Some (FError e)
                  | FUndef => Some FUndef
                  end
              | r => r
              end
          end
      end
  end.
(** [parse_format_string]; [None] would be a loop without an end. *)
Definition parse_format_string (format_str : bytes) (next : Z) : option (result bytes) :=
  let fuel := S (length format_str) in
  if decide (length format_str < 32)%nat then short_loop fuel format_str format_str [] next
  else long_loop fuel format_str [] next.

(** [detail::vformat_to] *)
Definition vformat_to (format_str : bytes) : option (result bytes) :=
  if decide (format_str = [123; 125]) then
    Some (v ← get_arg args 0; default_arg_formatter v)
  else parse_format_string format_str 0.
(** [detail::vformat] *)
Definition vformat (format_str : bytes) : option (result bytes) :=
  if decide (format_str = [123; 125]) then Some (v ← get_arg args 0; stringifier v)
  else vformat_to format_str.
End format.

(** [fmt::format] *)
Definition format (loc : locale_ref) (format_str : bytes) (args : list value) : option (result bytes) :=
  vformat loc (make_format_args args) format_str.

Example format_ex :
  format classic_locale (text "{{{:>6}|{:+05d}|{:*^7}|{}}}") [int_value 42; int_value 7; string_value (text "abc"); bool_value true] =
  Some (FOk (text "{    42|+0007|**abc**|true}")).
Proof. by vm_compute. Qed.
Example format_indexed :
  format classic_locale (text "{1:#x} and {0:.{2}} are the arguments") [string_value (text "abcdef"); uint_value 255; int_value 3] =
  Some (FOk (text "0xff and abc are the arguments")).
Proof. by vm_compute. Qed.

(** ** The parser consumes text *)

(** What a computation answers, if it answers, satisfies [Q]. *)
Definition yields {A} (m : result A) (Q : A → Prop) : Prop := ∀ a, m = FOk a → Q a.
Lemma yields_ret {A} (a : A) (Q : A → Prop) : Q a → yields (FOk a) Q.
Proof. by intros ? ? [= <-]. Qed.
Lemma yields_error {A} e (Q : A → Prop) : yields (FError e) Q.
Proof. done. Qed.
Lemma yields_undef {A} (Q : A → Prop) : yields FUndef Q.
Proof. done. Qed.
Lemma yields_bind {A B} (m : result A) (f : A → result B) P Q :
  yields m P → (∀ a, P a → yields (f a) Q) → yields (m ≫= f) Q.
Proof. intros Hm Hf b. destruct m as [a| |]; [|done..]. intros Hb. by apply (Hf a); [apply Hm|]. Qed.
Lemma yields_any {A} (m : result A) : yields m (λ _, True).
Proof. done. Qed.
Create HintDb yields.
#[local] Hint Resolve yields_ret yields_error yields_undef yields_any : yields.

(** Runs through a parser: binds what a step answers, decides, and closes the
    leaves by arithmetic on lengths. *)
Ltac yields_step :=
  match goal with
  | |- yields (FError _) _ => apply yields_error
  | |- yields FUndef _ => apply yields_undef
  | |- yields (FOk _) _ => apply yields_ret; cbn [fst snd] in *; rewrite ?length_drop; cbn [length] in *; lia
  | |- yields (if decide ?P then _ else _) _ => destruct (decide P)
  | |- yields (if ?b then _ else _) _ => destruct b
  end.

Lemma parse_int_yields s : yields (parse_nonnegative_int s) (λ r, (length r.2 ≤ length s)%nat).
Proof. intros [v rest] H. apply parse_nonnegative_int_shrinks in H as (H & _). cbn. lia. Qed.
Lemma parse_name_length s : (length (parse_name s).2 ≤ length s)%nat.
Proof. induction s as [|c s IH]; cbn; [lia|]. destruct (_ || _); cbn; lia. Qed.
Lemma parse_arg_id_yields s : yields (parse_arg_id s) (λ r, (length r.2 ≤ length s)%nat).
Proof.
  unfold parse_arg_id. destruct s as [|c rest]; [apply yields_undef|]. repeat yields_step.
  - eapply (yields_bind _ _ (λ r, (length r.2 ≤ S (length rest))%nat)).
    + case_decide; [apply (parse_int_yields (c :: rest))|]. apply yields_ret. cbn. lia.
    + intros [i b] Hb. repeat yields_step.
  - apply yields_ret. pose proof (parse_name_length rest). cbn. lia.
Qed.

Section shrink.
Context (loc : locale_ref) (args : basic_format_args).

Lemma parse_dynamic_yields e1 e2 s next : yields (parse_dynamic args e1 e2 s next) (λ r, (length r.1.2 ≤ length s)%nat).
Proof.
  unfold parse_dynamic. eapply (yields_bind _ _ (λ r, (length r.1.2 ≤ length s)%nat)).
  - destruct s as [|c s]; [yields_step|]. eapply yields_bind; [apply (parse_arg_id_yields (c :: s))|]. intros [id b] Hb.
    eapply yields_bind; [apply yields_any|]. intros [v n] _. eapply yields_bind; [apply yields_any|]. intros w _. yields_step.
  - intros [[n b] next'] Hb. repeat yields_step.
Qed.
Lemma parse_width_yields s specs next : yields (parse_width args s specs next) (λ r, (length r.1.1 ≤ length s)%nat).
Proof.
  unfold parse_width. destruct s as [|c s]; [apply yields_undef|]. repeat yields_step.
  - eapply yields_bind; [apply (parse_int_yields (c :: s))|]. intros [w b] Hb. yields_step.
  - eapply yields_bind; [apply parse_dynamic_yields|]. intros [[w b] n] Hb. yields_step.
Qed.
Lemma parse_precision_yields t s specs next : yields (parse_precision args t s specs next) (λ r, (length r.1.1 ≤ length s)%nat).
Proof.
  unfold parse_precision. cbv zeta. eapply (yields_bind _ _ (λ r, (length r.1.1 ≤ length s)%nat)).
  - repeat yields_step.
    + eapply yields_bind; [apply parse_int_yields|]. intros [p b] Hb. rewrite length_drop in Hb. yields_step.
    + eapply yields_bind; [apply parse_dynamic_yields|]. intros [[p b] n] Hb. rewrite !length_drop in Hb. yields_step.
  - intros [[b sp] n] Hb. eapply yields_bind; [apply yields_any|]. intros _ _. yields_step.
Qed.
Lemma parse_width_precision_type_yields t s specs next :
  yields (parse_width_precision_type args t s specs next) (λ r, (length r.1.1 ≤ length s)%nat).
Proof.
  unfold parse_width_precision_type. eapply yields_bind; [apply parse_width_yields|]. intros [[b sp] n] Hb. cbn [fst snd] in Hb.
  destruct b as [|c b]; [yields_step|]. eapply (yields_bind _ _ (λ r, (length r.1.1 ≤ length s)%nat)).
  - case_decide; [|yields_step]. intros r Hr. apply (parse_precision_yields t (c :: b)) in Hr. lia.
  - intros [[b' sp'] n'] Hb'. cbn [fst snd] in Hb'. destruct b' as [|c' b']; repeat yields_step.
Qed.
Lemma parse_align_yields s specs : yields (parse_align s specs) (λ r, (length r.1 ≤ length s)%nat).
Proof.
  unfold parse_align. cbv zeta. repeat yields_step. eapply yields_bind; [apply yields_any|]. intros f _. yields_step.
Qed.
Lemma parse_sign_yields t s specs : yields (parse_sign t s specs) (λ r, (length r.1 ≤ length s)%nat).
Proof.
  unfold parse_sign. cbv zeta. repeat yields_step; (eapply yields_bind; [apply yields_any|]; intros _ _; yields_step).
Qed.
Lemma parse_format_specs_yields t s specs next : yields (parse_format_specs args t s specs next) (λ r, (length r.1.1 ≤ length s)%nat).
Proof.
  unfold parse_format_specs. yields_step; [yields_step|].
  eapply yields_bind; [apply parse_align_yields|]. intros [b1 sp1] H1. yields_step; [yields_step|].
  eapply yields_bind; [apply parse_sign_yields|]. intros [b2 sp2] H2. yields_step; [yields_step|].
  eapply (yields_bind _ _ (λ r, (length r.1 ≤ length b2)%nat)).
  { yields_step; [|yields_step]. eapply yields_bind; [apply yields_any|]. intros _ _. yields_step. }
  intros [b3 sp3] H3. yields_step; [yields_step|].
  eapply (yields_bind _ _ (λ r, (length r.1 ≤ length b3)%nat)).
  { yields_step; [|yields_step]. eapply yields_bind; [apply yields_any|]. intros _ _. yields_step. }
  intros [b4 sp4] H4. yields_step; [yields_step|].
  intros r Hr. apply parse_width_precision_type_yields in Hr. cbn [fst snd] in *. lia.
Qed.
Lemma on_format_specs_yields id s next : yields (on_format_specs loc args id s next) (λ r, (length r.1.2 ≤ length s)%nat).
Proof.
  unfold on_format_specs. eapply yields_bind; [apply yields_any|]. intros v _.
  eapply (yields_bind _ _ (λ r, (length r.1.1 ≤ length s)%nat)).
  - yields_step; [yields_step|]. eapply yields_bind; [apply parse_format_specs_yields|]. intros [[b sp] n] Hb. repeat yields_step.
  - intros [[b sp] n] Hb. eapply yields_bind; [apply yields_any|]. intros out _. yields_step.
Qed.

(** A replacement field leaves less than it was given. *)
Lemma parse_replacement_field_yields c s next :
  yields (parse_replacement_field loc args (c :: s) next) (λ r, (length r.1.2 ≤ length s)%nat).
Proof.
  unfold parse_replacement_field. cbn [drop]. rewrite drop_0. destruct s as [|d rest]; [apply yields_error|].
  yields_step; [|yields_step; [yields_step|]].
  - eapply yields_bind; [apply yields_any|]. intros [id n] _. eapply yields_bind; [apply yields_any|]. intros out _. yields_step.
  - eapply yields_bind; [apply (parse_arg_id_yields (d :: rest))|]. intros [ref b] Hb. eapply yields_bind; [apply yields_any|]. intros [id n'] _.
    cbv zeta. repeat yields_step.
    + eapply yields_bind; [apply yields_any|]. intros out _. yields_step.
    + eapply yields_bind; [apply on_format_specs_yields|]. intros [[out b'] n''] Hb'. rewrite length_drop in Hb'. repeat yields_step.
Qed.
End shrink.

(** ** Both loops compute the same *)

(** The reference for text without opening braces: a closing brace is doubled. *)
Fixpoint unescape (s : bytes) : result bytes :=
  match s with
  | [] => FOk []
  | c :: s' =>
      if decide (c = 125) then
        match s' with
        | d :: s'' => if decide (d = 125) then t ← unescape s''; FOk (125 :: t) else FError unmatched
        | [] => FError unmatched
        end
      else t ← unescape s'; FOk (c :: t)
  end.

(** [memchr] finds the first occurrence. *)
Lemma memchr_None s c : memchr s c = None → c ∉ s.
Proof. unfold memchr. rewrite fmap_None. intros H%list_find_None. rewrite Forall_forall in H. intros Hin. by apply (H c). Qed.
Lemma memchr_Some s c i : memchr s c = Some i → ∃ a b, s = a ++ c :: b ∧ c ∉ a ∧ length a = i.
Proof.
  unfold memchr. rewrite fmap_Some. intros ([i' d] & Hf & ->). apply list_find_Some in Hf as (Hi & -> & Hbefore). cbn [fst].
  exists (take i' s), (drop (S i') s). split; [by rewrite take_drop_middle|].
  pose proof (lookup_lt_Some _ _ _ Hi). rewrite length_take. split; [|lia].
  intros Hin. apply list_elem_of_lookup in Hin as [j Hj]. apply lookup_take_Some in Hj as [Hj Hlt]. by apply (Hbefore j c).
Qed.

Lemma unescape_plain s t : 125 ∉ s → unescape (s ++ t) = (r ← unescape t; FOk (s ++ r)).
Proof.
  induction s as [|c s IH]; intros Hs; [cbn [app]; by destruct (unescape t)|]. rewrite not_elem_of_cons in Hs. destruct Hs as [Hc Hs].
  cbn [app unescape]. rewrite decide_False by done. rewrite IH by done. by destruct (unescape t).
Qed.

Lemma write_loop_run fuel seg out :
  (length seg < fuel)%nat → write_loop fuel seg out = Some (t ← unescape seg; FOk (out ++ t)).
Proof.
  revert seg out. induction fuel as [|fuel IH]; intros seg out Hf; [lia|]. cbn [write_loop].
  destruct (memchr seg 125) as [i|] eqn:Hm.
  - apply memchr_Some in Hm as (a & b & -> & Ha & <-). rewrite unescape_plain by done. cbn [unescape]. rewrite (decide_True (P := 125 = 125)) by done.
    rewrite length_app in *. cbn [length] in *. destruct b as [|d b].
    { by rewrite decide_True by (cbn; lia). }
    assert ((a ++ 125 :: d :: b) !! S (length a) = Some d) as Hd
      by (rewrite lookup_app_r by lia; by replace (S (length a) - length a)%nat with 1%nat by lia).
    rewrite Hd. destruct (decide (d = 125)) as [->|Hne].
    + rewrite decide_False by (cbn; intros [?|?]; [lia|done]). rewrite IH by (rewrite length_drop, length_app; cbn [length] in *; lia).
      replace (drop (S (S (length a))) (a ++ 125 :: 125 :: b)) with b by (rewrite drop_app_ge by lia; by replace (S (S (length a)) - length a)%nat with 2%nat by lia).
      replace (take (S (length a)) (a ++ 125 :: 125 :: b)) with (a ++ [125]) by (rewrite take_app_ge by lia; by replace (S (length a) - length a)%nat with 1%nat by lia).
      destruct (unescape b); cbn; [|done..]. by rewrite <-!app_assoc.
    + rewrite decide_True by (right; congruence). done.
  - apply memchr_None in Hm. pose proof (unescape_plain seg [] Hm) as H. rewrite app_nil_r in H. rewrite H. cbn. by rewrite app_nil_r.
Qed.

Section loops.
Context (loc : locale_ref) (args : basic_format_args).
Abbreviation short := (λ fuel p out next, short_loop loc args fuel p p out next).

(** The text before the iterator may be written at once. *)
Lemma short_loop_pending fuel pend p out next :
  short_loop loc args fuel (pend ++ p) p out next = short fuel p (out ++ pend) next.
Proof.
  revert pend p out. induction fuel as [|fuel IH]; intros pend p out; [done|]. cbn [short_loop].
  destruct p as [|c p].
  { rewrite between_app, between_nil. by rewrite app_nil_r. }
  case_decide; [|case_decide].
  - rewrite between_app, between_nil. destruct (parse_replacement_field _ _ _ _) as [[[piece q] n]| |]; [|done..].
    rewrite (app_assoc out). by rewrite app_nil_l.
  - case_decide; [done|]. replace (pend ++ c :: p) with ((pend ++ [c]) ++ p) by (by rewrite <-app_assoc).
    rewrite between_app, between_cons. by rewrite app_assoc.
  - replace (pend ++ c :: p) with ((pend ++ [c]) ++ p) by (by rewrite <-app_assoc).
    rewrite IH. pose proof (IH [c] p (out ++ pend)) as Hone. cbn [app] in Hone. rewrite Hone. by rewrite app_assoc.
Qed.

Lemma short_step fuel p out next :
  short (S fuel) p out next =
    match p with
    | [] => Some (FOk out)
    | c :: p' =>
        if decide (c = 123) then
          match parse_replacement_field loc args p next with
          | FOk (piece, q, next) => short fuel q (out ++ piece) next
          | FError e => Some (FError e)
          | FUndef => Some FUndef
          end
        else if decide (c = 125) then
          if decide (p' = [] ∨ deref p' ≠ 125) then Some (FError unmatched) else short fuel (drop 1 p') (out ++ [125]) next
        else short fuel p' (out ++ [c]) next
    end.
Proof.
  cbn [short_loop]. destruct p as [|c p]; [by rewrite between_nil, app_nil_r|].
  case_decide; [by rewrite between_nil|]. case_decide as Hc; [subst; by rewrite between_cons|].
  apply (short_loop_pending fuel [c] p).
Qed.

(** Enough fuel is enough. *)
Lemma short_fuel fuel1 fuel2 p out next :
  (length p < fuel1)%nat → (length p < fuel2)%nat → short fuel1 p out next = short fuel2 p out next.
Proof.
  revert fuel2 p out next. induction fuel1 as [|fuel1 IH]; intros [|fuel2] p out next H1 H2; [lia..|].
  cbv beta. rewrite !short_step. destruct p as [|c p]; [done|]. cbn [length] in *. case_decide; [|case_decide].
  - pose proof (parse_replacement_field_yields loc args c p next) as Hy.
    destruct (parse_replacement_field loc args (c :: p) next) as [[[piece q] n]| |]; [|done..].
    specialize (Hy _ eq_refl). cbn in Hy. apply IH; lia.
  - case_decide; [done|]. apply IH; rewrite length_drop; lia.
  - apply IH; lia.
Qed.

(** Over text without opening braces the single pass does what the writer does. *)
Lemma short_segment seg rest fuel out next :
  123 ∉ seg → match rest with [] => True | c :: _ => c = 123 end → (length (seg ++ rest) < fuel)%nat →
  short fuel (seg ++ rest) out next =
    match unescape seg with
    | FOk t => short fuel rest (out ++ t) next
    | FError e => Some (FError e)
    | FUndef => Some FUndef
    end.
Proof.
  intros Hseg Hrest. revert seg out Hseg. induction fuel as [|fuel IH]; intros seg out Hseg Hf; [lia|].
  destruct seg as [|c seg]; [cbn [app unescape]; by rewrite app_nil_r|].
  rewrite not_elem_of_cons in Hseg. destruct Hseg as [Hc Hseg]. cbn [app length] in Hf. rewrite length_app in Hf.
  cbv beta. rewrite short_step. cbn [app unescape]. rewrite decide_False by done.
  case_decide as H125.
  - subst c. destruct seg as [|d seg].
    { rewrite decide_True; [done|]. destruct rest as [|e rest]; [by left|right; cbn; lia]. }
    cbn [app deref]. destruct (decide (d = 125)) as [->|Hd]; [|by rewrite decide_True by auto].
    rewrite decide_False by (intros [?|?]; done). cbn [drop]. rewrite drop_0. cbn [length] in Hf.
    rewrite not_elem_of_cons in Hseg. rewrite IH by (try apply Hseg; rewrite ?length_app; lia).
    destruct (unescape seg); cbn [mbind result_bind]; [|done..]. rewrite <-app_assoc. apply (short_fuel fuel (S fuel)); lia.
  - rewrite IH by (done || (rewrite length_app; lia)). destruct (unescape seg); cbn [mbind result_bind]; [|done..].
    rewrite <-app_assoc. apply (short_fuel fuel (S fuel)); lia.
Qed.

(** The searching loop computes the same as the single pass. *)
Lemma long_loop_short fuel1 fuel2 s out next :
  (length s < fuel1)%nat → (length s < fuel2)%nat → long_loop loc args fuel1 s out next = short fuel2 s out next.
Proof.
  revert fuel2 s out next. induction fuel1 as [|fuel1 IH]; intros fuel2 s out next H1 H2; [lia|]. cbn [long_loop].
  destruct s as [|c s]; [destruct fuel2; [cbn in H2; lia|]; by rewrite (short_step fuel2 [])|].
  assert (∀ i, (if decide (c ≠ 123) then S <$> memchr s 123 else Some 0%nat) = Some i →
            ∃ seg rest, c :: s = seg ++ 123 :: rest ∧ 123 ∉ seg ∧ length seg = i) as Hfound.
  { intros i. destruct (decide (c ≠ 123)) as [Hc|Hc].
    - rewrite fmap_Some. intros (j & Hj & ->). apply memchr_Some in Hj as (a & b & -> & Ha & <-).
      exists (c :: a), b. split; [done|]. split; [|done]. by rewrite not_elem_of_cons.
    - intros [= <-]. exists [], s. assert (c = 123) as -> by (destruct (decide (c = 123)); tauto). split; [done|]. split; [apply not_elem_of_nil|done]. }
  destruct (if decide (c ≠ 123) then S <$> memchr s 123 else Some 0%nat) as [i|] eqn:Hi.
  - destruct (Hfound i eq_refl) as (seg & rest & Heq & Hseg & <-). rewrite Heq in *. rewrite take_app_length, drop_app_length.
    rewrite write_loop_run by (rewrite length_app; lia). rewrite short_segment by done.
    destruct (unescape seg) as [t| |]; cbn [mbind result_bind]; [|done..].
    rewrite length_app in *. cbn [length] in *.
    rewrite (short_fuel fuel2 (S (S (length rest)))) by (cbn [length]; lia). rewrite short_step. rewrite decide_True by done.
    pose proof (parse_replacement_field_yields loc args 123 rest next) as Hy.
    destruct (parse_replacement_field loc args (123 :: rest) next) as [[[piece q] n]| |]; [|done..].
    specialize (Hy _ eq_refl). cbn in Hy. apply IH; lia.
  - assert (123 ∉ c :: s) as Hno.
    { destruct (decide (c ≠ 123)) as [Hc|Hc]; [|done]. rewrite fmap_None in Hi. apply memchr_None in Hi. by rewrite not_elem_of_cons. }
    rewrite write_loop_run by lia. pose proof (short_segment (c :: s) [] fuel2 out next Hno I) as Hs. rewrite app_nil_r in Hs.
    cbv beta in *. rewrite Hs by lia. destruct (unescape (c :: s)); cbn [mbind result_bind]; [|done..].
    destruct fuel2; [lia|]. by rewrite short_step.
Qed.
End loops.

Lemma both_loops loc args s next :
  short_loop loc args (S (length s)) s s [] next = long_loop loc args (S (length s)) s [] next ∧
  parse_format_string loc args s next = short_loop loc args (S (length s)) s s [] next.
Proof.
  assert (long_loop loc args (S (length s)) s [] next = short_loop loc args (S (length s)) s s [] next) as H
    by (apply (long_loop_short loc args); lia).
  split; [done|]. unfold parse_format_string. by case_decide.
Qed.

(** C24: The switch at 32 characters cannot be observed: whichever loop the length
    selects, the result is that of the other. *)
Theorem parse_format_string_loops loc args s next :
  short_loop loc args (S (length s)) s s [] next = long_loop loc args (S (length s)) s [] next ∧
  parse_format_string loc args s next = short_loop loc args (S (length s)) s s [] next.
Proof. apply both_loops. Qed.
Lemma parse_format_string_loops_witness :
  parse_format_string classic_locale (make_format_args [int_value 1; int_value 2])
    (text "select {} from a_table where a_column}} = {}") 0 =
  Some (FOk (text "select 1 from a_table where a_column} = 2")).
Proof.
  rewrite (proj2 (parse_format_string_loops classic_locale (make_format_args [int_value 1; int_value 2])
    (text "select {} from a_table where a_column}} = {}") 0)). vm_compute. reflexivity.
Defined.

(** ** Formats as sequences of texts and fields *)

Inductive field := Text (s : bytes) | Auto | Indexed (i : Z).

(** Braces of a text are doubled. *)
Definition escape_char (c : Z) : bytes := if decide (c = 123 ∨ c = 125) then [c; c] else [c].
Definition escape (s : bytes) : bytes := concat (escape_char <$> s).
Definition render_field (f : field) : bytes :=
  match f with Text s => escape s | Auto => [123; 125] | Indexed i => 123 :: dec i ++ [125] end.
Definition render_fields (fs : list field) : bytes := concat (render_field <$> fs).
Definition field_wf (f : field) : Prop := match f with Indexed i => 0 ≤ i ≤ max_int | _ => True end.

Section fields.
Context (loc : locale_ref) (args : basic_format_args).

Fixpoint eval_fields (fs : list field) (next : Z) : result bytes :=
  match fs with
  | [] => FOk []
  | Text s :: fs => t ← eval_fields fs next; FOk (s ++ t)
  | Auto :: fs => '(id, next) ← next_arg_id next; out ← on_replacement_field args id; t ← eval_fields fs next; FOk (out ++ t)
  | Indexed i :: fs => next ← check_arg_id next; out ← on_replacement_field args i; t ← eval_fields fs next; FOk (out ++ t)
  end.

Abbreviation short := (λ fuel p out next, short_loop loc args fuel p p out next).

Lemma short_escape s rest fuel out next :
  (length (escape s ++ rest) < fuel)%nat → short fuel (escape s ++ rest) out next = short (S (length rest)) rest (out ++ s) next.
Proof.
  revert s out. induction fuel as [|fuel IH]; intros s out Hf; [lia|]. destruct s as [|c s].
  { cbn [escape fmap list_fmap concat app] in *. rewrite app_nil_r. apply (short_fuel loc args (S fuel)); lia. }
  change (escape (c :: s)) with (escape_char c ++ escape s) in *. unfold escape_char in *.
  cbv beta. rewrite short_step. case_decide as Hc; cbn [app length] in *.
  - case_decide as H123.
    + subst c. unfold parse_replacement_field. cbn [drop]. rewrite (decide_False (P := 123 = 125)) by done.
      rewrite (decide_True (P := 123 = 123)) by done. rewrite IH by lia. by rewrite <-app_assoc.
    + assert (c = 125) as -> by tauto. rewrite (decide_True (P := 125 = 125)) by done.
      rewrite decide_False by (cbn; intros [?|?]; done). cbn [drop]. rewrite drop_0. rewrite IH by lia. by rewrite <-app_assoc.
  - rewrite !decide_False by tauto. rewrite IH by lia. by rewrite <-app_assoc.
Qed.

Lemma parse_indexed i rest next :
  0 ≤ i ≤ max_int →
  parse_replacement_field loc args (123 :: dec i ++ 125 :: rest) next =
    (next ← check_arg_id next; out ← on_replacement_field args i; FOk (out, rest, next)).
Proof.
  intros Hi. unfold parse_replacement_field. cbn [drop]. rewrite drop_0.
  assert (∃ c t, dec i = c :: t ∧ 48 ≤ c ≤ 57) as (c & t & Hd & Hc).
  { unfold max_int in Hi. destruct (dec_head i []) as (c & t & Ht & Hc); [lia|]. exists c, t. by rewrite app_nil_r in Ht. }
  rewrite Hd. cbn [app]. rewrite !decide_False by lia.
  assert (parse_arg_id (c :: t ++ 125 :: rest) = FOk (index_id i, 125 :: rest)) as ->.
  { unfold parse_arg_id. rewrite decide_False by lia. assert (is_digit c = true) as -> by (apply is_digit_iff; lia).
    assert ((if decide (c ≠ 48) then parse_nonnegative_int (c :: t ++ 125 :: rest) else FOk (0, t ++ 125 :: rest)) = FOk (i, 125 :: rest)) as ->.
    { pose proof (parse_dec i (125 :: rest) Hi ltac:(done)) as Hp. rewrite Hd in Hp. case_decide as H48; [done|].
      assert (c = 48) as -> by (destruct (decide (c = 48)); tauto).
      destruct (decide (i < 10)) as [Hsmall|Hbig].
      - unfold dec in Hd. rewrite numeral_small in Hd by lia. injection Hd as Hi48 <-. do 2 f_equal. lia.
      - exfalso. clear Hp. assert (10 ≤ i) as H10 by lia. clear Hbig. unfold max_int in Hi.
        assert (0 ≤ i < 2 ^ 64) as H64 by lia. clear Hi. revert t Hd H10. unfold dec. pattern i. revert i H64.
        apply (numeral_ind 10); [lia|intros; lia|]. intros i Hi IH t Hd _. rewrite numeral_step in Hd by lia.
        destruct (decide (i / 10 < 10)) as [Hs|Hb].
        + rewrite numeral_small in Hd by (split; [apply Z.div_pos|]; lia). assert (1 ≤ i / 10) by (apply Z.div_le_lower_bound; lia).
          injection Hd as Hd _. lia.
        + destruct (numeral 10 (λ d, 48 + d) (i / 10)) as [|e u] eqn:He.
          * pose proof (dec_length (i / 10)) as Hl. unfold dec in Hl. rewrite He in Hl. change (zlength []) with 0 in Hl.
            assert (i / 10 < i) by (apply Z.div_lt; lia). lia.
          * injection Hd as -> _. by apply (IH u); [|lia]. }
    cbn [mbind result_bind]. by rewrite decide_False by (cbn; intros [?|[? ?]]; done). }
  cbn [mbind result_bind]. unfold on_arg_id. destruct (check_arg_id next) as [n| |]; cbn [mbind result_bind]; [|done..].
  cbn [deref]. rewrite decide_True by done. destruct (on_replacement_field args i); cbn [mbind result_bind drop]; [|done..].
  by rewrite drop_0.
Qed.

Lemma short_fields fs fuel out next :
  Forall field_wf fs → (length (render_fields fs) < fuel)%nat →
  short fuel (render_fields fs) out next = Some (t ← eval_fields fs next; FOk (out ++ t)).
Proof.
  revert fuel out next. induction fs as [|f fs IH]; intros fuel out next Hfs Hf.
  { destruct fuel; [lia|]. cbv beta. rewrite short_step. cbn. by rewrite app_nil_r. }
  apply Forall_cons in Hfs as [Hw Hfs]. change (render_fields (f :: fs)) with (render_field f ++ render_fields fs) in *.
  destruct f as [s| |i]; cbn [render_field eval_fields field_wf] in *.
  - rewrite short_escape by done. rewrite IH by (done || lia). destruct (eval_fields fs next); cbn; [|done..]. by rewrite <-app_assoc.
  - destruct fuel as [|fuel]; [lia|]. cbn [app length] in *. cbv beta. rewrite short_step.
    rewrite (decide_True (P := 123 = 123)) by done. unfold parse_replacement_field. cbn [drop].
    rewrite (decide_True (P := 125 = 125)) by done. cbn [on_arg_id].
    destruct (next_arg_id next) as [[id n]| |]; cbn [mbind result_bind]; [|done..].
    destruct (on_replacement_field args id); cbn [mbind result_bind]; [|done..].
    rewrite IH by (done || lia). destruct (eval_fields fs n); cbn; [|done..]. by rewrite <-app_assoc.
  - destruct fuel as [|fuel]; [lia|]. cbn [app length] in *. rewrite length_app in Hf. rewrite length_app in Hf. cbn [length] in Hf.
    cbv beta. rewrite short_step. rewrite (decide_True (P := 123 = 123)) by done.
    rewrite <-app_assoc. cbn [app]. rewrite parse_indexed by done.
    destruct (check_arg_id next) as [n| |]; cbn [mbind result_bind]; [|done..].
    destruct (on_replacement_field args i); cbn [mbind result_bind]; [|done..].
    rewrite IH by (done || lia). destruct (eval_fields fs n); cbn; [|done..]. by rewrite <-app_assoc.
Qed.
End fields.

(** The conversion that ["{}"] selects writes what a field of a longer format
    writes. *)
Lemma stringifier_default v : value_wf v → stringifier v = default_arg_formatter v.
Proof.
  intros Hv. destruct v; try done; (rewrite (stringifier_integer _ v Hv) by auto);
    cbn [default_arg_formatter value_wf] in *; unfold in_signed, in_unsigned in Hv;
    by rewrite write_integral_decimal by (split; [auto|cbn in *; lia]).
Qed.

Lemma fields_run loc fs args :
  Forall field_wf fs → Forall value_wf args → zlength args < 2 ^ 31 →
  format loc (render_fields fs) args = Some (eval_fields (make_format_args args) fs 0).
Proof.
  intros Hfs Hargs Hlen. unfold format, vformat, vformat_to. set (store := make_format_args args).
  assert (parse_format_string loc store (render_fields fs) 0 = Some (eval_fields store fs 0)) as Hparse.
  { rewrite (proj2 (both_loops loc store (render_fields fs) 0)). rewrite (short_fields loc store fs) by (done || lia).
    by destruct (eval_fields store fs 0). }
  case_decide as H2; [|done]. rewrite <-Hparse, H2.
  assert (parse_format_string loc store [123; 125] 0 = Some (v ← get_arg store 0; default_arg_formatter v)) as ->.
  { pose proof (short_fields loc store [Auto] 3 [] 0 ltac:(by repeat constructor) ltac:(cbn; lia)) as H.
    cbn [eval_fields] in H. change (next_arg_id 0) with (FOk (0, 1)) in H. cbn [mbind result_bind] in H. unfold on_replacement_field in H.
    unfold parse_format_string. rewrite decide_True by (cbn; lia). refine (eq_trans H _).
    destruct (get_arg store 0) as [v| |]; cbn [mbind result_bind]; [|done..]. destruct (default_arg_formatter v); cbn; [|done..]. by rewrite app_nil_r. }
  f_equal. unfold get_arg, store. rewrite get_make by (done || lia). cbn [mbind result_bind].
  destruct (zlookup args 0) as [v|] eqn:Hv; cbn [mbind result_bind]; [|done]. apply stringifier_default.
  unfold zlookup in Hv. rewrite decide_True in Hv by done. apply list_elem_of_lookup_2 in Hv. rewrite Forall_forall in Hargs. by apply Hargs.
Qed.

(** Texts with their braces doubled, and fields without a specification: the
    texts are written as they were before, and each field its argument, in turn
    or by index. *)
Theorem format_fields loc fs args :
  Forall field_wf fs → Forall value_wf args → zlength args < 2 ^ 31 →
  format loc (render_fields fs) args = Some (eval_fields (make_format_args args) fs 0).
Proof. apply fields_run. Qed.
Lemma format_fields_witness :
  Forall field_wf [Text (text "f({"); Indexed 1; Text (text ", "); Indexed 0; Text (text "})")] ∧
  format classic_locale (text "f({{{1}, {0}}})") [int_value (-7); string_value (text "x")] = Some (FOk (text "f({x, -7})")).
Proof.
  assert (Forall field_wf [Text (text "f({"); Indexed 1; Text (text ", "); Indexed 0; Text (text "})")]) as Hwf
    by (repeat (apply Forall_cons; split); try apply Forall_nil; cbn; unfold max_int; try exact I; lia).
  split; [exact Hwf|].
  change (text "f({{{1}, {0}}})") with (render_fields [Text (text "f({"); Indexed 1; Text (text ", "); Indexed 0; Text (text "})")]).
  rewrite format_fields; [vm_compute; reflexivity|exact Hwf| |vm_compute; reflexivity].
  repeat (apply Forall_cons; split); try apply Forall_nil; cbn; unfold in_signed; try exact I; lia.
Defined.
End FmtFormat.
