(* ===== verification/SqlText.v ===== *)
(** SqlText: statements made from a format and arguments: StringFormat.h, and
    the functions of DatabaseWorkerPool.h and Transaction.h that take a format
    (src/mysql-conn-pool/dbimpl), over [fmt::sprintf] of FmtPrintf.v; and the
    text of bound values, over [fmt::format] of FmtFormat.v. *)
From stdpp Require Import gmap.
From S2P Require Import Prelude Except Bytes FmtInt FmtArgs FmtWrite FmtParse FmtPrintf FmtFormat.
From S2P Require Import PreparedStatement ResultSet MySqlConn PcQueue DbTask DbPool.

Module SqlText.
Import FmtArgs FmtWrite FmtParse FmtPrintf.

(** ** [Trinity::StringFormat] *)

Definition error_text (fmt what : bytes) : bytes :=
  text "An error occurred formatting string " ++ [34] ++ fmt ++ [34] ++ text " : " ++ what.
(** The exception is caught and its text returned instead.  The formats are C
    strings and [std::string]s, which have a terminator. *)
Definition StringFormat (loc : locale_ref) (fmt : bytes) (args : list value) : result bytes :=
  match sprintf true loc fmt args with
  | Some (FOk s) => FOk s
  | Some (FError what) => FOk (error_text fmt what)
  | Some FUndef | None => FUndef
  end.

(** A format given as a pointer or as a [std::string]. *)
Inductive sql_format := c_string (s : option bytes) | std_string (s : bytes).
(** [IsFormatEmptyOrNull], and the text otherwise. *)
Definition format_text (f : sql_format) : option bytes :=
  match f with
  | c_string s => s
  | std_string s => if decide (s = []) then None else Some s
  end.

(** [c_str()] handed on as a C string: what stands before the first NUL. *)
Fixpoint c_str (s : bytes) : bytes :=
  match s with c :: s => if decide (c = 0) then [] else c :: c_str s | [] => [] end.

(** A result as a computation. *)
Definition lift {S A} (r : result A) : comp S A := match r with FOk a => mret a | FError _ => throw | FUndef => ub end.

Section statements.
Context {M H S : Type} {api : MySqlConn.MySqlApi M H S}.
Context (loc : locale_ref) (F : nat).

(** [DatabaseWorkerPool::PExecute] *)
Definition PExecute (sql : sql_format) (args : list value) : comp (DbPool.pool (M := M) (H := H) (S := S)) unit :=
  match format_text sql with
  | None => mret ()
  | Some fmt => s ← lift (StringFormat loc fmt args); DbPool.Execute (Some (c_str s))
  end.
(** [DatabaseWorkerPool::DirectPExecute] *)
Definition DirectPExecute (fuel : nat) (others : nat → nat → bool) (sql : sql_format) (args : list value) :
    comp (DbPool.pool (M := M) (H := H) (S := S)) unit :=
  match format_text sql with
  | None => mret ()
  | Some fmt => s ← lift (StringFormat loc fmt args); DbPool.DirectExecute F fuel others (Some (c_str s))
  end.
(** [DatabaseWorkerPool::PQuery], with and without a connection. *)
Definition PQuery (fuel : nat) (others : nat → nat → bool) (sql : sql_format) (connection : option nat) (args : list value) :
    comp (DbPool.pool (M := M) (H := H) (S := S)) (option ResultSet.ResultSet) :=
  match format_text sql with
  | None => mret None
  | Some fmt => s ← lift (StringFormat loc fmt args); DbPool.Query F fuel others (Some (c_str s)) connection
  end.
End statements.

(** [TransactionBase::PAppend], which does not look for a null format. *)
Definition PAppend (loc : locale_ref) (sql : bytes) (args : list value) (t : DbTask.TransactionBase) : result DbTask.TransactionBase :=
  s ← StringFormat loc sql args; FOk (DbTask.Append (c_str s) t).

(** ** The text of bound values *)

(** The argument that [fmt] makes of a number. *)
Definition number_value (data : PreparedStatement.PreparedStatementData) : option value :=
  match data with
  | PreparedStatement.UInt16 v | PreparedStatement.UInt32 v => Some (uint_value v)
  | PreparedStatement.UInt64 v => Some (ulong_long_value v)
  | PreparedStatement.Int16 v | PreparedStatement.Int32 v => Some (int_value v)
  | PreparedStatement.Int64 v => Some (long_long_value v)
  | _ => None
  end.
(** [PreparedStatementData::ToString] with what [fmt::format] answers; numbers
    with a floating point are left to [float_text]. *)
Section to_string.
Context (loc : locale_ref) (float_text : PreparedStatement.PreparedStatementData → result bytes).
Definition run_format (fmt : bytes) (args : list value) : result bytes :=
  match FmtFormat.format loc fmt args with Some r => r | None => FUndef end.
Definition ToString_number (data : PreparedStatement.PreparedStatementData) : result bytes :=
  match number_value data with Some v => run_format (text "{}") [v] | None => float_text data end.
Definition ToString (data : PreparedStatement.PreparedStatementData) : result bytes :=
  match data with
  | PreparedStatement.Bool b => ToString_number (PreparedStatement.UInt32 (if b then 1 else 0))
  | PreparedStatement.UInt8 v => ToString_number (PreparedStatement.UInt32 v)
  | PreparedStatement.Int8 v => ToString_number (PreparedStatement.Int32 v)
  | PreparedStatement.String v => run_format (text "'{}'") [string_value v]
  | PreparedStatement.Binary _ => FOk (text "BINARY")
  | PreparedStatement.Null => FOk (text "NULL")
  | data => ToString_number data
  end.
End to_string.

(** ** What reaches the database *)

Lemma c_str_all s : Forall (λ c, c ≠ 0) s → c_str s = s.
Proof. induction 1 as [|c s Hc Hs IH]; cbn; [done|]. rewrite decide_False by done. by rewrite IH. Qed.
Lemma c_str_app s t : Forall (λ c, c ≠ 0) s → c_str (s ++ t) = s ++ c_str t.
Proof. induction 1 as [|c s Hc Hs IH]; cbn; [done|]. rewrite decide_False by done. by rewrite IH. Qed.

(** [StringFormat] never throws [format_error] and is always defined: it gives
    the formatted text, or a text that quotes the format and says what is wrong. *)
Theorem StringFormat_total loc fmt args :
  grouping loc = [] → Forall value_wf args → Forall no_null args → zlength args < 2 ^ 31 →
  ∃ s, StringFormat loc fmt args = FOk s ∧
    (sprintf true loc fmt args = Some (FOk s) ∨ ∃ what, sprintf true loc fmt args = Some (FError what) ∧ s = error_text fmt what).
Proof.
  intros Hloc Hargs Hnull Hlen.
  destruct (format_loop_holds loc args Hloc Hargs Hlen true Hnull (S (length fmt)) fmt fmt fmt [] 0) as (r & Hr & Hd); [done|lia|lia|].
  change (sprintf true loc fmt args = Some r) in Hr. unfold StringFormat. rewrite Hr.
  destruct r as [s|what|]; [|by eauto 6|by destruct (Hd eq_refl)]. exists s. auto.
Qed.
Lemma StringFormat_total_witness :
  grouping classic_locale = [] ∧
  ∃ s, StringFormat classic_locale (text "where id = %s") [int_value 3] = FOk s ∧
    (sprintf true classic_locale (text "where id = %s") [int_value 3] = Some (FOk s) ∨
     ∃ what, sprintf true classic_locale (text "where id = %s") [int_value 3] = Some (FError what) ∧ s = error_text (text "where id = %s") what).
Proof.
  split; [reflexivity|]. apply StringFormat_total; [reflexivity| | |vm_compute; reflexivity].
  - constructor; [cbn; unfold in_signed; lia|constructor].
  - constructor; [exact I|constructor].
Defined.

Section statements_spec.
Context {M H S : Type} {api : MySqlConn.MySqlApi M H S}.
Context (loc : locale_ref).
Abbreviation pool := (DbPool.pool (M := M) (H := H) (S := S)).

(** C23: A statement with a number: what is enqueued is the format with the decimal
    text of a number in the place of the conversion, which reads back as that
    number.  The number is the value of the argument, taken as signed by %d and
    %i and as unsigned by %u, in the width that the length modifier and the type
    of the argument give ([printed]); without "h" and "hh" it is the value
    itself when that is not negative under %u, and below 2^31 under %d and %i. *)
Theorem PExecute_number a b c v m (p : pool) :
  Forall (λ c, c ≠ 37 ∧ c ≠ 0) a → Forall (λ c, c ≠ 37 ∧ c ≠ 0) b → no_digit b →
  conversion_wf c → c_index c = None → c_type c ∈ [100; 105; 117] → c_width c ≠ dim_arg → c_precision c ≠ Some dim_arg →
  value_wf v → integral v = Some m →
  let n := printed (c_length c) (c_type c) v m in
  ∃ s, PExecute loc (c_string (Some (render [Literal a; Conversion c; Literal b]))) [v] p =
      Returns () (DbPool.with_queue (ProducerConsumerQueue.Push (DbTask.BasicStatementTask (a ++ s ++ b) None) (DbPool._queue p)) p) ∧
    (n ≤ LONG_MAX → strtol (s ++ b ++ [0]) = Some n) ∧ (0 ≤ n → strtoul (s ++ b ++ [0]) = Some n) ∧
    (c_length c ≠ len_h → c_length c ≠ len_hh → (if decide (c_type c = 117) then 0 ≤ m else m < 2 ^ 31) → n = m).
Proof.
  intros Ha Hb Hnd Hwf Hi Ht Hw Hp Hv Hm n.
  assert (∀ s : bytes, Forall (λ c, c ≠ 37 ∧ c ≠ 0) s → Forall (λ c, c ≠ 37) s ∧ Forall (λ c, c ≠ 0) s) as Hsplit
    by (intros s; rewrite <-Forall_and; done).
  apply Hsplit in Ha as [Ha Ha0]. apply Hsplit in Hb as [Hb Hb0].
  destruct (sprintf_run loc a b c v Ha Hb Hnd Hwf Hi Ht Hw Hp Hv (ex_intro _ m Hm)) as (s & n' & Hs & Hn & Hl & Hul & _ & Hnz).
  rewrite (convert_of_printed _ _ v m Ht Hv Hm) in Hn. injection Hn as <-. fold n in Hl, Hul.
  exists s. split; [|split; [done|split; [done|]]].
  2:{ intros Hh Hhh Hfit. unfold n. case_decide as H117; [rewrite H117; by apply printed_unsigned|by apply printed_signed]. }
  unfold PExecute, StringFormat. cbn [format_text]. rewrite Hs.
  transitivity (DbPool.Execute (Some (c_str (a ++ s ++ b))) p); [reflexivity|]. by rewrite c_str_all by (rewrite !Forall_app; done).
Qed.

(** A format that does not fit its arguments is executed all the same: what is
    sent is the text about the error. *)
Lemma PExecute_error fmt args what (p : pool) :
  sprintf true loc fmt args = Some (FError what) →
  PExecute loc (c_string (Some fmt)) args p =
    Returns () (DbPool.with_queue (ProducerConsumerQueue.Push (DbTask.BasicStatementTask (c_str (error_text fmt what)) None) (DbPool._queue p)) p).
Proof. intros Hs. unfold PExecute, StringFormat. cbn [format_text]. by rewrite Hs. Qed.

(** The synchronous functions and a transaction get the same text. *)
Lemma PQuery_text F fuel others fmt args s conn (p : pool) :
  StringFormat loc fmt args = FOk s →
  PQuery loc F fuel others (c_string (Some fmt)) conn args p = DbPool.Query F fuel others (Some (c_str s)) conn p.
Proof. intros Hs. unfold PQuery. cbn [format_text]. by rewrite Hs. Qed.
Lemma DirectPExecute_text F fuel others fmt args s (p : pool) :
  StringFormat loc fmt args = FOk s →
  DirectPExecute loc F fuel others (c_string (Some fmt)) args p = DbPool.DirectExecute F fuel others (Some (c_str s)) p.
Proof. intros Hs. unfold DirectPExecute. cbn [format_text]. by rewrite Hs. Qed.
End statements_spec.

Definition demo_id : conversion :=
  {| c_index := None; c_flags := []; c_width := dim_none; c_precision := None; c_length := len_none; c_type := 117 |}.
Lemma PExecute_number_witness :
  render [Literal (text "delete from t where id = "); Conversion demo_id; Literal (text ";")] = text "delete from t where id = %u;" ∧
  ∃ s, PExecute classic_locale
      (c_string (Some (render [Literal (text "delete from t where id = "); Conversion demo_id; Literal (text ";")])))
      [uint_value 4294967295] (DbPool.demo_empty []) =
    Returns () (DbPool.with_queue (ProducerConsumerQueue.Push
        (DbTask.BasicStatementTask (text "delete from t where id = " ++ s ++ text ";") None) (DbPool._queue (DbPool.demo_empty [])))
      (DbPool.demo_empty [])) ∧
    strtoul (s ++ text ";" ++ [0]) = Some 4294967295.
Proof.
  split; [vm_compute; reflexivity|].
  destruct (PExecute_number classic_locale (text "delete from t where id = ") (text ";") demo_id (uint_value 4294967295) 4294967295 (DbPool.demo_empty []))
    as (s & Hrun & _ & Hul & _).
  1,2: apply (bool_decide_unpack _); vm_compute; exact I.
  - reflexivity.
  - apply (bool_decide_unpack _); vm_compute; exact I.
  - reflexivity.
  - apply (bool_decide_unpack _); vm_compute; exact I.
  - discriminate.
  - discriminate.
  - cbn. unfold in_unsigned. lia.
  - reflexivity.
  - exists s. split; [exact Hrun|]. apply Hul. vm_compute. discriminate.
Defined.

Example error_is_a_statement :
  PAppend classic_locale (text "update t set a = %s") [int_value 3] DbTask.make_transaction =
  FOk (DbTask.Append (text "An error occurred formatting string " ++ [34] ++ text "update t set a = %s" ++ [34] ++
                      text " : invalid type specifier") DbTask.make_transaction).
Proof. by vm_compute. Qed.

(** ** The text of bound values is decimal *)

Definition data_wf (data : PreparedStatement.PreparedStatementData) : Prop :=
  match data with
  | PreparedStatement.Bool _ | PreparedStatement.String _ | PreparedStatement.Binary _ | PreparedStatement.Null => True
  | PreparedStatement.UInt8 v => in_unsigned 8 v
  | PreparedStatement.UInt16 v => in_unsigned 16 v
  | PreparedStatement.UInt32 v => in_unsigned 32 v
  | PreparedStatement.UInt64 v => in_unsigned 64 v
  | PreparedStatement.Int8 v => in_signed 8 v
  | PreparedStatement.Int16 v => in_signed 16 v
  | PreparedStatement.Int32 v => in_signed 32 v
  | PreparedStatement.Int64 v => in_signed 64 v
  | PreparedStatement.Float _ | PreparedStatement.Double _ => False
  end.
Definition decimal_number (data : PreparedStatement.PreparedStatementData) : bytes :=
  match data with
  | PreparedStatement.UInt16 v | PreparedStatement.UInt32 v | PreparedStatement.UInt64 v
  | PreparedStatement.Int16 v | PreparedStatement.Int32 v | PreparedStatement.Int64 v => decimal v
  | _ => []
  end.

Lemma run_format_number loc v n :
  value_wf v → (v = int_value n ∨ v = uint_value n ∨ v = long_long_value n ∨ v = ulong_long_value n) →
  run_format loc (text "{}") [v] = FOk (decimal n).
Proof.
  intros Hv Hn. unfold run_format, FmtFormat.format, FmtFormat.vformat. rewrite decide_True by done.
  unfold get_arg. rewrite get_make by done. cbn [mbind result_bind]. change (zlookup [v] 0) with (Some v). cbn [mbind result_bind].
  by apply stringifier_integer.
Qed.

(** [ToString] of [PreparedStatement.v] with decimal numbers is what
    [fmt::format] answers. *)
Theorem ToString_fmt loc float_text data :
  data_wf data → ToString loc float_text data = FOk (PreparedStatement.ToString decimal_number data).
Proof.
  intros Hwf.
  assert (∀ v n, value_wf v → (v = int_value n ∨ v = uint_value n ∨ v = long_long_value n ∨ v = ulong_long_value n) →
    run_format loc (text "{}") [v] = FOk (decimal n)) as Hnum by (intros; by apply run_format_number).
  assert (∀ w1 w2 n, 0 < w1 ≤ w2 → in_signed w1 n → in_signed w2 n) as Hsw.
  { unfold in_signed. intros w1 w2 n Hw Hn. assert (2 ^ (w1 - 1) ≤ 2 ^ (w2 - 1)) by (apply Z.pow_le_mono_r; lia). lia. }
  assert (∀ w1 w2 n, 0 < w1 ≤ w2 → in_unsigned w1 n → in_unsigned w2 n) as Huw.
  { unfold in_unsigned. intros w1 w2 n Hw Hn. assert (2 ^ w1 ≤ 2 ^ w2) by (apply Z.pow_le_mono_r; lia). lia. }
  destruct data as [b|v|v|v|v|v|v|v|v|v|v|v|v|]; cbn [data_wf ToString ToString_number number_value PreparedStatement.ToString decimal_number] in *; try done.
  1: apply Hnum; [destruct b; cbn; unfold in_unsigned; lia|auto].
  1-8: apply Hnum; [cbn [value_wf]; first [eapply Hsw; [|exact Hwf]; lia|eapply Huw; [|exact Hwf]; lia]|auto].
Qed.
Lemma ToString_fmt_witness :
  data_wf (PreparedStatement.Int64 (-9223372036854775808)) ∧
  ToString classic_locale (λ _, FUndef) (PreparedStatement.Int64 (-9223372036854775808)) = FOk (text "-9223372036854775808").
Proof.
  assert (data_wf (PreparedStatement.Int64 (-9223372036854775808))) as Hwf by (cbn; unfold in_signed; lia).
  split; [exact Hwf|]. rewrite ToString_fmt by exact Hwf. vm_compute. reflexivity.
Defined.
End SqlText.
